(* ===== verification/_CoqProject ===== *)
-Q . S2P
Prelude.v
F64.v
Adaptive.v
Transport.v
Stage.v
Str.v
Link.v
Manifest.v
Frame.v
Codec.v
Source.v
Encryption.v
WebRtc.v
Channel.v
Control.v
Scheduler.v
Retry.v
Ice.v
Http.v
Monad.v
Fs.v
Checkpoint.v
Fetch.v
Download.v
Receive.v
Upload.v
Prepare.v
Json.v
Sealing.v
Sending.v
Sent.v
Staging.v
Managed.v
Inbox.v
Updater.v
Bundle.v
Saved.v
Application.v
Selection.v
Opening.v
Address.v
Notes.v
Config.v
Background.v
Receiver.v
Account.v
Local.v
Reserve.v
Export.v
Shares.v
