(* ===== verification/Prelude.v ===== *)
(** * Filebeam: a verified model of the native transfer clients

    Filebeam sends files and notes end to end encrypted.  A sender encrypts its
    files chunk by chunk under a fresh key, stores the ciphertext with a server
    (or serves it to a receiver over a WebRTC data channel), and hands over a
    link whose fragment holds the key; a receiver opens the sealed manifest with
    the key, fetches the chunks, authenticates each, and publishes the files.
    This development models the Rust code of the clients (src/crates): the
    protocol library, the native transfer engine, the client core on top of it,
    the configuration and the updater.

    ** How the code is modelled

    Definitions are translated from the source and named after it; they are
    executable, and Examples evaluate them.  Machine integers are [Z] with their
    checked, saturating or wrapping operations written out (Prelude.v); [f64] is
    the kernel's SpecFloat at binary64 (F64.v); a [&str] is the string of its
    UTF-8 bytes (Str.v).  [Result] is [result]; a method on [&mut self] that may
    fail is [SE S E A] of Monad.v, the state after the call and the result, so
    what an error leaves behind is part of every statement.  Shared maps are
    stdpp's [gmap].  What code outside src/ does is a parameter: the AEAD, HKDF,
    Argon2, HPKE and SHA-256 (Encryption.v, Codec.v), serde_json's text (Json.v,
    WebRtc.v, Checkpoint.v), TOML and URLs (Config.v,
    Address.v), signatures (Updater.v).  The laws used are documented facts of
    those libraries, class members or named hypotheses, and each such theorem has
    a witness with concrete functions for them.  Servers, peers, the disk and
    time are arguments: a plan of answers and faults read off a clock, so that a
    theorem quantifies over every behaviour of theirs.  A crash is an operation
    that ends with an I/O error and nothing after it; a durable write can also
    fail once it has taken effect, when its directory cannot be synchronized.  A
    memory reservation waits turn by turn for what others hold (Sealing.v); where
    a theorem says that a call succeeds, the others let go in the end, and what the
    call holds and asks for fits the budget.  Concurrency is a step
    relation or an explicit interleaving (Scheduler.v, Sending.v, Managed.v,
    Application.v).

    ** The parts and their files

    Support.  Prelude.v ([result], integers, lists, tactics, hints), Monad.v,
    F64.v, Str.v, Codec.v, Json.v, Fs.v (files with faults).

    The protocol library (crates/transfer, crates/encryption).  Adaptive.v:
    the concurrency controller.  Transport.v: memory and part sizes, retry
    delays, chunk lengths.  Stage.v: a staged upload's session and the progress.
    Link.v: share links.  Manifest.v: validation of a decrypted manifest.
    WebRtc.v, Frame.v: the live protocol's text messages and binary frames.
    Encryption.v: keys, nonces, chunks, manifests, recipient envelopes.

    The transfer engine (crates/transfer-native).  Source.v: upload sources.
    Selection.v: the files and archives picked by the user.  Control.v: memory
    budget, progress, prompts.  Retry.v, Ice.v, Http.v: retries, ICE servers and
    bounded reads.  Checkpoint.v: the private store of a job over Fs.v.
    Sending a transfer: Reserve.v is [run_new], from a selection to a reserved and
    durable job; Upload.v is the saved job ([UploadJob], its checks,
    ledger reconciliation, background completions), Prepare.v fingerprints and
    encrypts, Sealing.v seals manifest, descriptor and note, Staging.v delivers
    one chunk to the server, Sending.v is [continue_job] as a step relation over
    disk, requests in flight and producer, and Sent.v proves its invariant;
    Shares.v completes, watches, ends and revokes a transfer.
    Links: Address.v reads a pasted text with Link.v and presents a share as a link
    or as a command that a shell splits into three words.
    Receiving: Opening.v goes from a link to a saved job, Fetch.v is the retry
    loop of one chunk, Download.v the operations on the job and its files, and
    Receive.v whole runs of them; Background.v lets the operating system fetch.
    Channel.v is the live data channel on both sides.  Inbox.v stages deliveries
    of an account while its key is locked, Export.v saves them once it is not.  Saved.v lists, shows and resumes
    saved jobs.

    The client core and the clients (crates/client-core, client-config,
    client-updater).  Scheduler.v admits jobs to worker slots and memory.
    Managed.v is the handle on one job, Application.v the registry of jobs.
    Notes.v creates, opens and burns notes, from the links Address.v reads.  Account.v is a client's session, its
    requests for accounts, contacts and history, and the receiving keys; Local.v
    what of that a device keeps between runs; Receiver.v the automatic receiving of
    an inbox into Inbox.v's directories.  Config.v is the shared configuration
    file.  Updater.v and Bundle.v install signed releases.

    The parts meet in a few places, and the theorems cross them there:
    Reserve.v prepares with Selection.v and Prepare.v a job that Sending.v's runs
    start from, that Opening.v's receiver accepts ([upload_starts]) and whose key
    Account.v's recipient opens ([recipient_can_open]);
    Sending.v runs Prepare.v's producer and Upload.v's checks; what Sealing.v and
    Encryption.v seal is what Opening.v and Download.v open ([manifest_opens],
    [turbo_completes], [note_opens], [inbox_opens]) and, once Inbox.v
    has staged it, what Export.v saves ([delivery_saves]); Channel.v's requester is run against its
    server ([chunk_exchange]); Background.v's retained files are consumed by
    Download.v's [rebuild] after Opening.v's [reopen] has asked the server and the
    user again; Managed.v answers the prompts that Control.v's
    [request_peer_consent] waits for; Receiver.v calls Inbox.v's operations;
    Staging.v is proved against an interface ([ServerLaws]) of what the server
    promises, which its witness implements.

    ** What the theorems show

    - Confidential data stays consistent: under one key a nonce is used for one
      ciphertext only, whatever key a restart derives from the password it is given
      ([ciphertext_unique]), chunks decrypt to what was encrypted and nothing else
      authenticates ([chunk_encryption]).
    - Starting: a job is durable before its reservation is asked for, and an
      accepted reservation before anything is made of it ([reservation_durable]), and what it leaves can be sent and received
      ([upload_starts]).
    - Uploads: the job, artifacts and ledger agree after any fault and restart
      ([upload_invariant]), the loop ends, heartbeats aside ([upload_loop_ends]),
      with everything
      sent ([upload_complete]), a chunk reaches the server exactly as encrypted
      ([chunk_delivered], [stage_terminates]), and what the server claims is
      adopted only when it agrees ([reconcile_exact]).
    - Downloads: verified bits stand for authenticated plaintext at its place
      ([download_invariant]), files appear whole and never replace others
      ([download_complete], [outputs_kept]), a failing network is survived
      ([fetch_recovers]), and background completions neither lose nor overwrite
      anything and suffice to finish ([completion_safe],
      [background_fetch_completes], [background_finalizes]).
    - Metadata from the server is trusted only as far as the sealed manifest
      confirms it ([manifest_sound], [manifest_opens], [run_saves]).
    - Crashes: saved records are the old or the new one ([checkpoint_crash_atomic]),
      configuration survives and merges ([config_survives], [saves_merge]).
    - Jobs: consent is never implied ([consent_explicit]), results are neither
      lost nor invented ([final_report], [export_final]), a transfer has one owner
      ([ownership]), memory and slots are never oversubscribed
      ([scheduler_safety]), shutdown ends ([shutdown_report]).
    - Notes: a note reads back and is reported as consumed only when its removal
      went through ([note_opens]), and is removed only when the user let it be
      ([receive_safe]).
    - Accounts: an account's upload is never made anonymous ([never_anonymous]),
      a session is used only for the instance it was saved for ([session_scoped]),
      keys survive saving and wrapping ([keys_survive], [account_key_works]).
    - Automatic receiving: what is listed as staged is whole on the disk, within
      the cache limit ([receiver_invariant]), entries are neither lost nor brought
      back ([deliveries_kept]), and only what the user lets in is fetched
      ([sweep_obeys_policy]); a staged delivery is saved only after all of it was
      verified ([export_verifies_first]).
    - Updates: only signed, never older releases ([only_signed_releases],
      [generation_monotone]), no file outside the bundle ([bundle_contained]).

    ** Bounds and fuel

    Loops of the source over a finite list are structural.  Where the source
    loops on answers of the outside (retries, polling, pages), the model takes
    fuel or follows the list of answers: Fetch.v's and Staging.v's retry loops
    are bounded by the attempts the source itself counts, Retry.v by its attempt
    limit, Sending.v's and Application.v's runs are step relations without fuel
    whose termination is proved by a measure; every statement about a fuelled
    function either holds for all fuel or is proved with an explicit bound that
    suffices.  No theorem assumes that a call returns.

    ** Not modelled

    The command line, the terminal interface and the desktop application: argument
    parsing, screens and the state of their input fields, over the client core.
    The UniFFI and wasm-bindgen adapters: they convert types.  The peer connection set-up (SDP, ICE gathering,
    signalling) and the async runtime's semaphores and threads: calls of the
    webrtc and tokio crates.  Windows ACLs, renameat2 and other platform glue of
    the file system: Fs.v states what they give.  The live serving loop, the
    revocation of notes and the Turbo publication service: mostly
    sequences of HTTP requests around the modelled parts.  serde's positional form of structs (an array in place of an
    object) is not accepted by Json.v's readers, though serde accepts it.  The
    PHP server, the web client and the mobile applications are in other
    languages.  An operation of Application.v is one step, also where the code lets
    go of its registry in the middle (discard, resume, export). *)

From stdpp Require Export base tactics option list gmap strings.
From Stdlib Require Export ZArith Lia.
From stdpp Require Export numbers list.

#[global] Open Scope Z_scope.

(** ** Results

    [Result<A, E>] of the source.  [Ok]/[Err] keep Rust's constructors; [?] is
    the monadic bind of the instance below, written with stdpp's
    [x ← m; k]. *)

Inductive result (E A : Type) : Type :=
| Ok (a : A)
| Err (e : E).
Arguments Ok {E A} a.
Arguments Err {E A} e.

#[export] Instance result_ret E : MRet (result E) := λ A a, Ok a.
#[export] Instance result_bind E : MBind (result E) := λ A B f m,
  match m with Ok a => f a | Err e => Err e end.
#[export] Instance result_map E : FMap (result E) := λ A B f m,
  match m with Ok a => Ok (f a) | Err e => Err e end.

#[export] Instance result_eq_dec {E A} `{!EqDecision E, !EqDecision A} :
  EqDecision (result E A).
Proof. solve_decision. Defined.

(** [Option::ok_or] and anyhow's [context] on an [Option]. *)
Definition ok_or {E A} (o : option A) (e : E) : result E A :=
  match o with Some a => Ok a | None => Err e end.

(** [Result::is_ok] *)
Definition is_ok {E A} (r : result E A) : bool :=
  match r with Ok _ => true | Err _ => false end.

(** [Result::ok] *)
Definition res_opt {E A} (r : result E A) : option A :=
  match r with Ok a => Some a | Err _ => None end.

(** anyhow's [context] on a [Result]: the outermost message is the new one. *)
Definition context {E A} (r : result E A) (e : E) : result E A :=
  match r with Ok a => Ok a | Err _ => Err e end.

Declare Scope filebeam_scope.
Delimit Scope filebeam_scope with filebeam.
(** [reject c with e ; k] is the source's [if c { return Err(e) } k]. *)
Notation "'reject' c 'with' e ; k" := (if c then Err e else k)
  (at level 200, c at level 100, e at level 100, right associativity,
   format "'reject'  c  'with'  e ;  '//' k") : filebeam_scope.
#[global] Open Scope filebeam_scope.

(** Sequential traversal of a list: [iter().try_fold] and [for] loops that
    leave with [?] at the first error. *)
Fixpoint try_fold {E A B} (f : B → A → result E B) (b : B) (l : list A) : result E B :=
  match l with
  | [] => Ok b
  | a :: l => match f b a with Ok b' => try_fold f b' l | Err e => Err e end
  end.

(** ** Machine integers

    A [u64] is a [Z] in [0 .. u64_max]; every operation writes out what Rust's
    does at the edges.  [usize] is 64 bits wide on the platforms the clients
    ship for, so it shares these operations. *)

Definition u8_max : Z := 255.
Definition u16_max : Z := 65535.
Definition u32_max : Z := 4294967295.
Definition u64_max : Z := 18446744073709551615.

Definition is_u8 (x : Z) : Prop := 0 ≤ x ≤ u8_max.
Definition is_u16 (x : Z) : Prop := 0 ≤ x ≤ u16_max.
Definition is_u32 (x : Z) : Prop := 0 ≤ x ≤ u32_max.
Definition is_u64 (x : Z) : Prop := 0 ≤ x ≤ u64_max.

#[export] Instance is_u64_dec x : Decision (is_u64 x).
Proof. unfold is_u64. apply _. Defined.

Definition checked_add (a b : Z) : option Z :=
  if a + b <=? u64_max then Some (a + b) else None.
Definition checked_mul (a b : Z) : option Z :=
  if a * b <=? u64_max then Some (a * b) else None.
Definition checked_sub (a b : Z) : option Z :=
  if b <=? a then Some (a - b) else None.
Definition saturating_add (a b : Z) : Z := Z.min (a + b) u64_max.
Definition saturating_mul (a b : Z) : Z := Z.min (a * b) u64_max.
Definition saturating_sub (a b : Z) : Z := Z.max (a - b) 0.
Definition saturating_add32 (a b : Z) : Z := Z.min (a + b) u32_max.
Definition saturating_mul32 (a b : Z) : Z := Z.min (a * b) u32_max.
(** [u64::div_ceil]; the divisor is non-zero wherever the source calls it. *)
Definition div_ceil (a b : Z) : Z := (a + b - 1) / b.
(** [Ord::clamp] *)
Definition clamp (x lo hi : Z) : Z := if x <? lo then lo else if hi <? x then hi else x.
(** [x as u32] *)
Definition as_u32 (x : Z) : Z := x mod (u32_max + 1).
(** [x as u8] *)
Definition as_u8 (x : Z) : Z := x mod (u8_max + 1).

#[global] Arguments checked_add : simpl never.
#[global] Arguments checked_mul : simpl never.
#[global] Arguments checked_sub : simpl never.
#[global] Arguments saturating_add : simpl never.
#[global] Arguments saturating_mul : simpl never.
#[global] Arguments saturating_sub : simpl never.
#[global] Arguments saturating_add32 : simpl never.
#[global] Arguments saturating_mul32 : simpl never.
#[global] Arguments div_ceil : simpl never.
#[global] Arguments clamp : simpl never.
#[global] Arguments as_u32 : simpl never.
#[global] Arguments as_u8 : simpl never.

(** ** Automation *)

Ltac unfold_int :=
  unfold checked_add, checked_mul, checked_sub, saturating_add, saturating_mul,
    saturating_sub, saturating_add32, saturating_mul32, clamp,
    is_u8, is_u16, is_u32, is_u64, u8_max, u16_max, u32_max, u64_max in *.

(** Turn the source's boolean guards into propositions. *)
Ltac bool_prop :=
  repeat match goal with
  | H : _ && _ = true |- _ => apply andb_true_iff in H; destruct H
  | H : _ || _ = false |- _ => apply orb_false_iff in H; destruct H
  | H : _ || _ = true |- _ => apply orb_true_iff in H
  | H : _ && _ = false |- _ => apply andb_false_iff in H
  | H : negb _ = true |- _ => apply negb_true_iff in H
  | H : negb _ = false |- _ => apply negb_false_iff in H
  | H : (_ =? _)%string = true |- _ => apply String.eqb_eq in H
  | H : (_ =? _)%string = false |- _ => apply String.eqb_neq in H
  | H : (_ <? _) = true |- _ => apply Z.ltb_lt in H
  | H : (_ <? _) = false |- _ => apply Z.ltb_ge in H
  | H : (_ <=? _) = true |- _ => apply Z.leb_le in H
  | H : (_ <=? _) = false |- _ => apply Z.leb_gt in H
  | H : (_ =? _) = true |- _ => apply Z.eqb_eq in H
  | H : (_ =? _) = false |- _ => apply Z.eqb_neq in H
  | H : bool_decide _ = true |- _ => apply bool_decide_eq_true in H
  | H : bool_decide _ = false |- _ => apply bool_decide_eq_false in H
  | H : is_ok ?r = true |- _ => destruct r eqn:?; simpl in H; [clear H | discriminate H]
  end.

(** Likewise, splitting the disjunctions a false [&&] or a true [||] leaves. *)
Ltac bool_cases := repeat progress (bool_prop; destruct_or?; bool_prop).

(** Integer goals over the operations above. *)
Ltac int_lia := unfold_int; repeat case_match; bool_prop; simplify_eq; lia.

(** Follow a [result] computation that returned [Ok]/[Err]. *)
Ltac res_step :=
  unfold mbind, result_bind, mret, result_ret, fmap, result_map, ok_or, context in *; simpl in *;
  repeat (case_match; simplify_eq/=; try done).

(** Case analysis on every [reject] guard of a hypothesis. *)
Ltac guards H :=
  cbv zeta in H;
  repeat match type of H with
  | (if ?c then Err _ else _) = Ok _ => destruct c eqn:?; [discriminate H |]
  end.

Create HintDb filebeam discriminated.

(** ** Generic lemmas *)

Ltac checked_cases :=
  unfold checked_add, checked_mul, checked_sub; case_match; bool_prop;
  (split; [intros ?; simplify_eq; lia | intros ?; destruct_and?; simplify_eq; first [done | lia]]).

Lemma ok_or_Ok {E A} (o : option A) (e : E) (a : A) : ok_or o e = Ok a → o = Some a.
Proof. unfold ok_or. destruct o; congruence. Qed.

Lemma checked_add_Some a b c : checked_add a b = Some c ↔ c = a + b ∧ a + b ≤ u64_max.
Proof. checked_cases. Qed.
Lemma checked_add_None a b : checked_add a b = None ↔ u64_max < a + b.
Proof. checked_cases. Qed.
Lemma checked_mul_Some a b c : checked_mul a b = Some c ↔ c = a * b ∧ a * b ≤ u64_max.
Proof. checked_cases. Qed.
Lemma checked_mul_None a b : checked_mul a b = None ↔ u64_max < a * b.
Proof. checked_cases. Qed.

Lemma saturating_add_u64 a b : is_u64 a → is_u64 b → is_u64 (saturating_add a b).
Proof. int_lia. Qed.
Lemma saturating_sub_u64 a b : is_u64 a → is_u64 b → is_u64 (saturating_sub a b).
Proof. int_lia. Qed.
Lemma saturating_mul_u64 a b : is_u64 a → is_u64 b → is_u64 (saturating_mul a b).
Proof. unfold_int. intros. assert (0 ≤ a * b) by nia. lia. Qed.
#[export] Hint Resolve saturating_add_u64 saturating_sub_u64 saturating_mul_u64 : filebeam.

Lemma clamp_bounds x lo hi : lo ≤ hi → lo ≤ clamp x lo hi ≤ hi.
Proof. int_lia. Qed.
Lemma clamp_id x lo hi : lo ≤ x ≤ hi → clamp x lo hi = x.
Proof. int_lia. Qed.
#[export] Hint Resolve clamp_bounds : filebeam.

(** [div_ceil a b] is the least [n] with [a ≤ n * b]. *)
Lemma div_ceil_spec a b n : 0 < b → div_ceil a b ≤ n ↔ a ≤ n * b.
Proof.
  intros Hb. unfold div_ceil. split; intros H.
  - pose proof (Z.mul_div_le (a + b - 1) b Hb) as _.
    pose proof (Z.mod_pos_bound (a + b - 1) b Hb).
    pose proof (Z.div_mod (a + b - 1) b ltac:(lia)). nia.
  - apply Z.lt_succ_r, Z.div_lt_upper_bound; lia.
Qed.
Lemma div_ceil_upper a b : 0 < b → a ≤ div_ceil a b * b.
Proof. intros Hb. apply div_ceil_spec; lia. Qed.
Lemma div_ceil_lower a b : 0 < b → (div_ceil a b - 1) * b < a.
Proof.
  intros Hb. destruct (Z.lt_ge_cases ((div_ceil a b - 1) * b) a) as [|H]; [done|].
  apply div_ceil_spec in H; lia.
Qed.
Lemma div_ceil_nonneg a b : 0 < b → 0 ≤ a → 0 ≤ div_ceil a b.
Proof. intros. apply Z.div_pos; lia. Qed.
Lemma div_ceil_pos a b : 0 < b → 0 < a → 0 < div_ceil a b.
Proof. intros. pose proof (div_ceil_upper a b). nia. Qed.
Lemma div_ceil_0 b : 0 < b → div_ceil 0 b = 0.
Proof. intros. unfold div_ceil. apply Z.div_small. lia. Qed.

Lemma try_fold_app {E A B} (f : B → A → result E B) b l k :
  try_fold f b (l ++ k) = (b' ← try_fold f b l; try_fold f b' k).
Proof. revert b. induction l as [|a l IH]; intros b; [done|]. simpl. case_match; [apply IH|done]. Qed.

(** Invariant rule for a fold that leaves at the first error. *)
Lemma try_fold_ind {E A B} (P : list A → B → Prop) (f : B → A → result E B) b l b' :
  P [] b →
  (∀ done a b1 b2, a ∈ l → P done b1 → f b1 a = Ok b2 → P (done ++ [a]) b2) →
  try_fold f b l = Ok b' → P l b'.
Proof.
  intros H0 Hs. revert b' . induction l as [|a l IH] using rev_ind; intros b'.
  { simpl. by intros [= <-]. }
  rewrite try_fold_app. unfold mbind, result_bind.
  destruct (try_fold f b l) as [b1|] eqn:Hl; [|done]. simpl.
  destruct (f b1 a) as [b2|] eqn:Hf; [|done]. intros [= <-].
  eapply Hs; [set_solver | | done]. apply IH; [|done].
  intros. eapply Hs; [set_solver|done|done].
Qed.

(** ** Sums over integer ranges *)

Definition sum_Z (l : list Z) : Z := foldr Z.add 0 l.

Lemma sum_Z_app l k : sum_Z (l ++ k) = sum_Z l + sum_Z k.
Proof. induction l; simpl in *; lia. Qed.

Lemma sum_Z_nonneg l : Forall (λ x, 0 ≤ x) l → 0 ≤ sum_Z l.
Proof. induction 1; simpl in *; lia. Qed.

Lemma sum_Z_Permutation l k : l ≡ₚ k → sum_Z l = sum_Z k.
Proof. induction 1; simpl in *; lia. Qed.

Lemma sum_Z_shift {A} (l : list A) f c :
  sum_Z ((λ i, f i + c) <$> l) = sum_Z (f <$> l) + Z.of_nat (length l) * c.
Proof. induction l; csimpl in *; lia. Qed.

Lemma seqZ_succ m n : 0 ≤ n → seqZ m (Z.succ n) = seqZ m n ++ [m + n].
Proof. intros. unfold Z.succ. rewrite seqZ_app by lia. done. Qed.

Lemma sum_Z_seqZ_const f n c :
  0 ≤ n → (∀ i, 0 ≤ i < n → f i = c) → sum_Z (f <$> seqZ 0 n) = n * c.
Proof.
  intros Hn. pattern n. apply natlike_ind; [done| |done].
  clear n Hn. intros n Hn IH Hf. rewrite seqZ_succ, fmap_app, sum_Z_app by done.
  rewrite IH by (intros; apply Hf; lia). simpl. rewrite Hf by lia. lia.
Qed.

Lemma sum_Z_alter {A} (f : A → Z) (g : A → A) (n : nat) (l : list A) (a : A) :
  l !! n = Some a → sum_Z (f <$> alter g n l) = sum_Z (f <$> l) - f a + f (g a).
Proof.
  revert n. induction l as [|b l IH]; intros [|n] Hn; try done.
  - injection Hn as ->. cbn. lia.
  - change (alter g (S n) (b :: l)) with (b :: alter g n l). rewrite !fmap_cons.
    change (sum_Z (f b :: (f <$> alter g n l))) with (f b + sum_Z (f <$> alter g n l)).
    change (sum_Z (f b :: (f <$> l))) with (f b + sum_Z (f <$> l)). rewrite (IH n Hn). lia.
Qed.

(** A function without repeated values on a list is injective there. *)
Lemma NoDup_fmap_inj {A B} (f : A → B) (l : list A) x y :
  NoDup (f <$> l) → x ∈ l → y ∈ l → f x = f y → x = y.
Proof.
  induction l as [|a l IH]; [by intros _ ?%not_elem_of_nil|].
  rewrite fmap_cons, NoDup_cons. intros [Ha Hl] [->|Hx]%elem_of_cons [->|Hy]%elem_of_cons Hf; [done|..].
  - destruct Ha. rewrite Hf. by apply list_elem_of_fmap_2.
  - destruct Ha. rewrite <- Hf. by apply list_elem_of_fmap_2.
  - by apply IH.
Qed.

(** ** Durable writes

    A write that replaces a file atomically succeeds, or fails before or after
    it took effect. *)

Inductive Io := Done | FailedBefore | FailedAfter.

Definition io_write {S : Type} (io : Io) (f : S → S) (s : S) : result string () * S :=
  match io with
  | Done => (Ok (), f s)
  | FailedBefore => (Err "input/output error", s)
  | FailedAfter => (Err "input/output error", f s)
  end.
