(* ===== verification/F64.v ===== *)
(** * IEEE 754 binary64 arithmetic, as Rust's [f64] computes it

    The source's rate estimates are [f64].  The model uses the standard
    library's executable specification of IEEE 754 ([SpecFloat]) at precision
    53 and maximal exponent 1024, so every rounding is the one the machine
    makes.  The lemmas below relate floats that come from small integers with
    those integers; they carry the bounds of the part sizes. *)

From Stdlib Require Import SpecFloat.
From S2P Require Import Prelude.

Abbreviation f64 := spec_float.

Definition f64_prec : Z := 53.
Definition f64_emax : Z := 1024.

(** ** Operations *)

Definition f64_add : f64 → f64 → f64 := SFadd f64_prec f64_emax.
Definition f64_sub : f64 → f64 → f64 := SFsub f64_prec f64_emax.
Definition f64_mul : f64 → f64 → f64 := SFmul f64_prec f64_emax.
Definition f64_div : f64 → f64 → f64 := SFdiv f64_prec f64_emax.
Definition f64_lt : f64 → f64 → bool := SFltb.
Definition f64_le : f64 → f64 → bool := SFleb.
Definition f64_eq : f64 → f64 → bool := SFeqb.
Definition f64_gt (x y : f64) : bool := f64_lt y x.
Definition f64_ge (x y : f64) : bool := f64_le y x.
Definition f64_zero : f64 := S754_zero false.

Definition f64_is_finite (x : f64) : bool :=
  match x with S754_zero _ | S754_finite _ _ _ => true | _ => false end.

(** [n as f64] for an integer [n] (round to nearest, ties to even). *)
Definition f64_of_Z (n : Z) : f64 := binary_normalize f64_prec f64_emax n 0 false.

(** A decimal literal [n / d] whose parts are exactly representable: IEEE
    division rounds correctly, as does the parsing of a literal. *)
Definition f64_lit (n d : Z) : f64 := f64_div (f64_of_Z n) (f64_of_Z d).

(** The integer parts of a finite float, towards zero and downwards. *)
Definition trunc_Z (s : bool) (m : positive) (e : Z) : Z :=
  let a := if 0 <=? e then Zpos m * 2 ^ e else Zpos m / 2 ^ (- e) in
  if s then - a else a.
Definition floor_Z (s : bool) (m : positive) (e : Z) : Z :=
  let a := if s then Zneg m else Zpos m in
  if 0 <=? e then a * 2 ^ e else a / 2 ^ (- e).

(** [f64::floor]: an integral value is representable, so the rounding of
    [f64_of_Z] is exact here. *)
Definition f64_floor (x : f64) : f64 :=
  match x with S754_finite s m e => f64_of_Z (floor_Z s m e) | _ => x end.

(** [f64::fract] is [self - self.trunc()]. *)
Definition f64_trunc (x : f64) : f64 :=
  match x with
  | S754_finite s m e =>
      if trunc_Z s m e =? 0 then S754_zero s else f64_of_Z (trunc_Z s m e)
  | _ => x
  end.
Definition f64_fract (x : f64) : f64 := f64_sub x (f64_trunc x).

(** [x as u64]: saturating, and 0 for NaN. *)
Definition f64_to_u64 (x : f64) : Z :=
  match x with
  | S754_finite s m e => clamp (trunc_Z s m e) 0 u64_max
  | S754_infinity false => u64_max
  | _ => 0
  end.

(** [f64::clamp] *)
Definition f64_clamp (x lo hi : f64) : f64 :=
  if f64_lt x lo then lo else if f64_gt x hi then hi else x.

(** ** Digits and shifts *)

Lemma digits2_pos_bounds m :
  2 ^ (Zpos (digits2_pos m) - 1) ≤ Zpos m < 2 ^ Zpos (digits2_pos m).
Proof.
  induction m as [m IH|m IH|]; simpl; [| |done].
  all: rewrite Pos2Z.inj_succ, Z.pow_succ_r by lia;
    replace (Z.succ (Zpos (digits2_pos m)) - 1) with (Z.succ (Zpos (digits2_pos m) - 1)) by lia;
    rewrite Z.pow_succ_r by lia; lia.
Qed.

Lemma digits2_pos_unique m d :
  0 < d → 2 ^ (d - 1) ≤ Zpos m < 2 ^ d → Zpos (digits2_pos m) = d.
Proof.
  intros Hd [H1 H2]. pose proof (digits2_pos_bounds m) as [H3 H4].
  assert (d - 1 < Zpos (digits2_pos m)) by (apply (Z.pow_lt_mono_r_iff 2); lia).
  assert (Zpos (digits2_pos m) - 1 < d) by (apply (Z.pow_lt_mono_r_iff 2); lia).
  lia.
Qed.

Lemma iter_xO m d : Zpos (Pos.iter xO m d) = Zpos m * 2 ^ Zpos d.
Proof.
  induction d using Pos.peano_ind; [simpl; lia|].
  rewrite Pos.iter_succ, Pos2Z.inj_succ, Z.pow_succ_r by lia. lia.
Qed.

Lemma shr_1_m mrs : 0 ≤ shr_m mrs → shr_m (shr_1 mrs) = shr_m mrs / 2.
Proof.
  destruct mrs as [[|[p|p|]|p] r s]; simpl; try done; try lia; intros _.
  - apply Z.div_unique with 1; lia.
  - apply Z.div_unique with 0; lia.
Qed.

Lemma iter_shr_m p mrs :
  0 ≤ shr_m mrs → shr_m (SpecFloat.iter_pos shr_1 p mrs) = shr_m mrs / 2 ^ Zpos p.
Proof.
  revert mrs. induction p as [p IH|p IH|]; intros mrs H; simpl.
  - assert (0 ≤ shr_m (shr_1 mrs)) by (rewrite shr_1_m; [apply Z.div_pos|]; lia).
    rewrite !IH, shr_1_m; rewrite ?IH, ?shr_1_m; try done;
      repeat apply Z.div_pos; try lia.
    rewrite !Z.div_div by lia. f_equal.
    rewrite (Pos2Z.inj_xI p), Z.pow_add_r, Z.pow_twice_r by lia. lia.
  - rewrite !IH; rewrite ?IH; try done; [|apply Z.div_pos; lia].
    rewrite Z.div_div by lia. f_equal.
    rewrite (Pos2Z.inj_xO p), Z.pow_twice_r by lia. lia.
  - rewrite shr_1_m by done. f_equal.
Qed.

Lemma shr_record_m m l : shr_m (shr_record_of_loc m l) = m.
Proof. by destruct l as [|[]]. Qed.

(** Right shifts keep a mantissa non-negative and never lower the exponent. *)
Lemma shr_fexp_spec m e l :
  0 ≤ m →
  let n := fexp f64_prec f64_emax (Zdigits2 m + e) - e in
  let '(mrs, e') := shr_fexp f64_prec f64_emax m e l in
  shr_m mrs = m / 2 ^ Z.max n 0 ∧ e' = e + Z.max n 0.
Proof.
  intros Hm. unfold shr_fexp, shr. set (n := _ - e). simpl.
  destruct n as [|p|p].
  - rewrite shr_record_m. simpl. rewrite Z.div_1_r. lia.
  - rewrite iter_shr_m; rewrite shr_record_m; [|done].
    rewrite Z.max_l by lia. lia.
  - rewrite shr_record_m. simpl. rewrite Z.div_1_r. lia.
Qed.

Lemma round_nearest_even_ge m l : m ≤ round_nearest_even m l.
Proof. destruct l as [|[]]; simpl; try case_match; lia. Qed.

(** Rounding a non-negative mantissa never yields NaN, keeps the sign, and the
    result is at least as coarse as the first shift. *)
Lemma binary_round_aux_spec s m e l :
  0 ≤ m →
  let n := Z.max (fexp f64_prec f64_emax (Zdigits2 m + e) - e) 0 in
  match binary_round_aux f64_prec f64_emax s m e l with
  | S754_zero s' | S754_infinity s' => s' = s
  | S754_finite s' _ e' => s' = s ∧ e + n ≤ e'
  | S754_nan => False
  end.
Proof.
  intros Hm n. unfold binary_round_aux.
  pose proof (shr_fexp_spec m e l Hm) as H1.
  destruct (shr_fexp _ _ m e l) as [mrs1 e1]. destruct H1 as [H1 H1e].
  set (m1 := round_nearest_even _ _).
  assert (0 ≤ m1).
  { subst m1. pose proof (round_nearest_even_ge (shr_m mrs1) (loc_of_shr_record mrs1)).
    assert (0 ≤ shr_m mrs1) by (rewrite H1; apply Z.div_pos; lia). lia. }
  pose proof (shr_fexp_spec m1 e1 loc_Exact ltac:(done)) as H2.
  destruct (shr_fexp _ _ m1 e1 loc_Exact) as [mrs2 e2]. destruct H2 as [H2 H2e].
  assert (0 ≤ shr_m mrs2) by (rewrite H2; apply Z.div_pos; lia).
  destruct (shr_m mrs2); [done| |lia].
  destruct (e2 <=? _); [|done]. split; [done|]. subst n. lia.
Qed.

(** ** Integers below [2^53] are exact *)

Lemma fexp_small d : 0 < d ≤ 1100 → fexp f64_prec f64_emax d = d - 53.
Proof. unfold fexp, emin, f64_prec, f64_emax. lia. Qed.

Lemma fexp_ge d : d - 53 ≤ fexp f64_prec f64_emax d.
Proof. unfold fexp, emin, f64_prec, f64_emax. lia. Qed.

Lemma digits_lt m n : 0 < n → Zpos m < 2 ^ n → Zpos (digits2_pos m) ≤ n.
Proof.
  intros Hn H. pose proof (digits2_pos_bounds m) as [H1 _].
  destruct (Z.le_gt_cases (Zpos (digits2_pos m)) n); [done|].
  assert (2 ^ n ≤ 2 ^ (Zpos (digits2_pos m) - 1)) by (apply Z.pow_le_mono_r; lia). lia.
Qed.

(** The normal form of a small positive integer: a 53-bit mantissa. *)
Definition norm_m (z : positive) : positive :=
  match (53 - Zpos (digits2_pos z))%Z with Zpos d => Pos.iter xO z d | _ => z end.

Lemma f64_of_Z_small z :
  Zpos z < 2 ^ 53 →
  f64_of_Z (Zpos z) = S754_finite false (norm_m z) (Zpos (digits2_pos z) - 53)
  ∧ Zpos (norm_m z) = Zpos z * 2 ^ (53 - Zpos (digits2_pos z))
  ∧ Zpos (digits2_pos z) ≤ 53.
Proof.
  intros Hz. pose proof (digits_lt z 53 ltac:(lia) Hz) as Hd.
  assert (Hm : Zpos (norm_m z) = Zpos z * 2 ^ (53 - Zpos (digits2_pos z))).
  { unfold norm_m. destruct (53 - Zpos (digits2_pos z)) eqn:E; [simpl; lia| |lia].
    by rewrite iter_xO. }
  split; [|done]. unfold f64_of_Z, binary_normalize, binary_round.
  rewrite Z.add_0_r, fexp_small by lia.
  assert (Hal : shl_align z 0 (Zpos (digits2_pos z) - 53)
    = (norm_m z, Zpos (digits2_pos z) - 53)).
  { unfold shl_align, norm_m. rewrite Z.sub_0_r.
    destruct (Zpos (digits2_pos z) - 53) eqn:E; [| lia |].
    - replace (53 - Zpos (digits2_pos z)) with 0 by lia. done.
    - replace (53 - Zpos (digits2_pos z)) with (Zpos p) by lia. done. }
  rewrite Hal. set (m := norm_m z) in *. set (e := Zpos (digits2_pos z) - 53).
  assert (Hdm : Zpos (digits2_pos m) = 53).
  { apply digits2_pos_unique; [lia|]. rewrite Hm.
    pose proof (digits2_pos_bounds z) as [H1 H2]. clear Hm Hal m e.
    set (d := Zpos (digits2_pos z)) in *.
    assert (E1 : 2 ^ (53 - 1) = 2 ^ (53 - d) * 2 ^ (d - 1))
      by (rewrite <- Z.pow_add_r by lia; f_equal; lia).
    assert (E2 : 2 ^ 53 = 2 ^ (53 - d) * 2 ^ d)
      by (rewrite <- Z.pow_add_r by lia; f_equal; lia).
    assert (0 < 2 ^ (53 - d)) by (apply Z.pow_pos_nonneg; lia).
    rewrite E1, E2, (Z.mul_comm (Zpos z)). split.
    - apply Z.mul_le_mono_nonneg_l; lia.
    - apply Z.mul_lt_mono_pos_l; lia. }
  unfold binary_round_aux, shr_fexp, Zdigits2. rewrite Hdm, fexp_small by (subst e; lia).
  replace (53 + e - 53 - e) with 0 by lia. simpl.
  rewrite Hdm, fexp_small by (subst e; lia).
  replace (53 + e - 53 - e) with 0 by lia. simpl.
  case_match eqn:E; [done|]. bool_prop. unfold f64_emax, f64_prec in E. lia.
Qed.

(** Integers from [2^53] on: infinite, or a float with a positive exponent. *)
Lemma f64_of_Z_large z :
  2 ^ 53 ≤ Zpos z →
  match f64_of_Z (Zpos z) with
  | S754_infinity s => s = false
  | S754_finite s _ e => s = false ∧ 1 ≤ e
  | _ => False
  end.
Proof.
  intros Hz. pose proof (digits2_pos_bounds z) as [H1 H2].
  assert (Hd : 54 ≤ Zpos (digits2_pos z)).
  { destruct (Z.le_gt_cases 54 (Zpos (digits2_pos z))); [done|].
    assert (2 ^ Zpos (digits2_pos z) ≤ 2 ^ 53) by (apply Z.pow_le_mono_r; lia). lia. }
  unfold f64_of_Z, binary_normalize, binary_round. rewrite Z.add_0_r.
  pose proof (fexp_ge (Zpos (digits2_pos z))).
  assert (Hal : shl_align z 0 (fexp f64_prec f64_emax (Zpos (digits2_pos z))) = (z, 0)).
  { unfold shl_align. rewrite Z.sub_0_r. destruct (fexp _ _ _) eqn:E; [done..|lia]. }
  rewrite Hal.
  unfold binary_round_aux.
  pose proof (shr_fexp_spec (Zpos z) 0 loc_Exact ltac:(lia)) as Hs.
  destruct (shr_fexp _ _ (Zpos z) 0 loc_Exact) as [mrs1 e1]. destruct Hs as [Hs Hse].
  unfold Zdigits2 in Hs, Hse. rewrite Z.add_0_r, Z.sub_0_r in Hs, Hse.
  set (m1 := round_nearest_even _ _) in *.
  assert (Hm1 : 2 ^ 52 ≤ m1).
  { assert (2 ^ 52 ≤ shr_m mrs1).
    { rewrite Hs, Z.max_l by lia.
      unfold fexp, emin, f64_prec, f64_emax.
      rewrite Z.max_l by lia.
      apply Z.div_le_lower_bound; [apply Z.pow_pos_nonneg; lia|].
      rewrite <- Z.pow_add_r by lia.
      replace (Zpos (digits2_pos z) - 53 + 52) with (Zpos (digits2_pos z) - 1) by lia. done. }
    pose proof (round_nearest_even_ge (shr_m mrs1) (loc_of_shr_record mrs1)). subst m1. lia. }
  pose proof (shr_fexp_spec m1 e1 loc_Exact ltac:(lia)) as Ht.
  destruct (shr_fexp _ _ m1 e1 loc_Exact) as [mrs2 e2]. destruct Ht as [Ht Hte].
  assert (0 ≤ shr_m mrs2) by (rewrite Ht; apply Z.div_pos; lia).
  destruct (shr_m mrs2) eqn:E2; [|destruct (e2 <=? _); [lia|done]|lia].
  (* the mantissa cannot vanish: it keeps its 53 leading bits *)
  exfalso. destruct m1 as [|p1|p1]; [lia| |lia]. unfold Zdigits2 in Ht.
  symmetry in Ht. apply Z.div_small_iff in Ht; [|apply Z.pow_nonzero; lia].
  destruct Ht as [Ht|Ht]; [|lia].
  pose proof (digits2_pos_bounds p1) as [Hp1 Hp2].
  assert (Hdp : 53 ≤ Zpos (digits2_pos p1)).
  { destruct (Z.le_gt_cases 53 (Zpos (digits2_pos p1))); [done|].
    assert (2 ^ Zpos (digits2_pos p1) ≤ 2 ^ 52) by (apply Z.pow_le_mono_r; lia). lia. }
  assert (Hn : Z.max (fexp f64_prec f64_emax (Zpos (digits2_pos p1) + e1) - e1) 0
    ≤ Zpos (digits2_pos p1) - 1).
  { unfold fexp, emin, f64_prec, f64_emax. lia. }
  assert (2 ^ Z.max (fexp f64_prec f64_emax (Zpos (digits2_pos p1) + e1) - e1) 0
    ≤ 2 ^ (Zpos (digits2_pos p1) - 1)) by (apply Z.pow_le_mono_r; lia).
  lia.
Qed.

(** ** Order and conversions of small integers *)

Lemma norm_m_bounds z :
  Zpos z < 2 ^ 53 → 2 ^ 52 ≤ Zpos (norm_m z) < 2 ^ 53.
Proof.
  intros Hz. destruct (f64_of_Z_small z Hz) as (_ & Hm & Hd). rewrite Hm.
  pose proof (digits2_pos_bounds z) as [H1 H2]. set (d := Zpos (digits2_pos z)) in *.
  assert (E1 : 2 ^ 52 = 2 ^ (53 - d) * 2 ^ (d - 1))
    by (rewrite <- Z.pow_add_r by lia; f_equal; lia).
  assert (E2 : 2 ^ 53 = 2 ^ (53 - d) * 2 ^ d)
    by (rewrite <- Z.pow_add_r by lia; f_equal; lia).
  assert (0 < 2 ^ (53 - d)) by (apply Z.pow_pos_nonneg; lia).
  rewrite E1, E2, (Z.mul_comm (Zpos z)). split.
  - apply Z.mul_le_mono_nonneg_l; lia.
  - apply Z.mul_lt_mono_pos_l; lia.
Qed.

Lemma f64_to_u64_of_Z z : 0 ≤ z < 2 ^ 53 → f64_to_u64 (f64_of_Z z) = z.
Proof.
  intros Hz. destruct z as [|z|z]; [done| |lia].
  destruct (f64_of_Z_small z) as (-> & Hm & Hd); [lia|].
  unfold f64_to_u64. unfold trunc_Z. rewrite Hm.
  assert (0 < 2 ^ (53 - Zpos (digits2_pos z))) by (apply Z.pow_pos_nonneg; lia).
  assert (Ht : (if 0 <=? Zpos (digits2_pos z) - 53
     then Zpos z * 2 ^ (53 - Zpos (digits2_pos z)) * 2 ^ (Zpos (digits2_pos z) - 53)
     else Zpos z * 2 ^ (53 - Zpos (digits2_pos z)) / 2 ^ (- (Zpos (digits2_pos z) - 53)))
    = Zpos z).
  { case_match; bool_prop.
    - replace (Zpos (digits2_pos z)) with 53 by lia. change (2 ^ (53 - 53)) with 1. lia.
    - replace (- (Zpos (digits2_pos z) - 53)) with (53 - Zpos (digits2_pos z)) by lia.
      rewrite Z.div_mul; lia. }
  rewrite Ht. apply clamp_id. unfold u64_max. lia.
Qed.

Lemma f64_compare_small a b :
  0 ≤ a < 2 ^ 53 → 0 ≤ b < 2 ^ 53 →
  SFcompare (f64_of_Z a) (f64_of_Z b) = Some (a ?= b).
Proof.
  intros Ha Hb. destruct a as [|a|a], b as [|b|b]; try lia; try done.
  - destruct (f64_of_Z_small b) as (-> & _); [lia|]. done.
  - destruct (f64_of_Z_small a) as (-> & _); [lia|]. done.
  - destruct (f64_of_Z_small a) as (-> & Hma & Hda); [lia|].
    destruct (f64_of_Z_small b) as (-> & Hmb & Hdb); [lia|].
    pose proof (digits2_pos_bounds a) as Hba. pose proof (digits2_pos_bounds b) as Hbb.
    cbn [SFcompare]. f_equal.
    set (da := Zpos (digits2_pos a)) in *. set (db := Zpos (digits2_pos b)) in *.
    destruct (Z.compare_spec (da - 53) (db - 53)) as [E|E|E].
    + assert (da = db) as Eab by lia. rewrite Eab in Hma.
      change (Zpos (norm_m a) ?= Zpos (norm_m b) = (Zpos a ?= Zpos b)).
      rewrite Hma, Hmb. symmetry. apply Zmult_compare_compat_r.
      apply Z.lt_gt, Z.pow_pos_nonneg; lia.
    + symmetry. apply Z.compare_lt_iff.
      assert (2 ^ da ≤ 2 ^ (db - 1)) by (apply Z.pow_le_mono_r; lia). lia.
    + symmetry. apply Z.compare_gt_iff.
      assert (2 ^ db ≤ 2 ^ (da - 1)) by (apply Z.pow_le_mono_r; lia). lia.
Qed.

(** A float at least [2^53] away from zero compares above every small one. *)
Lemma f64_compare_large a b :
  2 ^ 53 ≤ a → 0 ≤ b < 2 ^ 53 →
  SFcompare (f64_of_Z a) (f64_of_Z b) = Some Gt ∧
  SFcompare (f64_of_Z b) (f64_of_Z a) = Some Lt.
Proof.
  intros Ha Hb. destruct a as [|a|a]; try lia.
  pose proof (f64_of_Z_large a Ha) as H.
  assert (Hb' : f64_of_Z b = S754_zero false ∨
    ∃ m e, f64_of_Z b = S754_finite false m e ∧ e ≤ 0).
  { destruct b as [|b|b]; [by left| |lia]. right.
    destruct (f64_of_Z_small b) as (-> & _ & Hd); [lia|]. eexists _, _; split; [done|lia]. }
  destruct (f64_of_Z (Zpos a)) as [s|s| |s m e]; try done; [subst s|destruct H as [-> H]].
  - by destruct Hb' as [-> | (m & e & -> & He)].
  - destruct Hb' as [-> | (m' & e' & -> & He)]; [done|]. cbn [SFcompare].
    destruct (Z.compare_spec e e'), (Z.compare_spec e' e); done || lia.
Qed.

(** Clamping an integral float between small bounds is integer clamping. *)
Lemma f64_clamp_of_Z n lo hi :
  0 ≤ n → 0 ≤ lo ≤ hi → hi < 2 ^ 53 →
  f64_to_u64 (f64_clamp (f64_of_Z n) (f64_of_Z lo) (f64_of_Z hi)) = clamp n lo hi.
Proof.
  intros Hn Hlo Hhi. unfold f64_clamp, f64_gt, f64_lt, SFltb, clamp.
  destruct (Z.le_gt_cases (2 ^ 53) n).
  - rewrite (proj1 (f64_compare_large n lo ltac:(lia) ltac:(lia))).
    rewrite (proj2 (f64_compare_large n hi ltac:(lia) ltac:(lia))).
    rewrite (proj2 (Z.ltb_ge n lo)), (proj2 (Z.ltb_lt hi n)) by lia.
    apply f64_to_u64_of_Z. lia.
  - rewrite !f64_compare_small by lia. unfold Z.ltb.
    destruct (n ?= lo) eqn:E; [| apply f64_to_u64_of_Z; lia |];
      (destruct (hi ?= n) eqn:E'; apply f64_to_u64_of_Z; lia).
Qed.

(** ** Signs *)

(** Zero, a positive number or [+inf]. *)
Definition f64_nonneg (x : f64) : bool :=
  match x with
  | S754_zero s | S754_infinity s | S754_finite s _ _ => negb s
  | S754_nan => false
  end.

Lemma binary_round_aux_nonneg m e l :
  0 ≤ m → f64_nonneg (binary_round_aux f64_prec f64_emax false m e l) = true.
Proof.
  intros Hm. pose proof (binary_round_aux_spec false m e l Hm) as H.
  by destruct (binary_round_aux _ _ _ _ _ _); simpl in *; destruct_and?; subst.
Qed.

(** A positive finite float times a positive finite float is non-negative,
    never NaN; likewise for a possibly infinite first factor. *)
Lemma f64_mul_nonneg x m e :
  f64_nonneg x = true → f64_nonneg (f64_mul x (S754_finite false m e)) = true.
Proof.
  destruct x as [s|s| |s m' e']; intros H; simpl in *; try done; destruct s; try done.
  unfold f64_mul, SFmul. apply binary_round_aux_nonneg. lia.
Qed.

Lemma f64_mul_pos_nonneg m e y :
  f64_nonneg y = true → f64_nonneg (f64_mul (S754_finite false m e) y) = true.
Proof.
  destruct y as [s|s| |s m' e']; intros H; simpl in *; try done; destruct s; try done.
  unfold f64_mul, SFmul. apply binary_round_aux_nonneg. lia.
Qed.

(** [n as f64] of an unsigned integer is zero or positive. *)
Lemma f64_of_Z_nonneg n : 0 ≤ n → f64_nonneg (f64_of_Z n) = true.
Proof.
  intros Hn. destruct n as [|n|n]; [done| |lia].
  destruct (Z.lt_ge_cases (Zpos n) (2 ^ 53)) as [H|H].
  - by destruct (f64_of_Z_small n H) as [-> _].
  - pose proof (f64_of_Z_large n H) as Hl.
    destruct (f64_of_Z (Zpos n)); [done| |done|]; simpl in *; destruct_and?; by subst.
Qed.

(** [x.is_finite() && x > 0.0] *)
Definition f64_usable (x : f64) : bool := f64_is_finite x && f64_gt x f64_zero.

Lemma f64_usable_inv x : f64_usable x = true → ∃ m e, x = S754_finite false m e.
Proof. destruct x as [[]|[]| |[] m e]; try done. by eexists _, _. Qed.

Lemma f64_floor_nonneg x :
  f64_nonneg x = true →
  f64_floor x = S754_infinity false ∨ f64_floor x = f64_zero ∨
  ∃ n, 0 ≤ n ∧ f64_floor x = f64_of_Z n.
Proof.
  destruct x as [s|s| |s m e]; simpl; intros H; try done; destruct s; try done; auto.
  right; right. eexists; split; [|done]. unfold floor_Z. case_match; bool_prop.
  - assert (0 ≤ 2 ^ e) by (apply Z.pow_nonneg; lia). lia.
  - apply Z.div_pos; [lia|]. apply Z.pow_pos_nonneg; lia.
Qed.

(** The clamp of a floored non-negative estimate stays between the bounds. *)
Lemma f64_clamp_floor x lo hi :
  f64_nonneg x = true → 0 ≤ lo ≤ hi → hi < 2 ^ 53 →
  lo ≤ f64_to_u64 (f64_clamp (f64_floor x) (f64_of_Z lo) (f64_of_Z hi)) ≤ hi.
Proof.
  intros Hx Hlo Hhi. destruct (f64_floor_nonneg x Hx) as [-> | [-> | (n & Hn & ->)]].
  - unfold f64_clamp, f64_gt, f64_lt, SFltb.
    assert (H : ∀ b, 0 ≤ b < 2 ^ 53 → SFcompare (S754_infinity false) (f64_of_Z b) = Some Gt
      ∧ SFcompare (f64_of_Z b) (S754_infinity false) = Some Lt).
    { intros [|b|b] Hb; [done| |lia].
      by destruct (f64_of_Z_small b ltac:(lia)) as [-> _]. }
    rewrite (proj1 (H lo ltac:(lia))), (proj2 (H hi ltac:(lia))).
    rewrite f64_to_u64_of_Z; lia.
  - change f64_zero with (f64_of_Z 0). rewrite f64_clamp_of_Z by lia. apply clamp_bounds; lia.
  - rewrite f64_clamp_of_Z by lia. apply clamp_bounds; lia.
Qed.
