(* ===== verification/Adaptive.v ===== *)
(** * Adaptive concurrency ([AdaptiveConcurrency], crates/transfer/src/lib.rs)

    The controller that decides how many requests a transfer keeps in flight.
    Samples of cumulative byte counters are turned into an aggregate rate; a
    probe adds one slot, and the next aggregate rate accepts or rejects it. *)

From S2P Require Import Prelude F64.

Definition MAX_CONCURRENCY : Z := 8.
Definition SAMPLE_WINDOW_MS : Z := 2000.
Definition PROBE_MIN_RATE : f64 :=
  f64_div (f64_mul (f64_of_Z 256) (f64_of_Z 1024)) (f64_of_Z 1000).
Definition PROBE_COOLDOWN_MS : Z := 2000.
Definition CONGESTION_COOLDOWN_MS : Z := 8000.
Definition RETIRED_REQUEST_IDS : nat := 1024.

(** [self.measured_rate * 0.5 + rate * 0.5] and the literal [1.1]. *)
Definition f64_half : f64 := f64_lit 5 10.
Definition f64_1_1 : f64 := f64_lit 11 10.

Record AdaptiveConcurrency := {
  current : Z;
  maximum : Z;
  requests : gmap string Z;
  retired_requests : gset string;
  retired_order : list string;
  window_start : option Z;
  window_bytes : Z;
  events : Z;
  measured_rate : f64;
  probe_rate : option f64;
  cooldown_until : Z;
  successes : Z }.

(** Field updates. *)
Definition set_requests r (s : AdaptiveConcurrency) :=
  {| current := current s; maximum := maximum s; requests := r;
     retired_requests := retired_requests s; retired_order := retired_order s;
     window_start := window_start s; window_bytes := window_bytes s; events := events s;
     measured_rate := measured_rate s; probe_rate := probe_rate s;
     cooldown_until := cooldown_until s; successes := successes s |}.
Definition set_retired q o (s : AdaptiveConcurrency) :=
  {| current := current s; maximum := maximum s; requests := requests s;
     retired_requests := q; retired_order := o;
     window_start := window_start s; window_bytes := window_bytes s; events := events s;
     measured_rate := measured_rate s; probe_rate := probe_rate s;
     cooldown_until := cooldown_until s; successes := successes s |}.
Definition set_window w b e (s : AdaptiveConcurrency) :=
  {| current := current s; maximum := maximum s; requests := requests s;
     retired_requests := retired_requests s; retired_order := retired_order s;
     window_start := w; window_bytes := b; events := e;
     measured_rate := measured_rate s; probe_rate := probe_rate s;
     cooldown_until := cooldown_until s; successes := successes s |}.
Definition set_rate r (s : AdaptiveConcurrency) :=
  {| current := current s; maximum := maximum s; requests := requests s;
     retired_requests := retired_requests s; retired_order := retired_order s;
     window_start := window_start s; window_bytes := window_bytes s; events := events s;
     measured_rate := r; probe_rate := probe_rate s;
     cooldown_until := cooldown_until s; successes := successes s |}.
Definition set_control c p d n (s : AdaptiveConcurrency) :=
  {| current := c; maximum := maximum s; requests := requests s;
     retired_requests := retired_requests s; retired_order := retired_order s;
     window_start := window_start s; window_bytes := window_bytes s; events := events s;
     measured_rate := measured_rate s; probe_rate := p;
     cooldown_until := d; successes := n |}.

(** ** Operations *)

Definition new (maximum : Z) : AdaptiveConcurrency :=
  {| current := 1; maximum := clamp maximum 1 MAX_CONCURRENCY; requests := ∅;
     retired_requests := ∅; retired_order := []; window_start := None; window_bytes := 0;
     events := 0; measured_rate := f64_zero; probe_rate := None; cooldown_until := 0;
     successes := 0 |}.

Definition limit (s : AdaptiveConcurrency) : Z := current s.
Definition rate (s : AdaptiveConcurrency) : f64 := measured_rate s.

(** [!rate.is_finite() || rate <= 0.0] *)
Definition unusable (rate : f64) : bool := negb (f64_is_finite rate) || f64_le rate f64_zero.

Definition record_rate (rate : f64) (s : AdaptiveConcurrency) : AdaptiveConcurrency :=
  if unusable rate then s
  else set_rate
    (if f64_eq (measured_rate s) f64_zero then rate
     else f64_add (f64_mul (measured_rate s) f64_half) (f64_mul rate f64_half)) s.

Definition learn_aggregate (rate : f64) (now_ms : Z) (s0 : AdaptiveConcurrency)
    : AdaptiveConcurrency :=
  let s := record_rate rate s0 in
  if unusable rate || (now_ms <? cooldown_until s) then s
  else match probe_rate s with
  | Some probe =>
      if f64_lt rate (f64_mul probe f64_1_1)
      then set_control (Z.max (saturating_sub (current s) 1) 1) None
             (saturating_add now_ms CONGESTION_COOLDOWN_MS) 0 s
      else set_control (current s) None (saturating_add now_ms PROBE_COOLDOWN_MS) 0 s
  | None => s
  end.

(** The part of [sample] after the retired-request check. *)
Definition sample_live (key : string) (loaded now_ms : Z) (s : AdaptiveConcurrency)
    : AdaptiveConcurrency :=
  let previous := default 0 (requests s !! key) in
  let s := set_requests (<[key := loaded]> (requests s)) s in
  if loaded <? previous then s
  else
    let delta := loaded - previous in
    if delta =? 0 then s
    else
      let start := default now_ms (window_start s) in
      let s := set_window (Some start) (saturating_add (window_bytes s) delta)
                 (saturating_add32 (events s) 1) s in
      let elapsed := saturating_sub now_ms start in
      if (SAMPLE_WINDOW_MS <=? elapsed) && (3 <=? events s) then
        let rate := f64_div (f64_of_Z (window_bytes s)) (f64_of_Z elapsed) in
        set_window (Some now_ms) 0 0 (learn_aggregate rate now_ms s)
      else s.

Definition sample (key : string) (loaded now_ms : Z) (s : AdaptiveConcurrency)
    : AdaptiveConcurrency :=
  if bool_decide (key ∈ retired_requests s) then
    if negb (loaded =? 0) then s
    else sample_live key loaded now_ms
      (set_retired (retired_requests s ∖ {[key]})
         (filter (λ retired, retired ≠ key) (retired_order s)) s)
  else sample_live key loaded now_ms s.

(** The retirement half of [forget]. *)
Definition retire (key : string) (s : AdaptiveConcurrency) : AdaptiveConcurrency :=
  match requests s !! key with
  | None => s
  | Some _ =>
      let s := set_requests (delete key (requests s)) s in
      if bool_decide (key ∈ retired_requests s) then s
      else
        let retired := {[key]} ∪ retired_requests s in
        let order := retired_order s ++ [key] in
        match order with
        | oldest :: rest =>
            if (RETIRED_REQUEST_IDS <? length order)%nat
            then set_retired (retired ∖ {[oldest]}) rest s
            else set_retired retired order s
        | [] => set_retired retired order s
        end
  end.

Definition forget (key : string) (s : AdaptiveConcurrency) : AdaptiveConcurrency :=
  let s := retire key s in
  if bool_decide (requests s = ∅) then set_window None 0 0 s else s.

Definition observe (bytes elapsed_ms now_ms : Z) (s : AdaptiveConcurrency)
    : AdaptiveConcurrency :=
  if (bytes =? 0) || (elapsed_ms =? 0) then s
  else
    let s := record_rate (f64_div (f64_of_Z bytes) (f64_of_Z elapsed_ms)) s in
    let s := set_control (current s) (probe_rate s) (cooldown_until s)
               (saturating_add32 (successes s) 1) s in
    if (cooldown_until s <=? now_ms)
       && (saturating_mul32 (current s) 2 <=? successes s)
       && f64_ge (measured_rate s) PROBE_MIN_RATE
       && (1 <? maximum s) && (current s <? maximum s)
    then set_control (current s + 1) (Some (measured_rate s))
           (saturating_add now_ms PROBE_COOLDOWN_MS) 0 s
    else s.

Definition congested (now_ms : Z) (s : AdaptiveConcurrency) : AdaptiveConcurrency :=
  set_control (Z.max (current s / 2) 1) None (saturating_add now_ms CONGESTION_COOLDOWN_MS) 0 s.

(** ** Traces of the controller's operations *)

Inductive op :=
| Sample (key : string) (loaded now_ms : Z)
| Forget (key : string)
| Observe (bytes elapsed_ms now_ms : Z)
| Congested (now_ms : Z).

Definition apply (s : AdaptiveConcurrency) (o : op) : AdaptiveConcurrency :=
  match o with
  | Sample key loaded now_ms => sample key loaded now_ms s
  | Forget key => forget key s
  | Observe bytes elapsed_ms now_ms => observe bytes elapsed_ms now_ms s
  | Congested now_ms => congested now_ms s
  end.

Definition run (s : AdaptiveConcurrency) (ops : list op) : AdaptiveConcurrency :=
  foldl apply s ops.

(** The arguments are [u64]s. *)
Definition op_u64 (o : op) : Prop :=
  match o with
  | Sample _ loaded now_ms => is_u64 loaded ∧ is_u64 now_ms
  | Forget _ => True
  | Observe bytes elapsed_ms now_ms => is_u64 bytes ∧ is_u64 elapsed_ms ∧ is_u64 now_ms
  | Congested now_ms => is_u64 now_ms
  end.

(** The clock reading an operation carries. *)
Definition op_time (o : op) : option Z :=
  match o with
  | Sample _ _ now_ms | Observe _ _ now_ms | Congested now_ms => Some now_ms
  | Forget _ => None
  end.

(** ** The invariant *)

(** The concurrency stays inside its bounds. *)
Definition limits_wf (s : AdaptiveConcurrency) : Prop :=
  1 ≤ current s ≤ maximum s ∧ maximum s ≤ MAX_CONCURRENCY.

(** The retirement queue lists the retired set once each, stays bounded and
    holds no live request. *)
Definition retired_wf (s : AdaptiveConcurrency) : Prop :=
  NoDup (retired_order s) ∧ retired_requests s = list_to_set (retired_order s) ∧
  (length (retired_order s) ≤ RETIRED_REQUEST_IDS)%nat ∧
  dom (requests s) ## retired_requests s.

(** A window is open whenever it holds bytes, and never without a request. *)
Definition window_wf (s : AdaptiveConcurrency) : Prop :=
  is_u64 (window_bytes s) ∧ is_u32 (events s) ∧
  (window_start s = None → window_bytes s = 0 ∧ events s = 0) ∧
  (requests s = ∅ → window_start s = None) ∧
  map_Forall (λ _ loaded, is_u64 loaded) (requests s).

Definition wf (s : AdaptiveConcurrency) : Prop :=
  limits_wf s ∧ retired_wf s ∧ window_wf s.

Ltac split_wf := unfold wf, limits_wf, retired_wf, window_wf in *; split_and!; cbn.

Lemma controller_new_wf m : wf (new m).
Proof.
  pose proof (clamp_bounds m 1 MAX_CONCURRENCY ltac:(done)) as Hm.
  split_wf; try done; try lia. constructor.
Qed.

Lemma learn_aggregate_wf r now s : wf s → wf (learn_aggregate r now s).
Proof.
  intros (Hl & Hr & Hw). unfold learn_aggregate, record_rate.
  assert (Hc : 1 ≤ Z.max (saturating_sub (current s) 1) 1 ≤ maximum s)
    by (destruct Hl; unfold_int; lia).
  repeat case_match; split_and!; try done; cbn; try (split; [done|by destruct Hl]).
Qed.

Lemma sample_live_wf key loaded now s :
  wf s → is_u64 loaded → is_u64 now → key ∉ retired_requests s → wf (sample_live key loaded now s).
Proof.
  intros (Hl & (Hn & He & Hlen & Hd) & (Hb & Hv & Hs & Hr & Hm)) Hld Hnow Hk.
  assert (Hpre : 0 ≤ default 0 (requests s !! key)).
  { destruct (requests s !! key) eqn:E; [|done]. apply Hm in E. cbn. unfold_int. lia. }
  unfold sample_live.
  set (s1 := set_requests _ s).
  assert (Hr1 : retired_wf s1).
  { split_and!; try done. cbn. rewrite dom_insert. set_solver. }
  assert (Hm1 : map_Forall (λ _ l, is_u64 l) (requests s1)) by (by apply map_Forall_insert_2).
  assert (Hne : requests s1 ≠ ∅) by apply insert_non_empty.
  assert (Hw1 : window_wf s1) by (split_and!; done).
  case_match; [done|]. case_match; [done|]. bool_prop.
  set (s2 := set_window _ _ _ s1).
  assert (Hw2 : window_wf s2).
  { split_and!; cbn; try done; [|unfold_int; lia]. apply saturating_add_u64; [done|].
    unfold_int; lia. }
  case_match; [|done].
  set (r := f64_div _ _). destruct (learn_aggregate_wf r now s2) as (? & ? & ?); [done|].
  assert (Hrq : requests (learn_aggregate r now s2) = requests s1)
    by (unfold learn_aggregate, record_rate; repeat case_match; done).
  split_wf; rewrite ?Hrq in *; destruct_and?; done.
Qed.

Lemma elem_of_filter_ne (key x : string) (l : list string) :
  x ∈ filter (λ y, y ≠ key) l ↔ x ≠ key ∧ x ∈ l.
Proof. by rewrite list_elem_of_filter. Qed.

Lemma sample_wf key loaded now s :
  wf s → is_u64 loaded → is_u64 now → wf (sample key loaded now s).
Proof.
  intros Hwf Hld Hnow. unfold sample. case_bool_decide as Hk.
  - case_match; [done|]. apply sample_live_wf; [|done..|cbn; set_solver].
    destruct Hwf as (Hl & (Hn & He & Hlen & Hd) & Hw). split; [done|]. split; [|done].
    split_and!; cbn.
    + by apply NoDup_filter.
    + apply set_eq. intros x. rewrite elem_of_difference, He, !elem_of_list_to_set,
        elem_of_filter_ne. set_solver.
    + etrans; [apply length_filter|done].
    + set_solver.
  - by apply sample_live_wf.
Qed.

Lemma retire_wf key s :
  wf s → limits_wf (retire key s) ∧ retired_wf (retire key s) ∧
         (requests (retire key s) ≠ ∅ → window_wf (retire key s)).
Proof.
  intros Hwf. pose proof Hwf as (Hl & (Hn & He & Hlen & Hd) & (Hb & Hv & Hs & Hr & Hm)).
  unfold retire. destruct (requests s !! key) as [l|] eqn:Ek; [|by destruct Hwf as (? & ? & ?)].
  assert (Hkr : key ∉ retired_requests s).
  { intros Hin. apply (Hd key); [|done]. by apply elem_of_dom_2 in Ek. }
  assert (Hm' : map_Forall (λ _ l, is_u64 l) (delete key (requests s)))
    by by apply map_Forall_delete.
  assert (Hko : key ∉ retired_order s) by (rewrite He in Hkr; set_solver).
  assert (Hn' : NoDup (retired_order s ++ [key])).
  { apply NoDup_app. split_and!; [done|set_solver|apply NoDup_singleton]. }
  rewrite bool_decide_false by done. cbn [retired_requests retired_order set_requests].
  destruct (retired_order s ++ [key]) as [|oldest rest] eqn:Eo.
  { by destruct (retired_order s). }
  apply NoDup_cons in Hn' as [Ho Hrest].
  assert (Hset : {[key]} ∪ retired_requests s = list_to_set (oldest :: rest)).
  { rewrite He, <- Eo. rewrite list_to_set_app_L. set_solver. }
  assert (Hlen' : length (oldest :: rest) = S (length (retired_order s)))
    by (rewrite <- Eo, length_app; cbn; lia).
  case_match eqn:El; split_wf; try done; try lia; try (by rewrite Hr in Ek).
  - rewrite Hset. cbn. set_solver.
  - cbn in Hlen'. lia.
  - rewrite dom_delete. set_solver.
  - by constructor.
  - apply Nat.ltb_ge in El. cbn in *. lia.
  - rewrite dom_delete. set_solver.
Qed.

Lemma forget_wf key s : wf s → wf (forget key s).
Proof.
  intros Hwf. destruct (retire_wf key s Hwf) as (Hl & Hr & Hw). unfold forget.
  case_bool_decide as He; [|by split_wf; try apply Hl; try apply Hr; try apply (Hw He)].
  split; [done|]. split; [done|]. split_wf; try done; try (unfold_int; lia). rewrite He. done.
Qed.

Lemma record_rate_fields r s :
  current (record_rate r s) = current s ∧ maximum (record_rate r s) = maximum s ∧
  probe_rate (record_rate r s) = probe_rate s ∧
  cooldown_until (record_rate r s) = cooldown_until s ∧
  successes (record_rate r s) = successes s.
Proof. unfold record_rate. by destruct (unusable r). Qed.

Lemma record_rate_wf r s : wf s → wf (record_rate r s).
Proof. intros (? & ? & ?). unfold record_rate. by destruct (unusable r). Qed.

(** [observe] raises the limit by one or leaves it; a rise needs a finished
    cooldown and room below the maximum. *)
Lemma observe_current b e now s :
  current (observe b e now s) = current s ∨
  (current (observe b e now s) = current s + 1 ∧ current s < maximum s ∧ cooldown_until s ≤ now).
Proof.
  unfold observe. destruct (_ || _); [by left|].
  set (r := f64_div _ _). destruct (record_rate_fields r s) as (Hc & Hm & _ & Hd & _).
  set (s1 := record_rate r s) in *. cbn.
  destruct (_ && (current s1 <? maximum s1)) eqn:E; cbn; rewrite Hc; [right|by left].
  bool_prop. lia.
Qed.

Lemma observe_wf b e now s : wf s → wf (observe b e now s).
Proof.
  intros Hwf. pose proof (observe_current b e now s) as Hc. revert Hc. unfold observe.
  destruct (_ || _); [done|]. set (r := f64_div _ _).
  pose proof (record_rate_fields r s) as (Hrc & Hrm & _).
  destruct (record_rate_wf r s Hwf) as (Hl & Hr & Hw).
  set (s1 := record_rate r s) in *. cbn. destruct (_ && (current s1 <? maximum s1)); cbn.
  - intros [Hc | (Hc & Hlt & _)]; [lia|]. split; [|done]. destruct Hl as [Hl Hx].
    split; [cbn; lia|done].
  - intros _. by split.
Qed.

Lemma congested_wf now s : wf s → wf (congested now s).
Proof.
  intros (Hl & Hr & Hw). split; [|by split]. destruct Hl. split; [|done]. cbn.
  split; [lia|]. apply Z.max_lub; [|lia]. apply Z.div_le_upper_bound; lia.
Qed.

Lemma apply_wf s o : wf s → op_u64 o → wf (apply s o).
Proof.
  intros Hwf Ho. destruct o; simpl in *.
  - destruct Ho. by apply sample_wf.
  - by apply forget_wf.
  - by apply observe_wf.
  - by apply congested_wf.
Qed.

Lemma run_wf s ops : wf s → Forall op_u64 ops → wf (run s ops).
Proof.
  intros Hs Hops. revert s Hs. induction Hops as [|o ops Ho _ IH]; intros s Hs; [done|].
  simpl. by apply IH, apply_wf.
Qed.

(** The configured maximum is fixed when the controller is made. *)
Lemma apply_maximum s o : maximum (apply s o) = maximum s.
Proof.
  destruct o; cbn [apply];
    unfold sample, sample_live, learn_aggregate, record_rate, forget, retire, observe, record_rate, congested;
    repeat case_match; done.
Qed.

Lemma run_maximum s ops : maximum (run s ops) = maximum s.
Proof.
  revert s. induction ops as [|o ops IH]; intros s; [done|]. unfold run in *. cbn [foldl].
  by rewrite IH, apply_maximum.
Qed.

(** C28: however samples, completions and congestion signals interleave, the
    concurrency limit stays between one and the configured maximum, taken as one
    when it is zero and as eight when it is more, the retired-request queue stays
    within 1,024 distinct identifiers that are disjoint from the live requests,
    and no bytes are held in a closed sampling window. *)
Theorem run_new_wf m ops :
  Forall op_u64 ops →
  let s := run (new m) ops in
  wf s ∧ 1 ≤ limit s ≤ Z.max 1 m ∧ limit s ≤ MAX_CONCURRENCY.
Proof.
  intros Hops s. assert (Hwf : wf s) by by apply run_wf; [apply controller_new_wf|].
  split; [done|]. destruct Hwf as ([Hc Hm] & _). unfold limit.
  assert (Hmax : maximum s = clamp m 1 MAX_CONCURRENCY) by apply run_maximum.
  unfold clamp, MAX_CONCURRENCY in *. repeat case_match; lia.
Qed.

Lemma run_new_wf_witness :
  1 ≤ limit (run (new 4) [Sample "a" 10 0; Observe 400000 100 5; Sample "a" 30 2500;
    Forget "a"; Sample "a" 50 2600; Congested 3000]) ≤ Z.max 1 4.
Proof.
  apply run_new_wf. repeat constructor; unfold is_u64, u64_max; lia.
Defined.

(** ** Late progress events of a finished request *)

(** [key] is retired, with at most [n] younger entries behind it. *)
Definition queued (n : nat) (key : string) (s : AdaptiveConcurrency) : Prop :=
  ∃ pre post, retired_order s = pre ++ key :: post ∧ (length post ≤ n)%nat.

Lemma learn_aggregate_queue r now s :
  retired_order (learn_aggregate r now s) = retired_order s
  ∧ retired_requests (learn_aggregate r now s) = retired_requests s.
Proof. unfold learn_aggregate, record_rate. repeat case_match; done. Qed.

Lemma sample_live_queue key loaded now s :
  retired_order (sample_live key loaded now s) = retired_order s.
Proof.
  unfold sample_live. repeat case_match; try done. cbn.
  match goal with |- context [learn_aggregate ?r ?n ?s] =>
    by destruct (learn_aggregate_queue r n s) as [-> _] end.
Qed.

Lemma sample_queued n key k loaded now s :
  queued n key s → (k = key → loaded ≠ 0) → wf s → queued n key (sample k loaded now s).
Proof.
  intros (pre & post & Ho & Hlen) Hk Hwf. unfold sample, queued. case_bool_decide as Hr.
  - destruct (loaded =? 0) eqn:E; simpl; [|by exists pre, post]. bool_prop.
    rewrite sample_live_queue. cbn. rewrite Ho, filter_app, filter_cons_True by naive_solver.
    eexists _, _; split; [done|]. etrans; [apply length_filter|done].
  - rewrite sample_live_queue. by exists pre, post.
Qed.

Lemma forget_queued n key k s :
  queued n key s → (n < RETIRED_REQUEST_IDS - 1)%nat → queued (S n) key (forget k s).
Proof.
  intros (pre & post & Ho & Hlen) Hn.
  assert (H : queued (S n) key (retire k s)).
  { unfold retire, queued. destruct (requests s !! k); [|exists pre, post; split; [done|lia]].
    case_bool_decide; [exists pre, post; split; [done|lia]|].
    cbn [retired_order retired_requests set_requests]. rewrite Ho, <- app_assoc. simpl.
    destruct pre as [|p pre]; simpl.
    - rewrite length_app. simpl. rewrite (proj2 (Nat.ltb_ge _ _)) by lia.
      exists [], (post ++ [k]). split; [done|]. rewrite length_app; simpl; lia.
    - case_match; cbn; [exists pre, (post ++ [k])|exists (p :: pre), (post ++ [k])];
        (split; [done|rewrite length_app; simpl; lia]). }
  unfold forget. by case_bool_decide.
Qed.

Lemma forget_starts_queue key s l :
  wf s → requests s !! key = Some l → queued 0 key (forget key s).
Proof.
  intros (_ & (Hn & He & Hlen & Hd) & _) Hk.
  assert (Hr : key ∉ retired_requests s)
    by (intros Hr; apply (Hd key); [by apply elem_of_dom_2 in Hk|done]).
  assert (H : queued 0 key (retire key s)).
  { unfold retire, queued. rewrite Hk, bool_decide_false by done.
    cbn [retired_order retired_requests set_requests].
    destruct (retired_order s) as [|p pre]; simpl.
    - by exists [], [].
    - case_match; cbn; [by exists pre, []|by exists (p :: pre), []]. }
  unfold forget. by case_bool_decide.
Qed.

(** Requests finishing in a trace. *)
Fixpoint forgets (ops : list op) : nat :=
  match ops with
  | [] => 0
  | Forget _ :: ops => S (forgets ops)
  | _ :: ops => forgets ops
  end.

(** A restart of [key] announces itself with a zero sample. *)
Definition restarts (key : string) (o : op) : bool :=
  match o with Sample k loaded _ => bool_decide (k = key) && (loaded =? 0) | _ => false end.

Lemma observe_queue b e t s : retired_order (observe b e t s) = retired_order s.
Proof.
  unfold observe, record_rate. destruct (_ || _); [done|].
  set (r := f64_div _ _). destruct (unusable r); cbn; by destruct (_ && _).
Qed.

Lemma run_queued n key s ops :
  wf s → queued n key s → Forall op_u64 ops → Forall (λ o, restarts key o = false) ops →
  (n + forgets ops < RETIRED_REQUEST_IDS)%nat → queued (n + forgets ops) key (run s ops).
Proof.
  intros Hwf Hq Hu. revert n s Hwf Hq. induction Hu as [|o ops Ho _ IH]; intros n s Hwf Hq Hr Hn.
  { simpl in *. by rewrite Nat.add_0_r. }
  inversion Hr as [|?? Hro Hr']; subst. simpl.
  destruct o as [k l t|k|b e t|t]; simpl in Hn |- *.
  - apply IH; try done; [by apply (apply_wf _ (Sample k l t))|].
    apply sample_queued; [done| |done]. intros ->. simpl in Hro.
    rewrite bool_decide_true in Hro by done. simpl in Hro. by bool_prop.
  - rewrite <- Nat.add_succ_comm. apply IH; try done; [by apply forget_wf| |lia].
    apply forget_queued; [done|lia].
  - apply IH; try done; [by apply observe_wf|].
    unfold queued in *. by rewrite observe_queue.
  - apply IH; try done. by apply congested_wf.
Qed.

(** Once a tracked request is forgotten, its late progress events change
    nothing at all, whatever happens in between, until the request restarts
    with a zero sample or 1,024 other requests have finished. *)
Theorem late_samples_inert s key seen ops loaded now_ms :
  wf s → requests s !! key = Some seen → Forall op_u64 ops →
  Forall (λ o, restarts key o = false) ops → (forgets ops < RETIRED_REQUEST_IDS)%nat →
  loaded ≠ 0 →
  let s' := run (forget key s) ops in sample key loaded now_ms s' = s'.
Proof.
  intros Hwf Hk Hu Hr Hn Hl s'.
  pose proof (forget_wf key s Hwf) as Hf.
  destruct (run_queued 0 key (forget key s) ops) as (pre & post & Ho & _); try done.
  { by eapply forget_starts_queue. }
  destruct (run_wf _ _ Hf Hu) as (_ & (_ & He & _) & _).
  unfold sample. fold s' in Ho, He. rewrite bool_decide_true by (rewrite He, Ho; set_solver).
  by rewrite (proj2 (Z.eqb_neq loaded 0)).
Qed.

Lemma late_samples_inert_witness :
  let s' := run (forget "a" (run (new 4) [Sample "a" 10 0])) [Forget "a"; Observe 5 5 9] in
  sample "a" 700 10 s' = s'.
Proof.
  apply (late_samples_inert _ "a" 10); try done.
  - apply run_wf; [apply controller_new_wf|]. repeat constructor; unfold is_u64, u64_max; lia.
  - repeat constructor; unfold is_u64, u64_max; lia.
  - repeat constructor.
  - unfold RETIRED_REQUEST_IDS. cbn. lia.
Defined.

(** ** Congestion *)

Lemma learn_aggregate_cool r now s :
  now < cooldown_until s → learn_aggregate r now s = record_rate r s.
Proof.
  intros H. unfold learn_aggregate.
  destruct (record_rate_fields r s) as (_ & _ & _ & -> & _).
  rewrite (proj2 (Z.ltb_lt now _)) by done. by rewrite orb_true_r.
Qed.

Lemma sample_cool key loaded now s :
  now < cooldown_until s →
  current (sample key loaded now s) = current s
  ∧ cooldown_until (sample key loaded now s) = cooldown_until s.
Proof.
  intros H. unfold sample.
  assert (L : ∀ s, now < cooldown_until s →
    current (sample_live key loaded now s) = current s
    ∧ cooldown_until (sample_live key loaded now s) = cooldown_until s).
  { clear. intros s H. unfold sample_live. repeat (case_match; [done|]).
    case_match; [|done]. cbn. rewrite learn_aggregate_cool by done.
    match goal with |- context [record_rate ?r ?s] =>
      by destruct (record_rate_fields r s) as (-> & _ & _ & -> & _) end. }
  case_match; [case_match; [done|]; by apply (L (set_retired _ _ s))|by apply L].
Qed.

Lemma observe_cool b e now s :
  now < cooldown_until s →
  current (observe b e now s) = current s
  ∧ cooldown_until (observe b e now s) = cooldown_until s.
Proof.
  intros H. unfold observe. destruct (_ || _); [done|]. set (r := f64_div _ _).
  destruct (record_rate_fields r s) as (Hc & _ & _ & Hd & _). cbn.
  rewrite (proj2 (Z.leb_gt (cooldown_until (record_rate r s)) now)) by lia. done.
Qed.

Lemma forget_control key s :
  current (forget key s) = current s ∧ cooldown_until (forget key s) = cooldown_until s.
Proof.
  assert (H : current (retire key s) = current s
    ∧ cooldown_until (retire key s) = cooldown_until s)
    by (unfold retire; repeat case_match; done).
  unfold forget. by case_bool_decide.
Qed.

Lemma congested_cool now s :
  1 ≤ current s →
  1 ≤ current (congested now s) ≤ current s ∧
  cooldown_until (congested now s) = saturating_add now CONGESTION_COOLDOWN_MS.
Proof.
  intros Hc. unfold congested. cbn [current cooldown_until set_control].
  assert (current s / 2 < current s) by (apply Z.div_lt; lia). lia.
Qed.

(** An operation whose clock reading lies in the cooldown that opens at [now]. *)
Definition during_cooldown (now : Z) (o : op) : Prop :=
  match op_time o with
  | Some t => now ≤ t < saturating_add now CONGESTION_COOLDOWN_MS
  | None => True
  end.

Lemma apply_cool now s o :
  1 ≤ current s → saturating_add now CONGESTION_COOLDOWN_MS ≤ cooldown_until s →
  during_cooldown now o →
  1 ≤ current (apply s o) ≤ current s ∧
  saturating_add now CONGESTION_COOLDOWN_MS ≤ cooldown_until (apply s o).
Proof.
  intros Hc Hcool Ho. destruct o as [k l t|k|b e t|t]; cbn [apply op_time] in *;
    unfold during_cooldown in Ho; cbn [op_time] in Ho.
  - destruct (sample_cool k l t s) as [-> ->]; lia.
  - destruct (forget_control k s) as [-> ->]; lia.
  - destruct (observe_cool b e t s) as [-> ->]; lia.
  - destruct (congested_cool t s Hc) as [? ->]. split; [done|]. unfold saturating_add in *. lia.
Qed.

Lemma run_cool now s ops :
  1 ≤ current s → saturating_add now CONGESTION_COOLDOWN_MS ≤ cooldown_until s →
  Forall (during_cooldown now) ops → current (run s ops) ≤ current s.
Proof.
  intros Hc Hcool Hops. revert s Hc Hcool.
  induction Hops as [|o ops Ho _ IH]; intros s Hc Hcool; [done|].
  destruct (apply_cool now s o Hc Hcool Ho) as [? ?].
  etrans; [apply (IH (apply s o)); [lia|done]|lia].
Qed.

(** A congestion signal halves the limit (never below one) and opens a
    cooldown of eight seconds, during which no sample, completion or further
    congestion signal raises it again. *)
Theorem congestion_cooldown s now_ms ops :
  1 ≤ current s → Forall (during_cooldown now_ms) ops →
  current (congested now_ms s) = Z.max (current s / 2) 1 ∧
  current (run (congested now_ms s) ops) ≤ current (congested now_ms s).
Proof.
  intros Hc Hops. destruct (congested_cool now_ms s Hc) as [? Hd]. split; [done|].
  apply (run_cool now_ms); [lia|by rewrite Hd|done].
Qed.

Lemma congestion_cooldown_witness :
  let s := observe 400000 100 50 (observe 400000 100 40 (new 4)) in
  let ops := [Observe 400000 100 200; Sample "b" 9 300; Congested 400] in
  current (congested 100 s) = Z.max (current s / 2) 1 ∧
  current (run (congested 100 s) ops) ≤ current (congested 100 s).
Proof.
  apply congestion_cooldown; [vm_compute; discriminate|].
  repeat constructor; vm_compute; try discriminate; reflexivity.
Defined.
