(* ===== verification/Transport.v ===== *)
(** * Transfer policy (crates/transfer/src/lib.rs)

    The sizing and retry policy every client shares: how many requests fit in
    memory, how large a staged part may be, when a failed request is retried,
    and how a plaintext splits into encrypted chunks. *)

From Stdlib Require Import SpecFloat.
From S2P Require Import Prelude F64 Adaptive.

Definition AEAD_TAG_BYTES : Z := 16.
Definition MAX_CIPHERTEXT_BYTES : Z := 25000000.
Definition MAX_CHUNKS : Z := 65535.
Definition MAX_RETRY_DELAY_MS : Z := 60000.
Definition DEFAULT_FIXED_MEMORY_BYTES : Z := 8 * 1024 * 1024.

(** ** Memory *)

Record TransferMemoryBudget := {
  total_bytes : Z;
  fixed_overhead_bytes : Z;
  plaintext_copies : Z;
  ciphertext_copies : Z }.

Definition standard (total_bytes : Z) : TransferMemoryBudget :=
  {| total_bytes := total_bytes; fixed_overhead_bytes := DEFAULT_FIXED_MEMORY_BYTES;
     plaintext_copies := 1; ciphertext_copies := 1 |}.

Definition slot_bytes (m : TransferMemoryBudget) (plaintext_chunk_bytes : Z) : option Z :=
  ciphertext ← checked_add plaintext_chunk_bytes AEAD_TAG_BYTES;
  plain ← checked_mul plaintext_chunk_bytes (plaintext_copies m);
  cipher ← checked_mul ciphertext (ciphertext_copies m);
  checked_add plain cipher.

Definition concurrency_limit_with_memory (configured chunk_bytes : Z)
    (memory : TransferMemoryBudget) (platform_limit : Z) : Z :=
  let requested := Z.min (clamp configured 1 MAX_CONCURRENCY)
                         (clamp platform_limit 1 MAX_CONCURRENCY) in
  let available := saturating_sub (total_bytes memory) (fixed_overhead_bytes memory) in
  let memory_slots :=
    match slot_bytes memory chunk_bytes with
    | Some slot => as_u32 (clamp (available / Z.max slot 1) 1 MAX_CONCURRENCY)
    | None => 1
    end in
  Z.max (Z.min requested memory_slots) 1.

Definition concurrency_limit (configured chunk_bytes memory_budget platform_limit : Z) : Z :=
  concurrency_limit_with_memory configured chunk_bytes (standard memory_budget) platform_limit.

(** ** Staged parts *)

Record UploadTransport := {
  version : Z;
  part_min_bytes : Z;
  part_max_bytes : Z;
  request_target_ms : Z;
  request_budget_ms : Z;
  part_max_count : option Z }.

Definition validate (t : UploadTransport) : result string () :=
  reject negb (version t =? 1) with "unsupported upload transport version";
  reject (part_min_bytes t =? 0) || (part_max_bytes t <? part_min_bytes t)
         || (MAX_CIPHERTEXT_BYTES <? part_max_bytes t)
    with "invalid upload part bounds";
  reject (request_target_ms t =? 0) || (request_budget_ms t <? request_target_ms t)
    with "invalid upload request timing";
  reject bool_decide (part_max_count t = Some 0) with "invalid upload part count";
  Ok ().

Definition f64_0_75 : f64 := f64_lit 75 100.
Definition f64_0_8 : f64 := f64_lit 8 10.

Definition part_bytes (t : UploadTransport) (bytes_per_ms : f64) : Z :=
  if negb (is_ok (validate t)) then 0
  else
    let estimate :=
      if f64_is_finite bytes_per_ms && f64_gt bytes_per_ms f64_zero
      then f64_floor (f64_mul (f64_mul bytes_per_ms (f64_of_Z (request_target_ms t))) f64_0_75)
      else f64_of_Z (part_min_bytes t) in
    f64_to_u64 (f64_clamp estimate (f64_of_Z (part_min_bytes t)) (f64_of_Z (part_max_bytes t))).

Definition initial_part_bytes (t : UploadTransport) (bytes_per_ms : f64) : Z :=
  part_bytes t bytes_per_ms.

Definition grow_part (t : UploadTransport) (previous bytes elapsed_ms : Z) : Z :=
  if negb (is_ok (validate t)) then 0
  else
    let target :=
      if elapsed_ms =? 0 then previous
      else part_bytes t (f64_div (f64_of_Z bytes) (f64_of_Z elapsed_ms)) in
    clamp (Z.min target (saturating_mul previous 3 / 2)) (part_min_bytes t) (part_max_bytes t).

Definition shrink_part (t : UploadTransport) (previous : Z) : Z :=
  if negb (is_ok (validate t)) then 0
  else clamp (previous / 2) (part_min_bytes t) (part_max_bytes t).

Definition should_stage (t : UploadTransport) (bytes : Z) (bytes_per_ms : f64) : bool :=
  is_ok (validate t) && f64_is_finite bytes_per_ms && f64_gt bytes_per_ms f64_zero
  && f64_gt (f64_div (f64_of_Z bytes) bytes_per_ms)
       (f64_mul (f64_of_Z (request_budget_ms t)) f64_0_75).

Definition should_abandon_direct (t : UploadTransport) (bytes loaded elapsed_ms : Z) : bool :=
  is_ok (validate t) && (3000 <=? elapsed_ms) && (0 <? loaded) && (loaded <? bytes)
  && f64_gt (f64_div (f64_of_Z bytes) (f64_div (f64_of_Z loaded) (f64_of_Z elapsed_ms)))
       (f64_mul (f64_of_Z (request_budget_ms t)) f64_0_8).

Definition validate_part_count (t : UploadTransport) (ciphertext_bytes part_bytes : Z)
    : result string () :=
  _ ← validate t;
  reject (ciphertext_bytes =? 0) || (MAX_CIPHERTEXT_BYTES <? ciphertext_bytes)
    with "invalid staged ciphertext size";
  reject (part_bytes <? part_min_bytes t) || (part_max_bytes t <? part_bytes)
    with "invalid staged part size";
  let count := div_ceil ciphertext_bytes part_bytes in
  reject from_option (λ maximum, maximum <? count) false (part_max_count t)
    with "staged part count exceeds transport policy";
  Ok ().

Definition remaining_part_count (t : UploadTransport) (ciphertext_bytes offset part_bytes : Z)
    : result string Z :=
  _ ← validate_part_count t ciphertext_bytes part_bytes;
  reject ciphertext_bytes <? offset with "staged offset exceeds ciphertext size";
  let count := div_ceil (ciphertext_bytes - offset) part_bytes in
  if count <=? u32_max then Ok count else Err "staged part count exceeds u32".

(** ** Retries *)

Definition retryable_status (status : Z) (staging : bool) : bool :=
  (status =? 408) || (status =? 429) || (500 <=? status) || (staging && (status =? 423)).

Definition retry_delay_ms (attempt : Z) (retry_after_ms : option Z) (jitter_ms : Z) : Z :=
  match retry_after_ms with
  | Some delay => Z.min delay MAX_RETRY_DELAY_MS
  | None =>
      let exponent := Z.min attempt 16 in
      Z.min (saturating_add (saturating_mul 250 (Z.shiftl 1 exponent)) jitter_ms)
        MAX_RETRY_DELAY_MS
  end.

(** ** Chunk layout *)

Definition chunk_count (plaintext_bytes chunk_bytes : Z) : result string Z :=
  reject (chunk_bytes =? 0) || (MAX_CIPHERTEXT_BYTES - AEAD_TAG_BYTES <? chunk_bytes)
    with "invalid plaintext chunk size";
  let count := div_ceil plaintext_bytes chunk_bytes in
  if MAX_CHUNKS <? count then Err "chunk count exceeds limit" else Ok count.

Definition ciphertext_bytes (plaintext_bytes chunk_bytes : Z) : result string Z :=
  count ← chunk_count plaintext_bytes chunk_bytes;
  tags ← ok_or (checked_mul count AEAD_TAG_BYTES) "ciphertext size overflow";
  ok_or (checked_add plaintext_bytes tags) "ciphertext size overflow".

(** ** Memory limits *)

Lemma as_u32_id x : is_u32 x → as_u32 x = x.
Proof. intros H. unfold as_u32. apply Z.mod_small. unfold is_u32, u32_max in *. lia. Qed.

(** The number of requests in flight is between one and the requested
    limit, and whenever it exceeds one, that many request buffers fit in what
    the memory budget leaves after the fixed overhead. *)
Theorem concurrency_limit_bounds configured chunk_bytes memory platform_limit :
  0 ≤ total_bytes memory → 0 ≤ fixed_overhead_bytes memory →
  let n := concurrency_limit_with_memory configured chunk_bytes memory platform_limit in
  1 ≤ n ≤ Z.min (clamp configured 1 MAX_CONCURRENCY) (clamp platform_limit 1 MAX_CONCURRENCY) ∧
  (1 < n → ∃ slot, slot_bytes memory chunk_bytes = Some slot ∧
     fixed_overhead_bytes memory + n * slot ≤ total_bytes memory).
Proof.
  intros Ht Hf n. subst n. unfold concurrency_limit_with_memory.
  pose proof (clamp_bounds configured 1 MAX_CONCURRENCY ltac:(done)).
  pose proof (clamp_bounds platform_limit 1 MAX_CONCURRENCY ltac:(done)).
  destruct (slot_bytes memory chunk_bytes) as [slot|]; [|lia].
  set (q := _ / Z.max slot 1).
  pose proof (clamp_bounds q 1 MAX_CONCURRENCY ltac:(done)) as Hq.
  rewrite as_u32_id by (unfold is_u32, u32_max, MAX_CONCURRENCY in *; lia).
  split; [lia|]. intros Hn. exists slot. split; [done|].
  assert (Hm : 2 ≤ q) by (unfold clamp in Hq, Hn; repeat case_match; bool_prop; lia).
  assert (Hcq : clamp q 1 MAX_CONCURRENCY ≤ q) by (unfold clamp; repeat case_match; bool_prop; lia).
  assert (Hav : q * Z.max slot 1 ≤ saturating_sub (total_bytes memory) (fixed_overhead_bytes memory)).
  { subst q. rewrite Z.mul_comm. apply Z.mul_div_le. lia. }
  assert (0 < saturating_sub (total_bytes memory) (fixed_overhead_bytes memory)) by nia.
  set (c := clamp q 1 MAX_CONCURRENCY) in *.
  match goal with |- _ + ?n * slot ≤ _ => set (k := n) in * end. assert (0 ≤ k ≤ q) by lia.
  assert (k * slot ≤ q * Z.max slot 1) by nia.
  unfold saturating_sub in *. lia.
Qed.

Lemma concurrency_limit_bounds_witness :
  let memory := standard 50000000 in
  let n := concurrency_limit_with_memory 6 8000000 memory 8 in
  1 ≤ n ≤ Z.min (clamp 6 1 MAX_CONCURRENCY) (clamp 8 1 MAX_CONCURRENCY) ∧
  (1 < n → ∃ slot, slot_bytes memory 8000000 = Some slot ∧
     fixed_overhead_bytes memory + n * slot ≤ total_bytes memory).
Proof. apply concurrency_limit_bounds; vm_compute; discriminate. Defined.

(** ** Part sizes *)

(** What [validate] promises. *)
Definition valid (t : UploadTransport) : Prop :=
  0 < part_min_bytes t ≤ part_max_bytes t ∧ part_max_bytes t ≤ MAX_CIPHERTEXT_BYTES ∧
  0 < request_target_ms t ≤ request_budget_ms t ∧ part_max_count t ≠ Some 0.

Lemma validate_valid t :
  0 ≤ part_min_bytes t → 0 ≤ request_target_ms t → validate t = Ok () → valid t.
Proof.
  intros H1 H2 H. unfold validate in H. guards H. bool_prop. unfold valid.
  split_and!; try lia. done.
Qed.

(** A transport whose fields are unsigned. *)
Definition transport_u64 (t : UploadTransport) : Prop :=
  is_u64 (part_min_bytes t) ∧ is_u64 (part_max_bytes t) ∧
  is_u64 (request_target_ms t) ∧ is_u64 (request_budget_ms t).

Lemma part_bytes_bounds t rate :
  transport_u64 t → validate t = Ok () →
  part_min_bytes t ≤ part_bytes t rate ≤ part_max_bytes t.
Proof.
  intros (Hmin & Hmax & Htgt & Hbud) Hv.
  destruct (validate_valid t) as (Hlo & Hhi & Hms & _); [by apply Hmin|by apply Htgt|done|].
  assert (Hmax53 : part_max_bytes t < 2 ^ 53) by (unfold MAX_CIPHERTEXT_BYTES in Hhi; lia).
  unfold part_bytes. rewrite Hv. cbn [is_ok negb].
  change (f64_is_finite rate && f64_gt rate f64_zero) with (f64_usable rate).
  destruct (f64_usable rate) eqn:Eu.
  - apply f64_usable_inv in Eu as (m & e & ->).
    apply f64_clamp_floor; [|lia|done]. apply f64_mul_nonneg, f64_mul_pos_nonneg.
    apply f64_of_Z_nonneg. lia.
  - rewrite f64_clamp_of_Z by lia. apply clamp_bounds. lia.
Qed.

(** C27: a validated transport never proposes a part outside its bounds: not
    for any estimated rate (NaN, infinite, negative and zero rates included),
    not when it grows a part, at most by half above the previous one or to the
    minimum, and not when it shrinks one. *)
Theorem part_sizes_bounded t rate previous bytes elapsed_ms :
  transport_u64 t → validate t = Ok () → is_u64 previous →
  part_min_bytes t ≤ initial_part_bytes t rate ≤ part_max_bytes t ∧
  part_min_bytes t ≤ grow_part t previous bytes elapsed_ms ≤ part_max_bytes t ∧
  grow_part t previous bytes elapsed_ms ≤ Z.max (previous * 3 / 2) (part_min_bytes t) ∧
  part_min_bytes t ≤ shrink_part t previous ≤ part_max_bytes t.
Proof.
  intros Ht Hv Hp. split; [by apply part_bytes_bounds|].
  destruct (validate_valid t) as (Hlo & Hhi & _ & _); [apply Ht..|done|].
  unfold grow_part, shrink_part. rewrite Hv. cbn [is_ok negb].
  set (target := if elapsed_ms =? 0 then _ else _).
  split; [apply clamp_bounds; lia|]. split; [|apply clamp_bounds; lia].
  assert (saturating_mul previous 3 / 2 ≤ previous * 3 / 2)
    by (apply Z.div_le_mono; [lia|unfold saturating_mul; lia]).
  unfold clamp. repeat case_match; bool_prop; lia.
Qed.

Definition sample_transport : UploadTransport :=
  {| version := 1; part_min_bytes := 262144; part_max_bytes := 8388608;
     request_target_ms := 10000; request_budget_ms := 60000; part_max_count := Some 64 |}.

Lemma part_sizes_bounded_witness :
  part_min_bytes sample_transport ≤ initial_part_bytes sample_transport S754_nan
    ≤ part_max_bytes sample_transport ∧
  part_min_bytes sample_transport ≤ grow_part sample_transport 300000 300000 700
    ≤ part_max_bytes sample_transport ∧
  grow_part sample_transport 300000 300000 700
    ≤ Z.max (300000 * 3 / 2) (part_min_bytes sample_transport) ∧
  part_min_bytes sample_transport ≤ shrink_part sample_transport 300000
    ≤ part_max_bytes sample_transport.
Proof.
  apply part_sizes_bounded; [|reflexivity|]; vm_compute; repeat split; discriminate.
Defined.

(** ** Retry delays *)

Lemma retry_backoff attempt :
  0 ≤ attempt → saturating_mul 250 (Z.shiftl 1 (Z.min attempt 16)) = 250 * 2 ^ Z.min attempt 16.
Proof.
  intros H. rewrite Z.shiftl_mul_pow2, Z.mul_1_l by lia. unfold saturating_mul.
  assert (2 ^ Z.min attempt 16 ≤ 2 ^ 16) by (apply Z.pow_le_mono_r; lia).
  unfold u64_max. lia.
Qed.

(** A retry delay never exceeds a minute; without a server-given delay it
    starts at a quarter of a second plus jitter, never shrinks as attempts grow
    (the shift never overflows, whatever the attempt), and has reached the cap
    from the ninth attempt on. *)
Theorem retry_delay_spec attempt retry_after jitter :
  is_u32 attempt → is_u64 jitter → from_option is_u64 True retry_after →
  0 ≤ retry_delay_ms attempt retry_after jitter ≤ MAX_RETRY_DELAY_MS ∧
  Z.min (250 + jitter) MAX_RETRY_DELAY_MS ≤ retry_delay_ms attempt None jitter ∧
  retry_delay_ms attempt None jitter ≤ retry_delay_ms (attempt + 1) None jitter ∧
  (8 ≤ attempt → retry_delay_ms attempt None jitter = MAX_RETRY_DELAY_MS) ∧
  (attempt ≤ 16 → retry_delay_ms attempt None jitter
     = Z.min (250 * 2 ^ attempt + jitter) MAX_RETRY_DELAY_MS).
Proof.
  intros [Ha _] Hj Hr. unfold retry_delay_ms. rewrite !retry_backoff by lia.
  assert (Hp : 2 ^ 0 ≤ 2 ^ Z.min attempt 16) by (apply Z.pow_le_mono_r; lia).
  assert (Hq : 2 ^ Z.min attempt 16 ≤ 2 ^ Z.min (attempt + 1) 16)
    by (apply Z.pow_le_mono_r; lia).
  unfold saturating_add, MAX_RETRY_DELAY_MS, is_u64, u64_max in *.
  split_and!; try lia.
  - destruct retry_after; simpl in Hr; lia.
  - destruct retry_after; simpl in Hr; lia.
  - intros H8. assert (2 ^ 8 ≤ 2 ^ Z.min attempt 16) by (apply Z.pow_le_mono_r; lia). lia.
  - intros H16. rewrite (Z.min_l attempt 16) by lia. lia.
Qed.

Lemma retry_delay_spec_witness :
  0 ≤ retry_delay_ms 3 (Some 5) 40 ≤ MAX_RETRY_DELAY_MS ∧
  Z.min (250 + 40) MAX_RETRY_DELAY_MS ≤ retry_delay_ms 3 None 40 ∧
  retry_delay_ms 3 None 40 ≤ retry_delay_ms (3 + 1) None 40 ∧
  (8 ≤ 3 → retry_delay_ms 3 None 40 = MAX_RETRY_DELAY_MS) ∧
  (3 ≤ 16 → retry_delay_ms 3 None 40 = Z.min (250 * 2 ^ 3 + 40) MAX_RETRY_DELAY_MS).
Proof. apply retry_delay_spec; vm_compute; repeat split; discriminate. Defined.

(** ** Chunks *)

(** The plaintext length of chunk [index]: full chunks and a shorter last one. *)
Definition chunk_len (plaintext_bytes chunk_bytes index : Z) : Z :=
  Z.min chunk_bytes (plaintext_bytes - index * chunk_bytes).

Lemma chunk_lens_sum p c :
  0 ≤ p → 0 < c → sum_Z (chunk_len p c <$> seqZ 0 (div_ceil p c)) = p.
Proof.
  intros Hp Hc. destruct (Z.eq_dec p 0) as [->|Hp0].
  { by rewrite div_ceil_0. }
  pose proof (div_ceil_pos p c Hc ltac:(lia)).
  pose proof (div_ceil_upper p c Hc). pose proof (div_ceil_lower p c Hc).
  replace (div_ceil p c) with (Z.succ (div_ceil p c - 1)) by lia.
  rewrite seqZ_succ, fmap_app, sum_Z_app by lia.
  rewrite (sum_Z_seqZ_const _ _ c); [| lia |].
  - unfold chunk_len. simpl. rewrite Z.min_r by lia. lia.
  - intros i Hi. unfold chunk_len. nia.
Qed.

(** The number of chunks of a valid layout. *)
Lemma chunk_count_Ok p c n :
  chunk_count p c = Ok n →
  n = div_ceil p c ∧ n ≤ MAX_CHUNKS ∧ c ≠ 0 ∧ c ≤ MAX_CIPHERTEXT_BYTES - AEAD_TAG_BYTES.
Proof.
  unfold chunk_count. intros H. guards H. simplify_eq. bool_prop. done.
Qed.

(** A valid layout covers the plaintext exactly. Every chunk is non-empty
    and fits the ciphertext bound together with its tag, the chunk lengths add
    up to the plaintext, and [ciphertext_bytes] is the sum of the encrypted
    chunk lengths; its overflow errors are unreachable. *)
Theorem chunk_layout plaintext chunk n :
  is_u64 plaintext → is_u64 chunk → chunk_count plaintext chunk = Ok n →
  (∀ i, 0 ≤ i < n → 0 < chunk_len plaintext chunk i ∧
     chunk_len plaintext chunk i + AEAD_TAG_BYTES ≤ MAX_CIPHERTEXT_BYTES) ∧
  sum_Z (chunk_len plaintext chunk <$> seqZ 0 n) = plaintext ∧
  ciphertext_bytes plaintext chunk
  = Ok (sum_Z ((λ i, chunk_len plaintext chunk i + AEAD_TAG_BYTES) <$> seqZ 0 n)).
Proof.
  intros [Hp Hp'] [Hc _] Hn. destruct (chunk_count_Ok _ _ _ Hn) as (-> & Hmax & H0 & Hle).
  pose proof (div_ceil_nonneg plaintext chunk ltac:(lia) Hp).
  pose proof (div_ceil_upper plaintext chunk ltac:(lia)).
  pose proof (div_ceil_lower plaintext chunk ltac:(lia)).
  split; [|split].
  - intros i Hi. unfold chunk_len, AEAD_TAG_BYTES, MAX_CIPHERTEXT_BYTES in *. nia.
  - apply chunk_lens_sum; lia.
  - assert (Hs : sum_Z ((λ i, chunk_len plaintext chunk i + AEAD_TAG_BYTES)
        <$> seqZ 0 (div_ceil plaintext chunk)) = plaintext + div_ceil plaintext chunk * 16).
    { rewrite (sum_Z_shift _ (chunk_len plaintext chunk) AEAD_TAG_BYTES), chunk_lens_sum by lia.
      rewrite length_seqZ, Z2Nat.id by done. done. }
    rewrite Hs. unfold ciphertext_bytes. rewrite Hn. unfold mbind, result_bind.
    unfold checked_mul, checked_add, AEAD_TAG_BYTES, MAX_CHUNKS, u64_max in *.
    rewrite (proj2 (Z.leb_le (div_ceil plaintext chunk * 16) _)) by lia. simpl.
    rewrite (proj2 (Z.leb_le (plaintext + _) _)); [done|].
    unfold MAX_CIPHERTEXT_BYTES in Hle. nia.
Qed.

Lemma chunk_layout_witness :
  (∀ i, 0 ≤ i < 3 → 0 < chunk_len 25 10 i ∧
     chunk_len 25 10 i + AEAD_TAG_BYTES ≤ MAX_CIPHERTEXT_BYTES) ∧
  sum_Z (chunk_len 25 10 <$> seqZ 0 3) = 25 ∧
  ciphertext_bytes 25 10
  = Ok (sum_Z ((λ i, chunk_len 25 10 i + AEAD_TAG_BYTES) <$> seqZ 0 3)).
Proof. apply chunk_layout; vm_compute; repeat split; discriminate. Defined.
