(* ===== verification/Stage.v ===== *)
(** * Staged uploads and progress (crates/transfer/src/lib.rs)

    [StageSession] follows one staged chunk upload against the server's status
    reports; [TransferProgress] accounts the ciphertext a transfer completed.
    Every operation checks before it mutates, so an error leaves the session as
    it was: an operation is a function to the new session or an error. *)

From S2P Require Import Prelude Transport.

Definition MAX_STAGE_RETRIES : Z := 8.
Definition MAX_STAGE_RESETS : Z := 2.

Inductive StageState := Receiving | Finalizing | Complete.

#[export] Instance StageState_eq_dec : EqDecision StageState.
Proof. solve_decision. Defined.

Record StageStatus := {
  st_id : string;
  st_state : StageState;
  st_offset : Z;
  st_ciphertext_bytes : Z;
  st_checksum : string }.

Inductive StageAction :=
| ActContinue (offset : Z)
| ActFinalizing
| ActComplete.

Record StageSession := {
  id : string;
  ciphertext_bytes : Z;
  checksum : string;
  offset : Z;
  state : StageState;
  retries : Z;
  resets : Z;
  reprobe_allowed : bool }.

Definition stage_state_rank (s : StageState) : Z :=
  match s with Receiving => 0 | Finalizing => 1 | Complete => 2 end.

Definition new (id : string) (bytes : Z) (checksum : string) : result string StageSession :=
  reject (id =? "")%string || (checksum =? "")%string || (bytes =? 0)
         || (MAX_CIPHERTEXT_BYTES <? bytes) with "invalid stage identity";
  Ok {| id := id; ciphertext_bytes := bytes; checksum := checksum; offset := 0;
        state := Receiving; retries := 0; resets := 0; reprobe_allowed := false |}.

(** The action a status asks for. *)
Definition action (status : StageStatus) : StageAction :=
  match st_state status with
  | Receiving => ActContinue (st_offset status)
  | Finalizing => ActFinalizing
  | Complete => ActComplete
  end.

Definition validate_status (s : StageSession) (status : StageStatus) : result string () :=
  reject negb (st_id status =? id s)%string
         || negb (st_ciphertext_bytes status =? ciphertext_bytes s)
         || negb (st_checksum status =? checksum s)%string
    with "stage identity mismatch";
  reject (ciphertext_bytes s <? st_offset status)
         || (bool_decide (st_state status ≠ Receiving)
             && negb (st_offset status =? ciphertext_bytes s))
    with "invalid stage offset";
  reject st_offset status <? offset s with "stage offset moved backwards";
  reject stage_state_rank (st_state status) <? stage_state_rank (state s)
    with "stage state moved backwards";
  Ok ().

Definition reconcile (s : StageSession) (status : StageStatus)
    : result string (StageAction * StageSession) :=
  _ ← validate_status s status;
  Ok (action status,
      {| id := id s; ciphertext_bytes := ciphertext_bytes s; checksum := checksum s;
         offset := st_offset status; state := st_state status; retries := retries s;
         resets := resets s; reprobe_allowed := reprobe_allowed s |}).

Definition acknowledge_part (s : StageSession) (start bytes : Z) (status : StageStatus)
    : result string (StageAction * StageSession) :=
  expected ← ok_or (checked_add start bytes) "part offset overflow";
  reject negb (start =? offset s) || (bytes =? 0) || (ciphertext_bytes s <? expected)
    with "invalid staged part range";
  _ ← validate_status s status;
  reject negb (st_offset status =? expected)
    with "stage did not acknowledge requested part";
  Ok (action status,
      {| id := id s; ciphertext_bytes := ciphertext_bytes s; checksum := checksum s;
         offset := st_offset status; state := st_state status; retries := 0;
         resets := resets s; reprobe_allowed := true |}).

Definition record_retry (s : StageSession) : result string StageSession :=
  if MAX_STAGE_RETRIES <=? retries s then Err "staged upload retry limit exceeded"
  else Ok {| id := id s; ciphertext_bytes := ciphertext_bytes s; checksum := checksum s;
             offset := offset s; state := state s; retries := retries s + 1;
             resets := resets s; reprobe_allowed := reprobe_allowed s |}.

Definition reset (s : StageSession) (new_id : string) : result string StageSession :=
  reject (new_id =? "")%string with "invalid stage identity";
  reject MAX_STAGE_RESETS <=? resets s with "staged upload reset limit exceeded";
  Ok {| id := new_id; ciphertext_bytes := ciphertext_bytes s; checksum := checksum s;
        offset := 0; state := Receiving; retries := 0; resets := resets s + 1;
        reprobe_allowed := false |}.

(** [std::mem::take(&mut self.reprobe_allowed)] *)
Definition reprobe_after_recovery (s : StageSession) : bool * StageSession :=
  (reprobe_allowed s,
   {| id := id s; ciphertext_bytes := ciphertext_bytes s; checksum := checksum s;
      offset := offset s; state := state s; retries := retries s; resets := resets s;
      reprobe_allowed := false |}).

(** ** The session as a transition system *)

(** What happens to a session; the client drives [Ack], [Retry], [Reset] and
    [Reprobe], the server's reports are arbitrary. *)
Inductive event :=
| Reconcile (status : StageStatus)
| Ack (start bytes : Z) (status : StageStatus)
| Retry
| Reset (new_id : string)
| Reprobe.

Inductive step : StageSession → event → StageSession → Prop :=
| step_reconcile s status a s' :
    reconcile s status = Ok (a, s') → step s (Reconcile status) s'
| step_ack s start bytes status a s' :
    acknowledge_part s start bytes status = Ok (a, s') → step s (Ack start bytes status) s'
| step_retry s s' : record_retry s = Ok s' → step s Retry s'
| step_reset s new_id s' : reset s new_id = Ok s' → step s (Reset new_id) s'
| step_reprobe s : step s Reprobe (reprobe_after_recovery s).2.

Inductive steps : StageSession → list event → StageSession → Prop :=
| steps_nil s : steps s [] s
| steps_cons s e s' es s'' : step s e s' → steps s' es s'' → steps s (e :: es) s''.

(** ** Invariant *)

Definition wf (s : StageSession) : Prop :=
  id s ≠ "" ∧ 0 < ciphertext_bytes s ≤ MAX_CIPHERTEXT_BYTES ∧
  0 ≤ offset s ≤ ciphertext_bytes s ∧
  (state s ≠ Receiving → offset s = ciphertext_bytes s) ∧
  0 ≤ retries s ≤ MAX_STAGE_RETRIES ∧ 0 ≤ resets s ≤ MAX_STAGE_RESETS.

Lemma session_new_wf i b c s : is_u64 b → new i b c = Ok s → wf s ∧ offset s = 0.
Proof.
  unfold new. intros Hb H. guards H. simplify_eq. bool_prop. unfold wf, is_u64 in *.
  simpl. split_and!; try done; try lia. all: unfold MAX_STAGE_RESETS, MAX_STAGE_RETRIES; lia.
Qed.

(** What an accepted status says. *)
Lemma validate_status_Ok s status :
  validate_status s status = Ok () →
  st_id status = id s ∧ st_ciphertext_bytes status = ciphertext_bytes s ∧
  st_checksum status = checksum s ∧ offset s ≤ st_offset status ≤ ciphertext_bytes s ∧
  (st_state status ≠ Receiving → st_offset status = ciphertext_bytes s) ∧
  stage_state_rank (state s) ≤ stage_state_rank (st_state status).
Proof.
  unfold validate_status. intros H. guards H.
  bool_cases; split_and!; try done; try lia; intros ?; try done; lia.
Qed.

Ltac step_inv :=
  match goal with H : step _ _ _ |- _ => inversion H; clear H; subst end.

Lemma reconcile_Ok s status a s' :
  reconcile s status = Ok (a, s') →
  validate_status s status = Ok () ∧ a = action status ∧
  id s' = id s ∧ ciphertext_bytes s' = ciphertext_bytes s ∧ checksum s' = checksum s ∧
  offset s' = st_offset status ∧ state s' = st_state status ∧ retries s' = retries s ∧
  resets s' = resets s.
Proof. unfold reconcile. destruct (validate_status s status) as [[]|]; intros; by simplify_eq/=. Qed.

(** An accepted acknowledgement covers exactly the requested part. *)
Lemma acknowledge_part_Ok s start bytes status a s' :
  acknowledge_part s start bytes status = Ok (a, s') →
  validate_status s status = Ok () ∧ a = action status ∧
  start = offset s ∧ bytes ≠ 0 ∧ start + bytes = st_offset status ∧
  id s' = id s ∧ ciphertext_bytes s' = ciphertext_bytes s ∧ checksum s' = checksum s ∧
  offset s' = st_offset status ∧ state s' = st_state status ∧ retries s' = 0 ∧
  resets s' = resets s.
Proof.
  unfold acknowledge_part. destruct (checked_add start bytes) as [e|] eqn:E; [|done].
  apply checked_add_Some in E as [-> _]. cbn. intros H. guards H.
  destruct (validate_status s status) as [[]|]; [|done]. cbn in H. guards H.
  simplify_eq. bool_prop. split_and!; done || lia.
Qed.

Lemma record_retry_Ok s s' :
  record_retry s = Ok s' →
  retries s < MAX_STAGE_RETRIES ∧ id s' = id s ∧ ciphertext_bytes s' = ciphertext_bytes s ∧
  offset s' = offset s ∧ state s' = state s ∧ retries s' = retries s + 1 ∧ resets s' = resets s.
Proof. unfold record_retry. intros H. guards H. simplify_eq. by bool_prop. Qed.

Lemma reset_Ok s i s' :
  reset s i = Ok s' →
  i ≠ "" ∧ resets s < MAX_STAGE_RESETS ∧ id s' = i ∧ ciphertext_bytes s' = ciphertext_bytes s ∧
  offset s' = 0 ∧ state s' = Receiving ∧ retries s' = 0 ∧ resets s' = resets s + 1.
Proof. unfold reset. intros H. guards H. simplify_eq. by bool_prop. Qed.

Lemma step_wf s e s' : step s e s' → wf s → wf s'.
Proof.
  intros Hstep (Hi & Hc & Ho & Hr & Hre & Hrs). unfold wf. step_inv.
  - destruct (reconcile_Ok _ _ _ _ H) as (Hv & _ & -> & -> & _ & -> & -> & -> & ->).
    apply validate_status_Ok in Hv. naive_solver lia.
  - destruct (acknowledge_part_Ok _ _ _ _ _ _ H)
      as (Hv & _ & -> & _ & _ & -> & -> & _ & -> & -> & -> & ->).
    apply validate_status_Ok in Hv. naive_solver lia.
  - destruct (record_retry_Ok _ _ H) as (? & -> & -> & -> & -> & -> & ->). naive_solver lia.
  - destruct (reset_Ok _ _ _ H) as (? & ? & -> & -> & -> & -> & -> & ->).
    split_and!; try done; lia.
  - by cbn.
Qed.

Lemma steps_wf s es s' : steps s es s' → wf s → wf s'.
Proof. induction 1; eauto using step_wf. Qed.

(** Between resets nothing moves backwards. *)
Lemma step_monotone s e s' :
  step s e s' → wf s → (∀ i, e ≠ Reset i) →
  id s' = id s ∧ offset s ≤ offset s' ∧
  stage_state_rank (state s) ≤ stage_state_rank (state s') ∧ resets s' = resets s.
Proof.
  intros Hstep Hwf Hr. step_inv.
  - destruct (reconcile_Ok _ _ _ _ H) as (Hv & _ & -> & _ & _ & -> & -> & _ & ->).
    apply validate_status_Ok in Hv. naive_solver.
  - destruct (acknowledge_part_Ok _ _ _ _ _ _ H)
      as (Hv & _ & _ & _ & _ & -> & _ & _ & -> & -> & _ & ->).
    apply validate_status_Ok in Hv. naive_solver.
  - destruct (record_retry_Ok _ _ H) as (_ & -> & _ & -> & -> & _ & ->). done.
  - naive_solver.
  - by cbn.
Qed.

(** Whatever the server reports, a session keeps its invariant (offset
    within the ciphertext, complete once it leaves the receiving state, retries
    and resets within their limits) and, until it is reset, keeps its identity
    and never moves its offset or state backwards. *)
Theorem session_safety i bytes sum s0 es s :
  is_u64 bytes → new i bytes sum = Ok s0 → steps s0 es s →
  wf s ∧ (Forall (λ e, ∀ i', e ≠ Reset i') es →
    id s = i ∧ ∀ es1 es2 s1, es = es1 ++ es2 → steps s0 es1 s1 → steps s1 es2 s →
      offset s1 ≤ offset s ∧ stage_state_rank (state s1) ≤ stage_state_rank (state s)).
Proof.
  intros Hb Hn Hs. pose proof (session_new_wf _ _ _ _ Hb Hn) as [Hwf _].
  assert (Hid : id s0 = i) by (unfold new in Hn; guards Hn; by simplify_eq).
  assert (Hmono : ∀ s es s', steps s es s' → wf s → Forall (λ e, ∀ i', e ≠ Reset i') es →
    id s' = id s ∧ offset s ≤ offset s' ∧
    stage_state_rank (state s) ≤ stage_state_rank (state s')).
  { clear. induction 1 as [s|s e s' es s'' He Hs IH]; intros Hwf Hf; [done|].
    inversion Hf; subst. destruct (step_monotone _ _ _ He Hwf) as (? & ? & ? & _); [done|].
    destruct IH as (? & ? & ?); [by eapply step_wf|done|]. split; [congruence|lia]. }
  split; [by eapply steps_wf|]. intros Hf. split.
  - destruct (Hmono _ _ _ Hs Hwf Hf) as (-> & _). done.
  - intros es1 es2 s1 -> H1 H2. apply Forall_app in Hf as [_ Hf2].
    destruct (Hmono _ _ _ H2) as (_ & ? & ?); [by eapply steps_wf|done|done].
Qed.

(** A status report of the example session. *)
Definition report (st : StageState) (n : Z) : StageStatus :=
  {| st_id := "stage"; st_state := st; st_offset := n; st_ciphertext_bytes := 100;
     st_checksum := "sum" |}.

Definition session_at (n r : Z) (st : StageState) (allowed : bool) : StageSession :=
  {| id := "stage"; ciphertext_bytes := 100; checksum := "sum"; offset := n; state := st;
     retries := r; resets := 0; reprobe_allowed := allowed |}.

Lemma session_safety_witness :
  let es := [Ack 0 40 (report Receiving 40); Retry; Reconcile (report Complete 100)] in
  let s := session_at 100 1 Complete true in
  wf s ∧ (Forall (λ e, ∀ i', e ≠ Reset i') es →
    id s = "stage" ∧ ∀ es1 es2 s1, es = es1 ++ es2 →
      steps (session_at 0 0 Receiving false) es1 s1 → steps s1 es2 s →
      offset s1 ≤ offset s ∧ stage_state_rank (state s1) ≤ stage_state_rank (state s)).
Proof.
  apply (session_safety "stage" 100 "sum"); [vm_compute; split; discriminate|reflexivity|].
  eapply steps_cons; [eapply step_ack; reflexivity|].
  eapply steps_cons; [eapply step_retry; reflexivity|].
  eapply steps_cons; [eapply step_reconcile; reflexivity|]. constructor.
Defined.

(** ** Termination *)

(** The attempts an event spends: a part accepted, a retry or a reset. *)
Definition spends (e : event) : bool :=
  match e with Ack _ _ _ | Retry | Reset _ => true | Reconcile _ | Reprobe => false end.

(** Bytes are unsigned. *)
Definition event_u64 (e : event) : Prop :=
  match e with Ack _ bytes _ => is_u64 bytes | _ => True end.

(** What a session can still spend. *)
Definition budget (s : StageSession) : Z :=
  (MAX_STAGE_RESETS - resets s) * ((MAX_STAGE_RETRIES + 1) * (ciphertext_bytes s + 1))
  + (MAX_STAGE_RETRIES + 1) * (ciphertext_bytes s - offset s)
  + (MAX_STAGE_RETRIES - retries s).

Lemma budget_nonneg s : wf s → 0 ≤ budget s.
Proof. unfold wf, budget, MAX_STAGE_RESETS, MAX_STAGE_RETRIES. intros. nia. Qed.

Lemma step_budget s e s' :
  step s e s' → event_u64 e → wf s →
  budget s' + (if spends e then 1 else 0) ≤ budget s ∧ ciphertext_bytes s' = ciphertext_bytes s.
Proof.
  intros Hstep Hu Hwf. unfold budget, MAX_STAGE_RESETS, MAX_STAGE_RETRIES in *.
  pose proof Hwf as (_ & _ & Ho & _ & Hre & Hrs).
  unfold MAX_STAGE_RESETS, MAX_STAGE_RETRIES in *. step_inv; simpl in *.
  - destruct (reconcile_Ok _ _ _ _ H) as (Hv & _ & _ & -> & _ & -> & _ & -> & ->).
    apply validate_status_Ok in Hv. split; [|done]. lia.
  - destruct (acknowledge_part_Ok _ _ _ _ _ _ H)
      as (Hv & _ & -> & ? & ? & _ & -> & _ & -> & _ & -> & ->).
    apply validate_status_Ok in Hv. unfold is_u64 in Hu. split; [|done]. lia.
  - destruct (record_retry_Ok _ _ H) as (_ & _ & -> & -> & _ & -> & ->). lia.
  - destruct (reset_Ok _ _ _ H) as (_ & _ & _ & -> & -> & _ & -> & ->). lia.
  - lia.
Qed.

(** A staged upload cannot go on forever. However the server answers, a
    session accepts at most [27 * (size + 1) - 1] parts, retries and resets in
    total before it is finished or gives up with an error. *)
Theorem session_attempts_bounded i bytes sum s0 es s :
  is_u64 bytes → new i bytes sum = Ok s0 → steps s0 es s → Forall event_u64 es →
  Z.of_nat (length (filter (λ e, spends e = true) es)) ≤ 27 * (bytes + 1) - 1.
Proof.
  intros Hb Hn Hs Hu. pose proof (session_new_wf _ _ _ _ Hb Hn) as [Hwf Ho].
  assert (H : budget s + Z.of_nat (length (filter (λ e, spends e = true) es)) ≤ budget s0).
  { clear Hn Ho. induction Hs as [s|s e s' es s'' He Hs IH]; [simpl; lia|].
    inversion Hu; subst. destruct (step_budget _ _ _ He) as [Hbud _]; [done..|].
    specialize (IH ltac:(done) ltac:(by eapply step_wf)).
    rewrite filter_cons. case_decide as Hsp.
    - rewrite Hsp in Hbud. simpl. lia.
    - destruct (spends e); [done|]. lia. }
  pose proof (budget_nonneg s ltac:(by eapply steps_wf)) as H0.
  assert (Hs0 : budget s0 = 27 * (bytes + 1) - 1).
  { unfold new in Hn. guards Hn. simplify_eq. unfold budget, MAX_STAGE_RESETS,
      MAX_STAGE_RETRIES. simpl. lia. }
  lia.
Qed.

Lemma session_attempts_bounded_witness :
  Z.of_nat (length (filter (λ e, spends e = true)
    [Ack 0 40 (report Receiving 40); Retry; Reconcile (report Complete 100)]))
  ≤ 27 * (100 + 1) - 1.
Proof.
  apply (session_attempts_bounded "stage" 100 "sum" (session_at 0 0 Receiving false) _
           (session_at 100 1 Complete true));
    [vm_compute; split; discriminate|reflexivity| |].
  - eapply steps_cons; [eapply step_ack; reflexivity|].
    eapply steps_cons; [eapply step_retry; reflexivity|].
    eapply steps_cons; [eapply step_reconcile; reflexivity|]. constructor.
  - repeat constructor; vm_compute; discriminate.
Defined.

(** ** Transfer progress *)

Record TransferProgress := {
  plaintext_total : Z;
  ciphertext_total : Z;
  completed_ciphertext : Z;
  active_ciphertext : Z }.

Definition progress_new (plaintext_total ciphertext_total : Z) : result string TransferProgress :=
  reject ciphertext_total <? plaintext_total
    with "ciphertext total is smaller than plaintext total";
  Ok {| plaintext_total := plaintext_total; ciphertext_total := ciphertext_total;
        completed_ciphertext := 0; active_ciphertext := 0 |}.

Definition set_active (p : TransferProgress) (bytes : Z) : result string TransferProgress :=
  reject saturating_sub (ciphertext_total p) (completed_ciphertext p) <? bytes
    with "active progress exceeds remaining bytes";
  Ok {| plaintext_total := plaintext_total p; ciphertext_total := ciphertext_total p;
        completed_ciphertext := completed_ciphertext p; active_ciphertext := bytes |}.

Definition complete (p : TransferProgress) (bytes : Z) : result string TransferProgress :=
  total ← ok_or (checked_add (completed_ciphertext p) bytes) "progress overflow";
  reject ciphertext_total p <? total with "completed progress exceeds total";
  Ok {| plaintext_total := plaintext_total p; ciphertext_total := ciphertext_total p;
        completed_ciphertext := total; active_ciphertext := 0 |}.

Inductive progress_op := SetActive (bytes : Z) | CompleteBytes (bytes : Z).

(** A rejected report leaves the progress as it was. *)
Definition progress_apply (p : TransferProgress) (o : progress_op) : TransferProgress :=
  match (match o with SetActive b => set_active p b | CompleteBytes b => complete p b end) with
  | Ok p' => p'
  | Err _ => p
  end.

(** The bytes a trace of reports completes: those that still fit the total. *)
Fixpoint accepted_bytes (left : Z) (ops : list progress_op) : Z :=
  match ops with
  | [] => 0
  | SetActive _ :: ops => accepted_bytes left ops
  | CompleteBytes b :: ops =>
      if b <=? left then b + accepted_bytes (left - b) ops else accepted_bytes left ops
  end.

Definition progress_wf (p : TransferProgress) : Prop :=
  is_u64 (ciphertext_total p) ∧ 0 ≤ completed_ciphertext p ∧ 0 ≤ active_ciphertext p ∧
  completed_ciphertext p + active_ciphertext p ≤ ciphertext_total p.

Lemma progress_run p ops :
  progress_wf p →
  Forall (λ o, match o with SetActive b | CompleteBytes b => is_u64 b end) ops →
  let p' := foldl progress_apply p ops in
  progress_wf p' ∧ ciphertext_total p' = ciphertext_total p ∧
  completed_ciphertext p' = completed_ciphertext p
    + accepted_bytes (ciphertext_total p - completed_ciphertext p) ops.
Proof.
  intros Hp Hu. revert p Hp. induction Hu as [|o ops Ho _ IH]; intros p Hp; simpl;
    [split_and!; try done; lia|].
  destruct Hp as (Ht & Hc & Ha & Hs). unfold is_u64, u64_max in *.
  destruct o as [b|b]; unfold progress_apply at 2 4 6; simpl.
  - unfold set_active, saturating_sub. destruct (_ <? b) eqn:E; bool_prop.
    + apply IH. by split_and!.
    + match goal with |- context [foldl _ ?q ops] => apply (IH q) end.
      split_and!; cbn; try done; unfold u64_max; lia.
  - unfold complete, checked_add, ok_or. destruct (_ + b <=? u64_max) eqn:E1; bool_prop; simpl.
    + destruct (ciphertext_total p <? _) eqn:E2; bool_prop.
      * rewrite (proj2 (Z.leb_gt b _)) by lia. apply IH. by split_and!.
      * rewrite (proj2 (Z.leb_le b _)) by lia.
        destruct (IH {| plaintext_total := plaintext_total p;
          ciphertext_total := ciphertext_total p;
          completed_ciphertext := completed_ciphertext p + b; active_ciphertext := 0 |})
          as (? & ? & Hd); [split_and!; cbn; try done; unfold u64_max; lia|].
        split_and!; try done. rewrite Hd. simpl.
        replace (ciphertext_total p - (completed_ciphertext p + b))
          with (ciphertext_total p - completed_ciphertext p - b) by lia. lia.
    + rewrite (proj2 (Z.leb_gt b _)) by (unfold u64_max in *; lia). apply IH. by split_and!.
Qed.

(** Progress never claims more ciphertext than the transfer has: over any
    reports, the completed and active bytes together stay within the total, and
    the completed bytes are exactly the sum of the completions that still fit. *)
Theorem progress_accounting plain total p0 ops :
  is_u64 total → progress_new plain total = Ok p0 →
  Forall (λ o, match o with SetActive b | CompleteBytes b => is_u64 b end) ops →
  let p := foldl progress_apply p0 ops in
  0 ≤ completed_ciphertext p ∧ 0 ≤ active_ciphertext p ∧
  completed_ciphertext p + active_ciphertext p ≤ total ∧
  completed_ciphertext p = accepted_bytes total ops.
Proof.
  intros Ht Hn Hu p. unfold progress_new in Hn. guards Hn. simplify_eq.
  destruct (progress_run _ ops (ltac:(split_and!; done || (unfold is_u64 in *; cbn; lia)) :
    progress_wf {| plaintext_total := plain; ciphertext_total := total;
      completed_ciphertext := 0; active_ciphertext := 0 |}) Hu)
    as ((_ & ? & ? & ?) & Ht' & Hd). subst p. simpl in *.
  rewrite Ht', Z.sub_0_r in *. lia.
Qed.

Lemma progress_accounting_witness :
  let p := foldl progress_apply
    {| plaintext_total := 70; ciphertext_total := 86; completed_ciphertext := 0;
       active_ciphertext := 0 |}
    [SetActive 40; CompleteBytes 50; CompleteBytes 40; SetActive 36] in
  0 ≤ completed_ciphertext p ∧ 0 ≤ active_ciphertext p ∧
  completed_ciphertext p + active_ciphertext p ≤ 86 ∧
  completed_ciphertext p
  = accepted_bytes 86 [SetActive 40; CompleteBytes 50; CompleteBytes 40; SetActive 36].
Proof.
  apply (progress_accounting 70 86); [vm_compute; split; discriminate|reflexivity|].
  repeat constructor; vm_compute; discriminate.
Defined.
