(* ===== verification/Str.v ===== *)
(** * Rust strings

    A [&str] is the [string] of its UTF-8 bytes, so [len()] is [String.length]
    and [bytes()] the list of its bytes; [chars] decodes the Unicode scalar
    values and [of_chars] encodes them again.  The operations below are the
    ones of Rust's standard library that the modelled code calls. *)

From Stdlib Require Import Ascii String.
From S2P Require Import Prelude.
Open Scope Z_scope.

Definition byte_of (a : ascii) : Z := Z.of_N (N_of_ascii a).
Definition of_byte (b : Z) : ascii := ascii_of_N (Z.to_N b).

(** [str::len] and [str::bytes] *)
Definition len (s : string) : Z := Z.of_nat (String.length s).
Definition bytes (s : string) : list Z := byte_of <$> list_ascii_of_string s.
Definition of_bytes (l : list Z) : string := string_of_list_ascii (of_byte <$> l).
Definition is_empty (s : string) : bool := bool_decide (s = EmptyString).

(** ** UTF-8 *)

Definition encode_char (c : Z) : list Z :=
  if c <? 128 then [c]
  else if c <? 2048 then [192 + c / 64; 128 + c mod 64]
  else if c <? 65536 then [224 + c / 4096; 128 + c / 64 mod 64; 128 + c mod 64]
  else [240 + c / 262144; 128 + c / 4096 mod 64; 128 + c / 64 mod 64; 128 + c mod 64].

Definition of_chars (l : list Z) : string := of_bytes (l ≫= encode_char).

(** Decoding follows the lead byte; a [&str] is well-formed UTF-8, so the
    catch-all case is never reached on one. *)
Fixpoint decode (l : list Z) : list Z :=
  match l with
  | [] => []
  | b0 :: l0 =>
      if b0 <? 128 then b0 :: decode l0
      else match l0 with
      | [] => []
      | b1 :: l1 =>
          if b0 <? 224 then (b0 - 192) * 64 + (b1 - 128) :: decode l1
          else match l1 with
          | [] => []
          | b2 :: l2 =>
              if b0 <? 240
              then (b0 - 224) * 4096 + (b1 - 128) * 64 + (b2 - 128) :: decode l2
              else match l2 with
              | [] => []
              | b3 :: l3 =>
                  (b0 - 240) * 262144 + (b1 - 128) * 4096 + (b2 - 128) * 64 + (b3 - 128)
                  :: decode l3
              end
          end
      end
  end.

(** [str::chars] *)
Definition chars (s : string) : list Z := decode (bytes s).

Definition is_scalar (c : Z) : Prop := 0 ≤ c < 1114112 ∧ ¬ (55296 ≤ c < 57344).

(** A well-formed [&str]. *)
Definition utf8 (s : string) : Prop := ∃ l, Forall is_scalar l ∧ s = of_chars l.

(** [str::encode_utf16().count()] *)
Definition utf16_len (s : string) : Z :=
  sum_Z ((λ c, if c <? 65536 then 1 else 2) <$> chars s).

(** [char::is_whitespace] (the Unicode property White_Space) *)
Definition is_whitespace (c : Z) : bool :=
  (9 <=? c) && (c <=? 13) || (c =? 32) || (c =? 133) || (c =? 160) || (c =? 5760)
  || (8192 <=? c) && (c <=? 8202) || (c =? 8232) || (c =? 8233) || (c =? 8239)
  || (c =? 8287) || (c =? 12288).

(** [char::is_control] (general category Cc) *)
Definition is_control (c : Z) : bool := (0 <=? c) && (c <? 32) || (127 <=? c) && (c <? 160).

(** ** Bytes *)

Definition ch (a : ascii) : Z := byte_of a.
Definition is_ascii_digit (b : Z) : bool := (48 <=? b) && (b <=? 57).
Definition is_ascii_uppercase (b : Z) : bool := (65 <=? b) && (b <=? 90).
Definition is_ascii_lowercase (b : Z) : bool := (97 <=? b) && (b <=? 122).
Definition is_ascii_alphanumeric (b : Z) : bool :=
  is_ascii_digit b || is_ascii_uppercase b || is_ascii_lowercase b.
Definition is_ascii_hexdigit (b : Z) : bool :=
  is_ascii_digit b || (65 <=? b) && (b <=? 70) || (97 <=? b) && (b <=? 102).
Definition to_upper_byte (b : Z) : Z := if is_ascii_lowercase b then b - 32 else b.
Definition to_lower_byte (b : Z) : Z := if is_ascii_uppercase b then b + 32 else b.
(** [str::to_ascii_uppercase], [to_ascii_lowercase] *)
Definition to_ascii_uppercase (s : string) : string := of_bytes (to_upper_byte <$> bytes s).
Definition to_ascii_lowercase (s : string) : string := of_bytes (to_lower_byte <$> bytes s).

(** ** Trimming and splitting *)

Fixpoint drop_while {A} (p : A → bool) (l : list A) : list A :=
  match l with
  | [] => []
  | a :: l' => if p a then drop_while p l' else l
  end.
Definition drop_while_end {A} (p : A → bool) (l : list A) : list A :=
  reverse (drop_while p (reverse l)).

(** [str::trim_start_matches], [trim_end_matches], [trim_matches], [trim] *)
Definition trim_start_matches (p : Z → bool) (s : string) : string :=
  of_chars (drop_while p (chars s)).
Definition trim_end_matches (p : Z → bool) (s : string) : string :=
  of_chars (drop_while_end p (chars s)).
Definition trim_matches (p : Z → bool) (s : string) : string :=
  of_chars (drop_while_end p (drop_while p (chars s))).
Definition trim (s : string) : string := trim_matches is_whitespace s.

(** [str::starts_with], [strip_prefix], [ends_with], [contains] *)
Definition starts_with (p s : string) : bool := String.prefix p s.
Fixpoint strip_prefix (p s : string) : option string :=
  match p, s with
  | EmptyString, _ => Some s
  | String a p', String b s' => if Ascii.eqb a b then strip_prefix p' s' else None
  | String _ _, EmptyString => None
  end.
Definition ends_with (p s : string) : bool :=
  bool_decide (reverse (bytes p) = take (length (bytes p)) (reverse (bytes s))).
Fixpoint contains (p s : string) : bool :=
  String.prefix p s || match s with EmptyString => false | String _ s' => contains p s' end.

(** [str::split_once]: at the first match of the separator;
    [str::rsplit_once]: at the last one. *)
Fixpoint split_once (sep s : string) : option (string * string) :=
  match strip_prefix sep s with
  | Some rest => Some (EmptyString, rest)
  | None =>
      match s with
      | EmptyString => None
      | String c s' => '(l, r) ← split_once sep s'; Some (String c l, r)
      end
  end.
Fixpoint rsplit_once (sep s : string) : option (string * string) :=
  match s with
  | EmptyString =>
      match strip_prefix sep s with Some rest => Some (EmptyString, rest) | None => None end
  | String c s' =>
      match rsplit_once sep s' with
      | Some (l, r) => Some (String c l, r)
      | None => match strip_prefix sep s with Some rest => Some (EmptyString, rest) | None => None end
      end
  end.

(** [str::split] on one ASCII character. *)
Fixpoint split_char (c : ascii) (s : string) : list string :=
  match s with
  | EmptyString => [EmptyString]
  | String a s' =>
      match split_char c s' with
      | [] => []
      | p :: ps => if Ascii.eqb a c then EmptyString :: p :: ps else String a p :: ps
      end
  end.

(** ** Bytes and characters round-trip *)

Lemma of_byte_of a : of_byte (byte_of a) = a.
Proof. unfold of_byte, byte_of. rewrite N2Z.id. apply ascii_N_embedding. Qed.

Lemma byte_of_byte b : is_u8 b → byte_of (of_byte b) = b.
Proof.
  intros [H1 H2]. unfold of_byte, byte_of. rewrite N_ascii_embedding.
  - apply Z2N.id. done.
  - unfold u8_max in H2. lia.
Qed.

Lemma byte_of_u8 a : is_u8 (byte_of a).
Proof.
  unfold byte_of, is_u8, u8_max. pose proof (N_ascii_bounded a). lia.
Qed.

Lemma bytes_u8 s : Forall is_u8 (bytes s).
Proof. apply Forall_fmap, Forall_true. apply byte_of_u8. Qed.

Lemma of_bytes_bytes s : of_bytes (bytes s) = s.
Proof.
  unfold of_bytes, bytes. induction s as [|a s IH]; [done|].
  cbn. by rewrite of_byte_of, IH.
Qed.

Lemma bytes_of_bytes l : Forall is_u8 l → bytes (of_bytes l) = l.
Proof.
  intros Hl. unfold of_bytes, bytes. rewrite list_ascii_of_string_of_list_ascii.
  rewrite <- list_fmap_compose. induction Hl as [|b l Hb _ IH]; [done|].
  csimpl. by rewrite byte_of_byte, IH.
Qed.

Lemma bytes_inj s t : bytes s = bytes t → s = t.
Proof. intros H. by rewrite <- (of_bytes_bytes s), H, of_bytes_bytes. Qed.

Lemma bytes_app s t : bytes (s +:+ t) = bytes s ++ bytes t.
Proof.
  induction s as [|a s IH]; [done|].
  change (byte_of a :: bytes (s +:+ t) = byte_of a :: (bytes s ++ bytes t)). by rewrite IH.
Qed.

Lemma length_bytes s : Z.of_nat (length (bytes s)) = len s.
Proof.
  unfold bytes, len. rewrite length_fmap.
  induction s as [|a s IH]; [done|]. cbn [list_ascii_of_string length String.length]. lia.
Qed.

Ltac div_mod c k :=
  pose proof (Z.mod_pos_bound c k ltac:(done)); pose proof (Z.div_mod c k ltac:(done)).

Lemma encode_char_u8 c : is_scalar c → Forall is_u8 (encode_char c).
Proof.
  intros [Hc _]. unfold encode_char, is_u8, u8_max.
  div_mod c 64. div_mod (c / 64) 64. div_mod c 4096. div_mod (c / 4096) 64. div_mod c 262144.
  repeat case_match; bool_prop; repeat constructor; lia.
Qed.

Lemma decode_encode_char c l : is_scalar c → decode (encode_char c ++ l) = c :: decode l.
Proof.
  intros [Hc _]. unfold encode_char.
  pose proof (Z.div_div c 64 64 ltac:(done) ltac:(done)) as E1.
  pose proof (Z.div_div c 4096 64 ltac:(done) ltac:(done)) as E2.
  change (64 * 64) with 4096 in E1. change (4096 * 64) with 262144 in E2.
  div_mod c 64. div_mod (c / 64) 64. div_mod (c / 4096) 64.
  assert (0 ≤ c / 4096) by (apply Z.div_pos; lia).
  assert (0 ≤ c / 262144) by (apply Z.div_pos; lia).
  destruct (c <? 128) eqn:L1; [|destruct (c <? 2048) eqn:L2;
    [|destruct (c <? 65536) eqn:L3]]; bool_prop; cbn [app decode].
  - by rewrite (proj2 (Z.ltb_lt c 128)).
  - rewrite (proj2 (Z.ltb_ge (192 + _) 128)), (proj2 (Z.ltb_lt (192 + _) 224)) by lia.
    f_equal. lia.
  - rewrite (proj2 (Z.ltb_ge (224 + _) 128)), (proj2 (Z.ltb_ge (224 + _) 224)),
      (proj2 (Z.ltb_lt (224 + _) 240)) by lia. f_equal. lia.
  - rewrite (proj2 (Z.ltb_ge (240 + _) 128)), (proj2 (Z.ltb_ge (240 + _) 224)),
      (proj2 (Z.ltb_ge (240 + _) 240)) by lia. f_equal. lia.
Qed.

Lemma decode_encode l : Forall is_scalar l → decode (l ≫= encode_char) = l.
Proof.
  induction 1 as [|c l Hc _ IH]; [done|]. rewrite bind_cons, decode_encode_char by done.
  by f_equal.
Qed.

Lemma chars_of_chars l : Forall is_scalar l → chars (of_chars l) = l.
Proof.
  intros Hl. unfold chars, of_chars. rewrite bytes_of_bytes; [by apply decode_encode|].
  induction Hl as [|c l Hc _ IH]; [constructor|].
  rewrite bind_cons. apply Forall_app. split; [by apply encode_char_u8|done].
Qed.

Lemma of_chars_chars s : utf8 s → of_chars (chars s) = s.
Proof. intros (l & Hl & ->). by rewrite chars_of_chars. Qed.

(** [str::from_utf8]: a byte sequence is well-formed exactly when it is the
    encoding of the scalar values it decodes to. *)
#[export] Instance is_scalar_dec c : Decision (is_scalar c).
Proof. unfold is_scalar. apply _. Defined.

Definition from_utf8 (l : list Z) : option string :=
  let s := of_bytes l in
  if forallb (λ c, bool_decide (is_scalar c)) (chars s) && (of_chars (chars s) =? s)%string
  then Some s else None.

Lemma from_utf8_utf8 l s : from_utf8 l = Some s → utf8 s.
Proof.
  unfold from_utf8. case_match eqn:E; [|done]. intros [= <-]. bool_prop.
  eexists (chars (of_bytes l)). split; [|congruence].
  rewrite forallb_forall in *. apply Forall_forall. intros c Hc.
  apply list_elem_of_In in Hc. by eapply bool_decide_eq_true, H.
Qed.

Lemma from_utf8_bytes s : utf8 s → from_utf8 (bytes s) = Some s.
Proof.
  intros Hs. unfold from_utf8. rewrite of_bytes_bytes, (of_chars_chars s Hs), String.eqb_refl.
  destruct Hs as (l & Hl & ->). rewrite chars_of_chars by done.
  rewrite (proj2 (forallb_forall _ _)); [done|].
  intros c Hc. apply bool_decide_eq_true. apply list_elem_of_In in Hc.
  by eapply Forall_forall in Hl.
Qed.

Lemma utf8_check s : from_utf8 (bytes s) = Some s → utf8 s.
Proof. apply from_utf8_utf8. Qed.

(** ** Trimming and splitting at a known tail *)

Lemma strip_prefix_app p s : strip_prefix p (p +:+ s) = Some s.
Proof. induction p as [|a p IH]; [done|]. simpl. by rewrite Ascii.eqb_refl. Qed.

Lemma strip_prefix_Some p s r : strip_prefix p s = Some r → s = p +:+ r.
Proof.
  revert s. induction p as [|a p IH]; intros s; simpl; [by intros [= ->]|].
  destruct s as [|b s]; [done|]. destruct (Ascii.eqb_spec a b); [|done]. subst. intros H.
  by rewrite (IH _ H).
Qed.

Lemma strip_prefix_ne a b p s : a ≠ b → strip_prefix (String a p) (String b s) = None.
Proof. intros H. simpl. by destruct (Ascii.eqb_spec a b). Qed.

Lemma split_once_Some sep s l r : split_once sep s = Some (l, r) → s = l +:+ sep +:+ r.
Proof.
  revert l. induction s as [|c s IH]; intros l; simpl.
  - destruct (strip_prefix sep "") eqn:E; [|done]. intros [= <- <-].
    by apply strip_prefix_Some in E.
  - destruct (strip_prefix sep (String c s)) eqn:E.
    + intros [= <- <-]. by apply strip_prefix_Some in E.
    + destruct (split_once sep s) as [[l' r']|]; [|done]. intros [= <- <-].
      cbn. by rewrite (IH l').
Qed.

Lemma rsplit_once_Some sep s l r : rsplit_once sep s = Some (l, r) → s = l +:+ sep +:+ r.
Proof.
  revert l. induction s as [|c s IH]; intros l; simpl.
  - destruct (strip_prefix sep "") eqn:E; [|done]. intros [= <- <-].
    by apply strip_prefix_Some in E.
  - destruct (rsplit_once sep s) as [[l' r']|].
    + intros [= <- <-]. cbn. by rewrite (IH l').
    + destruct (strip_prefix sep (String c s)) eqn:E; [|done]. intros [= <- <-].
      by apply strip_prefix_Some in E.
Qed.

(** A string without the character [c]. *)
Definition no_char (c : ascii) (s : string) : Prop := c ∉ list_ascii_of_string s.

Lemma no_char_String c a s : no_char c (String a s) ↔ a ≠ c ∧ no_char c s.
Proof. unfold no_char. cbn. rewrite not_elem_of_cons. naive_solver. Qed.

Lemma split_once_char c s r :
  no_char c s → split_once (String c "") (s +:+ String c r) = Some (s, r).
Proof.
  induction s as [|a s IH]; intros Hn.
  - simpl. by rewrite Ascii.eqb_refl.
  - apply no_char_String in Hn as [Ha Hn]. simpl.
    rewrite (proj2 (Ascii.eqb_neq c a)) by done. by rewrite (IH Hn).
Qed.

Lemma rsplit_once_no_char c sep s : no_char c s → rsplit_once (String c sep) s = None.
Proof.
  induction s as [|a s IH]; intros Hn; [done|]. apply no_char_String in Hn as [Ha Hn].
  simpl. rewrite (proj2 (Ascii.eqb_neq c a)) by done. by rewrite (IH Hn).
Qed.

Lemma rsplit_once_char c s r :
  no_char c r → rsplit_once (String c "") (s +:+ String c r) = Some (s, r).
Proof.
  intros Hr. induction s as [|a s IH]; simpl.
  - by rewrite (rsplit_once_no_char c "" r Hr), Ascii.eqb_refl.
  - by rewrite IH.
Qed.

Lemma strip_prefix_tail sep s tail r :
  (∀ c, no_char c sep ∨ no_char c tail) → strip_prefix sep (s +:+ tail) = Some r →
  ∃ s', s = sep +:+ s' ∧ r = s' +:+ tail.
Proof.
  intros Hd. revert s. induction sep as [|a sep IH]; intros s; simpl.
  { intros [= <-]. by exists s. }
  assert (Hd' : ∀ c, no_char c sep ∨ no_char c tail).
  { intros c. destruct (Hd c) as [H|H]; [left|by right]. by apply no_char_String in H as [_ H]. }
  destruct s as [|b s]; simpl.
  - destruct tail as [|b t]; simpl; [discriminate|]. destruct (Ascii.eqb_spec a b) as [->|]; [|discriminate].
    destruct (Hd b) as [H|H]; apply no_char_String in H; naive_solver.
  - destruct (Ascii.eqb_spec a b) as [->|]; [|discriminate]. intros H.
    destruct (IH Hd' _ H) as (s' & -> & ->). by exists s'.
Qed.

(** A separator that shares no character with the tail lies before the tail. *)
Lemma rsplit_once_tail sep s tail l r :
  sep ≠ "" → (∀ c, no_char c sep ∨ no_char c tail) → rsplit_once sep (s +:+ tail) = Some (l, r) →
  ∃ s', s = l +:+ sep +:+ s' ∧ r = s' +:+ tail.
Proof.
  intros Hne Hd. destruct sep as [|a sep]; [done|].
  revert l. induction s as [|b s IH]; intros l; simpl.
  - intros H. exfalso. destruct (Hd a) as [Ha|Ha]; [by apply no_char_String in Ha as [? _]|].
    by rewrite rsplit_once_no_char in H.
  - destruct (rsplit_once (String a sep) (s +:+ tail)) as [[l' r']|] eqn:E.
    + intros [= <- <-]. destruct (IH l' eq_refl) as (s' & -> & ->). by exists s'.
    + change (if (a =? b)%char then strip_prefix sep (s +:+ tail) else None)
        with (strip_prefix (String a sep) (String b s +:+ tail)).
      destruct (strip_prefix _ _) eqn:Ep; [|discriminate]. intros [= <- <-].
      apply strip_prefix_tail in Ep as (s' & -> & ->); [|done]. by exists s'.
Qed.

(** ** UTF-8 boundaries *)

Lemma of_bytes_app l k : of_bytes (l ++ k) = of_bytes l +:+ of_bytes k.
Proof.
  unfold of_bytes. rewrite fmap_app. induction (of_byte <$> l) as [|a m IH]; [done|].
  simpl. by rewrite IH.
Qed.

Lemma of_chars_app l k : of_chars (l ++ k) = of_chars l +:+ of_chars k.
Proof. unfold of_chars. by rewrite bind_app, of_bytes_app. Qed.

Lemma bytes_of_chars l : Forall is_scalar l → bytes (of_chars l) = l ≫= encode_char.
Proof.
  intros Hl. unfold of_chars. apply bytes_of_bytes.
  induction Hl as [|c l Hc _ IH]; [constructor|].
  rewrite bind_cons. apply Forall_app. split; [by apply encode_char_u8|done].
Qed.

Lemma chars_app s t : utf8 s → chars (s +:+ t) = chars s ++ chars t.
Proof.
  intros (l & Hl & ->). rewrite (chars_of_chars l Hl). unfold chars.
  rewrite bytes_app, bytes_of_chars by done.
  induction Hl as [|c l Hc _ IH]; [done|].
  rewrite bind_cons, <- app_assoc, decode_encode_char by done. simpl. by rewrite IH.
Qed.

(** A string of ASCII characters. *)
Definition ascii_str (s : string) : Prop := Forall (λ b, 0 ≤ b < 128) (bytes s).

Lemma decode_ascii l : Forall (λ b, 0 ≤ b < 128) l → decode l = l.
Proof.
  induction 1 as [|b l Hb _ IH]; [done|]. simpl.
  rewrite (proj2 (Z.ltb_lt b 128)) by lia. by rewrite IH.
Qed.

Lemma chars_ascii s : ascii_str s → chars s = bytes s.
Proof. apply decode_ascii. Qed.

Lemma encode_ascii l : Forall (λ b, 0 ≤ b < 128) l → l ≫= encode_char = l.
Proof.
  induction 1 as [|b l Hb _ IH]; [done|]. rewrite bind_cons, IH. unfold encode_char.
  by rewrite (proj2 (Z.ltb_lt b 128)) by lia.
Qed.

Lemma of_chars_ascii s : ascii_str s → of_chars (bytes s) = s.
Proof. intros H. unfold of_chars. by rewrite encode_ascii, of_bytes_bytes. Qed.

Lemma ascii_str_utf8 s : ascii_str s → utf8 s.
Proof.
  intros H. exists (bytes s). split; [|by rewrite of_chars_ascii].
  eapply Forall_impl; [exact H|]. intros b Hb. cbv beta in Hb. unfold is_scalar. lia.
Qed.

Lemma encode_char_high c : 128 ≤ c → is_scalar c → Forall (λ b, 128 ≤ b) (encode_char c).
Proof.
  intros Hc [Hs _]. unfold encode_char. rewrite (proj2 (Z.ltb_ge c 128)) by done.
  div_mod c 64. div_mod (c / 64) 64. div_mod c 4096. div_mod (c / 4096) 64. div_mod c 262144.
  repeat case_match; bool_prop; repeat constructor; lia.
Qed.

(** An ASCII byte of an encoding is a character, so splitting there keeps the
    rest well-formed. *)
Lemma encode_split l b pre post :
  Forall is_scalar l → 0 ≤ b < 128 → l ≫= encode_char = pre ++ b :: post →
  ∃ l1 l2, l = l1 ++ b :: l2 ∧ pre = l1 ≫= encode_char ∧ post = l2 ≫= encode_char.
Proof.
  intros Hl Hb. revert pre. induction Hl as [|c l Hc Hl IH]; intros pre He.
  { by destruct pre. }
  rewrite bind_cons in He. destruct (Z.lt_ge_cases c 128) as [Hlt|Hge].
  - assert (Ec : encode_char c = [c])
      by (unfold encode_char; by rewrite (proj2 (Z.ltb_lt c 128))). rewrite Ec in He.
    destruct pre as [|p pre]; [injection He as -> <-; by exists [], l|injection He as -> He].
    destruct (IH pre He) as (l1 & l2 & -> & -> & ->). exists (p :: l1), l2.
    split_and!; try done. rewrite bind_cons. by rewrite Ec.
  - pose proof (encode_char_high c Hge Hc) as Hh.
    apply app_eq_inv in He as [(k & He & Hpost)|(k & -> & He)].
    + rewrite He in Hh. apply Forall_app in Hh as [_ Hh].
      destruct k as [|b' k].
      * destruct (IH []) as (l1 & l2 & -> & Hl1 & ->); [done|]. exists (c :: l1), l2.
        split_and!; try done. by rewrite bind_cons, <- Hl1, He, !app_nil_r.
      * injection Hpost as <- _. apply Forall_cons in Hh as [Hh _]. lia.
    + destruct (IH k He) as (l1 & l2 & -> & -> & ->).
      exists (c :: l1), l2. by rewrite bind_cons.
Qed.

Lemma utf8_split l a r : utf8 (l +:+ String a r) → byte_of a < 128 → utf8 l ∧ utf8 r.
Proof.
  intros (k & Hk & He) Ha. pose proof (byte_of_u8 a) as [Ha0 _].
  apply (f_equal bytes) in He. rewrite bytes_of_chars in He by done.
  rewrite bytes_app in He. change (bytes (String a r)) with (byte_of a :: bytes r) in He.
  symmetry in He. apply encode_split in He as (l1 & l2 & -> & H1 & H2); [|done|lia].
  rewrite Forall_app, Forall_cons in Hk. destruct Hk as (Hl1 & _ & Hl2). split.
  - exists l1. split; [done|]. apply bytes_inj. by rewrite bytes_of_chars.
  - exists l2. split; [done|]. apply bytes_inj. by rewrite bytes_of_chars.
Qed.

(** ** Trimming keeps a tail that nothing trims *)

Lemma drop_while_app {A} (p : A → bool) l k :
  match k with a :: _ => p a = false | [] => False end →
  drop_while p (l ++ k) = drop_while p l ++ k.
Proof.
  intros Hk. induction l as [|a l IH]; simpl; [|rewrite IH; by destruct (p a)].
  destruct k as [|b k]; [done|]. simpl. by rewrite Hk.
Qed.

Lemma drop_while_suffix {A} (p : A → bool) l : ∃ k, l = k ++ drop_while p l.
Proof.
  induction l as [|a l [k IH]]; [by exists []|]. simpl. case_match; [|by exists []].
  exists (a :: k). simpl. by f_equal.
Qed.

Lemma drop_while_end_last {A} (p : A → bool) l a :
  p a = false → drop_while_end p (l ++ [a]) = l ++ [a].
Proof.
  intros Ha. unfold drop_while_end. rewrite reverse_snoc. simpl. rewrite Ha.
  by rewrite reverse_cons, reverse_involutive.
Qed.

Lemma utf8_drop_while p s : utf8 s → utf8 (of_chars (drop_while p (chars s))).
Proof.
  intros (l & Hl & ->). rewrite chars_of_chars by done. eexists; split; [|done].
  destruct (drop_while_suffix p l) as [k Hk]. rewrite Hk in Hl. by apply Forall_app in Hl as [_ Hl].
Qed.

(** An ASCII tail that starts and ends with characters outside [p]. *)
Definition untrimmed (p : Z → bool) (t : string) : Prop :=
  ascii_str t ∧ ∃ a m z, bytes t = m ++ [z] ∧ p z = false ∧
    head (bytes t) = Some a ∧ p a = false.

Lemma trim_matches_tail p s t :
  utf8 s → untrimmed p t → ∃ s', utf8 s' ∧ trim_matches p (s +:+ t) = s' +:+ t.
Proof.
  intros Hs (Ht & a & m & z & Hm & Hz & Hh & Ha).
  exists (of_chars (drop_while p (chars s))). split; [by apply utf8_drop_while|].
  unfold trim_matches. rewrite chars_app, (chars_ascii t) by done.
  rewrite drop_while_app by (destruct (bytes t); [done|by injection Hh as ->]).
  rewrite Hm, app_assoc, drop_while_end_last, <- app_assoc, <- Hm by done.
  by rewrite of_chars_app, of_chars_ascii.
Qed.

Lemma trim_matches_id p t : untrimmed p t → trim_matches p t = t.
Proof.
  intros (Ht & a & m & z & Hm & Hz & Hh & Ha). unfold trim_matches. rewrite chars_ascii by done.
  assert (Hd : drop_while p (bytes t) = bytes t) by (destruct (bytes t) as [|b l]; [done|]; simplify_eq/=; by rewrite Ha).
  rewrite Hd, Hm, drop_while_end_last, <- Hm by done. by apply of_chars_ascii.
Qed.

Lemma trim_end_matches_tail p s t :
  utf8 s → untrimmed p t → trim_end_matches p (s +:+ t) = s +:+ t.
Proof.
  intros Hs (Ht & a & m & z & Hm & Hz & _). unfold trim_end_matches.
  rewrite chars_app, (chars_ascii t) by done.
  rewrite Hm, app_assoc, drop_while_end_last, <- app_assoc, <- Hm by done.
  by rewrite of_chars_app, of_chars_ascii, of_chars_chars.
Qed.

Lemma trim_start_matches_head p t a :
  ascii_str t → head (bytes t) = Some a → p a = false → trim_start_matches p t = t.
Proof.
  intros Ht Hh Ha. unfold trim_start_matches. rewrite chars_ascii by done.
  destruct (bytes t) as [|b l] eqn:E; [done|]. simplify_eq/=. rewrite Ha, <- E.
  by apply of_chars_ascii.
Qed.

(** A property of every byte, by evaluation. *)
Lemma byte_forall (P : Z → bool) :
  forallb P (seqZ 0 256) = true → ∀ b, is_u8 b → P b = true.
Proof.
  intros H b [H1 H2]. rewrite forallb_forall in H. apply H.
  apply list_elem_of_In, elem_of_seqZ. unfold u8_max in H2. lia.
Qed.

(** [byte_implies P Q]: a byte in [P] is in [Q]. *)
Lemma byte_implies (P Q : Z → bool) :
  forallb (λ b, implb (P b) (Q b)) (seqZ 0 256) = true →
  ∀ b, is_u8 b → P b = true → Q b = true.
Proof. intros H b Hb HP. pose proof (byte_forall _ H b Hb) as Hi. cbv beta in Hi. by rewrite HP in Hi. Qed.

Lemma no_char_bytes c s (P : Z → bool) :
  Forall (λ b, P b = true) (bytes s) → P (byte_of c) = false → no_char c s.
Proof.
  intros Hs Hc Hin. rewrite Forall_forall in Hs.
  assert (byte_of c ∈ bytes s) as Hb by (by apply list_elem_of_fmap_2).
  apply Hs in Hb. congruence.
Qed.

Lemma contains_no_char c p s : no_char c s → contains (String c p) s = false.
Proof.
  induction s as [|a s IH]; intros Hn; [done|]. apply no_char_String in Hn as [Ha Hn].
  simpl. destruct (ascii_dec c a); [congruence|]. by apply IH.
Qed.

Lemma len_nonneg s : 0 ≤ len s.
Proof. unfold len. lia. Qed.

Lemma len_to_ascii_uppercase s : len (to_ascii_uppercase s) = len s.
Proof.
  rewrite <- !length_bytes. unfold to_ascii_uppercase. rewrite bytes_of_bytes.
  - by rewrite length_fmap.
  - apply Forall_fmap. eapply Forall_impl; [apply bytes_u8|]. intros b Hb. cbv beta.
    unfold to_upper_byte, is_ascii_lowercase, is_u8, u8_max in *. simpl. case_match; bool_prop; lia.
Qed.

Lemma bytes_to_ascii_uppercase s : bytes (to_ascii_uppercase s) = to_upper_byte <$> bytes s.
Proof.
  unfold to_ascii_uppercase. apply bytes_of_bytes.
  apply Forall_fmap. eapply Forall_impl; [apply bytes_u8|]. intros b Hb. cbv beta.
  unfold to_upper_byte, is_ascii_lowercase, is_u8, u8_max in *. simpl. case_match; bool_prop; lia.
Qed.

Lemma is_empty_len s : is_empty s = false ↔ 0 < len s.
Proof.
  unfold is_empty, len. destruct s as [|a s]; [done|].
  rewrite bool_decide_false by done. cbn [String.length]. split; [lia|done].
Qed.

Lemma append_nil_r s : s +:+ "" = s.
Proof. induction s as [|a s IH]; [done|]. change (String a (s +:+ "") = String a s). by rewrite IH. Qed.

Lemma split_once_no_char c s : no_char c s → split_once (String c "") s = None.
Proof.
  induction s as [|a s IH]; intros Hn; [done|]. apply no_char_String in Hn as [Ha Hn].
  simpl. rewrite (proj2 (Ascii.eqb_neq c a)) by done. by rewrite (IH Hn).
Qed.

Lemma chars_scalar s : utf8 s → Forall is_scalar (chars s).
Proof. intros (l & Hl & ->). by rewrite chars_of_chars. Qed.

Lemma drop_while_end_prefix {A} (p : A → bool) l : ∃ k, l = drop_while_end p l ++ k.
Proof.
  unfold drop_while_end. destruct (drop_while_suffix p (reverse l)) as [k Hk].
  exists (reverse k). rewrite <- reverse_app, <- Hk. by rewrite reverse_involutive.
Qed.

Lemma drop_while_head {A} (p : A → bool) l :
  match drop_while p l with a :: _ => p a = false | [] => True end.
Proof. induction l as [|a l IH]; [done|]. simpl. by destruct (p a) eqn:E. Qed.

(** Nothing in [p] is left at the end. *)
Lemma drop_while_end_stops {A} (p : A → bool) l :
  match last (drop_while_end p l) with Some a => p a = false | None => True end.
Proof.
  unfold drop_while_end. rewrite last_reverse.
  pose proof (drop_while_head p (reverse l)) as H. by destruct (drop_while p (reverse l)).
Qed.

Lemma drop_while_end_id {A} (p : A → bool) l :
  match last l with Some a => p a = false | None => True end → drop_while_end p l = l.
Proof.
  intros H. destruct l as [|a l _] using rev_ind; [done|].
  rewrite last_snoc in H. by apply drop_while_end_last.
Qed.

Lemma append_inj_r (a b c : string) : a +:+ b = a +:+ c → b = c.
Proof. induction a as [|x a IH]; [done|]. cbn. intros [= Ha]. by apply IH. Qed.

Lemma split_char_cons c s : ∃ p ps, split_char c s = p :: ps.
Proof.
  induction s as [|a s (p & ps & E)]; cbn; [eauto|]. rewrite E. case_match; eauto.
Qed.

Lemma split_char_app c a b : no_char c a → split_char c (a +:+ String c b) = a :: split_char c b.
Proof.
  induction a as [|x a IH]; intros Ha.
  - destruct (split_char_cons c b) as (p & ps & E). change ("" +:+ String c b) with (String c b).
    cbn [split_char]. by rewrite E, Ascii.eqb_refl.
  - apply no_char_String in Ha as [Hx Ha]. change (String x a +:+ String c b) with (String x (a +:+ String c b)).
    cbn [split_char]. rewrite (IH Ha). by rewrite (proj2 (Ascii.eqb_neq x c)).
Qed.

Lemma split_char_no_char c a : no_char c a → split_char c a = [a].
Proof.
  induction a as [|x a IH]; [done|]. intros [Hx Ha]%no_char_String. cbn [split_char]. rewrite (IH Ha).
  by rewrite (proj2 (Ascii.eqb_neq x c)).
Qed.

(** A path below a directory starts with it and a slash. *)
Lemma starts_with_join a b t : starts_with (a +:+ b) (a +:+ b +:+ t) = true.
Proof.
  unfold starts_with. induction a as [|x a IH].
  - change (String.prefix b (b +:+ t) = true). induction b as [|y b IH]; [by destruct t|].
    change (String y b +:+ t) with (String y (b +:+ t)). cbn. by destruct (ascii_dec y y).
  - change (String x a +:+ b) with (String x (a +:+ b)).
    change (String x a +:+ b +:+ t) with (String x (a +:+ b +:+ t)). cbn.
    by destruct (ascii_dec x x).
Qed.
