(* ===== verification/Link.v ===== *)
(** * Share links (crates/transfer/src/link.rs) and driver limits
      (crates/transfer/src/capabilities.rs)

    A share link is whatever a user pasted: quotes, brackets, a markdown link
    or an URL around a 26-character ULID with an optional key fragment. *)

From Stdlib Require Import Ascii String.
From S2P Require Import Prelude Str.
Open Scope Z_scope.

Record ShareLink := { link_id : string; link_key : option string }.

(** ** Character classes *)

Definition in_range (lo hi : ascii) (b : Z) : bool := (ch lo <=? b) && (b <=? ch hi).

Definition base64url_value (b : Z) : option Z :=
  if in_range "A" "Z" b then Some (b - ch "A")
  else if in_range "a" "z" b then Some (b - ch "a" + 26)
  else if in_range "0" "9" b then Some (b - ch "0" + 52)
  else if b =? ch "-" then Some 62
  else if b =? ch "_" then Some 63
  else None.

Definition is_base64url (b : Z) : bool :=
  is_ascii_alphanumeric b || (b =? ch "-") || (b =? ch "_").

(** [value.as_bytes().last()]: the lengths compared before are positive. *)
Definition last_byte (value : string) : Z := List.last (bytes value) 0.

Definition valid_base64url (value : string) (length unused_bits : Z) : bool :=
  (len value =? length) && forallb is_base64url (bytes value)
  && match base64url_value (last_byte value) with
     | Some last => Z.land last unused_bits =? 0
     | None => false
     end.

Definition ulid_byte (c : Z) : bool :=
  in_range "0" "9" c || in_range "A" "H" c || in_range "J" "K" c || in_range "M" "N" c
  || in_range "P" "T" c || in_range "V" "Z" c.

Definition is_ulid (value : string) : bool :=
  (len value =? 26)
  && match bytes value with b :: _ => in_range "0" "7" b | [] => false end
  && forallb ulid_byte (tail (bytes value)).

(** [matches!(i, 8 | 13 | 18 | 23) && c == b'-' || c.is_ascii_hexdigit()] *)
Definition uuid_byte (i : nat) (c : Z) : bool :=
  bool_decide (i ∈ [8; 13; 18; 23]%nat) && (c =? ch "-") || is_ascii_hexdigit c.

Definition is_uuid (value : string) : bool :=
  (len value =? 36) && forallb id (imap uuid_byte (bytes value)).

(** ** Parsing *)

(** The characters the two [trim_matches] calls strip. *)
Definition one_of (s : string) (c : Z) : bool := bool_decide (c ∈ bytes s).
Definition dquote : string := String (ascii_of_nat 34) "".
Definition link_quotes : string := "'`<>[]" +:+ dquote.
Definition value_quotes : string := "'`<>" +:+ dquote.

(** The value between the wrappings: the last path segment and its fragment. *)
Definition link_value (input : string) : string :=
  let value := trim_matches (one_of link_quotes) (trim input) in
  let value :=
    match rsplit_once "](" value with
    | Some (_, markdown) => trim (trim_end_matches (one_of ")") (trim markdown))
    | None => value
    end in
  let value := trim_matches (one_of value_quotes) value in
  let value := match rsplit_once "/" value with Some (_, path) => path | None => value end in
  trim_start_matches (one_of "/") value.

(** The optional key of the fragment. *)
Definition parse_key (fragment : option string) : result string (option string) :=
  match fragment with
  | None => Ok None
  | Some fragment =>
      key ← ok_or (strip_prefix "v1." (default fragment (strip_prefix "k=" fragment)))
              "share key must use v1.<base64url>";
      reject negb (valid_base64url key 43 3) with "share key must decode to 32 bytes";
      Ok (Some key)
  end.

Definition parse_share_link (input : string) : result string ShareLink :=
  let value := link_value input in
  let '(id, fragment) :=
    match split_once "#" value with
    | Some (id, fragment) => (id, Some fragment)
    | None => (value, None)
    end in
  reject is_empty id || contains "/" id || contains "?" id
    with "transfer link has an invalid path";
  reject is_uuid id
    with "UUIDs are not Filebeam transfer IDs; provide a 26-character ULID";
  let id := to_ascii_uppercase id in
  reject negb (is_ulid id) with "transfer ID must be a canonical 26-character ULID";
  key ← parse_key fragment;
  Ok {| link_id := id; link_key := key |}.

(** ** Driver limits *)

Record DriverLimits := {
  maximum_transfer_bytes : option Z;
  maximum_file_count : option Z;
  maximum_note_bytes : option Z }.

Definition select_driver_limits (driver : string) (advertised : gmap string DriverLimits)
    (legacy_http_bytes legacy_http_count : option Z) : DriverLimits :=
  match advertised !! driver with
  | Some limits => limits
  | None =>
      if (driver =? "http")%string
      then {| maximum_transfer_bytes := legacy_http_bytes; maximum_file_count := legacy_http_count;
              maximum_note_bytes := None |}
      else {| maximum_transfer_bytes := None; maximum_file_count := None;
              maximum_note_bytes := None |}
  end.

(** ** Canonical identifiers and keys *)

Lemma is_ulid_inv i :
  is_ulid i = true →
  len i = 26 ∧ ∃ b l, bytes i = b :: l ∧ in_range "0" "7" b = true ∧ Forall (λ c, ulid_byte c = true) l.
Proof.
  unfold is_ulid. intros H. bool_prop. split; [done|]. destruct (bytes i) as [|b l]; [done|].
  exists b, l. split_and!; try done. apply Forall_forall. intros c Hc.
  match goal with H : forallb _ _ = true |- _ => rewrite forallb_forall in H; apply H end.
  by apply list_elem_of_In.
Qed.

(** The characters a link's identifier and key consist of. *)
Definition plain_str (s : string) : Prop := Forall (λ b, is_base64url b = true) (bytes s).

Lemma plain_str_app s t : plain_str s → plain_str t → plain_str (s +:+ t).
Proof. unfold plain_str. rewrite bytes_app. intros. by apply Forall_app. Qed.

(** A string whose bytes are all ones [P] accepts is ASCII and untrimmed by
    any [q] that shares no byte with [P]. *)
Lemma untrimmed_bytes (P q : Z → bool) t :
  forallb (λ b, implb (P b) ((b <? 128) && negb (q b))) (seqZ 0 256) = true →
  t ≠ "" → Forall (λ b, P b = true) (bytes t) → untrimmed q t.
Proof.
  intros Hc Hne Ht.
  assert (Hb : Forall (λ b, 0 ≤ b < 128 ∧ q b = false) (bytes t)).
  { rewrite Forall_forall in Ht |- *. intros b Hin.
    assert (is_u8 b) as Hu by (pose proof (bytes_u8 t) as Hu; rewrite Forall_forall in Hu; auto).
    pose proof (byte_implies _ _ Hc b Hu (Ht b Hin)) as Hi. cbv beta in Hi. bool_prop.
    destruct Hu. lia || (split; [lia|done]). }
  split; [by eapply Forall_impl; [exact Hb|]; intros b [? _]|].
  destruct (bytes t) as [|a l] eqn:E; [by destruct t|].
  destruct (exists_last (l := a :: l) ltac:(done)) as (m & z & Em).
  exists a, m, z. split_and!; try done.
  - rewrite Em in Hb. apply Forall_app in Hb as [_ Hb]. by apply Forall_cons in Hb as [[_ ?] _].
  - by apply Forall_cons in Hb as [[_ ?] _].
Qed.

(** The bytes of an identifier with its fragment, and with the slash before. *)
Definition value_byte (b : Z) : bool :=
  is_base64url b || (b =? ch "#") || (b =? ch "=") || (b =? ch ".").
Definition tail_byte (b : Z) : bool := value_byte b || (b =? ch "/").

Lemma trim_tail q s t :
  forallb (λ b, implb (tail_byte b) ((b <? 128) && negb (q b))) (seqZ 0 256) = true →
  utf8 s → t ≠ "" → Forall (λ b, tail_byte b = true) (bytes t) →
  ∃ s', utf8 s' ∧ trim_matches q (s +:+ t) = s' +:+ t.
Proof. intros Hq Hs Hne Ht. apply trim_matches_tail; [done|]. by apply (untrimmed_bytes tail_byte). Qed.

(** Whatever precedes the last slash, the value is what follows it. *)
Lemma link_value_tail p rest :
  utf8 p → rest ≠ "" → Forall (λ b, value_byte b = true) (bytes rest) →
  link_value (p +:+ "/" +:+ rest) = rest.
Proof.
  intros Hp Hne Hv. set (t := "/" +:+ rest).
  assert (Ht : Forall (λ b, tail_byte b = true) (bytes t)).
  { unfold t. rewrite bytes_app. apply Forall_app. split; [by repeat constructor|].
    eapply Forall_impl; [exact Hv|]. intros b Hb. unfold tail_byte. by rewrite Hb. }
  assert (Hnt : t ≠ "") by done.
  assert (Hslash : no_char "/" rest) by (by eapply no_char_bytes).
  unfold link_value, trim.
  destruct (trim_tail is_whitespace p t) as (p1 & Hp1 & ->); [by vm_compute|done..|].
  destruct (trim_tail (one_of link_quotes) p1 t) as (p2 & Hp2 & ->); [by vm_compute|done..|].
  assert (Hm : ∃ p3, utf8 p3 ∧
    match rsplit_once "](" (p2 +:+ t) with
    | Some (_, markdown) => trim_matches is_whitespace
        (trim_end_matches (one_of ")") (trim_matches is_whitespace markdown))
    | None => p2 +:+ t
    end = p3 +:+ t).
  { destruct (rsplit_once "](" (p2 +:+ t)) as [[l r]|] eqn:E; [|by exists p2].
    apply rsplit_once_tail in E as (s & -> & ->); [| done |].
    - apply (utf8_split l "]") in Hp2 as [_ Hs]; [|done].
      apply (utf8_split "" "(") in Hs as [_ Hs]; [|done].
      destruct (trim_tail is_whitespace s t) as (s1 & Hs1 & ->); [by vm_compute|done..|].
      rewrite trim_end_matches_tail; [|done|by apply (untrimmed_bytes tail_byte); [vm_compute| |]].
      apply trim_tail; [by vm_compute|done..].
    - intros c. destruct (decide (c = "]"%char ∨ c = "("%char)) as [Hc|Hc].
      + right. destruct Hc as [-> | ->]; by eapply no_char_bytes.
      + left. rewrite !no_char_String. split_and!; [naive_solver..|]. unfold no_char. set_solver. }
  destruct Hm as (p3 & Hp3 & ->).
  destruct (trim_tail (one_of value_quotes) p3 t) as (p4 & Hp4 & ->); [by vm_compute|done..|].
  change t with (String "/" rest). rewrite rsplit_once_char by done.
  destruct (untrimmed_bytes value_byte (one_of "/") rest) as (Ha & a & _ & _ & _ & _ & Hh & Hq);
    [by vm_compute|done..|]. by eapply trim_start_matches_head.
Qed.

(** A value without wrappings and slashes is its own. *)
Lemma link_value_bare rest :
  rest ≠ "" → Forall (λ b, value_byte b = true) (bytes rest) → link_value rest = rest.
Proof.
  intros Hne Hv.
  assert (Hu : ∀ q, forallb (λ b, implb (value_byte b) ((b <? 128) && negb (q b))) (seqZ 0 256) = true →
    untrimmed q rest) by (intros q Hq; by apply (untrimmed_bytes value_byte)).
  unfold link_value, trim.
  rewrite (trim_matches_id is_whitespace rest), (trim_matches_id (one_of link_quotes) rest)
    by (apply Hu; by vm_compute).
  assert (Hc : ∀ c, value_byte (byte_of c) = false → no_char c rest) by (intros c; by apply no_char_bytes).
  rewrite (rsplit_once_no_char "]") by by apply Hc.
  rewrite (trim_matches_id _ rest), (rsplit_once_no_char "/") by (apply Hc || apply Hu; by vm_compute).
  destruct (Hu (one_of "/")) as (Ha & a & _ & _ & _ & _ & Hh & Hq); [by vm_compute|].
  by eapply trim_start_matches_head.
Qed.

Lemma ulid_upper i : is_ulid i = true → to_ascii_uppercase i = i.
Proof.
  intros H. apply is_ulid_inv in H as (_ & b & l & Hb & Hb0 & Hl).
  apply bytes_inj. rewrite bytes_to_ascii_uppercase. rewrite <- (list_fmap_id (bytes i)) at 2.
  pose proof (bytes_u8 i) as H8. apply list_fmap_ext. intros k c Hc. apply list_elem_of_lookup_2 in Hc.
  assert (Hu : ulid_byte c = true).
  { rewrite Hb in Hc. apply elem_of_cons in Hc as [->|Hc]; [|rewrite Forall_forall in Hl; by apply Hl].
    rewrite Hb in H8. inversion_clear H8. by apply (byte_implies (in_range "0" "7") ulid_byte). }
  rewrite Forall_forall in H8. apply Z.eqb_eq. cbn [id].
  by apply (byte_implies ulid_byte (λ c, to_upper_byte c =? c)); [vm_compute|apply H8|].
Qed.

Lemma ulid_plain i :
  is_ulid (to_ascii_uppercase i) = true → len i = 26 ∧ plain_str i.
Proof.
  intros H. apply is_ulid_inv in H as (Hl & b & l & Hb & Hb0 & Hl').
  rewrite len_to_ascii_uppercase in Hl. split; [done|].
  pose proof (bytes_u8 (to_ascii_uppercase i)) as Hb8. unfold plain_str.
  assert (Hu : Forall (λ c, ulid_byte c = true) (to_upper_byte <$> bytes i)).
  { rewrite <- bytes_to_ascii_uppercase, Hb in *. constructor; [|done].
    apply Forall_cons in Hb8 as [Hb8 _]. revert Hb8 Hb0. clear Hb. revert b.
    apply byte_implies. by vm_compute. }
  rewrite Forall_fmap in Hu. pose proof (bytes_u8 i) as H8.
  rewrite Forall_forall in Hu, H8 |- *. intros c Hc. specialize (Hu c Hc). specialize (H8 c Hc).
  clear Hc. revert c H8 Hu. apply byte_implies. by vm_compute.
Qed.

(** The fragment a link carries for a key, with or without the [k=] mark. *)
Definition fragment (marked : bool) (key : option string) : string :=
  match key with
  | Some k => "#" +:+ (if marked then "k=v1." else "v1.") +:+ k
  | None => ""
  end.

Lemma valid_key_plain k : valid_base64url k 43 3 = true → plain_str k.
Proof.
  unfold valid_base64url. intros H. bool_prop. apply Forall_forall. intros b Hb.
  match goal with H : forallb _ _ = true |- _ => rewrite forallb_forall in H; apply H end.
  by apply list_elem_of_In.
Qed.

Lemma fragment_bytes m k :
  from_option (λ k, valid_base64url k 43 3 = true) True k →
  Forall (λ b, value_byte b = true) (bytes (fragment m k)).
Proof.
  destruct k as [k|]; [|by constructor]. intros Hk. apply valid_key_plain in Hk.
  assert (Hp : Forall (λ b, value_byte b = true) (bytes k)).
  { eapply Forall_impl; [exact Hk|]. intros b Hb. unfold value_byte. by rewrite Hb. }
  unfold fragment. rewrite !bytes_app. destruct m; repeat (apply Forall_app; split); try done;
    repeat constructor.
Qed.

Lemma parse_key_fragment (m : bool) k :
  valid_base64url k 43 3 = true →
  parse_key (Some ((if m then "k=v1." else "v1.") +:+ k)) = Ok (Some k).
Proof.
  intros Hk. unfold parse_key. destruct m.
  - change ("k=v1." +:+ k) with ("k=" +:+ ("v1." +:+ k)). rewrite strip_prefix_app. cbn [from_option id].
    rewrite strip_prefix_app. cbn. by rewrite Hk.
  - change (strip_prefix "k=" ("v1." +:+ k)) with (None : option string). cbn [from_option id].
    rewrite strip_prefix_app. cbn. by rewrite Hk.
Qed.

Lemma link_parts (id : string) m key :
  is_ulid (to_ascii_uppercase id) = true →
  from_option (λ k, valid_base64url k 43 3 = true) True key →
  id +:+ fragment m key ≠ "" ∧ Forall (λ b, value_byte b = true) (bytes (id +:+ fragment m key)).
Proof.
  intros Hu Hk. destruct (ulid_plain id Hu) as [Hlen Hplain]. split; [by destruct id; [|]|].
  rewrite bytes_app. apply Forall_app. split; [|by apply fragment_bytes].
  eapply Forall_impl; [exact Hplain|]. intros b Hb. unfold value_byte. by rewrite Hb.
Qed.

(** What is parsed once the wrappings are gone. *)
Lemma parse_link_value input id marked key :
  link_value input = id +:+ fragment marked key → is_ulid (to_ascii_uppercase id) = true →
  from_option (λ k, valid_base64url k 43 3 = true) True key →
  parse_share_link input = Ok {| link_id := to_ascii_uppercase id; link_key := key |}.
Proof.
  intros Hv Hu Hk. destruct (ulid_plain id Hu) as [Hlen Hplain]. unfold parse_share_link. rewrite Hv.
  assert (Hs : split_once "#" (id +:+ fragment marked key)
    = match key with
      | Some k => Some (id, (if marked then "k=v1." else "v1.") +:+ k)
      | None => None
      end).
  { assert (Hnc : no_char "#" id) by (by eapply no_char_bytes).
    destruct key as [k|]; [by apply split_once_char|].
    cbn [fragment]. by rewrite append_nil_r, split_once_no_char. }
  rewrite Hs.
  assert (Hi : is_empty id = false) by (apply is_empty_len; lia).
  assert (Hc1 : contains "/" id = false) by (apply contains_no_char; by eapply no_char_bytes).
  assert (Hc2 : contains "?" id = false) by (apply contains_no_char; by eapply no_char_bytes).
  assert (Hc3 : is_uuid id = false) by (unfold is_uuid; by rewrite (proj2 (Z.eqb_neq (len id) 36)) by lia).
  destruct key as [k|]; cbn [fragment];
    rewrite ?append_nil_r, Hi, Hc1, Hc2, Hc3, Hu; cbn [orb negb]; [|done].
  by rewrite parse_key_fragment.
Qed.

Lemma parsed_canonical input parsed :
  parse_share_link input = Ok parsed →
  is_ulid (link_id parsed) = true ∧
  from_option (λ k, valid_base64url k 43 3 = true) True (link_key parsed).
Proof.
  unfold parse_share_link.
  destruct (match split_once "#" (link_value input) with Some _ => _ | None => _ end) as [i f].
  intros H. guards H. destruct (parse_key f) as [k|] eqn:Ek; [|done]. cbn in H. simplify_eq.
  bool_prop. split; [done|]. cbn. unfold parse_key in Ek. destruct f as [f|]; simplify_eq; [|done].
  destruct (strip_prefix "v1." _) as [k'|]; [|done]. cbn in Ek. guards Ek. simplify_eq.
  by bool_prop.
Qed.

(** A share link reads back. Whatever text precedes the last slash (an
    origin, a quotation, a markdown link's text), the canonical identifier, in
    upper or lower case, and the key of the fragment are recovered; and what
    the parser accepts is always a canonical upper-case identifier with a key
    of 32 encoded bytes, or none. *)
Theorem share_link_roundtrip prefix id marked key :
  utf8 prefix → is_ulid (to_ascii_uppercase id) = true →
  from_option (λ k, valid_base64url k 43 3 = true) True key →
  let link := prefix +:+ "/" +:+ id +:+ fragment marked key in
  parse_share_link link = Ok {| link_id := to_ascii_uppercase id; link_key := key |} ∧
  ∀ input parsed, parse_share_link input = Ok parsed →
    is_ulid (link_id parsed) = true ∧
    from_option (λ k, valid_base64url k 43 3 = true) True (link_key parsed).
Proof.
  intros Hp Hu Hk link. split; [|apply parsed_canonical].
  destruct (link_parts id marked key) as [Hne Hv]; [done..|].
  apply (parse_link_value _ id marked); [|done..]. by apply link_value_tail.
Qed.

Lemma share_link_roundtrip_witness :
  let id := "01arz3ndektsv4rrffq69g5fav" in
  let key := "AAAAAAAAAAAAAAAAAAAAAAAAAAAAAAAAAAAAAAAAAAA" in
  parse_share_link ("see [x](https://h" +:+ "/" +:+ id +:+ fragment true (Some key))
  = Ok {| link_id := to_ascii_uppercase id; link_key := Some key |} ∧
  ∀ input parsed, parse_share_link input = Ok parsed →
    is_ulid (link_id parsed) = true ∧
    from_option (λ k, valid_base64url k 43 3 = true) True (link_key parsed).
Proof.
  apply (share_link_roundtrip "see [x](https://h"); [by apply utf8_check|reflexivity..].
Defined.
