(* ===== verification/Manifest.v ===== *)
(** * Manifests (crates/transfer/src/manifest.rs)

    The decrypted description of a transfer's files, and the validation every
    client runs on it against the server's item list before it trusts it. *)

From Stdlib Require Import Ascii String.
From S2P Require Import Prelude Transport Str Link.
Open Scope Z_scope.

Definition MAX_ATTACHED_NOTE_BYTES : Z := 64 * 1024.

Record AttachedNote := { text : string; title : option string; language : string }.

Record DigestValue := { algorithm : string; value : string }.

Record ManifestItem := {
  id : string;
  name : string;
  mime : string;
  size : Z;
  nonce_prefix : string;
  item_chunk_count : Z;
  digest : DigestValue }.

Record Manifest := {
  attached_note : option AttachedNote;
  join_token : option string;
  version : Z;
  items : list ManifestItem }.

Record ManifestServerItem := {
  server_id : string;
  position : Z;
  server_chunk_count : Z }.

(** ** Notes *)

Definition note_languages : list string :=
  ["plain"; "php"; "dotenv"; "javascript"; "typescript"; "json"; "markdown"; "css"; "html"].

Definition note_validate (n : AttachedNote) : result string () :=
  reject is_empty (text n) || (MAX_ATTACHED_NOTE_BYTES <? len (text n))
    with "attached note text must contain 1 byte to 64 KiB of UTF-8";
  reject match title n with
         | Some title => 160 <? Z.of_nat (length (chars title))
         | None => false
         end
    with "attached note title must contain at most 160 characters";
  reject negb (bool_decide (language n ∈ note_languages))
    with "unsupported attached note language";
  Ok ().

(** ** Tokens *)

Definition valid_capability (value : string) : bool :=
  (len value =? 64) && forallb is_ascii_alphanumeric (bytes value).

Definition valid_digest (value : string) : bool :=
  (len value =? 64) && forallb is_ascii_hexdigit (bytes value).

Definition valid_nonce_prefix (value : string) : bool :=
  (len value =? 22) && forallb is_base64url (bytes value)
  && match base64url_value (last_byte value) with
     | Some last => Z.land last 15 =? 0
     | None => false
     end.

(** ** Portable file names *)

Definition forbidden_char (c : Z) : bool :=
  bool_decide (c ∈ bytes ("/\:*?<>|" +:+ dquote)) || is_control c.

#[global] Arguments forbidden_char : simpl never.

Definition underscore : Z := ch "_".

Definition is_windows_device_name (name : string) : bool :=
  let stem := to_ascii_uppercase (default "" (head (split_char "." name))) in
  bool_decide (stem ∈ ["CON"; "PRN"; "AUX"; "NUL"])
  || (len stem =? 4) && (starts_with "COM" stem || starts_with "LPT" stem)
     && match bytes stem !! 3%nat with Some b => in_range "1" "9" b | None => false end.

(** The loop that pops trailing dots and spaces. *)
Definition trailing (c : Z) : bool := (c =? ch ".") || (c =? ch " ").

Definition portable_filename (value : string) : string :=
  let mapped := (λ c, if forbidden_char c then underscore else c) <$> chars value in
  let name := of_chars (drop_while_end trailing mapped) in
  if is_empty name || (name =? ".")%string || (name =? "..")%string || is_windows_device_name name
  then "download" else name.

(** ** Validation *)

(** One turn of the loop over the server's items. *)
Definition check_server (count : Z) (acc : gset string * gset Z) (server : ManifestServerItem)
    : result string (gset string * gset Z) :=
  let '(server_ids, positions) := acc in
  reject is_empty (server_id server)
         || bool_decide (server_id server ∈ server_ids)
         || bool_decide (position server ∈ positions)
         || (count <=? position server)
         || (server_chunk_count server =? 0)
         || (MAX_CHUNKS <? server_chunk_count server)
    with "transfer has invalid item metadata";
  Ok ({[server_id server]} ∪ server_ids, {[position server]} ∪ positions).

(** One turn of the loop over the manifest's items. *)
Definition check_item (chunk_bytes : Z) (servers : list ManifestServerItem)
    (acc : gset string * gset string) (item : ManifestItem)
    : result string (gset string * gset string) :=
  let '(ids, names) := acc in
  server ← ok_or (snd <$> list_find (λ server, server_id server = id item) servers) "unknown item";
  total ← ok_or (checked_add (size item) (saturating_sub chunk_bytes 1))
            "manifest chunk count overflow";
  let count := total / chunk_bytes in
  reject is_empty (id item) || is_empty (name item)
         || bool_decide (id item ∈ ids)
         || bool_decide (portable_filename (name item) ∈ names)
         || negb (algorithm (digest item) =? "sha256")%string
         || negb (valid_digest (value (digest item)))
         || (item_chunk_count item =? 0)
         || (MAX_CHUNKS <? item_chunk_count item)
         || negb (item_chunk_count item =? Z.max count 1)
         || negb (server_chunk_count server =? item_chunk_count item)
         || negb (valid_nonce_prefix (nonce_prefix item))
    with "manifest item is invalid";
  Ok ({[id item]} ∪ ids, {[portable_filename (name item)]} ∪ names).

Definition validate_manifest (manifest : Manifest) (driver : string) (chunk_bytes : Z)
    (server_items : list ManifestServerItem) : result string () :=
  _ ← (match attached_note manifest with Some note => note_validate note | None => Ok () end);
  reject (driver =? "webrtc")%string
         && negb (from_option valid_capability false (join_token manifest))
    with "live manifest has an invalid join token";
  reject negb (version manifest =? 1) || bool_decide (items manifest = [])
         || negb (Nat.eqb (length (items manifest)) (length server_items))
    with "manifest does not match transfer";
  reject (chunk_bytes =? 0) || (MAX_CIPHERTEXT_BYTES - AEAD_TAG_BYTES <? chunk_bytes)
    with "transfer has an invalid chunk size";
  _ ← try_fold (check_server (Z.of_nat (length server_items))) (∅, ∅) server_items;
  _ ← try_fold (check_item chunk_bytes server_items) (∅, ∅) (items manifest);
  Ok ().

(** ** What a validated manifest guarantees *)

(** A duplicate-free list of positions below its length lists them all. *)
Lemma positions_permutation (l : list Z) :
  NoDup l → Forall (λ p, 0 ≤ p < Z.of_nat (length l)) l → l ≡ₚ seqZ 0 (Z.of_nat (length l)).
Proof.
  intros Hn Hl. apply submseteq_length_Permutation; [|by rewrite length_seqZ, Nat2Z.id].
  apply NoDup_submseteq; [done|]. intros p Hp. rewrite Forall_forall in Hl.
  apply elem_of_seqZ. specialize (Hl p Hp). lia.
Qed.

Lemma NoDup_snoc {A} (l : list A) a : NoDup l → a ∉ l → NoDup (l ++ [a]).
Proof. intros Hl Ha. apply NoDup_app. split_and!; [done|set_solver|apply NoDup_singleton]. Qed.

Ltac seen_list :=
  repeat match goal with H : _ ∉ list_to_set _ |- _ => rewrite elem_of_list_to_set in H end.

Lemma check_servers_Ok n servers acc :
  try_fold (check_server n) (∅, ∅) servers = Ok acc →
  NoDup (server_id <$> servers) ∧ NoDup (position <$> servers) ∧
  Forall (λ s, server_id s ≠ "" ∧ position s < n ∧ 0 ≠ server_chunk_count s ∧
            server_chunk_count s ≤ MAX_CHUNKS) servers.
Proof.
  intros H.
  apply (try_fold_ind (λ l acc, acc = (list_to_set (server_id <$> l), list_to_set (position <$> l)) ∧
    NoDup (server_id <$> l) ∧ NoDup (position <$> l) ∧
    Forall (λ s, server_id s ≠ "" ∧ position s < n ∧ 0 ≠ server_chunk_count s ∧
              server_chunk_count s ≤ MAX_CHUNKS) l)) in H; [by destruct H| |].
  { split_and!; [done|constructor..]. }
  intros l s acc1 acc2 _ (-> & Hi & Hp & Hf) Hc. unfold check_server in Hc. guards Hc.
  simplify_eq. bool_prop. seen_list.
  rewrite !fmap_app. cbn [fmap list_fmap]. split_and!.
  - f_equal; set_solver.
  - by apply NoDup_snoc.
  - by apply NoDup_snoc.
  - apply Forall_app. split; [done|]. constructor; [|done]. split_and!; try done; try lia.
    match goal with H : is_empty _ = false |- _ => intros E; by rewrite E in H end.
Qed.

(** What the check of one item says. *)
Definition item_ok (chunk_bytes : Z) (servers : list ManifestServerItem) (i : ManifestItem) : Prop :=
  ∃ server, server ∈ servers ∧ server_id server = id i ∧
    server_chunk_count server = item_chunk_count i ∧
    item_chunk_count i = Z.max 1 (div_ceil (size i) chunk_bytes) ∧
    item_chunk_count i ≤ MAX_CHUNKS ∧ name i ≠ "" ∧
    algorithm (digest i) = "sha256" ∧ valid_digest (value (digest i)) = true ∧
    valid_nonce_prefix (nonce_prefix i) = true.

Lemma check_items_Ok chunk servers items acc :
  0 < chunk → try_fold (check_item chunk servers) (∅, ∅) items = Ok acc →
  NoDup (id <$> items) ∧ NoDup (portable_filename ∘ name <$> items) ∧
  Forall (item_ok chunk servers) items.
Proof.
  intros Hc0 H.
  apply (try_fold_ind (λ l acc,
    acc = (list_to_set (id <$> l), list_to_set (portable_filename ∘ name <$> l)) ∧
    NoDup (id <$> l) ∧ NoDup (portable_filename ∘ name <$> l) ∧
    Forall (item_ok chunk servers) l)) in H; [by destruct H| |].
  { split_and!; [done|constructor..]. }
  intros l i acc1 acc2 _ (-> & Hi & Hn & Hf) Hc. unfold check_item in Hc.
  destruct (list_find _ servers) as [[k server]|] eqn:Es; [|done]. cbn in Hc.
  apply list_find_Some in Es as (Hk & Hid & _).
  destruct (checked_add _ _) as [total|] eqn:Et; [|done]. apply checked_add_Some in Et as [-> _].
  cbn [ok_or mbind result_bind] in Hc. guards Hc. simplify_eq. bool_prop.
  seen_list.
  assert (Hok : item_ok chunk servers i).
  { exists server. apply list_elem_of_lookup_2 in Hk. split_and!; try done.
    - rewrite Z.max_comm. unfold div_ceil.
      replace (size i + chunk - 1) with (size i + saturating_sub chunk 1)
        by (unfold saturating_sub; lia). done.
    - match goal with H : is_empty (name _) = false |- _ => intros E; by rewrite E in H end. }
  rewrite !fmap_app. cbn [fmap list_fmap]. split_and!.
  - f_equal; set_solver.
  - by apply NoDup_snoc.
  - by apply NoDup_snoc.
  - apply Forall_app. by repeat constructor.
Qed.

(** The checks a validated manifest has passed. *)
Lemma validate_manifest_Ok manifest driver chunk_bytes servers :
  0 ≤ chunk_bytes → validate_manifest manifest driver chunk_bytes servers = Ok () →
  length (items manifest) = length servers ∧
  ((driver =? "webrtc")%string && negb (from_option valid_capability false (join_token manifest)) = false) ∧
  NoDup (server_id <$> servers) ∧ NoDup (position <$> servers) ∧
  Forall (λ s, server_id s ≠ "" ∧ position s < Z.of_nat (length servers) ∧
            0 ≠ server_chunk_count s ∧ server_chunk_count s ≤ MAX_CHUNKS) servers ∧
  NoDup (id <$> items manifest) ∧ NoDup (portable_filename ∘ name <$> items manifest) ∧
  Forall (item_ok chunk_bytes servers) (items manifest).
Proof.
  intros Hc0. unfold validate_manifest, mbind, result_bind.
  destruct (match attached_note manifest with Some _ => _ | None => _ end) as [[]|]; [|done].
  intros H. guards H. bool_prop.
  destruct (try_fold (check_server _) _ _) as [acc1|] eqn:E1; [|done].
  destruct (try_fold (check_item _ _) _ _) as [acc2|] eqn:E2; [|done].
  apply check_servers_Ok in E1 as (Hsi & Hsp & Hsf). apply check_items_Ok in E2 as (Hii & Hin & Hif);
    [|lia].
  split_and!; try done. by apply Nat.eqb_eq.
Qed.

(** C3: a manifest that validates describes exactly the server's transfer. Its
    items are the server's items, each once, at positions that are exactly
    [0 .. n-1]; every chunk count is the one the item's size requires, at least
    one and at most 65,535, on both sides; digests and nonce prefixes are well
    formed; and no two items would be stored under one portable file name. *)
Theorem manifest_sound manifest driver chunk_bytes servers :
  0 ≤ chunk_bytes → Forall (λ s, 0 ≤ position s) servers →
  validate_manifest manifest driver chunk_bytes servers = Ok () →
  id <$> items manifest ≡ₚ server_id <$> servers ∧
  position <$> servers ≡ₚ seqZ 0 (Z.of_nat (length servers)) ∧
  Forall (item_ok chunk_bytes servers) (items manifest) ∧
  NoDup (id <$> items manifest) ∧
  NoDup (portable_filename ∘ name <$> items manifest) ∧
  (driver = "webrtc" → ∃ token, join_token manifest = Some token ∧ valid_capability token = true).
Proof.
  intros Hc0 Hpos H. apply validate_manifest_Ok in H as (Hlen & Htok & Hsi & Hsp & Hsf & Hii & Hin & Hif);
    [|done].
  split_and!; try done.
  - apply submseteq_length_Permutation; [|rewrite !length_fmap; lia].
    apply NoDup_submseteq; [done|]. intros k Hk. apply list_elem_of_fmap in Hk as (i & -> & Hi).
    rewrite Forall_forall in Hif. destruct (Hif i Hi) as (s & Hs & <- & _).
    by apply list_elem_of_fmap_2.
  - rewrite <- (length_fmap position). apply positions_permutation; [done|].
    rewrite length_fmap. apply Forall_fmap. rewrite Forall_forall in Hpos, Hsf |- *.
    intros s Hs. specialize (Hpos s Hs). specialize (Hsf s Hs). cbn. lia.
  - intros ->. cbn in Htok. apply negb_false_iff in Htok.
    destruct (join_token manifest) as [t|]; [|done]. by exists t.
Qed.

(** The converse: a manifest that meets these conditions validates. *)
Lemma check_servers_complete n servers s p :
  NoDup (server_id <$> servers) → NoDup (position <$> servers) →
  Forall (λ x, server_id x ∉ s ∧ position x ∉ p) servers →
  Forall (λ x, server_id x ≠ "" ∧ position x < n ∧ 0 ≠ server_chunk_count x ∧
            server_chunk_count x ≤ MAX_CHUNKS) servers →
  is_ok (try_fold (check_server n) (s, p) servers) = true.
Proof.
  revert s p. induction servers as [|x l IH]; intros s p Hi Hp Hf Ho; [done|].
  apply NoDup_cons in Hi as [Hxi Hi]. apply NoDup_cons in Hp as [Hxp Hp].
  apply Forall_cons in Hf as [[H1 H2] Hf]. apply Forall_cons in Ho as [(H3 & H4 & H5 & H6) Ho].
  cbn [try_fold]. unfold check_server, is_empty at 1.
  rewrite !bool_decide_false by done.
  rewrite (proj2 (Z.leb_gt _ _)), (proj2 (Z.eqb_neq _ _)), (proj2 (Z.ltb_ge _ _)) by (done || lia).
  apply IH; try done. rewrite Forall_forall in Hf |- *. intros y Hy. specialize (Hf y Hy).
  split; apply not_elem_of_union; (split; [intros E%elem_of_singleton|tauto]);
    [apply Hxi|apply Hxp]; rewrite <- E; by apply list_elem_of_fmap_2.
Qed.

(** The first element with a key is the only one. *)
Lemma list_find_key {A} (f : A → string) l i x :
  NoDup (f <$> l) → x ∈ l → f x = i → snd <$> list_find (λ y, f y = i) l = Some x.
Proof.
  induction l as [|y l IH]; intros Hn Hs Hi; [by apply elem_of_nil in Hs|].
  apply NoDup_cons in Hn as [Hx Hn]. cbn. destruct (decide (f y = i)) as [He|He].
  - apply elem_of_cons in Hs as [->|Hs]; [done|]. exfalso. apply Hx. rewrite He, <- Hi.
    by apply list_elem_of_fmap_2.
  - apply elem_of_cons in Hs as [->|Hs]; [done|]. specialize (IH Hn Hs Hi).
    by destruct (list_find _ l) as [[]|].
Qed.

Lemma check_items_complete chunk servers items s n :
  0 < chunk → NoDup (server_id <$> servers) →
  NoDup (id <$> items) → NoDup (portable_filename ∘ name <$> items) →
  Forall (λ i, id i ∉ s ∧ portable_filename (name i) ∉ n) items →
  Forall (λ i, id i ≠ "" ∧ 0 ≤ size i ∧ size i + chunk - 1 ≤ u64_max ∧ item_ok chunk servers i) items →
  is_ok (try_fold (check_item chunk servers) (s, n) items) = true.
Proof.
  intros Hc Hs. revert s n. induction items as [|i l IH]; intros s n Hi Hn Hf Ho; [done|].
  apply NoDup_cons in Hi as [Hxi Hi]. apply NoDup_cons in Hn as [Hxn Hn].
  apply Forall_cons in Hf as [[H1 H2] Hf].
  apply Forall_cons in Ho as [(H3 & H4 & H5 & (v & Hv & Hid & Hcount & Hd & Hmax & Hname & Ha & Hg & Hp)) Ho].
  cbn [try_fold]. unfold check_item at 1.
  rewrite (list_find_key server_id _ _ _ Hs Hv Hid). cbn [ok_or mbind result_bind].
  replace (checked_add _ _) with (Some (size i + chunk - 1)).
  2: { symmetry. apply checked_add_Some. unfold saturating_sub. lia. }
  cbn [ok_or mbind result_bind]. fold (div_ceil (size i) chunk).
  unfold is_empty. rewrite !bool_decide_false by done.
  replace (Z.max (div_ceil (size i) chunk) 1) with (item_chunk_count i) by lia.
  rewrite Ha, Hg, Hp, Hcount, !Z.eqb_refl, (proj2 (Z.eqb_neq _ 0)), (proj2 (Z.ltb_ge _ _)) by lia.
  change (("sha256" =? "sha256")%string) with true. cbn [negb orb].
  apply IH; try done. rewrite Forall_forall in Hf |- *. intros y Hy. specialize (Hf y Hy).
  split; apply not_elem_of_union; (split; [intros E%elem_of_singleton|tauto]).
  - apply Hxi. rewrite <- E. by apply list_elem_of_fmap_2.
  - apply Hxn. cbn [compose]. rewrite <- E. by apply (list_elem_of_fmap_2 (portable_filename ∘ name)).
Qed.

Lemma manifest_complete manifest driver chunk_bytes servers :
  0 < chunk_bytes ≤ MAX_CIPHERTEXT_BYTES - AEAD_TAG_BYTES →
  version manifest = 1 → items manifest ≠ [] → length (items manifest) = length servers →
  (∀ note, attached_note manifest = Some note → note_validate note = Ok ()) →
  (driver = "webrtc" → ∃ token, join_token manifest = Some token ∧ valid_capability token = true) →
  NoDup (server_id <$> servers) → NoDup (position <$> servers) →
  Forall (λ s, server_id s ≠ "" ∧ position s < Z.of_nat (length servers) ∧
            0 ≠ server_chunk_count s ∧ server_chunk_count s ≤ MAX_CHUNKS) servers →
  NoDup (id <$> items manifest) → NoDup (portable_filename ∘ name <$> items manifest) →
  Forall (λ i, id i ≠ "" ∧ 0 ≤ size i ∧ size i + chunk_bytes - 1 ≤ u64_max ∧
            item_ok chunk_bytes servers i) (items manifest) →
  validate_manifest manifest driver chunk_bytes servers = Ok ().
Proof.
  intros Hc Hv Hne Hl Hnote Htok Hsi Hsp Hs Hi Hn Hf. unfold validate_manifest.
  replace (match attached_note manifest with Some note => note_validate note | None => Ok () end)
    with (Ok () : result string ()) by (destruct (attached_note manifest); [by rewrite Hnote|done]).
  cbn [mbind result_bind].
  replace ((driver =? "webrtc")%string && _) with false.
  2: { symmetry. apply andb_false_iff. destruct (driver =? "webrtc")%string eqn:E; [right|by left].
       apply String.eqb_eq in E. destruct (Htok E) as (t & -> & Ht). cbn. by rewrite Ht. }
  rewrite Hv, bool_decide_false, Hl, Nat.eqb_refl by done. cbn [negb orb Z.eqb Pos.eqb].
  rewrite (proj2 (Z.eqb_neq _ _)), (proj2 (Z.ltb_ge _ _)) by lia. cbn [orb].
  pose proof (check_servers_complete (Z.of_nat (length servers)) servers ∅ ∅ Hsi Hsp) as H1.
  pose proof (check_items_complete chunk_bytes servers (items manifest) ∅ ∅ ltac:(lia) Hsi Hi Hn) as H2.
  destruct (try_fold (check_server _) _ _); [|discriminate H1; [|done]; by apply Forall_true].
  destruct (try_fold (check_item _ _) _ _); [|discriminate H2; [|done]; by apply Forall_true].
  done.
Qed.

(** ** Portable names *)

(** A name that can be created, unchanged, on every platform. *)
Definition portable (n : string) : Prop :=
  n ≠ "" ∧ n ≠ "." ∧ n ≠ ".." ∧ is_windows_device_name n = false ∧
  Forall (λ c, forbidden_char c = false) (chars n) ∧
  (∀ c, last (chars n) = Some c → trailing c = false).

Lemma portable_download : portable "download".
Proof.
  split_and!; try done.
  - vm_compute. repeat (constructor; [reflexivity|]). constructor.
  - intros c. vm_compute. by intros [= <-].
Qed.

Lemma portable_id n : utf8 n → portable n → portable_filename n = n.
Proof.
  intros Hu (H1 & H2 & H3 & H4 & Hf & Hl). unfold portable_filename.
  assert (Hm : (λ c, if forbidden_char c then underscore else c) <$> chars n = chars n).
  { clear Hl. induction Hf as [|c l Hc _ IH]; [done|]. cbn. rewrite Hc. by f_equal. }
  rewrite Hm, drop_while_end_id, of_chars_chars, H4; [|done|destruct (last (chars n)); auto].
  rewrite (proj2 (String.eqb_neq n ".")), (proj2 (String.eqb_neq n "..")) by done.
  unfold is_empty. by rewrite bool_decide_false.
Qed.

Lemma portable_filename_portable v :
  utf8 v → utf8 (portable_filename v) ∧ portable (portable_filename v).
Proof.
  intros Hv. set (mapped := (λ c, if forbidden_char c then underscore else c) <$> chars v).
  assert (Hs : Forall (λ c, is_scalar c ∧ forbidden_char c = false) mapped).
  { apply Forall_fmap. eapply Forall_impl; [by apply chars_scalar|]. intros c Hc. cbn.
    destruct (forbidden_char c) eqn:E; [|done]. split; [vm_compute; intuition congruence|done]. }
  destruct (drop_while_end_prefix trailing mapped) as [k Hk].
  rewrite Hk in Hs. apply Forall_app in Hs as [Hs _].
  pose proof (drop_while_end_stops trailing mapped) as Hlast. clear Hk.
  set (l := drop_while_end trailing mapped) in *.
  assert (Hsc : Forall is_scalar l) by (eapply Forall_impl; [exact Hs|]; by intros ? []).
  unfold portable_filename. fold mapped. fold l.
  destruct (_ || is_windows_device_name (of_chars l)) eqn:E.
  - split; [by apply utf8_check|apply portable_download].
  - split; [by exists l|]. bool_prop. split_and!; try done.
    + match goal with H : is_empty _ = false |- _ => intros Em; by rewrite Em in H end.
    + rewrite chars_of_chars by done. eapply Forall_impl; [exact Hs|]. by intros ? [].
    + rewrite chars_of_chars by done. intros c Hc. by rewrite Hc in Hlast.
Qed.

(** The portable form of any name is safe to create: it is not empty, not
    a directory reference, not a Windows device name, holds no separator,
    wildcard, quote or control character and does not end in a dot or a space;
    and a name that is already portable is kept as it is. *)
Theorem portable_filename_safe v :
  utf8 v →
  portable (portable_filename v) ∧ portable_filename (portable_filename v) = portable_filename v ∧
  (portable v → portable_filename v = v).
Proof.
  intros Hv. destruct (portable_filename_portable v Hv) as [Hu Hp].
  split; [done|]. split; [by apply portable_id|by apply portable_id].
Qed.

Lemma portable_filename_safe_witness :
  let v := "..\a/b?.txt. ." in
  portable (portable_filename v) ∧ portable_filename (portable_filename v) = portable_filename v ∧
  (portable v → portable_filename v = v).
Proof. apply portable_filename_safe. by apply utf8_check. Defined.

(** ** A manifest that validates *)

Definition example_item (i n : string) (bytes count : Z) : ManifestItem :=
  {| id := i; name := n; mime := "text/plain"; size := bytes;
     nonce_prefix := "AAAAAAAAAAAAAAAAAAAAAA"; item_chunk_count := count;
     digest := {| algorithm := "sha256";
       value := "0123456789abcdef0123456789abcdef0123456789abcdef0123456789abcdef" |} |}.
Definition example_manifest : Manifest :=
  {| attached_note := Some {| text := "hi"; title := None; language := "plain" |};
     join_token := None; version := 1;
     items := [example_item "b" "x.txt" 0 1; example_item "a" "y.txt" 25 3] |}.
Definition example_servers : list ManifestServerItem :=
  [{| server_id := "a"; position := 1; server_chunk_count := 3 |};
   {| server_id := "b"; position := 0; server_chunk_count := 1 |}].

Lemma manifest_sound_witness :
  id <$> items example_manifest ≡ₚ server_id <$> example_servers ∧
  position <$> example_servers ≡ₚ seqZ 0 (Z.of_nat (length example_servers)) ∧
  Forall (item_ok 10 example_servers) (items example_manifest) ∧
  NoDup (id <$> items example_manifest) ∧
  NoDup (portable_filename ∘ name <$> items example_manifest) ∧
  ("http" = "webrtc" → ∃ token, join_token example_manifest = Some token ∧
     valid_capability token = true).
Proof.
  apply (manifest_sound example_manifest "http" 10 example_servers); [done| |by vm_compute].
  repeat constructor; cbn; lia.
Defined.
