(* ===== verification/Frame.v ===== *)
(** * The binary frames of the WebRTC channel (crates/transfer/src/lib.rs)

    An [FBCH] frame is a 16-byte big-endian header (magic, sequence, offset,
    payload length) and a payload of 1 to 16,384 bytes.  Bytes are integers
    between 0 and 255. *)

From S2P Require Import Prelude Transport.

Definition WEBRTC_FRAME_HEADER_BYTES : Z := 16.
Definition WEBRTC_FRAME_PAYLOAD_BYTES : Z := 16 * 1024.
Definition WEBRTC_FRAME_MAGIC : Z := 0x46424348.

Definition zlen {A} (l : list A) : Z := Z.of_nat (length l).

Record WebRtcFrame := { f_seq : Z; f_offset : Z; payload : list Z }.

(** ** Big-endian integers: [u32::to_be_bytes], [u32::from_be_bytes] *)

Definition to_be_bytes (x : Z) : list Z :=
  [Z.shiftr x 24; Z.land (Z.shiftr x 16) 255; Z.land (Z.shiftr x 8) 255; Z.land x 255].
Definition from_be_bytes (l : list Z) : Z :=
  foldl (λ acc b, Z.lor (Z.shiftl acc 8) b) 0 l.

#[global] Arguments to_be_bytes : simpl never.
#[global] Arguments from_be_bytes : simpl never.

(** ** Codec *)

Definition validate_frame_payload (payload : list Z) : result string () :=
  reject (zlen payload =? 0) || (WEBRTC_FRAME_PAYLOAD_BYTES <? zlen payload)
    with "invalid WebRTC frame payload length";
  Ok ().

Definition frame_new (seq offset : Z) (payload : list Z) : result string WebRtcFrame :=
  _ ← validate_frame_payload payload;
  Ok {| f_seq := seq; f_offset := offset; payload := payload |}.

Definition validate_for_chunk (f : WebRtcFrame) (expected_seq received expected_bytes : Z)
    : result string () :=
  reject negb ((AEAD_TAG_BYTES <=? expected_bytes) && (expected_bytes <=? MAX_CIPHERTEXT_BYTES))
    with "invalid expected WebRTC chunk length";
  reject negb (f_seq f =? expected_seq) || negb (f_offset f =? received)
    with "unexpected WebRTC frame sequence or offset";
  last ← ok_or (checked_add received (zlen (payload f))) "WebRTC frame offset overflow";
  reject expected_bytes <? last with "WebRTC frame exceeds chunk bounds";
  Ok ().

Definition encode_webrtc_frame (f : WebRtcFrame) : result string (list Z) :=
  _ ← validate_frame_payload (payload f);
  let length := zlen (payload f) in
  reject u32_max <? length with "WebRTC frame payload is too large";
  Ok (to_be_bytes WEBRTC_FRAME_MAGIC ++ to_be_bytes (f_seq f) ++ to_be_bytes (f_offset f)
      ++ to_be_bytes length ++ payload f).

(** [&bytes[a..b]] *)
Definition slice (a b : nat) (l : list Z) : list Z := take (b - a) (drop a l).

Definition parse_webrtc_frame (bytes : list Z) : result string WebRtcFrame :=
  reject (zlen bytes <=? WEBRTC_FRAME_HEADER_BYTES)
         || (WEBRTC_FRAME_HEADER_BYTES + WEBRTC_FRAME_PAYLOAD_BYTES <? zlen bytes)
    with "invalid WebRTC binary frame length";
  let magic := from_be_bytes (slice 0 4 bytes) in
  reject negb (magic =? WEBRTC_FRAME_MAGIC) with "invalid WebRTC binary frame magic";
  let seq := from_be_bytes (slice 4 8 bytes) in
  let offset := from_be_bytes (slice 8 12 bytes) in
  let length := from_be_bytes (slice 12 16 bytes) in
  let payload := drop (Z.to_nat WEBRTC_FRAME_HEADER_BYTES) bytes in
  reject negb (length =? zlen payload) with "WebRTC frame length does not match payload";
  frame_new seq offset payload.

(** ** Big-endian round trips *)

Lemma testbit_byte_above b n : 0 ≤ b < 256 → 8 ≤ n → Z.testbit b n = false.
Proof.
  intros Hb Hn. apply Z.bits_above_log2; [lia|].
  destruct (Z.eq_dec b 0) as [->|]; [simpl; lia|].
  assert (Z.log2 b < 8); [|lia]. apply Z.log2_lt_pow2; lia.
Qed.

Lemma lor_shiftl_add a b : 0 ≤ b < 256 → Z.lor (Z.shiftl a 8) b = a * 256 + b.
Proof.
  intros Hb. rewrite <- Z.add_nocarry_lor.
  - rewrite Z.shiftl_mul_pow2 by lia. done.
  - apply Z.bits_inj'. intros n Hn. rewrite Z.land_spec, Z.bits_0.
    destruct (Z.lt_ge_cases n 8).
    + by rewrite Z.shiftl_spec_low.
    + by rewrite (testbit_byte_above b n), andb_false_r.
Qed.

Lemma land_byte x : Z.land x 255 = x mod 256.
Proof. by apply (Z.land_ones x 8). Qed.

Lemma from_be_bytes_4 a b c d :
  is_u8 a → is_u8 b → is_u8 c → is_u8 d →
  from_be_bytes [a; b; c; d] = ((a * 256 + b) * 256 + c) * 256 + d.
Proof.
  intros [] [] [] []. unfold u8_max, from_be_bytes in *. cbn [foldl].
  rewrite !lor_shiftl_add by lia. lia.
Qed.

Lemma to_be_bytes_eq x :
  to_be_bytes x = [x / 16777216; x / 65536 mod 256; x / 256 mod 256; x mod 256].
Proof.
  unfold to_be_bytes. rewrite !land_byte, !Z.shiftr_div_pow2 by lia. done.
Qed.

Lemma to_be_bytes_u8 x : is_u32 x → Forall is_u8 (to_be_bytes x).
Proof.
  intros [H1 H2]. rewrite to_be_bytes_eq. unfold is_u8, u8_max, u32_max in *.
  pose proof (Z.div_pos x 16777216 H1 ltac:(done)).
  pose proof (Z.div_lt_upper_bound x 16777216 256 ltac:(done) ltac:(lia)).
  pose proof (Z.mod_pos_bound (x / 65536) 256 ltac:(done)).
  pose proof (Z.mod_pos_bound (x / 256) 256 ltac:(done)).
  pose proof (Z.mod_pos_bound x 256 ltac:(done)).
  repeat constructor; lia.
Qed.

Lemma from_to_be_bytes x : is_u32 x → from_be_bytes (to_be_bytes x) = x.
Proof.
  intros Hx. pose proof (to_be_bytes_u8 x Hx) as Hu. rewrite to_be_bytes_eq in *.
  rewrite !Forall_cons in Hu. destruct Hu as (? & ? & ? & ? & _).
  rewrite from_be_bytes_4 by done.
  pose proof (Z.div_div x 256 256 ltac:(done) ltac:(done)) as E1.
  pose proof (Z.div_div x 65536 256 ltac:(done) ltac:(done)) as E2.
  change (256 * 256) with 65536 in E1. change (65536 * 256) with 16777216 in E2.
  pose proof (Z.div_mod x 256 ltac:(done)). pose proof (Z.div_mod (x / 256) 256 ltac:(done)).
  pose proof (Z.div_mod (x / 65536) 256 ltac:(done)). lia.
Qed.

Lemma to_from_be_bytes a b c d :
  is_u8 a → is_u8 b → is_u8 c → is_u8 d →
  to_be_bytes (from_be_bytes [a; b; c; d]) = [a; b; c; d].
Proof.
  intros Ha Hb Hc Hd. rewrite from_be_bytes_4, to_be_bytes_eq by done.
  unfold is_u8, u8_max in *.
  assert (E : ((a * 256 + b) * 256 + c) * 256 + d
    = a * 16777216 + b * 65536 + c * 256 + d) by lia. rewrite E.
  set (x := _ + d).
  assert (D1 : x / 16777216 = a)
    by (symmetry; apply Z.div_unique_pos with (b * 65536 + c * 256 + d); lia).
  assert (D2 : x / 65536 = a * 256 + b)
    by (symmetry; apply Z.div_unique_pos with (c * 256 + d); lia).
  assert (D3 : x / 256 = a * 65536 + b * 256 + c)
    by (symmetry; apply Z.div_unique_pos with d; lia).
  rewrite D1, D2, D3. repeat f_equal; symmetry.
  - apply Z.mod_unique_pos with a; lia.
  - apply Z.mod_unique_pos with (a * 256 + b); lia.
  - apply Z.mod_unique_pos with (a * 65536 + b * 256 + c); lia.
Qed.

(** ** The codec is a bijection *)

(** What Rust's types guarantee of a frame. *)
Definition frame_typed (f : WebRtcFrame) : Prop :=
  is_u32 (f_seq f) ∧ is_u32 (f_offset f) ∧ Forall is_u8 (payload f).

Lemma validate_frame_payload_Ok p :
  validate_frame_payload p = Ok () ↔ 0 < zlen p ≤ WEBRTC_FRAME_PAYLOAD_BYTES.
Proof.
  unfold validate_frame_payload. unfold zlen. split.
  - intros H. guards H. bool_prop. lia.
  - intros H. rewrite (proj2 (Z.eqb_neq _ 0)), (proj2 (Z.ltb_ge _ _)) by lia. done.
Qed.

Lemma encode_webrtc_frame_Ok f bytes :
  encode_webrtc_frame f = Ok bytes ↔
  0 < zlen (payload f) ≤ WEBRTC_FRAME_PAYLOAD_BYTES ∧
  bytes = to_be_bytes WEBRTC_FRAME_MAGIC ++ to_be_bytes (f_seq f) ++ to_be_bytes (f_offset f)
          ++ to_be_bytes (zlen (payload f)) ++ payload f.
Proof.
  unfold encode_webrtc_frame. destruct (validate_frame_payload (payload f)) as [[]|] eqn:E.
  - apply validate_frame_payload_Ok in E. cbn [mbind result_bind].
    rewrite (proj2 (Z.ltb_ge _ _)) by (unfold WEBRTC_FRAME_PAYLOAD_BYTES, u32_max in *; lia).
    naive_solver.
  - cbn. split; [done|]. intros [H _]. apply validate_frame_payload_Ok in H. congruence.
Qed.

Lemma parse_encoded_frame f bytes :
  frame_typed f → encode_webrtc_frame f = Ok bytes → parse_webrtc_frame bytes = Ok f.
Proof.
  intros (Hs & Ho & Hp) He. apply encode_webrtc_frame_Ok in He. revert He.
  intros [Hlen ->]. unfold parse_webrtc_frame.
  assert (Hl : is_u32 (zlen (payload f)))
    by (unfold is_u32, u32_max, WEBRTC_FRAME_PAYLOAD_BYTES in *; lia).
  pose proof (from_to_be_bytes WEBRTC_FRAME_MAGIC ltac:(done)) as Em.
  pose proof (from_to_be_bytes _ Hs) as Es. pose proof (from_to_be_bytes _ Ho) as Eo.
  pose proof (from_to_be_bytes _ Hl) as El.
  unfold to_be_bytes in *. cbn [app slice take drop Nat.sub Z.to_nat Pos.to_nat].
  set (z := zlen (_ :: _)).
  assert (Hz : z = 16 + zlen (payload f)) by (unfold z, zlen; cbn [length]; lia).
  unfold WEBRTC_FRAME_HEADER_BYTES. rewrite Hz.
  rewrite (proj2 (Z.leb_gt _ 16)), (proj2 (Z.ltb_ge (16 + _) (16 + zlen _))) by lia.
  cbn [orb]. change (drop (Z.to_nat 16) ?l) with (drop 16 l). cbn [drop].
  unfold slice. cbn [take drop Nat.sub]. rewrite take_0, drop_0, Em, Es, Eo, El.
  rewrite !Z.eqb_refl. cbn [negb]. unfold frame_new.
  rewrite (proj2 (validate_frame_payload_Ok _)) by done. by destruct f.
Qed.

Lemma encode_parsed_frame f bytes :
  Forall is_u8 bytes → parse_webrtc_frame bytes = Ok f → encode_webrtc_frame f = Ok bytes.
Proof.
  intros Hb. rewrite encode_webrtc_frame_Ok.
  unfold parse_webrtc_frame. intros H. guards H. bool_prop.
  unfold WEBRTC_FRAME_HEADER_BYTES in *. change (Z.to_nat 16) with 16%nat in *.
  do 16 (destruct bytes as [|? bytes]; [unfold zlen in *; cbn [length] in *; lia|]).
  unfold slice in *. cbn [take drop Nat.sub] in *. rewrite !Forall_cons in Hb.
  destruct_and!.
  rewrite ?take_0, ?drop_0 in *. unfold frame_new in H. destruct (validate_frame_payload bytes) as [[]|] eqn:Ev; [|done].
  cbn [mbind result_bind] in H. simplify_eq. cbn [f_seq f_offset payload].
  apply validate_frame_payload_Ok in Ev. split; [done|].
  match goal with E : from_be_bytes _ = WEBRTC_FRAME_MAGIC |- _ => rewrite <- E end.
  match goal with E : from_be_bytes _ = zlen bytes |- _ => rewrite <- E end.
  by rewrite !to_from_be_bytes.
Qed.

(** Encoding a frame and parsing the bytes gives the frame back; and the
    parser accepts nothing else: whatever byte string it accepts is the
    encoding of the frame it returns. *)
Theorem webrtc_frame_codec f bytes :
  frame_typed f → Forall is_u8 bytes →
  (encode_webrtc_frame f = Ok bytes ↔ parse_webrtc_frame bytes = Ok f).
Proof. intros Hf Hb. split; [by apply parse_encoded_frame|by apply encode_parsed_frame]. Qed.

Lemma webrtc_frame_codec_witness :
  let f := {| f_seq := 7; f_offset := 16384; payload := [1; 2; 255] |} in
  let bytes := [70; 66; 67; 72; 0; 0; 0; 7; 0; 0; 64; 0; 0; 0; 0; 3; 1; 2; 255] in
  encode_webrtc_frame f = Ok bytes ↔ parse_webrtc_frame bytes = Ok f.
Proof.
  apply webrtc_frame_codec; [|repeat constructor; vm_compute; discriminate].
  split_and!; repeat constructor; vm_compute; discriminate.
Defined.
