(* ===== verification/Codec.v ===== *)
(** * Base64 and SHA-256 as the protocols use them

    [URL_SAFE_NO_PAD] of the base64 crate and [hex::encode(Sha256::digest(..))]
    are not under src/: they are parameters of the definitions that call them.
    The laws a proof relies on are named hypotheses of their own class. *)

From Stdlib Require Import Ascii String.
From S2P Require Import Prelude Str Frame.
Open Scope Z_scope.

Class Codec := {
  decode : string → result string (list Z);
  sha256_hex : list Z → string }.

(** [encode], the inverse direction, where a component needs it. *)
Class Encode := encode : list Z → string.

Definition is_hex (s : string) : bool := forallb is_ascii_hexdigit (bytes s).

(** A digest is 64 hexadecimal characters. *)
Definition is_digest (s : string) : bool := (len s =? 64) && is_hex s.

Class CodecLaws `{Codec} : Prop := sha256_digest l : is_digest (sha256_hex l) = true.

(** A concrete instance for examples: every string decodes to a prefix, and a
    digest is the length of the data, padded. *)
Module Example_codec.
Definition prefix16 : list Z := replicate 16 4.
Definition zeros (n : nat) : string := of_bytes (replicate n 48).
#[export] Instance codec : Codec :=
  {| decode := λ _, Ok prefix16;
     sha256_hex := λ l, of_bytes (replicate 63 48 ++ [48 + (zlen l mod 10)]) |}.
#[export] Instance codec_laws : CodecLaws.
Proof.
  intros l. unfold is_digest, is_hex, sha256_hex. cbn [codec].
  assert (Hb : Forall is_u8 (replicate 63 48 ++ [48 + (zlen l mod 10)])).
  { unfold is_u8, u8_max. apply Forall_app. split; [by apply Forall_replicate|].
    pose proof (Z.mod_pos_bound (zlen l) 10). constructor; [lia|done]. }
  rewrite bytes_of_bytes by done. apply andb_true_iff. split.
  - rewrite <- length_bytes, bytes_of_bytes by done. by rewrite length_app, length_replicate.
  - rewrite forallb_app. apply andb_true_iff. split; [done|]. cbn [forallb].
    pose proof (Z.mod_pos_bound (zlen l) 10). unfold is_ascii_hexdigit.
    set (d := zlen l mod 10) in *. unfold is_ascii_digit.
    rewrite (proj2 (Z.leb_le 48 (48 + d))), (proj2 (Z.leb_le (48 + d) 57)) by lia. done.
Qed.
End Example_codec.
