(* ===== verification/Source.v ===== *)
(** * Upload sources (crates/transfer-native/src/source.rs)

    A source is a range of a file or of a provider's document.  What the file
    system and the provider hold at the moment of a call is an argument, so a
    source that changes between two calls is two different arguments. *)

From Stdlib Require Import Ascii String.
From S2P Require Import Prelude Str Frame.
Open Scope Z_scope.

Inductive SourceSpec :=
  | Path (path : string) (offset length : Z)
  | Provider (identity : string) (offset length : Z) (mutation_token : string).

(** An open file: its bytes and what [metadata] says of it. *)
Record File := { data : list Z; modified_ns : Z; is_file : bool }.

Record SourceResolver := {
  resolve : string → result string File;
  token_of : string → result string string }.

(** The host at a call. *)
Record Host := {
  file_at : string → result string File;
  resolver : option SourceResolver }.

Inductive SourceHandle :=
  | HPath (path : string)
  | HProvider (identity : string) (file : File).

Definition bounds (spec : SourceSpec) : Z * Z :=
  match spec with Path _ offset length | Provider _ offset length _ => (offset, length) end.

Definition checked_end (spec : SourceSpec) : result string Z :=
  let '(offset, length) := bounds spec in
  ok_or (checked_add offset length) "source offset and length overflow".

Definition reopen (host : Host) (handle : SourceHandle) : result string File :=
  match handle with
  | HPath path => context (file_at host path) "open"
  | HProvider _ file => Ok file
  end.

(** [seek] to [offset], then [read_exact] of [n] bytes. *)
Definition read_exact (file : File) (offset n : Z) : result string (list Z) :=
  let bytes := take (Z.to_nat n) (drop (Z.to_nat offset) (data file)) in
  if zlen bytes =? n then Ok bytes else Err "failed to fill whole buffer".

Definition read_range (host : Host) (handle : SourceHandle) (spec : SourceSpec)
    (relative_offset maximum : Z) : result string (list Z) :=
  _ ← checked_end spec;
  let '(offset, length) := bounds spec in
  reject length <? relative_offset with "source read starts beyond its declared length";
  absolute ← ok_or (checked_add offset relative_offset) "source read offset overflow";
  let wanted := Z.min (length - relative_offset) maximum in
  file ← reopen host handle;
  context (read_exact file absolute wanted) "source was truncated or revoked".

Definition check_mutation (handle : SourceHandle) (spec : SourceSpec) (current_token : option string)
    : result string () :=
  match spec with
  | Path _ _ _ => Ok ()
  | Provider identity _ _ mutation_token =>
      match handle with
      | HPath _ => Err "provider source requires an owned provider descriptor"
      | HProvider provider _ =>
          reject negb (provider =? identity)%string || negb (bool_decide (current_token = Some mutation_token))
            with "provider source changed or its grant was revoked; start a new upload";
          Ok ()
      end
  end.

Definition open_source (host : Host) (spec : SourceSpec) : result string File :=
  match spec with
  | Path path _ _ => context (file_at host path) "open"
  | Provider identity _ _ mutation_token =>
      r ← ok_or (resolver host) "saved provider source cannot be reopened on this host";
      token ← token_of r identity;
      reject negb (token =? mutation_token)%string
        with "provider source changed or its grant was revoked; start a new upload";
      context (resolve r identity) "reopen provider source"
  end.

(** ** Snapshots of non-seekable sources *)

(** [Path::new(name).file_name()] *)
Definition file_name (name : string) : option string :=
  let parts := filter (λ c, c ≠ "" ∧ c ≠ ".") (split_char "/" name) in
  match last parts with
  | Some c => if (c =? "..")%string then None else Some c
  | None => None
  end.

(** The copy loop: a read returns at most 64 KiB, none at the end. *)
Fixpoint copy (maximum_bytes total : Z) (reads : list (result string (list Z))) (output : list Z)
    : list Z * result string Z :=
  match reads with
  | [] => (output, Ok total)
  | Err e :: _ => (output, Err e)
  | Ok [] :: _ => (output, Ok total)
  | Ok piece :: reads =>
      match checked_add total (zlen piece) with
      | None => (output, Err "snapshot is too large")
      | Some total =>
          if maximum_bytes <? total then (output, Err "source exceeds the snapshot byte limit")
          else copy maximum_bytes total reads (output ++ piece)
      end
  end.

Record Snapshot := { directory : gmap string (list Z); outcome : result string (string * Z) }.

(** [snapshot_non_seekable] into [directory]; [final_id] and [partial_id] are
    the two fresh UUIDs. *)
Definition snapshot_non_seekable (reads : list (result string (list Z))) (directory : gmap string (list Z))
    (name final_id partial_id : string) (maximum_bytes : Z) : Snapshot :=
  let safe_name := default "source" (file_name name) in
  let final_path := final_id +:+ "-" +:+ safe_name in
  let partial := "." +:+ partial_id +:+ "-" +:+ safe_name +:+ ".part" in
  match directory !! partial with
  | Some _ => {| directory := delete partial directory; outcome := Err "File exists" |}
  | None =>
      let '(content, result) := copy maximum_bytes 0 reads [] in
      match result with
      | Ok length =>
          {| directory := <[final_path := content]> (delete partial (<[partial := content]> directory));
             outcome := Ok (final_path, length) |}
      | Err e => {| directory := delete partial (<[partial := content]> directory); outcome := Err e |}
      end
  end.

(** ** Properties *)

(** What the reads deliver before the first end or error. *)
Fixpoint delivered (reads : list (result string (list Z))) : result string (list Z) :=
  match reads with
  | [] | Ok [] :: _ => Ok []
  | Err e :: _ => Err e
  | Ok piece :: reads => rest ← delivered reads; Ok (piece ++ rest)
  end.

Lemma copy_spec maximum total reads output content r :
  is_u64 total → total ≤ maximum → is_u64 maximum → copy maximum total reads output = (content, r) →
  match r with
  | Ok n => ∃ d, delivered reads = Ok d ∧ content = output ++ d ∧ n = total + zlen d ∧ n ≤ maximum
  | Err _ => (∃ e, delivered reads = Err e) ∨ (∃ d, delivered reads = Ok d ∧ maximum < total + zlen d)
  end.
Proof.
  revert total output. induction reads as [|[[|b p]|e] reads IH]; intros total output Ht Hm Hmax; cbn [copy delivered].
  - intros [= <- <-]. exists []. rewrite app_nil_r. unfold zlen. cbn. split_and!; [done|done|lia|lia].
  - intros [= <- <-]. exists []. rewrite app_nil_r. unfold zlen. cbn. split_and!; [done|done|lia|lia].
  - generalize (b :: p). clear b p. intros q. destruct (checked_add total (zlen q)) as [t|] eqn:Et.
    + apply checked_add_Some in Et as [-> Hle]. destruct (maximum <? _) eqn:El; bool_prop.
      * intros [= <- <-]. destruct (delivered reads) as [d|e]; cbn; [right|left; by eexists].
        exists (q ++ d). split; [done|]. unfold zlen in *. rewrite length_app. lia.
      * intros Hc. apply IH in Hc; [|unfold zlen, is_u64 in *; lia|done|done].
        destruct r as [n|e].
        -- destruct Hc as (d & -> & -> & -> & Hn). exists (q ++ d). cbn. rewrite <- app_assoc.
           unfold zlen in *. rewrite length_app. split_and!; [done|done|lia|lia].
        -- destruct Hc as [[e' ->]|(d & -> & Hd)]; cbn; [left; by eexists|right]. exists (q ++ d).
           unfold zlen in *. rewrite length_app. split; [done|lia].
    + apply checked_add_None in Et. intros [= <- <-]. destruct (delivered reads) as [d|e]; cbn; [right|left; by eexists].
      exists (q ++ d). split; [done|]. unfold zlen, is_u64 in *. rewrite length_app. lia.
  - intros [= <- <-]. left. by eexists.
Qed.

(** A snapshot is whole or not there: on success the directory gains exactly
    the delivered bytes, within the limit; on failure, read errors and
    oversized sources included, it is what it was. *)
Theorem snapshot_whole_or_absent reads directory name final_id partial_id maximum :
  is_u64 maximum →
  let partial := "." +:+ partial_id +:+ "-" +:+ default "source" (file_name name) +:+ ".part" in
  directory !! partial = None →
  let s := snapshot_non_seekable reads directory name final_id partial_id maximum in
  match outcome s with
  | Ok (path, n) =>
      ∃ content, delivered reads = Ok content ∧ Source.directory s = <[path := content]> directory ∧
        n = zlen content ∧ n ≤ maximum
  | Err _ => Source.directory s = directory ∧
      ((∃ e, delivered reads = Err e) ∨ ∃ content, delivered reads = Ok content ∧ maximum < zlen content)
  end.
Proof.
  intros Hmax partial Hp s. unfold s, snapshot_non_seekable. fold partial. rewrite Hp.
  destruct (copy maximum 0 reads []) as [content r] eqn:Ec.
  assert (Hu : is_u64 maximum) by done. destruct Hu as [Hu _].
  apply copy_spec in Ec; [|done|lia|done]. destruct r as [n|e]; cbn [outcome Source.directory].
  - destruct Ec as (d & Hd & -> & -> & Hn). exists d. cbn [app]. rewrite delete_insert_id by done. done.
  - rewrite delete_insert_id by done. split; [done|].
    destruct Ec as [He|(d & Hd & Hlt)]; [by left|right]. exists d. split; [done|lia].
Qed.
