(* ===== verification/Encryption.v ===== *)
(** * Encryption (crates/encryption/src/lib.rs)

    The checks, nonces, key-derivation labels and envelope layout around the
    third-party primitives.  The primitives are classes with their documented
    laws: an AEAD whose decryption inverts encryption and accepts nothing else,
    HKDF and Argon2id as functions, HPKE in base mode as a sealing function
    that the matching private key opens. *)

From Stdlib Require Import Ascii String.
From S2P Require Import Prelude Str Link Frame.
Open Scope Z_scope.

Definition KEY_BYTES : Z := 32.
Definition NONCE_BYTES : Z := 24.
Definition NONCE_PREFIX_BYTES : Z := 16.
Definition AEAD_TAG_BYTES : Z := 16.
Definition HPKE_ENCAPSULATED_KEY_BYTES : Z := 32.
Definition HPKE_ENVELOPE_BYTES : Z := HPKE_ENCAPSULATED_KEY_BYTES + KEY_BYTES + AEAD_TAG_BYTES.
Definition HPKE_INFO : list Z := bytes "filebeam:v1:recipient-envelope".
Definition ITEM_KEY_INFO_PREFIX : list Z := bytes "filebeam:v1:item-key:".
Definition ACCOUNT_KEY_INFO_PREFIX : list Z := bytes "filebeam:v1:item-key:account-key-v1:".
Definition ARGON2_MEMORY_KIB : Z := 65536.
Definition ARGON2_ITERATIONS : Z := 3.
Definition ARGON2_PARALLELISM : Z := 1.
Definition PASSWORD_SALT_BYTES : Z := 16.
Definition PASSWORD_PROTECTED_KEY_INFO : list Z := bytes "filebeam:v1:password-protected".
Definition MAX_PASSWORD_BYTES : Z := 1024.
Definition MAX_PLAINTEXT_BYTES : Z := 25000000 - AEAD_TAG_BYTES.
Definition MAX_MANIFEST_PLAINTEXT_BYTES : Z := 16 * 1024 * 1024.
Definition MAX_ASSOCIATED_DATA_BYTES : Z := 4 * 1024.

(** ** The primitives *)

(** XChaCha20-Poly1305 with a 24-byte nonce and a 16-byte tag: decryption
    inverts encryption, and a ciphertext that authenticates is the encryption
    of its plaintext. *)
Class Aead := {
  aead_encrypt : list Z → list Z → list Z → list Z → option (list Z);
  aead_decrypt : list Z → list Z → list Z → list Z → option (list Z);
  aead_decrypt_encrypt key nonce msg aad c :
    aead_encrypt key nonce msg aad = Some c → aead_decrypt key nonce c aad = Some msg;
  aead_encrypt_decrypt key nonce msg aad c :
    aead_decrypt key nonce c aad = Some msg → aead_encrypt key nonce msg aad = Some c;
  aead_length key nonce msg aad c :
    aead_encrypt key nonce msg aad = Some c → zlen c = zlen msg + 16 }.

(** HKDF-SHA256 [new(salt, ikm).expand(info)] to 32 bytes, Argon2id v1.3 to 32
    bytes, and the operating system's random bytes. *)
Class Kdf := {
  hkdf : option (list Z) → list Z → list Z → option (list Z);
  argon2id : list Z → list Z → Z → Z → Z → result string (list Z);
  getrandom : Z → option (list Z) }.

(** The public key of an X25519 secret. *)
Class X25519 := {
  x25519_public : list Z → list Z;
  x25519_length sk : zlen (x25519_public sk) = 32;
  x25519_u8 sk : Forall is_u8 (x25519_public sk) }.

(** HPKE base mode over X25519, with the encapsulation's fresh key as an
    argument of the sealing operation. *)
Class Hpke := {
  hpke_public_key : list Z → option (list Z);
  hpke_private_key : list Z → option (list Z);
  hpke_public_of : list Z → list Z;
  hpke_encapped : list Z → option (list Z);
  hpke_seal : list Z → list Z → list Z → list Z → list Z → option (list Z * list Z);
  hpke_open : list Z → list Z → list Z → list Z → list Z → option (list Z);
  hpke_open_seal sk fresh info msg aad enc c :
    hpke_seal fresh (hpke_public_of sk) info msg aad = Some (enc, c) →
    hpke_encapped enc = Some enc ∧ hpke_open sk enc info c aad = Some msg }.

(** ** Validation *)

Definition validate_key (key : list Z) (label : string) : result string () :=
  reject negb (zlen key =? KEY_BYTES) with (label +:+ " must be 32 bytes")%string;
  Ok ().

Definition validate_plaintext (plaintext : list Z) (maximum : Z) : result string () :=
  reject maximum <? zlen plaintext with "plaintext exceeds the configured limit";
  Ok ().

Definition validate_associated_data (aad : list Z) : result string () :=
  reject MAX_ASSOCIATED_DATA_BYTES <? zlen aad
    with "associated data exceeds the 4 KiB limit";
  Ok ().

(** The same language as [Link.is_ulid], stated as the source does. *)
Definition validate_ulid (value label : string) : result string () :=
  let l := bytes value in
  reject negb (zlen l =? 26)
         || negb (match l with b :: _ => Link.in_range "0" "7" b | [] => false end)
         || existsb (λ b, negb (Link.ulid_byte b)) (tail l)
    with (label +:+ " must be a canonical uppercase ULID")%string;
  Ok ().

(** [u64::to_be_bytes] *)
Fixpoint be_bytes (n : nat) (x : Z) : list Z :=
  match n with
  | O => []
  | S n => Z.land (Z.shiftr x (8 * Z.of_nat n)) 255 :: be_bytes n x
  end.

Definition nonce (prefix : list Z) (index : Z) : result string (list Z) :=
  reject negb (zlen prefix =? NONCE_PREFIX_BYTES) with "nonce prefix must be 16 bytes";
  Ok (prefix ++ be_bytes 8 index).

Section encryption.
Context `{Aead, Kdf, Hpke}.

(** ** Chunks and manifests *)

Definition cipher (key : list Z) : result string (list Z) :=
  _ ← validate_key key "encryption key"; Ok key.

Definition encrypt_chunk_at_index (key nonce_prefix : list Z) (index : Z)
    (plaintext associated_data : list Z) (maximum_plaintext_bytes : Z)
    : result string (list Z) :=
  _ ← validate_plaintext plaintext maximum_plaintext_bytes;
  _ ← validate_associated_data associated_data;
  key ← cipher key;
  nonce ← nonce nonce_prefix index;
  ok_or (aead_encrypt key nonce plaintext associated_data) "chunk encryption failed".

Definition decrypt_chunk_at_index (key nonce_prefix : list Z) (index : Z)
    (ciphertext associated_data : list Z) (maximum_plaintext_bytes : Z)
    : result string (list Z) :=
  reject (zlen ciphertext <? AEAD_TAG_BYTES)
         || (maximum_plaintext_bytes + AEAD_TAG_BYTES <? zlen ciphertext)
    with "ciphertext length is invalid";
  _ ← validate_associated_data associated_data;
  key ← cipher key;
  nonce ← nonce nonce_prefix index;
  ok_or (aead_decrypt key nonce ciphertext associated_data) "chunk authentication failed".

Definition encrypt_chunk (key nonce_prefix : list Z) (chunk_index : Z) (plaintext aad : list Z) :=
  encrypt_chunk_at_index key nonce_prefix chunk_index plaintext aad MAX_PLAINTEXT_BYTES.
Definition decrypt_chunk (key nonce_prefix : list Z) (chunk_index : Z) (ciphertext aad : list Z) :=
  decrypt_chunk_at_index key nonce_prefix chunk_index ciphertext aad MAX_PLAINTEXT_BYTES.
Definition encrypt_manifest (key nonce_prefix plaintext aad : list Z) :=
  encrypt_chunk_at_index key nonce_prefix u64_max plaintext aad MAX_MANIFEST_PLAINTEXT_BYTES.
Definition decrypt_manifest (key nonce_prefix ciphertext aad : list Z) :=
  decrypt_chunk_at_index key nonce_prefix u64_max ciphertext aad MAX_MANIFEST_PLAINTEXT_BYTES.

(** ** Keys *)

Definition random_bytes (length : Z) : result string (list Z) :=
  ok_or (getrandom length) "getrandom".
Definition generate_transfer_key : result string (list Z) := random_bytes KEY_BYTES.
Definition generate_nonce_prefix : result string (list Z) := random_bytes NONCE_PREFIX_BYTES.

Definition derive_password_key (password salt : list Z) (memory_kib iterations parallelism : Z)
    : result string (list Z) :=
  reject (zlen password =? 0) || (MAX_PASSWORD_BYTES <? zlen password)
    with "password must be between 1 and 1024 bytes";
  reject negb (zlen salt =? PASSWORD_SALT_BYTES)
    with "the Argon2id salt must be exactly 16 bytes";
  reject negb ((memory_kib =? ARGON2_MEMORY_KIB) && (iterations =? ARGON2_ITERATIONS)
               && (parallelism =? ARGON2_PARALLELISM))
    with "unsupported Argon2id parameters";
  argon2id password salt memory_kib iterations parallelism.

Definition derive_password_protected_key (share_key password_key : list Z)
    : result string (list Z) :=
  _ ← validate_key share_key "share key";
  _ ← validate_key password_key "password key";
  ok_or (hkdf (Some share_key) password_key PASSWORD_PROTECTED_KEY_INFO)
    "password-protected key derivation failed".

(** An account's private key, followed by its public key. *)
Definition generate_account_keypair `{X25519} : result string (list Z) :=
  private ← random_bytes KEY_BYTES;
  Ok (private ++ x25519_public private).

(** The HKDF label of an item key. *)
Definition item_key_info (transfer_id item_id : string) : list Z :=
  ITEM_KEY_INFO_PREFIX ++ bytes transfer_id ++ [ch ":"] ++ bytes item_id.

Definition derive_item_key (master_key : list Z) (transfer_id item_id : string)
    : result string (list Z) :=
  _ ← validate_key master_key "master key";
  _ ← validate_ulid transfer_id "transfer ID";
  _ ← validate_ulid item_id "item ID";
  ok_or (hkdf None master_key (item_key_info transfer_id item_id)) "item key derivation failed".

Definition account_key_info (public_key : string) : list Z :=
  ACCOUNT_KEY_INFO_PREFIX ++ bytes public_key.

Definition derive_account_wrapping_key (password_key : list Z) (public_key : string)
    : result string (list Z) :=
  _ ← validate_key password_key "password key";
  reject negb (len public_key =? 43) || negb (forallb Link.is_base64url (bytes public_key))
    with "account public key must be canonical base64url";
  ok_or (hkdf (Some []) password_key (account_key_info public_key))
    "account key derivation failed".

(** ** Recipient envelopes *)

(** [fresh] is the encapsulation key [setup_sender] draws. *)
Definition seal_key_for_recipient (fresh recipient_public_key transfer_key aad : list Z)
    : result string (list Z) :=
  _ ← validate_key recipient_public_key "recipient public key";
  _ ← validate_key transfer_key "transfer key";
  _ ← validate_associated_data aad;
  public_key ← ok_or (hpke_public_key recipient_public_key) "invalid recipient public key";
  '(encapped_key, ciphertext) ←
    ok_or (hpke_seal fresh public_key HPKE_INFO transfer_key aad) "recipient key encryption failed";
  reject negb (zlen ciphertext =? KEY_BYTES + AEAD_TAG_BYTES)
    with "recipient envelope has an invalid ciphertext length";
  reject negb (zlen encapped_key =? HPKE_ENCAPSULATED_KEY_BYTES)
    with "recipient envelope has an invalid encapsulated key length";
  Ok (encapped_key ++ ciphertext).

Definition open_recipient_envelope (recipient_private_key envelope aad : list Z)
    : result string (list Z) :=
  _ ← validate_key recipient_private_key "recipient private key";
  _ ← validate_associated_data aad;
  reject negb (zlen envelope =? HPKE_ENVELOPE_BYTES)
    with "recipient envelope must be exactly 80 bytes";
  private_key ← ok_or (hpke_private_key recipient_private_key) "invalid recipient private key";
  encapped_key ← ok_or (hpke_encapped (take (Z.to_nat HPKE_ENCAPSULATED_KEY_BYTES) envelope))
                   "invalid recipient encapsulated key";
  plaintext ← ok_or (hpke_open private_key encapped_key HPKE_INFO
                       (drop (Z.to_nat HPKE_ENCAPSULATED_KEY_BYTES) envelope) aad)
                "recipient envelope authentication failed";
  reject negb (zlen plaintext =? KEY_BYTES) with "recipient envelope plaintext must be 32 bytes";
  Ok plaintext.
End encryption.

(** ** Big-endian counters *)

Lemma be_bytes_length n x : length (be_bytes n x) = n.
Proof. induction n; simpl; by f_equal. Qed.

(** A counter below [256 ^ n] is recovered from its bytes, so the bytes
    determine it. *)
Lemma be_bytes_inj n x y :
  0 ≤ x < 256 ^ Z.of_nat n → 0 ≤ y < 256 ^ Z.of_nat n → be_bytes n x = be_bytes n y → x = y.
Proof.
  assert (Hd : ∀ n x, 0 ≤ x → 0 ≤ x `mod` 256 ^ Z.of_nat n).
  { intros. apply Z.mod_pos_bound, Z.pow_pos_nonneg; lia. }
  intros Hx Hy He. rewrite <- (Z.mod_small x _ Hx), <- (Z.mod_small y _ Hy).
  clear Hx Hy Hd. induction n as [|n IH]; [by rewrite !Z.mod_1_r|].
  simpl in He. injection He as Hh Ht. specialize (IH Ht).
  rewrite !land_byte, !Z.shiftr_div_pow2 in Hh by lia.
  assert (Hp : 2 ^ (8 * Z.of_nat n) = 256 ^ Z.of_nat n) by (rewrite Z.pow_mul_r by lia; done).
  rewrite Hp in Hh. rewrite Nat2Z.inj_succ, Z.pow_succ_r by lia.
  rewrite !(Z.mul_comm 256).
  assert (0 < 256 ^ Z.of_nat n) by (apply Z.pow_pos_nonneg; lia).
  rewrite !Z.rem_mul_r by lia. by rewrite Hh, IH.
Qed.

(** ** Properties *)

Lemma validate_key_Ok k l : validate_key k l = Ok () ↔ zlen k = KEY_BYTES.
Proof. unfold validate_key. case_match; bool_prop; split; done || lia. Qed.

Lemma validate_associated_data_Ok a :
  validate_associated_data a = Ok () ↔ zlen a ≤ MAX_ASSOCIATED_DATA_BYTES.
Proof. unfold validate_associated_data. case_match; bool_prop; split; done || lia. Qed.

Lemma nonce_Ok p i n : nonce p i = Ok n ↔ zlen p = NONCE_PREFIX_BYTES ∧ n = p ++ be_bytes 8 i.
Proof. unfold nonce. case_match; bool_prop; split; naive_solver. Qed.

Lemma nonce_inj p i q j n :
  is_u64 i → is_u64 j → nonce p i = Ok n → nonce q j = Ok n → p = q ∧ i = j.
Proof.
  intros Hi Hj Hp Hq. apply nonce_Ok in Hp as [Hlp ->]. apply nonce_Ok in Hq as [Hlq He].
  apply app_inj_2 in He as [-> He]; [|by rewrite !be_bytes_length].
  split; [done|]. apply (be_bytes_inj 8); [..|done];
    unfold is_u64, u64_max in *; change (256 ^ Z.of_nat 8) with 18446744073709551616; lia.
Qed.

Section properties.
Context `{Aead, Kdf, Hpke}.

Lemma encrypt_at_index_Ok key prefix index plaintext aad maximum c :
  encrypt_chunk_at_index key prefix index plaintext aad maximum = Ok c ↔
  zlen plaintext ≤ maximum ∧ zlen aad ≤ MAX_ASSOCIATED_DATA_BYTES ∧ zlen key = KEY_BYTES ∧
  zlen prefix = NONCE_PREFIX_BYTES ∧
  aead_encrypt key (prefix ++ be_bytes 8 index) plaintext aad = Some c.
Proof.
  unfold encrypt_chunk_at_index, cipher, validate_plaintext, mbind, result_bind.
  split.
  - destruct (maximum <? zlen plaintext) eqn:E1; [done|].
    destruct (validate_associated_data aad) as [[]|] eqn:E2; [|done].
    destruct (validate_key key _) as [[]|] eqn:E3; [|done].
    destruct (nonce prefix index) as [n|] eqn:E4; [|done].
    apply validate_associated_data_Ok in E2. apply validate_key_Ok in E3.
    apply nonce_Ok in E4 as [E4 ->]. bool_prop. intros He. split_and!; try done.
    destruct (aead_encrypt _ _ _ _); simplify_eq/=; done.
  - intros (E1 & E2 & E3 & E4 & E5). rewrite (proj2 (Z.ltb_ge _ _)) by done.
    rewrite (proj2 (validate_associated_data_Ok aad)), (proj2 (validate_key_Ok key _)) by done.
    rewrite (proj2 (nonce_Ok prefix index _)) by done. by rewrite E5.
Qed.

Lemma decrypt_at_index_Ok key prefix index ciphertext aad maximum m :
  decrypt_chunk_at_index key prefix index ciphertext aad maximum = Ok m ↔
  AEAD_TAG_BYTES ≤ zlen ciphertext ≤ maximum + AEAD_TAG_BYTES ∧
  zlen aad ≤ MAX_ASSOCIATED_DATA_BYTES ∧ zlen key = KEY_BYTES ∧
  zlen prefix = NONCE_PREFIX_BYTES ∧
  aead_decrypt key (prefix ++ be_bytes 8 index) ciphertext aad = Some m.
Proof.
  unfold decrypt_chunk_at_index, cipher, mbind, result_bind.
  split.
  - intros He. guards He.
    destruct (validate_associated_data aad) as [[]|] eqn:E2; [|done].
    destruct (validate_key key _) as [[]|] eqn:E3; [|done].
    destruct (nonce prefix index) as [n|] eqn:E4; [|done].
    apply validate_associated_data_Ok in E2. apply validate_key_Ok in E3.
    apply nonce_Ok in E4 as [E4 ->]. bool_prop. split_and!; try done.
    destruct (aead_decrypt _ _ _ _); simplify_eq/=; done.
  - intros (E1 & E2 & E3 & E4 & E5). rewrite !(proj2 (Z.ltb_ge _ _)) by lia.
    cbn [orb]. rewrite (proj2 (validate_associated_data_Ok aad)), (proj2 (validate_key_Ok key _)) by done.
    rewrite (proj2 (nonce_Ok prefix index _)) by done. by rewrite E5.
Qed.

Lemma encrypt_decrypt_at_index key prefix index aad maximum plaintext ciphertext :
  encrypt_chunk_at_index key prefix index plaintext aad maximum = Ok ciphertext ↔
  decrypt_chunk_at_index key prefix index ciphertext aad maximum = Ok plaintext.
Proof.
  rewrite encrypt_at_index_Ok, decrypt_at_index_Ok. unfold AEAD_TAG_BYTES. split.
  - intros (? & ? & ? & ? & He). pose proof (aead_length _ _ _ _ _ He).
    apply aead_decrypt_encrypt in He. split_and!; try done; unfold zlen in *; lia.
  - intros (? & ? & ? & ? & He). apply aead_encrypt_decrypt in He.
    pose proof (aead_length _ _ _ _ _ He). split_and!; try done. unfold zlen in *. lia.
Qed.

(** C2: encrypting and decrypting agree. A chunk, or a manifest, decrypts
    exactly to what was encrypted under the same key, nonce prefix, index and
    associated data, and nothing else decrypts; the ciphertext is one tag
    longer than the plaintext; and no chunk index ever shares a nonce with
    another chunk or with the manifest under the same prefix. *)
Theorem chunk_encryption key prefix i j aad plaintext ciphertext :
  is_u32 i → is_u32 j →
  (encrypt_chunk key prefix i plaintext aad = Ok ciphertext ↔
   decrypt_chunk key prefix i ciphertext aad = Ok plaintext) ∧
  (encrypt_manifest key prefix plaintext aad = Ok ciphertext ↔
   decrypt_manifest key prefix ciphertext aad = Ok plaintext) ∧
  (encrypt_chunk key prefix i plaintext aad = Ok ciphertext →
   zlen ciphertext = zlen plaintext + AEAD_TAG_BYTES ∧ zlen ciphertext ≤ 25000000) ∧
  (zlen prefix = NONCE_PREFIX_BYTES →
   (nonce prefix i = nonce prefix j → i = j) ∧ nonce prefix i ≠ nonce prefix u64_max).
Proof.
  intros [Hi Hi'] [Hj Hj']. unfold u32_max in *. split_and!.
  - apply encrypt_decrypt_at_index.
  - apply encrypt_decrypt_at_index.
  - intros He. apply encrypt_at_index_Ok in He as (Hp & _ & _ & _ & He).
    apply aead_length in He. unfold MAX_PLAINTEXT_BYTES, AEAD_TAG_BYTES in *. lia.
  - intros Hl. pose proof (proj2 (nonce_Ok prefix i _) (conj Hl eq_refl)) as Hn.
    split; intros He; rewrite Hn in He; symmetry in He.
    + apply (nonce_inj prefix i prefix j _) in He; [by destruct He|..|done];
        unfold is_u64, u64_max; lia.
    + apply (nonce_inj prefix i prefix u64_max _) in He as [_ He]; [|..|done];
        unfold is_u64, u64_max in *; lia.
Qed.

(** The labels of derived keys never collide. Two item keys share an HKDF
    label only when they are for the same transfer and item; an item label is
    never the label of an account wrapping key or of a password-protected key,
    although the account label extends the item prefix. *)
Theorem key_labels_separate master t1 i1 t2 i2 k1 k2 wrap_key public_key k3 :
  derive_item_key master t1 i1 = Ok k1 → derive_item_key master t2 i2 = Ok k2 →
  derive_account_wrapping_key wrap_key public_key = Ok k3 →
  (item_key_info t1 i1 = item_key_info t2 i2 → t1 = t2 ∧ i1 = i2) ∧
  item_key_info t1 i1 ≠ account_key_info public_key ∧
  item_key_info t1 i1 ≠ PASSWORD_PROTECTED_KEY_INFO.
Proof.
  assert (Hlen : ∀ t i k, derive_item_key master t i = Ok k →
    zlen (bytes t) = 26 ∧ zlen (bytes i) = 26).
  { intros t i k. unfold derive_item_key, mbind, result_bind.
    destruct (validate_key _ _) as [[]|]; [|done].
    destruct (validate_ulid t _) as [[]|] eqn:Et; [|done].
    destruct (validate_ulid i _) as [[]|] eqn:Ei; [|done]. intros _.
    unfold validate_ulid in Et, Ei. guards Et. guards Ei. by bool_prop. }
  intros H1' H2' H3. apply Hlen in H1' as [Ht1 Hi1]. apply Hlen in H2' as [Ht2 Hi2].
  assert (Hpk : len public_key = 43).
  { revert H3. unfold derive_account_wrapping_key, mbind, result_bind.
    destruct (validate_key _ _) as [[]|]; [|done]. intros Hg. guards Hg. by bool_prop. }
  rewrite <- length_bytes in Hpk. unfold item_key_info, account_key_info, zlen in *. split_and!.
  - intros He. apply app_inv_head in He. apply app_inj_1 in He as [Hb1 He]; [|lia].
    injection He as Hb2. split; by apply bytes_inj.
  - intros He. apply (f_equal length) in He. rewrite !length_app in He.
    change (length ACCOUNT_KEY_INFO_PREFIX) with 36%nat in He.
    change (length ITEM_KEY_INFO_PREFIX) with 21%nat in He. cbn [length] in He. lia.
  - intros He. apply (f_equal length) in He. rewrite !length_app in He.
    change (length PASSWORD_PROTECTED_KEY_INFO) with 30%nat in He.
    change (length ITEM_KEY_INFO_PREFIX) with 21%nat in He. cbn [length] in He. lia.
Qed.

(** A transfer key sealed for a recipient opens with the recipient's
    private key to exactly that key; an envelope is always 80 bytes, and one of
    any other length is refused before the private key is used. *)
Theorem recipient_envelope_roundtrip fresh private_bytes private_key recipient_public transfer_key
    aad envelope :
  hpke_private_key private_bytes = Some private_key →
  hpke_public_key recipient_public = Some (hpke_public_of private_key) →
  zlen private_bytes = KEY_BYTES →
  seal_key_for_recipient fresh recipient_public transfer_key aad = Ok envelope →
  zlen envelope = HPKE_ENVELOPE_BYTES ∧
  open_recipient_envelope private_bytes envelope aad = Ok transfer_key ∧
  ∀ other, zlen other ≠ HPKE_ENVELOPE_BYTES →
    ∃ e, open_recipient_envelope private_bytes other aad = Err e.
Proof.
  intros Hsk Hpk Hlen. unfold seal_key_for_recipient, mbind, result_bind.
  destruct (validate_key recipient_public _) as [[]|]; [|done].
  destruct (validate_key transfer_key _) as [[]|] eqn:Ek; [|done].
  destruct (validate_associated_data aad) as [[]|] eqn:Ea; [|done].
  rewrite Hpk. cbn [ok_or]. destruct (hpke_seal _ _ _ _ _) as [[enc c]|] eqn:Es; [|done].
  cbn [ok_or]. intros Hs. guards Hs. simplify_eq. bool_prop.
  apply validate_key_Ok in Ek. destruct (hpke_open_seal _ _ _ _ _ _ _ Es) as [He Ho].
  assert (Henc : length enc = Z.to_nat HPKE_ENCAPSULATED_KEY_BYTES)
    by (unfold zlen, HPKE_ENCAPSULATED_KEY_BYTES in *; lia).
  assert (Hz : zlen (enc ++ c) = HPKE_ENVELOPE_BYTES)
    by (unfold zlen, HPKE_ENVELOPE_BYTES, HPKE_ENCAPSULATED_KEY_BYTES, KEY_BYTES, AEAD_TAG_BYTES in *;
        rewrite length_app; lia).
  split_and!; [done|..].
  - unfold open_recipient_envelope, mbind, result_bind.
    rewrite (proj2 (validate_key_Ok private_bytes _)), Ea, Hz by done. cbn [negb].
    rewrite Z.eqb_refl, Hsk. cbn [negb ok_or]. rewrite take_app_length', drop_app_length' by done.
    rewrite He. cbn [ok_or]. rewrite Ho. cbn [ok_or]. by rewrite Ek.
  - intros other Hother. unfold open_recipient_envelope, mbind, result_bind.
    rewrite (proj2 (validate_key_Ok private_bytes _)), Ea by done.
    rewrite (proj2 (Z.eqb_neq _ _)) by done. by eexists.
Qed.
End properties.

(** ** Instances

    Primitives without secrecy that satisfy the laws, for the theorems at
    concrete inputs. *)

Module Example_crypto.
Definition tag : list Z := replicate 16 0.

Definition strip_tag (c : list Z) : option (list Z) :=
  if bool_decide (drop (length c - 16) c = tag) then Some (take (length c - 16) c) else None.

Lemma strip_tag_app m : strip_tag (m ++ tag) = Some m.
Proof.
  unfold strip_tag. rewrite length_app. change (length tag) with 16%nat.
  replace (length m + 16 - 16)%nat with (length m) by lia.
  by rewrite drop_app_length, bool_decide_true, take_app_length.
Qed.

Lemma strip_tag_Some c m : strip_tag c = Some m → c = m ++ tag.
Proof.
  unfold strip_tag. case_bool_decide as Hd; [|done]. intros [= <-].
  by rewrite <- Hd, take_drop.
Qed.

#[export] Instance aead : Aead.
Proof.
  refine {| aead_encrypt := λ _ _ msg _, Some (msg ++ tag);
            aead_decrypt := λ _ _ c _, strip_tag c |}.
  - intros _ _ msg _ c [= <-]. apply strip_tag_app.
  - intros _ _ msg _ c Hc. by rewrite (strip_tag_Some _ _ Hc).
  - intros _ _ msg _ c [= <-]. unfold zlen. rewrite length_app.
    change (length tag) with 16%nat. lia.
Defined.

#[export] Instance kdf : Kdf :=
  {| hkdf := λ _ ikm info, Some ikm; argon2id := λ p _ _ _ _, Ok p;
     getrandom := λ n, Some (replicate (Z.to_nat n) 7) |}.

#[export] Instance hpke : Hpke.
Proof.
  refine {| hpke_public_key := Some; hpke_private_key := Some; hpke_public_of := λ sk, sk;
            hpke_encapped := Some; hpke_seal := λ _ pk _ msg _, Some (pk, msg ++ tag);
            hpke_open := λ _ _ _ c _, strip_tag c |}.
  intros sk fresh info msg aad enc c [= <- <-]. split; [done|apply strip_tag_app].
Defined.

(** Every secret's public key is itself, as far as it has 32 bytes. *)
#[export] Instance x25519 : X25519.
Proof.
  refine {| x25519_public := λ sk, if bool_decide (zlen sk = 32 ∧ Forall is_u8 sk) then sk else replicate 32 0 |}.
  - intros sk. case_bool_decide as Hs; [by destruct Hs|done].
  - intros sk. case_bool_decide as Hs; [by destruct Hs|]. by apply Forall_replicate.
Defined.

Definition key32 : list Z := replicate 32 9.
Definition prefix16 : list Z := replicate 16 4.

Lemma chunk_encryption_witness :
  (encrypt_chunk key32 prefix16 3 [5; 6] [1] = Ok ([5; 6] ++ tag) ↔
   decrypt_chunk key32 prefix16 3 ([5; 6] ++ tag) [1] = Ok [5; 6]) ∧
  (encrypt_manifest key32 prefix16 [5; 6] [1] = Ok ([5; 6] ++ tag) ↔
   decrypt_manifest key32 prefix16 ([5; 6] ++ tag) [1] = Ok [5; 6]) ∧
  (encrypt_chunk key32 prefix16 3 [5; 6] [1] = Ok ([5; 6] ++ tag) →
   zlen ([5; 6] ++ tag) = zlen [5; 6] + AEAD_TAG_BYTES ∧ zlen ([5; 6] ++ tag) ≤ 25000000) ∧
  (zlen prefix16 = NONCE_PREFIX_BYTES →
   (nonce prefix16 3 = nonce prefix16 4 → 3 = 4) ∧ nonce prefix16 3 ≠ nonce prefix16 u64_max).
Proof. apply chunk_encryption; vm_compute; split; discriminate. Defined.

Definition ulid1 : string := "01ARZ3NDEKTSV4RRFFQ69G5FAV".
Definition ulid2 : string := "01ARZ3NDEKTSV4RRFFQ69G5FAW".
Definition account_public : string := "AAAAAAAAAAAAAAAAAAAAAAAAAAAAAAAAAAAAAAAAAAA".

Lemma key_labels_separate_witness :
  (item_key_info ulid1 ulid2 = item_key_info ulid1 ulid1 → ulid1 = ulid1 ∧ ulid2 = ulid1) ∧
  item_key_info ulid1 ulid2 ≠ account_key_info account_public ∧
  item_key_info ulid1 ulid2 ≠ PASSWORD_PROTECTED_KEY_INFO.
Proof.
  apply (key_labels_separate key32 ulid1 ulid2 ulid1 ulid1 key32 key32 key32 account_public key32);
    reflexivity.
Defined.

Lemma recipient_envelope_roundtrip_witness :
  zlen (key32 ++ key32 ++ tag) = HPKE_ENVELOPE_BYTES ∧
  open_recipient_envelope key32 (key32 ++ key32 ++ tag) [1] = Ok key32 ∧
  ∀ other, zlen other ≠ HPKE_ENVELOPE_BYTES →
    ∃ e, open_recipient_envelope key32 other [1] = Err e.
Proof. apply (recipient_envelope_roundtrip [] key32 key32 key32 key32 [1]); reflexivity. Defined.
End Example_crypto.
