(* ===== verification/WebRtc.v ===== *)
(** * WebRTC control messages (crates/transfer/src/lib.rs)

    The JSON text messages that frame the binary chunk frames.  [serde_json] is
    third-party code: its [Value] and the accessors the source calls are a
    type class, and the derived serializer of [WebRtcControl] is an operation
    of a second one whose law is serde's documented mapping of the attributes
    [tag = "type"] and [rename]. *)

From Stdlib Require Import SpecFloat.
From S2P Require Import Prelude F64 Transport Str.

Definition WEBRTC_CONTROL_LIMIT : Z := 1024.
Definition WEBRTC_MAX_ITEM_ID_UNITS : Z := 256.
Definition MAX_SAFE_INTEGER : Z := 9007199254740991.

(** ** [serde_json::Value] *)

Class SerdeJson (Value Object : Type) := {
  from_str : string → option Value;
  as_object : Value → option Object;
  get : Object → string → option Value;
  as_str : Value → option string;
  as_u64 : Value → option Z;
  as_f64 : Value → option f64;
  as_u64_u64 v n : as_u64 v = Some n → is_u64 n }.

(** ** Messages *)

Inductive WebRtcControl :=
| Request (seq : Z) (item_id : string) (index : Z)
| Chunk (seq : Z) (item_id : string) (index length : Z)
| Ack (seq : Z).

#[export] Instance WebRtcControl_eq_dec : EqDecision WebRtcControl.
Proof. solve_decision. Defined.

Definition validate_item_id (item_id : string) : result string () :=
  reject is_empty item_id || (WEBRTC_MAX_ITEM_ID_UNITS <? utf16_len item_id)
    with "invalid WebRTC item ID";
  Ok ().

Definition validate_safe_integer (value : Z) : result string () :=
  reject MAX_SAFE_INTEGER <? value with "invalid WebRTC integer";
  Ok ().

Definition validate (m : WebRtcControl) : result string () :=
  match m with
  | Request _ item_id index =>
      _ ← validate_item_id item_id;
      validate_safe_integer index
  | Chunk _ item_id index length =>
      _ ← validate_item_id item_id;
      _ ← validate_safe_integer index;
      reject negb ((AEAD_TAG_BYTES <=? length) && (length <=? MAX_CIPHERTEXT_BYTES))
        with "invalid WebRTC chunk length";
      Ok ()
  | Ack _ => Ok ()
  end.

Definition request (seq : Z) (item_id : string) (index : Z) : result string WebRtcControl :=
  let message := Request seq item_id index in
  _ ← validate message; Ok message.
Definition chunk (seq : Z) (item_id : string) (index length : Z) : result string WebRtcControl :=
  let message := Chunk seq item_id index length in
  _ ← validate message; Ok message.
Definition ack (seq : Z) : WebRtcControl := Ack seq.

#[global] Arguments validate : simpl never.
#[global] Arguments request : simpl never.
#[global] Arguments chunk : simpl never.

(** What Rust's types guarantee of a message. *)
Definition control_typed (m : WebRtcControl) : Prop :=
  match m with
  | Request seq _ index => is_u32 seq ∧ is_u64 index
  | Chunk seq _ index length => is_u32 seq ∧ is_u64 index ∧ is_u64 length
  | Ack seq => is_u32 seq
  end.

Section parse.
Context `{SerdeJson Value Object}.

Definition control_item_id (value : option Value) : result string string :=
  ok_or (v ← value; as_str v) "invalid WebRTC item ID".

(** The [or_else] branch: an integral, safe, non-negative [f64]. *)
Definition integral_f64 (value : Value) : option Z :=
  number ← as_f64 value;
  if f64_is_finite number && f64_ge number f64_zero
     && f64_le number (f64_of_Z MAX_SAFE_INTEGER)
     && f64_eq (f64_fract number) f64_zero
  then Some (f64_to_u64 number) else None.

Definition control_integer (value : option Value) : result string Z :=
  value ← ok_or value "invalid WebRTC integer";
  integer ← ok_or (match as_u64 value with Some n => Some n | None => integral_f64 value end)
              "invalid WebRTC integer";
  _ ← validate_safe_integer integer;
  Ok integer.

Definition control_u32 (value : option Value) : result string Z :=
  n ← control_integer value;
  if n <=? u32_max then Ok n else Err "invalid WebRTC sequence".

Definition parse_webrtc_control (text : string) : result string WebRtcControl :=
  reject WEBRTC_CONTROL_LIMIT <? utf16_len text with "WebRTC control frame is too large";
  value ← ok_or (from_str text) "invalid WebRTC control frame";
  object ← ok_or (as_object value) "invalid WebRTC control frame";
  kind ← ok_or (v ← get object "type"; as_str v) "invalid WebRTC control frame";
  seq ← control_u32 (get object "seq");
  if (kind =? "request")%string then
    item_id ← control_item_id (get object "itemId");
    index ← control_integer (get object "index");
    request seq item_id index
  else if (kind =? "chunk")%string then
    item_id ← control_item_id (get object "itemId");
    index ← control_integer (get object "index");
    length ← control_integer (get object "length");
    chunk seq item_id index length
  else if (kind =? "ack")%string then Ok (ack seq)
  else Err "unknown WebRTC control frame type".
End parse.

(** ** The derived serializer *)

(** The field of an object the serializer writes an integer or a string to. *)
Definition field_u64 `{SerdeJson Value Object} (o : Object) (key : string) (n : Z) : Prop :=
  ∃ v, get o key = Some v ∧ as_u64 v = Some n.
Definition field_str `{SerdeJson Value Object} (o : Object) (key s : string) : Prop :=
  ∃ v, get o key = Some v ∧ as_str v = Some s.

Definition fields `{SerdeJson Value Object} (o : Object) (m : WebRtcControl) : Prop :=
  match m with
  | Request seq item_id index =>
      field_str o "type" "request" ∧ field_u64 o "seq" seq ∧
      field_str o "itemId" item_id ∧ field_u64 o "index" index
  | Chunk seq item_id index length =>
      field_str o "type" "chunk" ∧ field_u64 o "seq" seq ∧
      field_str o "itemId" item_id ∧ field_u64 o "index" index ∧ field_u64 o "length" length
  | Ack seq => field_str o "type" "ack" ∧ field_u64 o "seq" seq
  end.

Class ControlJson Value Object `{SerdeJson Value Object} := {
  to_string : WebRtcControl → option string;
  to_string_fields m text : to_string m = Some text →
    ∃ v o, from_str text = Some v ∧ as_object v = Some o ∧ fields o m;
  to_string_utf8 m text : to_string m = Some text → utf8 text }.

Definition encode_webrtc_control `{ControlJson Value Object} (m : WebRtcControl)
    : result string string :=
  _ ← validate m;
  text ← ok_or (to_string m) "unable to encode WebRTC control frame";
  reject WEBRTC_CONTROL_LIMIT <? utf16_len text with "WebRTC control frame is too large";
  Ok text.

(** ** Properties *)

Lemma validate_safe_integer_Ok n : validate_safe_integer n = Ok () ↔ n ≤ MAX_SAFE_INTEGER.
Proof. unfold validate_safe_integer. case_match; bool_prop; split; done || lia. Qed.

Section control.
Context `{ControlJson Value Object}.

Lemma control_integer_Ok v n :
  control_integer v = Ok n → is_u64 n ∧ n ≤ MAX_SAFE_INTEGER.
Proof.
  unfold control_integer. destruct v as [v|]; [|done]. cbn.
  set (o := match as_u64 v with Some n => _ | None => _ end).
  assert (Ho : ∀ n, o = Some n → is_u64 n).
  { intros k. unfold o. destruct (as_u64 v) eqn:E; [intros [= <-]; by eapply as_u64_u64|].
    unfold integral_f64. destruct (as_f64 v) as [x|]; [|done]. cbn. case_match; [|done].
    intros [= <-]. unfold f64_to_u64, is_u64. repeat case_match; try (unfold u64_max; lia).
    apply clamp_bounds. done. }
  destruct o as [k|] eqn:E; [|done]. cbn.
  destruct (validate_safe_integer k) as [[]|] eqn:Ev; [|done]. cbn. intros [= <-].
  apply validate_safe_integer_Ok in Ev. eauto.
Qed.

Lemma control_integer_field o key n :
  field_u64 o key n → n ≤ MAX_SAFE_INTEGER → control_integer (get o key) = Ok n.
Proof.
  intros (v & -> & Hv) Hn. unfold control_integer. cbn. rewrite Hv. cbn.
  by rewrite (proj2 (validate_safe_integer_Ok n)).
Qed.

Lemma control_u32_field o key n :
  field_u64 o key n → is_u32 n → control_u32 (get o key) = Ok n.
Proof.
  intros Hf [_ Hn]. unfold control_u32. rewrite (control_integer_field _ _ n) by
    (done || unfold u32_max, MAX_SAFE_INTEGER in *; lia). cbn.
  by rewrite (proj2 (Z.leb_le _ _)).
Qed.

Lemma control_item_id_field o key s : field_str o key s → control_item_id (get o key) = Ok s.
Proof. intros (v & -> & Hv). unfold control_item_id. cbn. by rewrite Hv. Qed.

Lemma parse_encoded_control m text :
  control_typed m → encode_webrtc_control m = Ok text → parse_webrtc_control text = Ok m.
Proof.
  intros Ht. unfold encode_webrtc_control.
  destruct (validate m) as [[]|] eqn:Ev; [|done]. cbn.
  destruct (to_string m) as [t|] eqn:Em; [|done]. cbn. intros Hl.
  destruct (_ <? _) eqn:Elen; [done|]. simplify_eq.
  destruct (to_string_fields _ _ Em) as (v & o & Hv & Ho & Hf).
  unfold parse_webrtc_control. rewrite Elen, Hv. cbn. rewrite Ho. cbn.
  assert (Hk : ∃ kind seq, field_str o "type" kind ∧ field_u64 o "seq" seq ∧ is_u32 seq ∧
    match m with
    | Request s _ _ => kind = "request" ∧ s = seq
    | Chunk s _ _ _ => kind = "chunk" ∧ s = seq
    | Ack s => kind = "ack" ∧ s = seq
    end) by (destruct m; cbn in *; naive_solver).
  destruct Hk as (kind & q & (vt & Et & Es) & Hseq & Hq & Hk).
  rewrite Et. cbn. rewrite Es. cbn. rewrite (control_u32_field _ _ q) by done. cbn.
  destruct m as [seq i n|seq i n l|seq]; cbn in Hf; destruct Hk as [-> ->]; cbn.
  + destruct Hf as (_ & _ & Hi & Hn). unfold validate in Ev.
    destruct (validate_item_id i) as [[]|] eqn:Ei; [|done].
    cbn in Ev. pose proof (proj1 (validate_safe_integer_Ok _) Ev).
    rewrite (control_item_id_field o "itemId" i), (control_integer_field o "index" n) by done.
    cbn. unfold request, validate. rewrite Ei. cbn. by rewrite Ev.
  + destruct Hf as (_ & _ & Hi & Hn & Hle). pose proof Ev as Ev'. unfold validate in Ev.
    destruct (validate_item_id i) as [[]|] eqn:Ei; [|done]. cbn in Ev.
    destruct (validate_safe_integer n) as [[]|] eqn:En; [|done]. cbn in Ev.
    apply validate_safe_integer_Ok in En. destruct (negb _) eqn:El; [done|].
    rewrite (control_item_id_field o "itemId" i), (control_integer_field o "index" n) by done.
    bool_prop. cbn. rewrite (control_integer_field o "length" l) by
      (done || unfold MAX_CIPHERTEXT_BYTES, MAX_SAFE_INTEGER in *; lia). cbn.
    unfold chunk. by rewrite Ev'.
  + done.
Qed.

Lemma parsed_control_valid m text :
  parse_webrtc_control text = Ok m → control_typed m ∧ validate m = Ok ().
Proof.
  unfold parse_webrtc_control. intros Hp. guards Hp.
  destruct (from_str text) as [v|]; [|done]. cbn in Hp.
  destruct (as_object v) as [o|]; [|done]. cbn in Hp.
  destruct (v ← get o "type"; as_str v) as [kind|]; [|done]. cbn in Hp.
  destruct (control_u32 (get o "seq")) as [seq|] eqn:Eseq; [|done]. cbn in Hp.
  assert (Hseq : is_u32 seq).
  { unfold control_u32 in Eseq. destruct (control_integer _) as [k|] eqn:Ek; [|done].
    cbn in Eseq. destruct (k <=? u32_max) eqn:El; [|done]. bool_prop. simplify_eq.
    apply control_integer_Ok in Ek as [[? _] _]. split; lia. }
  destruct (kind =? "request")%string; [|destruct (kind =? "chunk")%string;
    [|destruct (kind =? "ack")%string; [|done]]].
  + destruct (control_item_id _) as [i|]; [|done]. cbn in Hp.
    destruct (control_integer (get o "index")) as [n|] eqn:En; [|done]. cbn in Hp.
    apply control_integer_Ok in En as [? _].
    unfold request in Hp. destruct (validate (Request seq i n)) as [[]|] eqn:Ev; [|done].
    cbn in Hp. by simplify_eq.
  + destruct (control_item_id _) as [i|]; [|done]. cbn in Hp.
    destruct (control_integer (get o "index")) as [n|] eqn:En; [|done]. cbn in Hp.
    destruct (control_integer (get o "length")) as [l|] eqn:El; [|done]. cbn in Hp.
    apply control_integer_Ok in En as [? _], El as [? _].
    unfold chunk in Hp. destruct (validate (Chunk seq i n l)) as [[]|] eqn:Ev; [|done].
    cbn in Hp. by simplify_eq.
  + by simplify_eq.
Qed.

(** A control message that was encoded parses back to itself, and every
    message the parser accepts, from any text a peer sends, is well-typed and
    passes the validation the encoder requires. *)
Theorem webrtc_control_roundtrip m text :
  (control_typed m → encode_webrtc_control m = Ok text → parse_webrtc_control text = Ok m) ∧
  (parse_webrtc_control text = Ok m → control_typed m ∧ validate m = Ok ()).
Proof. split; [apply parse_encoded_control|apply parsed_control_valid]. Qed.
End control.

(** ** An instance

    A toy [serde_json] that knows the three messages of one exchange, to show
    that the laws hold together with the theorems' hypotheses. *)

Module Example_json.
Inductive value := Doc (m : WebRtcControl) | Num (n : Z) | Text (s : string).

Definition table : list (string * WebRtcControl) :=
  [("{request 3 item 5}", Request 3 "item" 5); ("{chunk 3 item 5 20}", Chunk 3 "item" 5 20);
   ("{ack 3}", Ack 3)].

Definition get_field (m : WebRtcControl) (key : string) : option value :=
  let '(kind, seq, item, index, len) :=
    match m with
    | Request q i n => ("request", q, Some i, Some n, None)
    | Chunk q i n l => ("chunk", q, Some i, Some n, Some l)
    | Ack q => ("ack", q, None, None, None)
    end in
  if (key =? "type")%string then Some (Text kind)
  else if (key =? "seq")%string then Some (Num seq)
  else if (key =? "itemId")%string then Text <$> item
  else if (key =? "index")%string then Num <$> index
  else if (key =? "length")%string then Num <$> len else None.

#[export] Instance json : SerdeJson value WebRtcControl.
Proof.
  refine {|
    from_str := λ s, '(_, m) ← list_find (λ e, e.1 = s) table; Some (Doc m.2);
    as_object := λ v, match v with Doc m => Some m | _ => None end;
    get := get_field;
    as_str := λ v, match v with Text s => Some s | _ => None end;
    as_u64 := λ v, match v with Num n => if decide (is_u64 n) then Some n else None | _ => None end;
    as_f64 := λ _, None |}.
  intros [m|n|s] k; try done. case_decide; [by intros [= <-]|done].
Defined.

Ltac toy_field := eexists; split; reflexivity.

#[export] Instance control_json : ControlJson value WebRtcControl.
Proof.
  refine {| to_string := λ m, '(_, e) ← list_find (λ e, e.2 = m) table; Some e.1 |}.
  - intros m text. destruct (list_find (λ e, e.2 = m) table) as [[i e]|] eqn:E; [|done].
    apply list_find_Some in E as (Hl & He & _). cbn. intros [= <-].
    do 3 (destruct i as [|i]; [cbn in Hl; injection Hl as <-; cbn in He; subst m;
      eexists _, _; split; [reflexivity|]; split; [reflexivity|]; repeat split; toy_field|]).
    done.
  - intros m text. destruct (list_find (λ e, e.2 = m) table) as [[i e]|] eqn:E; [|done].
    apply list_find_Some in E as (Hl & He & _). cbn. intros [= <-].
    do 3 (destruct i as [|i]; [cbn in Hl; injection Hl as <-; cbn in He;
      apply utf8_check; reflexivity|]).
    done.
Defined.

Lemma webrtc_control_roundtrip_witness :
  let message := Request 3 "item" 5 in
  let document := "{request 3 item 5}" in
  (control_typed message → encode_webrtc_control message = Ok document →
     parse_webrtc_control document = Ok message) ∧
  (parse_webrtc_control document = Ok message →
     control_typed message ∧ validate message = Ok ()) ∧
  encode_webrtc_control message = Ok document.
Proof.
  split; [apply webrtc_control_roundtrip|].
  split; [apply webrtc_control_roundtrip|reflexivity].
Defined.
End Example_json.
