(* ===== verification/Channel.v ===== *)
(** * Serving and requesting chunks over a data channel

    crates/transfer-native/src/webrtc.rs ([serve_channel], [request_chunk]) and
    crates/transfer-native/src/protocol/rtc_upload.rs ([serve_artifacts]).  The
    data channel itself is third-party: a handler is a function of the events
    its polls return, and its result lists what it sends.  A failed send ends a
    handler like any other error, so only successful sends are traced. *)

From Stdlib Require Import String.
From S2P Require Import Prelude Transport Str Frame WebRtc.
Open Scope Z_scope.

Definition CONTROL_LIMIT : Z := 1024.
Definition FRAME_PAYLOAD_BYTES : Z := 16 * 1024.

(** [DataChannelEvent]: the cases the handlers tell apart. *)
Inductive Event :=
| OnMessage (is_string : bool) (data : list Z)
| OnClose
| OnOther.

(** What awaiting [channel.poll()] under [timeout] yields. *)
Inductive Poll := Polled (event : option Event) | Elapsed.

Inductive Out :=
| SendText (text : string)
| Send (data : list Z)
| Close.

(** A handler that ran out of polls is still waiting for the next one. *)
Inductive Outcome (A : Type) := Waiting | Returned (r : result string A).
Arguments Waiting {A}.
Arguments Returned {A} r.

(** [slice::chunks]: pieces of [n] elements, the last one possibly shorter. *)
Fixpoint chunks_fuel (fuel n : nat) (l : list Z) : list (list Z) :=
  match fuel with
  | O => []
  | S fuel =>
      match l with
      | [] => []
      | _ => take n l :: chunks_fuel fuel n (drop n l)
      end
  end.
Definition slice_chunks (n : nat) (l : list Z) : list (list Z) := chunks_fuel (length l) n l.

Section channel.
Context `{ControlJson Value Object}.

(** The text branch the handlers share. *)
Definition control_text (data : list Z) : result string WebRtcControl :=
  text ← ok_or (from_utf8 data) "invalid WebRTC control UTF-8";
  reject CONTROL_LIMIT <? len text with "WebRTC control frame is too large";
  parse_webrtc_control text.

(** ** The sender *)

Definition payload_bytes : nat := Z.to_nat FRAME_PAYLOAD_BYTES.

(** The [for] loop over [ciphertext.chunks(FRAME_PAYLOAD_BYTES).enumerate()]. *)
Fixpoint send_frames (seq i : Z) (pieces : list (list Z)) : result string (list Out) :=
  match pieces with
  | [] => Ok []
  | piece :: pieces =>
      let offset := i * FRAME_PAYLOAD_BYTES in
      reject u32_max <? offset with "out of range integral type conversion attempted";
      frame ← frame_new seq offset piece;
      data ← encode_webrtc_frame frame;
      rest ← send_frames seq (i + 1) pieces;
      Ok (Send data :: rest)
  end.

(** The answer to one request; [length] comes with the ciphertext. *)
Definition answer (seq : Z) (item_id : string) (index : Z) (ciphertext : list Z)
    : result string (list Out) :=
  message ← chunk seq item_id index (zlen ciphertext);
  text ← encode_webrtc_control message;
  frames ← send_frames seq 0 (slice_chunks payload_bytes ciphertext);
  Ok (SendText text :: frames).

(** One control message of [serve_channel_inner]'s loop. *)
Definition serve_message (chunks : gmap (string * Z) (list Z)) (pending : option Z)
    (data : list Z) : result string (list Out * option Z) :=
  message ← control_text data;
  match message, pending with
  | Request seq item_id index, None =>
      ciphertext ← ok_or (chunks !! (item_id, index)) "unknown WebRTC chunk request";
      outs ← answer seq item_id index ciphertext;
      Ok (outs, Some seq)
  | Ack seq, Some expected =>
      if expected =? seq then Ok ([], None) else Err "unexpected WebRTC control frame"
  | _, _ => Err "unexpected WebRTC control frame"
  end.

(** The loop; only a pending acknowledgement is awaited with a timeout. *)
Fixpoint serve_channel_inner (chunks : gmap (string * Z) (list Z)) (pending : option Z)
    (polls : list Poll) : list Out * Outcome () :=
  match polls with
  | [] => ([], Waiting)
  | Elapsed :: polls =>
      match pending with
      | Some _ => ([], Returned (Err "WebRTC chunk acknowledgement timed out"))
      | None => serve_channel_inner chunks pending polls
      end
  | Polled None :: _ => ([], Returned (Ok ()))
  | Polled (Some (OnMessage true data)) :: polls =>
      match serve_message chunks pending data with
      | Ok (outs, pending) =>
          let '(outs', r) := serve_channel_inner chunks pending polls in (outs ++ outs', r)
      | Err e => ([], Returned (Err e))
      end
  | Polled (Some OnClose) :: _ => ([], Returned (Ok ()))
  | Polled (Some _) :: polls => serve_channel_inner chunks pending polls
  end.

Definition serve_channel (chunks : gmap (string * Z) (list Z)) (polls : list Poll)
    : list Out * Outcome () :=
  let '(outs, r) := serve_channel_inner chunks None polls in
  match r with Returned (Err _) => (outs ++ [Close], r) | _ => (outs, r) end.

(** ** The receiver *)

(** One event of [request_chunk]'s loop: keep [(announced, bytes)], or return. *)
Definition receive_event (seq : Z) (item_id : string) (index expected : Z)
    (announced : bool) (bytes : list Z) (event : Event)
    : result string (bool * list Z * option string) :=
  match event with
  | OnMessage true data =>
      message ← control_text data;
      match message with
      | Chunk got got_id got_index length =>
          if negb announced && (got =? seq) && (got_id =? item_id)%string
             && (got_index =? index) && (length =? expected)
          then Ok (true, bytes, None) else Err "unexpected WebRTC chunk response"
      | _ => Err "unexpected WebRTC chunk response"
      end
  | OnMessage false data =>
      reject negb announced with "WebRTC binary frame arrived before chunk declaration";
      frame ← parse_webrtc_frame data;
      _ ← validate_for_chunk frame seq (zlen bytes) expected;
      let bytes := bytes ++ payload frame in
      if zlen bytes =? expected
      then text ← encode_webrtc_control (ack seq); Ok (announced, bytes, Some text)
      else Ok (announced, bytes, None)
  | OnClose => Err "WebRTC data channel closed"
  | OnOther => Ok (announced, bytes, None)
  end.

Fixpoint receive (seq : Z) (item_id : string) (index expected : Z)
    (announced : bool) (bytes : list Z) (polls : list Poll) : list Out * Outcome (list Z) :=
  match polls with
  | [] => ([], Waiting)
  | Elapsed :: _ => ([], Returned (Err "WebRTC chunk response timed out"))
  | Polled None :: _ => ([], Returned (Err "WebRTC data channel closed"))
  | Polled (Some event) :: polls =>
      match receive_event seq item_id index expected announced bytes event with
      | Err e => ([], Returned (Err e))
      | Ok (_, bytes, Some ack) => ([SendText ack], Returned (Ok bytes))
      | Ok (announced, bytes, None) =>
          receive seq item_id index expected announced bytes polls
      end
  end.

Definition request_chunk (seq : Z) (item_id : string) (index expected : Z) (polls : list Poll)
    : list Out * Outcome (list Z) :=
  match request seq item_id index with
  | Err e => ([], Returned (Err e))
  | Ok message =>
      let '(outs, r) :=
        match encode_webrtc_control message with
        | Err e => ([], Returned (Err e))
        | Ok text =>
            let '(outs, r) := receive seq item_id index expected false [] polls in
            (SendText text :: outs, r)
        end in
      match r with Returned (Err _) => (outs ++ [Close], r) | _ => (outs, r) end
  end.

(** ** The sender over checkpointed artifacts *)

Record CiphertextArtifact := { path : string; a_bytes : Z; a_checksum : string }.

(** The file system as the handler opens it, and [hex::encode] of SHA-256. *)
Context (open_file : string → option (list Z)) (sha256_hex : list Z → string).

Definition verify_artifact (a : CiphertextArtifact) : result string (list Z) :=
  file ← ok_or (open_file (path a)) "read immutable ciphertext";
  reject negb (zlen file =? a_bytes a) with "immutable ciphertext was changed or is corrupt";
  reject negb (sha256_hex file =? a_checksum a)%string
    with "immutable ciphertext was changed or is corrupt";
  Ok file.

(** The [while offset < artifact.bytes] loop; [file] is what is left to read.
    Every turn sends at least one byte, so [bytes] turns are enough. *)
Fixpoint artifact_frames (fuel : nat) (seq total offset : Z) (file : list Z)
    : result string (list Out) :=
  match fuel with
  | O => Ok []
  | S fuel =>
      if total <=? offset then Ok []
      else
        let length := Z.min (total - offset) FRAME_PAYLOAD_BYTES in
        reject zlen file <? length with "immutable ciphertext was truncated";
        let piece := take (Z.to_nat length) file in
        reject u32_max <? offset with "out of range integral type conversion attempted";
        frame ← frame_new seq offset piece;
        data ← encode_webrtc_frame frame;
        offset ← ok_or (checked_add offset length) "WebRTC frame offset overflow";
        rest ← artifact_frames fuel seq total offset (drop (Z.to_nat length) file);
        Ok (Send data :: rest)
  end.

Definition artifact_answer (seq : Z) (item_id : string) (index : Z) (a : CiphertextArtifact)
    : result string (list Out) :=
  ciphertext ← verify_artifact a;
  response ← chunk seq item_id index (a_bytes a);
  text ← encode_webrtc_control response;
  frames ← artifact_frames (Z.to_nat (a_bytes a)) seq (a_bytes a) 0 ciphertext;
  Ok (SendText text :: frames).

Definition artifact_message (chunks : gmap (string * Z) CiphertextArtifact)
    (pending : option Z) (data : list Z) : result string (list Out * option Z) :=
  message ← control_text data;
  match message, pending with
  | Request seq item_id index, None =>
      artifact ← ok_or (chunks !! (item_id, index)) "unknown WebRTC chunk request";
      outs ← artifact_answer seq item_id index artifact;
      Ok (outs, Some seq)
  | Ack seq, Some expected =>
      if expected =? seq then Ok ([], None) else Err "unexpected WebRTC control frame"
  | _, _ => Err "unexpected WebRTC control frame"
  end.

Fixpoint serve_artifacts_inner (chunks : gmap (string * Z) CiphertextArtifact)
    (pending : option Z) (polls : list Poll) : list Out * Outcome () :=
  match polls with
  | [] => ([], Waiting)
  | Elapsed :: polls =>
      match pending with
      | Some _ => ([], Returned (Err "WebRTC chunk acknowledgement timed out"))
      | None => serve_artifacts_inner chunks pending polls
      end
  | Polled None :: _ => ([], Returned (Ok ()))
  | Polled (Some (OnMessage true data)) :: polls =>
      match artifact_message chunks pending data with
      | Ok (outs, pending) =>
          let '(outs', r) := serve_artifacts_inner chunks pending polls in (outs ++ outs', r)
      | Err e => ([], Returned (Err e))
      end
  | Polled (Some OnClose) :: _ => ([], Returned (Ok ()))
  | Polled (Some _) :: polls => serve_artifacts_inner chunks pending polls
  end.

Definition serve_artifacts (chunks : gmap (string * Z) CiphertextArtifact) (polls : list Poll)
    : list Out * Outcome () :=
  let '(outs, r) := serve_artifacts_inner chunks None polls in
  match r with Returned (Err _) => (outs ++ [Close], r) | _ => (outs, r) end.

(** ** Streaming a file sends the frames of the buffer *)

Lemma chunks_fuel_enough fuel n l :
  (0 < n)%nat → (length l ≤ fuel)%nat → chunks_fuel fuel n l = slice_chunks n l.
Proof.
  intros Hn. unfold slice_chunks. revert l.
  assert (Heq : ∀ f g l, (length l ≤ f)%nat → (length l ≤ g)%nat →
    chunks_fuel f n l = chunks_fuel g n l).
  { induction f as [|f IH]; intros g l Hf Hg.
    - destruct l; [|simpl in Hf; lia]. by destruct g.
    - destruct g as [|g]; [destruct l; [done|simpl in Hg; lia]|].
      simpl. destruct l as [|z l]; [done|]. f_equal.
      apply IH; rewrite length_drop; simpl in *; lia. }
  intros l Hl. by apply Heq.
Qed.

Lemma slice_chunks_step n l :
  (0 < n)%nat → l ≠ [] → slice_chunks n l = take n l :: slice_chunks n (drop n l).
Proof.
  intros Hn Hl. unfold slice_chunks at 1. destruct l as [|z l]; [done|].
  cbn [length chunks_fuel]. f_equal. apply chunks_fuel_enough; [done|].
  rewrite length_drop. simpl. lia.
Qed.

Lemma concat_slice_chunks n l : (0 < n)%nat → concat (slice_chunks n l) = l.
Proof.
  intros Hn. remember (length l) as k eqn:Hk. revert l Hk.
  induction (lt_wf k) as [k _ IH]. intros l ->. destruct l as [|z l]; [done|].
  rewrite slice_chunks_step by done. cbn [concat].
  rewrite (IH (length (drop n (z :: l)))); [apply take_drop| |done].
  rewrite length_drop. simpl. lia.
Qed.

Lemma payload_bytes_pos : (0 < payload_bytes)%nat.
Proof. unfold payload_bytes, FRAME_PAYLOAD_BYTES. lia. Qed.

Lemma payload_bytes_Z : Z.of_nat payload_bytes = FRAME_PAYLOAD_BYTES.
Proof. unfold payload_bytes, FRAME_PAYLOAD_BYTES. lia. Qed.

#[local] Opaque payload_bytes.

Lemma artifact_frames_send fuel seq total i file :
  0 ≤ i → zlen file = total - i * FRAME_PAYLOAD_BYTES ∨ total ≤ i * FRAME_PAYLOAD_BYTES ∧ file = [] →
  total ≤ MAX_CIPHERTEXT_BYTES → (length file ≤ fuel)%nat →
  artifact_frames fuel seq total (i * FRAME_PAYLOAD_BYTES) file
  = send_frames seq i (slice_chunks payload_bytes file).
Proof.
  revert i file. induction fuel as [|fuel IH]; intros i file Hi Hlen Ht Hf.
  { by destruct file; [|simpl in Hf; lia]. }
  destruct file as [|b file].
  { cbn [artifact_frames]. rewrite (proj2 (Z.leb_le _ _)); [done|].
    unfold zlen in Hlen. simpl in Hlen. lia. }
  destruct Hlen as [Hlen|[_ Hlen]]; [|done].
  pose proof payload_bytes_pos as Hpos. rewrite slice_chunks_step by done.
  cbn [artifact_frames send_frames]. set (l := b :: file) in *.
  assert (Hl : 1 ≤ zlen l) by (unfold zlen; simpl; lia).
  rewrite (proj2 (Z.leb_gt _ _)) by lia. rewrite <- Hlen.
  rewrite (proj2 (Z.ltb_ge (zlen l) _)) by lia.
  assert (Htake : take (Z.to_nat (Z.min (zlen l) FRAME_PAYLOAD_BYTES)) l = take payload_bytes l
    ∧ drop (Z.to_nat (Z.min (zlen l) FRAME_PAYLOAD_BYTES)) l = drop payload_bytes l).
  { destruct (Z.le_ge_cases (zlen l) FRAME_PAYLOAD_BYTES) as [Hc|Hc].
    - rewrite Z.min_l by done. unfold zlen in *. rewrite Nat2Z.id.
      rewrite !take_ge, !drop_ge by (pose proof payload_bytes_Z; lia). done.
    - by rewrite Z.min_r. }
  destruct Htake as [-> ->].
  destruct (u32_max <? _); [done|]. unfold mbind, result_bind.
  destruct (frame_new seq _ _) as [frame|]; [|done].
  destruct (encode_webrtc_frame frame) as [data|]; [|done].
  unfold checked_add, ok_or. rewrite (proj2 (Z.leb_le _ u64_max)) by
    (unfold u64_max, MAX_CIPHERTEXT_BYTES in *; lia).
  assert (Hd : zlen (drop payload_bytes l) = Z.max (zlen l - FRAME_PAYLOAD_BYTES) 0).
  { unfold zlen. rewrite length_drop. pose proof payload_bytes_Z. lia. }
  destruct (Z.le_ge_cases (zlen l) FRAME_PAYLOAD_BYTES) as [Hc|Hc].
  - assert (drop payload_bytes l = []) as ->.
    { apply nil_length_inv. unfold zlen in *. lia. }
    rewrite Z.min_l by done. destruct fuel as [|fuel]; [done|]. cbn [artifact_frames].
    by rewrite (proj2 (Z.leb_le _ _)) by lia.
  - rewrite Z.min_r by done.
    replace (i * FRAME_PAYLOAD_BYTES + FRAME_PAYLOAD_BYTES)
      with ((i + 1) * FRAME_PAYLOAD_BYTES) by lia.
    rewrite IH; [done|lia|left; lia|done|].
    rewrite length_drop. pose proof payload_bytes_pos.
    assert (length l = S (length file)) by done. lia.
Qed.

Lemma artifact_answer_eq seq item_id index a c :
  verify_artifact a = Ok c → artifact_answer seq item_id index a = answer seq item_id index c.
Proof.
  intros Hv. unfold artifact_answer, answer. rewrite Hv. unfold mbind, result_bind.
  assert (Hlen : zlen c = a_bytes a).
  { unfold verify_artifact in Hv. destruct (open_file (path a)) as [f|]; [|done]. cbn in Hv.
    guards Hv. bool_prop. by simplify_eq. }
  rewrite <- Hlen. unfold chunk. unfold mbind, result_bind.
  destruct (validate _) as [[]|] eqn:Em; [|done].
  assert (Hmax : zlen c ≤ MAX_CIPHERTEXT_BYTES).
  { unfold validate, mbind, result_bind in Em. destruct (validate_item_id _) as [[]|]; [|done].
    destruct (validate_safe_integer _) as [[]|]; [|done]. guards Em. by bool_prop. }
  destruct (encode_webrtc_control _) as [text|]; [|done].
  rewrite (artifact_frames_send _ seq (zlen c) 0 c); [done|lia|left; lia|done|].
  unfold zlen. lia.
Qed.

(** Every served artifact is intact and holds the given ciphertext. *)
Definition artifacts_hold (artifacts : gmap (string * Z) CiphertextArtifact)
    (chunks : gmap (string * Z) (list Z)) : Prop :=
  ∀ key, match artifacts !! key, chunks !! key with
  | Some a, Some c => verify_artifact a = Ok c
  | None, None => True
  | _, _ => False
  end.

(** Serving checkpointed artifacts from disk, in fixed-size reads, sends
    exactly what serving the whole ciphertexts from memory sends, on every
    sequence of channel events, errors and timeouts included. *)
Theorem serve_artifacts_refines artifacts chunks polls :
  artifacts_hold artifacts chunks → serve_artifacts artifacts polls = serve_channel chunks polls.
Proof.
  intros Hh. unfold serve_artifacts, serve_channel.
  assert (Hm : ∀ pending data,
    artifact_message artifacts pending data = serve_message chunks pending data).
  { intros pending data. unfold artifact_message, serve_message, mbind, result_bind.
    destruct (control_text data) as [[seq i n| |]|]; try done. destruct pending; [done|].
    specialize (Hh (i, n)). destruct (artifacts !! (i, n)) as [a|], (chunks !! (i, n)) as [c|];
      try done. cbn [ok_or]. by rewrite (artifact_answer_eq _ _ _ _ c). }
  assert (Hl : ∀ pending, serve_artifacts_inner artifacts pending polls
    = serve_channel_inner chunks pending polls).
  { induction polls as [|[[[[] data| |]|]|] polls IH]; intros pending; cbn; try done.
    - rewrite Hm. destruct (serve_message _ _ _) as [[outs p]|]; [|done]. by rewrite IH.
    - by destruct pending. }
  by rewrite Hl.
Qed.

(** ** An honest exchange *)

(** What the peer's polls return for the messages a handler sent. *)
Definition deliver (outs : list Out) : list Poll :=
  (λ o, Polled (Some match o with
    | SendText text => OnMessage true (bytes text)
    | Send data => OnMessage false data
    | Close => OnClose
    end)) <$> outs.

(** The control text both sides accept: encoded, and within the byte limit. *)
Definition control_sent (m : WebRtcControl) (text : string) : Prop :=
  encode_webrtc_control m = Ok text ∧ len text ≤ CONTROL_LIMIT.

Lemma control_text_sent m text :
  control_typed m → control_sent m text → control_text (bytes text) = Ok m.
Proof.
  intros Ht [He Hl]. unfold control_text.
  assert (Hu : utf8 text).
  { unfold encode_webrtc_control, mbind, result_bind in He.
    destruct (validate m) as [[]|]; [|done]. destruct (to_string m) as [t|] eqn:Et; [|done].
    cbn in He. guards He. simplify_eq. by eapply to_string_utf8. }
  rewrite from_utf8_bytes by done. cbn. rewrite (proj2 (Z.ltb_ge _ _)) by done.
  by apply parse_encoded_control.
Qed.

Lemma send_frames_cons seq i piece pieces outs :
  send_frames seq i (piece :: pieces) = Ok outs →
  ∃ data rest, outs = Send data :: rest ∧ send_frames seq (i + 1) pieces = Ok rest ∧
    encode_webrtc_frame {| f_seq := seq; f_offset := i * FRAME_PAYLOAD_BYTES; payload := piece |}
    = Ok data ∧ i * FRAME_PAYLOAD_BYTES ≤ u32_max.
Proof.
  cbn. intros Ho. guards Ho. unfold frame_new, mbind, result_bind in Ho.
  destruct (validate_frame_payload piece) as [[]|]; [|done].
  destruct (encode_webrtc_frame _) as [data|]; [|done].
  destruct (send_frames seq (i + 1) pieces) as [rest|]; [|done]. simplify_eq. bool_prop.
  by exists data, rest.
Qed.

Lemma slice_piece_length (l : list Z) :
  l ≠ [] → 0 < zlen (take payload_bytes l) ≤ FRAME_PAYLOAD_BYTES.
Proof.
  intros Hl. unfold zlen. rewrite length_take.
  pose proof payload_bytes_pos. pose proof payload_bytes_Z. set (n := payload_bytes) in *.
  clearbody n. destruct l; [done|]. simpl. lia.
Qed.

(** Within the ciphertext bound every frame can be built. *)
Lemma send_frames_total seq i (l : list Z) :
  0 ≤ i → i * FRAME_PAYLOAD_BYTES + zlen l ≤ MAX_CIPHERTEXT_BYTES →
  ∃ outs, send_frames seq i (slice_chunks payload_bytes l) = Ok outs.
Proof.
  remember (length l) as k eqn:Hk. revert l Hk i.
  induction (lt_wf k) as [k _ IH]. intros l -> i Hi Hlen.
  pose proof payload_bytes_pos as Hpos. pose proof payload_bytes_Z as HZ.
  destruct (decide (l = [])) as [->|Hl]; [by eexists|].
  pose proof (slice_piece_length l Hl) as Hpl.
  set (n := payload_bytes) in *. clearbody n. rewrite slice_chunks_step by done.
  assert (Hz : 1 ≤ zlen l) by (destruct l; [done|unfold zlen; simpl; lia]).
  cbn [send_frames]. rewrite (proj2 (Z.ltb_ge u32_max _)) by
    (unfold u32_max, MAX_CIPHERTEXT_BYTES in *; lia).
  unfold frame_new, mbind, result_bind. rewrite (proj2 (validate_frame_payload_Ok _)) by done.
  destruct (Z.le_gt_cases (zlen l) FRAME_PAYLOAD_BYTES) as [Hc|Hc].
  - rewrite drop_ge by (unfold zlen in Hc; lia). cbn.
    rewrite (proj2 (encode_webrtc_frame_Ok _ _)) by (split; [exact Hpl|reflexivity]). eauto.
  - assert (Hdec : (length (drop n l) < length l)%nat)
      by (rewrite length_drop; destruct l; [done|simpl; lia]).
    destruct (IH _ Hdec (drop n l) eq_refl (i + 1)) as [rest Hr]; [lia| |].
    + unfold zlen in *. rewrite length_drop. lia.
    + rewrite Hr.
      rewrite (proj2 (encode_webrtc_frame_Ok _ _)) by (split; [exact Hpl|reflexivity]). eauto.
Qed.

(** The receiver consumes the frames of the rest of a chunk. *)
Lemma receive_frames seq item_id index expected i (prior l : list Z) outs ack_text :
  is_u32 seq → Forall is_u8 l → l ≠ [] → 0 ≤ i → zlen prior = i * FRAME_PAYLOAD_BYTES →
  zlen prior + zlen l = expected → AEAD_TAG_BYTES ≤ expected ≤ MAX_CIPHERTEXT_BYTES →
  send_frames seq i (slice_chunks payload_bytes l) = Ok outs →
  encode_webrtc_control (Ack seq) = Ok ack_text →
  receive seq item_id index expected true prior (deliver outs)
  = ([SendText ack_text], Returned (Ok (prior ++ l))).
Proof.
  intros Hseq. remember (length l) as k eqn:Hk. revert l Hk i prior outs.
  induction (lt_wf k) as [k _ IH]. intros l -> i prior outs Hu Hl Hi Hp He Hb Ho Ha.
  pose proof (slice_piece_length l Hl) as Hpl.
  pose proof payload_bytes_pos as Hpos. pose proof payload_bytes_Z as HZ.
  set (n := payload_bytes) in *. clearbody n. rewrite slice_chunks_step in Ho by done.
  apply send_frames_cons in Ho as (data & rest & -> & Hrest & Hdata & Hoff).
  cbn [deliver fmap list_fmap receive receive_event negb].
  rewrite (parse_encoded_frame _ _) with (2 := Hdata); last first.
  { split_and!; [done|split; cbn; lia|]. cbn. by apply Forall_take. }
  unfold mbind, result_bind, validate_for_chunk. cbn [f_seq f_offset payload].
  assert (Hlt : zlen (take n l) = Z.min (zlen l) FRAME_PAYLOAD_BYTES)
    by (unfold zlen; rewrite length_take; lia).
  rewrite !(proj2 (Z.leb_le _ _)) by lia. rewrite Hp, !Z.eqb_refl. cbn [negb andb orb].
  unfold checked_add, ok_or, mbind, result_bind. rewrite <- Hp.
  rewrite (proj2 (Z.leb_le _ u64_max)) by (unfold MAX_CIPHERTEXT_BYTES, u64_max in *; lia).
  rewrite (proj2 (Z.ltb_ge _ _)) by lia.
  assert (Hza : zlen (prior ++ take n l) = zlen prior + zlen (take n l))
    by (unfold zlen; rewrite length_app; lia).
  destruct (Z.le_gt_cases (zlen l) FRAME_PAYLOAD_BYTES) as [Hc|Hc].
  - rewrite (proj2 (Z.eqb_eq _ _)) by lia. unfold ack. rewrite Ha.
    rewrite take_ge by (unfold zlen in Hc; lia). done.
  - rewrite (proj2 (Z.eqb_neq _ _)) by lia.
    assert (Hdl : zlen (drop n l) = zlen l - FRAME_PAYLOAD_BYTES)
      by (unfold zlen in *; rewrite length_drop; lia).
    assert (Hdec : (length (drop n l) < length l)%nat)
      by (rewrite length_drop; destruct l; [done|simpl; lia]).
    fold (deliver rest).
    rewrite (IH _ Hdec (drop n l) eq_refl (i + 1)); try done; try lia.
    + rewrite <- app_assoc, take_drop. done.
    + by apply Forall_drop.
    + intros E. rewrite E in Hdl. unfold zlen in *. simpl in *. lia.
Qed.

(** C1: a requested chunk arrives intact. When the sender holds the ciphertext
    under the requested key and the three control messages fit the channel,
    the sender's answer makes the receiver return exactly that ciphertext, of
    any length from one tag to the 25 MB bound, and its acknowledgement frees
    the sender for the next request. *)
Theorem chunk_exchange chunks seq item_id index (ciphertext : list Z) tq tc ta :
  is_u32 seq → is_u64 index → Forall is_u8 ciphertext →
  chunks !! (item_id, index) = Some ciphertext →
  control_sent (Request seq item_id index) tq →
  control_sent (Chunk seq item_id index (zlen ciphertext)) tc →
  control_sent (Ack seq) ta →
  ∃ outs,
    serve_message chunks None (bytes tq) = Ok (outs, Some seq) ∧
    request_chunk seq item_id index (zlen ciphertext) (deliver outs)
    = ([SendText tq; SendText ta], Returned (Ok ciphertext)) ∧
    serve_message chunks (Some seq) (bytes ta) = Ok ([], None).
Proof.
  intros Hseq Hidx Hu Hc Hq Hch Ha.
  pose proof (control_text_sent (Request seq item_id index) _ (conj Hseq Hidx) Hq) as Eq.
  pose proof (control_text_sent (Ack seq) _ Hseq Ha) as Ea.
  assert (Hvc : validate (Chunk seq item_id index (zlen ciphertext)) = Ok ()).
  { destruct Hch as [Hch _]. unfold encode_webrtc_control, mbind, result_bind in Hch.
    by destruct (validate _) as [[]|]. }
  assert (Hv : validate_item_id item_id = Ok () ∧ validate_safe_integer index = Ok () ∧
    AEAD_TAG_BYTES ≤ zlen ciphertext ≤ MAX_CIPHERTEXT_BYTES).
  { revert Hvc. unfold validate, mbind, result_bind.
    destruct (validate_item_id item_id) as [[]|]; [|done].
    destruct (validate_safe_integer index) as [[]|]; [|done]. intros Hg. guards Hg.
    bool_prop. done. }
  destruct Hv as (Hi & Hn & Hlen).
  assert (Hz : is_u64 (zlen ciphertext))
    by (unfold is_u64, u64_max, MAX_CIPHERTEXT_BYTES, AEAD_TAG_BYTES in *; lia).
  pose proof (control_text_sent (Chunk seq item_id index (zlen ciphertext)) _
    (conj Hseq (conj Hidx Hz)) Hch) as Ec.
  assert (Hne : ciphertext ≠ []).
  { intros ->. unfold zlen, AEAD_TAG_BYTES in Hlen. simpl in Hlen. lia. }
  destruct (send_frames_total seq 0 ciphertext) as [frames Hf]; [lia|lia|].
  exists (SendText tc :: frames). split_and!.
  - unfold serve_message. rewrite Eq. unfold mbind, result_bind. rewrite Hc. cbn [ok_or].
    unfold answer, mbind, result_bind, chunk. rewrite Hvc. unfold mbind, result_bind.
    destruct Hch as [-> _]. by rewrite Hf.
  - unfold request_chunk, request. unfold validate, mbind, result_bind. rewrite Hi, Hn.
    destruct Hq as [-> _]. cbn [deliver fmap list_fmap receive receive_event].
    rewrite Ec. unfold mbind, result_bind. rewrite !Z.eqb_refl, String.eqb_refl. cbn [negb andb].
    fold (deliver frames).
    rewrite (receive_frames seq item_id index (zlen ciphertext) 0 [] ciphertext frames ta);
      try done. by destruct Ha.
  - unfold serve_message. rewrite Ea. unfold mbind, result_bind. by rewrite Z.eqb_refl.
Qed.

(** ** A dishonest sender *)

Definition text_message (p : Poll) : option (list Z) :=
  match p with Polled (Some (OnMessage true data)) => Some data | _ => None end.
Definition binary_message (p : Poll) : option (list Z) :=
  match p with Polled (Some (OnMessage false data)) => Some data | _ => None end.

(** Frames of one sequence number at consecutive offsets from [offset]. *)
Fixpoint in_order (seq offset : Z) (frames : list WebRtcFrame) : Prop :=
  match frames with
  | [] => True
  | f :: frames =>
      f_seq f = seq ∧ f_offset f = offset ∧ in_order seq (offset + zlen (payload f)) frames
  end.

(** The announcements a receiver that already saw one still accepts. *)
Definition announcement (seq : Z) (item_id : string) (index expected : Z) (announced : bool)
    (texts : list (list Z)) : Prop :=
  if announced then texts = []
  else ∃ data, texts = [data] ∧ control_text data = Ok (Chunk seq item_id index expected).

Lemma receive_sound seq item_id index expected announced (prior : list Z) polls outs result :
  receive seq item_id index expected announced prior polls = (outs, Returned (Ok result)) →
  zlen result = expected ∧
  ∃ used rest frames, polls = used ++ rest ∧
    announcement seq item_id index expected announced (omap text_message used) ∧
    Forall2 (λ data f, parse_webrtc_frame data = Ok f) (omap binary_message used) frames ∧
    in_order seq (zlen prior) frames ∧ result = prior ++ concat (payload <$> frames).
Proof.
  revert announced prior. induction polls as [|[[event|]|] polls IH]; intros announced prior;
    try done.
  cbn [receive]. destruct event as [[|] data| |]; cbn [receive_event]; [| |done|].
  - destruct (control_text data) as [[|got got_id got_index length|]|] eqn:Et; try done.
    unfold mbind, result_bind. destruct (_ && _) eqn:Ec; [|done]. bool_prop. subst.
    intros Hr.
    destruct (IH _ _ Hr) as (Hl & used & rest & frames & -> & Ha & Hf & Ho & Hb).
    split; [done|]. exists (Polled (Some (OnMessage true data)) :: used), rest, frames.
    split_and!; try done. exists data. cbn in Ha |- *. by rewrite Ha.
  - destruct announced; [|done]. cbn [negb].
    destruct (parse_webrtc_frame data) as [f|] eqn:Ep; [|done].
    unfold mbind, result_bind.
    destruct (validate_for_chunk f seq (zlen prior) expected) as [[]|] eqn:Ev; [|done].
    assert (Hf : f_seq f = seq ∧ f_offset f = zlen prior).
    { unfold validate_for_chunk in Ev. guards Ev. by bool_prop. }
    assert (Hz : zlen (prior ++ payload f) = zlen prior + zlen (payload f))
      by (unfold zlen; rewrite length_app; lia).
    destruct (_ =? expected) eqn:Ee.
    + destruct (encode_webrtc_control _) as [t|]; [|done]. intros [= <- <-]. bool_prop.
      split; [done|]. exists [Polled (Some (OnMessage false data))], polls, [f].
      split_and!; try done; [by repeat constructor|by destruct Hf|].
      cbn. by rewrite app_nil_r.
    + intros Hr. destruct (IH _ _ Hr) as (Hl & used & rest & frames & -> & Ha & Hfs & Ho & ->).
      split; [done|]. exists (Polled (Some (OnMessage false data)) :: used), rest, (f :: frames).
      split_and!; try done; [by constructor|rewrite Hz in Ho; by destruct Hf|].
      cbn. by rewrite app_assoc.
  - intros Hr. destruct (IH _ _ Hr) as (Hl & used & rest & frames & -> & Ha & Hf & Ho & Hb).
    split; [done|]. by exists (Polled (Some OnOther) :: used), rest, frames.
Qed.

(** Whatever a peer sends, a chunk the receiver returns has exactly the
    expected length and is the concatenation of the frames it parsed, all of the
    requested sequence number and at consecutive offsets, after exactly one
    announcement of that item, index and length. *)
Theorem request_chunk_sound seq item_id index expected polls outs (result : list Z) :
  request_chunk seq item_id index expected polls = (outs, Returned (Ok result)) →
  zlen result = expected ∧
  ∃ used rest frames data, polls = used ++ rest ∧
    omap text_message used = [data] ∧
    control_text data = Ok (Chunk seq item_id index expected) ∧
    Forall2 (λ data f, parse_webrtc_frame data = Ok f) (omap binary_message used) frames ∧
    in_order seq 0 frames ∧ result = concat (payload <$> frames).
Proof.
  unfold request_chunk. destruct (request _ _ _) as [m|]; [|done].
  destruct (encode_webrtc_control m) as [t|]; [|done].
  destruct (receive _ _ _ _ _ _ _) as [outs' r] eqn:Er.
  destruct r as [|[r|e]]; [done| |done]. intros [= <- <-].
  apply receive_sound in Er as (Hl & used & rest & frames & -> & (data & Ht & Hd) & Hf & Ho & ->).
  split; [done|]. by exists used, rest, frames, data.
Qed.
End channel.

(** ** The theorems at a concrete exchange *)

Module Example_channel.
Import Example_json.
Definition cipher : list Z := [1; 2; 3; 4; 5; 6; 7; 8; 9; 10; 11; 12; 13; 14; 15; 16; 17; 18; 19; 20].
Definition held : gmap (string * Z) (list Z) := {[("item", 5) := cipher]}.

Lemma chunk_exchange_witness :
  ∃ outs,
    serve_message held None (bytes "{request 3 item 5}") = Ok (outs, Some 3) ∧
    request_chunk 3 "item" 5 20 (deliver outs)
    = ([SendText "{request 3 item 5}"; SendText "{ack 3}"], Returned (Ok cipher)) ∧
    serve_message held (Some 3) (bytes "{ack 3}") = Ok ([], None).
Proof.
  apply (chunk_exchange held 3 "item" 5 cipher _ "{chunk 3 item 5 20}" _).
  - vm_compute; split; discriminate.
  - vm_compute; split; discriminate.
  - repeat constructor; vm_compute; discriminate.
  - reflexivity.
  - split; [reflexivity|vm_compute; discriminate].
  - split; [reflexivity|vm_compute; discriminate].
  - split; [reflexivity|vm_compute; discriminate].
Defined.

Definition artifacts : gmap (string * Z) CiphertextArtifact :=
  {[("item", 5) := {| path := "chunk-5"; a_bytes := 20; a_checksum := "sum" |}]}.
Definition disk (p : string) : option (list Z) :=
  if (p =? "chunk-5")%string then Some cipher else None.
Definition digest (l : list Z) : string := if bool_decide (l = cipher) then "sum" else "other".

Lemma serve_artifacts_refines_witness :
  let polls := [Polled (Some (OnMessage true (bytes "{request 3 item 5}"))); Elapsed] in
  serve_artifacts disk digest artifacts polls = serve_channel held polls.
Proof.
  apply serve_artifacts_refines. intros key. unfold artifacts, held.
  destruct (decide (key = ("item", 5))) as [->|Hk].
  - rewrite !lookup_singleton_eq. reflexivity.
  - by rewrite !lookup_singleton_ne.
Defined.

(** An answer with a stray event between its two messages. *)
Definition answer_polls : list Poll :=
  [Polled (Some (OnMessage true (bytes "{chunk 3 item 5 20}"))); Polled (Some OnOther);
   Polled (Some (OnMessage false
     ([70; 66; 67; 72; 0; 0; 0; 3; 0; 0; 0; 0; 0; 0; 0; 20] ++ cipher)))].

Lemma request_chunk_sound_witness :
  zlen cipher = 20 ∧
  ∃ used rest frames data, answer_polls = used ++ rest ∧
    omap text_message used = [data] ∧
    control_text data = Ok (Chunk 3 "item" 5 20) ∧
    Forall2 (λ data f, parse_webrtc_frame data = Ok f) (omap binary_message used) frames ∧
    in_order 3 0 frames ∧ cipher = concat (payload <$> frames).
Proof.
  apply (request_chunk_sound 3 "item" 5 20 answer_polls
    [SendText "{request 3 item 5}"; SendText "{ack 3}"]). reflexivity.
Defined.
End Example_channel.
