(* ===== verification/Control.v ===== *)
(** * Job control (crates/transfer-native/src/control.rs)

    The shared memory budget, the progress record and the prompts of a job.
    A method that locks a mutex is one atomic step; [MemoryBudget::reserve]
    waits on a condition variable, so it is one step per turn of its loop. *)

From Stdlib Require Import String.
From S2P Require Import Prelude Str.
Open Scope Z_scope.

(** ** Memory budget *)

Record MemoryState := { limit : Z; used : Z }.

Definition memory_new (limit : Z) : MemoryState := {| limit := limit; used := 0 |}.

(** The errors the callers tell apart. *)
Inductive MemoryError := MemoryExhausted | Cancelled.

#[export] Instance MemoryError_eq_dec : EqDecision MemoryError.
Proof. solve_decision. Defined.

(** What one turn of [reserve]'s loop does: fail, keep waiting, or reserve. *)
Inductive Turn := Failed (e : MemoryError) | Wait | Granted (s : MemoryState).

Definition reserve_turn (bytes : Z) (cancelled : bool) (s : MemoryState) : Turn :=
  if limit s <? bytes then Failed MemoryExhausted
  else if limit s - bytes <? used s then
    if cancelled then Failed Cancelled else Wait
  else Granted {| limit := limit s; used := used s + bytes |}.

Definition try_reserve (bytes : Z) (s : MemoryState) : result MemoryError MemoryState :=
  if (limit s <? bytes) || (limit s - bytes <? used s) then Err MemoryExhausted
  else Ok {| limit := limit s; used := used s + bytes |}.

(** [Drop for MemoryPermit] *)
Definition release (bytes : Z) (s : MemoryState) : MemoryState :=
  {| limit := limit s; used := used s - bytes |}.

Lemma reserve_turn_Granted bytes c s s' :
  reserve_turn bytes c s = Granted s' →
  limit s' = limit s ∧ used s' = used s + bytes ∧ used s' ≤ limit s'.
Proof.
  unfold reserve_turn. repeat case_match; intros; simplify_eq; bool_prop. simpl. lia.
Qed.

(** A turn only waits when others hold what it lacks. *)
Lemma reserve_turn_Wait bytes c s : reserve_turn bytes c s = Wait → 0 < used s ∨ bytes < 0.
Proof. unfold reserve_turn. repeat case_match; intros; simplify_eq; bool_prop; lia. Qed.

Lemma try_reserve_Ok bytes s s' :
  try_reserve bytes s = Ok s' ↔
  reserve_turn bytes false s = Granted s'.
Proof.
  unfold try_reserve, reserve_turn. destruct (limit s <? bytes); simpl; [done|].
  destruct (limit s - bytes <? used s); simpl; split; intros; by simplify_eq.
Qed.

(** ** Progress *)

Inductive Phase :=
| Connecting | Preparing | Archiving | Encrypting | Sending | Receiving | Verifying
| Finalizing | Waiting | Unlocking | Updating | Retrying | Reconnecting | Storing.

#[export] Instance Phase_eq_dec : EqDecision Phase.
Proof. solve_decision. Defined.

Definition label (p : Phase) : string :=
  match p with
  | Connecting => "Connecting"
  | Preparing => "Preparing"
  | Archiving => "Creating ZIP archive"
  | Encrypting => "Encrypting"
  | Sending => "Uploading"
  | Receiving => "Downloading"
  | Verifying => "Verifying integrity"
  | Finalizing => "Creating your encrypted link"
  | Waiting => "Waiting for the sender"
  | Unlocking => "Unlocking your transfer"
  | Updating => "Verifying signed release"
  | Retrying => "Retrying transfer"
  | Reconnecting => "Reconnecting"
  | Storing => "Saving encrypted transfer state"
  end.

Record Progress := {
  phase : Phase;
  generation : Z;
  name : string;
  index : Z;
  files : Z;
  total : option Z;
  done_bytes : Z;
  committed : Z;
  item_total : Z;
  item_done : Z;
  wire_bytes : Z }.

Definition progress_default : Progress :=
  {| phase := Connecting; generation := 0; name := ""; index := 0; files := 0; total := None;
     done_bytes := 0; committed := 0; item_total := 0; item_done := 0; wire_bytes := 0 |}.

(** [Control::check] *)
Definition check (cancelled : bool) : result MemoryError () :=
  if cancelled then Err Cancelled else Ok ().

Definition set_phase (cancelled : bool) (p : Phase) (s : Progress) : result MemoryError Progress :=
  _ ← check cancelled;
  Ok (if bool_decide (phase s ≠ p) then
        {| phase := p; generation := saturating_add (generation s) 1; name := name s;
           index := index s; files := files s; total := total s; done_bytes := done_bytes s;
           committed := committed s; item_total := item_total s; item_done := item_done s;
           wire_bytes := wire_bytes s |}
      else s).

Definition totals (bytes n : Z) (s : Progress) : Progress :=
  {| phase := phase s; generation := generation s; name := name s; index := index s; files := n;
     total := Some bytes; done_bytes := done_bytes s; committed := committed s;
     item_total := item_total s; item_done := item_done s; wire_bytes := wire_bytes s |}.

Definition item (n : string) (i size : Z) (s : Progress) : Progress :=
  {| phase := phase s; generation := generation s; name := n; index := i; files := files s;
     total := total s; done_bytes := done_bytes s; committed := committed s;
     item_total := size; item_done := 0; wire_bytes := wire_bytes s |}.

Definition advance (d i wire : Z) (s : Progress) : Progress :=
  {| phase := phase s; generation := generation s; name := name s; index := index s;
     files := files s; total := total s; done_bytes := Z.min d (default d (total s));
     committed := committed s; item_total := item_total s; item_done := Z.min i (item_total s);
     wire_bytes := saturating_add (wire_bytes s) wire |}.

Definition commit (bytes : Z) (s : Progress) : Progress :=
  {| phase := phase s; generation := generation s; name := name s; index := index s;
     files := files s; total := total s; done_bytes := done_bytes s; committed := bytes;
     item_total := item_total s; item_done := item_done s; wire_bytes := wire_bytes s |}.

(** ** Prompts *)

(** One turn of [ask]'s loop: the cancellation flag it reads, then what the
    reply channel yields within 100 ms. *)
Inductive Reply := Value (s : string) | TimedOut | Disconnected.

Inductive AskError := AskCancelled | AskClosed | AskSend.

(** [None] while the loop is still waiting for its next turn. *)
Fixpoint ask_loop (turns : list (bool * Reply)) : option (result AskError string) :=
  match turns with
  | [] => None
  | (cancelled, reply) :: turns =>
      if cancelled then Some (Err AskCancelled)
      else match reply with
      | Value v => Some (Ok v)
      | TimedOut => ask_loop turns
      | Disconnected => Some (Err AskClosed)
      end
  end.

Definition ask (prompts_open : bool) (turns : list (bool * Reply))
    : option (result AskError string) :=
  if prompts_open then ask_loop turns else Some (Err AskSend).

(** The reply test of [request_peer_consent]. *)
Definition consents (reply : string) : bool :=
  bool_decide (to_ascii_lowercase (trim reply) ∈ ["allow"; "yes"]).

(** Exposing the local address to a peer needs an answered, accepting prompt. *)
Definition request_peer_consent (prompts_open : bool) (turns : list (bool * Reply))
    : option (result string ()) :=
  match ask prompts_open turns with
  | None => None
  | Some (Err AskCancelled) => Some (Err "Transfer cancelled")
  | Some (Err AskClosed) => Some (Err "Secret input was closed")
  | Some (Err AskSend) => Some (Err "sending on a closed channel")
  | Some (Ok consent) =>
      Some (if consents consent then Ok () else Err "peer address exposure was not accepted")
  end.
