(* ===== verification/Scheduler.v ===== *)
(** * The job scheduler (crates/client-core/src/scheduler.rs)

    Worker slots, the accounting of reserved memory, the ids of running
    resumes, and the shared memory pool.  [admit] takes several locks in turn,
    so jobs interleave between them: a job is a thread with a phase, and a step
    of the system is one critical section of one thread. *)

From S2P Require Import Prelude Control.

Definition RUNTIME_ALLOWANCE_BYTES : Z := 4 * 1024 * 1024.
Definition TRANSIENT_MEMORY_ALLOWANCE_BYTES : Z := 64 * 1024 * 1024.

Record SchedulerLimits := { limit_workers : Z; limit_memory : Z }.

Record State := {
  workers : Z;
  used_workers : Z;
  memory_bytes : Z;
  used_memory_bytes : Z;
  active_resumes : gset string }.

(** The scheduler: its state and the pool behind [memory]. *)
Record Scheduler := { state : State; memory : MemoryState }.

Inductive JobError :=
| BadLimits
| BudgetOverflow
| BudgetExhausted (requested : Z)
| StillRunning (id : string)
| ServiceExhausted
| JobCancelled.

Definition bad_limits (l : SchedulerLimits) : bool :=
  (limit_workers l =? 0) || (limit_memory l <? RUNTIME_ALLOWANCE_BYTES).

Definition new (l : SchedulerLimits) : result JobError Scheduler :=
  reject bad_limits l with BadLimits;
  Ok {| state := {| workers := limit_workers l; used_workers := 0;
                    memory_bytes := limit_memory l; used_memory_bytes := 0;
                    active_resumes := ∅ |};
        memory := memory_new (limit_memory l) |}.

Definition reconfigure_limits (l : SchedulerLimits) (s : Scheduler)
    : result JobError (bool * Scheduler) :=
  reject bad_limits l with BadLimits;
  let restart_required :=
    (workers (state s) <? limit_workers l) || (memory_bytes (state s) <? limit_memory l) in
  Ok (restart_required,
      if restart_required then s
      else {| state := {| workers := limit_workers l; used_workers := used_workers (state s);
                          memory_bytes := limit_memory l;
                          used_memory_bytes := used_memory_bytes (state s);
                          active_resumes := active_resumes (state s) |};
              memory := memory s |}).

(** ** Threads *)

Inductive Phase :=
| Calling (budget : Z) (resume_id : option string)   (** before the first lock *)
| Queued (requested : Z) (resume_id : option string) (** waiting on the condition variable *)
| Reserved (requested : Z) (resume_id : option string) (** slot taken, waiting for the pool *)
| Holding (requested : Z) (resume_id : option string) (** pool memory held, before the last lock *)
| Running (requested : Z) (resume_id : option string)
| Failing (requested : Z) (e : JobError)            (** the pool refused, slot not yet returned *)
| Dropping (requested : Z) (r : result JobError ()) (** slot returned, pool permit not yet *)
| Service (bytes : Z)                                (** a service call's permit *)
| Done (r : result JobError ()).

(** Accounting updates. *)
Definition take (requested : Z) (s : State) : State :=
  {| workers := workers s; used_workers := used_workers s + 1; memory_bytes := memory_bytes s;
     used_memory_bytes := used_memory_bytes s + requested; active_resumes := active_resumes s |}.
Definition give_back (requested : Z) (s : State) : State :=
  {| workers := workers s; used_workers := used_workers s - 1; memory_bytes := memory_bytes s;
     used_memory_bytes := used_memory_bytes s - requested; active_resumes := active_resumes s |}.
Definition set_resumes (r : gset string) (s : State) : State :=
  {| workers := workers s; used_workers := used_workers s; memory_bytes := memory_bytes s;
     used_memory_bytes := used_memory_bytes s; active_resumes := r |}.
Definition with_state (f : State → State) (s : Scheduler) : Scheduler :=
  {| state := f (state s); memory := memory s |}.

Definition is_active (resume_id : option string) (s : State) : bool :=
  match resume_id with Some id => bool_decide (id ∈ active_resumes s) | None => false end.

(** One turn of [admit]'s waiting loop, with the lock held. *)
Definition queue_turn (requested : Z) (resume_id : option string) (cancelled : bool)
    (s : Scheduler) : Phase * Scheduler :=
  if (workers (state s) <=? used_workers (state s))
     || (memory_bytes (state s) <? saturating_add (used_memory_bytes (state s)) requested)
  then if cancelled then (Done (Err JobCancelled), s) else (Queued requested resume_id, s)
  else if cancelled then (Done (Err JobCancelled), s)
  else (Reserved requested resume_id, with_state (take requested) s).

(** One critical section of a thread; [cancelled] is what it reads from the
    job's flag.  The tests before the loop run in the same section as its first
    turn.  What a running job itself draws from the shared pool and gives back is
    in the configurations as service reservations by other threads. *)
Definition thread_step (cancelled : bool) (p : Phase) (s : Scheduler) : Phase * Scheduler :=
  match p with
  | Calling budget resume_id =>
      match checked_add budget RUNTIME_ALLOWANCE_BYTES with
      | None => (Done (Err BudgetOverflow), s)
      | Some requested =>
          if memory_bytes (state s) <? requested
          then (Done (Err (BudgetExhausted requested)), s)
          else if is_active resume_id (state s)
          then (Done (Err (StillRunning (default "" resume_id))), s)
          else queue_turn requested resume_id cancelled s
      end
  | Queued requested resume_id => queue_turn requested resume_id cancelled s
  | Reserved requested resume_id =>
      match reserve_turn requested cancelled (memory s) with
      | Granted m => (Holding requested resume_id, {| state := state s; memory := m |})
      | Wait => (p, s)
      | Failed e =>
          (Failing requested match e with
             | MemoryExhausted => BudgetExhausted requested
             | Cancelled => JobCancelled
             end, s)
      end
  | Failing requested e => (Done (Err e), with_state (give_back requested) s)
  | Holding requested resume_id =>
      if is_active resume_id (state s)
      then (Dropping requested (Err (StillRunning (default "" resume_id))),
            with_state (give_back requested) s)
      else (Running requested resume_id,
            with_state (λ st, set_resumes
              (match resume_id with
               | Some id => {[id]} ∪ active_resumes st
               | None => active_resumes st
               end) st) s)
  | Running requested resume_id =>
      (Dropping requested (Ok ()),
       with_state (λ st, set_resumes
         (match resume_id with
          | Some id => active_resumes st ∖ {[id]}
          | None => active_resumes st
          end) (give_back requested st)) s)
  | Dropping requested r =>
      (Done r, {| state := state s; memory := release requested (memory s) |})
  | Service bytes =>
      (Done (Ok ()), {| state := state s; memory := release bytes (memory s) |})
  | Done r => (p, s)
  end.

Definition try_reserve_service_memory (bytes : Z) (s : Scheduler) : Phase * Scheduler :=
  match try_reserve bytes (memory s) with
  | Ok m => (Service bytes, {| state := state s; memory := m |})
  | Err _ => (Done (Err ServiceExhausted), s)
  end.

(** ** The system *)

Record Config := { sched : Scheduler; threads : list Phase }.

Inductive step : Config → Config → Prop :=
| step_spawn c budget resume_id :
    is_u64 budget →
    step c {| sched := sched c; threads := threads c ++ [Calling budget resume_id] |}
| step_service c bytes p s :
    is_u64 bytes → try_reserve_service_memory bytes (sched c) = (p, s) →
    step c {| sched := s; threads := threads c ++ [p] |}
| step_reconfigure c l r s :
    0 ≤ limit_workers l → reconfigure_limits l (sched c) = Ok (r, s) →
    step c {| sched := s; threads := threads c |}
| step_thread c i p cancelled p' s :
    threads c !! i = Some p → thread_step cancelled p (sched c) = (p', s) →
    step c {| sched := s; threads := <[i := p']> (threads c) |}.

Inductive reachable (l : SchedulerLimits) : Config → Prop :=
| reach_new s : new l = Ok s → reachable l {| sched := s; threads := [] |}
| reach_step c c' : reachable l c → step c c' → reachable l c'.

(** ** What a thread holds *)

(** Worker slots and accounted memory. *)
Definition slots (p : Phase) : Z :=
  match p with
  | Reserved _ _ | Holding _ _ | Running _ _ | Failing _ _ => 1
  | _ => 0
  end.
Definition accounted (p : Phase) : Z :=
  match p with
  | Reserved b _ | Holding b _ | Running b _ | Failing b _ => b
  | _ => 0
  end.
(** Memory of the pool. *)
Definition pooled (p : Phase) : Z :=
  match p with
  | Holding b _ | Running b _ | Dropping b _ | Service b => b
  | _ => 0
  end.
(** The resume a thread runs. *)
Definition runs (p : Phase) : list string :=
  match p with Running _ (Some id) => [id] | _ => [] end.

Definition phase_wf (p : Phase) : Prop :=
  match p with
  | Calling b _ | Service b => 0 ≤ b
  | Queued b _ | Reserved b _ | Holding b _ | Running b _ | Failing b _ | Dropping b _ =>
      RUNTIME_ALLOWANCE_BYTES ≤ b
  | Done _ => True
  end.

Definition inv (l : SchedulerLimits) (c : Config) : Prop :=
  let st := state (sched c) in
  let m := memory (sched c) in
  used_workers st = sum_Z (slots <$> threads c) ∧
  used_memory_bytes st = sum_Z (accounted <$> threads c) ∧
  used m = sum_Z (pooled <$> threads c) ∧
  0 < workers st ≤ limit_workers l ∧
  RUNTIME_ALLOWANCE_BYTES ≤ memory_bytes st ≤ limit_memory l ∧
  limit m = limit_memory l ∧
  used_workers st ≤ limit_workers l ∧
  used_memory_bytes st ≤ limit_memory l ∧
  used m ≤ limit m ∧
  NoDup (threads c ≫= runs) ∧
  active_resumes st = list_to_set (threads c ≫= runs) ∧
  Forall phase_wf (threads c).

(** Sums over the threads after one of them changes phase. *)
Lemma sum_Z_insert {A} (f : A → Z) (l : list A) i x y :
  l !! i = Some x → sum_Z (f <$> <[i := y]> l) = sum_Z (f <$> l) - f x + f y.
Proof.
  revert i. induction l as [|a l IH]; intros [|i] Hi; simplify_eq/=; [lia|].
  unfold sum_Z in *. rewrite (IH i Hi). lia.
Qed.

Lemma sum_Z_lookup_le {A} (f : A → Z) (l : list A) i x :
  Forall (λ a, 0 ≤ f a) l → l !! i = Some x → f x ≤ sum_Z (f <$> l).
Proof.
  intros Hl. revert i. induction Hl as [|a l Ha Hl IH]; intros [|i] Hi; simplify_eq/=.
  - pose proof (sum_Z_nonneg (f <$> l) ltac:(by apply Forall_fmap)). unfold sum_Z in *. lia.
  - specialize (IH i Hi). unfold sum_Z in *. lia.
Qed.

Lemma runs_insert (l : list Phase) i p p' :
  l !! i = Some p → <[i := p']> l ≫= runs ≡ₚ runs p' ++ (delete i l ≫= runs).
Proof.
  intros Hi. pose proof (lookup_lt_Some _ _ _ Hi) as Hlt.
  rewrite insert_take_drop, delete_take_drop by done.
  rewrite !bind_app, bind_cons. solve_Permutation.
Qed.

Lemma runs_delete (l : list Phase) i p :
  l !! i = Some p → l ≫= runs ≡ₚ runs p ++ (delete i l ≫= runs).
Proof. intros Hi. rewrite <- (list_insert_id l i p Hi) at 1. by apply (runs_insert l i p p). Qed.

(** ** The invariant is preserved *)

(** The threads' phases enter the invariant only through these sums. *)
Record change (p p' : Phase) (s s' : Scheduler) : Prop := {
  ch_workers : used_workers (state s') = used_workers (state s) - slots p + slots p';
  ch_accounted : used_memory_bytes (state s') = used_memory_bytes (state s) - accounted p + accounted p';
  ch_pool : used (memory s') = used (memory s) - pooled p + pooled p';
  ch_limits : workers (state s') = workers (state s) ∧ memory_bytes (state s') = memory_bytes (state s)
    ∧ limit (memory s') = limit (memory s);
  ch_max_workers : used_workers (state s') ≤ Z.max (used_workers (state s)) (workers (state s));
  ch_max_memory : used_memory_bytes (state s') ≤ Z.max (used_memory_bytes (state s)) (memory_bytes (state s));
  ch_max_pool : used (memory s') ≤ Z.max (used (memory s)) (limit (memory s));
  ch_wf : phase_wf p';
  ch_resumes : (runs p' = runs p ∧ active_resumes (state s') = active_resumes (state s)) ∨
    (∃ id, runs p = [] ∧ runs p' = [id] ∧ id ∉ active_resumes (state s) ∧
       active_resumes (state s') = {[id]} ∪ active_resumes (state s)) ∨
    (∃ id, runs p = [id] ∧ runs p' = [] ∧
       active_resumes (state s') = active_resumes (state s) ∖ {[id]}) }.

Ltac sched_simpl :=
  cbn [sched threads thread_step phase_wf slots accounted pooled runs state memory with_state take give_back
    set_resumes workers used_workers memory_bytes used_memory_bytes active_resumes used limit
    release] in *.

Lemma runtime_allowance_pos b : RUNTIME_ALLOWANCE_BYTES ≤ b → 0 ≤ b.
Proof. unfold RUNTIME_ALLOWANCE_BYTES. lia. Qed.

(** Changes that leave the running resumes alone. *)
Lemma change_plain p p' s s' :
  used_workers (state s') = used_workers (state s) - slots p + slots p' →
  used_memory_bytes (state s') = used_memory_bytes (state s) - accounted p + accounted p' →
  used (memory s') = used (memory s) - pooled p + pooled p' →
  workers (state s') = workers (state s) → memory_bytes (state s') = memory_bytes (state s) →
  limit (memory s') = limit (memory s) →
  used_workers (state s') ≤ Z.max (used_workers (state s)) (workers (state s)) →
  used_memory_bytes (state s') ≤ Z.max (used_memory_bytes (state s)) (memory_bytes (state s)) →
  used (memory s') ≤ Z.max (used (memory s)) (limit (memory s)) →
  phase_wf p' → runs p' = runs p → active_resumes (state s') = active_resumes (state s) →
  change p p' s s'.
Proof. intros. by split; auto. Qed.

Lemma queue_turn_change requested rid cancelled s p' s' p :
  memory_bytes (state s) < u64_max → RUNTIME_ALLOWANCE_BYTES ≤ requested →
  slots p = 0 → accounted p = 0 → pooled p = 0 → runs p = [] →
  queue_turn requested rid cancelled s = (p', s') → change p p' s s'.
Proof.
  intros Hmax Hreq H1 H2 H3 H4. unfold queue_turn.
  pose proof (runtime_allowance_pos _ Hreq).
  destruct (_ || _) eqn:E; [|destruct cancelled]; [destruct cancelled|..]; intros Heq;
    injection Heq as <- <-; apply change_plain; sched_simpl; try lia; try done.
  bool_prop. unfold saturating_add in *. lia.
Qed.

Lemma thread_step_change cancelled p s p' s' :
  memory_bytes (state s) < u64_max → phase_wf p →
  0 ≤ slots p ≤ used_workers (state s) → 0 ≤ accounted p ≤ used_memory_bytes (state s) →
  0 ≤ pooled p ≤ used (memory s) →
  thread_step cancelled p s = (p', s') → change p p' s s'.
Proof.
  intros Hmax Hwf Hs Ha Hp. destruct p as [b rid|b rid|b rid|b rid|b rid|b e|b r|b|r]; sched_simpl.
  - destruct (checked_add b _) as [requested|] eqn:Ec; [|intros [= <- <-]; split; sched_simpl; try lia; auto].
    apply checked_add_Some in Ec as [-> _].
    destruct (_ <? _); [intros [= <- <-]; split; sched_simpl; try lia; auto|].
    destruct (is_active _ _); [intros [= <- <-]; split; sched_simpl; try lia; auto|].
    apply queue_turn_change; try done. lia.
  - by apply queue_turn_change.
  - destruct (reserve_turn _ _ _) as [e| |m] eqn:Er; intros [= <- <-].
    + split; sched_simpl; try lia; auto.
    + split; sched_simpl; try lia; auto.
    + apply reserve_turn_Granted in Er as (? & ? & ?). split; sched_simpl; try lia; auto.
  - destruct (is_active rid (state s)) eqn:Eact; intros [= <- <-].
    + split; sched_simpl; try lia; auto.
    + split; sched_simpl; try lia; auto. destruct rid as [id|]; [|by left].
      cbn in Eact. bool_prop. right; left. by exists id.
  - intros [= <- <-]. split; sched_simpl; try lia; auto. destruct rid as [id|]; [|by left].
    right; right. by exists id.
  - intros [= <- <-]. split; sched_simpl; try lia; auto.
  - intros [= <- <-]. split; sched_simpl; try lia; auto.
  - intros [= <- <-]. split; sched_simpl; try lia; auto.
  - intros [= <- <-]. split; sched_simpl; try lia; auto.
Qed.

Lemma phase_wf_nonneg p : phase_wf p → 0 ≤ slots p ∧ 0 ≤ accounted p ∧ 0 ≤ pooled p.
Proof. destruct p; sched_simpl; intros H; try apply runtime_allowance_pos in H; lia. Qed.

(** One thread changing phase preserves the invariant. *)
Lemma inv_change l c i p p' s :
  inv l c → threads c !! i = Some p → change p p' (sched c) s →
  inv l {| sched := s; threads := <[i := p']> (threads c) |}.
Proof.
  intros (Hw & Hm & Hp & Hlw & Hlm & Hl & Hmw & Hmm & Hmp & Hn & Ha & Hwf) Hi [].
  destruct ch_limits0 as (Ew & Em & El). unfold inv. cbn [sched threads].
  rewrite !(sum_Z_insert _ _ _ _ _ Hi), Ew, Em, El. split_and!; try lia.
  - rewrite (runs_insert _ _ _ _ Hi). rewrite (runs_delete _ _ _ Hi) in Hn.
    apply NoDup_app in Hn as (Hn1 & Hn2 & Hn3).
    destruct ch_resumes0 as [(Er & _)|[(id & Er & Er' & Hid & _)|(id & Er & Er' & _)]].
    + rewrite Er. by apply NoDup_app.
    + rewrite Er'. apply NoDup_app. split_and!; [apply NoDup_singleton| |done].
      intros x ->%list_elem_of_singleton Hx. apply Hid. rewrite Ha, elem_of_list_to_set.
      rewrite (runs_delete _ _ _ Hi). set_solver.
    + by rewrite Er'.
  - rewrite (list_to_set_perm_L _ _ (runs_insert _ _ _ p' Hi)).
    rewrite (list_to_set_perm_L _ _ (runs_delete _ _ _ Hi)) in Ha.
    rewrite (runs_delete _ _ _ Hi) in Hn. apply NoDup_app in Hn as (Hn1 & Hn2 & _).
    destruct ch_resumes0 as [(Er & ->)|[(id & Er & Er' & Hid & ->)|(id & Er & Er' & ->)]].
    + by rewrite Er.
    + rewrite Ha, Er, Er'. set_solver.
    + rewrite Ha, Er, Er' in *. rewrite !list_to_set_app_L. set_solver.
  - by apply Forall_insert.
Qed.

Lemma inv_append l c p s :
  inv l c → slots p = 0 → accounted p = 0 → runs p = [] → phase_wf p →
  state s = state (sched c) → limit (memory s) = limit (memory (sched c)) →
  used (memory s) = used (memory (sched c)) + pooled p → used (memory s) ≤ limit (memory s) →
  inv l {| sched := s; threads := threads c ++ [p] |}.
Proof.
  intros (Hw & Hm & Hp & Hlw & Hlm & Hl & Hmw & Hmm & Hmp & Hn & Ha & Hwf) H1 H2 H3 H4 Es E1 E2 E3.
  unfold inv. cbn [sched threads]. rewrite Es, !fmap_app, !sum_Z_app, bind_app.
  cbn [fmap list_fmap sum_Z foldr mbind list_bind]. rewrite H1, H2, H3, E1, E2, !app_nil_r.
  split_and!; try done; try lia. apply Forall_app. by repeat constructor.
Qed.

Lemma step_inv l c c' : limit_memory l < u64_max → inv l c → step c c' → inv l c'.
Proof.
  intros Hmax Hinv Hstep. pose proof Hinv as
    (Hw & Hm & Hp & Hlw & Hlm & Hl & Hmw & Hmm & Hmp & Hn & Ha & Hwf).
  destruct Hstep as [c b rid Hb|c b p s Hb Ht|c lim r s Hlim Hr|c i p cancelled p' s Hi Ht].
  - apply inv_append; sched_simpl; try done; try lia. by destruct Hb.
  - unfold try_reserve_service_memory in Ht.
    destruct (try_reserve b (memory (sched c))) as [m|] eqn:Er; injection Ht as <- <-.
    + apply try_reserve_Ok, reserve_turn_Granted in Er as (? & ? & ?).
      apply inv_append; sched_simpl; try done; try lia. by destruct Hb.
    + apply inv_append; sched_simpl; try done; lia.
  - unfold reconfigure_limits in Hr. guards Hr. simplify_eq.
    unfold bad_limits in *. bool_prop. destruct (_ || _) eqn:E; [by destruct c|]. bool_prop.
    unfold inv. sched_simpl. split_and!; try done; try lia.
  - eapply inv_change; [done..|]. rewrite Forall_forall in Hwf.
    assert (Hpw : phase_wf p) by (apply Hwf; by eapply list_elem_of_lookup_2).
    assert (Hf : Forall (λ a, 0 ≤ slots a ∧ 0 ≤ accounted a ∧ 0 ≤ pooled a) (threads c))
      by (apply Forall_forall; intros a Hin; by apply phase_wf_nonneg, Hwf).
    destruct (phase_wf_nonneg p Hpw) as (? & ? & ?).
    eapply thread_step_change; [lia|done|..|done];
      (split; [done|]; rewrite ?Hw, ?Hm, ?Hp; eapply sum_Z_lookup_le; [|done];
       eapply Forall_impl; [exact Hf|]; naive_solver).
Qed.

Lemma reachable_inv l c :
  0 ≤ limit_workers l → limit_memory l < u64_max → reachable l c → inv l c.
Proof.
  intros Hlw Hmax. induction 1 as [s Hn|c c' _ IH Hstep]; [|by eapply step_inv].
  unfold new in Hn. guards Hn. simplify_eq. unfold bad_limits in *. bool_prop.
  unfold inv, memory_new. sched_simpl. cbn.
  pose proof (runtime_allowance_pos _ ltac:(eassumption)).
  split_and!; try done; try lia; constructor.
Qed.

(** C29: however jobs, service calls and lowered limits interleave, between any
    two critical sections: the worker slots and the memory in use are exactly
    what the running jobs hold and never exceed the configured limits, the
    pool is never overdrawn, and no saved transfer runs twice; so once every
    job is done or not yet admitted, everything has been returned. *)
Theorem scheduler_safety l c :
  0 ≤ limit_workers l → limit_memory l < u64_max → reachable l c →
  let st := state (sched c) in
  let m := memory (sched c) in
  used_workers st = sum_Z (slots <$> threads c) ∧ used_workers st ≤ limit_workers l ∧
  used m = sum_Z (pooled <$> threads c) ∧ used m ≤ limit_memory l ∧
  NoDup (threads c ≫= runs) ∧ active_resumes st = list_to_set (threads c ≫= runs) ∧
  (Forall (λ p, match p with Done _ | Calling _ _ | Queued _ _ => True | _ => False end)
     (threads c) →
   used_workers st = 0 ∧ used_memory_bytes st = 0 ∧ used m = 0 ∧ active_resumes st = ∅).
Proof.
  intros Hlw Hmax Hr. destruct (reachable_inv l c Hlw Hmax Hr)
    as (Hw & Hm & Hp & _ & _ & Hl & Hmw & _ & Hmp & Hn & Ha & _).
  cbn zeta. split_and!; try done; [lia|]. intros Hidle. rewrite Hw, Hm, Hp, Ha. clear -Hidle.
  induction Hidle as [|p t Hp _ (IH1 & IH2 & IH3 & IH4)]; [done|].
  rewrite !fmap_cons, bind_cons, list_to_set_app_L, IH4.
  cbn [sum_Z foldr]. unfold sum_Z in *. rewrite IH1, IH2, IH3. by destruct p.
Qed.

(** ** A resource is always released

    A waiting job is only ever held up by jobs that hold resources. *)

Lemma sum_Z_pos_exists {A} (f : A → Z) (l : list A) : 0 < sum_Z (f <$> l) → ∃ a, a ∈ l ∧ 0 < f a.
Proof.
  induction l as [|a l IH]; [done|]. intros Hs. rewrite fmap_cons in Hs.
  destruct (Z.lt_ge_cases 0 (f a)); [exists a; split; [by left|done]|].
  destruct IH as (b & ? & ?); [unfold sum_Z in *; cbn in Hs; lia|]. exists b. split; [by right|done].
Qed.

(** No job waits for nothing. Whenever a queued job cannot be admitted,
    or an accepted one cannot draw its memory from the pool, some other thread
    holds a slot or memory that its own next steps give back; a cancelled job
    never keeps waiting. *)
Theorem scheduler_progress l c i p cancelled p' s :
  0 ≤ limit_workers l → limit_memory l < u64_max → reachable l c →
  threads c !! i = Some p → thread_step cancelled p (sched c) = (p', s) →
  (∃ b rid, p = Queued b rid ∧ p' = p ∧ b ≤ memory_bytes (state (sched c))) ∨
  (∃ b rid, p = Reserved b rid ∧ p' = p) →
  cancelled = false ∧ ∃ j q, j ≠ i ∧ threads c !! j = Some q ∧ (0 < slots q ∨ 0 < pooled q).
Proof.
  intros Hlw Hmax Hr Hi Ht Hcase. destruct (reachable_inv l c Hlw Hmax Hr)
    as (Hw & Hm & Hp & Hlw' & Hlm & Hl & Hmw & Hmm & Hmp & _ & _ & Hwf).
  assert (Hlen : ∀ q, q ∈ threads c → q ≠ p → ∃ j, j ≠ i ∧ threads c !! j = Some q).
  { intros q Hq Hne. apply list_elem_of_lookup_1 in Hq as [j Hj]. exists j. split; [|done].
    intros ->. congruence. }
  rewrite Forall_forall in Hwf.
  destruct Hcase as [(b & rid & -> & -> & Hb)|(b & rid & -> & ->)]; sched_simpl.
  - unfold queue_turn in Ht. destruct (_ || _) eqn:E; [|by destruct cancelled].
    destruct cancelled; [done|]. split; [done|]. bool_prop.
    assert (Hpos : 0 < sum_Z (slots <$> threads c) ∨ 0 < sum_Z (accounted <$> threads c)).
    { destruct E as [E|E]; bool_prop; [left; lia|right]. unfold saturating_add in E. lia. }
    destruct Hpos as [Hpos|Hpos]; apply sum_Z_pos_exists in Hpos as (q & Hq & Hpos);
      (destruct (Hlen q Hq) as (j & ? & ?); [intros ->; done|]; exists j, q;
       split_and!; try done; left; by destruct q).
  - unfold reserve_turn in Ht. repeat case_match; simplify_eq. bool_prop. split; [done|].
    assert (Hpos : 0 < sum_Z (pooled <$> threads c)) by lia.
    apply sum_Z_pos_exists in Hpos as (q & Hq & Hpos).
    destruct (Hlen q Hq) as (j & ? & ?); [intros ->; done|]. exists j, q. by auto.
Qed.

(** The test against the total budget is only made before the first wait: a
    job that was queued when the limit is lowered below its request keeps
    waiting, whatever the others release, until it is cancelled. *)
Lemma queued_above_limit_waits requested resume_id s :
  memory_bytes (state s) < requested → 0 ≤ used_memory_bytes (state s) → requested ≤ u64_max →
  thread_step false (Queued requested resume_id) s = (Queued requested resume_id, s).
Proof.
  intros Hm Hu Hr. cbn [thread_step]. unfold queue_turn.
  rewrite (proj2 (Z.ltb_lt _ (saturating_add _ _))) by (unfold saturating_add; lia).
  by rewrite orb_true_r.
Qed.

(** ** A concrete run: two jobs on one worker *)

Module Example_run.
Definition limits : SchedulerLimits := {| limit_workers := 1; limit_memory := 10000000 |}.

Definition pool (n : Z) (r : gset string) (m : Z) : Scheduler :=
  {| state := {| workers := 1; used_workers := n; memory_bytes := 10000000;
                 used_memory_bytes := n * 4195304; active_resumes := r |};
     memory := {| limit := 10000000; used := m |} |}.

Definition busy : Config :=
  {| sched := pool 1 ∅ 4195304; threads := [Holding 4195304 (Some "a"); Queued 4195304 None] |}.

Definition idle : Config := {| sched := pool 0 ∅ 0; threads := [] |}.
Definition called : Config := {| sched := pool 0 ∅ 0; threads := [Calling 1000 (Some "a")] |}.
Definition reserved : Config := {| sched := pool 1 ∅ 0; threads := [Reserved 4195304 (Some "a")] |}.
Definition second : Config :=
  {| sched := pool 1 ∅ 0; threads := [Reserved 4195304 (Some "a"); Calling 1000 None] |}.
Definition queued : Config :=
  {| sched := pool 1 ∅ 0; threads := [Reserved 4195304 (Some "a"); Queued 4195304 None] |}.

Lemma busy_reachable : reachable limits busy.
Proof.
  assert (H0 : reachable limits idle) by (exact (reach_new limits (pool 0 ∅ 0) eq_refl)).
  assert (Hb : is_u64 1000) by (vm_compute; split; discriminate).
  assert (H1 : reachable limits called)
    by exact (reach_step _ _ _ H0 (step_spawn idle 1000 (Some "a") Hb)).
  assert (H2 : reachable limits reserved)
    by exact (reach_step _ _ _ H1 (step_thread called 0 _ false (Reserved 4195304 (Some "a")) (pool 1 ∅ 0) eq_refl eq_refl)).
  assert (H3 : reachable limits second)
    by exact (reach_step _ _ _ H2 (step_spawn reserved 1000 None Hb)).
  assert (H4 : reachable limits queued)
    by exact (reach_step _ _ _ H3 (step_thread second 1 _ false (Queued 4195304 None) (pool 1 ∅ 0) eq_refl eq_refl)).
  exact (reach_step _ _ _ H4 (step_thread queued 0 _ false (Holding 4195304 (Some "a"))
    (pool 1 ∅ 4195304) eq_refl eq_refl)).
Qed.

Lemma scheduler_safety_witness :
  let st := state (sched busy) in
  let m := memory (sched busy) in
  used_workers st = sum_Z (slots <$> threads busy) ∧ used_workers st ≤ limit_workers limits ∧
  used m = sum_Z (pooled <$> threads busy) ∧ used m ≤ limit_memory limits ∧
  NoDup (threads busy ≫= runs) ∧ active_resumes st = list_to_set (threads busy ≫= runs) ∧
  (Forall (λ p, match p with Done _ | Calling _ _ | Queued _ _ => True | _ => False end)
     (threads busy) →
   used_workers st = 0 ∧ used_memory_bytes st = 0 ∧ used m = 0 ∧ active_resumes st = ∅).
Proof. apply scheduler_safety; [vm_compute; discriminate|reflexivity|apply busy_reachable]. Defined.

Lemma scheduler_progress_witness :
  false = false ∧ ∃ j q, j ≠ 1%nat ∧ threads busy !! j = Some q ∧ (0 < slots q ∨ 0 < pooled q).
Proof.
  apply (scheduler_progress limits busy 1 (Queued 4195304 None) false (Queued 4195304 None)
    (sched busy)); [vm_compute; discriminate|reflexivity|apply busy_reachable|reflexivity|reflexivity|].
  left. exists 4195304, None. split; [reflexivity|]. split; [reflexivity|vm_compute; discriminate].
Defined.
End Example_run.
