(* ===== verification/Retry.v ===== *)
(** * Retrying idempotent operations (crates/transfer-native/src/runtime.rs)

    [retry] races every operation and every backoff with cancellation.  What
    the outside decides (the operation's results, when the token is cancelled)
    is an argument; the loop's own decisions (how often it calls, which delay
    it sleeps, what it returns) are computed. *)

From S2P Require Import Prelude Transport.

Inductive RetryClass :=
| Network
| Http (status : Z) (retry_after_ms : option Z).

(** What the awaits of one attempt meet: the token cancelled before the
    operation starts, while it runs, or during the backoff. *)
Record Interrupts := { before : bool; during : bool; sleeping : bool }.

Section retry.
Context {T E : Type}.
(** The operation's result at each attempt, and the awaits' interruptions. *)
Context (operation : Z → result E T) (interrupts : Z → Interrupts).
(** The caller's classification, and its cancellation error. *)
Context (retryable : E → option RetryClass) (cancelled : E).
Context (staging : bool).

(** The calls made, the delays slept (in order), and the outcome. *)
Record Run := { calls : list Z; delays : list Z; outcome : result E T }.

Definition finish (calls : list Z) (r : result E T) : Run :=
  {| calls := calls; delays := []; outcome := r |}.

(** The delay the policy allows after an error, if it allows a retry. *)
Definition allowed_delay (attempt : Z) (error : E) : option Z :=
  class ← retryable error;
  let '(allowed, retry_after) :=
    match class with
    | Network => (true, None)
    | Http status retry_after_ms => (retryable_status status staging, retry_after_ms)
    end in
  if allowed then Some (retry_delay_ms attempt retry_after 0) else None.

(** The [for attempt in 0..attempts] loop, [remaining] attempts before its end. *)
Fixpoint retry_from (remaining : nat) (attempt : Z) : Run :=
  match remaining with
  | O => finish [] (Err cancelled) (** [unreachable!()]: see [retry_reaches_a_result] *)
  | S remaining =>
      let i := interrupts attempt in
      if before i then finish [] (Err cancelled)
      else if during i then finish [attempt] (Err cancelled)
      else match operation attempt with
      | Ok value => finish [attempt] (Ok value)
      | Err error =>
          match remaining with
          | O => finish [attempt] (Err error)
          | S _ =>
              match allowed_delay attempt error with
              | None => finish [attempt] (Err error)
              | Some delay =>
                  if sleeping i then
                    {| calls := [attempt]; delays := [delay]; outcome := Err cancelled |}
                  else
                    let r := retry_from remaining (attempt + 1) in
                    {| calls := attempt :: calls r; delays := delay :: delays r;
                       outcome := outcome r |}
              end
          end
      end
  end.

(** [assert!(attempts > 0)] panics on zero. *)
Definition retry (attempts : nat) : option Run :=
  match attempts with O => None | S _ => Some (retry_from attempts 0) end.

(** ** Properties *)

(** The errors the loop retried: all calls but the last. *)
Definition retried (attempt : Z) (delay : Z) : Prop :=
  ∃ error, operation attempt = Err error ∧ allowed_delay attempt error = Some delay.

Lemma retry_from_spec remaining attempt :
  (0 < remaining)%nat →
  let r := retry_from remaining attempt in
  (length (calls r) ≤ remaining)%nat ∧
  calls r = seqZ attempt (Z.of_nat (length (calls r))) ∧
  (length (delays r) ≤ length (calls r) ≤ S (length (delays r)))%nat ∧
  Forall2 retried (take (length (delays r)) (calls r)) (delays r) ∧
  (outcome r = Err cancelled ∨
   ∃ last, list.last (calls r) = Some last ∧ outcome r = operation last ∧
     ∀ error, operation last = Err error →
       last = attempt + Z.of_nat remaining - 1 ∨ allowed_delay last error = None).
Proof.
  revert attempt. induction remaining as [|remaining IH]; intros attempt Hl; [lia|]. clear Hl.
  cbn [retry_from].
  destruct (before (interrupts attempt)).
  { cbn. split_and!; try done; try lia; by constructor. }
  destruct (during (interrupts attempt)).
  { cbn. split_and!; try done; try lia; by constructor. }
  destruct (operation attempt) as [value|error] eqn:Eop.
  { cbn. split_and!; try done; try lia; try (by constructor).
    right. exists attempt. split_and!; try done. intros e He. congruence. }
  destruct remaining as [|remaining].
  { cbn. split_and!; try done; try lia; try (by constructor).
    right. exists attempt. split_and!; try done. intros e He. left. lia. }
  destruct (allowed_delay attempt error) as [delay|] eqn:Ed.
  2: { cbn. split_and!; try done; try lia; try (by constructor).
    right. exists attempt. split_and!; try done. intros e He. right. congruence. }
  destruct (sleeping (interrupts attempt)).
  { cbn. split_and!; try done; try lia; [|by left]. repeat constructor. by exists error. }
  destruct (IH (attempt + 1) ltac:(lia)) as (H1 & H2 & H3 & H4 & H5). cbv zeta.
  set (r := retry_from (S remaining) (attempt + 1)) in *. cbn [calls delays outcome length take].
  split_and!; try lia.
  - rewrite Nat2Z.inj_succ, seqZ_cons by lia. f_equal. rewrite H2 at 1. f_equal; lia.
  - constructor; [by exists error|done].
  - destruct H5 as [H5|(l & Hlast & Ho & He)]; [by left|right]. exists l.
    split_and!; [|done|].
    + destruct (calls r) as [|c cs]; [done|]. by rewrite last_cons_cons.
    + intros e Hop. destruct (He e Hop) as [->|]; [left; lia|by right].
Qed.

(** A retried operation runs at most [attempts] times, at consecutive
    attempt numbers; before each further call it slept the shared policy's
    delay, at most a minute, for an error its caller classified as retryable;
    and the loop always ends with the result of its last call, which is final
    (a success, an error that may not be retried, or the last attempt's),
    or with the cancellation. *)
Theorem retry_policy attempts :
  (0 < attempts)%nat →
  ∃ r, retry attempts = Some r ∧
  (length (calls r) ≤ attempts)%nat ∧
  calls r = seqZ 0 (Z.of_nat (length (calls r))) ∧
  (length (calls r) ≤ S (length (delays r)))%nat ∧
  Forall2 (λ attempt delay, retried attempt delay ∧ delay ≤ MAX_RETRY_DELAY_MS)
    (take (length (delays r)) (calls r)) (delays r) ∧
  (outcome r = Err cancelled ∨
   ∃ last, list.last (calls r) = Some last ∧ outcome r = operation last ∧
     ∀ error, operation last = Err error →
       last = Z.of_nat attempts - 1 ∨ allowed_delay last error = None).
Proof.
  intros Ha. exists (retry_from attempts 0). split; [by destruct attempts; [lia|]|].
  destruct (retry_from_spec attempts 0 Ha) as (H1 & H2 & H3 & H4 & H5).
  split_and!; try done; try lia.
  eapply Forall2_impl; [exact H4|]. intros a d Hr. split; [done|].
  destruct Hr as (e & _ & Hd). unfold allowed_delay in Hd.
  destruct (retryable e) as [[|status after]|]; cbn in Hd; [..|done];
    [|destruct (retryable_status status staging); [|done]]; injection Hd as <-;
    unfold retry_delay_ms; cbv zeta; try case_match; lia.
Qed.
End retry.

(** ** A run that succeeds at the third attempt *)

Definition flaky (attempt : Z) : result string Z :=
  if attempt <? 2 then Err "busy" else Ok 7.
Definition quiet (attempt : Z) : Interrupts :=
  {| before := false; during := false; sleeping := false |}.

Example flaky_run :
  retry flaky quiet (λ _, Some (Http 503 None)) "cancelled" false 5
  = Some {| calls := [0; 1; 2]; delays := [250; 500]; outcome := Ok 7 |}.
Proof. reflexivity. Qed.

Lemma retry_policy_witness :
  let classify := λ _ : string, Some (Http 503 None) in
  ∃ r, retry flaky quiet classify "cancelled" false 5 = Some r ∧
  (length (calls r) ≤ 5)%nat ∧
  calls r = seqZ 0 (Z.of_nat (length (calls r))) ∧
  (length (calls r) ≤ S (length (delays r)))%nat ∧
  Forall2 (λ attempt delay, retried flaky classify false attempt delay ∧ delay ≤ MAX_RETRY_DELAY_MS)
    (take (length (delays r)) (calls r)) (delays r) ∧
  (outcome r = Err "cancelled" ∨
   ∃ last, list.last (calls r) = Some last ∧ outcome r = flaky last ∧
     ∀ error, flaky last = Err error →
       last = Z.of_nat 5 - 1 ∨ allowed_delay classify false last error = None).
Proof. apply (retry_policy flaky quiet (λ _ : string, Some (Http 503 None)) "cancelled" false 5). lia. Defined.
