(* ===== verification/Ice.v ===== *)
(** * ICE servers of a transfer (crates/transfer-native/src/ice.rs)

    Merging the server's ICE servers with configured ones, whose TURN
    credentials a host resolver supplies. *)

From Stdlib Require Import Ascii String.
From S2P Require Import Prelude Str.
Open Scope Z_scope.

Inductive IceSource := Server | Merge | Replace.

Record ConfiguredIceServer := { url : string; credential_ref : option string }.
Record IceCredential := { cred_username : string; cred_password : string }.
Record IceServer := {
  urls : list string;
  username : option string;
  credential : option string }.

(** The host's [IceCredentialResolver], when there is one. *)
Definition Resolver : Type := string → result string IceCredential.

Record IceOverride := {
  source : IceSource;
  servers : list ConfiguredIceServer;
  resolver : option Resolver }.

Definition ice_schemes : list string := ["stun"; "stuns"; "turn"; "turns"].
Definition turn_schemes : list string := ["turn"; "turns"].

Fixpoint take_while {A} (p : A → bool) (l : list A) : list A :=
  match l with
  | [] => []
  | a :: l => if p a then a :: take_while p l else []
  end.

(** The first piece of [authority.trim_start_matches('/').split(['/', '?', ':'])]. *)
Definition host_of (authority : string) : list Z :=
  take_while (λ c, negb ((c =? ch "/") || (c =? ch "?") || (c =? ch ":")))
    (chars (trim_start_matches (λ c, c =? ch "/") authority)).

(** One turn of the loop over the configured servers. *)
Definition resolve_one (resolver : option Resolver) (configured : ConfiguredIceServer)
    : result string IceServer :=
  '(scheme, authority) ← ok_or (split_once ":" (url configured)) "configured ICE URL is invalid";
  let scheme := to_ascii_lowercase scheme in
  reject negb (bool_decide (scheme ∈ ice_schemes)) || bool_decide (host_of authority = [])
    with "configured ICE URL must use stun, stuns, turn, or turns with a host";
  let is_turn := bool_decide (scheme ∈ turn_schemes) in
  credential ←
    match credential_ref configured with
    | Some reference =>
        reject is_empty (trim reference) with "configured ICE credential_ref must not be empty";
        resolve ← ok_or resolver
          "configured ICE credential_ref requires a host credential resolver";
        Some <$> resolve reference
    | None =>
        if is_turn then Err "configured TURN ICE server requires credential_ref" else Ok None
    end;
  Ok {| urls := [url configured]; username := cred_username <$> credential;
        credential := cred_password <$> credential |}.

Definition resolve (policy : IceOverride) (server_servers : list IceServer)
    : result string (list IceServer) :=
  match source policy with
  | Server => Ok server_servers
  | _ =>
      let base := match source policy with Merge => server_servers | _ => [] end in
      try_fold (λ acc configured, s ← resolve_one (resolver policy) configured; Ok (acc ++ [s]))
        base (servers policy)
  end.

(** [Control::resolve_ice_servers] *)
Definition resolve_ice_servers (ice_override : option IceOverride)
    (server_servers : list IceServer) : result string (list IceServer) :=
  match ice_override with
  | Some policy => resolve policy server_servers
  | None => Ok server_servers
  end.

(** ** Properties *)

(** What a resolved server carries: its URL with a known scheme and a host, and
    both halves of a credential exactly when one was configured; a TURN server
    always has one. *)
Definition resolved (resolver : option Resolver) (c : ConfiguredIceServer) (s : IceServer) : Prop :=
  urls s = [url c] ∧
  (∃ scheme authority, url c = scheme +:+ ":" +:+ authority ∧
     to_ascii_lowercase scheme ∈ ice_schemes ∧ host_of authority ≠ [] ∧
     (to_ascii_lowercase scheme ∈ turn_schemes → is_Some (credential_ref c))) ∧
  match credential_ref c with
  | Some reference => ∃ resolve cred, resolver = Some resolve ∧ resolve reference = Ok cred ∧
      username s = Some (cred_username cred) ∧ credential s = Some (cred_password cred)
  | None => username s = None ∧ credential s = None
  end.

Lemma resolve_one_Ok r c s : resolve_one r c = Ok s → resolved r c s.
Proof.
  unfold resolve_one. destruct (split_once ":" (url c)) as [[scheme authority]|] eqn:Es; [|done].
  apply split_once_Some in Es. unfold mbind, result_bind, ok_or. intros H. guards H. bool_prop.
  unfold resolved. destruct (credential_ref c) as [reference|].
  - destruct (is_empty _); [done|]. destruct r as [resolve|]; [|done].
    destruct (resolve reference) as [cred|] eqn:Er; [|done]. cbn in H. simplify_eq.
    split_and!; [done| |by exists resolve, cred].
    exists scheme, authority. by split_and!.
  - case_bool_decide; [done|]. cbn in H. simplify_eq. split_and!; try done.
    exists scheme, authority. by split_and!.
Qed.

(** The policy decides exactly which servers a transfer uses. Without an
    override, or with the server policy, they are the server's, unchanged;
    merging keeps the server's first and appends the configured ones in order,
    replacing keeps only the configured ones; and every configured server that
    is used has a STUN or TURN URL with a host, a credential exactly when one
    is configured, and always one for TURN. *)
Theorem ice_resolution policy server_servers result :
  resolve_ice_servers policy server_servers = Ok result →
  match policy with
  | None => result = server_servers
  | Some p =>
      match source p with
      | Server => result = server_servers
      | Merge => ∃ own, result = server_servers ++ own ∧ Forall2 (resolved (resolver p)) (servers p) own
      | Replace => Forall2 (resolved (resolver p)) (servers p) result
      end
  end.
Proof.
  destruct policy as [p|]; [|by intros [= ->]]. cbn. unfold resolve.
  assert (Hf : ∀ base r,
    try_fold (λ acc c, s ← resolve_one (resolver p) c; Ok (acc ++ [s])) base (servers p) = Ok r →
    ∃ own, r = base ++ own ∧ Forall2 (resolved (resolver p)) (servers p) own).
  { intros base r H. revert H. apply (try_fold_ind (λ l r, ∃ own, r = base ++ own ∧
      Forall2 (resolved (resolver p)) l own)).
    - exists []. by rewrite app_nil_r.
    - intros l c r1 r2 _ (own & -> & Hl) Hc. unfold mbind, result_bind in Hc.
      destruct (resolve_one _ c) as [s|] eqn:E; [|done]. simplify_eq.
      exists (own ++ [s]). rewrite app_assoc. split; [done|].
      apply Forall2_app; [done|]. constructor; [by apply resolve_one_Ok|constructor]. }
  destruct (source p) eqn:Es; intros H; [by simplify_eq|by apply Hf in H|].
  apply Hf in H as (own & -> & Hl). done.
Qed.

Lemma ice_resolution_witness :
  let relay := {| url := "TURN:relay.example:3478"; credential_ref := Some "ref" |} in
  let p := {| source := Merge; servers := [relay];
              resolver := Some (λ _, Ok {| cred_username := "u"; cred_password := "p" |}) |} in
  let stun := {| urls := ["stun:a"]; username := None; credential := None |} in
  let own := [{| urls := ["TURN:relay.example:3478"]; username := Some "u"; credential := Some "p" |}] in
  ∃ own', stun :: own = [stun] ++ own' ∧ Forall2 (resolved (resolver p)) (servers p) own'.
Proof.
  intros relay p stun own. apply (ice_resolution (Some p) [stun] (stun :: own)). reflexivity.
Defined.
