(* ===== verification/Http.v ===== *)
(** * Bounded HTTP reads (crates/transfer-native/src/http.rs)

    Reading a bounded body, fetching one byte range, and checking the headers
    that describe it.  A server is a function from a request to what comes
    back: a response, whose body arrives in pieces and ends in some way, or a
    failure of the exchange. *)

From Stdlib Require Import Ascii String.
From S2P Require Import Prelude Str Frame Transport.
Open Scope Z_scope.

(** ** Numbers in headers *)

(** [format!("{n}")] of a [u64], and [str::parse::<u64>]: at least one digit
    after an optional plus sign, and no overflow. *)
Fixpoint decimal_bytes (fuel : nat) (n : Z) (acc : list Z) : list Z :=
  let acc := 48 + n mod 10 :: acc in
  match fuel with
  | O => acc
  | S fuel => if n <? 10 then acc else decimal_bytes fuel (n / 10) acc
  end.

Definition decimal (n : Z) : string := of_bytes (decimal_bytes 20 n []).

Fixpoint parse_digits (acc : Z) (l : list Z) : option Z :=
  match l with
  | [] => Some acc
  | b :: l =>
      if is_ascii_digit b then
        let acc := acc * 10 + (b - 48) in
        if acc <=? u64_max then parse_digits acc l else None
      else None
  end.

Definition parse_u64 (s : string) : option Z :=
  let l := bytes s in
  let digits := match l with b :: l' => if b =? ch "+" then l' else l | [] => l end in
  match digits with [] => None | _ => parse_digits 0 digits end.

(** ** Headers *)

(** Names in lower case, as [HeaderMap] compares them; the first value wins. *)
Definition HeaderMap : Type := list (string * string).

Fixpoint header_get (name : string) (h : HeaderMap) : option string :=
  match h with
  | [] => None
  | (n, v) :: h => if (n =? name)%string then Some v else header_get name h
  end.

(** [HeaderValue::to_str]: visible ASCII and tabs only. *)
Definition to_str (v : string) : option string :=
  if forallb (λ b, (32 <=? b) && (b <? 127) || (b =? 9)) (bytes v) then Some v else None.

Definition validate_content_length (value : option string) (expected : Z) : result string () :=
  match value with
  | Some value =>
      reject is_empty value || negb (forallb is_ascii_digit (bytes value))
        with "invalid chunk Content-Length";
      length ← ok_or (parse_u64 value) "invalid chunk Content-Length";
      reject negb (length =? expected) with "chunk Content-Length mismatch";
      Ok ()
  | None => Ok ()
  end.

Definition header (headers : HeaderMap) (name : string) : result string string :=
  value ← ok_or (header_get name headers) "range response is missing a required header";
  ok_or (to_str value) "range response contains an invalid header".

Definition validate_content_range (value : string) (start end_ total_expected : Z)
    : result string () :=
  value ← ok_or (strip_prefix "bytes " value) "invalid Content-Range unit";
  '(range, total) ← ok_or (split_once "/" value) "invalid Content-Range";
  '(actual_start, actual_end) ← ok_or (split_once "-" range) "invalid Content-Range";
  actual_start ← ok_or (parse_u64 actual_start) "invalid Content-Range start";
  actual_end ← ok_or (parse_u64 actual_end) "invalid Content-Range end";
  total ← ok_or (parse_u64 total) "invalid Content-Range total";
  reject negb (actual_start =? start) || negb (actual_end =? end_) || negb (total =? total_expected)
    with "Content-Range does not match request";
  Ok ().

(** ** Exchanges *)

(** How a body ends: with the last piece, a transport error, an idle timeout,
    or the caller's cancellation. *)
Inductive Ending := Eof | Broken | Idle | Cancel.

Record Response := {
  status : Z;
  headers : HeaderMap;
  pieces : list (list Z);
  ending : Ending }.

Definition body (r : Response) : list Z := concat (pieces r).

(** [tokio::select!] over cancellation, the headers timeout and the request. *)
Inductive Sent := SendCancelled | SendTimeout | SendFailed | Received (r : Response).

(** The headers of a request; the URL is fixed by the caller. *)
Definition Server : Type := HeaderMap → Sent.

Fixpoint read_pieces (maximum : Z) (acc : list Z) (pieces : list (list Z)) (e : Ending)
    : result string (list Z) :=
  match pieces with
  | [] =>
      match e with
      | Eof => Ok acc
      | Broken => Err "error decoding response body"
      | Idle => Err "HTTP response body became idle"
      | Cancel => Err "transfer cancelled"
      end
  | chunk :: pieces =>
      reject maximum <? saturating_add (zlen acc) (zlen chunk)
        with "HTTP response body exceeds its limit";
      read_pieces maximum (acc ++ chunk) pieces e
  end.

(** [content_length] is the length hyper announces for the body. *)
Definition read_limited (content_length : option Z) (r : Response) (maximum_bytes : Z)
    : result string (list Z) :=
  reject match content_length with Some length => maximum_bytes <? length | None => false end
    with "HTTP response body exceeds its limit";
  read_pieces maximum_bytes [] (pieces r) (ending r).

Record RangeRequest := {
  start : Z;
  end_ : Z;
  ciphertext_total : Z;
  expected_etag : string }.

Fixpoint read_range (expected : Z) (acc : list Z) (pieces : list (list Z)) (e : Ending)
    : result string (list Z) :=
  match pieces with
  | [] =>
      match e with
      | Eof =>
          reject negb (zlen acc =? expected) with "range response is truncated";
          Ok acc
      | Broken => Err "error decoding response body"
      | Idle => Err "range body became idle"
      | Cancel => Err "transfer cancelled"
      end
  | chunk :: pieces =>
      reject expected - zlen acc <? zlen chunk
        with "range response exceeds expected ciphertext length";
      read_range expected (acc ++ chunk) pieces e
  end.

Definition range_value (start end_ : Z) : string :=
  "bytes=" +:+ decimal start +:+ "-" +:+ decimal end_.

Definition get_range (server : Server) (request : RangeRequest) : result string (list Z) :=
  reject (ciphertext_total request =? 0) || (MAX_CIPHERTEXT_BYTES <? ciphertext_total request)
         || (end_ request <? start request) || (ciphertext_total request <=? end_ request)
    with "invalid byte range";
  expected ← ok_or (n ← checked_sub (end_ request) (start request); checked_add n 1)
    "range is too large";
  response ←
    match server [("range", range_value (start request) (end_ request));
                  ("if-range", expected_etag request)] with
    | SendCancelled => Err "transfer cancelled"
    | SendTimeout => Err "range response headers timed out"
    | SendFailed => Err "error sending request"
    | Received r => Ok r
    end;
  reject negb (status response =? 206) with "range request returned another status";
  etag ← header (headers response) "etag";
  reject negb (etag =? expected_etag request)%string with "range ETag changed";
  accept ← header (headers response) "accept-ranges";
  reject negb (to_ascii_lowercase accept =? "bytes")%string
    with "server did not confirm byte ranges";
  range ← header (headers response) "content-range";
  _ ← validate_content_range range (start request) (end_ request) (ciphertext_total request);
  length ← match header_get "content-length" (headers response) with
    | Some v => Some <$> ok_or (to_str v) "failed to convert header to a str"
    | None => Ok None
    end;
  _ ← validate_content_length length expected;
  read_range expected [] (pieces response) (ending response).

(** ** Decimal numbers *)

Lemma parse_digits_app a l k :
  Forall (λ b, is_ascii_digit b = true) l →
  parse_digits a (l ++ k) = match parse_digits a l with Some b => parse_digits b k | None => None end.
Proof.
  intros Hl. revert a. induction Hl as [|b l Hb _ IH]; intros a; [done|].
  cbn [parse_digits app]. rewrite Hb. case_match; [apply IH|done].
Qed.

Lemma digit_byte n : is_ascii_digit (48 + n mod 10) = true.
Proof.
  unfold is_ascii_digit. pose proof (Z.mod_pos_bound n 10). apply andb_true_iff.
  split; apply Z.leb_le; lia.
Qed.

Lemma decimal_bytes_app fuel n acc : decimal_bytes fuel n acc = decimal_bytes fuel n [] ++ acc.
Proof.
  revert n acc. induction fuel as [|fuel IH]; intros n acc; cbn [decimal_bytes]; [done|].
  destruct (n <? 10); [done|]. rewrite IH, (IH _ [_]), <- app_assoc. done.
Qed.

Lemma decimal_bytes_spec fuel n :
  0 ≤ n ≤ u64_max → n < 10 ^ (Z.of_nat fuel + 1) →
  Forall (λ b, is_ascii_digit b = true) (decimal_bytes fuel n []) ∧
  decimal_bytes fuel n [] ≠ [] ∧ parse_digits 0 (decimal_bytes fuel n []) = Some n.
Proof.
  revert n. induction fuel as [|fuel IH]; intros n Hn Hf; cbn [decimal_bytes].
  - change (10 ^ (Z.of_nat 0 + 1)) with 10 in Hf. rewrite Z.mod_small by lia.
    pose proof (digit_byte n) as Hd. rewrite Z.mod_small in Hd by lia.
    split_and!; [by constructor|done|]. cbn [parse_digits]. rewrite Hd.
    replace (0 * 10 + (48 + n - 48)) with n by lia. by rewrite (proj2 (Z.leb_le _ _)) by lia.
  - destruct (n <? 10) eqn:E10; bool_prop.
    + rewrite Z.mod_small by lia. pose proof (digit_byte n) as Hd. rewrite Z.mod_small in Hd by lia.
      split_and!; [by constructor|done|]. cbn [parse_digits]. rewrite Hd.
      replace (0 * 10 + (48 + n - 48)) with n by lia. by rewrite (proj2 (Z.leb_le _ _)) by lia.
    + pose proof (Z.div_mod n 10). pose proof (Z.mod_pos_bound n 10).
      destruct (IH (n / 10)) as (Hd & _ & Hp); [lia| |].
      { apply Z.div_lt_upper_bound; [lia|]. rewrite <- Z.pow_succ_r by lia.
        replace (Z.succ (Z.of_nat fuel + 1)) with (Z.of_nat (S fuel) + 1) by lia. done. }
      rewrite decimal_bytes_app. split_and!.
      * apply Forall_app. split; [done|]. constructor; [apply digit_byte|constructor].
      * destruct (decimal_bytes fuel (n / 10) []); done.
      * rewrite parse_digits_app, Hp by done. cbn [parse_digits]. rewrite digit_byte.
        replace (n / 10 * 10 + (48 + n mod 10 - 48)) with n by lia.
        by rewrite (proj2 (Z.leb_le _ _)) by lia.
Qed.

Lemma bytes_decimal n : is_u64 n → bytes (decimal n) = decimal_bytes 20 n [].
Proof.
  intros Hn. destruct (decimal_bytes_spec 20 n) as (Hd & _); [exact Hn|unfold is_u64, u64_max in *; lia|].
  apply bytes_of_bytes. eapply Forall_impl; [exact Hd|]. unfold is_ascii_digit. cbn.
  intros b Hb. bool_prop. unfold is_u8, u8_max. lia.
Qed.

Lemma parse_decimal n : is_u64 n → parse_u64 (decimal n) = Some n.
Proof.
  intros Hn. unfold parse_u64. rewrite bytes_decimal by done.
  destruct (decimal_bytes_spec 20 n) as (Hd & Hne & Hp); [exact Hn|unfold is_u64, u64_max in *; lia|].
  destruct (decimal_bytes 20 n []) as [|b l]; [done|].
  assert (Hb : (b =? ch "+") = false).
  { inversion Hd as [|?? Hb']; subst. unfold is_ascii_digit in Hb'. bool_prop.
    apply Z.eqb_neq. change (ch "+") with 43. lia. }
  by rewrite Hb.
Qed.

(** ** Ranges *)

Lemma read_range_Ok expected acc pieces e b :
  read_range expected acc pieces e = Ok b → b = acc ++ concat pieces ∧ zlen b = expected.
Proof.
  revert acc. induction pieces as [|chunk pieces IH]; intros acc Hr; cbn [read_range] in Hr.
  - destruct e; try done. guards Hr. bool_prop. injection Hr as <-. by rewrite app_nil_r.
  - guards Hr. apply IH in Hr as [-> Hl]. by rewrite <- app_assoc in Hl |- *.
Qed.

Lemma read_range_complete expected acc pieces :
  zlen (acc ++ concat pieces) = expected →
  read_range expected acc pieces Eof = Ok (acc ++ concat pieces).
Proof.
  revert acc. induction pieces as [|chunk pieces IH]; intros acc Hl; cbn [read_range concat].
  - rewrite app_nil_r in *. by rewrite (proj2 (Z.eqb_eq _ _)).
  - cbn [concat] in Hl. rewrite (proj2 (Z.ltb_ge _ _)).
    + rewrite IH; [by rewrite <- app_assoc|]. by rewrite <- app_assoc.
    + rewrite <- Hl. unfold zlen. rewrite !length_app. lia.
Qed.

(** What [start..=end_] of an entity is. *)
Definition slice (entity : list Z) (start end_ : Z) : list Z :=
  take (Z.to_nat (end_ - start + 1)) (drop (Z.to_nat start) entity).

(** A server of one entity under one strong validator: a partial response that
    carries the validator and a Content-Range holds bytes of that range, as
    far as the body gets. *)
Definition honest (entity : list Z) (tag : string) (server : Server) : Prop :=
  ∀ q r cr s e t, server q = Received r → status r = 206 →
    header_get "etag" (headers r) = Some tag →
    header_get "content-range" (headers r) = Some cr → validate_content_range cr s e t = Ok () →
    body r `prefix_of` slice entity s e.

Lemma header_Ok h n v : header h n = Ok v → header_get n h = Some v.
Proof.
  unfold header, mbind, result_bind. destruct (header_get n h) as [w|]; [|done]. cbn.
  unfold to_str. destruct (forallb _ _); [|done]. by intros [= ->].
Qed.

Lemma get_range_Ok server q b :
  get_range server q = Ok b →
  start q ≤ end_ q < ciphertext_total q ∧ ciphertext_total q ≤ MAX_CIPHERTEXT_BYTES ∧ zlen b = end_ q - start q + 1 ∧
  ∃ h r cr, server h = Received r ∧ status r = 206 ∧
    header_get "etag" (headers r) = Some (expected_etag q) ∧
    header_get "content-range" (headers r) = Some cr ∧
    validate_content_range cr (start q) (end_ q) (ciphertext_total q) = Ok () ∧ b = body r.
Proof.
  unfold get_range, mbind, result_bind. intros Hr. guards Hr. bool_prop.
  destruct (option_bind _ _ _ _) as [expected|] eqn:He; [|done]. cbn [ok_or] in Hr.
  destruct (server _) as [| | |r] eqn:Es; try done. guards Hr. bool_prop.
  destruct (header (headers r) "etag") as [etag|] eqn:Et; [|done]. guards Hr. bool_prop. subst etag.
  destruct (header (headers r) "accept-ranges") as [accept|] eqn:Ea; [|done]. guards Hr.
  destruct (header (headers r) "content-range") as [cr|] eqn:Ec; [|done].
  destruct (validate_content_range _ _ _ _) as [[]|] eqn:Ev; [|done].
  destruct (match header_get "content-length" _ with Some _ => _ | None => _ end) as [cl|]; [|done].
  destruct (validate_content_length cl expected) as [[]|]; [|done].
  apply read_range_Ok in Hr as [-> Hl]. apply header_Ok in Et, Ec.
  apply bind_Some in He as (n & Hn & He). apply checked_add_Some in He as [-> _].
  unfold checked_sub in Hn. case_match; [|done]. injection Hn as <-.
  split_and!; [lia..|]. eexists _, r, cr. by split_and!.
Qed.

(** ** Content-Range *)

Definition content_range (start end_ total : Z) : string :=
  "bytes " +:+ decimal start +:+ "-" +:+ decimal end_ +:+ "/" +:+ decimal total.

Lemma decimal_digits n : is_u64 n → Forall (λ b, is_ascii_digit b = true) (bytes (decimal n)).
Proof.
  intros Hn. rewrite bytes_decimal by done.
  by destruct (decimal_bytes_spec 20 n) as (Hd & _); [|unfold is_u64, u64_max in *; lia|].
Qed.

Lemma decimal_no_char c n : is_u64 n → is_ascii_digit (byte_of c) = false → no_char c (decimal n).
Proof. intros Hn Hc. apply (no_char_bytes c _ is_ascii_digit); [by apply decimal_digits|done]. Qed.

(** Two decimals joined by a dash, as in artifact names, are read back apart. *)
Lemma decimal_pair_inj m n m' n' :
  is_u64 m → is_u64 n → is_u64 m' → is_u64 n' →
  decimal m +:+ "-" +:+ decimal n = decimal m' +:+ "-" +:+ decimal n' → m = m' ∧ n = n'.
Proof.
  intros Hm Hn Hm' Hn' Heq.
  assert (Hs : ∀ x y, is_u64 x →
    split_once "-" (decimal x +:+ "-" +:+ decimal y) = Some (decimal x, decimal y)).
  { intros x y Hx. change ("-" +:+ decimal y) with (String "-" (decimal y)).
    apply split_once_char. by apply decimal_no_char. }
  apply (f_equal (split_once "-")) in Heq. rewrite !Hs in Heq by done. injection Heq as Ha Hb.
  apply (f_equal parse_u64) in Ha, Hb. rewrite !parse_decimal in Ha, Hb by done.
  by injection Ha as ->; injection Hb as ->.
Qed.

Lemma no_char_app c a b : no_char c a → no_char c b → no_char c (a +:+ b).
Proof.
  intros Ha Hb. induction a as [|x a IH]; [done|]. apply no_char_String in Ha as [Hx Ha].
  change (String x a +:+ b) with (String x (a +:+ b)). apply no_char_String. split; [done|by apply IH].
Qed.

Lemma append_assoc_s (a b c : string) : (a +:+ b) +:+ c = a +:+ (b +:+ c).
Proof. induction a as [|x a IH]; [done|]. cbn. change (String x ((a +:+ b) +:+ c) = String x (a +:+ (b +:+ c))). by rewrite IH. Qed.

Lemma validate_own_content_range s e t :
  is_u64 s → is_u64 e → is_u64 t → validate_content_range (content_range s e t) s e t = Ok ().
Proof.
  intros Hs He Ht. unfold validate_content_range, content_range, mbind, result_bind.
  rewrite strip_prefix_app. cbn [ok_or].
  assert (Hsplit : decimal s +:+ "-" +:+ decimal e +:+ "/" +:+ decimal t
    = (decimal s +:+ "-" +:+ decimal e) +:+ String "/" (decimal t)).
  { by rewrite !append_assoc_s. }
  rewrite Hsplit, (split_once_char "/").
  2: { apply no_char_app; [by apply decimal_no_char|]. apply (no_char_app _ "-"); [|by apply decimal_no_char].
       apply no_char_String. split; [done|]. unfold no_char. set_solver. }
  cbn [ok_or]. change ("-" +:+ decimal e) with (String "-" (decimal e)).
  rewrite (split_once_char "-") by (by apply decimal_no_char). cbn [ok_or].
  rewrite !parse_decimal by done. cbn [ok_or]. by rewrite !Z.eqb_refl.
Qed.

Lemma to_str_app a b : to_str a = Some a → to_str b = Some b → to_str (a +:+ b) = Some (a +:+ b).
Proof.
  unfold to_str. rewrite bytes_app, forallb_app. destruct (forallb _ (bytes a)); [|done].
  by destruct (forallb _ (bytes b)).
Qed.

Lemma to_str_decimal n : is_u64 n → to_str (decimal n) = Some (decimal n).
Proof.
  intros Hn. unfold to_str. pose proof (decimal_digits n Hn) as Hd.
  assert (forallb (λ b, (32 <=? b) && (b <? 127) || (b =? 9)) (bytes (decimal n)) = true) as ->; [|done].
  induction Hd as [|b l Hb _ IH]; [done|]. cbn [forallb]. rewrite IH, andb_true_r.
  unfold is_ascii_digit in Hb. bool_prop. apply orb_true_iff. left. apply andb_true_iff.
  split; [apply Z.leb_le|apply Z.ltb_lt]; lia.
Qed.

Lemma to_str_content_range s e t :
  is_u64 s → is_u64 e → is_u64 t → to_str (content_range s e t) = Some (content_range s e t).
Proof.
  intros. unfold content_range.
  repeat (apply to_str_app; [first [done|by apply to_str_decimal]|]). by apply to_str_decimal.
Qed.

Lemma validate_own_content_length n : is_u64 n → validate_content_length (Some (decimal n)) n = Ok ().
Proof.
  intros Hn. unfold validate_content_length.
  assert (Hf : forallb is_ascii_digit (bytes (decimal n)) = true).
  { pose proof (decimal_digits n Hn) as Hd. induction Hd as [|b l Hb _ IH]; [done|]. cbn. by rewrite Hb. }
  assert (He : is_empty (decimal n) = false).
  { apply bool_decide_eq_false. intros He. pose proof (bytes_decimal n Hn) as Hb. rewrite He in Hb.
    destruct (decimal_bytes_spec 20 n) as (_ & Hne & _); [done|unfold is_u64, u64_max in *; lia|].
    by destruct Hne. }
  rewrite Hf, He. cbn [orb negb]. rewrite parse_decimal by done. cbn. by rewrite Z.eqb_refl.
Qed.

(** The response of a server that honours the range. *)
Definition partial (tag : string) (s e total : Z) (parts : list (list Z)) : Response :=
  {| status := 206;
     headers := [("etag", tag); ("accept-ranges", "bytes"); ("content-range", content_range s e total);
                 ("content-length", decimal (e - s + 1))];
     pieces := parts; ending := Eof |}.

(** ** Properties *)

(** A fetched range is exact. Against any server that serves one entity
    under the expected validator, whatever it does otherwise, a range that is
    returned is the requested slice of that entity, in full; and the slice,
    however the body is cut into pieces, is returned when the server honours
    the request. *)
Theorem range_fetch_exact server q entity b parts :
  is_u64 (start q) → honest entity (expected_etag q) server →
  (get_range server q = Ok b →
   b = slice entity (start q) (end_ q) ∧ zlen b = end_ q - start q + 1 ∧
   zlen b ≤ MAX_CIPHERTEXT_BYTES) ∧
  (start q ≤ end_ q → end_ q < ciphertext_total q ≤ MAX_CIPHERTEXT_BYTES →
   zlen entity = ciphertext_total q → to_str (expected_etag q) = Some (expected_etag q) →
   concat parts = slice entity (start q) (end_ q) →
   (∀ h, server h = Received (partial (expected_etag q) (start q) (end_ q) (ciphertext_total q) parts)) →
   get_range server q = Ok (slice entity (start q) (end_ q))).
Proof.
  intros [H0 _] Hh. split.
  - intros Hr. apply get_range_Ok in Hr as (Hq & Hmax & Hl & h & r & cr & Hs & H206 & Ht & Hc & Hv & ->).
    pose proof (Hh _ _ _ _ _ _ Hs H206 Ht Hc Hv) as [k Hk]. split_and!; [|done|lia].
    assert (Hlen : (length (slice entity (start q) (end_ q)) ≤ Z.to_nat (end_ q - start q + 1))%nat)
      by (unfold slice; rewrite length_take; lia).
    rewrite Hk, length_app in Hlen. rewrite Hk.
    destruct k; [by rewrite app_nil_r|]. unfold zlen in Hl. cbn in Hlen. lia.
  - intros Hse Hmax Hlen Htag Hparts Hs. unfold MAX_CIPHERTEXT_BYTES in *.
    assert (Hslice : zlen (slice entity (start q) (end_ q)) = end_ q - start q + 1).
    { unfold slice, zlen in *. rewrite length_take, length_drop. lia. }
    unfold get_range.
    rewrite (proj2 (Z.eqb_neq _ _)), !(proj2 (Z.ltb_ge _ _)), (proj2 (Z.leb_gt _ _))
      by (unfold MAX_CIPHERTEXT_BYTES; lia).
    cbn [orb]. unfold checked_sub. rewrite (proj2 (Z.leb_le _ _)) by lia. cbn [mbind option_bind].
    unfold checked_add. rewrite (proj2 (Z.leb_le _ _)) by (unfold u64_max; lia).
    unfold mbind, result_bind. cbn [ok_or]. rewrite Hs.
    cbn [partial status headers pieces ending]. change (206 =? 206) with true. cbn [negb].
    unfold header. cbn [header_get String.eqb Ascii.eqb Bool.eqb ok_or mbind result_bind].
    rewrite Htag. cbn [ok_or]. rewrite String.eqb_refl. cbn [negb].
    change (to_str "bytes") with (Some "bytes"%string). cbn [ok_or].
    change (to_ascii_lowercase "bytes" =? "bytes")%string with true. cbn [negb].
    assert (Hu : ∀ x, 0 ≤ x ≤ 25000000 → is_u64 x) by (unfold is_u64, u64_max; lia).
    rewrite to_str_content_range by (apply Hu; lia).
    cbn [ok_or]. rewrite validate_own_content_range by (apply Hu; lia).
    rewrite to_str_decimal by (apply Hu; lia). cbn [ok_or fmap result_map].
    rewrite validate_own_content_length by (apply Hu; lia).
    rewrite <- Hparts. apply (read_range_complete _ []). cbn [app]. by rewrite Hparts.
Qed.

Definition example_entity : list Z := [10; 11; 12; 13; 14; 15].
Definition example_request : RangeRequest :=
  {| start := 2; end_ := 4; ciphertext_total := 6; expected_etag := "tag" |}.

Lemma example_honest cr s e t :
  Some (content_range 2 4 6) = Some cr → validate_content_range cr s e t = Ok () →
  [12; 13; 14] `prefix_of` slice example_entity s e.
Proof.
  intros [= <-]. change (content_range 2 4 6) with "bytes 2-4/6". unfold validate_content_range.
  change (strip_prefix "bytes " "bytes 2-4/6") with (Some "2-4/6"%string). unfold mbind, result_bind.
  cbn [ok_or]. change (split_once "/" "2-4/6") with (Some ("2-4", "6")%string). cbn [ok_or].
  change (split_once "-" "2-4") with (Some ("2", "4")%string). cbn [ok_or].
  change (parse_u64 "2") with (Some 2). change (parse_u64 "4") with (Some 4).
  change (parse_u64 "6") with (Some 6). cbn [ok_or].
  destruct (2 =? s) eqn:Es, (4 =? e) eqn:Ee; try done. bool_prop. subst. intros _.
  exists []. reflexivity.
Qed.

Lemma range_fetch_exact_witness :
  let server := λ _, Received (partial "tag" 2 4 6 [[12]; [13; 14]]) in
  get_range server example_request = Ok [12; 13; 14].
Proof.
  intros server.
  refine (proj2 (range_fetch_exact server example_request example_entity [] [[12]; [13; 14]] _ _) _ _ _ _ _ _).
  - unfold is_u64. vm_compute. split; discriminate.
  - intros q r cr s e t [= <-] _ _ Hcr Hv. by apply example_honest with cr t.
  - vm_compute. discriminate.
  - vm_compute. split; [reflexivity|discriminate].
  - reflexivity.
  - reflexivity.
  - reflexivity.
  - intros h. reflexivity.
Defined.
