(* ===== verification/Monad.v ===== *)
(** * Stateful, fallible code

    [SE S E A] is the source's [&mut S -> Result<A, E>]: the state after the
    call, whatever it returned, and the result.  [?] is the monadic bind. *)

From S2P Require Import Prelude.

Definition SE (S E A : Type) : Type := S → S * result E A.

#[export] Instance SE_ret S E : MRet (SE S E) := λ A a s, (s, Ok a).
#[export] Instance SE_bind S E : MBind (SE S E) := λ A B f m s,
  match m s with
  | (s, Ok a) => f a s
  | (s, Err e) => (s, Err e)
  end.

Definition fail {S E A} (e : E) : SE S E A := λ s, (s, Err e).
Definition of_result {S E A} (r : result E A) : SE S E A := λ s, (s, r).
Definition get {S E A} (f : S → A) : SE S E A := λ s, (s, Ok (f s)).
Definition modify {S E} (f : S → S) : SE S E () := λ s, (f s, Ok ()).

(** A [match] on the result of a call, and [map_err]. *)
Definition attempt {S E E' A} (m : SE S E A) : SE S E' (result E A) :=
  λ s, let '(s, r) := m s in (s, Ok r).
Definition map_err {S E E' A} (f : E → E') (m : SE S E A) : SE S E' A :=
  λ s, let '(s, r) := m s in (s, match r with Ok a => Ok a | Err e => Err (f e) end).

Section runs.
Context {S : Type}.

(** Runs through a computation call by call: [m ≫= f] is [m] failing, or [m]
    returning a value [f] goes on with. *)
Lemma bind_run {E A B} (m : SE S E A) (f : A → SE S E B) s s' r :
  (m ≫= f) s = (s', r) →
  (∃ e, m s = (s', Err e) ∧ r = Err e) ∨ (∃ s1 a, m s = (s1, Ok a) ∧ f a s1 = (s', r)).
Proof.
  unfold mbind, SE_bind. destruct (m s) as [s1 [a|e]] eqn:E1; intros Hr.
  - right. by exists s1, a.
  - left. simplify_eq. by exists e.
Qed.

Lemma bind_run_Ok {E A B} (m : SE S E A) (f : A → SE S E B) s s' b :
  (m ≫= f) s = (s', Ok b) → ∃ s1 a, m s = (s1, Ok a) ∧ f a s1 = (s', Ok b).
Proof. intros [(e & _ & [=])|H]%bind_run; done. Qed.

Lemma attempt_run {E E' A} (m : SE S E A) s s' (r : result E' (result E A)) :
  attempt m s = (s', r) → ∃ x, m s = (s', x) ∧ r = Ok x.
Proof. unfold attempt. destruct (m s) as [s1 x] eqn:E1. intros [= <- <-]. by exists x. Qed.

Lemma map_err_run {E E' A} (f : E → E') (m : SE S E A) s s' r :
  map_err f m s = (s', r) →
  (∃ a, m s = (s', Ok a) ∧ r = Ok a) ∨ (∃ e, m s = (s', Err e) ∧ r = Err (f e)).
Proof.
  unfold map_err. destruct (m s) as [s1 [a|e]] eqn:E1; intros [= <- <-]; [left|right]; eauto.
Qed.

Lemma bind_Ok {E A B} (m : SE S E A) (f : A → SE S E B) s s1 a :
  m s = (s1, Ok a) → (m ≫= f) s = f a s1.
Proof. unfold mbind, SE_bind. by intros ->. Qed.

Lemma map_err_Ok {E E' A} (f : E → E') (m : SE S E A) s s1 a :
  m s = (s1, Ok a) → map_err f m s = (s1, Ok a).
Proof. unfold map_err. by intros ->. Qed.

Lemma of_result_run {E A} (x : result E A) (s s' : S) r : of_result x s = (s', r) → s' = s ∧ x = r.
Proof. by intros [= <- <-]. Qed.

(** A relation between the states before and after every outcome. *)
Definition preserves {E A} (P : S → S → Prop) (m : SE S E A) : Prop :=
  ∀ s s' r, m s = (s', r) → P s s'.

Lemma preserves_bind {E A B} (P : S → S → Prop) `{!Transitive P} (m : SE S E A) (f : A → SE S E B) :
  preserves P m → (∀ a, preserves P (f a)) → preserves P (m ≫= f).
Proof.
  intros Hm Hf s s' r Hr. apply bind_run in Hr as [(e & Hr & _)|(s1 & a & H1 & Hr)].
  - by apply Hm in Hr.
  - apply Hm in H1. apply Hf in Hr. by transitivity s1.
Qed.
End runs.
