(* ===== verification/Fs.v ===== *)
(** * Files and failures

    The part of [std::fs] the modelled code calls, over a map from paths to
    nodes, on Unix.  Every call advances a clock; a [Faults] plan says at which
    ticks the call fails with an I/O error, having done nothing or, for a write
    or a recursive removal, only part of the work.  Nothing of the modelled
    code runs between such a failure and the return of its caller except what
    the source writes there, so a failure with nothing after it is also a crash
    of the process at that point. *)

From S2P Require Import Prelude Str Monad.
From stdpp Require Import gmap fin_maps.

(** A path as its components, the last one first. *)
Definition path : Type := list string.

(** [Path::join] with one component, and [Path::parent] without empty results. *)
Definition join (p : path) (name : string) : path := name :: p.
Definition parent (p : path) : option path :=
  match p with
  | _ :: (_ :: _) as q => Some (tail p)
  | _ => None
  end.

(** Owner and permission bits. *)
Record Meta := { uid : Z; mode : Z }.

Inductive Node :=
| File (m : Meta) (inode : nat) (content : list Z)
| Dir (m : Meta)
| Symlink (m : Meta).

Notation Files := (gmap path Node).

(** The advisory locks held on inodes are part of the world. *)
Record World := { clock : nat; files : Files; locks : gset nat }.

Inductive IoError := NotFound | Exists | Denied | Fault.

#[export] Instance IoError_eq_dec : EqDecision IoError.
Proof. solve_decision. Defined.

(** Fallible code over the world. *)
Notation M := (SE World).

(** When a call fails, and how much of a partial effect it leaves. *)
Class Faults := fault : nat → option nat.

Section calls.
Context `{Faults}.

(** One call: [act] is its effect, [partial] what a failure leaves behind. *)
Definition os {A : Type} (partial : nat → Files → Files)
    (act : nat → Files → result IoError (Files * A)) : M IoError A := λ w,
  let t := clock w in
  match fault t with
  | Some k => ({| clock := S t; files := partial k (files w); locks := locks w |}, Err Fault)
  | None =>
      match act t (files w) with
      | Ok (fs, a) => ({| clock := S t; files := fs; locks := locks w |}, Ok a)
      | Err e => ({| clock := S t; files := files w; locks := locks w |}, Err e)
      end
  end.

Definition no_effect (k : nat) (fs : Files) : Files := fs.

Definition is_dir (n : option Node) : bool :=
  match n with Some (Dir _) => true | _ => false end.
Definition parent_is_dir (fs : Files) (p : path) : bool :=
  match parent p with Some d => is_dir (fs !! d) | None => true end.

(** [fs::symlink_metadata] *)
Definition symlink_metadata (p : path) : M IoError Node :=
  os no_effect (λ _ fs, match fs !! p with Some n => Ok (fs, n) | None => Err NotFound end).

(** [fs::read] and [File::open] followed by reading to the end. *)
Definition read (p : path) : M IoError (list Z) :=
  os no_effect (λ _ fs,
    match fs !! p with
    | Some (File _ _ c) => Ok (fs, c)
    | Some _ => Err Denied
    | None => Err NotFound
    end).

(** [fs::remove_file] *)
Definition remove_file (p : path) : M IoError () :=
  os no_effect (λ _ fs,
    match fs !! p with
    | Some (Dir _) => Err Denied
    | Some _ => Ok (delete p fs, ())
    | None => Err NotFound
    end).

(** [DirBuilder::create] *)
Definition create_dir (m : Meta) (p : path) : M IoError () :=
  os no_effect (λ _ fs,
    match fs !! p with
    | Some _ => Err Exists
    | None => if parent_is_dir fs p then Ok (<[p := Dir m]> fs, ()) else Err NotFound
    end).

(** [OpenOptions::open] for writing, with [create_new] or [create]; the inode
    of a new file is the tick at which it is made. *)
Definition open_new (m : Meta) (p : path) : M IoError nat :=
  os no_effect (λ t fs,
    match fs !! p with
    | Some _ => Err Exists
    | None => if parent_is_dir fs p then Ok (<[p := File m t []]> fs, t) else Err NotFound
    end).
Definition open_create (m : Meta) (p : path) : M IoError nat :=
  os no_effect (λ t fs,
    match fs !! p with
    | Some (File _ i _) => Ok (fs, i)
    | Some _ => Err Denied
    | None => if parent_is_dir fs p then Ok (<[p := File m t []]> fs, t) else Err NotFound
    end).

(** [write_all] on a file just created: a failure leaves a prefix. *)
Definition set_content (p : path) (c : list Z) (fs : Files) : Files :=
  match fs !! p with
  | Some (File m i _) => <[p := File m i c]> fs
  | _ => fs
  end.
Definition write_all (p : path) (c : list Z) : M IoError () :=
  os (λ k fs, set_content p (take k c) fs) (λ _ fs, Ok (set_content p c fs, ())).

(** [sync_all] on an open file, or on a directory opened for it *)
Definition sync (p : path) : M IoError () :=
  os no_effect (λ _ fs, match fs !! p with Some _ => Ok (fs, ()) | None => Err NotFound end).

(** [fs::rename] of a file onto a file or a free name. *)
Definition rename (src dst : path) : M IoError () :=
  os no_effect (λ _ fs,
    match fs !! src, fs !! dst with
    | Some (File m i c), Some (Dir _) => Err Exists
    | Some (File m i c), _ => Ok (<[dst := File m i c]> (delete src fs), ())
    | Some _, _ => Err Denied
    | None, _ => Err NotFound
    end).

(** [fs::hard_link], and [renameat2] with [RENAME_NOREPLACE] *)
Definition hard_link (src dst : path) : M IoError () :=
  os no_effect (λ _ fs,
    match fs !! src, fs !! dst with
    | Some (File m i c), None => Ok (<[dst := File m i c]> fs, ())
    | Some (File m i c), Some _ => Err Exists
    | Some _, _ => Err Denied
    | None, _ => Err NotFound
    end).
Definition rename_noreplace (src dst : path) : M IoError () :=
  os no_effect (λ _ fs,
    match fs !! src, fs !! dst with
    | Some (File m i c), None => Ok (<[dst := File m i c]> (delete src fs), ())
    | Some (File m i c), Some _ => Err Exists
    | Some _, _ => Err Denied
    | None, _ => Err NotFound
    end).

(** Whether [p] is [d] or lies below it, and its components below [d]. *)
Definition below (d p : path) : option path :=
  let n := (length p - length d)%nat in
  if bool_decide (drop n p = d) then Some (take n p) else None.

(** [fs::rename] of a directory to a free name moves everything below it. *)
Definition rename_dir (src dst : path) : M IoError () :=
  os no_effect (λ _ fs,
    match fs !! src, fs !! dst with
    | Some (Dir m), None =>
        Ok (list_to_map ((λ e : path * Node,
              (match below src (fst e) with Some q => q ++ dst | None => fst e end, snd e))
              <$> map_to_list fs), ())
    | Some (Dir m), Some _ => Err Exists
    | _, _ => Err NotFound
    end).

(** [fs::remove_dir_all]: a failure has removed some of the entries. *)
Definition is_below (d : path) (p : path) : Prop := is_Some (below d p).
#[export] Instance is_below_dec d p : Decision (is_below d p).
Proof. unfold is_below. apply _. Defined.
Definition remove_dir_all (p : path) : M IoError () :=
  os (λ k fs, foldr (λ e fs, delete (fst e) fs) fs
        (take k (map_to_list (filter (λ e, is_below p (fst e)) fs))))
     (λ _ fs, Ok (filter (λ e, ¬ is_below p (fst e)) fs, ())).

(** [try_lock_exclusive] and [unlock] *)
Definition try_lock (i : nat) : M IoError () := λ w,
  let t := clock w in
  match fault t with
  | Some _ => ({| clock := S t; files := files w; locks := locks w |}, Err Fault)
  | None =>
      if bool_decide (i ∈ locks w)
      then ({| clock := S t; files := files w; locks := locks w |}, Err Denied)
      else ({| clock := S t; files := files w; locks := {[i]} ∪ locks w |}, Ok ())
  end.
Definition unlock {E} (i : nat) : M E () := λ w,
  ({| clock := clock w; files := files w; locks := locks w ∖ {[i]} |}, Ok ()).
End calls.

(** ** Frames

    [touches S m]: whatever the outcome, [m] leaves every path outside [S] as
    it was, and [keeps_locks m] the locks. *)
Definition touches {E A} (S : path → Prop) (m : M E A) : Prop :=
  ∀ w w' r, m w = (w', r) → ∀ p, ¬ S p → files w' !! p = files w !! p.

Definition nothing (p : path) : Prop := False.

Lemma touches_weaken {E A} (S S' : path → Prop) (m : M E A) :
  touches S m → (∀ p, S p → S' p) → touches S' m.
Proof. intros Hm HS w w' r Hr p Hp. eapply Hm; eauto. Qed.

Lemma touches_bind {E A B} S (m : M E A) (f : A → M E B) :
  touches S m → (∀ a, touches S (f a)) → touches S (m ≫= f).
Proof.
  intros Hm Hf w w' r. unfold mbind, SE_bind. destruct (m w) as [w1 [a|e]] eqn:E1; intros Hr p Hp.
  - transitivity (files w1 !! p); [by eapply Hf|by eapply Hm].
  - simplify_eq. by eapply Hm.
Qed.

Lemma touches_ret {E A} S (a : A) : touches S (mret a : M E A).
Proof. intros w w' r [= <- <-]. done. Qed.
Lemma touches_fail {E A} S (e : E) : touches S (fail e : M E A).
Proof. intros w w' r [= <- <-]. done. Qed.
Lemma touches_of_result {E A} S (x : result E A) : touches S (of_result x).
Proof. intros w w' r [= <- <-]. done. Qed.
Lemma touches_attempt {E E' A} S (m : M E A) :
  touches S m → touches S (attempt m : M E' (result E A)).
Proof.
  intros Hm w w' r. unfold attempt. destruct (m w) as [w1 r1] eqn:E1. intros [= <- <-].
  by eapply Hm.
Qed.
Lemma touches_map_err {E E' A} S (f : E → E') (m : M E A) : touches S m → touches S (map_err f m).
Proof.
  intros Hm w w' r. unfold map_err. destruct (m w) as [w1 r1] eqn:E1. intros [= <- <-].
  by eapply Hm.
Qed.
Lemma touches_if {E A} S (b : bool) (m m' : M E A) :
  touches S m → touches S m' → touches S (if b then m else m').
Proof. by destruct b. Qed.

Section frames.
Context `{Faults}.

Lemma touches_os {A : Type} (S : path → Prop) (partial : nat → Files → Files) (act : nat → Files → result IoError (Files * A)) :
  (∀ k fs p, ¬ S p → partial k fs !! p = fs !! p) →
  (∀ t fs fs' a p, act t fs = Ok (fs', a) → ¬ S p → fs' !! p = fs !! p) →
  touches S (os partial act).
Proof.
  intros Hp Ha w w' r. unfold os. destruct (fault (clock w)).
  - intros [= <- <-] p Hn. by apply Hp.
  - destruct (act (clock w) (files w)) as [[fs a]|e] eqn:E1; intros [= <- <-] p Hn; [|done].
    by eapply Ha.
Qed.

Lemma touches_set_content (S : path → Prop) (p : path) (c : list Z) (fs : Files) (q : path) : S p → ¬ S q → set_content p c fs !! q = fs !! q.
Proof.
  intros Hp Hq. unfold set_content. destruct (fs !! p) as [[]|]; try done.
  apply lookup_insert_ne. by intros ->.
Qed.

Ltac one_call :=
  apply touches_os; [done|];
  intros; repeat case_match; simplify_eq; try done;
  try (rewrite ?lookup_insert_ne, ?lookup_delete_ne by (by intros ->); done).

Lemma touches_symlink_metadata p : touches nothing (symlink_metadata p).
Proof. one_call. Qed.
Lemma touches_read p : touches nothing (read p).
Proof. one_call. Qed.
Lemma touches_sync p : touches nothing (sync p).
Proof. one_call. Qed.
Lemma touches_remove_file (S : path → Prop) p : S p → touches S (remove_file p).
Proof. intros HS. one_call. Qed.
Lemma touches_create_dir (S : path → Prop) m p : S p → touches S (create_dir m p).
Proof. intros HS. one_call. Qed.
Lemma touches_open_new (S : path → Prop) m p : S p → touches S (open_new m p).
Proof. intros HS. one_call. Qed.
Lemma touches_open_create (S : path → Prop) m p : S p → touches S (open_create m p).
Proof. intros HS. one_call. Qed.
Lemma touches_write_all (S : path → Prop) p c : S p → touches S (write_all p c).
Proof.
  intros HS. apply touches_os; intros; simplify_eq; by apply (touches_set_content S).
Qed.
Lemma touches_rename (S : path → Prop) a b : S a → S b → touches S (rename a b).
Proof. intros Ha Hb. one_call. Qed.
Lemma touches_hard_link (S : path → Prop) a b : S b → touches S (hard_link a b).
Proof. intros Hb. one_call. Qed.
Lemma touches_rename_noreplace (S : path → Prop) a b : S a → S b → touches S (rename_noreplace a b).
Proof. intros Ha Hb. one_call. Qed.
Lemma touches_try_lock i : touches nothing (try_lock i).
Proof. intros w w' r. unfold try_lock. repeat case_match; by intros [= <- <-]. Qed.
End frames.

Create HintDb frames.
#[export] Hint Resolve touches_bind touches_ret touches_fail touches_of_result touches_attempt
  touches_map_err touches_if touches_remove_file touches_create_dir touches_open_new
  touches_open_create touches_write_all touches_rename touches_hard_link
  touches_rename_noreplace : frames.
#[export] Hint Extern 2 (touches _ (symlink_metadata _)) =>
  eapply touches_weaken; [apply touches_symlink_metadata|done] : frames.
#[export] Hint Extern 2 (touches _ (read _)) =>
  eapply touches_weaken; [apply touches_read|done] : frames.
#[export] Hint Extern 2 (touches _ (sync _)) =>
  eapply touches_weaken; [apply touches_sync|done] : frames.
#[export] Hint Extern 2 (touches _ (try_lock _)) =>
  eapply touches_weaken; [apply touches_try_lock|done] : frames.

Section runs.
Context `{Faults}.

(** What a call does when it does not fail, and what it did. *)
Lemma os_Ok {A : Type} (partial : nat → Files → Files)
    (act : nat → Files → result IoError (Files * A)) w fs a :
  fault (clock w) = None → act (clock w) (files w) = Ok (fs, a) →
  os partial act w = ({| clock := S (clock w); files := fs; locks := locks w |}, Ok a).
Proof. unfold os. by intros -> ->. Qed.

Lemma os_Err {A : Type} (partial : nat → Files → Files)
    (act : nat → Files → result IoError (Files * A)) w e :
  fault (clock w) = None → act (clock w) (files w) = Err e →
  os partial act w = ({| clock := S (clock w); files := files w; locks := locks w |}, Err e).
Proof. unfold os. by intros -> ->. Qed.

Lemma symlink_metadata_run p w w' r :
  symlink_metadata p w = (w', r) →
  files w' = files w ∧ locks w' = locks w ∧
  match r with
  | Ok n => files w !! p = Some n
  | Err NotFound => files w !! p = None
  | Err e => e = Fault
  end.
Proof.
  unfold symlink_metadata, os. destruct (fault _); [by intros [= <- <-]|].
  destruct (files w !! p) eqn:Ep; by intros [= <- <-].
Qed.

Lemma read_run p w w' r :
  read p w = (w', r) →
  files w' = files w ∧ locks w' = locks w ∧
  match r with
  | Ok c => ∃ m i, files w !! p = Some (File m i c)
  | Err Fault => True
  | Err _ => ∀ m i c, files w !! p ≠ Some (File m i c)
  end.
Proof.
  unfold read, os. destruct (fault _); [by intros [= <- <-]|].
  destruct (files w !! p) as [[]|] eqn:Ep; intros [= <- <-]; split_and!; try done; eauto.
Qed.

Lemma open_new_Ok m p w w' t :
  open_new m p w = (w', Ok t) → files w !! p = None ∧ files w' = <[p := File m t []]> (files w).
Proof.
  unfold open_new, os. destruct (fault _); [done|].
  destruct (files w !! p); [done|]. destruct (parent_is_dir _ _); [|done]. by intros [= <- <-].
Qed.

Lemma write_all_Ok p c w w' :
  write_all p c w = (w', Ok ()) → files w' = set_content p c (files w).
Proof. unfold write_all, os. destruct (fault _); [done|]. by intros [= <-]. Qed.

Lemma rename_run a b w w' r :
  rename a b w = (w', r) →
  (∃ e, r = Err e ∧ files w' = files w) ∨
  (∃ m i c, r = Ok () ∧ files w !! a = Some (File m i c) ∧
     files w' = <[b := File m i c]> (delete a (files w))).
Proof.
  unfold rename, os. destruct (fault _); [intros [= <- <-]; left; by eexists|].
  destruct (files w !! a) as [[m i c| |]|]; [|intros [= <- <-]; left; by eexists..].
  destruct (files w !! b) as [[]|]; intros [= <- <-]; eauto 8.
Qed.

Lemma hard_link_run a b w w' r :
  hard_link a b w = (w', r) →
  (∃ e, r = Err e ∧ files w' = files w) ∨
  (∃ m i c, r = Ok () ∧ files w !! a = Some (File m i c) ∧ files w !! b = None ∧
     files w' = <[b := File m i c]> (files w)).
Proof.
  unfold hard_link, os. destruct (fault _); [intros [= <- <-]; left; by eexists|].
  destruct (files w !! a) as [[m i c| |]|]; [|intros [= <- <-]; left; by eexists..].
  destruct (files w !! b); intros [= <- <-]; eauto 10.
Qed.

Lemma rename_noreplace_run a b w w' r :
  rename_noreplace a b w = (w', r) →
  (∃ e, r = Err e ∧ files w' = files w) ∨
  (∃ m i c, r = Ok () ∧ files w !! a = Some (File m i c) ∧ files w !! b = None ∧
     files w' = <[b := File m i c]> (delete a (files w))).
Proof.
  unfold rename_noreplace, os. destruct (fault _); [intros [= <- <-]; left; by eexists|].
  destruct (files w !! a) as [[m i c| |]|]; [|intros [= <- <-]; left; by eexists..].
  destruct (files w !! b); intros [= <- <-]; eauto 10.
Qed.
End runs.

(** ** Locks *)

Definition keeps_locks {E A} (m : M E A) : Prop :=
  ∀ w w' r, m w = (w', r) → locks w' = locks w.

Lemma keeps_bind {E A B} (m : M E A) (f : A → M E B) :
  keeps_locks m → (∀ a, keeps_locks (f a)) → keeps_locks (m ≫= f).
Proof.
  intros Hm Hf w w' r Hr. apply bind_run in Hr as [(e & Hr & _)|(w1 & a & H1 & Hr)].
  - by apply Hm in Hr.
  - apply Hm in H1. apply Hf in Hr. congruence.
Qed.
Lemma keeps_pure {E A} (r : result E A) : keeps_locks (λ w, (w, r)).
Proof. by intros w w' r' [= <- <-]. Qed.
Lemma keeps_attempt {E E' A} (m : M E A) :
  keeps_locks m → keeps_locks (attempt m : M E' (result E A)).
Proof. intros Hm w w' r Hr. apply attempt_run in Hr as (x & Hr & _). by apply Hm in Hr. Qed.
Lemma keeps_map_err {E E' A} (f : E → E') (m : M E A) : keeps_locks m → keeps_locks (map_err f m).
Proof. intros Hm w w' r Hr. apply map_err_run in Hr as [(a & Hr & _)|(e & Hr & _)]; by apply Hm in Hr. Qed.
Lemma keeps_os `{Faults} {A : Type} (partial : nat → Files → Files)
    (act : nat → Files → result IoError (Files * A)) : keeps_locks (os partial act).
Proof. intros w w' r. unfold os. repeat case_match; by intros [= <- <-]. Qed.

Create HintDb locks.
#[export] Hint Resolve keeps_pure keeps_attempt keeps_map_err keeps_os : locks.

(** Follows the structure of a computation down to its calls. *)
Ltac keeps :=
  repeat first
    [ apply keeps_bind; [|intros]
    | apply keeps_pure | apply keeps_os | apply keeps_attempt | apply keeps_map_err
    | progress unfold fail, of_result, mret, SE_ret, symlink_metadata, read, remove_file, create_dir,
        open_new, open_create, write_all, sync, rename, hard_link, rename_noreplace
    | case_match ].

Section lock_runs.
Context `{Faults}.

Lemma try_lock_run i w w' r :
  try_lock i w = (w', r) →
  files w' = files w ∧ (r = Ok () → i ∉ locks w ∧ locks w' = {[i]} ∪ locks w).
Proof.
  unfold try_lock. destruct (fault _); [by intros [= <- <-]|].
  case_bool_decide; by intros [= <- <-].
Qed.

Lemma try_lock_held i w : i ∈ locks w → ∃ w' e, try_lock i w = (w', Err e) ∧ files w' = files w.
Proof.
  intros Hi. unfold try_lock. destruct (fault _); [by eexists _, _|].
  rewrite bool_decide_true by done. by eexists _, _.
Qed.

Lemma open_create_run m p w w' i :
  open_create m p w = (w', Ok i) →
  locks w' = locks w ∧ (∃ m' c, files w' !! p = Some (File m' i c)) ∧
  (∀ m' j c, files w !! p = Some (File m' j c) → j = i).
Proof.
  unfold open_create, os. destruct (fault _); [done|].
  destruct (files w !! p) as [[m' j c| |]|] eqn:Ep; try done.
  - intros [= <- <-]. cbn. split_and!; [done|eauto|by intros ??? [= _ -> _]].
  - destruct (parent_is_dir _ _); [|done]. intros [= <- <-]. cbn. rewrite lookup_insert_eq.
    split_and!; [done|eauto|done].
Qed.

Lemma create_dir_Ok m p w w' :
  create_dir m p w = (w', Ok ()) → files w !! p = None ∧ files w' = <[p := Dir m]> (files w).
Proof.
  unfold create_dir, os. destruct (fault _); [done|].
  destruct (files w !! p); [done|]. destruct (parent_is_dir _ _); [|done]. by intros [= <-].
Qed.
End lock_runs.
