(* ===== verification/Checkpoint.v ===== *)
(** * Saved transfer state (crates/transfer-native/src/checkpoint.rs)

    The private job directory: its lock, the sealed records replaced
    atomically, and the ciphertexts written once, on Unix.  The whole module
    runs over the files and failures of [Fs]; serde_json, base64 and the AEAD
    are classes with their laws, and the host supplies the user, the random
    bytes and the secret store.  An error keeps the message's case and path,
    without the outer [context] lines. *)

From Stdlib Require Import Ascii String.
From S2P Require Import Prelude Str Monad Frame Encryption Fs.
Open Scope Z_scope.

Definition MAX_CHECKPOINT_BYTES : Z := 64 * 1024 * 1024.
Definition MAX_IMMUTABLE_BYTES : Z := 25000000.
Definition LOCK_NAME : string := "lock".
Definition CHECKPOINT_NAME : string := "checkpoint.json".
Definition CHECKPOINT_TEMP_NAME : string := "checkpoint.json.new".
Definition CATALOG_KEY_NAME : string := ".catalog-key-v1".
Definition CATALOG_SCOPE : string := "checkpoint-catalog-v1".
Definition ENVELOPE_MAGIC : list Z := bytes "FBCK".
Definition ENVELOPE_VERSION : Z := 1.

#[global] Arguments MAX_CHECKPOINT_BYTES : simpl never.
#[global] Arguments MAX_IMMUTABLE_BYTES : simpl never.

(** ** What the module calls *)

(** [Serialize] and [DeserializeOwned] of a record through serde_json. *)
Class Json (T : Type) := {
  to_vec : T → option (list Z);
  from_slice : list Z → option T;
  from_to_vec t b : to_vec t = Some b → from_slice b = Some t }.

(** [base64::STANDARD] *)
Class Base64 := {
  b64_encode : list Z → string;
  b64_decode : string → option (list Z);
  b64_decode_encode l : b64_decode (b64_encode l) = Some l }.

(** The process and its platform; the random bytes and names are those drawn at
    a tick of the clock. *)
Class Host := {
  euid : Z;
  android : bool;
  random_bytes : nat → Z → option (list Z);
  random_length t n l : random_bytes t n = Some l → zlen l = n;
  uuid_v4 : nat → string }.

Inductive CheckpointError :=
| InvalidName (kind : string)
| ReservedArtifactName
| ReservedCheckpointName
| NotRegular (p : path)
| NotDirectory (p : path)
| NotOwnerOnly (p : path)
| NotOwned (p : path)
| RootMissing
| CannotCreateRoot
| Serialization
| CheckpointTooLarge
| ImmutableTooLarge
| SecretTooLarge
| ImmutableExists
| Randomness
| EncryptCatalog
| InvalidEnvelope
| AuthenticationFailed
| ParseCheckpoint
| ParseSecret
| UnknownScope
| InvalidCatalogKey
| AlreadyActive
| Io (e : IoError).

(** ** Names *)

Definition name_byte (b : Z) : bool :=
  is_ascii_alphanumeric b || (b =? ch ".") || (b =? ch "_") || (b =? ch "-").

Definition is_windows_device_name (name : string) : bool :=
  let stem := default "" (head (split_char "." name)) in
  let upper := to_ascii_uppercase stem in
  bool_decide (upper ∈ ["CON"; "PRN"; "AUX"; "NUL"])
  || (len upper =? 4) && (starts_with "COM" upper || starts_with "LPT" upper)
     && match bytes upper !! 3%nat with Some b => (49 <=? b) && (b <=? 57) | None => false end.

Definition validate_name (name kind : string) : result CheckpointError () :=
  let valid := negb (is_empty name) && (len name <=? 128)
    && negb (ends_with "." name || ends_with " " name)
    && forallb name_byte (bytes name)
    && negb (is_windows_device_name name) in
  reject negb valid with InvalidName kind;
  Ok ().

Definition validate_artifact_name (name : string) : result CheckpointError () :=
  _ ← validate_name name "immutable ciphertext name";
  reject bool_decide (name ∈ [LOCK_NAME; CHECKPOINT_NAME; CHECKPOINT_TEMP_NAME])
         || ends_with ".new" name with ReservedArtifactName;
  Ok ().

Definition validate_checkpoint_name (name : string) : result CheckpointError () :=
  _ ← validate_name name "checkpoint name";
  reject (name =? LOCK_NAME)%string || ends_with ".new" name with ReservedCheckpointName;
  Ok ().

(** [format!("{name}.new")] *)
Definition temp_name (name : string) : string := name +:+ ".new".

Section checkpoint.
Context `{Faults, Host}.

(** ** Private files and directories *)

Definition io {A : Type} (m : M IoError A) : M CheckpointError A := map_err Io m.

(** The source's [match fs::symlink_metadata(p)]: [None] when there is nothing. *)
Definition inspect (p : path) : M CheckpointError (option Node) :=
  r ← attempt (symlink_metadata p);
  match r with
  | Ok n => mret (Some n)
  | Err NotFound => mret None
  | Err e => fail (Io e)
  end.

Definition private_file : Meta := {| uid := euid; mode := 384 |}.
Definition private_dir : Meta := {| uid := euid; mode := 448 |}.

Definition validate_platform_private (p : path) (m : Meta) : result CheckpointError () :=
  reject negb (uid m =? euid) || negb (Z.land (mode m) 63 =? 0) with NotOwnerOnly p;
  Ok ().

Definition validate_platform_owner (p : path) (m : Meta) : result CheckpointError () :=
  reject negb (uid m =? euid) with NotOwned p;
  Ok ().

Definition validate_private_regular_file (p : path) (n : Node) : result CheckpointError () :=
  match n with
  | File m _ _ => validate_platform_private p m
  | _ => Err (NotRegular p)
  end.

Definition validate_private_directory (p : path) (n : Node) : result CheckpointError () :=
  match n with
  | Dir m => validate_platform_private p m
  | _ => Err (NotDirectory p)
  end.

Definition validate_private_root (p : path) (n : Node) : result CheckpointError () :=
  match n with
  | Dir m => validate_platform_owner p m
  | _ => Err (NotDirectory p)
  end.

Definition create_private_dir (p : path) : M CheckpointError () := io (create_dir private_dir p).

Definition ensure_private_dir (p : path) : M CheckpointError () :=
  n ← io (symlink_metadata p);
  of_result (validate_private_directory p n).

(** The loop of [create_private_root] up the missing ancestors, the outermost
    one first in the result, and the loop that creates them. *)
Fixpoint missing_dirs (p : path) (missing : list path) : M CheckpointError (list path) :=
  m ← inspect p;
  match m with
  | Some n => if is_dir (Some n) then mret missing else fail (NotDirectory p)
  | None =>
      match p with
      | _ :: d => match d with [] => fail CannotCreateRoot | _ => missing_dirs d (p :: missing) end
      | [] => fail CannotCreateRoot
      end
  end.

Fixpoint create_dirs (missing : list path) : M CheckpointError () :=
  match missing with
  | [] => mret ()
  | p :: missing =>
      _ ← create_private_dir p;
      _ ← ensure_private_dir p;
      create_dirs missing
  end.

Definition create_private_root (root : path) : M CheckpointError () :=
  missing ← missing_dirs root []; create_dirs missing.

Definition ensure_private_root (root : path) (create : bool) : M CheckpointError () :=
  m ← inspect root;
  match m with
  | Some n => of_result (validate_private_root root n)
  | None =>
      if create then _ ← create_private_root root; ensure_private_dir root
      else fail RootMissing
  end.

Definition remove_stale_private_file (p : path) : M CheckpointError () :=
  m ← inspect p;
  match m with
  | Some n => _ ← of_result (validate_private_regular_file p n); io (remove_file p)
  | None => mret ()
  end.

Definition write_new_private_file (p : path) (c : list Z) : M CheckpointError () :=
  _ ← io (open_new private_file p);
  _ ← io (write_all p c);
  io (sync p).

Definition replace_private_file (src dst : path) (replace_existing : bool) : M IoError () :=
  if replace_existing then rename src dst
  else if android then rename_noreplace src dst
  else _ ← hard_link src dst; remove_file src.

Definition sync_directory (p : path) : M CheckpointError () := io (sync p).

(** ** Keys *)

(** [SecretStore]: the two operations a host supplies. *)
Record SecretStore := {
  load_or_create : string → M CheckpointError (list Z);
  remove : string → M CheckpointError () }.

Definition getrandom (n : Z) : M CheckpointError (list Z) := λ w,
  ({| clock := S (clock w); files := files w; locks := locks w |},
   ok_or (random_bytes (clock w) n) Randomness).

Definition filesystem_load_or_create (root : path) (scope : string) : M CheckpointError (list Z) :=
  if negb (scope =? CATALOG_SCOPE)%string then fail UnknownScope else
  let p := join root CATALOG_KEY_NAME in
  m ← inspect p;
  match m with
  | Some n =>
      _ ← of_result (validate_private_regular_file p n);
      bytes ← io (read p);
      if zlen bytes =? 32 then mret bytes else fail InvalidCatalogKey
  | None =>
      key ← getrandom 32;
      _ ← write_new_private_file p key;
      mret key
  end.

Definition filesystem_remove (root : path) (scope : string) : M CheckpointError () :=
  if negb (scope =? CATALOG_SCOPE)%string then fail UnknownScope else
  r ← attempt (remove_file (join root CATALOG_KEY_NAME));
  match r with
  | Ok () => mret ()
  | Err NotFound => mret ()
  | Err e => fail (Io e)
  end.

Definition for_state_root (root : path) : SecretStore :=
  {| load_or_create := filesystem_load_or_create root; remove := filesystem_remove root |}.

(** ** The job directory *)

Record Store := {
  directory : path;
  id : string;
  catalog_key : list Z;
  lock : nat }.

Definition acquire_lock (directory : path) (id : string) : M CheckpointError nat :=
  let lock_path := join directory LOCK_NAME in
  m ← inspect lock_path;
  _ ← match m with
      | Some n => of_result (validate_private_regular_file lock_path n)
      | None => mret ()
      end;
  lock ← io (open_create private_file lock_path);
  n ← io (symlink_metadata lock_path);
  _ ← of_result (validate_private_regular_file lock_path n);
  _ ← map_err (λ _, AlreadyActive) (try_lock lock);
  mret lock.

(** A failing [load_or_create] drops the lock's file on the way out. *)
Definition open_locked (directory : path) (id : string) (secrets : SecretStore)
    : M CheckpointError Store :=
  lock ← acquire_lock directory id;
  key ← attempt (load_or_create secrets CATALOG_SCOPE);
  match key with
  | Ok key => mret {| directory := directory; id := id; catalog_key := key; lock := lock |}
  | Err e => _ ← unlock lock; fail e
  end.

Definition create_with_secret_store (root : path) (id : string) (secrets : SecretStore)
    : M CheckpointError Store :=
  _ ← of_result (validate_name id "transfer job id");
  _ ← ensure_private_root root true;
  let directory := join root id in
  _ ← create_private_dir directory;
  _ ← ensure_private_dir directory;
  _ ← sync_directory root;
  open_locked directory id secrets.

Definition open_with_secret_store (root : path) (id : string) (secrets : SecretStore)
    : M CheckpointError Store :=
  _ ← of_result (validate_name id "transfer job id");
  _ ← ensure_private_root root false;
  let directory := join root id in
  _ ← ensure_private_dir directory;
  open_locked directory id secrets.

Definition create (root : path) (id : string) : M CheckpointError Store :=
  create_with_secret_store root id (for_state_root root).
Definition open (root : path) (id : string) : M CheckpointError Store :=
  open_with_secret_store root id (for_state_root root).

Definition discard (root : path) (id : string) : M CheckpointError () :=
  _ ← of_result (validate_name id "transfer job id");
  _ ← ensure_private_root root false;
  let directory := join root id in
  _ ← ensure_private_dir directory;
  lock ← acquire_lock directory id;
  uuid ← (λ w, (w, Ok (uuid_v4 (clock w))));
  let discarded := join root ("." +:+ id +:+ ".discarding-" +:+ uuid) in
  r ← attempt (rename_dir directory discarded);
  _ ← unlock lock;
  match r with
  | Ok () => io (remove_dir_all discarded)
  | Err e => fail (Io e)
  end.

(** [Drop for Store] *)
Definition drop_store (s : Store) : M CheckpointError () := unlock (lock s).

(** ** Records *)

Context `{Aead}.

Definition aad (s : Store) (name : string) : list Z :=
  bytes ("filebeam:checkpoint:v1:" +:+ id s +:+ ":" +:+ name).

Definition envelope (nonce ciphertext : list Z) : list Z :=
  ENVELOPE_MAGIC ++ [ENVELOPE_VERSION] ++ nonce ++ ciphertext.

Definition seal (s : Store) (name : string) (plaintext : list Z) : M CheckpointError (list Z) :=
  nonce ← getrandom 24;
  ciphertext ← of_result
    (ok_or (aead_encrypt (catalog_key s) nonce plaintext (aad s name)) EncryptCatalog);
  mret (envelope nonce ciphertext).

Definition has_magic (bytes : list Z) : bool := bool_decide (take 4 bytes = ENVELOPE_MAGIC).

Definition open_record (s : Store) (name : string) (bytes : list Z)
    : result CheckpointError (list Z) :=
  if negb (has_magic bytes) then Ok bytes else
  reject (zlen bytes <? 4 + 1 + 24 + 16)
         || negb (bool_decide (bytes !! 4%nat = Some ENVELOPE_VERSION)) with InvalidEnvelope;
  ok_or (aead_decrypt (catalog_key s) (take 24 (drop 5 bytes)) (drop 29 bytes) (aad s name))
    AuthenticationFailed.

(** The tests on a path that may already hold a record. *)
Definition validate_existing (p : path) : M CheckpointError () :=
  m ← inspect p;
  match m with
  | Some n => of_result (validate_private_regular_file p n)
  | None => mret ()
  end.

Definition save_named {T : Type} `{Json T} (s : Store) (name : string) (state : T) : M CheckpointError () :=
  _ ← of_result (validate_checkpoint_name name);
  encoded ← of_result (ok_or (to_vec state) Serialization);
  if MAX_CHECKPOINT_BYTES <? zlen encoded then fail CheckpointTooLarge else
  let temporary := join (directory s) (temp_name name) in
  let p := join (directory s) name in
  _ ← remove_stale_private_file temporary;
  _ ← validate_existing p;
  encoded ← seal s name encoded;
  _ ← write_new_private_file temporary encoded;
  _ ← io (replace_private_file temporary p true);
  sync_directory (directory s).

Definition save {T : Type} `{Json T} (s : Store) (state : T) : M CheckpointError () :=
  save_named s CHECKPOINT_NAME state.

(** The length of a node, as its metadata gives it. *)
Definition node_len (n : Node) : Z :=
  match n with File _ _ c => zlen c | _ => 0 end.

Definition load_named {T : Type} `{Json T} (s : Store) (name : string) : M CheckpointError (option T) :=
  _ ← of_result (validate_checkpoint_name name);
  let p := join (directory s) name in
  m ← inspect p;
  match m with
  | None => mret None
  | Some n =>
      _ ← of_result (validate_private_regular_file p n);
      if MAX_CHECKPOINT_BYTES <? node_len n then fail CheckpointTooLarge else
      bytes ← io (read p);
      let bytes := take (Z.to_nat (MAX_CHECKPOINT_BYTES + 1)) bytes in
      if MAX_CHECKPOINT_BYTES <? zlen bytes then fail CheckpointTooLarge else
      plaintext ← of_result (open_record s name bytes);
      state ← of_result (ok_or (from_slice plaintext) ParseCheckpoint);
      mret (Some state)
  end.

Definition load {T : Type} `{Json T} (s : Store) : M CheckpointError (option T) :=
  load_named s CHECKPOINT_NAME.

Definition remove_named (s : Store) (name : string) : M CheckpointError () :=
  _ ← of_result (validate_checkpoint_name name);
  let p := join (directory s) name in
  m ← inspect p;
  match m with
  | Some n =>
      _ ← of_result (validate_private_regular_file p n);
      _ ← io (remove_file p);
      sync_directory (directory s)
  | None => mret ()
  end.

Definition persist_immutable (s : Store) (name : string) (ciphertext : list Z)
    : M CheckpointError path :=
  _ ← of_result (validate_artifact_name name);
  if MAX_IMMUTABLE_BYTES <? zlen ciphertext then fail ImmutableTooLarge else
  _ ← ensure_private_dir (directory s);
  let p := join (directory s) name in
  m ← inspect p;
  match m with
  | Some _ => fail ImmutableExists
  | None =>
      let temporary := join (directory s) (temp_name name) in
      _ ← remove_stale_private_file temporary;
      _ ← write_new_private_file temporary ciphertext;
      _ ← io (replace_private_file temporary p false);
      _ ← sync_directory (directory s);
      mret p
  end.

(** ** Secrets *)

Context `{Base64, Json string}.

Definition save_secret (s : Store) (name : string) (value : list Z) : M CheckpointError () :=
  save_named s name (b64_encode value).

Definition load_secret (s : Store) (name : string) : M CheckpointError (option (list Z)) :=
  _ ← of_result (validate_checkpoint_name name);
  let p := join (directory s) name in
  m ← inspect p;
  match m with
  | None => mret None
  | Some n =>
      _ ← of_result (validate_private_regular_file p n);
      if MAX_CHECKPOINT_BYTES <? node_len n then fail SecretTooLarge else
      bytes ← io (read p);
      if negb (has_magic bytes) then mret (Some bytes) else
      plaintext ← of_result (open_record s name bytes);
      encoded ← of_result (ok_or (from_slice plaintext) ParseSecret);
      value ← of_result (ok_or (b64_decode encoded) ParseSecret);
      mret (Some value)
  end.
End checkpoint.

(** ** Frames *)

Section frames.
Context `{Faults, Host}.

Lemma touches_io {A : Type} S (m : M IoError A) : touches S m → touches S (io m).
Proof. apply touches_map_err. Qed.
Lemma touches_inspect S p : touches S (inspect p).
Proof.
  unfold inspect. apply touches_bind; [auto with frames|].
  intros [n|[]]; auto with frames.
Qed.
Lemma touches_getrandom S n : touches S (getrandom n).
Proof. intros w w' r [= <- _]. done. Qed.
Lemma touches_ensure_private_dir S p : touches S (ensure_private_dir p).
Proof.
  unfold ensure_private_dir. apply touches_bind; [apply touches_io|]; auto with frames.
Qed.
Lemma touches_sync_directory S p : touches S (sync_directory p).
Proof. apply touches_io; auto with frames. Qed.
Lemma touches_validate_existing S p : touches S (validate_existing p).
Proof.
  apply touches_bind; [apply touches_inspect|]. intros [n|]; auto with frames.
Qed.
Lemma touches_remove_stale (S : path → Prop) p : S p → touches S (remove_stale_private_file p).
Proof.
  intros HS. apply touches_bind; [apply touches_inspect|]. intros [n|]; [|auto with frames].
  apply touches_bind; [auto with frames|]. intros _. apply touches_io; auto with frames.
Qed.
Lemma touches_write_new (S : path → Prop) p c : S p → touches S (write_new_private_file p c).
Proof.
  intros HS. unfold write_new_private_file.
  apply touches_bind; [by apply touches_io, touches_open_new|intros _].
  apply touches_bind; [by apply touches_io, touches_write_all|intros _].
  apply touches_sync_directory.
Qed.
Lemma touches_replace (S : path → Prop) a b c : S a → S b → touches S (replace_private_file a b c).
Proof. intros Ha Hb. unfold replace_private_file. repeat case_match; auto with frames. Qed.
End frames.

#[export] Hint Resolve touches_io touches_inspect touches_getrandom touches_ensure_private_dir
  touches_sync_directory touches_validate_existing touches_remove_stale touches_write_new
  touches_replace : frames.

(** A private file, as this process makes them. *)
Definition holds (fs : gmap path Node) (p : path) (c : list Z) `{Host} : Prop :=
  ∃ i, fs !! p = Some (File private_file i c).

(** Names of records and of their temporary files never meet. *)
Lemma ends_with_temp name : ends_with ".new" (temp_name name) = true.
Proof.
  unfold ends_with, temp_name. rewrite bytes_app, reverse_app.
  apply bool_decide_eq_true. by rewrite take_app_length' by (by rewrite length_reverse).
Qed.

Lemma temp_name_ne name : name ≠ temp_name name.
Proof.
  intros He. apply (f_equal (length ∘ bytes)) in He. unfold temp_name in He. simpl in He.
  rewrite bytes_app, length_app in He. change (length (bytes ".new")) with 4%nat in He. lia.
Qed.

Lemma valid_artifact_name name :
  validate_artifact_name name = Ok () →
  ends_with ".new" name = false ∧ name ≠ LOCK_NAME ∧ name ≠ CHECKPOINT_NAME.
Proof.
  unfold validate_artifact_name, mbind, result_bind. destruct (validate_name _ _); [|done].
  intros Hg. guards Hg. bool_prop. set_solver.
Qed.

Lemma valid_checkpoint_name name :
  validate_checkpoint_name name = Ok () → ends_with ".new" name = false ∧ name ≠ LOCK_NAME.
Proof.
  unfold validate_checkpoint_name, mbind, result_bind. destruct (validate_name _ _); [|done].
  intros Hg. guards Hg. by bool_prop.
Qed.

Lemma temp_name_fresh name n : ends_with ".new" n = false → temp_name name ≠ n.
Proof. intros Hn <-. by rewrite ends_with_temp in Hn. Qed.

Lemma lock_not_temp name : temp_name name ≠ LOCK_NAME.
Proof. by apply temp_name_fresh. Qed.

Lemma join_inj d a b : join d a = join d b → a = b.
Proof. by intros [= ->]. Qed.

(** ** Saving *)

Section saving.
Context `{Faults, Host, Aead}.

Lemma inspect_run p w w' r :
  inspect p w = (w', r) →
  files w' = files w ∧
  match r with
  | Ok o => files w !! p = o
  | Err e => e = Io Fault
  end.
Proof.
  unfold inspect. intros Hr. apply bind_run in Hr as [(e & Hm & ->)|(w1 & x & Hm & Hr)].
  - apply attempt_run in Hm as (y & _ & [=]).
  - apply attempt_run in Hm as (y & Hm & [= ->]). apply symlink_metadata_run in Hm as (Hf & _ & Hm).
    destruct y as [n|[]]; injection Hr as <- <-; rewrite Hf; split; try done; by simplify_eq.
Qed.

Lemma write_new_Ok p c w w' :
  write_new_private_file p c w = (w', Ok ()) → holds (files w') p c.
Proof.
  unfold write_new_private_file. intros Hr.
  apply bind_run in Hr as [(e & _ & [=])|(w1 & t & H1' & Hr)].
  apply bind_run in Hr as [(e & _ & [=])|(w2 & [] & H2 & Hr)].
  unfold io in *. apply map_err_run in H1' as [(a & H1' & [= <-])|(e & _ & [=])].
  apply map_err_run in H2 as [(a & H2 & [= <-])|(e & _ & [=])].
  apply open_new_Ok in H1' as [_ Hf1]. apply write_all_Ok in H2.
  unfold holds. rewrite (touches_sync_directory nothing p w2 w' _ Hr p) by (intros []).
  rewrite H2, Hf1. unfold set_content. rewrite lookup_insert_eq. exists t.
  by rewrite lookup_insert_eq.
Qed.

Definition sealed (s : Store) (name : string) (plain record : list Z) : Prop :=
  ∃ nonce c, zlen nonce = 24 ∧ aead_encrypt (catalog_key s) nonce plain (aad s name) = Some c ∧
    record = envelope nonce c.

Lemma seal_run s name plain w w' r :
  seal s name plain w = (w', r) →
  files w' = files w ∧ ∀ record, r = Ok record → sealed s name plain record.
Proof.
  unfold seal. intros Hr. apply bind_run in Hr as [(e & Hm & ->)|(w1 & n & Hm & Hr)].
  - unfold getrandom in Hm. by injection Hm as <- _.
  - unfold getrandom in Hm. destruct (random_bytes _ _) as [l|] eqn:El; [|done].
    apply random_length in El. injection Hm as <- <-.
    apply bind_run in Hr as [(e & [= <- _] & ->)|(w2 & c & Hc & Hr)]; [done|].
    unfold of_result in Hc. destruct (aead_encrypt _ _ _ _) as [c'|] eqn:Ec; [|done].
    injection Hc as <- <-. injection Hr as <- <-. split; [done|]. intros record [= <-].
    by exists l, c'.
Qed.

Lemma sealed_open s name plain record :
  sealed s name plain record →
  zlen record = zlen plain + 45 ∧ open_record s name record = Ok plain.
Proof.
  intros (nonce & c & Hn & Hc & ->). assert (Hlen : length nonce = 24%nat) by (unfold zlen in Hn; lia).
  pose proof (aead_length _ _ _ _ _ Hc) as Hl. split.
  - unfold envelope, zlen in *. rewrite !length_app. change (length ENVELOPE_MAGIC) with 4%nat.
    cbn [length]. lia.
  - unfold open_record. assert (Hm : has_magic (envelope nonce c) = true).
    { by apply bool_decide_eq_true. }
    rewrite Hm. cbn [negb].
    assert (Hz : 45 ≤ zlen (envelope nonce c)).
    { unfold envelope, zlen in *. rewrite !length_app. change (length ENVELOPE_MAGIC) with 4%nat.
      cbn [length]. lia. }
    rewrite (proj2 (Z.ltb_ge _ (4 + 1 + 24 + 16))) by lia.
    rewrite bool_decide_true by done. cbn [orb negb].
    change (drop 29 (envelope nonce c)) with (drop 24 (nonce ++ c)).
    change (drop 5 (envelope nonce c)) with (nonce ++ c).
    rewrite take_app_length', drop_app_length' by done.
    by rewrite (aead_decrypt_encrypt _ _ _ _ _ Hc).
Qed.

Lemma touches_seal S s name plain : touches S (seal s name plain).
Proof. intros w w' r Hr p _. by apply seal_run in Hr as [-> _]. Qed.

(** The paths a save may touch. *)
Definition record_paths (s : Store) (name : string) (q : path) : Prop :=
  q = join (directory s) name ∨ q = join (directory s) (temp_name name).

Lemma touches_save {T : Type} `{Json T} s name (state : T) :
  touches (record_paths s name) (save_named s name state).
Proof.
  unfold save_named. apply touches_bind; [auto with frames|intros _].
  apply touches_bind; [auto with frames|intros encoded].
  apply touches_if; [auto with frames|].
  apply touches_bind; [apply touches_remove_stale; by right|intros _].
  apply touches_bind; [auto with frames|intros _].
  apply touches_bind; [apply touches_seal|intros record].
  apply touches_bind; [apply touches_write_new; by right|intros _].
  apply touches_bind; [apply touches_io, touches_replace; [by right|by left]|].
  auto with frames.
Qed.

(** Up to its rename a save only touches the temporary file. *)
Lemma save_run {T : Type} `{Json T} s name (state : T) w w' r :
  save_named s name state w = (w', r) →
  let p := join (directory s) name in
  (r ≠ Ok () ∧ files w' !! p = files w !! p) ∨
  ∃ encoded record, validate_checkpoint_name name = Ok () ∧ to_vec state = Some encoded ∧
    zlen encoded ≤ MAX_CHECKPOINT_BYTES ∧
    sealed s name encoded record ∧ holds (files w') p record.
Proof.
  set (tmp := join (directory s) (temp_name name)).
  intros Hr p. assert (Hne : p ≠ tmp) by (intros He; by apply join_inj, temp_name_ne in He).
  set (T1 := λ q : path, q = tmp).
  unfold save_named in Hr. fold tmp p in Hr.
  apply bind_run in Hr as [(e & [= <- _] & ->)|(w1 & [] & [= <- Hv] & Hr)]; [by left|].
  apply bind_run in Hr as [(e & [= <- _] & ->)|(w2 & encoded & [= <- He] & Hr)]; [by left|].
  destruct (to_vec state) as [enc|] eqn:Ee; [|done]. simplify_eq.
  destruct (MAX_CHECKPOINT_BYTES <? zlen encoded) eqn:El; [injection Hr as <- <-; by left|].
  bool_prop.
  apply bind_run in Hr as [(e & Hm & ->)|(w3 & [] & Hm & Hr)];
    pose proof (touches_remove_stale T1 tmp eq_refl _ _ _ Hm p Hne) as F1; [by left|].
  apply bind_run in Hr as [(e & Hm' & ->)|(w4 & [] & Hm' & Hr)];
    pose proof (touches_validate_existing T1 p _ _ _ Hm' p Hne) as F2; [left; split; congruence|].
  apply bind_run in Hr as [(e & Hs & ->)|(w5 & record & Hs & Hr)];
    apply seal_run in Hs as [F3 Hrec]; [left; split; congruence|].
  specialize (Hrec _ eq_refl).
  apply bind_run in Hr as [(e & Hw & ->)|(w6 & [] & Hw & Hr)];
    pose proof (touches_write_new T1 tmp record eq_refl _ _ _ Hw p Hne) as F4;
    [left; split; congruence|].
  apply write_new_Ok in Hw as [i Hw].
  apply bind_run in Hr as [(e & Hn & ->)|(w7 & [] & Hn & Hr)].
  - left. split; [done|]. apply map_err_run in Hn as [(a & _ & [=])|(e' & Hn & _)].
    apply rename_run in Hn as [(e1 & _ & Hf)|(m & j & c & [=] & _)]. congruence.
  - right. cbn in He. injection He as ->. exists encoded, record. split_and!; try done.
    apply map_err_run in Hn as [([] & Hn & _)|(e' & _ & [=])].
    apply rename_run in Hn as [(e1 & [=] & _)|(m & j & c & _ & Ha & Hf)].
    rewrite Hw in Ha. injection Ha as <- <- <-. exists i.
    rewrite (touches_sync_directory nothing (directory s) w7 w' _ Hr p) by (intros []).
    by rewrite Hf, lookup_insert_eq.
Qed.

Lemma private_file_valid p i c : validate_private_regular_file p (File private_file i c) = Ok ().
Proof. unfold validate_private_regular_file, validate_platform_private. cbn. by rewrite Z.eqb_refl. Qed.
End saving.

Section loading.
Context `{Faults, Host, Aead}.

Lemma load_sealed {T : Type} `{Json T} s name (state : T) encoded record w w' r :
  validate_checkpoint_name name = Ok () → to_vec state = Some encoded →
  sealed s name encoded record → holds (files w) (join (directory s) name) record →
  zlen encoded + 45 ≤ MAX_CHECKPOINT_BYTES →
  load_named s name w = (w', r) → r = Ok (Some state) ∨ r = Err (Io Fault).
Proof.
  intros Hv He Hs [i Hp] Hlen Hr. apply sealed_open in Hs as [Hz Ho].
  unfold load_named in Hr. rewrite Hv in Hr.
  apply bind_run in Hr as [(e & [=] & _)|(w1 & [] & [= <-] & Hr)].
  apply bind_run in Hr as [(e & Hm & ->)|(w2 & o & Hm & Hr)]; apply inspect_run in Hm as [Hf Hm];
    [right; by rewrite Hm|].
  rewrite Hp in Hm. subst o. rewrite private_file_valid in Hr.
  apply bind_run in Hr as [(e & [=] & _)|(w3 & [] & [= <-] & Hr)].
  cbn [node_len] in Hr. rewrite (proj2 (Z.ltb_ge _ _)) in Hr by lia.
  apply bind_run in Hr as [(e & Hm & ->)|(w4 & c & Hm & Hr)].
  - right. apply map_err_run in Hm as [(a & _ & [=])|(e' & Hm & [= ->])].
    apply read_run in Hm as (_ & _ & Hm). rewrite Hf in Hm. destruct e'; try done.
    all: exfalso; by eapply Hm.
  - apply map_err_run in Hm as [(a & Hm & [= <-])|(e' & _ & [=])].
    apply read_run in Hm as (_ & _ & m & j & Hm). rewrite Hf, Hp in Hm. injection Hm as <- <- <-.
    rewrite take_ge in Hr by (unfold zlen in *; lia).
    rewrite (proj2 (Z.ltb_ge _ _)) in Hr by lia. rewrite Ho in Hr.
    apply bind_run in Hr as [(e & [=] & _)|(w5 & pl & [= <- <-] & Hr)].
    rewrite (from_to_vec _ _ He) in Hr. left. by injection Hr.
Qed.

(** What a load reads depends on the record's file alone. *)
Lemma touches_load {T : Type} `{Json T} S s name : touches S (load_named (T:=T) s name).
Proof.
  unfold load_named. apply touches_bind; [auto with frames|intros _].
  apply touches_bind; [auto with frames|]. intros [n|]; [|auto with frames].
  apply touches_bind; [auto with frames|intros _]. apply touches_if; [auto with frames|].
  apply touches_bind; [apply touches_io; auto with frames|intros b].
  apply touches_if; [auto with frames|].
  apply touches_bind; [auto with frames|intros pl].
  apply touches_bind; [auto with frames|intros st]. auto with frames.
Qed.

(** ** Immutable ciphertexts *)

Lemma replace_noreplace_run a b w w' r :
  a ≠ b → replace_private_file a b false w = (w', r) →
  (r ≠ Ok () ∧ files w' !! b = files w !! b) ∨
  (files w !! b = None ∧ files w' !! b = files w !! a).
Proof.
  intros Hab Hr. unfold replace_private_file in Hr. destruct android.
  - apply rename_noreplace_run in Hr as [(e & -> & ->)|(m & i & c & -> & Ha & Hb & ->)];
      [by left|right]. split; [done|]. by rewrite lookup_insert_eq.
  - apply bind_run in Hr as [(e & Hl & ->)|(w1 & [] & Hl & Hr)];
      apply hard_link_run in Hl as [(e' & He & Hf)|(m & i & c & He & Ha & Hb & Hf)]; try done.
    + left. by rewrite Hf.
    + right. split; [done|]. rewrite (touches_remove_file (λ q, q = a) a eq_refl _ _ _ Hr b) by done.
      by rewrite Hf, lookup_insert_eq.
Qed.

Lemma touches_persist s name c : touches (record_paths s name) (persist_immutable s name c).
Proof.
  unfold persist_immutable. apply touches_bind; [auto with frames|intros _].
  apply touches_if; [auto with frames|].
  apply touches_bind; [auto with frames|intros _].
  apply touches_bind; [auto with frames|]. intros [n|]; [auto with frames|].
  apply touches_bind; [apply touches_remove_stale; by right|intros _].
  apply touches_bind; [apply touches_write_new; by right|intros _].
  apply touches_bind; [apply touches_io, touches_replace; [by right|by left]|intros _].
  apply touches_bind; auto with frames.
Qed.

(** A ciphertext is only ever published at a free name, and complete. *)
Lemma persist_run s name c w w' r :
  persist_immutable s name c w = (w', r) →
  let p := join (directory s) name in
  ((∀ q, r ≠ Ok q) ∧ files w' !! p = files w !! p) ∨
  (validate_artifact_name name = Ok () ∧ files w !! p = None ∧ holds (files w') p c ∧
   ∀ q, r = Ok q → q = p).
Proof.
  set (tmp := join (directory s) (temp_name name)).
  intros Hr p. assert (Hne : tmp ≠ p) by (intros He; by apply join_inj, eq_sym, temp_name_ne in He).
  set (T1 := λ q : path, q = tmp).
  assert (Hpt : ¬ T1 p) by (by intros He; apply Hne).
  unfold persist_immutable in Hr. fold tmp p in Hr.
  apply bind_run in Hr as [(e & [= <- _] & ->)|(w1 & [] & [= <- Hv] & Hr)]; [by left|].
  destruct (MAX_IMMUTABLE_BYTES <? zlen c); [injection Hr as <- <-; by left|].
  apply bind_run in Hr as [(e & Hm & ->)|(w2 & [] & Hm & Hr)];
    pose proof (touches_ensure_private_dir nothing (directory s) _ _ _ Hm p (λ x, x)) as F1;
    [by left|].
  apply bind_run in Hr as [(e & Hm' & ->)|(w3 & o & Hm' & Hr)]; apply inspect_run in Hm' as [F2 Hp];
    [left; split; [done|]; by rewrite F2|].
  destruct o as [n|]; [injection Hr as <- <-; left; split; [done|]; by rewrite F2|].
  apply bind_run in Hr as [(e & H3 & ->)|(w4 & [] & H3 & Hr)];
    pose proof (touches_remove_stale T1 tmp eq_refl _ _ _ H3 p Hpt) as F3;
    [left; split; congruence|].
  apply bind_run in Hr as [(e & Hw & ->)|(w5 & [] & Hw & Hr)];
    pose proof (touches_write_new T1 tmp c eq_refl _ _ _ Hw p Hpt) as F4;
    [left; split; congruence|].
  apply write_new_Ok in Hw as [i Hw].
  assert (Hpub : ∀ w6 x, replace_private_file tmp p false w5 = (w6, x) →
    (x ≠ Ok () ∧ files w6 !! p = files w !! p) ∨ (files w !! p = None ∧ holds (files w6) p c)).
  { intros w6 x Hx. apply replace_noreplace_run in Hx as [[Hx Hf]|[_ Hf]]; [left|right|done].
    - split; [done|]. congruence.
    - split; [congruence|]. exists i. congruence. }
  apply bind_run in Hr as [(e & Hn & ->)|(w6 & [] & Hn & Hr)].
  - apply map_err_run in Hn as [(a & _ & [=])|(e' & Hn & _)].
    apply Hpub in Hn as [[_ Hn]|[Hn Hh]]; [by left|right]. by split_and!.
  - apply map_err_run in Hn as [([] & Hn & _)|(e' & _ & [=])].
    apply Hpub in Hn as [[Hn _]|[Hn Hh]]; [done|right].
    assert (Hfin : files w' !! p = files w6 !! p ∧ ∀ q, r = Ok q → q = p).
    { apply bind_run in Hr as [(e & Hs & ->)|(w7 & [] & Hs & Hr)];
        rewrite <- (touches_sync_directory nothing (directory s) _ _ _ Hs p (λ x, x)); [done|].
      injection Hr as <- <-. by split; [|intros q [= <-]]. }
    destruct Hfin as [Hf Hq]. split_and!; try done.
    destruct Hh as [j Hj]. exists j. by rewrite Hf.
Qed.

Lemma touches_remove_named s name :
  touches (λ q, q = join (directory s) name) (remove_named s name).
Proof.
  unfold remove_named. apply touches_bind; [auto with frames|intros _].
  apply touches_bind; [auto with frames|]. intros [n|]; [|auto with frames].
  apply touches_bind; [auto with frames|intros _].
  apply touches_bind; [by apply touches_io, touches_remove_file|intros _]. auto with frames.
Qed.

(** The operations of an open store, with the record a save writes already
    of some serialisable type. *)
Inductive Op :=
| Save (T : Type) (J : Json T) (name : string) (state : T)
| Persist (name : string) (c : list Z)
| Remove (name : string)
| Load (T : Type) (J : Json T) (name : string).

(** The world after an operation, whatever it returned. *)
Definition apply (s : Store) (op : Op) (w : World) : World :=
  match op with
  | Save T J name state => fst (save_named s name state w)
  | Persist name c => fst (persist_immutable s name c w)
  | Remove name => fst (remove_named s name w)
  | Load T J name => fst (load_named (T:=T) s name w)
  end.

Definition apply_all (s : Store) (ops : list Op) (w : World) : World :=
  foldl (λ w op, apply s op w) w ops.

(** The checkpoint record an operation replaces or removes. *)
Definition rewrites (op : Op) (name : string) : Prop :=
  match op with
  | Save _ _ n _ | Remove n => n = name
  | _ => False
  end.

Lemma apply_keeps s op name m i c w :
  validate_artifact_name name = Ok () → ¬ rewrites op name →
  files w !! join (directory s) name = Some (File m i c) →
  files (apply s op w) !! join (directory s) name = Some (File m i c).
Proof.
  intros Hv Hop Hp. apply valid_artifact_name in Hv as (Hn & _ & _). destruct op as [T J n st|n d|n|T J n]; cbn in *.
  - destruct (save_named s n st w) as [w' r] eqn:E1. cbn. rewrite (touches_save _ _ _ _ _ _ E1); [done|].
    intros [He|He]; apply join_inj in He; [done|]. by apply (temp_name_fresh n name).
  - destruct (persist_immutable s n d w) as [w' r] eqn:E1. destruct (decide (n = name)) as [->|Hne].
    + apply persist_run in E1 as [[_ E1]|(_ & E1 & _)]; cbn; [by rewrite E1|by rewrite Hp in E1].
    + cbn. rewrite (touches_persist _ _ _ _ _ _ E1); [done|].
      intros [He|He]; apply join_inj in He; [done|]. by apply (temp_name_fresh n name).
  - destruct (remove_named s n w) as [w' r] eqn:E1. cbn.
    rewrite (touches_remove_named _ _ _ _ _ E1); [done|]. intros He. by apply join_inj in He.
  - destruct (load_named s n w) as [w' r] eqn:E1. cbn.
    by rewrite (touches_load nothing _ _ _ _ _ E1) by (intros []).
Qed.

Lemma apply_all_keeps s ops name m i c w :
  validate_artifact_name name = Ok () → Forall (λ op, ¬ rewrites op name) ops →
  files w !! join (directory s) name = Some (File m i c) →
  files (apply_all s ops w) !! join (directory s) name = Some (File m i c).
Proof.
  intros Hv Hops. revert w. induction Hops as [|op ops Hop _ IH]; intros w Hp; [done|].
  apply IH. by apply apply_keeps.
Qed.
End loading.

(** ** Jobs *)

Section jobs.
Context `{Faults, Host, Aead}.

Ltac keeps_calls :=
  repeat first
    [ progress keeps
    | progress unfold save_named, load_named, remove_named, persist_immutable, seal,
        remove_stale_private_file, validate_existing, write_new_private_file, replace_private_file,
        ensure_private_dir, sync_directory, inspect, io ].

Lemma keeps_getrandom n : keeps_locks (getrandom n).
Proof. intros w w' r [= <- _]. done. Qed.

Lemma apply_locks s op w : locks (apply s op w) = locks w.
Proof.
  assert (Hfst : ∀ (A : Type) (m : M CheckpointError A), keeps_locks m → locks (fst (m w)) = locks w).
  { intros A m Hm. destruct (m w) as [w' r] eqn:E1. by apply Hm in E1. }
  destruct op as [T J n st|n c|n|T J n]; apply Hfst; keeps_calls; apply keeps_getrandom.
Qed.

Lemma apply_all_locks s ops w : locks (apply_all s ops w) = locks w.
Proof.
  revert w. induction ops as [|op ops IH]; intros w; [done|]. cbn.
  change (locks (apply_all s ops (apply s op w)) = locks w). by rewrite IH, apply_locks.
Qed.

(** No operation of a store writes, replaces or removes the job's lock file. *)
Lemma apply_lock_file s op w :
  let p := join (directory s) LOCK_NAME in files (apply s op w) !! p = files w !! p.
Proof.
  assert (Hrun : ∀ (A : Type) (S : path → Prop) (m : M CheckpointError A) q,
    touches S m → ¬ S q → files (fst (m w)) !! q = files w !! q).
  { intros A S m q Hm Hq. destruct (m w) as [w' r] eqn:E1. by apply (Hm _ _ _ E1). }
  intros p. destruct op as [T J n st|n c|n|T J n]; cbn.
  - destruct (validate_checkpoint_name n) as [[]|e] eqn:Hv.
    + apply valid_checkpoint_name in Hv as [_ Hn]. eapply Hrun; [apply touches_save|].
      intros [He|He]; apply join_inj in He; [by apply Hn|by apply (lock_not_temp n)].
    + unfold save_named. by rewrite Hv.
  - destruct (validate_artifact_name n) as [[]|e] eqn:Hv.
    + apply valid_artifact_name in Hv as (_ & Hn & _). eapply Hrun; [apply touches_persist|].
      intros [He|He]; apply join_inj in He; [by apply Hn|by apply (lock_not_temp n)].
    + unfold persist_immutable. by rewrite Hv.
  - destruct (validate_checkpoint_name n) as [[]|e] eqn:Hv.
    + apply valid_checkpoint_name in Hv as [_ Hn]. eapply Hrun; [apply touches_remove_named|].
      intros He. apply join_inj in He. by apply Hn.
    + unfold remove_named. by rewrite Hv.
  - eapply Hrun; [apply (touches_load nothing)|]. intros [].
Qed.

Lemma apply_all_lock_file s ops w :
  let p := join (directory s) LOCK_NAME in files (apply_all s ops w) !! p = files w !! p.
Proof.
  intros p. revert w. induction ops as [|op ops IH]; intros w; [done|].
  change (files (apply_all s ops (apply s op w)) !! p = files w !! p).
  rewrite IH. apply apply_lock_file.
Qed.

(** ** Opening *)

Lemma acquire_lock_run d i w w' l :
  acquire_lock d i w = (w', Ok l) →
  l ∈ locks w' ∧ ∃ m c, files w' !! join d LOCK_NAME = Some (File m l c).
Proof.
  unfold acquire_lock. intros Hr.
  apply bind_run in Hr as [(e & _ & [=])|(w1 & o & _ & Hr)].
  apply bind_run in Hr as [(e & _ & [=])|(w2 & [] & _ & Hr)].
  apply bind_run in Hr as [(e & _ & [=])|(w3 & l' & Ho & Hr)].
  apply map_err_run in Ho as [(a & Ho & [= <-])|(e & _ & [=])].
  apply open_create_run in Ho as (_ & Hf & _).
  apply bind_run in Hr as [(e & _ & [=])|(w4 & n & Hn & Hr)].
  apply map_err_run in Hn as [(a & Hn & _)|(e & _ & [=])]. apply symlink_metadata_run in Hn as (Hf4 & _).
  apply bind_run in Hr as [(e & _ & [=])|(w5 & [] & [= <- _] & Hr)].
  apply bind_run in Hr as [(e & _ & [=])|(w6 & [] & Ht & Hr)]. injection Hr as <- <-.
  apply map_err_run in Ht as [([] & Ht & _)|(e & _ & [=])].
  apply try_lock_run in Ht as [Hf6 Ht]. destruct (Ht eq_refl) as [_ ->].
  split; [set_solver|]. by rewrite Hf6, Hf4.
Qed.

Lemma keeps_inspect p : keeps_locks (inspect p).
Proof. keeps_calls. Qed.

(** A lock that is held cannot be taken again. *)
Lemma acquire_lock_held d i w m l c :
  files w !! join d LOCK_NAME = Some (File m l c) → l ∈ locks w →
  ∃ w' e, acquire_lock d i w = (w', Err e).
Proof.
  intros Hf Hl. destruct (acquire_lock d i w) as [w' [l'|e]] eqn:Hr; [exfalso|by eexists _, _].
  unfold acquire_lock in Hr.
  apply bind_run in Hr as [(e & _ & [=])|(w1 & o & Hi & Hr)].
  assert (K1 : locks w1 = locks w) by (by apply keeps_inspect in Hi).
  apply inspect_run in Hi as [F1 _].
  apply bind_run in Hr as [(e & _ & [=])|(w2 & [] & Hv & Hr)].
  assert (F2 : w2 = w1) by (destruct o; by injection Hv). subst w2.
  apply bind_run in Hr as [(e & _ & [=])|(w3 & l2 & Ho & Hr)].
  apply map_err_run in Ho as [(a & Ho & [= <-])|(e & _ & [=])].
  apply open_create_run in Ho as (K3 & _ & Hj). rewrite F1 in Hj. specialize (Hj _ _ _ Hf). subst l2.
  apply bind_run in Hr as [(e & _ & [=])|(w4 & n & Hn & Hr)].
  apply map_err_run in Hn as [(a & Hn & _)|(e & _ & [=])]. apply symlink_metadata_run in Hn as (_ & K4 & _).
  apply bind_run in Hr as [(e & _ & [=])|(w5 & [] & [= <- _] & Hr)].
  apply bind_run in Hr as [(e & _ & [=])|(w6 & [] & Ht & Hr)].
  apply map_err_run in Ht as [([] & Ht & _)|(e & _ & [=])].
  destruct (try_lock_held l w4) as (w7 & e & Ht' & _); [congruence|]. congruence.
Qed.

(** Creating the root only makes directories at or above it. *)
Lemma missing_dirs_run p acc w w' r :
  missing_dirs p acc w = (w', r) →
  files w' = files w ∧ locks w' = locks w ∧
  ∀ l n, r = Ok l → Forall (λ q, (length q ≤ n)%nat) acc → (length p ≤ n)%nat →
    Forall (λ q, (length q ≤ n)%nat) l.
Proof.
  revert acc w w' r. induction p as [|c d IH]; intros acc w w' r Hr; cbn [missing_dirs] in Hr;
    apply bind_run in Hr as [(e & Hm & ->)|(w1 & o & Hm & Hr)];
    pose proof (keeps_inspect _ _ _ _ Hm) as K; apply inspect_run in Hm as [F _]; try done.
  - destruct o as [n|]; [destruct (is_dir _)|]; injection Hr as <- <-; split_and!; try done.
    by intros l k [= <-].
  - destruct o as [n|].
    + destruct (is_dir _); injection Hr as <- <-; split_and!; try done. by intros l k [= <-].
    + destruct d as [|c' d'].
      * injection Hr as <- <-. by split_and!.
      * apply IH in Hr as (F' & K' & Hl). rewrite F', K', F, K. split_and!; [done..|].
        intros l n Hlr Ha Hp. apply (Hl l n Hlr); [by constructor|]. cbn in *. lia.
Qed.

Definition shorter (n : nat) (q : path) : Prop := (length q ≤ n)%nat.

Lemma touches_create_dirs n l :
  Forall (shorter n) l → touches (shorter n) (create_dirs l) ∧ keeps_locks (create_dirs l).
Proof.
  induction 1 as [|q l Hq _ [IH1 IH2]]; cbn [create_dirs].
  - split; [auto with frames|keeps].
  - split.
    + apply touches_bind; [by apply touches_io, touches_create_dir|intros _].
      apply touches_bind; [auto with frames|by intros _].
    + apply keeps_bind; [unfold create_private_dir; keeps_calls|intros _].
      apply keeps_bind; [keeps_calls|by intros _].
Qed.

Lemma ensure_root_run root b w w' r :
  ensure_private_root root b w = (w', r) →
  (∀ q : path, (length root < length q)%nat → files w' !! q = files w !! q) ∧ locks w' = locks w ∧
  (b = false → files w' = files w).
Proof.
  unfold ensure_private_root. intros Hr.
  apply bind_run in Hr as [(e & Hm & ->)|(w1 & o & Hm & Hr)];
    pose proof (keeps_inspect _ _ _ _ Hm) as K; apply inspect_run in Hm as [F _]; [by rewrite F|].
  destruct o as [n|]; [injection Hr as <- _; by rewrite F|].
  destruct b; [|injection Hr as <- _; by rewrite F].
  assert (Hc : ∀ w2 x, create_private_root root w1 = (w2, x) →
    (∀ q : path, (length root < length q)%nat → files w2 !! q = files w1 !! q) ∧ locks w2 = locks w1).
  { intros w2 x Hc. unfold create_private_root in Hc.
    apply bind_run in Hc as [(e & Hm & ->)|(w3 & l & Hm & Hc)];
      apply missing_dirs_run in Hm as (F3 & K3 & Hl); [by rewrite F3|].
    destruct (touches_create_dirs (length root) l) as [Ht Hk]; [by apply (Hl l)|].
    split; [|rewrite <- K3; by apply Hk in Hc].
    intros q Hq. rewrite <- F3. apply (Ht _ _ _ Hc). unfold shorter. lia. }
  apply bind_run in Hr as [(e & Hm & ->)|(w2 & [] & Hm & Hr)]; apply Hc in Hm as [F2 K2].
  - split_and!; [|congruence|done]. intros q Hq. rewrite F2 by done. by rewrite F.
  - assert (K4 : locks w' = locks w2) by (revert Hr; assert (keeps_locks (ensure_private_dir root))
      as Hk by keeps_calls; apply Hk).
    split_and!; [|congruence|done]. intros q Hq.
    rewrite (touches_ensure_private_dir nothing root _ _ _ Hr q) by (intros []).
    rewrite F2 by done. by rewrite F.
Qed.

(** The lock file of a job, with the inode [l]. *)
Definition lock_file (d : path) (l : nat) (w : World) : Prop :=
  ∃ m c, files w !! join d LOCK_NAME = Some (File m l c).

Lemma open_locked_held d i secrets l w :
  lock_file d l w → l ∈ locks w → ∃ w' e, open_locked d i secrets w = (w', Err e).
Proof.
  intros (m & c & Hf) Hl. destruct (acquire_lock_held d i w m l c Hf Hl) as (w' & e & He).
  exists w', e. unfold open_locked, mbind, SE_bind. by rewrite He.
Qed.

(** Steps of [open], [create] and [discard] before the lock leave it alone. *)
Definition calm {A} (d : path) (m : M CheckpointError A) : Prop :=
  ∀ w w' r, m w = (w', r) →
    files w' !! join d LOCK_NAME = files w !! join d LOCK_NAME ∧ locks w' = locks w.

Lemma calm_held {A B} d l (m : M CheckpointError A) (f : A → M CheckpointError B) w :
  calm d m → lock_file d l w → l ∈ locks w →
  (∀ a w, lock_file d l w → l ∈ locks w → ∃ w' e, f a w = (w', Err e)) →
  ∃ w' e, (m ≫= f) w = (w', Err e).
Proof.
  intros Hm (mt & c & Hf) Hl Hk. unfold mbind, SE_bind. destruct (m w) as [w1 [a|e]] eqn:E1; [|by eexists _, _].
  apply Hm in E1 as [F K]. apply Hk; [|by rewrite K]. exists mt, c. by rewrite F.
Qed.

Lemma calm_result {A} d (r : result CheckpointError A) : calm d (of_result r).
Proof. by intros w w' x [= <- _]. Qed.
Lemma calm_root root i b : calm (join root i) (ensure_private_root root b).
Proof.
  intros w w' r Hr. apply ensure_root_run in Hr as (F & K & _). split; [|done].
  apply F. cbn. lia.
Qed.
Lemma calm_frame {A} d (S : path → Prop) (m : M CheckpointError A) :
  touches S m → keeps_locks m → ¬ S (join d LOCK_NAME) → calm d m.
Proof. intros Ht Hk Hs w w' r Hr. split; [by apply (Ht _ _ _ Hr)|by apply Hk in Hr]. Qed.
Lemma calm_ensure_dir d p : calm d (ensure_private_dir p).
Proof. apply (calm_frame d nothing); [auto with frames|keeps_calls|by intros []]. Qed.
Lemma calm_create_dir d : calm d (create_private_dir d).
Proof.
  apply (calm_frame d (λ q, q = d)); [by apply touches_io, touches_create_dir| |].
  - unfold create_private_dir. keeps_calls.
  - intros He. apply (f_equal length) in He. cbn in He. lia.
Qed.
Lemma calm_sync d p : calm d (sync_directory p).
Proof. apply (calm_frame d nothing); [auto with frames|keeps_calls|by intros []]. Qed.

Ltac calm_step :=
  eapply calm_held;
    [first [apply calm_result|apply calm_root|apply calm_ensure_dir|apply calm_create_dir|apply calm_sync]
    |eassumption..|];
  match goal with Hf : lock_file _ _ _, Hl : _ ∈ locks _ |- _ => clear Hl Hf end;
  intros [] ? ? ?.

Lemma open_held root i secrets l w :
  lock_file (join root i) l w → l ∈ locks w →
  ∃ w' e, open_with_secret_store root i secrets w = (w', Err e).
Proof.
  intros Hf Hl. unfold open_with_secret_store.
  calm_step.
  calm_step.
  calm_step.
  by apply (open_locked_held _ _ _ l).
Qed.

Lemma create_held root i secrets l w :
  lock_file (join root i) l w → l ∈ locks w →
  ∃ w' e, create_with_secret_store root i secrets w = (w', Err e).
Proof.
  intros Hf Hl. unfold create_with_secret_store.
  calm_step.
  calm_step.
  calm_step.
  calm_step.
  calm_step.
  by apply (open_locked_held _ _ _ l).
Qed.

Lemma discard_held root i l w :
  lock_file (join root i) l w → l ∈ locks w → ∃ w' e, discard root i w = (w', Err e).
Proof.
  intros Hf Hl. unfold discard.
  calm_step.
  calm_step.
  calm_step.
  match goal with Hf : lock_file _ _ ?w |- _ => destruct Hf as (m & c & Hf);
    destruct (acquire_lock_held (join root i) i w m l c Hf) as (w' & e & He); [done|] end.
  exists w', e. unfold mbind, SE_bind. by rewrite He.
Qed.

Lemma filesystem_key_run root scope w w' r :
  filesystem_load_or_create root scope w = (w', r) →
  (∀ q, q ≠ join root CATALOG_KEY_NAME → files w' !! q = files w !! q) ∧ locks w' = locks w.
Proof.
  intros Hr. split.
  - intros q Hq. revert q Hq. revert Hr.
    assert (Ht : touches (λ q, q = join root CATALOG_KEY_NAME) (filesystem_load_or_create root scope));
      [|intros Hr; by apply (Ht _ _ _ Hr)].
    unfold filesystem_load_or_create. apply touches_if; [auto with frames|].
    apply touches_bind; [auto with frames|]. intros [n|].
    + apply touches_bind; [auto with frames|intros _].
      apply touches_bind; [apply touches_io; auto with frames|intros b].
      apply touches_if; auto with frames.
    + apply touches_bind; [auto with frames|intros k].
      apply touches_bind; [by apply touches_write_new|intros _]. auto with frames.
  - revert Hr. assert (keeps_locks (filesystem_load_or_create root scope)) as Hk; [|apply Hk].
    unfold filesystem_load_or_create. keeps_calls. apply keeps_getrandom.
Qed.

Lemma open_locked_run root i w w' s :
  open_locked (join root i) i (for_state_root root) w = (w', Ok s) →
  directory s = join root i ∧ lock s ∈ locks w' ∧ lock_file (directory s) (lock s) w'.
Proof.
  unfold open_locked. intros Hr.
  apply bind_run in Hr as [(e & _ & [=])|(w1 & l & Hl & Hr)].
  apply acquire_lock_run in Hl as (Hl & m & c & Hf).
  apply bind_run in Hr as [(e & _ & [=])|(w2 & k & Hk & Hr)].
  apply attempt_run in Hk as (x & Hk & [= ->]). apply filesystem_key_run in Hk as [F K].
  destruct x as [k|e]; [|by injection Hr]. injection Hr as <- <-. cbn. split_and!; [done|by rewrite K|].
  exists m, c. cbn. rewrite F; [done|]. intros He. apply (f_equal length) in He. cbn in He. lia.
Qed.
End jobs.

Section properties.
Context `{Faults, Host, Aead}.

(** C30: replacing a saved record is atomic, whichever call fails or wherever the
    process stops. Afterwards the record is either the one from before, and
    then the save did not report success, or the new one in full; and nothing but
    the record and its temporary file has changed. A new record is given back by
    any later load of that file, unless the load itself hits an I/O error, when
    its encoding is at most [MAX_CHECKPOINT_BYTES] less the 45 bytes the file adds
    to it: a save does not check the size, and a larger record is one no load
    accepts (see [oversized_record_unreadable]). *)
Theorem checkpoint_crash_atomic {T : Type} `{Json T} s name (state : T) w w' r :
  save_named s name state w = (w', r) →
  (∀ q, ¬ record_paths s name q → files w' !! q = files w !! q) ∧
  let p := join (directory s) name in
  ((r ≠ Ok () ∧ files w' !! p = files w !! p) ∨
   ∃ encoded, to_vec state = Some encoded ∧
     (zlen encoded + 45 ≤ MAX_CHECKPOINT_BYTES →
      ∀ w2 w3 r3, files w2 !! p = files w' !! p → load_named s name w2 = (w3, r3) →
        r3 = Ok (Some state) ∨ r3 = Err (Io Fault))).
Proof.
  intros Hr. split; [by apply (touches_save s name state _ _ _ Hr)|].
  apply save_run in Hr as [Hr|(encoded & record & Hv & He & _ & Hs & [i Hh])]; [by left|right].
  exists encoded. split; [done|]. intros Hlen w2 w3 r3 Hp Hl.
  apply (load_sealed s name state encoded record w2 w3 r3 Hv He Hs); [|done..].
  exists i. by rewrite Hp.
Qed.

(** A ciphertext is written once. A successful [persist_immutable] found its
    name free and left exactly the given bytes there, and no sequence of
    operations of the store changes them afterwards, failures and further
    attempts to write the same name included, unless a record of that very
    name is saved or removed. *)
Theorem immutable_written_once s name c w w' q :
  persist_immutable s name c w = (w', Ok q) →
  q = join (directory s) name ∧ files w !! q = None ∧ holds (files w') q c ∧
  ∀ ops, Forall (λ op, ¬ rewrites op name) ops → holds (files (apply_all s ops w')) q c.
Proof.
  intros Hr. apply persist_run in Hr as [[Hr _]|(Hv & Hn & [i Hh] & Hq)]; [by destruct (Hr q)|].
  rewrite (Hq q eq_refl). split_and!; [done..|by exists i|].
  intros ops Hops. exists i. by apply apply_all_keeps.
Qed.

(** One process at a time has a job. While a store is open, whatever it has
    done since, opening, creating or discarding the same job fails; [create]
    succeeds only when the job directory did not exist and [open] only when it
    did. *)
Theorem job_exclusive root i w w' s :
  (open root i w = (w', Ok s) → is_dir (files w !! join root i) = true) ∧
  (create root i w = (w', Ok s) → files w !! join root i = None) ∧
  (open root i w = (w', Ok s) ∨ create root i w = (w', Ok s) →
   ∀ ops secrets w2, w2 = apply_all s ops w' →
     (∃ w3 e, open_with_secret_store root i secrets w2 = (w3, Err e)) ∧
     (∃ w3 e, create_with_secret_store root i secrets w2 = (w3, Err e)) ∧
     (∃ w3 e, discard root i w2 = (w3, Err e))).
Proof.
  assert (Hopen : open root i w = (w', Ok s) →
    is_dir (files w !! join root i) = true ∧
    ∃ w1, open_locked (join root i) i (for_state_root root) w1 = (w', Ok s)).
  { unfold open, open_with_secret_store. intros Hr.
    apply bind_run in Hr as [(e & _ & [=])|(w1 & [] & [= <- _] & Hr)].
    apply bind_run in Hr as [(e & _ & [=])|(w2 & [] & H2 & Hr)].
    apply ensure_root_run in H2 as (_ & _ & F). specialize (F eq_refl).
    apply bind_run in Hr as [(e & _ & [=])|(w3 & [] & H3 & Hr)]. split; [|by exists w3].
    apply bind_run in H3 as [(e & _ & [=])|(w4 & n & H3 & H4)].
    apply map_err_run in H3 as [(a & H3 & [= <-])|(e & _ & [=])].
    apply symlink_metadata_run in H3 as (_ & _ & Hn). rewrite <- F, Hn.
    destruct n; try done; by injection H4. }
  assert (Hcreate : create root i w = (w', Ok s) →
    files w !! join root i = None ∧
    ∃ w1, open_locked (join root i) i (for_state_root root) w1 = (w', Ok s)).
  { unfold create, create_with_secret_store. intros Hr.
    apply bind_run in Hr as [(e & _ & [=])|(w1 & [] & [= <- _] & Hr)].
    apply bind_run in Hr as [(e & _ & [=])|(w2 & [] & H2 & Hr)].
    apply ensure_root_run in H2 as (F & _ & _).
    apply bind_run in Hr as [(e & _ & [=])|(w3 & [] & H3 & Hr)].
    apply bind_run in Hr as [(e & _ & [=])|(w4 & [] & _ & Hr)].
    apply bind_run in Hr as [(e & _ & [=])|(w5 & [] & _ & Hr)].
    split; [|by exists w5].
    apply map_err_run in H3 as [([] & H3 & _)|(e & _ & [=])]. apply create_dir_Ok in H3 as [H3 _].
    rewrite <- F; [done|]. cbn. lia. }
  split_and!; [naive_solver..|]. intros Hr ops secrets w2 ->.
  assert (Hl : directory s = join root i ∧ lock s ∈ locks w' ∧ lock_file (directory s) (lock s) w').
  { destruct Hr as [Hr|Hr]; [apply Hopen in Hr as (_ & w1 & Hr)|apply Hcreate in Hr as (_ & w1 & Hr)];
      by apply open_locked_run in Hr. }
  destruct Hl as (Hd & Hl & (m & c & Hf)).
  assert (Hf2 : lock_file (join root i) (lock s) (apply_all s ops w')).
  { exists m, c. rewrite <- Hd. rewrite apply_all_lock_file. done. }
  rewrite <- (apply_all_locks s ops) in Hl.
  split_and!; [by apply (open_held _ _ _ (lock s))|by apply (create_held _ _ _ (lock s))
    |by apply (discard_held _ _ (lock s))].
Qed.

(** ** Without failures *)

Definition tick (w : World) : World :=
  {| clock := S (clock w); files := files w; locks := locks w |}.

Definition absent_or_private (w : World) (p : path) : Prop :=
  ∀ n, files w !! p = Some n → validate_private_regular_file p n = Ok ().

Section sound.
Hypothesis no_faults : ∀ t, fault t = None.

Lemma inspect_ok p w : inspect p w = (tick w, Ok (files w !! p)).
Proof.
  unfold inspect, mbind, SE_bind, attempt, symlink_metadata, os. rewrite no_faults.
  by destruct (files w !! p).
Qed.

Lemma validate_existing_ok p w :
  absent_or_private w p → validate_existing p w = (tick w, Ok ()).
Proof.
  intros Hp. unfold validate_existing. rewrite (bind_Ok _ _ _ _ _ (inspect_ok p w)).
  destruct (files w !! p) as [n|] eqn:E1; [|done]. by rewrite (Hp n E1).
Qed.

Lemma remove_stale_ok p w :
  absent_or_private w p →
  ∃ w', remove_stale_private_file p w = (w', Ok ()) ∧ files w' = delete p (files w).
Proof.
  intros Hp. unfold remove_stale_private_file. rewrite (bind_Ok _ _ _ _ _ (inspect_ok p w)).
  destruct (files w !! p) as [n|] eqn:E1.
  - rewrite (Hp n E1). erewrite bind_Ok by done. unfold io, map_err, remove_file, os.
    rewrite no_faults. cbn. rewrite E1. specialize (Hp n E1). destruct n; try done; by eexists.
  - exists (tick w). split; [done|]. by rewrite delete_id.
Qed.

Lemma write_new_ok p c w :
  files w !! p = None → parent_is_dir (files w) p = true →
  ∃ w' i, write_new_private_file p c w = (w', Ok ()) ∧
    files w' = <[p := File private_file i c]> (files w).
Proof.
  intros Hp Hd. unfold write_new_private_file.
  set (w1 := {| clock := S (clock w); files := <[p := File private_file (clock w) []]> (files w);
                locks := locks w |}).
  assert (E1 : io (open_new private_file p) w = (w1, Ok (clock w))).
  { unfold io, map_err, open_new, os. by rewrite no_faults, Hp, Hd. }
  rewrite (bind_Ok _ _ _ _ _ E1).
  assert (E2 : io (write_all p c) w1 = ({| clock := S (clock w1); files := set_content p c (files w1);
    locks := locks w |}, Ok ())).
  { unfold io, map_err, write_all, os. by rewrite no_faults. }
  rewrite (bind_Ok _ _ _ _ _ E2).
  assert (Hs : set_content p c (files w1) = <[p := File private_file (clock w) c]> (files w)).
  { unfold set_content. cbn. rewrite lookup_insert_eq. apply insert_insert_eq. }
  unfold io, map_err, sync, os. rewrite no_faults. cbn [files]. rewrite Hs, lookup_insert_eq.
  by eexists _, _.
Qed.

Lemma parent_join d n : parent (join d n) = Some d ∨ d = [].
Proof. destruct d; [by right|by left]. Qed.

Lemma load_ok {T : Type} `{Json T} s name (state : T) encoded record w :
  validate_checkpoint_name name = Ok () → to_vec state = Some encoded →
  sealed s name encoded record → holds (files w) (join (directory s) name) record →
  zlen encoded + 45 ≤ MAX_CHECKPOINT_BYTES →
  ∃ w', load_named s name w = (w', Ok (Some state)).
Proof.
  intros Hv He Hrec [i Hh] Hlen. pose proof (sealed_open _ _ _ _ Hrec) as [Hz Ho].
  unfold load_named. rewrite Hv. erewrite bind_Ok by done.
  rewrite (bind_Ok _ _ _ _ _ (inspect_ok _ w)), Hh, private_file_valid.
  erewrite bind_Ok by done. cbn [node_len]. rewrite (proj2 (Z.ltb_ge _ _)) by lia.
  assert (Er : io (read (join (directory s) name)) (tick w) = (tick (tick w), Ok record)).
  { unfold io, map_err, read, os. rewrite no_faults. change (files (tick w)) with (files w). by rewrite Hh. }
  rewrite (bind_Ok _ _ _ _ _ Er), take_ge by (unfold zlen in *; lia).
  rewrite (proj2 (Z.ltb_ge _ _)), Ho by lia. erewrite bind_Ok by done.
  rewrite (from_to_vec _ _ He). by eexists.
Qed.

Lemma save_ok {T : Type} `{Json T} s name (state : T) encoded m w :
  let p := join (directory s) name in
  let tmp := join (directory s) (temp_name name) in
  (∀ t, is_Some (random_bytes t 24)) →
  (∀ nonce, zlen nonce = 24 →
    is_Some (aead_encrypt (catalog_key s) nonce encoded (aad s name))) →
  validate_checkpoint_name name = Ok () → to_vec state = Some encoded →
  zlen encoded ≤ MAX_CHECKPOINT_BYTES →
  files w !! directory s = Some (Dir m) → absent_or_private w p → absent_or_private w tmp →
  ∃ w1 record, save_named s name state w = (w1, Ok ()) ∧ files w1 !! tmp = None ∧
    sealed s name encoded record ∧ holds (files w1) p record.
Proof.
  intros p tmp Hrand Henc Hv He Hlen Hd Hp Ht.
  assert (Hne : p ≠ tmp) by (intros Hx; by apply join_inj, temp_name_ne in Hx).
  assert (Hpd : tmp ≠ directory s) by (intros Hx; apply (f_equal length) in Hx; cbn in Hx; lia).
  assert (Hpd' : p ≠ directory s) by (intros Hx; apply (f_equal length) in Hx; cbn in Hx; lia).
  unfold save_named. rewrite Hv, He. fold p tmp.
  erewrite bind_Ok by done. erewrite bind_Ok by done.
  rewrite (proj2 (Z.ltb_ge _ _)) by lia.
  destruct (remove_stale_ok tmp w Ht) as (w1 & E1 & F1). rewrite (bind_Ok _ _ _ _ _ E1).
  assert (Hp1 : absent_or_private w1 p).
  { intros n Hn. apply Hp. by rewrite F1, lookup_delete_ne in Hn. }
  rewrite (bind_Ok _ _ _ _ _ (validate_existing_ok p w1 Hp1)).
  destruct (Hrand (clock (tick w1))) as [nonce Hnonce].
  destruct (Henc nonce (random_length _ _ _ Hnonce)) as [c Hc].
  assert (E2 : seal s name encoded (tick w1) = (tick (tick w1), Ok (envelope nonce c))).
  { unfold seal. assert (Eg : getrandom 24 (tick w1) = (tick (tick w1), Ok nonce))
      by (unfold getrandom; by rewrite Hnonce).
    rewrite (bind_Ok _ _ _ _ _ Eg), Hc. done. }
  rewrite (bind_Ok _ _ _ _ _ E2).
  destruct (write_new_ok tmp (envelope nonce c) (tick (tick w1))) as (w3 & i & E3 & F3).
  { cbn. by rewrite F1, lookup_delete_eq. }
  { unfold parent_is_dir. destruct (parent_join (directory s) (temp_name name)) as [Hq|Hq].
    - unfold tmp. rewrite Hq. cbn. by rewrite F1, lookup_delete_ne, Hd.
    - unfold tmp. by rewrite Hq. }
  rewrite (bind_Ok _ _ _ _ _ E3).
  set (w4 := {| clock := S (clock w3);
    files := <[p := File private_file i (envelope nonce c)]> (delete tmp (files w3)); locks := locks w3 |}).
  assert (Hd3 : files w3 !! directory s = Some (Dir m)).
  { rewrite F3, lookup_insert_ne by done. cbn. by rewrite F1, lookup_delete_ne. }
  assert (E4 : io (replace_private_file tmp p true) w3 = (w4, Ok ())).
  { unfold io, map_err, replace_private_file, rename, os.
    assert (Hw3 : files w3 !! tmp = Some (File private_file i (envelope nonce c)))
      by (by rewrite F3, lookup_insert_eq).
    assert (Hp3 : absent_or_private w3 p).
    { intros n Hn. apply Hp1. by rewrite F3, lookup_insert_ne in Hn. }
    rewrite no_faults, Hw3. destruct (files w3 !! p) as [[]|] eqn:En; try done.
    by specialize (Hp3 _ En). }
  rewrite (bind_Ok _ _ _ _ _ E4).
  assert (Hd4 : files w4 !! directory s = Some (Dir m)).
  { cbn. by rewrite lookup_insert_ne, lookup_delete_ne. }
  assert (E5 : sync_directory (directory s) w4 = (tick w4, Ok ())).
  { unfold sync_directory, io, map_err, sync, os. by rewrite no_faults, Hd4. }
  rewrite E5.
  assert (Hrec : sealed s name encoded (envelope nonce c)).
  { exists nonce, c. split_and!; [by eapply random_length|done..]. }
  exists (tick w4), (envelope nonce c). split_and!; [done| |done|].
  - cbn. by rewrite lookup_insert_ne, lookup_delete_eq.
  - exists i. cbn. by rewrite lookup_insert_eq.
Qed.

(** With nothing failing, saving works and loading returns what was saved:
    in an existing job directory whose entries of that name are absent or
    private, [save_named] of a serialisable state returns, leaves no temporary
    file, and [load_named] then returns the state. *)
Theorem checkpoint_roundtrip {T : Type} `{Json T} s name (state : T) encoded m w :
  (∀ t, is_Some (random_bytes t 24)) →
  (∀ nonce, zlen nonce = 24 →
    is_Some (aead_encrypt (catalog_key s) nonce encoded (aad s name))) →
  validate_checkpoint_name name = Ok () → to_vec state = Some encoded →
  zlen encoded + 45 ≤ MAX_CHECKPOINT_BYTES →
  files w !! directory s = Some (Dir m) →
  absent_or_private w (join (directory s) name) →
  absent_or_private w (join (directory s) (temp_name name)) →
  ∃ w1 w2, save_named s name state w = (w1, Ok ()) ∧
    files w1 !! join (directory s) (temp_name name) = None ∧
    load_named s name w1 = (w2, Ok (Some state)) ∧ files w2 = files w1.
Proof.
  intros Hrand Henc Hv He Hlen Hd Hp Ht.
  destruct (save_ok s name state encoded m w) as (w1 & record & E1 & F1 & Hrec & Hh); [done..|lia|done|done|done|].
  destruct (load_ok s name state encoded record w1) as (w2 & E2); [done..|].
  exists w1, w2. split_and!; try done.
  apply map_eq. intros q. by apply (touches_load nothing s name _ _ _ E2 q (λ x, x)).
Qed.
End sound.

(** A record whose encoding is within 45 bytes of the limit is accepted by
    [save_named] and then refused by [load_named]. *)
Lemma oversized_record_unreadable {T : Type} `{Json T} s name encoded record w w' r :
  validate_checkpoint_name name = Ok () →
  sealed s name encoded record → holds (files w) (join (directory s) name) record →
  zlen encoded ≤ MAX_CHECKPOINT_BYTES < zlen encoded + 45 →
  load_named (T:=T) s name w = (w', r) → r = Err CheckpointTooLarge ∨ r = Err (Io Fault).
Proof.
  intros Hv Hs [i Hp] Hlen Hr. apply sealed_open in Hs as [Hz _].
  unfold load_named in Hr. rewrite Hv in Hr.
  apply bind_run in Hr as [(e & [=] & _)|(w1 & [] & [= <-] & Hr)].
  apply bind_run in Hr as [(e & Hm & ->)|(w2 & o & Hm & Hr)]; apply inspect_run in Hm as [Hf Hm];
    [right; by rewrite Hm|].
  rewrite Hp in Hm. subst o. rewrite private_file_valid in Hr.
  apply bind_run in Hr as [(e & [=] & _)|(w3 & [] & [= <-] & Hr)].
  cbn [node_len] in Hr. rewrite (proj2 (Z.ltb_lt _ _)) in Hr by lia.
  injection Hr as _ <-. by left.
Qed.
End properties.

(** ** A job on an empty root *)

Module Example_job.
Import Example_crypto.
Definition fault_at (n : nat) : Faults := λ t, if bool_decide (t = n) then Some 1%nat else None.
Definition no_fault : Faults := λ _, None.

#[export] Instance host : Host.
Proof.
  refine {| euid := 1000; android := false; uuid_v4 := λ _, "u";
            random_bytes := λ _ n, if 0 <=? n then Some (replicate (Z.to_nat n) 7) else None |}.
  intros t n l. destruct (0 <=? n) eqn:En; [|done]. intros [= <-]. bool_prop.
  unfold zlen. rewrite length_replicate. lia.
Defined.

#[export] Instance json_bytes : Json (list Z).
Proof. refine {| to_vec := Some; from_slice := Some |}. by intros t b [= ->]. Defined.

Definition root : path := ["home"].
Definition private : Node := Dir {| uid := 1000; mode := 448 |}.
Definition store : Store :=
  {| directory := ["job"; "home"]; id := "job"; catalog_key := key32; lock := 0 |}.
Definition world : World :=
  {| clock := 1; files := {[ root := private; directory store := private ]}; locks := {[0%nat]} |}.
Definition fresh : World := {| clock := 1; files := {[ root := private ]}; locks := ∅ |}.

(** A save whose fifth call, the write, fails half-way. *)
Lemma checkpoint_crash_atomic_witness :
  let run := @save_named (fault_at 6) host aead (list Z) json_bytes store "state" [1; 2; 3] world in
  (∀ q, ¬ record_paths store "state" q → files (fst run) !! q = files world !! q) ∧
  let p := join (directory store) "state" in
  ((snd run ≠ Ok () ∧ files (fst run) !! p = files world !! p) ∨
   ∃ encoded, to_vec [1; 2; 3] = Some encoded ∧
     (zlen encoded + 45 ≤ MAX_CHECKPOINT_BYTES →
      ∀ w2 w3 r3, files w2 !! p = files (fst run) !! p →
        @load_named (fault_at 6) host aead (list Z) json_bytes store "state" w2 = (w3, r3) →
        r3 = Ok (Some [1; 2; 3]) ∨ r3 = Err (Io Fault))).
Proof.
  intros run. apply (@checkpoint_crash_atomic (fault_at 6) host aead _ json_bytes).
  apply surjective_pairing.
Defined.

Lemma immutable_written_once_witness :
  let p := join (directory store) "part-0" in
  let w' := fst (@persist_immutable no_fault host store "part-0" [9; 9] world) in
  p = join (directory store) "part-0" ∧ files world !! p = None ∧ holds (files w') p [9; 9] ∧
  ∀ ops, Forall (λ op, ¬ rewrites op "part-0") ops →
    holds (files (@apply_all no_fault host aead store ops w')) p [9; 9].
Proof.
  intros p w'. apply (@immutable_written_once no_fault host aead store "part-0" [9; 9] world w' p).
  vm_compute. reflexivity.
Defined.

Lemma job_exclusive_witness :
  let run := @create no_fault host root "job" fresh in
  ∃ s, snd run = Ok s ∧
    ∀ ops secrets w2, w2 = @apply_all no_fault host aead s ops (fst run) →
     (∃ w3 e, @open_with_secret_store no_fault host root "job" secrets w2 = (w3, Err e)) ∧
     (∃ w3 e, @create_with_secret_store no_fault host root "job" secrets w2 = (w3, Err e)) ∧
     (∃ w3 e, @discard no_fault host root "job" w2 = (w3, Err e)).
Proof.
  intros run. eexists. split; [vm_compute; reflexivity|].
  apply (@job_exclusive no_fault host aead root "job" fresh). right. vm_compute. reflexivity.
Defined.

Lemma checkpoint_roundtrip_witness :
  ∃ w1 w2, @save_named no_fault host aead (list Z) json_bytes store "state" [1; 2; 3] world = (w1, Ok ()) ∧
    files w1 !! join (directory store) (temp_name "state") = None ∧
    @load_named no_fault host aead (list Z) json_bytes store "state" w1 = (w2, Ok (Some [1; 2; 3])) ∧
    files w2 = files w1.
Proof.
  apply (@checkpoint_roundtrip no_fault host aead (λ _, eq_refl) (list Z) json_bytes store "state"
    [1; 2; 3] [1; 2; 3] {| uid := 1000; mode := 448 |} world); try reflexivity.
  - intros t. by eexists.
  - intros nonce _. by eexists.
  - vm_compute. discriminate.
  - intros n Hn. discriminate Hn.
  - intros n Hn. discriminate Hn.
Defined.
End Example_job.
