(* ===== verification/Fetch.v ===== *)
(** * Fetching one chunk over HTTP (fetch_chunk, crates/transfer-native/src/protocol/download.rs)

    The retry loop that downloads the ciphertext of a chunk into a file beside
    a file with its entity tag, resuming a prefix with a conditional range, and
    the progress it reports while bodies arrive.  The network answers each
    request through [Http.Server]; cancellation, time and the failures of local
    writes are read off a clock that every waiting point advances.  Removing a
    stale file, whose result the source ignores, is taken to succeed. *)

From Stdlib Require Import Ascii String.
From S2P Require Import Prelude Str F64 Adaptive Transport Frame Control Http Monad.
Open Scope Z_scope.

Definition MAX_ATTEMPTS : nat := 6.
Definition TAG_BYTES : Z := 16.

(** ** Progress of concurrent requests *)

Record ReceiveProgress := {
  base_done : Z;
  verified : Z;
  item_verified : list Z;
  active : gmap (nat * Z) Z }.

Definition progress_new (base_done : Z) (item_verified : list Z) : ReceiveProgress :=
  {| base_done := base_done; verified := 0; item_verified := item_verified; active := ∅ |}.

(** [snapshot]; an item out of range would panic, and callers never pass one. *)
Definition snapshot (p : ReceiveProgress) (item : nat) : Z * Z :=
  let active_sum := sum_Z (snd <$> map_to_list (active p)) in
  let item_active :=
    sum_Z (snd <$> map_to_list (filter (λ e : (nat * Z) * Z, fst (fst e) = item) (active p))) in
  (saturating_add (saturating_add (base_done p) (verified p)) active_sum,
   saturating_add (default 0 (item_verified p !! item)) item_active).

Definition set_active (a : gmap (nat * Z) Z) (p : ReceiveProgress) : ReceiveProgress :=
  {| base_done := base_done p; verified := verified p; item_verified := item_verified p; active := a |}.

Definition report (item : nat) (chunk bytes : Z) (p : ReceiveProgress)
    : ReceiveProgress * (Z * Z) :=
  let p := set_active (<[(item, chunk) := bytes]> (active p)) p in (p, snapshot p item).

Definition restart (item : nat) (chunk : Z) (p : ReceiveProgress) : ReceiveProgress * (Z * Z) :=
  let p := set_active (<[(item, chunk) := 0]> (active p)) p in (p, snapshot p item).

Definition mark_verified (item : nat) (chunk bytes : Z) (p : ReceiveProgress)
    : ReceiveProgress * (Z * Z) :=
  let p := {| base_done := base_done p; verified := saturating_add (verified p) bytes;
              item_verified := alter (λ v, saturating_add v bytes) item (item_verified p);
              active := delete (item, chunk) (active p) |} in
  (p, snapshot p item).

Definition live_progress (done total : Z) : Z :=
  Z.min (if total =? 0 then 0 else saturating_mul done 100 / total) 99.

Definition plaintext_len (size chunk index : Z) : Z :=
  Z.min (saturating_sub size (saturating_mul index chunk)) chunk.

Definition ciphertext_to_plain (plain cipher received : Z) : Z :=
  Z.min (Z.min received cipher) plain.

Definition validate_range (value : option string) (start end_ total : Z) : result string () :=
  value ← ok_or value "range response lacks Content-Range";
  value ← ok_or (to_str value) "failed to convert header to a str";
  reject negb (value =? content_range start end_ total)%string
    with "Content-Range does not exactly match continuation";
  Ok ().

(** ** The state of a fetch *)

Record FetchState := {
  cipher : option (list Z);   (** the file at [cipher_path] *)
  etag : option string;       (** the file at [etag_path] *)
  receiving : ReceiveProgress;
  progress : Control.Progress;
  adaptive : AdaptiveConcurrency;
  waits : list Z;             (** the delays slept, the last one first *)
  clock : nat }.

Definition with_files c e (s : FetchState) : FetchState :=
  {| cipher := c; etag := e; receiving := receiving s; progress := progress s;
     adaptive := adaptive s; waits := waits s; clock := clock s |}.
Definition with_progress r p (s : FetchState) : FetchState :=
  {| cipher := cipher s; etag := etag s; receiving := r; progress := p;
     adaptive := adaptive s; waits := waits s; clock := clock s |}.
Definition with_adaptive a (s : FetchState) : FetchState :=
  {| cipher := cipher s; etag := etag s; receiving := receiving s; progress := progress s;
     adaptive := a; waits := waits s; clock := clock s |}.
Definition with_waits l (s : FetchState) : FetchState :=
  {| cipher := cipher s; etag := etag s; receiving := receiving s; progress := progress s;
     adaptive := adaptive s; waits := l; clock := clock s |}.
Definition tick (s : FetchState) : FetchState :=
  {| cipher := cipher s; etag := etag s; receiving := receiving s; progress := progress s;
     adaptive := adaptive s; waits := waits s; clock := S (clock s) |}.

(** What happens around the fetch: whether the transfer is cancelled and what
    the clocks read at a tick, which answer a request at a tick gets, and
    which local writes fail, after how many bytes. *)
Class Surroundings := {
  cancelled_at : nat → bool;
  elapsed_ms : nat → Z;
  now_ms : nat → Z;
  network : nat → Server;
  write_fault : nat → option nat }.

(** The arguments of [FetchChunkRequest] that are not shared state. *)
Record FetchChunkRequest := {
  item : nat;
  chunk : Z;
  plain : Z;
  ranges : bool;
  item_name : string;
  item_size : Z;
  fresh : bool;
  turbo : bool }.

Section fetch.
Context `{Surroundings} (r : FetchChunkRequest).

Notation F := (SE FetchState string).

Definition expected : Z := plain r + TAG_BYTES.

(** [control.phase(p)?] *)
Definition phase (p : Control.Phase) : F () := λ s,
  match Control.set_phase (cancelled_at (clock s)) p (progress s) with
  | Ok q => (tick (with_progress (receiving s) q s), Ok ())
  | Err _ => (tick s, Err "Transfer cancelled")
  end.

(** [retry_wait] *)
Definition retry_after_ms (value : option string) : option Z :=
  v ← value; v ← to_str v; v ← parse_u64 v; Some (saturating_mul v 1000).

Definition retry_wait (value : option string) (attempt : Z) : F () := λ s,
  if cancelled_at (clock s) then (tick s, Err "transfer cancelled")
  else (tick (with_waits (retry_delay_ms attempt (retry_after_ms value) 0 :: waits s) s), Ok ()).

(** [control.item] and [control.advance] after a change of [receiving]. *)
Definition show (change : ReceiveProgress → ReceiveProgress * (Z * Z)) (wire : Z) : F () :=
  modify (λ s,
    let '(rp, (done, item_done)) := change (receiving s) in
    with_progress rp
      (Control.advance done item_done wire
        (Control.item (item_name r) (Z.of_nat (item r) + 1) (item_size r) (progress s))) s).

Definition observe_bytes (bytes : Z) : F () :=
  modify (λ s, tick (with_adaptive
    (Adaptive.observe bytes (Z.max (elapsed_ms (clock s)) 1) (now_ms (clock s)) (adaptive s)) s)).

Definition remove_cipher : F () := modify (λ s, with_files None (etag s) s).
Definition remove_both : F () := modify (λ s, with_files None None s).

(** [fs::write] of the entity tag; a failure leaves some prefix of it. *)
Definition write_etag (tag : string) : F () := λ s,
  match write_fault (clock s) with
  | Some k => (tick (with_files (cipher s) (Some (of_bytes (take k (bytes tag)))) s), Err "write etag")
  | None => (tick (with_files (cipher s) (Some tag) s), Ok ())
  end.

(** Opening the output: kept for appending, otherwise created or emptied. *)
Definition open_output (append : bool) : F () := λ s,
  match write_fault (clock s) with
  | Some _ => (tick s, Err "open output")
  | None =>
      (tick (with_files (Some (if append then default [] (cipher s) else [])) (etag s) s), Ok ())
  end.

(** [out.write_all(&bytes)]; a failure has written a prefix. *)
Definition write_output (bytes : list Z) : F () := λ s,
  let file := default [] (cipher s) in
  match write_fault (clock s) with
  | Some k => (tick (with_files (Some (file ++ take k bytes)) (etag s) s), Err "write output")
  | None => (tick (with_files (Some (file ++ bytes)) (etag s) s), Ok ())
  end.

(** [out.sync_all()] *)
Definition sync_output : F () := λ s,
  match write_fault (clock s) with
  | Some _ => (tick s, Err "sync output")
  | None => (tick s, Ok ())
  end.

(** The loop over the body: the bytes received and whether it was interrupted. *)
Fixpoint read_body (length existing received : Z) (pieces : list (list Z)) (e : Ending)
    : F (Z * bool) :=
  match pieces with
  | [] =>
      match e with
      | Eof => mret (received, false)
      | Broken | Idle => mret (received, true)
      | Cancel => fail "transfer cancelled"
      end
  | bytes :: pieces =>
      let byte_len := zlen bytes in
      if length - received <? byte_len
      then fail "chunk response exceeds expected ciphertext length" else
      _ ← write_output bytes;
      let received := received + byte_len in
      _ ← phase Receiving;
      _ ← show (report (item r) (chunk r)
                  (ciphertext_to_plain (plain r) expected (saturating_add existing received))) byte_len;
      _ ← observe_bytes byte_len;
      read_body length existing received pieces e
  end.

(** A continuation must be of the same entity; any other body starts over. *)
Definition keep_or_reset (append : bool) (existing : Z) (stored : option string) (h : HeaderMap)
    : F Z :=
  if append then
    _ ← of_result (validate_range (header_get "content-range" h) existing (expected - 1) expected);
    if negb (bool_decide ((header_get "etag" h ≫= to_str) = stored))
    then fail "range ETag changed" else mret existing
  else if 0 <? existing then
    _ ← remove_cipher;
    _ ← show (restart (item r) (chunk r)) 0;
    mret 0
  else mret existing.

(** The tag is on disk before any byte of its entity. *)
Definition store_tag (append : bool) (h : HeaderMap) : F () :=
  if append then mret () else
  tag ← of_result (ok_or (header_get "etag" h ≫= to_str) "chunk response lacks strong ETag");
  if starts_with "W/" tag then fail "chunk ETag must be strong" else write_etag tag.

(** What a response does; [None] is [continue]. *)
Definition receive (attempt existing : Z) (stored : option string) (response : Response)
    : F (option (list Z)) :=
  let h := headers response in
  if status response =? 202 then
    _ ← phase Retrying; _ ← retry_wait (header_get "retry-after" h) attempt; mret None
  else if retryable_status (status response) false then
    _ ← phase Retrying; _ ← retry_wait (header_get "retry-after" h) attempt; mret None
  else if negb ((200 <=? status response) && (status response <? 300)) && negb (status response =? 206)
  then fail "chunk download failed" else
  let append := (0 <? existing) && ranges r && (status response =? 206) in
  if (status response =? 206) && negb append then fail "unexpected partial chunk response" else
  existing ← keep_or_reset append existing stored h;
  let length := if append then expected - existing else expected in
  content_length ← of_result
    (match header_get "content-length" h with
     | Some v => Some <$> ok_or (to_str v) "failed to convert header to a str"
     | None => Ok None
     end);
  _ ← of_result (validate_content_length content_length length);
  _ ← store_tag append h;
  _ ← open_output append;
  '(received, interrupted) ← read_body length existing 0 (pieces response) (ending response);
  _ ← sync_output;
  if interrupted || negb (received =? length) then
    _ ← phase Retrying; _ ← retry_wait None attempt; mret None
  else
    data ← get (λ s, default [] (cipher s));
    if negb (zlen data =? expected) then fail "retained ciphertext is truncated" else
    _ ← observe_bytes expected;
    mret (Some data).

Definition strong (tag : option string) : bool :=
  match tag with Some t => negb (is_empty t) && negb (starts_with "W/" t) | None => false end.

(** The headers of the request.  A stored tag is one a response carried; a tag
    file with bytes no header may have, which the client library refuses to send,
    is not covered. *)
Definition request_headers (existing : Z) (stored : option string) : HeaderMap :=
  match stored with
  | Some tag =>
      if (0 <? existing) && ranges r
      then [("range", range_value existing (expected - 1)); ("if-range", tag)] else []
  | None => []
  end.

Definition attempt_once (attempt : Z) : F (option (list Z)) :=
  existing ← get (λ s, zlen (default [] (cipher s)));
  existing ←
    (if fresh r && (attempt =? 0) && (0 <? existing)
     then _ ← remove_both; mret 0 else mret existing);
  if expected <? existing then _ ← remove_cipher; mret None else
  stored ← get etag;
  if (existing =? expected) && strong stored then data ← get (λ s, default [] (cipher s)); mret (Some data)
  else if (0 <? existing) && ranges r && bool_decide (stored = None)
  then _ ← remove_cipher; mret None else
  sent ← (λ s, (tick s, Ok (network (clock s) (request_headers existing stored))));
  match sent with
  | SendCancelled => fail "transfer cancelled"
  | SendTimeout | SendFailed =>
      _ ← phase Reconnecting; _ ← retry_wait None attempt; mret None
  | Received response => receive attempt existing stored response
  end.

Fixpoint fetch_from (remaining : nat) (attempt : Z) : F (list Z) :=
  match remaining with
  | O => fail "chunk retry window exhausted"
  | S remaining =>
      data ← attempt_once attempt;
      match data with
      | Some data => mret data
      | None => fetch_from remaining (attempt + 1)
      end
  end.

Definition attempts : nat := if turbo r then MAX_ATTEMPTS * 100 else MAX_ATTEMPTS.

Definition fetch_chunk : F (list Z) := fetch_from attempts 0.
End fetch.

(** ** Files through a fetch *)

Definition same_files (s s' : FetchState) : Prop := cipher s' = cipher s ∧ etag s' = etag s.

#[export] Instance same_files_refl : Reflexive same_files.
Proof. by split. Qed.
#[export] Instance same_files_trans : Transitive same_files.
Proof. intros s1 s2 s3 [] []. split; congruence. Qed.

(** Each entity tag names one entity; a response that carries a tag holds a
    prefix of its entity, or of the range its Content-Range states. *)
Definition honest_network `{Surroundings} (entity : string → list Z) : Prop :=
  ∀ t q resp tag, network t q = Received resp → header_get "etag" (headers resp) ≫= to_str = Some tag →
    (status resp ≠ 206 → body resp `prefix_of` entity tag) ∧
    (∀ s e n, status resp = 206 →
       header_get "content-range" (headers resp) = Some (content_range s e n) →
       body resp `prefix_of` slice (entity tag) s e).

(** The file on disk is a prefix of the entity its tag names. *)
Definition consistent (entity : string → list Z) (s : FetchState) : Prop :=
  ∀ c, cipher s = Some c → c ≠ [] → ∃ tag, etag s = Some tag ∧ c `prefix_of` entity tag.

Lemma consistent_same entity s s' : same_files s s' → consistent entity s → consistent entity s'.
Proof. intros [Hc He] Hs c. rewrite Hc, He. apply Hs. Qed.

Section files.
Context `{Surroundings} (r : FetchChunkRequest).

Lemma same_phase p : preserves same_files (phase p).
Proof. intros s s' x. unfold phase. case_match; intros [= <- _]; done. Qed.
Lemma same_retry_wait v a : preserves same_files (retry_wait v a).
Proof. intros s s' x. unfold retry_wait. case_match; intros [= <- _]; done. Qed.
Lemma same_show f wire : preserves same_files (show r f wire).
Proof.
  intros s s' x. unfold show, modify. destruct (f (receiving s)) as [rp [d i]]. by intros [= <- _].
Qed.
Lemma same_observe_bytes n : preserves same_files (observe_bytes n).
Proof. intros s s' x. by intros [= <- _]. Qed.
Lemma same_sync_output : preserves same_files sync_output.
Proof. intros s s' x. unfold sync_output. case_match; intros [= <- _]; done. Qed.

(** Giving up an attempt only waits. *)
Lemma same_again p v a : preserves same_files (_ ← phase p; _ ← retry_wait v a; mret (None : option (list Z))).
Proof.
  apply preserves_bind; [apply _|apply same_phase|intros _].
  apply preserves_bind; [apply _|apply same_retry_wait|intros _]. by intros s s' x [= <- _].
Qed.

Lemma again_None p v a s s' data :
  (_ ← phase p; _ ← retry_wait v a; mret (None : option (list Z))) s = (s', Ok data) → data = None.
Proof.
  intros Hr. apply bind_run in Hr as [(e & _ & [=])|(s1 & [] & _ & Hr)].
  apply bind_run in Hr as [(e & _ & [=])|(s2 & [] & _ & Hr)]. by injection Hr.
Qed.

(** The body is appended to the file, whatever ends it. *)
Lemma read_body_files length existing received pieces e s s' x :
  read_body r length existing received pieces e s = (s', x) →
  ∀ c, cipher s = Some c →
  etag s' = etag s ∧ ∃ d, cipher s' = Some (c ++ d) ∧ d `prefix_of` concat pieces ∧
    ∀ n b, x = Ok (n, b) → d = concat pieces ∧ n = received + zlen d.
Proof.
  revert received s. induction pieces as [|p pieces IH]; intros received s Hr c Hc; cbn [read_body] in Hr.
  - assert (s' = s ∧ ∀ n b, x = Ok (n, b) → n = received) as [-> Hx].
    { destruct e; injection Hr as <- <-; split; try done; by intros n b [= ->]. }
    split; [done|]. exists []. rewrite app_nil_r. split_and!; [done|done|].
    intros n b Hn. split; [done|]. rewrite (Hx n b Hn). unfold zlen. cbn. lia.
  - destruct (length - received <? zlen p).
    { injection Hr as <- <-. split; [done|]. exists []. rewrite app_nil_r.
      split_and!; [done|apply prefix_nil|done]. }
    assert (Hw : ∀ s1 y, write_output p s = (s1, y) →
      etag s1 = etag s ∧ ∃ d, cipher s1 = Some (c ++ d) ∧ d `prefix_of` p ∧ (y = Ok () → d = p)).
    { unfold write_output. rewrite Hc. intros s1 y. cbn [default]. case_match; intros [= <- <-]; cbn.
      - split; [done|]. eexists. split_and!; [done|by exists (drop n p); rewrite take_drop|done].
      - split; [done|]. by exists p. }
    apply bind_run in Hr as [(e' & Hm & ->)|(s1 & [] & Hm & Hr)];
      destruct (Hw _ _ Hm) as (He1 & d & Hd & Hp & Hok).
    { split; [done|]. exists d. split_and!; [done| |done]. cbn [concat]. by apply prefix_app_r. }
    rewrite Hok in Hd by done. clear d Hp Hok Hw Hm.
    assert (Hstop : ∀ s2, same_files s1 s2 → etag s2 = etag s ∧
      ∃ d, cipher s2 = Some (c ++ d) ∧ d `prefix_of` concat (p :: pieces)).
    { intros s2 [H2 H2']. split; [congruence|]. exists p. split; [congruence|].
      cbn [concat]. by apply prefix_app_r. }
    apply bind_run in Hr as [(e' & Hm & ->)|(s2 & [] & Hm & Hr)]; pose proof (same_phase _ _ _ _ Hm) as S2.
    { destruct (Hstop _ S2) as (? & d & ? & ?). split; [done|]. by exists d. }
    apply bind_run in Hr as [(e' & Hm' & ->)|(s3 & [] & Hm' & Hr)]; pose proof (same_show _ _ _ _ _ Hm') as S3.
    { destruct (Hstop s' ltac:(by etransitivity)) as (? & d & ? & ?). split; [done|]. by exists d. }
    apply bind_run in Hr as [(e' & Hm'' & ->)|(s4 & [] & Hm'' & Hr)];
      pose proof (same_observe_bytes _ _ _ _ Hm'') as S4.
    { destruct (Hstop s' ltac:(by etransitivity; [|etransitivity])) as (? & d & ? & ?). split; [done|]. by exists d. }
    assert (S14 : same_files s1 s4) by (by etransitivity; [|etransitivity]). destruct S14 as [S14 S14'].
    destruct (IH _ _ Hr (c ++ p)) as (He & d & Hd' & Hp & Hn); [congruence|].
    split; [congruence|]. exists (p ++ d). rewrite app_assoc. split_and!; [done| |].
    + cbn [concat]. by apply prefix_app.
    + intros n b Hx. destruct (Hn n b Hx) as [-> ->]. split; [done|].
      unfold zlen. rewrite length_app. lia.
Qed.

Lemma prefix_slice_app (entity c b : list Z) e :
  c `prefix_of` entity → b `prefix_of` slice entity (zlen c) e → c ++ b `prefix_of` entity.
Proof.
  intros [k ->] Hb. unfold slice, zlen in Hb.
  rewrite Nat2Z.id, drop_app_length in Hb. apply prefix_app.
  etransitivity; [exact Hb|]. eexists. symmetry. apply take_drop.
Qed.

(** What a completed attempt hands back: the whole record, as it is on disk,
    and taken from the entity its tag names. *)
Definition complete (entity : string → list Z) (s : FetchState) (data : list Z) : Prop :=
  zlen data = expected r ∧ cipher s = Some data ∧
  ∃ tag, etag s = Some tag ∧ data `prefix_of` entity tag.

Lemma consistent_empty entity s : default [] (cipher s) = [] → consistent entity s.
Proof. intros Hc c Hs Hne. rewrite Hs in Hc. by destruct Hne. Qed.

(** The output file is open at [c], and the body continues it. *)
Lemma store_body entity length existing attempt pieces e c tag s s' x :
  cipher s = Some c → etag s = Some tag → c ++ concat pieces `prefix_of` entity tag →
  ('(received, interrupted) ← read_body r length existing 0 pieces e;
   _ ← sync_output;
   if interrupted || negb (received =? length) then
     _ ← phase Retrying; _ ← retry_wait None attempt; mret None
   else
     data ← get (λ s, default [] (cipher s));
     if negb (zlen data =? expected r) then fail "retained ciphertext is truncated" else
     _ ← observe_bytes (expected r);
     mret (Some data)) s = (s', x) →
  consistent entity s' ∧ ∀ data, x = Ok (Some data) → complete entity s' data.
Proof.
  intros Hc He Hp Hr.
  assert (Hcons : ∀ s1 d, cipher s1 = Some (c ++ d) → etag s1 = Some tag → d `prefix_of` concat pieces →
    consistent entity s1).
  { intros s1 d Hc1 He1 Hd c' Hc' _. exists tag. split; [done|].
    assert (c' = c ++ d) as -> by congruence. etransitivity; [|exact Hp]. by apply prefix_app. }
  apply bind_run in Hr as [(e' & Hm & ->)|(s1 & [received interrupted] & Hm & Hr)];
    destruct (read_body_files _ _ _ _ _ _ _ _ Hm c Hc) as (He1 & d & Hc1 & Hd & Hfull).
  { split; [|done]. eapply Hcons; [done|congruence|done]. }
  assert (Hc2 : ∀ s2, same_files s1 s2 → consistent entity s2).
  { intros s2 [H2 H2']. apply (Hcons s2 d); [congruence|congruence|exact Hd]. }
  apply bind_run in Hr as [(e' & Hm2 & ->)|(s2 & [] & Hm2 & Hr)];
    pose proof (same_sync_output _ _ _ Hm2) as S2; [by split; [apply Hc2|]|].
  destruct (interrupted || negb (received =? length)).
  { pose proof (same_again _ _ _ _ _ _ Hr) as S3. split; [apply Hc2; by etransitivity|].
    intros data ->. by apply again_None in Hr. }
  apply bind_run in Hr as [(e' & [=] & _)|(s3 & data & Hg & Hr)]. injection Hg as <- <-.
  destruct (zlen (default [] (cipher s2)) =? expected r) eqn:El; cbn [negb] in Hr.
  2: { injection Hr as <- <-. split; [by apply Hc2|done]. }
  bool_prop. apply bind_run in Hr as [(e' & [=] & _)|(s4 & [] & Ho & Hr)].
  pose proof (same_observe_bytes _ _ _ _ Ho) as S4. injection Hr as <- <-.
  assert (S14 : same_files s1 s4) by (by etransitivity).
  split; [by apply Hc2|]. intros data [= <-]. destruct S2 as [Hc2' _]. destruct S14 as [Hc4 He4].
  split_and!; [done|rewrite Hc4, Hc2', Hc1; done|]. exists tag. split; [congruence|].
  rewrite Hc2', Hc1. cbn [default]. etransitivity; [|exact Hp]. by apply prefix_app.
Qed.

Lemma keep_or_reset_run append existing stored h s s1 x :
  existing = zlen (default [] (cipher s)) →
  keep_or_reset r append existing stored h s = (s1, x) →
  (s1 = s ∨ default [] (cipher s1) = []) ∧
  ∀ ex1, x = Ok ex1 →
    if append then s1 = s ∧ ex1 = existing ∧
      header_get "content-range" h = Some (content_range existing (expected r - 1) (expected r)) ∧
      header_get "etag" h ≫= to_str = stored
    else default [] (cipher s1) = [] ∧ ex1 = 0.
Proof.
  intros Hex. unfold keep_or_reset. destruct append; intros Hr.
  - apply bind_run in Hr as [(e & [= <- _] & ->)|(s2 & [] & [= <- Hv] & Hr)]; [by split; [left|]|].
    destruct (bool_decide (_ = stored)) eqn:Et; [|injection Hr as <- <-; by split; [left|]].
    injection Hr as <- <-. bool_prop. split; [by left|]. intros ex1 [= <-].
    unfold validate_range, mbind, result_bind, ok_or in Hv.
    destruct (header_get "content-range" _) as [v|]; [|done].
    destruct (to_str v) as [v'|] eqn:Ev; [|done]. unfold to_str in Ev. destruct (forallb _ _); [|done].
    injection Ev as <-. destruct (v =? _)%string eqn:Eq; [|done]. bool_prop. by subst v.
  - destruct (0 <? existing) eqn:E0; bool_prop.
    + apply bind_run in Hr as [(e' & [=] & _)|(s2 & [] & [= <-] & Hr)].
      apply bind_run in Hr as [(e' & Hsh & ->)|(s3 & [] & Hsh & [= <- <-])]; apply same_show in Hsh as [Hsh _].
      * split; [right; by rewrite Hsh|done].
      * rewrite Hsh. split; [by right|]. by intros ex1 [= <-].
    + injection Hr as <- <-. split; [by left|]. intros ex1 [= <-].
      unfold zlen in *. destruct (default [] (cipher s)); [by rewrite Hex|cbn in *; lia].
Qed.

(** When a body starts over, its tag is stored with nothing in the file. *)
Lemma store_tag_run h s s1 x :
  default [] (cipher s) = [] → store_tag false h s = (s1, x) →
  default [] (cipher s1) = [] ∧
  (x = Ok () → ∃ tag, header_get "etag" h ≫= to_str = Some tag ∧ etag s1 = Some tag).
Proof.
  unfold store_tag. intros Hc Hr.
  apply bind_run in Hr as [(e' & [= <- _] & ->)|(s3 & tag & [= <- Htag] & Hr)]; [done|].
  destruct (header_get "etag" h ≫= to_str) as [tag'|]; [|done]. injection Htag as ->.
  destruct (starts_with _ _); [by injection Hr as <- <-|].
  unfold write_etag in Hr. case_match; injection Hr as <- <-; [done|]. split; [done|]. by exists tag.
Qed.

Lemma open_output_run append s s1 x :
  open_output append s = (s1, x) →
  etag s1 = etag s ∧ (x ≠ Ok () → s1 = tick s) ∧
  (x = Ok () → cipher s1 = Some (if append then default [] (cipher s) else [])).
Proof. unfold open_output. case_match; intros [= <- <-]; by split_and!. Qed.

Lemma receive_files entity attempt existing stored t q resp s s' x :
  honest_network entity → network t q = Received resp →
  consistent entity s → existing = zlen (default [] (cipher s)) → stored = etag s →
  receive r attempt existing stored resp s = (s', x) →
  consistent entity s' ∧ ∀ data, x = Ok (Some data) → complete entity s' data.
Proof.
  intros Hh Hq Hs Hex Hst Hr. unfold receive in Hr.
  assert (Hagain : ∀ p v, (_ ← phase p; _ ← retry_wait v attempt; mret (None : option (list Z))) s = (s', x) →
    consistent entity s' ∧ ∀ data, x = Ok (Some data) → complete entity s' data).
  { intros p v Ha. split; [by eapply consistent_same; [apply (same_again _ _ _ _ _ _ Ha)|]|].
    intros data ->. by apply again_None in Ha. }
  destruct (status resp =? 202); [by apply Hagain in Hr|].
  destruct (retryable_status _ _); [by apply Hagain in Hr|]. clear Hagain.
  destruct (negb _ && negb _); [by injection Hr as <- <-|].
  destruct ((0 <? existing) && ranges r && (status resp =? 206)) eqn:Ea;
    destruct (status resp =? 206) eqn:E206; cbn [andb negb] in Hr;
    try (by injection Hr as <- <-); try (rewrite andb_false_r in Ea; discriminate Ea); bool_prop;
    apply bind_run in Hr as [(e & Hm & ->)|(s1 & ex1 & Hm & Hr)];
    destruct (keep_or_reset_run _ _ _ _ _ _ _ Hex Hm) as [Hkr Hok];
    try (split; [destruct Hkr as [->|Hkr]; [done|by apply consistent_empty]|done]);
    specialize (Hok _ eq_refl); cbn [andb] in Hok.
  - destruct Hok as (-> & -> & Hcr & Htag).
    apply bind_run in Hr as [(e & [= <- _] & ->)|(s2 & cl & [= <- _] & Hr)]; [done|].
    apply bind_run in Hr as [(e & [= <- _] & ->)|(s2 & [] & [= <- _] & Hr)]; [done|].
    apply bind_run in Hr as [(e & [=] & _)|(s2 & [] & [= <-] & Hr)].
    apply bind_run in Hr as [(e & Ho & ->)|(s3 & [] & Ho & Hr)];
      apply open_output_run in Ho as (He3 & Hbad & Hc3); [by rewrite Hbad|].
    assert (∃ c, cipher s = Some c ∧ existing = zlen c ∧ c ≠ []) as (c & Ec & Hlen & Hne).
    { destruct (cipher s) as [c|]; [|unfold zlen in Hex; cbn in Hex; lia]. exists c.
      split_and!; [done|done|]. intros ->. unfold zlen in Hex. cbn in Hex. lia. }
    destruct (Hs c Ec Hne) as (tag & Het & Hpre). rewrite Hst, Het in Htag.
    destruct (Hh t q resp tag Hq Htag) as [_ Hbody].
    revert Hr. apply (store_body entity _ _ _ _ _ c tag); [by rewrite Hc3, Ec|congruence|].
    apply prefix_slice_app with (expected r - 1); [done|]. rewrite <- Hlen. by eapply Hbody.
  - destruct Hok as [Hc ->].
    apply bind_run in Hr as [(e & [= <- _] & ->)|(s2 & cl & [= <- _] & Hr)];
      [by split; [apply consistent_empty|]|].
    apply bind_run in Hr as [(e & [= <- _] & ->)|(s2 & [] & [= <- _] & Hr)];
      [by split; [apply consistent_empty|]|].
    apply bind_run in Hr as [(e & Hm' & ->)|(s2 & [] & Hm' & Hr)];
      apply store_tag_run in Hm' as [Hc2 Hok]; [by split; [apply consistent_empty|]|done| |done].
    destruct (Hok eq_refl) as (tag & Htag & Het2).
    apply bind_run in Hr as [(e' & Ho & ->)|(s3 & [] & Ho & Hr)];
      apply open_output_run in Ho as (He3 & Hbad & Hc3).
    { split; [|done]. apply consistent_empty. by rewrite Hbad. }
    destruct (Hh t q resp tag Hq Htag) as [Hbody _].
    revert Hr. apply (store_body entity _ _ _ _ _ [] tag); [by apply Hc3|congruence|]. by apply Hbody.
Qed.

Lemma attempt_once_files entity attempt s s' x :
  0 ≤ plain r → honest_network entity → consistent entity s →
  attempt_once r attempt s = (s', x) →
  consistent entity s' ∧ ∀ data, x = Ok (Some data) → complete entity s' data.
Proof.
  intros Hplain Hh Hs Hr. unfold attempt_once in Hr.
  apply bind_run in Hr as [(e & [=] & _)|(s1 & ex0 & Hg & Hr)]. injection Hg as <- <-.
  apply bind_run in Hr as [(e & Hm & ->)|(s1 & existing & Hm & Hr)].
  { split; [|done]. by destruct (fresh r && _ && _). }
  assert (Hs1 : consistent entity s1 ∧ existing = zlen (default [] (cipher s1))).
  { destruct (fresh r && _ && _); [|by injection Hm as <- <-].
    apply bind_run in Hm as [(e & [=] & _)|(s2 & [] & [= <-] & [= <- <-])].
    split; [by apply consistent_empty|done]. }
  clear Hs Hm. destruct Hs1 as [Hs Hex].
  destruct (expected r <? existing).
  { injection Hr as <- <-. split; [by apply consistent_empty|done]. }
  apply bind_run in Hr as [(e & [=] & _)|(s2 & stored & Hg & Hr)]. injection Hg as <- Hst.
  destruct ((existing =? expected r) && strong stored) eqn:Ed.
  { injection Hr as <- <-. split; [done|]. bool_prop. intros data [= <-].
    destruct (cipher s1) as [c|] eqn:Ec; [|unfold expected, TAG_BYTES, zlen in *; cbn in *; lia].
    assert (Hzl : zlen c = expected r) by (etransitivity; [symmetry; exact Hex|done]).
    split_and!; [done|done|]. destruct (Hs c Ec) as (tag & Ht & Hp); [|by exists tag].
    intros ->. unfold expected, TAG_BYTES, zlen in Hzl. cbn in Hzl. lia. }
  destruct ((0 <? existing) && _ && _).
  { injection Hr as <- <-. split; [by apply consistent_empty|done]. }
  apply bind_run in Hr as [(e & [=] & _)|(s2 & sent & Hg & Hr)]. injection Hg as <- Hsent.
  assert (Hs2 : consistent entity (tick s1)) by done.
  destruct sent as [| | |resp]; try (by injection Hr as <- <-).
  1,2: split; [by eapply consistent_same; [apply (same_again _ _ _ _ _ _ Hr)|]|];
    intros data ->; by apply again_None in Hr.
  by apply (receive_files entity attempt existing stored (clock s1) (request_headers r existing stored)
    resp (tick s1) s' x Hh).
Qed.

Lemma fetch_from_files entity remaining attempt s s' x :
  0 ≤ plain r → honest_network entity → consistent entity s →
  fetch_from r remaining attempt s = (s', x) →
  consistent entity s' ∧ ∀ data, x = Ok data → complete entity s' data.
Proof.
  intros Hplain Hh. revert attempt s. induction remaining as [|n IH]; intros attempt s Hs Hr; cbn in Hr.
  { by injection Hr as <- <-. }
  apply bind_run in Hr as [(e & Hm & ->)|(s1 & data & Hm & Hr)];
    apply (attempt_once_files entity) in Hm as [Hs1 Hd]; try done.
  destruct data as [data|]; [|by apply IH in Hr].
  injection Hr as <- <-. split; [done|]. intros d [= <-]. by apply Hd.
Qed.
End files.

(** Resuming a chunk never mixes two versions of it. With servers whose
    entity tags each name one entity, a fetch keeps the file on disk a prefix
    of the entity its tag names, however it ends (errors, cancellation,
    failing writes, a server that changes the entity between or during
    attempts), so that the next fetch can start from it; and a chunk it
    returns has the expected ciphertext length, is the file on disk, and comes
    from the single entity that tag names. *)
Theorem fetch_resume_sound `{Surroundings} (r : FetchChunkRequest) entity s s' result :
  0 ≤ plain r → honest_network entity → consistent entity s →
  fetch_chunk r s = (s', result) →
  consistent entity s' ∧
  ∀ data, result = Ok data →
    zlen data = plain r + TAG_BYTES ∧ cipher s' = Some data ∧
    ∃ tag, etag s' = Some tag ∧ data `prefix_of` entity tag.
Proof.
  intros Hplain Hh Hs Hr. by apply (fetch_from_files r entity) in Hr.
Qed.

(** ** A server that works *)

Section serving.
Context (entity : list Z) (tag : string) (cut : list Z → list (list Z)).

(** [bytes=a-b] of a request whose If-Range still names the entity. *)
Definition requested_range (q : HeaderMap) : option (Z * Z) :=
  t ← header_get "if-range" q;
  v ← header_get "range" q;
  v ← strip_prefix "bytes=" v;
  '(a, b) ← split_once "-" v;
  a ← parse_u64 a; b ← parse_u64 b;
  if bool_decide (t = tag) then Some (a, b) else None.

Definition serve : Server := λ q,
  match requested_range q with
  | Some (a, b) => Received (partial tag a b (zlen entity) (cut (slice entity a b)))
  | None =>
      Received {| status := 200; headers := [("etag", tag); ("content-length", decimal (zlen entity))];
                  pieces := cut entity; ending := Eof |}
  end.
End serving.

Lemma requested_own_range tag a b :
  is_u64 a → is_u64 b → requested_range tag [("range", range_value a b); ("if-range", tag)] = Some (a, b).
Proof.
  intros Ha Hb. unfold requested_range. cbn [header_get String.eqb Ascii.eqb Bool.eqb].
  cbn [mbind option_bind]. unfold range_value. rewrite strip_prefix_app. cbn [mbind option_bind].
  change ("-" +:+ decimal b) with (String "-" (decimal b)).
  rewrite (split_once_char "-") by (by apply decimal_no_char). cbn [mbind option_bind].
  rewrite !parse_decimal by done. cbn [mbind option_bind]. by rewrite bool_decide_true.
Qed.

Lemma requested_other tag t v :
  t ≠ tag → requested_range tag [("range", v); ("if-range", t)] = None.
Proof.
  intros Hne. unfold requested_range. cbn [header_get String.eqb Ascii.eqb Bool.eqb mbind option_bind].
  destruct (strip_prefix _ _) as [v'|]; [|done]. cbn [mbind option_bind].
  destruct (split_once _ _) as [[a b]|]; [|done]. cbn [mbind option_bind].
  destruct (parse_u64 a); [|done]. cbn [mbind option_bind].
  destruct (parse_u64 b); [|done]. cbn [mbind option_bind]. by rewrite bool_decide_false.
Qed.

Section works.
Context `{Surroundings} (r : FetchChunkRequest).
Hypothesis no_cancel : ∀ t, cancelled_at t = false.
Hypothesis no_fault : ∀ t, write_fault t = None.

Lemma phase_ok p s : ∃ s', phase p s = (s', Ok ()) ∧ same_files s s'.
Proof.
  destruct (phase p s) as [s' x] eqn:Ep. pose proof (same_phase _ _ _ _ Ep) as Hs.
  exists s'. split; [|done]. revert Ep. unfold phase, Control.set_phase, Control.check.
  rewrite no_cancel. cbn. intros Heq. injection Heq as <- <-. done.
Qed.

Lemma show_ok f wire s : ∃ s', show r f wire s = (s', Ok ()).
Proof. unfold show, modify. by eexists. Qed.

Lemma read_body_ok length existing received pieces s c :
  cipher s = Some c → received + zlen (concat pieces) ≤ length →
  ∃ s', read_body r length existing received pieces Eof s =
    (s', Ok (received + zlen (concat pieces), false)) ∧
    cipher s' = Some (c ++ concat pieces) ∧ etag s' = etag s.
Proof.
  intros Hc Hl.
  assert (∃ s', read_body r length existing received pieces Eof s =
    (s', Ok (received + zlen (concat pieces), false))) as [s' Hr].
  { clear Hc c. revert received s Hl. induction pieces as [|p pieces IH]; intros received s Hl; cbn [read_body].
    - exists s. change (zlen (concat [])) with 0. by rewrite Z.add_0_r.
    - assert (Hz : zlen (concat (p :: pieces)) = zlen p + zlen (concat pieces))
        by (unfold zlen; cbn [concat]; rewrite length_app; lia).
      rewrite (proj2 (Z.ltb_ge _ _)) by (unfold zlen in *; lia).
      assert (∃ s1, write_output p s = (s1, Ok ())) as [s1 E1].
      { unfold write_output. rewrite no_fault. by eexists. }
      rewrite (bind_Ok _ _ _ _ _ E1). destruct (phase_ok Receiving s1) as (s2 & E2 & _).
      rewrite (bind_Ok _ _ _ _ _ E2).
      match goal with |- context [show r ?f ?w] => destruct (show_ok f w s2) as (s3 & E3) end.
      rewrite (bind_Ok _ _ _ _ _ E3).
      erewrite bind_Ok by reflexivity.
      rewrite Hz, Z.add_assoc. apply IH. lia. }
  exists s'. destruct (read_body_files r _ _ _ _ _ _ _ _ Hr c Hc) as (He & d & Hd & _ & Hf).
  destruct (Hf _ _ eq_refl) as [-> _]. by split_and!.
Qed.

(** Storing a complete body of the right length. *)
Lemma finish_ok length existing attempt pieces c s :
  cipher s = Some c → zlen (concat pieces) = length → zlen (c ++ concat pieces) = expected r →
  ∃ s', ('(received, interrupted) ← read_body r length existing 0 pieces Eof;
   _ ← sync_output;
   if interrupted || negb (received =? length) then
     _ ← phase Retrying; _ ← retry_wait None attempt; mret None
   else
     data ← get (λ s, default [] (cipher s));
     if negb (zlen data =? expected r) then fail "retained ciphertext is truncated" else
     _ ← observe_bytes (expected r);
     mret (Some data)) s = (s', Ok (Some (c ++ concat pieces))).
Proof.
  intros Hc Hl He. destruct (read_body_ok length existing 0 pieces s c Hc) as (s1 & E1 & Hc1 & _); [lia|].
  rewrite (bind_Ok _ _ _ _ _ E1). cbn beta iota.
  erewrite bind_Ok by (unfold sync_output; rewrite no_fault; reflexivity).
  rewrite (proj2 (Z.eqb_eq (0 + zlen (concat pieces)) length)) by lia. cbn [orb negb].
  erewrite bind_Ok by reflexivity. cbn [cipher tick]. rewrite Hc1. cbn [default].
  rewrite (proj2 (Z.eqb_eq (zlen (id (c ++ concat pieces))) _)) by exact He. cbn [negb].
  erewrite bind_Ok by reflexivity. by eexists.
Qed.

Context (entity : list Z) (tag : string) (cut : list Z → list (list Z)).
Hypothesis cut_all : ∀ l, concat (cut l) = l.
Hypothesis serving : ∀ t, network t = serve entity tag cut.
Hypothesis tag_strong : strong (Some tag) = true.
Hypothesis tag_str : to_str tag = Some tag.
Hypothesis plain_bound : 0 ≤ plain r ≤ MAX_CIPHERTEXT_BYTES - TAG_BYTES.
Hypothesis entity_length : zlen entity = expected r.

Lemma expected_bound : 0 < expected r ≤ MAX_CIPHERTEXT_BYTES.
Proof. unfold expected, TAG_BYTES, MAX_CIPHERTEXT_BYTES in *. lia. Qed.

Lemma small_u64 n : 0 ≤ n ≤ expected r → is_u64 n.
Proof. pose proof expected_bound. unfold is_u64, u64_max, MAX_CIPHERTEXT_BYTES in *. lia. Qed.

(** A continuation appends the rest of the entity. *)
Lemma receive_rest attempt c s :
  cipher s = Some c → etag s = Some tag → c `prefix_of` entity → ranges r = true →
  0 < zlen c < expected r →
  ∃ s', receive r attempt (zlen c) (Some tag)
    (partial tag (zlen c) (expected r - 1) (zlen entity) (cut (slice entity (zlen c) (expected r - 1)))) s
    = (s', Ok (Some entity)).
Proof.
  intros Hc Ht [k Hk] Hr Hlen. pose proof expected_bound as Hb.
  assert (Hslice : slice entity (zlen c) (expected r - 1) = k).
  { unfold slice. rewrite Hk. unfold zlen at 2. rewrite Nat2Z.id, drop_app_length.
    apply take_ge. rewrite Hk in entity_length. unfold zlen in *. rewrite length_app in entity_length. lia. }
  assert (Hzk : zlen k = expected r - zlen c).
  { rewrite Hk in entity_length. unfold zlen in *. rewrite length_app in entity_length. lia. }
  rewrite Hslice. unfold receive. cbn [partial status headers pieces ending].
  change (206 =? 202) with false. change (retryable_status 206 false) with false.
  change (206 =? 206) with true. change ((200 <=? 206) && (206 <? 300)) with true. cbn [negb andb].
  rewrite (proj2 (Z.ltb_lt 0 (zlen c))), Hr by lia. cbn [negb andb].
  assert (Hkr : keep_or_reset r true (zlen c) (Some tag)
    [("etag", tag); ("accept-ranges", "bytes"); ("content-range", content_range (zlen c) (expected r - 1) (zlen entity));
     ("content-length", decimal (expected r - 1 - zlen c + 1))] s = (s, Ok (zlen c))).
  { assert (Hv : validate_range (Some (content_range (zlen c) (expected r - 1) (zlen entity)))
      (zlen c) (expected r - 1) (expected r) = Ok ()).
    { unfold validate_range, mbind, result_bind. cbn [ok_or].
      rewrite to_str_content_range by (apply small_u64; lia). cbn [ok_or].
      by rewrite entity_length, String.eqb_refl. }
    unfold keep_or_reset. cbn [header_get String.eqb Ascii.eqb Bool.eqb]. rewrite Hv.
    erewrite bind_Ok by reflexivity. cbn [mbind option_bind]. rewrite tag_str.
    by rewrite bool_decide_true. }
  rewrite (bind_Ok _ _ _ _ _ Hkr). cbn [header_get String.eqb Ascii.eqb Bool.eqb].
  rewrite to_str_decimal by (apply small_u64; lia). erewrite bind_Ok by reflexivity.
  replace (expected r - 1 - zlen c + 1) with (expected r - zlen c) by lia.
  rewrite validate_own_content_length by (apply small_u64; lia). erewrite bind_Ok by reflexivity.
  unfold store_tag. erewrite bind_Ok by reflexivity.
  assert (∃ s1, open_output true s = (s1, Ok ())) as [s1 Eo] by (unfold open_output; rewrite no_fault; by eexists).
  rewrite (bind_Ok _ _ _ _ _ Eo). apply open_output_run in Eo as (_ & _ & Hc1). specialize (Hc1 eq_refl).
  rewrite Hc in Hc1. cbn [default] in Hc1.
  destruct (finish_ok (expected r - zlen c) (zlen c) attempt (cut k) c s1)
    as [s' E']; [done|by rewrite cut_all|rewrite cut_all, <- Hk; done|].
  exists s'. rewrite cut_all, <- Hk in E'. exact E'.
Qed.

(** Any other answer replaces what was there. *)
Lemma receive_whole attempt existing stored s :
  existing = zlen (default [] (cipher s)) →
  ∃ s', receive r attempt existing stored
    {| status := 200; headers := [("etag", tag); ("content-length", decimal (zlen entity))];
       pieces := cut entity; ending := Eof |} s = (s', Ok (Some entity)).
Proof.
  intros Hex. pose proof expected_bound as Hb. unfold receive. cbn [status headers pieces ending].
  change (200 =? 202) with false. change (retryable_status 200 false) with false.
  change (200 =? 206) with false. change ((200 <=? 200) && (200 <? 300)) with true.
  rewrite andb_false_r. cbn [negb andb].
  assert (∃ s1, keep_or_reset r false existing stored [("etag", tag); ("content-length", decimal (zlen entity))] s
    = (s1, Ok 0)) as [s1 E1].
  { unfold keep_or_reset. destruct (0 <? existing) eqn:E0; bool_prop.
    - erewrite bind_Ok by reflexivity. destruct (show_ok (restart (item r) (chunk r)) 0 (with_files None (etag s) s)) as [s2 E2].
      rewrite (bind_Ok _ _ _ _ _ E2). by eexists.
    - replace existing with 0 by (unfold zlen in Hex; lia). by eexists. }
  rewrite (bind_Ok _ _ _ _ _ E1). cbn [header_get String.eqb Ascii.eqb Bool.eqb].
  rewrite entity_length, to_str_decimal by (apply small_u64; lia). erewrite bind_Ok by reflexivity.
  rewrite validate_own_content_length by (apply small_u64; lia). erewrite bind_Ok by reflexivity.
  assert (∃ s2, store_tag false [("etag", tag); ("content-length", decimal (expected r))] s1 = (s2, Ok ())) as [s2 E2].
  { unfold store_tag. cbn [header_get String.eqb Ascii.eqb Bool.eqb mbind option_bind]. rewrite tag_str.
    cbn [ok_or]. erewrite bind_Ok by reflexivity.
    destruct (starts_with "W/" tag) eqn:Ew; [unfold strong in tag_strong; rewrite Ew, andb_false_r in tag_strong; done|].
    unfold write_etag. rewrite no_fault. by eexists. }
  rewrite (bind_Ok _ _ _ _ _ E2).
  assert (∃ s3, open_output false s2 = (s3, Ok ())) as [s3 E3] by (unfold open_output; rewrite no_fault; by eexists).
  rewrite (bind_Ok _ _ _ _ _ E3). apply open_output_run in E3 as (_ & _ & Hc3). specialize (Hc3 eq_refl).
  destruct (finish_ok (expected r) 0 attempt (cut entity) [] s3) as [s' E']; [done|by rewrite cut_all|by rewrite cut_all|].
  exists s'. rewrite cut_all in E'. exact E'.
Qed.

Lemma send_empty attempt s :
  default [] (cipher s) = [] → ∃ s', attempt_once r attempt s = (s', Ok (Some entity)).
Proof.
  intros Hc. pose proof expected_bound as Hb. unfold attempt_once. erewrite bind_Ok by reflexivity.
  rewrite Hc. change (zlen []) with 0. change (0 <? 0) with false. rewrite andb_false_r.
  erewrite bind_Ok by reflexivity. rewrite (proj2 (Z.ltb_ge _ _)) by lia.
  erewrite bind_Ok by reflexivity. rewrite (proj2 (Z.eqb_neq 0 (expected r))) by lia. cbn [andb].
  change (0 <? 0) with false. cbn [andb]. erewrite bind_Ok by reflexivity. rewrite serving.
  assert (request_headers r 0 (etag s) = []) as ->.
  { unfold request_headers. by destruct (etag s). }
  unfold serve. cbn [requested_range header_get mbind option_bind].
  apply receive_whole. cbn. by rewrite Hc.
Qed.

(** One attempt either finishes or leaves an empty file for the next. *)
Lemma attempt_once_recovers attempt s :
  (∀ c, cipher s = Some c → etag s = Some tag → c `prefix_of` entity) →
  ∃ s' x, attempt_once r attempt s = (s', Ok x) ∧
    match x with
    | Some data => data = entity ∨
        (fresh r && (attempt =? 0) = false ∧ cipher s = Some data ∧ strong (etag s) = true ∧ zlen data = expected r)
    | None => default [] (cipher s') = []
    end.
Proof.
  intros Hpre. pose proof expected_bound as Hb.
  destruct (fresh r && (attempt =? 0) && (0 <? zlen (default [] (cipher s)))) eqn:Efresh.
  { destruct (send_empty attempt (with_files None None s)) as [s' E']; [done|]. exists s', (Some entity).
    split; [|by left]. rewrite <- E'. unfold attempt_once. erewrite bind_Ok by reflexivity. rewrite Efresh.
    erewrite bind_Ok by reflexivity. symmetry. erewrite bind_Ok by reflexivity.
    cbn [cipher with_files default]. change (0 <? zlen []) with false. rewrite andb_false_r.
    by erewrite bind_Ok by reflexivity. }
  destruct (cipher s) as [c|] eqn:Ec.
  2: { destruct (send_empty attempt s) as [s' E']; [by rewrite Ec|]. exists s', (Some entity). by split; [|left]. }
  unfold attempt_once. erewrite bind_Ok by reflexivity. rewrite Ec. rewrite Efresh.
  erewrite bind_Ok by reflexivity. change (default [] (Some c)) with c in *.
  destruct (expected r <? zlen c) eqn:El.
  { erewrite bind_Ok by reflexivity. by eexists _, None. }
  bool_prop. erewrite bind_Ok by reflexivity.
  destruct ((zlen c =? expected r) && strong (etag s)) eqn:Ed.
  { erewrite bind_Ok by reflexivity. rewrite Ec. bool_prop. eexists _, (Some c). split; [done|]. right.
    split_and!; [|done..]. destruct Efresh as [Ef|Ef]; [exact Ef|]. bool_prop. lia. }
  destruct ((0 <? zlen c) && ranges r && bool_decide (etag s = None)) eqn:En.
  { erewrite bind_Ok by reflexivity. by eexists _, None. }
  erewrite bind_Ok by reflexivity. rewrite serving. unfold serve.
  destruct (requested_range tag (request_headers r (zlen c) (etag s))) as [[a b]|] eqn:Eq.
  - unfold request_headers in Eq. destruct (etag s) as [t|] eqn:Et; [|done].
    destruct ((0 <? zlen c) && ranges r) eqn:Epr; [|done]. bool_prop.
    destruct (decide (t = tag)) as [->|Hne].
    2: { by rewrite requested_other in Eq. }
    assert (Hlt : zlen c < expected r).
    { destruct Ed as [Ed|Ed]; [bool_prop; lia|]. by rewrite tag_strong in Ed. }
    rewrite requested_own_range in Eq by (apply small_u64; lia). injection Eq as <- <-.
    destruct (receive_rest attempt c (tick s)) as [s' E']; [done|done|by apply Hpre|done|lia|].
    exists s', (Some entity). by split; [|left].
  - destruct (receive_whole attempt (zlen c) (etag s) (tick s)) as [s' E']; [cbn; by rewrite Ec|].
    exists s', (Some entity). by split; [|left].
Qed.
End works.

(** C31: a fetch recovers from whatever an earlier one left behind. With a
    server that keeps serving one entity of the right length, no cancellation
    and no failing write, [fetch_chunk] returns from any saved state (an
    oversized file, a prefix without or with another tag, a partial or
    complete record), and what it returns is that entity, unless a complete
    record with a strong tag was already on disk, which is then returned. *)
Theorem fetch_recovers `{Surroundings} (r : FetchChunkRequest) entity tag cut s :
  (∀ t, cancelled_at t = false) → (∀ t, write_fault t = None) →
  (∀ l, concat (cut l) = l) → (∀ t, network t = serve entity tag cut) →
  strong (Some tag) = true → to_str tag = Some tag →
  0 ≤ plain r ≤ MAX_CIPHERTEXT_BYTES - TAG_BYTES → zlen entity = plain r + TAG_BYTES →
  (∀ c, cipher s = Some c → etag s = Some tag → c `prefix_of` entity) →
  ∃ s' data, fetch_chunk r s = (s', Ok data) ∧
    (data = entity ∨
     fresh r = false ∧ cipher s = Some data ∧ strong (etag s) = true ∧ zlen data = plain r + TAG_BYTES).
Proof.
  intros Hc Hf Hcut Hs Hst Hts Hp Hl Hpre.
  destruct (attempt_once_recovers r Hc Hf entity tag cut Hcut Hs Hst Hts Hp Hl 0 s Hpre)
    as (s1 & x & E1 & Hx).
  assert (∃ n, attempts r = S (S n)) as [n Hn].
  { unfold attempts, MAX_ATTEMPTS. destruct (turbo r); by eexists. }
  unfold fetch_chunk. rewrite Hn. cbn [fetch_from]. rewrite (bind_Ok _ _ _ _ _ E1).
  destruct x as [data|].
  - exists s1, data. split; [done|]. destruct Hx as [->|(Hfr & Hx)]; [by left|right].
    split; [|done]. by rewrite Z.eqb_refl, andb_true_r in Hfr.
  - destruct (send_empty r Hc Hf entity tag cut Hcut Hs Hst Hts Hp Hl (0 + 1) s1 Hx) as [s2 E2].
    exists s2, entity. rewrite (bind_Ok _ _ _ _ _ E2). split; [done|by left].
Qed.

(** ** A resumed chunk *)

Module Example_fetch.
Definition entity : list Z := [1; 2; 3; 4] ++ replicate 16 0.
Definition tag : string := "tag-1".
Definition cut (l : list Z) : list (list Z) := [take 3 l; drop 3 l].

#[export] Instance calm : Surroundings :=
  {| cancelled_at := λ _, false; elapsed_ms := λ _, 5; now_ms := Z.of_nat;
     network := λ _, serve entity tag cut; write_fault := λ _, None |}.

Definition request : FetchChunkRequest :=
  {| item := 0; chunk := 0; plain := 4; ranges := true; item_name := "a"; item_size := 4;
     fresh := false; turbo := false |}.

(** Interrupted after five bytes by an earlier run. *)
Definition saved : FetchState :=
  {| cipher := Some (take 5 entity); etag := Some tag;
     receiving := progress_new 0 [0]; progress := Control.progress_default; adaptive := Adaptive.new 4;
     waits := []; clock := 0 |}.

Lemma fetch_recovers_witness :
  ∃ s' data, fetch_chunk request saved = (s', Ok data) ∧
    (data = entity ∨
     fresh request = false ∧ cipher saved = Some data ∧ strong (etag saved) = true ∧
     zlen data = plain request + TAG_BYTES).
Proof.
  apply (fetch_recovers request entity tag cut); try reflexivity; try done.
  - intros l. cbn. by rewrite app_nil_r, take_drop.
  - intros c [= <-] _. by exists (drop 5 entity).
Defined.

(** A server that cuts every body short, over the same state. *)
#[local] Instance flaky : Surroundings :=
  {| cancelled_at := λ _, false; elapsed_ms := λ _, 5; now_ms := Z.of_nat;
     network := λ _ _, Received {| status := 200; headers := [("etag", "tag-2")];
                                   pieces := [[7; 8]]; ending := Broken |};
     write_fault := λ _, None |}.

Definition versions (t : string) : list Z := if (t =? "tag-2")%string then [7; 8; 9] else entity.

Lemma fetch_resume_sound_witness :
  let run := @fetch_chunk flaky request saved in
  consistent versions (fst run) ∧
  ∀ data, snd run = Ok data →
    zlen data = plain request + TAG_BYTES ∧ cipher (fst run) = Some data ∧
    ∃ tag, etag (fst run) = Some tag ∧ data `prefix_of` versions tag.
Proof.
  intros run. apply (@fetch_resume_sound flaky request versions saved).
  - done.
  - intros t q resp tag' [= <-]. cbn. intros [= <-]. split; [|done]. intros _. by exists [9].
  - intros c [= <-] _. exists tag. split; [done|]. by exists (drop 5 entity).
  - apply surjective_pairing.
Defined.
End Example_fetch.
