(* ===== verification/Download.v ===== *)
(** * Receiving a transfer (crates/transfer-native/src/protocol/download.rs)

    The saved job and its selection, authenticating chunks into the plaintext
    file, restoring and consuming retained ciphertext, marking progress, and
    publishing finished files.  The state is the job in memory, the job last
    saved, and the files of the job and of the output directory; every call
    that touches the disk is a point where an I/O error, or the end of the
    process, can strike, after what it changes as well where a directory is synced
    last.  Saving the job leaves the old record or the new one (Checkpoint). *)

From Stdlib Require Import Ascii String.
From S2P Require Import Prelude Str Codec Frame Manifest Encryption Control Http Monad Fs Fetch.
Open Scope Z_scope.

Definition VERSION : Z := 1.

(** What the disk, the user, the server and other processes do at a tick. *)
Class World := {
  io_fault : nat → option nat;           (** an I/O error after so many bytes *)
  cancel_flag : nat → bool;
  report_status : nat → option Z;        (** the reply to a session report *)
  raced : nat → option (list Z) }.       (** a file another process creates *)

(** ** The saved job *)

Inductive DownloadSource := Public | Inbox.

Record TurboJob := {
  descriptor : string;
  session_id : string;
  session_token : string;
  sequence : Z }.

Record SavedItem := {
  id : string;
  name : string;
  size : Z;
  nonce_prefix : string;
  chunk_count : Z;
  digest : string;
  target : path;
  verified : list bool;
  published : bool }.

Record DownloadJob := {
  version : Z;
  job_id : string;
  direction : string;
  state : string;
  instance : string;
  done_bytes : Z;
  total : Z;
  transfer_id : string;
  chunk_bytes : Z;
  server_concurrency : Z;
  ranges : bool;
  driver : string;
  envelope : string;
  source : DownloadSource;
  turbo : option TurboJob;
  output : path;
  items : list SavedItem;
  selected_item_ids : option (list string);
  selection_frozen : bool }.

(** Paths as in [Fs]: components from the last one, an absolute path ends in
    the root. *)
Definition is_absolute (p : path) : bool := bool_decide (last p = Some "/").
Definition has_file_name (p : path) : bool :=
  match p with n :: _ => negb (n =? "/")%string && negb (n =? "..")%string | [] => false end.

Definition drivers : list string := ["http"; "webrtc"].

Definition bad_item (output : path) (i : SavedItem) : bool :=
  negb (Z.of_nat (length (verified i)) =? chunk_count i)
  || negb (bool_decide (parent (target i) = Some output))
  || negb (has_file_name (target i)).

Definition has_item (j : DownloadJob) (i : string) : bool :=
  existsb (λ item, (id item =? i)%string) (items j).

(** A list of item ids names existing items, each once, and at least one. *)
Definition bad_selection (j : DownloadJob) (ids : list string) : bool :=
  bool_decide (ids = [])
  || negb (bool_decide (NoDup ids))
  || existsb (λ i, negb (has_item j i)) ids.

Definition checked (j : DownloadJob) : result string () :=
  reject negb (version j =? VERSION) || negb (direction j =? "download")%string
         || is_empty (job_id j) || (chunk_bytes j =? 0)
         || negb (bool_decide (driver j ∈ drivers)) || negb (is_absolute (output j))
         || existsb (bad_item (output j)) (items j)
    with "invalid download checkpoint";
  reject match selected_item_ids j with Some ids => bad_selection j ids | None => false end
    with "invalid download item selection";
  reject selection_frozen j && bool_decide (selected_item_ids j = None)
    with "frozen download selection is missing";
  Ok ().

Definition selected (j : DownloadJob) (item : SavedItem) : bool :=
  match selected_item_ids j with
  | Some ids => existsb (λ i, (i =? id item)%string) ids
  | None => true
  end.

Definition selected_items (j : DownloadJob) : list SavedItem :=
  filter (λ i, selected j i = true) (items j).

Definition selected_total (j : DownloadJob) : result string Z :=
  try_fold (λ total item, ok_or (checked_add total (size item)) "selected download is too large")
    0 (selected_items j).

(** Field updates. *)
Definition set_items l (j : DownloadJob) : DownloadJob :=
  {| version := version j; job_id := job_id j; direction := direction j; state := state j;
     instance := instance j; done_bytes := done_bytes j; total := total j;
     transfer_id := transfer_id j; chunk_bytes := chunk_bytes j;
     server_concurrency := server_concurrency j; ranges := ranges j; driver := driver j;
     envelope := envelope j; source := source j; turbo := turbo j; output := output j; items := l;
     selected_item_ids := selected_item_ids j; selection_frozen := selection_frozen j |}.
Definition set_status st d tu (j : DownloadJob) : DownloadJob :=
  {| version := version j; job_id := job_id j; direction := direction j; state := st;
     instance := instance j; done_bytes := d; total := total j;
     transfer_id := transfer_id j; chunk_bytes := chunk_bytes j;
     server_concurrency := server_concurrency j; ranges := ranges j; driver := driver j;
     envelope := envelope j; source := source j; turbo := tu; output := output j; items := items j;
     selected_item_ids := selected_item_ids j; selection_frozen := selection_frozen j |}.
Definition set_selection ids t f (j : DownloadJob) : DownloadJob :=
  {| version := version j; job_id := job_id j; direction := direction j; state := state j;
     instance := instance j; done_bytes := done_bytes j; total := t;
     transfer_id := transfer_id j; chunk_bytes := chunk_bytes j;
     server_concurrency := server_concurrency j; ranges := ranges j; driver := driver j;
     envelope := envelope j; source := source j; turbo := turbo j; output := output j;
     items := items j; selected_item_ids := ids; selection_frozen := f |}.
Definition set_verified v (i : SavedItem) : SavedItem :=
  {| id := id i; name := name i; size := size i; nonce_prefix := nonce_prefix i;
     chunk_count := chunk_count i; digest := digest i; target := target i; verified := v;
     published := published i |}.
Definition set_published p (i : SavedItem) : SavedItem :=
  {| id := id i; name := name i; size := size i; nonce_prefix := nonce_prefix i;
     chunk_count := chunk_count i; digest := digest i; target := target i;
     verified := verified i; published := p |}.

Definition is_verified (i : SavedItem) (index : Z) : bool :=
  default false (verified i !! Z.to_nat index).
Definition all_verified (i : SavedItem) : bool := forallb (λ b, b) (verified i).

(** ** Selection before a background download *)

Definition eligible (j : DownloadJob) : bool :=
  (state j =? "awaiting-execution")%string && bool_decide (driver j ∈ drivers)
  && match turbo j with None => true | Some _ => false end.

(** [background] says which chunks have a retained background file. *)
Definition started (background : nat → Z → bool) (j : DownloadJob) : bool :=
  existsb (λ i, existsb (λ v, v) (verified i)) (items j)
  || existsb (λ e : nat * SavedItem,
       existsb (background (fst e)) (seqZ 0 (chunk_count (snd e)))) (imap pair (items j)).

Definition select_background_items (background : nat → Z → bool) (j : DownloadJob)
    (item_ids : list string) : result string DownloadJob :=
  _ ← checked j;
  reject negb (eligible j) with "saved download is not eligible for item selection";
  reject selection_frozen j || started background j
    with "download item selection is frozen after work has started";
  reject bad_selection j item_ids
    with "download item selection must contain unique manifest item ids";
  let j := set_selection (Some item_ids) (total j) (selection_frozen j) j in
  total ← selected_total j;
  Ok (set_selection (selected_item_ids j) total true j).

(** ** Chunks *)

(** [format!("filebeam:v1:{transfer}:{item}:{index}")] *)
Definition aad (transfer item index : string) : list Z :=
  bytes ("filebeam:v1:" +:+ transfer +:+ ":" +:+ item +:+ ":" +:+ index).

(** Writing at an offset: the file is extended with zeros up to it. *)
Definition write_at (file : list Z) (offset : nat) (data : list Z) : list Z :=
  let file := file ++ replicate (offset - length file) 0 in
  take offset file ++ data ++ drop (offset + length data) file.

Record State := {
  job : DownloadJob;
  checkpoint : DownloadJob;
  ciphers : gmap (nat * Z) (list Z);      (** [cipher-{item}-{chunk}] *)
  background : gmap (nat * Z) (list Z);   (** [background-cipher-{item}-{chunk}] *)
  plains : gmap nat (list Z);             (** [plain-{item}] *)
  outputs : gmap path (list Z);
  receiving : ReceiveProgress;
  progress : Control.Progress;
  clock : nat }.

Definition with_job j (s : State) : State :=
  {| job := j; checkpoint := checkpoint s; ciphers := ciphers s; background := background s;
     plains := plains s; outputs := outputs s; receiving := receiving s; progress := progress s;
     clock := clock s |}.
Definition with_checkpoint j (s : State) : State :=
  {| job := job s; checkpoint := j; ciphers := ciphers s; background := background s;
     plains := plains s; outputs := outputs s; receiving := receiving s; progress := progress s;
     clock := clock s |}.
Definition with_ciphers c b (s : State) : State :=
  {| job := job s; checkpoint := checkpoint s; ciphers := c; background := b;
     plains := plains s; outputs := outputs s; receiving := receiving s; progress := progress s;
     clock := clock s |}.
Definition with_plains p (s : State) : State :=
  {| job := job s; checkpoint := checkpoint s; ciphers := ciphers s; background := background s;
     plains := p; outputs := outputs s; receiving := receiving s; progress := progress s;
     clock := clock s |}.
Definition with_outputs o (s : State) : State :=
  {| job := job s; checkpoint := checkpoint s; ciphers := ciphers s; background := background s;
     plains := plains s; outputs := o; receiving := receiving s; progress := progress s;
     clock := clock s |}.
Definition with_shown r p (s : State) : State :=
  {| job := job s; checkpoint := checkpoint s; ciphers := ciphers s; background := background s;
     plains := plains s; outputs := outputs s; receiving := r; progress := p; clock := clock s |}.
Definition tick (s : State) : State :=
  {| job := job s; checkpoint := checkpoint s; ciphers := ciphers s; background := background s;
     plains := plains s; outputs := outputs s; receiving := receiving s; progress := progress s;
     clock := S (clock s) |}.

Section download.
Context `{Aead, Kdf, Codec, World} (master : list Z).

Notation D := (SE State string).

(** A call on the disk: a point where it can fail. *)
Definition disk : D () := λ s,
  (tick s, match io_fault (clock s) with Some _ => Err "I/O error" | None => Ok () end).

(** [store.save(&job)]: the new record is in place after the rename, and syncing its
    directory can still fail. *)
Definition save_job : D () :=
  _ ← disk; _ ← modify (λ s, with_checkpoint (job s) s); disk.

(** [control.phase(p)?] and [control.check()] *)
Definition phase (p : Control.Phase) : D () := λ s,
  match Control.set_phase (cancel_flag (clock s)) p (progress s) with
  | Ok q => (tick (with_shown (receiving s) q s), Ok ())
  | Err _ => (tick s, Err "Transfer cancelled")
  end.

(** A change of [receiving], shown through [control.item] and [control.advance]. *)
Definition show (item : nat) (i : SavedItem) (wire : Z)
    (change : ReceiveProgress → ReceiveProgress * (Z * Z)) : D () :=
  modify (λ s,
    let '(rp, (done, item_done)) := change (receiving s) in
    with_shown rp
      (Control.advance done item_done wire
        (Control.item (name i) (Z.of_nat item + 1) (size i) (progress s))) s).

Definition get_item (index : nat) : D SavedItem := λ s,
  (s, ok_or (items (job s) !! index) "index out of bounds").

(** [write_plain]; a failing write has written a prefix. *)
Definition write_plain (item : nat) (offset : Z) (plain : list Z) : D () := λ s,
  let file := default [] (plains s !! item) in
  match io_fault (clock s) with
  | Some k =>
      (tick (with_plains (<[item := write_at file (Z.to_nat offset) (take k plain)]> (plains s)) s),
       Err "I/O error")
  | None => (tick (with_plains (<[item := write_at file (Z.to_nat offset) plain]> (plains s)) s), Ok ())
  end.

(** The checks on a downloaded record. *)
Definition open_chunk (j : DownloadJob) (i : SavedItem) (index : Z) (ciphertext : list Z)
    : result string (list Z) :=
  key ← derive_item_key master (transfer_id j) (id i);
  nonce ← decode (nonce_prefix i);
  context (decrypt_chunk key nonce (as_u32 index) ciphertext (aad (transfer_id j) (id i) (decimal index)))
    "could not authenticate downloaded chunk".

Definition authenticate_and_write (item_index : nat) (index : Z) (ciphertext : list Z)
    (retain_ciphertext : bool) : D Z :=
  i ← get_item item_index;
  j ← get job;
  plain ← of_result (open_chunk j i index ciphertext);
  let expected := plaintext_len (size i) (chunk_bytes j) index in
  if negb (zlen plain =? expected)
  then fail "authenticated chunk has an invalid plaintext length" else
  _ ← (if retain_ciphertext then
         _ ← disk;
         _ ← modify (λ s, with_ciphers (<[(item_index, index) := ciphertext]> (ciphers s)) (background s) s);
         disk
       else mret ());
  _ ← write_plain item_index (index * chunk_bytes j) plain;
  mret expected.

(** Whether the retained ciphertext still authenticates; if so its plaintext is
    written again. *)
Definition restore_retained (item_index : nat) (index : Z) : D bool :=
  i ← get_item item_index;
  j ← get job;
  readable ← attempt disk;
  cipher ← get (λ s, match (readable : result string ()) with
                     | Ok _ => ciphers s !! (item_index, index)
                     | Err _ => None
                     end);
  match cipher with
  | None => mret false
  | Some cipher =>
      _ ← of_result (derive_item_key master (transfer_id j) (id i));
      _ ← of_result (decode (nonce_prefix i));
      match open_chunk j i index cipher with
      | Err _ => mret false
      | Ok plain =>
          if negb (zlen plain =? plaintext_len (size i) (chunk_bytes j) index) then mret false else
          _ ← write_plain item_index (index * chunk_bytes j) plain;
          mret true
      end
  end.

Definition update_item (f : SavedItem → SavedItem) (item_index : nat) : D () :=
  modify (λ s, with_job (set_items (alter f item_index (items (job s))) (job s)) s).

Definition set_bit (b : bool) (index : Z) (i : SavedItem) : SavedItem :=
  set_verified (<[Z.to_nat index := b]> (verified i)) i.

(** [for x in l { f(x)?; }] *)
Fixpoint for_each {A} (f : A → D ()) (l : list A) : D () :=
  match l with
  | [] => mret ()
  | a :: l => _ ← f a; for_each f l
  end.

(** ** Resuming *)

(** The inner loop of [async_resume] over the chunks of an item. *)
Definition restore_chunk (item_index : nat) (index : Z) : D () :=
  i ← get_item item_index;
  if is_verified i index then
    ok ← restore_retained item_index index;
    if (ok : bool) then mret () else update_item (set_bit false index) item_index
  else mret ().

(** The loop over the items, after their layout matched the manifest. *)
Definition restore_item (item_index : nat) : D () :=
  i ← get_item item_index;
  j ← get job;
  if negb (selected j i) then mret () else
  if published i then
    content ← get (λ s, outputs s !! target i);
    match content with
    | Some c =>
        if (sha256_hex c =? digest i)%string then mret ()
        else fail "published download target is missing or corrupted"
    | None => fail "published download target is missing or corrupted"
    end
  else for_each (restore_chunk item_index) (seqZ 0 (chunk_count i)).

(** The plaintext bytes of the verified chunks. *)
Definition item_verified_bytes (j : DownloadJob) (i : SavedItem) : Z :=
  sum_Z (imap (λ n (ok : bool), if ok then plaintext_len (size i) (chunk_bytes j) (Z.of_nat n) else 0)
    (verified i)).
Definition verified_bytes (j : DownloadJob) : Z :=
  sum_Z (item_verified_bytes j <$> selected_items j).

Definition consume_chunk (item_index : nat) (index : Z) : D () :=
  i ← get_item item_index;
  if is_verified i index then mret () else
  _ ← disk;
  ciphertext ← get (λ s, background s !! (item_index, index));
  match ciphertext with
  | None => mret ()
  | Some ciphertext =>
      j ← get job;
      let expected := plaintext_len (size i) (chunk_bytes j) index in
      if negb (zlen ciphertext =? expected + TAG_BYTES)
      then fail "background ciphertext length changed" else
      _ ← authenticate_and_write item_index index ciphertext false;
      _ ← update_item (set_bit true index) item_index;
      j ← get job;
      done ← of_result (ok_or (checked_add (done_bytes j) expected) "download progress overflow");
      _ ← modify (λ s, with_job (set_status (state (job s)) done (turbo (job s)) (job s)) s);
      _ ← disk;
      modify (λ s, with_ciphers (ciphers s) (delete (item_index, index) (background s)) s)
  end.

Definition consume_background_ciphertext : D () :=
  j ← get job;
  _ ← for_each (λ item_index,
        i ← get_item item_index;
        j ← get job;
        if negb (selected j i) then mret ()
        else for_each (consume_chunk item_index) (seqZ 0 (chunk_count i)))
      (seq 0 (length (items j)));
  modify (λ s,
    if (state (job s) =? "awaiting-execution")%string
    then with_job (set_status "running" (done_bytes (job s)) (turbo (job s)) (job s)) s else s).

(** [async_resume] from the layout check to the call of [download] *)
Definition rebuild : D () :=
  j ← get job;
  _ ← for_each restore_item (seq 0 (length (items j)));
  _ ← modify (λ s, with_job (set_status (state (job s)) (verified_bytes (job s)) (turbo (job s)) (job s)) s);
  _ ← consume_background_ciphertext;
  save_job.

(** A new process starts from the saved job.  What [async_resume] asks the server
    and the user before it comes to [rebuild] is [Opening.reopen]. *)
Definition resume : D () :=
  _ ← modify (λ s, with_job (checkpoint s) s);
  j ← get job;
  _ ← of_result (checked j);
  rebuild.

(** ** Publishing *)

(** [publish_item]: the plaintext must have the declared size and digest; an
    existing target must already be that file; a target that appears meanwhile
    is compared, never replaced; syncing the directory can fail after the file is
    in place. *)
Definition publish_item (i : SavedItem) (index : nat) : D () :=
  if existsb negb (verified i) then fail "cannot publish incomplete download" else
  _ ← disk;
  content ← get (λ s, plains s !! index);
  content ← of_result (ok_or content "No such file or directory");
  if negb (zlen content =? size i) || negb (sha256_hex content =? digest i)%string
  then fail "SHA-256 verification failed" else
  existing ← get (λ s, outputs s !! target i);
  match existing with
  | Some c =>
      if (sha256_hex c =? digest i)%string then mret () else fail "download target already exists"
  | None =>
      _ ← disk;
      _ ← modify (λ s,
            match raced (clock s) with
            | Some c => with_outputs (<[target i := c]> (outputs s)) s
            | None => s
            end);
      existing ← get (λ s, outputs s !! target i);
      match existing with
      | Some c =>
          if (sha256_hex c =? digest i)%string then mret ()
          else fail "download target was created concurrently"
      | None =>
          _ ← modify (λ s, with_outputs (<[target i := content]> (outputs s)) s);
          disk
      end
  end.

Definition cleanup_item (index : nat) (count : Z) : D () :=
  modify (λ s, with_ciphers
    (filter (λ e, ¬ (fst (fst e) = index ∧ 0 ≤ snd (fst e) < count)) (ciphers s)) (background s) s).

(** Publication of an item once all of it is verified. *)
Definition finish_item (item_index : nat) : D () :=
  i ← get_item item_index;
  j ← get job;
  if match turbo j with None => true | Some _ => false end && negb (published i) && all_verified i then
    _ ← phase Finalizing;
    _ ← publish_item i item_index;
    _ ← update_item (set_published true) item_index;
    _ ← save_job;
    cleanup_item item_index (chunk_count i)
  else mret ().

(** Files whose last bit was saved before a crash are published before the
    queue is built. *)
Definition publish_complete : D () :=
  j ← get job;
  for_each (λ item_index,
    i ← get_item item_index;
    j ← get job;
    if negb (selected j i) then mret () else finish_item item_index)
  (seq 0 (length (items j))).

(** ** Receiving *)

(** The queue of [download]: index-major over the selected items. *)
Definition pending_at (j : DownloadJob) (chunk : Z) : list (nat * Z) :=
  omap (λ e : nat * SavedItem,
    if selected j (snd e) && (chunk <? chunk_count (snd e)) && negb (is_verified (snd e) chunk)
    then Some (fst e, chunk) else None) (imap pair (items j)).
Definition max_chunks (j : DownloadJob) : Z := foldr Z.max 0 (chunk_count <$> items j).
Definition pending (j : DownloadJob) : list (nat * Z) :=
  seqZ 0 (max_chunks j) ≫= pending_at j.

(** [report_turbo]: a session without Turbo reports nothing. *)
Definition report_turbo : D () :=
  j ← get job;
  match turbo j with
  | None => mret ()
  | Some t =>
      sequence ← of_result (ok_or (checked_add (sequence t) 1) "Turbo session sequence overflow");
      _ ← modify (λ s, with_job (set_status (state (job s)) (done_bytes (job s))
            (Some {| descriptor := descriptor t; session_id := session_id t;
                     session_token := session_token t; sequence := sequence |}) (job s)) s);
      status ← (λ s, (tick s, Ok (report_status (clock s))));
      match status with
      | Some 204 => mret ()
      | _ => fail "Turbo session update failed"
      end
  end.

(** One completed fetch of the loop: [first] is its ciphertext, [again] what
    the whole-record retry yields after a failed authentication. *)
Definition on_chunk (item_index : nat) (index : Z) (first : list Z) (again : result string (list Z))
    : D () :=
  i ← get_item item_index;
  j ← get job;
  let live := (driver j =? "webrtc")%string in
  _ ← phase Verifying;
  expected ← attempt (authenticate_and_write item_index index first live);
  expected ←
    match expected with
    | Ok expected => mret expected
    | Err _ =>
        _ ← modify (λ s, with_ciphers (delete (item_index, index) (ciphers s)) (background s) s);
        _ ← show item_index i 0 (restart item_index index);
        ciphertext ← of_result again;
        authenticate_and_write item_index index ciphertext live
    end;
  _ ← update_item (set_bit true index) item_index;
  done ← of_result (ok_or (checked_add (done_bytes j) expected) "download progress overflow");
  _ ← modify (λ s, with_job (set_status (state (job s)) done (turbo (job s)) (job s)) s);
  _ ← save_job;
  _ ← report_turbo;
  _ ← save_job;
  _ ← show item_index i 0 (mark_verified item_index index expected);
  _ ← modify (λ s, with_shown (receiving s) (Control.commit done (progress s)) s);
  finish_item item_index.

(** The end of [download] once the queue is drained, without Turbo. *)
Definition complete : D () :=
  _ ← modify (λ s, with_job (set_status "complete" (done_bytes (job s)) (turbo (job s)) (job s)) s);
  save_job.

(** The loop's reaction to cancellation and to a failed fetch. *)
Definition pause : D () :=
  _ ← modify (λ s, with_job (set_status "paused" (done_bytes (job s)) (turbo (job s)) (job s)) s);
  _ ← (attempt save_job : D (result string ())); mret ().
End download.

(** ** Writing chunks *)

Lemma write_at_own file off data :
  take (length data) (drop off (write_at file off data)) = data.
Proof.
  unfold write_at. set (f := file ++ replicate (off - length file) 0).
  assert (Hl : length (take off f) = off).
  { rewrite length_take. unfold f. rewrite length_app, length_replicate. lia. }
  rewrite drop_app_length' by done. by rewrite take_app_length.
Qed.

(** Bytes of the file outside the written range stay. *)
Lemma write_at_other file off data o n :
  (o + n ≤ off ∨ off + length data ≤ o)%nat → (o + n ≤ length file)%nat →
  take n (drop o (write_at file off data)) = take n (drop o file).
Proof.
  intros Hd Hn. unfold write_at. set (f := file ++ replicate (off - length file) 0).
  assert (Hf : take n (drop o f) = take n (drop o file)).
  { unfold f. rewrite drop_app_le by lia. rewrite take_app_le; [done|]. rewrite length_drop. lia. }
  rewrite <- Hf. assert (Hlen : (off ≤ length f)%nat) by (unfold f; rewrite length_app, length_replicate; lia).
  assert (Htf : length (take off f) = off) by (rewrite length_take; lia).
  destruct Hd as [Hd|Hd].
  - rewrite drop_app_le by lia. rewrite take_app_le by (rewrite length_drop; lia).
    rewrite skipn_firstn_comm, take_take. f_equal. lia.
  - rewrite drop_app_ge by lia. rewrite Htf, drop_app_ge by lia.
    rewrite drop_drop. f_equal. f_equal. lia.
Qed.

Section invariant.
Context `{Aead, Kdf, Codec, World} (master : list Z).

(** Chunk [k] of an item in a plaintext file: the bytes at its place are those
    of some record that authenticates as this chunk, in full. *)
Definition chunk_ok (j : DownloadJob) (i : SavedItem) (file : list Z) (k : Z) : Prop :=
  ∃ c plain, open_chunk master j i k c = Ok plain ∧ zlen plain = plaintext_len (size i) (chunk_bytes j) k ∧
    take (length plain) (drop (Z.to_nat (k * chunk_bytes j)) file) = plain.

(** Sizes as manifest validation leaves them: no offset overflows. *)
Definition sized (j : DownloadJob) (i : SavedItem) : Prop :=
  is_u64 (size i) ∧ chunk_count i = Z.max 1 (div_ceil (size i) (chunk_bytes j)) ∧ 0 < chunk_bytes j ∧ chunk_count i * chunk_bytes j ≤ u64_max ∧
  Z.of_nat (length (verified i)) = chunk_count i.

Lemma plaintext_len_bounds j i k :
  sized j i → 0 ≤ k < chunk_count i →
  0 ≤ plaintext_len (size i) (chunk_bytes j) k ≤ chunk_bytes j.
Proof. intros (Hs & Hc & Hb & _) Hk. unfold plaintext_len, saturating_sub. lia. Qed.

(** Chunks lie apart, also a prefix of one being written. *)
Lemma write_chunk_other j i file k k' data :
  sized j i → 0 ≤ k < chunk_count i → 0 ≤ k' < chunk_count i → k' ≠ k →
  zlen data ≤ chunk_bytes j → chunk_ok j i file k' →
  chunk_ok j i (write_at file (Z.to_nat (k * chunk_bytes j)) data) k'.
Proof.
  intros Hs Hk Hk' Hne Hd (c & plain & Hc & Hl & Ht). exists c, plain. split_and!; [done..|].
  pose proof (plaintext_len_bounds j i k' Hs Hk') as Hp. destruct Hs as (_ & _ & Hb & _).
  destruct plain as [|b plain]; [done|].
  rewrite write_at_other; [done| |].
  - unfold zlen in *. assert (k' < k ∨ k < k') as [|] by lia; [left|right]; nia.
  - rewrite <- Ht, length_take, length_drop. cbn [length] in *.
    apply (f_equal length) in Ht. rewrite length_take, length_drop in Ht. cbn [length] in Ht. lia.
Qed.

Lemma write_chunk_own j i file k c plain :
  open_chunk master j i k c = Ok plain → zlen plain = plaintext_len (size i) (chunk_bytes j) k →
  chunk_ok j i (write_at file (Z.to_nat (k * chunk_bytes j)) plain) k.
Proof. intros Hc Hl. exists c, plain. split_and!; [done..|]. apply write_at_own. Qed.

(** What an operation that only writes in the place of chunk [k] of item [n]
    keeps: the job, the output directory, and every other chunk. *)
Record writes (n : nat) (k : Z) (s s' : State) : Prop := {
  writes_job : job s' = job s;
  writes_outputs : outputs s' = outputs s;
  writes_files : ∀ m, m ≠ n → plains s' !! m = plains s !! m;
  writes_chunks : ∀ i k', items (job s) !! n = Some i → sized (job s) i →
    0 ≤ k < chunk_count i → 0 ≤ k' < chunk_count i → k' ≠ k →
    chunk_ok (job s) i (default [] (plains s !! n)) k' →
    chunk_ok (job s) i (default [] (plains s' !! n)) k' }.

Lemma writes_same n k s s' :
  job s' = job s → outputs s' = outputs s → plains s' = plains s → writes n k s s'.
Proof. intros Hj Ho Hp. split; [done|done|intros; by rewrite Hp|]. intros. by rewrite Hp. Qed.

Lemma writes_trans n k s1 s2 s3 : writes n k s1 s2 → writes n k s2 s3 → writes n k s1 s3.
Proof.
  intros [Hj1 Ho1 Hf1 Hc1] [Hj2 Ho2 Hf2 Hc2]. split; [congruence|congruence| |].
  - intros m Hm. by rewrite Hf2, Hf1.
  - intros i k' Hi Hs Hk Hk' Hne Hok. rewrite Hj1 in Hc2. eapply Hc2; [done..|]. by eapply Hc1.
Qed.

Lemma write_plain_run n k i plain s s' r :
  items (job s) !! n = Some i → zlen plain = plaintext_len (size i) (chunk_bytes (job s)) k →
  write_plain n (k * chunk_bytes (job s)) plain s = (s', r) →
  writes n k s s' ∧
  (r = Ok () → default [] (plains s' !! n) =
     write_at (default [] (plains s !! n)) (Z.to_nat (k * chunk_bytes (job s))) plain).
Proof.
  intros Hi Hl. unfold write_plain. intros Hr.
  assert (Hw : ∀ d, zlen d ≤ zlen plain →
    writes n k s (tick (with_plains (<[n := write_at (default [] (plains s !! n))
      (Z.to_nat (k * chunk_bytes (job s))) d]> (plains s)) s))).
  { intros d Hd. split; [done|done|intros m Hm; cbn; by rewrite lookup_insert_ne|].
    intros i' k' Hi' Hs Hk Hk' Hne Hok. cbn. rewrite lookup_insert_eq. cbn.
    assert (i' = i) as -> by congruence. apply write_chunk_other; try done.
    pose proof (plaintext_len_bounds (job s) i k Hs Hk). lia. }
  destruct (io_fault (clock s)) as [x|]; injection Hr as <- <-.
  - split; [|done]. apply Hw. unfold zlen. rewrite length_take. lia.
  - split; [by apply Hw|]. intros _. cbn. by rewrite lookup_insert_eq.
Qed.

Lemma authenticate_run n k c retain s s' r :
  authenticate_and_write master n k c retain s = (s', r) →
  writes n k s s' ∧
  (∀ e, r = Ok e → ∃ i, items (job s) !! n = Some i ∧ e = plaintext_len (size i) (chunk_bytes (job s)) k ∧
     chunk_ok (job s) i (default [] (plains s' !! n)) k).
Proof.
  unfold authenticate_and_write. intros Hr.
  apply bind_run in Hr as [(e & [= <- _] & ->)|(s1 & i & [= <- Hi] & Hr)]; [by split; [apply writes_same|]|].
  destruct (items (job s) !! n) as [i'|] eqn:Ei; [|done]. injection Hi as ->.
  apply bind_run in Hr as [(e & [=] & _)|(s1 & j & [= <- <-] & Hr)].
  apply bind_run in Hr as [(e & [= <- _] & ->)|(s1 & plain & [= <- Hp] & Hr)]; [by split; [apply writes_same|]|].
  destruct (open_chunk master (job s) i k c) as [p|] eqn:Eo; [|done]. injection Hp as ->.
  destruct (zlen plain =? _) eqn:El; cbn [negb] in Hr; [|injection Hr as <- <-; by split; [apply writes_same|]].
  bool_prop.
  assert (Hm : ∀ s1 x, (if retain then _ ← disk; _ ← modify (λ s, with_ciphers (<[(n, k) := c]> (ciphers s)) (background s) s);
      disk else mret ()) s = (s1, x) → job s1 = job s ∧ outputs s1 = outputs s ∧ plains s1 = plains s).
  { intros s1 x. destruct retain; [|by intros [= <- _]].
    intros [(e & [= <- _] & _)|(s2 & [] & [= <- _] & Hm)]%bind_run; [done|].
    apply bind_run in Hm as [(e & [=] & _)|(s2 & [] & [= <-] & [= <- _])]. done. }
  apply bind_run in Hr as [(e & (Wj & Wo & Wp)%Hm & ->)|(s1 & [] & (Wj & Wo & Wp)%Hm & Hr)].
  { split; [|done]. by apply writes_same. }
  apply bind_run in Hr as [(e & Hw & ->)|(s2 & [] & Hw & Hr)]; rewrite <- Wj in Hw;
    apply (write_plain_run n k i) in Hw as [W Hown]; try (by rewrite Wj).
  - split; [|done]. eapply writes_trans; [|exact W]. by apply writes_same.
  - injection Hr as <- <-. split; [eapply writes_trans; [|exact W]; by apply writes_same|].
    intros e [= <-]. exists i. split_and!; [done|done|]. rewrite Hown, Wj, Wp by done. by eapply write_chunk_own.
Qed.

Lemma restore_retained_run n k s s' r :
  restore_retained master n k s = (s', r) →
  writes n k s s' ∧
  (r = Ok true → ∃ i, items (job s) !! n = Some i ∧ chunk_ok (job s) i (default [] (plains s' !! n)) k).
Proof.
  unfold restore_retained. intros Hr.
  apply bind_run in Hr as [(e & [= <- _] & ->)|(s1 & i & [= <- Hi] & Hr)]; [by split; [apply writes_same|]|].
  destruct (items (job s) !! n) as [i'|] eqn:Ei; [|done]. injection Hi as ->.
  apply bind_run in Hr as [(e & [=] & _)|(s1 & j & [= <- <-] & Hr)].
  apply bind_run in Hr as [(e & Hd & _)|(s1 & rd & Hd & Hr)]; apply attempt_run in Hd as (x & Hd & Hx); [done|].
  injection Hd as <- _. clear Hx.
  apply bind_run in Hr as [(e & [=] & _)|(s1 & cipher & [= <- _] & Hr)].
  destruct cipher as [cipher|]; [|injection Hr as <- <-; by split; [apply writes_same|]].
  apply bind_run in Hr as [(e & [= <- _] & ->)|(s1 & key & [= <- _] & Hr)]; [by split; [apply writes_same|]|].
  apply bind_run in Hr as [(e & [= <- _] & ->)|(s1 & non & [= <- _] & Hr)]; [by split; [apply writes_same|]|].
  destruct (open_chunk master (job s) i k cipher) as [plain|] eqn:Eo;
    [|injection Hr as <- <-; by split; [apply writes_same|]].
  destruct (zlen plain =? _) eqn:El; cbn [negb] in Hr; [|injection Hr as <- <-; by split; [apply writes_same|]].
  bool_prop. apply bind_run in Hr as [(e & Hw & ->)|(s2 & [] & Hw & Hr)];
    change (chunk_bytes (job s)) with (chunk_bytes (job (tick s))) in Hw;
    apply (write_plain_run n k i) in Hw as [W Hown]; try done;
    pose proof (writes_trans n k s _ _ (writes_same n k s (tick s) eq_refl eq_refl eq_refl) W) as W'; [done|].
  injection Hr as <- <-. split; [done|]. intros _. exists i. split; [done|]. rewrite Hown by done.
  by eapply write_chunk_own.
Qed.
End invariant.

(** ** Accounting *)

Lemma sum_Z_imap_insert {A} (f : nat → A → Z) (n : nat) (l : list A) (a b : A) :
  l !! n = Some a → sum_Z (imap f (<[n := b]> l)) = sum_Z (imap f l) - f n a + f n b.
Proof.
  revert f n. induction l as [|c l IH]; intros f [|n] Hn; try done.
  - injection Hn as ->. cbn. lia.
  - change (<[S n := b]> (c :: l)) with (c :: <[n := b]> l). cbn [imap].
    cbn [sum_Z foldr]. fold (sum_Z (imap (f ∘ S) (<[n:=b]> l))). fold (sum_Z (imap (f ∘ S) l)).
    rewrite (IH (f ∘ S) n Hn). unfold compose. lia.
Qed.

(** The bytes an item contributes to [done]. *)
Definition counted (j : DownloadJob) (i : SavedItem) : Z :=
  if selected j i then item_verified_bytes j i else 0.

Lemma verified_bytes_counted j : verified_bytes j = sum_Z (counted j <$> items j).
Proof.
  unfold verified_bytes, selected_items, counted. induction (items j) as [|i l IH]; [done|].
  rewrite filter_cons, fmap_cons.
  destruct (decide (selected j i = true)) as [E|E].
  - rewrite fmap_cons, E. unfold sum_Z in *. cbn [foldr]. lia.
  - apply not_true_is_false in E. rewrite E. unfold sum_Z in *. cbn [foldr]. lia.
Qed.

Lemma item_bytes_set_bit j i k :
  is_verified i k = false → (Z.to_nat k < length (verified i))%nat →
  item_verified_bytes j (set_bit true k i) = item_verified_bytes j i + plaintext_len (size i) (chunk_bytes j) (Z.of_nat (Z.to_nat k)).
Proof.
  intros Hv Hk. unfold item_verified_bytes, set_bit. cbn [verified set_verified size].
  destruct (lookup_lt_is_Some_2 (verified i) (Z.to_nat k)) as [b Hb]; [lia|].
  unfold is_verified in Hv. rewrite Hb in Hv. cbn in Hv. subst b.
  rewrite (sum_Z_imap_insert _ _ _ false) by done. lia.
Qed.

(** ** Which parts of the state an operation changes *)

Definition is_turbo (j : DownloadJob) : bool := match turbo j with Some _ => true | None => false end.

Definition layout (j : DownloadJob) : string * Z * option (list string) * bool :=
  (transfer_id j, chunk_bytes j, selected_item_ids j, is_turbo j).

(** Nothing the invariant speaks of. *)
Record quiet (s s' : State) : Prop := {
  quiet_layout : layout (job s') = layout (job s);
  quiet_items : items (job s') = items (job s);
  quiet_done : done_bytes (job s') = done_bytes (job s);
  quiet_plains : plains s' = plains s;
  quiet_outputs : outputs s' = outputs s }.

#[export] Instance quiet_refl : Reflexive quiet.
Proof. by split. Qed.
#[export] Instance quiet_trans : Transitive quiet.
Proof. intros s1 s2 s3 [] []. split; congruence. Qed.

(** Files in the output directory are only ever added. *)
Definition keeps_outputs (s s' : State) : Prop :=
  ∀ t c, outputs s !! t = Some c → outputs s' !! t = Some c.

#[export] Instance keeps_outputs_refl : Reflexive keeps_outputs.
Proof. by intros s t c. Qed.
#[export] Instance keeps_outputs_trans : Transitive keeps_outputs.
Proof. intros s1 s2 s3 H1 H2 t c Ht. by apply H2, H1. Qed.

Lemma quiet_keeps s s' : quiet s s' → keeps_outputs s s'.
Proof. intros Hq t c. by rewrite (quiet_outputs _ _ Hq). Qed.

Lemma preserves_weaken {S E A : Type} (P Q : S → S → Prop) (m : SE S E A) :
  preserves P m → (∀ s s', P s s' → Q s s') → preserves Q m.
Proof. intros Hm HPQ s s' r Hr. by apply HPQ, (Hm _ _ _ Hr). Qed.

Create HintDb quiet.
#[export] Hint Extern 1 (preserves quiet (mret _)) => (intros ? ? ? [= <- _]; reflexivity) : quiet.
#[export] Hint Extern 1 (preserves quiet (fail _)) => (intros ? ? ? [= <- _]; reflexivity) : quiet.
#[export] Hint Extern 1 (preserves quiet (of_result _)) => (intros ? ? ? [= <- _]; reflexivity) : quiet.
#[export] Hint Extern 1 (preserves quiet (get _)) => (intros ? ? ? [= <- _]; reflexivity) : quiet.
#[export] Hint Extern 1 (preserves quiet (modify _)) => (intros ? ? ? [= <- _]; by split) : quiet.

(** Runs down a computation of quiet calls. *)
Ltac quiet_step :=
  repeat first
    [ solve [eauto with quiet]
    | apply preserves_bind; [apply _| |intros ?]
    | match goal with |- preserves _ (if ?b then _ else _) => destruct b end
    | match goal with |- preserves _ (match ?o with _ => _ end) => destruct o end ].

Section quiet_calls.
Context `{Aead, Kdf, Codec, World} (master : list Z).

Lemma quiet_disk : preserves quiet disk.
Proof. intros s s' r [= <- _]. by split. Qed.
Lemma quiet_save : preserves quiet save_job.
Proof.
  apply preserves_bind; [apply _|apply quiet_disk|intros _]. apply preserves_bind; [apply _| |intros _; apply quiet_disk].
  intros s s' r [= <- _]. by split.
Qed.
Lemma quiet_phase p : preserves quiet (phase p).
Proof. intros s s' r. unfold phase. case_match; intros [= <- _]; by split. Qed.
Lemma quiet_show n i w f : preserves quiet (show n i w f).
Proof.
  intros s s' r. unfold show, modify. destruct (f (receiving s)) as [rp [d x]]. intros [= <- _]. by split.
Qed.
Lemma quiet_get_item n : preserves quiet (get_item n).
Proof. by intros s s' r [= <- _]. Qed.
Lemma quiet_cleanup n c : preserves quiet (cleanup_item n c).
Proof. intros s s' r [= <- _]. by split. Qed.
Lemma quiet_report : preserves quiet report_turbo.
Proof.
  intros s s' r Hr. unfold report_turbo in Hr.
  apply bind_run in Hr as [(e & [=] & _)|(s1 & j & [= <- <-] & Hr)].
  destruct (turbo (job s)) as [t|] eqn:Et; [|by injection Hr as <- _].
  apply bind_run in Hr as [(e & [= <- _] & _)|(s1 & q & [= <- _] & Hr)]; [done|].
  apply bind_run in Hr as [(e & [=] & _)|(s1 & [] & [= <-] & Hr)].
  apply bind_run in Hr as [(e & [=] & _)|(s1 & st & [= <- _] & Hr)].
  assert (Hs : s' = tick (with_job (set_status (state (job s)) (done_bytes (job s))
      (Some {| descriptor := descriptor t; session_id := session_id t;
               session_token := session_token t; sequence := q |}) (job s)) s)).
  { repeat case_match; by injection Hr as <- _. }
  subst s'. split; try done. unfold layout, is_turbo. cbn. by rewrite Et.
Qed.

(** ** Publishing *)

Lemma publish_run i n s s' r :
  publish_item i n s = (s', r) →
  job s' = job s ∧ plains s' = plains s ∧ keeps_outputs s s' ∧
  (r = Ok () → ∃ c, outputs s' !! target i = Some c ∧ sha256_hex c = digest i).
Proof.
  unfold publish_item. intros Hr.
  destruct (existsb negb (verified i)); [by injection Hr as <- <-|].
  apply bind_run in Hr as [(e & [= <- _] & ->)|(s1 & [] & [= <- _] & Hr)]; [split_and!; [done|done|by intros t x|done]|].
  change (job s) with (job (tick s)). change (plains s) with (plains (tick s)).
  change (keeps_outputs s s') with (keeps_outputs (tick s) s').
  generalize dependent (tick s). clear s. intros s Hr.
  apply bind_run in Hr as [(e & [=] & _)|(s1 & f & [= <- _] & Hr)].
  apply bind_run in Hr as [(e & [= <- _] & ->)|(s1 & c & [= <- _] & Hr)]; [done|].
  destruct (negb (zlen c =? size i) || _) eqn:Ec; [by injection Hr as <- <-|].
  bool_prop.
  assert (Hcmp : ∀ e s1 c', outputs s1 !! target i = Some c' →
    (if (sha256_hex c' =? digest i)%string then mret () else fail e : SE State string ()) s1 = (s', r) →
    s' = s1 ∧ (r = Ok () → ∃ c, outputs s' !! target i = Some c ∧ sha256_hex c = digest i)).
  { intros e s1 c' Hc' Hx. destruct (_ =? _)%string eqn:Ed; injection Hx as <- <-; split; try done.
    intros _. exists c'. bool_prop. done. }
  apply bind_run in Hr as [(e & [=] & _)|(s1 & ex & [= <- <-] & Hr)].
  destruct (outputs s !! target i) as [c'|] eqn:Et.
  { apply Hcmp in Hr as [-> Hok]; done. }
  apply bind_run in Hr as [(e & Hd & ->)|(s1 & [] & Hd & Hr)]; injection Hd as <- _; [split_and!; [done|done|by intros t x|done]|].
  apply bind_run in Hr as [(e & [=] & _)|(s2 & [] & [= <-] & Hr)].
  apply bind_run in Hr as [(e & [=] & _)|(s2 & ex & [= <- <-] & Hr)].
  cbn [clock tick] in Hr. destruct (raced (S (clock s))) as [c'|] eqn:Erace; cbn [outputs with_outputs tick] in Hr.
  - rewrite lookup_insert_eq in Hr. apply Hcmp in Hr as [-> Hok]; [|cbn; by rewrite lookup_insert_eq].
    split_and!; [done|done| |done]. intros t x Ht. cbn. rewrite lookup_insert_ne; [done|].
    intros <-. congruence.
  - rewrite Et in Hr. apply bind_run in Hr as [(e & [=] & _)|(s2 & [] & [= <-] & [= <- _])]. split_and!; [done|done| |].
    + intros t x Ht. cbn. rewrite lookup_insert_ne; [done|]. intros <-. congruence.
    + intros _. exists c. cbn. by rewrite lookup_insert_eq.
Qed.
End quiet_calls.

#[export] Hint Resolve quiet_disk quiet_save quiet_phase quiet_show quiet_get_item quiet_cleanup
  quiet_report : quiet.

(** ** The invariant *)

Section safety.
Context `{Aead, Kdf, Codec, World} (master : list Z).

(** Chunk [k] of item [n] is as its bit says, for items still to be published. *)
Definition bit_ok (s : State) (n : nat) (k : Z) : Prop :=
  ∀ i, items (job s) !! n = Some i → selected (job s) i = true → published i = false →
    0 ≤ k < chunk_count i → is_verified i k = true →
    chunk_ok master (job s) i (default [] (plains s !! n)) k.

(** A published item of the selection is in the output directory, whole. *)
Definition target_ok (s : State) (n : nat) : Prop :=
  ∀ i, items (job s) !! n = Some i → selected (job s) i = true → published i = true →
    ∃ c, outputs s !! target i = Some c ∧ sha256_hex c = digest i.

Definition all_sized (j : DownloadJob) : Prop := ∀ n i, items j !! n = Some i → sized j i.

Definition sound (s : State) : Prop :=
  all_sized (job s) ∧ (∀ n k, bit_ok s n k) ∧ (∀ n, target_ok s n) ∧
  done_bytes (job s) = verified_bytes (job s).

Lemma layout_selected j j' i : layout j' = layout j → selected j' i = selected j i.
Proof. unfold layout, selected. by intros [= _ _ -> _]. Qed.
Lemma layout_sized j j' i : layout j' = layout j → sized j i → sized j' i.
Proof. unfold layout, sized. by intros [= _ -> _ _]. Qed.
Lemma layout_chunk_ok j j' i f k :
  layout j' = layout j → chunk_ok master j i f k → chunk_ok master j' i f k.
Proof. unfold layout, chunk_ok, open_chunk. by intros [= -> -> _ _]. Qed.
Lemma layout_counted j j' i : layout j' = layout j → counted j' i = counted j i.
Proof.
  intros Hl. unfold counted. rewrite (layout_selected _ _ _ Hl). unfold item_verified_bytes.
  unfold layout in Hl. by injection Hl as _ -> _ _.
Qed.

Lemma quiet_bit_ok s s' n k : quiet s s' → bit_ok s n k → bit_ok s' n k.
Proof.
  intros [Hl Hi _ Hp _] Hok i Hn Hs. rewrite Hi in Hn. rewrite (layout_selected _ _ _ Hl) in Hs. rewrite Hp.
  intros. apply (layout_chunk_ok (job s)); [done|]. by apply Hok.
Qed.
Lemma quiet_target_ok s s' n : quiet s s' → target_ok s n → target_ok s' n.
Proof.
  intros [Hl Hi _ _ Ho] Hok i Hn Hs. rewrite Hi in Hn. rewrite (layout_selected _ _ _ Hl) in Hs.
  rewrite Ho. by apply Hok.
Qed.
Lemma quiet_verified_bytes s s' : quiet s s' → verified_bytes (job s') = verified_bytes (job s).
Proof.
  intros [Hl Hi _ _ _]. rewrite !verified_bytes_counted, Hi. f_equal. apply list_fmap_ext.
  intros _ i _. by apply layout_counted.
Qed.
Lemma quiet_sized s s' : quiet s s' → all_sized (job s) → all_sized (job s').
Proof. intros [Hl Hi _ _ _] Hs n i Hn. rewrite Hi in Hn. apply (layout_sized (job s)); [done|]. by eapply Hs. Qed.

Lemma quiet_sound s s' : quiet s s' → sound s → sound s'.
Proof.
  intros Hq (Hs & Hb & Ht & Hd). split_and!.
  - by eapply quiet_sized.
  - intros n k. by eapply quiet_bit_ok.
  - intros n. by eapply quiet_target_ok.
  - by rewrite (quiet_verified_bytes _ _ Hq), (quiet_done _ _ Hq).
Qed.

(** A change of one item that keeps what identifies it and its size. *)
Definition same_item (i i' : SavedItem) : Prop :=
  id i' = id i ∧ nonce_prefix i' = nonce_prefix i ∧ size i' = size i ∧ chunk_count i' = chunk_count i ∧
  length (verified i') = length (verified i) ∧ target i' = target i ∧ digest i' = digest i.

Record only (n : nat) (s s' : State) : Prop := {
  only_layout : layout (job s') = layout (job s);
  only_outputs : keeps_outputs s s';
  only_items : ∀ m, m ≠ n → items (job s') !! m = items (job s) !! m;
  only_plains : ∀ m, m ≠ n → plains s' !! m = plains s !! m;
  only_count : length (items (job s')) = length (items (job s));
  only_item : ∀ i', items (job s') !! n = Some i' → ∃ i, items (job s) !! n = Some i ∧ same_item i i' }.

#[export] Instance only_refl n : Reflexive (only n).
Proof. intros s. split; try done. intros i Hi. exists i. by unfold same_item. Qed.
#[export] Instance only_trans n : Transitive (only n).
Proof.
  intros s1 s2 s3 [L1 O1 I1 P1 C1 E1] [L2 O2 I2 P2 C2 E2]. split; try congruence.
  - by transitivity s2.
  - intros m Hm. by rewrite I2, I1.
  - intros m Hm. by rewrite P2, P1.
  - intros i3 Hi3. destruct (E2 _ Hi3) as (i2 & Hi2 & Hs2). destruct (E1 _ Hi2) as (i1 & Hi1 & Hs1).
    exists i1. split; [done|]. unfold same_item in *. intuition congruence.
Qed.

Lemma only_quiet n s s' : quiet s s' → only n s s'.
Proof.
  intros [Hl Hi _ Hp Ho]. split; [done| | | |by rewrite Hi|].
  - intros t c. by rewrite Ho.
  - intros. by rewrite Hi.
  - intros. by rewrite Hp.
  - rewrite Hi. intros i Hn. exists i. by unfold same_item.
Qed.

Lemma only_writes n k s s' : writes master n k s s' → only n s s'.
Proof.
  intros [Hj Ho Hp _]. split; rewrite ?Hj; try done.
  - intros t c. by rewrite Ho.
  - intros i Hi. exists i. by unfold same_item.
Qed.

Lemma only_update n f s s' r :
  (∀ i, same_item i (f i)) → update_item f n s = (s', r) → only n s s'.
Proof.
  intros Hf [= <- _]. split; try done; cbn [items job with_job set_items].
  - by intros t c.
  - intros m Hm. by rewrite list_lookup_alter_ne.
  - by rewrite length_alter.
  - intros i' Hi'. rewrite list_lookup_alter_eq in Hi'.
    destruct (items (job s) !! n) as [i|]; [|done]. injection Hi' as <-. by exists i.
Qed.

Lemma only_bit_ok n s s' m k : only n s s' → m ≠ n → bit_ok s m k → bit_ok s' m k.
Proof.
  intros [Hl _ Hi Hp _ _] Hm Hok i Hn Hs. rewrite Hi in Hn by done.
  rewrite (layout_selected _ _ _ Hl) in Hs. rewrite Hp by done.
  intros. apply (layout_chunk_ok (job s)); [done|]. by apply Hok.
Qed.

Lemma only_target_ok n s s' m : only n s s' → m ≠ n → target_ok s m → target_ok s' m.
Proof.
  intros [Hl Ho Hi _ _ _] Hm Hok i Hn Hs Hpub. rewrite Hi in Hn by done.
  rewrite (layout_selected _ _ _ Hl) in Hs. destruct (Hok i Hn Hs Hpub) as (c & Hc & Hd).
  exists c. split; [by apply Ho|done].
Qed.

Lemma only_sized n s s' : only n s s' → all_sized (job s) → all_sized (job s').
Proof.
  intros [Hl _ Hi _ _ He] Hs m i Hm. apply (layout_sized (job s)); [done|].
  destruct (decide (m = n)) as [->|Hne]; [|rewrite Hi in Hm by done; by eapply Hs].
  destruct (He i Hm) as (i0 & Hi0 & Hsame). specialize (Hs n i0 Hi0).
  destruct Hsame as (_ & _ & Hz & Hc & Hv & _). unfold sized in *. by rewrite Hz, Hc, Hv.
Qed.

Lemma set_bit_same b k i : same_item i (set_bit b k i).
Proof. unfold same_item, set_bit. cbn. by rewrite length_insert. Qed.

(** ** Restoring *)

Lemma restore_chunk_run n k s s' :
  all_sized (job s) → 0 ≤ k → restore_chunk master n k s = (s', Ok ()) →
  only n s s' ∧ bit_ok s' n k ∧ ∀ k', 0 ≤ k' → k' ≠ k → bit_ok s n k' → bit_ok s' n k'.
Proof.
  intros Hsz Hk Hr. unfold restore_chunk in Hr.
  apply bind_run in Hr as [(e & _ & [=])|(s1 & i & [= <- Hi] & Hr)].
  destruct (items (job s) !! n) as [i'|] eqn:Ei; [|done]. injection Hi as ->.
  destruct (is_verified i k) eqn:Ev.
  2: { injection Hr as <-. split_and!; [done| |done]. intros i' Hi' _ _ _ Hv. congruence. }
  apply bind_run in Hr as [(e & _ & [=])|(s1 & ok & Hm & Hr)].
  apply restore_retained_run in Hm as [W Hok]. destruct W as [Wj Wo Wf Wc] eqn:EW. clear EW.
  assert (Hothers : ∀ k', 0 ≤ k' → k' ≠ k → bit_ok s n k' → bit_ok s1 n k').
  { intros k' Hk' Hne Hb i' Hi' Hs' Hp' Hc' Hv'. rewrite Wj in *. assert (i' = i) as -> by congruence.
    apply Wc; try done; [by eapply Hsz|..]; [|by apply Hb].
    destruct (decide (k < chunk_count i)) as [|Hge]; [lia|].
    unfold is_verified in Ev. specialize (Hsz n i Ei). destruct Hsz as (_ & _ & _ & _ & Hlen).
    rewrite lookup_ge_None_2 in Ev by lia. done. }
  assert (O1 : only n s s1) by (by eapply only_writes).
  destruct ok.
  - injection Hr as <-. split_and!; [done| |done]. intros i' Hi' _ _ _ _.
    destruct (Hok eq_refl) as (i0 & Hi0 & Hc). rewrite Wj in *. assert (i' = i0) as -> by congruence. done.
  - pose proof (only_update _ _ _ _ _ (set_bit_same false k) Hr) as O2. injection Hr as <-.
    split_and!; [by etransitivity| |].
    + intros i' Hi' _ _ Hc Hv. cbn [items job with_job set_items] in Hi'. rewrite list_lookup_alter_eq, Wj, Ei in Hi'. injection Hi' as <-.
      unfold is_verified, set_bit in Hv. cbn in Hv. specialize (Hsz n i Ei). destruct Hsz as (_ & _ & _ & _ & Hlen).
      cbn in Hc. rewrite list_lookup_insert_eq in Hv by lia. done.
    + intros k' Hk' Hne Hb i' Hi' Hs' Hp' Hc' Hv'. cbn [items job with_job set_items] in Hi'. rewrite list_lookup_alter_eq, Wj, Ei in Hi'.
      injection Hi' as <-. cbn [plains with_job].
      assert (Hb1 : chunk_ok master (job s1) i (default [] (plains s1 !! n)) k').
      { apply (Hothers k' Hk' Hne Hb); [by rewrite Wj| |done|done|].
        - exact Hs'.
        - unfold is_verified, set_bit in *. cbn in Hv'. rewrite list_lookup_insert_ne in Hv' by lia. done. }
      destruct Hb1 as (c & p & H1' & H2' & H3'). by exists c, p.
Qed.

(** [restore_chunk] and [restore_item] publish nothing. *)
Definition restoring (n : nat) (s s' : State) : Prop :=
  only n s s' ∧
  ∀ i i', items (job s) !! n = Some i → items (job s') !! n = Some i' → published i' = published i.

#[local] Instance restoring_refl n : Reflexive (restoring n).
Proof. intros s. split; [reflexivity|]. intros i i' Ha Hb. congruence. Qed.
#[local] Instance restoring_trans n : Transitive (restoring n).
Proof.
  intros s1 s2 s3 [O1 P1] [O2 P2]. split; [by transitivity s2|]. intros i i' Ha Hc.
  destruct (only_item _ _ _ O2 _ Hc) as (i2 & Hi2 & _). transitivity (published i2); eauto.
Qed.

Lemma restoring_target_ok n s s' : restoring n s s' → target_ok s n → target_ok s' n.
Proof.
  intros [O P] Hok i' Hi' Hs' Hp'. destruct (only_item _ _ _ O _ Hi') as (i & Hi & Hsame).
  rewrite (P i i' Hi Hi') in Hp'. destruct Hsame as (Eid & _ & _ & _ & _ & Et & Ed).
  destruct (Hok i Hi) as (c & Hc & Hd); [|done|].
  - rewrite (layout_selected _ _ _ (only_layout _ _ _ O)) in Hs'. unfold selected in *. by rewrite <- Eid.
  - exists c. rewrite Et, Ed. split; [by apply (only_outputs _ _ _ O)|done].
Qed.

Lemma restore_chunk_published n k s s' i i' r :
  restore_chunk master n k s = (s', r) →
  items (job s) !! n = Some i → items (job s') !! n = Some i' → published i' = published i.
Proof.
  intros Hr Hi Hi'. unfold restore_chunk in Hr.
  apply bind_run in Hr as [(e & [= <- _] & _)|(s1 & i0 & [= <- Hi0] & Hr)]; [congruence|].
  rewrite Hi in Hi0. injection Hi0 as <-.
  destruct (is_verified i k); [|injection Hr as <- _; congruence].
  apply bind_run in Hr as [(e & Hm & _)|(s1 & ok & Hm & Hr)];
    apply restore_retained_run in Hm as [W _]; pose proof (writes_job _ _ _ _ _ W) as Wj.
  - rewrite Wj in Hi'. congruence.
  - destruct ok; injection Hr as <- _; [rewrite Wj in Hi'; congruence|].
    cbn [items job with_job set_items] in Hi'. rewrite list_lookup_alter_eq, Wj, Hi in Hi'. by injection Hi' as <-.
Qed.

(** A loop that ends well, by an invariant over the elements done. *)
Lemma for_each_run {A} (P : list A → State → Prop) (f : A → SE State string ()) (l : list A) s s' :
  (∀ ls a s1 s2, a ∈ l → P ls s1 → f a s1 = (s2, Ok ()) → P (ls ++ [a]) s2) →
  P [] s → for_each f l s = (s', Ok ()) → P l s'.
Proof.
  intros Hstep. assert (Hgen : ∀ rest ls s1, l = ls ++ rest → P ls s1 →
    for_each f rest s1 = (s', Ok ()) → P l s').
  { intros rest. induction rest as [|a rest IH]; intros ls s1 Hl HP Hr.
    - injection Hr as <-. by rewrite Hl, app_nil_r.
    - cbn [for_each] in Hr. apply bind_run in Hr as [(e & _ & [=])|(s2 & [] & Ha & Hr)].
      apply (IH (ls ++ [a]) s2); [by rewrite <- app_assoc| |done].
      apply (Hstep ls a s1); [|done..]. rewrite Hl. set_solver. }
  intros HP Hr. by apply (Hgen l [] s).
Qed.

Lemma restore_item_run n s s' :
  all_sized (job s) → restore_item master n s = (s', Ok ()) →
  only n s s' ∧ (∀ k, bit_ok s' n k) ∧ target_ok s' n.
Proof.
  intros Hsz Hr. unfold restore_item in Hr.
  apply bind_run in Hr as [(e & _ & [=])|(s1 & i & [= <- Hi] & Hr)].
  destruct (items (job s) !! n) as [i'|] eqn:Ei; [|done]. injection Hi as ->.
  apply bind_run in Hr as [(e & [=] & _)|(s1 & j & [= <- <-] & Hr)].
  destruct (selected (job s) i) eqn:Es; cbn [negb] in Hr.
  2: { injection Hr as <-. split_and!; [done|intros k i' Hi' Hs'|intros i' Hi' Hs']; congruence. }
  destruct (published i) eqn:Ep.
  { apply bind_run in Hr as [(e & [=] & _)|(s1 & c & [= <- Hc] & Hr)].
    destruct c as [c|]; [|done]. destruct (sha256_hex c =? digest i)%string eqn:Ed; [|done].
    bool_prop. injection Hr as <-.
    split_and!; [done|intros k i' Hi' _ Hp'; congruence|]. intros i' Hi' _ _. exists c. split; congruence. }
  apply (for_each_run (λ ks s1, all_sized (job s1) ∧ restoring n s s1 ∧ ∀ k, k ∈ ks → bit_ok s1 n k)) in Hr.
  - destruct Hr as (_ & R & Hb). split_and!; [by apply R| |].
    + intros k i' Hi' Hs' Hp' Hk. apply Hb; try done. rewrite elem_of_seqZ.
      destruct (only_item _ _ _ (proj1 R) _ Hi') as (i0 & Hi0 & Hsame).
      assert (i0 = i) as -> by congruence. destruct Hsame as (_ & _ & _ & Hc & _). lia.
    + eapply restoring_target_ok; [done|]. intros i' Hi' _ Hp. congruence.
  - intros ks k s1 s2 Hk (Hsz1 & R & Hb) Hc. rewrite elem_of_seqZ in Hk.
    destruct (restore_chunk_run n k s1 s2) as (O & Hown & Hoth); [done|lia|done|]. split_and!.
    + by eapply only_sized.
    + transitivity s1; [done|]. split; [done|]. intros x y. by eapply restore_chunk_published.
    + intros k' [Hk'| ->%list_elem_of_singleton]%elem_of_app; [|done].
      destruct (decide (k' = k)) as [->|]; [done|]. destruct (decide (0 ≤ k')); [by apply Hoth, Hb|].
      intros x _ _ _ Hx. lia.
  - split_and!; [done|reflexivity|set_solver].
Qed.

Lemma restore_items_run s s' :
  all_sized (job s) →
  for_each (restore_item master) (seq 0 (length (items (job s)))) s = (s', Ok ()) →
  all_sized (job s') ∧ (∀ n k, bit_ok s' n k) ∧ ∀ n, target_ok s' n.
Proof.
  intros Hsz Hr.
  apply (for_each_run (λ ns s1, all_sized (job s1) ∧ length (items (job s1)) = length (items (job s)) ∧
    ∀ n, n ∈ ns → (∀ k, bit_ok s1 n k) ∧ target_ok s1 n)) in Hr.
  - destruct Hr as (Hsz' & Hl & Hall).
    assert (Hn : ∀ n i, items (job s') !! n = Some i → n ∈ seq 0 (length (items (job s)))).
    { intros n i Hi. apply lookup_lt_Some in Hi. rewrite elem_of_seq. lia. }
    split_and!; [done|intros n k i Hi|intros n i Hi]; by eapply Hall; eauto.
  - intros ns n s1 s2 _ (Hsz1 & Hl & Hall) Hi.
    destruct (restore_item_run n s1 s2) as (O & Hb & Ht); [done..|]. split_and!.
    + by eapply only_sized.
    + by rewrite (only_count _ _ _ O).
    + intros m [Hm| ->%list_elem_of_singleton]%elem_of_app; [|done].
      destruct (decide (m = n)) as [->|Hne]; [done|]. destruct (Hall m Hm) as [Hm1 Hm2].
      split; [intros k; by eapply only_bit_ok|by eapply only_target_ok].
  - split_and!; [done|done|set_solver].
Qed.

(** ** Accepting chunks *)

(** The job still needs chunk [k] of item [n]. *)
Definition unverified (s : State) (n : nat) (k : Z) : Prop :=
  ∃ i, items (job s) !! n = Some i ∧ selected (job s) i = true ∧ 0 ≤ k < chunk_count i ∧
    is_verified i k = false.

Lemma quiet_unverified s s' n k : quiet s s' → unverified s n k → unverified s' n k.
Proof.
  intros [Hl Hi _ _ _] (i & Hn & Hs & Hk & Hv). exists i.
  rewrite Hi, (layout_selected _ _ _ Hl). done.
Qed.

Lemma writes_unverified s s' n k : writes master n k s s' → unverified s n k → unverified s' n k.
Proof. intros W. unfold unverified. by rewrite (writes_job _ _ _ _ _ W). Qed.

(** A write in the place of a chunk still needed breaks nothing. *)
Lemma writes_sound s s' n k : writes master n k s s' → unverified s n k → sound s → sound s'.
Proof.
  intros [Wj Wo Wf Wc] (i & Hi & Hs & Hk & Hv) (Hsz & Hb & Ht & Hd). unfold sound. rewrite Wj.
  split_and!; [done| | |done].
  - intros m k' i' Hi' Hs' Hp' Hk' Hv'. rewrite Wj in *.
    destruct (decide (m = n)) as [->|Hm]; [|rewrite Wf by done; by apply Hb].
    assert (i' = i) as -> by congruence.
    apply Wc; [done|by eapply Hsz|done|done|congruence|by apply Hb].
  - intros m i' Hi' Hs' Hp'. rewrite Wj in *. rewrite Wo. by eapply Ht.
Qed.

(** Marking the chunk and counting it, as [on_chunk] and the consumption of
    background files do. *)
Definition accepted (n : nat) (k e : Z) (s : State) : State :=
  let j := set_items (alter (set_bit true k) n (items (job s))) (job s) in
  with_job (set_status (state (job s)) (done_bytes (job s) + e) (turbo (job s)) j) s.

Lemma accepted_only n k e s : only n s (accepted n k e s).
Proof.
  apply (only_trans n s (with_job (set_items (alter (set_bit true k) n (items (job s))) (job s)) s)).
  - apply (only_update n (set_bit true k) s _ (Ok ())); [apply set_bit_same|done].
  - split; try done; [by intros ? ?|]. intros x Hx. exists x. by unfold same_item.
Qed.

Lemma accepted_sound n k e i s s1 :
  sound s → unverified s n k → items (job s) !! n = Some i → writes master n k s s1 →
  e = plaintext_len (size i) (chunk_bytes (job s)) k →
  chunk_ok master (job s) i (default [] (plains s1 !! n)) k →
  sound (accepted n k e s1).
Proof.
  intros Hsound Hu Hi W -> Hok.
  destruct (writes_sound s s1 n k W Hu Hsound) as (Hsz & Hb & Ht & Hd).
  pose proof (writes_job _ _ _ _ _ W) as Wj.
  destruct Hu as (i0 & Hi0 & Hs & Hk & Hv). assert (i0 = i) as -> by congruence. clear Hi0.
  rewrite <- Wj in *. set (s2 := accepted n k _ s1).
  assert (Hlay : layout (job s2) = layout (job s1)) by done.
  assert (Hsize : sized (job s1) i) by (by eapply Hsz).
  assert (Hlen : (Z.to_nat k < length (verified i))%nat) by (destruct Hsize as (_ & _ & _ & _ & Hl); lia).
  assert (Hitem : items (job s2) !! n = Some (set_bit true k i)).
  { cbn [s2 accepted items job with_job set_status set_items]. by rewrite list_lookup_alter_eq, Hi. }
  assert (O : only n s1 s2) by apply accepted_only.
  split_and!.
  - by eapply only_sized.
  - intros m k' i' Hi' Hs' Hp' Hk' Hv'.
    destruct (decide (m = n)) as [->|Hm]; [|by apply (only_bit_ok n s1)].
    assert (i' = set_bit true k i) as -> by congruence.
    apply (layout_chunk_ok (job s1)); [done|]. cbn [plains s2 accepted with_job].
    destruct (decide (k' = k)) as [->|Hne]; [exact Hok|].
    apply (Hb n k' i); [done..|]. unfold is_verified, set_bit in *. cbn [verified set_verified] in Hv'.
    cbn [chunk_count set_bit set_verified] in Hk'. by rewrite list_lookup_insert_ne in Hv' by lia.
  - intros m. destruct (decide (m = n)) as [->|Hm]; [|by apply (only_target_ok n s1)].
    intros i' Hi' Hs' Hp'. assert (i' = set_bit true k i) as -> by congruence. by apply (Ht n i).
  - rewrite verified_bytes_counted in *. cbn [done_bytes s2 accepted job with_job set_status].
    transitivity (sum_Z (counted (job s1) <$> items (job s2))).
    + cbn [s2 accepted items job with_job set_status set_items].
      rewrite (sum_Z_alter _ _ _ _ i) by done. rewrite <- Hd.
      unfold counted. change (selected (job s1) (set_bit true k i)) with (selected (job s1) i). rewrite Hs.
      rewrite item_bytes_set_bit by done. rewrite Z2Nat.id by lia. lia.
    + done.
Qed.

Lemma consume_chunk_run n k s s' :
  sound s → (∀ i, items (job s) !! n = Some i → selected (job s) i = true ∧ 0 ≤ k < chunk_count i) →
  consume_chunk master n k s = (s', Ok ()) → sound s' ∧ only n s s'.
Proof.
  intros Hsound Hin Hr. unfold consume_chunk in Hr.
  apply bind_run in Hr as [(e & _ & [=])|(s1 & i & [= <- Hi] & Hr)].
  destruct (items (job s) !! n) as [i'|] eqn:Ei; [|done]. injection Hi as ->.
  destruct (Hin i eq_refl) as [Hs Hk].
  destruct (is_verified i k) eqn:Ev; [injection Hr as <-; by split|].
  apply bind_run in Hr as [(e & _ & [=])|(s1 & [] & [= <- _] & Hr)].
  assert (Qt : quiet s (tick s)) by by split.
  apply (quiet_sound _ _ Qt) in Hsound.
  enough (Hg : sound s' ∧ only n (tick s) s').
  { destruct Hg. split; [done|]. transitivity (tick s); [by apply only_quiet|done]. }
  change (job s) with (job (tick s)) in Hin, Ei, Hs. clear Qt. set (t := tick s) in *. clearbody t.
  clear s. rename t into s.
  apply bind_run in Hr as [(e & [=] & _)|(s1 & c & [= <- _] & Hr)].
  destruct c as [c|]; [|injection Hr as <-; by split].
  apply bind_run in Hr as [(e & [=] & _)|(s1 & j & [= <- <-] & Hr)].
  destruct (negb _); [done|].
  apply bind_run in Hr as [(e & _ & [=])|(s1 & e & Ha & Hr)].
  apply authenticate_run in Ha as [W Hok]. destruct (Hok e eq_refl) as (i0 & Hi0 & He & Hc).
  assert (i0 = i) as -> by congruence.
  apply bind_run in Hr as [(x & [=] & _)|(s2 & [] & Hu & Hr)]. injection Hu as <-.
  apply bind_run in Hr as [(x & [=] & _)|(s2 & j & [= <- <-] & Hr)].
  apply bind_run in Hr as [(x & _ & [=])|(s2 & d & [= <- Hd] & Hr)].
  unfold checked_add in Hd. cbn [job with_job] in Hd. destruct (_ <=? u64_max); [|done]. injection Hd as <-.
  apply bind_run in Hr as [(x & [=] & _)|(s2 & [] & [= <-] & Hr)].
  assert (Hq : quiet (accepted n k e s1) s').
  { apply bind_run in Hr as [(x & _ & [=])|(s3 & [] & [= <- _] & Hr)]. injection Hr as <-.
    rewrite He. by split. }
  split.
  - eapply quiet_sound; [exact Hq|]. apply (accepted_sound n k e i s); try done. by exists i.
  - transitivity s1; [by eapply only_writes|].
    transitivity (accepted n k e s1); [apply accepted_only|by apply only_quiet].
Qed.

Lemma only_keeps_range n k s s' :
  only n s s' → (∀ i, items (job s) !! n = Some i → selected (job s) i = true ∧ 0 ≤ k < chunk_count i) →
  ∀ i, items (job s') !! n = Some i → selected (job s') i = true ∧ 0 ≤ k < chunk_count i.
Proof.
  intros O Hin i' Hi'. destruct (only_item _ _ _ O _ Hi') as (i & Hi & Eid & _ & _ & Ec & _).
  destruct (Hin i Hi) as [Hs Hk]. rewrite Ec. split; [|done].
  rewrite (layout_selected _ _ _ (only_layout _ _ _ O)). unfold selected in *. by rewrite Eid.
Qed.

Lemma consume_run s s' :
  sound s → consume_background_ciphertext master s = (s', Ok ()) → sound s'.
Proof.
  intros Hsound Hr. unfold consume_background_ciphertext in Hr.
  apply bind_run in Hr as [(e & [=] & _)|(s1 & j & [= <- <-] & Hr)].
  apply bind_run in Hr as [(e & _ & [=])|(s1 & [] & Hl & Hr)].
  apply (for_each_run (λ _, sound)) in Hl; [|clear dependent s1; intros _ n s1 s2 _ Hs1 Hr|done].
  - injection Hr as <-. destruct (_ =? _)%string; [|done]. eapply quiet_sound; [|done]. by split.
  - apply bind_run in Hr as [(e & _ & [=])|(s3 & i & [= <- Hi] & Hr)].
    destruct (items (job s1) !! n) as [i'|] eqn:Ei; [|done]. injection Hi as ->.
    apply bind_run in Hr as [(e & [=] & _)|(s3 & j & [= <- <-] & Hr)].
    destruct (selected (job s1) i) eqn:Es; cbn [negb] in Hr; [|by injection Hr as <-].
    apply (for_each_run (λ _ s', sound s' ∧ only n s1 s')) in Hr; [by destruct Hr| |done].
    intros _ k s4 s5 Hk [Hs4 O] Hc. rewrite elem_of_seqZ in Hk.
    destruct (consume_chunk_run n k s4 s5) as [Hs5 O5]; [done| |done|].
    + apply (only_keeps_range n k s1); [done|]. intros i' Hi'. assert (i' = i) as -> by congruence.
      split; [done|lia].
    + split; [done|by transitivity s4].
Qed.

Lemma resume_run s s' :
  all_sized (checkpoint s) → resume master s = (s', Ok ()) → sound s' ∧ checkpoint s' = job s'.
Proof.
  intros Hsz Hr. unfold resume, rebuild in Hr.
  apply bind_run in Hr as [(e & [=] & _)|(s1 & [] & [= <-] & Hr)].
  apply bind_run in Hr as [(e & [=] & _)|(s1 & j & [= <- <-] & Hr)].
  apply bind_run in Hr as [(e & _ & [=])|(s1 & [] & [= <- _] & Hr)].
  apply bind_run in Hr as [(e & [=] & _)|(s1 & j & [= <- <-] & Hr)].
  apply bind_run in Hr as [(e & _ & [=])|(s1 & [] & Hl & Hr)].
  apply (restore_items_run (with_job (checkpoint s) s)) in Hl as (Hsz1 & Hb & Ht); [|done].
  apply bind_run in Hr as [(e & [=] & _)|(s2 & [] & [= <-] & Hr)].
  apply bind_run in Hr as [(e & _ & [=])|(s3 & [] & Hc & Hr)].
  apply bind_run in Hr as [(e & _ & [=])|(s4 & [] & [= <- _] & Hr)]. injection Hr as <-.
  split; [|done]. apply (quiet_sound s3); [by split|]. apply consume_run in Hc; [done|].
  split_and!; [exact Hsz1|exact Hb|exact Ht|done].
Qed.

(** ** Completing chunks and items *)

Lemma finish_run n s s' r : sound s → finish_item n s = (s', r) → sound s'.
Proof.
  intros Hsound Hr. unfold finish_item in Hr.
  apply bind_run in Hr as [(e & [= <- _] & _)|(s1 & i & [= <- Hi] & Hr)]; [done|].
  destruct (items (job s) !! n) as [i'|] eqn:Ei; [|done]. injection Hi as ->.
  apply bind_run in Hr as [(e & [=] & _)|(s1 & j & [= <- <-] & Hr)].
  destruct (_ && _ && _); [|by injection Hr as <- _].
  apply bind_run in Hr as [(e & Hp & _)|(s1 & [] & Hp & Hr)]; apply quiet_phase in Hp as Q1;
    [by apply (quiet_sound s)|].
  pose proof (quiet_sound _ _ Q1 Hsound) as Hsound1.
  apply bind_run in Hr as [(e & Hpub & _)|(s2 & [] & Hpub & Hr)];
    apply publish_run in Hpub as (Hj & Hpl & Hout & Hok).
  - destruct Hsound1 as (Hsz & Hb & Ht & Hd). unfold sound. rewrite Hj. split_and!; [done| | |done].
    + intros m k i' Hi'. rewrite Hj, Hpl in *. by apply Hb.
    + intros m i' Hi' Hs' Hp'. rewrite Hj in *. destruct (Ht m i' Hi' Hs' Hp') as (c & Hc & Hdc).
      exists c. split; [by apply Hout|done].
  - destruct (Hok eq_refl) as (c & Hc & Hdc).
    apply bind_run in Hr as [(e & [=] & _)|(s3 & [] & Hu & Hr)]. injection Hu as <-.
    set (s3 := with_job _ s2) in *.
    assert (Q : quiet s3 s').
    { enough (Hpres : preserves quiet (save_job ≫= λ _, cleanup_item n (chunk_count i))) by (by eapply Hpres).
      apply preserves_bind; [apply _|apply quiet_save|intros _; apply quiet_cleanup]. }
    apply (quiet_sound s3); [done|]. clear Q Hr.
    assert (Hi2 : items (job s2) !! n = Some i) by (rewrite Hj, (quiet_items _ _ Q1); done).
    assert (Hother : ∀ m, m ≠ n → items (job s3) !! m = items (job s2) !! m).
    { intros m Hm. cbn [s3 items job with_job set_items]. by rewrite list_lookup_alter_ne. }
    assert (Hown : items (job s3) !! n = Some (set_published true i)).
    { cbn [s3 items job with_job set_items]. by rewrite list_lookup_alter_eq, Hi2. }
    destruct Hsound1 as (Hsz & Hb & Ht & Hd). rewrite <- Hj in Hsz, Hd. split_and!.
    + intros m i' Hi'. destruct (decide (m = n)) as [->|Hm].
      * assert (i' = set_published true i) as -> by congruence. exact (Hsz n i Hi2).
      * rewrite Hother in Hi' by done. exact (Hsz m i' Hi').
    + intros m k i' Hi' Hs' Hp'. destruct (decide (m = n)) as [->|Hm].
      * assert (i' = set_published true i) as -> by congruence. done.
      * rewrite Hother, Hj in Hi' by done. cbn [plains s3 with_job]. rewrite Hpl.
        intros. apply (layout_chunk_ok (job s1)); [cbn; by rewrite Hj|]. apply Hb; try done.
        rewrite <- Hs'. symmetry. apply layout_selected. cbn. by rewrite Hj.
    + intros m i' Hi' Hs' Hp'. destruct (decide (m = n)) as [->|Hm].
      * assert (i' = set_published true i) as -> by congruence. by exists c.
      * rewrite Hother, Hj in Hi' by done. destruct (Ht m i' Hi') as (c' & Hc' & Hd'); [|done|].
        { rewrite <- Hs'. symmetry. apply layout_selected. cbn. by rewrite Hj. }
        exists c'. split; [by apply Hout|done].
    + change (done_bytes (job s3)) with (done_bytes (job s2)). rewrite Hd, !verified_bytes_counted.
      cbn [s3 items job with_job set_items]. rewrite (sum_Z_alter _ _ _ _ i) by done.
      change (counted _ (set_published true i)) with (counted (job s2) i).
      change (counted (set_items _ (job s2))) with (counted (job s2)). lia.
Qed.

(** ** The chunks still needed *)

Definition same_needs (s s' : State) : Prop := ∀ n k, unverified s' n k ↔ unverified s n k.

#[local] Instance same_needs_refl : Reflexive same_needs.
Proof. done. Qed.
#[local] Instance same_needs_trans : Transitive same_needs.
Proof. intros s1 s2 s3 Ha Hb n k. by rewrite (Hb n k). Qed.

Lemma quiet_needs s s' : quiet s s' → same_needs s s'.
Proof.
  intros [Hl Hi _ _ _] n k. unfold unverified. rewrite Hi.
  setoid_rewrite (λ i, layout_selected _ _ i Hl). done.
Qed.

Lemma job_needs s s' : job s' = job s → same_needs s s'.
Proof. intros Hj n k. unfold unverified. by rewrite Hj. Qed.

(** An update of an item that neither selects it nor changes its bits. *)
Lemma update_needs f n s s' r :
  (∀ i, id (f i) = id i ∧ chunk_count (f i) = chunk_count i ∧ verified (f i) = verified i) →
  update_item f n s = (s', r) → same_needs s s'.
Proof.
  intros Hf [= <- _] m k. unfold unverified. cbn [items job with_job set_items].
  destruct (decide (m = n)) as [->|Hm]; [|by rewrite list_lookup_alter_ne].
  rewrite list_lookup_alter_eq. destruct (items (job s) !! n) as [i|]; [|split; intros (i & [=] & _)].
  destruct (Hf i) as (Eid & Ec & Ev). split; intros (i' & [= <-] & Hs & Hk & Hv); eexists; (split; [done|]);
    unfold selected, is_verified in *; cbn [fmap option_fmap option_map selected_item_ids set_items] in *;
    rewrite ?Eid, ?Ec, ?Ev in *; done.
Qed.

Lemma finish_needs n : preserves same_needs (finish_item n).
Proof.
  unfold finish_item. do 2 (apply preserves_bind; [apply _|by intros s s' r [= <- _]|intros ?]).
  destruct (_ && _ && _); [|by intros s s' r [= <- _]].
  assert (Hq : ∀ A (m : SE State string A), preserves quiet m → preserves same_needs m).
  { intros A m Hm s s' r Hr. by apply quiet_needs, (Hm _ _ _ Hr). }
  apply preserves_bind; [apply _|apply Hq, quiet_phase|intros _].
  apply preserves_bind; [apply _| |intros _].
  { intros s s' r Hr. apply publish_run in Hr as (Hj & _). by apply job_needs. }
  apply preserves_bind; [apply _|intros s s' r; by apply update_needs|intros _].
  apply preserves_bind; [apply _|apply Hq, quiet_save|intros _]. apply Hq, quiet_cleanup.
Qed.

Lemma accepted_needs n k e s n' k' :
  (∀ i, items (job s) !! n = Some i → sized (job s) i) → unverified s n k →
  unverified (accepted n k e s) n' k' ↔ unverified s n' k' ∧ (n', k') ≠ (n, k).
Proof.
  intros Hsz (i & Hi & Hs & Hk & Hv). specialize (Hsz i Hi). destruct Hsz as (_ & _ & _ & _ & Hlen).
  unfold unverified, accepted. cbn [items job with_job set_status set_items].
  destruct (decide (n' = n)) as [->|Hn].
  2: { rewrite list_lookup_alter_ne by done. split; [|by intros [? _]].
       intros (i' & Hx). split; [by exists i'|congruence]. }
  rewrite list_lookup_alter_eq, Hi. cbn [fmap option_fmap option_map].
  destruct (decide (k' = k)) as [->|Hne].
  - split; [|by intros [_ ?]]. intros (i' & [= <-] & _ & _ & Hv'). unfold is_verified, set_bit in Hv'.
    cbn [verified set_verified] in Hv'. by rewrite list_lookup_insert_eq in Hv' by lia.
  - split.
    + intros (i' & [= <-] & Hs' & Hk' & Hv'). cbn [chunk_count set_bit set_verified] in Hk'.
      split; [|congruence]. exists i. split_and!; [done|exact Hs'|lia|lia|].
      unfold is_verified, set_bit in *. cbn [verified set_verified] in Hv'.
      by rewrite list_lookup_insert_ne in Hv' by lia.
    + intros [(i' & [= <-] & Hs' & Hk' & Hv') _]. exists (set_bit true k i). split_and!; [done|exact Hs'|apply Hk'|apply Hk'|].
      unfold is_verified, set_bit in *. cbn [verified set_verified].
      by rewrite list_lookup_insert_ne by lia.
Qed.

(** One chunk of the receive loop. *)
Lemma on_chunk_run n k first again s s' :
  sound s → unverified s n k → on_chunk master n k first again s = (s', Ok ()) →
  sound s' ∧ ∀ n' k', unverified s' n' k' ↔ unverified s n' k' ∧ (n', k') ≠ (n, k).
Proof.
  intros Hsound Hu Hr. unfold on_chunk in Hr.
  apply bind_run in Hr as [(e & _ & [=])|(s1 & i & [= <- Hi] & Hr)].
  destruct (items (job s) !! n) as [i'|] eqn:Ei; [|done]. injection Hi as ->.
  apply bind_run in Hr as [(e & [=] & _)|(s1 & j & [= <- <-] & Hr)].
  apply bind_run in Hr as [(e & _ & [=])|(s1 & [] & Hp & Hr)]. apply quiet_phase in Hp as Q1.
  pose proof (quiet_sound _ _ Q1 Hsound) as Hsound1.
  pose proof (proj2 (quiet_needs _ _ Q1 n k) Hu) as Hu1.
  rewrite <- (quiet_items _ _ Q1) in Ei.
  apply bind_run in Hr as [(e & Ha & _)|(s2 & x & Ha & Hr)].
  { by apply attempt_run in Ha as (x & _ & [=]). }
  apply attempt_run in Ha as (x' & Ha & [= ->]). apply authenticate_run in Ha as [W2 Hok].
  apply bind_run in Hr as [(e & _ & [=])|(s3 & e & Hm & Hr)].
  assert (Hacc : ∃ sx, sound sx ∧ same_needs s sx ∧ done_bytes (job sx) = done_bytes (job s) ∧
    items (job sx) !! n = Some i ∧ writes master n k sx s3 ∧
    e = plaintext_len (size i) (chunk_bytes (job sx)) k ∧
    chunk_ok master (job sx) i (default [] (plains s3 !! n)) k).
  { destruct x' as [e1|e1].
    - injection Hm as <- <-. destruct (Hok e1 eq_refl) as (i0 & Hi0 & He & Hc).
      assert (i0 = i) as -> by congruence. exists s1.
      split_and!; try done; [by apply quiet_needs|by apply quiet_done].
    - apply bind_run in Hm as [(y & [=] & _)|(s4 & [] & [= <-] & Hm)].
      apply bind_run in Hm as [(y & _ & [=])|(s5 & [] & Hsh & Hm)]. apply quiet_show in Hsh as Q5.
      apply bind_run in Hm as [(y & _ & [=])|(s6 & c & [= <- _] & Hm)].
      apply authenticate_run in Hm as [W6 Hok6].
      assert (Q25 : quiet s2 s5) by (etransitivity; [|exact Q5]; by split).
      assert (N : same_needs s s5).
      { transitivity s1; [by apply quiet_needs|]. transitivity s2; [|by apply quiet_needs].
        apply job_needs, (writes_job _ _ _ _ _ W2). }
      destruct (Hok6 e eq_refl) as (i0 & Hi0 & He & Hc).
      rewrite (quiet_items _ _ Q25), (writes_job _ _ _ _ _ W2) in Hi0.
      assert (i0 = i) as -> by congruence. exists s5. split_and!; try done.
      + apply (quiet_sound s2); [done|]. by apply (writes_sound s1 s2 n k).
      + by rewrite (quiet_done _ _ Q25), (writes_job _ _ _ _ _ W2), (quiet_done _ _ Q1).
      + by rewrite (quiet_items _ _ Q25), (writes_job _ _ _ _ _ W2). }
  destruct Hacc as (sx & Hsx & N & Hdone & Hix & W & He & Hc).
  pose proof (proj2 (N n k) Hu) as Hux. pose proof (writes_job _ _ _ _ _ W) as Wj.
  apply bind_run in Hr as [(y & [=] & _)|(s4 & [] & [= <-] & Hr)].
  apply bind_run in Hr as [(y & _ & [=])|(s4 & d & [= <- Hd] & Hr)].
  unfold checked_add in Hd. destruct (_ <=? u64_max); [|done]. injection Hd as <-.
  apply bind_run in Hr as [(y & [=] & _)|(s4 & [] & [= <-] & Hr)].
  rewrite <- Hdone, <- Wj in Hr. change (with_job _ _) with (accepted n k e s3) in Hr.
  pose proof (accepted_sound n k e i sx s3 Hsx Hux Hix W He Hc) as Hs4.
  assert (N4 : ∀ n' k', unverified (accepted n k e s3) n' k' ↔ unverified s n' k' ∧ (n', k') ≠ (n, k)).
  { intros n' k'. rewrite accepted_needs; [|rewrite Wj; intros; by eapply Hsx|by eapply writes_unverified].
    by rewrite (job_needs sx s3 Wj n' k'), (N n' k'). }
  generalize dependent (accepted n k e s3). intros s4 Hr Hs4 N4.
  assert (Hend : ∃ s5, quiet s4 s5 ∧ finish_item n s5 = (s', Ok ())).
  { do 5 (apply bind_run in Hr as [(y & _ & [=])|(? & [] & ? & Hr)]).
    repeat match goal with
    | Hx : save_job _ = _ |- _ => apply quiet_save in Hx
    | Hx : report_turbo _ = _ |- _ => apply quiet_report in Hx
    | Hx : show _ _ _ _ _ = _ |- _ => apply quiet_show in Hx
    | Hx : modify _ ?a = (?b, _) |- _ => assert (quiet a b) by (injection Hx as <-; by split); clear Hx
    end. eexists. split; [|exact Hr]. repeat (etransitivity; [eassumption|]). reflexivity. }
  destruct Hend as (s5 & Q & Hf). pose proof (finish_run n s5 s' (Ok ())) as Hs'.
  split; [apply Hs'; [by apply (quiet_sound s4)|done]|].
  intros n' k'. by rewrite (finish_needs n s5 s' _ Hf n' k'), (quiet_needs s4 s5 Q n' k').
Qed.

(** ** Prompt publication *)

(** Changes item [n] only, and neither the layout nor the Turbo session. *)
Definition others (n : nat) (s s' : State) : Prop :=
  layout (job s') = layout (job s) ∧ length (items (job s')) = length (items (job s)) ∧
  ∀ m, m ≠ n → items (job s') !! m = items (job s) !! m.

#[local] Instance others_refl n : Reflexive (others n).
Proof. done. Qed.
#[local] Instance others_trans n : Transitive (others n).
Proof.
  intros s1 s2 s3 (L1 & C1 & I1) (L2 & C2 & I2). split_and!; [congruence..|]. intros m Hm. by rewrite I2, I1.
Qed.

Lemma others_quiet n s s' : quiet s s' → others n s s'.
Proof. intros [Hl Hi _ _ _]. split; [done|]. by rewrite Hi. Qed.
Lemma others_job n s s' : job s' = job s → others n s s'.
Proof. intros Hj. unfold others. by rewrite Hj. Qed.
Lemma others_update f n : preserves (others n) (update_item f n).
Proof.
  intros s s' r [= <- _]. split; [done|]. cbn. rewrite length_alter. split; [done|].
  intros m Hm. by rewrite list_lookup_alter_ne.
Qed.
Lemma others_publish i n : preserves (others n) (publish_item i n).
Proof. intros s s' r Hr. apply publish_run in Hr as (Hj & _). by apply others_job. Qed.
Lemma others_authenticate n k c b : preserves (others n) (authenticate_and_write master n k c b).
Proof. intros s s' r Hr. apply authenticate_run in Hr as [W _]. apply others_job, (writes_job _ _ _ _ _ W). Qed.

Lemma others_finish n : preserves (others n) (finish_item n).
Proof.
  assert (Hq : ∀ A (m : SE State string A), preserves quiet m → preserves (others n) m).
  { intros A m Hm s s' r Hr. by apply others_quiet, (Hm _ _ _ Hr). }
  unfold finish_item. do 2 (apply preserves_bind; [apply _|apply Hq; eauto with quiet|intros ?]).
  destruct (_ && _ && _); [|by intros s s' r [= <- _]].
  apply preserves_bind; [apply _|apply Hq, quiet_phase|intros _].
  apply preserves_bind; [apply _|apply others_publish|intros _].
  apply preserves_bind; [apply _|apply others_update|intros _].
  apply preserves_bind; [apply _|apply Hq, quiet_save|intros _]. apply Hq, quiet_cleanup.
Qed.

Lemma others_on_chunk n k first again : preserves (others n) (on_chunk master n k first again).
Proof.
  assert (Hq : ∀ A (m : SE State string A), preserves quiet m → preserves (others n) m).
  { intros A m Hm s s' r Hr. by apply others_quiet, (Hm _ _ _ Hr). }
  assert (Hs : ∀ st d, preserves (others n)
    (modify (λ s, with_job (set_status (st s) d (turbo (job s)) (job s)) s) : SE State string ())).
  { by intros st d s s' r [= <- _]. }
  unfold on_chunk. do 2 (apply preserves_bind; [apply _|apply Hq; eauto with quiet|intros ?]).
  apply preserves_bind; [apply _|apply Hq, quiet_phase|intros _].
  apply preserves_bind; [apply _| |intros [e|e]].
  { intros s s' r Hr. apply attempt_run in Hr as (y & Hr & _). by apply others_authenticate in Hr. }
  all: apply preserves_bind; [apply _| |intros e'].
  all: try (apply Hq; eauto with quiet; fail).
  2: { apply preserves_bind; [apply _|by intros s s' r [= <- _]|intros _].
       apply preserves_bind; [apply _|apply Hq, quiet_show|intros _].
       apply preserves_bind; [apply _|apply Hq; eauto with quiet|intros c]. apply others_authenticate. }
  all: apply preserves_bind; [apply _|apply others_update|intros _].
  all: apply preserves_bind; [apply _|apply Hq; eauto with quiet|intros d].
  all: apply preserves_bind; [apply _|apply Hs|intros _].
  all: apply preserves_bind; [apply _|apply Hq, quiet_save|intros _].
  all: apply preserves_bind; [apply _|apply Hq, quiet_report|intros _].
  all: apply preserves_bind; [apply _|apply Hq, quiet_save|intros _].
  all: apply preserves_bind; [apply _|apply Hq, quiet_show|intros _].
  all: apply preserves_bind; [apply _|by intros s s' r [= <- _]|intros _].
  all: apply others_finish.
Qed.

(** Item [n] is published if it is wholly verified. *)
Definition prompt_at (s : State) (n : nat) : Prop :=
  ∀ i, items (job s) !! n = Some i → selected (job s) i = true → all_verified i = true →
    published i = true.

Definition prompt (s : State) : Prop := is_turbo (job s) = false → ∀ n, prompt_at s n.

Lemma others_prompt n s s' m : others n s s' → m ≠ n → prompt_at s m → prompt_at s' m.
Proof.
  intros (Hl & _ & Hi) Hm Hp i Hn Hs. rewrite Hi in Hn by done. rewrite (layout_selected _ _ _ Hl) in Hs.
  by apply Hp.
Qed.

Lemma finish_prompt n s s' :
  is_turbo (job s) = false → finish_item n s = (s', Ok ()) → prompt_at s' n.
Proof.
  intros Ht Hr i' Hi' _ Hall. unfold finish_item in Hr.
  apply bind_run in Hr as [(e & _ & [=])|(s1 & i & [= <- Hi] & Hr)].
  destruct (items (job s) !! n) as [i0|] eqn:Ei; [|done]. injection Hi as ->.
  apply bind_run in Hr as [(e & [=] & _)|(s1 & j & [= <- <-] & Hr)].
  unfold is_turbo in Ht. destruct (turbo (job s)) eqn:Etur; [done|]. cbn [andb] in Hr.
  destruct (published i) eqn:Ep; cbn [andb negb] in Hr; [injection Hr as <-; congruence|].
  destruct (all_verified i) eqn:Ea; [|injection Hr as <-; congruence].
  apply bind_run in Hr as [(e & _ & [=])|(s1 & [] & Hp & Hr)]. apply quiet_phase in Hp as Q1.
  apply bind_run in Hr as [(e & _ & [=])|(s2 & [] & Hpub & Hr)]. apply publish_run in Hpub as (Hj & _).
  apply bind_run in Hr as [(e & [=] & _)|(s3 & [] & Hu & Hr)]. injection Hu as <-.
  apply bind_run in Hr as [(e & _ & [=])|(s4 & [] & Hsv & Hr)]. apply quiet_save in Hsv as Q4.
  injection Hr as <-. cbn [job with_ciphers] in Hi'. rewrite (quiet_items _ _ Q4) in Hi'.
  cbn [items job with_job set_items] in Hi'. rewrite list_lookup_alter_eq, Hj, (quiet_items _ _ Q1), Ei in Hi'.
  by injection Hi' as <-.
Qed.

Lemma on_chunk_prompt n k first again s s' :
  is_turbo (job s) = false → on_chunk master n k first again s = (s', Ok ()) → prompt_at s' n.
Proof.
  intros Ht Hr. assert (Hend : ∃ s1, is_turbo (job s1) = is_turbo (job s) ∧ finish_item n s1 = (s', Ok ())).
  { pose proof (others_on_chunk n k first again s s' _ Hr) as [HL _].
    unfold on_chunk in Hr.
    do 13 (apply bind_run in Hr as [(? & _ & [=])|(? & ? & _ & Hr)]).
    eexists. split; [|exact Hr]. pose proof (others_finish n _ _ _ Hr) as [HL' _].
    apply (f_equal snd) in HL, HL'. cbn in HL, HL'. congruence. }
  destruct Hend as (s1 & Ht1 & Hf). apply (finish_prompt n s1); [congruence|done].
Qed.

Lemma publish_complete_run s s' :
  sound s → publish_complete s = (s', Ok ()) → sound s' ∧ same_needs s s' ∧ prompt s'.
Proof.
  intros Hsound Hr. unfold publish_complete in Hr.
  apply bind_run in Hr as [(e & [=] & _)|(s1 & j & [= <- <-] & Hr)].
  apply (for_each_run (λ ns s1, sound s1 ∧ same_needs s s1 ∧
    length (items (job s1)) = length (items (job s)) ∧
    (is_turbo (job s1) = false → ∀ n, n ∈ ns → prompt_at s1 n))) in Hr.
  - destruct Hr as (Hs' & N & Hl & Hp). split_and!; [done..|]. intros Ht n i Hi. apply (Hp Ht n); [|done].
    apply lookup_lt_Some in Hi. rewrite elem_of_seq. lia.
  - clear Hr. intros ns n s1 s2 _ (Hs1 & N & Hl & Hp) Hr.
    apply bind_run in Hr as [(e & _ & [=])|(s3 & i & [= <- Hi] & Hr)].
    destruct (items (job s1) !! n) as [i'|] eqn:Ei; [|done]. injection Hi as ->.
    apply bind_run in Hr as [(e & [=] & _)|(s3 & j & [= <- <-] & Hr)].
    destruct (selected (job s1) i) eqn:Es; cbn [negb] in Hr.
    + pose proof (others_finish n _ _ _ Hr) as O. pose proof (finish_run n s1 s2 _ Hs1 Hr) as Hs2.
      split_and!; [done|transitivity s1; [done|by eapply finish_needs]| |].
      * rewrite <- Hl. by destruct O as (_ & -> & _).
      * intros Ht2. assert (Ht1 : is_turbo (job s1) = false).
        { destruct O as [[= _ _ _ HT] _]. congruence. }
        intros m [Hm| ->%list_elem_of_singleton]%elem_of_app; [|by eapply finish_prompt].
        destruct (decide (m = n)) as [->|]; [by eapply finish_prompt|]. eapply others_prompt; eauto.
    + injection Hr as <-. split_and!; [done..|].
      intros Ht m [Hm| ->%list_elem_of_singleton]%elem_of_app; [by apply Hp|].
      intros i' Hi' Hs'. congruence.
  - split_and!; [done..|]. set_solver.
Qed.
End safety.
