(* ===== verification/Receive.v ===== *)
(** * Whole downloads (crates/transfer-native/src/protocol/download.rs)

    A run of [download] from a fresh or a resumed job: the queue of chunks,
    fetched in any order, each authenticated, marked, counted and published as
    [Download] defines.  A run can end at any step; the next one starts with
    [resume] from the saved job, whatever the disk holds. *)

From Stdlib Require Import Ascii String Sorted.
From stdpp Require Import sorting.
From S2P Require Import Prelude Str Codec Frame Manifest Encryption Control Http Transport Monad Fs Fetch Download.
Open Scope Z_scope.

(** ** The queue *)

Definition needed (j : DownloadJob) (n : nat) (k : Z) : Prop :=
  ∃ i, items j !! n = Some i ∧ selected j i = true ∧ 0 ≤ k < chunk_count i ∧ is_verified i k = false.

(** Index-major order: every file starts promptly. *)
Definition before (a b : nat * Z) : Prop := snd a < snd b ∨ snd a = snd b ∧ (fst a < fst b)%nat.

Lemma sorted_omap {A B} (R : A → A → Prop) (Q : B → B → Prop) (f : A → option B) (l : list A) :
  (∀ a b x y, R a b → f a = Some x → f b = Some y → Q x y) →
  StronglySorted R l → StronglySorted Q (omap f l).
Proof.
  intros Hf Hl. induction Hl as [|a l Hl IH Ha]; cbn; [constructor|].
  destruct (f a) as [x|] eqn:Ex; [|done]. constructor; [done|].
  apply Forall_forall. intros y (b & Hb & Hy)%list_elem_of_omap.
  rewrite Forall_forall in Ha. by apply (Hf a b); [apply Ha| |].
Qed.

Lemma sorted_imap {A} (l : list A) (k : nat) :
  StronglySorted (λ a b : nat * A, (fst a < fst b)%nat) (imap (λ n a, ((k + n)%nat, a)) l).
Proof.
  revert k. induction l as [|a l IH]; intros k; cbn; [constructor|]. constructor.
  - rewrite (imap_ext _ (λ n a, ((S k + n)%nat, a))); [apply IH|]. intros n b _. cbn. f_equal. lia.
  - apply Forall_forall. intros y (n & b & -> & _)%elem_of_lookup_imap. cbn. lia.
Qed.

Lemma sorted_bind {A B} (R : A → A → Prop) (Q : B → B → Prop) (f : A → list B) (l : list A) :
  (∀ a, StronglySorted Q (f a)) → (∀ a b x y, R a b → x ∈ f a → y ∈ f b → Q x y) →
  StronglySorted R l → StronglySorted Q (l ≫= f).
Proof.
  intros Hs Hf Hl. induction Hl as [|a l Hl IH Ha]; cbn; [constructor|].
  apply StronglySorted_app_2; [|apply Hs|done].
  intros x y Hx (b & Hy & Hb)%list_elem_of_bind. rewrite Forall_forall in Ha. eauto.
Qed.

Lemma sorted_seqZ m n : StronglySorted Z.lt (seqZ m n).
Proof.
  unfold seqZ. apply (StronglySorted_fmap _ lt); [intros; lia|].
  generalize 0%nat. induction (Z.to_nat n) as [|k IH]; intros s; cbn; constructor; [apply IH|].
  apply Forall_forall. intros y Hy%elem_of_seq. lia.
Qed.

Lemma elem_of_pending_at j c n k :
  (n, k) ∈ pending_at j c ↔
  k = c ∧ ∃ i, items j !! n = Some i ∧ selected j i = true ∧ c < chunk_count i ∧ is_verified i c = false.
Proof.
  unfold pending_at. rewrite list_elem_of_omap. split.
  - intros ([n' i] & (m & i' & [= -> ->] & Hi)%elem_of_lookup_imap & Hx). cbn in Hx.
    destruct (_ && _ && _) eqn:Ec; [|done]. injection Hx as -> ->. bool_prop.
    split; [done|]. exists i'. by destruct (is_verified i' k).
  - intros (-> & i & Hi & Hs & Hk & Hv). exists (n, i). split.
    + rewrite elem_of_lookup_imap. by exists n, i.
    + cbn. rewrite Hs, Hv, (proj2 (Z.ltb_lt _ _) Hk). done.
Qed.

Lemma max_chunks_ge j n i : items j !! n = Some i → chunk_count i ≤ max_chunks j.
Proof.
  unfold max_chunks. revert n. induction (items j) as [|a l IH]; intros [|n]; cbn; try done.
  - intros [= ->]. lia.
  - intros Hi. specialize (IH n Hi). cbn in IH. lia.
Qed.

Lemma elem_of_pending j n k : (n, k) ∈ pending j ↔ needed j n k.
Proof.
  unfold pending, needed. rewrite list_elem_of_bind. split.
  - intros (c & (-> & i & Hi & Hs & Hk & Hv)%elem_of_pending_at & Hc%elem_of_seqZ).
    exists i. split_and!; try done; lia.
  - intros (i & Hi & Hs & Hk & Hv). exists k. rewrite elem_of_pending_at, elem_of_seqZ.
    pose proof (max_chunks_ge j n i Hi). split; [|lia]. split; [done|]. exists i. split_and!; try done; lia.
Qed.

Lemma before_irrefl a : ¬ before a a.
Proof. unfold before. lia. Qed.

Lemma sorted_NoDup {A} (R : A → A → Prop) (l : list A) :
  (∀ a, ¬ R a a) → StronglySorted R l → NoDup l.
Proof.
  intros Hi Hl. induction Hl as [|a l Hl IH Ha]; constructor; [|done].
  intros Hin. rewrite Forall_forall in Ha. by apply (Hi a), Ha.
Qed.

Lemma pending_sorted j : StronglySorted before (pending j).
Proof.
  apply (sorted_bind Z.lt); [| |apply sorted_seqZ].
  - intros c. apply (sorted_omap (λ a b : nat * SavedItem, (fst a < fst b)%nat)); [|apply (sorted_imap _ 0)].
    intros [n a] [m b] x y Hnm Hx Hy. cbn in *.
    destruct (_ && _ && _) in Hx; [|done]. destruct (_ && _ && _) in Hy; [|done].
    injection Hx as <-. injection Hy as <-. by right.
  - intros c d [n k] [m k'] Hcd (-> & _)%elem_of_pending_at (-> & _)%elem_of_pending_at. by left.
Qed.

Lemma pending_NoDup j : NoDup (pending j).
Proof. apply (sorted_NoDup before); [apply before_irrefl|apply pending_sorted]. Qed.

(** The queue is exactly the chunks still needed, each once, in index-major
    order; no other list is. *)
Theorem pending_exact j :
  (∀ n k, (n, k) ∈ pending j ↔ needed j n k) ∧ NoDup (pending j) ∧ StronglySorted before (pending j) ∧
  ∀ q, StronglySorted before q → (∀ n k, (n, k) ∈ q ↔ needed j n k) → q = pending j.
Proof.
  pose proof (pending_sorted j) as Hs. pose proof (pending_NoDup j) as Hn.
  split_and!; [apply elem_of_pending|done|done|]. intros q Hq Hin.
  assert (AntiSymm eq before) by (intros [] [] [] []; cbn in *; lia).
  apply (StronglySorted_unique before); [done..|].
  apply NoDup_Permutation; [by eapply sorted_NoDup; [apply before_irrefl|]|done|].
  intros [n k]. by rewrite Hin, elem_of_pending.
Qed.

(** ** Runs *)

Section run.
Context `{Aead, Kdf, Codec, World} (master : list Z).

(** What [async_download_to] leaves: nothing verified, counted or published. *)
Definition fresh (s : State) : Prop :=
  all_sized (job s) ∧ done_bytes (job s) = 0 ∧
  ∀ n i, items (job s) !! n = Some i → published i = false ∧ ∀ k, is_verified i k = false.

(** What the fetches in flight change: retained ciphertext and the display. *)
Definition fetching (r : ReceiveProgress) (p : Control.Progress) c b (s : State) : State :=
  with_ciphers c b (with_shown r p s).

(** [running s q]: a run has reached state [s], with the chunks of [q] queued
    or being fetched.  They complete in any order. *)
Inductive running : State → list (nat * Z) → Prop :=
  | run_fresh s0 s :
      fresh s0 → publish_complete s0 = (s, Ok ()) → running s (pending (job s))
  | run_resumed s0 s1 s :
      all_sized (checkpoint s0) → resume master s0 = (s1, Ok ()) →
      publish_complete s1 = (s, Ok ()) → running s (pending (job s))
  | run_fetching s q r p c b : running s q → running (fetching r p c b s) q
  | run_chunk s q n k first again s' :
      running s q → (n, k) ∈ q → on_chunk master n k first again s = (s', Ok ()) →
      running s' (filter (λ e, e ≠ (n, k)) q).

Lemma fresh_sound s : fresh s → sound master s.
Proof.
  intros (Hsz & Hd & Hf). split_and!; [done| | |].
  - intros n k i Hi _ _ _ Hv. destruct (Hf n i Hi) as [_ Hv']. by rewrite Hv' in Hv.
  - intros n i Hi _ Hp. destruct (Hf n i Hi). congruence.
  - rewrite Hd, verified_bytes_counted. symmetry.
    assert (Hz : ∀ i, i ∈ items (job s) → counted (job s) i = 0).
    { intros i (n & Hi)%list_elem_of_lookup. unfold counted. destruct (selected _ _); [|done].
      unfold item_verified_bytes. destruct (Hf n i Hi) as [_ Hv].
      assert (Hb : ∀ m b, verified i !! m = Some b → b = false).
      { intros m b Hm. specialize (Hv (Z.of_nat m)). unfold is_verified in Hv.
        rewrite Nat2Z.id, Hm in Hv. done. }
      clear - Hb. rewrite (imap_ext _ (λ _ _, 0)).
      - generalize (verified i). intros l. induction l as [|b l IH]; [done|]. cbn. exact IH.
      - intros m b Hm. by rewrite (Hb m b Hm). }
    clear Hf. induction (items (job s)) as [|i l IH]; [done|]. rewrite fmap_cons.
    unfold sum_Z in *. cbn [foldr]. rewrite Hz by set_solver. apply IH. intros x Hx. apply Hz. set_solver.
Qed.

Lemma running_inv s q :
  running s q → sound master s ∧ prompt s ∧ NoDup q ∧ ∀ n k, (n, k) ∈ q ↔ unverified s n k.
Proof.
  induction 1 as [s0 s Hf Hp|s0 s1 s Hsz Hr Hp|s q r p c b _ (Hs & Hp & Hq & Hin)
    |s q n k first again s' _ (Hs & Hp & Hq & Hin) Hnk Hr].
  - apply (publish_complete_run master) in Hp as (Hs & _ & Hp); [|by apply fresh_sound].
    split_and!; [done|done|apply pending_NoDup|apply elem_of_pending].
  - apply resume_run in Hr as [Hs1 _]; [|done].
    apply (publish_complete_run master) in Hp as (Hs & _ & Hp); [|done].
    split_and!; [done|done|apply pending_NoDup|apply elem_of_pending].
  - assert (Q : quiet s (fetching r p c b s)) by by split.
    split_and!; [by apply (quiet_sound master s)|exact Hp|done|].
    intros n k. by rewrite Hin, (quiet_needs _ _ Q n k).
  - apply Hin in Hnk. destruct (on_chunk_run master n k first again s s' Hs Hnk Hr) as [Hs' Hu].
    split_and!; [done| |by apply NoDup_filter|].
    + intros Ht. pose proof (others_on_chunk master n k first again s s' _ Hr) as O.
      assert (Ht0 : is_turbo (job s) = false) by (destruct O as [[= _ _ _ HT] _]; congruence).
      intros m. destruct (decide (m = n)) as [->|Hm]; [|by eapply others_prompt; [|done|apply Hp]].
      by eapply on_chunk_prompt.
    + intros n' k'. rewrite list_elem_of_filter, Hin, Hu. tauto.
Qed.

(** C12: In every state of a run, from a fresh job or resumed over any disk contents
    from a saved job whose sizes, counts and bits fit each other as manifest
    validation leaves them, each verified bit of a file still to be published
    stands for plaintext bytes that authenticate as that chunk, each published
    file is in the output directory with the manifest's digest, [done] is the
    plaintext length of the verified chunks, the files of a download without Turbo
    are published as soon as they are complete, and no chunk is lost or fetched
    twice: the chunks queued or in flight are, each once, those still needed. *)
Theorem download_invariant s q :
  running s q →
  (∀ n k i, items (job s) !! n = Some i → selected (job s) i = true → published i = false →
     0 ≤ k < chunk_count i → is_verified i k = true →
     chunk_ok master (job s) i (default [] (plains s !! n)) k) ∧
  (∀ n i, items (job s) !! n = Some i → selected (job s) i = true → published i = true →
     ∃ c, outputs s !! target i = Some c ∧ sha256_hex c = digest i) ∧
  done_bytes (job s) = verified_bytes (job s) ∧
  (is_turbo (job s) = false → ∀ n i, items (job s) !! n = Some i → selected (job s) i = true →
     all_verified i = true → published i = true) ∧
  NoDup q ∧ ∀ n k, (n, k) ∈ q ↔ needed (job s) n k.
Proof.
  intros ((_ & Hb & Ht & Hd) & Hp & Hq & Hin)%running_inv.
  split_and!; [intros n k i; apply Hb|intros n i; apply Ht|done|intros Htur n i; by apply Hp|done|exact Hin].
Qed.

Lemma all_verified_needed s n i :
  sized (job s) i → items (job s) !! n = Some i → selected (job s) i = true →
  (∀ k, ¬ unverified s n k) → all_verified i = true.
Proof.
  intros (_ & _ & _ & _ & Hlen) Hi Hs Hno. unfold all_verified. rewrite forallb_forall.
  intros b Hb. apply list_elem_of_In, list_elem_of_lookup in Hb as [m Hm]. destruct b; [done|]. exfalso.
  apply (Hno (Z.of_nat m)). exists i. apply lookup_lt_Some in Hm as Hlt.
  split_and!; [done|done|lia|lia|]. unfold is_verified. by rewrite Nat2Z.id, Hm.
Qed.

Lemma item_bytes_all j i :
  sized j i → all_verified i = true → item_verified_bytes j i = size i.
Proof.
  intros (Hu & Hc & Hb & Hov & Hlen) Hall. unfold item_verified_bytes.
  assert (Hv : verified i = replicate (Z.to_nat (chunk_count i)) true).
  { rewrite <- Hlen, Nat2Z.id. unfold all_verified in Hall. clear - Hall.
    induction (verified i) as [|b l IH]; [done|]. cbn in Hall. destruct b; [|done]. cbn. by rewrite <- IH. }
  assert (Himap : ∀ (f : nat → bool → Z) m, imap f (replicate m true) = (λ n, f n true) <$> seq 0 m).
  { clear. intros f m. revert f. induction m as [|m IH]; intros f; [done|]. cbn. rewrite IH, <- fmap_S_seq.
    f_equal. by rewrite <- list_fmap_compose. }
  rewrite Hv, Himap. set (cc := chunk_count i) in *.
  transitivity (sum_Z (chunk_len (size i) (chunk_bytes j) <$> seqZ 0 (Z.max 1 (div_ceil (size i) (chunk_bytes j))))).
  - unfold seqZ. rewrite <- Hc, <- list_fmap_compose. f_equal. apply list_fmap_ext. intros x m Hm.
    apply list_elem_of_lookup_2, elem_of_seq in Hm. unfold compose, plaintext_len, chunk_len, saturating_sub, saturating_mul.
    pose proof (div_ceil_lower (size i) (chunk_bytes j) Hb). destruct Hu as [Hs0 _].
    assert (Z.of_nat m * chunk_bytes j ≤ cc * chunk_bytes j) by nia.
    assert (0 ≤ size i - Z.of_nat m * chunk_bytes j) by nia. lia.
  - destruct Hu as [Hs0 _]. destruct (Z.eq_dec (size i) 0) as [E|E].
    + rewrite E, div_ceil_0 by done. change (seqZ 0 (Z.max 1 0)) with [0].
      unfold chunk_len. cbn [fmap list_fmap sum_Z foldr]. lia.
    + pose proof (div_ceil_pos (size i) (chunk_bytes j) Hb). rewrite Z.max_r by lia. apply chunk_lens_sum; lia.
Qed.

Lemma verified_bytes_all j :
  all_sized j → (∀ n i, items j !! n = Some i → selected j i = true → all_verified i = true) →
  verified_bytes j = sum_Z (size <$> selected_items j).
Proof.
  intros Hsz Hall. unfold verified_bytes. f_equal. apply list_fmap_ext. intros m i Hm.
  apply list_elem_of_lookup_2, list_elem_of_filter in Hm as [Hs Hm].
  apply list_elem_of_lookup in Hm as [n Hi]. apply item_bytes_all; [by eapply Hsz|by eapply Hall].
Qed.

(** C13: Once every chunk has been fetched a download without Turbo is whole: when
    [complete] returns, every selected file is in the output directory with
    the digest of the manifest, and [done] is the sum of the selected sizes; and
    when it returns without an error, this job is the one saved. *)
Theorem download_complete s s' r :
  running s [] → is_turbo (job s) = false → complete s = (s', r) →
  state (job s') = "complete"%string ∧ items (job s') = items (job s) ∧
  done_bytes (job s') = sum_Z (size <$> selected_items (job s')) ∧
  (r = Ok () → checkpoint s' = job s') ∧
  ∀ n i, items (job s') !! n = Some i → selected (job s') i = true →
    published i = true ∧ ∃ c, outputs s' !! target i = Some c ∧ sha256_hex c = digest i.
Proof.
  intros Hrun Ht Hr. apply running_inv in Hrun as ((Hsz & _ & Htgt & Hd) & Hp & _ & Hin).
  assert (Hall : ∀ n i, items (job s) !! n = Some i → selected (job s) i = true → all_verified i = true).
  { intros n i Hi Hs. eapply all_verified_needed; [by eapply Hsz|done..|].
    intros k Hk. apply Hin in Hk. by apply not_elem_of_nil in Hk. }
  assert (Hjob : ∃ j, j = set_status "complete" (done_bytes (job s)) (turbo (job s)) (job s) ∧
    job s' = j ∧ outputs s' = outputs s ∧ (r = Ok () → checkpoint s' = j)).
  { eexists. split; [done|]. unfold complete in Hr.
    apply bind_run in Hr as [(e & [=] & _)|(s1 & [] & [= <-] & Hr)].
    apply bind_run in Hr as [(e & Hk & ->)|(s2 & [] & Hk & Hr)]; injection Hk as <- _; [done|].
    by injection Hr as <- _. }
  destruct Hjob as (j & Hj & -> & Ho & Hsv). subst j. split_and!; [done|done| |done|].
  - rewrite (verified_bytes_all (job s) Hsz Hall) in Hd. exact Hd.
  - intros n i Hi Hs. rewrite Ho. assert (Hpub : published i = true) by (by eapply Hp; [|exact Hi|exact Hs|by eapply Hall]).
    split; [done|]. by apply (Htgt n).
Qed.

(** ** Output files *)

Lemma keeps_quiet {A} (m : SE State string A) : preserves quiet m → preserves keeps_outputs m.
Proof. intros Hm. by eapply preserves_weaken; [|apply quiet_keeps]. Qed.

Lemma keeps_modify (f : State → State) :
  (∀ s, outputs (f s) = outputs s) → preserves keeps_outputs (modify f : SE State string ()).
Proof. intros Hf s s' r [= <- _] t c. by rewrite Hf. Qed.

Lemma keeps_publish i n : preserves keeps_outputs (publish_item i n).
Proof. intros s s' r Hr. by apply publish_run in Hr as (_ & _ & Hk & _). Qed.

Lemma keeps_authenticate n k c b : preserves keeps_outputs (authenticate_and_write master n k c b).
Proof. intros s s' r Hr t x. apply authenticate_run in Hr as [W _]. by rewrite (writes_outputs _ _ _ _ _ W). Qed.

Lemma keeps_retained n k : preserves keeps_outputs (restore_retained master n k).
Proof. intros s s' r Hr t x. apply restore_retained_run in Hr as [W _]. by rewrite (writes_outputs _ _ _ _ _ W). Qed.

Lemma keeps_update f n : preserves keeps_outputs (update_item f n).
Proof. by apply keeps_modify. Qed.

Lemma outputs_attempt {A E} (m : SE State string A) :
  preserves keeps_outputs m → preserves keeps_outputs (attempt m : SE State E _).
Proof. intros Hm s s' r Hr. apply attempt_run in Hr as (x & Hr & _). by eapply Hm. Qed.

Lemma keeps_for_each {A} (f : A → SE State string ()) (l : list A) :
  (∀ a, preserves keeps_outputs (f a)) → preserves keeps_outputs (for_each f l).
Proof.
  intros Hf. induction l as [|a l IH]; cbn; [by intros s s' r [= <- _]|].
  apply preserves_bind; [apply _|apply Hf|done].
Qed.

Create HintDb keeps.
Hint Resolve keeps_publish keeps_authenticate keeps_retained keeps_update keeps_for_each outputs_attempt : keeps.
Hint Extern 3 (preserves keeps_outputs _) => (apply keeps_quiet; solve [eauto with quiet]) : keeps.
Hint Extern 2 (preserves keeps_outputs (modify _)) => (apply keeps_modify; intros ?; by repeat case_match) : keeps.

Ltac keeps_step :=
  repeat first
    [ solve [eauto with keeps]
    | apply keeps_for_each; intros ?
    | apply preserves_bind; [apply _| |intros ?]
    | match goal with |- preserves _ (if ?b then _ else _) => destruct b end
    | match goal with |- preserves _ (match ?o with _ => _ end) => destruct o end ].

Lemma keeps_finish n : preserves keeps_outputs (finish_item n).
Proof. unfold finish_item. keeps_step. Qed.
Hint Resolve keeps_finish : keeps.

(** No file of the output directory is ever replaced or removed, by any
    operation of a download, whatever its outcome. *)
Theorem outputs_kept :
  preserves keeps_outputs (resume master) ∧ preserves keeps_outputs publish_complete ∧
  (∀ n k first again, preserves keeps_outputs (on_chunk master n k first again)) ∧
  preserves keeps_outputs complete ∧ preserves keeps_outputs pause.
Proof.
  split_and!; [| |intros n k first again| |].
  - unfold resume, rebuild, restore_item, restore_chunk, consume_background_ciphertext, consume_chunk. keeps_step.
  - unfold publish_complete. keeps_step.
  - unfold on_chunk. keeps_step.
  - unfold complete. keeps_step.
  - unfold pause. keeps_step.
Qed.

(** ** Background ciphertext *)

(** A background file that was consumed leaves no retained ciphertext, so the
    next resume does not restore the chunk: it clears the bit again. *)
Theorem consumed_not_retained n k i s s' :
  items (job s) !! n = Some i → is_verified i k = false → is_Some (background s !! (n, k)) →
  ciphers s !! (n, k) = None → consume_chunk master n k s = (s', Ok ()) →
  background s' !! (n, k) = None ∧ restore_retained master n k s' = (tick s', Ok false).
Proof.
  intros Hi Hv [c Hb] Hc Hr. unfold consume_chunk in Hr.
  apply bind_run in Hr as [(e & _ & [=])|(s1 & i' & [= <- Hi'] & Hr)].
  rewrite Hi in Hi'. injection Hi' as <-. rewrite Hv in Hr.
  apply bind_run in Hr as [(e & _ & [=])|(s1 & [] & [= <- _] & Hr)].
  apply bind_run in Hr as [(e & [=] & _)|(s1 & c' & [= <- <-] & Hr)].
  cbn [background tick] in Hr. rewrite Hb in Hr.
  apply bind_run in Hr as [(e & [=] & _)|(s1 & j & [= <- <-] & Hr)].
  destruct (negb _); [done|].
  apply bind_run in Hr as [(e & _ & [=])|(s1 & e & Ha & Hr)].
  assert (Hsame : ciphers s1 = ciphers s ∧ job s1 = job s).
  { unfold authenticate_and_write in Ha.
    apply bind_run in Ha as [(x & _ & [=])|(s2 & i' & [= <- _] & Ha)].
    apply bind_run in Ha as [(x & [=] & _)|(s2 & j & [= <- <-] & Ha)].
    apply bind_run in Ha as [(x & _ & [=])|(s2 & p & [= <- _] & Ha)]. destruct (negb _); [done|].
    apply bind_run in Ha as [(x & [=] & _)|(s2 & [] & [= <-] & Ha)].
    apply bind_run in Ha as [(x & _ & [=])|(s2 & [] & Hw & Ha)]. injection Ha as <- _.
    unfold write_plain in Hw. destruct (io_fault _); by injection Hw as <-. }
  destruct Hsame as [Hc1 Hj1].
  apply bind_run in Hr as [(x & [=] & _)|(s2 & [] & [= <-] & Hr)].
  apply bind_run in Hr as [(x & [=] & _)|(s2 & j & [= <- <-] & Hr)].
  apply bind_run in Hr as [(x & _ & [=])|(s2 & d & [= <- _] & Hr)].
  apply bind_run in Hr as [(x & [=] & _)|(s2 & [] & [= <-] & Hr)].
  apply bind_run in Hr as [(x & _ & [=])|(s2 & [] & [= <- _] & Hr)]. injection Hr as <-.
  split; [cbn; by rewrite lookup_delete_eq|].
  unfold restore_retained, get_item, get, attempt, disk, mbind, SE_bind. cbn [job ciphers items with_ciphers with_job tick set_status set_items].
  rewrite list_lookup_alter_eq, Hj1, Hi. cbn [fmap option_fmap option_map ok_or].
  destruct (io_fault _); [done|]. by rewrite Hc1, Hc.
Qed.
End run.

(** ** Selection *)

Lemma selected_sum l t :
  (∀ i, i ∈ l → is_u64 (size i)) → is_u64 t →
  try_fold (λ total item, ok_or (checked_add total (size item)) "selected download is too large"%string) t l =
  (if t + sum_Z (size <$> l) <=? u64_max then Ok (t + sum_Z (size <$> l))
   else Err "selected download is too large"%string).
Proof.
  revert t. induction l as [|i l IH]; intros t Hl [Ht Ht'].
  - cbn. rewrite Z.add_0_r. by rewrite (proj2 (Z.leb_le t u64_max)).
  - assert (Hi : is_u64 (size i)) by (apply Hl; set_solver). destruct Hi as [Hi _].
    assert (Hs : 0 ≤ sum_Z (size <$> l)).
    { apply sum_Z_nonneg, Forall_fmap, Forall_forall. intros x Hx. apply (Hl x). set_solver. }
    rewrite fmap_cons. change (sum_Z (size i :: (size <$> l))) with (size i + sum_Z (size <$> l)).
    cbn [try_fold]. unfold checked_add at 1.
    destruct (t + size i <=? u64_max) eqn:E; cbn [ok_or mbind result_bind]; bool_prop.
    + rewrite IH; [|set_solver|split; lia]. by rewrite Z.add_assoc.
    + by rewrite (proj2 (Z.leb_gt _ u64_max)) by lia.
Qed.

Lemma bad_selection_spec j ids :
  bad_selection j ids = false ↔
  ids ≠ [] ∧ NoDup ids ∧ ∀ x, x ∈ ids → ∃ i, i ∈ items j ∧ id i = x.
Proof.
  unfold bad_selection. rewrite !orb_false_iff, bool_decide_eq_false, negb_false_iff, bool_decide_eq_true.
  assert (Hex : existsb (λ x, negb (has_item j x)) ids = false ↔ ∀ x, x ∈ ids → ∃ i, i ∈ items j ∧ id i = x).
  { split.
    - intros He x Hx. destruct (has_item j x) eqn:Ex.
      + unfold has_item in Ex. apply existsb_exists in Ex as (i & Hi%list_elem_of_In & Ei).
        exists i. split; [done|]. by apply String.eqb_eq.
      + assert (Ht : existsb (λ x, negb (has_item j x)) ids = true); [|congruence].
        apply existsb_exists. exists x. rewrite Ex. by rewrite <- list_elem_of_In.
    - intros Hall. apply not_true_is_false. intros (x & Hx%list_elem_of_In & Hn)%existsb_exists.
      destruct (Hall x Hx) as (i & Hi%list_elem_of_In & <-). apply negb_true_iff in Hn.
      assert (has_item j (id i) = true); [|congruence].
      apply existsb_exists. exists i. by rewrite String.eqb_refl. }
  rewrite Hex. tauto.
Qed.

(** Selecting items of a saved background download succeeds exactly when
    the saved job is well formed, still waits for its execution, has nothing
    received and no selection yet, and the ids name items of the job, each
    once and at least one, with sizes that add up without overflow.  The new
    job passes the checks again, has that sum as its total, and refuses any
    further selection. *)
Theorem background_selection bg j ids :
  (∀ i, i ∈ items j → is_u64 (size i)) →
  let chosen := filter (λ i, id i ∈ ids) (items j) in
  let j' := set_selection (Some ids) (sum_Z (size <$> chosen)) true j in
  ((∃ j2, select_background_items bg j ids = Ok j2) ↔
    checked j = Ok () ∧ eligible j = true ∧ selection_frozen j = false ∧ started bg j = false ∧
    ids ≠ [] ∧ NoDup ids ∧ (∀ x, x ∈ ids → ∃ i, i ∈ items j ∧ id i = x) ∧
    sum_Z (size <$> chosen) ≤ u64_max) ∧
  (∀ j2, select_background_items bg j ids = Ok j2 →
    j2 = j' ∧ checked j' = Ok () ∧ selected_items j' = chosen ∧
    ∀ bg' ids', ∃ e, select_background_items bg' j' ids' = Err e).
Proof.
  intros Hsz chosen j'.
  set (j1 := set_selection (Some ids) (total j) (selection_frozen j) j).
  assert (Hch : ∀ t f, selected_items (set_selection (Some ids) t f j) = chosen).
  { intros t f. unfold selected_items, chosen. apply list_filter_iff. intros i. unfold selected. cbn.
    rewrite existsb_exists. split.
    - intros (x & Hx%list_elem_of_In & ->%String.eqb_eq). done.
    - intros Hx. exists (id i). rewrite <- list_elem_of_In, String.eqb_refl. done. }
  assert (Htot : selected_total j1 = if sum_Z (size <$> chosen) <=? u64_max
    then Ok (sum_Z (size <$> chosen)) else Err "selected download is too large"%string).
  { unfold selected_total, j1. rewrite Hch. apply (selected_sum chosen 0); [|done].
    intros i Hi. apply Hsz. unfold chosen in Hi. by apply list_elem_of_filter in Hi as [_ Hi]. }
  assert (Hrun : select_background_items bg j ids =
    match checked j with Err e => Err e | Ok _ =>
    if negb (eligible j) then Err "saved download is not eligible for item selection"%string else
    if selection_frozen j || started bg j then Err "download item selection is frozen after work has started"%string else
    if bad_selection j ids then Err "download item selection must contain unique manifest item ids"%string else
    if sum_Z (size <$> chosen) <=? u64_max then Ok j' else Err "selected download is too large"%string end).
  { unfold select_background_items. destruct (checked j) as [[]|e]; [|done]. cbn [mbind result_bind].
    destruct (eligible j); [|done]. destruct (selection_frozen j || started bg j); [done|].
    destruct (bad_selection j ids); [done|]. cbv zeta. fold j1. rewrite Htot. by destruct (_ <=? u64_max). }
  assert (Hck : checked j = Ok () → bad_selection j ids = false → checked j' = Ok ()).
  { intros Hc Hb. unfold checked in Hc |- *. guards Hc. cbv zeta.
    match goal with |- (if ?c then _ else _) = _ => replace c with false by (symmetry; exact Heqb) end.
    change (selected_item_ids j') with (Some ids). cbv beta iota.
    change (bad_selection j' ids) with (bad_selection j ids). by rewrite Hb, bool_decide_false, andb_false_r. }
  pose proof (bad_selection_spec j ids) as Hbad. rewrite Hrun. split.
  - split.
    + intros [j2 Hj2]. destruct (checked j) as [[]|e]; [|done]. guards Hj2. bool_prop.
      destruct (eligible j), (selection_frozen j), (started bg j), (bad_selection j ids); try done.
      destruct (_ <=? u64_max) eqn:E; [|done]. bool_prop. by destruct (proj1 Hbad eq_refl) as (? & ? & ?).
    + intros (-> & -> & -> & -> & Hn & Hd & Hin & Hle). rewrite (proj2 Hbad) by done. cbn. rewrite (proj2 (Z.leb_le _ _) Hle). by eexists.
  - intros j2 Hj2. destruct (checked j) as [[]|e]; [|done].
    destruct (eligible j) eqn:He, (selection_frozen j || started bg j), (bad_selection j ids) eqn:Eb; try done.
    cbn [negb] in Hj2. destruct (_ <=? u64_max); [|done]. injection Hj2 as <-.
    split_and!; [done|by apply Hck|apply Hch|]. intros bg' ids'. unfold select_background_items.
    rewrite Hck by done. change (eligible j') with (eligible j). rewrite He. by eexists.
Qed.

(** ** An example: two files, one of them empty *)

Module Example_receive.
Import Example_crypto.

#[export] Instance codec : Codec :=
  {| decode := λ _, Ok prefix16; sha256_hex := λ l, decimal (zlen l) |}.
#[export] Instance world : World :=
  {| io_fault := λ _, None; cancel_flag := λ _, false; report_status := λ _, Some 204; raced := λ _, None |}.

Definition out : path := ["out"; "/"].
Definition item1 : SavedItem :=
  {| id := ulid1; name := "a"; size := 5; nonce_prefix := "p"; chunk_count := 2; digest := "5";
     target := "a" :: out; verified := [false; false]; published := false |}.
Definition item2 : SavedItem :=
  {| id := ulid2; name := "b"; size := 0; nonce_prefix := "p"; chunk_count := 1; digest := "0";
     target := "b" :: out; verified := [false]; published := false |}.
Definition job0 (st : string) : DownloadJob :=
  {| version := 1; job_id := "j"; direction := "download"; state := st; instance := "i"; done_bytes := 0;
     total := 5; transfer_id := ulid1; chunk_bytes := 3; server_concurrency := 4; ranges := false;
     driver := "http"; envelope := "e"; source := Public; turbo := None; output := out;
     items := [item1; item2]; selected_item_ids := None; selection_frozen := false |}.
Definition state0 : State :=
  {| job := job0 "running"; checkpoint := job0 "running"; ciphers := ∅; background := ∅; plains := ∅;
     outputs := ∅; receiving := progress_new 0 [0; 0]; progress := Control.progress_default; clock := 0 |}.
Definition chunks : list (nat * Z * list Z) :=
  [(1%nat, 0, tag); (0%nat, 1, [4; 5] ++ tag); (0%nat, 0, [1; 2; 3] ++ tag)].
Definition after (l : list (nat * Z * list Z)) : State :=
  foldl (λ s c, fst (on_chunk key32 (fst (fst c)) (snd (fst c)) (snd c) (Err "unused"%string) s))
    (fst (publish_complete state0)) l.

Lemma fresh0 : fresh state0.
Proof.
  split_and!; [|done|].
  - intros [|[|n]] i Hi; try done; injection Hi as <-; vm_compute; split_and!; congruence.
  - intros [|[|n]] i Hi; try done; injection Hi as <-; (split; [done|]); intros k; unfold is_verified; cbn.
    + by destruct (Z.to_nat k) as [|[|m]].
    + by destruct (Z.to_nat k) as [|m].
Qed.

(** One step from [l] chunks received to the next one. *)
Lemma one_chunk l q n k data :
  running key32 (after l) q → (n, k) ∈ q →
  snd (on_chunk key32 n k data (Err "unused"%string) (after l)) = Ok () →
  running key32 (after (l ++ [(n, k, data)])) (filter (λ e, e ≠ (n, k)) q).
Proof.
  intros Hrun Hq Hr. apply (run_chunk key32 (after l) q n k data (Err "unused"%string)); [done..|].
  unfold after. rewrite foldl_app. cbn [foldl fst snd]. fold (after l). rewrite <- Hr. apply surjective_pairing.
Qed.

Lemma running_partly : running key32 (after (take 2 chunks)) [(0%nat, 0)].
Proof.
  apply (one_chunk (take 1 chunks) [(0%nat, 0); (0%nat, 1)] 0 1 ([4; 5] ++ tag));
    [|repeat constructor|vm_compute; reflexivity].
  apply (one_chunk [] [(0%nat, 0); (1%nat, 0); (0%nat, 1)] 1 0 tag);
    [|repeat constructor|vm_compute; reflexivity].
  change [(0%nat, 0); (1%nat, 0); (0%nat, 1)] with (pending (job (after []))).
  apply (run_fresh key32 state0); [apply fresh0|]. vm_compute. reflexivity.
Qed.

Lemma running_done : running key32 (after chunks) [].
Proof.
  apply (one_chunk (take 2 chunks) [(0%nat, 0)] 0 0 ([1; 2; 3] ++ tag));
    [apply running_partly|repeat constructor|vm_compute; reflexivity].
Qed.

Lemma download_invariant_witness :
  done_bytes (job (after (take 2 chunks))) = 2 ∧
  outputs (after (take 2 chunks)) !! ("b" :: out) = Some [] ∧
  done_bytes (job (after (take 2 chunks))) = verified_bytes (job (after (take 2 chunks))).
Proof.
  split; [vm_compute; reflexivity|]. split; [vm_compute; reflexivity|].
  apply (download_invariant key32 _ _ running_partly).
Defined.

Lemma download_complete_witness :
  outputs (after chunks) !! ("a" :: out) = Some [1; 2; 3; 4; 5] ∧
  done_bytes (job (fst (complete (after chunks)))) =
  sum_Z (size <$> selected_items (job (fst (complete (after chunks))))).
Proof.
  split; [vm_compute; reflexivity|].
  apply (download_complete key32 (after chunks) _ (snd (complete (after chunks))) running_done);
    [vm_compute; reflexivity|apply surjective_pairing].
Defined.

Lemma background_selection_witness :
  ∃ j2, select_background_items (λ _ _, false) (job0 "awaiting-execution") [ulid2] = Ok j2.
Proof.
  apply (background_selection (λ _ _, false) (job0 "awaiting-execution") [ulid2]).
  - intros i [->|[->|Hi%not_elem_of_nil]%elem_of_cons]%elem_of_cons; [vm_compute; split; congruence..|done].
  - split_and!; try (vm_compute; reflexivity); try done.
    + by apply NoDup_singleton.
    + intros x ->%list_elem_of_singleton. exists item2. split; [|done]. apply list_elem_of_lookup. by exists 1%nat.
Defined.

Definition background_state : State := with_ciphers ∅ {[ (0%nat, 1) := [4; 5] ++ tag ]} state0.

Lemma consumed_not_retained_witness :
  restore_retained key32 0 1 (fst (consume_chunk key32 0 1 background_state)) =
  (tick (fst (consume_chunk key32 0 1 background_state)), Ok false).
Proof.
  apply (consumed_not_retained key32 0 1 item1 background_state); try (vm_compute; reflexivity).
  vm_compute. by eexists.
Defined.
End Example_receive.
