(* ===== verification/Upload.v ===== *)
(** * Upload jobs (crates/transfer-native/src/protocol/upload.rs)

    The saved upload job, the checks a loaded checkpoint passes, and the
    operations that read or change the job without sending data: retention,
    receipt, progress accounting, reconciliation with the server's ledger and
    the ingestion of background completions. *)

From Stdlib Require Import Ascii String.
From S2P Require Import Prelude Str Frame Codec Transport Http Monad Source.
From S2P Require Stage.
Open Scope Z_scope.

Definition TAG_BYTES : Z := 16.

(** ** The saved job *)

Record Src := {
  spec : SourceSpec;
  source_bytes : Z;
  source_modified_ns : Z;
  source_digest : string;
  chunk_digests : list string }.

Record Item := {
  item_id : string;
  item_position : Z;
  item_name : string;
  source : Src;
  nonce_prefix : string;
  item_digest : string;
  item_bytes : Z;
  item_chunk_count : Z }.

Record Chunk := {
  chunk_item : nat;
  chunk_item_id : string;
  position : Z;
  plaintext_bytes : Z;
  ciphertext_bytes : Z;
  checksum : string;
  artifact : string;
  complete : bool;
  stage : option Stage.StageSession }.

Record Recipient := {
  username : string;
  user_id : Z;
  account_key_bundle_id : Z;
  public_key : string;
  encrypted_key : option string }.

Record UploadJob := {
  sealed_attached_note : option string;
  version : Z;
  id : string;
  direction : string;
  state : string;
  instance : string;
  done_bytes : Z;
  total : Z;
  transfer_id : option string;
  upload_token : option string;
  monitor_token : option string;
  share_url : option string;
  delete_token : option string;
  share_key : list Z;
  password_salt : option string;
  master_key : list Z;
  chunk_bytes : Z;
  server_concurrency : Z;
  upload_status : bool;
  turbo : bool;
  descriptor_published : bool;
  encrypted_descriptor : option string;
  transport : option UploadTransport;
  driver : string;
  join_token : option string;
  exact_manifest : option string;
  receipt_url : option string;
  recipient : option Recipient;
  items : list Item;
  chunks : list Chunk }.

(** The fields the sending loop changes. *)
Definition update st d em rc mk tok tr its cs (j : UploadJob) : UploadJob :=
  {| sealed_attached_note := sealed_attached_note j; version := version j; id := id j;
     direction := direction j; state := st; instance := instance j; done_bytes := d; total := total j;
     transfer_id := transfer_id j; upload_token := tok; monitor_token := monitor_token j;
     share_url := share_url j; delete_token := delete_token j; share_key := share_key j;
     password_salt := password_salt j; master_key := mk; chunk_bytes := chunk_bytes j;
     server_concurrency := server_concurrency j; upload_status := upload_status j; turbo := turbo j;
     descriptor_published := descriptor_published j; encrypted_descriptor := encrypted_descriptor j;
     transport := tr; driver := driver j; join_token := join_token j; exact_manifest := em;
     receipt_url := rc; recipient := recipient j; items := its; chunks := cs |}.

Definition set_chunks cs d (j : UploadJob) : UploadJob :=
  update (state j) d (exact_manifest j) (receipt_url j) (master_key j) (upload_token j) (transport j)
    (items j) cs j.
Definition set_state st (j : UploadJob) : UploadJob :=
  update st (done_bytes j) (exact_manifest j) (receipt_url j) (master_key j) (upload_token j)
    (transport j) (items j) (chunks j) j.
Definition set_transport tr (j : UploadJob) : UploadJob :=
  update (state j) (done_bytes j) (exact_manifest j) (receipt_url j) (master_key j) (upload_token j)
    tr (items j) (chunks j) j.
Definition set_items its (j : UploadJob) : UploadJob :=
  update (state j) (done_bytes j) (exact_manifest j) (receipt_url j) (master_key j) (upload_token j)
    (transport j) its (chunks j) j.

Definition set_complete (s : option Stage.StageSession) (c : Chunk) : Chunk :=
  {| chunk_item := chunk_item c; chunk_item_id := chunk_item_id c; position := position c;
     plaintext_bytes := plaintext_bytes c; ciphertext_bytes := ciphertext_bytes c;
     checksum := checksum c; artifact := artifact c; complete := true; stage := s |}.
Definition set_stage (s : option Stage.StageSession) (c : Chunk) : Chunk :=
  {| chunk_item := chunk_item c; chunk_item_id := chunk_item_id c; position := position c;
     plaintext_bytes := plaintext_bytes c; ciphertext_bytes := ciphertext_bytes c;
     checksum := checksum c; artifact := artifact c; complete := complete c; stage := s |}.

(** [unwrap_or_default] of an optional string. *)
Definition missing (o : option string) : bool := is_empty (default "" o).

(** [iter().filter(|c| c.complete).map(|c| c.plaintext_bytes).sum()] *)
Definition completed_bytes (cs : list Chunk) : Z :=
  sum_Z (plaintext_bytes <$> filter (λ c, complete c = true) cs).

(** ** Sizes *)

Definition MAX_CHUNK_BYTES : Z := 24999984.

Definition chunk_count (bytes chunk : Z) : result string Z :=
  reject (chunk =? 0) || (MAX_CHUNK_BYTES <? chunk) with "invalid chunk size";
  Ok (Z.max (div_ceil bytes chunk) 1).

Definition estimate_ciphertext_bytes (bytes chunk : Z) : result string Z :=
  n ← chunk_count bytes chunk;
  tags ← ok_or (checked_mul n TAG_BYTES) "ciphertext size overflow";
  ok_or (checked_add bytes tags) "ciphertext size overflow".

Definition select_retention (default_ : Z) (options : list Z) (requested : option Z) : result string Z :=
  let retention := default default_ requested in
  reject (retention =? 0)
         || (negb (bool_decide (options = [])) && negb (bool_decide (retention ∈ options)))
         || (bool_decide (options = []) && negb (retention =? default_))
    with "the selected retention is not available on this instance";
  Ok retention.

Fixpoint ensure_unique_names (names : list string) (sources : list string) : result string () :=
  match sources with
  | [] => Ok ()
  | name :: sources =>
      if bool_decide (name ∈ names)
      then Err ("Two selected sources have the same original name: " +:+ name)
      else ensure_unique_names (name :: names) sources
  end.
Definition ensure_unique_source_names (sources : list string) : result string () :=
  ensure_unique_names [] sources.

(** ** The checks of a loaded checkpoint *)

Section checks.
Context `{Codec}.

Definition job_states : list string :=
  ["preparing"; "awaiting-execution"; "sending"; "finalizing"; "serving"; "ended"; "complete"].

(** [iter().sum::<u64>()] in a release build. *)
Definition wrapping_sum (l : list Z) : Z := sum_Z l mod (u64_max + 1).

Definition bad_header (j : UploadJob) : bool :=
  negb (version j =? 1) || negb (direction j =? "upload")%string
  || negb (bool_decide (state j ∈ job_states))
  || (chunk_bytes j =? 0) || (MAX_CHUNK_BYTES <? chunk_bytes j)
  || negb (total j =? wrapping_sum ((λ i, source_bytes (source i)) <$> items j))
  || ((state j =? "complete")%string && bool_decide (receipt_url j = None))
  || (bool_decide (state j ∈ ["finalizing"; "serving"]) && bool_decide (exact_manifest j = None))
  || ((state j =? "finalizing")%string && existsb (λ c, negb (complete c)) (chunks j))
  || negb (bool_decide (driver j ∈ ["http"; "webrtc"]))
  || ((driver j =? "webrtc")%string && missing (join_token j))
  || (turbo j && (negb (driver j =? "http")%string || bool_decide (is_Some (recipient j))))
  || (descriptor_published j && bool_decide (encrypted_descriptor j = None)).

Definition bad_salt (salt : option string) : bool :=
  match salt with
  | Some salt => match decode salt with Ok value => negb (zlen value =? 16) | Err _ => true end
  | None => false
  end.

Definition bad_secrets (j : UploadJob) : bool :=
  negb (zlen (share_key j) =? 32) || bad_salt (password_salt j)
  || (negb (state j =? "complete")%string && (missing (transfer_id j) || missing (upload_token j))).

Definition bad_prefix (prefix : string) : bool :=
  match decode prefix with Ok p => negb (zlen p =? 16) | Err _ => true end.

Definition bad_digest (digest : string) : bool := negb (len digest =? 64) || negb (is_hex digest).

(** The loop over the items; [seen] are the ids inserted so far. *)
Fixpoint check_items (chunk_bytes : Z) (index : Z) (seen : list string) (l : list Item)
    : result string () :=
  match l with
  | [] => Ok ()
  | i :: l =>
      reject is_empty (item_id i) || negb (item_position i =? index)
             || bool_decide (item_id i ∈ seen) || bad_prefix (nonce_prefix i)
             || bad_digest (item_digest i) || bad_digest (source_digest (source i))
        with "invalid saved upload item checkpoint";
      n ← chunk_count (source_bytes (source i)) chunk_bytes;
      reject negb (zlen (chunk_digests (source i)) =? n)
             || existsb bad_digest (chunk_digests (source i))
        with "invalid saved upload item checkpoint";
      check_items chunk_bytes (index + 1) (item_id i :: seen) l
  end.

Definition expected_plaintext (i : Item) (chunk_bytes position : Z) : Z :=
  Z.min (saturating_sub (source_bytes (source i)) (saturating_mul position chunk_bytes)) chunk_bytes.

Fixpoint check_chunks (items : list Item) (chunk_bytes : Z) (seen : list (nat * Z)) (l : list Chunk)
    : result string () :=
  match l with
  | [] => Ok ()
  | c :: l =>
      i ← ok_or (items !! chunk_item c) "invalid saved upload chunk checkpoint";
      reject negb (chunk_item_id c =? item_id i)%string with "invalid saved upload chunk checkpoint";
      n ← chunk_count (source_bytes (source i)) chunk_bytes;
      reject (n <=? position c)
             || negb (plaintext_bytes c =? expected_plaintext i chunk_bytes (position c))
        with "invalid saved upload chunk checkpoint";
      cipher ← ok_or (checked_add (plaintext_bytes c) TAG_BYTES) "ciphertext size overflow";
      reject negb (ciphertext_bytes c =? cipher) || negb (len (checksum c) =? 64)
             || bool_decide ((chunk_item c, position c) ∈ seen)
        with "invalid saved upload chunk checkpoint";
      check_chunks items chunk_bytes ((chunk_item c, position c) :: seen) l
  end.

Definition validate_job (j : UploadJob) : result string () :=
  reject bad_header j with "invalid saved upload checkpoint";
  reject bad_secrets j
    with "saved upload checkpoint is missing credentials or encryption material";
  _ ← check_items (chunk_bytes j) 0 [] (items j);
  check_chunks (items j) (chunk_bytes j) [] (chunks j).
End checks.

(** ** The receipt *)

(** [split('#').next()] *)
Definition before_hash (s : string) : string := default "" (head (split_char "#" s)).

Definition receipt `{Encode} (j : UploadJob) : result string string :=
  url ← ok_or (share_url j) "transfer share URL is unavailable";
  let share := before_hash url in
  reject negb (starts_with "/" share) || starts_with "//" share || negb (zlen (share_key j) =? 32)
    with "server returned an invalid transfer share URL";
  Ok (trim_end_matches (Z.eqb (ch "/")) (instance j) +:+ share +:+ "#k=v1." +:+ encode (share_key j)).

(** ** Progress *)

Record SendProgress := { base_done : Z; active : gmap (nat * Z) Z }.

Definition chunk_key (c : Chunk) : nat * Z := (chunk_item c, position c).

Definition send_new (base_done : Z) : SendProgress := {| base_done := base_done; active := ∅ |}.

Definition send_snapshot (p : SendProgress) : Z :=
  saturating_add (base_done p) (sum_Z (snd <$> map_to_list (active p))).

Definition restart (c : Chunk) (p : SendProgress) : SendProgress * Z :=
  let p := {| base_done := base_done p; active := <[chunk_key c := 0]> (active p) |} in
  (p, send_snapshot p).

Definition report (key : nat * Z) (plaintext ciphertext sent : Z) (p : SendProgress)
    : SendProgress * Z :=
  let p := {| base_done := base_done p;
              active := <[key := Z.min (Z.min sent ciphertext) plaintext]> (active p) |} in
  (p, send_snapshot p).

Definition acknowledged (c : Chunk) (p : SendProgress) : SendProgress * Z :=
  let p := {| base_done := saturating_add (base_done p) (plaintext_bytes c);
              active := delete (chunk_key c) (active p) |} in
  (p, send_snapshot p).

(** ** Reconciling with the server's ledger *)

Record PublishedChunk := {
  pub_item_id : string;
  pub_position : Z;
  pub_ciphertext_bytes : Z;
  pub_checksum : string }.

Record StatusPage := {
  page_status : string;
  protocol_version : Z;
  page_chunk_bytes : Z;
  upload_transport : option UploadTransport;
  page_chunks : list PublishedChunk;
  next_cursor : option string }.

Definition ledger_key (c : Chunk) : string * Z := (chunk_item_id c, position c).
Definition pub_key (c : PublishedChunk) : string * Z := (pub_item_id c, pub_position c).

(** [collect::<HashMap>()] keeps the last chunk of a key. *)
Definition expected_chunk (cs : list Chunk) (key : string * Z) : option Chunk :=
  snd <$> list_find (λ c, ledger_key c = key) (rev cs).

(** The chunks of one page; [published] are the keys inserted so far. *)
Fixpoint adopt_page (cs : list Chunk) (published : gset (string * Z)) (page : list PublishedChunk)
    : result string (gset (string * Z)) :=
  match page with
  | [] => Ok published
  | c :: page =>
      local ← ok_or (expected_chunk cs (pub_key c)) "server published an unknown upload chunk";
      reject negb (pub_ciphertext_bytes c =? ciphertext_bytes local)
             || negb (pub_checksum c =? checksum local)%string
        with "server published ciphertext conflicts with local immutable ciphertext";
      reject bool_decide (pub_key c ∈ published) with "server upload status repeated a chunk";
      adopt_page cs ({[pub_key c]} ∪ published) page
  end.

(** The pagination loop over the server's replies, in order; a missing reply is
    a failed request. *)
Fixpoint read_ledger (j : UploadJob) (cursor : option string) (cursors : gset string)
    (published : gset (string * Z)) (tr : option UploadTransport) (replies : list (result string StatusPage))
    : result string (gset (string * Z) * option UploadTransport) :=
  match replies with
  | [] => Err "could not reach the server"
  | reply :: replies =>
      reject match cursor with Some after => bool_decide (after ∈ cursors) | None => false end
        with "server upload status pagination repeated a cursor";
      let cursors := match cursor with Some after => {[after]} ∪ cursors | None => cursors end in
      page ← reply;
      reject negb (page_status page =? "pending")%string || negb (protocol_version page =? 1)
             || negb (page_chunk_bytes page =? chunk_bytes j)
        with "saved upload no longer matches the pending server transfer";
      let tr := match upload_transport page with Some t => Some t | None => tr end in
      published ← adopt_page (chunks j) published (page_chunks page);
      match next_cursor page with
      | None => Ok (published, tr)
      | Some c => read_ledger j (Some c) cursors published tr replies
      end
  end.

Definition adopt (published : gset (string * Z)) (c : Chunk) : Chunk :=
  if bool_decide (ledger_key c ∈ published) then set_complete None c else c.

Definition reconcile (replies : list (result string StatusPage)) (j : UploadJob) : result string UploadJob :=
  r ← read_ledger j None ∅ ∅ (transport j) replies;
  let '(published, tr) := r in
  let cs := adopt published <$> chunks j in
  Ok (set_chunks cs (completed_bytes cs) (set_transport tr j)).

(** ** Background uploads *)

Record BackgroundWork := {
  operation_id : string;
  work_transfer_id : string;
  method : string;
  url : string;
  headers : list (string * string);
  body_path : string;
  expected_response_bytes : Z }.

(** The saved job, the immutable artifacts, the stage sidecars. *)
Record State := {
  saved : UploadJob;
  files : gmap string (list Z);
  sidecars : gmap string Stage.StageSession;
  clock : nat }.

(** Whether the I/O call at a tick fails. *)
Class Disk := disk_fault : nat → bool.

Section background.
Context `{Codec, Disk}.

Notation D := (SE State string).

Definition tick (s : State) : State :=
  {| saved := saved s; files := files s; sidecars := sidecars s; clock := S (clock s) |}.

Definition io : D () := λ s,
  (tick s, if disk_fault (clock s) then Err "I/O error" else Ok ()).

(** A call with an effect can fail before it, or after it (when the directory is
    synced). *)
Definition effect (f : State → State) : D () :=
  _ ← io; _ ← modify f; io.

Definition save (j : UploadJob) : D () :=
  effect (λ s, {| saved := j; files := files s; sidecars := sidecars s; clock := clock s |}).

Definition remove_file (path : string) : D () :=
  effect (λ s, {| saved := saved s; files := delete path (files s); sidecars := sidecars s;
                  clock := clock s |}).

(** [symlink_metadata] and [fs::read] of an artifact. *)
Definition read_file (path : string) (e : string) : D (list Z) :=
  _ ← io;
  content ← get (λ s, files s !! path);
  of_result (ok_or content e).

Definition op_id (j : UploadJob) (c : Chunk) : string :=
  id j +:+ ":" +:+ chunk_item_id c +:+ ":" +:+ decimal (position c).

Definition awaiting_http (j : UploadJob) : bool :=
  (state j =? "awaiting-execution")%string && (driver j =? "http")%string.

Definition chunk_url (j : UploadJob) (transfer : string) (c : Chunk) : string :=
  instance j +:+ "/api/v1/transfers/" +:+ transfer +:+ "/items/" +:+ chunk_item_id c +:+ "/chunks/"
  +:+ decimal (position c).

Definition work_of (j : UploadJob) (transfer token : string) (c : Chunk) : BackgroundWork :=
  {| operation_id := op_id j c; work_transfer_id := id j; method := "PUT";
     url := chunk_url j transfer c; headers := [("X-Filebeam-Upload-Token", token)];
     body_path := artifact c; expected_response_bytes := 2 * 1024 * 1024 |}.

(** [background_work]: reads only. *)
Definition background_work (s : State) : result string (list BackgroundWork) :=
  let j := saved s in
  _ ← validate_job j;
  reject negb (awaiting_http j) with "saved upload is not eligible for external HTTP execution";
  transfer ← ok_or (transfer_id j) "upload was not reserved";
  token ← ok_or (upload_token j) "upload token is unavailable";
  let pending := filter (λ c, complete c = false) (chunks j) in
  reject existsb (λ c, bool_decide (files s !! artifact c = None)) pending
    with "immutable upload artifact is unavailable";
  Ok (work_of j transfer token <$> pending).

Definition ingest_background_completion (operation_id : string) (status : Z) : D () :=
  j ← get saved;
  _ ← of_result (validate_job j);
  if negb (awaiting_http j) then fail "saved upload is not eligible for external HTTP execution" else
  found ← of_result (ok_or (list_find (λ c, operation_id = op_id j c) (chunks j))
            "background completion does not match a pending upload operation");
  let '(n, c) := found in
  if complete c then mret () else
  if negb (status =? 201) then fail "background upload did not receive HTTP 201" else
  bytes ← read_file (artifact c) "inspect immutable upload artifact";
  if negb (zlen bytes =? ciphertext_bytes c) || negb (sha256_hex bytes =? checksum c)%string
  then fail "immutable upload artifact was modified" else
  let cs := <[n := set_complete (stage c) c]> (chunks j) in
  _ ← save (set_chunks cs (completed_bytes cs) j);
  _ ← (attempt (remove_file (artifact c)) : D (result string ()));
  mret ().

(** [fs::remove_file] of every completed chunk, errors ignored. *)
Fixpoint remove_files (paths : list string) : D () :=
  match paths with
  | [] => mret ()
  | p :: paths => _ ← (attempt (remove_file p) : D (result string ())); remove_files paths
  end.

Definition reconcile_background (replies : list (result string StatusPage)) : D () :=
  j ← get saved;
  _ ← of_result (validate_job j);
  if negb (awaiting_http j) || negb (upload_status j)
  then fail "saved upload cannot reconcile external completion status" else
  _ ← of_result (ok_or (transfer_id j) "upload was not reserved");
  _ ← of_result (ok_or (upload_token j) "upload token is unavailable");
  j ← of_result (reconcile replies j);
  _ ← save j;
  remove_files (artifact <$> filter (λ c, complete c = true) (chunks j)).
End background.

(** ** Activity *)

Record UploadActivity := {
  act_instance : string;
  act_transfer_id : string;
  act_upload_token : string;
  act_monitor_token : option string;
  act_driver : string;
  act_turbo : bool }.

Definition activity (saved : option UploadJob) : result string (option UploadActivity) :=
  match saved with
  | None => Ok None
  | Some j =>
      reject negb (direction j =? "upload")%string with "saved transfer is not an upload";
      match transfer_id j, upload_token j with
      | Some t, Some token =>
          Ok (Some {| act_instance := instance j; act_transfer_id := t; act_upload_token := token;
                      act_monitor_token := monitor_token j; act_driver := driver j; act_turbo := turbo j |})
      | _, _ => Ok None
      end
  end.

(** ** Valid jobs *)

Section valid.
Context `{Codec}.

(** What the loop over the chunks checks of one chunk. *)
Definition chunk_ok (items : list Item) (cb : Z) (c : Chunk) : Prop :=
  ∃ i n, items !! chunk_item c = Some i ∧ chunk_item_id c = item_id i ∧
    chunk_count (source_bytes (source i)) cb = Ok n ∧ position c < n ∧
    plaintext_bytes c = expected_plaintext i cb (position c) ∧
    plaintext_bytes c + TAG_BYTES ≤ u64_max ∧
    ciphertext_bytes c = plaintext_bytes c + TAG_BYTES ∧ len (checksum c) = 64.

Definition chunks_ok (items : list Item) (cb : Z) (cs : list Chunk) : Prop :=
  Forall (chunk_ok items cb) cs ∧ NoDup (chunk_key <$> cs).

Lemma check_chunks_Ok items cb seen l :
  check_chunks items cb seen l = Ok () ↔
  Forall (chunk_ok items cb) l ∧ NoDup (chunk_key <$> l) ∧ ∀ c, c ∈ l → chunk_key c ∉ seen.
Proof.
  revert seen. induction l as [|c l IH]; intros seen; cbn [check_chunks].
  { split; [|done]. intros _. split_and!; [done|constructor|set_solver]. }
  destruct (items !! chunk_item c) as [i|] eqn:Ei; cbn [ok_or mbind result_bind].
  2: { split; [done|]. intros ([(i & n & Hi & _) _]%Forall_cons & _). congruence. }
  destruct (chunk_count (source_bytes (source i)) cb) as [n|e] eqn:En.
  2: { split; [by destruct (negb _)|]. intros ([(i' & n & Hi & _ & Hn & _) _]%Forall_cons & _). congruence. }
  cbn [mbind result_bind].
  assert (Hc : chunk_ok items cb c ↔ chunk_item_id c = item_id i ∧ position c < n ∧
    plaintext_bytes c = expected_plaintext i cb (position c) ∧ plaintext_bytes c + TAG_BYTES ≤ u64_max ∧
    ciphertext_bytes c = plaintext_bytes c + TAG_BYTES ∧ len (checksum c) = 64).
  { split; [|intros ?; exists i, n; tauto]. intros (i' & n' & Hi & Hx). rewrite Ei in Hi. injection Hi as <-.
    rewrite En in Hx. destruct Hx as (? & [= ->] & Hx). tauto. }
  rewrite Forall_cons, fmap_cons, NoDup_cons, Hc. clear Hc.
  destruct (chunk_item_id c =? item_id i)%string eqn:E1; cbn [negb]; bool_prop; [|by split; [|tauto]].
  destruct (n <=? position c) eqn:E2; cbn [orb]; bool_prop; [split; [done|lia]|].
  destruct (plaintext_bytes c =? _) eqn:E3; cbn [negb]; bool_prop; [|by split; [|tauto]].
  destruct (checked_add _ _) as [m|] eqn:E4; cbn [ok_or mbind result_bind].
  2: { apply checked_add_None in E4. split; [done|]. intros; lia. }
  apply checked_add_Some in E4 as [-> Hm].
  destruct (ciphertext_bytes c =? _) eqn:E5; cbn [negb orb]; bool_prop; [|by split; [|tauto]].
  destruct (len (checksum c) =? 64) eqn:E6; cbn [negb orb]; bool_prop; [|by split; [|tauto]].
  change (chunk_item c, position c) with (chunk_key c).
  case_bool_decide as E7.
  { split; [done|]. intros (_ & _ & Hn). exfalso. apply (Hn c); [set_solver|done]. }
  rewrite IH. split.
  - intros (Hl & Hd & Hn). split_and!; try done.
    + intros Hin. apply list_elem_of_fmap in Hin as (c' & Hk & Hc'). apply (Hn c' Hc'). rewrite <- Hk. set_solver.
    + intros c' [->|Hc']%elem_of_cons; [done|]. specialize (Hn c' Hc'). set_solver.
  - intros ((_ & Hl) & (Hd1 & Hd2) & Hn). split_and!; [done|done|].
    intros c' Hc' [Heq|Hs]%elem_of_cons; [|by apply (Hn c'); [set_solver|]].
    apply Hd1. rewrite <- Heq. by apply list_elem_of_fmap_2.
Qed.

(** A chunk with another state of completion. *)
Definition same_chunk (c c' : Chunk) : Prop :=
  chunk_item c' = chunk_item c ∧ chunk_item_id c' = chunk_item_id c ∧ position c' = position c ∧
  plaintext_bytes c' = plaintext_bytes c ∧ ciphertext_bytes c' = ciphertext_bytes c ∧
  checksum c' = checksum c ∧ artifact c' = artifact c ∧ (complete c = true → complete c' = true).

#[export] Instance same_chunk_refl : Reflexive same_chunk.
Proof. intros c. by unfold same_chunk. Qed.

Lemma set_complete_same s c : same_chunk c (set_complete s c).
Proof. by unfold same_chunk. Qed.

Lemma same_chunks_check items cb cs cs' :
  Forall2 same_chunk cs cs' → ∀ seen, check_chunks items cb seen cs' = check_chunks items cb seen cs.
Proof.
  induction 1 as [|c c' cs cs' (E1 & E2 & E3 & E4 & E5 & E6 & _) _ IH]; intros seen; [done|].
  cbn [check_chunks]. rewrite E1, E2, E3, E4, E5, E6. destruct (items !! _) as [i|]; [|done]. cbn [ok_or mbind result_bind].
  destruct (negb _); [done|]. destruct (chunk_count _ _); [|done]. cbn. destruct (_ || _); [done|].
  destruct (checked_add _ _); [|done]. cbn. destruct (_ || _); [done|]. apply IH.
Qed.

Lemma validate_set_chunks j cs d :
  Forall2 same_chunk (chunks j) cs → validate_job j = Ok () → validate_job (set_chunks cs d j) = Ok ().
Proof.
  intros Hcs. unfold validate_job. intros Hv. guards Hv.
  destruct (check_items (chunk_bytes j) 0 [] (items j)) as [[]|] eqn:Ei; [|done]. cbn [mbind result_bind] in Hv.
  assert (Hh : bad_header (set_chunks cs d j) = false).
  { unfold bad_header in *. cbn [set_chunks update version direction state chunk_bytes total items receipt_url
      exact_manifest chunks driver join_token turbo recipient descriptor_published encrypted_descriptor].
    rewrite !orb_false_iff in *. destruct_and!. split_and!; try done.
    destruct (state j =? "finalizing")%string; [|done]. cbn [andb] in *.
    match goal with Hx : existsb _ (chunks j) = false |- _ => rename Hx into Hfin end.
    clear - Hcs Hfin. induction Hcs as [|c c' cs cs' (_ & _ & _ & _ & _ & _ & _ & Hc) _ IH]; [done|].
    cbn in *. apply orb_false_iff in Hfin as [Hfin1 Hfin]. apply negb_false_iff in Hfin1.
    rewrite Hc by done. by apply IH. }
  rewrite Hh. change (bad_secrets (set_chunks cs d j)) with (bad_secrets j). rewrite Heqb0.
  cbn [set_chunks update chunk_bytes items chunks]. rewrite Ei. cbn [mbind result_bind].
  by rewrite (same_chunks_check _ _ _ _ Hcs).
Qed.

Lemma validate_set_transport j tr : validate_job (set_transport tr j) = validate_job j.
Proof. done. Qed.

Definition item_ok (cb : Z) (i : Item) : Prop :=
  bad_prefix (nonce_prefix i) = false ∧ bad_digest (source_digest (source i)) = false ∧
  ∃ n, chunk_count (source_bytes (source i)) cb = Ok n ∧ zlen (chunk_digests (source i)) = n.

Lemma upload_items_Ok cb index seen l :
  check_items cb index seen l = Ok () →
  Forall (item_ok cb) l ∧ NoDup (item_id <$> l) ∧ ∀ i, i ∈ l → item_id i ∉ seen.
Proof.
  revert index seen. induction l as [|i l IH]; intros index seen Hl.
  { split_and!; [done|constructor|set_solver]. }
  cbn [check_items] in Hl. guards Hl.
  destruct (chunk_count _ cb) as [n|e] eqn:En; [|done]. cbn [mbind result_bind] in Hl. guards Hl.
  apply IH in Hl as (Hf & Hd & Hs). bool_prop.
  assert (Hok : item_ok cb i) by (split_and!; [done|done|by exists n]).
  split_and!; [by constructor| |].
  - rewrite fmap_cons. constructor; [|done]. intros (i' & Hi & Hin)%list_elem_of_fmap.
    apply (Hs i' Hin). rewrite Hi. set_solver.
  - intros i' [->|Hin]%elem_of_cons; [done|]. specialize (Hs i' Hin). set_solver.
Qed.

Lemma validate_job_Ok j :
  validate_job j = Ok () →
  bad_header j = false ∧ bad_secrets j = false ∧ Forall (item_ok (chunk_bytes j)) (items j) ∧
  NoDup (item_id <$> items j) ∧ chunks_ok (items j) (chunk_bytes j) (chunks j).
Proof.
  unfold validate_job. intros Hv. guards Hv.
  destruct (check_items _ _ _ _) as [[]|] eqn:Ei; [|done]. cbn [mbind result_bind] in Hv.
  apply upload_items_Ok in Ei as (Hf & Hd & _). apply check_chunks_Ok in Hv as (Hc & Hk & _). done.
Qed.

(** Item ids and positions identify the chunks of a valid job. *)
Lemma valid_ledger_inj j c c' :
  validate_job j = Ok () → c ∈ chunks j → c' ∈ chunks j → ledger_key c = ledger_key c' → c = c'.
Proof.
  intros (_ & _ & _ & Hids & Hf & Hk)%validate_job_Ok Hc Hc' [= Hid Hpos].
  rewrite Forall_forall in Hf.
  destruct (Hf c Hc) as (i & n & Hi & Hci & _). destruct (Hf c' Hc') as (i' & n' & Hi' & Hci' & _).
  apply (NoDup_fmap_inj chunk_key (chunks j)); [done..|]. unfold chunk_key. f_equal; [|done].
  eapply NoDup_lookup; [exact Hids|..]; rewrite list_lookup_fmap.
  - by rewrite Hi.
  - rewrite Hi'. cbn. congruence.
Qed.

Lemma expected_chunk_Some cs key c : expected_chunk cs key = Some c → c ∈ cs ∧ ledger_key c = key.
Proof.
  unfold expected_chunk. destruct (list_find _ _) as [[n c']|] eqn:Hf; [|done]. intros [= <-].
  apply list_find_Some in Hf as (Hn & Hk & _). split; [|done].
  apply list_elem_of_lookup_2, list_elem_of_In, in_rev, list_elem_of_In in Hn. done.
Qed.

(** ** What a ledger lists *)

Fixpoint ledger_pages (replies : list (result string StatusPage)) : list PublishedChunk :=
  match replies with
  | Ok page :: replies =>
      page_chunks page ++ match next_cursor page with Some _ => ledger_pages replies | None => [] end
  | _ => []
  end.

(** The local chunk a published one stands for. *)
Definition matches_local (cs : list Chunk) (p : PublishedChunk) : Prop :=
  ∃ c, c ∈ cs ∧ ledger_key c = pub_key p ∧ pub_ciphertext_bytes p = ciphertext_bytes c ∧
    pub_checksum p = checksum c.

Lemma adopt_page_Ok cs published page published' :
  adopt_page cs published page = Ok published' →
  Forall (matches_local cs) page ∧ NoDup (pub_key <$> page) ∧
  (∀ p, p ∈ page → pub_key p ∉ published) ∧
  published' = list_to_set (pub_key <$> page) ∪ published.
Proof.
  revert published. induction page as [|p page IH]; intros published Hp; cbn [adopt_page] in Hp.
  { injection Hp as <-. split_and!; [done|constructor|set_solver|set_solver]. }
  destruct (expected_chunk cs (pub_key p)) as [c|] eqn:Ec; [|done]. cbn [ok_or mbind result_bind] in Hp.
  guards Hp. bool_prop. apply IH in Hp as (Hf & Hd & Hn & ->).
  apply expected_chunk_Some in Ec as [Hc Hk]. split_and!.
  - constructor; [by exists c|done].
  - rewrite fmap_cons. constructor; [|done]. intros (p' & Hp' & Hin)%list_elem_of_fmap.
    apply (Hn p' Hin). rewrite <- Hp'. set_solver.
  - intros p' [->|Hin]%elem_of_cons; [done|]. specialize (Hn p' Hin). set_solver.
  - rewrite fmap_cons. cbn [list_to_set]. set_solver.
Qed.

Lemma read_ledger_Ok j cursor cursors published tr replies published' tr' :
  read_ledger j cursor cursors published tr replies = Ok (published', tr') →
  Forall (matches_local (chunks j)) (ledger_pages replies) ∧ NoDup (pub_key <$> ledger_pages replies) ∧
  (∀ p, p ∈ ledger_pages replies → pub_key p ∉ published) ∧
  published' = list_to_set (pub_key <$> ledger_pages replies) ∪ published.
Proof.
  revert cursor cursors published tr. induction replies as [|r replies IH]; intros cursor cursors published tr Hr; [done|].
  cbn [read_ledger] in Hr. guards Hr. destruct r as [page|e]; [|done]. cbn [mbind result_bind] in Hr. guards Hr.
  destruct (adopt_page _ _ _) as [pub|e] eqn:Ea; [|done]. cbn [mbind result_bind] in Hr.
  apply adopt_page_Ok in Ea as (Hf & Hd & Hn & ->). cbn [ledger_pages].
  destruct (next_cursor page) as [c|].
  - apply IH in Hr as (Hf' & Hd' & Hn' & ->). split_and!.
    + by apply Forall_app.
    + rewrite fmap_app, NoDup_app. split_and!; [done| |done].
      intros k Hk (p & -> & Hp)%list_elem_of_fmap. apply (Hn' p Hp).
      apply elem_of_union_l, elem_of_list_to_set. done.
    + intros p [Hp|Hp]%elem_of_app; [by apply Hn|]. specialize (Hn' p Hp). set_solver.
    + rewrite fmap_app, list_to_set_app_L. set_solver.
  - injection Hr as <- <-. rewrite app_nil_r. done.
Qed.

Lemma reconcile_run j replies j' :
  validate_job j = Ok () → reconcile replies j = Ok j' →
  validate_job j' = Ok () ∧ done_bytes j' = completed_bytes (chunks j') ∧
  Forall2 same_chunk (chunks j) (chunks j') ∧
  (∀ n c c', chunks j !! n = Some c → chunks j' !! n = Some c' →
     complete c' = true ↔
     complete c = true ∨ ∃ p, p ∈ ledger_pages replies ∧ pub_key p = ledger_key c ∧
       pub_ciphertext_bytes p = ciphertext_bytes c ∧ pub_checksum p = checksum c) ∧
  (∀ p, p ∈ ledger_pages replies → matches_local (chunks j) p) ∧
  NoDup (pub_key <$> ledger_pages replies).
Proof.
  intros Hv Hr. unfold reconcile in Hr.
  destruct (read_ledger _ _ _ _ _ _) as [[published tr]|e] eqn:El; [|done]. injection Hr as <-.
  apply read_ledger_Ok in El as (Hf & Hd & _ & ->).
  assert (Hs : Forall2 same_chunk (chunks j) (adopt (list_to_set (pub_key <$> ledger_pages replies) ∪ ∅) <$> chunks j)).
  { apply Forall2_fmap_r, Forall_Forall2_diag, Forall_forall. intros c _. unfold compose, adopt.
    by case_bool_decide. }
  split_and!; [|done|done| |by rewrite Forall_forall in Hf|done].
  - apply validate_set_chunks; [exact Hs|]. by rewrite validate_set_transport.
  - intros n c c' Hc Hc'. cbn [set_chunks update chunks] in Hc'. rewrite list_lookup_fmap, Hc in Hc'.
    injection Hc' as <-. unfold adopt. case_bool_decide as Hin.
    + split; [intros _; right|done].
      apply elem_of_union in Hin as [Hin|Hin]; [|set_solver].
      apply elem_of_list_to_set, list_elem_of_fmap in Hin as (p & Hk & Hp). exists p.
      rewrite Forall_forall in Hf. destruct (Hf p Hp) as (c' & Hc' & Hk' & Hb & Hsum).
      assert (c' = c) as ->; [|done].
      apply list_elem_of_lookup_2 in Hc. apply (valid_ledger_inj j); [done..|congruence].
    + split; [by left|]. intros [?|(p & Hp & Hk & _)]; [done|]. destruct Hin.
      apply elem_of_union_l, elem_of_list_to_set. rewrite <- Hk. apply list_elem_of_fmap_2, Hp.
Qed.
(** C35: The server's ledger decides: a chunk is adopted exactly when the ledger
    lists its item, position, ciphertext length and checksum; a ledger that
    lists anything else, or a chunk twice, is refused.  The job stays valid
    and counts its completed bytes. *)
Theorem reconcile_exact j replies j' :
  validate_job j = Ok () → reconcile replies j = Ok j' →
  validate_job j' = Ok () ∧ done_bytes j' = completed_bytes (chunks j') ∧
  Forall2 same_chunk (chunks j) (chunks j') ∧
  (∀ n c c', chunks j !! n = Some c → chunks j' !! n = Some c' →
     complete c' = true ↔
     complete c = true ∨ ∃ p, p ∈ ledger_pages replies ∧ pub_key p = ledger_key c ∧
       pub_ciphertext_bytes p = ciphertext_bytes c ∧ pub_checksum p = checksum c) ∧
  (∀ p, p ∈ ledger_pages replies → matches_local (chunks j) p) ∧
  NoDup (pub_key <$> ledger_pages replies).
Proof. apply reconcile_run. Qed.
End valid.

(** ** Background completions *)

Section completion.
Context `{Codec, Disk}.

(** A file disappears only once a saved chunk says it is complete. *)
Definition removes_complete (s s' : State) : Prop :=
  ∀ p, files s' !! p ≠ files s !! p →
    ∃ c, c ∈ chunks (saved s') ∧ complete c = true ∧ artifact c = p.

Lemma effect_run f s s' r :
  effect f s = (s', r) → s' = tick s ∧ r = Err "I/O error" ∨ s' = tick (f (tick s)).
Proof.
  unfold effect. intros Hr.
  apply bind_run in Hr as [(e & [= <- He] & ->)|(s1 & [] & [= <- _] & Hr)].
  { left. split; [done|]. destruct (disk_fault _); [by injection He as <-|done]. }
  apply bind_run in Hr as [(e & [=] & _)|(s1 & [] & [= <-] & Hr)]. injection Hr as <- _. by right.
Qed.

Lemma remove_file_run p s s' r :
  remove_file p s = (s', r) →
  saved s' = saved s ∧ (files s' = files s ∨ files s' = delete p (files s)).
Proof. unfold remove_file. intros [[-> _]| ->]%effect_run; auto. Qed.

Lemma removed_only (p q : string) (fs fs' : gmap string (list Z)) :
  fs' = fs ∨ fs' = delete p fs → fs' !! q ≠ fs !! q → q = p.
Proof.
  intros [->| ->] Hq; [done|]. destruct (decide (q = p)); [done|]. by rewrite lookup_delete_ne in Hq.
Qed.

Lemma read_file_run p e s s' r :
  read_file p e s = (s', r) →
  saved s' = saved s ∧ files s' = files s ∧ (∀ b, r = Ok b → files s !! p = Some b).
Proof.
  unfold read_file. intros Hr.
  apply bind_run in Hr as [(x & [= <- _] & ->)|(s1 & [] & [= <- _] & Hr)]; [done|].
  apply bind_run in Hr as [(x & [=] & _)|(s1 & c & [= <- <-] & Hr)].
  injection Hr as <- <-. split_and!; [done|done|]. cbn [files tick]. intros b. by destruct (files s !! p); intros [= <-].
Qed.

Lemma same_chunk_insert cs n c s :
  cs !! n = Some c → Forall2 same_chunk cs (<[n := set_complete s c]> cs).
Proof.
  intros Hn. apply Forall2_same_length_lookup. split; [by rewrite length_insert|].
  intros m x y Hx Hy. destruct (decide (m = n)) as [->|Hne].
  - rewrite list_lookup_insert_eq in Hy by (by apply lookup_lt_Some in Hn).
    injection Hy as <-. assert (x = c) as -> by congruence. apply set_complete_same.
  - rewrite list_lookup_insert_ne in Hy by done. assert (x = y) as -> by congruence. reflexivity.
Qed.

Definition complete_at (j : UploadJob) (n : nat) (c : Chunk) : UploadJob :=
  set_chunks (<[n := set_complete (stage c) c]> (chunks j))
    (completed_bytes (<[n := set_complete (stage c) c]> (chunks j))) j.

Lemma ingest_run op status s s' r :
  ingest_background_completion op status s = (s', r) →
  (saved s' = saved s ∧ files s' = files s ∧
   (r = Ok () → ∃ n c, list_find (λ c, op = op_id (saved s) c) (chunks (saved s)) = Some (n, c) ∧ complete c = true)) ∨
  (∃ n c b, list_find (λ c, op = op_id (saved s) c) (chunks (saved s)) = Some (n, c) ∧ complete c = false ∧
     status = 201 ∧ files s !! artifact c = Some b ∧ zlen b = ciphertext_bytes c ∧ sha256_hex b = checksum c ∧
     saved s' = complete_at (saved s) n c ∧
     ∀ q, files s' !! q ≠ files s !! q → q = artifact c).
Proof.
  unfold ingest_background_completion. intros Hr.
  apply bind_run in Hr as [(e & [=] & _)|(s1 & j & [= <- <-] & Hr)].
  apply bind_run in Hr as [(e & [= <- _] & ->)|(s1 & [] & [= <- _] & Hr)]; [by left|].
  destruct (negb (awaiting_http _)); [injection Hr as <- <-; by left|].
  apply bind_run in Hr as [(e & [= <- _] & ->)|(s1 & [n c] & [= <- Hf] & Hr)]; [by left|].
  destruct (list_find _ _) as [[n' c']|] eqn:Ef; [|done]. injection Hf as -> ->.
  destruct (complete c) eqn:Ec; [injection Hr as <- <-; left; split_and!; [done|done|]; intros _; by exists n, c|].
  destruct (negb (status =? 201)) eqn:Es; [injection Hr as <- <-; by left|]. bool_prop.
  apply bind_run in Hr as [(e & Hm & ->)|(s1 & b & Hm & Hr)]; apply read_file_run in Hm as (Hs1 & Hf1 & Hb);
    [by left|]. specialize (Hb b eq_refl).
  destruct (_ || _) eqn:Eg; [injection Hr as <- <-; by left|]. bool_prop.
  apply bind_run in Hr as [(e & Hm & ->)|(s2 & [] & Hm & Hr)]; apply effect_run in Hm as [[-> He]| ->].
  - left. done.
  - right. exists n, c, b. split_and!; try done. intros q Hq. cbn in Hq. by rewrite Hf1 in Hq.
  - done.
  - apply bind_run in Hr as [(x & Hm & _)|(s4 & x & Hm & Hr)]; apply attempt_run in Hm as (y & Hm & Hy); [done|].
    injection Hr as <- <-. apply remove_file_run in Hm as (Hsv & Hfl). right. exists n, c, b.
    split_and!; try done. intros q Hq. apply (removed_only _ _ _ _ Hfl). cbn [files tick]. by rewrite Hf1.
Qed.

Lemma op_id_complete_at j n c c' : op_id (complete_at j n c) c' = op_id j c'.
Proof. done. Qed.

(** A background completion advances the saved job only for a chunk whose
    artifact is still exactly the ciphertext of the checkpoint, on status 201;
    whatever I/O fails, the saved job stays valid and an artifact is removed
    only after the job that no longer needs it is saved.  A completion that was
    accepted is accepted again without effect. *)
Theorem background_completion op status s s' r :
  validate_job (saved s) = Ok () → awaiting_http (saved s) = true →
  ingest_background_completion op status s = (s', r) →
  validate_job (saved s') = Ok () ∧ removes_complete s s' ∧
  (saved s' ≠ saved s → ∃ n c b, chunks (saved s) !! n = Some c ∧ op = op_id (saved s) c ∧ status = 201 ∧
     files s !! artifact c = Some b ∧ zlen b = ciphertext_bytes c ∧ sha256_hex b = checksum c ∧
     saved s' = complete_at (saved s) n c) ∧
  (r = Ok () → ∀ status', ingest_background_completion op status' s' = (s', Ok ())).
Proof.
  intros Hv Haw Hr. destruct (ingest_run _ _ _ _ _ Hr) as [(Hs & Hf & Hok)|(n & c & b & Hfind & Hc & Hst & Hb & Hl & Hd & Hs & Hrm)].
  - rewrite Hs. split_and!; [done| |done|].
    + intros p Hp. by rewrite Hf in Hp.
    + intros -> status'. destruct (Hok eq_refl) as (n & c & Hfind & Hc).
      unfold ingest_background_completion, mbind, SE_bind, get, of_result. rewrite Hs, Hv, Haw. cbn [negb].
      by rewrite Hfind; cbn [ok_or]; rewrite Hc.
  - pose proof (list_find_Some (λ c, op = op_id (saved s) c) (chunks (saved s)) n c) as Hsome.
    apply Hsome in Hfind as Hfind'. destruct Hfind' as (Hn & Hop & Hmin). clear Hsome.
    assert (Hv' : validate_job (saved s') = Ok ()).
    { rewrite Hs. apply validate_set_chunks; [by apply same_chunk_insert|done]. }
    assert (Hn' : chunks (saved s') !! n = Some (set_complete (stage c) c)).
    { rewrite Hs. cbn [complete_at set_chunks update chunks]. apply list_lookup_insert_eq. by apply lookup_lt_Some in Hn. }
    split_and!; [done| | |].
    + intros p Hp. apply Hrm in Hp as ->. exists (set_complete (stage c) c).
      split; [by eapply list_elem_of_lookup_2|done].
    + intros _. by exists n, c, b.
    + intros _ status'. assert (Hfind' : list_find (λ c0, op = op_id (saved s') c0) (chunks (saved s')) = Some (n, set_complete (stage c) c)).
      { apply list_find_Some. split_and!; [done| |].
        - rewrite Hs, op_id_complete_at. done.
        - intros m y Hy Hm. rewrite Hs in *. rewrite op_id_complete_at.
          cbn [complete_at set_chunks update chunks] in Hy. rewrite list_lookup_insert_ne in Hy by lia. by apply (Hmin m). }
      assert (Haw' : awaiting_http (saved s') = true) by (by rewrite Hs).
      unfold ingest_background_completion, mbind, SE_bind, get, of_result. rewrite Hv', Haw'. cbn [negb].
      by rewrite Hfind'.
Qed.
End completion.

(** ** An upload at a concrete input *)

Module Example_upload.
Import Example_codec.
#[export] Instance disk0 : Disk := λ _, false.
#[export] Instance encode0 : Encode := λ _, "k"%string.

Definition ulid1 : string := "01ARZ3NDEKTSV4RRFFQ69G5FAV".
Definition ulid2 : string := "01ARZ3NDEKTSV4RRFFQ69G5FAW".

(** A file of three bytes, in two chunks. *)
Definition src0 : Src :=
  {| spec := Path "/f" 0 3; source_bytes := 3; source_modified_ns := 5;
     source_digest := sha256_hex [1; 2; 3]; chunk_digests := [sha256_hex [1; 2]; sha256_hex [3]] |}.
Definition item0 : Item :=
  {| item_id := ulid2; item_position := 0; item_name := "f"; source := src0; nonce_prefix := "p";
     item_digest := sha256_hex [1; 2; 3]; item_bytes := 3; item_chunk_count := 2 |}.
Definition chunk (pos n : Z) (path : string) : Chunk :=
  {| chunk_item := 0; chunk_item_id := ulid2; position := pos; plaintext_bytes := n;
     ciphertext_bytes := n + TAG_BYTES; checksum := sha256_hex (replicate (Z.to_nat (n + TAG_BYTES)) 0);
     artifact := path; complete := false; stage := None |}.
Definition job (st : string) (cs : list Chunk) : UploadJob :=
  {| sealed_attached_note := None; version := 1; id := "u"; direction := "upload"; state := st;
     instance := "https://a"; done_bytes := 0; total := 3; transfer_id := Some ulid1;
     upload_token := Some "t"%string; monitor_token := None; share_url := Some "/d/x"%string; delete_token := None;
     share_key := replicate 32 1; password_salt := None; master_key := []; chunk_bytes := 2;
     server_concurrency := 4; upload_status := true; turbo := false; descriptor_published := false;
     encrypted_descriptor := None; transport := None; driver := "http"; join_token := None;
     exact_manifest := None; receipt_url := None; recipient := None; items := [item0]; chunks := cs |}.
Definition both : list Chunk := [chunk 0 2 "/w/a"; chunk 1 1 "/w/b"].
Definition waiting : State :=
  {| saved := job "awaiting-execution" both;
     files := {[ "/w/a"%string := replicate 18 0; "/w/b"%string := replicate 17 0 ]}; sidecars := ∅; clock := 0 |}.
Definition page : StatusPage :=
  {| page_status := "pending"; protocol_version := 1; page_chunk_bytes := 2; upload_transport := None;
     page_chunks := [{| pub_item_id := ulid2; pub_position := 1; pub_ciphertext_bytes := 17;
                        pub_checksum := sha256_hex (replicate 17 0) |}]; next_cursor := None |}.

Lemma reconcile_exact_witness :
  ∃ j', reconcile [Ok page] (job "sending" both) = Ok j' ∧ done_bytes j' = 1 ∧ validate_job j' = Ok ().
Proof.
  eexists. split; [vm_compute; reflexivity|]. split; [reflexivity|].
  eapply (reconcile_exact (job "sending" both) [Ok page]); vm_compute; reflexivity.
Defined.

Lemma background_completion_witness :
  let op := op_id (saved waiting) (chunk 1 1 "/w/b") in
  validate_job (saved (fst (ingest_background_completion op 201 waiting))) = Ok () ∧
  removes_complete waiting (fst (ingest_background_completion op 201 waiting)).
Proof.
  intros op.
  destruct (background_completion op 201 waiting (fst (ingest_background_completion op 201 waiting)) (Ok ()))
    as (Hv & Hr & _); [vm_compute; reflexivity..|]. split; [exact Hv|exact Hr].
Defined.
End Example_upload.
