(* ===== verification/Prepare.v ===== *)
(** * Preparing ciphertext (crates/transfer-native/src/protocol/upload.rs)

    Fingerprinting the sources, finding the next chunk to encrypt, encrypting
    it from a source that is still the one fingerprinted, and checking that the
    preparation is whole. *)

From Stdlib Require Import Ascii String.
From S2P Require Import Prelude Str Frame Codec Transport Http Encryption Source Upload.
Open Scope Z_scope.

(** [io::ErrorKind::NotFound] *)
Definition NOT_FOUND : string := "entity not found".

Section prepare.
Context `{Codec}.

(** [source_metadata]; the digests are still empty. *)
Definition source_metadata (host : Host) (spec : SourceSpec) : result string Src :=
  _ ← checked_end spec;
  file ← match spec with
         | Path path offset length =>
             file ← context (file_at host path) "read";
             end_ ← ok_or (checked_add offset length) "source offset overflow";
             reject negb (is_file file) || (zlen (data file) <? end_) with "not a bounded regular file";
             Ok file
         | Provider _ _ _ _ => open_source host spec
         end;
  Ok {| spec := spec; source_bytes := snd (bounds spec); source_modified_ns := modified_ns file;
        source_digest := ""; chunk_digests := [] |}.

(** ** Fingerprints *)

(** [hash], [chunk_hash] (as the bytes fed to them), [remaining], [chunks]. *)
Record Hashing := {
  hashed : list Z;
  chunk_hashed : list Z;
  remaining : Z;
  digests : list string }.

(** One turn of the inner loop, over the rest of a read. *)
Definition absorb_step (cb : Z) (piece : list Z) (h : Hashing) : Hashing * list Z :=
  let n := Z.min (remaining h) (zlen piece) in
  let part := chunk_hashed h ++ take (Z.to_nat n) piece in
  let rest := drop (Z.to_nat n) piece in
  if remaining h - n =? 0
  then ({| hashed := hashed h; chunk_hashed := []; remaining := cb; digests := digests h ++ [sha256_hex part] |}, rest)
  else ({| hashed := hashed h; chunk_hashed := part; remaining := remaining h - n; digests := digests h |}, rest).

(** [while offset < n]: each turn takes at least a byte. *)
Fixpoint absorb (fuel : nat) (cb : Z) (piece : list Z) (h : Hashing) : Hashing :=
  match fuel, piece with
  | S fuel, _ :: _ => let '(h, rest) := absorb_step cb piece h in absorb fuel cb rest h
  | _, _ => h
  end.

Definition feed (cb : Z) (piece : list Z) (h : Hashing) : Hashing :=
  absorb (length piece) cb piece
    {| hashed := hashed h ++ piece; chunk_hashed := chunk_hashed h; remaining := remaining h; digests := digests h |}.

(** The outer loop.  [sizes k] is how much the [k]-th read returns of what it
    was asked for, or its error; [rest] is the file from the current offset. *)
Fixpoint read_source (fuel : nat) (cancelled : nat → bool) (sizes : nat → result string Z) (k : nat)
    (cb : Z) (rest : list Z) (source_remaining : Z) (h : Hashing) : result string Hashing :=
  if source_remaining <=? 0 then Ok h else
  match fuel with
  | O => Err "out of fuel"
  | S fuel =>
      if cancelled k then Err "Transfer cancelled" else
      size ← sizes k;
      let want := Z.min source_remaining 65536 in
      let piece := take (Z.to_nat (clamp size 1 want)) rest in
      if zlen piece =? 0 then Err "source was truncated while it was fingerprinted" else
      read_source fuel cancelled sizes (S k) cb (drop (length piece) rest) (source_remaining - zlen piece)
        (feed cb piece h)
  end.

Definition fingerprint (host : Host) (spec : SourceSpec) (cb : Z) (cancelled : nat → bool)
    (sizes : nat → result string Z) : result string Src :=
  source ← source_metadata host spec;
  file ← open_source host spec;
  n ← chunk_count (source_bytes source) cb;
  h ← read_source (Z.to_nat (source_bytes source)) cancelled sizes 0 cb
        (drop (Z.to_nat (fst (bounds spec))) (data file)) (source_bytes source)
        {| hashed := []; chunk_hashed := []; remaining := cb; digests := [] |};
  let chunks := if (source_bytes source =? 0) || negb (remaining h =? cb)
                then digests h ++ [sha256_hex (chunk_hashed h)] else digests h in
  reject negb (zlen chunks =? n) with "source changed while it was fingerprinted";
  Ok {| spec := spec; source_bytes := source_bytes source;
        source_modified_ns := source_modified_ns source;
        source_digest := sha256_hex (hashed h); chunk_digests := chunks |}.

(** ** Which chunks are prepared *)

Definition has_chunk (cs : list Chunk) (item : nat) (pos : Z) : bool :=
  existsb (λ c, bool_decide (chunk_key c = (item, pos))) cs.

Fixpoint next_missing (cs : list Chunk) (cb : Z) (n : nat) (l : list Item)
    : result string (option (nat * Z)) :=
  match l with
  | [] => Ok None
  | i :: l =>
      count ← chunk_count (source_bytes (source i)) cb;
      match list_find (λ pos, has_chunk cs n pos = false) (seqZ 0 count) with
      | Some (_, pos) => Ok (Some (n, pos))
      | None => next_missing cs cb (S n) l
      end
  end.
Definition next_missing_chunk (j : UploadJob) : result string (option (nat * Z)) :=
  next_missing (chunks j) (chunk_bytes j) 0 (items j).

Definition item_prepared (j : UploadJob) (n : nat) (i : Item) : result string bool :=
  count ← chunk_count (source_bytes (source i)) (chunk_bytes j);
  Ok (forallb (λ pos, has_chunk (chunks j) n pos) (seqZ 0 count)).

Definition item_unprepared (cb : Z) (i : Item) : bool :=
  negb (item_bytes i =? source_bytes (source i))
  || negb (item_chunk_count i =? match chunk_count (source_bytes (source i)) cb with Ok n => n | Err _ => u64_max end)
  || is_empty (item_digest i).

Definition artifact_intact (files : gmap string (list Z)) (c : Chunk) : bool :=
  complete c ||
  match files !! artifact c with
  | Some b => (zlen b =? ciphertext_bytes c) && (sha256_hex b =? checksum c)%string
  | None => false
  end.

Definition preparation_complete (files : gmap string (list Z)) (j : UploadJob) : result string bool :=
  if existsb (item_unprepared (chunk_bytes j)) (items j) then Ok false else
  expected ← try_fold (λ count i,
      n ← chunk_count (source_bytes (source i)) (chunk_bytes j); Ok (count + n)) 0 (items j);
  if negb (zlen (chunks j) =? expected) then Ok false else
  Ok (forallb (artifact_intact files) (chunks j)).

(** ** Sources that changed *)

Definition gone (host : Host) (spec : SourceSpec) : bool :=
  match spec with
  | Path path _ _ => match file_at host path with Err e => (e =? NOT_FOUND)%string | Ok _ => false end
  | Provider identity _ _ _ =>
      match resolver host with
      | Some r =>
          match token_of r identity, resolve r identity with
          | Err e, _ | Ok _, Err e => (e =? NOT_FOUND)%string
          | _, _ => false
          end
      | None => false
      end
  end.

Fixpoint validate_from (host : Host) (cancelled : nat → bool) (sizes : nat → result string Z)
    (j : UploadJob) (n : nat) (l : list Item) : result string () :=
  match l with
  | [] => Ok ()
  | i :: l =>
      let s := source i in
      reject bool_decide (chunk_digests s = [])
        with "saved partial upload lacks per-chunk source fingerprints; start a new upload";
      match fingerprint host (spec s) (chunk_bytes j) cancelled sizes with
      | Err e =>
          prepared ← (if gone host (spec s) then item_prepared j n i else Ok false);
          if (prepared : bool) then validate_from host cancelled sizes j (S n) l else Err e
      | Ok actual =>
          reject negb (source_bytes actual =? source_bytes s)
                 || negb (source_modified_ns actual =? source_modified_ns s)
                 || negb (source_digest actual =? source_digest s)%string
                 || negb (bool_decide (chunk_digests actual = chunk_digests s))
            with "source changed after ciphertext preparation; start a new upload to avoid nonce reuse";
          validate_from host cancelled sizes j (S n) l
      end
  end.
Definition validate_sources (host : Host) (cancelled : nat → bool) (sizes : nat → result string Z)
    (j : UploadJob) : result string () := validate_from host cancelled sizes j 0 (items j).

(** ** Encrypting a chunk *)

(** [format!("filebeam:v1:{transfer}:{item}:{position}")] *)
Definition aad (transfer item : string) (pos : Z) : list Z :=
  bytes ("filebeam:v1:" +:+ transfer +:+ ":" +:+ item +:+ ":" +:+ decimal pos).

Record PreparedCiphertext := {
  prep_item : nat;
  prep_position : Z;
  prep_plaintext_bytes : Z;
  ciphertext : list Z }.

(** [now] is the host when the source is read, [later] when its modification
    time is checked. *)
Definition prepare_one `{Aead} (now later : Host) (s : Src) (item : nat) (id : string) (pos cb : Z)
    (prefix key : list Z) (transfer : string) : result string PreparedCiphertext :=
  offset ← ok_or (checked_mul pos cb) "chunk offset overflow";
  file ← open_source now (spec s);
  let n := Z.min (saturating_sub (source_bytes s) offset) cb in
  let '(base, length) := bounds (spec s) in
  reject length <? offset with "source chunk starts beyond its declared length";
  start ← ok_or (checked_add base offset) "source offset overflow";
  plain ← context (read_exact file start n) "source changed while it was being prepared";
  expected ← ok_or (chunk_digests s !! Z.to_nat pos)
    "saved upload lacks per-chunk source fingerprints; start a new upload";
  reject negb (sha256_hex plain =? expected)%string
    with "source changed after source preflight; start a new upload to avoid nonce reuse";
  metadata ← source_metadata later (spec s);
  reject negb (source_modified_ns metadata =? source_modified_ns s)
    with "source changed after source preflight; start a new upload to avoid nonce reuse";
  c ← encrypt_chunk key prefix (as_u32 pos) plain (aad transfer id pos);
  Ok {| prep_item := item; prep_position := pos; prep_plaintext_bytes := zlen plain; ciphertext := c |}.
End prepare.

(** ** Fingerprints do not depend on how the source is read *)

(** The reference: the chunk at position [k]. *)
Definition slice (cb : Z) (content : list Z) (k : Z) : list Z :=
  take (Z.to_nat cb) (drop (Z.to_nat (k * cb)) content).

Section reference.
Context `{Codec}.

(** [full] chunks hashed, and the part of one that is not full. *)
Definition hashing_inv (cb : Z) (h : Hashing) : Prop :=
  ∃ full, hashed h = concat full ++ chunk_hashed h ∧ Forall (λ c, zlen c = cb) full ∧
    digests h = sha256_hex <$> full ∧ zlen (chunk_hashed h) < cb ∧
    remaining h = cb - zlen (chunk_hashed h).

(** The state, but for [hashed], which is extended by the whole read at once. *)
Definition partial_inv (cb : Z) (w : list Z) (h : Hashing) : Prop :=
  ∃ full, w = concat full ++ chunk_hashed h ∧ Forall (λ c, zlen c = cb) full ∧
    digests h = sha256_hex <$> full ∧ zlen (chunk_hashed h) < cb ∧
    remaining h = cb - zlen (chunk_hashed h).

Lemma absorb_step_inv cb w piece h h' rest :
  0 < cb → partial_inv cb w h → piece ≠ [] → absorb_step cb piece h = (h', rest) →
  ∃ used, piece = used ++ rest ∧ used ≠ [] ∧ partial_inv cb (w ++ used) h' ∧ hashed h' = hashed h.
Proof.
  intros Hcb (full & -> & Hf & Hd & Hl & Hr) Hne. unfold absorb_step.
  set (n := Z.min (remaining h) (zlen piece)).
  assert (Hp : 0 < zlen piece) by (unfold zlen; destruct piece; [done|]; cbn [length]; lia).
  assert (Hn : 0 < n ∧ n ≤ zlen piece ∧ n ≤ remaining h) by lia.
  assert (Hlt : zlen (take (Z.to_nat n) piece) = n) by (unfold zlen in *; rewrite length_take; lia).
  assert (Hu : take (Z.to_nat n) piece ≠ []) by (intros E; rewrite E in Hlt; unfold zlen in Hlt; cbn in Hlt; lia).
  destruct (remaining h - n =? 0) eqn:E; bool_prop; intros [= <- <-];
    exists (take (Z.to_nat n) piece); (split_and!; [by rewrite take_drop|done| |done]).
  - exists (full ++ [chunk_hashed h ++ take (Z.to_nat n) piece]). cbn. split_and!.
    + by rewrite concat_app, app_nil_r, <- app_assoc; cbn; rewrite app_nil_r.
    + apply Forall_app. split; [done|]. constructor; [|done]. unfold zlen in *. rewrite length_app. lia.
    + by rewrite Hd, fmap_app.
    + unfold zlen. cbn. lia.
    + unfold zlen. cbn. lia.
  - exists full. cbn. rewrite <- app_assoc. unfold zlen in *. rewrite length_app. split_and!; [done|done|done|lia|lia].
Qed.

Lemma absorb_inv fuel cb w piece h :
  0 < cb → (length piece ≤ fuel)%nat → partial_inv cb w h →
  partial_inv cb (w ++ piece) (absorb fuel cb piece h) ∧ hashed (absorb fuel cb piece h) = hashed h.
Proof.
  intros Hcb. revert w piece h. induction fuel as [|fuel IH]; intros w piece h Hf Hinv.
  - destruct piece; [|cbn in Hf; lia]. cbn. by rewrite app_nil_r.
  - destruct piece as [|b piece]; [cbn; by rewrite app_nil_r|]. cbn [absorb].
    destruct (absorb_step cb (b :: piece) h) as [h' rest] eqn:Es.
    destruct (absorb_step_inv cb w (b :: piece) h h' rest) as (used & Hp & Hu & Hinv' & Hh); [done..|].
    rewrite Hp, app_assoc, <- Hh. apply IH; [|done].
    apply (f_equal length) in Hp. rewrite length_app in Hp. destruct used; [done|]. cbn [length] in *. lia.
Qed.

Lemma feed_inv cb piece h : 0 < cb → hashing_inv cb h → hashing_inv cb (feed cb piece h).
Proof.
  intros Hcb (full & Hh & Hrest). unfold feed.
  destruct (absorb_inv (length piece) cb (hashed h) piece
    {| hashed := hashed h ++ piece; chunk_hashed := chunk_hashed h; remaining := remaining h; digests := digests h |})
    as [(full' & Hw & Hrest') He]; [done|lia|by exists full|].
  exists full'. rewrite He. cbn [hashed]. done.
Qed.

Lemma absorb_hashed fuel cb piece h : hashed (absorb fuel cb piece h) = hashed h.
Proof.
  revert piece h. induction fuel as [|fuel IH]; intros [|b p] h; try done. cbn [absorb].
  destruct (absorb_step cb (b :: p) h) as [h' rest] eqn:Es. rewrite IH.
  unfold absorb_step in Es. destruct (_ =? 0); by injection Es as <- _.
Qed.

Lemma feed_hashed cb piece h : hashed (feed cb piece h) = hashed h ++ piece.
Proof. unfold feed. by rewrite absorb_hashed. Qed.

Lemma read_source_run fuel cancelled sizes k cb rest n h h' :
  0 < cb → 0 ≤ n → hashing_inv cb h → read_source fuel cancelled sizes k cb rest n h = Ok h' →
  hashing_inv cb h' ∧ hashed h' = hashed h ++ take (Z.to_nat n) rest ∧ n ≤ zlen rest.
Proof.
  intros Hcb. revert k rest n h. induction fuel as [|fuel IH]; intros k rest n h Hn Hinv; cbn [read_source];
    (destruct (n <=? 0) eqn:E0; bool_prop;
     [intros [= <-]; assert (n = 0) as -> by lia; rewrite app_nil_r; split_and!; [done|done|unfold zlen; lia]|]); [done|].
  destruct (cancelled k); [done|]. destruct (sizes k) as [size|e]; [|done]. cbn [mbind result_bind].
  set (m := clamp size 1 (Z.min n 65536)). set (piece := take (Z.to_nat m) rest).
  assert (Hm : 1 ≤ m ≤ n) by (pose proof (clamp_bounds size 1 (Z.min n 65536)); lia).
  destruct (zlen piece =? 0) eqn:Ep; [done|]. bool_prop.
  assert (Hpl : zlen piece ≤ n) by (unfold zlen, piece; rewrite length_take; lia).
  intros Hr. apply IH in Hr as (Hinv' & Hh & Hle); [|lia|by apply feed_inv].
  assert (Hrest : rest = piece ++ drop (length piece) rest).
  { unfold piece. rewrite length_take. destruct (decide (Z.to_nat m ≤ length rest)%nat).
    - replace (Z.to_nat m `min` length rest)%nat with (Z.to_nat m) by lia. by rewrite take_drop.
    - replace (Z.to_nat m `min` length rest)%nat with (length rest) by lia.
      rewrite (take_ge rest (Z.to_nat m)) by lia. by rewrite drop_all, app_nil_r. }
  rewrite feed_hashed in Hh. clearbody piece.
  set (rest' := drop (length piece) rest) in *. clearbody rest'. subst rest. split_and!; [done| |].
  - rewrite Hh, <- app_assoc. f_equal.
    rewrite take_app_ge by (unfold zlen in *; lia). f_equal. f_equal. unfold zlen in *. lia.
  - unfold zlen in *. rewrite length_app. lia.
Qed.

(** Fixed-size chunks and a shorter rest are slices. *)
Lemma slices_of cb full tail k :
  0 < cb → Forall (λ c, zlen c = cb) full → zlen tail < cb →
  slice cb (concat full ++ tail) (Z.of_nat k) =
  match full !! k with Some c => c | None => if decide (k = length full) then tail else [] end.
Proof.
  intros Hcb Hf Ht. revert k. induction Hf as [|c full Hc Hf IH]; intros k.
  - cbn [concat app]. unfold slice. destruct k as [|k].
    + cbn. rewrite drop_0. rewrite take_ge; [done|]. unfold zlen in Ht. lia.
    + cbn. rewrite drop_ge; [by rewrite take_nil|]. unfold zlen in Ht. nia.
  - destruct k as [|k].
    + unfold slice. cbn [concat]. rewrite <- app_assoc. cbn. rewrite drop_0.
      rewrite take_app_le by (unfold zlen in Hc; lia). rewrite take_ge; [done|]. unfold zlen in Hc. lia.
    + specialize (IH k). unfold slice in *. cbn [concat lookup list_lookup length].
      rewrite <- app_assoc, drop_app_ge by (unfold zlen in Hc; nia).
      replace (Z.to_nat (Z.of_nat (S k) * cb) - length c)%nat with (Z.to_nat (Z.of_nat k * cb)) by (unfold zlen in Hc; nia).
      rewrite IH. destruct (full !! k); [done|]. destruct (decide _), (decide _); try done; lia.
Qed.

Lemma seqZ_lookup n (k : nat) : seqZ 0 n !! k = if decide (Z.of_nat k < n) then Some (Z.of_nat k) else None.
Proof.
  destruct (decide _) as [Hk|Hk]; [rewrite lookup_seqZ_lt by done; f_equal; lia|].
  apply lookup_seqZ_ge. lia.
Qed.

Lemma slices_fmap cb full tail n :
  0 < cb → Forall (λ c, zlen c = cb) full → zlen tail < cb →
  n = zlen full + (if decide (tail = [] ∧ full ≠ []) then 0 else 1) →
  (λ k, sha256_hex (slice cb (concat full ++ tail) k)) <$> seqZ 0 n =
  (sha256_hex <$> full) ++ (if decide (tail = [] ∧ full ≠ []) then [] else [sha256_hex tail]).
Proof.
  intros Hcb Hf Ht Hn. apply list_eq. intros k. rewrite list_lookup_fmap, seqZ_lookup.
  assert (Hl : length (sha256_hex <$> full) = length full) by apply length_fmap.
  destruct (decide (Z.of_nat k < n)) as [Hk|Hk]; cbn [fmap option_fmap option_map].
  - rewrite slices_of by done. destruct (full !! k) as [c|] eqn:Ec.
    + rewrite lookup_app_l by (rewrite Hl; by eapply lookup_lt_Some). by rewrite list_lookup_fmap, Ec.
    + apply lookup_ge_None in Ec. unfold zlen in Hn. destruct (decide (tail = [] ∧ full ≠ [])) as [|Hne]; [lia|].
      assert (k = length full) as -> by lia. rewrite decide_True by done.
      rewrite lookup_app_r by lia. by rewrite Hl, Nat.sub_diag.
  - symmetry. apply lookup_ge_None. rewrite length_app, Hl. unfold zlen in Hn.
    destruct (decide (tail = [] ∧ full ≠ [])); cbn [length]; lia.
Qed.

(** The digests of a source, as defined rather than as computed. *)
Definition reference (spec : SourceSpec) (modified : Z) (content : list Z) (cb n : Z) : Src :=
  {| Upload.spec := spec; source_bytes := zlen content; source_modified_ns := modified;
     source_digest := sha256_hex content;
     chunk_digests := (λ k, sha256_hex (slice cb content k)) <$> seqZ 0 n |}.

Lemma hashing_chunks cb h n :
  0 < cb → hashing_inv cb h → n = Z.max (div_ceil (zlen (hashed h)) cb) 1 →
  (if (zlen (hashed h) =? 0) || negb (remaining h =? cb)
   then digests h ++ [sha256_hex (chunk_hashed h)] else digests h) =
  (λ k, sha256_hex (slice cb (hashed h) k)) <$> seqZ 0 n.
Proof.
  intros Hcb (full & Hh & Hf & Hd & Hl & Hr) Hn.
  assert (Hlen : zlen (hashed h) = zlen full * cb + zlen (chunk_hashed h)).
  { rewrite Hh. unfold zlen. rewrite length_app. clear - Hf. induction Hf as [|c full Hc Hf IH]; [cbn; lia|].
    cbn [concat length]. rewrite length_app. unfold zlen in Hc. lia. }
  assert (Hfl : 0 ≤ zlen full ∧ 0 ≤ zlen (chunk_hashed h)) by (unfold zlen; lia).
  assert (Hcase : (zlen (hashed h) =? 0) || negb (remaining h =? cb) =
    if decide (chunk_hashed h = [] ∧ full ≠ []) then false else true).
  { destruct (decide _) as [[Ht Hne]|Hne].
    - rewrite Ht in *. unfold zlen in Hlen, Hr, Hl. cbn [length] in *.
      destruct full; [done|]. cbn [length] in *. unfold zlen. apply orb_false_iff. split.
      + apply Z.eqb_neq. nia.
      + apply negb_false_iff, Z.eqb_eq. lia.
    - apply orb_true_iff. destruct (chunk_hashed h) as [|b t]; [left|right].
      + apply Z.eqb_eq. destruct full; [|by destruct Hne]. unfold zlen in *. cbn [length] in *. lia.
      + apply negb_true_iff, Z.eqb_neq. unfold zlen in *. cbn [length] in *. lia. }
  rewrite Hcase, Hd, Hh, slices_fmap; try done.
  - destruct (decide (chunk_hashed h = [] ∧ full ≠ [])); [by rewrite app_nil_r|done].
  - rewrite Hn, Hlen. pose proof (div_ceil_lower (zlen full * cb + zlen (chunk_hashed h)) cb Hcb).
    pose proof (div_ceil_upper (zlen full * cb + zlen (chunk_hashed h)) cb Hcb).
    destruct (decide _) as [[Ht Hne]|Hne].
    + rewrite Ht in *. destruct full; [done|]. unfold zlen in *. cbn [length] in *. nia.
    + destruct (chunk_hashed h) as [|b t] eqn:Et.
      * destruct full; [|by destruct Hne]. unfold zlen in *. cbn [length] in *. nia.
      * unfold zlen in *. cbn [length] in *. nia.
Qed.

Lemma read_source_total fuel cancelled sizes k cb rest n h :
  n ≤ Z.of_nat fuel → n ≤ zlen rest → (∀ k, cancelled k = false) → (∀ k, is_ok (sizes k) = true) →
  ∃ h', read_source fuel cancelled sizes k cb rest n h = Ok h'.
Proof.
  intros Hf Hr Hc Hs. revert k rest n h Hf Hr. induction fuel as [|fuel IH]; intros k rest n h Hf Hr; cbn [read_source];
    (destruct (n <=? 0) eqn:E0; bool_prop; [by eexists|]); [lia|].
  rewrite Hc. specialize (Hs k). destruct (sizes k) as [size|e]; [|done]. cbn [mbind result_bind].
  set (m := clamp size 1 (Z.min n 65536)).
  assert (Hm : 1 ≤ m ≤ n) by (pose proof (clamp_bounds size 1 (Z.min n 65536)); lia).
  assert (Hl : zlen (take (Z.to_nat m) rest) = m) by (unfold zlen in *; rewrite length_take; lia).
  rewrite Hl, (proj2 (Z.eqb_neq m 0)) by lia. apply IH; [lia|]. unfold zlen in *. rewrite length_drop, length_take. lia.
Qed.

(** C36: Fingerprinting is equivalent to its reference definition: however the
    reads split the source, success gives the digest of the declared range and
    of each of its chunks; and unless the host, the user or the source's length
    prevents it, it succeeds. *)
Theorem fingerprint_reference host spec cb cancelled sizes :
  is_u64 (fst (bounds spec)) → is_u64 (snd (bounds spec)) → is_u64 cb →
  let content file := take (Z.to_nat (snd (bounds spec))) (drop (Z.to_nat (fst (bounds spec))) (data file)) in
  (∀ src, fingerprint host spec cb cancelled sizes = Ok src →
     ∃ file m n, open_source host spec = Ok file ∧ source_metadata host spec = Ok m ∧
       chunk_count (snd (bounds spec)) cb = Ok n ∧ zlen (content file) = snd (bounds spec) ∧
       src = reference spec (source_modified_ns m) (content file) cb n) ∧
  (∀ file m n, open_source host spec = Ok file → source_metadata host spec = Ok m →
     chunk_count (snd (bounds spec)) cb = Ok n → (∀ k, cancelled k = false) → (∀ k, is_ok (sizes k) = true) →
     fst (bounds spec) + snd (bounds spec) ≤ zlen (data file) →
     fingerprint host spec cb cancelled sizes =
     Ok (reference spec (source_modified_ns m) (content file) cb n)).
Proof.
  intros Hb Hl Hcb content.
  set (h0 := {| hashed := []; chunk_hashed := []; remaining := cb; digests := [] |}).
  assert (Hmeta : ∀ m, source_metadata host spec = Ok m → source_bytes m = snd (bounds spec)).
  { intros m. unfold source_metadata. destruct (checked_end spec); [|done]. cbn [mbind result_bind].
    destruct (match spec with Path _ _ _ => _ | _ => _ end) as [f|]; [|done]. by intros [= <-]. }
  assert (Hend : ∀ file m n h, chunk_count (snd (bounds spec)) cb = Ok n → source_bytes m = snd (bounds spec) →
    read_source (Z.to_nat (source_bytes m)) cancelled sizes 0 cb (drop (Z.to_nat (fst (bounds spec))) (data file))
      (source_bytes m) h0 = Ok h →
    zlen (content file) = snd (bounds spec) ∧ hashed h = content file ∧
    (if (source_bytes m =? 0) || negb (remaining h =? cb) then digests h ++ [sha256_hex (chunk_hashed h)]
     else digests h) = (λ k, sha256_hex (slice cb (content file) k)) <$> seqZ 0 n).
  { intros file m n h Hn Hm Hr. unfold chunk_count in Hn. guards Hn. bool_prop. injection Hn as <-.
    assert (0 < cb) by (destruct Hcb; lia). destruct Hl as [Hl _]. rewrite Hm in *.
    apply read_source_run in Hr as (Hinv & Hh & Hle); [|done|done|exists []; cbn; unfold zlen; cbn; split_and!; [done|done|done|lia|lia]].
    cbn [hashed h0 app] in Hh. change (take _ _) with (content file) in Hh.
    assert (Hz : zlen (content file) = snd (bounds spec)).
    { unfold content, zlen in *. rewrite length_take. lia. }
    split_and!; [done|done|]. rewrite <- Hz, <- Hh. by apply hashing_chunks. }
  split.
  - intros src Hf. unfold fingerprint in Hf.
    destruct (source_metadata host spec) as [m|e] eqn:Em; [|done]. cbn [mbind result_bind] in Hf.
    destruct (open_source host spec) as [file|e] eqn:Eo; [|done]. cbn [mbind result_bind] in Hf.
    rewrite (Hmeta m eq_refl) in Hf.
    destruct (chunk_count _ cb) as [n|e] eqn:En; [|done]. cbn [mbind result_bind] in Hf.
    destruct (read_source _ _ _ _ _ _ _ _) as [h|e] eqn:Er; [|done]. cbn [mbind result_bind] in Hf.
    rewrite <- (Hmeta m eq_refl) in Er.
    destruct (Hend file m n h eq_refl (Hmeta m eq_refl) Er) as (Hz & Hh & Hc).
    rewrite (Hmeta m eq_refl) in Hc. rewrite Hc in Hf. guards Hf. injection Hf as <-.
    exists file, m, n. split_and!; try done. unfold reference. by rewrite Hz, Hh.
  - intros file m n Eo Em En Hcan Hs Hlen. unfold fingerprint. rewrite Em. cbn [mbind result_bind].
    rewrite Eo. cbn [mbind result_bind]. pose proof (Hmeta m Em) as Hm. rewrite Hm, En. cbn [mbind result_bind].
    destruct (read_source_total (Z.to_nat (snd (bounds spec))) cancelled sizes 0 cb
      (drop (Z.to_nat (fst (bounds spec))) (data file)) (snd (bounds spec)) h0) as [h Hr];
      [lia|unfold zlen in *; rewrite length_drop; destruct Hb; lia|done|done|].
    fold h0. rewrite Hr. cbn [mbind result_bind]. rewrite <- Hm in Hr.
    destruct (Hend file m n h En Hm Hr) as (Hz & Hh & Hc). rewrite Hm in Hc. rewrite Hc, Hh.
    assert (Hn : zlen ((λ k, sha256_hex (slice cb (content file) k)) <$> seqZ 0 n) = n).
    { unfold chunk_count in En. guards En. injection En as <-. unfold zlen. rewrite length_fmap, length_seqZ. lia. }
    rewrite Hn, Z.eqb_refl. cbn [negb]. unfold reference. by rewrite Hz.
Qed.
End reference.

Module Example_prepare.
Import Example_codec Example_upload.

(** A host with the file of the example upload, which [read] returns whole. *)
Definition host0 : Host :=
  {| file_at := λ p, if (p =? "/f")%string then Ok {| data := [1; 2; 3]; modified_ns := 5; is_file := true |} else Err NOT_FOUND;
     resolver := None |}.
Definition whole_reads : nat → result string Z := λ _, Ok 65536.

Lemma fingerprint_reference_witness :
  fingerprint host0 (Path "/f" 0 3) 2 (λ _, false) whole_reads =
  Ok (reference (Path "/f" 0 3) 5 [1; 2; 3] 2 2).
Proof.
  destruct (fingerprint_reference host0 (Path "/f" 0 3) 2 (λ _, false) whole_reads) as [_ Hf];
    [vm_compute; split; discriminate..|].
  eapply (Hf {| data := [1; 2; 3]; modified_ns := 5; is_file := true |}
    {| spec := Path "/f" 0 3; source_bytes := 3; source_modified_ns := 5; source_digest := ""; chunk_digests := [] |} 2);
    try reflexivity; vm_compute; discriminate.
Defined.
End Example_prepare.
