(* ===== verification/Json.v ===== *)
(** * JSON values (serde_json)

    [serde_json::Value] and the reading of derived [Deserialize] types from it:
    a missing field is an error unless the type is optional or has a default,
    and unknown fields are ignored.  An object is expected: that serde also reads a
    struct from an array of its fields in order is not modelled.  The text itself is serde_json's: printing
    and parsing are parameters, with the law that a printed value parses back. *)

From Stdlib Require Import Ascii String.
From stdpp Require Import countable.
From S2P Require Import Prelude Str.
Open Scope Z_scope.

Inductive json :=
| JNull
| JBool (b : bool)
| JNum (n : Z)
| JFloat (text : string)                       (** a number that is no integer *)
| JStr (s : string)
| JArr (l : list json)
| JObj (fields : list (string * json)).

(** [Value::get] with a key, and the accessors [as_str], [as_bool], [as_u64],
    [as_array], [as_object]. *)
Fixpoint lookup_field (key : string) (fields : list (string * json)) : option json :=
  match fields with
  | [] => None
  | (k, v) :: fields => if (k =? key)%string then Some v else lookup_field key fields
  end.
Definition field (key : string) (v : json) : option json :=
  match v with JObj fields => lookup_field key fields | _ => None end.
Definition as_str (v : json) : option string := match v with JStr s => Some s | _ => None end.
Definition as_bool (v : json) : option bool := match v with JBool b => Some b | _ => None end.
Definition as_array (v : json) : option (list json) := match v with JArr l => Some l | _ => None end.
Definition is_object (v : json) : bool := match v with JObj _ => true | _ => false end.
Definition as_u64 (v : json) : option Z :=
  match v with JNum n => if bool_decide (is_u64 n) then Some n else None | _ => None end.
(** [Deserialize for u8] and [u32] *)
Definition as_u8 (v : json) : option Z :=
  match v with JNum n => if (0 <=? n) && (n <=? u8_max) then Some n else None | _ => None end.
Definition as_u32 (v : json) : option Z :=
  match v with JNum n => if (0 <=? n) && (n <=? u32_max) then Some n else None | _ => None end.

Definition str_field (key : string) (v : json) : option string := field key v ≫= as_str.
Definition u64_field (key : string) (v : json) : option Z := field key v ≫= as_u64.
Definition u8_field (key : string) (v : json) : option Z := field key v ≫= as_u8.
Definition bool_field (key : string) (v : json) : option bool := field key v ≫= as_bool.

(** An [Option] field: absent or null is [None]; anything else must be of the
    type. *)
Definition opt_field {A} (rd : json → option A) (key : string) (v : json) : option (option A) :=
  match field key v with
  | None | Some JNull => Some None
  | Some x => Some <$> rd x
  end.
(** A field with [#[serde(default)]]. *)
Definition default_field {A} (rd : json → option A) (d : A) (key : string) (v : json) : option A :=
  match field key v with None => Some d | Some x => rd x end.
Definition vec_field {A} (rd : json → option A) (key : string) (v : json) : option (list A) :=
  x ← field key v; l ← as_array x; mapM rd l.

(** Values serde_json can print and read back: integers of 64 bits and objects
    without repeated keys. *)
Fixpoint printable (v : json) : bool :=
  match v with
  | JNum n => bool_decide (- 2 ^ 63 ≤ n ≤ u64_max)
  | JArr l => forallb printable l
  | JObj fields => bool_decide (NoDup (fst <$> fields)) && forallb (λ f, printable (snd f)) fields
  | JFloat _ => false
  | _ => true
  end.

(** [serde_json::to_vec] and [from_slice], [to_string] and [from_str]. *)
Class JsonText := { to_vec : json → list Z; from_slice : list Z → option json }.
Class JsonTextLaws `{JsonText} : Prop := {
  from_slice_to_vec v : printable v = true → from_slice (to_vec v) = Some v;
  to_vec_u8 v : Forall is_u8 (to_vec v) }.

Definition to_string `{JsonText} (v : json) : string := of_bytes (to_vec v).
Definition from_str `{JsonText} (s : string) : option json := from_slice (bytes s).

Lemma from_str_to_string `{JsonTextLaws} v :
  printable v = true → from_str (to_string v) = Some v.
Proof.
  intros Hv. unfold from_str, to_string. rewrite bytes_of_bytes by apply to_vec_u8.
  by apply from_slice_to_vec.
Qed.

(** Printable values, one constructor at a time. *)
Lemma printable_JObj fields :
  NoDup (fst <$> fields) → Forall (λ f, printable (snd f) = true) fields →
  printable (JObj fields) = true.
Proof.
  intros Hn Hf. cbn. apply andb_true_iff. split; [by apply bool_decide_eq_true|].
  apply forallb_forall. intros f Hin. rewrite Forall_forall in Hf. by apply Hf, list_elem_of_In.
Qed.

Lemma printable_JArr l : Forall (λ v, printable v = true) l → printable (JArr l) = true.
Proof.
  intros Hl. cbn. apply forallb_forall. intros v Hin. rewrite Forall_forall in Hl.
  by apply Hl, list_elem_of_In.
Qed.

Lemma printable_JNum n : is_u64 n → printable (JNum n) = true.
Proof. intros Hn. apply bool_decide_eq_true. unfold is_u64, u64_max in *. lia. Qed.

Lemma as_u64_JNum n : is_u64 n → as_u64 (JNum n) = Some n.
Proof. intros Hn. cbn. by rewrite bool_decide_true. Qed.

#[export] Hint Resolve printable_JArr printable_JNum : json.

(** Objects with known keys. *)
Ltac printable_object :=
  apply printable_JObj; [by apply (bool_decide_unpack _); vm_compute|];
  repeat (apply Forall_cons; split; [cbn [snd]; eauto with json; try done|]);
  try apply Forall_nil_2.

(** A concrete text for examples: the bits of a numbering of the values. *)
Module Example_json.
Notation tree := (gen_tree (bool + Z + string)).

Fixpoint to_tree (v : json) : tree :=
  match v with
  | JNull => GenNode 0 []
  | JBool b => GenLeaf (inl (inl b))
  | JNum n => GenLeaf (inl (inr n))
  | JStr s => GenLeaf (inr s)
  | JFloat s => GenNode 1 [GenLeaf (inr s)]
  | JArr l => GenNode 2 (to_tree <$> l)
  | JObj fields => GenNode 3 ((λ f, GenNode 4 [GenLeaf (inr (fst f)); to_tree (snd f)]) <$> fields)
  end.

Fixpoint of_tree (t : tree) : json :=
  match t with
  | GenLeaf (inl (inl b)) => JBool b
  | GenLeaf (inl (inr n)) => JNum n
  | GenLeaf (inr s) => JStr s
  | GenNode 1 [GenLeaf (inr s)] => JFloat s
  | GenNode 2 l => JArr (of_tree <$> l)
  | GenNode 3 l =>
      JObj ((λ f, match f with
                  | GenNode _ [GenLeaf (inr k); v] => (k, of_tree v)
                  | _ => ("", JNull)
                  end) <$> l)
  | _ => JNull
  end.

Fixpoint of_to_tree (v : json) : of_tree (to_tree v) = v.
Proof.
  destruct v as [| | | | |l|fields]; try reflexivity.
  - change (JArr (of_tree <$> (to_tree <$> l)) = JArr l). apply f_equal.
    induction l as [|v l IH]; [reflexivity|]. cbn. rewrite of_to_tree. apply f_equal, IH.
  - cbn. apply f_equal. induction fields as [|[k v] l IH]; [reflexivity|].
    cbn. rewrite of_to_tree. apply f_equal, IH.
Qed.

Fixpoint to_bits (p : positive) : list Z :=
  match p with xH => [] | xO p => 0 :: to_bits p | xI p => 1 :: to_bits p end.
Fixpoint of_bits (l : list Z) : positive :=
  match l with [] => xH | b :: l => if b =? 0 then xO (of_bits l) else xI (of_bits l) end.

Lemma of_to_bits p : of_bits (to_bits p) = p.
Proof. induction p as [p IH|p IH|]; cbn; by rewrite ?IH. Qed.

(** Seven bits to a byte from 128 on; the last ones are a byte each. *)
Fixpoint pack (l : list Z) : list Z :=
  match l with
  | a :: b :: c :: d :: e :: f :: g :: l =>
      (128 + a + 2 * b + 4 * c + 8 * d + 16 * e + 32 * f + 64 * g) :: pack l
  | _ => l
  end.
Definition unpack (l : list Z) : list Z :=
  b ← l;
  if b <? 128 then [b] else (λ i, if Z.testbit b i then 1 else 0) <$> [0; 1; 2; 3; 4; 5; 6].

Definition is_bit (b : Z) : Prop := b = 0 ∨ b = 1.

Lemma unpack_group x l : 128 ≤ x → unpack (x :: l)
  = ((λ i, if Z.testbit x i then 1 else 0) <$> [0; 1; 2; 3; 4; 5; 6]) ++ unpack l.
Proof. intros Hx. unfold unpack. rewrite bind_cons, (proj2 (Z.ltb_ge _ _)) by done. done. Qed.

(** A group of bits. *)
Ltac bits7 :=
  decompose_Forall_hyps; repeat match goal with H : is_bit _ |- _ => destruct H as [->| ->] end.

Fixpoint unpack_pack (l : list Z) : Forall is_bit l → unpack (pack l) = l.
Proof.
  intros H. destruct l as [|a [|b [|c [|d [|e [|f [|g l]]]]]]]; cbn [pack];
    [..|rewrite unpack_group, unpack_pack by (bits7; done || lia)]; bits7; reflexivity.
Qed.

Fixpoint pack_u8 (l : list Z) : Forall is_bit l → Forall is_u8 (pack l).
Proof.
  intros H. destruct l as [|a [|b [|c [|d [|e [|f [|g l]]]]]]]; cbn [pack]; repeat constructor;
    try (apply pack_u8); bits7; try done; unfold u8_max; lia.
Qed.

Lemma to_bits_bit p : Forall is_bit (to_bits p).
Proof. induction p; cbn; constructor; try done; (by left) || (by right). Qed.

#[export] Instance text : JsonText :=
  {| to_vec := λ v, pack (to_bits (countable.encode (to_tree v)));
     from_slice := λ l, of_tree <$> countable.decode (of_bits (unpack l)) |}.

#[export] Instance text_laws : JsonTextLaws.
Proof.
  split.
  - intros v _. cbn. rewrite unpack_pack, of_to_bits, countable.decode_encode by apply to_bits_bit. cbn. by rewrite of_to_tree.
  - intros v. apply pack_u8, to_bits_bit.
Qed.
End Example_json.
