(* ===== verification/Sealing.v ===== *)
(** * Sealing what is sent (crates/transfer-native/src/protocol/upload.rs)

    The key of an upload, and the three things encrypted under it besides the
    chunks: the manifest, the early descriptor of a Turbo transfer, and the note
    kept with the job until it is published. *)

From Stdlib Require Import Ascii String.
From S2P Require Import Prelude Str Frame Codec Json Encryption Upload.
From S2P Require Manifest Control.
Open Scope Z_scope.

(** The pool a job's control reserves from: its limit, and what the turns of the
    wait for [n] bytes of a job that holds [held] already see, the cancellation flag
    and the bytes in use, up to the turn that ends it (a job dropped in the middle
    of a wait has no such turn). *)
Class Memory := { memory_limit : Z; turns : Z → Z → list (bool * Z) }.

(** [MemoryBudget::reserve], turn by turn. *)
Fixpoint reserve_loop (limit bytes : Z) (turns : list (bool * Z)) : result string () :=
  match turns with
  | [] => Err "Transfer cancelled"
  | (cancelled, used) :: turns =>
      match Control.reserve_turn bytes cancelled {| Control.limit := limit; Control.used := used |} with
      | Control.Granted _ => Ok ()
      | Control.Failed Control.MemoryExhausted => Err "transfer memory budget is exhausted"
      | Control.Failed Control.Cancelled => Err "Transfer cancelled"
      | Control.Wait => reserve_loop limit bytes turns
      end
  end.

(** [control.reserve_memory], while permits for [held] bytes are alive *)
Definition reserve_holding `{Memory} (held bytes : Z) : result string () :=
  reserve_loop memory_limit bytes (turns held bytes).
Definition reserve_memory `{Memory} : Z → result string () := reserve_holding 0.

(** Nobody cancels the job, and what others hold is released in the end. *)
Definition waits_end (Me : Memory) : Prop :=
  ∀ held n, held + n ≤ memory_limit → ∃ before used after, turns held n = before ++ (false, used) :: after ∧
    used ≤ memory_limit - n ∧ Forall (λ t, fst t = false) before.

Lemma reserve_holding_fits `{Me : Memory} held n :
  waits_end Me → 0 ≤ held → held + n ≤ memory_limit → reserve_holding held n = Ok ().
Proof.
  intros Hw Hh Hn. destruct (Hw held n Hn) as (before & used & after & Ht & Hu & Hb).
  unfold reserve_holding. rewrite Ht. clear Ht. assert (n ≤ memory_limit) by lia. induction Hb as [|[c u] before Hc _ IH]; cbn in *.
  - unfold Control.reserve_turn. cbn. by rewrite !(proj2 (Z.ltb_ge _ _)) by lia.
  - subst c. unfold Control.reserve_turn at 1. cbn. rewrite (proj2 (Z.ltb_ge _ _)) by lia. by destruct (_ <? u).
Qed.

Lemma reserve_fits `{Me : Memory} n : waits_end Me → n ≤ memory_limit → reserve_memory n = Ok ().
Proof. intros Hw Hn. by apply (reserve_holding_fits 0). Qed.

(** A request that fits alone, but not beside the caller's own permits, is neither
    granted nor refused: however many turns it waits, with nothing else in use. *)
Lemma reserve_holding_waits limit held n k rest :
  n ≤ limit → limit < held + n →
  reserve_loop limit n (replicate k (false, held) ++ rest) = reserve_loop limit n rest.
Proof.
  intros Hn Hh. induction k as [|k IH]; [done|]. cbn. unfold Control.reserve_turn at 1. cbn.
  by rewrite (proj2 (Z.ltb_ge _ _)), (proj2 (Z.ltb_lt _ _)) by lia.
Qed.

Definition PASSWORD_KDF_BYTES : Z := 64 * 1024 * 1024.

Definition manifest_crypto_bytes (plain_bytes : Z) : result string Z :=
  ok_or (checked_mul plain_bytes 4) "manifest memory accounting overflow".

(** ** What is sealed, as JSON *)

Definition note_json (n : Manifest.AttachedNote) : json :=
  JObj ([("text", JStr (Manifest.text n))]
        ++ match Manifest.title n with Some t => [("title", JStr t)] | None => [] end
        ++ [("language", JStr (Manifest.language n))]).

Definition item_json (i : Item) : json :=
  JObj [("id", JStr (item_id i)); ("name", JStr (item_name i));
        ("type", JStr "application/octet-stream"); ("size", JNum (item_bytes i));
        ("nonce_prefix", JStr (nonce_prefix i)); ("chunk_count", JNum (item_chunk_count i));
        ("digest", JObj [("algorithm", JStr "sha256"); ("value", JStr (item_digest i))])].

Definition manifest_json (note : option Manifest.AttachedNote) (join : option string)
    (items : list Item) : json :=
  JObj ([("version", JNum 1); ("items", JArr (item_json <$> items))]
        ++ match note with Some n => [("attached_note", note_json n)] | None => [] end
        ++ match join with Some t => [("join_token", JStr t)] | None => [] end).

Definition descriptor_item_json (i : Item) : json :=
  JObj [("id", JStr (item_id i)); ("name", JStr (item_name i));
        ("type", JStr "application/octet-stream"); ("size", JNum (item_bytes i));
        ("nonce_prefix", JStr (nonce_prefix i)); ("chunk_count", JNum (item_chunk_count i))].

Definition descriptor_json (note : option Manifest.AttachedNote) (chunk_bytes : Z)
    (items : list Item) : json :=
  JObj (match note with Some n => [("attached_note", note_json n)] | None => [] end
        ++ [("version", JNum 1); ("purpose", JStr "turbo-descriptor");
            ("chunk_bytes", JNum chunk_bytes); ("items", JArr (descriptor_item_json <$> items))]).

(** The envelope around a sealed value. *)
Definition envelope_json (prefix ciphertext : string) (salt : option string) : json :=
  JObj ([("v", JNum 1); ("nonce_prefix", JStr prefix); ("ciphertext", JStr ciphertext)]
        ++ match salt with
           | Some salt =>
               [("salt", JStr salt);
                ("kdf", JObj [("name", JStr "argon2id"); ("memory_kib", JNum 65536);
                              ("iterations", JNum 3); ("parallelism", JNum 1)])]
           | None => []
           end).

Record Envelope := { v : Z; env_prefix : string; salt : option string; env_ciphertext : string }.

(** [serde_json::from_str::<Envelope>] *)
Definition envelope_of (j : json) : option Envelope :=
  v ← u8_field "v" j;
  prefix ← str_field "nonce_prefix" j;
  salt ← opt_field as_str "salt" j;
  ciphertext ← str_field "ciphertext" j;
  Some {| v := v; env_prefix := prefix; salt := salt; env_ciphertext := ciphertext |}.

(** [serde_json::from_value::<AttachedNote>] *)
Definition note_of (j : json) : option Manifest.AttachedNote :=
  text ← str_field "text" j;
  title ← opt_field as_str "title" j;
  language ← str_field "language" j;
  Some {| Manifest.text := text; Manifest.title := title; Manifest.language := language |}.

Section sealing.
Context `{Ae : Aead, Kd : Kdf, Co : Codec, En : Encode, Js : JsonText, Me : Memory}.

(** ** Keys *)

Definition set_keys mk note (j : UploadJob) : UploadJob :=
  {| sealed_attached_note := note; version := version j; id := id j;
     direction := direction j; state := state j; instance := instance j; done_bytes := done_bytes j;
     total := total j; transfer_id := transfer_id j; upload_token := upload_token j;
     monitor_token := monitor_token j; share_url := share_url j; delete_token := delete_token j;
     share_key := share_key j; password_salt := password_salt j; master_key := mk;
     chunk_bytes := chunk_bytes j; server_concurrency := server_concurrency j;
     upload_status := upload_status j; turbo := turbo j;
     descriptor_published := descriptor_published j; encrypted_descriptor := encrypted_descriptor j;
     transport := transport j; driver := driver j; join_token := join_token j;
     exact_manifest := exact_manifest j; receipt_url := receipt_url j; recipient := recipient j;
     items := items j; chunks := chunks j |}.

(** The key under a password: what both ends derive. *)
Definition password_master (share_key : list Z) (salt password : string) : result string (list Z) :=
  _ ← reserve_memory PASSWORD_KDF_BYTES;
  salt ← decode salt;
  p ← derive_password_key (bytes password) salt 65536 3 1;
  derive_password_protected_key share_key p.

(** [password] is the reply to the password prompt. *)
Definition unlock_job (password : result string string) (j : UploadJob) : result string UploadJob :=
  if zlen (master_key j) =? 32 then Ok j else
  reject negb (zlen (share_key j) =? 32) with "saved upload has an invalid share key";
  match password_salt j with
  | Some salt =>
      password ← password;
      reject Z.of_nat (length (chars password)) <? 8 with "passwords must contain at least 8 characters";
      mk ← password_master (share_key j) salt password;
      Ok (set_keys mk (sealed_attached_note j) j)
  | None => Ok (set_keys (share_key j) (sealed_attached_note j) j)
  end.

(** ** Sealing *)

(** [bounded_envelope] *)
Definition MAX_ENVELOPE_BYTES : Z := 524288.

Definition bounded_envelope (envelope : json) : result string string :=
  let value := to_string envelope in
  reject MAX_ENVELOPE_BYTES <? len value
    with "encrypted transfer metadata exceeds 512 KiB; shorten the note or filenames";
  Ok value.

(** Encrypting a JSON value under a fresh prefix: the common part of the
    manifest and the descriptor. *)
Definition seal (master : list Z) (salt : option string) (plain : list Z) (aad : string)
    (fresh : result string (list Z)) : result string string :=
  n ← manifest_crypto_bytes (zlen plain);
  _ ← reserve_memory n;
  prefix ← fresh;
  ciphertext ← encrypt_manifest master prefix plain (bytes aad);
  bounded_envelope (envelope_json (encode prefix) (encode ciphertext) salt).

Definition note_aad (id : string) : string := "filebeam:local:v1:" +:+ id +:+ ":attached-note".
Definition manifest_aad (transfer : string) : string :=
  "filebeam:v1:" +:+ transfer +:+ ":manifest:manifest".
Definition descriptor_aad (transfer : string) : string :=
  "filebeam:v1:" +:+ transfer +:+ ":descriptor:descriptor".

Definition seal_attached_note (note : Manifest.AttachedNote) (fresh : result string (list Z))
    (j : UploadJob) : result string UploadJob :=
  _ ← Manifest.note_validate note;
  prefix ← fresh;
  cipher ← encrypt_manifest (master_key j) prefix (to_vec (note_json note)) (bytes (note_aad (id j)));
  Ok (set_keys (master_key j)
    (Some (to_string (envelope_json (encode prefix) (encode cipher) None))) j).

Definition open_attached_note (j : UploadJob) : result string (option Manifest.AttachedNote) :=
  match sealed_attached_note j with
  | None => Ok None
  | Some sealed =>
      envelope ← ok_or (from_str sealed ≫= envelope_of) "invalid sealed note";
      prefix ← decode (env_prefix envelope);
      ciphertext ← decode (env_ciphertext envelope);
      plain ← decrypt_manifest (master_key j) prefix ciphertext (bytes (note_aad (id j)));
      note ← ok_or (from_slice plain ≫= note_of) "invalid sealed note";
      _ ← Manifest.note_validate note;
      Ok (Some note)
  end.

Definition encrypted_manifest (fresh : result string (list Z)) (j : UploadJob)
    : result string string :=
  transfer ← ok_or (transfer_id j) "upload was not reserved";
  note ← open_attached_note j;
  join ← (if (driver j =? "webrtc")%string
          then t ← ok_or (join_token j) "live transfer join token is unavailable"; Ok (Some t)
          else Ok None);
  seal (master_key j) (password_salt j) (to_vec (manifest_json note join (items j)))
    (manifest_aad transfer) fresh.

Definition turbo_descriptor (transfer : string) (fresh : result string (list Z)) (j : UploadJob)
    : result string string :=
  reject negb (driver j =? "http")%string || bool_decide (is_Some (recipient j))
    with "Turbo requires an anonymous HTTP file transfer";
  note ← open_attached_note j;
  seal (master_key j) (password_salt j)
    (to_vec (descriptor_json note (chunk_bytes j) (items j))) (descriptor_aad transfer) fresh.

End sealing.
