(* ===== verification/Sending.v ===== *)
(** * Sending an upload (crates/transfer-native/src/protocol/upload.rs)

    [continue_job]: reopening a saved upload, the loop that overlaps one
    ciphertext producer with the requests in flight, and the end of the upload.
    The job in memory is the job last saved, but for the master key, which is not
    saved: a run is the disk, the key it unlocked, which requests are in flight and
    what the producer is encrypting; it can stop at any call, and the next one
    continues from the disk with the key it unlocks then. *)

From Stdlib Require Import Ascii String.
From S2P Require Import Prelude Str Frame Codec Transport Http Encryption Monad Source Upload Prepare.
From S2P Require Stage Sealing.
Open Scope Z_scope.

Definition stage_name (c : Chunk) : string :=
  "stage-" +:+ decimal (Z.of_nat (chunk_item c)) +:+ "-" +:+ decimal (position c) +:+ ".json".

(** [store.path().join(format!("chunk-{item}-{position}"))] *)
Definition artifact_path (base : string) (item : nat) (pos : Z) : string :=
  base +:+ "/chunk-" +:+ decimal (Z.of_nat item) +:+ "-" +:+ decimal pos.

Definition set_descriptor (d : option string) (published : bool) (j : UploadJob) : UploadJob :=
  {| sealed_attached_note := sealed_attached_note j; version := version j; id := id j;
     direction := direction j; state := state j; instance := instance j; done_bytes := done_bytes j;
     total := total j; transfer_id := transfer_id j; upload_token := upload_token j;
     monitor_token := monitor_token j; share_url := share_url j; delete_token := delete_token j;
     share_key := share_key j; password_salt := password_salt j; master_key := master_key j;
     chunk_bytes := chunk_bytes j; server_concurrency := server_concurrency j;
     upload_status := upload_status j; turbo := turbo j; descriptor_published := published;
     encrypted_descriptor := d; transport := transport j; driver := driver j;
     join_token := join_token j; exact_manifest := exact_manifest j; receipt_url := receipt_url j;
     recipient := recipient j; items := items j; chunks := chunks j |}.

Section sending.
Context `{Kd : Kdf, Me : Sealing.Memory, Codec, Disk, Encode}.
(** [store.path()] *)
Context (base : string).

Notation D := (SE State string).

(** ** The steps of the loop *)

(** The next chunk to put in flight. *)
Definition next_ready (active : list nat) (j : UploadJob) : option nat :=
  fst <$> list_find (λ e : nat * Chunk, complete (snd e) = false ∧ fst e ∉ active) (imap pair (chunks j)).

Definition new_chunk (j : UploadJob) (p : PreparedCiphertext) (i : Item) : Chunk :=
  {| chunk_item := prep_item p; chunk_item_id := item_id i; position := prep_position p;
     plaintext_bytes := prep_plaintext_bytes p; ciphertext_bytes := zlen (ciphertext p);
     checksum := sha256_hex (ciphertext p); artifact := artifact_path base (prep_item p) (prep_position p);
     complete := false; stage := None |}.

(** The producer's result: an artifact left by a crash is adopted only if it is
    exactly this ciphertext, then the chunk is recorded. *)
Definition store_prepared (p : PreparedCiphertext) (j : UploadJob) : D UploadJob :=
  let path := artifact_path base (prep_item p) (prep_position p) in
  orphan ← get (λ s, files s !! path);
  _ ← match orphan with
      | Some _ =>
          existing ← read_file path "read";
          if bool_decide (existing = ciphertext p) then mret ()
          else fail "orphaned ciphertext conflicts with the verified source"
      | None =>
          effect (λ s, {| saved := saved s; files := <[path := ciphertext p]> (files s);
                          sidecars := sidecars s; clock := clock s |})
      end;
  i ← of_result (ok_or (items j !! prep_item p) "index out of bounds");
  let j := set_chunks (chunks j ++ [new_chunk j p i]) (done_bytes j) j in
  _ ← save j;
  mret j.

Definition remove_sidecar (name : string) : D () :=
  effect (λ s, {| saved := saved s; files := files s; sidecars := delete name (sidecars s);
                  clock := clock s |}).

(** An upload worker ended well with [returned]. *)
Definition chunk_sent (n : nat) (returned : Chunk) (j : UploadJob) : D UploadJob :=
  let c := set_complete (stage returned) returned in
  let cs := <[n := c]> (chunks j) in
  let j := set_chunks cs (completed_bytes cs) j in
  _ ← save j;
  _ ← remove_sidecar (stage_name c);
  _ ← (attempt (remove_file (artifact c)) : D (result string ()));
  mret j.

(** ** Reopening *)

Definition publish_descriptor (descriptor : result string string) (published : result string ())
    (j : UploadJob) : D UploadJob :=
  if turbo j && negb (descriptor_published j) then
    j ← match encrypted_descriptor j with
        | Some _ => mret j
        | None =>
            d ← of_result descriptor;
            let j := set_descriptor (Some d) (descriptor_published j) j in
            _ ← save j; mret j
        end;
    _ ← of_result published;
    let j := set_descriptor (encrypted_descriptor j) true j in
    _ ← save j; mret j
  else mret j.

Fixpoint remove_sidecars (names : list string) : D () :=
  match names with
  | [] => mret ()
  | n :: names => _ ← remove_sidecar n; remove_sidecars names
  end.

Definition reconcile_saved (replies : list (result string StatusPage)) (j : UploadJob) : D UploadJob :=
  if (driver j =? "http")%string && upload_status j then
    j ← of_result (reconcile replies j);
    _ ← save j;
    _ ← remove_sidecars (stage_name <$> filter (λ c, complete c = true) (chunks j));
    mret j
  else mret j.

(** The key of a saved job, which does not hold it: under a password, whatever the
    one asked for gives ([Sealing.unlock_job]). *)
Definition unlock (password : result string string) (j : UploadJob) : result string (list Z) :=
  j ← Sealing.unlock_job password (Sealing.set_keys [] (sealed_attached_note j) j);
  Ok (master_key j).

(** What the outside contributes to reopening: the password, the sources, the
    descriptor and whether its request succeeds, the server's ledger. *)
Record Outside := {
  password : result string string;
  host : Host;
  cancelled : nat → bool;
  sizes : nat → result string Z;
  descriptor : result string string;
  published : result string ();
  ledger : list (result string StatusPage) }.

(** [continue_job] up to its loop, for an upload still to be sent: the job and the
    key of this run. *)
Definition reopen (o : Outside) : D (UploadJob * list Z) :=
  j ← get saved;
  _ ← of_result (validate_job j);
  master ← of_result (unlock (password o) j);
  fully ← (λ s, (s, preparation_complete (files s) j));
  _ ← (if (fully : bool) then mret () else of_result (validate_sources (host o) (cancelled o) (sizes o) j));
  _ ← of_result (ok_or (transfer_id j) "upload was not reserved yet");
  _ ← of_result (ok_or (upload_token j) "upload token is unavailable");
  j ← publish_descriptor (descriptor o) (published o) j;
  j ← reconcile_saved (ledger o) j;
  mret (j, master).

(** ** The end *)

Definition finalize_item (cb : Z) (i : Item) : result string Item :=
  n ← chunk_count (source_bytes (source i)) cb;
  Ok {| item_id := item_id i; item_position := item_position i; item_name := item_name i;
        source := source i; nonce_prefix := nonce_prefix i; item_digest := source_digest (source i);
        item_bytes := source_bytes (source i); item_chunk_count := n |}.

Fixpoint finalize_items (cb : Z) (l : list Item) : result string (list Item) :=
  match l with
  | [] => Ok []
  | i :: l => i ← finalize_item cb i; l ← finalize_items cb l; Ok (i :: l)
  end.

Definition set_manifest (st : string) (m : option string) (j : UploadJob) : UploadJob :=
  update st (done_bytes j) m (receipt_url j) (master_key j) (upload_token j) (transport j) (items j)
    (chunks j) j.

(** The job once the server has completed the transfer. *)
Definition completed (url : string) (j : UploadJob) : UploadJob :=
  update "complete" (done_bytes j) None (Some url) [] None (transport j) (items j) (chunks j) j.

(** A fully prepared upload whose sources are still the same gets its final
    item records. *)
Definition to_sending (o : Outside) (j : UploadJob) : D UploadJob :=
  if (state j =? "preparing")%string then
    whole ← (λ s, (s, preparation_complete (files s) j));
    if negb whole then fail "ciphertext producer stopped before all chunks were durable" else
    _ ← of_result (validate_sources (host o) (cancelled o) (sizes o) j);
    its ← of_result (finalize_items (chunk_bytes j) (items j));
    let j := set_state "sending" (set_items its j) in
    _ ← save j; mret j
  else mret j.

(** The exact envelope is saved before its request; [manifest] encrypts it. *)
Definition to_finalizing (manifest : UploadJob → result string string) (j : UploadJob) : D UploadJob :=
  if (state j =? "finalizing")%string then mret j else
  m ← of_result (manifest (set_state "finalizing" j));
  let j := set_manifest "finalizing" (Some m) j in
  _ ← save j; mret j.

(** After the loop; [accepted] is the outcome of the completion requests. *)
Definition finish (o : Outside) (manifest : UploadJob → result string string) (accepted : result string ())
    (j : UploadJob) : D string :=
  j ← to_sending o j;
  j ← to_finalizing manifest j;
  _ ← of_result (ok_or (exact_manifest j) "final upload manifest is unavailable");
  _ ← of_result accepted;
  url ← of_result (receipt j);
  _ ← save (completed url j);
  mret url.

(** ** Runs *)

(** [Running master active producer]: the key this run unlocked, the requests in
    flight and the chunk being encrypted; [Stopped]: the process ended. *)
Inductive Mode :=
  | Stopped
  | Running (master : list Z) (active : list nat) (producer : option (nat * Z)).

(** [emitted] records, for each item and position, the ciphertext that was
    stored for it: a ciphertext leaves the process only from a stored artifact. *)
Record Run := { disk : State; mode : Mode; emitted : gmap (nat * Z) (list Z) }.

Definition record (k : nat * Z) (s : State) (e : gmap (nat * Z) (list Z)) : gmap (nat * Z) (list Z) :=
  match files s !! artifact_path base (fst k) (snd k) with
  | Some c => <[k := c]> e
  | None => e
  end.

Definition mode_of {A} (r : result string A) (m : Mode) : Mode :=
  match r with Ok _ => m | Err _ => Stopped end.

(** [turbo_heartbeat]; [status] is what its request comes to. *)
Definition turbo_heartbeat (status : result string Z) : result string () :=
  status ← context status "send Turbo heartbeat";
  if status =? 204 then Ok () else Err "Turbo heartbeat returned another status".

Inductive step `{Aead} : Run → Run → Prop :=
  | step_reopen o r s' x :
      mode r = Stopped → state (saved (disk r)) ∉ ["complete"; "ended"] → driver (saved (disk r)) = "http" →
      reopen o (disk r) = (s', x) →
      step r {| disk := s'; mode := match x with Ok (_, master) => Running master [] None | Err _ => Stopped end;
                emitted := emitted r |}
  | step_spawn r master active n :
      mode r = Running master active None → next_ready active (saved (disk r)) = Some n →
      step r {| disk := disk r; mode := Running master (n :: active) None; emitted := emitted r |}
  | step_produce r master active k :
      mode r = Running master active None → next_ready active (saved (disk r)) = None →
      next_missing_chunk (saved (disk r)) = Ok (Some k) →
      step r {| disk := disk r; mode := Running master active (Some k); emitted := emitted r |}
  | step_heartbeat r master active producer status :
      mode r = Running master active producer → active ≠ [] ∨ is_Some producer →
      turbo (saved (disk r)) = true →
      step r {| disk := disk r; mode := mode_of (turbo_heartbeat status) (mode r); emitted := emitted r |}
  | step_produced r master active n pos i now later prefix key transfer p s' x :
      mode r = Running master active (Some (n, pos)) → items (saved (disk r)) !! n = Some i →
      transfer_id (saved (disk r)) = Some transfer → decode (nonce_prefix i) = Ok prefix →
      derive_item_key master transfer (item_id i) = Ok key →
      prepare_one now later (source i) n (item_id i) pos (chunk_bytes (saved (disk r))) prefix key transfer = Ok p →
      store_prepared p (saved (disk r)) (disk r) = (s', x) →
      step r {| disk := s'; mode := mode_of x (Running master active None);
                emitted := record (n, pos) s' (emitted r) |}
  | step_sent r master active producer n c st s' x :
      mode r = Running master active producer → n ∈ active → chunks (saved (disk r)) !! n = Some c →
      chunk_sent n (set_stage st c) (saved (disk r)) (disk r) = (s', x) →
      step r {| disk := s'; mode := mode_of x (Running master (filter (λ m, m ≠ n) active) producer);
                emitted := emitted r |}
  | step_finish r o master manifest accepted s' x :
      mode r = Running master [] None → next_ready [] (saved (disk r)) = None →
      next_missing_chunk (saved (disk r)) = Ok None →
      finish o manifest accepted (saved (disk r)) (disk r) = (s', x) →
      step r {| disk := s'; mode := Stopped; emitted := emitted r |}
  | step_stop r : step r {| disk := disk r; mode := Stopped; emitted := emitted r |}.
End sending.
