(* ===== verification/Sent.v ===== *)
(** * The runs of an upload (crates/transfer-native/src/protocol/upload.rs)

    The invariant of the runs of [Sending]: the saved job, its artifacts and
    every ciphertext that was ever stored agree, whatever I/O fails and wherever
    a run stops; what the loop does and when it ends. *)

From Stdlib Require Import Ascii String.
From S2P Require Import Prelude Str Frame Codec Transport Http Encryption Monad Source Upload Prepare Sending.
From S2P Require Stage Sealing.
Open Scope Z_scope.

(** ** Artifact names *)

Definition in_range (k : nat * Z) : Prop := Z.of_nat (fst k) ≤ u64_max ∧ is_u64 (snd k).

Lemma artifact_path_inj base k k' :
  in_range k → in_range k' →
  artifact_path base (fst k) (snd k) = artifact_path base (fst k') (snd k') → k = k'.
Proof.
  destruct k as [n p], k' as [n' p']. intros [Hn Hp] [Hn' Hp'] Heq. cbn in *.
  assert (Hu : ∀ m, Z.of_nat m ≤ u64_max → is_u64 (Z.of_nat m)) by (intros m ?; split; [lia|done]).
  apply append_inj_r in Heq. apply (append_inj_r "/chunk-") in Heq.
  apply decimal_pair_inj in Heq as [Hnn ->]; auto. f_equal. lia.
Qed.

Section invariant.
Context `{HKdf : Kdf, Me : Sealing.Memory, HCodec : Codec, HDisk : Disk, HEncode : Encode, HAead : Aead}.
Context (Hdigest : CodecLaws) (base : string).

(** What the reservation gives: in particular the sizes are those of [u64]s. *)
Definition sized (j : UploadJob) : Prop :=
  Z.of_nat (length (items j)) ≤ u64_max ∧ Forall (λ i, is_u64 (source_bytes (source i))) (items j) ∧
  0 ≤ chunk_bytes j.

Definition intact (fs : gmap string (list Z)) (c : Chunk) : Prop :=
  ∃ b, fs !! artifact c = Some b ∧ zlen b = ciphertext_bytes c ∧ sha256_hex b = checksum c.

(** The chunk being encrypted is one the job lacks. *)
Definition lacks (j : UploadJob) (k : nat * Z) : Prop :=
  in_range k ∧ ∃ i n, items j !! fst k = Some i ∧ chunk_count (source_bytes (source i)) (chunk_bytes j) = Ok n ∧
    0 ≤ snd k < n ∧ k ∉ chunk_key <$> chunks j.

(** The saved job, its artifacts, and what was ever stored for its chunks. *)
Record disk_ok (s : State) (e : gmap (nat * Z) (list Z)) : Prop := {
  ok_valid : validate_job (saved s) = Ok ();
  ok_sized : sized (saved s);
  ok_done : done_bytes (saved s) = completed_bytes (chunks (saved s));
  ok_named : Forall (λ c, in_range (chunk_key c) ∧
    artifact c = artifact_path base (chunk_item c) (position c)) (chunks (saved s));
  ok_intact : Forall (λ c, complete c = false → intact (files s) c) (chunks (saved s));
  ok_stored : ∀ k b, in_range k → files s !! artifact_path base (fst k) (snd k) = Some b → e !! k = Some b;
  ok_kept : ∀ k b, e !! k = Some b →
    files s !! artifact_path base (fst k) (snd k) = Some b ∨ k ∈ chunk_key <$> chunks (saved s);
  ok_keys : ∀ k b, e !! k = Some b → in_range k;
  ok_final : state (saved s) ∈ ["finalizing"; "complete"] →
    (∀ k, ¬ lacks (saved s) k) ∧ Forall (λ c, complete c = true) (chunks (saved s)) }.

(** The requests in flight are those of different incomplete chunks. *)
Definition pending (j : UploadJob) (n : nat) : Prop := ∃ c, chunks j !! n = Some c ∧ complete c = false.

Definition run_ok (r : Run) : Prop :=
  disk_ok (disk r) (emitted r) ∧
  match mode r with
  | Stopped => True
  | Running _ active producer => state (saved (disk r)) ≠ "complete"%string ∧
      NoDup active ∧ Forall (pending (saved (disk r))) active ∧
      match producer with Some k => lacks (saved (disk r)) k | None => True end
  end.

(** Two jobs with the same chunks, up to completion. *)
Record advances (s s' : State) : Prop := {
  adv_items : items (saved s') = items (saved s);
  adv_chunk_bytes : chunk_bytes (saved s') = chunk_bytes (saved s);
  adv_state : state (saved s') = state (saved s);
  adv_chunks : Forall2 same_chunk (chunks (saved s)) (chunks (saved s'));
  adv_valid : validate_job (saved s) = Ok () → validate_job (saved s') = Ok ();
  adv_done : done_bytes (saved s) = completed_bytes (chunks (saved s)) →
    done_bytes (saved s') = completed_bytes (chunks (saved s')) }.

Lemma same_keys cs cs' : Forall2 same_chunk cs cs' → chunk_key <$> cs' = chunk_key <$> cs.
Proof.
  induction 1 as [|c c' cs cs' (E1 & _ & E3 & _) _ IH]; [done|]. rewrite !fmap_cons, IH.
  unfold chunk_key. by rewrite E1, E3.
Qed.

#[local] Instance same_chunk_trans : Transitive same_chunk.
Proof. intros c1 c2 c3. unfold same_chunk. intuition congruence. Qed.

#[local] Instance advances_refl : Reflexive advances.
Proof. intros s. split; try done. Qed.
#[local] Instance advances_trans : Transitive advances.
Proof.
  intros s1 s2 s3 [I1 B1 T1 C1 V1 D1] [I2 B2 T2 C2 V2 D2]. split; [congruence..| |by auto|by auto].
  by transitivity (chunks (saved s2)).
Qed.

(** Files only disappear, and only those of chunks complete in the saved job. *)
Definition removes (s s' : State) : Prop :=
  ∀ p b, files s !! p = Some b → files s' !! p = Some b ∨
    ∃ c, c ∈ chunks (saved s') ∧ complete c = true ∧ artifact c = p.
Definition adds_no_file (s s' : State) : Prop := ∀ p b, files s' !! p = Some b → files s !! p = Some b.

Lemma advances_lacks s s' k : advances s s' → lacks (saved s) k ↔ lacks (saved s') k.
Proof. intros [Hi Hb _ Hc _ _]. unfold lacks. by rewrite Hi, Hb, (same_keys _ _ Hc). Qed.

Lemma disk_ok_advance s s' e :
  advances s s' → removes s s' → adds_no_file s s' → disk_ok s e → disk_ok s' e.
Proof.
  intros A Hr Ha [Kv Ks Kd Kn Ki Kst Kk Kr Kf]. pose proof A as [Hi Hb Ht Hc Hv Hd].
  assert (Hn' : Forall (λ c, in_range (chunk_key c) ∧
    artifact c = artifact_path base (chunk_item c) (position c)) (chunks (saved s'))).
  { clear - Hc Kn. induction Hc as [|c c' cs cs' (E1 & _ & E3 & _ & _ & _ & E7 & _) _ IH]; [done|].
    apply Forall_cons in Kn as [Kc Kn]. constructor; [|by apply IH]. unfold chunk_key in *. by rewrite E1, E3, E7. }
  split; [by auto|unfold sized; by rewrite Hi, Hb|by auto|done| | | |done|].
  - apply Forall_forall. intros c' Hc' Hcomp. apply list_elem_of_lookup in Hc' as [m Hm].
    destruct (Forall2_lookup_r _ _ _ _ _ Hc Hm) as (c & Hmc & E1 & E2 & E3 & E4 & E5 & E6 & E7 & E8).
    assert (Hcc : complete c = false).
    { destruct (complete c) eqn:E; [|done]. by rewrite E8 in Hcomp. }
    rewrite Forall_forall in Ki. destruct (Ki c (list_elem_of_lookup_2 _ _ _ Hmc) Hcc) as (b & Hb1 & Hb2 & Hb3).
    exists b. rewrite E5, E6, E7. split_and!; [|done|done].
    destruct (Hr _ _ Hb1) as [?|(c2 & Hin2 & Hcomp2 & Hart2)]; [done|]. exfalso.
    rewrite Forall_forall in Hn'. destruct (Hn' c2 Hin2) as [R2 N2].
    destruct (Hn' c' (list_elem_of_lookup_2 _ _ _ Hm)) as [R1 N1].
    assert (Heq : chunk_key c2 = chunk_key c').
    { apply (artifact_path_inj base); [done..|]. cbn. by rewrite <- N1, <- N2, E7. }
    apply Hv in Kv. apply validate_job_Ok in Kv as (_ & _ & _ & _ & _ & Hnd).
    assert (c2 = c') as -> by (apply (NoDup_fmap_inj chunk_key (chunks (saved s'))); try done; by eapply list_elem_of_lookup_2).
    congruence.
  - intros k b Hk Hf. by apply Kst, Ha.
  - intros k b Hk. rewrite (same_keys _ _ Hc). destruct (Kk k b Hk) as [Hf|?]; [|by right].
    destruct (Hr _ _ Hf) as [?|(c & Hin & Hcomp & Hart)]; [by left|right].
    rewrite Forall_forall in Hn'. destruct (Hn' c Hin) as [R N].
    assert (k = chunk_key c) as ->.
    { apply (artifact_path_inj base); [by eapply Kr|done|]. cbn. by rewrite <- N. }
    rewrite <- (same_keys _ _ Hc). by apply list_elem_of_fmap_2.
  - rewrite Ht. intros Hs. destruct (Kf Hs) as [Hno Hall]. split.
    + intros k Hl. apply (Hno k). by apply (advances_lacks s s').
    + clear - Hc Hall. induction Hc as [|c c' cs cs' Hs _ IH]; [done|]. apply Forall_cons in Hall as [Hh Hall].
      constructor; [by apply Hs|by apply IH].
Qed.

(** ** The operations keep the invariant *)

Lemma disk_ok_job s s' e :
  chunks (saved s') = chunks (saved s) → files s' = files s → validate_job (saved s') = Ok () →
  sized (saved s') → done_bytes (saved s') = done_bytes (saved s) →
  (state (saved s') ∈ ["finalizing"; "complete"] →
     (∀ k, ¬ lacks (saved s') k) ∧ Forall (λ c, complete c = true) (chunks (saved s'))) →
  disk_ok s e → disk_ok s' e.
Proof.
  intros Hc Hf Hv Hs Hd Hl [Kv Ks Kd Kn Ki Kst Kk Kr Kf]. rewrite Hc in Hl. split; rewrite ?Hc, ?Hf; try done. by rewrite Hd.
Qed.

Lemma disk_ok_tick s e : disk_ok s e → disk_ok (tick s) e.
Proof. intros K. apply (disk_ok_job s); try done; apply K. Qed.

Lemma upload_save_run j s s' r :
  save j s = (s', r) →
  (saved s' = saved s ∧ r = Err "I/O error"%string ∨ saved s' = j) ∧ files s' = files s ∧
  (r = Ok () → saved s' = j).
Proof.
  intros Hr. unfold save, effect in Hr.
  apply bind_run in Hr as [(e & [= <- He] & ->)|(s1 & [] & [= <- _] & Hr)].
  { split_and!; [left; split; [done|]|done|done]. destruct (disk_fault _); [by injection He as <-|done]. }
  apply bind_run in Hr as [(e & [=] & _)|(s1 & [] & [= <-] & Hr)]. injection Hr as <- <-.
  split_and!; [by right|done|done].
Qed.

Lemma remove_sidecar_run n s s' r :
  remove_sidecar n s = (s', r) → saved s' = saved s ∧ files s' = files s.
Proof. by intros [[-> _]| ->]%effect_run. Qed.

Lemma remove_sidecars_run l s s' r :
  remove_sidecars l s = (s', r) → saved s' = saved s ∧ files s' = files s.
Proof.
  revert s. induction l as [|n l IH]; intros s Hr; cbn [remove_sidecars] in Hr; [by injection Hr as <- _|].
  apply bind_run in Hr as [(e & Hm & _)|(s1 & [] & Hm & Hr)]; apply remove_sidecar_run in Hm as [H1 H2]; [done|].
  apply IH in Hr as [H3 H4]. split; congruence.
Qed.

Lemma set_stage_same st c : same_chunk c (set_stage st c).
Proof. by unfold same_chunk. Qed.

(** A save that only completes chunks. *)
Definition completes (j j' : UploadJob) : Prop :=
  items j' = items j ∧ chunk_bytes j' = chunk_bytes j ∧ state j' = state j ∧ Forall2 same_chunk (chunks j) (chunks j') ∧
  (validate_job j = Ok () → validate_job j' = Ok ()) ∧
  (done_bytes j = completed_bytes (chunks j) → done_bytes j' = completed_bytes (chunks j')).

Lemma save_advances j s s' r :
  completes (saved s) j → save j s = (s', r) →
  advances s s' ∧ files s' = files s ∧ (r = Ok () → saved s' = j).
Proof.
  intros (H1 & H2 & H3 & H4 & H5 & H6) ([[Hs _]|Hs] & Hf & Hok)%upload_save_run; (split_and!; [|done|done]).
  - by split; rewrite ?Hs.
  - by split; rewrite ?Hs.
Qed.

Lemma completes_chunks j cs :
  Forall2 same_chunk (chunks j) cs → completes j (set_chunks cs (completed_bytes cs) j).
Proof. intros Hcs. split_and!; try done. intros Hv. by apply validate_set_chunks. Qed.

Lemma same_saved_advances s s' : saved s' = saved s → advances s s'.
Proof. intros Hs. by split; rewrite ?Hs. Qed.

Lemma chunk_sent_run n c st s s' r :
  chunks (saved s) !! n = Some c → chunk_sent n (set_stage st c) (saved s) s = (s', r) →
  advances s s' ∧ removes s s' ∧ adds_no_file s s' ∧
  ∀ j, r = Ok j → chunks (saved s') = <[n := set_complete st (set_stage st c)]> (chunks (saved s)).
Proof.
  intros Hn Hr. unfold chunk_sent in Hr.
  set (c' := set_complete (stage (set_stage st c)) (set_stage st c)) in *.
  assert (Hcs : Forall2 same_chunk (chunks (saved s)) (<[n := c']> (chunks (saved s)))).
  { apply Forall2_same_length_lookup. split; [by rewrite length_insert|]. intros m x y Hx Hy.
    destruct (decide (m = n)) as [->|Hne].
    - rewrite list_lookup_insert_eq in Hy by (by apply lookup_lt_Some in Hn). injection Hy as <-.
      assert (x = c) as -> by congruence. transitivity (set_stage st c); [apply set_stage_same|apply set_complete_same].
    - rewrite list_lookup_insert_ne in Hy by done. assert (x = y) as -> by congruence. reflexivity. }
  apply bind_run in Hr as [(e & Hm & ->)|(s1 & [] & Hm & Hr)];
    apply save_advances in Hm as (A1 & F1 & S1); try by apply completes_chunks.
  { split_and!; [done|intros p b Hp; left; congruence|intros p b; by rewrite F1|done]. }
  specialize (S1 eq_refl).
  assert (Hin : c' ∈ chunks (saved s1)).
  { rewrite S1. apply list_elem_of_lookup. exists n. apply list_lookup_insert_eq. by apply lookup_lt_Some in Hn. }
  apply bind_run in Hr as [(e & Hm & ->)|(s2 & [] & Hm & Hr)]; apply remove_sidecar_run in Hm as [S2 F2].
  { split_and!; [transitivity s1; [done|by apply same_saved_advances]|intros p b Hp; left; congruence| |done].
    intros p b. by rewrite F2, F1. }
  apply bind_run in Hr as [(e & Hm & _)|(s3 & x & Hm & Hr)]; apply attempt_run in Hm as (y & Hm & Hy); [done|].
  injection Hr as <- _. apply remove_file_run in Hm as [S3 F3]. split_and!; [| | |intros j _; by rewrite S3, S2, S1].
  - transitivity s1; [done|]. apply same_saved_advances. congruence.
  - intros p b Hp. rewrite S3, S2. destruct (decide (files s3 !! p = Some b)) as [|Hne]; [by left|right].
    exists c'. split_and!; [done|done|]. symmetry. apply (removed_only _ _ _ _ F3). by rewrite F2, F1, Hp.
  - intros p b. rewrite <- F1, <- F2. destruct F3 as [->| ->]; [done|]. by intros [_ ?]%lookup_delete_Some.
Qed.

Lemma validate_set_descriptor j d pub :
  validate_job j = Ok () → validate_job (set_descriptor (Some d) pub j) = Ok ().
Proof.
  unfold validate_job. intros Hv. guards Hv.
  assert (Hh : bad_header (set_descriptor (Some d) pub j) = false).
  { unfold bad_header in *. rewrite !orb_false_iff in *. destruct_and!. split_and!; try done.
    cbn [encrypted_descriptor set_descriptor]. by rewrite bool_decide_false, andb_false_r. }
  rewrite Hh. change (bad_secrets (set_descriptor (Some d) pub j)) with (bad_secrets j). by match goal with Hs : bad_secrets _ = false |- _ => rewrite Hs end.
Qed.

Lemma completes_descriptor j d b : completes j (set_descriptor (Some d) b j).
Proof. split_and!; try done. apply validate_set_descriptor. Qed.

(** Advancing without touching a file. *)
Definition quiet (s s' : State) : Prop := advances s s' ∧ files s' = files s.

#[local] Instance quiet_refl : Reflexive quiet.
Proof. intros s. by split. Qed.
#[local] Instance quiet_trans : Transitive quiet.
Proof. intros s1 s2 s3 [A1 F1] [A2 F2]. split; [by transitivity s2|congruence]. Qed.

Lemma silent_save j s s' r : completes (saved s) j → save j s = (s', r) → quiet s s' ∧ (r = Ok () → saved s' = j).
Proof. intros Hj Hr. apply save_advances in Hr as (A & F & S); [|done]. done. Qed.

Lemma quiet_ok s s' e : quiet s s' → disk_ok s e → disk_ok s' e.
Proof.
  intros [A F]. apply disk_ok_advance; [done|intros p b; rewrite F; by left|intros p b; by rewrite F].
Qed.

Lemma publish_descriptor_run d p s s' r :
  publish_descriptor d p (saved s) s = (s', r) →
  quiet s s' ∧ (∀ j, r = Ok j → saved s' = j).
Proof.
  unfold publish_descriptor. intros Hr.
  destruct (turbo (saved s) && _); [|injection Hr as <- <-; split; [reflexivity|by intros j [= <-]]].
  apply bind_run in Hr as [(e & Hm & ->)|(s1 & j1 & Hm & Hr)].
  - split; [|done]. destruct (encrypted_descriptor (saved s)); [done|].
    apply bind_run in Hm as [(x & [= <- _] & _)|(s2 & d' & [= <- _] & Hm)]; [reflexivity|].
    apply bind_run in Hm as [(x & Hm & _)|(s3 & [] & Hm & [=])].
    by apply silent_save in Hm as [Q _]; [|apply completes_descriptor].
  - assert (H1 : quiet s s1 ∧ saved s1 = j1 ∧ is_Some (encrypted_descriptor j1)).
    { destruct (encrypted_descriptor (saved s)) as [d0|] eqn:Ed.
      - injection Hm as <- <-. split_and!; [reflexivity|done|by rewrite Ed].
      - apply bind_run in Hm as [(x & _ & [=])|(s2 & d' & [= <- _] & Hm)].
        apply bind_run in Hm as [(x & _ & [=])|(s3 & [] & Hm & Hret)]. injection Hret as <- <-.
        apply silent_save in Hm as [Q S]; [|apply completes_descriptor]. split_and!; [done|by apply S|by eexists]. }
    destruct H1 as (Q1 & S1 & [d1 Hd1]).
    apply bind_run in Hr as [(x & [= <- _] & ->)|(s2 & [] & [= <- _] & Hr)]; [done|].
    rewrite Hd1 in Hr. assert (Hc : completes (saved s1) (set_descriptor (Some d1) true j1)) by (rewrite S1; apply completes_descriptor).
    apply bind_run in Hr as [(x & Hm2 & ->)|(s3 & [] & Hm2 & Hr)]; apply silent_save in Hm2 as [Q2 S2]; try done.
    + split; [by transitivity s1|done].
    + injection Hr as <- <-. split; [by transitivity s1|]. intros j [= <-]. by apply S2.
Qed.

Lemma reconcile_saved_run replies s s' r :
  validate_job (saved s) = Ok () →
  reconcile_saved replies (saved s) s = (s', r) → quiet s s' ∧ (∀ j, r = Ok j → saved s' = j).
Proof.
  unfold reconcile_saved. intros Hv Hr.
  destruct (_ && _); [|injection Hr as <- <-; split; [reflexivity|by intros j [= <-]]].
  apply bind_run in Hr as [(e & [= <- _] & ->)|(s1 & j1 & [= <- Hj] & Hr)]; [by split; [reflexivity|]|].
  assert (Hc : completes (saved s) j1).
  { destruct (reconcile_run _ _ _ Hv Hj) as (Hv1 & Hd1 & Hs1 & _). split_and!; try done.
    - unfold reconcile in Hj. destruct (read_ledger _ _ _ _ _ _) as [[]|]; [|done]. by injection Hj as <-.
    - unfold reconcile in Hj. destruct (read_ledger _ _ _ _ _ _) as [[]|]; [|done]. by injection Hj as <-.
    - unfold reconcile in Hj. destruct (read_ledger _ _ _ _ _ _) as [[]|]; [|done]. by injection Hj as <-. }
  apply bind_run in Hr as [(e & Hm & ->)|(s2 & [] & Hm & Hr)]; apply silent_save in Hm as [Q2 S2]; try done.
  apply bind_run in Hr as [(e & Hm & ->)|(s3 & [] & Hm & Hr)]; apply remove_sidecars_run in Hm as [S3 F3].
  - split; [|done]. transitivity s2; [done|]. split; [by apply same_saved_advances|done].
  - injection Hr as <- <-. split; [transitivity s2; [done|]; split; [by apply same_saved_advances|done]|].
    intros j [= <-]. rewrite S3. by apply S2.
Qed.

Lemma reopen_run o s s' r :
  reopen o s = (s', r) →
  quiet s s' ∧ (∀ j master, r = Ok (j, master) →
    saved s' = j ∧ validate_job j = Ok () ∧ unlock (password o) (saved s) = Ok master).
Proof.
  unfold reopen. intros Hr.
  apply bind_run in Hr as [(e & [=] & _)|(s1 & j & [= <- <-] & Hr)].
  apply bind_run in Hr as [(e & [= <- _] & ->)|(s1 & [] & [= <- Hv] & Hr)]; [by split; [reflexivity|]|].
  apply bind_run in Hr as [(e & [= <- _] & ->)|(s1 & key & [= <- Hkey] & Hr)]; [by split; [reflexivity|]|].
  apply bind_run in Hr as [(e & [= <- _] & ->)|(s1 & fully & [= <- _] & Hr)]; [by split; [reflexivity|]|].
  apply bind_run in Hr as [(e & Hm & ->)|(s1 & [] & Hm & Hr)];
    [destruct fully; injection Hm as <- _; by split; [reflexivity|]|].
  assert (s1 = s) as -> by (destruct fully; by injection Hm as <-).
  apply bind_run in Hr as [(e & [= <- _] & ->)|(s1 & t & [= <- _] & Hr)]; [by split; [reflexivity|]|].
  apply bind_run in Hr as [(e & [= <- _] & ->)|(s1 & u & [= <- _] & Hr)]; [by split; [reflexivity|]|].
  apply bind_run in Hr as [(e & Hm2 & ->)|(s1 & j1 & Hm2 & Hr)]; apply publish_descriptor_run in Hm2 as [Q1 S1]; [by split|].
  specialize (S1 j1 eq_refl). rewrite <- S1 in Hr.
  assert (Hv1 : validate_job (saved s1) = Ok ()) by (by apply Q1).
  apply bind_run in Hr as [(e & Hm3 & ->)|(s2 & j2 & Hm3 & Hr)]; (apply reconcile_saved_run in Hm3 as [Q2 S2]; [|done]).
  { split; [by transitivity s1|done]. }
  injection Hr as <- <-. split; [by transitivity s1|]. intros j master [= <- <-]. specialize (S2 j2 eq_refl).
  split_and!; [done| |done]. rewrite <- S2. by apply Q2.
Qed.

(** ** The next chunk to prepare *)

Lemma has_chunk_spec cs n pos : has_chunk cs n pos = true ↔ (n, pos) ∈ chunk_key <$> cs.
Proof.
  unfold has_chunk. rewrite existsb_exists, list_elem_of_fmap. split.
  - intros (c & Hc & Hk). bool_prop. exists c. by rewrite list_elem_of_In.
  - intros (c & Hk & Hc). exists c. rewrite <- list_elem_of_In. split; [done|]. by apply bool_decide_eq_true.
Qed.

Lemma chunk_count_u64 b cb n : is_u64 b → 0 ≤ cb → chunk_count b cb = Ok n → 1 ≤ n ≤ u64_max.
Proof.
  unfold chunk_count. intros [Hb Hb'] Hcb Hn. guards Hn. bool_prop. injection Hn as <-.
  pose proof (div_ceil_lower b cb ltac:(lia)). unfold u64_max in *. nia.
Qed.

Lemma next_missing_spec cs cb n l r :
  next_missing cs cb n l = Ok r →
  match r with
  | Some k => ∃ m i count, (n ≤ fst k)%nat ∧ fst k = (n + m)%nat ∧ l !! m = Some i ∧
      chunk_count (source_bytes (source i)) cb = Ok count ∧ 0 ≤ snd k < count ∧ k ∉ chunk_key <$> cs
  | None => ∀ m i count pos, l !! m = Some i → chunk_count (source_bytes (source i)) cb = Ok count →
      0 ≤ pos < count → ((n + m)%nat, pos) ∈ chunk_key <$> cs
  end.
Proof.
  revert n. induction l as [|i l IH]; intros n Hr; cbn [next_missing] in Hr; [by injection Hr as <-|].
  destruct (chunk_count _ cb) as [count|e] eqn:Ec; [|done]. cbn [mbind result_bind] in Hr.
  destruct (list_find _ _) as [[x pos]|] eqn:Ef.
  - injection Hr as <-. apply list_find_Some in Ef as (Hx & Hh & _).
    apply list_elem_of_lookup_2, elem_of_seqZ in Hx. exists 0%nat, i, count. cbn.
    split_and!; [lia|lia|done|done|lia|lia|]. rewrite <- has_chunk_spec. by rewrite Hh.
  - apply list_find_None in Ef. rewrite Forall_forall in Ef. apply IH in Hr. destruct r as [k|].
    + destruct Hr as (m & i' & c' & Hle & Hk & Hx). exists (S m), i', c'. cbn. split_and!; [lia|lia|apply Hx..].
    + intros [|m] i' c' pos Hi' Hc' Hpos.
      * injection Hi' as <-. assert (c' = count) as -> by congruence. rewrite Nat.add_0_r.
        apply has_chunk_spec. apply not_false_is_true. apply Ef. rewrite elem_of_seqZ. lia.
      * replace (n + S m)%nat with (S n + m)%nat by lia. by eapply Hr.
Qed.

Lemma valid_chunk_bytes j : validate_job j = Ok () → 0 ≤ chunk_bytes j → 0 < chunk_bytes j ≤ MAX_CHUNK_BYTES.
Proof.
  intros (Hh & _)%validate_job_Ok Hc. unfold bad_header in Hh. rewrite !orb_false_iff in Hh.
  destruct_and!. bool_prop. lia.
Qed.

Lemma next_missing_chunk_spec j r :
  sized j → next_missing_chunk j = Ok r →
  match r with Some k => lacks j k | None => ∀ k, ¬ lacks j k end.
Proof.
  intros (Hl & Hs & Hb) Hr. apply next_missing_spec in Hr. destruct r as [[n pos]|].
  - destruct Hr as (m & i & count & _ & Hn & Hi & Hc & Hpos & Hin). cbn in *. subst n.
    split; [|exists i, count; done]. rewrite Forall_forall in Hs.
    pose proof (chunk_count_u64 _ _ _ (Hs i (list_elem_of_lookup_2 _ _ _ Hi)) Hb Hc).
    apply lookup_lt_Some in Hi. split; cbn; [lia|]. split; lia.
  - intros [n pos] (_ & i & count & Hi & Hc & Hpos & Hin). cbn in *. apply Hin. by eapply (Hr n).
Qed.

(** ** Storing a prepared chunk *)

Definition prepared_for (j : UploadJob) (p : PreparedCiphertext) (i : Item) : Prop :=
  items j !! prep_item p = Some i ∧
  prep_plaintext_bytes p = expected_plaintext i (chunk_bytes j) (prep_position p) ∧
  zlen (ciphertext p) = prep_plaintext_bytes p + TAG_BYTES.

Lemma chunk_ok_new j p i :
  validate_job j = Ok () → 0 ≤ chunk_bytes j → lacks j (prep_item p, prep_position p) → prepared_for j p i →
  chunk_ok (items j) (chunk_bytes j) (new_chunk base j p i).
Proof.
  intros Hv Hb (_ & i' & n & Hi' & Hn & Hpos & _) (Hi & Hp & Hc). cbn in *.
  assert (i' = i) as -> by congruence. exists i, n. cbn. split_and!; try done; [lia|..].
  - pose proof (valid_chunk_bytes j Hv Hb). rewrite Hp. unfold expected_plaintext, TAG_BYTES, u64_max, MAX_CHUNK_BYTES in *. lia.
  - pose proof (sha256_digest (ciphertext p)) as Hd. unfold is_digest in Hd. bool_prop. done.
Qed.

Lemma validate_push j c d :
  validate_job j = Ok () → state j ≠ "finalizing"%string → chunk_ok (items j) (chunk_bytes j) c →
  chunk_key c ∉ chunk_key <$> chunks j → validate_job (set_chunks (chunks j ++ [c]) d j) = Ok ().
Proof.
  intros Hv Hst Hc Hk. pose proof (validate_job_Ok _ Hv) as (_ & _ & _ & _ & Hf & Hnd).
  unfold validate_job in *. guards Hv.
  destruct (check_items (chunk_bytes j) 0 [] (items j)) as [[]|] eqn:Ei; [|done].
  assert (Hh : bad_header (set_chunks (chunks j ++ [c]) d j) = false).
  { unfold bad_header in *. rewrite !orb_false_iff in *. destruct_and!. split_and!; try done.
    cbn [state set_chunks update]. by rewrite (proj2 (String.eqb_neq _ _) Hst). }
  rewrite Hh. change (bad_secrets (set_chunks _ d j)) with (bad_secrets j).
  match goal with Hs : bad_secrets _ = false |- _ => rewrite Hs end.
  cbn [set_chunks update chunk_bytes items chunks]. rewrite Ei. cbn [mbind result_bind].
  apply check_chunks_Ok. split_and!; [by apply Forall_app; split; [|constructor]| |set_solver].
  rewrite fmap_app, NoDup_app. split_and!; [done| |by apply NoDup_singleton].
  intros k Hin Hin2. apply list_elem_of_singleton in Hin2 as ->. done.
Qed.

Lemma completed_push cs c : complete c = false → completed_bytes (cs ++ [c]) = completed_bytes cs.
Proof.
  intros Hc. unfold completed_bytes. rewrite filter_app, filter_cons_False by congruence. by rewrite filter_nil, app_nil_r.
Qed.

(** Once its artifact is stored, recording the chunk keeps the invariant. *)
Lemma disk_ok_push s s' e p i :
  disk_ok s e → lacks (saved s) (prep_item p, prep_position p) → prepared_for (saved s) p i →
  files s !! artifact_path base (prep_item p) (prep_position p) = Some (ciphertext p) →
  saved s' = set_chunks (chunks (saved s) ++ [new_chunk base (saved s) p i]) (done_bytes (saved s)) (saved s) →
  files s' = files s → disk_ok s' e.
Proof.
  intros K Hl Hp Hf Hs' Hf'. destruct K as [Kv Ks Kd Kn Ki Kst Kk Kr Kf].
  assert (Hst : state (saved s) ∉ ["finalizing"; "complete"]) by (intros E; by apply (proj1 (Kf E) _ Hl)).
  assert (Hb : 0 ≤ chunk_bytes (saved s)) by apply Ks.
  pose proof (chunk_ok_new _ _ _ Kv Hb Hl Hp) as Hok.
  destruct Hl as (Hr & i' & n & Hx). set (c := new_chunk base (saved s) p i) in *.
  split; rewrite ?Hs', ?Hf'; cbn [set_chunks update done_bytes chunks].
  - apply validate_push; try done; [set_solver|]. apply Hx.
  - done.
  - rewrite completed_push by done. done.
  - apply Forall_app. split; [done|]. constructor; [|done]. done.
  - apply Forall_app. split; [done|]. constructor; [|done]. intros _. exists (ciphertext p). done.
  - done.
  - intros k b Hk. destruct (Kk k b Hk) as [?|Hin]; [by left|right]. rewrite fmap_app. set_solver.
  - done.
  - cbn [state]. done.
Qed.

Lemma disk_ok_record s e k : in_range k → disk_ok s e → disk_ok s (record base k s e) ∧ e ⊆ record base k s e.
Proof.
  intros Hk K. unfold record. destruct (files s !! _) as [c|] eqn:Ef; [|done].
  rewrite insert_id by (by apply (ok_stored _ _ K)). done.
Qed.

(** A stored artifact enters the history. *)
Lemma disk_ok_stored s s' e k c :
  disk_ok s e → lacks (saved s) k → files s !! artifact_path base (fst k) (snd k) = None →
  saved s' = saved s → files s' = <[artifact_path base (fst k) (snd k) := c]> (files s) →
  disk_ok s' (<[k := c]> e) ∧ e ⊆ <[k := c]> e.
Proof.
  intros [Kv Ks Kd Kn Ki Kst Kk Kr Kf] Hl Hnone Hs Hf.
  assert (Hek : e !! k = None).
  { destruct (e !! k) as [b|] eqn:E; [|done]. destruct (Kk k b E) as [?|Hin]; [congruence|].
    by destruct Hl as (_ & i & n & _ & _ & _ & Hni). }
  split; [|by apply insert_subseteq].
  split; rewrite ?Hs, ?Hf; try done.
  - apply Forall_forall. intros c' Hc' Hcomp. rewrite Forall_forall in Ki.
    destruct (Ki c' Hc' Hcomp) as (b & Hb & Hx). exists b. split; [|done].
    rewrite lookup_insert_ne; [done|]. intros E. congruence.
  - intros k' b Hk' Hb. destruct (decide (k' = k)) as [->|Hne].
    + rewrite lookup_insert_eq in Hb. injection Hb as <-. by rewrite lookup_insert_eq.
    + rewrite lookup_insert_ne by done. apply Kst; [done|].
      rewrite lookup_insert_ne in Hb; [done|]. intros E. apply Hne.
      apply (artifact_path_inj base); [done|apply Hl|done].
  - intros k' b Hk'. destruct (decide (k' = k)) as [->|Hne].
    + rewrite lookup_insert_eq in Hk'. injection Hk' as <-. left. by rewrite lookup_insert_eq.
    + rewrite lookup_insert_ne in Hk' by done. destruct (Kk k' b Hk') as [Hb|?]; [left|by right].
      rewrite lookup_insert_ne; [done|]. congruence.
  - intros k' b Hk'. destruct (decide (k' = k)) as [->|Hne]; [apply Hl|].
    rewrite lookup_insert_ne in Hk' by done. by eapply Kr.
Qed.

Lemma store_prepared_run p i s s' e r :
  disk_ok s e → lacks (saved s) (prep_item p, prep_position p) → prepared_for (saved s) p i →
  store_prepared base p (saved s) s = (s', r) →
  let k := (prep_item p, prep_position p) in
  disk_ok s' (record base k s' e) ∧ e ⊆ record base k s' e ∧
  (∀ j, r = Ok j → saved s' = j ∧ j = set_chunks (chunks (saved s) ++ [new_chunk base (saved s) p i]) (done_bytes (saved s)) (saved s) ∧
     files s' !! artifact_path base (prep_item p) (prep_position p) = Some (ciphertext p)).
Proof.
  intros K Hl Hp Hr k. unfold store_prepared in Hr.
  set (path := artifact_path base (prep_item p) (prep_position p)) in *.
  apply bind_run in Hr as [(x & [=] & _)|(s1 & orphan & [= <- <-] & Hr)].
  assert (Hk : in_range k) by apply Hl.
  (* the artifact *)
  assert (Hart : ∀ s1 (x : result string ()),
    (match files s !! path with
     | Some _ => existing ← read_file path "read"; if bool_decide (existing = ciphertext p) then mret () else fail "orphaned ciphertext conflicts with the verified source"%string
     | None => effect (λ s, {| saved := saved s; files := <[path := ciphertext p]> (files s); sidecars := sidecars s; clock := clock s |})
     end) s = (s1, x) →
    saved s1 = saved s ∧ disk_ok s1 (record base k s1 e) ∧ e ⊆ record base k s1 e ∧
    (x = Ok () → files s1 !! path = Some (ciphertext p))).
  { intros t x Ht. destruct (files s !! path) as [b|] eqn:Ef.
    - assert (Hq : saved t = saved s ∧ files t = files s ∧ (x = Ok () → b = ciphertext p)).
      { apply bind_run in Ht as [(y & Hm & ->)|(s2 & b' & Hm & Ht)]; apply read_file_run in Hm as (S2 & F2 & Hb'); [done|].
        specialize (Hb' b' eq_refl). case_bool_decide; injection Ht as <- <-; split_and!; try done. intros _. congruence. }
      destruct Hq as (Hs & Hf & Hx).
      assert (Kt : disk_ok t e).
      { apply (disk_ok_job s); rewrite ?Hs, ?Hf; try done; apply K. }
      destruct (disk_ok_record t e k Hk Kt). split_and!; try done. intros ->. rewrite Hf, Ef. by rewrite Hx.
    - apply effect_run in Ht as Hor. destruct Hor as [[-> ->]| ->].
      + assert (Kt : disk_ok (tick s) e).
        { apply (disk_ok_job s); try done; apply K. }
        destruct (disk_ok_record (tick s) e k Hk Kt). done.
      + set (t := tick _). destruct (disk_ok_stored s t e k (ciphertext p)) as [K1 Hsub]; try done.
        assert (Hrec : record base k t e = <[k := ciphertext p]> e).
        { unfold record. cbn [fst snd k]. cbn [files t tick]. by rewrite lookup_insert_eq. }
        rewrite Hrec. split_and!; try done. intros _. cbn. by rewrite lookup_insert_eq. }
  apply bind_run in Hr as [(x & Hm & ->)|(s1 & [] & Hm & Hr)]; pose proof (Hart _ _ Hm) as (S1 & K1 & Sub1 & F1); [done|].
  specialize (F1 eq_refl). destruct Hp as (Hi & Hp).
  rewrite Hi in Hr. apply bind_run in Hr as [(x & [=] & _)|(s2 & i' & [= <- <-] & Hr)].
  assert (Hfin : ∀ t x, save (set_chunks (chunks (saved s) ++ [new_chunk base (saved s) p i]) (done_bytes (saved s)) (saved s)) s1 = (t, x) →
    disk_ok t (record base k t e) ∧ e ⊆ record base k t e ∧ files t !! path = Some (ciphertext p) ∧
    (x = Ok () → saved t = set_chunks (chunks (saved s) ++ [new_chunk base (saved s) p i]) (done_bytes (saved s)) (saved s))).
  { intros t x (Hsv & Hf & Hok)%upload_save_run.
    assert (Hrec : record base k t e = record base k s1 e) by (unfold record; by rewrite Hf).
    rewrite Hrec, Hf. split_and!; try done. destruct Hsv as [[Hsv _]|Hsv].
    - apply (disk_ok_job s1); rewrite ?Hsv; try done; apply K1.
    - apply (disk_ok_push s1 t _ p i); try done; rewrite ?S1; done. }
  apply bind_run in Hr as [(x & Hm2 & ->)|(s3 & [] & Hm2 & Hr)]; pose proof (Hfin _ _ Hm2) as (K3 & Sub3 & F3 & S3); [done|].
  injection Hr as <- <-. split_and!; [done|done|]. intros j [= <-]. split_and!; [by apply S3|done|done].
Qed.

(** ** The end of an upload *)

Lemma finalize_items_Ok cb l l' :
  finalize_items cb l = Ok l' →
  (source <$> l') = (source <$> l) ∧ (item_id <$> l') = (item_id <$> l) ∧
  (∀ index seen, check_items cb index seen l = Ok () → check_items cb index seen l' = Ok ()).
Proof.
  revert l'. induction l as [|i l IH]; intros l' Hl; cbn [finalize_items] in Hl; [by injection Hl as <-|].
  unfold finalize_item in Hl. destruct (chunk_count _ cb) as [n|e] eqn:En; [|done]. cbn [mbind result_bind] in Hl.
  destruct (finalize_items cb l) as [l2|e]; [|done]. cbn [mbind result_bind] in Hl. injection Hl as <-.
  destruct (IH l2 eq_refl) as (Hsrc & Hid & Hck). split_and!.
  - by rewrite !fmap_cons, Hsrc.
  - by rewrite !fmap_cons, Hid.
  - intros index seen Hc. cbn [check_items item_id item_position nonce_prefix item_digest source] in *.
    guards Hc. rewrite En in Hc. cbn [mbind result_bind] in Hc. guards Hc.
    rewrite !orb_false_iff in *. destruct_and!.
    match goal with |- (if ?b then _ else _) = _ => assert (b = false) as -> by (by rewrite !orb_false_iff) end.
    rewrite En. cbn [mbind result_bind].
    match goal with |- (if ?b then _ else _) = _ => assert (b = false) as -> by (by rewrite !orb_false_iff) end.
    by apply Hck.
Qed.

Lemma check_chunks_items l l' cb seen cs :
  (source <$> l') = (source <$> l) → (item_id <$> l') = (item_id <$> l) →
  check_chunks l' cb seen cs = check_chunks l cb seen cs.
Proof.
  intros Hs Hi. revert seen. induction cs as [|c cs IH]; intros seen; [done|]. cbn [check_chunks].
  pose proof (f_equal (lookup (chunk_item c)) Hs) as Hs'. rewrite !list_lookup_fmap in Hs'.
  pose proof (f_equal (lookup (chunk_item c)) Hi) as Hi'. rewrite !list_lookup_fmap in Hi'.
  destruct (l' !! chunk_item c) as [i'|], (l !! chunk_item c) as [i|]; try done.
  injection Hs' as Hs'. injection Hi' as Hi'. cbn [ok_or mbind result_bind].
  unfold expected_plaintext. rewrite Hs', Hi'. destruct (negb _); [done|].
  destruct (chunk_count _ _); [|done]. cbn [mbind result_bind]. destruct (_ || _); [done|].
  destruct (checked_add _ _); [|done]. cbn [ok_or mbind result_bind]. destruct (_ || _); [done|]. apply IH.
Qed.

(** ** What the producer hands over *)

Lemma read_exact_Ok file offset n l : read_exact file offset n = Ok l → zlen l = n.
Proof. unfold read_exact. destruct (_ =? n) eqn:E; [|done]. bool_prop. by intros [= <-]. Qed.

Lemma prepare_one_Ok now later s n id pos cb prefix key transfer p :
  prepare_one now later s n id pos cb prefix key transfer = Ok p →
  prep_item p = n ∧ prep_position p = pos ∧ ∃ plain,
    prep_plaintext_bytes p = zlen plain ∧ zlen plain = Z.min (saturating_sub (source_bytes s) (saturating_mul pos cb)) cb ∧
    chunk_digests s !! Z.to_nat pos = Some (sha256_hex plain) ∧
    encrypt_chunk key prefix (as_u32 pos) plain (aad transfer id pos) = Ok (ciphertext p).
Proof.
  unfold prepare_one. intros Hp.
  destruct (checked_mul pos cb) as [offset|] eqn:Em; [|done]. apply checked_mul_Some in Em as [-> Hm].
  cbn [ok_or mbind result_bind] in Hp.
  destruct (open_source now (spec s)) as [file|]; [|done]. cbn [mbind result_bind] in Hp.
  destruct (bounds (spec s)) as [start len]. guards Hp.
  destruct (checked_add start _) as [at_|]; [|done]. cbn [ok_or mbind result_bind] in Hp.
  destruct (read_exact _ _ _) as [plain|] eqn:Er; [|done]. cbn [context mbind result_bind] in Hp.
  apply read_exact_Ok in Er.
  destruct (chunk_digests s !! _) as [d|] eqn:Ed; [|done]. cbn [ok_or mbind result_bind] in Hp. guards Hp.
  destruct (source_metadata _ _) as [m|]; [|done]. cbn [mbind result_bind] in Hp. guards Hp.
  destruct (encrypt_chunk _ _ _ _ _) as [c|] eqn:Ec; [|done]. injection Hp as <-. cbn. bool_prop.
  split_and!; [done|done|]. exists plain. split_and!; [done| | |done].
  - rewrite Er. unfold saturating_mul. by rewrite (Z.min_l (pos * cb)).
  - congruence.
Qed.

Lemma prepare_one_prepared now later j i n pos prefix key transfer p :
  items j !! n = Some i →
  prepare_one now later (source i) n (item_id i) pos (chunk_bytes j) prefix key transfer = Ok p →
  prep_item p = n ∧ prep_position p = pos ∧ prepared_for j p i.
Proof.
  intros Hi (<- & <- & plain & Hl & Hz & _ & He)%prepare_one_Ok. split_and!; [done|done|].
  apply encrypt_at_index_Ok in He as (_ & _ & _ & _ & He). apply aead_length in He.
  split; [done|]. rewrite Hl. by split; [|].
Qed.

(** ** The jobs of the end are valid *)

Lemma next_ready_None j : next_ready [] j = None → Forall (λ c, complete c = true) (chunks j).
Proof.
  unfold next_ready. intros Hf. destruct (list_find _ _) eqn:E; [done|]. apply list_find_None in E.
  apply Forall_forall. intros c Hc. apply list_elem_of_lookup in Hc as [n Hn].
  rewrite Forall_forall in E. destruct (complete c) eqn:Ec; [done|]. exfalso. apply (E (n, c)); [|by split; [|set_solver]].
  apply list_elem_of_lookup. exists n. by rewrite list_lookup_imap, Hn.
Qed.

Lemma next_ready_Some active j n :
  next_ready active j = Some n → ∃ c, chunks j !! n = Some c ∧ complete c = false ∧ n ∉ active.
Proof.
  unfold next_ready. destruct (list_find _ _) as [[m [n' c]]|] eqn:E; [|done]. intros [= <-].
  apply list_find_Some in E as (Hm & [Hc Hin] & _). rewrite list_lookup_imap in Hm. cbn in *.
  destruct (chunks j !! m) as [c'|] eqn:Em; [|done]. cbn in Hm. injection Hm as <- <-. by exists c'.
Qed.

Lemma all_complete j : Forall (λ c, complete c = true) (chunks j) → existsb (λ c, negb (complete c)) (chunks j) = false.
Proof. induction 1 as [|c cs Hc _ IH]; [done|]. cbn. by rewrite Hc. Qed.

(** The job with the items as they are or final. *)
Definition same_content (j j' : UploadJob) : Prop :=
  chunk_bytes j' = chunk_bytes j ∧ chunks j' = chunks j ∧ done_bytes j' = done_bytes j ∧
  (items j' = items j ∨ finalize_items (chunk_bytes j) (items j) = Ok (items j')).

Lemma same_content_sources j j' : same_content j j' → (source <$> items j') = (source <$> items j).
Proof. by intros (_ & _ & _ & [->|(? & _)%finalize_items_Ok]). Qed.

Lemma same_content_valid j j' :
  validate_job j = Ok () → same_content j j' → bad_header j' = false → bad_secrets j' = false →
  validate_job j' = Ok ().
Proof.
  intros Hv (Hb & Hc & _ & Hi) Hh Hs. unfold validate_job in *. guards Hv. rewrite Hh, Hs, Hb, Hc.
  destruct Hi as [->|(Hsrc & Hid & Hk)%finalize_items_Ok]; [done|].
  destruct (check_items (chunk_bytes j) 0 [] (items j)) as [[]|] eqn:Ei; [|done].
  rewrite (Hk _ _ Ei). cbn [mbind result_bind]. by rewrite (check_chunks_items _ _ _ _ _ Hsrc Hid).
Qed.

Lemma same_content_lacks j j' k : same_content j j' → lacks j' k → lacks j k.
Proof.
  intros Hs. pose proof (same_content_sources _ _ Hs) as Hsrc. destruct Hs as (Hb & Hc & _).
  intros (Hr & i' & n & Hi & Hn & Hp & Hk). rewrite Hb, Hc in *. split; [done|].
  pose proof (f_equal (lookup (fst k)) Hsrc) as Hl. rewrite !list_lookup_fmap, Hi in Hl.
  destruct (items j !! fst k) as [i|] eqn:E; [|done]. injection Hl as Hl. exists i, n. by rewrite <- Hl.
Qed.

Lemma same_content_ok s s' e :
  same_content (saved s) (saved s') → files s' = files s →
  bad_header (saved s') = false → bad_secrets (saved s') = false →
  (∀ k, ¬ lacks (saved s) k) → Forall (λ c, complete c = true) (chunks (saved s)) →
  disk_ok s e → disk_ok s' e.
Proof.
  intros Hs Hf Hh Hsec Hl Hall K. apply (disk_ok_job s); try done.
  - apply Hs.
  - apply (same_content_valid (saved s)); try done. apply K.
  - pose proof (same_content_sources _ _ Hs) as Hsrc. destruct (ok_sized _ _ K) as (S1 & S2 & S3).
    destruct Hs as (Hb & _). split_and!; [|  |by rewrite Hb].
    + apply (f_equal length) in Hsrc. rewrite !length_fmap in Hsrc. by rewrite Hsrc.
    + change (Forall ((λ x, is_u64 (source_bytes x)) ∘ source) (items (saved s'))).
      rewrite <- Forall_fmap, Hsrc, Forall_fmap. exact S2.
  - apply Hs.
  - intros _. split; [|by destruct Hs as (_ & -> & _)]. intros k Hk. by apply (Hl k), (same_content_lacks _ _ _ Hs).
Qed.

Lemma valid_parts j : validate_job j = Ok () → bad_header j = false ∧ bad_secrets j = false.
Proof. by intros (? & ? & _)%validate_job_Ok. Qed.

(** A new state for a job that is not complete. *)
Lemma header_restate j st m its :
  bad_header j = false → st ∈ job_states → st ≠ "complete"%string →
  (st ∈ ["finalizing"; "serving"] → is_Some m ∧ existsb (λ c, negb (complete c)) (chunks j) = false) →
  (source <$> its) = (source <$> items j) →
  bad_header (set_manifest st m (set_items its j)) = false.
Proof.
  intros Hh Hst Hne Hm Hs. unfold bad_header in *. rewrite !orb_false_iff in *. destruct_and!. split_and!; try done.
  - apply negb_false_iff. by apply bool_decide_eq_true.
  - cbn [set_manifest set_items update total items].
    change (λ i : Item, source_bytes (source i)) with (source_bytes ∘ source) in *.
    by rewrite list_fmap_compose, Hs, <- list_fmap_compose.
  - cbn [set_manifest update state]. by rewrite (proj2 (String.eqb_neq _ _) Hne).
  - cbn [set_manifest update state exact_manifest]. apply andb_false_iff.
    destruct (decide (st ∈ ["finalizing"; "serving"])) as [Hin|Hin]; [right|left; by rewrite bool_decide_false].
    destruct (Hm Hin) as [[x ->] _]. by rewrite bool_decide_false.
  - cbn [set_manifest set_items update state chunks]. destruct (st =? "finalizing")%string eqn:E; [|done].
    apply String.eqb_eq in E as ->. by destruct Hm as [_ ->]; [set_solver|].
Qed.

Lemma secrets_restate j st m its :
  bad_secrets j = false → state j ≠ "complete"%string → bad_secrets (set_manifest st m (set_items its j)) = false.
Proof.
  intros Hb Hne. unfold bad_secrets in *. rewrite !orb_false_iff in *. destruct_and!.
  rewrite (proj2 (String.eqb_neq _ _) Hne) in *. cbn [negb andb] in *. split_and!; try done.
  cbn [set_manifest set_items update transfer_id upload_token]. by apply andb_false_intro2.
Qed.

Lemma completed_parts j url :
  bad_header j = false → bad_secrets j = false → bad_header (completed url j) = false ∧ bad_secrets (completed url j) = false.
Proof.
  intros Hh Hs. split.
  - unfold bad_header in *. rewrite !orb_false_iff in *. destruct_and!. split_and!; try done.
  - unfold bad_secrets in *. rewrite !orb_false_iff in *. destruct_and!. split_and!; try done.
Qed.

(** Every chunk is recorded and complete, the job is not. *)
Record ending (s : State) (e : gmap (nat * Z) (list Z)) : Prop := {
  end_ok : disk_ok s e;
  end_whole k : ¬ lacks (saved s) k;
  end_all : Forall (λ c, complete c = true) (chunks (saved s));
  end_open : state (saved s) ≠ "complete"%string }.

Lemma save_ending j s s' r e :
  ending s e → same_content (saved s) j → bad_header j = false → bad_secrets j = false →
  save j s = (s', r) →
  disk_ok s' e ∧ (state j ≠ "complete"%string → ending s' e) ∧ (r = Ok () → saved s' = j).
Proof.
  intros [K Hl Ha Ho] Hc Hh Hs (Hsv & Hf & Hok)%upload_save_run.
  assert (K' : disk_ok s' e).
  { destruct Hsv as [[Hsv _]|Hsv].
    - apply (disk_ok_job s); rewrite ?Hsv; try done; apply K.
    - apply (same_content_ok s); rewrite ?Hsv; done. }
  split_and!; [done| |done]. intros Hne. destruct Hsv as [[Hsv _]|Hsv].
  - split; rewrite ?Hsv; done.
  - split; rewrite ?Hsv; [done| | |done].
    + intros k Hk. by apply (Hl k), (same_content_lacks _ _ _ Hc).
    + destruct Hc as (_ & -> & _). done.
Qed.

Lemma to_sending_run o s s' r e :
  ending s e → to_sending o (saved s) s = (s', r) → ending s' e ∧ (∀ j, r = Ok j → saved s' = j).
Proof.
  intros Hend Hr. unfold to_sending in Hr.
  destruct (state (saved s) =? "preparing")%string; [|injection Hr as <- <-; split; [done|by intros j [= <-]]].
  apply bind_run in Hr as [(x & [= <- _] & ->)|(s1 & whole & [= <- _] & Hr)]; [done|].
  destruct whole; cbn [negb] in Hr; [|by injection Hr as <- <-].
  apply bind_run in Hr as [(x & [= <- _] & ->)|(s1 & [] & [= <- _] & Hr)]; [done|].
  apply bind_run in Hr as [(x & [= <- _] & ->)|(s1 & its & [= <- Hits] & Hr)]; [done|].
  assert (Hsv : ∀ t x, save (set_state "sending" (set_items its (saved s))) s = (t, x) →
    ending t e ∧ (x = Ok () → saved t = set_state "sending" (set_items its (saved s)))).
  { intros t x Hsv. destruct (valid_parts _ (ok_valid _ _ (end_ok _ _ Hend))) as [Hh Hs].
    apply (save_ending _ _ _ _ e) in Hsv as (_ & He & Hok); [|done|by split_and!; [| | |right]| |].
    - split; [by apply He|done].
    - apply (header_restate (saved s) "sending" (exact_manifest (saved s)) its); try done; [set_solver..|].
      by apply finalize_items_Ok in Hits as [? _].
    - apply (secrets_restate (saved s) "sending" (exact_manifest (saved s)) its); [done|apply Hend]. }
  apply bind_run in Hr as [(x & Hm & ->)|(s1 & [] & Hm & Hr)]; apply Hsv in Hm as [He Hok]; [done|].
  injection Hr as <- <-. split; [done|]. intros j [= <-]. by apply Hok.
Qed.

Lemma to_finalizing_run manifest s s' r e :
  ending s e → to_finalizing manifest (saved s) s = (s', r) →
  ending s' e ∧ (∀ j, r = Ok j → saved s' = j ∧ state j = "finalizing"%string).
Proof.
  intros Hend Hr. unfold to_finalizing in Hr.
  destruct (state (saved s) =? "finalizing")%string eqn:E.
  { apply String.eqb_eq in E. injection Hr as <- <-. split; [done|by intros j [= <-]]. }
  apply bind_run in Hr as [(x & [= <- _] & ->)|(s1 & m & [= <- Hm] & Hr)]; [done|].
  assert (Hsv : ∀ t x, save (set_manifest "finalizing" (Some m) (saved s)) s = (t, x) →
    ending t e ∧ (x = Ok () → saved t = set_manifest "finalizing" (Some m) (saved s))).
  { intros t x Hsv. destruct (valid_parts _ (ok_valid _ _ (end_ok _ _ Hend))) as [Hh Hs].
    apply (save_ending _ _ _ _ e) in Hsv as (_ & He & Hok); [|done|by split_and!; [| | |left]| |].
    - split; [by apply He|done].
    - apply (header_restate (saved s) "finalizing" (Some m) (items (saved s))); try done; [set_solver|].
      intros _. split; [by eexists|apply all_complete, (end_all _ _ Hend)].
    - apply (secrets_restate (saved s) "finalizing" (Some m) (items (saved s))); [done|apply Hend]. }
  apply bind_run in Hr as [(x & Hm' & ->)|(s1 & [] & Hm' & Hr)]; apply Hsv in Hm' as [He Hok]; [done|].
  injection Hr as <- <-. split; [done|]. intros j [= <-]. split; [by apply Hok|done].
Qed.

Lemma upload_finish_run o manifest accepted s s' r e :
  ending s e → finish o manifest accepted (saved s) s = (s', r) →
  disk_ok s' e ∧
  ∀ u, r = Ok u → accepted = Ok () ∧ state (saved s') = "complete"%string ∧ receipt_url (saved s') = Some u ∧
    master_key (saved s') = [] ∧ upload_token (saved s') = None ∧ (∀ k, ¬ lacks (saved s') k) ∧
    Forall (λ c, complete c = true) (chunks (saved s')).
Proof.
  intros Hend Hr. unfold finish in Hr.
  apply bind_run in Hr as [(x & Hm & ->)|(s1 & j1 & Hm & Hr)];
    (apply (to_sending_run _ _ _ _ e) in Hm as [E1 S1]; [|done]); [by split; [apply E1|]|].
  rewrite <- (S1 j1 eq_refl) in Hr.
  apply bind_run in Hr as [(x & Hm & ->)|(s2 & j2 & Hm & Hr)];
    (apply (to_finalizing_run _ _ _ _ e) in Hm as [E2 S2]; [|done]); [by split; [apply E2|]|].
  destruct (S2 j2 eq_refl) as [<- Hst].
  apply bind_run in Hr as [(x & [= <- _] & ->)|(s3 & m & [= <- _] & Hr)]; [by split; [apply E2|]|].
  apply bind_run in Hr as [(x & [= <- _] & ->)|(s3 & [] & [= <- Hacc] & Hr)]; [by split; [apply E2|]|].
  apply bind_run in Hr as [(x & [= <- _] & ->)|(s3 & u & [= <- _] & Hr)]; [by split; [apply E2|]|].
  destruct (valid_parts _ (ok_valid _ _ (end_ok _ _ E2))) as [Hh Hs].
  destruct (completed_parts _ u Hh Hs) as [Hh' Hs'].
  assert (Hc : same_content (saved s2) (completed u (saved s2))) by (by split_and!; [| | |left]).
  apply bind_run in Hr as [(x & Hm & ->)|(s3 & [] & Hm & Hr)];
    apply (save_ending _ _ _ _ e) in Hm as (K3 & _ & Hok); try done.
  injection Hr as <- <-. specialize (Hok eq_refl). split; [done|]. intros u' [= <-].
  rewrite Hok. split_and!; try done.
  - intros k Hk. by apply (end_whole _ _ E2 k), (same_content_lacks _ _ _ Hc).
  - apply (end_all _ _ E2).
Qed.

(** ** Every step keeps the invariant *)

Lemma lacks_key j n pos p :
  prep_item p = n → prep_position p = pos → lacks j (n, pos) → lacks j (prep_item p, prep_position p).
Proof. by intros -> ->. Qed.

Lemma step_ok r r' : run_ok r → step base r r' → run_ok r' ∧ emitted r ⊆ emitted r'.
Proof.
  intros [K M] Hstep. inversion Hstep; subst; unfold run_ok; cbn [disk emitted mode].
  - (* reopen *)
    match goal with Hr : reopen _ _ = _ |- _ => apply reopen_run in Hr as [Q _] end.
    split; [|done]. split; [by apply (quiet_ok (disk r))|]. destruct x as [[j' key]|]; [|done].
    rewrite (adv_state _ _ (proj1 Q)). split_and!; [set_solver|constructor|done|done].
  - (* spawn *)
    match goal with Hm : mode r = _ |- _ => rewrite Hm in M end. split; [|done]. split; [done|].
    match goal with Hn : next_ready _ _ = _ |- _ => apply next_ready_Some in Hn as (c & Hc & Hcomp & Hnin) end.
    destruct M as (M & Hd & Hp & _). split_and!; [done|by constructor|constructor; [by exists c|done]|done].
  - (* produce *)
    match goal with Hm : mode r = _ |- _ => rewrite Hm in M end. split; [|done]. split; [done|]. destruct M as (M & Hd & Hp & _).
    split_and!; [done..|].
    match goal with Hn : next_missing_chunk _ = _ |- _ => apply next_missing_chunk_spec in Hn; [done|apply K] end.
  - (* heartbeat *)
    split; [|done]. split; [done|]. by destruct (turbo_heartbeat _).
  - (* produced *)
    match goal with Hm : mode r = _ |- _ => rewrite Hm in M end. destruct M as (M & Hd & Hpend & L).
    match goal with Hp : prepare_one _ _ _ _ _ _ _ _ _ _ = _, Hi : items _ !! _ = _ |- _ =>
      destruct (prepare_one_prepared _ _ _ _ _ _ _ _ _ _ Hi Hp) as (E1 & E2 & Hprep) end.
    match goal with Hs : store_prepared _ _ _ _ = _ |- _ =>
      destruct (store_prepared_run _ _ _ _ _ _ K (lacks_key _ _ _ _ E1 E2 L) Hprep Hs) as (K' & Sub & Hok) end.
    rewrite E1, E2 in *. split; [|done]. split; [done|].
    destruct x as [j|]; [|done]. destruct (Hok j eq_refl) as (Hs & Hj & _). rewrite Hs, Hj. split_and!; [done|done| |done].
    eapply Forall_impl; [exact Hpend|]. intros m (c & Hc & Hcc). exists c. split; [by apply lookup_app_l_Some|done].
  - (* sent *)
    match goal with Hm : mode r = _ |- _ => rewrite Hm in M end.
    match goal with Hs : chunk_sent _ _ _ _ = _, Hn : chunks _ !! _ = _ |- _ =>
      destruct (chunk_sent_run _ _ _ _ _ _ Hn Hs) as (A & R & N & Hcs) end.
    split; [|done]. split; [by apply (disk_ok_advance (disk r))|]. destruct x; [|done].
    destruct M as (M & Hd & Hpend & L). rewrite (adv_state _ _ A). specialize (Hcs _ eq_refl).
    split_and!; [done|by apply NoDup_filter| |destruct producer; [|done]; by apply (advances_lacks _ _ _ A)].
    apply Forall_forall. intros m [Hne Hm]%list_elem_of_filter. rewrite Forall_forall in Hpend.
    destruct (Hpend m Hm) as (c' & Hc' & Hcc). exists c'. rewrite Hcs, list_lookup_insert_ne by done. done.
  - (* finish *)
    match goal with Hm : mode r = _ |- _ => rewrite Hm in M end.
    match goal with Hn : next_missing_chunk _ = _ |- _ => apply next_missing_chunk_spec in Hn; [|apply K]; rename Hn into Hl end.
    match goal with Hf : finish _ _ _ _ _ = _ |- _ => apply (upload_finish_run _ _ _ _ _ _ (emitted r)) in Hf as [K' _] end; [done|].
    split; [done|done|by apply next_ready_None|apply M].
  - (* stop *) by split.
Qed.

Lemma steps_ok r r' : run_ok r → rtc (step base) r r' → run_ok r' ∧ emitted r ⊆ emitted r'.
Proof.
  intros Hr Hs. induction Hs as [r|r1 r2 r3 Hs _ IH]; [done|].
  destruct (step_ok _ _ Hr Hs) as [H2 Sub]. destruct (IH H2) as [H3 Sub']. split; [done|by etrans].
Qed.

(** ** What a ciphertext encrypts *)

(** The transfer, what its key is derived from and, of each item, its id, source and
    nonce prefix. *)
Definition identity (j : UploadJob) :=
  (transfer_id j, share_key j, password_salt j, (λ i, (source i, item_id i, nonce_prefix i)) <$> items j).

(** [m] keeps the identity of the saved job, and [Q] holds of what it returns. *)
Definition keeps {A} (I : option string * list Z * option string * list (Src * string * string)) (m : SE State string A) (Q : A → Prop) : Prop :=
  ∀ s s' r, m s = (s', r) → identity (saved s) = I → identity (saved s') = I ∧ ∀ a, r = Ok a → Q a.

Lemma identity_bind {A B} I (m : SE State string A) (f : A → SE State string B) Q R :
  keeps I m Q → (∀ a, Q a → keeps I (f a) R) → keeps I (m ≫= f) R.
Proof.
  intros Hm Hf s s' r Hr Hi. apply bind_run in Hr as [(e & Hr & ->)|(s1 & a & H1 & Hr)].
  - split; [by apply (Hm _ _ _ Hr)|done].
  - destruct (Hm _ _ _ H1 Hi) as [H2 Ha]. by apply (Hf a (Ha a eq_refl) s1).
Qed.

Lemma identity_pure {A} I (f : State → result string A) (Q : A → Prop) :
  (∀ s a, identity (saved s) = I → f s = Ok a → Q a) → keeps I (λ s, (s, f s)) Q.
Proof. intros HQ s s' r [= <- <-] Hi. split; [done|]. intros a Ha. by apply (HQ s). Qed.

Lemma keeps_ret {A} I (a : A) (Q : A → Prop) : Q a → keeps I (mret a) Q.
Proof. intros HQ s s' r [= <- <-] Hi. split; [done|]. by intros ? [= <-]. Qed.

Lemma keeps_any {A} I (f : State → result string A) : keeps I (λ s, (s, f s)) (λ _, True).
Proof. by apply identity_pure. Qed.

Lemma keeps_save I j : identity j = I → keeps I (save j) (λ _, True).
Proof. intros Hj s s' r ([[-> _]| ->] & _)%upload_save_run Hi; done. Qed.

Lemma keeps_saved {A} I (m : SE State string A) :
  (∀ s s' r, m s = (s', r) → saved s' = saved s) → keeps I m (λ _, True).
Proof. intros Hm s s' r Hr Hi. by rewrite (Hm _ _ _ Hr). Qed.

Lemma keeps_if {A} I (b : bool) (m1 m2 : SE State string A) Q :
  keeps I m1 Q → keeps I m2 Q → keeps I (if b then m1 else m2) Q.
Proof. by destruct b. Qed.

Lemma chunk_sent_keeps I n c j : identity j = I → keeps I (chunk_sent n c j) (λ j, identity j = I).
Proof.
  intros Hj. unfold chunk_sent. eapply identity_bind; [by apply keeps_save|intros _ _].
  eapply identity_bind; [apply keeps_saved; intros s s' r Hr; by destruct (remove_sidecar_run _ _ _ _ Hr)|intros _ _].
  eapply identity_bind; [|intros x _; by apply keeps_ret].
  apply keeps_saved. intros s s' r (x & Hr & _)%attempt_run. by destruct (remove_file_run _ _ _ _ Hr).
Qed.

Lemma reconcile_identity replies j j' : reconcile replies j = Ok j' → identity j' = identity j.
Proof. unfold reconcile. destruct (read_ledger _ _ _ _ _ _) as [[]|]; [|done]. by intros [= <-]. Qed.

Lemma reopen_keeps I o : keeps I (reopen o) (λ x, identity (fst x) = I).
Proof.
  unfold reopen. eapply identity_bind; [apply (identity_pure I (λ s, Ok (saved s)) (λ j, identity j = I)); intros s j Hi Hsv; by injection Hsv as <-|intros j Hj].
  eapply identity_bind; [apply keeps_any|intros _ _].
  eapply identity_bind; [apply keeps_any|intros master _].
  eapply identity_bind; [apply keeps_any|intros fully _].
  eapply identity_bind; [apply keeps_if; apply keeps_any|intros _ _].
  eapply identity_bind; [apply keeps_any|intros _ _].
  eapply identity_bind; [apply keeps_any|intros _ _].
  eapply (identity_bind _ _ _ (λ j, identity j = I)).
  - apply keeps_if; [|by apply keeps_ret].
    eapply (identity_bind _ _ _ (λ j, identity j = I)).
    + destruct (encrypted_descriptor j); [by apply keeps_ret|].
      eapply identity_bind; [apply keeps_any|intros d _].
      eapply identity_bind; [by apply keeps_save|intros _ _]. by apply keeps_ret.
    + intros j2 Hj2. eapply identity_bind; [apply keeps_any|intros _ _].
      eapply identity_bind; [by apply keeps_save|intros _ _]. by apply keeps_ret.
  - intros j2 Hj2. eapply (identity_bind _ _ _ (λ j, identity j = I)); [|intros j3 Hj3; by apply keeps_ret].
    apply keeps_if; [|by apply keeps_ret].
    eapply (identity_bind _ _ _ (λ j, identity j = I)).
    { apply identity_pure. intros _ j3 _ Hr. by rewrite (reconcile_identity _ _ _ Hr). }
    intros j3 Hj3. eapply identity_bind; [by apply keeps_save|intros _ _].
    eapply identity_bind; [apply keeps_saved; intros s s' r Hr; by destruct (remove_sidecars_run _ _ _ _ Hr)|intros _ _].
    by apply keeps_ret.
Qed.

Lemma finalize_identity cb l l' :
  finalize_items cb l = Ok l' →
  (λ i, (source i, item_id i, nonce_prefix i)) <$> l' = (λ i, (source i, item_id i, nonce_prefix i)) <$> l.
Proof.
  revert l'. induction l as [|i l IH]; intros l' Hl; cbn [finalize_items] in Hl; [by injection Hl as <-|].
  unfold finalize_item in Hl. destruct (chunk_count _ cb) as [n|e]; [|done]. cbn [mbind result_bind] in Hl.
  destruct (finalize_items cb l) as [l2|e]; [|done]. cbn [mbind result_bind] in Hl. injection Hl as <-.
  by rewrite !fmap_cons, (IH l2 eq_refl).
Qed.

Lemma finish_keeps I o manifest accepted j :
  identity j = I → keeps I (finish o manifest accepted j) (λ _, True).
Proof.
  intros Hj. unfold finish. eapply (identity_bind _ _ _ (λ j, identity j = I)).
  { unfold to_sending. apply keeps_if; [|by apply keeps_ret].
    eapply identity_bind; [apply keeps_any|intros whole _].
    apply keeps_if; [by apply (identity_pure I (λ _, Err _))|].
    eapply identity_bind; [apply keeps_any|intros _ _].
    eapply (identity_bind _ _ _ (λ its, finalize_items (chunk_bytes j) (items j) = Ok its)); [by apply identity_pure|intros its Hits].
    assert (Hits' : identity (set_state "sending" (set_items its j)) = I).
    { rewrite <- Hj. unfold identity. f_equal. by apply (finalize_identity (chunk_bytes j)). }
    eapply identity_bind; [by apply keeps_save|intros _ _]. by apply keeps_ret. }
  intros j2 Hj2. eapply (identity_bind _ _ _ (λ j, identity j = I)).
  { unfold to_finalizing. apply keeps_if; [by apply keeps_ret|].
    eapply identity_bind; [apply keeps_any|intros m _].
    eapply identity_bind; [by apply keeps_save|intros _ _]. by apply keeps_ret. }
  intros j3 Hj3. eapply identity_bind; [apply keeps_any|intros _ _].
  eapply identity_bind; [apply keeps_any|intros _ _].
  eapply identity_bind; [apply keeps_any|intros u _].
  eapply identity_bind; [by apply keeps_save|intros _ _]. by apply keeps_ret.
Qed.

Lemma store_prepared_keeps I p j :
  identity j = I → keeps I (store_prepared base p j) (λ j, identity j = I).
Proof.
  intros Hj. unfold store_prepared. eapply identity_bind; [apply keeps_any|intros orphan _].
  eapply identity_bind.
  { destruct orphan.
    - eapply identity_bind; [apply keeps_saved; intros s s' r Hr; by destruct (read_file_run _ _ _ _ _ Hr)|intros b _].
      by apply keeps_if; apply (identity_pure I (λ _, _) (λ _, True)).
    - apply keeps_saved. by intros s s' r [[-> _]| ->]%effect_run. }
  intros _ _. eapply identity_bind; [apply keeps_any|intros i _].
  eapply identity_bind; [by apply keeps_save|intros _ _]. by apply keeps_ret.
Qed.

(** [b] encrypts, under the item's key of one that the job was unlocked with and the
    position's nonce, a plaintext with the digest the source had when the upload
    was created. *)
Definition genuine (j : UploadJob) (k : nat * Z) (b : list Z) : Prop :=
  ∃ password master i transfer prefix key plain, unlock password j = Ok master ∧
    items j !! fst k = Some i ∧ transfer_id j = Some transfer ∧ decode (nonce_prefix i) = Ok prefix ∧
    derive_item_key master transfer (item_id i) = Ok key ∧
    chunk_digests (source i) !! Z.to_nat (snd k) = Some (sha256_hex plain) ∧
    encrypt_chunk key prefix (as_u32 (snd k)) plain (aad transfer (item_id i) (snd k)) = Ok b.

Lemma unlock_same j j' password :
  share_key j' = share_key j → password_salt j' = password_salt j → unlock password j' = unlock password j.
Proof.
  intros Hs Hp. unfold unlock, Sealing.unlock_job. cbn [Sealing.set_keys share_key password_salt master_key].
  rewrite Hs, Hp. change (zlen [] =? 32) with false. cbv iota.
  destruct (zlen (share_key j) =? 32); [|done]. cbn [negb].
  destruct (password_salt j); [|done]. unfold mbind, result_bind. destruct password; [|done].
  destruct (_ <? _); [done|]. by destruct (Sealing.password_master _ _ _).
Qed.

Lemma unlock_identity j j' : identity j' = identity j → ∀ password, unlock password j' = unlock password j.
Proof. intros [= _ Hs Hp _] password. by apply unlock_same. Qed.

(** Without a password every start unlocks the same key. *)
Lemma unlock_plain j password master :
  password_salt j = None → unlock password j = Ok master → master = share_key j.
Proof.
  intros Hp. unfold unlock, Sealing.unlock_job. cbn [Sealing.set_keys share_key password_salt master_key].
  rewrite Hp. change (zlen [] =? 32) with false. cbv iota. destruct (negb _); [done|]. by intros [= <-].
Qed.

Lemma genuine_identity j j' k b : identity j' = identity j → genuine j k b → genuine j' k b.
Proof.
  intros Hid0. pose proof (unlock_identity _ _ Hid0) as Hun. revert Hid0.
  intros [= Ht _ _ Hi] (password & master & i & transfer & prefix & key & plain & Hu & Hl & Htr & Hx).
  pose proof (f_equal (lookup (fst k)) Hi) as Hk. rewrite !list_lookup_fmap, Hl in Hk.
  destruct (items j' !! fst k) as [i'|] eqn:E; [|done]. injection Hk as Hs Hid Hn.
  exists password, master, i', transfer, prefix, key, plain. rewrite Hun, Hs, Hid, Hn, Ht. done.
Qed.

Lemma store_prepared_files p j s s' r :
  store_prepared base p j s = (s', r) →
  ∀ q b, files s' !! q = Some b → files s !! q = Some b ∨ b = ciphertext p.
Proof.
  unfold store_prepared. intros Hr.
  apply bind_run in Hr as [(x & [=] & _)|(s1 & orphan & [= <- <-] & Hr)].
  assert (Hf : ∀ s1 (x : result string ()),
    (match files s !! artifact_path base (prep_item p) (prep_position p) with
     | Some _ => existing ← read_file (artifact_path base (prep_item p) (prep_position p)) "read";
         if bool_decide (existing = ciphertext p) then mret () else fail "orphaned ciphertext conflicts with the verified source"%string
     | None => effect (λ s, {| saved := saved s; files := <[artifact_path base (prep_item p) (prep_position p) := ciphertext p]> (files s);
                              sidecars := sidecars s; clock := clock s |})
     end) s = (s1, x) →
    ∀ q b, files s1 !! q = Some b → files s !! q = Some b ∨ b = ciphertext p).
  { intros t x Ht. destruct (files s !! _).
    - apply bind_run in Ht as [(y & Hm & ->)|(s2 & b' & Hm & Ht)]; apply read_file_run in Hm as (_ & F2 & _);
        [intros q b'; rewrite F2; by left|].
      intros q b'' Hq. left. case_bool_decide; injection Ht as <- _; by rewrite <- F2.
    - apply effect_run in Ht as [[-> _]| ->]; cbn; intros q b Hq; [by left|].
      apply lookup_insert_Some in Hq as [[_ ->]|[_ ?]]; [by right|by left]. }
  apply bind_run in Hr as [(x & Hm & _)|(s1 & [] & Hm & Hr)]; pose proof (Hf _ _ Hm) as F1; [done|].
  apply bind_run in Hr as [(x & [= <- _] & _)|(s2 & i & [= <- _] & Hr)]; [done|].
  apply bind_run in Hr as [(x & (_ & F2 & _)%upload_save_run & _)|(s3 & [] & (_ & F2 & _)%upload_save_run & Hr)];
    [|injection Hr as <- _]; by rewrite F2.
Qed.

Lemma step_identity r r' : step base r r' → identity (saved (disk r')) = identity (saved (disk r)).
Proof.
  intros Hstep. inversion Hstep; subst; cbn [disk]; try done.
  - match goal with Hr : reopen _ _ = _ |- _ => by destruct (reopen_keeps _ _ _ _ _ Hr eq_refl) end.
  - match goal with Hr : store_prepared _ _ _ _ = _ |- _ => by destruct (store_prepared_keeps _ _ _ eq_refl _ _ _ Hr eq_refl) end.
  - match goal with Hr : chunk_sent _ _ _ _ = _ |- _ => by destruct (chunk_sent_keeps _ _ _ _ eq_refl _ _ _ Hr eq_refl) end.
  - match goal with Hr : finish _ _ _ _ _ = _ |- _ => by destruct (finish_keeps _ _ _ _ _ eq_refl _ _ _ Hr eq_refl) end.
Qed.

Definition all_genuine (r : Run) : Prop := ∀ k b, emitted r !! k = Some b → genuine (saved (disk r)) k b.

(** The key of a run is one the job was unlocked with. *)
Definition keyed (r : Run) : Prop :=
  match mode r with
  | Stopped => True
  | Running master _ _ => ∃ password, unlock password (saved (disk r)) = Ok master
  end.

Lemma step_keyed r r' : keyed r → step base r r' → keyed r'.
Proof.
  intros Hk Hstep. pose proof (step_identity _ _ Hstep) as Hid. pose proof (unlock_identity _ _ Hid) as Hun.
  assert (Hkeep : ∀ master active producer, mode r = Running master active producer →
    ∃ password, unlock password (saved (disk r')) = Ok master).
  { intros master active producer Hm. unfold keyed in Hk. rewrite Hm in Hk. destruct Hk as [password Hp].
    exists password. by rewrite Hun. }
  unfold keyed. inversion Hstep; subst; cbn [disk mode] in *; try done; try (by eapply Hkeep).
  - destruct x as [[j master]|]; [|done].
    match goal with Hr : reopen _ _ = _ |- _ => apply reopen_run in Hr as [_ Hx] end.
    destruct (Hx j master eq_refl) as (_ & _ & Hu). exists (password o). by rewrite Hun.
  - destruct (turbo_heartbeat _); [|done]. cbn [mode_of].
    match goal with Hm : mode r = _ |- _ => rewrite Hm; by eapply Hkeep end.
  - destruct x; [|done]. by eapply Hkeep.
  - destruct x; [|done]. by eapply Hkeep.
Qed.

Lemma step_genuine r r' : run_ok r → keyed r → all_genuine r → step base r r' → all_genuine r'.
Proof.
  intros Hr Hkey Hg Hstep. pose proof (step_identity _ _ Hstep) as Hid. intros k b.
  assert (Hold : emitted r !! k = Some b → genuine (saved (disk r')) k b).
  { intros Hk. by apply (genuine_identity (saved (disk r))), Hg. }
  inversion Hstep; subst; cbn [disk emitted] in *; try done.
  unfold record. destruct (files s' !! _) as [b'|] eqn:Ef; [|done].
  intros [[<- <-]|[_ ?]]%lookup_insert_Some; [|by auto]. cbn [fst snd] in Ef.
  destruct Hr as [K M]. unfold keyed in Hkey.
  match goal with Hm : mode r = _ |- _ => rewrite Hm in M, Hkey end. destruct Hkey as [password Hpass]. destruct M as (_ & _ & _ & [Hin _]).
  match goal with Hp : prepare_one _ _ _ _ _ _ _ _ _ _ = _ |- _ => pose proof (prepare_one_Ok _ _ _ _ _ _ _ _ _ _ _ Hp) as (<- & <- & plain & _ & _ & Hd & He) end.
  match goal with Hs : store_prepared _ _ _ _ = _ |- _ => apply (store_prepared_files _ _ _ _ _ Hs) in Ef as [Hb| ->] end.
  - apply Hold. by apply (ok_stored _ _ K (_, _)).
  - apply (genuine_identity (saved (disk r))); [done|]. by eexists password, master, i, transfer, _, key, plain.
Qed.

Lemma steps_genuine r r' : run_ok r → keyed r → all_genuine r → rtc (step base) r r' → all_genuine r'.
Proof.
  intros Hr Hk Hg Hs. induction Hs as [r|r1 r2 r3 Hs _ IH]; [done|].
  apply IH; [by apply (step_ok r1)|by apply (step_keyed r1)|by apply (step_genuine r1)].
Qed.

(** ** All the chunks together are the sources *)

(** The chunks of the items from the [n]-th on. *)
Fixpoint keys_from (cb : Z) (n : nat) (l : list Item) : list (nat * Z) :=
  match l with
  | [] => []
  | i :: l => (pair n <$> seqZ 0 (Z.max (div_ceil (source_bytes (source i)) cb) 1)) ++ keys_from cb (S n) l
  end.

Lemma elem_of_keys_from cb n l k :
  k ∈ keys_from cb n l ↔
  ∃ m i, fst k = (n + m)%nat ∧ l !! m = Some i ∧ 0 ≤ snd k < Z.max (div_ceil (source_bytes (source i)) cb) 1.
Proof.
  revert n. induction l as [|i l IH]; intros n; cbn [keys_from].
  { split; [set_solver|]. by intros (m & i & _ & Hm & _). }
  rewrite elem_of_app, list_elem_of_fmap, IH. split.
  - intros [(x & -> & Hx)|(m & i' & Hk & Hm & Hx)].
    + apply elem_of_seqZ in Hx. exists 0%nat, i. cbn. split_and!; [lia|done|lia|lia].
    + exists (S m), i'. split_and!; [lia|done|lia|lia].
  - intros ([|m] & i' & Hk & Hm & Hx).
    + injection Hm as ->. left. exists (snd k). rewrite elem_of_seqZ. destruct k; cbn in *. split; [f_equal; lia|lia].
    + right. exists m, i'. split_and!; [lia|done|lia|lia].
Qed.

Lemma NoDup_keys_from cb n l : NoDup (keys_from cb n l).
Proof.
  revert n. induction l as [|i l IH]; intros n; cbn [keys_from]; [constructor|].
  apply NoDup_app. split_and!; [apply NoDup_fmap; [apply _|apply NoDup_seqZ]| |done].
  intros k (x & -> & _)%list_elem_of_fmap (m & i' & Hk & _)%elem_of_keys_from. cbn in Hk. lia.
Qed.

Definition plaintext_at (j : UploadJob) (k : nat * Z) : Z :=
  match items j !! fst k with Some i => expected_plaintext i (chunk_bytes j) (snd k) | None => 0 end.

Lemma item_total i cb :
  is_u64 (source_bytes (source i)) → 0 < cb →
  sum_Z (expected_plaintext i cb <$> seqZ 0 (Z.max (div_ceil (source_bytes (source i)) cb) 1)) = source_bytes (source i).
Proof.
  intros [H0 Hu] Hb. set (size := source_bytes (source i)) in *.
  transitivity (sum_Z (chunk_len size cb <$> seqZ 0 (Z.max (div_ceil size cb) 1))).
  - f_equal. apply list_fmap_ext. intros m x Hm. apply list_elem_of_lookup_2, elem_of_seqZ in Hm.
    unfold expected_plaintext, chunk_len, saturating_sub, saturating_mul. fold size.
    pose proof (div_ceil_lower size cb Hb).
    assert (x = 0 ∨ x * cb ≤ size) by (destruct (decide (x = 0)); [by left|right; nia]). nia.
  - destruct (decide (size = 0)) as [E|E].
    + rewrite E, div_ceil_0 by done. change (seqZ 0 (Z.max 0 1)) with [0].
      unfold chunk_len. cbn [fmap list_fmap sum_Z foldr]. lia.
    + pose proof (div_ceil_pos size cb Hb). rewrite Z.max_l by lia. apply chunk_lens_sum; lia.
Qed.

Lemma keys_total j n l :
  0 < chunk_bytes j → (∀ m, l !! m = items j !! (n + m)%nat) →
  Forall (λ i, is_u64 (source_bytes (source i))) l →
  sum_Z (plaintext_at j <$> keys_from (chunk_bytes j) n l) = sum_Z ((λ i, source_bytes (source i)) <$> l).
Proof.
  intros Hb. revert n. induction l as [|i l IH]; intros n Hl Hu; [done|]. cbn [keys_from].
  apply Forall_cons in Hu as [Hi Hu]. rewrite fmap_app, sum_Z_app, fmap_cons, IH; [|intros m; etransitivity; [exact (Hl (S m))|f_equal; lia]|done].
  cbn [sum_Z foldr]. fold (sum_Z ((λ i, source_bytes (source i)) <$> l)). f_equal.
  etransitivity; [|by apply (item_total i (chunk_bytes j))]. rewrite <- list_fmap_compose. f_equal.
  apply list_fmap_ext. intros m x _. unfold compose, plaintext_at. cbn [fst snd].
  pose proof (Hl 0%nat) as H0. rewrite Nat.add_0_r in H0. by rewrite <- H0.
Qed.

(** Complete and whole, the job counts every byte of every source. *)
Lemma whole_bytes s e :
  disk_ok s e → (∀ k, ¬ lacks (saved s) k) → Forall (λ c, complete c = true) (chunks (saved s)) →
  completed_bytes (chunks (saved s)) = sum_Z ((λ i, source_bytes (source i)) <$> items (saved s)).
Proof.
  intros K Hl Hc. destruct (ok_sized _ _ K) as (S1 & S2 & S3). pose proof (valid_chunk_bytes _ (ok_valid _ _ K) S3) as Hb.
  pose proof (validate_job_Ok _ (ok_valid _ _ K)) as (_ & _ & _ & _ & Hf & Hnd). set (j := saved s) in *.
  assert (Hcount : ∀ b, chunk_count b (chunk_bytes j) = Ok (Z.max (div_ceil b (chunk_bytes j)) 1)).
  { intros b. unfold chunk_count. rewrite (proj2 (Z.eqb_neq _ _)) by lia. by rewrite (proj2 (Z.ltb_ge _ _)) by lia. }
  rewrite <- (keys_total j 0) by (done || lia).
  assert (Hp : chunk_key <$> chunks j ≡ₚ keys_from (chunk_bytes j) 0 (items j)).
  { apply NoDup_Permutation; [done|apply NoDup_keys_from|]. intros k. rewrite elem_of_keys_from. split.
    - intros (c & -> & Hin)%list_elem_of_fmap. rewrite Forall_forall in Hf. destruct (Hf c Hin) as (i & n & Hi & _ & Hn & Hpos & _).
      rewrite Hcount in Hn. injection Hn as <-. exists (chunk_item c), i. cbn. split_and!; try done.
      pose proof (ok_named _ _ K) as Hr. rewrite Forall_forall in Hr. destruct (Hr c Hin) as [[_ [? _]] _]. done.
    - intros (m & i & Hk & Hi & Hpos). destruct (decide (k ∈ chunk_key <$> chunks j)) as [|Hno]; [done|]. exfalso.
      apply (Hl k). cbn in Hk. subst m. split; [|exists i, (Z.max (div_ceil (source_bytes (source i)) (chunk_bytes j)) 1); by rewrite Hcount].
      rewrite Forall_forall in S2. pose proof (S2 i (list_elem_of_lookup_2 _ _ _ Hi)) as Hu.
      pose proof (chunk_count_u64 _ _ _ Hu S3 (Hcount _)). apply lookup_lt_Some in Hi. split; cbn; [lia|]. split; lia. }
  rewrite <- (sum_Z_Permutation _ _ (fmap_Permutation (plaintext_at j) _ _ Hp)), <- list_fmap_compose.
  unfold completed_bytes. f_equal.
  assert (Hall : ∀ cs, Forall (λ c, complete c = true) cs → filter (λ c, complete c = true) cs = cs).
  { induction 1 as [|c cs Hcc _ IH]; [done|]. by rewrite filter_cons_True, IH. }
  rewrite Hall by done. apply list_fmap_ext. intros n c Hn.
  apply list_elem_of_lookup_2 in Hn. rewrite Forall_forall in Hf. destruct (Hf c Hn) as (i & m & Hi & _ & _ & _ & Hpt & _).
  unfold compose, plaintext_at. cbn [fst snd chunk_key]. by rewrite Hi.
Qed.

(** ** How much is left to do *)

Definition incomplete (cs : list Chunk) : list Chunk := filter (λ c, complete c = false) cs.

(** Encrypting a chunk takes two steps, sending it two. *)
Definition left_to_do (r : Run) : Z :=
  let j := saved (disk r) in
  match mode r with
  | Stopped => 0
  | Running _ active producer =>
      4 * (zlen (keys_from (chunk_bytes j) 0 (items j)) - zlen (chunks j)) + 2 * zlen (incomplete (chunks j))
      - zlen active + match producer with None => 1 | Some _ => 0 end
  end.

Definition working (r : Run) : Prop := mode r ≠ Stopped.
Definition works (r r' : Run) : Prop := working r ∧ step base r r' ∧ working r'.
(** A step that is no heartbeat: a heartbeat changes nothing. *)
Definition progresses (r r' : Run) : Prop := works r r' ∧ r' ≠ r.

Lemma incomplete_insert cs n c c' :
  cs !! n = Some c → complete c = false → complete c' = true →
  zlen (incomplete (<[n := c']> cs)) = zlen (incomplete cs) - 1.
Proof.
  intros Hn Hc Hc'. pose proof (lookup_lt_Some _ _ _ Hn) as Hlt. unfold incomplete, zlen.
  rewrite insert_take_drop by done. rewrite <- (take_drop_middle _ _ _ Hn) at 3.
  rewrite !filter_app, filter_cons_False, filter_cons_True by congruence. rewrite !length_app. cbn [length]. lia.
Qed.

Lemma chunks_fewer s e :
  disk_ok s e → zlen (chunks (saved s)) ≤ zlen (keys_from (chunk_bytes (saved s)) 0 (items (saved s))).
Proof.
  intros K. pose proof (validate_job_Ok _ (ok_valid _ _ K)) as (_ & _ & _ & _ & Hf & Hnd). unfold zlen.
  rewrite <- (length_fmap chunk_key). apply Nat2Z.inj_le, submseteq_length, NoDup_submseteq; [done|].
  intros k (c & -> & Hin)%list_elem_of_fmap. apply elem_of_keys_from. rewrite Forall_forall in Hf.
  destruct (Hf c Hin) as (i & n & Hi & _ & Hn & Hpos & _). exists (chunk_item c), i. cbn.
  unfold chunk_count in Hn. guards Hn. injection Hn as <-. split_and!; try done.
  pose proof (ok_named _ _ K) as Hr. rewrite Forall_forall in Hr. destruct (Hr c Hin) as [[_ [? _]] _]. done.
Qed.

Lemma filter_imap_length (cs : list Chunk) (f : nat → nat) :
  length (filter (λ e : nat * Chunk, complete (snd e) = false) (imap (λ n c, (f n, c)) cs)) = length (incomplete cs).
Proof.
  unfold incomplete. revert f. induction cs as [|c cs IH]; intros f; [done|]. rewrite imap_cons.
  destruct (complete c) eqn:E.
  - rewrite !filter_cons_False by (cbn; congruence). apply (IH (f ∘ S)).
  - rewrite !filter_cons_True by done. cbn [length]. f_equal. apply (IH (f ∘ S)).
Qed.

Lemma active_fewer j active :
  NoDup active → Forall (pending j) active → zlen active ≤ zlen (incomplete (chunks j)).
Proof.
  intros Hd Hp. unfold zlen. rewrite <- (filter_imap_length _ (λ n, n)).
  rewrite <- (length_fmap fst (filter _ _)). apply Nat2Z.inj_le, submseteq_length, NoDup_submseteq; [done|].
  intros n Hn. rewrite Forall_forall in Hp. destruct (Hp n Hn) as (c & Hc & Hcc).
  apply list_elem_of_fmap. exists (n, c). split; [done|]. apply list_elem_of_filter. split; [done|].
  apply list_elem_of_lookup. exists n. by rewrite list_lookup_imap, Hc.
Qed.

Lemma left_nonneg r : run_ok r → 0 ≤ left_to_do r.
Proof.
  intros [K M]. unfold left_to_do. destruct (mode r) as [|master active producer]; [done|].
  destruct M as (_ & Hd & Hp & _). pose proof (chunks_fewer _ _ K). pose proof (active_fewer _ _ Hd Hp).
  assert (0 ≤ zlen (incomplete (chunks (saved (disk r))))) by (unfold zlen; lia). destruct producer; lia.
Qed.

Lemma filter_ne_length n l : NoDup l → n ∈ l → zlen (filter (λ m : nat, m ≠ n) l) = zlen l - 1.
Proof.
  intros Hd Hn. apply list_elem_of_split in Hn as (l1 & l2 & ->).
  rewrite NoDup_app in Hd. destruct Hd as (H1 & H2 & [H3 H4]%NoDup_cons).
  assert (Hall : ∀ l : list nat, n ∉ l → filter (λ m : nat, m ≠ n) l = l).
  { induction l as [|m l IH]; intros Hni; [done|]. apply not_elem_of_cons in Hni as [Hne Hni].
    by rewrite filter_cons_True, IH. }
  unfold zlen. rewrite filter_app, filter_cons_False by naive_solver. rewrite !Hall; [rewrite !length_app; cbn; lia|done|].
  intros Hin. apply (H2 n Hin). set_solver.
Qed.

Lemma works_left r r' :
  run_ok r → works r r' → left_to_do r' = left_to_do r - 1 ∨ r' = r ∧ turbo (saved (disk r)) = true.
Proof.
  intros [K M] (W & Hstep & W'). unfold working, left_to_do in *.
  inversion Hstep; subst; cbn [disk mode] in *; try done;
    try (right; split; [|done]; destruct (turbo_heartbeat _); [by destruct r|done]); left;
    match goal with Hm : mode r = _ |- _ => rewrite Hm in *; clear Hm end; try done.
  - (* spawn *) unfold zlen. cbn [length]. lia.
  - (* produce *) lia.
  - (* produced *)
    destruct x as [j|]; [|done]. cbn [mode_of]. destruct M as (M & Hd & Hpend & L).
    match goal with Hp : prepare_one _ _ _ _ _ _ _ _ _ _ = _, Hi : items _ !! _ = _ |- _ =>
      destruct (prepare_one_prepared _ _ _ _ _ _ _ _ _ _ Hi Hp) as (E1 & E2 & Hprep) end.
    match goal with Hs : store_prepared _ _ _ _ = _ |- _ =>
      destruct (store_prepared_run _ _ _ _ _ _ K (lacks_key _ _ _ _ E1 E2 L) Hprep Hs) as (_ & _ & Hok) end.
    destruct (Hok j eq_refl) as (Hs & Hj & _). rewrite Hs, Hj. cbn [set_chunks update items chunk_bytes chunks].
    unfold incomplete, zlen.
    rewrite filter_app, filter_cons_True, filter_nil by done. rewrite !length_app. cbn [length]. lia.
  - (* sent *)
    destruct x as [j|]; [|done]. cbn [mode_of]. destruct M as (M & Hd & Hpend & L).
    match goal with Hs : chunk_sent _ _ _ _ = _, Hn : chunks _ !! _ = _ |- _ =>
      destruct (chunk_sent_run _ _ _ _ _ _ Hn Hs) as ([Hi' Hb' _ _ _ _] & _ & _ & Hcs) end.
    rewrite Forall_forall in Hpend.
    match goal with Hn : _ ∈ active |- _ => destruct (Hpend _ Hn) as (c' & Hc' & Hcc); rewrite (filter_ne_length _ _ Hd Hn) end.
    assert (c' = c) as -> by congruence. rewrite Hi', Hb', (Hcs j eq_refl).
    rewrite (incomplete_insert _ _ _ _ Hc' Hcc) by done. unfold zlen. rewrite length_insert. lia.
Qed.

(** ** Runs from a reserved upload *)

(** What the reservation saves: a valid job whose sources are fingerprinted and
    none of whose chunks is encrypted yet. *)
Record reserved (s : State) : Prop := {
  res_valid : validate_job (saved s) = Ok ();
  res_sized : sized (saved s);
  res_chunks : chunks (saved s) = [];
  res_done : done_bytes (saved s) = 0;
  res_state : state (saved s) = "preparing"%string;
  res_files k : in_range k → files s !! artifact_path base (fst k) (snd k) = None }.

Definition start (s : State) : Run := {| disk := s; mode := Stopped; emitted := ∅ |}.
Definition reachable (s : State) (r : Run) : Prop := rtc (step base) (start s) r.

Lemma reserved_ok s : reserved s → run_ok (start s).
Proof.
  intros [Hv Hz Hc Hd Hs Hf]. split; [|done]. split; cbn; rewrite ?Hc; try done.
  - intros k b Hk Hb. rewrite Hf in Hb; done.
  - rewrite Hs. set_solver.
Qed.

Lemma reachable_ok s r : reserved s → reachable s r → run_ok r.
Proof. intros Hs Hr. eapply steps_ok; [by apply reserved_ok|exact Hr]. Qed.

Lemma reachable_genuine s r : reserved s → reachable s r → all_genuine r.
Proof. intros Hs Hr. eapply (steps_genuine (start s)); [by apply reserved_ok|done|done|exact Hr]. Qed.

(** C10: Whatever fails, and wherever an upload is stopped and continued, the
    saved job is one the next start accepts, it counts exactly the bytes of
    its complete chunks, no chunk is recorded twice, and the ciphertext of
    each chunk still to be sent is on the disk with the recorded length and
    checksum.  Two requests in flight never send the same chunk, and none
    sends a complete one. *)
Theorem upload_invariant s r :
  reserved s → reachable s r →
  validate_job (saved (disk r)) = Ok () ∧
  done_bytes (saved (disk r)) = completed_bytes (chunks (saved (disk r))) ∧
  NoDup (chunk_key <$> chunks (saved (disk r))) ∧
  (∀ c, c ∈ chunks (saved (disk r)) → complete c = false →
     ∃ b, files (disk r) !! artifact c = Some b ∧ zlen b = ciphertext_bytes c ∧ sha256_hex b = checksum c) ∧
  (∀ master active producer, mode r = Running master active producer → NoDup active ∧ Forall (pending (saved (disk r))) active).
Proof.
  intros Hs [K M]%(reachable_ok s); [|done]. split_and!; [apply K|apply K| | |].
  - by apply validate_job_Ok, K.
  - intros c Hin Hc. pose proof (ok_intact _ _ K) as Hi. rewrite Forall_forall in Hi. by apply (Hi c).
  - intros master active producer Hm. rewrite Hm in M. split; apply M.
Qed.

(** C11: A nonce is never used for two plaintexts: every ciphertext ever stored
    for a chunk, across crashes, restarts, changes of the source and the passwords
    the restarts ask for, stays the only one stored for it; it encrypts, under its
    item's key of a key that the job was unlocked with and its position's nonce, a
    plaintext with the digest the source had when the upload was created; and what
    is sent for a chunk is that ciphertext. Nothing checks the password of a
    restart, so the keys of a protected upload's chunks need not be the same; those
    of an upload without one are. *)
Theorem ciphertext_unique s r r' :
  reserved s → reachable s r → rtc (step base) r r' →
  emitted r ⊆ emitted r' ∧
  (∀ k b, emitted r' !! k = Some b → genuine (saved (disk r')) k b) ∧
  (password_salt (saved (disk r')) = None → ∀ password master,
     unlock password (saved (disk r')) = Ok master → master = share_key (saved (disk r'))) ∧
  (∀ c b, c ∈ chunks (saved (disk r')) → complete c = false → files (disk r') !! artifact c = Some b →
     emitted r' !! chunk_key c = Some b).
Proof.
  intros Hs Hr Hrr. assert (Hr' : reachable s r') by (unfold reachable in *; by etrans). split_and!.
  - apply (steps_ok r r'); [by apply (reachable_ok s)|done].
  - by apply (reachable_genuine s).
  - intros Hp password master. by apply unlock_plain.
  - intros c b Hin _ Hf. destruct (reachable_ok s r' Hs Hr') as [K _].
    pose proof (ok_named _ _ K) as Hn. rewrite Forall_forall in Hn. destruct (Hn c Hin) as [Hk Ha].
    apply (ok_stored _ _ K); [done|]. cbn [fst snd chunk_key]. by rewrite <- Ha.
Qed.

(** C16: A saved upload is complete only when it is whole: every position of
    every item was encrypted and acknowledged, and the bytes done are those of
    the sources.  Its master key and upload token are then gone from the
    checkpoint once finishing returns the receipt, which is saved. *)
Theorem upload_complete s r :
  reserved s → reachable s r →
  (state (saved (disk r)) = "complete"%string →
     (∀ k, ¬ lacks (saved (disk r)) k) ∧ Forall (λ c, complete c = true) (chunks (saved (disk r))) ∧
     done_bytes (saved (disk r)) = sum_Z ((λ i, source_bytes (source i)) <$> items (saved (disk r)))) ∧
  (∀ o master manifest accepted s' u,
     mode r = Running master [] None → next_ready [] (saved (disk r)) = None →
     next_missing_chunk (saved (disk r)) = Ok None →
     finish o manifest accepted (saved (disk r)) (disk r) = (s', Ok u) →
     accepted = Ok () ∧ state (saved s') = "complete"%string ∧ receipt_url (saved s') = Some u ∧
     master_key (saved s') = [] ∧ upload_token (saved s') = None).
Proof.
  intros Hs Hr. destruct (reachable_ok s r Hs Hr) as [K M]. split.
  - intros Hc. destruct (ok_final _ _ K) as [Hl Ha]; [rewrite Hc; set_solver|]. split_and!; [done|done|].
    rewrite (ok_done _ _ K). by apply (whole_bytes _ (emitted r)).
  - intros o master manifest accepted s' u Hm Hn Hmiss Hf. rewrite Hm in M.
    apply next_missing_chunk_spec in Hmiss; [|apply K].
    apply (upload_finish_run _ _ _ _ _ _ (emitted r)) in Hf as [_ Hok]; [by destruct (Hok u eq_refl) as (? & ? & ? & ? & ? & _)|].
    split; [done|done|by apply next_ready_None|apply M].
Qed.

Lemma next_missing_total j :
  validate_job j = Ok () → 0 ≤ chunk_bytes j → is_ok (next_missing_chunk j) = true.
Proof.
  intros Hv Hb. pose proof (valid_chunk_bytes _ Hv Hb) as Hc. unfold next_missing_chunk.
  generalize 0%nat. induction (items j) as [|i l IH]; intros n; [done|]. cbn [next_missing]. unfold chunk_count.
  rewrite (proj2 (Z.eqb_neq _ _)) by lia. rewrite (proj2 (Z.ltb_ge _ _)) by lia. cbn [orb mbind result_bind].
  destruct (list_find _ _) as [[]|]; [done|apply IH].
Qed.

Lemma progresses_left r r' : run_ok r → progresses r r' → run_ok r' ∧ left_to_do r' = left_to_do r - 1.
Proof.
  intros Hr [Hw Hne]. split; [by eapply step_ok, Hw|]. by destruct (works_left _ _ Hr Hw) as [|[-> _]].
Qed.

Lemma progress_counts n r r' :
  run_ok r → nsteps progresses n r r' → run_ok r' ∧ Z.of_nat n = left_to_do r - left_to_do r'.
Proof.
  intros Hr Hn. induction Hn as [r|n r1 r2 r3 Hp _ IH]; [split; [done|lia]|].
  destruct (progresses_left _ _ Hr Hp) as [H2 Hl]. destruct (IH H2). split; [done|lia].
Qed.

Lemma works_progress r r' : run_ok r → rtc works r r' → ∃ n, nsteps progresses n r r'.
Proof.
  intros Hr Hs. induction Hs as [r|r1 r2 r3 Hw _ IH]; [by exists 0%nat; constructor|].
  destruct IH as [n Hn]; [by eapply step_ok, Hw|].
  destruct (works_left _ _ Hr Hw) as [Hl|[-> _]]; [|by exists n]. exists (S n). econstructor; [|done].
  split; [done|]. intros ->. lia.
Qed.

(** C17: The sending loop ends.  However encryptions, completions and heartbeats
    interleave, each step of the loop either does exactly one of the steps left to
    do or is a Turbo heartbeat, which changes nothing: up to heartbeats every run of
    the loop takes as many steps as it does work, and no more than were left.  While
    nothing is in flight there is a step of work to take, until every chunk is
    encrypted and complete and the bytes done are those of the sources. *)
Theorem upload_loop_ends s r master active producer :
  reserved s → reachable s r → mode r = Running master active producer →
  (∀ r', works r r' → left_to_do r' = left_to_do r - 1 ∨ r' = r ∧ turbo (saved (disk r)) = true) ∧
  (∀ r', rtc works r r' → ∃ n, nsteps progresses n r r') ∧
  (∀ n r', nsteps progresses n r r' → Z.of_nat n = left_to_do r - left_to_do r' ∧ Z.of_nat n ≤ left_to_do r) ∧
  (active = [] → producer = None →
     (∃ r', progresses r r') ∨
     next_ready [] (saved (disk r)) = None ∧ next_missing_chunk (saved (disk r)) = Ok None ∧
     done_bytes (saved (disk r)) = sum_Z ((λ i, source_bytes (source i)) <$> items (saved (disk r)))).
Proof.
  intros Hs Hr Hm. pose proof (reachable_ok s r Hs Hr) as Hok. split_and!.
  - intros r'. by apply works_left.
  - intros r'. by apply works_progress.
  - intros n r' Hn. destruct (progress_counts _ _ _ Hok Hn) as [Hok' Heq]. pose proof (left_nonneg r' Hok'). lia.
  - intros -> ->. destruct Hok as [K M].
    pose proof (next_missing_total _ (ok_valid _ _ K) (proj2 (proj2 (ok_sized _ _ K)))) as Ht.
    assert (Hgo : ∀ m, m ≠ Running master [] None → m ≠ Stopped →
      step base r {| disk := disk r; mode := m; emitted := emitted r |} →
      progresses r {| disk := disk r; mode := m; emitted := emitted r |}).
    { intros m Hne Hrun Hstep. split; [split_and!; [unfold working; by rewrite Hm|done|done]|].
      intros Heq. apply (f_equal mode) in Heq. rewrite Hm in Heq. by apply Hne. }
    destruct (next_ready [] (saved (disk r))) as [n|] eqn:En.
    + left. eexists. apply Hgo; [| |by apply (step_spawn base r master [] n)]; done.
    + destruct (next_missing_chunk (saved (disk r))) as [[k|]|] eqn:Ek; [| |done].
      * left. eexists. apply Hgo; [| |by apply (step_produce base r master [] k)]; done.
      * right. split_and!; [done|done|]. rewrite (ok_done _ _ K). apply (whole_bytes _ (emitted r)); [done| |by apply next_ready_None].
        by apply next_missing_chunk_spec in Ek; [|apply K].
Qed.
End invariant.

(** ** A run at a concrete input *)

Module Example_sent.
Import Example_crypto Example_codec Example_upload Example_prepare.

Definition base : string := "/w".
(** The job has no password: its key is the share key. *)
Definition key : list Z := replicate 32 1.
#[export] Instance memory : Sealing.Memory := {| Sealing.memory_limit := 0; Sealing.turns := λ _ _, [] |}.
Definition s0 : State := {| saved := job "preparing" []; files := ∅; sidecars := ∅; clock := 0 |}.
Definition outside : Outside :=
  {| password := Err "unused"%string; host := host0; cancelled := λ _, false; sizes := whole_reads; descriptor := Err "unused"%string;
     published := Err "unused"%string;
     ledger := [Ok {| page_status := "pending"; protocol_version := 1; page_chunk_bytes := 2;
                      upload_transport := None; page_chunks := []; next_cursor := None |}] |}.

(** The ciphertext of each chunk. *)
Definition prepared (pos : Z) : PreparedCiphertext :=
  default {| prep_item := 0; prep_position := 0; prep_plaintext_bytes := 0; ciphertext := [] |}
    (match prepare_one host0 host0 src0 0 ulid2 pos 2 prefix16 key ulid1 with Ok p => Some p | Err _ => None end).

Definition s1 : State := fst (reopen outside s0).
Definition store (pos : Z) (s : State) : State := fst (store_prepared base (prepared pos) (saved s) s).
Definition send (n : nat) (s : State) : State :=
  match chunks (saved s) !! n with Some c => fst (chunk_sent n (set_stage None c) (saved s) s) | None => s end.
Definition s2 : State := store 0 s1.
Definition s3 : State := store 1 s2.
Definition s4 : State := send 0 s3.
Definition s5 : State := send 1 s4.
Definition manifest (j : UploadJob) : result string string := Ok "m"%string.

Definition at_ (s : State) (m : Mode) (e : gmap (nat * Z) (list Z)) : Run := {| disk := s; mode := m; emitted := e |}.
Definition e1 := record base (0%nat, 0) s2 ∅.
Definition e2 := record base (0%nat, 1) s3 e1.

Lemma reserved0 : reserved base s0.
Proof.
  split; [vm_compute; reflexivity| |reflexivity|reflexivity|reflexivity|reflexivity].
  - split_and!; [vm_compute; discriminate| |vm_compute; discriminate].
    repeat constructor; vm_compute; discriminate.
Qed.

Lemma produced (s : State) (pos : Z) (active : list nat) e :
  next_ready active (saved s) = None → next_missing_chunk (saved s) = Ok (Some (0%nat, pos)) →
  items (saved s) = [item0] → transfer_id (saved s) = Some ulid1 → chunk_bytes (saved s) = 2 →
  prepare_one host0 host0 src0 0 ulid2 pos 2 prefix16 key ulid1 = Ok (prepared pos) →
  (∃ j, snd (store_prepared base (prepared pos) (saved s) s) = Ok j) →
  rtc (step base) (at_ s (Running key active None) e)
    (at_ (store pos s) (Running key active None) (record base (0%nat, pos) (store pos s) e)).
Proof.
  intros Hn Hm Hi Ht Hc Hp [j Hj]. eapply rtc_l; [by apply (step_produce base _ key active (0%nat, pos))|].
  eapply rtc_l; [|apply rtc_refl].
  eapply (step_produced base (at_ s _ e) key active 0 pos item0 host0 host0 prefix16 key ulid1 (prepared pos) (store pos s) (Ok j));
    cbn [disk at_]; rewrite ?Hi, ?Ht, ?Hc; try done.
  unfold store. rewrite <- Hj. apply surjective_pairing.
Qed.

Lemma spawn (s : State) (n : nat) e :
  next_ready [] (saved s) = Some n →
  rtc (step base) (at_ s (Running key [] None) e) (at_ s (Running key [n] None) e).
Proof. intros Hn. eapply rtc_l; [by apply (step_spawn base _ key [] n)|apply rtc_refl]. Qed.

Lemma sent (s : State) (n : nat) c e :
  chunks (saved s) !! n = Some c → (∃ j, snd (chunk_sent n (set_stage None c) (saved s) s) = Ok j) →
  rtc (step base) (at_ s (Running key [n] None) e) (at_ (send n s) (Running key [] None) e).
Proof.
  intros Hc [j Hj]. eapply rtc_l; [|apply rtc_refl].
  replace (at_ (send n s) (Running key [] None) e) with
    (at_ (send n s) (mode_of (Ok j) (Running key (filter (λ m, m ≠ n) [n]) None)) e)
    by (cbn [mode_of]; by rewrite filter_cons_False, filter_nil by congruence).
  apply (step_sent base (at_ s _ e) key [n] None n c None (send n s) (Ok j)); try done; [set_solver|].
  cbn [disk at_]. unfold send. rewrite Hc, <- Hj. apply surjective_pairing.
Qed.

Lemma run1 : reachable base s0 (at_ s1 (Running key [] None) ∅).
Proof.
  eapply rtc_l; [|apply rtc_refl].
  eapply (step_reopen base outside (start s0) s1 (Ok (saved s1, key))); [done|cbn; set_solver|done|vm_compute; reflexivity].
Qed.

Lemma run2 : rtc (step base) (at_ s1 (Running key [] None) ∅) (at_ s2 (Running key [0%nat] None) e1).
Proof.
  etrans; [apply (produced s1 0); try (vm_compute; reflexivity)|apply spawn; vm_compute; reflexivity].
  eexists. vm_compute. reflexivity.
Qed.

Lemma run3 : rtc (step base) (at_ s2 (Running key [0%nat] None) e1) (at_ s5 (Running key [] None) e2).
Proof.
  etrans; [apply (produced s2 1); try (vm_compute; reflexivity); eexists; vm_compute; reflexivity|].
  etrans; [eapply (sent s3 0); [vm_compute; reflexivity|eexists; vm_compute; reflexivity]|].
  etrans; [apply spawn; vm_compute; reflexivity|].
  eapply (sent s4 1); [vm_compute; reflexivity|eexists; vm_compute; reflexivity].
Qed.

Lemma upload_invariant_witness :
  validate_job (saved s2) = Ok () ∧ NoDup (chunk_key <$> chunks (saved s2)) ∧ Forall (pending (saved s2)) [0%nat].
Proof.
  destruct (upload_invariant codec_laws base s0 (at_ s2 (Running key [0%nat] None) e1)) as (Hv & _ & Hd & _ & Ha);
    [exact reserved0|exact (transitivity run1 run2)|].
  split; [exact Hv|]. split; [exact Hd|]. exact (proj2 (Ha key [0%nat] None eq_refl)).
Defined.

Lemma ciphertext_unique_witness : e1 ⊆ e2 ∧ genuine (saved s5) (0%nat, 0) ([1; 2] ++ tag).
Proof.
  destruct (ciphertext_unique codec_laws base s0 (at_ s2 (Running key [0%nat] None) e1) (at_ s5 (Running key [] None) e2))
    as (Hsub & Hg & _); [exact reserved0|exact (transitivity run1 run2)|exact run3|].
  split; [exact Hsub|]. apply Hg. vm_compute. reflexivity.
Defined.

Lemma upload_complete_witness :
  ∃ s' u, finish outside manifest (Ok ()) (saved s5) s5 = (s', Ok u) ∧ state (saved s') = "complete"%string ∧
    receipt_url (saved s') = Some u.
Proof.
  eexists _, _. split; [vm_compute; reflexivity|].
  destruct (upload_complete codec_laws base s0 (at_ s5 (Running key [] None) e2)) as [_ Hf];
    [exact reserved0|exact (transitivity (transitivity run1 run2) run3)|].
  destruct (Hf outside key manifest (Ok ()) (fst (finish outside manifest (Ok ()) (saved s5) s5)) "https://a/d/x#k=v1.k"%string)
    as (_ & Hs & Hr & _); [vm_compute; reflexivity..|]. split; [exact Hs|exact Hr].
Defined.

Lemma upload_loop_ends_witness :
  left_to_do (at_ s1 (Running key [] None) ∅) = 9 ∧
  ∀ n r', nsteps (progresses base) n (at_ s1 (Running key [] None) ∅) r' → Z.of_nat n ≤ 9.
Proof.
  split; [vm_compute; reflexivity|]. intros n r' Hn.
  destruct (upload_loop_ends codec_laws base s0 (at_ s1 (Running key [] None) ∅) key [] None) as (_ & _ & Hl & _);
    [exact reserved0|exact run1|reflexivity|]. exact (proj2 (Hl n r' Hn)).
Defined.
End Example_sent.
