(* ===== verification/Staging.v ===== *)
(** * Sending one chunk (crates/transfer-native/src/protocol/upload.rs)

    [upload_chunk]: a direct request, its retries, and the staged upload that
    sends a chunk in parts.  The server, with the network between, is an
    argument: it takes a request and gives a reply or none.  What it promises
    is the class [ServerLaws]; that a chunk is delivered is proved against it. *)

From Stdlib Require Import Ascii String.
From S2P Require Import Prelude F64 Str Frame Codec Transport Http Monad Upload Sending.
From S2P Require Stage.
Open Scope Z_scope.

(** ** Requests *)

(** The requests of one chunk; [stage] is the id of a staged upload of it. *)
Inductive Request :=
  | PutChunk (length : Z) (body : list Z)
  | Begin (stage : string) (ciphertext_bytes : Z) (checksum : string)
  | PutPart (stage : string) (offset : Z) (checksum : string) (part : list Z)
  | CompleteStage (stage : string).

(** A reply's status, its body as a stage status, and its [Retry-After]; or a
    timeout or failure of the connection. *)
Inductive Reply :=
  | Response (status : Z) (body : result string Stage.StageStatus) (retry_after : option Z)
  | NoResponse.

Class Server (Sv : Type) := handle : Sv → Request → Sv * Reply.

(** A poll of the body of a direct request: whether the transfer is cancelled,
    the time since the start, and how much the read returns. *)
Record Poll := { poll_cancelled : bool; poll_elapsed : Z; poll_read : result string Z }.

(** What else is outside: the polls of a request's body, whether the access to
    the sidecar at a tick fails, whether the user cancels at it, and the values
    of the tick. *)
Class Env := {
  polls_at : nat → list Poll;
  sidecar_fault : nat → bool;
  cancel : nat → bool;
  uuid : nat → string;
  rate_at : nat → f64;
  elapsed_at : nat → Z }.

(** What the shared controller is told, and the sleeps. *)
Inductive Effect :=
  | Sent (r : Request)
  | Sampled (loaded : Z)
  | Forgot
  | Observed (bytes elapsed_ms : Z)
  | Congested
  | Slept (delay_ms : Z).

Record World (Sv : Type) := {
  server : Sv;
  sidecar : option Stage.StageSession;
  tick_ : nat;
  effects : list Effect }.
Arguments server {Sv} _.
Arguments sidecar {Sv} _.
Arguments tick_ {Sv} _.
Arguments effects {Sv} _.

Section staging.
Context `{Codec, Env} {Sv : Type} `{Srv : Server Sv}.

Notation M := (SE (World Sv) string).

Definition advance (w : World Sv) : World Sv :=
  {| server := server w; sidecar := sidecar w; tick_ := Datatypes.S (tick_ w); effects := effects w |}.
Definition log (e : Effect) (w : World Sv) : World Sv :=
  {| server := server w; sidecar := sidecar w; tick_ := tick_ w; effects := effects w ++ [e] |}.

(** A value of the outside at the current tick. *)
Definition sample {A} (f : nat → A) : M A := λ w, (advance w, Ok (f (tick_ w))).
Definition tell (e : Effect) : M () := λ w, (log e w, Ok ()).

(** A point where the user's cancellation stops the transfer. *)
Definition interruptible : M () := λ w,
  (advance w, if cancel (tick_ w) then Err "Transfer cancelled" else Ok ()).

(** [control.phase(..)?], [cancellable_sleep(..).await?] *)
Definition pause (delay : Z) : M () :=
  _ ← interruptible; _ ← tell (Slept delay); interruptible.

Definition exchange (r : Request) : M Reply := λ w,
  let '(s, reply) := handle (server w) r in
  ({| server := s; sidecar := sidecar w; tick_ := tick_ w; effects := effects w ++ [Sent r] |}, Ok reply).
Definition send (r : Request) : M Reply :=
  reply ← exchange r;
  _ ← interruptible;
  mret reply.

Definition load_sidecar : M (option Stage.StageSession) := λ w,
  (advance w, if sidecar_fault (tick_ w) then Err "I/O error" else Ok (sidecar w)).

Definition sidecar_io : M () := λ w,
  (advance w, if sidecar_fault (tick_ w) then Err "I/O error" else Ok ()).
Definition put_sidecar (s : Stage.StageSession) : M () := λ w,
  ({| server := server w; sidecar := Some s; tick_ := tick_ w; effects := effects w |}, Ok ()).

(** [save_named] fails before its effect or after it. *)
Definition save_sidecar (s : Stage.StageSession) : M () :=
  _ ← sidecar_io; _ ← put_sidecar s; sidecar_io.

Definition is_success (status : Z) : bool := (200 <=? status) && (status <? 300).

(** ** Staged uploads *)

Definition validate_stage (s : Stage.StageSession) (c : Chunk) : result string () :=
  reject (Stage.id s =? "")%string || negb (Stage.ciphertext_bytes s =? ciphertext_bytes c)
         || negb (Stage.checksum s =? checksum c)%string || (ciphertext_bytes c <? Stage.offset s)
    with "saved stage sidecar does not match immutable ciphertext";
  Ok ().

Definition read_artifact (file : option (list Z)) (c : Chunk) : result string (list Z) :=
  body ← ok_or file "read immutable ciphertext";
  reject negb (zlen body =? ciphertext_bytes c) || negb (sha256_hex body =? checksum c)%string
    with "immutable ciphertext was changed or is corrupt";
  Ok body.

(** [stage_json]: a request that must succeed. *)
Definition stage_json (r : Request) : M Stage.StageStatus :=
  reply ← send r;
  match reply with
  | Response status body _ =>
      if is_success status then of_result body else fail "staging request failed"
  | NoResponse => fail "request failed"
  end.

(** The loop over [attempt in 0..=8], [remaining] attempts before its end. *)
Fixpoint complete_from (remaining : nat) (attempt : Z) (session : Stage.StageSession)
    : M (Stage.StageStatus * Stage.StageSession) :=
  match remaining with
  | O => fail "staged completion retry limit exceeded"
  | S remaining =>
      reply ← send (CompleteStage (Stage.id session));
      match reply with
      | Response status body retry_after =>
          if is_success status then st ← of_result body; mret (st, session)
          else if retryable_status status true then
            session ← of_result (Stage.record_retry session);
            _ ← pause (retry_delay_ms (Stage.retries session) retry_after (attempt * 29));
            complete_from remaining (attempt + 1) session
          else fail "staged completion failed"
      | NoResponse =>
          if attempt =? 8 then fail "staged completion retry limit exceeded" else
          session ← of_result (Stage.record_retry session);
          _ ← pause (retry_delay_ms (Stage.retries session) None (attempt * 29));
          complete_from remaining (attempt + 1) session
      end
  end.
Definition complete_stage (session : Stage.StageSession) : M (Stage.StageStatus * Stage.StageSession) :=
  complete_from 9 0 session.

(** Where a staged upload is: entering [stage], or at the head of its loop. *)
Inductive Phase :=
  | Starting (c : Chunk)
  | Working (c : Chunk) (session : Stage.StageSession) (action : Stage.StageAction) (part_bytes : Z).

(** [stage] up to its loop. *)
Definition begin_stage (policy : UploadTransport) (c : Chunk) : M Phase :=
  _ ← of_result (validate policy);
  saved ← load_sidecar;
  fresh_id ← sample uuid;
  fresh ← of_result (Stage.new fresh_id (ciphertext_bytes c) (checksum c));
  let saved := default (default fresh (stage c)) saved in
  let c := set_stage None c in
  _ ← of_result (validate_stage saved c);
  session ← of_result (Stage.new (Stage.id saved) (ciphertext_bytes c) (checksum c));
  _ ← save_sidecar session;
  started ← stage_json (Begin (Stage.id session) (ciphertext_bytes c) (checksum c));
  r ← of_result (Stage.reconcile session started);
  let '(action, session) := r in
  rate ← sample rate_at;
  mret (Working c session action (Z.max (initial_part_bytes policy rate) (part_min_bytes policy))).

(** [body[offset..offset + size]] *)
Definition slice (body : list Z) (offset size : Z) : list Z :=
  take (Z.to_nat size) (drop (Z.to_nat offset) body).

(** The branch that sends a part. *)
Definition send_part (policy : UploadTransport) (body : list Z) (c : Chunk) (session : Stage.StageSession)
    (offset part_bytes : Z) : M Phase :=
  let size := Z.min (ciphertext_bytes c - offset) part_bytes in
  _ ← of_result (validate_part_count policy (ciphertext_bytes c) part_bytes);
  let part := slice body offset size in
  reply ← send (PutPart (Stage.id session) offset (sha256_hex part) part);
  elapsed ← sample elapsed_at;
  match reply with
  | Response status st retry_after =>
      if is_success status then
        st ← of_result st;
        r ← of_result (Stage.acknowledge_part session offset size st);
        let '(action, session) := r in
        _ ← save_sidecar session;
        _ ← tell (Observed size elapsed);
        mret (Working c session action (grow_part policy part_bytes size elapsed))
      else if retryable_status status true then
        session ← of_result (Stage.record_retry session);
        _ ← tell Congested;
        _ ← pause (retry_delay_ms (Stage.retries session) retry_after 0);
        mret (Working c session (Stage.ActContinue offset) (shrink_part policy part_bytes))
      else if status =? 410 then
        new_id ← sample uuid;
        session ← of_result (Stage.reset session new_id);
        _ ← save_sidecar session;
        mret (Starting (set_stage (Some session) c))
      else fail "staged part upload failed"
  | NoResponse =>
      session ← of_result (Stage.record_retry session);
      _ ← tell Congested;
      _ ← pause (retry_delay_ms (Stage.retries session) None 0);
      mret (Working c session (Stage.ActContinue offset) part_bytes)
  end.

(** Entering [stage], or one turn of its loop. *)
Definition stage_turn (policy : UploadTransport) (body : list Z) (p : Phase) : M (Phase + Chunk) :=
  match p with
  | Starting c => p ← begin_stage policy c; mret (inl p)
  | Working c session Stage.ActComplete _ => mret (inr (set_stage (Some session) c))
  | Working c session Stage.ActFinalizing part_bytes =>
      r ← complete_stage session;
      let '(st, session) := r in
      r ← of_result (Stage.reconcile session st);
      let '(action, session) := r in
      _ ← save_sidecar session;
      mret (inl (Working c session action part_bytes))
  | Working c session (Stage.ActContinue offset) part_bytes =>
      if offset =? ciphertext_bytes c then mret (inl (Working c session Stage.ActFinalizing part_bytes))
      else p ← send_part policy body c session offset part_bytes; mret (inl p)
  end.

(** [None] when the fuel runs out; see [stage_terminates]. *)
Fixpoint stage_from (fuel : nat) (policy : UploadTransport) (body : list Z) (p : Phase) : M (option Chunk) :=
  match fuel with
  | O => mret None
  | S fuel =>
      r ← stage_turn policy body p;
      match r with
      | inl p => stage_from fuel policy body p
      | inr c => mret (Some c)
      end
  end.

(** ** Direct uploads *)

Definition BODY_BUFFER_BYTES : Z := 65536.

(** The stream of the body: the pieces it sent, and whether it gave the direct
    request up.  It is dropped, at any poll, when a deadline passes. *)
Fixpoint stream_body (policy : option UploadTransport) (total : Z) (file : list Z) (loaded : Z) (polls : list Poll)
    : list (list Z) * bool :=
  match polls with
  | [] => ([], false)
  | p :: polls =>
      if poll_cancelled p then ([], false) else
      if from_option (λ t, should_abandon_direct t total loaded (poll_elapsed p)) false policy then ([], true) else
      let remaining := saturating_sub total loaded in
      if remaining =? 0 then ([], false) else
      match poll_read p with
      | Err _ => ([], false)
      | Ok size =>
          let piece := take (Z.to_nat (clamp size 1 (Z.min remaining BODY_BUFFER_BYTES))) (drop (Z.to_nat loaded) file) in
          if zlen piece =? 0 then ([], false) else
          let '(rest, abandoned) := stream_body policy total file (loaded + zlen piece) polls in
          (piece :: rest, abandoned)
      end
  end.

Fixpoint tell_samples (loaded : Z) (pieces : list (list Z)) : M () :=
  match pieces with
  | [] => mret ()
  | p :: pieces => _ ← tell (Sampled (loaded + zlen p)); tell_samples (loaded + zlen p) pieces
  end.

(** [direct_request]: a deadline that passes is no response. *)
Definition direct_request (policy : option UploadTransport) (file : option (list Z)) (c : Chunk)
    : M (option (Z * option Z) * bool) :=
  match file with
  | None => mret (None, false)
  | Some file =>
      polls ← sample polls_at;
      let '(pieces, abandoned) := stream_body policy (ciphertext_bytes c) file 0 polls in
      reply ← exchange (PutChunk (ciphertext_bytes c) (concat pieces));
      _ ← tell_samples 0 pieces;
      elapsed ← sample elapsed_at;
      _ ← tell Forgot;
      match reply with
      | Response status _ retry_after =>
          _ ← (if status =? 201 then tell (Observed (ciphertext_bytes c) elapsed) else mret ());
          mret (Some (status, retry_after), abandoned)
      | NoResponse => mret (None, abandoned)
      end
  end.

(** The loop over [attempt in 0..5]. *)
Fixpoint direct_from (remaining : nat) (attempt : Z) (file : option (list Z)) (c : Chunk) : M Chunk :=
  match remaining with
  | O => fail "chunk upload retry limit exceeded"
  | S remaining =>
      _ ← interruptible;
      r ← direct_request None file c;
      let '(reply, _) := r in
      let retry retry_after :=
        _ ← tell Congested;
        _ ← pause (retry_delay_ms attempt retry_after (attempt * 37));
        direct_from remaining (attempt + 1) file c in
      match reply with
      | Some (status, retry_after) =>
          if status =? 201 then mret c
          else if retryable_status status false then retry retry_after
          else fail "chunk upload failed"
      | None => retry None
      end
  end.
Definition retry_direct (file : option (list Z)) (c : Chunk) : M Chunk := direct_from 5 0 file c.

(** Whether a direct request that was not accepted is worth another way. *)
Definition hopeless (c : Chunk) (reply : option (Z * option Z)) : bool :=
  match reply with
  | Some (status, _) =>
      negb ((status =? 413) || bool_decide (is_Some (stage c)) || retryable_status status false)
  | None => false
  end.

Definition upload_chunk (fuel : nat) (policy : option UploadTransport) (file : option (list Z)) (c : Chunk)
    : M (option Chunk) :=
  rate ← sample rate_at;
  match policy with
  | Some p =>
      if bool_decide (is_Some (stage c)) && should_stage p (ciphertext_bytes c) rate then
        body ← of_result (read_artifact file c);
        stage_from fuel p body (Starting c)
      else
        r ← direct_request policy file c;
        let '(reply, _) := r in
        if bool_decide (fst <$> reply = Some 201) then mret (Some c) else
        if hopeless c reply then fail "chunk upload failed" else
        _ ← interruptible;
        body ← of_result (read_artifact file c);
        stage_from fuel p body (Starting c)
  | None =>
      r ← direct_request policy file c;
      let '(reply, _) := r in
      if bool_decide (fst <$> reply = Some 201) then mret (Some c) else
      if hopeless c reply then fail "chunk upload failed" else
      c ← retry_direct file c; mret (Some c)
  end.
End staging.

(** ** What the server promises *)

(** [content] is what the server accepted for a staged upload, [stored] the
    chunk once it is published.  A part is accepted whole, at the end of what
    is there, or not at all; an expired upload starts again; a status never
    reports more than was accepted; a created or complete chunk is stored. *)
Class ServerLaws `{Srv : Server Sv} := {
  content : Sv → string → list Z;
  stored : Sv → option (list Z);
  part_whole s i off sum part s' reply k :
    handle s (PutPart i off sum part) = (s', reply) →
    content s' k = content s k ∨ content s' k = [] ∨
    (k = i ∧ off = zlen (content s i) ∧ content s' i = content s i ++ part);
  part_only s r s' reply k :
    (∀ i off sum part, r ≠ PutPart i off sum part) → handle s r = (s', reply) →
    content s' k = content s k ∨ content s' k = [];
  status_honest s r s' code st retry_after :
    handle s r = (s', Response code (Ok st) retry_after) → is_success code = true →
    Stage.st_offset st ≤ zlen (content s' (Stage.st_id st)) ∧
    (Stage.st_state st = Stage.Complete → stored s' = Some (content s' (Stage.st_id st)));
  created_stored s n body s' st retry_after :
    handle s (PutChunk n body) = (s', Response 201 st retry_after) → stored s' = Some body ∧ zlen body = n }.

Section delivery.
Context `{Codec, Env} {Sv : Type} `{Srv : Server Sv} `{!ServerLaws}.
(** A chunk and its ciphertext. *)
Context (c0 : Chunk) (body : list Z).
Context (Hlen : zlen body = ciphertext_bytes c0).

Notation M := (SE (World Sv) string).

(** A request carries exactly the bytes it is for. *)
Definition exact (r : Request) : Prop :=
  match r with
  | PutChunk n b => n = zlen body ∧ b `prefix_of` body
  | Begin _ n sum => n = zlen body ∧ sum = checksum c0
  | PutPart _ off sum part =>
      ∃ size, 0 ≤ off ∧ off + size ≤ zlen body ∧ part = slice body off size ∧ sum = sha256_hex part
  | CompleteStage _ => True
  end.

Definition exact_effect (e : Effect) : Prop := match e with Sent r => exact r | _ => True end.

(** The server holds only beginnings of the ciphertext. *)
Definition beginnings (s : Sv) : Prop := ∀ k, content s k `prefix_of` body.

Definition good (w : World Sv) : Prop := beginnings (server w) ∧ Forall exact_effect (effects w).

Lemma slice_append off size :
  0 ≤ off ≤ zlen body → off + size ≤ zlen body → take (Z.to_nat off) body ++ slice body off size `prefix_of` body.
Proof.
  intros Ho Hs. destruct (decide (0 ≤ size)) as [Hp|Hp].
  - exists (drop (Z.to_nat size) (drop (Z.to_nat off) body)). unfold slice.
    by rewrite <- app_assoc, !take_drop.
  - unfold slice. replace (Z.to_nat size) with 0%nat by lia. rewrite take_0, app_nil_r.
    exists (drop (Z.to_nat off) body). by rewrite take_drop.
Qed.

Lemma prefix_take (l : list Z) : l `prefix_of` body → l = take (length l) body ∧ zlen l ≤ zlen body.
Proof. intros [k ->]. rewrite take_app_length. unfold zlen. rewrite length_app. split; [done|lia]. Qed.

Lemma handle_beginnings s r s' reply :
  exact r → beginnings s → handle s r = (s', reply) → beginnings s'.
Proof.
  intros Hr Hb Hh k. assert (Hnil : [] `prefix_of` body) by apply prefix_nil.
  assert (Hother : (∀ i off sum p, r ≠ PutPart i off sum p) → content s' k `prefix_of` body).
  { intros Hr'. destruct (part_only _ _ _ _ k Hr' Hh) as [-> | ->]; [apply Hb|done]. }
  destruct r as [n b|i n sum|i off sum part|i]; try (by apply Hother).
  destruct Hr as (size & H0' & Hs & -> & ->).
  destruct (part_whole _ _ _ _ _ _ _ k Hh) as [-> |[-> |(-> & Hoff & ->)]]; [apply Hb|done|].
  destruct (prefix_take _ (Hb i)) as [Ht Hl]. rewrite Ht. unfold zlen in Hoff.
  replace (length (content s i)) with (Z.to_nat off) by lia. apply slice_append; unfold zlen in *; lia.
Qed.

(** ** Triples over the server's state *)

Definition hoare {A} (P : Sv → Prop) (m : M A) (Q : A → Sv → Prop) : Prop :=
  ∀ w w' r, m w = (w', r) → good w → P (server w) → good w' ∧ ∀ a, r = Ok a → Q a (server w').

Definition quiet {A} (m : M A) : Prop :=
  ∀ w w' r, m w = (w', r) → server w' = server w ∧ (good w → good w').

Lemma h_bind {A B} P (m : M A) (f : A → M B) Q R :
  hoare P m Q → (∀ a, hoare (Q a) (f a) R) → hoare P (m ≫= f) R.
Proof.
  intros Hm Hf w w' r Hr Hg Hp. apply bind_run in Hr as [(e & Hr & ->)|(w1 & a & H1' & Hr)].
  - destruct (Hm _ _ _ Hr Hg Hp). done.
  - destruct (Hm _ _ _ H1' Hg Hp) as [Hg1 Ha]. by apply (Hf a w1 w' r Hr Hg1), Ha.
Qed.

Lemma h_quiet {A B} P (m : M A) (f : A → M B) R :
  quiet m → (∀ a, hoare P (f a) R) → hoare P (m ≫= f) R.
Proof.
  intros Hm Hf. apply (h_bind P m f (λ _, P)); [|done]. intros w w' r Hr Hg Hp.
  destruct (Hm _ _ _ Hr) as [-> Hg']. by auto.
Qed.

Lemma h_result {A B} P (x : result string A) (f : A → M B) R :
  (∀ a, x = Ok a → hoare P (f a) R) → hoare P (of_result x ≫= f) R.
Proof.
  intros Hf w w' r Hr Hg Hp. apply bind_run in Hr as [(e & [= <- ->] & ->)|(w1 & a & [= <- ->] & Hr)]; [done|].
  by apply (Hf a eq_refl w w').
Qed.

Lemma h_ret {A} P (a : A) (Q : A → Sv → Prop) : (∀ s, beginnings s → P s → Q a s) → hoare P (mret a) Q.
Proof. intros HQ w w' r [= <- <-] Hg Hp. split; [done|]. intros ? [= <-]. by apply HQ; [apply Hg|]. Qed.

Lemma h_fail {A} P e (Q : A → Sv → Prop) : hoare P (fail e) Q.
Proof. by intros w w' r [= <- <-] Hg Hp. Qed.

Lemma h_pre {A} P P' (m : M A) Q : (∀ s, P s → P' s) → hoare P' m Q → hoare P m Q.
Proof. intros HP Hm w w' r Hr Hg Hp. eapply Hm; eauto. Qed.

(** What a precondition says of things other than the server. *)
Lemma h_fact {A} (φ : Prop) P (m : M A) Q : (∀ s, P s → φ) → (φ → hoare P m Q) → hoare P m Q.
Proof. intros HP Hm w w' r Hr Hg Hp. by apply (Hm (HP _ Hp) w w' r). Qed.

Lemma h_if {A} P (b : bool) (m1 m2 : M A) Q :
  (b = true → hoare P m1 Q) → (b = false → hoare P m2 Q) → hoare P (if b then m1 else m2) Q.
Proof. destruct b; auto. Qed.

Lemma quiet_bind {A B} (m : M A) (f : A → M B) : quiet m → (∀ a, quiet (f a)) → quiet (m ≫= f).
Proof.
  intros Hm Hf w w' r Hr. apply bind_run in Hr as [(e & Hr & _)|(w1 & a & H1' & Hr)]; [by eapply Hm|].
  destruct (Hm _ _ _ H1') as [E1 G1], (Hf a _ _ _ Hr) as [E2 G2]. split; [congruence|auto].
Qed.

Lemma quiet_sample {A} (f : nat → A) : quiet (sample f).
Proof. by intros w w' r [= <- _]. Qed.
Lemma quiet_interruptible : quiet interruptible.
Proof. by intros w w' r [= <- _]. Qed.
Lemma quiet_load : quiet load_sidecar.
Proof. by intros w w' r [= <- _]. Qed.
Lemma quiet_ret {A} (a : A) : quiet (mret a).
Proof. by intros w w' r [= <- _]. Qed.
Lemma quiet_tell e : exact_effect e → quiet (tell e).
Proof.
  intros He w w' r [= <- _]. split; [done|]. intros [Hb Hf]. split; [done|]. cbn. apply Forall_app. by repeat constructor.
Qed.
Lemma quiet_sidecar s : quiet (save_sidecar s).
Proof. unfold save_sidecar. repeat (apply quiet_bind; [by intros w w' r [= <- _]|intros _]). by intros w w' r [= <- _]. Qed.
Lemma quiet_pause d : quiet (pause d).
Proof.
  apply quiet_bind; [apply quiet_interruptible|intros _]. apply quiet_bind; [by apply quiet_tell|intros _]. apply quiet_interruptible.
Qed.

(** What a reply tells of the server. *)
Definition answered (r : Request) (reply : Reply) (s' : Sv) : Prop := ∃ s, handle s r = (s', reply).

Lemma h_exchange P r : exact r → hoare P (exchange r) (λ reply s, answered r reply s).
Proof.
  intros Hr w w' x Hx [Hb Hf] Hp. unfold exchange in Hx. destruct (handle (server w) r) as [s reply] eqn:Eh.
  injection Hx as <- <-. split; [split|].
  - by eapply handle_beginnings.
  - apply Forall_app. by repeat constructor.
  - intros ? [= <-]. by exists (server w).
Qed.

Lemma h_send P r : exact r → hoare P (send r) (λ reply s, answered r reply s).
Proof.
  intros Hr. unfold send. eapply h_bind; [by apply h_exchange|]. intros reply.
  apply h_quiet; [apply quiet_interruptible|intros _]. by apply h_ret.
Qed.

(** A status that came with success. *)
Definition reported (st : Stage.StageStatus) (s : Sv) : Prop :=
  Stage.st_offset st ≤ zlen (content s (Stage.st_id st)) ∧
  (Stage.st_state st = Stage.Complete → stored s = Some (content s (Stage.st_id st))).

Lemma answered_reported r code st ra s : answered r (Response code (Ok st) ra) s → is_success code = true → reported st s.
Proof. intros [s0 Hh] Hc. exact (status_honest _ _ _ _ _ _ Hh Hc). Qed.

(** ** The session *)

Definition session_ok (s : Stage.StageSession) : Prop := Stage.ciphertext_bytes s = zlen body ∧ 0 ≤ Stage.offset s.

(** The action follows from a status the session accepted. *)
Definition action_ok (session : Stage.StageSession) (action : Stage.StageAction) (s : Sv) : Prop :=
  match action with
  | Stage.ActContinue o => o = Stage.offset session ∧ o ≤ zlen body
  | Stage.ActFinalizing => True
  | Stage.ActComplete => stored s = Some body
  end.

Lemma accepted_status session st :
  session_ok session → Stage.validate_status session st = Ok () →
  0 ≤ Stage.st_offset st ≤ zlen body ∧
  ∀ s, beginnings s → reported st s → Stage.st_state st = Stage.Complete → stored s = Some body.
Proof.
  intros [Hc Ho] (_ & _ & _ & Hoff & Hst & _)%Stage.validate_status_Ok. split; [lia|].
  intros s Hb [Hle Hcomp] Hstate. rewrite (Hcomp Hstate). f_equal.
  destruct (prefix_take _ (Hb (Stage.st_id st))) as [Ht Hz]. rewrite Ht. apply take_ge.
  rewrite Hst in Hle by congruence. unfold zlen in *. lia.
Qed.

Lemma reconcile_ok session st action session' :
  session_ok session → Stage.reconcile session st = Ok (action, session') →
  session_ok session' ∧ ∀ s, beginnings s → reported st s → action_ok session' action s.
Proof.
  intros Hs (Hv & -> & _ & Hc & _ & Ho & Hst & _)%Stage.reconcile_Ok.
  destruct (accepted_status _ _ Hs Hv) as [Hoff Hcomp]. split; [split; [rewrite Hc; apply Hs|lia]|].
  intros s Hb Hr. unfold action_ok, Stage.action. destruct (Stage.st_state st) eqn:E; [lia|done|by apply Hcomp].
Qed.

Lemma acknowledge_ok session start n st action session' :
  session_ok session → Stage.acknowledge_part session start n st = Ok (action, session') →
  session_ok session' ∧ ∀ s, beginnings s → reported st s → action_ok session' action s.
Proof.
  intros Hs (Hv & -> & _ & _ & _ & _ & Hc & _ & Ho & Hst & _)%Stage.acknowledge_part_Ok.
  destruct (accepted_status _ _ Hs Hv) as [Hoff Hcomp]. split; [split; [rewrite Hc; apply Hs|lia]|].
  intros s Hb Hr. unfold action_ok, Stage.action. destruct (Stage.st_state st) eqn:E; [lia|done|by apply Hcomp].
Qed.

Lemma retry_ok session session' :
  session_ok session → Stage.record_retry session = Ok session' → session_ok session' ∧ Stage.offset session' = Stage.offset session.
Proof. intros [Hc Ho] (_ & _ & Hc' & Ho' & _)%Stage.record_retry_Ok. unfold session_ok. rewrite Hc', Ho'. done. Qed.

Lemma new_ok i sum session : Stage.new i (zlen body) sum = Ok session → session_ok session.
Proof. unfold Stage.new. intros Hn. guards Hn. injection Hn as <-. by split. Qed.

Lemma complete_from_ok remaining attempt session P :
  session_ok session →
  hoare P (complete_from remaining attempt session) (λ r s, reported (fst r) s ∧ session_ok (snd r)).
Proof.
  revert attempt session P. induction remaining as [|remaining IH]; intros attempt session P Hs; cbn [complete_from]; [apply h_fail|].
  eapply h_bind; [by apply h_send|]. intros [status st ra|].
  - apply h_if; intros Ec.
    + apply h_result. intros a ->. apply h_ret. intros s _ Ha. split; [by eapply answered_reported|done].
    + apply h_if; intros Er; [|apply h_fail]. apply h_result. intros s' Hr. destruct (retry_ok _ _ Hs Hr) as [Hs' _].
      apply h_quiet; [apply quiet_pause|intros _]. by apply IH.
  - apply h_if; intros Ea; [apply h_fail|]. apply h_result. intros s' Hr. destruct (retry_ok _ _ Hs Hr) as [Hs' _].
    apply h_quiet; [apply quiet_pause|intros _]. by apply IH.
Qed.

(** ** The stages of an upload *)

(** The chunk, but for its session. *)
Definition this_chunk (c : Chunk) : Prop := set_stage None c = set_stage None c0.

Definition phase_ok (p : Phase) (s : Sv) : Prop :=
  match p with
  | Starting c => this_chunk c
  | Working c session action _ => this_chunk c ∧ session_ok session ∧ action_ok session action s
  end.

Lemma this_chunk_parts c : this_chunk c → ciphertext_bytes c = zlen body ∧ checksum c = checksum c0.
Proof. intros Hc. rewrite Hlen. split; [exact (f_equal ciphertext_bytes Hc)|exact (f_equal checksum Hc)]. Qed.

Lemma begin_ok policy c P : this_chunk c → hoare P (begin_stage policy c) (λ p s, phase_ok p s).
Proof.
  intros Hc. destruct (this_chunk_parts c Hc) as [Hz Hsum]. unfold begin_stage. apply h_result. intros _ _.
  apply h_quiet; [apply quiet_load|intros saved]. apply h_quiet; [apply quiet_sample|intros fresh_id].
  apply h_result. intros fresh _. apply h_result. intros _ _. apply h_result. intros session Hn. cbn in Hn.
  rewrite Hz in Hn. apply new_ok in Hn. apply h_quiet; [apply quiet_sidecar|intros _].
  eapply (h_bind _ _ _ (λ st s, reported st s)).
  - unfold stage_json. eapply h_bind; [by apply h_send; cbn; rewrite Hz, Hsum|]. intros [status st ra|]; [|apply h_fail].
    apply h_if; intros Es; [|apply h_fail]. intros w w' r [= <- <-] Hg Ha. split; [done|]. intros a ->. by eapply answered_reported.
  - intros st. apply h_result. intros [action session'] Hr. destruct (reconcile_ok _ _ _ _ Hn Hr) as [Hs' Ha].
    apply h_quiet; [apply quiet_sample|intros rate]. apply h_ret. intros s Hb Hrep. split_and!; [done|done|by apply Ha].
Qed.

Lemma send_part_ok policy c session offset part_bytes P :
  this_chunk c → session_ok session → offset = Stage.offset session → offset ≤ zlen body →
  hoare P (send_part policy body c session offset part_bytes) (λ p s, phase_ok p s).
Proof.
  intros Hc Hs Ho Hle. destruct (this_chunk_parts c Hc) as [Hz Hsum]. unfold send_part. apply h_result. intros _ _.
  eapply h_bind.
  { apply h_send. exists (Z.min (ciphertext_bytes c - offset) part_bytes). split_and!; [subst; apply Hs|lia|done|done]. }
  intros reply. apply h_quiet; [apply quiet_sample|intros elapsed].
  assert (Hagain : ∀ d pb Q, hoare Q (session' ← of_result (Stage.record_retry session); _ ← tell Congested;
      _ ← pause (d session'); mret (Working c session' (Stage.ActContinue offset) pb) : M Phase) (λ p s, phase_ok p s)).
  { intros d pb Q. apply h_result. intros s' Hr. destruct (retry_ok _ _ Hs Hr) as [Hs' Ho'].
    apply h_quiet; [by apply quiet_tell|intros _]. apply h_quiet; [apply quiet_pause|intros _]. apply h_ret. intros s _ _.
    split_and!; [done|done|]. split; [congruence|done]. }
  destruct reply as [status st ra|]; [|by apply (Hagain (λ session, retry_delay_ms (Stage.retries session) None 0))].
  apply h_if; intros Es.
  - apply h_result. intros st' ->. apply h_result. intros [action session'] Hr.
    destruct (acknowledge_ok _ _ _ _ _ _ Hs Hr) as [Hs' Ha].
    apply h_quiet; [apply quiet_sidecar|intros _]. apply h_quiet; [by apply quiet_tell|intros _]. apply h_ret.
    intros s Hb Hans. split_and!; [done|done|]. apply Ha; [done|]. by eapply answered_reported.
  - apply h_if; intros Er; [by apply (Hagain (λ session, retry_delay_ms (Stage.retries session) ra 0))|].
    apply h_if; intros Eg; [|apply h_fail]. apply h_quiet; [apply quiet_sample|intros new_id].
    apply h_result. intros session' _. apply h_quiet; [apply quiet_sidecar|intros _]. apply h_ret. by intros s _ _.
Qed.

Definition turn_ok (r : Phase + Chunk) (s : Sv) : Prop :=
  match r with inl p => phase_ok p s | inr c => this_chunk c ∧ stored s = Some body end.

Lemma finalizing_ok c session part_bytes P :
  this_chunk c → session_ok session → 
  hoare P (r ← complete_stage session; let '(st, session) := r in
    r ← of_result (Stage.reconcile session st); let '(action, session) := r in
    _ ← save_sidecar session; mret (inl (Working c session action part_bytes)) : M (Phase + Chunk)) turn_ok.
Proof.
  intros Hc Hs. eapply h_bind; [by apply complete_from_ok|]. intros [st session1]. cbn [fst snd].
  apply (h_fact (session_ok session1)); [by intros s []|intros Hs1].
  apply h_result. intros [action session2] Hrec. destruct (reconcile_ok _ _ _ _ Hs1 Hrec) as [Hs2 Ha2].
  apply h_quiet; [apply quiet_sidecar|intros _]. apply h_ret. intros s Hb [Hrep _]. split_and!; [done|done|by apply Ha2].
Qed.

Lemma turn_keeps policy p : hoare (phase_ok p) (stage_turn policy body p) turn_ok.
Proof.
  destruct p as [c|c session [offset| |] part_bytes]; cbn [stage_turn phase_ok].
  - apply (h_fact (this_chunk c)); [done|intros Hc].
    eapply h_bind; [by apply begin_ok|]. intros p. by apply h_ret.
  - apply (h_fact (this_chunk c ∧ session_ok session ∧ offset = Stage.offset session ∧ offset ≤ zlen body)); [done|].
    intros (Hc & Hs & Ho & Hle). apply h_if; intros E; [apply h_ret; by intros s _ (_ & _ & _)|].
    eapply h_bind; [by apply send_part_ok|]. intros p. by apply h_ret.
  - apply (h_fact (this_chunk c ∧ session_ok session)); [by intros s (? & ? & _)|]. intros [Hc Hs]. by apply finalizing_ok.
  - apply h_ret. by intros s _ (? & _ & ?).
Qed.

Definition delivered (c : option Chunk) (s : Sv) : Prop :=
  match c with Some c => this_chunk c ∧ stored s = Some body | None => True end.

Lemma stage_from_ok fuel policy p : hoare (phase_ok p) (stage_from fuel policy body p) delivered.
Proof.
  revert p. induction fuel as [|fuel IH]; intros p; cbn [stage_from]; [by apply h_ret|].
  eapply h_bind; [apply turn_keeps|]. intros [p'|c]; [apply IH|by apply h_ret].
Qed.

Lemma stream_prefix policy loaded polls :
  0 ≤ loaded →
  concat (fst (stream_body policy (zlen body) body loaded polls)) `prefix_of` drop (Z.to_nat loaded) body.
Proof.
  revert loaded. induction polls as [|p polls IH]; intros loaded H0'; cbn [stream_body]; [apply prefix_nil|].
  destruct (poll_cancelled p); [apply prefix_nil|]. destruct (from_option _ _ _); [apply prefix_nil|].
  destruct (_ =? 0); [apply prefix_nil|]. destruct (poll_read p) as [size|]; [|apply prefix_nil].
  set (piece := take _ _). destruct (zlen piece =? 0); [apply prefix_nil|].
  specialize (IH (loaded + zlen piece)). destruct (stream_body _ _ _ _ polls) as [rest ab]. cbn [fst concat] in *.
  assert (Hd : drop (Z.to_nat loaded) body = piece ++ drop (Z.to_nat (loaded + zlen piece)) body).
  { replace (Z.to_nat (loaded + zlen piece)) with (Z.to_nat loaded + length piece)%nat by (unfold zlen; lia).
    rewrite <- drop_drop. unfold piece. rewrite length_take.
    set (n := Z.to_nat (clamp _ _ _)). set (l := drop (Z.to_nat loaded) body).
    destruct (decide (n ≤ length l)%nat).
    - replace (n `min` length l)%nat with n by lia. by rewrite take_drop.
    - replace (n `min` length l)%nat with (length l) by lia. rewrite (take_ge l n) by lia.
      by rewrite drop_all, app_nil_r. }
  rewrite Hd. apply prefix_app, IH. unfold zlen. lia.
Qed.

Lemma quiet_samples loaded pieces : quiet (tell_samples loaded pieces).
Proof.
  revert loaded. induction pieces as [|p pieces IH]; intros loaded; cbn [tell_samples]; [apply quiet_ret|].
  apply quiet_bind; [by apply quiet_tell|intros _; apply IH].
Qed.

Lemma direct_ok policy c P :
  this_chunk c →
  hoare P (direct_request policy (Some body) c) (λ r s, fst <$> fst r = Some 201 → stored s = Some body).
Proof.
  intros Hc. destruct (this_chunk_parts c Hc) as [Hz _]. unfold direct_request. rewrite Hz.
  apply h_quiet; [apply quiet_sample|intros polls]. pose proof (stream_prefix policy 0 polls ltac:(lia)) as Hpre.
  rewrite drop_0 in Hpre. destruct (stream_body _ _ _ _ polls) as [pieces abandoned]. cbn [fst] in Hpre.
  eapply h_bind; [by apply h_exchange|]. intros reply. apply h_quiet; [apply quiet_samples|intros _].
  apply h_quiet; [apply quiet_sample|intros elapsed]. apply h_quiet; [by apply quiet_tell|intros _].
  destruct reply as [status st ra|]; [|by apply h_ret].
  apply h_quiet; [destruct (status =? 201); [by apply quiet_tell|apply quiet_ret]|intros _].
  apply h_ret. intros s _ [s0 Hh] [= ->]. apply created_stored in Hh as [-> Hl]. f_equal.
  destruct (prefix_take _ Hpre) as [Ht _]. rewrite Ht. apply take_ge. unfold zlen in *. lia.
Qed.

Lemma direct_from_ok remaining attempt c P :
  this_chunk c → hoare P (direct_from remaining attempt (Some body) c) (λ c s, this_chunk c ∧ stored s = Some body).
Proof.
  intros Hc. revert attempt P. induction remaining as [|remaining IH]; intros attempt P; cbn [direct_from]; [apply h_fail|].
  apply h_quiet; [apply quiet_interruptible|intros _]. eapply h_bind; [by apply direct_ok|]. intros [[[status ra]|] ab].
  - apply h_if; intros E1; [apply h_ret; intros s _ Hst; split; [done|]; apply Hst; cbn; bool_prop; congruence|].
    apply h_if; intros E2; [|apply h_fail]. apply h_quiet; [by apply quiet_tell|intros _].
    apply h_quiet; [apply quiet_pause|intros _]. apply IH.
  - apply h_quiet; [by apply quiet_tell|intros _]. apply h_quiet; [apply quiet_pause|intros _]. apply IH.
Qed.

Lemma staged_ok fuel policy P :
  hoare P (b ← of_result (read_artifact (Some body) c0); stage_from fuel policy b (Starting c0)) delivered.
Proof.
  apply h_result. intros b Hb. unfold read_artifact in Hb. cbn [ok_or mbind result_bind] in Hb. guards Hb. injection Hb as <-.
  apply (h_pre _ (phase_ok (Starting c0))); [done|]. apply stage_from_ok.
Qed.

(** C21: What is delivered is the ciphertext: against any server that keeps its
    promises, and whatever requests or replies are lost, the server only ever
    holds beginnings of the chunk's ciphertext, each request carries exactly
    the bytes it names, and when the upload of a chunk succeeds the chunk the
    server stored is the whole ciphertext. *)
Theorem chunk_delivered fuel policy w w' r :
  good w → upload_chunk fuel policy (Some body) c0 w = (w', r) →
  good w' ∧ ∀ c, r = Ok (Some c) → set_stage None c = set_stage None c0 ∧ stored (server w') = Some body.
Proof.
  intros Hg Hr.
  enough (Hh : hoare (λ _, True) (upload_chunk fuel policy (Some body) c0) delivered).
  { destruct (Hh w w' r Hr Hg I) as [Hg' Hd]. split; [done|]. intros c ->. by apply (Hd (Some c)). }
  clear w w' r Hg Hr. assert (Hthis : this_chunk c0) by done. unfold upload_chunk.
  apply h_quiet; [apply quiet_sample|intros rate].
  assert (Hdirect : ∀ p (k : M (option Chunk)), (∀ P, hoare P k delivered) →
    hoare (λ _, True) (r ← direct_request p (Some body) c0;
      let '(reply, _) := r in
      if bool_decide (fst <$> reply = Some 201) then mret (Some c0) else
      if hopeless c0 reply then fail "chunk upload failed"%string else k) delivered).
  { intros p k Hk. eapply h_bind; [by apply direct_ok|]. intros [reply ab]. cbn [fst].
    apply h_if; intros E1; [apply h_ret; intros s _ Hst; bool_prop; by split; [|apply Hst]|].
    apply h_if; intros E2; [apply h_fail|]. apply Hk. }
  destruct policy as [policy|].
  - apply h_if; intros _; [apply staged_ok|]. apply Hdirect. intros P.
    apply h_quiet; [apply quiet_interruptible|intros _]. apply staged_ok.
  - apply Hdirect. intros P. eapply h_bind; [by apply direct_from_ok|]. intros c. by apply h_ret.
Qed.
End delivery.

(** ** The loop of a staged upload ends *)

Section termination.
Context `{Codec, Env} {Sv : Type} `{Srv : Server Sv}.
Context (policy : UploadTransport) (body : list Z).

(** The server does not lose the upload, and completes what it says it
    completed.  Without either the loop need not end: see
    [expired_uploads_never_end] and [finalizing_never_ends]. *)
Definition settles : Prop :=
  ∀ s r s' code st retry_after, handle s r = (s', Response code st retry_after) →
    ((∃ i off sum part, r = PutPart i off sum part) → code ≠ 410) ∧
    (∀ i status, r = CompleteStage i → is_success code = true → st = Ok status → Stage.st_state status = Stage.Complete).

(** The turns left. *)
Definition turns (p : Phase) : Z :=
  match p with
  | Starting c => 9 * ciphertext_bytes c + 12
  | Working c session (Stage.ActContinue _) _ =>
      9 * (ciphertext_bytes c - Stage.offset session) + (Stage.MAX_STAGE_RETRIES - Stage.retries session) + 3
  | Working _ _ Stage.ActFinalizing _ => 2
  | Working _ _ Stage.ActComplete _ => 1
  end.

Definition counted (p : Phase) : Prop :=
  match p with
  | Starting c => 0 ≤ ciphertext_bytes c
  | Working c session action _ =>
      Stage.ciphertext_bytes session = ciphertext_bytes c ∧ 0 ≤ Stage.offset session ≤ ciphertext_bytes c ∧
      0 ≤ Stage.retries session ≤ Stage.MAX_STAGE_RETRIES ∧
      (∀ o, action = Stage.ActContinue o → o = Stage.offset session)
  end.

Lemma turns_pos p : counted p → 1 ≤ turns p.
Proof. destruct p as [c|c session [o| |] pb]; cbn; [lia|intros (_ & ? & ? & _); lia|lia|lia]. Qed.

Definition decreases (p : Phase) (r : result string (Phase + Chunk)) : Prop :=
  ∀ p', r = Ok (inl p') → counted p' ∧ turns p' < turns p.

(** A status accepted by a session leads to a counted phase. *)
Lemma counted_after c session st action session' pb :
  Stage.ciphertext_bytes session = ciphertext_bytes c → 0 ≤ Stage.offset session →
  Stage.validate_status session st = Ok () → action = Stage.action st →
  Stage.ciphertext_bytes session' = Stage.ciphertext_bytes session → Stage.offset session' = Stage.st_offset st →
  0 ≤ Stage.retries session' ≤ Stage.MAX_STAGE_RETRIES →
  counted (Working c session' action pb).
Proof.
  intros Hc Ho (_ & _ & _ & Hoff & _)%Stage.validate_status_Ok -> Hc' Ho' Hr. cbn. split_and!; try lia.
  intros o. unfold Stage.action. destruct (Stage.st_state st); [|done|done]. by intros [= <-].
Qed.

Lemma turns_le c session action pb :
  counted (Working c session action pb) →
  turns (Working c session action pb) ≤
    Z.max 2 (9 * (ciphertext_bytes c - Stage.offset session) + (Stage.MAX_STAGE_RETRIES - Stage.retries session) + 3).
Proof. destruct action; cbn; lia. Qed.

Lemma begin_decreases c (w w' : World Sv) r :
  counted (Starting c) → stage_turn policy body (Starting c) w = (w', r) → decreases (Starting c) r.
Proof.
  intros Hc Hr p ->. cbn [stage_turn] in Hr.
  apply bind_run in Hr as [(e & _ & [=])|(w1 & p1 & Hr & [= <- <-])]. unfold begin_stage in Hr.
  do 2 (apply bind_run in Hr as [(e & _ & [=])|(? & ? & _ & Hr)]).
  do 2 (apply bind_run in Hr as [(e & _ & [=])|(? & ? & _ & Hr)]).
  apply bind_run in Hr as [(e & _ & [=])|(? & ? & _ & Hr)].
  apply bind_run in Hr as [(e & _ & [=])|(? & session & [= _ Hn] & Hr)].
  do 2 (apply bind_run in Hr as [(e & _ & [=])|(? & ? & _ & Hr)]).
  apply bind_run in Hr as [(e & _ & [=])|(? & [action session'] & [= _ Hrec] & Hr)].
  apply bind_run in Hr as [(e & _ & [=])|(? & rate & _ & [= _ <-])].
  unfold Stage.new in Hn. guards Hn. injection Hn as <-.
  apply Stage.reconcile_Ok in Hrec as (Hv & Ha & _ & Hb & _ & Ho & _ & Hre & _).
  assert (Hcount : counted (Working c session' action (Z.max (initial_part_bytes policy rate) (part_min_bytes policy)))).
  { eapply counted_after; [| |exact Hv|exact Ha|exact Hb|exact Ho|]; [done|done|]. rewrite Hre. done. }
  split; [exact Hcount|]. apply (Z.le_lt_trans _ _ _ (turns_le _ _ _ _ Hcount)). destruct Hcount as (_ & Hoff & Hret & _).
  cbn [turns]. unfold Stage.MAX_STAGE_RETRIES in *. lia.
Qed.

Lemma part_decreases c session offset pb (w w' : World Sv) r :
  settles → counted (Working c session (Stage.ActContinue offset) pb) →
  stage_turn policy body (Working c session (Stage.ActContinue offset) pb) w = (w', r) →
  decreases (Working c session (Stage.ActContinue offset) pb) r.
Proof.
  intros Hset Hc Hr p ->. cbn [stage_turn] in Hr.
  destruct (offset =? ciphertext_bytes c) eqn:Eo.
  { injection Hr as _ <-. split; [|cbn in *; lia]. cbn in *. by destruct Hc as (? & ? & ? & _). }
  apply bind_run in Hr as [(e & _ & [=])|(w1 & p1 & Hr & [= <- <-])]. unfold send_part in Hr.
  apply bind_run in Hr as [(e & _ & [=])|(? & [] & _ & Hr)].
  apply bind_run in Hr as [(e & _ & [=])|(w2 & reply & Hsend & Hr)].
  apply bind_run in Hr as [(e & _ & [=])|(w3 & elapsed & _ & Hr)].
  assert (Hagain : ∀ d pb' w3, (session' ← of_result (Stage.record_retry session); _ ← tell Congested;
      _ ← pause (d session'); mret (Working c session' (Stage.ActContinue offset) pb')) w3 = (w1, Ok p1) →
      counted p1 ∧ turns p1 < turns (Working c session (Stage.ActContinue offset) pb)).
  { intros d pb' w4 Ha. apply bind_run in Ha as [(e & _ & [=])|(? & s' & [= _ Hs'] & Ha)].
    do 2 (apply bind_run in Ha as [(e & _ & [=])|(? & ? & _ & Ha)]). injection Ha as _ <-.
    apply Stage.record_retry_Ok in Hs' as (Hlt & _ & Hb & Ho & _ & Hre & _). cbn in *.
    destruct Hc as (? & ? & ? & Hoff). specialize (Hoff offset eq_refl). rewrite Hb, Ho, Hre. split_and!; try lia.
    intros o [= <-]. lia. }
  destruct reply as [code st ra|]; [|by eapply (Hagain (λ s, retry_delay_ms (Stage.retries s) None 0))].
  destruct (is_success code) eqn:Es.
  - apply bind_run in Hr as [(e & _ & [=])|(? & st' & [= _ ->] & Hr)].
    apply bind_run in Hr as [(e & _ & [=])|(? & [action session'] & [= _ Hack] & Hr)].
    do 2 (apply bind_run in Hr as [(e & _ & [=])|(? & ? & _ & Hr)]). injection Hr as _ <-.
    apply Stage.acknowledge_part_Ok in Hack as (Hv & Ha & Hst & Hne & Hoff & _ & Hb & _ & Ho & _ & Hre & _).
    pose proof Hc as (Hcb & Hco & _ & Hact). specialize (Hact offset eq_refl).
    pose proof (Stage.validate_status_Ok _ _ Hv) as (_ & _ & _ & Hmono & _).
    assert (Hcount : ∀ pb', counted (Working c session' action pb')).
    { intros pb'. eapply counted_after; [exact Hcb| |exact Hv|exact Ha|exact Hb|exact Ho|]; [lia|]. by rewrite Hre. }
    split; [apply Hcount|]. pose proof (turns_le _ _ _ _ (Hcount (grow_part policy pb (Z.min (ciphertext_bytes c - offset) pb) elapsed))) as Hle.
    cbn [counted turns] in *. unfold Stage.MAX_STAGE_RETRIES in *. lia.
  - destruct (retryable_status code true); [by eapply (Hagain (λ s, retry_delay_ms (Stage.retries s) ra 0))|].
    unfold send in Hsend. apply bind_run in Hsend as [(e & _ & [=])|(w5 & reply' & Hex & Hsend)].
    apply bind_run in Hsend as [(e & _ & [=])|(w6 & [] & _ & [= _ ->])].
    unfold exchange in Hex. destruct (handle _ _) as [s' rep] eqn:Eh. injection Hex as _ ->.
    destruct (Hset _ _ _ _ _ _ Eh) as [H410 _]. rewrite (proj2 (Z.eqb_neq _ _)) in Hr by (apply H410; by do 4 eexists). done.
Qed.

Lemma complete_from_turn remaining attempt session (w w' : World Sv) st session' :
  settles → complete_from remaining attempt session w = (w', Ok (st, session')) →
  Stage.st_state st = Stage.Complete ∧ Stage.ciphertext_bytes session' = Stage.ciphertext_bytes session ∧
  Stage.offset session' = Stage.offset session ∧
  (0 ≤ Stage.retries session ≤ Stage.MAX_STAGE_RETRIES → 0 ≤ Stage.retries session' ≤ Stage.MAX_STAGE_RETRIES).
Proof.
  intros Hset. revert attempt session w. induction remaining as [|remaining IH]; intros attempt session w Hr; cbn [complete_from] in Hr; [done|].
  apply bind_run in Hr as [(e & _ & [=])|(w2 & reply & Hsend & Hr)].
  assert (Hagain : ∀ d w3, (session' ← of_result (Stage.record_retry session); _ ← pause (d session');
      complete_from remaining (attempt + 1) session') w3 = (w', Ok (st, session')) →
      Stage.st_state st = Stage.Complete ∧ Stage.ciphertext_bytes session' = Stage.ciphertext_bytes session ∧
      Stage.offset session' = Stage.offset session ∧
      (0 ≤ Stage.retries session ≤ Stage.MAX_STAGE_RETRIES → 0 ≤ Stage.retries session' ≤ Stage.MAX_STAGE_RETRIES)).
  { intros d w3 Ha. apply bind_run in Ha as [(e & _ & [=])|(? & s' & [= _ Hs'] & Ha)].
    apply bind_run in Ha as [(e & _ & [=])|(? & ? & _ & Ha)].
    apply Stage.record_retry_Ok in Hs' as (Hlt & _ & Hb & Ho & _ & Hre & _). apply IH in Ha as (H1' & H2' & H3' & H4').
    rewrite <- Hb, <- Ho. split_and!; [done..|]. intros ?. apply H4'. lia. }
  destruct reply as [code body' ra|].
  - destruct (is_success code) eqn:Es.
    + apply bind_run in Hr as [(e & _ & [=])|(? & st' & [= _ ->] & [= _ <- <-])].
      unfold send in Hsend. apply bind_run in Hsend as [(e & _ & [=])|(w5 & reply' & Hex & Hsend)].
      apply bind_run in Hsend as [(e & _ & [=])|(w6 & [] & _ & [= _ ->])].
      unfold exchange in Hex. destruct (handle _ _) as [s' rep] eqn:Eh. injection Hex as _ ->.
      destruct (Hset _ _ _ _ _ _ Eh) as [_ Hcomp]. split_and!; [by eapply Hcomp|done|done|done].
    + destruct (retryable_status code true); [|done]. by eapply (Hagain (λ s, retry_delay_ms (Stage.retries s) ra (attempt * 29))).
  - destruct (attempt =? 8); [done|]. by eapply (Hagain (λ s, retry_delay_ms (Stage.retries s) None (attempt * 29))).
Qed.

Lemma turn_decreases p (w w' : World Sv) r :
  settles → counted p → stage_turn policy body p w = (w', r) → decreases p r.
Proof.
  intros Hset Hc Hr. destruct p as [c|c session [o| |] pb].
  - by eapply begin_decreases.
  - by eapply part_decreases.
  - intros p ->. cbn [stage_turn] in Hr.
    apply bind_run in Hr as [(e & _ & [=])|(? & [st session'] & Hcs & Hr)].
    apply complete_from_turn in Hcs as (Hst & Hb & Ho & Hre); [|done].
    apply bind_run in Hr as [(e & _ & [=])|(? & [action session2] & [= _ Hrec] & Hr)].
    apply bind_run in Hr as [(e & _ & [=])|(? & [] & _ & [= _ <-])].
    apply Stage.reconcile_Ok in Hrec as (Hv & Ha & _ & Hb2 & _ & Ho2 & _ & Hre2 & _).
    unfold Stage.action in Ha. rewrite Hst in Ha. subst action. cbn in Hc. split; [|cbn; lia].
    eapply counted_after; [| |exact Hv| |exact Hb2|exact Ho2|]; [lia|lia| |].
    + unfold Stage.action. by rewrite Hst.
    + rewrite Hre2. apply Hre. lia.
  - cbn [stage_turn] in Hr. injection Hr as _ <-. by intros p'.
Qed.

Lemma stage_enough_fuel fuel p (w w' : World Sv) r :
  settles → counted p → turns p ≤ Z.of_nat fuel → stage_from fuel policy body p w = (w', r) → r ≠ Ok None.
Proof.
  intros Hset. revert p w. induction fuel as [|fuel IH]; intros p w Hc Hf Hr.
  { pose proof (turns_pos p Hc). lia. }
  cbn [stage_from] in Hr. apply bind_run in Hr as [(e & _ & ->)|(w1 & [p'|c] & Ht & Hr)]; [done| |by injection Hr as _ <-].
  destruct (turn_decreases _ _ _ _ Hset Hc Ht p' eq_refl) as [Hc' Hlt]. apply (IH p' w1); [done|lia|done].
Qed.

End termination.

(** A staged upload ends: against a server that does not lose the upload
    and completes what it was told to complete, whatever requests are lost or
    refused, the loop returns within nine turns for each byte of ciphertext
    and twelve more, so a chunk is uploaded or refused. *)
Theorem stage_terminates `{Codec, Env} {Sv : Type} `{Srv : Server Sv} fuel policy file c (w w' : World Sv) r :
  settles → 0 ≤ ciphertext_bytes c → 9 * ciphertext_bytes c + 12 ≤ Z.of_nat fuel →
  upload_chunk fuel policy file c w = (w', r) → r ≠ Ok None.
Proof.
  intros Hset Hc Hf Hr. unfold upload_chunk in Hr.
  apply bind_run in Hr as [(e & _ & ->)|(w1 & rate & _ & Hr)]; [done|].
  assert (Hstaged : ∀ p w2, (b ← of_result (read_artifact file c); stage_from fuel p b (Starting c)) w2 = (w', r) → r ≠ Ok None).
  { intros p w2 Hs. apply bind_run in Hs as [(e & _ & ->)|(w3 & b & _ & Hs)]; [done|].
    by apply (stage_enough_fuel p b fuel (Starting c) w3 w' r). }
  assert (Hdirect : ∀ p (k : SE (World Sv) string (option Chunk)) w2, (∀ w3, k w3 = (w', r) → r ≠ Ok None) →
    (x ← direct_request p file c;
      let '(reply, _) := x in
      if bool_decide (fst <$> reply = Some 201) then mret (Some c) else
      if hopeless c reply then fail "chunk upload failed"%string else k) w2 = (w', r) → r ≠ Ok None).
  { intros p k w2 Hk Hs. apply bind_run in Hs as [(e & _ & ->)|(w3 & [reply ab] & _ & Hs)]; [done|].
    case_bool_decide; [by injection Hs as _ <-|]. destruct (hopeless c reply); [by injection Hs as _ <-|by apply (Hk w3)]. }
  destruct policy as [policy|].
  - destruct (_ && _); [by apply (Hstaged policy w1)|]. apply (Hdirect _ _ w1) in Hr; [done|].
    intros w2 Hk. apply bind_run in Hk as [(e & _ & ->)|(w3 & [] & _ & Hk)]; [done|]. by apply (Hstaged policy w3).
  - apply (Hdirect _ _ w1) in Hr; [done|]. intros w2 Hk.
    apply bind_run in Hk as [(e & _ & ->)|(w3 & c' & _ & [= _ <-])]; done.
Qed.

(** ** Servers at concrete inputs *)

Module Example_staging.
Import Example_codec Example_upload.

(** No fault, no cancellation; every part takes a second. *)
#[export] Instance env : Env :=
  {| polls_at := λ _, replicate 20 {| poll_cancelled := false; poll_elapsed := 1; poll_read := Ok 5 |};
     sidecar_fault := λ _, false; cancel := λ _, false; uuid := λ _, "u"%string; rate_at := λ _, f64_zero;
     elapsed_at := λ _, 1000 |}.

Definition policy : UploadTransport :=
  {| Transport.version := 1; part_min_bytes := 8; part_max_bytes := 16; request_target_ms := 1000; request_budget_ms := 2000;
     part_max_count := None |}.
Definition c0 : Chunk := chunk 0 2 "/w/a".
Definition body : list Z := replicate 18 0.

(** A server that holds staged uploads and refuses direct ones. *)
Record Held := { held : gmap string (list Z); expected : Z * string; published : option (list Z) }.

Definition status_of (h : Held) (i : string) (st : Stage.StageState) : Reply :=
  Response 200 (Ok {| Stage.st_id := i; Stage.st_state := st; Stage.st_offset := zlen (default [] (held h !! i));
                      Stage.st_ciphertext_bytes := fst (expected h); Stage.st_checksum := snd (expected h) |}) None.

#[export] Instance honest : Server Held := λ h r,
  match r with
  | PutChunk _ _ => (h, Response 413 (Err "too large"%string) None)
  | Begin i n sum =>
      let h := {| held := held h; expected := (n, sum); published := published h |} in (h, status_of h i Stage.Receiving)
  | PutPart i off sum part =>
      if off =? zlen (default [] (held h !! i)) then
        let h := {| held := <[i := default [] (held h !! i) ++ part]> (held h); expected := expected h; published := published h |} in
        (h, status_of h i Stage.Receiving)
      else (h, Response 409 (Err "conflict"%string) None)
  | CompleteStage i =>
      let h := {| held := held h; expected := expected h; published := Some (default [] (held h !! i)) |} in
      (h, status_of h i Stage.Complete)
  end.

#[export] Instance honest_laws : ServerLaws.
Proof.
  refine {| content := λ h k, default [] (held h !! k); stored := published |}.
  - intros h i off sum part h' reply k. unfold handle, honest. destruct (off =? _) eqn:E; intros [= <- _]; [|by left].
    cbn. destruct (decide (k = i)) as [->|Hne]; [right; right|left; by rewrite lookup_insert_ne].
    rewrite lookup_insert_eq. bool_prop. done.
  - intros h r h' reply k Hr. unfold handle, honest. destruct r as [n b|i n sum|i off sum part|i]; try (by intros [= <- _]; left).
    by destruct (Hr i off sum part).
  - intros h r h' code st ra. unfold handle, honest, status_of.
    destruct r as [n b|i n sum|i off sum part|i]; [done| |destruct (_ =? _); [|done]|];
      intros [= <- _ <- _] _; cbn; (split; [lia|done]).
  - intros h n b h' st ra. unfold handle, honest. done.
Defined.

Definition w0 {Sv} (s : Sv) : World Sv := {| server := s; sidecar := None; tick_ := 0; effects := [] |}.
Definition empty : Held := {| held := ∅; expected := (0, ""%string); published := None |}.

Lemma chunk_delivered_witness :
  ∃ w' c, upload_chunk 200 (Some policy) (Some body) c0 (w0 empty) = (w', Ok (Some c)) ∧ stored (server w') = Some body.
Proof.
  eexists _, _. split; [vm_compute; reflexivity|].
  refine (proj2 (proj2 (chunk_delivered c0 body eq_refl 200 (Some policy) (w0 empty) _ (Ok (Some _)) _ _) _ eq_refl)).
  - split; [intros k; apply prefix_nil|constructor].
  - vm_compute. reflexivity.
Defined.

Lemma honest_settles : settles (Sv := Held).
Proof.
  intros h r h' code st ra. unfold handle, honest, status_of. intros Hh. split.
  - intros (i & off & sum & part & ->) ->. destruct (_ =? _); discriminate.
  - intros i status -> _ ->. by injection Hh as _ _ <- _.
Qed.

Lemma stage_terminates_witness : snd (upload_chunk 200 (Some policy) (Some body) c0 (w0 empty)) ≠ Ok None.
Proof.
  apply (stage_terminates 200 (Some policy) (Some body) c0 (w0 empty) (fst (upload_chunk 200 (Some policy) (Some body) c0 (w0 empty))));
    [exact honest_settles|vm_compute; discriminate|vm_compute; discriminate|apply surjective_pairing].
Defined.
End Example_staging.

(** ** Uploads that do not end *)

Module Example_endless.
Import Example_codec Example_upload Example_staging.

(** A server that lost the upload whenever a part arrives. *)
Inductive Expired := expired.
#[export] Instance expired_server : Server Expired := λ s r,
  match r with
  | Begin i n sum =>
      (s, Response 200 (Ok {| Stage.st_id := i; Stage.st_state := Stage.Receiving; Stage.st_offset := 0;
                              Stage.st_ciphertext_bytes := n; Stage.st_checksum := sum |}) None)
  | _ => (s, Response 410 (Err "gone"%string) None)
  end.

Definition session0 (resets : Z) : Stage.StageSession :=
  {| Stage.id := "u"; Stage.ciphertext_bytes := 18; Stage.checksum := checksum c0; Stage.offset := 0;
     Stage.state := Stage.Receiving; Stage.retries := 0; Stage.resets := resets; Stage.reprobe_allowed := false |}.

(** Each time round, a new session starts again from no resets. *)
Definition begun : Phase := Working c0 (session0 0) (Stage.ActContinue 0) 8.
Definition again : Phase := Starting (set_stage (Some (session0 1)) c0).

Definition begins (e : list Effect) : nat :=
  length (filter (λ x, match x with Sent (Begin _ _ _) => true | _ => false end = true) e).

Lemma begins_app e e' : begins (e ++ e') = (begins e + begins e')%nat.
Proof. unfold begins. by rewrite filter_app, length_app. Qed.

Definition begin_request : Request := Begin "u" 18 (checksum c0).
Definition part_request : Request := PutPart "u" 0 (sha256_hex (replicate 8 0)) (replicate 8 0).

Lemma begin_turn t e (saved : option Stage.StageSession) p :
  saved = None ∨ saved = Some (session0 1) → p = Starting c0 ∨ p = again →
  ∃ t', stage_turn policy body p {| server := expired; sidecar := saved; tick_ := t; effects := e |} =
    ({| server := expired; sidecar := Some (session0 0); tick_ := t'; effects := e ++ [Sent begin_request] |}, Ok (inl begun)).
Proof. intros [-> | ->] [-> | ->]; eexists; vm_compute; reflexivity. Qed.

Lemma part_turn t e :
  ∃ t', stage_turn policy body begun {| server := expired; sidecar := Some (session0 0); tick_ := t; effects := e |} =
    ({| server := expired; sidecar := Some (session0 1); tick_ := t'; effects := e ++ [Sent part_request] |}, Ok (inl again)).
Proof. eexists. vm_compute. reflexivity. Qed.

Lemma round t e (saved : option Stage.StageSession) p fuel :
  saved = None ∨ saved = Some (session0 1) → p = Starting c0 ∨ p = again →
  ∃ t', stage_from (S (S fuel)) policy body p {| server := expired; sidecar := saved; tick_ := t; effects := e |} =
    stage_from fuel policy body again
      {| server := expired; sidecar := Some (session0 1); tick_ := t';
         effects := (e ++ [Sent begin_request]) ++ [Sent part_request] |}.
Proof.
  intros Hs Hp. destruct (begin_turn t e saved p Hs Hp) as [t1 E1]. destruct (part_turn t1 (e ++ [Sent begin_request])) as [t2 E2].
  exists t2. cbn [stage_from]. rewrite (bind_Ok _ _ _ _ _ E1). cbn [stage_from]. by rewrite (bind_Ok _ _ _ _ _ E2).
Qed.

Lemma rounds n t e saved p :
  saved = None ∨ saved = Some (session0 1) → p = Starting c0 ∨ p = again →
  ∃ w, stage_from (2 * n) policy body p {| server := expired; sidecar := saved; tick_ := t; effects := e |} = (w, Ok None) ∧
    begins (effects w) = (begins e + n)%nat.
Proof.
  revert t e saved p. induction n as [|n IH]; intros t e saved p Hs Hp.
  - eexists. split; [reflexivity|]. by rewrite Nat.add_0_r.
  - destruct (round t e saved p (2 * n) Hs Hp) as [t' Hround].
    replace (2 * S n)%nat with (S (S (2 * n))) by lia. rewrite Hround.
    destruct (IH t' ((e ++ [Sent begin_request]) ++ [Sent part_request]) (Some (session0 1)) again) as (w & Hw & Hn); [by right|by right|].
    exists w. split; [exact Hw|]. rewrite Hn, !begins_app.
    change (begins [Sent begin_request]) with 1%nat. change (begins [Sent part_request]) with 0%nat. lia.
Qed.

(** The limit on starting a staged upload again is never reached: [stage]
    begins with a new session each time the server says the upload is gone, so
    against a server that always does, it starts again as often as there is
    fuel, and returns neither a chunk nor an error. *)
Theorem expired_uploads_never_end n :
  ∃ w, stage_from (2 * n) policy body (Starting c0) (w0 expired) = (w, Ok None) ∧ begins (effects w) = n.
Proof. apply (rounds n 0 [] None (Starting c0)); by left. Qed.

(** A server that accepts a completion and goes on finalizing. *)
Inductive Slow := slow.
#[export] Instance slow_server : Server Slow := λ s r,
  (s, Response 200 (Ok {| Stage.st_id := "u"; Stage.st_state := Stage.Finalizing; Stage.st_offset := 18;
                          Stage.st_ciphertext_bytes := 18; Stage.st_checksum := checksum c0 |}) None).

Definition finalizing (s : Stage.StageSession) : Phase := Working c0 s Stage.ActFinalizing 8.
Definition session_end : Stage.StageSession :=
  {| Stage.id := "u"; Stage.ciphertext_bytes := 18; Stage.checksum := checksum c0; Stage.offset := 18;
     Stage.state := Stage.Finalizing; Stage.retries := 0; Stage.resets := 0; Stage.reprobe_allowed := false |}.

Lemma finalizing_turn t e saved :
  ∃ t', stage_turn policy body (finalizing session_end) {| server := slow; sidecar := saved; tick_ := t; effects := e |} =
    ({| server := slow; sidecar := Some session_end; tick_ := t'; effects := e ++ [Sent (CompleteStage "u")] |},
     Ok (inl (finalizing session_end))).
Proof. eexists. vm_compute. reflexivity. Qed.

(** An accepted completion that is still finalizing is requested again at once,
    without a delay and without a limit. *)
Theorem finalizing_never_ends n t e saved :
  ∃ w, stage_from n policy body (finalizing session_end) {| server := slow; sidecar := saved; tick_ := t; effects := e |} =
    (w, Ok None) ∧ effects w = e ++ replicate n (Sent (CompleteStage "u")).
Proof.
  revert t e saved. induction n as [|n IH]; intros t e saved.
  - eexists. split; [reflexivity|]. by rewrite app_nil_r.
  - destruct (finalizing_turn t e saved) as [t' Ht]. destruct (IH t' (e ++ [Sent (CompleteStage "u")]) (Some session_end)) as (w & Hw & He).
    exists w. cbn [stage_from]. rewrite (bind_Ok _ _ _ _ _ Ht). split; [exact Hw|]. rewrite He, <- app_assoc. done.
Qed.
End Example_endless.
