(* ===== verification/Managed.v ===== *)
(** * Managed jobs (crates/client-core/src/managed.rs, lib.rs, error.rs)

    The facade a graphical or mobile host drives: it polls a worker thread for
    progress, shows one prompt at a time and carries the host's answer back.
    The worker and the host share channels, so the system is a record of both
    sides and a run interleaves worker steps with host calls; [snapshot] reads
    the shared state several times, so it takes the worker's steps between its
    reads as arguments. *)

From Stdlib Require Import String.
From S2P Require Import Prelude Str Control.
Open Scope Z_scope.

(** ** Errors *)

Inductive JobErrorKind :=
| KCancelled | KResourceExhausted | KInvalidInput | KNetwork | KRemote | KStorage | KCrypto
| KInternal.

#[export] Instance JobErrorKind_eq_dec : EqDecision JobErrorKind.
Proof. solve_decision. Defined.

Definition error_name (k : JobErrorKind) : string :=
  match k with
  | KCancelled => "cancelled"
  | KResourceExhausted => "resource-exhausted"
  | KInvalidInput => "invalid-input"
  | KNetwork => "network"
  | KRemote => "remote"
  | KStorage => "storage"
  | KCrypto => "crypto"
  | KInternal => "internal"
  end.

(** [JobError] of error.rs, and the other types [error_kind] downcasts to; an
    error of no known type keeps its outer message and its whole chain. *)
Record JobError := { job_error_kind : JobErrorKind; message : string }.

Definition resource (m : string) : JobError :=
  {| job_error_kind := KResourceExhausted; message := m |}.

Inductive Error :=
| ECancelled
| EMemoryExhausted
| EJob (e : JobError)
| EOther (outer chain : string).

(** [Display] and the alternate form of an [anyhow::Error]. *)
Definition to_string (e : Error) : string :=
  match e with
  | ECancelled => "Transfer cancelled"
  | EMemoryExhausted => "transfer memory budget is exhausted"
  | EJob e => message e
  | EOther outer _ => outer
  end.

Definition chain_string (e : Error) : string :=
  match e with EOther _ chain => chain | e => to_string e end.

Definition is_cancelled (e : Error) : bool := match e with ECancelled => true | _ => false end.

Definition error_kind (e : Error) : JobErrorKind :=
  match e with
  | EJob e => job_error_kind e
  | EMemoryExhausted => KResourceExhausted
  | _ =>
      let message := to_ascii_lowercase (to_string e) in
      if contains "scheduler" message || contains "shared scheduler" message
      then KResourceExhausted
      else if contains "invalid" message || contains "must " message || contains "provide " message
      then KInvalidInput
      else if contains "network" message || contains "connection" message
              || contains "timeout" message
      then KNetwork
      else if contains "server returned" message || contains "http status" message then KRemote
      else if contains "checkpoint" message || contains "read " message || contains "write " message
      then KStorage
      else if contains "decrypt" message || contains "encrypt" message || contains "key" message
      then KCrypto
      else KInternal
  end.

Definition phase_name (p : Phase) : string :=
  match p with
  | Connecting => "connecting"
  | Preparing => "preparing"
  | Archiving => "archiving"
  | Encrypting => "encrypting"
  | Sending => "sending"
  | Receiving => "receiving"
  | Verifying => "verifying"
  | Finalizing => "finalizing"
  | Waiting => "waiting"
  | Unlocking => "unlocking"
  | Updating => "updating"
  | Retrying => "retrying"
  | Reconnecting => "reconnecting"
  | Storing => "storing"
  end.

(** ** Prompts and events *)

Inductive SecretKind := ShareKey | Password.

Inductive PromptKind :=
| Secret (kind : SecretKind)
| Directory (files bytes : Z) (maximum_files : option Z)
| ShareReady
| PeerConsent (peer_id : string).

(** A prompt owns the sending half of its reply channel, here its number. *)
Record Prompt := { kind : PromptKind; reply_to : nat }.

Inductive TransferEvent :=
| EvShareReady (share_url : string)
| EvPeerConsent (peer_id : string)
| EvPeerFailed (message : string).

Inductive PromptType := TShareKey | TPassword | TPeerConsent | TDirectory | TShareReady.

Record DirectoryPrompt := { dp_files : Z; dp_bytes : Z; dp_maximum_files : option Z }.

Record PendingPrompt := {
  prompt_id : Z;
  prompt_type : PromptType;
  peer : option string;
  directory : option DirectoryPrompt }.

Inductive SecretRetryKind := RShareKey | RPassword | RGeneric.

Inductive JobState := JRunning | JPausing | JPaused | JComplete | JFailed.

#[export] Instance JobState_eq_dec : EqDecision JobState.
Proof. solve_decision. Defined.
#[export] Instance SecretKind_eq_dec : EqDecision SecretKind.
Proof. solve_decision. Defined.
#[export] Instance TransferEvent_eq_dec : EqDecision TransferEvent.
Proof. solve_decision. Defined.
#[export] Instance PromptKind_eq_dec : EqDecision PromptKind.
Proof. solve_decision. Defined.

(** ** The worker's side: [Job]

    [prompts], [events] and [outcome] are the channels the job holds the
    receiving halves of, [alive] says the worker still holds the sending half of
    the last; [asked] lists the reply channels ever made, with their question,
    [listening] those whose receiver is still waited on and [answers] what was
    sent, in order. *)
Record Job := {
  cancelled : bool;
  progress : Progress;
  checkpoint_id : option string;
  prompts : list Prompt;
  events : list TransferEvent;
  outcome : option (result Error (list string));
  alive : bool;
  asked : list PromptKind;
  listening : gset nat;
  answers : list (nat * string) }.

(** [Job::spawn_in_with_ice_override], before the worker runs. *)
Definition spawn : Job :=
  {| cancelled := false; progress := progress_default; checkpoint_id := None; prompts := [];
     events := []; outcome := None; alive := true; asked := []; listening := ∅; answers := [] |}.

(** The worker reports a failure after a cancellation as the cancellation. *)
Definition worker_outcome (cancelled : bool) (r : result Error (list string))
    : result Error (list string) :=
  if cancelled && negb (is_ok r) then Err ECancelled else r.

Definition cancel (j : Job) : Job :=
  {| cancelled := true; progress := progress j; checkpoint_id := checkpoint_id j;
     prompts := prompts j; events := events j; outcome := outcome j; alive := alive j;
     asked := asked j; listening := listening j; answers := answers j |}.

(** What a worker does between two calls of its host. *)
Inductive WorkerStep :=
| Ask (k : PromptKind)                      (** [Control::ask] sends its prompt *)
| Leave (c : nat)                           (** an [ask] returned; its receiver is gone *)
| Emit (e : TransferEvent)                  (** [Control::emit] *)
| SetProgress (p : Progress)                (** an edit of the progress record *)
| SetCheckpoint (id : string)               (** [Control::set_checkpoint_id] *)
| Finish (r : result Error (list string))   (** [run] returned *)
| Die.                                      (** the thread panicked *)

Definition worker_step (w : WorkerStep) (j : Job) : Job :=
  match w with
  | Leave c =>
      {| cancelled := cancelled j; progress := progress j; checkpoint_id := checkpoint_id j;
         prompts := prompts j; events := events j; outcome := outcome j; alive := alive j;
         asked := asked j; listening := listening j ∖ {[c]}; answers := answers j |}
  | _ =>
  if alive j then
  match w with
  | Ask k =>
      let c := length (asked j) in
      {| cancelled := cancelled j; progress := progress j; checkpoint_id := checkpoint_id j;
         prompts := prompts j ++ [{| kind := k; reply_to := c |}]; events := events j;
         outcome := outcome j; alive := true; asked := asked j ++ [k];
         listening := {[c]} ∪ listening j; answers := answers j |}
  | Emit e =>
      {| cancelled := cancelled j; progress := progress j; checkpoint_id := checkpoint_id j;
         prompts := prompts j; events := events j ++ [e]; outcome := outcome j; alive := true;
         asked := asked j; listening := listening j; answers := answers j |}
  | SetProgress p =>
      {| cancelled := cancelled j; progress := p; checkpoint_id := checkpoint_id j;
         prompts := prompts j; events := events j; outcome := outcome j; alive := true;
         asked := asked j; listening := listening j; answers := answers j |}
  | SetCheckpoint id =>
      {| cancelled := cancelled j; progress := progress j; checkpoint_id := Some id;
         prompts := prompts j; events := events j; outcome := outcome j; alive := true;
         asked := asked j; listening := listening j; answers := answers j |}
  | Finish r =>
      {| cancelled := cancelled j; progress := progress j; checkpoint_id := checkpoint_id j;
         prompts := prompts j; events := events j;
         outcome := Some (worker_outcome (cancelled j) r); alive := false;
         asked := asked j; listening := listening j; answers := answers j |}
  | _ =>
      {| cancelled := cancelled j; progress := progress j; checkpoint_id := checkpoint_id j;
         prompts := prompts j; events := events j; outcome := outcome j; alive := false;
         asked := asked j; listening := listening j; answers := answers j |}
  end else j
  end.

Definition work (ws : list WorkerStep) (j : Job) : Job := foldl (flip worker_step) j ws.

Definition take_outcome (j : Job) : Job :=
  {| cancelled := cancelled j; progress := progress j; checkpoint_id := checkpoint_id j;
     prompts := prompts j; events := events j; outcome := None; alive := alive j;
     asked := asked j; listening := listening j; answers := answers j |}.

Definition poll (j : Job) : option (result Error (list string)) * Job :=
  match outcome j with
  | Some value => (Some value, take_outcome j)
  | None =>
      if alive j then (None, j)
      else (Some (Err (EOther "Transfer worker stopped unexpectedly"
                              "Transfer worker stopped unexpectedly")), j)
  end.

Definition with_events (es : list TransferEvent) (j : Job) : Job :=
  {| cancelled := cancelled j; progress := progress j; checkpoint_id := checkpoint_id j;
     prompts := prompts j; events := es; outcome := outcome j; alive := alive j;
     asked := asked j; listening := listening j; answers := answers j |}.

Definition with_prompts (ps : list Prompt) (j : Job) : Job :=
  {| cancelled := cancelled j; progress := progress j; checkpoint_id := checkpoint_id j;
     prompts := ps; events := events j; outcome := outcome j; alive := alive j;
     asked := asked j; listening := listening j; answers := answers j |}.

(** Sending on a reply channel fails once its receiver is gone. *)
Definition send (c : nat) (v : string) (j : Job) : result string () * Job :=
  if bool_decide (c ∈ listening j)
  then (Ok (),
        {| cancelled := cancelled j; progress := progress j; checkpoint_id := checkpoint_id j;
           prompts := prompts j; events := events j; outcome := outcome j; alive := alive j;
           asked := asked j; listening := listening j; answers := answers j ++ [(c, v)] |})
  else (Err "Transfer prompt is closed", j).

(** ** The host's side: [ManagedJob] *)

Record JobSnapshot := {
  state : JobState;
  s_checkpoint_id : option string;
  s_progress : Progress;
  prompt : option PendingPrompt;
  share_url : option string;
  results : list string;
  error : option string;
  s_error_kind : option JobErrorKind;
  peer_warning : option string;
  secret_retry : option SecretRetryKind }.

Record ManagedJob := {
  job : Job;
  snap : JobSnapshot;
  reply : option Prompt;
  next_prompt : Z;
  last_secret_kind : option SecretRetryKind }.

Definition new (j : Job) : ManagedJob :=
  {| job := j;
     snap := {| state := JRunning; s_checkpoint_id := None; s_progress := progress_default;
                prompt := None; share_url := None; results := []; error := None;
                s_error_kind := None; peer_warning := None; secret_retry := None |};
     reply := None; next_prompt := 1; last_secret_kind := None |}.

(** Single-field updates. *)
Definition with_job (j : Job) (m : ManagedJob) : ManagedJob :=
  {| job := j; snap := snap m; reply := reply m; next_prompt := next_prompt m;
     last_secret_kind := last_secret_kind m |}.
Definition with_snap (f : JobSnapshot → JobSnapshot) (m : ManagedJob) : ManagedJob :=
  {| job := job m; snap := f (snap m); reply := reply m; next_prompt := next_prompt m;
     last_secret_kind := last_secret_kind m |}.
Definition with_reply (r : option Prompt) (m : ManagedJob) : ManagedJob :=
  {| job := job m; snap := snap m; reply := r; next_prompt := next_prompt m;
     last_secret_kind := last_secret_kind m |}.
Definition with_secret_kind (k : option SecretRetryKind) (m : ManagedJob) : ManagedJob :=
  {| job := job m; snap := snap m; reply := reply m; next_prompt := next_prompt m;
     last_secret_kind := k |}.

Definition set_state (x : JobState) (s : JobSnapshot) : JobSnapshot :=
  {| state := x; s_checkpoint_id := s_checkpoint_id s; s_progress := s_progress s;
     prompt := prompt s; share_url := share_url s; results := results s; error := error s;
     s_error_kind := s_error_kind s; peer_warning := peer_warning s;
     secret_retry := secret_retry s |}.
Definition set_checkpoint (x : option string) (s : JobSnapshot) : JobSnapshot :=
  {| state := state s; s_checkpoint_id := x; s_progress := s_progress s;
     prompt := prompt s; share_url := share_url s; results := results s; error := error s;
     s_error_kind := s_error_kind s; peer_warning := peer_warning s;
     secret_retry := secret_retry s |}.
Definition set_progress (x : Progress) (s : JobSnapshot) : JobSnapshot :=
  {| state := state s; s_checkpoint_id := s_checkpoint_id s; s_progress := x;
     prompt := prompt s; share_url := share_url s; results := results s; error := error s;
     s_error_kind := s_error_kind s; peer_warning := peer_warning s;
     secret_retry := secret_retry s |}.
Definition set_prompt (x : option PendingPrompt) (s : JobSnapshot) : JobSnapshot :=
  {| state := state s; s_checkpoint_id := s_checkpoint_id s; s_progress := s_progress s;
     prompt := x; share_url := share_url s; results := results s; error := error s;
     s_error_kind := s_error_kind s; peer_warning := peer_warning s;
     secret_retry := secret_retry s |}.
Definition set_url (x : option string) (s : JobSnapshot) : JobSnapshot :=
  {| state := state s; s_checkpoint_id := s_checkpoint_id s; s_progress := s_progress s;
     prompt := prompt s; share_url := x; results := results s; error := error s;
     s_error_kind := s_error_kind s; peer_warning := peer_warning s;
     secret_retry := secret_retry s |}.
Definition set_warning (x : option string) (s : JobSnapshot) : JobSnapshot :=
  {| state := state s; s_checkpoint_id := s_checkpoint_id s; s_progress := s_progress s;
     prompt := prompt s; share_url := share_url s; results := results s; error := error s;
     s_error_kind := s_error_kind s; peer_warning := x; secret_retry := secret_retry s |}.
(** The result fields [snapshot] assigns when the worker's outcome arrives. *)
Definition set_result (x : JobState) (rs : list string) (e : option string)
    (k : option JobErrorKind) (r : option SecretRetryKind) (s : JobSnapshot) : JobSnapshot :=
  {| state := x; s_checkpoint_id := s_checkpoint_id s; s_progress := s_progress s;
     prompt := prompt s; share_url := share_url s; results := rs; error := e;
     s_error_kind := k; peer_warning := peer_warning s; secret_retry := r |}.

Definition on_event (s : JobSnapshot) (e : TransferEvent) : JobSnapshot :=
  match e with
  | EvShareReady url => set_url (Some url) s
  | EvPeerFailed m => set_warning (Some m) s
  | EvPeerConsent _ => s
  end.

Definition drain_events (m : ManagedJob) : ManagedJob :=
  with_job (with_events [] (job m))
    (with_snap (λ s, foldl on_event s (events (job m))) m).

(** What a prompt shows of its question. *)
Definition prompt_fields (k : PromptKind) : PromptType * option string * option DirectoryPrompt :=
  match k with
  | Secret ShareKey => (TShareKey, None, None)
  | Secret Password => (TPassword, None, None)
  | PeerConsent peer_id => (TPeerConsent, Some peer_id, None)
  | Directory files bytes maximum_files =>
      (TDirectory, None,
       Some {| dp_files := files; dp_bytes := bytes; dp_maximum_files := maximum_files |})
  | ShareReady => (TShareReady, None, None)
  end.

Definition pending (id : Z) (k : PromptKind) : PendingPrompt :=
  let '(ty, p, d) := prompt_fields k in
  {| prompt_id := id; prompt_type := ty; peer := p; directory := d |}.

(** The prompt part of [snapshot]: take the next question when none is shown. *)
Definition show_prompt (m : ManagedJob) : ManagedJob :=
  match reply m, prompts (job m) with
  | None, p :: ps =>
      if decide (state (snap m) = JRunning) then
        {| job := with_prompts ps (job m);
           snap := set_prompt (Some (pending (next_prompt m) (kind p))) (snap m);
           reply := Some p; next_prompt := next_prompt m + 1;
           last_secret_kind := last_secret_kind m |}
      else m
  | _, _ => m
  end.

Definition settle (r : result Error (list string)) (m : ManagedJob) : ManagedJob :=
  with_snap (λ s,
    match r with
    | Ok rs => set_result JComplete rs (error s) (s_error_kind s) (secret_retry s) s
    | Err e =>
        if is_cancelled e
        then set_result JPaused (results s) (error s) (Some KCancelled) (secret_retry s) s
        else set_result JFailed (results s) (Some (chain_string e)) (Some (error_kind e))
               (if decide (error_kind e = KCrypto)
                then Some (default RGeneric (last_secret_kind m)) else secret_retry s) s
    end) m.

Definition sample_progress (m : ManagedJob) : ManagedJob :=
  with_snap (set_progress (progress (job m))) m.
Definition sample_checkpoint (m : ManagedJob) : ManagedJob :=
  with_snap (set_checkpoint (checkpoint_id (job m))) m.

(** The poll part of [snapshot]. *)
Definition collect (m : ManagedJob) : ManagedJob :=
  match poll (job m) with
  | (None, _) => m
  | (Some r, j) =>
      settle r (drain_events (with_snap (set_prompt None) (with_reply None
        (sample_checkpoint (sample_progress (with_job j m))))))
  end.

(** Worker steps between two reads of the host. *)
Definition interfere (ws : list WorkerStep) (m : ManagedJob) : ManagedJob :=
  with_job (work ws (job m)) m.

Definition active (s : JobState) : bool := bool_decide (s ∈ [JRunning; JPausing]).

Definition snapshot (w1 w2 w3 w4 : list WorkerStep) (m : ManagedJob) : ManagedJob :=
  if active (state (snap m)) then
    collect (interfere w4 (show_prompt (interfere w3 (drain_events (interfere w2
      (sample_checkpoint (interfere w1 (sample_progress m))))))))
  else interfere (w1 ++ w2 ++ w3 ++ w4) m.

(** The three answers share their first two steps: the id must be that of the
    prompt on show, and the reply is taken from the job. *)
Definition shows (id : Z) (m : ManagedJob) : bool :=
  bool_decide (prompt_id <$> prompt (snap m) = Some id).

Definition answer (p : Prompt) (v : string) (m : ManagedJob) : result string () * ManagedJob :=
  let '(r, j) := send (reply_to p) v (job m) in
  (r, with_job j (with_snap (set_prompt None) m)).

Definition is_directory (k : PromptKind) : bool :=
  match k with Directory _ _ _ => true | _ => false end.
Definition is_peer_consent (k : PromptKind) : bool :=
  match k with PeerConsent _ => true | _ => false end.

Definition respond (id : Z) (value : string) (m : ManagedJob) : result string () * ManagedJob :=
  if negb (shows id m) then (Err "This transfer prompt is no longer active", m)
  else match reply m with
  | None => (Err "Transfer prompt is closed", m)
  | Some p =>
      if is_directory (kind p) || is_peer_consent (kind p)
      then (Err "Directory prompts require an explicit ZIP or individual-files choice", m)
      else answer p value (with_secret_kind
             (match kind p with
              | Secret ShareKey => Some RShareKey
              | Secret Password => Some RPassword
              | _ => None
              end) (with_reply None m))
  end.

Definition respond_directory (id : Z) (zip : bool) (m : ManagedJob)
    : result string () * ManagedJob :=
  if negb (shows id m) then (Err "This transfer prompt is no longer active", m)
  else match reply m with
  | None => (Err "Transfer prompt is closed", m)
  | Some p =>
      if negb (is_directory (kind p))
      then (Err "This transfer prompt does not accept a directory choice", with_reply None m)
      else answer p (if zip then "zip" else "individual")
             (with_secret_kind None (with_reply None m))
  end.

Definition respond_consent (id : Z) (allowed : bool) (m : ManagedJob)
    : result string () * ManagedJob :=
  if negb (shows id m) then (Err "This transfer prompt is no longer active", m)
  else match reply m with
  | None => (Err "Transfer prompt is closed", m)
  | Some p =>
      if negb (is_peer_consent (kind p))
      then (Err "This transfer prompt does not accept peer consent", with_reply None m)
      else answer p (if allowed then "allow" else "deny") (with_reply None m)
  end.

Definition pause (m : ManagedJob) : ManagedJob :=
  if decide (state (snap m) = JRunning)
  then with_reply None (with_snap (set_prompt None)
         (with_job (cancel (job m)) (with_snap (set_state JPausing) m)))
  else m.

(** ** Runs *)

Inductive Step :=
| Work (ws : list WorkerStep)
| Snapshot (w1 w2 w3 w4 : list WorkerStep)
| Respond (id : Z) (value : string)
| RespondDirectory (id : Z) (zip : bool)
| RespondConsent (id : Z) (allowed : bool)
| Pause.

Definition step (m : ManagedJob) (x : Step) : ManagedJob :=
  match x with
  | Work ws => interfere ws m
  | Snapshot w1 w2 w3 w4 => snapshot w1 w2 w3 w4 m
  | Respond id v => (respond id v m).2
  | RespondDirectory id zip => (respond_directory id zip m).2
  | RespondConsent id allowed => (respond_consent id allowed m).2
  | Pause => pause m
  end.

Definition run (m : ManagedJob) (xs : list Step) : ManagedJob := foldl step m xs.

(** ** What the worker reported

    The reference the facade is compared with: everything a worker published
    before it ended, read off its own steps. *)
Record Report := {
  r_progress : Progress;
  r_checkpoint : option string;
  r_url : option string;
  r_warning : option string;
  r_ended : bool;
  r_end : option (result Error (list string)) }.

Definition no_report : Report :=
  {| r_progress := progress_default; r_checkpoint := None; r_url := None; r_warning := None;
     r_ended := false; r_end := None |}.

Definition url_of (u : option string) (e : TransferEvent) : option string :=
  match e with EvShareReady x => Some x | _ => u end.
Definition warning_of (u : option string) (e : TransferEvent) : option string :=
  match e with EvPeerFailed x => Some x | _ => u end.

Definition report_step (h : Report) (w : WorkerStep) : Report :=
  if r_ended h then h else
  match w with
  | SetProgress p =>
      {| r_progress := p; r_checkpoint := r_checkpoint h; r_url := r_url h;
         r_warning := r_warning h; r_ended := false; r_end := r_end h |}
  | SetCheckpoint id =>
      {| r_progress := r_progress h; r_checkpoint := Some id; r_url := r_url h;
         r_warning := r_warning h; r_ended := false; r_end := r_end h |}
  | Emit e =>
      {| r_progress := r_progress h; r_checkpoint := r_checkpoint h; r_url := url_of (r_url h) e;
         r_warning := warning_of (r_warning h) e; r_ended := false; r_end := r_end h |}
  | Finish r =>
      {| r_progress := r_progress h; r_checkpoint := r_checkpoint h; r_url := r_url h;
         r_warning := r_warning h; r_ended := true; r_end := Some r |}
  | Die =>
      {| r_progress := r_progress h; r_checkpoint := r_checkpoint h; r_url := r_url h;
         r_warning := r_warning h; r_ended := true; r_end := r_end h |}
  | Ask _ | Leave _ => h
  end.

(** The worker's steps of a run, in order. *)
Definition history (xs : list Step) : list WorkerStep :=
  xs ≫= λ x, match x with
             | Work ws => ws
             | Snapshot w1 w2 w3 w4 => w1 ++ w2 ++ w3 ++ w4
             | _ => []
             end.

Definition report (xs : list Step) : Report := foldl report_step no_report (history xs).

(** ** Lemmas *)

Lemma foldl_on_event es s :
  foldl on_event s es =
  set_warning (foldl warning_of (peer_warning s) es) (set_url (foldl url_of (share_url s) es) s).
Proof. revert s. induction es as [|[] es IH]; intros []; simpl; [done|..]; by rewrite IH. Qed.

Lemma work_app ws ws' j : work (ws ++ ws') j = work ws' (work ws j).
Proof. apply foldl_app. Qed.

Lemma run_snoc m xs x : run m (xs ++ [x]) = step (run m xs) x.
Proof. unfold run. by rewrite foldl_app. Qed.
Lemma run_app m xs ys : run m (xs ++ ys) = run (run m xs) ys.
Proof. apply foldl_app. Qed.

(** Rule of invariance: a property of the system kept by each worker step, by
    each part of [snapshot] and by each answer is kept by every step. *)
Section stages.
Context (P : ManagedJob → Prop).
Context (Pwork : ∀ w m, P m → P (with_job (worker_step w (job m)) m)).
Context (Pprogress : ∀ m, P m → P (sample_progress m)).
Context (Pcheckpoint : ∀ m, P m → P (sample_checkpoint m)).
Context (Pdrain : ∀ m, P m → P (drain_events m)).
Context (Pshow : ∀ m, P m → P (show_prompt m)).
Context (Pcollect : ∀ m, P m → P (collect m)).

Lemma interfere_stage ws m : P m → P (interfere ws m).
Proof using Pwork.
  revert m. induction ws as [|w ws IH]; intros m Hm; [by destruct m|].
  exact (IH _ (Pwork w m Hm)).
Qed.

Lemma snapshot_stage w1 w2 w3 w4 m : P m → P (snapshot w1 w2 w3 w4 m).
Proof using All.
  unfold snapshot. intros. case_match; [apply Pcollect|];
    repeat first [apply interfere_stage | apply Pshow | apply Pdrain | apply Pcheckpoint
                 | apply Pprogress]; done.
Qed.
End stages.

(** Every accepted answer goes through [answer], under the id on show, and fits
    its question. *)
Definition fits (k : PromptKind) (v : string) : Prop :=
  match k with
  | Directory _ _ _ => v ∈ ["zip"; "individual"]
  | PeerConsent _ => v ∈ ["allow"; "deny"]
  | _ => True
  end.

(** What a call that answers does: nothing, drop the reply, or answer. *)
Inductive responded (x : Step) (id : Z) (m : ManagedJob) : ManagedJob → Prop :=
| responded_nothing : responded x id m m
| responded_dropped p :
    reply m = Some p → shows id m = true → responded x id m (with_reply None m)
| responded_answer p v k :
    reply m = Some p → shows id m = true → fits (kind p) v →
    (is_peer_consent (kind p) = true → x = RespondConsent id (bool_decide (v = "allow"))) →
    responded x id m (answer p v (with_secret_kind k (with_reply None m))).2.

Lemma respond_responded id v m : responded (Respond id v) id m (respond id v m).2.
Proof.
  unfold respond. destruct (shows id m) eqn:Hs; simpl; [|constructor].
  destruct (reply m) as [p|] eqn:Hr; simpl; [|constructor].
  destruct (kind p) as [k|? ? ?| |peer_id] eqn:Hk; simpl;
    first [apply responded_nothing | eapply responded_answer; by rewrite ?Hk].
Qed.

Lemma respond_directory_responded id zip m :
  responded (RespondDirectory id zip) id m (respond_directory id zip m).2.
Proof.
  unfold respond_directory. destruct (shows id m) eqn:Hs; simpl; [|constructor].
  destruct (reply m) as [p|] eqn:Hr; simpl; [|constructor].
  destruct (kind p) eqn:Hk; simpl; try (by eapply responded_dropped);
    eapply responded_answer; rewrite ?Hk; try done; destruct zip; set_solver.
Qed.

Lemma respond_consent_responded id allowed m :
  responded (RespondConsent id allowed) id m (respond_consent id allowed m).2.
Proof.
  unfold respond_consent. destruct (shows id m) eqn:Hs; simpl; [|constructor].
  destruct (reply m) as [p|] eqn:Hr; simpl; [|constructor].
  destruct (kind p) eqn:Hk; simpl; try (by eapply responded_dropped).
  replace (with_reply None m) with (with_secret_kind (last_secret_kind m) (with_reply None m))
    by (by destruct m).
  eapply responded_answer; rewrite ?Hk; try done; destruct allowed; simpl; try done; set_solver.
Qed.

(** The questions not yet answered: the one on show and those waiting. *)
Definition outstanding (m : ManagedJob) : list Prompt := option_list (reply m) ++ prompts (job m).

Record inv (m : ManagedJob) : Prop := {
  inv_state : is_Some (prompt (snap m)) ∨ is_Some (reply m) → state (snap m) = JRunning;
  inv_reply p : reply m = Some p → ∃ id, prompt (snap m) = Some (pending id (kind p));
  inv_id q : prompt (snap m) = Some q → prompt_id q < next_prompt m;
  inv_asked : Forall (λ p, asked (job m) !! reply_to p = Some (kind p)) (outstanding m);
  inv_answers : Forall (λ a, ∃ k, asked (job m) !! a.1 = Some k ∧ fits k a.2) (answers (job m));
  inv_once : NoDup ((reply_to <$> outstanding m) ++ (answers (job m)).*1) }.

Lemma prompt_id_pending id k : prompt_id (pending id k) = id.
Proof. unfold pending. by destruct (prompt_fields k) as [[? ?] ?]. Qed.

(** A worker step that asks nothing leaves the questions alone. *)
Lemma inv_same_questions m m' :
  inv m →
  state (snap m') = state (snap m) → prompt (snap m') = prompt (snap m) →
  reply m' = reply m → next_prompt m' = next_prompt m →
  prompts (job m') = prompts (job m) → asked (job m') = asked (job m) →
  answers (job m') = answers (job m) → inv m'.
Proof.
  intros [] E1 E2 E3 E4 E5 E6 E7.
  split; unfold outstanding in *; rewrite ?E1, ?E2, ?E3, ?E4, ?E5, ?E6, ?E7; done.
Qed.

Lemma inv_ask k m : inv m → inv (with_job (worker_step (Ask k) (job m)) m).
Proof.
  intros Hm. simpl. destruct (alive (job m)) eqn:Ha; [|by destruct m].
  pose proof (inv_asked m Hm) as Hq. pose proof (inv_answers m Hm) as Hans.
  pose proof (inv_once m Hm) as Hnd. destruct Hm.
  assert (Hout : outstanding (with_job
    {| cancelled := cancelled (job m); progress := progress (job m);
       checkpoint_id := checkpoint_id (job m);
       prompts := prompts (job m) ++ [{| kind := k; reply_to := length (asked (job m)) |}];
       events := events (job m); outcome := outcome (job m); alive := true;
       asked := asked (job m) ++ [k]; listening := {[length (asked (job m))]} ∪ listening (job m);
       answers := answers (job m) |} m)
    = outstanding m ++ [{| kind := k; reply_to := length (asked (job m)) |}])
    by (unfold outstanding; simpl; by rewrite (assoc_L (++))).
  split; try done; rewrite ?Hout; simpl.
  - apply Forall_app. split; [|constructor; [|done]].
    + eapply Forall_impl; [exact Hq|]. simpl. intros p Hp. by apply lookup_app_l_Some.
    + simpl. by rewrite lookup_app_r, Nat.sub_diag by done.
  - eapply Forall_impl; [exact Hans|]. simpl. intros [c v] (k' & Hk & Hv). exists k'.
    split; [by apply lookup_app_l_Some|done].
  - rewrite fmap_app. simpl. rewrite <- (assoc_L (++)). simpl.
    rewrite <- Permutation_middle, NoDup_cons. split; [|done].
    rewrite not_elem_of_app. split; intros (x & Hx & Hin)%list_elem_of_fmap.
    + pose proof (proj1 (Forall_forall _ _) Hq x Hin) as Hp. simpl in Hp.
      apply lookup_lt_Some in Hp. lia.
    + destruct (proj1 (Forall_forall _ _) Hans x Hin) as (k' & Hp & _).
      apply lookup_lt_Some in Hp. lia.
Qed.

Lemma inv_work w m : inv m → inv (with_job (worker_step w (job m)) m).
Proof.
  intros Hm. destruct w; try (by apply inv_ask); apply (inv_same_questions m); try done;
    simpl; by destruct (alive (job m)).
Qed.

Lemma inv_drain m : inv m → inv (drain_events m).
Proof.
  intros Hm. apply (inv_same_questions m); try done; unfold drain_events; simpl;
    by rewrite foldl_on_event.
Qed.

Lemma inv_show m : inv m → inv (show_prompt m).
Proof.
  intros Hm. unfold show_prompt. destruct (reply m) eqn:Hr; [done|].
  destruct (prompts (job m)) as [|p ps] eqn:Hp; [done|]. destruct (decide _) as [Hs|]; [|done].
  destruct Hm. unfold outstanding in *. rewrite Hr, Hp in *. simpl in *.
  split; simpl; try done.
  - intros p' [= <-]. by exists (next_prompt m).
  - intros q [= <-]. rewrite prompt_id_pending. lia.
Qed.

(** Dropping the reply and the prompt keeps the invariant. *)
Lemma inv_without_reply m : inv m → inv (with_reply None m).
Proof.
  intros []. unfold outstanding in *. split; simpl; try done; unfold outstanding; simpl.
  - intros [?|[? [=]]]; eauto.
  - destruct (reply m); [by apply Forall_cons_1 in inv_asked0 as [_ ?]|done].
  - destruct (reply m); [simpl in inv_once0; by apply NoDup_cons in inv_once0 as [_ ?]|done].
Qed.

Lemma inv_without_prompt m : reply m = None → inv m → inv (with_snap (set_prompt None) m).
Proof.
  intros Hr []. split; simpl; try done.
  - intros [[? ?]|[? ?]]; simplify_eq; eauto.
  - intros p Hp. congruence.
Qed.

Lemma inv_idle m f :
  reply m = None → prompt (snap m) = None → (∀ s, prompt (f s) = prompt s) →
  inv m → inv (with_snap f m).
Proof.
  intros Hr Hp Hf []. split; simpl; try done; rewrite ?Hf, ?Hp, ?Hr; try done.
  by intros [[? ?]|[? ?]].
Qed.

Lemma inv_collect m : inv m → inv (collect m).
Proof.
  intros Hm. unfold collect. destruct (poll (job m)) as [[r|] j] eqn:Hpoll; [|done].
  apply inv_idle; [done| |intros s; destruct r as [?|e]; [|destruct (is_cancelled e)]; done|].
  { unfold drain_events. simpl. by rewrite foldl_on_event. }
  apply inv_drain, inv_without_prompt; [done|]. apply inv_without_reply.
  apply (inv_same_questions m); try done; simpl;
    unfold poll in Hpoll; repeat case_match; by simplify_eq.
Qed.

Lemma inv_answer p v k m :
  reply m = Some p → fits (kind p) v → inv m →
  inv (answer p v (with_secret_kind k (with_reply None m))).2.
Proof.
  intros Hr Hv Hm. unfold answer, send. simpl.
  assert (Hdrop : inv (with_snap (set_prompt None) (with_secret_kind k (with_reply None m)))).
  { apply inv_without_prompt; [done|]. apply (inv_same_questions (with_reply None m)); try done.
    by apply inv_without_reply. }
  case_bool_decide as Hl; simpl; [|by apply (inv_same_questions _ _ Hdrop)].
  destruct Hdrop, Hm. unfold outstanding in *. rewrite Hr in *. simpl in *.
  split; simpl; try done; unfold outstanding; simpl.
  - apply Forall_app. split; [done|]. constructor; [|done]. simpl. exists (kind p).
    by apply Forall_cons in inv_asked1 as [? _].
  - rewrite fmap_app, (assoc_L (++)). simpl. rewrite <- Permutation_cons_append. done.
Qed.

Lemma inv_responded x id m m' : responded x id m m' → inv m → inv m'.
Proof. destruct 1; eauto using inv_without_reply, inv_answer. Qed.

Lemma inv_step m x : inv m → inv (step m x).
Proof.
  intros Hm. destruct x; simpl.
  - apply interfere_stage; eauto using inv_work.
  - apply snapshot_stage; eauto using inv_work, inv_drain, inv_show, inv_collect;
      intros m' Hm'; by apply (inv_same_questions m').
  - eapply inv_responded; [apply respond_responded|done].
  - eapply inv_responded; [apply respond_directory_responded|done].
  - eapply inv_responded; [apply respond_consent_responded|done].
  - unfold pause. destruct (decide _) as [Hs|]; [|done].
    assert (H : inv (with_snap (set_prompt None) (with_reply None m)))
      by (by apply inv_without_prompt, inv_without_reply).
    destruct H. split; simpl in *; try done. by intros [[? [=]]|[? [=]]].
Qed.

Lemma inv_new : inv (new spawn).
Proof.
  split; simpl; try done; constructor.
Qed.

Lemma inv_run m xs : inv m → inv (run m xs).
Proof. revert m. induction xs as [|x xs IH]; intros m Hm; [done|]. apply IH, inv_step, Hm. Qed.

(** *** Answers *)

(** Both outcomes of a [send] leave what is not the answers alone. *)
Ltac sent :=
  unfold answer, send; simpl;
  match goal with |- context [if bool_decide ?P then _ else _] => destruct (bool_decide P) end;
  simpl.

Lemma work_answers ws j : answers (work ws j) = answers j.
Proof.
  revert j. induction ws as [|w ws IH]; intros j; [done|]. simpl. rewrite (IH (worker_step w j)).
  by destruct w; simpl; destruct (alive j).
Qed.

Lemma snapshot_answers w1 w2 w3 w4 m : answers (job (snapshot w1 w2 w3 w4 m)) = answers (job m).
Proof.
  apply (snapshot_stage (λ m', answers (job m') = answers (job m))); try done.
  - intros w m' <-. apply (work_answers [w]).
  - intros m' <-. unfold show_prompt. repeat case_match; done.
  - intros m' <-. unfold collect, poll. repeat case_match; by simplify_eq.
Qed.

(** A step that sends an answer to a consent question is the host's own call,
    under the id on show. *)
Lemma step_answers m x c v :
  inv m → (c, v) ∈ answers (job (step m x)) → (c, v) ∉ answers (job m) →
  ∃ id k, prompt (snap m) = Some (pending id k) ∧ asked (job m) !! c = Some k ∧
    (is_peer_consent k = true → x = RespondConsent id (bool_decide (v = "allow"))).
Proof.
  intros Hm Hin Hout.
  assert (Hr : ∀ id m', responded x id m m' → (c, v) ∈ answers (job m') →
    ∃ id k, prompt (snap m) = Some (pending id k) ∧ asked (job m) !! c = Some k ∧
    (is_peer_consent k = true → x = RespondConsent id (bool_decide (v = "allow")))).
  { intros id m' [| |p v' k Hr Hs Hv Hx]; [done|done|].
    sent; [|done].
    rewrite elem_of_app, list_elem_of_singleton. intros [?|[= -> ->]]; [done|].
    destruct (inv_reply m Hm p Hr) as [id' Hp].
    apply bool_decide_eq_true in Hs. rewrite Hp in Hs. simpl in Hs.
    rewrite prompt_id_pending in Hs. simplify_eq. exists id, (kind p).
    split; [done|]. split; [|done].
    pose proof (inv_asked m Hm) as Ha. unfold outstanding in Ha. rewrite Hr in Ha. simpl in Ha.
    by apply Forall_cons in Ha as [? _]. }
  destruct x; simpl in Hin.
  - unfold interfere in Hin. simpl in Hin. by rewrite work_answers in Hin.
  - by rewrite snapshot_answers in Hin.
  - eapply Hr; [apply respond_responded|done].
  - eapply Hr; [apply respond_directory_responded|done].
  - eapply Hr; [apply respond_consent_responded|done].
  - unfold pause in Hin. by case_decide.
Qed.

Lemma asked_step m x c k : asked (job m) !! c = Some k → asked (job (step m x)) !! c = Some k.
Proof.
  intros Hc. pose (P := λ m' : ManagedJob, asked (job m') !! c = Some k).
  assert (Hw : ∀ w m', P m' → P (with_job (worker_step w (job m')) m')).
  { unfold P. intros w m' Hm'. destruct w; simpl; destruct (alive (job m')); simpl; try done.
    by apply lookup_app_l_Some. }
  destruct x; simpl.
  - by apply (interfere_stage P).
  - apply (snapshot_stage P); try done; unfold P; intros m'; unfold show_prompt, collect, poll;
      repeat case_match; intros; by simplify_eq.
  - destruct (respond_responded id value m); simpl; try done. by sent.
  - destruct (respond_directory_responded id zip m); simpl; try done. by sent.
  - destruct (respond_consent_responded id allowed m); simpl; try done. by sent.
  - unfold pause. by case_decide.
Qed.

(** The values an [ask] on channel [c] can receive. *)
Definition delivers (c : nat) (j : Job) (turns : list (bool * Reply)) : Prop :=
  ∀ b v, (b, Value v) ∈ turns → (c, v) ∈ answers j.

Lemma ask_loop_value turns v :
  ask_loop turns = Some (Ok v) → ∃ b, (b, Value v) ∈ turns.
Proof.
  induction turns as [|[[] []] turns IH]; simpl; intros; simplify_eq.
  - eexists. by left.
  - destruct IH as [b ?]; [done|]. exists b. by right.
Qed.

Lemma answers_explicit xs c v :
  let m := run (new spawn) xs in
  (c, v) ∈ answers (job m) →
  ∃ pre id k post x, xs = pre ++ x :: post ∧
    prompt (snap (run (new spawn) pre)) = Some (pending id k) ∧
    asked (job m) !! c = Some k ∧
    (is_peer_consent k = true → x = RespondConsent id (bool_decide (v = "allow"))).
Proof.
  induction xs as [|x xs IH] using rev_ind; simpl; [by intros ?%elem_of_nil|].
  rewrite run_snoc. set (m := run (new spawn) xs) in *. intros Hin.
  destruct (decide ((c, v) ∈ answers (job m))) as [Hold|Hnew].
  - destruct (IH Hold) as (pre & id & k & post & y & -> & Hp & Ha & Hx).
    exists pre, id, k, (post ++ [x]), y. rewrite <- (assoc_L (++)). simpl.
    eauto using asked_step.
  - destruct (step_answers m x c v) as (id & k & Hp & Ha & Hx); [apply inv_run, inv_new|done..|].
    exists xs, id, k, [], x. eauto using asked_step.
Qed.

(** C22: a peer's address is exposed only by consent: when the worker's
    [request_peer_consent] for a peer succeeds, at some earlier moment the host
    called [respond_consent] with [allowed] under the id of a prompt then on
    show, and that prompt named this very peer.  The channel carries no other
    answer. *)
Theorem consent_explicit xs c peer_id turns :
  let m := run (new spawn) xs in
  asked (job m) !! c = Some (PeerConsent peer_id) →
  delivers c (job m) turns →
  request_peer_consent true turns = Some (Ok ()) →
  (∃ pre id post, xs = pre ++ RespondConsent id true :: post ∧
     prompt (snap (run (new spawn) pre)) = Some (pending id (PeerConsent peer_id))) ∧
  (∀ v, (c, v) ∈ answers (job m) → v = "allow").
Proof.
  intros m Hc Hd Hask. pose proof (inv_run _ xs inv_new : inv m) as Hm.
  assert (Hv : ∃ v, (c, v) ∈ answers (job m) ∧ consents v = true).
  { unfold request_peer_consent, ask in Hask.
    destruct (ask_loop turns) as [[v|[]]|] eqn:Hl; simplify_eq.
    destruct (consents v) eqn:Hcv; simplify_eq.
    destruct (ask_loop_value _ _ Hl) as [b Hb]. exists v. split; [by apply (Hd b)|done]. }
  destruct Hv as (v & Hin & Hcv).
  assert (v = "allow") as ->.
  { destruct (proj1 (Forall_forall _ _) (inv_answers m Hm) _ Hin) as (k & Hk & Hf).
    simpl in Hk, Hf. rewrite Hc in Hk. simplify_eq. simpl in Hf. apply list_elem_of_In in Hf as [<-|[<-|[]]]; done. }
  split.
  - destruct (answers_explicit xs c "allow" Hin) as (pre & id & k & post & x & -> & Hp & Ha & Hx).
    fold m in Ha. rewrite Hc in Ha. simplify_eq. exists pre, id, post.
    by rewrite Hx by done.
  - intros w Hw. pose proof (inv_once m Hm) as Hnd. apply NoDup_app in Hnd as (_ & _ & Hnd).
    apply list_elem_of_lookup in Hw as [i Hi], Hin as [j Hj].
    assert (i = j) as ->.
    { eapply (NoDup_lookup _ _ _ c Hnd); by rewrite list_lookup_fmap, ?Hi, ?Hj. }
    congruence.
Qed.

(** *** Prompt identity *)

Definition prompt_from (b : Z) (o : option PendingPrompt) (m : ManagedJob) : Prop :=
  b ≤ next_prompt m ∧ ∀ q, prompt (snap m) = Some q → o = Some q ∨ b ≤ prompt_id q.

Lemma prompt_from_step b o m x : prompt_from b o m → prompt_from b o (step m x).
Proof.
  assert (Hdrain : ∀ m, prompt_from b o m → prompt_from b o (drain_events m)).
  { intros m' [? Hq]. split; [done|]. unfold drain_events. simpl. by rewrite foldl_on_event. }
  assert (Hr : ∀ id m', prompt_from b o m → responded x id m m' → prompt_from b o m').
  { intros id m' Hm [|p|p v k]; try done; sent; by destruct Hm. }
  intros Hm. destruct x; simpl.
  - by apply interfere_stage.
  - apply snapshot_stage; try done.
    + intros m' [Hb Hq]. unfold show_prompt. repeat case_match; try done. split; simpl; [lia|].
      intros q [= <-]. rewrite prompt_id_pending. by right.
    + intros m' [Hb Hq]. unfold collect. destruct (poll _) as [[r|] j]; [|done].
      split; [done|]. unfold settle, drain_events. simpl. rewrite foldl_on_event.
      destruct r as [|e]; [|destruct (is_cancelled e)]; done.
  - eapply Hr; [done|apply respond_responded].
  - eapply Hr; [done|apply respond_directory_responded].
  - eapply Hr; [done|apply respond_consent_responded].
  - unfold pause. case_decide; [|done]. by destruct Hm.
Qed.

Lemma prompt_from_run b o m xs : prompt_from b o m → prompt_from b o (run m xs).
Proof. revert m. induction xs; intros m Hm; [done|]. simpl. eauto using prompt_from_step. Qed.

(** A prompt id names one question for ever: as long as some prompt is on
    show under it, it is the same one, and once it is no longer on show every
    answer under that id is refused without touching the job. *)
Theorem prompt_identity xs ys zs p q v :
  let m := run (new spawn) xs in
  let m' := run m ys in
  prompt (snap m) = Some p →
  (prompt (snap m') = Some q → prompt_id q = prompt_id p → q = p) ∧
  (prompt (snap m') ≠ Some p →
   respond (prompt_id p) v (run m' zs) =
     (Err "This transfer prompt is no longer active", run m' zs)).
Proof.
  intros m m' Hp. pose proof (inv_run _ xs inv_new : inv m) as Hm.
  pose proof (inv_id m Hm p Hp) as Hid.
  assert (H' : prompt_from (next_prompt m) (Some p) m').
  { apply prompt_from_run. split; [lia|]. intros q' Hq'. left. congruence. }
  split.
  - intros Hq Hpq. destruct (proj2 H' q Hq) as [[= ?]|]; [done|lia].
  - intros Hne. assert (H'' : prompt_from (next_prompt m) None (run m' zs)).
    { apply prompt_from_run. destruct H' as [? H']. split; [done|]. intros q' Hq'.
      destruct (H' q' Hq') as [[= <-]|]; [done|by right]. }
    unfold respond, shows. case_bool_decide as Hs; [|done].
    apply fmap_Some in Hs as (q' & Hq' & Hid').
    destruct (proj2 H'' q' Hq') as [|]; [done|lia].
Qed.

(** *** The final report *)

(** How a job that ended is shown; [paused] says the host asked for a pause. *)
Definition verdict (paused : Prop) (h : Report) (s : JobSnapshot) : Prop :=
  match r_end h with
  | Some (Ok rs) => state s = JComplete ∧ results s = rs
  | Some (Err e) =>
      (state s = JPaused ∧ s_error_kind s = Some KCancelled ∧ (is_cancelled e = true ∨ paused)) ∨
      (state s = JFailed ∧ s_error_kind s = Some (error_kind e) ∧ error s = Some (chain_string e))
  | None => state s = JFailed
  end.

Record tracks (paused : Prop) (h : Report) (m : ManagedJob) : Prop := {
  t_cancelled : cancelled (job m) = true → paused;
  t_alive : alive (job m) = negb (r_ended h);
  t_end : r_ended h = false → r_end h = None;
  t_progress : progress (job m) = r_progress h;
  t_checkpoint : checkpoint_id (job m) = r_checkpoint h;
  t_url : foldl url_of (share_url (snap m)) (events (job m)) = r_url h;
  t_warning : foldl warning_of (peer_warning (snap m)) (events (job m)) = r_warning h;
  t_outcome : active (state (snap m)) = true →
    ∃ b, (b = true → paused) ∧ outcome (job m) = worker_outcome b <$> r_end h;
  t_final : active (state (snap m)) = false →
    r_ended h = true ∧ events (job m) = [] ∧ s_progress (snap m) = r_progress h ∧
    s_checkpoint_id (snap m) = r_checkpoint h ∧ verdict paused h (snap m) }.

Lemma foldl_snoc {A B} (f : B → A → B) b l a : foldl f b (l ++ [a]) = f (foldl f b l) a.
Proof. by rewrite foldl_app. Qed.

Lemma tracks_work paused h w m :
  tracks paused h m → tracks paused (report_step h w) (with_job (worker_step w (job m)) m).
Proof.
  intros []. unfold report_step. destruct (r_ended h) eqn:He; simpl in *.
  { destruct w; simpl; rewrite ?t_alive0; split; simpl; by rewrite ?He. }
  rewrite t_end0 in * by done.
  assert (Hact : active (state (snap m)) = true) by (destruct (active _); naive_solver).
  destruct w; simpl; rewrite ?t_alive0; split; simpl;
    rewrite ?He, ?foldl_snoc, ?t_url0, ?t_warning0, ?t_end0, ?t_alive0; try done;
    try (intros; congruence); naive_solver.
Qed.

Lemma tracks_interfere paused h ws m :
  tracks paused h m → tracks paused (foldl report_step h ws) (interfere ws m).
Proof.
  revert h m. induction ws as [|w ws IH]; intros h m Hm; [by destruct m|].
  exact (IH _ _ (tracks_work _ _ w _ Hm)).
Qed.

(** A stage of [snapshot] before the poll: the job is still active. *)
Definition sampling (paused : Prop) (h : Report) (m : ManagedJob) : Prop :=
  tracks paused h m ∧ active (state (snap m)) = true.

Lemma sampling_same paused h m m' :
  sampling paused h m →
  cancelled (job m') = cancelled (job m) → alive (job m') = alive (job m) →
  progress (job m') = progress (job m) → checkpoint_id (job m') = checkpoint_id (job m) →
  outcome (job m') = outcome (job m) → state (snap m') = state (snap m) →
  foldl url_of (share_url (snap m')) (events (job m')) =
    foldl url_of (share_url (snap m)) (events (job m)) →
  foldl warning_of (peer_warning (snap m')) (events (job m')) =
    foldl warning_of (peer_warning (snap m)) (events (job m)) →
  sampling paused h m'.
Proof.
  intros [[] Ha] E1 E2 E3 E4 E5 E6 E7 E8. split; [|by rewrite E6].
  split; rewrite ?E1, ?E2, ?E3, ?E4, ?E5, ?E6, ?E7, ?E8; try done. congruence.
Qed.

Lemma sampling_interfere paused h ws m :
  sampling paused h m → sampling paused (foldl report_step h ws) (interfere ws m).
Proof. intros [? ?]. split; [by apply tracks_interfere|done]. Qed.

Lemma sampling_drain paused h m : sampling paused h m → sampling paused h (drain_events m).
Proof.
  intros Hm. apply (sampling_same _ _ _ _ Hm); try done; unfold drain_events; simpl;
    by rewrite foldl_on_event.
Qed.

Lemma sampling_show paused h m : sampling paused h m → sampling paused h (show_prompt m).
Proof.
  intros Hm. apply (sampling_same _ _ _ _ Hm); unfold show_prompt; repeat case_match; done.
Qed.

Lemma drained m :
  let m' := drain_events m in
  events (job m') = [] ∧ share_url (snap m') = foldl url_of (share_url (snap m)) (events (job m)) ∧
  peer_warning (snap m') = foldl warning_of (peer_warning (snap m)) (events (job m)) ∧
  s_progress (snap m') = s_progress (snap m) ∧
  s_checkpoint_id (snap m') = s_checkpoint_id (snap m).
Proof. unfold drain_events. simpl. by rewrite foldl_on_event. Qed.

(** The polled outcome is the worker's, and [settle] shows it as [verdict] says. *)
Lemma polled paused h m r j :
  sampling paused h m → poll (job m) = (Some r, j) →
  r_ended h = true ∧
  (∀ m', verdict paused h (snap (settle r m')) ∧ active (state (snap (settle r m'))) = false) ∧
  cancelled j = cancelled (job m) ∧ alive j = alive (job m) ∧ progress j = progress (job m) ∧
  checkpoint_id j = checkpoint_id (job m) ∧ events j = events (job m).
Proof.
  intros [[] Hact] Hp. destruct t_outcome0 as (b & Hb & Ho); [done|].
  unfold poll in Hp. rewrite Ho, t_alive0 in Hp.
  destruct (r_ended h) eqn:He; [|rewrite t_end0 in Hp by done; done].
  split; [done|]. unfold verdict.
  destruct (r_end h) as [[rs|e]|]; simpl in Hp; simplify_eq/=; (split; [|done]).
  - intros m'. unfold worker_outcome. by rewrite andb_false_r.
  - intros m'. unfold worker_outcome. rewrite andb_true_r.
    destruct b; [simpl; split; [left; auto|done]|].
    simpl. destruct (is_cancelled e) eqn:Hc; simpl; split; try done; [left|right]; auto.
  - done.
Qed.

Lemma tracks_collect paused h m : sampling paused h m → tracks paused h (collect m).
Proof.
  intros Hm. unfold collect. destruct (poll (job m)) as [[r|] j] eqn:Hp; [|apply Hm].
  destruct (polled _ _ _ _ _ Hm Hp) as (He & Hv & E1 & E2 & E3 & E4 & E5).
  destruct Hm as [[] Hact].
  set (m0 := with_snap (set_prompt None) _).
  pose proof (drained m0) as (D1 & D2 & D3 & D4 & D5).
  destruct (Hv (drain_events m0)) as [Hver Hidle].
  assert (Hkeep : ∀ A (f : JobSnapshot → A),
    (∀ x rs e k s, f (set_result x rs e k s (snap (drain_events m0))) = f (snap (drain_events m0))) →
    f (snap (settle r (drain_events m0))) = f (snap (drain_events m0))).
  { intros A f Hf. unfold settle. simpl. destruct r as [|e]; [|destruct (is_cancelled e)];
      apply Hf. }
  split.
  - change (cancelled j = true → paused). by rewrite E1.
  - change (alive j = negb (r_ended h)). by rewrite E2.
  - done.
  - change (progress j = r_progress h). by rewrite E3.
  - change (checkpoint_id j = r_checkpoint h). by rewrite E4.
  - rewrite (Hkeep _ share_url), D2 by done.
    change (foldl url_of (share_url (snap m)) (events j) = r_url h).
    by rewrite E5.
  - rewrite (Hkeep _ peer_warning), D3 by done.
    change (foldl warning_of (peer_warning (snap m)) (events j) = r_warning h). by rewrite E5.
  - rewrite Hidle. done.
  - intros _. split; [done|]. split; [done|].
    rewrite (Hkeep _ s_progress), (Hkeep _ s_checkpoint_id), D4, D5 by done.
    split; [change (progress j = r_progress h); by rewrite E3|].
    split; [change (checkpoint_id j = r_checkpoint h); by rewrite E4|done].
Qed.

Lemma tracks_step paused paused' h m x :
  (paused → paused') → (x = Pause → paused') → tracks paused h m →
  tracks paused' (foldl report_step h (history [x])) (step m x).
Proof.
  intros Himp Hpause Hm.
  assert (Hm' : tracks paused' h m).
  { destruct Hm. split; try done; [naive_solver..|]. intros Ha.
    destruct (t_final0 Ha) as (? & ? & ? & ? & Hv). repeat (split; [done|]). revert Hv.
    unfold verdict. repeat case_match; naive_solver. }
  clear Hm. unfold history. cbn [mbind list_bind app]. rewrite app_nil_r.
  assert (Hr : ∀ id m', responded x id m m' → tracks paused' h m').
  { intros id m' [|p|p v k]; [done|by destruct Hm'|]. sent; by destruct Hm'. }
  destruct x; simpl.
  - by apply tracks_interfere.
  - unfold snapshot. destruct (active (state (snap m))) eqn:Ha; [|by apply tracks_interfere].
    rewrite !foldl_app. apply tracks_collect, sampling_interfere, sampling_show,
      sampling_interfere, sampling_drain, sampling_interfere.
    eapply sampling_same; [apply (sampling_interfere _ h w1)|done..].
    by eapply sampling_same; [split; [apply Hm'|done]|..].
  - eapply Hr, respond_responded.
  - eapply Hr, respond_directory_responded.
  - eapply Hr, respond_consent_responded.
  - unfold pause. destruct (decide _) as [Hs|]; [|done]. destruct Hm'.
    split; simpl; try done; [by intros _; apply Hpause|]. intros _. apply t_outcome0. by rewrite Hs.
Qed.

Lemma tracks_run xs : tracks (Pause ∈ xs) (report xs) (run (new spawn) xs).
Proof.
  induction xs as [|x xs IH] using rev_ind.
  { split; simpl; try done. intros _. by exists false. }
  rewrite run_snoc. unfold report, history. rewrite bind_app, foldl_app.
  refine (tracks_step _ _ _ _ x _ _ IH); [set_solver|]. intros ->. set_solver.
Qed.

(** Nothing a worker published is lost, however its steps interleave with
    the host's polls: a job shown as ended carries the last progress record,
    the last checkpoint id, the last share link and the last peer warning the
    worker published before it ended, no prompt, and the worker's own outcome -
    its results when it succeeded; its error and category when it failed; a
    pause only when it was cancelled or the host asked for one. *)
Theorem final_report xs :
  let m := run (new spawn) xs in
  let h := report xs in
  active (state (snap m)) = false →
  r_ended h = true ∧ s_progress (snap m) = r_progress h ∧
  s_checkpoint_id (snap m) = r_checkpoint h ∧ share_url (snap m) = r_url h ∧
  peer_warning (snap m) = r_warning h ∧ prompt (snap m) = None ∧
  verdict (Pause ∈ xs) h (snap m).
Proof.
  intros m h Ha. destruct (tracks_run xs) as [? ? ? ? ? Hu Hw ? Hf].
  destruct (Hf Ha) as (? & He & ? & ? & ?). rewrite He in Hu, Hw.
  repeat (split; [done|]). split; [|done].
  destruct (prompt (snap m)) eqn:Hp; [|done].
  pose proof (inv_state _ (inv_run _ xs inv_new)) as Hs. fold m in Hs.
  rewrite Hs in Ha by eauto. done.
Qed.

(** ** A wrong kind of answer

    [respond_directory] and [respond_consent] take the reply before they test
    the prompt's kind, so a refused call still drops the worker's channel: the
    prompt stays on show and no answer can reach the worker any more. *)
Theorem wrong_kind_loses_prompt m p peer_id id zip allowed :
  reply m = Some p → shows id m = true → kind p = PeerConsent peer_id →
  let m' := (respond_directory id zip m).2 in
  prompt (snap m') = prompt (snap m) ∧
  respond_consent id allowed m' = (Err "Transfer prompt is closed", m').
Proof.
  intros Hr Hs Hk. unfold respond_directory. rewrite Hs, Hr, Hk. simpl.
  split; [done|]. unfold respond_consent.
  assert (Hs' : shows id (with_reply None m) = true) by done. by rewrite Hs'.
Qed.

(** ** Examples *)

Module Example_managed.

Definition peer_question : list Step :=
  [Work [Ask (PeerConsent "peer-1")]; Snapshot [] [] [] []].

Definition consented : list Step :=
  peer_question ++ [RespondConsent 1 true;
    Work [Emit (EvShareReady "https://example/s/1")];
    Snapshot [Emit (EvPeerFailed "gone")] [] []
      [SetCheckpoint "job-1"; Emit (EvShareReady "https://example/s/2"); Finish (Ok ["a"])]].

(** The final link is published between the drain and the poll of one
    [snapshot]: it is on show all the same. *)
Example consented_final :
  let s := snap (run (new spawn) consented) in
  state s = JComplete ∧ share_url s = Some "https://example/s/2" ∧
  s_checkpoint_id s = Some "job-1" ∧ results s = ["a"].
Proof. by vm_compute. Qed.

Lemma consent_explicit_witness :
  ∃ pre id post, consented = pre ++ RespondConsent id true :: post ∧
    prompt (snap (run (new spawn) pre)) = Some (pending id (PeerConsent "peer-1")).
Proof.
  refine (proj1 (consent_explicit consented 0%nat "peer-1" [(false, Value "allow")] _ _ _)).
  - by vm_compute.
  - intros b v H. apply list_elem_of_singleton in H. simplify_eq. vm_compute. left.
  - by vm_compute.
Defined.

Lemma final_report_witness :
  share_url (snap (run (new spawn) consented)) = Some "https://example/s/2".
Proof. refine (proj1 (proj2 (proj2 (proj2 (final_report consented _))))). by vm_compute. Defined.

Lemma prompt_identity_witness :
  (respond 1 "x" (run (new spawn) (peer_question ++ [RespondConsent 1 false]))).1 =
    Err "This transfer prompt is no longer active".
Proof.
  refine (f_equal fst (proj2 (prompt_identity peer_question [RespondConsent 1 false] []
    (pending 1 (PeerConsent "peer-1")) (pending 1 ShareReady) "x" _) _)).
  - by vm_compute.
  - by vm_compute.
Defined.

End Example_managed.
