(* ===== verification/Inbox.v ===== *)
(** * Inbox staging (crates/transfer-native/src/protocol/inbox_staging.rs)

    Deliveries to an account are fetched while the receiving key is locked: the
    ciphertext of every chunk is stored as an immutable artifact beside a
    record of how far staging got.  The modelled state is one checkpoint
    directory: its name, its saved record and its artifacts. *)

From Stdlib Require Import Ascii String.
From S2P Require Import Prelude Str Frame Codec Transport Http Link.
From S2P Require Checkpoint.
Open Scope Z_scope.

(** ** Data *)

Record Bundle := { bundle_id : Z; user_id : Z; public_key : string }.
Record RecipientKey := { bundle : Bundle; encrypted_key : string }.

Record Item := { item_id : string; position : Z; chunk_count : Z; item_ciphertext_bytes : Z }.

Record Metadata := {
  id : string;
  driver : string;
  protocol_version : Z;
  chunk_bytes : Z;
  ciphertext_bytes : Z;
  expires_at : string;
  encrypted_manifest : string;
  recipient_key : RecipientKey;
  items : list Item }.

Record Staging := {
  version : Z;
  instance : string;
  account_id : Z;
  metadata : Metadata;
  state : string;
  next_item : nat;
  next_chunk : Z }.

#[export] Instance Bundle_eq_dec : EqDecision Bundle.
Proof. solve_decision. Defined.
#[export] Instance RecipientKey_eq_dec : EqDecision RecipientKey.
Proof. solve_decision. Defined.
#[export] Instance Item_eq_dec : EqDecision Item.
Proof. solve_decision. Defined.
#[export] Instance Metadata_eq_dec : EqDecision Metadata.
Proof. solve_decision. Defined.

(** What is found under an artifact's name: a regular file, a symbolic link
    with the regular file it leads to, if any, or something else. *)
Inductive Node :=
| Regular (content : list Z)
| SymlinkTo (content : option (list Z))
| Other.

(** Writes to the checkpoint directory are [Io] of the prelude: Checkpoint.v
    proves that a failed one leaves the old content or the new. *)
Record Store := { folder : string; record : option Staging; nodes : gmap string Node }.

Definition with_record (r : Staging) (s : Store) : Store :=
  {| folder := folder s; record := Some r; nodes := nodes s |}.
Definition with_node (name : string) (n : Node) (s : Store) : Store :=
  {| folder := folder s; record := record s; nodes := <[name := n]> (nodes s) |}.

Section staging.
Context `{Codec}.

Definition identity (instance : string) (account_id : Z) (transfer : string) : string :=
  sha256_hex (bytes instance ++ [0] ++ bytes (decimal account_id) ++ [0] ++ bytes transfer).

Definition validate_id (value : string) : result string () :=
  parsed ← parse_share_link value;
  reject negb (link_id parsed =? value)%string || bool_decide (link_key parsed ≠ None)
    with "inbox identifiers must be bare ULIDs";
  Ok ().

(** One turn of [validate]'s loop: the running total after an item. *)
Definition validate_item (chunk_bytes : Z) (total : Z) (entry : nat * Item) : result string Z :=
  let '(pos, item) := entry in
  _ ← validate_id (item_id item);
  tags ← ok_or (checked_mul (chunk_count item) 16) "chunk count overflow";
  plain ← ok_or (checked_sub (item_ciphertext_bytes item) tags) "invalid ciphertext geometry";
  reject negb (position item =? Z.of_nat pos)
      || negb (chunk_count item =? Z.max (div_ceil plain chunk_bytes) 1)
      || (u32_max <? chunk_count item)
    with "invalid inbox chunk geometry";
  ok_or (checked_add total (item_ciphertext_bytes item)) "inbox size overflow".

Definition enumerate {A} (l : list A) : list (nat * A) := zip (seq 0 (length l)) l.

Definition validate (m : Metadata) (account_id : Z) : result string () :=
  reject negb (driver m =? "http")%string || negb (protocol_version m =? 1)
      || negb (user_id (bundle (recipient_key m)) =? account_id)
      || negb ((1 <=? chunk_bytes m) && (chunk_bytes m <=? 24999984))
      || bool_decide (items m = []) || (1000 <? zlen (items m))
    with "unsupported inbox staging metadata";
  _ ← validate_id (id m);
  total ← try_fold (validate_item (chunk_bytes m)) 0 (enumerate (items m));
  reject negb (total =? ciphertext_bytes m) with "invalid inbox ciphertext total";
  Ok ().

(** The ciphertext length of a chunk. *)
Definition expected (item : Item) (chunk chunk_bytes : Z) : Z :=
  let plain := item_ciphertext_bytes item - chunk_count item * 16 in
  Z.min (saturating_sub plain (chunk * chunk_bytes)) chunk_bytes + 16.

Definition artifact_name (item : nat) (chunk : Z) : string :=
  "inbox-cipher-" +:+ decimal (Z.of_nat item) +:+ "-" +:+ decimal chunk.

(** [fs::symlink_metadata] and [fs::metadata], tested for a regular file of a
    length; the second follows links. *)
Definition is_file_of (s : Store) (name : string) (size : Z) : bool :=
  match nodes s !! name with Some (Regular c) => zlen c =? size | _ => false end.
Definition leads_to_file_of (s : Store) (name : string) (size : Z) : bool :=
  match nodes s !! name with
  | Some (Regular c) | Some (SymlinkTo (Some c)) => zlen c =? size
  | _ => false
  end.

(** ** Operations *)

Definition prepare (io : Io) (inst : string) (account : Z) (m : Metadata) (s : Store)
    : result string Staging * Store :=
  match validate m account with
  | Err e => (Err e, s)
  | Ok _ =>
      if negb (folder s =? identity inst account (id m))%string
      then (Err "inbox staging checkpoint belongs to a different delivery", s)
      else match record s with
      | Some saved =>
          if negb (version saved =? 1) || negb (instance saved =? inst)%string
             || negb (account_id saved =? account) || negb (bool_decide (metadata saved = m))
          then (Err "staged inbox identity or encrypted metadata changed", s)
          else (Ok saved, s)
      | None =>
          let saved := {| version := 1; instance := inst; account_id := account; metadata := m;
                          state := "downloading"; next_item := 0%nat; next_chunk := 0 |} in
          let '(r, s) := io_write io (with_record saved) s in
          (_ ← r; Ok saved, s)
      end
  end.

Definition at_chunk (n : nat) (k : Z) (r : Staging) : Staging :=
  {| version := version r; instance := instance r; account_id := account_id r;
     metadata := metadata r; state := state r; next_item := n; next_chunk := k |}.
Definition locked (r : Staging) : Staging :=
  {| version := version r; instance := instance r; account_id := account_id r;
     metadata := metadata r; state := "staged-locked"; next_item := next_item r;
     next_chunk := next_chunk r |}.

(** [reconcile]'s loop: past an item whose chunks are done, then over the
    stored chunks of the next.  The fuel counts the turns; [turns_left] says how
    many are enough. *)
Fixpoint advance (fuel : nat) (s : Store) (r : Staging) : Staging :=
  match fuel with
  | O => r
  | S fuel =>
      match items (metadata r) !! next_item r with
      | None => r
      | Some item =>
          if chunk_count item <=? next_chunk r
          then advance fuel s (at_chunk (S (next_item r)) 0 r)
          else if negb (is_file_of s (artifact_name (next_item r) (next_chunk r))
                          (expected item (next_chunk r) (chunk_bytes (metadata r))))
          then r
          else advance fuel s (at_chunk (next_item r) (next_chunk r + 1) r)
      end
  end.

(** Turns left at a position: one per chunk from here on, and one per item. *)
Definition turns_left (r : Staging) : nat :=
  match drop (next_item r) (items (metadata r)) with
  | [] => 0
  | item :: rest =>
      S (Z.to_nat (chunk_count item - next_chunk r)
         + sum_list_with (λ i, S (Z.to_nat (chunk_count i))) rest)
  end.

Definition reconcile (s : Store) (r : Staging) : Staging :=
  let r := advance (turns_left r) s r in
  if bool_decide (next_item r = length (items (metadata r))) then locked r else r.

Record BackgroundWork := {
  operation_id : string;
  transfer_id : string;
  method : string;
  url : string;
  headers : list (string * string);
  body_path : string;
  expected_response_bytes : Z }.

Definition work_for (saved : Staging) (cookie : string) (pos : nat) (item : Item) (chunk : Z)
    : BackgroundWork :=
  {| operation_id := identity (instance saved) (account_id saved) (id (metadata saved))
       +:+ ":" +:+ decimal (Z.of_nat pos) +:+ ":" +:+ decimal chunk;
     transfer_id := id (metadata saved);
     method := "GET";
     url := instance saved +:+ "/api/native/v1/inbox/" +:+ id (metadata saved) +:+ "/items/"
       +:+ item_id item +:+ "/chunks/" +:+ decimal chunk +:+ "?automatic=1";
     headers := [("Cookie", cookie)];
     body_path := "";
     expected_response_bytes := expected item chunk (chunk_bytes (metadata saved)) |}.

(** The positions [pending] looks at, in order. *)
Definition positions (saved : Staging) : list (nat * Item * Z) :=
  '(pos, item) ← drop (next_item saved) (enumerate (items (metadata saved)));
  let first := if decide (pos = next_item saved) then next_chunk saved else 0 in
  k ← seqZ first (chunk_count item - first);
  [(pos, item, k)].

(** The loop over them: full after [limit] pieces of work. *)
Fixpoint collect_work (saved : Staging) (cookie : string) (limit : Z) (s : Store)
    (l : list (nat * Item * Z)) (work : list BackgroundWork) : list BackgroundWork :=
  match l with
  | [] => work
  | (pos, item, chunk) :: l =>
      if leads_to_file_of s (artifact_name pos chunk)
           (expected item chunk (chunk_bytes (metadata saved)))
      then collect_work saved cookie limit s l work
      else
        let work := work ++ [work_for saved cookie pos item chunk] in
        if Z.max limit 1 <=? zlen work then work
        else collect_work saved cookie limit s l work
  end.

Definition pending (io : Io) (cookie : string) (limit : Z) (s : Store)
    : result string (list BackgroundWork) * Store :=
  if is_empty cookie || contains (String "010"%char "") cookie || contains (String "013"%char "") cookie
  then (Err "invalid inbox session credentials", s)
  else match record s with
  | None => (Err "inbox staging record is empty", s)
  | Some saved =>
      match validate (metadata saved) (account_id saved) with
      | Err e => (Err e, s)
      | Ok _ =>
          if negb (state saved =? "downloading")%string then (Ok [], s)
          else
            let saved := reconcile s saved in
            let '(r, s) := io_write io (with_record saved) s in
            (_ ← r; Ok (collect_work saved cookie limit s (positions saved) []), s)
      end
  end.

(** [Store::persist_immutable], as far as [ingest] can tell. *)
Definition persist_immutable (io : Io) (name : string) (c : list Z) (s : Store)
    : result string () * Store :=
  if Checkpoint.MAX_IMMUTABLE_BYTES <? zlen c then (Err "artifact is too large", s)
  else if bool_decide (nodes s !! name ≠ None) then (Err "artifact already exists", s)
  else io_write io (with_node name (Regular c)) s.

(** [Path::exists] follows links. *)
Definition path_exists (s : Store) (name : string) : bool :=
  match nodes s !! name with None | Some (SymlinkTo None) => false | _ => true end.

(** An artifact already there is kept as it is. *)
Definition store_artifact (io : Io) (name : string) (c : list Z) (s : Store)
    : result string () * Store :=
  if path_exists s name then (Ok (), s) else persist_immutable io name c s.

Definition ingest (io_artifact io_record : Io) (operation : string) (body : list Z) (s : Store)
    : result string () * Store :=
  match record s with
  | None => (Err "inbox staging record is empty", s)
  | Some saved =>
      if negb (state saved =? "downloading")%string
      then (Err "automatic download is no longer active", s)
      else match split_char ":" operation with
      | [owner; pos; chunk] =>
          if negb (owner =? identity (instance saved) (account_id saved) (id (metadata saved)))%string
          then (Err "wrong staging operation", s)
          else match parse_u64 pos, parse_u64 chunk with
          | Some pos, Some chunk =>
              match items (metadata saved) !! Z.to_nat pos with
              | None => (Err "wrong staging item", s)
              | Some item =>
                  if (chunk_count item <=? chunk)
                     || negb (zlen body =? expected item chunk (chunk_bytes (metadata saved)))
                  then (Err "inbox ciphertext length changed", s)
                  else
                    let '(r, s) :=
                      store_artifact io_artifact (artifact_name (Z.to_nat pos) chunk) body s in
                    match r with
                    | Err e => (Err e, s)
                    | Ok _ => io_write io_record (with_record (reconcile s saved)) s
                    end
              end
          | _, _ => (Err "invalid digit found in string", s)
          end
      | _ => (Err "wrong staging operation", s)
      end
  end.

(** ** Fetching *)

(** What one turn of [fetch] meets: the cancellation flag before the request
    and after the body, the memory permit, the free space, the response. *)
Record Turn := {
  cancelled : bool;
  granted : bool;
  space : option Z;
  response : BackgroundWork → result string (Z * list Z);
  cancelled_after : bool;
  io_pending : Io;
  io_artifact : Io;
  io_record : Io }.

Definition is_success (status : Z) : bool := (200 <=? status) && (status <? 300).

(** One turn: [None] when nothing is left to fetch. *)
Definition fetch_turn (cookie : string) (t : Turn) (s : Store)
    : result string bool * Store :=
  let '(work, s) := pending (io_pending t) cookie 1 s in
  match work with
  | Err e => (Err e, s)
  | Ok [] => (Ok false, s)
  | Ok (w :: _) =>
      if cancelled t then (Err "Transfer cancelled", s)
      else if negb (granted t) then (Err "transfer memory budget is exhausted", s)
      else match space t with
      | None => (Err "input/output error", s)
      | Some free =>
          if free <? saturating_add (expected_response_bytes w) (32 * 1024 * 1024)
          then (Err "automatic receiving paused: insufficient free space", s)
          else match response t w with
          | Err e => (Err e, s)
          | Ok (status, body) =>
              if negb (is_success status) then (Err "automatic inbox download returned", s)
              else
                let body := take (Z.to_nat (expected_response_bytes w + 1)) body in
                if cancelled_after t then (Err "Transfer cancelled", s)
                else
                  let '(r, s) := ingest (io_artifact t) (io_record t) (operation_id w) body s in
                  (_ ← r; Ok true, s)
          end
      end
  end.

(** The loop; [None] when the turns given do not reach its end. *)
Fixpoint fetch (cookie : string) (turns : list Turn) (s : Store) : option (result string ()) * Store :=
  match turns with
  | [] => (None, s)
  | t :: turns =>
      let '(r, s) := fetch_turn cookie t s in
      match r with
      | Err e => (Some (Err e), s)
      | Ok false => (Some (Ok ()), s)
      | Ok true => fetch cookie turns s
      end
  end.

End staging.

(** ** Lemmas *)

Section laws.
Context `{CodecLaws}.

(** The chunks of a delivery, in order. *)
Definition all_chunks (r : Staging) : list (nat * Item * Z) := positions (at_chunk 0 0 r).

Definition chunk_of (c : nat * Item * Z) : string := artifact_name c.1.1 c.2.
Definition size_of (r : Staging) (c : nat * Item * Z) : Z :=
  expected c.1.2 c.2 (chunk_bytes (metadata r)).
Definition stored (s : Store) (r : Staging) (c : nat * Item * Z) : Prop :=
  is_file_of s (chunk_of c) (size_of r c) = true.

Lemma drop_enumerate {A} (l : list A) n :
  drop n (enumerate l) = match l !! n with Some x => (n, x) :: drop (S n) (enumerate l) | None => [] end.
Proof.
  destruct (l !! n) as [x|] eqn:Hx.
  - apply drop_S. unfold enumerate. apply lookup_zip_Some. split; [|done].
    apply lookup_seq. split; [done|]. by eapply lookup_lt_Some.
  - apply drop_ge. unfold enumerate. rewrite length_zip_with, length_seq.
    apply lookup_ge_None in Hx. lia.
Qed.

Lemma elem_of_drop_enumerate {A} (l : list A) n p x :
  (p, x) ∈ drop n (enumerate l) → (n ≤ p)%nat ∧ l !! p = Some x.
Proof.
  intros [i Hi]%list_elem_of_lookup. rewrite lookup_drop in Hi. unfold enumerate in Hi.
  apply lookup_zip_Some in Hi as [Hi Hx]. apply lookup_seq in Hi as [-> ?].
  simpl in Hx. split; [lia|done].
Qed.

Lemma list_bind_ext_elem {A B} (f g : A → list B) l :
  (∀ x, x ∈ l → f x = g x) → l ≫= f = l ≫= g.
Proof. induction l as [|x l IH]; intros Hf; [done|]. cbn [mbind list_bind]. f_equal; set_solver. Qed.

(** The positions from a later item on. *)
Definition from_item (r : Staging) (n : nat) : list (nat * Item * Z) :=
  '(pos, item) ← drop n (enumerate (items (metadata r)));
  k ← seqZ 0 (chunk_count item);
  [(pos, item, k)].

Lemma positions_cases r :
  positions r = match items (metadata r) !! next_item r with
                | Some item =>
                    (k ← seqZ (next_chunk r) (chunk_count item - next_chunk r);
                     [(next_item r, item, k)]) ++ from_item r (S (next_item r))
                | None => []
                end.
Proof.
  unfold positions. rewrite drop_enumerate. destruct (_ !! next_item r) as [item|]; [|done].
  cbn [mbind list_bind]. rewrite decide_True by done. f_equal.
  apply list_bind_ext_elem. intros [pos i] [Hp _]%elem_of_drop_enumerate.
  rewrite decide_False by lia. by rewrite Z.sub_0_r.
Qed.

Lemma from_item_positions r n : from_item r n = positions (at_chunk n 0 r).
Proof.
  rewrite positions_cases. simpl. unfold from_item. rewrite drop_enumerate.
  destruct (_ !! n) as [item|]; [|done]. cbn [mbind list_bind]. by rewrite Z.sub_0_r.
Qed.

Lemma positions_skip r item :
  items (metadata r) !! next_item r = Some item → chunk_count item ≤ next_chunk r →
  positions r = positions (at_chunk (S (next_item r)) 0 r).
Proof.
  intros Hi Hk. rewrite positions_cases, Hi, <- from_item_positions.
  by rewrite seqZ_nil by lia.
Qed.

Lemma positions_step r item :
  items (metadata r) !! next_item r = Some item → next_chunk r < chunk_count item →
  positions r =
    (next_item r, item, next_chunk r) :: positions (at_chunk (next_item r) (next_chunk r + 1) r).
Proof.
  intros Hi Hk. rewrite !positions_cases. simpl. rewrite Hi.
  rewrite seqZ_cons by lia. cbn [mbind list_bind]. simpl. do 2 f_equal.
  do 2 f_equal; lia.
Qed.

Lemma elem_of_all_chunks r c :
  c ∈ all_chunks r ↔
  items (metadata r) !! c.1.1 = Some c.1.2 ∧ 0 ≤ c.2 < chunk_count c.1.2.
Proof.
  unfold all_chunks. rewrite <- from_item_positions. unfold from_item.
  destruct c as [[n item] k]. simpl. rewrite list_elem_of_bind. split.
  - intros ([pos i] & Hk & [_ Hi]%elem_of_drop_enumerate).
    apply list_elem_of_bind in Hk as (k' & Hc & Hk). apply list_elem_of_singleton in Hc.
    apply elem_of_seqZ in Hk. simplify_eq. split; [done|lia].
  - intros [Hi Hk]. exists (n, item). split.
    + apply list_elem_of_bind. exists k. split; [by apply list_elem_of_singleton|].
      apply elem_of_seqZ. lia.
    + simpl. rewrite drop_0. apply list_elem_of_lookup. exists n. unfold enumerate.
      apply lookup_zip_Some. split; [|done]. apply lookup_seq. split; [done|].
      by eapply lookup_lt_Some.
Qed.

(** [advance] with enough fuel walks over stored chunks to the first missing
    one, or to the end. *)
Definition stopped (s : Store) (r : Staging) : Prop :=
  match positions r with
  | [] => next_item r = length (items (metadata r))
  | c :: _ => ¬ stored s r c ∧ c.1.1 = next_item r ∧ c.2 = next_chunk r
  end.

Definition same_delivery (r r' : Staging) : Prop :=
  metadata r' = metadata r ∧ state r' = state r ∧ version r' = version r ∧
  instance r' = instance r ∧ account_id r' = account_id r.

Lemma advance_spec fuel s r :
  (next_item r ≤ length (items (metadata r)))%nat → (turns_left r ≤ fuel)%nat →
  ∃ pre, positions r = pre ++ positions (advance fuel s r) ∧ Forall (stored s r) pre ∧
    stopped s (advance fuel s r) ∧ same_delivery r (advance fuel s r) ∧
    (next_item (advance fuel s r) ≤ length (items (metadata r)))%nat.
Proof.
  revert r. induction fuel as [|fuel IH]; intros r Hn Hf; simpl.
  - exists []. split; [done|]. split; [constructor|]. unfold stopped. rewrite positions_cases.
    unfold turns_left in Hf. destruct (_ !! next_item r) as [item|] eqn:Hi.
    + apply drop_S in Hi. rewrite Hi in Hf. simpl in Hf. lia.
    + split; [|done]. apply lookup_ge_None in Hi. lia.
  - destruct (items (metadata r) !! next_item r) as [item|] eqn:Hi.
    2:{ exists []. split; [done|]. split; [constructor|]. unfold stopped. rewrite positions_cases, Hi.
        split; [|done]. apply lookup_ge_None in Hi. lia. }
    pose proof (drop_S _ _ _ Hi) as Hd. pose proof (lookup_lt_Some _ _ _ Hi) as Hlt.
    unfold turns_left in Hf. rewrite Hd in Hf. simpl in Hf.
    destruct (chunk_count item <=? next_chunk r) eqn:Hc; bool_prop.
    + destruct (IH (at_chunk (S (next_item r)) 0 r)) as (pre & Hp & Hs & Hst & Hsame & Hle);
        [simpl; lia| |].
      { unfold turns_left. simpl. destruct (drop (S (next_item r)) _) eqn:Hd'; [lia|].
        simpl in Hf. rewrite Z.sub_0_r. lia. }
      exists pre. rewrite (positions_skip r item) by done. done.
    + destruct (is_file_of _ _ _) eqn:Hfile; simpl.
      * destruct (IH (at_chunk (next_item r) (next_chunk r + 1) r))
          as (pre & Hp & Hs & Hst & Hsame & Hle); [simpl; lia| |].
        { unfold turns_left. simpl. rewrite Hd. lia. }
        exists ((next_item r, item, next_chunk r) :: pre).
        rewrite (positions_step r item) by done. split; [by rewrite Hp|].
        split; [by constructor|done].
      * exists []. split; [done|]. split; [constructor|]. unfold stopped.
        rewrite (positions_step r item) by done. split; [|done]. simpl. split; [|done].
        unfold stored, chunk_of, size_of. simpl. by rewrite Hfile.
Qed.

(** [reconcile] locks the record exactly when no chunk is missing from where it
    stood. *)
Lemma reconcile_spec s r :
  (next_item r ≤ length (items (metadata r)))%nat →
  let r' := reconcile s r in
  ∃ pre, positions r = pre ++ positions r' ∧ Forall (stored s r) pre ∧ stopped s r' ∧
    metadata r' = metadata r ∧ version r' = version r ∧ instance r' = instance r ∧
    account_id r' = account_id r ∧ (next_item r' ≤ length (items (metadata r)))%nat ∧
    (state r' = "staged-locked" ∧ positions r' = [] ∨ state r' = state r ∧ positions r' ≠ []).
Proof.
  intros Hn. destruct (advance_spec (turns_left r) s r Hn (le_n _))
    as (pre & Hp & Hs & Hst & (E1 & E2 & E3 & E4 & E5) & Hle).
  unfold reconcile. cbv zeta. set (a := advance (turns_left r) s r) in *.
  exists pre. destruct (bool_decide _) eqn:Hb; bool_prop.
  - repeat (split; [done|]). left. split; [done|]. rewrite positions_cases. simpl.
    by rewrite (proj2 (lookup_ge_None _ _)) by lia.
  - repeat (split; [done|]). right. split; [done|]. intros Hnil. unfold stopped in Hst.
    rewrite Hnil in Hst. done.
Qed.

(** *** Valid metadata *)

Definition plain_bytes (item : Item) : Z := item_ciphertext_bytes item - chunk_count item * 16.

Definition geometry (cb : Z) (entry : nat * Item) : Prop :=
  position entry.2 = Z.of_nat entry.1 ∧ 0 ≤ plain_bytes entry.2 ∧
  chunk_count entry.2 = Z.max (div_ceil (plain_bytes entry.2) cb) 1 ∧
  chunk_count entry.2 ≤ u32_max.

Lemma validate_item_Ok cb total entry total' :
  validate_item cb total entry = Ok total' →
  geometry cb entry ∧ total' = total + item_ciphertext_bytes entry.2.
Proof.
  destruct entry as [pos item]. unfold validate_item, geometry, plain_bytes. intros Hv.
  destruct (validate_id (item_id item)) as [[]|]; [|discriminate Hv].
  cbn [mbind result_bind] in Hv.
  destruct (checked_mul (chunk_count item) 16) as [tags|] eqn:Em; [|discriminate Hv].
  apply checked_mul_Some in Em as [-> _]. cbn [ok_or mbind result_bind] in Hv.
  unfold checked_sub in Hv. destruct (_ <=? item_ciphertext_bytes item) eqn:Es; [|discriminate Hv].
  cbn [ok_or mbind result_bind] in Hv. guards Hv.
  destruct (checked_add total _) as [t|] eqn:Ea; [|discriminate Hv].
  apply checked_add_Some in Ea as [-> _]. injection Hv as <-. bool_prop. simpl. lia.
Qed.

Lemma validate_Ok m a :
  validate m a = Ok () →
  1 ≤ chunk_bytes m ≤ 24999984 ∧ (length (items m) ≤ 1000)%nat ∧
  Forall (geometry (chunk_bytes m)) (enumerate (items m)) ∧
  ciphertext_bytes m = sum_Z ((λ e, item_ciphertext_bytes e.2) <$> enumerate (items m)).
Proof.
  unfold validate. intros Hv. guards Hv. destruct (validate_id (id m)) as [[]|]; [|discriminate Hv].
  cbn [mbind result_bind] in Hv.
  destruct (try_fold _ 0 _) as [total|] eqn:Hf; [|discriminate Hv]. cbn [mbind result_bind] in Hv.
  guards Hv. bool_prop. split; [lia|]. split; [unfold zlen in *; lia|].
  apply (try_fold_ind (λ l t, Forall (geometry (chunk_bytes m)) l ∧
           t = sum_Z ((λ e, item_ciphertext_bytes e.2) <$> l))) in Hf as [Hg Ht].
  - split; [done|lia].
  - split; [constructor|done].
  - intros l e b1 b2 _ [Hg ->] [He ->]%validate_item_Ok. split.
    + apply Forall_app. split; [done|by constructor].
    + rewrite fmap_app, sum_Z_app. simpl. lia.
Qed.

Lemma geometry_lookup m a n item :
  validate m a = Ok () → items m !! n = Some item → geometry (chunk_bytes m) (n, item).
Proof.
  intros (_ & _ & Hg & _)%validate_Ok Hi. eapply Forall_forall; [exact Hg|].
  apply (list_elem_of_lookup_2 _ n). unfold enumerate. apply lookup_zip_Some. split; [|done].
  apply lookup_seq. split; [done|]. by eapply lookup_lt_Some.
Qed.

(** A chunk of a valid item is never empty and fits the artifact bound, and the
    offsets [expected] multiplies out stay within 64 bits. *)
Lemma expected_bounds cb pos item k :
  1 ≤ cb ≤ 24999984 → is_u64 (item_ciphertext_bytes item) → geometry cb (pos, item) →
  0 ≤ k < chunk_count item →
  16 ≤ expected item k cb ≤ Checkpoint.MAX_IMMUTABLE_BYTES ∧ k * cb ≤ u64_max.
Proof.
  unfold geometry, is_u64. simpl. intros Hcb Hu (_ & Hp & Hc & Hmax) Hk.
  unfold expected, plain_bytes, saturating_sub, Checkpoint.MAX_IMMUTABLE_BYTES in *.
  split; [lia|]. destruct (Z.eq_dec k 0) as [->|Hk0]; [unfold u64_max; lia|].
  pose proof (div_ceil_lower (item_ciphertext_bytes item - chunk_count item * 16) cb ltac:(lia)).
  nia.
Qed.

Lemma expected_sum cb pos item :
  1 ≤ cb → geometry cb (pos, item) →
  sum_Z ((λ k, expected item k cb) <$> seqZ 0 (chunk_count item)) = item_ciphertext_bytes item.
Proof.
  unfold geometry. simpl. intros Hcb (_ & Hp & Hc & _).
  destruct (Z.eq_dec (plain_bytes item) 0) as [Hz|Hz].
  - rewrite Hz, div_ceil_0 in Hc by lia. rewrite Hc. unfold plain_bytes in Hz. rewrite Hc in Hz.
    change (seqZ 0 (Z.max 0 1)) with [0]. simpl. unfold expected, saturating_sub. rewrite Hc. lia.
  - pose proof (div_ceil_pos (plain_bytes item) cb ltac:(lia) ltac:(lia)).
    pose proof (div_ceil_lower (plain_bytes item) cb ltac:(lia)).
    rewrite Z.max_l in Hc by lia.
    assert (Hext : (λ k, expected item k cb) <$> seqZ 0 (chunk_count item)
      = (λ k, chunk_len (plain_bytes item) cb k + 16) <$> seqZ 0 (chunk_count item)).
    { apply list_fmap_ext. intros i k [-> Hi]%lookup_seqZ.
      unfold expected, chunk_len, saturating_sub. fold (plain_bytes item). nia. }
    rewrite Hext, (sum_Z_shift _ (chunk_len (plain_bytes item) cb)), length_seqZ.
    rewrite Z2Nat.id by lia. rewrite Hc at 1. rewrite chunk_lens_sum by lia.
    unfold plain_bytes. lia.
Qed.

Lemma sum_all_chunks r a :
  validate (metadata r) a = Ok () →
  sum_Z (size_of r <$> all_chunks r) = ciphertext_bytes (metadata r).
Proof.
  intros (Hcb & _ & Hg & ->)%validate_Ok. unfold all_chunks. rewrite <- from_item_positions.
  unfold from_item. rewrite drop_0. unfold size_of.
  induction Hg as [|[pos item] l Hg _ IH]; [done|]. cbn [mbind list_bind].
  rewrite fmap_app, sum_Z_app, IH. cbn [fmap list_fmap sum_Z foldr]. f_equal.
  trans (item_ciphertext_bytes item); [|done].
  rewrite <- (expected_sum (chunk_bytes (metadata r)) _ _ ltac:(lia) Hg). f_equal. simpl.
  generalize (seqZ 0 (chunk_count item)). intros ks. induction ks as [|k ks IHk]; [done|].
  cbn [mbind list_bind app fmap list_fmap]. f_equal. exact IHk.
Qed.

(** *** The staging invariant *)

Record ok (s : Store) (r : Staging) : Prop := {
  ok_valid : validate (metadata r) (account_id r) = Ok ();
  ok_item : (next_item r ≤ length (items (metadata r)))%nat;
  ok_stored : ∃ pre, all_chunks r = pre ++ positions r ∧ Forall (stored s r) pre;
  ok_state : state r = "downloading" ∨ state r = "staged-locked" ∧ positions r = [] }.

Definition ok_store (s : Store) : Prop := ∀ r, record s = Some r → ok s r.

(** Artifacts are only ever added. *)
Definition grows (s s' : Store) : Prop :=
  folder s' = folder s ∧ ∀ name n, nodes s !! name = Some n → nodes s' !! name = Some n.

Lemma grows_refl s : grows s s.
Proof. done. Qed.
Lemma grows_trans s1 s2 s3 : grows s1 s2 → grows s2 s3 → grows s1 s3.
Proof. intros [E1 H1] [E2 H2]. split; [congruence|auto]. Qed.

Lemma stored_grows s s' r c : grows s s' → stored s r c → stored s' r c.
Proof.
  unfold stored, is_file_of. intros [_ Hg]. destruct (nodes s !! _) eqn:Hn; [|done].
  by rewrite (Hg _ _ Hn).
Qed.

Lemma ok_grows s s' r : grows s s' → ok s r → ok s' r.
Proof.
  intros Hg [Hv Hi (pre & Hp & Hf) Hs]. split; try done. exists pre. split; [done|].
  eapply Forall_impl; [exact Hf|]. intros c. by apply stored_grows.
Qed.

Lemma stored_same s r r' c : metadata r' = metadata r → stored s r' c ↔ stored s r c.
Proof. intros E. unfold stored, size_of. by rewrite E. Qed.

Lemma all_chunks_same r r' : metadata r' = metadata r → all_chunks r' = all_chunks r.
Proof. intros E. unfold all_chunks, positions. simpl. by rewrite E. Qed.

Lemma ok_reconcile s r : ok s r → ok s (reconcile s r).
Proof.
  intros [Hv Hi (pre & Hp & Hf) Hs].
  destruct (reconcile_spec s r Hi)
    as (pre' & Hp' & Hf' & _ & Em & Ev & Ei & Ea & Hle & Hst).
  split; rewrite ?Em, ?Ea; try done.
  - exists (pre ++ pre'). rewrite (all_chunks_same r) by done. split.
    + by rewrite <- (assoc_L (++)), <- Hp'.
    + apply Forall_app. split; (eapply Forall_impl; [eassumption|]); intros c; by apply stored_same.
  - destruct Hst as [?|[-> Hne]]; [by right|]. destruct Hs as [?|[? Hnil]]; [by left|].
    rewrite Hnil in Hp'. symmetry in Hp'. by apply app_nil in Hp' as [_ ?].
Qed.

Lemma ok_store_grows s s' : grows s s' → record s' = record s → ok_store s → ok_store s'.
Proof. intros Hg E Hs r Hr. rewrite E in Hr. by eapply ok_grows, Hs. Qed.

(** A write of the record leaves the old record or the new one. *)
Lemma io_record_step io r s :
  ok_store s → ok s r → let s' := (io_write io (with_record r) s).2 in
  ok_store s' ∧ grows s s'.
Proof.
  intros Hs Hr. destruct io; simpl; (split; [|done]); try done; intros r' [= <-];
    by apply (ok_grows s).
Qed.

Lemma persist_step io name c s :
  ok_store s → let s' := (persist_immutable io name c s).2 in
  ok_store s' ∧ grows s s' ∧ record s' = record s.
Proof.
  intros Hs. unfold persist_immutable. case_match; [done|]. case_bool_decide as Hn; [done|].
  assert (Hg : grows s (with_node name (Regular c) s)).
  { split; [done|]. intros name' n Hn'. simpl. rewrite lookup_insert_ne; [done|]. congruence. }
  destruct io; simpl; [split; [by eapply ok_store_grows|done]|done|
                       split; [by eapply ok_store_grows|done]].
Qed.

Lemma store_artifact_step io name c s :
  ok_store s → let s' := (store_artifact io name c s).2 in
  ok_store s' ∧ grows s s' ∧ record s' = record s.
Proof. intros Hs. unfold store_artifact. case_match; [done|]. by apply persist_step. Qed.

Inductive Op :=
| OpPrepare (io : Io) (inst : string) (account : Z) (m : Metadata)
| OpPending (io : Io) (cookie : string) (limit : Z)
| OpIngest (io_artifact io_record : Io) (operation : string) (body : list Z).

Definition apply (s : Store) (op : Op) : Store :=
  match op with
  | OpPrepare io inst account m => (prepare io inst account m s).2
  | OpPending io cookie limit => (pending io cookie limit s).2
  | OpIngest io_a io_r operation body => (ingest io_a io_r operation body s).2
  end.

Lemma prepare_step io inst account m s :
  ok_store s → let s' := (prepare io inst account m s).2 in ok_store s' ∧ grows s s'.
Proof.
  intros Hs. unfold prepare. destruct (validate m account) as [[]|] eqn:Hv; [|done].
  case_match; [done|]. destruct (record s); [case_match; done|].
  set (r := Build_Staging _ _ _ _ _ _ _).
  assert (Hr : ok s r).
  { split; simpl; [done|lia|exists []; split; [done|constructor]|by left]. }
  pose proof (io_record_step io r s Hs Hr) as Hio.
  destruct (io_write io (with_record r) s) as [w s'] eqn:E. done.
Qed.

Lemma pending_step io cookie limit s :
  ok_store s → let s' := (pending io cookie limit s).2 in ok_store s' ∧ grows s s'.
Proof.
  intros Hs. unfold pending. case_match; [done|].
  destruct (record s) as [saved|] eqn:Hr; [|done].
  destruct (validate _ _) as [[]|]; [|done]. case_match; [done|].
  pose proof (io_record_step io (reconcile s saved) s Hs (ok_reconcile _ _ (Hs _ Hr))) as Hio.
  destruct (io_write io _ s) as [w s'] eqn:E. done.
Qed.

Lemma ingest_step io_a io_r operation body s :
  ok_store s → let s' := (ingest io_a io_r operation body s).2 in ok_store s' ∧ grows s s'.
Proof.
  intros Hs. unfold ingest. destruct (record s) as [saved|] eqn:Hr; [|done].
  case_match; [done|]. destruct (split_char ":" operation) as [|? [|? [|? [|]]]]; try done.
  case_match; [done|]. destruct (parse_u64 _) as [pos|]; [|done].
  destruct (parse_u64 _) as [chunk|]; [|done].
  destruct (items _ !! _) as [item|]; [|done]. case_match; [done|].
  pose proof (store_artifact_step io_a (artifact_name (Z.to_nat pos) chunk) body s Hs) as Hp.
  destruct (store_artifact _ _ _ _) as [[[]|e] s4]; destruct Hp as (Hs4 & Hg1 & E1); [|done].
  destruct (io_record_step io_r (reconcile s4 saved) s4 Hs4) as [Hs2 Hg2].
  { apply ok_reconcile, Hs4. simpl in *. congruence. }
  split; [done|by eapply grows_trans].
Qed.

Lemma apply_step op s : ok_store s → ok_store (apply s op) ∧ grows s (apply s op).
Proof. destruct op; [apply prepare_step|apply pending_step|apply ingest_step]. Qed.

Lemma apply_all ops s : ok_store s → ok_store (foldl apply s ops) ∧ grows s (foldl apply s ops).
Proof.
  revert s. induction ops as [|op ops IH]; intros s Hs; [done|]. simpl.
  destruct (apply_step op s Hs) as [H1 H2], (IH _ H1) as [H3 H4].
  split; [done|by eapply grows_trans].
Qed.

(** A finished delivery is whole. *)
Lemma locked_complete s r :
  ok s r → state r = "staged-locked" →
  (∀ n item k, items (metadata r) !! n = Some item → 0 ≤ k < chunk_count item →
     is_file_of s (artifact_name n k) (expected item k (chunk_bytes (metadata r))) = true) ∧
  sum_Z (size_of r <$> all_chunks r) = ciphertext_bytes (metadata r).
Proof.
  intros [Hv Hi (pre & Hp & Hf) Hst] H3. split; [|by eapply sum_all_chunks].
  intros n item k Hn Hk. destruct Hst as [Hd|[_ Hnil]]; [by rewrite H3 in Hd|].
  rewrite Hnil, app_nil_r in Hp. subst pre.
  apply (proj1 (Forall_forall _ _) Hf (n, item, k)). by apply elem_of_all_chunks.
Qed.

(** Whatever sequence of [prepare], [pending] and [ingest] ran on a fresh
    inbox checkpoint, with writes failing before or after they took effect: once
    the record says [staged-locked], every chunk of every item of the delivery
    is a regular file of exactly its expected length, each within the artifact
    bound, and together they make up the announced ciphertext. *)
Theorem staged_complete s ops r :
  record s = None → record (foldl apply s ops) = Some r → state r = "staged-locked" →
  let s' := foldl apply s ops in
  (∀ n item k, items (metadata r) !! n = Some item → 0 ≤ k < chunk_count item →
     is_file_of s' (artifact_name n k) (expected item k (chunk_bytes (metadata r))) = true) ∧
  sum_Z (size_of r <$> all_chunks r) = ciphertext_bytes (metadata r).
Proof.
  intros H1 H2 H3 s'. assert (Hs : ok_store s) by (intros r'; rewrite H1; done).
  destruct (apply_all ops s Hs) as [Hok _].
  by apply locked_complete; [apply Hok|].
Qed.

(** *** Fetching from an honest server *)

Definition cookie_ok (cookie : string) : bool :=
  negb (is_empty cookie || contains (String "010"%char "") cookie
        || contains (String "013"%char "") cookie).

(** No artifact of the delivery is anything but a chunk of the right length. *)
Definition clean (s : Store) (r : Staging) : Prop :=
  ∀ c, c ∈ all_chunks r → nodes s !! chunk_of c = None ∨ stored s r c.

(** A server that answers every request with as many bytes as it asks for, on a
    machine where nothing fails. *)
Definition honest (serve : BackgroundWork → list Z) : Turn :=
  {| cancelled := false; granted := true; space := Some u64_max;
     response := λ w, Ok (200, serve w); cancelled_after := false;
     io_pending := Done; io_artifact := Done; io_record := Done |}.

Lemma chunk_u64 r c :
  validate (metadata r) (account_id r) = Ok () → c ∈ all_chunks r →
  is_u64 (Z.of_nat c.1.1) ∧ is_u64 c.2 ∧ c.1.1 = Z.to_nat (Z.of_nat c.1.1).
Proof.
  intros Hv [Hi Hk]%elem_of_all_chunks. destruct (validate_Ok _ _ Hv) as (_ & Hlen & _).
  pose proof (lookup_lt_Some _ _ _ Hi). destruct (geometry_lookup _ _ _ _ Hv Hi) as (_ & _ & _ & Hmax).
  simpl in Hmax. unfold is_u64, u64_max, u32_max in *. lia.
Qed.

Lemma chunk_of_inj r c c' :
  validate (metadata r) (account_id r) = Ok () → c ∈ all_chunks r → c' ∈ all_chunks r →
  chunk_of c = chunk_of c' → c = c'.
Proof.
  intros Hv Hc Hc' E. destruct (chunk_u64 r c Hv Hc) as (U1 & U2 & _).
  destruct (chunk_u64 r c' Hv Hc') as (U3 & U4 & _).
  apply (append_inj_r "inbox-cipher-") in E. apply decimal_pair_inj in E as [E1 E2]; try done.
  apply Nat2Z.inj in E1. apply elem_of_all_chunks in Hc as [Hi _], Hc' as [Hi' _].
  destruct c as [[n i] k], c' as [[n' i'] k']. simpl in *. congruence.
Qed.

Lemma positions_all s r c : ok s r → c ∈ positions r → c ∈ all_chunks r.
Proof. intros [_ _ (pre & -> & _) _] Hc. set_solver. Qed.

Lemma no_colon_identity inst a t : no_char ":" (identity inst a t).
Proof.
  unfold identity. set (l := bytes inst ++ _). pose proof (sha256_digest l) as Hd.
  unfold is_digest in Hd. bool_prop. apply (no_char_bytes _ _ is_ascii_hexdigit); [|done].
  apply Forall_forall. intros b Hb. unfold is_hex in *.
  by apply (proj1 (forallb_forall _ _) ltac:(eassumption)), list_elem_of_In.
Qed.

(** The operation id that [pending] hands out is the one [ingest] reads back. *)
Lemma work_id saved cookie n item k :
  is_u64 (Z.of_nat n) → is_u64 k →
  split_char ":" (operation_id (work_for saved cookie n item k)) =
    [identity (instance saved) (account_id saved) (id (metadata saved));
     decimal (Z.of_nat n); decimal k].
Proof.
  intros Hn Hk. unfold work_for. cbn [operation_id].
  set (i := identity _ _ _).
  change (i +:+ ":" +:+ decimal (Z.of_nat n) +:+ ":" +:+ decimal k)
    with (i +:+ String ":" (decimal (Z.of_nat n) +:+ String ":" (decimal k))).
  rewrite split_char_app by apply no_colon_identity.
  rewrite split_char_app by (by apply decimal_no_char).
  by rewrite split_char_no_char by (by apply decimal_no_char).
Qed.

Section honest_fetch.
Context (cookie : string) (serve : BackgroundWork → list Z).
Context (Hcookie : cookie_ok cookie = true).
Context (Hserve : ∀ w, 0 ≤ expected_response_bytes w → zlen (serve w) = expected_response_bytes w).

(** The state between two turns of [fetch]. *)
Record fetching (s : Store) (r : Staging) : Prop := {
  f_record : record s = Some r;
  f_ok : ok s r;
  f_clean : clean s r }.

Lemma clean_same s r r' : metadata r' = metadata r → clean s r → clean s r'.
Proof.
  intros E Hc c Hin. rewrite (all_chunks_same r) in Hin by done.
  destruct (Hc c Hin) as [|Hst]; [by left|right]. by apply (stored_same s r).
Qed.

Lemma fetching_reconcile s r : fetching s r → fetching (with_record (reconcile s r) s) (reconcile s r).
Proof.
  intros [Hr Hok Hc]. split; [done| |].
  - apply (ok_grows s); [done|]. by apply ok_reconcile.
  - assert (E : metadata (reconcile s r) = metadata r).
    { destruct (reconcile_spec s r (ok_item _ _ Hok)) as (? & ? & ? & ? & ? & ?). done. }
    intros c Hin. destruct (clean_same s r _ E Hc c Hin); [by left|by right].
Qed.

Lemma pending_first s r :
  fetching s r → state r = "downloading" →
  pending Done cookie 1 s =
    (Ok (match positions (reconcile s r) with
         | [] => []
         | (n, item, k) :: _ => [work_for (reconcile s r) cookie n item k]
         end), with_record (reconcile s r) s).
Proof.
  intros Hf Hst. destruct (fetching_reconcile s r Hf) as [_ Hok' Hc'].
  destruct Hf as [Hr Hok Hc]. pose proof (reconcile_spec s r (ok_item _ _ Hok)) as Hspec.
  destruct Hspec as (pre & _ & _ & Hstop & Em & _).
  unfold pending. unfold cookie_ok in Hcookie. apply negb_true_iff in Hcookie.
  rewrite Hcookie, Hr, (ok_valid _ _ Hok), Hst. simpl. f_equal.
  set (r' := reconcile s r) in *. unfold stopped in Hstop.
  destruct (positions r') as [|[[n item] k] l] eqn:Hp; [done|]. simpl.
  destruct Hstop as (Hns & _). f_equal.
  assert (Hnone : nodes s !! artifact_name n k = None).
  { destruct (Hc' (n, item, k)) as [Hn|Hn]; [|done|].
    - apply (positions_all (with_record r' s)); [done|]. rewrite Hp. by left.
    - done. }
  unfold leads_to_file_of. simpl. by rewrite Hnone.
Qed.

Lemma ingest_first s r n item k l body :
  fetching s r → state r = "downloading" → stopped s r → positions r = (n, item, k) :: l →
  zlen body = expected item k (chunk_bytes (metadata r)) →
  is_u64 (item_ciphertext_bytes item) →
  ∃ s' r', ingest Done Done (operation_id (work_for r cookie n item k)) body s = (Ok (), s') ∧
    fetching s' r' ∧ (length (positions r') < length (positions r))%nat ∧
    metadata r' = metadata r.
Proof.
  intros [Hr Hok Hc] Hst Hstop Hp Hlen Hu.
  assert (Hin : (n, item, k) ∈ all_chunks r)
    by (apply (positions_all s); [done|rewrite Hp; by left]).
  pose proof (ok_valid _ _ Hok) as Hv. destruct (chunk_u64 r _ Hv Hin) as (U1 & U2 & _).
  pose proof (proj1 (elem_of_all_chunks r _) Hin) as [Hi Hk]. simpl in *.
  destruct (validate_Ok _ _ Hv) as (Hcb & _).
  pose proof (geometry_lookup _ _ _ _ Hv Hi) as Hg.
  destruct (expected_bounds _ _ _ _ Hcb Hu Hg Hk) as [Hb _].
  unfold stopped in Hstop. rewrite Hp in Hstop. destruct Hstop as (Hns & _).
  assert (Hnone : nodes s !! artifact_name n k = None).
  { destruct (Hc _ Hin) as [Hn|Hn]; [exact Hn|done]. }
  set (s1 := with_node (artifact_name n k) (Regular body) s).
  assert (Hg1 : grows s s1).
  { split; [done|]. intros m x Hm. simpl. rewrite lookup_insert_ne; [done|]. congruence. }
  assert (Hst1 : stored s1 r (n, item, k)).
  { unfold stored, is_file_of, chunk_of, size_of. simpl. rewrite lookup_insert. rewrite decide_True by done.
    by apply Z.eqb_eq. }
  assert (Hf1 : fetching s1 r).
  { split; [done|by apply (ok_grows s)|]. intros c Hcin.
    destruct (decide (chunk_of c = artifact_name n k)) as [E|E].
    - right. by rewrite (chunk_of_inj r c (n, item, k) Hv Hcin Hin E).
    - simpl. rewrite lookup_insert_ne by done. destruct (Hc c Hcin) as [|Hs]; [by left|right].
      by apply (stored_grows s). }
  exists (with_record (reconcile s1 r) s1), (reconcile s1 r). split.
  - unfold ingest. rewrite Hr, Hst, String.eqb_refl. cbn [negb].
    pose proof (work_id r cookie n item k U1 U2) as Hw. simpl in Hw. simpl. rewrite Hw.
    rewrite String.eqb_refl. cbn [negb].
    rewrite !parse_decimal, Nat2Z.id, Hi by done.
    rewrite (proj2 (Z.leb_gt _ _)) by lia. rewrite (proj2 (Z.eqb_eq _ _)) by done. simpl.
    unfold store_artifact, path_exists. rewrite Hnone. unfold persist_immutable.
    rewrite (proj2 (Z.ltb_ge _ _)) by lia. rewrite bool_decide_false by (rewrite Hnone; naive_solver).
    done.
  - split; [by apply fetching_reconcile|].
    destruct (reconcile_spec s1 r (ok_item _ _ Hok)) as (pre & Hpre & Hall & Hstop' & Em & _).
    split; [|done]. rewrite Hpre, length_app. destruct pre as [|c pre]; [|simpl; lia].
    exfalso. simpl in Hpre. unfold stopped in Hstop'. rewrite <- Hpre, Hp in Hstop'.
    destruct Hstop' as [Hno _]. apply Hno. by apply (stored_same s1 r).
Qed.

Lemma fetch_turn_honest s r :
  fetching s r → state r = "downloading" →
  Forall (λ i, is_u64 (item_ciphertext_bytes i)) (items (metadata r)) →
  ∃ s' r', fetching s' r' ∧ metadata r' = metadata r ∧
    (fetch_turn cookie (honest serve) s = (Ok false, s') ∧ state r' = "staged-locked" ∨
     fetch_turn cookie (honest serve) s = (Ok true, s') ∧
       (length (positions r') < length (positions r))%nat).
Proof.
  intros Hf Hst Hu. pose proof (fetching_reconcile s r Hf) as Hf'.
  pose proof (ok_item _ _ (f_ok _ _ Hf)) as Hle.
  destruct (reconcile_spec s r Hle) as (pre & Hp & _ & Hstop & Em & _ & _ & _ & _ & Hend).
  unfold fetch_turn. cbn [io_pending honest]. rewrite (pending_first s r) by done.
  set (r1 := reconcile s r) in *. set (s1 := with_record r1 s) in *.
  destruct (positions r1) as [|[[n item] k] l] eqn:Hp1.
  - exists s1, r1. split; [done|]. split; [done|]. left. split; [done|]. by destruct Hend as [[? _]|[_ ?]].
  - assert (Hst1 : state r1 = "downloading").
    { destruct Hend as [[_ ?]|[-> _]]; done. }
    assert (Hin : (n, item, k) ∈ all_chunks r1)
      by (apply (positions_all s1); [apply Hf'|rewrite Hp1; by left]).
    pose proof (proj1 (elem_of_all_chunks r1 _) Hin) as [Hi Hk]. simpl in Hi, Hk.
    assert (Hui : is_u64 (item_ciphertext_bytes item)).
    { rewrite Em in Hi. by apply (proj1 (Forall_lookup _ _) Hu n). }
    pose proof (ok_valid _ _ (f_ok _ _ Hf')) as Hv. destruct (validate_Ok _ _ Hv) as (Hcb & _).
    destruct (expected_bounds _ _ _ _ Hcb Hui (geometry_lookup _ _ _ _ Hv Hi) Hk) as [Hb _].
    set (w := work_for r1 cookie n item k).
    assert (Hbody : zlen (serve w) = expected item k (chunk_bytes (metadata r1))).
    { apply Hserve. simpl. lia. }
    destruct (ingest_first s1 r1 n item k l (serve w)) as (s' & r' & Hing & Hf2 & Hlt & Em'); try done.
    exists s', r'. split; [done|]. split; [congruence|]. right. split.
    + cbn [cancelled granted space response cancelled_after io_artifact io_record honest negb].
      rewrite (proj2 (Z.ltb_ge _ _)) by (unfold saturating_add; lia).
      change (is_success 200) with true. cbn [negb].
      rewrite take_ge by (unfold zlen in Hbody; simpl; lia).
      fold w in Hing. by rewrite Hing.
    + rewrite Hp, length_app. rewrite Hp1 in Hlt. lia.
Qed.

(** Fetching ends: from any record under way whose artifacts are chunks of
    the right length, a server that answers each request in full brings the
    delivery to [staged-locked], after at most one request for every chunk not
    yet accounted for. *)
Theorem fetch_stages s r n :
  record s = Some r → ok s r → clean s r → state r = "downloading" →
  Forall (λ i, is_u64 (item_ciphertext_bytes i)) (items (metadata r)) →
  (length (positions r) < n)%nat →
  ∃ s' r', fetch cookie (replicate n (honest serve)) s = (Some (Ok ()), s') ∧
    record s' = Some r' ∧ metadata r' = metadata r ∧ state r' = "staged-locked".
Proof.
  intros Hr Hok Hc. assert (Hf : fetching s r) by done. clear Hr Hok Hc.
  revert s r Hf. induction n as [|n IH]; intros s r Hf Hst Hu Hn; [lia|].
  destruct (fetch_turn_honest s r Hf Hst Hu) as (s' & r' & Hf' & Em & [[Ht Hl]|[Ht Hlt]]); simpl;
    rewrite Ht.
  - exists s', r'. split; [done|]. split; [apply Hf'|done].
  - destruct (ok_state _ _ (f_ok _ _ Hf')) as [Hd|[Hl Hnil]].
    + destruct (IH s' r') as (s2 & r2 & H1 & H2 & H3 & H4); [done..|by rewrite Em|lia|].
      exists s2, r2. split; [done|]. split; [done|]. split; [congruence|done].
    + destruct n as [|n]; [destruct (positions r); simpl in *; lia|].
      exists s', r'. simpl. unfold fetch_turn, pending. cbn [io_pending honest].
      pose proof Hcookie as Hck. unfold cookie_ok in Hck. apply negb_true_iff in Hck. rewrite Hck.
      rewrite (f_record _ _ Hf'), (ok_valid _ _ (f_ok _ _ Hf')), Hl. simpl. by rewrite ?(f_record _ _ Hf').
Qed.

End honest_fetch.

End laws.

(** ** Examples *)

Module Example_inbox.
Export Example_codec.

Definition two_chunks : Metadata :=
  {| id := "01ARZ3NDEKTSV4RRFFQ69G5FAV"; driver := "http"; protocol_version := 1; chunk_bytes := 8;
     ciphertext_bytes := 44; expires_at := ""; encrypted_manifest := "";
     recipient_key := {| bundle := {| bundle_id := 42; user_id := 23; public_key := "" |};
                         encrypted_key := "" |};
     items := [{| item_id := "01ARZ3NDEKTSV4RRFFQ69G5FAW"; position := 0; chunk_count := 2;
                  item_ciphertext_bytes := 44 |}] |}.

Definition empty : Store :=
  {| folder := identity "https://files.example" 23 (id two_chunks); record := None; nodes := ∅ |}.

Definition opened : Store := (prepare Done "https://files.example" 23 two_chunks empty).2.

Definition serve (w : BackgroundWork) : list Z :=
  replicate (Z.to_nat (expected_response_bytes w)) 7.

Definition fetched : option (result string ()) * Store :=
  fetch "s=1" (replicate 3 (honest serve)) opened.

Example fetched_both :
  fetched.1 = Some (Ok ()) ∧ (state <$> record fetched.2) = Some "staged-locked" ∧
  (λ n, match n with Regular c => zlen c | _ => 0 end) <$> nodes fetched.2
    = {[artifact_name 0 0 := 24; artifact_name 0 1 := 20]}.
Proof. by vm_compute. Qed.

Definition op (k : string) : string :=
  identity "https://files.example" 23 (id two_chunks) +:+ ":0:" +:+ k.

(** The first write of the second chunk is lost, then repeated. *)
Definition staging : list Op :=
  [OpPrepare FailedAfter "https://files.example" 23 two_chunks; OpPending Done "s=1" 4;
   OpIngest Done Done (op "1") (replicate 24 7); OpIngest FailedBefore Done (op "1") (replicate 20 7);
   OpIngest Done Done (op "1") (replicate 20 7); OpIngest Done Done (op "0") (replicate 24 7)].

Lemma staged_complete_witness :
  is_file_of (foldl apply empty staging) (artifact_name 0 1) 20 = true.
Proof.
  assert (H : ∃ r, record (foldl apply empty staging) = Some r ∧ state r = "staged-locked" ∧
    metadata r = two_chunks) by (eexists; split; [by vm_compute|split; by vm_compute]).
  destruct H as (r & Hr & Hst & Hm).
  destruct (staged_complete empty staging r eq_refl Hr Hst) as [Hall _]. rewrite Hm in Hall.
  apply (Hall 0%nat {| item_id := "01ARZ3NDEKTSV4RRFFQ69G5FAW"; position := 0; chunk_count := 2;
                       item_ciphertext_bytes := 44 |} 1); [done|simpl; lia].
Defined.

Lemma fetch_stages_witness :
  ∃ s' r', fetch "s=1" (replicate 3 (honest serve)) opened = (Some (Ok ()), s') ∧
    record s' = Some r' ∧ metadata r' = two_chunks ∧ state r' = "staged-locked".
Proof.
  refine (fetch_stages "s=1" serve _ _ opened
    {| version := 1; instance := "https://files.example"; account_id := 23;
       metadata := two_chunks; state := "downloading"; next_item := 0; next_chunk := 0 |} 3
    _ _ _ _ _ _).
  - by vm_compute.
  - intros w Hw. unfold serve, zlen. rewrite length_replicate. lia.
  - by vm_compute.
  - split; [by vm_compute|simpl; lia|exists []; split; [done|constructor]|by left].
  - intros c _. left. change (nodes opened) with (∅ : gmap string Node). apply lookup_empty.
  - done.
  - repeat constructor; done.
  - vm_compute. lia.
Defined.

(** An artifact of a wrong length is neither replaced nor accepted: the same
    chunk is requested again, for ever. *)
Definition spoiled : Store := with_node (artifact_name 0 0) (Regular [1; 2; 3]) opened.

Theorem wrong_length_refetched n : (fetch "s=1" (replicate n (honest serve)) spoiled).1 = None.
Proof.
  assert (H : fetch_turn "s=1" (honest serve) spoiled = (Ok true, spoiled)) by (by vm_compute).
  induction n as [|n IH]; [done|]. cbn [replicate fetch]. by rewrite H.
Qed.
End Example_inbox.
