(* ===== verification/Updater.v ===== *)
(** * The updater (crates/client-updater/src/lib.rs)

    Signed catalogs, the choice and download of a release, its staging, and its
    activation over the managed executable.  One installation is a record: the
    saved update state, the staged payloads, the executable and its backup.
    Bundle.v models the unpacking of an application bundle. *)

From Stdlib Require Import Ascii String.
From S2P Require Import Prelude Str Frame Codec Http Monad.
Open Scope Z_scope.

Definition ORIGIN : string := "https://releases.filebeam.io/".
Definition MAX_CATALOG_BYTES : Z := 1024 * 1024.
Definition MAX_ARCHIVE_BYTES : Z := 2 * 1024 * 1024 * 1024.
Definition MAX_UNPACKED_BYTES : Z := 4 * 1024 * 1024 * 1024.
Definition MAX_ARCHIVE_ENTRIES : Z := 20000.
Definition THROTTLE : Z := 2 * 60 * 60.

(** ** Data *)

Inductive Product := Cli | Desktop.

#[export] Instance Product_eq_dec : EqDecision Product.
Proof. solve_decision. Defined.

Definition catalog (p : Product) : string :=
  match p with Cli => "cli" | Desktop => "desktop" end.
Definition binary (p : Product) : string :=
  match p with Cli => "beam" | Desktop => "filebeam" end.

Record Asset := {
  os : string; architecture : string; asset_path : string; asset_sha256 : string; asset_size : Z;
  asset_kind : string }.
Record Release := { release_version : string; withdrawn : bool; assets : list Asset }.
Record Catalog := {
  schema : Z; catalog_generation : Z; published_at : string; expires_at : string;
  catalog_product : string; releases : list Release }.
Record Envelope := { signed : string; signature : string }.

Record Staged := {
  staged_path : string; staged_version : string; staged_product : string; staged_kind : string;
  staged_sha256 : string }.
Record ProductState := {
  last_attempt : option Z; last_success : option Z; generation : Z; staged : option Staged }.
Record State := { cli : ProductState; desktop : ProductState }.

Definition no_state : ProductState :=
  {| last_attempt := None; last_success := None; generation := 0; staged := None |}.
Definition state_default : State := {| cli := no_state; desktop := no_state |}.

Definition entry (s : State) (p : Product) : ProductState :=
  match p with Cli => cli s | Desktop => desktop s end.
(** An assignment through [entry_mut]. *)
Definition edit (p : Product) (f : ProductState → ProductState) (s : State) : State :=
  match p with
  | Cli => {| cli := f (cli s); desktop := desktop s |}
  | Desktop => {| cli := cli s; desktop := f (desktop s) |}
  end.
Definition set_attempt (t : Z) (e : ProductState) : ProductState :=
  {| last_attempt := Some t; last_success := last_success e; generation := generation e;
     staged := staged e |}.
Definition set_success (t : Z) (e : ProductState) : ProductState :=
  {| last_attempt := last_attempt e; last_success := Some t; generation := generation e;
     staged := staged e |}.
Definition set_generation (g : Z) (e : ProductState) : ProductState :=
  {| last_attempt := last_attempt e; last_success := last_success e; generation := g;
     staged := staged e |}.
Definition set_staged (x : option Staged) (e : ProductState) : ProductState :=
  {| last_attempt := last_attempt e; last_success := last_success e; generation := generation e;
     staged := x |}.

(** The compilation target, [cfg!] in the source. *)
Inductive TargetOs := Linux | MacOs | Windows | OtherOs.
#[export] Instance TargetOs_eq_dec : EqDecision TargetOs.
Proof. solve_decision. Defined.
Class Target := { target_os : TargetOs; target_arch : option string }.

Record Url := { scheme : string; host : option string; url_path : string }.

(** One entry of a tar archive, and of a zip archive, as the crates show them. *)
Inductive EntryType := EDirectory | EFile | ESymlink | EOtherType.
#[export] Instance EntryType_eq_dec : EqDecision EntryType.
Proof. solve_decision. Defined.
Record TarEntry := {
  entry_path : string; entry_size : Z; entry_type : EntryType; entry_body : result string (list Z);
  entry_link : option string; entry_mode : Z }.
Record ZipEntry := { zip_is_dir : bool; zip_size : Z; zip_body : result string (list Z) }.

(** The third-party code the updater calls: semver, base64, ed25519, serde, the
    URL and time parsers, and the archive readers. *)
Class Libraries := {
  Version : Type;
  parse_version : string → option Version;
  version_le : Version → Version → bool;
  stable : Version → bool;
  version_string : Version → string;
  b64_decode : string → option (list Z);
  VerifyingKey : Type;
  key_from_bytes : list Z → option VerifyingKey;
  Signature : Type;
  signature_from_slice : list Z → option Signature;
  verify : VerifyingKey → list Z → Signature → bool;
  parse_envelope : list Z → option Envelope;
  parse_catalog : list Z → option Catalog;
  rfc3339 : string → option Z;
  url_join : string → string → option Url;
  tar_gz : list Z → list (result string TarEntry);
  zip_by_name : list Z → string → result string ZipEntry }.

(** ** The catalog *)

Section updater.
Context `{Codec} `{Libraries} `{Target}.

Definition key (encoded : string) : result string VerifyingKey :=
  bytes ← ok_or (b64_decode (trim encoded)) "embedded release public key is not base64";
  reject negb (zlen bytes =? 32) with "embedded release public key must be 32 bytes";
  ok_or (key_from_bytes bytes) "embedded release public key is invalid".

(** Original CLI catalogs left the platform and the archive kind implicit. *)
Definition legacy_asset (a : Asset) : Asset :=
  let o := if is_empty (os a) then "linux" else os a in
  let k := if is_empty (asset_kind a) then if (o =? "windows")%string then "zip-exe" else "tar-gz"
           else asset_kind a in
  {| os := o; architecture := architecture a; asset_path := asset_path a;
     asset_sha256 := asset_sha256 a; asset_size := asset_size a; asset_kind := k |}.

Definition legacy_release (r : Release) : Release :=
  {| release_version := release_version r; withdrawn := withdrawn r;
     assets := legacy_asset <$> assets r |}.

Definition verify_catalog (now : Z) (data : list Z) (k : VerifyingKey) (p : Product)
    : result string Catalog :=
  e ← ok_or (parse_envelope data) "release catalog envelope is invalid";
  payload ← ok_or (b64_decode (signed e)) "release catalog payload is not base64";
  sig ← ok_or (b64_decode (signature e)) "release catalog signature is not base64";
  sig ← ok_or (signature_from_slice sig) "release catalog signature is invalid";
  reject negb (verify k payload sig) with "release catalog signature verification failed";
  c ← ok_or (parse_catalog payload) "signed release catalog payload is invalid";
  expires ← ok_or (rfc3339 (expires_at c)) "signed release catalog expiry is invalid";
  reject negb (schema c =? 1) || (catalog_generation c =? 0) || is_empty (published_at c)
      || (expires <=? now) || negb (catalog_product c =? catalog p)%string
    with "signed release catalog is expired, unsupported, or for another product";
  Ok (match p with
      | Cli =>
          {| schema := schema c; catalog_generation := catalog_generation c;
             published_at := published_at c; expires_at := expires_at c;
             catalog_product := catalog_product c; releases := legacy_release <$> releases c |}
      | Desktop => c
      end).

Definition valid_sha256 (value : string) : bool := is_digest value.

Definition kind_is_supported (a : Asset) (p : Product) : bool :=
  match p, target_os with
  | Desktop, MacOs => (asset_kind a =? "app-tar-gz")%string
  | Desktop, Linux => (asset_kind a =? "tar-gz")%string || (asset_kind a =? "appimage")%string
  | _, Windows => (asset_kind a =? "zip-exe")%string
  | _, _ => (asset_kind a =? "tar-gz")%string
  end.

Definition path_suffix (a : Asset) : string :=
  if (asset_kind a =? "zip-exe")%string then ".zip"
  else if (asset_kind a =? "appimage")%string then ".AppImage" else ".tar.gz".

Definition validate_asset (a : Asset) (p : Product) : result string () :=
  reject negb (kind_is_supported a p) || (asset_size a =? 0) || (MAX_ARCHIVE_BYTES <? asset_size a)
      || negb (valid_sha256 (asset_sha256 a)) || starts_with "/" (asset_path a)
      || existsb (λ x, bool_decide (x ∈ [""; "."; ".."])) (split_char "/" (asset_path a))
      || negb (starts_with "versions/" (asset_path a))
      || negb (ends_with (path_suffix a) (asset_path a))
    with "signed catalog contains an unsafe or wrong-platform payload";
  Ok ().

Definition validate_origin (u : Url) (p : Product) : result string () :=
  reject negb (scheme u =? "https")%string
      || negb (bool_decide (host u = Some "releases.filebeam.io"))
      || negb (starts_with ("/" +:+ catalog p +:+ "/versions/") (url_path u))
    with "signed catalog asset URL is outside the Filebeam release origin";
  Ok ().

(** [os] and [arch], with the default [select_asset] gives them. *)
Definition os_name : string :=
  match target_os with Linux => "linux" | MacOs => "macos" | Windows => "windows" | OtherOs => "" end.
Definition arch_name : string := default "" target_arch.

Definition select_asset (l : list Asset) : option Asset :=
  List.find (λ a, (os a =? os_name)%string && (architecture a =? arch_name)%string) l.

Definition executable_suffix : string := if decide (target_os = Windows) then ".exe" else "".
Definition executable_name (p : Product) : string := binary p +:+ executable_suffix.

(** The releases considered: not withdrawn, of a stable version. *)
Definition candidates (c : Catalog) : list (Version * list Asset) :=
  omap (λ r, if withdrawn r then None
             else v ← parse_version (release_version r);
                  if stable v then Some (v, assets r) else None) (releases c).

(** [Iterator::max_by]: the last of the greatest. *)
Fixpoint max_release (l : list (Version * list Asset)) : option (Version * list Asset) :=
  match l with
  | [] => None
  | x :: l =>
      match max_release l with
      | None => Some x
      | Some y => Some (if version_le (fst x) (fst y) then y else x)
      end
  end.

(** ** Payloads *)

(** A staged payload: an executable file, or an application bundle with the
    executable inside it, if it has one. *)
Inductive Payload := FilePayload (content : list Z) | BundlePayload (executable : option (list Z)).

Definition digest_path (p : Payload) : result string string :=
  match p with
  | FilePayload c => Ok (sha256_hex c)
  | BundlePayload (Some c) => Ok (sha256_hex c)
  | BundlePayload None => Err "application bundle executable is missing"
  end.

(** Comparing paths compares their components. *)
Definition same_path (a b : string) : bool :=
  let norm s := (starts_with "/" s, filter (λ c, c ≠ "" ∧ c ≠ ".") (split_char "/" s)) in
  bool_decide (norm a = norm b).

(** The scan of a tar archive for the one executable.  The sizes are added up
    in 64 bits, which wrap around in a release build. *)
Fixpoint scan_tar (expected : string) (l : list (result string TarEntry)) (count total : Z)
    (found : option (list Z)) : result string (list Z) :=
  match l with
  | [] => ok_or found "release archive does not contain executable"
  | Err e :: l => Err e
  | Ok e :: l =>
      let count := count + 1 in
      let total := (total + entry_size e) mod (u64_max + 1) in
      if (MAX_ARCHIVE_ENTRIES <? count) || (MAX_UNPACKED_BYTES <? total)
      then Err "release archive exceeds unpack limits"
      else if same_path (entry_path e) expected then
        if bool_decide (found ≠ None) || negb (bool_decide (entry_type e = EFile))
           || (entry_size e =? 0)
        then Err "release archive contains an invalid executable"
        else match entry_body e with
             | Err e => Err e
             | Ok v => scan_tar expected l count total (Some v)
             end
      else scan_tar expected l count total found
  end.

Definition extract_binary (data : list Z) (kind : string) (p : Product) : result string (list Z) :=
  let expected := binary p +:+ "/" +:+ executable_name p in
  if (kind =? "appimage")%string then
    reject bool_decide (data = []) with "release payload contains an empty AppImage";
    Ok data
  else if (kind =? "zip-exe")%string then
    e ← zip_by_name data expected;
    reject zip_is_dir e || (zip_size e =? 0) || (MAX_UNPACKED_BYTES <? zip_size e)
      with "release archive contains an invalid executable";
    zip_body e
  else scan_tar expected (tar_gz data) 0 0 None.

(** ** The installation *)

Record World := {
  leased : bool;                            (** another worker holds the lock file *)
  state_file : option (result string State); (** absent, or what reading it gives *)
  cached_generation : option string;        (** cache/catalog-generation *)
  files : gmap string Payload;              (** payloads, by canonical path *)
  executable : option Payload;              (** the managed executable or bundle *)
  backup : option Payload }.

Definition with_state (s : State) (w : World) : World :=
  {| leased := leased w; state_file := Some (Ok s); cached_generation := cached_generation w;
     files := files w; executable := executable w; backup := backup w |}.
Definition with_files (f : gmap string Payload) (w : World) : World :=
  {| leased := leased w; state_file := state_file w; cached_generation := cached_generation w;
     files := f; executable := executable w; backup := backup w |}.
Definition with_executables (e b : option Payload) (w : World) : World :=
  {| leased := leased w; state_file := state_file w; cached_generation := cached_generation w;
     files := files w; executable := e; backup := b |}.

Definition load_state (w : World) : result string State :=
  state ← match state_file w with None => Ok state_default | Some r => r end;
  Ok (match g ← cached_generation w; parse_u64 (trim g) with
      | Some g => edit Cli (λ e, set_generation (Z.max (generation e) g) e) state
      | None => state
      end).

Record Options := {
  product : Product;
  version : string;
  public_key : string }.

(** What surrounds one call: the clock and the time of day, how often
    [enabled] still says yes, whether the running executable is the managed one
    or a worker's copy, the network, macOS's signature check of a bundle, the
    fresh names, the archive reader for bundles, and the fate of writes. *)
Record Env := {
  clock : Z;
  now : Z;
  enabled : nat → bool;
  managed : bool;
  fetch : string → Z → result string (list Z);
  fetch_asset : Url → Z → result string (list Z);
  codesigned : Payload → bool;
  uuid : string;
  bundle : list Z → result string (option (list Z));
  io_attempt : Io;
  io_payload : Io;
  io_state : Io }.

Context (stage_root : string).

(** [stage_payload]: the fresh path below the staging root, and what is put
    there; [bundle] is [extract_bundle] (Bundle.v). *)
Definition stage_payload (env : Env) (data : list Z) (kind : string) (p : Product) (v : Version)
    (w : World) : result string string * World :=
  let target := stage_root +:+ "/" +:+ version_string v +:+ "-" +:+ uuid env
    +:+ (if (kind =? "app-tar-gz")%string then ".app" else executable_suffix) in
  let put x w := with_files (<[target := x]> (files w)) w in
  if (kind =? "app-tar-gz")%string then
    match bundle env data with
    | Err e => (Err e, w)
    | Ok x => let '(r, w) := io_write (io_payload env) (put (BundlePayload x)) w in
              (_ ← r; Ok target, w)
    end
  else match extract_binary data kind p with
  | Err e => (Err e, w)
  | Ok x => let '(r, w) := io_write (io_payload env) (put (FilePayload x)) w in
            (_ ← r; Ok target, w)
  end.

Definition catalog_url (o : Options) : string := ORIGIN +:+ catalog (product o) +:+ "/index.json".

(** The part of [download_and_stage] before anything is written: the catalog,
    the generation test, the choice of a release and its verified archive.
    [None] when the running version is the latest. *)
Definition choose (o : Options) (env : Env) (st : State)
    : result string (Z * option (Version * Asset * list Z)) :=
  k ← key (public_key o);
  data ← fetch env (catalog_url o) MAX_CATALOG_BYTES;
  c ← verify_catalog (now env) data k (product o);
  reject catalog_generation c <? generation (entry st (product o))
    with "release catalog generation rolled back";
  current ← ok_or (parse_version (version o)) "unexpected end of input while parsing";
  best ← ok_or (max_release (candidates c)) "catalog contains no valid stable releases";
  let '(v, l) := best in
  if version_le v current then Ok (catalog_generation c, None) else
  asset ← ok_or (select_asset l)
    "no update asset exists for this operating system and architecture";
  _ ← validate_asset asset (product o);
  reject negb (enabled env 1) with "automatic updates are disabled";
  u ← ok_or (url_join (catalog_url o) (asset_path asset)) "invalid URL";
  _ ← validate_origin u (product o);
  data ← fetch_asset env u (asset_size asset);
  reject negb (enabled env 2) with "automatic updates are disabled";
  reject negb (zlen data =? asset_size asset)
      || negb (sha256_hex data =? to_ascii_lowercase (asset_sha256 asset))%string
    with "release archive checksum or size does not match the signed catalog";
  Ok (catalog_generation c, Some (v, asset, data)).

Definition ensure_managed (env : Env) (w : World) : result string () :=
  reject negb (managed env) || bool_decide (executable w = None)
    with "update requires an installer-managed binary";
  Ok ().

(** The new state is returned with the result: the source's [&mut State]
    matters to its caller only when the call succeeded. *)
Definition download_and_stage (o : Options) (env : Env) (st : State) (w : World)
    : result string State * World :=
  match choose o env st with
  | Err e => (Err e, w)
  | Ok (g, None) => (Ok (edit (product o) (set_generation g) st), w)
  | Ok (g, Some (v, asset, data)) =>
      let '(r, w) := stage_payload env data (asset_kind asset) (product o) v w in
      (path ← r;
       _ ← ensure_managed env w;
       payload ← ok_or (files w !! path) "No such file or directory";
       sha256 ← digest_path payload;
       Ok (edit (product o) (λ e, set_staged
             (Some {| staged_path := path; staged_version := version_string v;
                      staged_product := catalog (product o); staged_kind := asset_kind asset;
                      staged_sha256 := sha256 |}) (set_generation g e)) st), w)
  end.

Definition run (manual : bool) (o : Options) (env : Env) (w : World) : result string () * World :=
  if negb (enabled env 0) then (Err "automatic updates are disabled", w)
  else if leased w then (Err "another Filebeam update worker is running", w)
  else match load_state w with
  | Err e => (Err e, w)
  | Ok st =>
      if negb manual && match last_attempt (entry st (product o)) with
                        | Some t => saturating_sub (clock env) t <? THROTTLE
                        | None => false
                        end
      then (Ok (), w)
      else
        let st := edit (product o) (set_attempt (clock env)) st in
        let '(r, w) := io_write (io_attempt env) (with_state st) w in
        match r with
        | Err e => (Err e, w)
        | Ok _ =>
            let '(r, w) := download_and_stage o env st w in
            match r with
            | Err e => (Err e, w)
            | Ok st => io_write (io_state env) (with_state st) w
            end
        end
  end.

(** ** Activation (not on Windows) *)

Inductive Activation := NoActivation | Reexec | RelaunchGui.

(** Whether each rename of a replacement succeeds: the old executable out of the
    way, the payload in its place, and the old one back. *)
Record Renames := { rename_out : bool; rename_in : bool; rename_back : bool }.

(** [replace_file], and [replace_bundle] for a bundle: the previous backup is
    removed, the executable becomes the backup, the payload moves in. *)
Definition replace (io : Renames) (c : Payload) (path : string) (w : World)
    : result string () * World :=
  if negb (rename_out io) then (Err "input/output error", with_executables (executable w) None w)
  else
    let w := with_executables None (executable w) w in
    if rename_in io
    then (Ok (), with_executables (Some c) (backup w) (with_files (delete path (files w)) w))
    else (Err "input/output error",
          if rename_back io then with_executables (backup w) None w else w).

(** The staged record is dropped unread when updates are off, when it belongs
    to another product, or when it is not newer than the running version. *)
Definition stale (o : Options) (env : Env) (x : Staged) : result string bool :=
  if negb (enabled env 1) || negb (staged_product x =? catalog (product o))%string
     || negb (valid_sha256 (staged_sha256 x)) then Ok true
  else
    v ← ok_or (parse_version (staged_version x)) "invalid version";
    current ← ok_or (parse_version (version o)) "invalid version";
    Ok (version_le v current).

(** The last part of [activate_staged]: the payload is the one recorded. *)
Definition install (o : Options) (env : Env) (io : Renames) (st : State) (x : Staged)
    (payload : Payload) (w : World) : result string Activation * World :=
  match ensure_managed env w with
  | Err e => (Err e, w)
  | Ok _ =>
      let app := (staged_kind x =? "app-tar-gz")%string in
      if app && negb (bool_decide (target_os = MacOs))
      then (Err "macOS application bundle staged on another platform", w)
      else if app && negb (codesigned env payload)
      then (Err "application bundle code signature verification failed", w)
      else
        let '(r, w) := replace io payload (staged_path x) w in
        match r with
        | Err e => (Err e, w)
        | Ok _ =>
            let st := edit (product o) (λ e, set_success (now env) (set_staged None e)) st in
            let '(r, w) := io_write (io_state env) (with_state st) w in
            (_ ← r; Ok (if app then RelaunchGui else Reexec), w)
        end
  end.

Definition activate_staged (o : Options) (env : Env) (io : Renames) (w : World)
    : result string Activation * World :=
  if negb (enabled env 0) then (Ok NoActivation, w)
  else if leased w then (Err "another Filebeam update worker is running", w)
  else match load_state w with
  | Err e => (Err e, w)
  | Ok st =>
      match staged (entry st (product o)) with
      | None => (Ok NoActivation, w)
      | Some x =>
          let clear := with_state (edit (product o) (set_staged None) st) in
          match stale o env x with
          | Err e => (Err e, w)
          | Ok true =>
              let '(r, w) := io_write (io_attempt env) clear w in
              (_ ← r; Ok NoActivation, w)
          | Ok false =>
              match files w !! staged_path x with
              | None => (Err "staged update is missing", w)
              | Some payload =>
                  match (if starts_with (stage_root +:+ "/") (staged_path x)
                         then digest_path payload else Ok "") with
                  | Err e => (Err e, w)
                  | Ok d =>
                      if negb (d =? staged_sha256 x)%string then
                        let '(r, w) := io_write (io_attempt env) clear w in
                        (_ ← r; Err "staged update payload is invalid", w)
                      else install o env io st x payload w
                  end
              end
          end
      end
  end.

(** ** [HttpFetcher::get]

    The response's status and headers, then its body, which may break off. *)
Record Response := { ok_status : bool; content_length : option Z; body : list Z; complete : bool }.

Definition http_get (response : result string Response) (maximum : Z) : result string (list Z) :=
  r ← response;
  reject negb (ok_status r) with "HTTP status error";
  reject match content_length r with Some n => maximum <? n | None => false end
    with "download exceeds its allowed size";
  let data := take (Z.to_nat (maximum + 1)) (body r) in
  reject (zlen data <=? maximum) && negb (complete r) with "error decoding response body";
  reject maximum <? zlen data with "download exceeds its allowed size";
  Ok data.

End updater.

(** semver's order is total. *)
Class VersionLaws `{Libraries} : Prop := {
  version_le_total a b : version_le a b = true ∨ version_le b a = true;
  version_le_trans a b c : version_le a b = true → version_le b c = true → version_le a c = true }.

Section proofs.
Context `{Codec} `{VersionLaws} `{Target}.
Context (stage_root : string).

(** ** The release chosen *)

Lemma max_release_In l x : max_release l = Some x → x ∈ l.
Proof.
  revert x. induction l as [|y l IH]; intros x Hx; [done|]. simpl in Hx.
  destruct (max_release l) as [z|]; [|simplify_eq; by left].
  injection Hx as <-. case_match; [right; by apply IH|by left].
Qed.

Lemma max_release_ge l x :
  max_release l = Some x → ∀ y, y ∈ l → version_le (fst y) (fst x) = true.
Proof.
  assert (Hrefl : ∀ v, version_le v v = true) by (intros v; by destruct (version_le_total v v)).
  revert x. induction l as [|z l IH]; intros x Hx y Hy; [done|]. simpl in Hx.
  destruct (max_release l) as [m|] eqn:Hm.
  - injection Hx as <-. apply elem_of_cons in Hy as [->|Hy].
    + case_match; done.
    + specialize (IH m eq_refl y Hy). case_match eqn:E; [done|].
      destruct (version_le_total (fst z) (fst m)) as [?|Hle]; [congruence|].
      by eapply version_le_trans.
  - simplify_eq. apply elem_of_cons in Hy as [->|Hy]; [done|].
    destruct l as [|w l]; [by apply elem_of_nil in Hy|]. simpl in Hm. by destruct (max_release l).
Qed.

(** A catalog the release key vouches for: it is what bytes with a verifying
    signature decode to, it is for this product and it has not expired; the
    implicit fields of original CLI catalogs are filled in. *)
Definition signed_by (k : VerifyingKey) (p : Product) (time : Z) (c : Catalog) : Prop :=
  ∃ payload sig c0 expires,
    verify k payload sig = true ∧ parse_catalog payload = Some c0 ∧
    rfc3339 (expires_at c0) = Some expires ∧ time < expires ∧
    catalog_product c0 = catalog p ∧ catalog_generation c = catalog_generation c0 ∧
    releases c = match p with Cli => legacy_release <$> releases c0 | Desktop => releases c0 end.

Lemma verify_catalog_Ok time data k p c : verify_catalog time data k p = Ok c → signed_by k p time c.
Proof.
  unfold verify_catalog. intros Hv.
  destruct (parse_envelope data) as [e|] eqn:E1; [|discriminate Hv].
  cbn [ok_or mbind result_bind] in Hv.
  destruct (b64_decode (signed e)) as [payload|] eqn:E2; [|discriminate Hv].
  cbn [ok_or mbind result_bind] in Hv.
  destruct (b64_decode (signature e)) as [raw|] eqn:E3; [|discriminate Hv].
  cbn [ok_or mbind result_bind] in Hv.
  destruct (signature_from_slice raw) as [sig|] eqn:E4; [|discriminate Hv].
  cbn [ok_or mbind result_bind] in Hv. guards Hv.
  destruct (parse_catalog payload) as [c0|] eqn:E5; [|discriminate Hv].
  cbn [ok_or mbind result_bind] in Hv.
  destruct (rfc3339 (expires_at c0)) as [expires|] eqn:E6; [|discriminate Hv].
  cbn [ok_or mbind result_bind] in Hv. guards Hv. bool_prop.
  exists payload, sig, c0, expires. injection Hv as <-.
  split_and!; try done; by destruct p.
Qed.

(** The authenticity of an archive that is about to be unpacked: a release of a
    signed catalog, the newest that is stable and not withdrawn and newer than
    the one running, has an asset for this platform; the archive came from the release
    origin and has the size and the checksum the asset states. *)
Record authentic (o : Options) (env : Env) (st : State) (g : Z) (v : Version) (a : Asset)
    (data : list Z) : Prop := {
  au_release : ∃ k c r, key (public_key o) = Ok k ∧ signed_by k (product o) (now env) c ∧
    g = catalog_generation c ∧ r ∈ releases c ∧ withdrawn r = false ∧
    parse_version (release_version r) = Some v ∧ stable v = true ∧
    a ∈ assets r ∧ os a = os_name ∧ architecture a = arch_name ∧
    ∀ r' v', r' ∈ releases c → withdrawn r' = false → parse_version (release_version r') = Some v' →
      stable v' = true → version_le v' v = true;
  au_generation : generation (entry st (product o)) ≤ g;
  au_newer : ∃ current, parse_version (version o) = Some current ∧ version_le v current = false;
  au_origin : ∃ u, scheme u = "https" ∧ host u = Some "releases.filebeam.io" ∧
    fetch_asset env u (asset_size a) = Ok data;
  au_size : zlen data = asset_size a ∧ asset_size a ≤ MAX_ARCHIVE_BYTES;
  au_digest : sha256_hex data = to_ascii_lowercase (asset_sha256 a) }.

Lemma candidates_In c v l :
  (v, l) ∈ candidates c →
  ∃ r, r ∈ releases c ∧ withdrawn r = false ∧ parse_version (release_version r) = Some v ∧
    stable v = true ∧ assets r = l.
Proof.
  unfold candidates. intros (r & Hr & Hv)%list_elem_of_omap. exists r. split; [done|].
  destruct (withdrawn r); [done|]. destruct (parse_version _) as [v'|]; [|done].
  cbn [mbind option_bind] in Hv. destruct (stable v') eqn:Hs; by simplify_eq.
Qed.

Lemma candidate r v c :
  r ∈ releases c → withdrawn r = false → parse_version (release_version r) = Some v →
  stable v = true → (v, assets r) ∈ candidates c.
Proof.
  intros Hr Hw Hv Hs. unfold candidates. apply list_elem_of_omap. exists r. split; [done|].
  rewrite Hw, Hv. cbn [mbind option_bind]. by rewrite Hs.
Qed.

Lemma select_asset_In l a :
  select_asset l = Some a → a ∈ l ∧ os a = os_name ∧ architecture a = arch_name.
Proof.
  intros [Hin Hb]%List.find_some. bool_prop. split; [by apply list_elem_of_In|done].
Qed.

Lemma choose_Ok o env st g x :
  choose o env st = Ok (g, x) →
  generation (entry st (product o)) ≤ g ∧
  ∀ v a data, x = Some (v, a, data) → authentic o env st g v a data.
Proof.
  unfold choose. intros Hc.
  destruct (key (public_key o)) as [k|] eqn:E1; [|discriminate Hc]. cbn [mbind result_bind] in Hc.
  destruct (fetch env _ _) as [raw|] eqn:E2; [|discriminate Hc]. cbn [mbind result_bind] in Hc.
  destruct (verify_catalog _ raw k _) as [c|] eqn:E3; [|discriminate Hc].
  cbn [mbind result_bind] in Hc. guards Hc.
  destruct (parse_version (version o)) as [current|] eqn:E4; [|discriminate Hc].
  cbn [ok_or mbind result_bind] in Hc.
  destruct (max_release (candidates c)) as [[v l]|] eqn:E5; [|discriminate Hc].
  cbn [ok_or mbind result_bind] in Hc.
  destruct (version_le v current) eqn:E6.
  { injection Hc as <- <-. bool_prop. split; [done|]. intros; discriminate. }
  destruct (select_asset l) as [a|] eqn:E7; [|discriminate Hc]. cbn [ok_or mbind result_bind] in Hc.
  destruct (validate_asset a _) as [[]|] eqn:E8; [|discriminate Hc].
  cbn [mbind result_bind] in Hc. guards Hc.
  destruct (url_join _ _) as [u|] eqn:E9; [|discriminate Hc]. cbn [ok_or mbind result_bind] in Hc.
  destruct (validate_origin u _) as [[]|] eqn:E10; [|discriminate Hc].
  cbn [mbind result_bind] in Hc.
  destruct (fetch_asset env u _) as [data|] eqn:E11; [|discriminate Hc].
  cbn [mbind result_bind] in Hc. guards Hc. injection Hc as <- <-. bool_prop.
  split; [done|]. intros v' a' data' [= <- <- <-]. split; try done.
  - destruct (candidates_In c v l (max_release_In _ _ E5)) as (r & ? & ? & ? & ? & <-).
    destruct (select_asset_In _ _ E7) as (? & ? & ?).
    exists k, c, r. split_and!; try done; [by apply (verify_catalog_Ok _ raw)|].
    intros r' v' Hr' Hw' Hv' Hs'. apply (max_release_ge _ _ E5 (v', assets r')).
    by apply candidate.
  - by exists current.
  - exists u. unfold validate_origin in E10. destruct (_ || _) eqn:Ho; [done|]. by bool_prop.
  - split; [done|]. unfold validate_asset in E8. destruct (_ || _) eqn:Ho; [done|]. by bool_prop.
Qed.

(** ** Staging *)

(** Only payloads are written. *)
Definition same_but_files (w w' : World) : Prop :=
  leased w' = leased w ∧ state_file w' = state_file w ∧
  cached_generation w' = cached_generation w ∧ executable w' = executable w ∧ backup w' = backup w.

Lemma stage_payload_run env data kind p v w r w' :
  stage_payload stage_root env data kind p v w = (r, w') →
  same_but_files w w' ∧ ∀ path, r = Ok path →
    ∃ x, files w' !! path = Some x ∧ starts_with (stage_root +:+ "/") path = true ∧
      (∃ b, kind = "app-tar-gz" ∧ bundle env data = Ok b ∧ x = BundlePayload b ∨
       ∃ c, extract_binary data kind p = Ok c ∧ x = FilePayload c).
Proof.
  unfold stage_payload. set (target := stage_root +:+ _). intros Hs.
  assert (Ht : starts_with (stage_root +:+ "/") target = true).
  { apply starts_with_join. }
  destruct (kind =? "app-tar-gz")%string eqn:Hk.
  - destruct (bundle env data) as [b|e] eqn:Hb; [|by simplify_eq].
    destruct (io_payload env); simpl in Hs; injection Hs as <- <-; (split; [done|]);
      intros path Hp; try discriminate Hp. injection Hp as <-.
    exists (BundlePayload b). simpl. rewrite lookup_insert. rewrite decide_True by done. bool_prop.
    repeat (split; [done|]). exists b. by left.
  - destruct (extract_binary data kind p) as [c|e] eqn:Hb; [|by simplify_eq].
    destruct (io_payload env); simpl in Hs; injection Hs as <- <-; (split; [done|]);
      intros path Hp; try discriminate Hp. injection Hp as <-.
    exists (FilePayload c). simpl. rewrite lookup_insert. rewrite decide_True by done.
    repeat (split; [done|]). exists None. right. by exists c.
Qed.

(** What a record staged by [download_and_stage] says of the files. *)
Definition staged_ok (o : Options) (env : Env) (g : Z) (v : Version) (a : Asset) (data : list Z)
    (x : Staged) (w : World) : Prop :=
  staged_version x = version_string v ∧ staged_product x = catalog (product o) ∧
  staged_kind x = asset_kind a ∧ starts_with (stage_root +:+ "/") (staged_path x) = true ∧
  ∃ payload, files w !! staged_path x = Some payload ∧ digest_path payload = Ok (staged_sha256 x) ∧
    (∃ b, asset_kind a = "app-tar-gz" ∧ bundle env data = Ok b ∧ payload = BundlePayload b ∨
     ∃ c, extract_binary data (asset_kind a) (product o) = Ok c ∧ payload = FilePayload c).

Lemma entry_edit p f s : entry (edit p f s) p = f (entry s p).
Proof. by destruct p. Qed.
Lemma entry_edit_ne p q f s : p ≠ q → entry (edit p f s) q = entry s q.
Proof. by destruct p, q. Qed.

Lemma download_and_stage_run o env st w r w' :
  download_and_stage stage_root o env st w = (r, w') →
  same_but_files w w' ∧ ∀ st', r = Ok st' →
    (∀ q, q ≠ product o → entry st' q = entry st q) ∧
    generation (entry st (product o)) ≤ generation (entry st' (product o)) ∧
    last_attempt (entry st' (product o)) = last_attempt (entry st (product o)) ∧
    (staged (entry st' (product o)) = staged (entry st (product o)) ∨
     ∃ v a data x, staged (entry st' (product o)) = Some x ∧
       authentic o env st (generation (entry st' (product o))) v a data ∧
       staged_ok o env (generation (entry st' (product o))) v a data x w').
Proof.
  unfold download_and_stage. destruct (choose o env st) as [[g [[[v a] data]|]]|e] eqn:Hc;
    [|intros [= <- <-]..].
  2:{ split; [done|]. intros st' [= <-]. rewrite !entry_edit. simpl.
      destruct (choose_Ok _ _ _ _ _ Hc) as [Hg _].
      split; [intros q Hq; by apply entry_edit_ne|]. split; [done|]. split; [done|]. by left. }
  2:{ split; [done|]. intros st' [= ]. }
  destruct (choose_Ok _ _ _ _ _ Hc) as [Hg Hau]. specialize (Hau v a data eq_refl).
  destruct (stage_payload _ _ _ _ _ _ _) as [r1 w1] eqn:Hs. intros [= <- <-].
  destruct (stage_payload_run _ _ _ _ _ _ _ _ Hs) as [Hsame Hfile]. split; [done|].
  intros st' Hr. destruct r1 as [path|]; [|discriminate Hr]. cbn [mbind result_bind] in Hr.
  destruct (Hfile path eq_refl) as (x & Hx & Hpre & Hcon).
  destruct (ensure_managed env w1) as [[]|]; [|discriminate Hr]. cbn [mbind result_bind] in Hr.
  rewrite Hx in Hr. cbn [ok_or mbind result_bind] in Hr.
  destruct (digest_path x) as [d|] eqn:Hd; [|discriminate Hr]. cbn [mbind result_bind] in Hr.
  injection Hr as <-. rewrite !entry_edit. simpl.
  split; [intros q Hq; by apply entry_edit_ne|]. split; [done|]. split; [done|]. right.
  exists v, a, data. eexists. split; [done|]. split; [done|].
  repeat (split; [done|]). exists x. split; [done|]. split; [done|exact Hcon].
Qed.

(** ** One call *)

(** A loaded state: the saved one, its CLI generation raised to the cached. *)
Lemma load_saved w st :
  state_file w = Some (Ok st) →
  ∃ st', load_state w = Ok st' ∧ (∀ q, staged (entry st' q) = staged (entry st q)) ∧
    (∀ q, last_attempt (entry st' q) = last_attempt (entry st q)) ∧
    ∀ q, generation (entry st q) ≤ generation (entry st' q).
Proof.
  intros E. unfold load_state. rewrite E. cbn [mbind result_bind].
  destruct (cached_generation w ≫= _) as [g|]; (eexists; split; [done|]).
  - split_and!; intros [|]; simpl; try done; lia.
  - split_and!; intros q; [done|done|lia].
Qed.

Lemma load_same w w' :
  state_file w' = state_file w → cached_generation w' = cached_generation w →
  load_state w' = load_state w.
Proof. intros E1 E2. unfold load_state. by rewrite E1, E2. Qed.

Definition throttled (o : Options) (env : Env) (st : State) : bool :=
  match last_attempt (entry st (product o)) with
  | Some t => saturating_sub (clock env) t <? THROTTLE
  | None => false
  end.

(** What a run that passed its guards leaves in the state file: the attempt, or
    what it staged. *)
Definition saved_by_run (manual : bool) (o : Options) (env : Env) (w : World) (st : State)
    (w' : World) : Prop :=
  enabled env 0 = true ∧ leased w = false ∧ (manual = true ∨ throttled o env st = false) ∧
  let st1 := edit (product o) (set_attempt (clock env)) st in
  (state_file w' = Some (Ok st1) ∨
   ∃ st2 w2, download_and_stage stage_root o env st1 (with_state st1 w) = (Ok st2, w2) ∧
     state_file w' = Some (Ok st2)).

Definition keeps_install (w w' : World) : Prop :=
  leased w' = leased w ∧ cached_generation w' = cached_generation w ∧
  executable w' = executable w ∧ backup w' = backup w.

Lemma run_run manual o env w r w' :
  run stage_root manual o env w = (r, w') →
  keeps_install w w' ∧
  (w' = w ∨ ∃ st, load_state w = Ok st ∧ saved_by_run manual o env w st w').
Proof.
  unfold run, saved_by_run.
  destruct (negb (enabled env 0)) eqn:He; [intros [= <- <-]; split; [done|by left]|].
  destruct (leased w) eqn:Hl; [intros [= <- <-]; split; [done|by left]|].
  destruct (load_state w) as [st|] eqn:Hst; [|intros [= <- <-]; split; [done|by left]].
  destruct (_ && _) eqn:Ht; [intros [= <- <-]; split; [done|by left]|].
  set (st1 := edit _ _ st). apply negb_false_iff in He.
  assert (Hth : manual = true ∨ throttled o env st = false).
  { apply andb_false_iff in Ht as [Ht|Ht]; [left; by apply negb_false_iff|by right]. }
  destruct (io_attempt env); simpl; [|intros [= <- <-]; split; [done|by left]|].
  2:{ intros [= <- <-]. split; [done|]. right. exists st. split_and!; auto. }
  destruct (download_and_stage _ _ _ _ _) as [r1 w1] eqn:Hd.
  destruct (download_and_stage_run _ _ _ _ _ _ Hd) as [(S1 & S2 & S3 & S4 & S5) _].
  simpl in *. assert (Hkeep : keeps_install w w1) by done.
  destruct r1 as [st2|e].
  - destruct (io_state env); intros [= <- <-]; (split; [done|]); right; exists st;
      (split_and!; [done..|]); simpl; eauto.
  - intros [= <- <-]. split; [done|]. right. exists st. split_and!; auto.
Qed.

(** Automatic checks are at least [THROTTLE] seconds apart, whatever became of
    the last one: a run that got as far as saving its attempt makes every later
    automatic run before that time do nothing. *)
Theorem attempts_throttled manual o env w r w' env' :
  run stage_root manual o env w = (r, w') → w' ≠ w →
  saturating_sub (clock env') (clock env) < THROTTLE → enabled env' 0 = true →
  run stage_root false o env' w' = (Ok (), w').
Proof.
  intros Hr Hne Hclock Hen.
  destruct (run_run _ _ _ _ _ _ Hr) as ((Hl & _) & [?|(st & Hst & _ & Hw & _ & Hs)]); [done|].
  assert (Ha : ∃ st', state_file w' = Some (Ok st') ∧
    last_attempt (entry st' (product o)) = Some (clock env)).
  { destruct Hs as [Hs|(st2 & w2 & Hd & Hs)].
    - eexists. split; [done|]. by rewrite entry_edit.
    - destruct (download_and_stage_run _ _ _ _ _ _ Hd) as [_ Hok].
      destruct (Hok st2 eq_refl) as (_ & _ & Hla & _). exists st2. split; [done|].
      by rewrite Hla, entry_edit. }
  destruct Ha as (st' & Hs' & Hla). destruct (load_saved _ _ Hs') as (st2 & Hl2 & _ & Hla2 & _).
  unfold run. rewrite Hen, Hl, Hw, Hl2. simpl. rewrite Hla2, Hla.
  by rewrite (proj2 (Z.ltb_lt _ _)).
Qed.

(** ** Activation *)

(** A payload [activate_staged] may install: the recorded one, for this product
    and newer than the running version. *)
Definition installable (o : Options) (w : World) (x : Staged) (c : Payload) : Prop :=
  (∃ st, load_state w = Ok st ∧ staged (entry st (product o)) = Some x) ∧
  staged_product x = catalog (product o) ∧ files w !! staged_path x = Some c ∧
  digest_path c = Ok (staged_sha256 x) ∧
  ∃ v current, parse_version (staged_version x) = Some v ∧
    parse_version (version o) = Some current ∧ version_le v current = false.

Lemma stale_false o env x :
  stale o env x = Ok false →
  staged_product x = catalog (product o) ∧ valid_sha256 (staged_sha256 x) = true ∧
  ∃ v current, parse_version (staged_version x) = Some v ∧
    parse_version (version o) = Some current ∧ version_le v current = false.
Proof.
  unfold stale. destruct (_ || _) eqn:Hb; [done|]. bool_prop.
  destruct (parse_version (staged_version x)) as [v|] eqn:E1; [|done].
  cbn [ok_or mbind result_bind].
  destruct (parse_version (version o)) as [current|] eqn:E2; [|done].
  cbn [ok_or mbind result_bind]. intros [= Hle]. split; [done|]. split; [done|]. by exists v, current.
Qed.

(** What an activation leaves. *)
Record activated (o : Options) (io : Renames) (w : World) (r : result string Activation)
    (w' : World) : Prop := {
  ac_cached : cached_generation w' = cached_generation w;
  ac_state : state_file w' = state_file w ∨
    ∃ st st', load_state w = Ok st ∧ state_file w' = Some (Ok st') ∧
      (∀ q, generation (entry st' q) = generation (entry st q)) ∧
      ∀ q, staged (entry st' q) = None ∨ staged (entry st' q) = staged (entry st q);
  ac_done : r = Ok Reexec ∨ r = Ok RelaunchGui →
    ∃ x c, installable o w x c ∧ executable w' = Some c ∧ backup w' = executable w ∧
      ∃ st, state_file w' = Some (Ok st) ∧ staged (entry st (product o)) = None;
  ac_executable : executable w' = executable w ∨
    (∃ x c, installable o w x c ∧ executable w' = Some c) ∨
    executable w' = None ∧ backup w' = executable w ∧ rename_back io = false }.

Lemma activated_same o io w r : (∀ a, r = Ok a → a = NoActivation) → activated o io w r w.
Proof. intros Hr. split; try done; [by left| |by left]. intros [E|E]; by apply Hr in E. Qed.

Lemma activated_clear o io env w st r a :
  load_state w = Ok st → io_write (io_attempt env) (with_state (edit (product o) (set_staged None) st)) w
    = (r, a) → ∀ r', (∀ x, r' = Ok x → x = NoActivation) → activated o io w r' a.
Proof.
  intros Hst Hio r' Hr'. assert (Hs : a = w ∨ a = with_state (edit (product o) (set_staged None) st) w).
  { destruct (io_attempt env); simpl in Hio; injection Hio as <- <-; auto. }
  destruct Hs as [->| ->]; [by apply activated_same|].
  split; simpl; [done| |intros [E|E]; by apply Hr' in E|by left].
  right. eexists _, _. split; [done|]. split; [done|].
  split; intros q; (destruct (decide (product o = q)) as [<-|Hq];
    [rewrite entry_edit; simpl; auto|rewrite entry_edit_ne by done; auto]).
Qed.

Lemma install_run o env io st x c w r w' :
  install o env io st x c w = (r, w') → load_state w = Ok st → installable o w x c →
  activated o io w r w'.
Proof.
  intros Hi Hst Hx. unfold install in Hi.
  destruct (ensure_managed env w) as [[]|]; [|injection Hi as <- <-; by apply activated_same].
  destruct (_ && _); [injection Hi as <- <-; by apply activated_same|].
  destruct (_ && _); [injection Hi as <- <-; by apply activated_same|].
  unfold replace in Hi. destruct (rename_out io); simpl in Hi.
  2:{ injection Hi as <- <-. split; [done|by left|intros [?|?]; done|by left]. }
  destruct (rename_in io); simpl in Hi.
  2:{ injection Hi as <- <-. destruct (rename_back io) eqn:Hb;
        (split; [done|by left|intros [?|?]; done|]); [by left|by right; right]. }
  destruct (io_state env); simpl in Hi; injection Hi as <- <-;
    (split; simpl; [done| | |right; left; by exists x, c]); try (by left);
    try (intros [?|?]; done).
  - right. eexists _, _. split; [done|]. split; [done|].
    split; intros q; (destruct (decide (product o = q)) as [<-|Hq];
      [rewrite entry_edit; simpl; auto|rewrite entry_edit_ne by done; auto]).
  - intros _. exists x, c. split; [done|]. split; [done|]. split; [done|]. eexists. split; [done|].
    by rewrite entry_edit.
  - right. eexists _, _. split; [done|]. split; [done|].
    split; intros q; (destruct (decide (product o = q)) as [<-|Hq];
      [rewrite entry_edit; simpl; auto|rewrite entry_edit_ne by done; auto]).
Qed.

Lemma digest_not_empty x : valid_sha256 x = true → x ≠ "".
Proof. intros Hv ->. done. Qed.

Lemma activate_run o env io w r w' :
  activate_staged stage_root o env io w = (r, w') → activated o io w r w'.
Proof.
  intros Ha. unfold activate_staged in Ha.
  destruct (negb (enabled env 0)); [injection Ha as <- <-; apply activated_same; naive_solver|].
  destruct (leased w); [injection Ha as <- <-; by apply activated_same|].
  destruct (load_state w) as [st|] eqn:Hst; [|injection Ha as <- <-; by apply activated_same].
  destruct (staged (entry st (product o))) as [x|] eqn:Hx;
    [|injection Ha as <- <-; apply activated_same; naive_solver].
  destruct (stale o env x) as [[]|] eqn:Hs; [| |injection Ha as <- <-; by apply activated_same].
  { destruct (io_write _ _ _) as [r1 w1] eqn:Hio. injection Ha as <- <-.
    apply (activated_clear _ _ _ _ _ _ _ Hst Hio). intros a. destruct r1; naive_solver. }
  destruct (stale_false _ _ _ Hs) as (Hp & Hsha & Hver).
  destruct (files w !! staged_path x) as [c|] eqn:Hc; [|injection Ha as <- <-; by apply activated_same].
  destruct (if starts_with _ _ then _ else _) as [d|] eqn:Hd;
    [|injection Ha as <- <-; by apply activated_same].
  destruct (negb _) eqn:Hne.
  { destruct (io_write _ _ _) as [r1 w1] eqn:Hio. injection Ha as <- <-.
    apply (activated_clear _ _ _ _ _ _ _ Hst Hio). intros a. destruct r1; naive_solver. }
  bool_prop. subst d. eapply install_run; [exact Ha|done|].
  split; [by exists st|]. split; [done|]. split; [done|]. split; [|done].
  case_match; [done|]. injection Hd as Hd. by apply digest_not_empty in Hsha.
Qed.

(** ** Histories *)

(** The calls on one product's installation; [Tamper] is anything else that
    happens to the staged files. *)
Inductive Op :=
| Run (manual : bool) (env : Env)
| Activate (env : Env) (io : Renames)
| Tamper (f : gmap string Payload).

Definition step (o : Options) (w : World) (op : Op) : World :=
  match op with
  | Run manual env => (run stage_root manual o env w).2
  | Activate env io => (activate_staged stage_root o env io w).2
  | Tamper f => with_files f w
  end.

Lemma step_cases o w op :
  (∃ manual env r, op = Run manual env ∧ run stage_root manual o env w = (r, step o w op)) ∨
  (∃ env io r, op = Activate env io ∧ activated o io w r (step o w op)) ∨
  (∃ f, op = Tamper f ∧ step o w op = with_files f w).
Proof.
  destruct op as [manual env|env io|f]; simpl; [left|right; left|right; right; by eexists].
  - destruct (run _ _ _ _ _) as [r w'] eqn:E. by exists manual, env, r.
  - destruct (activate_staged _ _ _ _ _) as [r w'] eqn:E. exists env, io, r.
    split; [done|]. by eapply activate_run.
Qed.

Lemma step_cached o w op : cached_generation (step o w op) = cached_generation w.
Proof.
  destruct (step_cases o w op) as [(m & e & r & _ & Hr)|[(e & io & r & _ & Ha)|(f & _ & ->)]]; [| |done].
  - by destruct (run_run _ _ _ _ _ _ Hr) as [(_ & E & _) _].
  - apply Ha.
Qed.

(** A step's effect on a loaded state, product by product. *)
Lemma step_generation o w op st :
  load_state w = Ok st →
  ∃ st', load_state (step o w op) = Ok st' ∧
    ∀ q, generation (entry st q) ≤ generation (entry st' q).
Proof.
  intros Hst. pose proof (step_cached o w op) as Hcached.
  assert (Hsame : state_file (step o w op) = state_file w →
    ∃ st', load_state (step o w op) = Ok st' ∧ ∀ q, generation (entry st q) ≤ generation (entry st' q)).
  { intros E. exists st. rewrite (load_same w) by done. split; [done|]. intros q. lia. }
  assert (Hnew : ∀ s, state_file (step o w op) = Some (Ok s) →
    (∀ q, generation (entry st q) ≤ generation (entry s q)) →
    ∃ st', load_state (step o w op) = Ok st' ∧ ∀ q, generation (entry st q) ≤ generation (entry st' q)).
  { intros s E Hle. destruct (load_saved _ _ E) as (st' & Hl & _ & _ & Hg). exists st'.
    split; [done|]. intros q. specialize (Hle q). specialize (Hg q). lia. }
  destruct (step_cases o w op) as [(m & e & r & _ & Hr)|[(e & io & r & _ & Ha)|(f & _ & E)]].
  - destruct (run_run _ _ _ _ _ _ Hr) as [_ [E|(st0 & Hst0 & _ & _ & _ & Hs)]];
      [apply Hsame; by rewrite E|]. rewrite Hst in Hst0. simplify_eq.
    assert (Hat : ∀ q, generation (entry (edit (product o) (set_attempt (clock e)) st0) q)
                     = generation (entry st0 q)) by (by intros []; destruct (product o)).
    destruct Hs as [Hs|(st2 & w2 & Hd & Hs)].
    + apply (Hnew _ Hs). intros q. rewrite Hat. lia.
    + apply (Hnew _ Hs). intros q.
      destruct (download_and_stage_run _ _ _ _ _ _ Hd) as [_ Hok].
      destruct (Hok st2 eq_refl) as (Hother & Hg & _). rewrite <- Hat.
      destruct (decide (q = product o)) as [->|Hq]; [done|]. rewrite (Hother q Hq). lia.
  - destruct (ac_state _ _ _ _ _ Ha) as [E|(st0 & st' & Hst0 & E & Hg & _)]; [by apply Hsame|].
    rewrite Hst in Hst0. simplify_eq. apply (Hnew _ E). intros q. rewrite Hg. lia.
  - apply Hsame. by rewrite E.
Qed.

(** An accepted catalog generation is never gone back on: over any sequence
    of update runs and activations of any product, with writes failing and
    staged files changing under the updater, the generation the next run will
    compare a catalog with only grows, for both products. *)
Theorem generation_monotone os w st :
  load_state w = Ok st →
  ∃ st', load_state (foldl (λ w '(o, op), step o w op) w os) = Ok st' ∧
    ∀ q, generation (entry st q) ≤ generation (entry st' q).
Proof.
  revert w st. induction os as [|[o op] os IH]; intros w st Hst; simpl.
  - exists st. split; [done|]. intros q. lia.
  - destruct (step_generation o w op st Hst) as (st1 & Hst1 & Hle1).
    destruct (IH _ _ Hst1) as (st2 & Hst2 & Hle2). exists st2. split; [done|].
    intros q. specialize (Hle1 q). specialize (Hle2 q). lia.
Qed.

(** A payload unpacked, in some run of the history that starts from [w0], from
    an archive that a signed and current catalog named, for a version newer than
    the running one; the catalog's generation is not below the one in the state
    which that run loaded. *)
Definition released (o : Options) (w0 : World) (ops : list Op) (sha256 : string) : Prop :=
  ∃ before manual env after st g v a data payload,
    ops = before ++ Run manual env :: after ∧
    load_state (foldl (step o) w0 before) = Ok st ∧ authentic o env st g v a data ∧
    digest_path payload = Ok sha256 ∧
    (∃ b, asset_kind a = "app-tar-gz" ∧ bundle env data = Ok b ∧ payload = BundlePayload b ∨
     ∃ c, extract_binary data (asset_kind a) (product o) = Ok c ∧ payload = FilePayload c).

Lemma released_app o w0 ops op d : released o w0 ops d → released o w0 (ops ++ [op]) d.
Proof.
  intros (before & m & e & after & st & g & v & a & data & p & -> & Hrest).
  exists before, m, e, (after ++ [op]), st, g, v, a, data, p. split; [by rewrite <- app_assoc|done].
Qed.

Lemma authentic_attempt o env st t g v a data :
  authentic o env (edit (product o) (set_attempt t) st) g v a data → authentic o env st g v a data.
Proof. intros [? Hg ? ? ? ?]. split; try done. by rewrite entry_edit in Hg. Qed.

Definition record_released (o : Options) (w0 : World) (ops : list Op) : Prop :=
  ∀ st x, load_state (foldl (step o) w0 ops) = Ok st → staged (entry st (product o)) = Some x →
    released o w0 ops (staged_sha256 x).

Lemma record_released_saved o w0 ops s :
  state_file (foldl (step o) w0 ops) = Some (Ok s) →
  (∀ x, staged (entry s (product o)) = Some x → released o w0 ops (staged_sha256 x)) →
  record_released o w0 ops.
Proof.
  intros E Hs st x Hst Hx. destruct (load_saved _ _ E) as (st' & Hl & Hsame & _).
  rewrite Hst in Hl. simplify_eq. rewrite Hsame in Hx. by apply Hs.
Qed.

Lemma step_record o w0 ops op : record_released o w0 ops → record_released o w0 (ops ++ [op]).
Proof.
  intros Hw. pose proof (step_cached o (foldl (step o) w0 ops) op) as Hcached.
  assert (Hlast : foldl (step o) w0 (ops ++ [op]) = step o (foldl (step o) w0 ops) op)
    by by rewrite foldl_app.
  assert (Hsame : state_file (step o (foldl (step o) w0 ops) op) = state_file (foldl (step o) w0 ops) →
                  record_released o w0 (ops ++ [op])).
  { intros E st x Hst Hx. rewrite Hlast, (load_same (foldl (step o) w0 ops)) in Hst by done.
    by eapply released_app, Hw. }
  destruct (step_cases o (foldl (step o) w0 ops) op)
    as [(m & e & r & -> & Hr)|[(e & io & r & -> & Ha)|(f & -> & E)]].
  - destruct (run_run _ _ _ _ _ _ Hr) as [_ [E|(st0 & Hst0 & _ & _ & _ & Hs)]];
      [apply Hsame; by rewrite E|]. rewrite <- Hlast in Hs.
    assert (Hold : ∀ x, staged (entry (edit (product o) (set_attempt (clock e)) st0) (product o)) = Some x →
      released o w0 (ops ++ [Run m e]) (staged_sha256 x)).
    { intros x. rewrite entry_edit. intros Hx. by eapply released_app, Hw. }
    destruct Hs as [Hs|(st2 & w2 & Hd & Hs)]; [by apply (record_released_saved _ _ _ _ Hs)|].
    apply (record_released_saved _ _ _ _ Hs). intros x Hx.
    destruct (download_and_stage_run _ _ _ _ _ _ Hd) as [_ Hok].
    destruct (Hok st2 eq_refl) as (_ & _ & _ & [E|(v & a & data & x' & Hx' & Hau & Hst)]).
    { apply Hold. by rewrite <- E. }
    rewrite Hx in Hx'. simplify_eq. destruct Hst as (_ & _ & _ & _ & p & _ & Hd' & Hcon).
    exists ops, m, e, [], st0. eexists _, v, a, data, p. split; [done|]. split; [done|].
    split; [eapply authentic_attempt; exact Hau|]. split; [done|exact Hcon].
  - destruct (ac_state _ _ _ _ _ Ha) as [E|(st0 & st' & Hst0 & E & _ & Hst)]; [by apply Hsame|].
    rewrite <- Hlast in E. apply (record_released_saved _ _ _ _ E). intros x Hx.
    destruct (Hst (product o)) as [Hn|Hn]; [congruence|]. rewrite Hn in Hx.
    by eapply released_app, Hw.
  - apply Hsame. by rewrite E.
Qed.

(** C25: only signed releases are installed: starting from an installation with
    no update state, after any sequence of update runs, activations and
    arbitrary changes to the staged files, the managed executable is the
    original one, or absent after failed renames, or one whose digest is that
    of a payload a run unpacked from an archive of the exact size and checksum
    that a catalog signed by the release key, unexpired, for this product and of
    a generation not below the one that run loaded (the recorded one, or the
    cached one of the CLI) states for this platform, of a release that is the
    newest stable one and newer than the running version. *)
Theorem only_signed_releases o ops w :
  state_file w = None →
  let w' := foldl (step o) w ops in
  executable w' = executable w ∨ executable w' = None ∨
  ∃ c d, executable w' = Some c ∧ digest_path c = Ok d ∧ released o w ops d.
Proof.
  intros Hfresh. assert (Hinit : record_released o w []).
  { intros st x Hst Hx. exfalso. unfold load_state in Hst. cbn [foldl] in Hst. rewrite Hfresh in Hst.
    cbn [mbind result_bind] in Hst. injection Hst as <-.
    destruct (cached_generation w ≫= _); by destruct (product o). }
  assert (Hall : record_released o w ops ∧
    (executable (foldl (step o) w ops) = executable w ∨ executable (foldl (step o) w ops) = None ∨
     ∃ c d, executable (foldl (step o) w ops) = Some c ∧ digest_path c = Ok d ∧ released o w ops d));
    [|apply Hall].
  induction ops as [|op ops IH] using rev_ind; [split; [done|by left]|].
  destruct IH as [Hrec Hexe]. split; [by apply step_record|].
  rewrite foldl_app. simpl. set (v := foldl (step o) w ops) in *.
  assert (Hkeep : executable (step o v op) = executable v →
    executable (step o v op) = executable w ∨ executable (step o v op) = None ∨
    ∃ c d, executable (step o v op) = Some c ∧ digest_path c = Ok d ∧ released o w (ops ++ [op]) d).
  { intros ->. destruct Hexe as [?|[?|(c & d & ? & ? & ?)]]; [by left|by right; left|].
    right; right. exists c, d. split; [done|]. split; [done|]. by apply released_app. }
  destruct (step_cases o v op) as [(m & e & r & _ & Hr)|[(e & io & r & _ & Ha)|(f & _ & E)]].
  - destruct (run_run _ _ _ _ _ _ Hr) as [(_ & _ & E & _) _]. by apply Hkeep.
  - destruct (ac_executable _ _ _ _ _ Ha) as [E|[(x & c & Hc & E)|(E & _)]];
      [by apply Hkeep| |by right; left].
    right; right. destruct Hc as ((st & Hst & Hx) & _ & _ & Hd & _). exists c, (staged_sha256 x).
    split; [done|]. split; [done|]. apply released_app. by eapply Hrec.
  - apply Hkeep. by rewrite E.
Qed.

End proofs.

(** ** Example *)

Module Example_updater.
Export Example_codec.

Definition archive : list Z := [7; 7; 7; 7; 7].

Definition sample : Catalog :=
  {| schema := 1; catalog_generation := 9; published_at := "today"; expires_at := "2000";
     catalog_product := "cli";
     releases :=
       [{| release_version := "3"; withdrawn := true; assets := [] |};
        {| release_version := "2"; withdrawn := false;
           assets := [{| os := ""; architecture := "x86_64"; asset_path := "versions/2/beam.tar.gz";
                         asset_sha256 := sha256_hex archive; asset_size := 5;
                         asset_kind := "" |}] |}] |}.

(** A signature is the key followed by the length of the message. *)
#[export] Instance libraries : Libraries :=
  {| Version := Z; parse_version := parse_u64; version_le := Z.leb; stable := λ _, true;
     version_string := decimal; b64_decode := λ s, Some (bytes s);
     VerifyingKey := list Z; key_from_bytes := Some; Signature := list Z;
     signature_from_slice := Some; verify := λ k m s, bool_decide (s = k ++ [zlen m]);
     parse_envelope := λ d, Some {| signed := of_bytes (drop 33 d); signature := of_bytes (take 33 d) |};
     parse_catalog := λ _, Some sample; rfc3339 := parse_u64;
     url_join := λ _ p, Some {| scheme := "https"; host := Some "releases.filebeam.io";
                                url_path := "/cli/" +:+ p |};
     tar_gz := λ d, [Ok {| entry_path := "beam/beam"; entry_size := zlen d; entry_type := EFile;
                           entry_body := Ok d; entry_link := None; entry_mode := 493 |}];
     zip_by_name := λ _ _, Err "" |}.
#[export] Instance version_laws : VersionLaws.
Proof. split; simpl; intros; rewrite ?Z.leb_le in *; lia. Qed.
#[export] Instance target : Target := {| target_os := Linux; target_arch := Some "x86_64" |}.

Definition options : Options :=
  {| product := Cli; version := "1"; public_key := of_bytes (replicate 32 107) |}.
Definition env (t : Z) : Env :=
  {| clock := t; now := 1000; enabled := λ _, true; managed := true;
     fetch := λ _ _, Ok (replicate 32 107 ++ [4; 1; 2; 3; 4]);
     fetch_asset := λ _ _, Ok archive; codesigned := λ _, true; uuid := "u";
     bundle := λ _, Err ""; io_attempt := Done; io_payload := Done; io_state := Done |}.
Definition fresh : World :=
  {| leased := false; state_file := None; cached_generation := Some " 4 "; files := ∅;
     executable := Some (FilePayload [1]); backup := None |}.
Definition fine : Renames := {| rename_out := true; rename_in := true; rename_back := true |}.

Definition update : list Op := [Run false (env 100); Activate (env 200) fine].

Example updated :
  let w := foldl (step "stage" options) fresh update in
  executable w = Some (FilePayload archive) ∧ backup w = Some (FilePayload [1]).
Proof. by vm_compute. Qed.

(** A payload changed after it was staged is refused. *)
Example tampered :
  executable (foldl (step "stage" options) fresh
    [Run false (env 100); Tamper {["stage/2-u" := FilePayload [6; 6; 6]]}; Activate (env 200) fine])
  = Some (FilePayload [1]).
Proof. by vm_compute. Qed.

Lemma only_signed_releases_witness :
  ∃ c d, executable (foldl (step "stage" options) fresh update) = Some c ∧
    digest_path c = Ok d ∧ released "stage" options fresh update d.
Proof.
  destruct (only_signed_releases "stage" options update fresh eq_refl) as [H|[H|H]];
    [vm_compute in H; discriminate H|vm_compute in H; discriminate H|exact H].
Defined.

Lemma generation_monotone_witness :
  ∃ st', load_state (step "stage" options fresh (Run false (env 100))) = Ok st' ∧
    4 ≤ generation (entry st' Cli).
Proof.
  destruct (generation_monotone "stage" [(options, Run false (env 100))] fresh
    (edit Cli (set_generation 4) state_default) eq_refl) as (st' & Hl & Hg).
  exists st'. split; [exact Hl|exact (Hg Cli)].
Defined.
End Example_updater.
