(* ===== verification/Bundle.v ===== *)
(** * Application bundles (crates/client-updater/src/lib.rs, [extract_bundle])

    Unpacking a signed archive of a macOS application beside the place it will
    be installed from.  Entries may be directories, files and symbolic links,
    and the file system follows the links that earlier entries made, so the
    model resolves paths the way the system does. *)

From Stdlib Require Import Ascii String.
From S2P Require Import Prelude Str Frame Monad Fs Updater.
From stdpp Require Import gmap fin_maps.
Open Scope Z_scope.

(** ** Paths *)

Inductive Component := Normal (name : string) | ParentDir | CurDir | RootDir.

#[export] Instance Component_eq_dec : EqDecision Component.
Proof. solve_decision. Defined.

(** [Path::is_absolute] and [Path::components] on Unix: repeated slashes and
    inner dots vanish, a leading dot stays. *)
Definition is_absolute (s : string) : bool := starts_with "/" s.

Definition component (name : string) : Component :=
  if decide (name = "..") then ParentDir else Normal name.

Definition components (s : string) : list Component :=
  (if is_absolute s then [RootDir]
   else match split_char "/" s with "." :: _ => [CurDir] | _ => [] end)
  ++ (component <$> filter (λ c, c ≠ "" ∧ c ≠ ".") (split_char "/" s)).

Definition is_normal (c : Component) : bool := match c with Normal _ => true | _ => false end.

Definition safe_relative (s : string) : bool :=
  negb (is_absolute s) && forallb is_normal (components s).

(** The loop of [safe_symlink_target]: the depth below the bundle. *)
Fixpoint depth_loop (depth : nat) (l : list Component) : bool :=
  match l with
  | [] => true
  | Normal _ :: l => depth_loop (S depth) l
  | ParentDir :: l => match depth with O => false | S d => depth_loop d l end
  | CurDir :: l => depth_loop depth l
  | RootDir :: l => false
  end.

(** [parent.join(target)] of a relative target has the components of both. *)
Definition safe_symlink_target (parent : list string) (target : string) : bool :=
  negb (is_absolute target) && depth_loop 0 ((Normal <$> parent) ++ components target).

(** ** The file system *)

Inductive Item :=
| DirItem
| FileItem (content : list Z) (mode : Z)
| LinkItem (target : string).

(** Nodes by real path, the last component first, as in Fs.v. *)
Notation Tree := (gmap path Item).

(** Resolving a path from a real directory to a real directory, through the
    links on the way; the fuel bounds the components met, links included. *)
Fixpoint walk (fuel : nat) (fs : Tree) (cur : path) (l : list Component) : option path :=
  match fuel with
  | O => None
  | S fuel =>
      match l with
      | [] => Some cur
      | RootDir :: l => walk fuel fs [] l
      | CurDir :: l => walk fuel fs cur l
      | ParentDir :: l => walk fuel fs (tail cur) l
      | Normal n :: l =>
          match fs !! (n :: cur) with
          | Some DirItem => walk fuel fs (n :: cur) l
          | Some (LinkItem t) => walk fuel fs cur (components t ++ l)
          | _ => None
          end
      end
  end.

(** More than any path the system accepts can meet. *)
Definition FUEL : nat := 4096.

(** [fs::create_dir_all]: the real directory reached, and the new tree. *)
Fixpoint create_dir_all (cur : path) (l : list Component) (fs : Tree) : option path * Tree :=
  match l with
  | [] => (Some cur, fs)
  | RootDir :: l => create_dir_all [] l fs
  | CurDir :: l => create_dir_all cur l fs
  | ParentDir :: l => create_dir_all (tail cur) l fs
  | Normal n :: l =>
      match fs !! (n :: cur) with
      | None => create_dir_all (n :: cur) l (<[n :: cur := DirItem]> fs)
      | Some DirItem => create_dir_all (n :: cur) l fs
      | Some (LinkItem t) =>
          match walk FUEL fs cur (components t) with
          | Some d => create_dir_all d l fs
          | None => (None, fs)
          end
      | Some (FileItem _ _) => (None, fs)
      end
  end.

(** [create_new] and [symlink]: a new name in a directory that was just made;
    neither follows or replaces what has the name already. *)
Definition add_new (tmp : path) (l : list Component) (x : Item) (fs : Tree)
    : result string () * Tree :=
  match rev l with
  | Normal n :: parents =>
      let '(d, fs) := create_dir_all tmp (rev parents) fs in
      match d with
      | None => (Err "Not a directory", fs)
      | Some d =>
          match fs !! (n :: d) with
          | Some _ => (Err "File exists", fs)
          | None => (Ok (), <[n :: d := x]> fs)
          end
      end
  | _ => (Err "Is a directory", fs)
  end.

(** ** [extract_bundle] *)

Definition names_of (s : string) : list string :=
  omap (λ c, match c with Normal n => Some n | _ => None end) (components s).

(** One entry, placed at [tmp.join(path)]. *)
Definition add_entry (tmp : path) (e : TarEntry) (fs : Tree) : result string () * Tree :=
  let path := components (entry_path e) in
  match entry_type e with
  | EDirectory =>
      let '(d, fs) := create_dir_all tmp path fs in
      (match d with Some _ => Ok () | None => Err "Not a directory" end, fs)
  | EFile =>
      match entry_body e with
      | Ok c => add_new tmp path (FileItem c (Z.land (entry_mode e) 511)) fs
      | Err err => let '(_, fs) := add_new tmp path (FileItem [] 0) fs in (Err err, fs)
      end
  | ESymlink =>
      match entry_link e with
      | None => (Err "application bundle symlink lacks target", fs)
      | Some link =>
          if negb (safe_symlink_target (removelast (names_of (entry_path e))) link)
          then (Err "application bundle symlink escapes bundle", fs)
          else add_new tmp path (LinkItem link) fs
      end
  | EOtherType => (Err "application bundle contains unsupported entry", fs)
  end.

Fixpoint add_entries (tmp : path) (l : list (result string TarEntry)) (count total : Z) (fs : Tree)
    : result string () * Tree :=
  match l with
  | [] => (Ok (), fs)
  | Err e :: l => (Err e, fs)
  | Ok e :: l =>
      let count := count + 1 in
      let total := (total + entry_size e) mod (u64_max + 1) in
      if (MAX_ARCHIVE_ENTRIES <? count) || (MAX_UNPACKED_BYTES <? total)
         || negb (safe_relative (entry_path e))
      then (Err "unsafe application bundle archive", fs)
      else
        let '(r, fs) := add_entry tmp e fs in
        match r with
        | Err e => (Err e, fs)
        | Ok _ => add_entries tmp l count total fs
        end
  end.

(** [fs::rename] of a directory to a free name, and [fs::remove_dir_all]. *)
Definition relocate (src dst p : path) : path :=
  match below src p with Some rel => rel ++ dst | None => p end.
Definition rename (src dst : path) (fs : Tree) : Tree :=
  list_to_map (prod_map (relocate src dst) id <$> map_to_list fs).
Definition remove_dir_all (d : path) (fs : Tree) : Tree :=
  filter (λ x, below d (fst x) = None) fs.

Definition is_dir_at (d : path) (name : string) (fs : Tree) : bool :=
  bool_decide (walk FUEL fs d [Normal name] ≠ None).

(** [extract_bundle]; the temporary directory's parents exist, and a target that
    exists is refused (the code's rename would take the place of an empty one). *)
Definition extract_bundle (verified : bool) (tmp target : path) (l : list (result string TarEntry))
    (fs : Tree) : result string () * Tree :=
  let fs := <[tmp := DirItem]> fs in
  let '(r, fs) := add_entries tmp l 0 0 fs in
  let r :=
    (_ ← r;
     reject negb (is_dir_at tmp "Filebeam.app" fs)
       with "application bundle does not contain Filebeam.app";
     reject negb verified with "application bundle code signature verification failed";
     reject bool_decide (fs !! target ≠ None) with "Directory not empty";
     Ok ()) in
  match r with
  | Ok _ => (Ok (), rename ("Filebeam.app" :: tmp) target fs)
  | Err e => (Err e, remove_dir_all tmp fs)
  end.

#[global] Arguments walk : simpl never.

(** ** Containment *)

Lemma below_Some d p rel : below d p = Some rel ↔ p = rel ++ d.
Proof.
  unfold below. case_bool_decide as Hd.
  - split; [intros [= <-]|intros ->].
    + rewrite <- Hd at 2. symmetry. apply take_drop.
    + f_equal. rewrite length_app. replace (length rel + length d - length d)%nat with (length rel) by lia.
      by rewrite take_app_length.
  - split; [done|intros ->]. destruct Hd. rewrite length_app.
    replace (length rel + length d - length d)%nat with (length rel) by lia. by rewrite drop_app_length.
Qed.

Lemma is_below_iff d p : is_below d p ↔ ∃ rel, p = rel ++ d.
Proof.
  split; [intros [rel Hr]; exists rel; by apply below_Some|intros [rel ->]; exists rel; by apply below_Some].
Qed.

(** What every entry keeps: nothing outside [tmp] changed, and the links below
    it are those of the archive's link entries, [links]. *)
Section contained.
Context (tmp : path) (fs0 : Tree) (links : list (list string)).

Definition contained (fs : Tree) : Prop :=
  (∀ p, ¬ is_below tmp p → fs !! p = fs0 !! p) ∧
  ∀ rel t, fs !! (rel ++ tmp) = Some (LinkItem t) → rev rel ∈ links.

Lemma contained_insert rel x fs :
  contained fs → (∀ t, x = LinkItem t → rev rel ∈ links) → contained (<[rel ++ tmp := x]> fs).
Proof.
  intros [Hout Hlinks] Hx. split.
  - intros p Hp. rewrite lookup_insert_ne; [by apply Hout|]. intros <-. apply Hp, is_below_iff. by exists rel.
  - intros rel' t. destruct (decide (rel' = rel)) as [->|Hne].
    + rewrite lookup_insert, decide_True by done. intros [= Ht]. by eapply Hx.
    + rewrite lookup_insert_ne; [by apply Hlinks|]. intros E. apply Hne. by apply (inj (.++ tmp)) in E.
Qed.

Lemma create_dir_all_contained pre names fs d fs' :
  contained fs → (∀ q, q `prefix_of` pre ++ names → q ∉ links) →
  create_dir_all (rev pre ++ tmp) (Normal <$> names) fs = (d, fs') →
  contained fs' ∧ (d = None ∨ d = Some (rev (pre ++ names) ++ tmp)).
Proof.
  revert pre fs. induction names as [|n names IH]; intros pre fs Hfs Hq Hd; csimpl in Hd.
  - injection Hd as <- <-. rewrite app_nil_r. split; [done|by right].
  - assert (Hcur : n :: rev pre ++ tmp = rev (pre ++ [n]) ++ tmp) by (by rewrite rev_app_distr).
    assert (Hpre : pre ++ n :: names = (pre ++ [n]) ++ names) by (by rewrite <- (assoc_L (++))).
    rewrite Hcur in Hd. rewrite Hpre in Hq |- *.
    destruct (fs !! (rev (pre ++ [n]) ++ tmp)) as [[|c m|t]|] eqn:Hn.
    + by apply (IH (pre ++ [n]) fs).
    + injection Hd as <- <-. split; [done|by left].
    + exfalso. apply Hfs in Hn. rewrite rev_involutive in Hn. apply (Hq (pre ++ [n])); [|done].
      by apply prefix_app_r.
    + apply (IH (pre ++ [n]) (<[rev (pre ++ [n]) ++ tmp := DirItem]> fs)); [|done|done].
      by apply contained_insert.
Qed.

Lemma add_new_contained names x fs r fs' :
  contained fs → (∀ q, q `prefix_of` names → q ∈ links → q = names) →
  (∀ t, x = LinkItem t → names ∈ links) →
  add_new tmp (Normal <$> names) x fs = (r, fs') → contained fs'.
Proof.
  intros Hfs Hq Hx. unfold add_new. destruct names as [|n parents _] using rev_ind.
  { by intros [= <- <-]. }
  rewrite fmap_app, rev_app_distr. csimpl. rewrite rev_involutive.
  destruct (create_dir_all tmp (Normal <$> parents) fs) as [d fs1] eqn:Hd.
  destruct (create_dir_all_contained [] parents fs d fs1) as [Hfs1 Hdir]; [done| |done|].
  { simpl. intros q Hpre Hin. assert (E : q = parents ++ [n]).
    { apply Hq; [|done]. by apply prefix_app_r. }
    apply prefix_length in Hpre. rewrite E, length_app in Hpre. simpl in Hpre. lia. }
  destruct d as [d|]; [|by intros [= <- <-]]. destruct Hdir as [|[= ->]]; [done|].
  simpl. destruct (fs1 !! (n :: rev parents ++ tmp)) eqn:Hn; [by intros [= <- <-]|].
  intros [= <- <-]. change (n :: rev parents ++ tmp) with ((n :: rev parents) ++ tmp).
  apply contained_insert; [done|].
  intros t Ht. simpl. rewrite rev_involutive. by eapply Hx.
Qed.

(** No entry is placed below a link entry, and no directory at one. *)
Definition untangled (e : TarEntry) : Prop :=
  (entry_type e = ESymlink → names_of (entry_path e) ∈ links) ∧
  ∀ q, q ∈ links → q `prefix_of` names_of (entry_path e) →
    q = names_of (entry_path e) ∧ entry_type e ≠ EDirectory.

(** A safe relative path is a list of names. *)
Lemma safe_components s : safe_relative s = true → components s = Normal <$> names_of s.
Proof.
  unfold safe_relative, names_of. intros [_ Hs]%andb_true_iff. revert Hs.
  induction (components s) as [|c l IH]; [done|]. simpl. intros [Hc Hl]%andb_true_iff.
  destruct c; try done. csimpl. f_equal. by apply IH.
Qed.

Lemma add_entry_contained e fs r fs' :
  contained fs → untangled e → safe_relative (entry_path e) = true → add_entry tmp e fs = (r, fs') → contained fs'.
Proof.
  intros Hfs [Hlink Hq] Hsafe. unfold add_entry. rewrite (safe_components _ Hsafe).
  destruct (entry_type e) eqn:Ht.
  - destruct (create_dir_all _ _ _) as [d fs1] eqn:Hd. intros [= <- <-].
    apply (create_dir_all_contained [] _ _ _ _ Hfs) in Hd as [? _]; [done|].
    simpl. intros q Hpre Hin. by destruct (Hq q Hin Hpre).
  - destruct (entry_body e).
    + apply add_new_contained; [done| |done]. intros q Hpre Hin. by destruct (Hq q Hin Hpre).
    + destruct (add_new _ _ _ _) as [r1 fs1] eqn:Hn. intros [= <- <-].
      apply (add_new_contained _ _ _ _ _ Hfs) in Hn; [done| |done].
      intros q Hpre Hin. by destruct (Hq q Hin Hpre).
  - destruct (entry_link e); [|by intros [= <- <-]]. case_match; [by intros [= <- <-]|].
    apply add_new_contained; [done| |auto]. intros q Hpre Hin. by destruct (Hq q Hin Hpre).
  - by intros [= <- <-].
Qed.

Lemma add_entries_contained l count total fs r fs' :
  contained fs → (∀ e, Ok e ∈ l → untangled e) →
  add_entries tmp l count total fs = (r, fs') → contained fs'.
Proof.
  revert count total fs. induction l as [|[e|err] l IH]; intros count total fs Hfs Hl; simpl.
  - by intros [= <- <-].
  - case_match eqn:Hg; [by intros [= <- <-]|]. bool_prop.
    destruct (add_entry tmp e fs) as [[[]|err] fs1] eqn:He;
      (apply (add_entry_contained _ _ _ _ Hfs) in He; [|apply Hl; by left|done]).
    + apply IH; [done|set_solver].
    + by intros [= <- <-].
  - by intros [= <- <-].
Qed.
End contained.

Lemma rename_outside src dst fs p :
  ¬ is_below src p → ¬ is_below dst p → rename src dst fs !! p = fs !! p.
Proof.
  intros Hs Hd. unfold rename.
  assert (Hkey : ∀ x, (p, x) ∈ (prod_map (relocate src dst) id <$> map_to_list fs) ↔ fs !! p = Some x).
  { intros x. rewrite list_elem_of_fmap. split.
    - intros ([q y] & E & Hin). apply elem_of_map_to_list in Hin. simpl in E. injection E as Ep ->.
      unfold relocate in Ep. destruct (below src q) as [rel|] eqn:Hq.
      + exfalso. apply Hd, is_below_iff. by exists rel.
      + by subst q.
    - intros Hx. exists (p, x). split; [|by apply elem_of_map_to_list]. simpl. unfold relocate.
      destruct (below src p) as [rel|] eqn:Hq; [|done]. exfalso. apply Hs. by exists rel. }
  destruct (fs !! p) as [x|] eqn:Hx.
  - apply elem_of_list_to_map'; [|by apply Hkey]. intros y _ Hin.
    apply Hkey in Hin. congruence.
  - apply not_elem_of_list_to_map. intros (e & Hp & He)%list_elem_of_fmap. destruct e as [q x].
    simpl in Hp. subst q. apply Hkey in He. congruence.
Qed.

Lemma remove_outside d fs p : ¬ is_below d p → remove_dir_all d fs !! p = fs !! p.
Proof.
  intros Hp. unfold remove_dir_all. rewrite map_lookup_filter. destruct (fs !! p) eqn:Hx; [|done].
  simpl. rewrite option_guard_True; [done|]. destruct (below d p) eqn:Hb; [|done].
  exfalso. apply Hp. by exists p0.
Qed.

(** C26: unpacking a bundle touches nothing else: whatever the archive holds and
    however the unpacking ends, if no entry is placed below one of the
    archive's own links then every path outside the temporary directory and
    the installation target is as it was. *)
Theorem bundle_contained verified tmp target l fs r fs' p :
  let links := omap (λ x, match x with
                          | Ok e => if decide (entry_type e = ESymlink)
                                    then Some (names_of (entry_path e)) else None
                          | Err _ => None end) l in
  (∀ q, is_below tmp q → fs !! q = None) →
  (∀ e q, Ok e ∈ l → q ∈ links → q `prefix_of` names_of (entry_path e) →
     q = names_of (entry_path e) ∧ entry_type e ≠ EDirectory) →
  extract_bundle verified tmp target l fs = (r, fs') →
  ¬ is_below tmp p → ¬ is_below target p → fs' !! p = fs !! p.
Proof.
  intros links Hfresh Htangle. unfold extract_bundle.
  destruct (add_entries tmp l 0 0 (<[tmp := DirItem]> fs)) as [r1 fs1] eqn:He.
  assert (Hc : contained tmp fs links fs1).
  { apply (add_entries_contained tmp fs links l 0 0 (<[tmp := DirItem]> fs) r1); [| |done].
    - split.
      + intros q Hq. rewrite lookup_insert_ne; [done|]. intros <-. apply Hq, is_below_iff. by exists [].
      + intros rel t. destruct (decide (rel ++ tmp = tmp)) as [E|E].
        * rewrite E, lookup_insert, decide_True by done. done.
        * rewrite lookup_insert_ne by done. rewrite Hfresh; [done|]. apply is_below_iff. by exists rel.
    - intros e Hin. split; [|intros q Hq; by apply Htangle]. intros Ht. unfold links.
      apply list_elem_of_omap. exists (Ok e). split; [done|]. by rewrite decide_True. }
  intros Hr Hp Ht. rewrite <- (proj1 Hc p Hp). case_match; injection Hr as <- <-.
  - apply rename_outside; [|done]. intros (rel & ->)%is_below_iff. apply Hp, is_below_iff.
    exists (rel ++ ["Filebeam.app"]). by rewrite <- (assoc_L (++)).
  - by apply remove_outside.
Qed.

(** ** Accepted links *)

Lemma depth_loop_walk fuel tmp rel l fs d :
  (∀ q t, is_below tmp q → fs !! q ≠ Some (LinkItem t)) →
  depth_loop (length rel) l = true → walk fuel fs (rel ++ tmp) l = Some d → is_below tmp d.
Proof.
  intros Hno. revert rel l. induction fuel as [|fuel IH]; intros rel l Hd Hw; [done|].
  unfold walk in Hw. fold walk in Hw. destruct l as [|c l].
  { injection Hw as <-. apply is_below_iff. by exists rel. }
  destruct c as [n| | |]; simpl in Hd; [| |by apply (IH rel l)|done].
  - destruct (fs !! (n :: rel ++ tmp)) as [[|c m|t]|] eqn:Hn; try done.
    + by apply (IH (n :: rel) l).
    + exfalso. apply (Hno (n :: rel ++ tmp) t); [|done]. apply is_below_iff. by exists (n :: rel).
  - destruct rel as [|n rel]; [done|]. by apply (IH rel l).
Qed.

Lemma depth_loop_normal k parent l :
  depth_loop k ((Normal <$> parent) ++ l) = depth_loop (k + length parent) l.
Proof.
  revert k. induction parent as [|n parent IH]; intros k; simpl; [by rewrite Nat.add_0_r|].
  rewrite IH. f_equal. lia.
Qed.

(** A link target the guard accepts stays inside the bundle, as long as the way
    to it passes no other link. *)
Theorem accepted_link_inside tmp parent target fs fuel d :
  safe_symlink_target parent target = true →
  (∀ q t, is_below tmp q → fs !! q ≠ Some (LinkItem t)) →
  walk fuel fs (rev parent ++ tmp) (components target) = Some d → is_below tmp d.
Proof.
  intros Hs Hno Hw. unfold safe_symlink_target in Hs. apply andb_true_iff in Hs as [_ Hs].
  rewrite depth_loop_normal in Hs. simpl in Hs.
  eapply (depth_loop_walk fuel tmp (rev parent)); [done| |done]. by rewrite length_rev.
Qed.

(** ** Examples *)

Module Example_bundle.

Definition home : path := ["home"].
Definition tmp : path := [".bundle"; "desktop"; "staged"; "update"; "home"].
Definition target : path := ["2.app"; "desktop"; "staged"; "update"; "home"].
Definition tree : Tree :=
  {[ home := DirItem; ["bin"; "home"] := DirItem; ["update"; "home"] := DirItem;
     ["staged"; "update"; "home"] := DirItem; ["desktop"; "staged"; "update"; "home"] := DirItem ]}.

Definition dir (p : string) : result string TarEntry :=
  Ok {| entry_path := p; entry_size := 0; entry_type := EDirectory; entry_body := Ok [];
        entry_link := None; entry_mode := 493 |}.
Definition file (p : string) (c : list Z) : result string TarEntry :=
  Ok {| entry_path := p; entry_size := zlen c; entry_type := EFile; entry_body := Ok c;
        entry_link := None; entry_mode := 493 |}.
Definition link (p t : string) : result string TarEntry :=
  Ok {| entry_path := p; entry_size := 0; entry_type := ESymlink; entry_body := Ok [];
        entry_link := Some t; entry_mode := 511 |}.

Definition app : list (result string TarEntry) :=
  [dir "Filebeam.app/Contents/MacOS"; file "Filebeam.app/Contents/MacOS/filebeam" [1; 2];
   link "Filebeam.app/Contents/Current" "MacOS"].

Example app_installed :
  let '(r, fs) := extract_bundle true tmp target app tree in
  r = Ok () ∧ fs !! (["filebeam"; "MacOS"; "Contents"] ++ target) = Some (FileItem [1; 2] 493) ∧
  fs !! (["Current"; "Contents"] ++ target) = Some (LinkItem "MacOS").
Proof. by vm_compute. Qed.

(** Paths of different lengths differ. *)
Ltac too_short :=
  let E := fresh in intros E; apply (f_equal length) in E; rewrite length_app in E; simpl in E; lia.

Lemma bundle_contained_witness :
  (extract_bundle true tmp target app tree).2 !! ["bin"; "home"] = Some DirItem.
Proof.
  destruct (extract_bundle true tmp target app tree) as [r fs'] eqn:E. cbn [snd].
  refine (eq_trans (bundle_contained true tmp target app tree r fs' ["bin"; "home"] _ _ E _ _) _);
    [| | | |done].
  - intros q (rel & ->)%is_below_iff. unfold tree, tmp.
    rewrite !lookup_insert_ne, lookup_singleton_ne by too_short. done.
  - intros e q He Hq Hpre. simpl in Hq. apply list_elem_of_In in Hq. destruct Hq as [<-|[]].
    apply list_elem_of_In in He. destruct He as [He|[He|[He|[]]]]; injection He as <-.
    + vm_compute in Hpre. destruct Hpre as [k Hk]. discriminate Hk.
    + vm_compute in Hpre. destruct Hpre as [k Hk]. discriminate Hk.
    + split; [by vm_compute|vm_compute; discriminate].
  - intros (rel & Hrel)%is_below_iff. revert Hrel. too_short.
  - intros (rel & Hrel)%is_below_iff. revert Hrel. too_short.
Defined.

(** Two links that pass the guard one by one lead out together: the first
    brings the second nearer to the root than its path says, so its target
    climbs out of the bundle, and a file placed below it is written outside. *)
Definition escaping : list (result string TarEntry) :=
  [link "a/b/c/d/l" "../../../.."; link "a/b/c/d/l/x" "../../../../bin";
   file "a/b/c/d/l/x/evil" [6; 6; 6]; dir "Filebeam.app"].

Theorem bundle_escapes :
  let '(r, fs) := extract_bundle true tmp target escaping tree in
  r = Ok () ∧ tree !! ["evil"; "bin"; "home"] = None ∧
  fs !! ["evil"; "bin"; "home"] = Some (FileItem [6; 6; 6] 493).
Proof. by vm_compute. Qed.

End Example_bundle.
