(* ===== verification/Saved.v ===== *)
(** * Saved transfers (crates/transfer-native/src/protocol/mod.rs)

    What is shown of the checkpoints on disk: the list of saved transfers, the
    details that say what can be done with each, and which operation resumes
    one.  Reading a checkpoint (opening its store and authenticating the record)
    is an argument: it fails, finds none or gives its JSON. *)

From Stdlib Require Import Ascii String.
From stdpp Require Import sorting.
From S2P Require Import Prelude Str Json.
Open Scope Z_scope.

(** The uuid crate's parser composed with its printer, and the url crate. *)
Class Identifiers := {
  uuid : string → option string;
  Url : Type;
  url_parse : string → option Url;
  url_scheme : Url → string;
  url_host : Url → option string;
  url_origin : Url → string;               (** [origin().ascii_serialization()] *)
  url_join : Url → string → option Url;
  url_string : Url → string }.

Record SavedTransfer := {
  t_id : string; t_direction : string; t_state : string; t_done : Z; t_total : Z }.

Record SavedTransferDetails := {
  d_id : string; d_direction : string; d_kind : string; d_transport : string; d_state : string;
  d_done : Z; d_total : Z; d_verified_privately : bool; d_exported : bool;
  d_expires_at : option string; d_can_resume : bool; d_can_retry_save : bool;
  d_can_end_live : bool; d_can_revoke_remote : bool; d_can_remove_local : bool;
  d_origin : option string; d_receipt : option string; d_verified_paths : list string }.

Record SavedHeader := {
  h_version : Z; h_id : string; h_direction : string; h_state : string; h_done : Z; h_total : Z }.

(** [serde_json::from_value::<SavedHeader>] *)
Definition header_of (v : json) : option SavedHeader :=
  version ← u8_field "version" v;
  id ← str_field "id" v;
  direction ← str_field "direction" v;
  state ← str_field "state" v;
  done ← u64_field "done" v;
  total ← u64_field "total" v;
  Some {| h_version := version; h_id := id; h_direction := direction; h_state := state;
          h_done := done; h_total := total |}.

(** [Path::is_absolute] on Unix. *)
Definition is_absolute (p : string) : bool := starts_with "/" p.

Section saved.
Context `{Identifiers}.

Definition state_byte (b : Z) : bool := is_ascii_alphanumeric b || (b =? ch "-").

(** [SavedHeader::summary] *)
Definition summary (h : SavedHeader) (directory_id : string) : result string SavedTransfer :=
  reject negb (h_version h =? 1) || negb (h_id h =? directory_id)%string
         || bool_decide (uuid (h_id h) = None)
         || negb (bool_decide (h_direction h ∈ ["upload"; "download"]))
         || is_empty (h_state h) || (64 <? len (h_state h))
         || negb (forallb state_byte (bytes (h_state h)))
         || (h_total h <? h_done h)
    with "invalid saved transfer checkpoint";
  Ok {| t_id := h_id h; t_direction := h_direction h; t_state := h_state h; t_done := h_done h;
        t_total := h_total h |}.

(** ** The list *)

(** What reading the checkpoint of a directory of the state home gives. *)
Definition Loaded : Type := result string (option json).

Definition read_summary (id : string) (v : Loaded) : result string SavedTransfer :=
  v ← v;
  v ← ok_or v "saved transfer checkpoint is empty";
  h ← ok_or (header_of v) "invalid saved transfer checkpoint";
  summary h id.

Definition id_le (a b : SavedTransfer) : Prop := String.leb (t_id a) (t_id b) = true.
#[export] Instance id_le_dec : RelDecision id_le.
Proof. intros a b. unfold id_le. apply _. Defined.

(** The directories in the order [read_dir] gives them. *)
Definition saved_transfers (entries : list (string * Loaded)) : list SavedTransfer :=
  merge_sort id_le (omap (λ e, res_opt (read_summary (fst e) (snd e))) entries).

(** ** The details *)

Definition all_items (p : json → bool) (v : json) : bool :=
  match field "items" v ≫= as_array with
  | Some items => negb (bool_decide (length items = 0%nat)) && forallb p items
  | None => false
  end.

Definition item_published (item : json) : bool := bool_decide (bool_field "published" item = Some true).

Definition item_verified (item : json) : bool :=
  match field "verified" item ≫= as_array with
  | Some bits => forallb (λ bit, bool_decide (as_bool bit = Some true)) bits
  | None => false
  end.

Definition resumable_states : list string :=
  ["paused"; "running"; "preparing"; "awaiting-execution"; "sending"; "receiving"].

Definition has_token (name : string) (v : json) : bool :=
  match str_field name v with Some token => negb (is_empty token) | None => false end.

Definition origin_of (v : json) : option string :=
  value ← str_field "instance" v;
  parsed ← url_parse value;
  if bool_decide (url_scheme parsed ∈ ["http"; "https"]) && bool_decide (is_Some (url_host parsed))
  then Some (url_origin parsed) else None.

Definition receipt_of (origin : option string) (v : json) : option string :=
  origin ← origin;
  value ← str_field "share_url" v;
  base ← url_parse origin;
  url ← url_join base value;
  if (url_origin url =? origin)%string then Some (url_string url) else None.

Definition target_of (item : json) : option string := str_field "target" item.

Definition verified_targets (v : json) : list string :=
  filter (λ t, is_absolute t = true) (omap target_of (default [] (field "items" v ≫= as_array))).

(** [saved_transfer_details_with_secret_store], after the store is opened. *)
Definition details_of (id : string) (v : json) : result string SavedTransferDetails :=
  h ← ok_or (header_of v) "invalid saved transfer checkpoint";
  s ← summary h id;
  reject negb (is_object v) with "invalid saved transfer checkpoint";
  let transport := default "http" (str_field "driver" v) in
  let is_upload := (t_direction s =? "upload")%string in
  let published := all_items item_published v in
  let verified := all_items item_verified v in
  let ended := (t_state s =? "ended")%string in
  let origin := origin_of v in
  Ok {| d_id := t_id s; d_direction := t_direction s; d_kind := "files"; d_transport := transport;
        d_state := t_state s; d_done := t_done s; d_total := t_total s;
        d_verified_privately := negb is_upload && verified && negb published;
        d_exported := negb is_upload && published;
        d_expires_at := None;
        d_can_resume := bool_decide (t_state s ∈ resumable_states);
        d_can_retry_save := negb is_upload && verified && negb published;
        d_can_end_live := is_upload && (transport =? "webrtc")%string && negb ended
                          && has_token "upload_token" v;
        d_can_revoke_remote := is_upload && negb ended && has_token "delete_token" v;
        d_can_remove_local := true;
        d_origin := origin;
        d_receipt := if is_upload then receipt_of origin v else None;
        d_verified_paths := if negb is_upload && verified then verified_targets v else [] |}.

(** [load]: opening the store of a canonical id and loading its record. *)
Definition saved_transfer_details (load : string → Loaded) (id : string)
    : result string SavedTransferDetails :=
  id ← ok_or (uuid id) "invalid saved transfer id";
  v ← load id;
  v ← ok_or v "saved transfer checkpoint is empty";
  details_of id v.

(** [discard_transfer]: nothing to do when the directory is gone. *)
Definition discard_transfer (present : string → bool) (discard : string → result string ())
    (id : string) : result string () :=
  id ← ok_or (uuid id) "invalid saved transfer id";
  if negb (present id) then Ok () else discard id.

(** [resume]: the direction of the authenticated header chooses the protocol. *)
Definition resume {A} (load : string → Loaded) (upload download : string → result string A)
    (id : string) : result string A :=
  id ← ok_or (uuid id) "invalid saved transfer id";
  v ← load id;
  v ← ok_or v "saved transfer checkpoint is empty";
  h ← ok_or (header_of v) "saved transfer checkpoint is empty";
  s ← summary h id;
  if (t_direction s =? "upload")%string then upload id else download id.

End saved.

(** ** Properties *)

Section properties.
Context `{Identifiers}.

Lemma summary_Ok h dir s :
  summary h dir = Ok s →
  t_id s = dir ∧ is_Some (uuid dir) ∧ t_direction s ∈ ["upload"; "download"] ∧ t_done s ≤ t_total s ∧
  t_direction s = h_direction h ∧ t_state s = h_state h.
Proof.
  unfold summary. intros Hs. guards Hs. injection Hs as <-. bool_prop. cbn.
  subst dir. split_and!; try done. by apply not_eq_None_Some.
Qed.

Lemma details_of_Ok id v d :
  details_of id v = Ok d →
  ∃ h s, header_of v = Some h ∧ summary h id = Ok s ∧
    d_id d = id ∧ d_direction d = t_direction s ∧ d_state d = t_state s ∧
    d_done d = t_done s ∧ d_total d = t_total s ∧
    d_transport d = default "http" (str_field "driver" v) ∧
    d_verified_privately d = negb (t_direction s =? "upload")%string
       && all_items item_verified v && negb (all_items item_published v) ∧
    d_exported d = negb (t_direction s =? "upload")%string && all_items item_published v ∧
    d_can_resume d = bool_decide (t_state s ∈ resumable_states) ∧
    d_can_retry_save d = d_verified_privately d ∧
    d_can_end_live d = (t_direction s =? "upload")%string && (d_transport d =? "webrtc")%string
       && negb (t_state s =? "ended")%string && has_token "upload_token" v ∧
    d_can_revoke_remote d = (t_direction s =? "upload")%string
       && negb (t_state s =? "ended")%string && has_token "delete_token" v ∧
    d_origin d = origin_of v ∧
    d_receipt d = (if (t_direction s =? "upload")%string then receipt_of (origin_of v) v else None) ∧
    d_verified_paths d = (if negb (t_direction s =? "upload")%string && all_items item_verified v
                          then verified_targets v else []).
Proof.
  unfold details_of, mbind, result_bind. intros Hd.
  destruct (header_of v) as [h|]; [|done]. cbn [ok_or] in Hd.
  destruct (summary h id) as [s|] eqn:Hs; [|done]. guards Hd. injection Hd as <-.
  exists h, s. destruct (summary_Ok _ _ _ Hs) as (Hid & _). split_and!; done.
Qed.

Lemma saved_transfer_details_Ok load id d :
  saved_transfer_details load id = Ok d →
  ∃ v, uuid id = Some (d_id d) ∧ load (d_id d) = Ok (Some v) ∧ details_of (d_id d) v = Ok d.
Proof.
  unfold saved_transfer_details, mbind, result_bind. intros Hd.
  destruct (uuid id) as [cid|] eqn:Hu; [|done]. cbn [ok_or] in Hd.
  destruct (load cid) as [[v|]|] eqn:Hl; [|done..]. cbn [ok_or] in Hd.
  pose proof (details_of_Ok _ _ _ Hd) as (_ & _ & _ & _ & -> & _). by exists v.
Qed.

(** The details shown for a saved transfer are those of an authenticated
    checkpoint of that very id, and offer no more than the checkpoint allows: a
    transfer is never shown as waiting to be exported and exported at once;
    verified paths are only shown for a download all of whose chunks of all
    files are verified, and are absolute; a share link is only shown for an
    upload, on the origin of its instance; ending a live share needs a live
    upload that has not ended and its token, revoking an upload its delete
    token; and resuming goes to the protocol of the transfer's direction. *)
Theorem details_sound {A} load id d (upload download : string → result string A) :
  saved_transfer_details load id = Ok d →
  uuid id = Some (d_id d) ∧
  d_direction d ∈ ["upload"; "download"] ∧ d_done d ≤ d_total d ∧
  (d_verified_privately d && d_exported d = false) ∧
  (d_verified_paths d ≠ [] → d_direction d = "download" ∧
     ∃ v, load (d_id d) = Ok (Some v) ∧ all_items item_verified v = true ∧
       ∀ p, p ∈ d_verified_paths d → is_absolute p = true) ∧
  (∀ u, d_receipt d = Some u → d_direction d = "upload" ∧
     ∃ o url, d_origin d = Some o ∧ url_origin url = o ∧ u = url_string url) ∧
  (d_can_end_live d = true →
     d_direction d = "upload" ∧ d_transport d = "webrtc" ∧ d_state d ≠ "ended") ∧
  (d_can_revoke_remote d = true → d_direction d = "upload" ∧ d_state d ≠ "ended") ∧
  resume load upload download id =
    (if (d_direction d =? "upload")%string then upload (d_id d) else download (d_id d)).
Proof.
  intros Hd. destruct (saved_transfer_details_Ok _ _ _ Hd) as (v & Hu & Hl & Hdo).
  destruct (details_of_Ok _ _ _ Hdo) as
    (h & s & Hh & Hs & _ & Hdir & Hst & Hdn & Htt & Htr & Hvp & Hex & _ & _ & Hel & Hrr & Hor & Hrc & Hpaths).
  destruct (summary_Ok _ _ _ Hs) as (_ & _ & Hin & Hle & _).
  split_and!; try done.
  - by rewrite Hdir.
  - by rewrite Hdn, Htt.
  - rewrite Hvp, Hex. destruct (all_items item_published v); by rewrite ?andb_false_r.
  - rewrite Hpaths. case_match eqn:Hc; [|done]. intros _. bool_prop. split.
    + rewrite Hdir. set_solver.
    + exists v. split_and!; [done..|]. intros p Hp. unfold verified_targets in Hp.
      by apply list_elem_of_filter in Hp as [? _].
  - intros u. rewrite Hrc. destruct (t_direction s =? "upload")%string eqn:Hup; [|done].
    bool_prop. rewrite Hdir, Hor.
    unfold receipt_of. destruct (origin_of v) as [o|]; [|done]. cbn.
    destruct (str_field "share_url" v); [|done]. cbn. destruct (url_parse o); [|done]. cbn.
    destruct (url_join _ _) as [url|]; [|done]. cbn.
    destruct (url_origin url =? o)%string eqn:Ho; [|done]. bool_prop. intros [= <-]. split; [done|]. by exists o, url.
  - rewrite Hel. intros Hc. bool_prop. by rewrite Hdir, Hst.
  - rewrite Hrr. intros Hc. bool_prop. by rewrite Hdir, Hst.
  - unfold resume, mbind, result_bind. rewrite Hu. cbn [ok_or]. rewrite Hl. cbn [ok_or].
    rewrite Hh. cbn [ok_or]. by rewrite Hs, Hdir.
Qed.

(** The list holds a transfer for each directory whose checkpoint can be read,
    whatever the others hold, in the order of the ids. *)
Theorem saved_transfers_complete entries :
  (∀ t, t ∈ saved_transfers entries ↔ ∃ e, e ∈ entries ∧ read_summary (fst e) (snd e) = Ok t) ∧
  (NoDup (fst <$> entries) → NoDup (t_id <$> saved_transfers entries)).
Proof.
  unfold saved_transfers. split.
  - intros t. rewrite merge_sort_Permutation, list_elem_of_omap.
    split; intros (e & He & Hr); exists e; (split; [exact He|]).
    + destruct (read_summary _ _) as [t'|]; cbn in Hr; congruence.
    + by rewrite Hr.
  - rewrite merge_sort_Permutation. induction entries as [|[id v] entries IH]; [constructor|].
    cbn [fmap list_fmap fst]. intros [Hn Hnd]%NoDup_cons. cbn [omap list_omap fst snd].
    destruct (read_summary id v) as [t|] eqn:Hr; cbn [res_opt]; [|by apply IH].
    cbn. constructor; [|by apply IH]. intros (t' & He & Ht')%list_elem_of_fmap.
    apply list_elem_of_omap in Ht' as ([id' v'] & Hin & Hr'). cbn [fst snd] in Hr'.
    assert (Hid : ∀ i w t, read_summary i w = Ok t → t_id t = i).
    { intros i w t0. unfold read_summary, mbind, result_bind. destruct w as [[w|]|]; [|done..]. cbn [ok_or].
      destruct (header_of w); [|done]. cbn [ok_or]. intros Hs. by apply summary_Ok in Hs as [-> _]. }
    destruct (read_summary id' v') as [t''|] eqn:Hr''; cbn [res_opt] in Hr'; simplify_eq.
    apply Hid in Hr, Hr''. apply Hn. apply list_elem_of_fmap. exists (id', v'). split; [|done]. cbn. congruence.
Qed.

(** What keeps an interrupted upload from being resumed: the details call the
    last two states of an upload not resumable, although the upload itself
    continues from them. *)
Lemma unfinished_not_resumable id v d :
  details_of id v = Ok d → d_state d ∈ ["finalizing"; "serving"] → d_can_resume d = false.
Proof.
  intros Hd Hs. destruct (details_of_Ok _ _ _ Hd) as (h & s & _ & _ & _ & _ & Hst & _ & _ & _ & _ & _ & Hr & _).
  rewrite Hr, <- Hst. apply bool_decide_eq_false. unfold resumable_states.
  repeat (apply elem_of_cons in Hs as [->|Hs]; [set_solver|]). by apply elem_of_nil in Hs.
Qed.

End properties.

(** ** A concrete home *)

Module Example_saved.

(** URLs of one host, with an origin and a path. *)
Definition parse_at (s : string) : option (string * string) :=
  rest ← strip_prefix "https://files.example" s; Some ("https://files.example", rest).

#[export] Instance identifiers : Identifiers :=
  {| uuid := λ s, if len s =? 4 then Some s else None;
     Url := string * string;
     url_parse := parse_at;
     url_scheme := λ _, "https";
     url_host := λ u, if is_empty (fst u) then None else Some "files.example";
     url_origin := fst;
     url_join := λ u s, if starts_with "/" s then Some (fst u, s) else parse_at s;
     url_string := λ u, fst u +:+ snd u |}.

Definition live (state : string) : json :=
  JObj [("version", JNum 1); ("id", JStr "job1"); ("direction", JStr "upload"); ("state", JStr state);
        ("done", JNum 3); ("total", JNum 4); ("instance", JStr "https://files.example/x");
        ("share_url", JStr "/abc"); ("driver", JStr "webrtc"); ("upload_token", JStr "t");
        ("items", JArr [])].

(** One of two files was selected, received and published. *)
Definition partial : json :=
  JObj [("version", JNum 1); ("id", JStr "job2"); ("direction", JStr "download");
        ("state", JStr "complete"); ("done", JNum 4); ("total", JNum 4);
        ("items", JArr [JObj [("published", JBool true); ("verified", JArr [JBool true])];
                        JObj [("published", JBool false); ("verified", JArr [JBool false])]])].

Definition load (id : string) : Loaded :=
  if (id =? "job1")%string then Ok (Some (live "sending"))
  else if (id =? "job2")%string then Ok (Some partial) else Ok None.

Example live_details :
  (λ d, (d_can_resume d, d_can_end_live d, d_origin d, d_receipt d)) <$> saved_transfer_details load "job1"
    = Ok (true, true, Some "https://files.example", Some "https://files.example/abc").
Proof. vm_compute. reflexivity. Qed.

(** A finished download of a selection is shown neither as resumable, nor as
    exported, nor as waiting to be exported. *)
Example partial_details :
  (λ d, (d_state d, d_can_resume d, d_exported d, d_verified_privately d))
    <$> saved_transfer_details load "job2" = Ok ("complete", false, false, false).
Proof. vm_compute. reflexivity. Qed.

Example listed_ids :
  t_id <$> saved_transfers [("job2", load "job2"); ("bad", Err "locked"); ("job1", load "job1")]
    = ["job1"; "job2"].
Proof. vm_compute. reflexivity. Qed.

Lemma details_sound_witness :
  ∃ d, saved_transfer_details load "job1" = Ok d ∧ d_can_end_live d = true ∧ d_transport d = "webrtc".
Proof.
  destruct (saved_transfer_details load "job1") as [d|] eqn:Hd; [|by vm_compute in Hd].
  exists d. split; [done|].
  pose proof (details_sound load "job1" d (λ _, Ok ()) (λ _, Err "download") Hd) as H.
  assert (He : d_can_end_live d = true) by (vm_compute in Hd; by injection Hd as <-).
  split; [exact He|]. apply H. exact He.
Defined.

End Example_saved.
