(* ===== verification/Application.v ===== *)
(** * The application runtime (crates/client-core/src/application.rs)

    The registry of jobs a process owns: live jobs with their worker and the
    saved transfers found after a restart.  Each registry operation is a
    function on the runtime; a call that polls a job takes what the job's worker
    does meanwhile, as [Managed.snapshot] does, and the answers of the checkpoint
    store are arguments. *)

From Stdlib Require Import String.
From S2P Require Import Prelude Control Managed Json Saved.
From S2P Require Upload.
From stdpp Require Import gmap.
Open Scope Z_scope.

(** ** Data *)

Inductive JobKind :=
| KindUpload | KindDownload | KindResume | KindService | KindNote | KindLiveNote | KindRevoke
| KindEndLive.

#[export] Instance JobKind_eq_dec : EqDecision JobKind.
Proof. solve_decision. Defined.

Inductive ExportState :=
| NotVerified
| AwaitingDestination (paths : list string)
| ExportFailed (paths : list string) (message : string)
| Exported (destination : string) (paths : list string).

Record ActionCapabilities := {
  can_pause : bool; can_resume_job : bool; can_end : bool; can_revoke : bool; can_discard : bool;
  can_export : bool; can_retry_export : bool }.

Inductive PromptResponse :=
| SecretResponse (value : string)
| DirectoryResponse (zip : bool)
| ConsentResponse (allowed : bool).

Inductive EntryJob :=
| LiveJob (job : ManagedJob)
| StoredJob (snapshot : JobSnapshot).

Record Entry := {
  kind : JobKind;
  origin : option string;
  job : EntryJob;
  export : ExportState;
  recovered_actions : option ActionCapabilities }.

Record ApplicationJobSnapshot := {
  app_kind : JobKind;
  app_origin : option string;
  app_job : JobSnapshot;
  app_export : ExportState;
  app_actions : ActionCapabilities }.

(** [Inner]: the ids are handed out by an atomic counter. *)
Record Runtime := { next_id : Z; jobs : gmap Z Entry }.

(** What the worker of a polled job does between the reads of one poll. *)
Record Meanwhile := { m1 : list WorkerStep; m2 : list WorkerStep; m3 : list WorkerStep;
                      m4 : list WorkerStep }.

Definition poll_job (w : Meanwhile) (m : ManagedJob) : ManagedJob :=
  Managed.snapshot (m1 w) (m2 w) (m3 w) (m4 w) m.

Definition new_runtime : Runtime := {| next_id := 1; jobs := ∅ |}.

(** Single-field updates. *)
Definition with_job (j : EntryJob) (e : Entry) : Entry :=
  {| kind := kind e; origin := origin e; job := j; export := export e;
     recovered_actions := recovered_actions e |}.
Definition with_export (x : ExportState) (e : Entry) : Entry :=
  {| kind := kind e; origin := origin e; job := job e; export := x;
     recovered_actions := recovered_actions e |}.
Definition put (id : Z) (e : Entry) (r : Runtime) : Runtime :=
  {| next_id := next_id r; jobs := <[id := e]> (jobs r) |}.
Definition remove (id : Z) (r : Runtime) : Runtime :=
  {| next_id := next_id r; jobs := delete id (jobs r) |}.

(** ** Jobs *)

(** [EntryJob::snapshot]: polling a live job changes it. *)
Definition entry_snapshot (w : Meanwhile) (j : EntryJob) : JobSnapshot * EntryJob :=
  match j with
  | LiveJob m => let m := poll_job w m in (snap m, LiveJob m)
  | StoredJob s => (s, j)
  end.

Definition entry_pause (j : EntryJob) : result string () * EntryJob :=
  match j with
  | LiveJob m => (Ok (), LiveJob (pause m))
  | StoredJob _ => (Err "pause is not available for a recovered transfer", j)
  end.

Definition is_terminal (s : JobState) : bool := bool_decide (s ∈ [JPaused; JComplete; JFailed]).

Definition capabilities (k : JobKind) (s : JobSnapshot) (x : ExportState) : ActionCapabilities :=
  {| can_pause := bool_decide (state s = JRunning);
     can_resume_job := bool_decide (state s = JPaused) && bool_decide (s_checkpoint_id s ≠ None);
     can_end := bool_decide (k = KindLiveNote) && bool_decide (state s = JRunning);
     can_revoke := bool_decide (k ∈ [KindNote; KindLiveNote])
       && bool_decide (state s ∈ [JRunning; JComplete]);
     can_discard := is_terminal (state s);
     can_export := match x with AwaitingDestination _ => true | _ => false end;
     can_retry_export := match x with ExportFailed _ _ => true | _ => false end |}.

(** The actions offered for an entry just polled. *)
Definition actions_of (e : Entry) (s : JobSnapshot) : ActionCapabilities :=
  default (capabilities (kind e) s (export e)) (recovered_actions e).

(** What [dispatch] and [discard] check: a row without recorded actions is polled. *)
Definition offered (w : Meanwhile) (e : Entry) : ActionCapabilities * Entry :=
  match recovered_actions e with
  | Some c => (c, e)
  | None => let '(s, j) := entry_snapshot w (job e) in
            (capabilities (kind e) s (export e), with_job j e)
  end.

(** ** Registry *)

Definition insert_entry (e : Entry) (r : Runtime) : Z * Runtime :=
  (next_id r, {| next_id := next_id r + 1; jobs := <[next_id r := e]> (jobs r) |}).

Definition insert (k : JobKind) (r : Runtime) : Z * Runtime :=
  insert_entry {| kind := k; origin := None; job := LiveJob (new spawn); export := NotVerified;
                  recovered_actions := None |} r.

Definition recovered_entry (d : SavedTransferDetails) : Entry :=
  {| kind := if (d_direction d =? "upload")%string then KindUpload else KindDownload;
     origin := d_origin d;
     job := StoredJob
       {| state := if d_can_resume d then JPaused
                   else if d_verified_privately d || d_exported d then JComplete else JFailed;
          s_checkpoint_id := Some (d_id d);
          s_progress :=
            {| phase := Connecting; generation := 0; name := ""; index := 0; files := 0;
               Control.total := Some (d_total d); done_bytes := d_done d; committed := 0; item_total := 0;
               item_done := 0; wire_bytes := 0 |};
          prompt := None; share_url := d_receipt d; results := d_verified_paths d; error := None;
          s_error_kind := None; peer_warning := None; secret_retry := None |};
     export := if d_verified_privately d then AwaitingDestination (d_verified_paths d)
               else NotVerified;
     recovered_actions := Some
       {| can_pause := false; can_resume_job := d_can_resume d; can_end := d_can_end_live d;
          can_revoke := d_can_revoke_remote d; can_discard := d_can_remove_local d;
          can_export := d_verified_privately d; can_retry_export := d_can_retry_save d |} |}.

Definition insert_recovered (d : SavedTransferDetails) (r : Runtime) : Z * Runtime :=
  insert_entry (recovered_entry d) r.

(** [restore_saved]: every saved transfer no row shows yet becomes a row.  The
    rows are polled for each candidate until one shows it; [w] gives what each
    worker does then. *)
Fixpoint shown (w : Z → Meanwhile) (ids : list Z) (saved : string) (r : Runtime)
    : bool * Runtime :=
  match ids with
  | [] => (false, r)
  | id :: ids =>
      match jobs r !! id with
      | None => shown w ids saved r
      | Some e =>
          let '(s, j) := entry_snapshot (w id) (job e) in
          let r := put id (with_job j e) r in
          if bool_decide (s_checkpoint_id s = Some saved) then (true, r) else shown w ids saved r
      end
  end.

Definition restore_one (w : Z → Meanwhile) (r : Runtime) (d : SavedTransferDetails) : Runtime :=
  let '(b, r) := shown w (fst <$> map_to_list (jobs r)) (d_id d) r in
  if b then r else snd (insert_recovered d r).

Definition restore_saved (w : nat → Z → Meanwhile) (l : list SavedTransferDetails) (r : Runtime)
    : Runtime :=
  foldl (λ r '(i, d), restore_one (w i) r d) r (zip (seq 0 (length l)) l).

(** The details of a saved transfer are what reading its checkpoint gives. *)
Definition start_resume (details : result string SavedTransferDetails)
    : result string JobKind :=
  d ← details;
  reject negb (d_can_resume d) with "saved transfer is not resumable";
  if (d_direction d =? "upload")%string then Ok KindUpload
  else if (d_direction d =? "download")%string then Ok KindDownload
  else Err "saved transfer has an invalid direction".

Definition resume (details : result string SavedTransferDetails) (r : Runtime)
    : result string Z * Runtime :=
  match start_resume details with
  | Ok k => let '(id, r) := insert k r in (Ok id, r)
  | Err e => (Err e, r)
  end.

Definition snapshot (w : Meanwhile) (id : Z) (r : Runtime)
    : option ApplicationJobSnapshot * Runtime :=
  match jobs r !! id with
  | None => (None, r)
  | Some e =>
      let '(s, j) := entry_snapshot w (job e) in
      let x := match export e with
               | NotVerified =>
                   if bool_decide (kind e = KindDownload) && bool_decide (state s = JComplete)
                   then AwaitingDestination (results s) else NotVerified
               | x => x
               end in
      let e := with_export x (with_job j e) in
      (Some {| app_kind := kind e; app_origin := origin e; app_job := s; app_export := x;
               app_actions := actions_of e s |}, put id e r)
  end.

Definition respond (id prompt : Z) (p : PromptResponse) (r : Runtime) : result string () * Runtime :=
  match jobs r !! id with
  | None => (Err "transfer is no longer available", r)
  | Some e =>
      match job e with
      | StoredJob _ => (Err "recovered transfers have no active prompt", r)
      | LiveJob m =>
          let '(res, m) := match p with
                           | SecretResponse value => Managed.respond prompt value m
                           | DirectoryResponse zip => respond_directory prompt zip m
                           | ConsentResponse allowed => respond_consent prompt allowed m
                           end in
          (res, put id (with_job (LiveJob m) e) r)
      end
  end.

(** [dispatch] with [JobAction::Pause] *)
Definition dispatch_pause (w : Meanwhile) (id : Z) (r : Runtime) : result string () * Runtime :=
  match jobs r !! id with
  | None => (Err "transfer is no longer available", r)
  | Some e =>
      let '(caps, e) := offered w e in
      if negb (can_pause caps) then (Err "pause is not available", put id e r)
      else let '(res, j) := entry_pause (job e) in (res, put id (with_job j e) r)
  end.

(** [dispatch] with [JobAction::Resume]: a new worker under the old id. *)
Definition dispatch_resume (w : Meanwhile) (details : string → result string SavedTransferDetails)
    (id : Z) (r : Runtime) : result string () * Runtime :=
  match snapshot w id r with
  | (None, r) => (Err "transfer is no longer available", r)
  | (Some s, r) =>
      if negb (can_resume_job (app_actions s)) then (Err "resume is not available", r)
      else match s_checkpoint_id (app_job s) with
      | None => (Err "capability requires checkpoint", r)
      | Some checkpoint =>
          match details checkpoint with
          | Err e => (Err e, r)
          | Ok d =>
              if negb (d_can_resume d) then (Err "saved transfer is not resumable", r)
              else (Ok (), put id
                {| kind := if (d_direction d =? "upload")%string then KindUpload else KindDownload;
                   origin := app_origin s; job := LiveJob (new spawn); export := app_export s;
                   recovered_actions := None |} r)
          end
      end
  end.

(** [discard]: the job is polled for its capability and again for its
    checkpoint, which the store then removes.  This operation, [dispatch_resume]
    and [commit_export] are one step each here; the code lets go of the registry
    while the store or the host works, so what another call does to the same entry
    in that time is not covered. *)
Definition discard (w w' : Meanwhile) (discard_transfer : string → result string ()) (id : Z)
    (r : Runtime) : result string () * Runtime :=
  match jobs r !! id with
  | None => (Err "transfer is no longer available", r)
  | Some e =>
      let '(caps, e) := offered w e in
      if negb (can_discard caps) then (Err "discard is not available", put id e r)
      else
        let '(s, j) := entry_snapshot w' (job e) in
        let r := put id (with_job j e) r in
        match s_checkpoint_id s with
        | Some checkpoint =>
            match discard_transfer checkpoint with
            | Err e => (Err e, r)
            | Ok _ => (Ok (), remove id r)
            end
        | None => (Ok (), remove id r)
        end
  end.

(** [commit_export]: [commit] is the host's own copy to the destination. *)
Definition commit_export (w : Meanwhile) (id : Z) (destination : string)
    (commit : list string → result string ()) (r : Runtime) : result string () * Runtime :=
  match snapshot w id r with
  | (None, r) => (Err "transfer is no longer available", r)
  | (Some s, r) =>
      match app_export s with
      | AwaitingDestination paths | ExportFailed paths _ =>
          match jobs r !! id with
          | None => (Err "transfer was discarded during export", r)
          | Some e =>
              match commit paths with
              | Ok _ => (Ok (), put id (with_export (Exported destination paths) e) r)
              | Err m => (Err m, put id (with_export (ExportFailed paths m) e) r)
              end
          end
      | _ => (Err "verified results are not awaiting export", r)
      end
  end.

Definition restore_export_state (id : Z) (x : ExportState) (r : Runtime)
    : result string () * Runtime :=
  match jobs r !! id with
  | None => (Err "transfer is no longer available", r)
  | Some e =>
      match job e with
      | LiveJob _ => (Err "export recovery applies only to detached transfers", r)
      | StoredJob _ => (Ok (), put id (with_export x e) r)
      end
  end.

(** ** Shutdown *)

Record ShutdownReport := { checkpointed : list Z; still_stopping : list Z }.

(** The first pass: pause every job that can be. *)
Fixpoint request_pause (w : Z → Meanwhile) (ids : list Z) (r : Runtime) : list Z * Runtime :=
  match ids with
  | [] => ([], r)
  | id :: ids =>
      let '(res, r) := dispatch_pause (w id) id r in
      let '(l, r) := request_pause w ids r in
      (if is_ok res then id :: l else l, r)
  end.

(** One turn of the loop: the jobs that have reached their checkpoint and those
    that have not stopped yet. *)
Fixpoint survey (w : Z → Meanwhile) (ids : list Z) (r : Runtime) : list Z * list Z * Runtime :=
  match ids with
  | [] => ([], [], r)
  | id :: ids =>
      let '(s, r) := snapshot (w id) id r in
      let '(done, pending, r) := survey w ids r in
      match state ∘ app_job <$> s with
      | Some JPaused => (id :: done, pending, r)
      | Some JRunning | Some JPausing => (done, id :: pending, r)
      | _ => (done, pending, r)
      end
  end.

(** The loop, turn by turn: whether the deadline has passed, and the workers'
    steps during the turn; [None] when the turns run out. *)
Fixpoint await_stop (requested : list Z) (turns : list (bool * (Z → Meanwhile))) (r : Runtime)
    : option ShutdownReport * Runtime :=
  match turns with
  | [] => (None, r)
  | (late, w) :: turns =>
      let '(done, pending, r) := survey w requested r in
      match pending with
      | [] => (Some {| checkpointed := done; still_stopping := [] |}, r)
      | _ => if late then (Some {| checkpointed := done; still_stopping := pending |}, r)
             else await_stop requested turns r
      end
  end.

Definition shutdown (w : Z → Meanwhile) (turns : list (bool * (Z → Meanwhile))) (r : Runtime)
    : option ShutdownReport * Runtime :=
  let '(requested, r) := request_pause w (fst <$> map_to_list (jobs r)) r in
  await_stop requested turns r.

(** ** Runs *)

Inductive Op :=
| OStart (k : JobKind)
| ORestore (w : nat → Z → Meanwhile) (l : list SavedTransferDetails)
| OResumeSaved (details : result string SavedTransferDetails)
| OWork (id : Z) (ws : list WorkerStep)
| OSnapshot (w : Meanwhile) (id : Z)
| ORespond (id prompt : Z) (p : PromptResponse)
| OPause (w : Meanwhile) (id : Z)
| OResume (w : Meanwhile) (details : string → result string SavedTransferDetails) (id : Z)
| ODiscard (w w' : Meanwhile) (discard_transfer : string → result string ()) (id : Z)
| OCommit (w : Meanwhile) (id : Z) (destination : string) (commit : list string → result string ())
| ORestoreExport (id : Z) (x : ExportState)
| OShutdown (w : Z → Meanwhile) (turns : list (bool * (Z → Meanwhile))).

(** A worker's steps between two calls. *)
Definition work_on (id : Z) (ws : list WorkerStep) (r : Runtime) : Runtime :=
  match jobs r !! id with
  | Some e => match job e with
              | LiveJob m => put id (with_job (LiveJob (interfere ws m)) e) r
              | StoredJob _ => r
              end
  | None => r
  end.

Definition step (r : Runtime) (op : Op) : Runtime :=
  match op with
  | OStart k => (insert k r).2
  | ORestore w l => restore_saved w l r
  | OResumeSaved d => (resume d r).2
  | OWork id ws => work_on id ws r
  | OSnapshot w id => (snapshot w id r).2
  | ORespond id prompt p => (respond id prompt p r).2
  | OPause w id => (dispatch_pause w id r).2
  | OResume w details id => (dispatch_resume w details id r).2
  | ODiscard w w' f id => (discard w w' f id r).2
  | OCommit w id destination commit => (commit_export w id destination commit r).2
  | ORestoreExport id x => (restore_export_state id x r).2
  | OShutdown w turns => (shutdown w turns r).2
  end.

Definition run (r : Runtime) (ops : list Op) : Runtime := foldl step r ops.

(** ** How entries evolve *)

(** The verified paths an export state holds. *)
Definition export_paths (x : ExportState) : option (list string) :=
  match x with
  | NotVerified => None
  | AwaitingDestination paths | ExportFailed paths _ | Exported _ paths => Some paths
  end.

Definition is_exported (x : ExportState) : bool :=
  match x with Exported _ _ => true | _ => false end.

(** Verified paths stay what they are, and an export that was committed is final. *)
Definition export_progress (x x' : ExportState) : Prop :=
  x' = x ∨ is_exported x = false ∧
    ∀ paths, export_paths x = Some paths → export_paths x' = Some paths.

Lemma export_progress_trans x y z : export_progress x y → export_progress y z → export_progress x z.
Proof.
  intros [->|[Hx Hp]]; [done|]. intros [->|[Hy Hq]]; right; auto.
Qed.

Definition wf (r : Runtime) : Prop := ∀ id e, jobs r !! id = Some e → id < next_id r.

(** No entry is lost, and the entries that stay only make progress. *)
Definition evolves (r r' : Runtime) : Prop :=
  wf r → wf r' ∧ next_id r ≤ next_id r' ∧
  ∀ id e, jobs r !! id = Some e →
    ∃ e', jobs r' !! id = Some e' ∧ export_progress (export e) (export e').

Lemma evolves_refl r : evolves r r.
Proof. intros Hwf. split; [done|]. split; [lia|]. intros id e He. exists e. split; [done|by left]. Qed.

Lemma evolves_trans r1 r2 r3 : evolves r1 r2 → evolves r2 r3 → evolves r1 r3.
Proof.
  intros H1 H2 Hwf. destruct (H1 Hwf) as (Hwf2 & Hn1 & He1), (H2 Hwf2) as (Hwf3 & Hn2 & He2).
  split; [done|]. split; [lia|]. intros id e He. destruct (He1 id e He) as (e2 & He' & Hp).
  destruct (He2 id e2 He') as (e3 & He3 & Hp'). exists e3. split; [done|].
  by eapply export_progress_trans.
Qed.

Lemma evolves_put id e e' r :
  jobs r !! id = Some e → export_progress (export e) (export e') → evolves r (put id e' r).
Proof.
  intros He Hp Hwf. split; [|split; [simpl; lia|]].
  - intros id' e2. simpl. destruct (decide (id' = id)) as [->|Hne].
    + intros _. by eapply Hwf.
    + rewrite lookup_insert_ne by done. apply Hwf.
  - intros id' e2 He2. simpl. destruct (decide (id' = id)) as [->|Hne].
    + rewrite lookup_insert, decide_True by done. exists e'. split; [done|]. by simplify_eq.
    + rewrite lookup_insert_ne by done. exists e2. split; [done|by left].
Qed.

Lemma evolves_insert e r : evolves r (insert_entry e r).2.
Proof.
  intros Hwf. split; [|split; [simpl; lia|]].
  - intros id' e2. simpl. destruct (decide (id' = next_id r)) as [->|Hne]; [lia|].
    rewrite lookup_insert_ne by done. intros He. apply Hwf in He. lia.
  - intros id' e2 He2. simpl. rewrite lookup_insert_ne.
    + exists e2. split; [done|by left].
    + apply Hwf in He2. lia.
Qed.

Lemma evolves_shown w ids saved r : evolves r (shown w ids saved r).2.
Proof.
  revert r. induction ids as [|id ids IH]; intros r; simpl; [apply evolves_refl|].
  destruct (jobs r !! id) as [e|] eqn:He; [|apply IH].
  destruct (entry_snapshot (w id) (job e)) as [s j].
  assert (evolves r (put id (with_job j e) r)) by (apply (evolves_put _ _ _ _ He); by left).
  case_match; [done|]. by eapply evolves_trans.
Qed.

Lemma evolves_restore w l r : evolves r (restore_saved w l r).
Proof.
  unfold restore_saved. generalize (zip (seq 0 (length l)) l). intros k. revert r.
  induction k as [|[i d] k IH]; intros r; [apply evolves_refl|]. simpl.
  eapply evolves_trans; [|apply IH]. unfold restore_one.
  pose proof (evolves_shown (w i) (map_to_list (jobs r)).*1 (d_id d) r) as H.
  destruct (shown _ _ _ _) as [b r']. simpl in H. destruct b; [done|].
  eapply evolves_trans; [done|]. apply evolves_insert.
Qed.

Lemma evolves_snapshot w id r : evolves r (snapshot w id r).2.
Proof.
  unfold snapshot. destruct (jobs r !! id) as [e|] eqn:He; [|apply evolves_refl].
  destruct (entry_snapshot w (job e)) as [s j]. simpl. apply (evolves_put _ _ _ _ He). simpl.
  destruct (export e); [|by left..]. case_match; [|by left]. by right.
Qed.

Lemma offered_export w e : export (offered w e).2 = export e.
Proof.
  unfold offered. destruct (recovered_actions e); [done|]. by destruct (entry_snapshot w (job e)).
Qed.

Lemma evolves_pause w id r : evolves r (dispatch_pause w id r).2.
Proof.
  unfold dispatch_pause. destruct (jobs r !! id) as [e|] eqn:He; [|apply evolves_refl].
  pose proof (offered_export w e) as Hx. destruct (offered w e) as [caps e']. simpl in Hx.
  case_match; [|destruct (entry_pause _)]; simpl; apply (evolves_put _ _ _ _ He); left; exact Hx.
Qed.

Lemma evolves_survey w ids r : evolves r (survey w ids r).2.
Proof.
  revert r. induction ids as [|id ids IH]; intros r; simpl; [apply evolves_refl|].
  pose proof (evolves_snapshot (w id) id r) as H1.
  destruct (snapshot (w id) id r) as [s r1]. specialize (IH r1).
  destruct (survey w ids r1) as [[d p] r2]. simpl in *.
  eapply evolves_trans; [exact H1|]. destruct (_ <$> s) as [[]|]; exact IH.
Qed.

Lemma evolves_await l turns r : evolves r (await_stop l turns r).2.
Proof.
  revert r. induction turns as [|[late w] turns IH]; intros r; simpl; [apply evolves_refl|].
  pose proof (evolves_survey w l r) as H1. destruct (survey w l r) as [[d p] r1]. simpl in H1.
  destruct p; [done|]. destruct late; [done|]. eapply evolves_trans; [exact H1|apply IH].
Qed.

Lemma evolves_request w ids r : evolves r (request_pause w ids r).2.
Proof.
  revert r. induction ids as [|id ids IH]; intros r; simpl; [apply evolves_refl|].
  pose proof (evolves_pause (w id) id r) as H1.
  destruct (dispatch_pause (w id) id r) as [res r1]. specialize (IH r1).
  destruct (request_pause w ids r1) as [l r2]. simpl in *. by eapply evolves_trans.
Qed.

Lemma evolves_shutdown w turns r : evolves r (shutdown w turns r).2.
Proof.
  unfold shutdown. pose proof (evolves_request w (map_to_list (jobs r)).*1 r) as H1.
  destruct (request_pause _ _ _) as [l r1]. simpl in H1.
  eapply evolves_trans; [exact H1|apply evolves_await].
Qed.

Lemma evolves_commit w id d commit r : evolves r (commit_export w id d commit r).2.
Proof.
  unfold commit_export. pose proof (evolves_snapshot w id r) as H1.
  assert (Hs : ∀ s r1, snapshot w id r = (Some s, r1) →
    ∃ e, jobs r1 !! id = Some e ∧ export e = app_export s).
  { unfold snapshot. intros s r1. destruct (jobs r !! id) as [e|]; [|done].
    destruct (entry_snapshot w (job e)). intros [= <- <-]. simpl.
    rewrite lookup_insert, decide_True by done. eexists. split; [done|]. done. }
  destruct (snapshot w id r) as [[s|] r1]; [|done]. destruct (Hs s r1 eq_refl) as (e & He & Hx).
  simpl in H1. destruct (app_export s) as [|paths|paths m|] eqn:Ha; [done| | |done]; rewrite He;
    destruct (commit paths); simpl; (eapply evolves_trans; [exact H1|]);
    apply (evolves_put _ _ _ _ He); rewrite Hx; by right.
Qed.

(** The operations that may drop an entry or replace its export. *)
Definition touches (op : Op) : option Z :=
  match op with
  | ODiscard _ _ _ id | ORestoreExport id _ => Some id
  | _ => None
  end.

Lemma evolves_step op r : touches op = None → evolves r (step r op).
Proof.
  destruct op; simpl; intros Hk; try done.
  - apply evolves_insert.
  - apply evolves_restore.
  - unfold resume. destruct (start_resume details); [apply evolves_insert|apply evolves_refl].
  - unfold work_on. destruct (jobs r !! id) as [e|] eqn:He; [|apply evolves_refl].
    case_match; [|apply evolves_refl]. apply (evolves_put _ _ _ _ He). by left.
  - apply evolves_snapshot.
  - unfold respond. destruct (jobs r !! id) as [e|] eqn:He; [|apply evolves_refl].
    destruct (job e) as [m|]; [|apply evolves_refl].
    destruct p; [destruct (Managed.respond _ _ _)|destruct (respond_directory _ _ _)
                |destruct (respond_consent _ _ _)]; apply (evolves_put _ _ _ _ He); by left.
  - apply evolves_pause.
  - unfold dispatch_resume. pose proof (evolves_snapshot w id r) as H1.
    unfold snapshot in *. destruct (jobs r !! id) as [e|] eqn:He; [|exact H1].
    destruct (entry_snapshot w (job e)) as [s j]. simpl in *.
    set (e' := with_export _ (with_job j e)) in *. set (r1 := put id e' r) in *.
    case_match; [done|]. case_match; [|done]. case_match; [|done]. case_match; [done|].
    eapply evolves_trans; [exact H1|]. apply (evolves_put _ e').
    + simpl. by rewrite lookup_insert, decide_True.
    + by left.
  - apply evolves_commit.
  - apply evolves_shutdown.
Qed.

(** ** Ownership *)

Section discard.
  Context (w w' : Meanwhile) (f : string → result string ()).

Lemma discard_other id id' r : id ≠ id' → jobs (discard w w' f id' r).2 !! id = jobs r !! id.
Proof.
  intros Hne. unfold discard. destruct (jobs r !! id') as [e|]; [|done].
  destruct (offered w e) as [caps e']. case_match; simpl; [by rewrite lookup_insert_ne|].
  destruct (entry_snapshot w' (job e')) as [s j].
  destruct (s_checkpoint_id s); [destruct (f _)|]; simpl; rewrite ?lookup_delete_ne by done;
    by rewrite lookup_insert_ne.
Qed.

(** An entry a discard removes could be discarded, and its checkpoint is removed
    with it. *)
Definition discarded (e : Entry) : Prop :=
  can_discard (offered w e).1 = true ∧
  ∀ checkpoint, s_checkpoint_id (entry_snapshot w' (job (offered w e).2)).1 = Some checkpoint →
    f checkpoint = Ok ().

Lemma discard_removes id r e :
  jobs r !! id = Some e → jobs (discard w w' f id r).2 !! id = None →
  (discard w w' f id r).1 = Ok () ∧ discarded e.
Proof.
  unfold discard, discarded. intros ->. destruct (offered w e) as [caps e']. simpl.
  destruct (can_discard caps); simpl; [|by rewrite lookup_insert, decide_True].
  destruct (entry_snapshot w' (job e')) as [s j]. simpl.
  destruct (s_checkpoint_id s) as [c|]; [|by intros].
  destruct (f c) as [[]|] eqn:Hf; simpl; [|by rewrite lookup_insert, decide_True].
  intros _. split; [done|]. split; [done|]. by intros ? [= <-].
Qed.

Lemma discard_wf id r :
  wf r → wf (discard w w' f id r).2 ∧ next_id r ≤ next_id (discard w w' f id r).2.
Proof.
  intros Hwf. unfold discard. destruct (jobs r !! id) as [e|] eqn:He; [|done].
  destruct (offered w e) as [caps e'].
  assert (Hp : ∀ e2, wf (put id e2 r)).
  { intros e2 id2 e3. simpl. rewrite lookup_insert_Some. intros [[<- _]|[_ ?]]; by eapply Hwf. }
  case_match; simpl; [split; [apply Hp|done]|]. destruct (entry_snapshot w' (job e')) as [s j].
  assert (Hr : wf (remove id (put id (with_job j e') r))).
  { intros id2 e3. simpl. rewrite lookup_delete_Some. intros [_ ?]. by apply (Hp (with_job j e') id2 e3). }
  destruct (s_checkpoint_id s); [destruct (f _)|]; split; simpl; auto; lia.
Qed.

End discard.

Lemma restore_export_wf id x r :
  wf r → wf (restore_export_state id x r).2 ∧
  next_id r ≤ next_id (restore_export_state id x r).2.
Proof.
  intros Hwf. unfold restore_export_state. destruct (jobs r !! id) as [e|] eqn:He; [|done].
  destruct (job e); [done|]. split; [|done]. intros id2 e2. simpl. rewrite lookup_insert_Some.
  intros [[<- _]|[_ ?]]; by eapply Hwf.
Qed.

Lemma registry_step_wf op r : wf r → wf (step r op) ∧ next_id r ≤ next_id (step r op).
Proof.
  intros Hwf. destruct (touches op) eqn:Ht.
  - destruct op; try done; [by apply discard_wf|by apply restore_export_wf].
  - destruct (evolves_step op r Ht Hwf) as (? & ? & _). by split.
Qed.

Lemma registry_run_wf ops r : wf r → wf (run r ops) ∧ next_id r ≤ next_id (run r ops).
Proof.
  revert r. induction ops as [|op ops IH]; intros r Hwf; [done|].
  destruct (registry_step_wf op r Hwf) as [H1 H2], (IH _ H1) as [H3 H4]. split; [done|].
  simpl in *. unfold run in *. simpl. lia.
Qed.

Lemma new_runtime_wf : wf new_runtime.
Proof. by intros id e. Qed.

(** An operation on another entry, or none that touches exports, only lets an entry
    progress. *)
Lemma step_entry op r id e :
  wf r → jobs r !! id = Some e → touches op ≠ Some id →
  ∃ e', jobs (step r op) !! id = Some e' ∧ export_progress (export e) (export e').
Proof.
  intros Hwf He Ht. destruct (touches op) as [id'|] eqn:Hto.
  - exists e. split; [|by left].
    assert (id' ≠ id) by congruence. destruct op; simplify_eq/=.
    + by rewrite discard_other.
    + unfold restore_export_state. destruct (jobs r !! id') as [e'|]; [|done].
      destruct (job e'); [done|]. simpl. by rewrite lookup_insert_ne.
  - destruct (evolves_step op r Hto Hwf) as (_ & _ & H). by apply H.
Qed.

Lemma step_removes op r id e :
  wf r → jobs r !! id = Some e → jobs (step r op) !! id = None →
  ∃ w w' f, op = ODiscard w w' f id ∧ (discard w w' f id r).1 = Ok () ∧ discarded w w' f e.
Proof.
  intros Hwf He Hn. destruct (decide (touches op = Some id)) as [Ht|Ht].
  - destruct op; simplify_eq/=.
    + eexists _, _, _. split; [done|]. by apply discard_removes.
    + unfold restore_export_state in Hn. rewrite He in Hn.
      destruct (job e); simpl in Hn; [congruence|]. by rewrite lookup_insert, decide_True in Hn.
  - destruct (step_entry op r id e Hwf He Ht) as (e' & He' & _). congruence.
Qed.

(** C23: a job is owned by the runtime until it is discarded: whatever is started,
    restored, polled, answered, paused, resumed, exported or shut down, an entry
    only disappears at a successful [discard] of that very id, made when the
    entry could be discarded (its job was in a terminal state, or the saved
    transfer could be removed), and whose checkpoint, if it has one, the
    checkpoint store removed successfully.  The id is not given out again
    afterwards. *)
Theorem ownership r ops id e :
  wf r → jobs r !! id = Some e → jobs (run r ops) !! id = None →
  id < next_id (run r ops) ∧
  ∃ l1 l2 w w' f e', ops = l1 ++ ODiscard w w' f id :: l2 ∧
    jobs (run r l1) !! id = Some e' ∧
    (discard w w' f id (run r l1)).1 = Ok () ∧ discarded w w' f e'.
Proof.
  intros Hwf He Hn. split.
  { destruct (registry_run_wf ops r Hwf) as [_ ?]. specialize (Hwf id e He). lia. }
  revert r e Hwf He Hn. induction ops as [|op ops IH]; intros r e Hwf He Hn; [by simplify_eq/=|].
  destruct (registry_step_wf op r Hwf) as [Hwf' _].
  destruct (jobs (step r op) !! id) as [e1|] eqn:H1.
  - destruct (IH _ _ Hwf' H1 Hn) as (l1 & l2 & w & w' & f & e' & -> & H).
    by exists (op :: l1), l2, w, w', f, e'.
  - destruct (step_removes op r id e Hwf He H1) as (w & w' & f & -> & H).
    by exists [], ops, w, w', f, e.
Qed.

(** ** Exports *)

(** [snapshot] records the export it shows. *)
Lemma snapshot_entry w id r s r' :
  snapshot w id r = (Some s, r') →
  ∃ e, jobs r' !! id = Some e ∧ export e = app_export s.
Proof.
  unfold snapshot. destruct (jobs r !! id) as [e|]; [|done]. destruct (entry_snapshot w (job e)).
  intros [= <- <-]. simpl. rewrite lookup_insert, decide_True by done. by eexists.
Qed.

Lemma commit_ok w id d commit r r' :
  commit_export w id d commit r = (Ok (), r') →
  ∃ e paths, jobs r' !! id = Some e ∧ export e = Exported d paths ∧ commit paths = Ok ().
Proof.
  unfold commit_export. destruct (snapshot w id r) as [[s|] r1] eqn:Hs; [|done].
  destruct (snapshot_entry _ _ _ _ _ Hs) as (e & He & Hx).
  destruct (app_export s) as [|paths|paths m|]; [done| | |done]; rewrite He;
    destruct (commit paths) as [[]|] eqn:Hc; intros [= <-]; simpl;
    rewrite lookup_insert, decide_True by done; by eexists _, paths.
Qed.

Lemma commit_exported w id d commit r e d' paths :
  jobs r !! id = Some e → export e = Exported d' paths →
  (commit_export w id d commit r).1 = Err "verified results are not awaiting export"%string.
Proof.
  intros He Hx. unfold commit_export, snapshot. rewrite He.
  destruct (entry_snapshot w (job e)). simpl. by rewrite Hx.
Qed.

Lemma run_entry ops r id e :
  wf r → jobs r !! id = Some e → Forall (λ op, touches op ≠ Some id) ops →
  ∃ e', jobs (run r ops) !! id = Some e' ∧ export_progress (export e) (export e').
Proof.
  revert r e. induction ops as [|op ops IH]; intros r e Hwf He Hf.
  { exists e. split; [done|by left]. }
  inversion_clear Hf as [|? ? Ht Hf']. destruct (step_entry op r id e Hwf He Ht) as (e1 & H1 & Hp1).
  destruct (registry_step_wf op r Hwf) as [Hwf' _].
  destruct (IH _ _ Hwf' H1 Hf') as (e2 & H2 & Hp2). exists e2. split; [done|].
  by eapply export_progress_trans.
Qed.

(** The verified results of a download are exported once, and never lost
    before that: whatever happens to a job other than its discard or a restored
    export state, the paths it has verified stay the ones it shows; once
    [commit_export] has returned, its host callback accepted exactly those paths,
    the entry stays exported to that destination, and every later
    [commit_export] is refused without calling back. *)
Theorem export_final r id ops :
  wf r → Forall (λ op, touches op ≠ Some id) ops →
  (∀ e paths, jobs r !! id = Some e → export_paths (export e) = Some paths →
     ∃ e', jobs (run r ops) !! id = Some e' ∧ export_paths (export e') = Some paths) ∧
  (∀ w d commit r0, commit_export w id d commit r0 = (Ok (), r) →
     ∃ e paths, jobs (run r ops) !! id = Some e ∧ export e = Exported d paths ∧
       commit paths = Ok () ∧
       ∀ w' d' commit', (commit_export w' id d' commit' (run r ops)).1
         = Err "verified results are not awaiting export"%string).
Proof.
  intros Hwf Hf. split.
  - intros e paths He Hp. destruct (run_entry ops r id e Hwf He Hf) as (e' & He' & [Hx|[_ Hx]]);
      exists e'; (split; [done|]); [by rewrite Hx|by apply Hx].
  - intros w d commit r0 Hc. apply commit_ok in Hc as (e & paths & He & Hx & Hc).
    destruct (run_entry ops r id e Hwf He Hf) as (e' & He' & [Hx'|[Hn _]]); [|by rewrite Hx in Hn].
    rewrite Hx in Hx'. exists e', paths. split_and!; [done..|].
    intros w' d' commit'. by eapply commit_exported.
Qed.

(** ** Shutdown *)

(** The state an entry showed last. *)
Definition seen (r : Runtime) (id : Z) : option JobState :=
  e ← jobs r !! id;
  Some match job e with LiveJob m => state (snap m) | StoredJob s => state s end.

Lemma snapshot_seen w id r s r' :
  snapshot w id r = (s, r') → seen r' id = state ∘ app_job <$> s.
Proof.
  unfold snapshot, seen. destruct (jobs r !! id) as [e|] eqn:He; [|intros [= <- <-]; by rewrite He].
  destruct (job e) as [m|s0]; intros [= <- <-]; simpl; by rewrite lookup_insert, decide_True.
Qed.

Lemma snapshot_other w id id' r :
  id ≠ id' → jobs (snapshot w id r).2 !! id' = jobs r !! id'.
Proof.
  intros Hne. unfold snapshot. destruct (jobs r !! id) as [e|]; [|done].
  destruct (entry_snapshot w (job e)). simpl. by rewrite lookup_insert_ne.
Qed.

Lemma survey_other w ids id r : id ∉ ids → jobs (survey w ids r).2 !! id = jobs r !! id.
Proof.
  revert r. induction ids as [|i ids IH]; intros r Hn; [done|].
  apply not_elem_of_cons in Hn as [Hne Hn]. simpl.
  pose proof (snapshot_other (w i) i id r) as H1. destruct (snapshot (w i) i r) as [s r1].
  specialize (IH r1 Hn). destruct (survey w ids r1) as [[d p] r2]. simpl in *.
  rewrite <- H1 by done. destruct (_ <$> s) as [[]|]; exact IH.
Qed.

(** One turn classifies every job by the state it is left in. *)
Lemma survey_spec w ids r d p r' :
  NoDup ids → survey w ids r = (d, p, r') →
  ∀ id, (id ∈ d ↔ id ∈ ids ∧ seen r' id = Some JPaused) ∧
        (id ∈ p ↔ id ∈ ids ∧ (seen r' id = Some JRunning ∨ seen r' id = Some JPausing)).
Proof.
  intros Hnd. revert r d p r'. induction Hnd as [|i ids Hi Hnd IH]; intros r d p r' Hs id.
  { injection Hs as <- <- <-. set_solver. }
  simpl in Hs. destruct (snapshot (w i) i r) as [s r1] eqn:H1.
  apply snapshot_seen in H1. pose proof (survey_other w ids i r1 Hi) as Ho.
  destruct (survey w ids r1) as [[d2 p2] r2] eqn:H2. simpl in Ho.
  destruct (IH r1 d2 p2 r2 H2 id) as [Hd Hp].
  assert (Hsi : seen r2 i = state ∘ app_job <$> s) by (unfold seen; rewrite Ho; exact H1).
  assert (Hr : r' = r2) by (destruct (_ <$> s) as [[]|]; by injection Hs).
  subst r'. rewrite !elem_of_cons.
  destruct (decide (id = i)) as [->|Hne].
  - assert (i ∉ d2 ∧ i ∉ p2) as [Hd2 Hp2] by (rewrite Hd, Hp; tauto). rewrite Hsi.
    destruct (_ <$> s) as [[]|]; injection Hs as <- <-; set_solver.
  - destruct (_ <$> s) as [[]|]; injection Hs as <- <-; rewrite ?elem_of_cons; tauto.
Qed.

Lemma pause_other w id id' r :
  id ≠ id' → jobs (dispatch_pause w id r).2 !! id' = jobs r !! id'.
Proof.
  intros Hne. unfold dispatch_pause. destruct (jobs r !! id) as [e|]; [|done].
  destruct (offered w e) as [c e']. case_match; [|destruct (entry_pause _)]; simpl;
    by rewrite lookup_insert_ne.
Qed.

Definition pausable (w : Meanwhile) (id : Z) (r : Runtime) : bool :=
  is_ok (dispatch_pause w id r).1.

Lemma pausable_agree w id r r' :
  jobs r !! id = jobs r' !! id → pausable w id r = pausable w id r'.
Proof.
  unfold pausable, dispatch_pause. intros ->. destruct (jobs r' !! id) as [e|]; [|done].
  destruct (offered w e) as [c e']. case_match; [done|]. by destruct (entry_pause _).
Qed.

Lemma filter_pausable_agree w (ids : list Z) r r' :
  (∀ id, id ∈ ids → jobs r !! id = jobs r' !! id) →
  filter (λ id, pausable (w id) id r = true) ids = filter (λ id, pausable (w id) id r' = true) ids.
Proof.
  induction ids as [|i ids IH]; intros H; [done|]. rewrite !filter_cons.
  rewrite (pausable_agree _ _ r r') by (apply H; set_solver).
  rewrite IH; [done|]. intros id Hid. apply H. set_solver.
Qed.

Lemma request_pause_spec w ids r l r' :
  NoDup ids → request_pause w ids r = (l, r') →
  l = filter (λ id, pausable (w id) id r = true) ids.
Proof.
  intros Hnd. revert r l r'. induction Hnd as [|i ids Hi Hnd IH]; intros r l r' Hr; [by injection Hr|].
  simpl in Hr. pose proof (λ id, pause_other (w i) i id r) as Ho.
  assert (Hp : pausable (w i) i r = is_ok (dispatch_pause (w i) i r).1) by done.
  rewrite filter_cons. destruct (dispatch_pause (w i) i r) as [res r1].
  destruct (request_pause w ids r1) as [l1 r2] eqn:H2. apply IH in H2.
  assert (Hl : l1 = filter (λ id, pausable (w id) id r = true) ids).
  { rewrite H2. apply filter_pausable_agree. intros id Hid. apply Ho. by intros ->. }
  injection Hr as <- _. rewrite Hl, Hp. by destruct res.
Qed.

Lemma await_stop_spec ids turns r :
  NoDup ids → existsb fst turns = true →
  ∃ rep r', await_stop ids turns r = (Some rep, r') ∧
  ∀ id, (id ∈ checkpointed rep ↔ id ∈ ids ∧ seen r' id = Some JPaused) ∧
        (id ∈ still_stopping rep ↔
           id ∈ ids ∧ (seen r' id = Some JRunning ∨ seen r' id = Some JPausing)).
Proof.
  intros Hnd. revert r. induction turns as [|[late w] turns IH]; intros r Hl; [done|]. simpl in *.
  destruct (survey w ids r) as [[d p] r1] eqn:Hs. pose proof (survey_spec _ _ _ _ _ _ Hnd Hs) as H1.
  destruct p as [|i p].
  - eexists _, _. split; [done|]. exact H1.
  - destruct late; [|by apply IH]. eexists _, _. split; [done|]. exact H1.
Qed.

(** C24: explicit quit returns once its deadline has passed at the latest, whatever
    the workers do, and its report is exact: the jobs reported as checkpointed
    are those it asked to pause and found paused, the ones reported as still
    stopping are those it asked and found running or pausing when it gave up, and
    every job that could be paused when it was called is in one of the two lists
    unless it was found complete or failed.  Nothing is dropped from the registry. *)
Theorem shutdown_report w turns r :
  wf r → existsb fst turns = true →
  ∃ rep r', shutdown w turns r = (Some rep, r') ∧
  (∀ id, id ∈ checkpointed rep → seen r' id = Some JPaused) ∧
  (∀ id, id ∈ still_stopping rep → seen r' id = Some JRunning ∨ seen r' id = Some JPausing) ∧
  (∀ id, id ∈ checkpointed rep ++ still_stopping rep → pausable (w id) id r = true) ∧
  ∀ id, is_Some (jobs r !! id) →
    is_Some (jobs r' !! id) ∧
    (pausable (w id) id r = true →
     id ∈ checkpointed rep ∨ id ∈ still_stopping rep ∨
     seen r' id = Some JComplete ∨ seen r' id = Some JFailed).
Proof.
  intros Hwf Hl. pose proof (evolves_shutdown w turns r Hwf) as (_ & _ & Hev).
  unfold shutdown in *. set (ids := (map_to_list (jobs r)).*1) in *.
  assert (Hnd : NoDup ids) by apply NoDup_fst_map_to_list.
  destruct (request_pause w ids r) as [l r1] eqn:Hr.
  pose proof (request_pause_spec _ _ _ _ _ Hnd Hr) as ->.
  assert (Hnd' : NoDup (filter (λ id, pausable (w id) id r = true) ids)) by by apply NoDup_filter.
  destruct (await_stop_spec _ turns r1 Hnd' Hl) as (rep & r' & Hs & Hrep).
  rewrite Hs in Hev. exists rep, r'. split; [exact Hs|]. simpl in Hev.
  split_and!.
  - intros id Hid. apply Hrep in Hid. tauto.
  - intros id Hid. apply Hrep in Hid. tauto.
  - intros id [Hid|Hid]%elem_of_app; apply Hrep in Hid as [Hid _];
      apply list_elem_of_filter in Hid; tauto.
  - intros id [e He]. destruct (Hev id e He) as (e' & He' & _). split; [by eexists|].
    intros Hp. destruct (Hrep id) as [Hc Ht].
    assert (Hin : id ∈ filter (λ id, pausable (w id) id r = true) ids).
    { apply list_elem_of_filter. split; [done|]. subst ids. apply list_elem_of_fmap.
      exists (id, e). split; [done|]. by apply elem_of_map_to_list. }
    rewrite Hc, Ht. unfold seen. rewrite He'. simpl.
    destruct (match job e' with LiveJob m => _ | StoredJob s => _ end); tauto.
Qed.

(** ** A concrete runtime *)

Module Example_runtime.

Definition quiet : Meanwhile := {| m1 := []; m2 := []; m3 := []; m4 := [] |}.

(** A download whose verified results are saved but not exported yet. *)
Definition saved : SavedTransferDetails :=
  {| d_id := "t1"; d_direction := "download"; d_kind := "files"; d_transport := "http";
     d_state := "receiving"; d_done := 4; d_total := 4; d_verified_privately := true;
     d_exported := false; d_expires_at := None; d_can_resume := false;
     d_can_retry_save := true; d_can_end_live := false; d_can_revoke_remote := false;
     d_can_remove_local := true; d_origin := None; d_receipt := None;
     d_verified_paths := ["a.txt"%string] |}.

Definition r0 : Runtime := run new_runtime [OStart KindUpload; ORestore (λ _ _, quiet) [saved; saved]].

Definition copy (paths : list string) : result string () := Ok ().
Definition exported : Runtime := (commit_export quiet 2 "/out" copy r0).2.

(** The second copy of the saved transfer is not shown twice. *)
Example restored_once : fst <$> map_to_list (jobs r0) = [2; 1].
Proof. vm_compute. reflexivity. Qed.

(** After the export the recovered row still offers it, although it is refused. *)
Example stale_export_offer :
  (can_export ∘ app_actions <$> (snapshot quiet 2 exported).1) = Some true ∧
  (app_export <$> (snapshot quiet 2 exported).1) = Some (Exported "/out" ["a.txt"%string]) ∧
  (commit_export quiet 2 "/elsewhere" copy exported).1
    = Err "verified results are not awaiting export"%string.
Proof. vm_compute. repeat split. Qed.

End Example_runtime.

(** Recorded actions never change: a recovered row that offered an export goes on
    offering it after the export has succeeded, when it can only be refused. *)
Theorem recovered_export_stays_offered w id d commit r r' e c :
  jobs r !! id = Some e → recovered_actions e = Some c → can_export c = true →
  commit_export w id d commit r = (Ok (), r') →
  ∀ w', can_export ∘ app_actions <$> (snapshot w' id r').1 = Some true ∧
    ∀ d' commit', (commit_export w' id d' commit' r').1
      = Err "verified results are not awaiting export"%string.
Proof.
  intros He Hr Hc Hok w'. destruct (commit_ok _ _ _ _ _ _ Hok) as (e' & paths & He' & Hx & _).
  split; [|intros; by apply (commit_exported _ _ _ _ _ _ _ _ He' Hx)].
  assert (Hr' : recovered_actions e' = Some c).
  { unfold commit_export, snapshot in Hok. rewrite He in Hok.
    destruct (entry_snapshot w (job e)) as [s j]. simpl in Hok.
    case_match; [done| | |done]; rewrite lookup_insert, decide_True in Hok by done;
      (destruct (commit _) as [[]|] in Hok; [injection Hok as <-|discriminate]); simpl in He';
      rewrite lookup_insert, decide_True in He' by done; by injection He' as <-. }
  unfold snapshot. rewrite He'. destruct (entry_snapshot w' (job e')) as [s j]. simpl.
  unfold actions_of. simpl. rewrite Hr'. simpl. by rewrite Hc.
Qed.

(** An upload interrupted while it was finalized, or a live share that was being
    served, is restored as a failed job that cannot be resumed, although both are
    states an upload continues from. *)
Theorem unfinished_upload_restored_failed `{Identifiers} id v d :
  details_of id v = Ok d → d_direction d = "upload"%string →
  d_state d ∈ ["finalizing"; "serving"]%string →
  d_state d ∈ Upload.job_states ∧
  match job (recovered_entry d) with
  | StoredJob s => state s = JFailed ∧ s_checkpoint_id s = Some (d_id d)
  | LiveJob _ => False
  end ∧
  start_resume (Ok d) = Err "saved transfer is not resumable"%string.
Proof.
  intros Hd Hdir Hs. pose proof (unfinished_not_resumable _ _ _ Hd Hs) as Hr.
  destruct (details_of_Ok _ _ _ Hd) as
    (h & s & _ & _ & _ & Hdd & _ & _ & _ & _ & Hvp & Hex & _).
  rewrite <- Hdd, Hdir in Hvp, Hex. cbn in Hvp, Hex.
  unfold start_resume. cbn [mbind result_bind]. rewrite Hr. cbn. rewrite Hr, Hvp, Hex.
  split_and!; try done. unfold Upload.job_states. set_solver.
Qed.

(** ** Witnesses *)

Import Example_runtime.

Definition discarding : list Op :=
  [OStart KindDownload; ODiscard quiet quiet (λ _, Ok ()) 2].

Lemma ownership_witness :
  2 < next_id (run r0 discarding) ∧
  ∃ l1 l2 w w' f e', discarding = l1 ++ ODiscard w w' f 2 :: l2 ∧
    jobs (run r0 l1) !! 2 = Some e' ∧
    (discard w w' f 2 (run r0 l1)).1 = Ok () ∧ discarded w w' f e'.
Proof.
  apply (ownership r0 discarding 2 (recovered_entry saved)).
  - apply registry_run_wf, new_runtime_wf.
  - vm_compute. reflexivity.
  - vm_compute. reflexivity.
Defined.

Lemma export_final_witness :
  ∃ e paths, jobs (run exported [ODiscard quiet quiet (λ _, Ok ()) 1; OSnapshot quiet 2]) !! 2 = Some e ∧
    export e = Exported "/out" paths ∧ copy paths = Ok ().
Proof.
  assert (Hwf : wf r0) by apply registry_run_wf, new_runtime_wf.
  destruct (export_final exported 2 [ODiscard quiet quiet (λ _, Ok ()) 1; OSnapshot quiet 2])
    as [_ H].
  - apply (evolves_commit quiet 2 "/out" copy r0 Hwf).
  - repeat constructor; vm_compute; discriminate.
  - destruct (H quiet "/out"%string copy r0) as (e & paths & He & Hx & Hc & _).
    + vm_compute. reflexivity.
    + by exists e, paths.
Defined.

Lemma shutdown_report_witness :
  ∃ rep r', shutdown (λ _, quiet) [(false, λ _, quiet); (true, λ _, quiet)] r0 = (Some rep, r') ∧
    still_stopping rep = [1].
Proof.
  destruct (shutdown_report (λ _, quiet) [(false, λ _, quiet); (true, λ _, quiet)] r0)
    as (rep & r' & Hs & _).
  - apply registry_run_wf, new_runtime_wf.
  - reflexivity.
  - exists rep, r'. split; [exact Hs|]. vm_compute in Hs. by injection Hs as <- _.
Defined.
