(* ===== verification/Selection.v ===== *)
(** * Selecting the files to send (crates/transfer-native/src/uploads.rs)

    What the user picked becomes a flat list of files with names every platform
    can store, or one ZIP archive that keeps the tree.  A selected path is the
    tree the file system shows there during the call; the ZIP writer is the list
    of entries it is given. *)

From Stdlib Require Import Ascii String.
From stdpp Require Import sorting.
From S2P Require Import Prelude Str Frame Monad Http.
From S2P Require Manifest.
Open Scope Z_scope.

(** ** Names *)

(** [protocol::safe_filename] (protocol/mod.rs) *)
Definition safe_char (c : Z) : Z := if Manifest.forbidden_char c then Manifest.underscore else c.

Definition safe_filename (value : string) : string :=
  let name := of_chars (drop_while_end Manifest.trailing (safe_char <$> chars value)) in
  if is_empty name || (name =? ".")%string || (name =? "..")%string
     || Manifest.is_windows_device_name name
  then "download" else name.

(** [Path::file_stem] and [Path::extension] of a name without separators: the
    name is split at its last dot, unless that is its first character. *)
Definition file_stem_extension (name : string) : string * option string :=
  match rsplit_once "." name with
  | Some (stem, extension) =>
      if is_empty stem then (name, None) else (stem, Some extension)
  | None => (name, None)
  end.

Definition candidate_name (stem extension : string) (index : Z) : string :=
  stem +:+ " (" +:+ decimal index +:+ ")" +:+ extension.

(** The loop [for index in 2..]; [n] bounds the turns (see [unique_name_total]). *)
Fixpoint unique_from (n : nat) (index : Z) (stem extension : string) (used : gset string)
    : option (string * gset string) :=
  match n with
  | O => None
  | S n =>
      let candidate := candidate_name stem extension index in
      if bool_decide (candidate ∈ used) then unique_from n (index + 1) stem extension used
      else Some (candidate, {[candidate]} ∪ used)
  end.

Definition unique_name (name : string) (used : gset string) : option (string * gset string) :=
  if bool_decide (name ∈ used) then
    let '(stem, extension) := file_stem_extension name in
    unique_from (S (size used)) 2 stem
      (match extension with Some e => "." +:+ e | None => "" end) used
  else Some (name, {[name]} ∪ used).

Definition safe_archive_path (value : string) : result string string :=
  let parts := split_char "/" value in
  reject existsb (λ part, is_empty part || (part =? ".")%string || (part =? "..")%string
                          || contains "\" part) parts
    with "tree entry has an unsafe relative path";
  Ok (String.concat "/" (safe_filename <$> parts)).

(** ** The selected trees *)

Inductive Node :=
| NFile (size : Z)
| NDir (children : list (string * Node))   (** as [read_dir] lists them *)
| NLink                                    (** a symbolic link *)
| NSpecial.                                (** a device, socket or pipe *)

(** A selected path, canonicalized: what it resolves to. *)
Record Root := { root_path : string; root_name : string; root_node : Node }.

Record Source := { path : string; source_name : string; directory : bool; bytes_len : Z }.

(** [sort_by_key(|entry| entry.file_name())] compares the names' bytes. *)
Definition name_le (a b : string * Node) : Prop := String.leb (fst a) (fst b) = true.

#[export] Instance name_le_dec : RelDecision name_le.
Proof. intros a b. unfold name_le. apply _. Defined.

Definition children_of (path name : string) (children : list (string * Node))
    : list (string * string * Node) :=
  (λ e, (path +:+ "/" +:+ fst e, name +:+ "/" +:+ safe_filename (fst e), snd e))
    <$> merge_sort name_le children.

(** ** Walking a tree *)

(** [control.cancelled], as each call of [control.check] finds it. *)
Class Cancellation := cancelled : nat → bool.

Section walk.
Context `{Cancellation}.

Notation M := (SE nat string).

Definition check : M () := λ n,
  (S n, if cancelled n then Err "Transfer cancelled" else Ok ()).

Fixpoint checks (n : nat) : M () :=
  match n with O => mret () | S n => _ ← check; checks n end.

(** [collect]: the stack of the iterative traversal has its top first.  [fuel]
    bounds the turns; a tree has one for each of its nodes. *)
Fixpoint collect_loop (fuel : nat) (pending : list (string * string * Node))
    (archive_names : gset string) (entries : list Source) : M (list Source) :=
  match pending with
  | [] => mret entries
  | (path, name, node) :: pending =>
      match fuel with
      | O => fail "out of fuel"
      | S fuel =>
          _ ← check;
          match node with
          | NLink | NSpecial => collect_loop fuel pending archive_names entries
          | NFile _ | NDir _ =>
              if bool_decide (name ∈ archive_names)
              then fail ("Two entries have the same portable ZIP path: " +:+ name)
              else
                let archive_names := {[name]} ∪ archive_names in
                match node with
                | NDir children =>
                    collect_loop fuel (children_of path name children ++ pending) archive_names
                      (entries ++ [{| path := path; source_name := name; directory := true;
                                      bytes_len := 0 |}])
                | NFile size =>
                    collect_loop fuel pending archive_names
                      (entries ++ [{| path := path; source_name := name; directory := false;
                                      bytes_len := size |}])
                | _ => mret entries
                end
          end
      end
  end.

(** The nodes of a tree. *)
Fixpoint weight (n : Node) : nat :=
  match n with
  | NDir children => S (foldr (λ c k, weight (snd c) + k) 0 children)%nat
  | _ => 1%nat
  end.

Definition collect (r : Root) (name : string) (entries : list Source) : M (list Source) :=
  collect_loop (weight (root_node r)) [(root_path r, name, root_node r)] ∅ entries.

(** ** Preparing *)

Inductive DirectoryMode := Ask | RequireFlag | Zip | Individual.

#[export] Instance DirectoryMode_eq_dec : EqDecision DirectoryMode.
Proof. solve_decision. Defined.

Record UploadFile := { file_path : string; file_name : string; file_bytes : Z }.

(** What is sent: the files, or one archive with these entries. *)
Inductive Prepared :=
| Files (l : list UploadFile)
| Archive (name : string) (entries : list Source).

Definition must {A} (o : option A) : M A := of_result (ok_or o "unreachable").

(** The loop over the selected paths; a path that cannot be read is an error. *)
Fixpoint gather (paths : list (result string Root)) (roots : gset string) (names : gset string)
    (sources : list Source) (has_directory : bool) : M (list Source * bool) :=
  match paths with
  | [] => mret (sources, has_directory)
  | p :: paths =>
      _ ← check;
      r ← of_result p;
      if bool_decide (root_path r ∈ roots) then gather paths roots names sources has_directory
      else
        match root_node r with
        | NFile _ | NDir _ =>
            '(name, names) ← must (unique_name (safe_filename (root_name r)) names);
            sources ← collect r name sources;
            gather paths ({[root_path r]} ∪ roots) names sources
              (has_directory || match root_node r with NDir _ => true | _ => false end)
        | _ => fail "not a regular file or directory"
        end
  end.

(** [filter(|source| !source.directory && seen.insert(source.path))] *)
Fixpoint regular (seen : gset string) (l : list Source) : list Source :=
  match l with
  | [] => []
  | s :: l =>
      if directory s || bool_decide (path s ∈ seen) then regular seen l
      else s :: regular ({[path s]} ∪ seen) l
  end.

(** The last component of a path. *)
Definition base_name (path : string) : string := default "" (last (split_char "/" path)).

Fixpoint name_files (used : gset string) (l : list Source) : option (list UploadFile) :=
  match l with
  | [] => Some []
  | s :: l =>
      '(name, used) ← unique_name (safe_filename (base_name (path s))) used;
      files ← name_files used l;
      Some ({| file_path := path s; file_name := name; file_bytes := bytes_len s |} :: files)
  end.

Definition archive_name (paths : list (result string Root)) : result string string :=
  match paths with
  | [p] => r ← p; Ok (safe_filename (root_name r) +:+ ".zip")
  | _ => Ok "filebeam-transfer.zip"
  end.

(** [prepare]; [answer] is the reply to the directory prompt. *)
Definition prepare (paths : list (result string Root)) (mode : DirectoryMode)
    (maximum_files : option Z) (answer : result string string) : M Prepared :=
  _ ← check;
  '(sources, has_directory) ← gather paths ∅ ∅ [] false;
  let files := regular ∅ sources in
  _ ← of_result (ok_or (foldl (λ sum s, n ← sum; checked_add n (bytes_len s)) (Some 0) sources)
        "selected files are too large");
  mode ← (if (has_directory : bool) && bool_decide (mode ∈ [Ask; RequireFlag]) then
            if bool_decide (mode = RequireFlag)
            then fail "Directory uploads require --zip or --individual in plain or non-interactive mode"
            else
              answer ← of_result answer;
              if (answer =? "zip")%string then mret Zip
              else if (answer =? "individual")%string then mret Individual
              else fail "Choose ZIP and send or Individual files"
          else mret mode);
  if bool_decide (mode = Zip) then
    _ ← check;
    name ← of_result (archive_name paths);
    _ ← checks (length sources);
    _ ← check;
    mret (Archive name sources)
  else if bool_decide (files = [])
  then fail "No regular files found; use --zip to send an empty directory"
  else if match maximum_files with Some maximum => maximum <? zlen files | None => false end
  then fail "individual files exceed this instance's file limit; use --zip to send one archive"
  else files ← must (name_files ∅ files); mret (Files files).

(** [Prepared::from_sources]: sources a host provides under tree paths, each
    with its declared length. *)
Definition replace_slashes (s : string) : string := String.concat "__" (split_char "/" s).

Fixpoint archive_sources (seen : gset string) (sources : list (string * Z)) : M (list Source) :=
  match sources with
  | [] => mret []
  | (source, length) :: sources =>
      _ ← check;
      name ← of_result (safe_archive_path source);
      if bool_decide (name ∈ seen)
      then fail ("Two tree entries have the same portable ZIP path: " +:+ name)
      else
        l ← archive_sources ({[name]} ∪ seen) sources;
        mret ({| path := source; source_name := name; directory := false; bytes_len := length |} :: l)
  end.

Fixpoint name_sources (used : gset string) (sources : list (string * Z)) : option (list UploadFile) :=
  match sources with
  | [] => Some []
  | (source, length) :: sources =>
      '(name, used) ← unique_name (safe_filename (replace_slashes source)) used;
      files ← name_sources used sources;
      Some ({| file_path := ""; file_name := name; file_bytes := length |} :: files)
  end.

Definition from_sources (sources : list (string * Z)) (mode : DirectoryMode)
    (maximum_files : option Z) : M Prepared :=
  if match maximum_files with Some maximum => maximum <? zlen sources | None => false end
  then fail "individual files exceed this instance's file limit"
  else if bool_decide (mode = Zip) then
    _ ← check;
    entries ← archive_sources ∅ sources;
    _ ← check;
    mret (Archive "filebeam-transfer.zip" entries)
  else files ← must (name_sources ∅ sources); mret (Files files).

End walk.

(** ** Names *)

(** The sender's and the receiver's idea of a portable name are the same. *)
Lemma safe_filename_portable : safe_filename = Manifest.portable_filename.
Proof. reflexivity. Qed.

Lemma safe_filename_safe v : utf8 v → utf8 (safe_filename v) ∧ Manifest.portable (safe_filename v).
Proof.
  rewrite safe_filename_portable. apply Manifest.portable_filename_portable.
Qed.

Lemma decimal_bytes_digits fuel n :
  0 ≤ n → Forall (λ b, is_ascii_digit b = true) (decimal_bytes fuel n []).
Proof.
  assert (Hd : ∀ m, is_ascii_digit (48 + m mod 10) = true).
  { intros m. pose proof (Z.mod_pos_bound m 10). unfold is_ascii_digit.
    rewrite (proj2 (Z.leb_le 48 _)), (proj2 (Z.leb_le _ 57)) by lia. done. }
  revert n. induction fuel as [|fuel IH]; intros n Hn; cbn [decimal_bytes].
  - repeat constructor. apply Hd.
  - case_match; bool_prop; [repeat constructor; by rewrite <- (Z.mod_small n 10) by lia|].
    rewrite decimal_bytes_app. apply Forall_app. split; [|by repeat constructor].
    apply IH. by apply Z.div_pos.
Qed.

Lemma ascii_decimal n : 0 ≤ n → Forall (λ b, is_ascii_digit b = true) (bytes (decimal n)).
Proof.
  intros Hn. pose proof (decimal_bytes_digits 20 n Hn) as Hd. unfold decimal.
  rewrite bytes_of_bytes; [done|]. eapply Forall_impl; [exact Hd|]. unfold is_ascii_digit. cbn.
  intros b Hb. bool_prop. unfold is_u8, u8_max. lia.
Qed.

Lemma decimal_ne n : 0 ≤ n → bytes (decimal n) ≠ [].
Proof.
  intros Hn. assert (Hf : ∀ fuel, decimal_bytes fuel n [] ≠ []).
  { intros [|fuel]; cbn [decimal_bytes]; [done|]. case_match; [done|].
    rewrite decimal_bytes_app. by intros [_ ?]%app_nil. }
  unfold decimal. rewrite bytes_of_bytes; [apply Hf|].
  eapply Forall_impl; [by apply decimal_bytes_digits|].
  unfold is_ascii_digit. cbn. intros b Hb. bool_prop. unfold is_u8, u8_max. lia.
Qed.

Lemma decimal_ascii n : 0 ≤ n → ascii_str (decimal n).
Proof.
  intros Hn. unfold ascii_str. eapply Forall_impl; [by apply ascii_decimal|].
  unfold is_ascii_digit. cbn. intros b Hb. bool_prop. lia.
Qed.

Lemma utf8_app s t : utf8 s → utf8 t → utf8 (s +:+ t).
Proof.
  intros (l & Hl & ->) (k & Hk & ->). exists (l ++ k). split; [by apply Forall_app|].
  by rewrite of_chars_app.
Qed.

(** The characters of a decimal are digits. *)
Lemma chars_decimal n : 0 ≤ n → chars (decimal n) = bytes (decimal n).
Proof. intros Hn. by apply chars_ascii, decimal_ascii. Qed.

Lemma digit_not_forbidden b : is_ascii_digit b = true → Manifest.forbidden_char b = false.
Proof.
  intros Hb. assert (Hu : is_u8 b) by (unfold is_ascii_digit in Hb; bool_prop; unfold is_u8, u8_max; lia).
  apply negb_true_iff. revert b Hu Hb.
  apply (byte_implies is_ascii_digit (λ b, negb (Manifest.forbidden_char b))). by vm_compute.
Qed.

(** The parts of a candidate, and what the name's own portability says of them. *)
Lemma file_stem_extension_spec name stem ext :
  utf8 name → Manifest.portable name → file_stem_extension name = (stem, ext) →
  utf8 stem ∧ stem ≠ "" ∧ Forall (λ c, Manifest.forbidden_char c = false) (chars stem) ∧
  match ext with
  | None => name = stem
  | Some e => name = stem +:+ "." +:+ e ∧ utf8 e ∧
      Forall (λ c, Manifest.forbidden_char c = false) (chars e) ∧
      ∃ c, last (chars e) = Some c ∧ Manifest.trailing c = false
  end.
Proof.
  intros Hu (Hne & _ & _ & _ & Hf & Hl). unfold file_stem_extension.
  destruct (rsplit_once "." name) as [[l r]|] eqn:Hs; [|by intros [= <- <-]].
  case_match eqn:Hem; intros [= <- <-]; [done|].
  apply rsplit_once_Some in Hs. subst name.
  destruct (utf8_split l "." r Hu) as [Hul Hur]; [done|].
  change ("." +:+ r) with (String "." r) in *.
  assert (Hc : chars (l +:+ String "." r) = chars l ++ ch "." :: chars r).
  { rewrite chars_app by (done || by apply (utf8_app "." r); [by apply utf8_check|]).
    change (String "." r) with ("." +:+ r). rewrite chars_app by (by apply utf8_check || done). done. }
  rewrite Hc in Hf, Hl. apply Forall_app in Hf as [Hfl Hfr].
  apply Forall_cons in Hfr as [_ Hfr].
  split; [done|]. split; [by intros ->|]. split; [done|]. split; [done|]. split; [done|].
  split; [done|]. destruct (last (chars r)) as [c|] eqn:Hr.
  - exists c. split; [done|]. apply Hl. rewrite last_app, last_cons, Hr. done.
  - exfalso. specialize (Hl (ch ".")). rewrite last_app, last_cons, Hr in Hl.
    by specialize (Hl eq_refl).
Qed.

(** A string either lacks a character or has a first one. *)
Lemma first_char c s : no_char c s ∨ ∃ a b, s = a +:+ String c b ∧ no_char c a.
Proof.
  induction s as [|x s [IH|(a & b & -> & Ha)]].
  - left. by apply not_elem_of_nil.
  - destruct (decide (x = c)) as [->|Hne].
    + right. exists "", s. split; [done|]. by apply not_elem_of_nil.
    + left. by apply no_char_String.
  - destruct (decide (x = c)) as [->|Hne].
    + right. exists "", (a +:+ String c b). split; [done|]. by apply not_elem_of_nil.
    + right. exists (String x a), b. split; [done|]. by apply no_char_String.
Qed.

Definition extension_suffix (e : option string) : string :=
  match e with Some e => "." +:+ e | None => "" end.

(** [is_windows_device_name] looks at the text before the first dot only. *)
Lemma device_name_head a b :
  no_char "." a → Manifest.is_windows_device_name (a +:+ String "." b)
    = Manifest.is_windows_device_name a.
Proof.
  intros Ha. unfold Manifest.is_windows_device_name.
  by rewrite (split_char_app "." a b Ha), (split_char_no_char "." a Ha).
Qed.

Lemma device_name_long a : no_char "." a → 4 < len a → Manifest.is_windows_device_name a = false.
Proof.
  intros Ha Hl. unfold Manifest.is_windows_device_name. rewrite split_char_no_char by done. cbn [head default].
  rewrite len_to_ascii_uppercase. unfold id. rewrite (proj2 (Z.eqb_neq (len a) 4)) by lia.
  cbn [andb]. rewrite orb_false_r.
  apply bool_decide_eq_false. intros Hin.
  rewrite <- len_to_ascii_uppercase in Hl.
  repeat (apply elem_of_cons in Hin as [He|Hin]; [rewrite He in Hl; by vm_compute in Hl|]).
  by apply elem_of_nil in Hin.
Qed.

#[export] Instance no_char_dec c s : Decision (no_char c s).
Proof. unfold no_char. apply _. Defined.

Lemma app_assoc_string (a b c : string) : (a +:+ b) +:+ c = a +:+ b +:+ c.
Proof.
  induction a as [|x a IH]; [done|].
  change (String x ((a +:+ b) +:+ c) = String x (a +:+ b +:+ c)). by rewrite IH.
Qed.

Lemma no_char_split c a b : no_char c (a +:+ b) ↔ no_char c a ∧ no_char c b.
Proof.
  induction a as [|x a IH].
  - change ("" +:+ b) with b. split; [intros H; split; [by apply not_elem_of_nil|done]|by intros []].
  - change (String x a +:+ b) with (String x (a +:+ b)). rewrite !no_char_String, IH. tauto.
Qed.

Lemma len_app a b : len (a +:+ b) = len a + len b.
Proof. by rewrite <- !length_bytes, bytes_app, length_app, Nat2Z.inj_add. Qed.

Lemma candidate_device stem ext i :
  0 ≤ i → stem ≠ "" → Manifest.is_windows_device_name (stem +:+ extension_suffix ext) = false →
  Manifest.is_windows_device_name (candidate_name stem (extension_suffix ext) i) = false.
Proof.
  intros Hi Hne Hd. unfold candidate_name.
  destruct (first_char "." stem) as [Hn|(a & b & -> & Ha)].
  - set (head := stem +:+ " (" +:+ decimal i +:+ ")").
    assert (Hh : no_char "." head).
    { unfold head. rewrite !no_char_split. split_and!; [done|by apply (bool_decide_unpack _)| |by apply (bool_decide_unpack _)].
      apply (no_char_bytes "." _ is_ascii_digit); [by apply ascii_decimal|done]. }
    assert (Hl : 4 < len head).
    { unfold head. rewrite !len_app. change (len " (") with 2. change (len ")") with 1.
      assert (0 < len stem) by (apply is_empty_len; unfold is_empty; by apply bool_decide_eq_false).
      assert (0 < len (decimal i)); [|lia].
      rewrite <- length_bytes. pose proof (decimal_ne i Hi). destruct (bytes (decimal i)); [done|cbn; lia]. }
    replace (stem +:+ " (" +:+ decimal i +:+ ")" +:+ extension_suffix ext)
      with (head +:+ extension_suffix ext) by (unfold head; by rewrite !app_assoc_string).
    destruct ext as [e|]; cbn [extension_suffix].
    + change ("." +:+ e) with (String "." e). rewrite device_name_head by done. by apply device_name_long.
    + rewrite append_nil_r. by apply device_name_long.
  - assert (Hx : ∀ x, (a +:+ String "." b) +:+ x = a +:+ String "." (b +:+ x))
      by (intros x; by rewrite app_assoc_string).
    rewrite Hx, device_name_head in Hd |- * by done. done.
Qed.

Definition ext_ok (ext : option string) : Prop :=
  match ext with
  | None => True
  | Some e => utf8 e ∧ Forall (λ c, Manifest.forbidden_char c = false) (chars e) ∧
      ∃ c, last (chars e) = Some c ∧ Manifest.trailing c = false
  end.

Lemma candidate_safe stem ext i :
  0 ≤ i → utf8 stem → stem ≠ "" → Forall (λ c, Manifest.forbidden_char c = false) (chars stem) →
  ext_ok ext → Manifest.is_windows_device_name (stem +:+ extension_suffix ext) = false →
  utf8 (candidate_name stem (extension_suffix ext) i) ∧
  Manifest.portable (candidate_name stem (extension_suffix ext) i).
Proof.
  intros Hi Hus Hne Hfs Hext Hdev.
  assert (Hue : utf8 (extension_suffix ext) ∧
    Forall (λ c, Manifest.forbidden_char c = false) (chars (extension_suffix ext))).
  { destruct ext as [e|]; cbn [extension_suffix].
    - destruct Hext as (He & Hf & _). split; [apply utf8_app; [by apply utf8_check|done]|].
      rewrite chars_app by (done || by apply utf8_check). constructor; [by vm_compute|done].
    - split; [by apply utf8_check|constructor]. }
  destruct Hue as [Hue Hfe].
  assert (Hud : utf8 (decimal i)) by (apply ascii_str_utf8; by apply decimal_ascii).
  assert (Hl : utf8 " (") by by apply utf8_check. assert (Hr : utf8 ")") by by apply utf8_check.
  assert (Hc : chars (candidate_name stem (extension_suffix ext) i)
    = chars stem ++ chars " (" ++ bytes (decimal i) ++ chars ")" ++ chars (extension_suffix ext)).
  { unfold candidate_name. rewrite !chars_app by (repeat first [done|apply utf8_app]).
    by rewrite chars_decimal. }
  split; [unfold candidate_name; repeat first [done|apply utf8_app]|].
  assert (Hlen : 2 < len (candidate_name stem (extension_suffix ext) i)).
  { unfold candidate_name. rewrite !len_app. change (len " (") with 2. change (len ")") with 1.
    pose proof (len_nonneg stem). pose proof (len_nonneg (decimal i)).
    pose proof (len_nonneg (extension_suffix ext)). lia. }
  split_and!; try (intros E; rewrite E in Hlen; by vm_compute in Hlen).
  - by apply candidate_device.
  - rewrite Hc, !Forall_app. split_and!; try done.
    + by repeat constructor.
    + eapply Forall_impl; [by apply ascii_decimal|]. apply digit_not_forbidden.
    + by repeat constructor.
  - intros c. rewrite Hc, !app_assoc, last_app. destruct ext as [e|]; cbn [extension_suffix].
    + destruct Hext as (He & _ & c' & Hc' & Ht).
      rewrite chars_app by (done || by apply utf8_check). rewrite last_app, Hc'. by intros [= <-].
    + cbn. rewrite last_app. by intros [= <-].
Qed.

Lemma candidate_portable name stem ext i :
  utf8 name → Manifest.portable name → file_stem_extension name = (stem, ext) → 0 ≤ i →
  utf8 (candidate_name stem (extension_suffix ext) i) ∧
  Manifest.portable (candidate_name stem (extension_suffix ext) i).
Proof.
  intros Hu Hp Hs Hi. pose proof (file_stem_extension_spec _ _ _ Hu Hp Hs) as (Hus & Hne & Hfs & Hext).
  assert (Hname : name = stem +:+ extension_suffix ext).
  { destruct ext as [e|]; cbn [extension_suffix]; [by destruct Hext|by rewrite append_nil_r]. }
  apply candidate_safe; try done.
  - destruct ext as [e|]; [|done]. by destruct Hext as (_ & ? & ? & ?).
  - rewrite <- Hname. apply Hp.
Qed.

Lemma candidate_name_inj stem ext i j :
  is_u64 i → is_u64 j → candidate_name stem ext i = candidate_name stem ext j → i = j.
Proof.
  intros Hi Hj He. unfold candidate_name in He. apply append_inj_r, append_inj_r in He.
  assert (Hs : ∀ k, is_u64 k → split_once ")" (decimal k +:+ ")" +:+ ext) = Some (decimal k, ext)).
  { intros k Hk. apply (split_once_char ")"). by apply decimal_no_char. }
  pose proof (Hs i Hi) as H1. rewrite He, Hs in H1 by done. injection H1 as H1.
  apply (f_equal parse_u64) in H1. rewrite !parse_decimal in H1 by done. by injection H1.
Qed.

Lemma unique_from_Some n i stem ext used c used' :
  unique_from n i stem ext used = Some (c, used') →
  c ∉ used ∧ used' = {[c]} ∪ used ∧ ∃ j, i ≤ j ∧ c = candidate_name stem ext j.
Proof.
  revert i. induction n as [|n IH]; intros i; cbn [unique_from]; [done|].
  case_match eqn:Hb; bool_prop.
  - intros H. apply IH in H as (? & ? & j & ? & ?). split_and!; [done..|]. exists j. split; [lia|done].
  - intros [= <- <-]. split_and!; [done..|]. by exists i.
Qed.

Lemma unique_from_None n i stem ext used :
  unique_from n i stem ext used = None →
  ∀ j, i ≤ j < i + Z.of_nat n → candidate_name stem ext j ∈ used.
Proof.
  revert i. induction n as [|n IH]; intros i; [intros _ j; lia|]. cbn [unique_from].
  case_match eqn:Hb; [|done]. bool_prop. intros H j Hj.
  destruct (decide (j = i)) as [->|]; [done|]. apply (IH _ H). lia.
Qed.

(** The search ends: fewer names are in use than candidates are tried. *)
Lemma unique_from_total i stem ext used :
  0 ≤ i → i + Z.of_nat (size used) < 2147483647 →
  is_Some (unique_from (S (size used)) i stem ext used).
Proof.
  intros Hi Hsz. destruct (unique_from _ i stem ext used) eqn:Hu; [by eexists|]. exfalso.
  pose proof (unique_from_None _ _ _ _ _ Hu) as Hall.
  set (l := candidate_name stem ext <$> seqZ i (Z.of_nat (S (size used)))).
  assert (Hn : NoDup l).
  { apply NoDup_fmap_2_strong; [|apply NoDup_seqZ]. intros x y Hx%elem_of_seqZ Hy%elem_of_seqZ.
    apply candidate_name_inj; unfold is_u64, u64_max; lia. }
  assert (Hs : list_to_set l ⊆ used).
  { intros c Hc%elem_of_list_to_set. unfold l in Hc. apply list_elem_of_fmap in Hc as (j & -> & Hj).
    apply elem_of_seqZ in Hj. apply Hall. lia. }
  apply subseteq_size in Hs. rewrite size_list_to_set in Hs by done.
  unfold l in Hs. rewrite length_fmap, length_seqZ in Hs. lia.
Qed.

Lemma unique_name_total name used :
  Z.of_nat (size used) < 2147483645 → is_Some (unique_name name used).
Proof.
  intros Hsz. unfold unique_name. case_match; [|by eexists].
  destruct (file_stem_extension name) as [stem ext]. apply unique_from_total; lia.
Qed.

Lemma unique_name_Some name used c used' :
  utf8 name → Manifest.portable name → unique_name name used = Some (c, used') →
  c ∉ used ∧ used' = {[c]} ∪ used ∧ utf8 c ∧ Manifest.portable c.
Proof.
  intros Hu Hp. unfold unique_name. case_match eqn:Hb; bool_prop.
  - destruct (file_stem_extension name) as [stem ext] eqn:He. intros H.
    apply unique_from_Some in H as (? & ? & j & Hj & ->).
    destruct (candidate_portable name stem ext j Hu Hp He) as [H1 H2]; [lia|]. by split_and!.
  - by intros [= <- <-].
Qed.

(** ** Traversal *)

(** The preorder listing of a stack of trees: a directory before what it holds,
    its entries in the byte order of their names, no links or special files. *)
Inductive listed : list (string * string * Node) → list Source → Prop :=
| listed_nil : listed [] []
| listed_skip path name node k l :
    node = NLink ∨ node = NSpecial → listed k l → listed ((path, name, node) :: k) l
| listed_file path name size k l :
    listed k l →
    listed ((path, name, NFile size) :: k)
      ({| path := path; source_name := name; directory := false; bytes_len := size |} :: l)
| listed_dir path name children k a b :
    listed (children_of path name children) a → listed k b →
    listed ((path, name, NDir children) :: k)
      ({| path := path; source_name := name; directory := true; bytes_len := 0 |} :: a ++ b).

Lemma listed_app k1 k2 l1 l2 : listed k1 l1 → listed k2 l2 → listed (k1 ++ k2) (l1 ++ l2).
Proof.
  intros H1 H2. induction H1; cbn; [done|by constructor..|].
  rewrite <- app_assoc. by constructor.
Qed.

Lemma listed_app_inv k1 k2 l :
  listed (k1 ++ k2) l → ∃ l1 l2, l = l1 ++ l2 ∧ listed k1 l1 ∧ listed k2 l2.
Proof.
  revert l. induction k1 as [|e k1 IH]; intros l; cbn.
  - intros H. exists [], l. split; [done|]. split; [constructor|done].
  - intros H. inversion H as [|?????? Hk|????? Hk|?????? Ha Hb]; subst.
    + destruct (IH _ Hk) as (l1 & l2 & -> & ? & ?). exists l1, l2. split; [done|]. by split; [constructor|].
    + destruct (IH _ Hk) as (l1 & l2 & -> & ? & ?). eexists (_ :: l1), l2. split; [done|]. by split; [constructor|].
    + destruct (IH _ Hb) as (l1 & l2 & -> & ? & ?). eexists (_ :: a ++ l1), l2.
      split; [by cbn; rewrite app_assoc|]. by split; [constructor|].
Qed.

Definition stack_weight (k : list (string * string * Node)) : nat :=
  foldr (λ e n, weight (snd e) + n)%nat 0%nat k.

Lemma stack_weight_app k1 k2 : stack_weight (k1 ++ k2) = (stack_weight k1 + stack_weight k2)%nat.
Proof. unfold stack_weight. induction k1 as [|e k1 IH]; simpl; lia. Qed.

Lemma stack_weight_children path name children :
  stack_weight (children_of path name children) =
  foldr (λ c k, weight (snd c) + k)%nat 0%nat children.
Proof.
  unfold children_of, stack_weight. rewrite foldr_fmap.
  pose proof (merge_sort_Permutation name_le children) as Hp. revert Hp. generalize (merge_sort name_le children).
  intros k Hp.
  change (foldr (λ c k, weight (snd c) + k)%nat 0%nat k = foldr (λ c k, weight (snd c) + k)%nat 0%nat children).
  induction Hp; simpl; lia.
Qed.

Lemma listed_total k : ∃ l, listed k l.
Proof.
  assert (H : ∀ fuel k, (stack_weight k ≤ fuel)%nat → ∃ l, listed k l); [|by eapply H].
  clear k. induction fuel as [|fuel IH]; intros [|[[p m] nd] k] Hw; try (by exists []; constructor).
  { destruct nd; cbn in Hw; lia. }
  cbn [stack_weight foldr snd] in Hw. fold (stack_weight k) in Hw.
  destruct nd as [sz|ch| |].
  - destruct (IH k) as [l Hl]; [cbn in Hw; lia|]. eexists. by constructor.
  - destruct (IH k) as [b Hb]; [cbn in Hw; lia|].
    destruct (IH (children_of p m ch)) as [a Ha]; [rewrite stack_weight_children; cbn in Hw; lia|].
    eexists. by constructor.
  - destruct (IH k) as [l Hl]; [cbn in Hw; lia|]. eexists. constructor; [by left|done].
  - destruct (IH k) as [l Hl]; [cbn in Hw; lia|]. eexists. constructor; [by right|done].
Qed.

Section collect.
Context `{Cancellation}.

(** What a traversal returns: the listing, unless it is cancelled or two entries
    share a name. *)
Definition fresh_names (names : gset string) (l : list Source) : Prop :=
  NoDup (source_name <$> l) ∧ ∀ x, x ∈ source_name <$> l → x ∉ names.

Definition collected (names : gset string) (entries l : list Source)
    (r : result string (list Source)) : Prop :=
  match r with
  | Ok out => out = entries ++ l ∧ fresh_names names l
  | Err e => (e = "Transfer cancelled" ∧ ∃ t, cancelled t = true) ∨ ¬ fresh_names names l
  end.

Lemma collected_cons names entries s l r :
  source_name s ∉ names →
  collected ({[source_name s]} ∪ names) (entries ++ [s]) l r → collected names entries (s :: l) r.
Proof.
  intros Hn. unfold collected. assert (Hf : fresh_names ({[source_name s]} ∪ names) l ↔ fresh_names names (s :: l)).
  { unfold fresh_names. rewrite fmap_cons, NoDup_cons. set_solver. }
  destruct r; [|tauto]. rewrite <- app_assoc. tauto.
Qed.

Lemma collect_loop_spec fuel k names entries n :
  (stack_weight k ≤ fuel)%nat →
  ∃ l, listed k l ∧ collected names entries l (collect_loop fuel k names entries n).2.
Proof.
  revert k names entries n.
  assert (Hnil : ∀ fuel names entries n,
    ∃ l, listed [] l ∧ collected names entries l (collect_loop fuel [] names entries n).2).
  { intros fuel' names entries n. exists []. split; [constructor|].
    destruct fuel'; (split; [by rewrite app_nil_r|split; [constructor|set_solver]]). }
  induction fuel as [|fuel IH]; intros [|[[p m] nd] k] names entries n Hw; [by apply Hnil| |by apply Hnil|].
  { destruct nd; cbn in Hw; lia. }
  cbn [stack_weight foldr snd] in Hw. fold (stack_weight k) in Hw.
  destruct (listed_total ((p, m, nd) :: k)) as [l0 Hl0].
  cbn [collect_loop]. unfold mbind, SE_bind, check. destruct (cancelled n) eqn:Hcn.
  { exists l0. split; [done|]. left. split; [done|]. by exists n. }
  destruct (bool_decide (m ∈ names)) eqn:Hm; bool_prop.
  - destruct nd as [sz|ch| |].
    1,2: exists l0; split; [done|]; right; intros [_ Hf];
      inversion Hl0; subst; first [by destruct_or? | by apply (Hf m); [cbn; set_solver|]].
    all: destruct (IH k names entries (S n)) as (l & Hl & Hr); [cbn in Hw; lia|];
      exists l; split; [by constructor; auto|done].
  - destruct nd as [sz|ch| |].
    + destruct (IH k ({[m]} ∪ names) (entries ++ [{| path := p; source_name := m; directory := false;
        bytes_len := sz |}]) (S n)) as (l & Hl & Hr); [cbn in Hw; lia|].
      eexists. split; [by constructor|]. by apply collected_cons.
    + destruct (IH (children_of p m ch ++ k) ({[m]} ∪ names) (entries ++ [{| path := p; source_name := m;
        directory := true; bytes_len := 0 |}]) (S n)) as (l & Hl & Hr).
      { rewrite stack_weight_app, stack_weight_children. cbn in Hw. lia. }
      apply listed_app_inv in Hl as (a & b & -> & Ha & Hb).
      eexists. split; [by constructor|]. by apply collected_cons.
    + destruct (IH k names entries (S n)) as (l & Hl & Hr); [cbn in Hw; lia|].
      exists l. split; [by constructor; auto|done].
    + destruct (IH k names entries (S n)) as (l & Hl & Hr); [cbn in Hw; lia|].
      exists l. split; [by constructor; auto|done].
Qed.

End collect.

(** ** What is reached *)

(** The regular files below a path, links not followed. *)
Inductive reaches : string → Node → string → Prop :=
| reaches_file p size : reaches p (NFile size) p
| reaches_child p children c n q :
    (c, n) ∈ children → reaches (p +:+ "/" +:+ c) n q → reaches p (NDir children) q.

Lemma elem_of_children_of p m ch e :
  e ∈ children_of p m ch ↔
  ∃ c n, (c, n) ∈ ch ∧ e = (p +:+ "/" +:+ c, m +:+ "/" +:+ safe_filename c, n).
Proof.
  unfold children_of. rewrite list_elem_of_fmap. split.
  - intros ([c n] & -> & Hc). exists c, n. split; [|done]. by rewrite merge_sort_Permutation in Hc.
  - intros (c & n & Hc & ->). exists (c, n). split; [done|]. by rewrite merge_sort_Permutation.
Qed.

Definition is_file_at (q : string) (s : Source) : Prop := directory s = false ∧ path s = q.

Lemma listed_reaches k l q :
  listed k l → (∃ s, s ∈ l ∧ is_file_at q s) ↔ (∃ e, e ∈ k ∧ reaches (fst (fst e)) (snd e) q).
Proof.
  unfold is_file_at.
  induction 1 as [|p m nd k l Hs _ IH|p m sz k l _ IH|p m ch k a b _ IHa _ IHb].
  - set_solver.
  - rewrite IH. split; [intros (e & He & Hr); exists e; set_solver|].
    intros (e & [->|He]%elem_of_cons & Hr); [|by exists e]. cbn in Hr. by destruct Hs as [-> | ->]; inversion Hr.
  - split.
    + intros (s & [->|Hs]%elem_of_cons & Hd & <-); cbn in *.
      * exists (p, m, NFile sz). split; [set_solver|constructor].
      * destruct IH as [IH _]. destruct IH as (e & He & Hr); [by exists s|]. exists e. set_solver.
    + intros (e & [->|He]%elem_of_cons & Hr).
      * inversion Hr; subst. eexists. split; [by left|done].
      * destruct IH as [_ IH]. destruct IH as (s & Hs & ?); [by exists e|]. exists s. set_solver.
  - split.
    + intros (s & [->|[Hs|Hs]%elem_of_app]%elem_of_cons & Hd & <-); [done| |].
      * destruct IHa as [IHa _]. destruct IHa as (e & He & Hr); [by exists s|].
        apply elem_of_children_of in He as (c & n & Hc & ->). exists (p, m, NDir ch).
        split; [set_solver|]. by apply (reaches_child _ _ c n).
      * destruct IHb as [IHb _]. destruct IHb as (e & He & Hr); [by exists s|]. exists e. set_solver.
    + intros (e & [->|He]%elem_of_cons & Hr).
      * inversion Hr as [|? ? c n ? Hc Hr']; subst. destruct IHa as [_ IHa].
        destruct IHa as (s & Hs & ?).
        { exists (p +:+ "/" +:+ c, m +:+ "/" +:+ safe_filename c, n). split; [|done].
          apply elem_of_children_of. by exists c, n. }
        exists s. set_solver.
      * destruct IHb as [_ IHb]. destruct IHb as (s & Hs & ?); [by exists e|]. exists s. set_solver.
Qed.

(** ** Names of the entries *)

Fixpoint node_utf8 (n : Node) : Prop :=
  match n with
  | NDir children => foldr (λ c P, utf8 (fst c) ∧ node_utf8 (snd c) ∧ P) True children
  | _ => True
  end.

Lemma node_utf8_dir ch : node_utf8 (NDir ch) ↔ ∀ c n, (c, n) ∈ ch → utf8 c ∧ node_utf8 n.
Proof.
  cbn. induction ch as [|[c n] ch IH]; cbn; [set_solver|]. rewrite IH. clear IH.
  set_unfold. naive_solver.
Qed.

Lemma portable_no_slash n : utf8 n → Manifest.portable n → no_char "/" n.
Proof.
  intros Hu (_ & _ & _ & _ & Hf & _). destruct (first_char "/" n) as [|(a & b & -> & _)]; [done|].
  destruct (utf8_split a "/" b Hu) as [Ha Hb]; [done|]. exfalso.
  change (String "/" b) with ("/" +:+ b) in Hf.
  rewrite !chars_app in Hf by (repeat first [done|apply utf8_app|by apply utf8_check]).
  apply Forall_app in Hf as [_ Hf]. inversion Hf as [|? ? Hc _]. by vm_compute in Hc.
Qed.

Lemma split_char_snoc c a b :
  no_char c b → split_char c (a +:+ String c b) = split_char c a ++ [b].
Proof.
  intros Hb. induction a as [|x a IH].
  - change ("" +:+ String c b) with (String c b). cbn [split_char].
    by rewrite (split_char_no_char c b Hb), Ascii.eqb_refl.
  - change (String x a +:+ String c b) with (String x (a +:+ String c b)). cbn [split_char].
    rewrite IH. destruct (split_char_cons c a) as (p & ps & ->). cbn. by destruct (Ascii.eqb x c).
Qed.

(** Every component of an entry's name is portable. *)
Definition safe_entry (name : string) : Prop :=
  Forall (λ part, utf8 part ∧ Manifest.portable part) (split_char "/" name).

Lemma safe_entry_root n : utf8 n → Manifest.portable n → safe_entry n.
Proof.
  intros Hu Hp. unfold safe_entry.
  rewrite split_char_no_char by (by apply portable_no_slash). by apply Forall_singleton.
Qed.

Lemma safe_entry_child n c : safe_entry n → utf8 c → safe_entry (n +:+ "/" +:+ safe_filename c).
Proof.
  intros Hn Hc. destruct (safe_filename_safe c Hc) as [Hu Hp]. unfold safe_entry.
  change (n +:+ "/" +:+ safe_filename c) with (n +:+ String "/" (safe_filename c)).
  rewrite split_char_snoc by (by apply portable_no_slash).
  apply Forall_app. split; [exact Hn|]. by apply Forall_singleton.
Qed.

Lemma concat_cons_string sep a b l :
  String.concat sep (a :: b :: l) = a +:+ sep +:+ String.concat sep (b :: l).
Proof. reflexivity. Qed.

Lemma split_char_concat c l :
  l ≠ [] → Forall (no_char c) l → split_char c (String.concat (String c "") l) = l.
Proof.
  intros Hne Hl. induction Hl as [|a l Ha Hl IH]; [done|]. destruct l as [|b l].
  - by apply split_char_no_char.
  - rewrite concat_cons_string. change (String c "" +:+ ?x) with (String c x).
    rewrite split_char_app by done. f_equal. by apply IH.
Qed.

Lemma safe_entry_concat l :
  l ≠ [] → Forall (λ p, utf8 (safe_filename p) ∧ Manifest.portable (safe_filename p)) l →
  safe_entry (String.concat "/" (safe_filename <$> l)).
Proof.
  intros Hne Hl. unfold safe_entry. rewrite split_char_concat.
  - by apply Forall_fmap.
  - by destruct l.
  - apply Forall_fmap. eapply Forall_impl; [exact Hl|]. intros p []. by apply portable_no_slash.
Qed.

(** A name and what lies below it. *)
Definition within (root name : string) : Prop := name = root ∨ ∃ t, name = root +:+ "/" +:+ t.

Lemma within_trans a b c : within a b → within b c → within a c.
Proof.
  intros [->|[t ->]] [->|[u ->]]; [by left|by right; eexists..|]. right. exists (t +:+ "/" +:+ u).
  by rewrite !app_assoc_string.
Qed.

Lemma within_inj a b name : no_char "/" a → no_char "/" b → within a name → within b name → a = b.
Proof.
  intros Ha Hb [->|[t ->]] [He|[u He]]; [done| | |].
  - subst a. exfalso. apply no_char_split in Ha as [_ Ha]. change ("/" +:+ u) with (String "/" u) in Ha.
    by apply no_char_String in Ha as [? _].
  - subst b. exfalso. apply no_char_split in Hb as [_ Hb]. change ("/" +:+ t) with (String "/" t) in Hb.
    by apply no_char_String in Hb as [? _].
  - apply (f_equal (split_once "/")) in He. change ("/" +:+ t) with (String "/" t) in He.
    change ("/" +:+ u) with (String "/" u) in He. rewrite !split_once_char in He by done.
    by injection He.
Qed.

(** What a listing's entries are named. *)
Lemma listed_names k l :
  listed k l → Forall (λ e, safe_entry (snd (fst e)) ∧ utf8 (fst (fst e)) ∧ node_utf8 (snd e)) k →
  Forall (λ s, safe_entry (source_name s) ∧ utf8 (path s) ∧
    ∃ e, e ∈ k ∧ within (snd (fst e)) (source_name s)) l.
Proof.
  induction 1 as [|p m nd k l Hs _ IH|p m sz k l _ IH|p m ch k a b _ IHa _ IHb]; intros Hk;
    [constructor|..]; apply Forall_cons in Hk as [(Hm & Hp & Hn) Hk]; cbn [fst snd] in *.
  - eapply Forall_impl; [by apply IH|]. cbn. intros s (? & ? & e & ? & ?). split_and!; [done..|]. exists e. set_solver.
  - constructor.
    + cbn. split_and!; [done..|]. eexists. split; [by left|by left].
    + eapply Forall_impl; [by apply IH|]. cbn. intros s (? & ? & e & ? & ?). split_and!; [done..|]. exists e. set_solver.
  - constructor.
    + cbn. split_and!; [done..|]. eexists. split; [by left|by left].
    + apply Forall_app. split.
      * assert (Hc : Forall (λ e, safe_entry (snd (fst e)) ∧ utf8 (fst (fst e)) ∧ node_utf8 (snd e))
          (children_of p m ch)).
        { apply Forall_forall. intros e (c & n & Hc & ->)%elem_of_children_of. cbn [fst snd].
          rewrite node_utf8_dir in Hn. destruct (Hn c n Hc) as [Huc Hun]. split_and!; [|..|done].
          - by apply safe_entry_child.
          - apply utf8_app; [done|]. by apply (utf8_app "/"); [apply utf8_check|]. }
        eapply Forall_impl; [by apply IHa|]. cbn. intros s (? & ? & e & He & Hw). split_and!; [done..|].
        exists (p, m, NDir ch). split; [set_solver|]. cbn.
        apply elem_of_children_of in He as (c & n & _ & ->). cbn in Hw.
        eapply within_trans; [|exact Hw]. right. by eexists.
      * eapply Forall_impl; [by apply IHb|]. cbn. intros s (? & ? & e & ? & ?). split_and!; [done..|]. exists e. set_solver.
Qed.

(** ** Preparing *)

Section prepare.
Context `{Cancellation}.

Definition root_utf8 (p : result string Root) : Prop :=
  match p with
  | Ok r => utf8 (root_path r) ∧ utf8 (root_name r) ∧ node_utf8 (root_node r)
  | Err _ => True
  end.

(** The sources gathered so far, under root names [names]. *)
Definition gathered (names : gset string) (sources : list Source) : Prop :=
  NoDup (source_name <$> sources) ∧
  Forall (λ s, safe_entry (source_name s) ∧ utf8 (path s) ∧
    ∃ root, root ∈ names ∧ within root (source_name s)) sources ∧
  ∀ x, x ∈ names → no_char "/" x.

Lemma gathered_collect names sources name r l out :
  gathered names sources → utf8 name → Manifest.portable name → name ∉ names →
  utf8 (root_path r) → node_utf8 (root_node r) →
  listed [(root_path r, name, root_node r)] l → collected ∅ sources l (Ok out) →
  gathered ({[name]} ∪ names) out.
Proof.
  intros (Hn & Hf & Hx) Hu Hp Hnew Hup Hun Hl [-> [Hln _]].
  assert (Hsl : no_char "/" name) by by apply portable_no_slash.
  pose proof (listed_names _ _ Hl) as Hnames.
  assert (Forall (λ s, safe_entry (source_name s) ∧ utf8 (path s) ∧ within name (source_name s)) l) as Hlf.
  { eapply Forall_impl; [apply Hnames|].
    - apply Forall_singleton. cbn. split_and!; [by apply safe_entry_root|done..].
    - cbn. intros s (? & ? & e & ->%list_elem_of_singleton & ?). by split_and!. }
  split_and!.
  - rewrite fmap_app. apply NoDup_app. split_and!; [done| |done].
    intros x (s & -> & Hs)%list_elem_of_fmap (s' & He & Hs')%list_elem_of_fmap.
    rewrite Forall_forall in Hf, Hlf. destruct (Hf s Hs) as (_ & _ & root & Hr & Hw).
    destruct (Hlf s' Hs') as (_ & _ & Hw'). rewrite <- He in Hw'. apply Hnew.
    by rewrite (within_inj name root _ Hsl (Hx _ Hr) Hw' Hw).
  - apply Forall_app. split; eapply Forall_impl; [exact Hf| |exact Hlf|]; cbn.
    + intros s (? & ? & root & ? & ?). split_and!; [done..|]. exists root. set_solver.
    + intros s (? & ? & ?). split_and!; [done..|]. exists name. set_solver.
  - intros x [->%elem_of_singleton|Hin]%elem_of_union; [done|by apply Hx].
Qed.

(** Two selected paths with the same canonical path are the same tree. *)
Definition consistent (paths : list (result string Root)) : Prop :=
  ∀ r r', Ok r ∈ paths → Ok r' ∈ paths → root_path r = root_path r' → root_node r = root_node r'.

Lemma gather_Ok paths roots names sources hd n n' out hd' :
  Forall root_utf8 paths → consistent paths → gathered names sources →
  gather paths roots names sources hd n = (n', Ok (out, hd')) →
  (∃ names', gathered names' out) ∧
  ∀ q, (∃ s, s ∈ out ∧ is_file_at q s) ↔
    (∃ s, s ∈ sources ∧ is_file_at q s) ∨
    ∃ r, Ok r ∈ paths ∧ root_path r ∉ roots ∧ reaches (root_path r) (root_node r) q.
Proof.
  revert roots names sources hd n.
  induction paths as [|p paths IH]; intros roots names sources hd n Hu Hc Hg Hr; cbn [gather] in Hr.
  { injection Hr as _ <- <-. split; [by exists names|]. set_solver. }
  apply Forall_cons in Hu as [Hp Hu].
  assert (Hc' : consistent paths) by (intros r r' ??; apply Hc; by right).
  apply bind_run in Hr as [(? & _ & ?)|(n1 & [] & _ & Hr)]; [done|].
  apply bind_run in Hr as [(? & _ & ?)|(n2 & r & Hrr & Hr)]; [done|].
  unfold of_result in Hrr. injection Hrr as <- ->. destruct Hp as (Hup & Hum & Hun).
  case_match eqn:Hin; bool_prop.
  { destruct (IH _ _ _ _ _ Hu Hc' Hg Hr) as [Hg' Hq]. split; [done|]. intros q. rewrite Hq.
    split; [set_solver|]. intros [?|(r' & [[= ->]|?]%elem_of_cons & ? & ?)]; [by left|done|right].
    by exists r'. }
  assert (Hdir : ∃ hd1, (
     '(name, names) ← must (unique_name (safe_filename (root_name r)) names);
     sources ← collect r name sources;
     gather paths ({[root_path r]} ∪ roots) names sources hd1) n1 = (n', Ok (out, hd'))).
  { destruct (root_node r); [by eexists..|done|done]. }
  clear Hr. destruct Hdir as [hd1 Hr].
  apply bind_run in Hr as [(? & _ & ?)|(n3 & [name names1] & Hname & Hr)]; [done|].
  apply bind_run in Hr as [(? & _ & ?)|(n4 & sources1 & Hcol & Hr)]; [done|].
  unfold must, of_result in Hname. injection Hname as _ Hname.
  destruct (unique_name _ names) as [u|] eqn:Hun'; cbn in Hname; [injection Hname as ->|done].
  destruct (safe_filename_safe _ Hum) as [Hsu Hsp].
  destruct (unique_name_Some _ _ _ _ Hsu Hsp Hun') as (Hnew & -> & Hnu & Hnp).
  destruct (collect_loop_spec (weight (root_node r)) [(root_path r, name, root_node r)] ∅ sources n3)
    as (l & Hl & Hcl); [cbn; lia|].
  change (collect_loop _ _ _ _ n3) with (collect r name sources n3) in Hcl. rewrite Hcol in Hcl.
  cbn [snd] in Hcl. assert (Hg1 : gathered ({[name]} ∪ names) sources1) by by eapply gathered_collect.
  destruct (IH _ _ _ _ _ Hu Hc' Hg1 Hr) as [Hg' Hq]. split; [done|]. intros q. rewrite Hq.
  destruct Hcl as [-> _]. pose proof (listed_reaches _ _ q Hl) as Hlr.
  assert (Hone : (∃ s, s ∈ l ∧ is_file_at q s) ↔ reaches (root_path r) (root_node r) q).
  { rewrite Hlr. split; [by intros (e & ->%list_elem_of_singleton & ?)|].
    intros ?. eexists. split; [by apply list_elem_of_singleton|done]. }
  split.
  - intros [(s & [Hs|Hs]%elem_of_app & Hfs)|(r' & Hr' & Hni & Hre)].
    + left. by exists s.
    + right. exists r. split; [by left|]. split; [done|]. apply Hone. by exists s.
    + right. exists r'. set_solver.
  - intros [(s & Hs & Hfs)|(r' & Hr' & Hni & Hre)].
    + left. exists s. set_solver.
    + destruct (decide (root_path r' = root_path r)) as [He|Hne].
      * left. rewrite (Hc r' r) in Hre by (done || by left). rewrite He in Hre.
        apply Hone in Hre as (s & Hs & ?). exists s. set_solver.
      * right. exists r'. apply elem_of_cons in Hr' as [[= ->]|?]; [done|]. set_solver.
Qed.

(** ** The files of an individual transfer *)

Lemma regular_spec seen l :
  NoDup (path <$> regular seen l) ∧
  (∀ s, s ∈ regular seen l → s ∈ l ∧ directory s = false ∧ path s ∉ seen) ∧
  ∀ q, (∃ s, s ∈ regular seen l ∧ path s = q) ↔ q ∉ seen ∧ ∃ s, s ∈ l ∧ is_file_at q s.
Proof.
  unfold is_file_at. revert seen. induction l as [|s l IH]; intros seen; cbn [regular].
  { split_and!; [constructor|set_solver|set_solver]. }
  destruct (directory s) eqn:Hd; cbn [orb].
  { destruct (IH seen) as (H1 & H2 & H3). split_and!; [done|set_solver|]. intros q. rewrite H3.
    split; [set_solver|]. intros (? & s' & [->|?]%elem_of_cons & ? & ?); [congruence|]. split; [done|].
    by exists s'. }
  case_match eqn:Hs; bool_prop.
  { destruct (IH seen) as (H1 & H2 & H3). split_and!; [done|set_solver|]. intros q. rewrite H3.
    split; [set_solver|]. intros (? & s' & [->|?]%elem_of_cons & ? & ?); [congruence|]. split; [done|].
    by exists s'. }
  destruct (IH ({[path s]} ∪ seen)) as (H1 & H2 & H3). split_and!.
  - cbn. constructor; [|done]. intros (s' & He & Hs')%list_elem_of_fmap.
    destruct (H2 s' Hs') as (_ & _ & Hn). set_solver.
  - intros s' [->|Hs']%elem_of_cons; [set_solver|]. destruct (H2 s' Hs'). set_solver.
  - intros q. split.
    + intros (s' & [->|Hs']%elem_of_cons & <-); [split; [done|]; exists s; set_solver|].
      destruct (H2 s' Hs') as (? & ? & ?). split; [set_solver|]. exists s'. set_solver.
    + intros (Hq & s' & [->|Hs']%elem_of_cons & Hd' & <-); [exists s; set_solver|].
      destruct (decide (path s' = path s)) as [He|Hne]; [exists s; set_solver|].
      destruct (H3 (path s')) as [_ H3']. destruct H3' as (s2 & ? & ?); [|exists s2; set_solver].
      split; [set_solver|]. by exists s'.
Qed.

Lemma utf8_split_char s : utf8 s → Forall utf8 (split_char "/" s).
Proof.
  remember (String.length s) as n eqn:Hn. assert (Hle : (String.length s ≤ n)%nat) by lia. clear Hn.
  revert s Hle. induction n as [|n IH]; intros s Hle Hu;
    (destruct (first_char "/" s) as [Hc|(a & b & -> & Ha)];
      [rewrite split_char_no_char by done; by apply Forall_singleton|]).
  - exfalso. pose proof (len_app a (String "/" b)) as Hl. unfold len in Hl. cbn in Hl. lia.
  - destruct (utf8_split a "/" b Hu) as [Hua Hub]; [done|]. rewrite split_char_app by done.
    constructor; [done|]. apply IH; [|done].
    pose proof (len_app a (String "/" b)) as Hl. unfold len in Hl. cbn in Hl. lia.
Qed.

Lemma base_name_utf8 p : utf8 p → utf8 (base_name p).
Proof.
  intros Hp. apply utf8_split_char in Hp. unfold base_name.
  destruct (last (split_char "/" p)) as [x|] eqn:Hl; cbn; [|by apply utf8_check].
  apply last_Some_elem_of in Hl. rewrite Forall_forall in Hp. by apply Hp.
Qed.

Lemma name_files_Some used l files :
  Forall (λ s, utf8 (path s)) l → name_files used l = Some files →
  file_path <$> files = path <$> l ∧ NoDup (file_name <$> files) ∧
  Forall (λ f, file_name f ∉ used ∧ utf8 (file_name f) ∧ Manifest.portable (file_name f)) files.
Proof.
  revert used files. induction l as [|s l IH]; intros used files Hu Hf; cbn [name_files] in Hf.
  { injection Hf as <-. split_and!; [done|constructor..]. }
  apply Forall_cons in Hu as [Hs Hu].
  destruct (unique_name _ used) as [[name used1]|] eqn:Hun; [|done]. cbn in Hf.
  destruct (name_files used1 l) as [fs|] eqn:Hfs; [|done]. cbn in Hf. injection Hf as <-.
  destruct (safe_filename_safe _ (base_name_utf8 _ Hs)) as [Hsu Hsp].
  destruct (unique_name_Some _ _ _ _ Hsu Hsp Hun) as (Hnew & -> & Hnu & Hnp).
  destruct (IH _ _ Hu Hfs) as (H1 & H2 & H3). rewrite Forall_forall in H3. split_and!.
  - cbn. by rewrite H1.
  - cbn. constructor; [|done]. intros (f & He & Hf)%list_elem_of_fmap.
    destruct (H3 f Hf) as [Hn _]. set_solver.
  - constructor; [by cbn|]. apply Forall_forall. intros f Hf. destruct (H3 f Hf) as (? & ? & ?).
    split_and!; [set_solver|done..].
Qed.

End prepare.

Section properties.
Context `{Cancellation}.

Lemma gathered_nil : gathered ∅ [].
Proof. split_and!; [constructor|constructor|set_solver]. Qed.

(** The sources a successful [prepare] went on with. *)
Lemma prepare_Ok paths mode maximum answer n n' out :
  Forall root_utf8 paths → consistent paths →
  prepare paths mode maximum answer n = (n', Ok out) →
  ∃ names sources, gathered names sources ∧
    (∀ q, (∃ s, s ∈ sources ∧ is_file_at q s) ↔
       ∃ r, Ok r ∈ paths ∧ reaches (root_path r) (root_node r) q) ∧
    match out with
    | Archive name entries => entries = sources ∧ archive_name paths = Ok name
    | Files files =>
        name_files ∅ (regular ∅ sources) = Some files ∧
        ∀ m, maximum = Some m → zlen files ≤ m
    end.
Proof.
  intros Hu Hc Hr. unfold prepare in Hr.
  apply bind_run in Hr as [(? & _ & ?)|(n1 & [] & _ & Hr)]; [done|].
  apply bind_run in Hr as [(? & _ & ?)|(n2 & [sources hd] & Hg & Hr)]; [done|].
  destruct (gather_Ok _ _ _ _ _ _ _ _ _ Hu Hc gathered_nil Hg) as [[names Hgs] Hq].
  exists names, sources. split; [done|]. split.
  { intros q. rewrite Hq. set_solver. }
  apply bind_run in Hr as [(? & _ & ?)|(n3 & total & _ & Hr)]; [done|].
  apply bind_run in Hr as [(? & _ & ?)|(n4 & m & _ & Hr)]; [done|].
  case_match eqn:Hm.
  - apply bind_run in Hr as [(? & _ & ?)|(n5 & [] & _ & Hr)]; [done|].
    apply bind_run in Hr as [(? & _ & ?)|(n6 & name & Hname & Hr)]; [done|].
    apply bind_run in Hr as [(? & _ & ?)|(n7 & [] & _ & Hr)]; [done|].
    apply bind_run in Hr as [(? & _ & ?)|(n8 & [] & _ & Hr)]; [done|].
    injection Hr as _ <-. unfold of_result in Hname. injection Hname as _ ->. by split.
  - case_match; [done|]. case_match eqn:Hmax; [done|].
    apply bind_run in Hr as [(? & _ & ?)|(n5 & files & Hf & Hr)]; [done|].
    injection Hr as _ <-. unfold must, of_result in Hf. injection Hf as _ Hf.
    destruct (name_files ∅ (regular ∅ sources)) as [fs|] eqn:Hnf; cbn in Hf; [injection Hf as ->|done].
    split; [done|]. intros mx ->. bool_prop.
    assert (Hfu : Forall (λ s, utf8 (path s)) (regular ∅ sources)).
    { apply Forall_forall. intros s Hs. destruct (regular_spec ∅ sources) as (_ & H2 & _).
      destruct (H2 s Hs) as (Hin & _). destruct Hgs as (_ & Hall & _). rewrite Forall_forall in Hall.
      by destruct (Hall s Hin) as (_ & ? & _). }
    destruct (name_files_Some _ _ _ Hfu Hnf) as (Hp & _).
    apply (f_equal length) in Hp. rewrite !length_fmap in Hp. unfold zlen in *. lia.
Qed.

(** Sources from a host: the archive's entries and the files' names are as safe. *)
Lemma archive_sources_Ok seen sources n n' l :
  Forall (λ s, utf8 (fst s)) sources → archive_sources seen sources n = (n', Ok l) →
  NoDup (source_name <$> l) ∧ Forall (λ s, safe_entry (source_name s) ∧ source_name s ∉ seen) l.
Proof.
  revert seen n n' l. induction sources as [|[src len] sources IH]; intros seen n n' l Hu Hr;
    cbn [archive_sources] in Hr; [by injection Hr as _ <-; split; constructor|].
  apply Forall_cons in Hu as [Hs Hu]. cbn [fst] in Hs.
  apply bind_run in Hr as [(? & _ & ?)|(n1 & [] & _ & Hr)]; [done|].
  apply bind_run in Hr as [(? & _ & ?)|(n2 & name & Hname & Hr)]; [done|].
  case_match eqn:Hin; [done|]. bool_prop.
  apply bind_run in Hr as [(? & _ & ?)|(n3 & l' & Hl & Hr)]; [done|]. injection Hr as _ <-.
  destruct (IH _ _ _ _ Hu Hl) as [Hn Hf]. rewrite Forall_forall in Hf.
  unfold of_result in Hname. injection Hname as _ Hname. unfold safe_archive_path in Hname.
  guards Hname. injection Hname as Hname. split.
  - cbn. constructor; [|done]. intros (s & He & Hs')%list_elem_of_fmap.
    destruct (Hf s Hs') as [_ Hf']. set_solver.
  - constructor.
    + cbn. split; [|done]. rewrite <- Hname. apply safe_entry_concat.
      * destruct (split_char_cons "/" src) as (p & ps & ->). done.
      * apply utf8_split_char in Hs. eapply Forall_impl; [exact Hs|]. intros q Hq. by apply safe_filename_safe.
    + apply Forall_forall. intros s Hs'. destruct (Hf s Hs'). split; [done|]. set_solver.
Qed.

(** An individual selection sends exactly the regular files that can be
    reached from the selected paths without following a link, each once however
    the selected paths overlap, and no more than the instance allows; and it
    sends them under names the receiver accepts: no two share a portable name
    and each is stored under the very name it is sent with. *)
Theorem prepared_files paths mode maximum answer n n' files :
  Forall root_utf8 paths → consistent paths →
  prepare paths mode maximum answer n = (n', Ok (Files files)) →
  (∀ q, q ∈ file_path <$> files ↔ ∃ r, Ok r ∈ paths ∧ reaches (root_path r) (root_node r) q) ∧
  NoDup (file_path <$> files) ∧
  (∀ m, maximum = Some m → zlen files ≤ m) ∧
  NoDup (Manifest.portable_filename ∘ file_name <$> files) ∧
  Forall (λ f, Manifest.portable_filename (file_name f) = file_name f ∧ file_name f ≠ "") files.
Proof.
  intros Hu Hc Hr. destruct (prepare_Ok _ _ _ _ _ _ _ Hu Hc Hr) as (names & sources & Hg & Hq & Hnf & Hm).
  destruct (regular_spec ∅ sources) as (Hnd & Hin & Hreg). destruct Hg as (_ & Hall & _).
  rewrite Forall_forall in Hall.
  assert (Hfu : Forall (λ s, utf8 (path s)) (regular ∅ sources)).
  { apply Forall_forall. intros s Hs. destruct (Hin s Hs) as (Hs' & _). by destruct (Hall s Hs') as (_ & ? & _). }
  destruct (name_files_Some _ _ _ Hfu Hnf) as (Hp & Hn & Hf).
  assert (Hid : ∀ f, f ∈ files → Manifest.portable_filename (file_name f) = file_name f ∧ file_name f ≠ "").
  { intros f Hff. rewrite Forall_forall in Hf. destruct (Hf f Hff) as (_ & Huf & Hpf).
    split; [by apply Manifest.portable_id|apply Hpf]. }
  split_and!.
  - intros q. rewrite Hp, <- Hq, list_elem_of_fmap. specialize (Hreg q). set_solver.
  - by rewrite Hp.
  - done.
  - assert (Manifest.portable_filename ∘ file_name <$> files = file_name <$> files) as ->; [|done].
    apply list_fmap_ext. intros i f Hl. apply Hid. by eapply list_elem_of_lookup_2.
  - by apply Forall_forall.
Qed.

(** A ZIP selection unpacks to what was selected: the entries of the archive
    have pairwise distinct names, every component of every name is portable, so
    no entry is absolute or climbs out of the directory it is unpacked to, and
    the files among them are exactly the regular files reached from the selected
    paths. *)
Theorem archive_entries paths mode maximum answer n n' name entries :
  Forall root_utf8 paths → consistent paths →
  prepare paths mode maximum answer n = (n', Ok (Archive name entries)) →
  NoDup (source_name <$> entries) ∧
  Forall (λ s, safe_entry (source_name s)) entries ∧
  ∀ q, (∃ s, s ∈ entries ∧ is_file_at q s) ↔
    ∃ r, Ok r ∈ paths ∧ reaches (root_path r) (root_node r) q.
Proof.
  intros Hu Hc Hr. destruct (prepare_Ok _ _ _ _ _ _ _ Hu Hc Hr) as (names & sources & Hg & Hq & -> & _).
  destruct Hg as (Hn & Hf & _). split_and!; [done| |done].
  eapply Forall_impl; [exact Hf|]. by intros s [].
Qed.

End properties.

(** ** A concrete selection *)

Module Example_selection.

#[export] Instance quiet : Cancellation := λ _, false.

Definition tree : Node :=
  NDir [("b:1.txt", NFile 3); ("link", NLink); ("a", NDir [("b?1.txt", NFile 4); ("CON", NFile 5)])].
Definition paths : list (result string Root) :=
  [Ok {| root_path := "/home/docs"; root_name := "docs"; root_node := tree |};
   Ok {| root_path := "/home/docs/a/CON"; root_name := "CON"; root_node := NFile 5 |}].

Definition sent (r : nat * result string Prepared) : list string :=
  match snd r with
  | Ok (Files l) => file_name <$> l
  | Ok (Archive _ l) => source_name <$> l
  | Err e => [e]
  end.

(** Individually, the names that collide once made portable are told apart. *)
Example individual_names :
  sent (prepare paths Individual (Some 3) (Err "no prompt") 0%nat) = ["download"; "b_1.txt"; "b_1 (2).txt"].
Proof. vm_compute. reflexivity. Qed.

(** Two such entries of one directory are refused, even when no archive is made. *)
Example name_collision :
  sent (prepare [Ok {| root_path := "/d"; root_name := "d";
                       root_node := NDir [("b:1", NFile 1); ("b?1", NFile 2)] |}]
    Individual None (Err "no prompt") 0%nat) = ["Two entries have the same portable ZIP path: d/b_1"].
Proof. vm_compute. reflexivity. Qed.

Definition flat : list (result string Root) :=
  [Ok {| root_path := "/home/a"; root_name := "a"; root_node := NDir [("x", NFile 1); ("w", NLink)] |};
   Ok {| root_path := "/mnt/a"; root_name := "a"; root_node := NFile 2 |}].

Example zip_names :
  sent (prepare flat Zip None (Err "no prompt") 0%nat) = ["a"; "a/x"; "a (2)"].
Proof. vm_compute. reflexivity. Qed.

Lemma paths_utf8 : Forall root_utf8 paths ∧ Forall root_utf8 flat.
Proof. split; repeat constructor; by apply utf8_check. Qed.

Lemma paths_consistent : consistent paths ∧ consistent flat.
Proof.
  split; intros r r' Hr Hr'; unfold paths, flat in *;
    repeat (apply elem_of_cons in Hr as [Hr|Hr]; [injection Hr as ->|]); try (by apply elem_of_nil in Hr);
    repeat (apply elem_of_cons in Hr' as [Hr'|Hr']; [injection Hr' as ->|]); try (by apply elem_of_nil in Hr');
    cbn; by intros.
Qed.

Lemma prepared_files_witness :
  ∃ n' files, prepare paths Individual (Some 3) (Err "no prompt") 0%nat = (n', Ok (Files files)) ∧
    length files = 3%nat ∧ NoDup (file_path <$> files).
Proof.
  eexists _, _. split; [vm_compute; reflexivity|]. split; [reflexivity|].
  eapply (prepared_files paths Individual (Some 3) (Err "no prompt") 0%nat).
  - apply paths_utf8.
  - apply paths_consistent.
  - vm_compute. reflexivity.
Defined.

Lemma archive_entries_witness :
  ∃ n' name entries, prepare flat Zip None (Err "no prompt") 0%nat = (n', Ok (Archive name entries)) ∧
    length entries = 3%nat ∧ NoDup (source_name <$> entries).
Proof.
  eexists _, _, _. split; [vm_compute; reflexivity|]. split; [reflexivity|].
  eapply (archive_entries flat Zip None (Err "no prompt") 0%nat).
  - apply paths_utf8.
  - apply paths_consistent.
  - vm_compute. reflexivity.
Defined.

End Example_selection.
