(* ===== verification/Opening.v ===== *)
(** * Opening a transfer (crates/transfer-native/src/protocol/download.rs)

    What a receiver does with a link before the first chunk: it asks the server
    what it can do and for the transfer's metadata, derives the key, opens the
    sealed manifest (or the early descriptor of a Turbo transfer), checks it
    against the metadata, and saves the job [Download] runs.  Sealing.v is the
    sender's side of the same values. *)

From Stdlib Require Import Ascii String.
From S2P Require Import Prelude Str Frame Codec Json Encryption Transport Http Monad Sealing.
From S2P Require Manifest Control Upload Download Selection Fs.
Open Scope Z_scope.

#[export] Instance AttachedNote_eq_dec : EqDecision Manifest.AttachedNote.
Proof. solve_decision. Defined.

(** ** What the server says *)

Record MetadataItem := { m_id : string; m_position : Z; m_chunk_count : Z }.

Record Transfer := {
  driver : string;
  t_id : string;
  protocol_version : Z;
  chunk_bytes : Z;
  encrypted_manifest : option string;
  encrypted_descriptor : option string;
  t_items : list MetadataItem;
  download_concurrency : option Z;
  download_ranges : bool }.

(** [DownloadCapabilities]: the two limits, with [None] for a field that is
    absent. *)
Record Capabilities := { cap_concurrency : option Z; cap_ranges : option bool }.

Record TurboSession := { session_id : string; session_token : string }.

(** The derived [Deserialize]s. *)
Definition ranges_of (j : json) : option bool :=
  if is_object j then default_field as_bool false "download_ranges" j else None.

Definition metadata_item_of (j : json) : option MetadataItem :=
  i ← str_field "id" j; p ← u64_field "position" j; n ← u64_field "chunk_count" j;
  Some {| m_id := i; m_position := p; m_chunk_count := n |}.

(** [TransferCapabilities] has a second flag, which must be a boolean too. *)
Definition transfer_capabilities_of (j : json) : option bool :=
  _ ← default_field as_bool false "upload_status" j; ranges_of j.

Definition transfer_of (j : json) : option Transfer :=
  driver ← default_field as_str "http" "driver" j;
  id ← str_field "id" j;
  protocol ← u8_field "protocol_version" j;
  chunk ← u64_field "chunk_bytes" j;
  manifest ← opt_field as_str "encrypted_manifest" j;
  descriptor ← opt_field as_str "encrypted_descriptor" j;
  items ← default_field (λ v, l ← as_array v; mapM metadata_item_of l) [] "items" j;
  concurrency ← opt_field Json.as_u32 "download_concurrency" j;
  ranges ← default_field transfer_capabilities_of false "transfer_capabilities" j;
  Some {| driver := driver; t_id := id; protocol_version := protocol; chunk_bytes := chunk;
          encrypted_manifest := manifest; encrypted_descriptor := descriptor; t_items := items;
          download_concurrency := concurrency; download_ranges := ranges |}.

Definition capabilities_of (j : json) : option Capabilities :=
  concurrency ← opt_field Json.as_u32 "download_concurrency" j;
  ranges ← opt_field ranges_of "transfer_capabilities" j;
  Some {| cap_concurrency := concurrency; cap_ranges := ranges |}.

Definition session_of (j : json) : option TurboSession :=
  i ← str_field "id" j; t ← str_field "token" j;
  Some {| session_id := i; session_token := t |}.

(** [serde_json::from_slice::<Manifest>] and [TurboDescriptor]. *)
Definition digest_of (j : json) : option Manifest.DigestValue :=
  a ← str_field "algorithm" j; v ← str_field "value" j;
  Some {| Manifest.algorithm := a; Manifest.value := v |}.

Definition manifest_item_of (j : json) : option Manifest.ManifestItem :=
  i ← str_field "id" j;
  name ← str_field "name" j;
  mime ← str_field "type" j;
  size ← u64_field "size" j;
  prefix ← str_field "nonce_prefix" j;
  count ← u64_field "chunk_count" j;
  digest ← field "digest" j ≫= digest_of;
  Some {| Manifest.id := i; Manifest.name := name; Manifest.mime := mime; Manifest.size := size;
          Manifest.nonce_prefix := prefix; Manifest.item_chunk_count := count;
          Manifest.digest := digest |}.

Definition manifest_of (j : json) : option Manifest.Manifest :=
  note ← opt_field note_of "attached_note" j;
  token ← opt_field as_str "join_token" j;
  version ← u8_field "version" j;
  items ← vec_field manifest_item_of "items" j;
  Some {| Manifest.attached_note := note; Manifest.join_token := token; Manifest.version := version;
          Manifest.items := items |}.

Record TurboDescriptor := {
  d_note : option Manifest.AttachedNote;
  d_version : Z;
  d_purpose : string;
  d_chunk_bytes : Z;
  d_items : list Manifest.ManifestItem }.

(** A descriptor's item has no digest; [turbo_descriptor_for] gives it the
    empty one. *)
Definition descriptor_item_of (j : json) : option Manifest.ManifestItem :=
  i ← str_field "id" j;
  name ← str_field "name" j;
  mime ← str_field "type" j;
  size ← u64_field "size" j;
  prefix ← str_field "nonce_prefix" j;
  count ← u64_field "chunk_count" j;
  Some {| Manifest.id := i; Manifest.name := name; Manifest.mime := mime; Manifest.size := size;
          Manifest.nonce_prefix := prefix; Manifest.item_chunk_count := count;
          Manifest.digest := {| Manifest.algorithm := "sha256"; Manifest.value := "" |} |}.

Definition descriptor_of (j : json) : option TurboDescriptor :=
  note ← opt_field note_of "attached_note" j;
  version ← u8_field "version" j;
  purpose ← str_field "purpose" j;
  chunk ← u64_field "chunk_bytes" j;
  items ← vec_field descriptor_item_of "items" j;
  Some {| d_note := note; d_version := version; d_purpose := purpose; d_chunk_bytes := chunk;
          d_items := items |}.

(** ** Requests *)

(** A response: its status and what [read_limited] reads of its body. *)
Record Reply := { status : Z; body : result string (list Z) }.

Definition is_success (r : Reply) : bool := (200 <=? status r) && (status r <=? 299).

Section requests.
Context `{Js : JsonText}.

(** [response_json::<Api<T>>] and its [data]. *)
Definition response_data {A} (rd : json → option A) (label : string) (r : Reply) : result string A :=
  body ← context (body r) (label +:+ " timed out or could not be read");
  ok_or (from_slice body ≫= λ j, field "data" j ≫= rd) ("invalid " +:+ label +:+ " JSON").

Definition MAX_ATTEMPTS : Z := 6.

(** [request] and [wait] are what the requests and the delays of the attempts
    come to; a cancelled one is an error. *)
Fixpoint metadata_from (turns : nat) (request : Z → result string Reply)
    (wait : Z → result string ()) (attempt : Z) : result string Transfer :=
  match turns with
  | O => Err "transfer is still pending"
  | S turns =>
      r ← request attempt;
      if status r =? 202
      then _ ← wait attempt; metadata_from turns request wait (attempt + 1)
      else
        reject bool_decide (status r ∈ [404; 410])
          with "transfer is unavailable, expired, or has been revoked";
        reject negb (is_success r) with "metadata request failed";
        response_data transfer_of "metadata response body" r
  end.

Definition metadata (request : Z → result string Reply) (wait : Z → result string ())
    : result string Transfer :=
  metadata_from (Z.to_nat MAX_ATTEMPTS) request wait 0.

Definition capabilities (request : result string Reply) : result string Capabilities :=
  r ← request;
  if bool_decide (status r ∈ [404; 405])
  then Ok {| cap_concurrency := Some 1; cap_ranges := Some false |}
  else
    reject negb (is_success r) with "instance capability request failed";
    response_data capabilities_of "instance capability response body" r.

Definition create_turbo_session (request : result string Reply) : result string TurboSession :=
  r ← request;
  reject negb (is_success r) with "create Turbo download session failed";
  session ← response_data session_of "Turbo session response" r;
  reject is_empty (session_id session) || is_empty (session_token session)
    with "invalid Turbo download session";
  Ok session.
End requests.

Definition server_download_limit (c : Capabilities) (t : Transfer) : Z :=
  clamp (Z.min (default 1 (cap_concurrency c)) (default u32_max (download_concurrency t))) 1 8.

Definition server_ranges (c : Capabilities) (t : Transfer) : bool :=
  default false (cap_ranges c) && download_ranges t.

Definition validate_transfer (t : Transfer) (id : string) : result string () :=
  reject negb (protocol_version t =? 1) || negb (t_id t =? id)%string || (chunk_bytes t =? 0)
         || (24999984 <? chunk_bytes t) || negb (bool_decide (driver t ∈ ["http"; "webrtc"]))
    with "unsupported or invalid transfer metadata";
  Ok ().

Definition reject_live_note (t : Transfer) : result string () :=
  reject (driver t =? "webrtc")%string && bool_decide (t_items t = [])
    with "native WebRTC note reads are unsupported; use the browser before claiming the note";
  Ok ().

(** [validate_manifest] (protocol/mod.rs) *)
Definition server_item (i : MetadataItem) : Manifest.ManifestServerItem :=
  {| Manifest.server_id := m_id i; Manifest.position := m_position i;
     Manifest.server_chunk_count := m_chunk_count i |}.

Definition validate_manifest (m : Manifest.Manifest) (t : Transfer) : result string () :=
  Manifest.validate_manifest m (driver t) (chunk_bytes t) (server_item <$> t_items t).

Definition live_join_token (t : Transfer) (m : Manifest.Manifest) : result string (option string) :=
  if (driver t =? "http")%string then Ok None
  else if (driver t =? "webrtc")%string then
    token ← ok_or (Manifest.join_token m) "live transfer manifest has no join capability";
    reject negb (len token =? 64) || negb (forallb is_ascii_alphanumeric (bytes token))
      with "live transfer manifest has an invalid join capability";
    Ok (Some token)
  else Err "unsupported download driver".

(** ** Keys and sealed values *)

Record Link := { l_id : string; l_key : option (list Z); l_instance : string }.

Record UnlockedKeys := { master : list Z; share_key : list Z }.

Section opening.
Context `{Ae : Aead, Kd : Kdf, Co : Codec, Js : JsonText, Me : Memory}.

(** [decode_share_key] (protocol/mod.rs) *)
Definition strip_v1 (s : string) : string :=
  if starts_with "v1." s then of_bytes (drop 3 (bytes s)) else s.
Definition decode_share_key (value : string) : result string (list Z) :=
  decoded ← decode (strip_v1 (trim value));
  reject negb (zlen decoded =? 32) with "share key must decode to 32 bytes";
  Ok decoded.

Definition read_envelope (text : string) : result string Envelope :=
  ok_or (from_str text ≫= envelope_of) "invalid encrypted manifest envelope".

(** The key of an envelope: under a salt, the password's. *)
Definition envelope_key (key : list Z) (salt : option string) (password : result string string)
    : result string (list Z) :=
  match salt with
  | Some salt => password ← password; password_master key salt password
  | None => Ok key
  end.

(** [share_key] and [password] are the replies to the prompts. *)
Definition unlock (link_key : option (list Z)) (share_key password : result string string)
    (envelope : string) : result string UnlockedKeys :=
  key ← match link_key with
        | Some key => Ok key
        | None => text ← share_key; decode_share_key text
        end;
  envelope ← read_envelope envelope;
  reject negb (v envelope =? 1) with "unsupported encrypted manifest version";
  master ← envelope_key key (salt envelope) password;
  Ok {| master := master; share_key := key |}.

Definition unlock_saved (share_key : list Z) (password : result string string) (envelope : string)
    : result string (list Z) :=
  envelope ← read_envelope envelope;
  envelope_key share_key (salt envelope) password.

(** What [manifest_for] and [turbo_descriptor_for] share: the sealed bytes of
    an envelope. *)
Definition open_envelope (key : list Z) (envelope aad : string) : result string (list Z) :=
  envelope ← read_envelope envelope;
  n ← manifest_crypto_bytes (len (env_ciphertext envelope));
  _ ← reserve_memory n;
  prefix ← decode (env_prefix envelope);
  ciphertext ← decode (env_ciphertext envelope);
  decrypt_manifest key prefix ciphertext (bytes aad).

Definition manifest_for (key : list Z) (id envelope : string) (t : Transfer)
    : result string Manifest.Manifest :=
  plain ← open_envelope key envelope (manifest_aad id);
  m ← ok_or (from_slice plain ≫= manifest_of) "invalid decrypted manifest";
  _ ← validate_manifest m t;
  Ok m.

(** One turn of the loop over a descriptor's items. *)
Definition check_descriptor_item (t : Transfer) (ids : gset string) (i : Manifest.ManifestItem)
    : result string (gset string) :=
  server ← ok_or (snd <$> list_find (λ s, m_id s = Manifest.id i) (t_items t))
             "Turbo descriptor references an unknown item";
  reject is_empty (Manifest.id i) || is_empty (Manifest.name i) || (255 <? len (Manifest.mime i))
         || bool_decide (Manifest.id i ∈ ids) || (Manifest.item_chunk_count i =? 0)
         || negb (Manifest.item_chunk_count i =? m_chunk_count server)
         || negb (Manifest.item_chunk_count i
                  =? Z.max (div_ceil (Manifest.size i) (chunk_bytes t)) 1)
    with "Turbo descriptor item is invalid";
  prefix ← decode (Manifest.nonce_prefix i);
  reject negb (zlen prefix =? 16) with "Turbo descriptor item is invalid";
  Ok ({[Manifest.id i]} ∪ ids).

Definition turbo_descriptor_for (key : list Z) (id envelope : string) (t : Transfer)
    : result string Manifest.Manifest :=
  reject negb (driver t =? "http")%string with "Turbo descriptors require HTTP transfers";
  plain ← open_envelope key envelope (descriptor_aad id);
  d ← ok_or (from_slice plain ≫= descriptor_of) "invalid Turbo descriptor";
  reject negb (d_version d =? 1) || negb (d_purpose d =? "turbo-descriptor")%string
         || negb (d_chunk_bytes d =? chunk_bytes t)
         || negb (Nat.eqb (length (d_items d)) (length (t_items t)))
    with "Turbo descriptor does not match transfer";
  _ ← match d_note d with Some note => Manifest.note_validate note | None => Ok () end;
  _ ← try_fold (check_descriptor_item t) ∅ (d_items d);
  Ok {| Manifest.attached_note := d_note d; Manifest.join_token := None; Manifest.version := 1;
        Manifest.items := d_items d |}.

(** ** The new job *)

(** [collision_free] (protocol/mod.rs); [present] are the names that exist in
    the directory, and [n] bounds the turns (see [collision_free_total]). *)
Fixpoint free_from (n : nat) (i : Z) (name : string) (present : gset string) : option string :=
  match n with
  | O => None
  | S n =>
      let candidate := name +:+ " (" +:+ decimal i +:+ ")" in
      if bool_decide (candidate ∈ present) then free_from n (i + 1) name present else Some candidate
  end.
Definition collision_free (present : gset string) (directory : Fs.path) (name : string)
    : option Fs.path :=
  Fs.join directory <$>
    (if bool_decide (name ∈ present) then free_from (S (size present)) 1 name present
     else Some name).

Definition new_item (descriptor : bool) (present : gset string) (output : Fs.path)
    (i : Manifest.ManifestItem) : option Download.SavedItem :=
  target ← collision_free present output (Selection.safe_filename (Manifest.name i));
  Some {| Download.id := Manifest.id i; Download.name := Manifest.name i;
          Download.size := Manifest.size i; Download.nonce_prefix := Manifest.nonce_prefix i;
          Download.chunk_count := Manifest.item_chunk_count i;
          Download.digest := if descriptor then "" else Manifest.value (Manifest.digest i);
          Download.target := target;
          Download.verified := replicate (Z.to_nat (Manifest.item_chunk_count i)) false;
          Download.published := false |}.

Fixpoint new_items (descriptor : bool) (present : gset string) (output : Fs.path)
    (names : gset string) (l : list Manifest.ManifestItem)
    : result string (list Download.SavedItem) :=
  match l with
  | [] => Ok []
  | i :: l =>
      reject bool_decide (Manifest.name i ∈ names) with "manifest has duplicate filenames";
      saved ← ok_or (new_item descriptor present output i) "unreachable";
      rest ← new_items descriptor present output ({[Manifest.name i]} ∪ names) l;
      Ok (saved :: rest)
  end.

Definition total_of (l : list Manifest.ManifestItem) : result string Z :=
  try_fold (λ n i, ok_or (checked_add n (Manifest.size i)) "transfer is too large") 0 l.

(** ** [async_run]

    What the user, the disk and the server do, and what a run has left behind:
    the saved share key and job, and the note and checkpoint id shown. *)

Record Env := {
  phase_reply : result string ();               (** building the client, [control.phase(..)?] *)
  info_reply : result string Reply;
  metadata_reply : Z → result string Reply;
  retry_wait : Z → result string ();
  share_key_prompt : result string string;
  password_prompt : result string string;
  secret_reply : Io;                            (** [store.save_secret] *)
  output_reply : result string Fs.path;         (** [create_dir_all] and [canonicalize] *)
  present : gset string;                        (** the names in the output directory *)
  session_reply : result string Reply;
  save_reply : Io;                              (** [store.save] *)
  folder : string }.                            (** the name of the store's directory *)

Record Setup := {
  secret : option (list Z);
  saved : option Download.DownloadJob;
  note : option Manifest.AttachedNote;
  checkpoint_id : option string }.

Definition with_secret k (s : Setup) : Setup :=
  {| secret := Some k; saved := saved s; note := note s; checkpoint_id := checkpoint_id s |}.
Definition with_saved j (s : Setup) : Setup :=
  {| secret := secret s; saved := Some j; note := note s; checkpoint_id := checkpoint_id s |}.
Definition with_note n (s : Setup) : Setup :=
  {| secret := secret s; saved := saved s; note := n; checkpoint_id := checkpoint_id s |}.
Definition with_checkpoint_id i (s : Setup) : Setup :=
  {| secret := secret s; saved := saved s; note := note s; checkpoint_id := Some i |}.

(** How a run goes on: it leaves the job to the background, or calls
    [download] with the key and the join token. *)
Inductive Started :=
| Background (id : string)
| Running (job : Download.DownloadJob) (master : list Z) (join_token : option string).

Definition is_public (s : Download.DownloadSource) : bool :=
  match s with Download.Public => true | Download.Inbox => false end.

Notation R := (SE Setup string).

(** A durable write: it can also fail after it has taken effect, when the directory
    cannot be synchronized. *)
Definition write (io : Io) (f : Setup → Setup) : R () := λ s,
  let '(r, s') := io_write io f s in (s', r).

Definition descriptor_used (t : Transfer) : option string :=
  match encrypted_manifest t with Some _ => None | None => encrypted_descriptor t end.

Definition envelope_used (t : Transfer) : result string string :=
  ok_or (match encrypted_manifest t with Some e => Some e | None => descriptor_used t end)
    "transfer has no encrypted manifest or Turbo descriptor".

Definition open_any (turbo : bool) (key : list Z) (id envelope : string) (t : Transfer)
    : result string Manifest.Manifest :=
  if turbo then turbo_descriptor_for key id envelope t else manifest_for key id envelope t.

Definition new_turbo (e : Env) (descriptor : option string) : result string (option Download.TurboJob) :=
  match descriptor with
  | Some descriptor =>
      session ← create_turbo_session (session_reply e);
      Ok (Some {| Download.descriptor := descriptor; Download.session_id := session_id session;
                  Download.session_token := session_token session; Download.sequence := 0 |})
  | None => Ok None
  end.

Definition new_job (e : Env) (link : Link) (source : Download.DownloadSource) (background : bool)
    (c : Capabilities) (t : Transfer) (envelope : string) (turbo : option Download.TurboJob)
    (output : Fs.path) (total : Z) (items : list Download.SavedItem) : Download.DownloadJob :=
  {| Download.version := Download.VERSION; Download.job_id := folder e;
     Download.direction := "download";
     Download.state := if background then "awaiting-execution" else "running";
     Download.instance := l_instance link; Download.done_bytes := 0; Download.total := total;
     Download.transfer_id := l_id link; Download.chunk_bytes := chunk_bytes t;
     Download.server_concurrency := server_download_limit c t;
     Download.ranges := server_ranges c t; Download.driver := driver t;
     Download.envelope := envelope; Download.source := source; Download.turbo := turbo;
     Download.output := output; Download.items := items; Download.selected_item_ids := None;
     Download.selection_frozen := false |}.

Definition run (e : Env) (link : Link) (source : Download.DownloadSource) (background : bool)
    : R Started :=
  _ ← of_result (phase_reply e);
  c ← of_result (capabilities (info_reply e));
  t ← of_result (metadata (metadata_reply e) (retry_wait e));
  _ ← of_result (validate_transfer t (l_id link));
  _ ← of_result (reject_live_note t);
  let descriptor := descriptor_used t in
  envelope ← of_result (envelope_used t);
  keys ← of_result (unlock (l_key link) (share_key_prompt e) (password_prompt e) envelope);
  _ ← (if is_public source then write (secret_reply e) (with_secret (share_key keys)) else mret ());
  output ← of_result (output_reply e);
  let turbo := bool_decide (is_Some descriptor) in
  m ← of_result (open_any turbo (master keys) (l_id link) envelope t);
  token ← of_result (live_join_token t m);
  _ ← modify (with_note (Manifest.attached_note m));
  total ← of_result (total_of (Manifest.items m));
  items ← of_result (new_items turbo (present e) output ∅ (Manifest.items m));
  turbo ← of_result (new_turbo e descriptor);
  let job := new_job e link source background c t envelope turbo output total items in
  _ ← write (save_reply e) (with_saved job);
  _ ← modify (with_checkpoint_id (Download.job_id job));
  if background then mret (Background (Download.job_id job))
  else mret (Running job (master keys) token).

(** ** [async_resume]

    Up to the restoration of the items, which is [Download.rebuild].  The source
    checks the layout of each item just before it restores it; here all the
    checks come first, which changes only how much scratch plaintext a refused
    resume has rewritten. *)

Definition same_layout (turbo : bool) (s : Download.SavedItem) (i : Manifest.ManifestItem) : bool :=
  (Download.id s =? Manifest.id i)%string && (Download.size s =? Manifest.size i)
  && (Download.chunk_count s =? Manifest.item_chunk_count i)
  && (turbo || (Download.digest s =? Manifest.value (Manifest.digest i))%string).

Definition identity_changed (t : Transfer) (j : Download.DownloadJob) : bool :=
  negb (chunk_bytes t =? Download.chunk_bytes j) || negb (driver t =? Download.driver j)%string
  || match Download.turbo j with
     | None => negb (bool_decide (encrypted_manifest t = Some (Download.envelope j)))
     | Some turbo => negb (bool_decide (encrypted_descriptor t = Some (Download.descriptor turbo)))
     end.

Definition with_limits (c : Capabilities) (t : Transfer) (j : Download.DownloadJob)
    : Download.DownloadJob :=
  {| Download.version := Download.version j; Download.job_id := Download.job_id j;
     Download.direction := Download.direction j; Download.state := Download.state j;
     Download.instance := Download.instance j; Download.done_bytes := Download.done_bytes j;
     Download.total := Download.total j; Download.transfer_id := Download.transfer_id j;
     Download.chunk_bytes := Download.chunk_bytes j;
     Download.server_concurrency := server_download_limit c t;
     Download.ranges := server_ranges c t; Download.driver := Download.driver j;
     Download.envelope := Download.envelope j; Download.source := Download.source j;
     Download.turbo := Download.turbo j; Download.output := Download.output j;
     Download.items := Download.items j;
     Download.selected_item_ids := Download.selected_item_ids j;
     Download.selection_frozen := Download.selection_frozen j |}.

(** [stored] is [store.load_secret("share-key")]. *)
Definition resume_key (source : Download.DownloadSource) (inbox_key : option (list Z))
    (stored : result string (option (list Z))) : result string (list Z) :=
  key ← match source with
        | Download.Inbox => ok_or inbox_key "inbox download resume requires reauthentication"
        | Download.Public =>
            key ← stored;
            ok_or key "saved download key is unavailable; restart with the original link"
        end;
  reject negb (zlen key =? 32) with "saved download key is invalid";
  Ok key.

Definition reopen (e : Env) (inbox_key : option (list Z)) (stored : result string (option (list Z)))
    (j : Download.DownloadJob) : R (Download.DownloadJob * list Z * option string) :=
  c ← of_result (capabilities (info_reply e));
  key ← of_result (resume_key (Download.source j) inbox_key stored);
  _ ← (if is_public (Download.source j) then write (secret_reply e) (with_secret key) else mret ());
  t ← of_result (metadata (metadata_reply e) (retry_wait e));
  _ ← of_result (validate_transfer t (Download.transfer_id j));
  _ ← of_result (reject_live_note t);
  if identity_changed t j then fail "transfer identity changed; refusing saved ciphertext" else
  master ← of_result (unlock_saved key (password_prompt e) (Download.envelope j));
  let turbo := bool_decide (is_Some (Download.turbo j)) in
  m ← of_result (open_any turbo master (Download.transfer_id j) (Download.envelope j) t);
  token ← of_result (live_join_token t m);
  _ ← modify (with_note (Manifest.attached_note m));
  if negb (Nat.eqb (length (Manifest.items m)) (length (Download.items j)))
     || negb (forallb (λ p, same_layout turbo (fst p) (snd p))
                (zip (Download.items j) (Manifest.items m)))
  then fail "saved download layout changed" else
  mret (with_limits c t j, master, token).

(** What a resume without Turbo asks of the world: the server still serves the
    transfer that was saved, and the key and the password open its manifest, which
    lists the saved files. *)
Record resumable (e : Env) (key : list Z) (j : Download.DownloadJob) (c : Capabilities) (t : Transfer)
    (master : list Z) (m : Manifest.Manifest) (token : option string) : Prop := {
  rs_turbo : Download.turbo j = None;
  rs_key : zlen key = 32;
  rs_secret : secret_reply e = Done;
  rs_info : capabilities (info_reply e) = Ok c;
  rs_metadata : metadata (metadata_reply e) (retry_wait e) = Ok t;
  rs_valid : validate_transfer t (Download.transfer_id j) = Ok ();
  rs_files : reject_live_note t = Ok ();
  rs_chunk : chunk_bytes t = Download.chunk_bytes j;
  rs_driver : driver t = Download.driver j;
  rs_envelope : encrypted_manifest t = Some (Download.envelope j);
  rs_unlock : unlock_saved key (password_prompt e) (Download.envelope j) = Ok master;
  rs_manifest : manifest_for master (Download.transfer_id j) (Download.envelope j) t = Ok m;
  rs_token : live_join_token t m = Ok token;
  rs_layout : Forall2 (λ s i, same_layout false s i = true) (Download.items j) (Manifest.items m) }.

Lemma reopen_works e inbox_key stored j c t key master m token s :
  resumable e key j c t master m token → resume_key (Download.source j) inbox_key stored = Ok key →
  ∃ s', reopen e inbox_key stored j s = (s', Ok (with_limits c t j, master, token)) ∧
    note s' = Manifest.attached_note m ∧ saved s' = saved s.
Proof.
  intros [Hturbo _ Hsec Hinfo Hmeta Hval Hlive Hchunk Hdriver Henv Hun Hman Htok Hlay] Hkey. unfold reopen.
  rewrite (bind_Ok _ _ s s c) by (unfold of_result; by rewrite Hinfo).
  rewrite (bind_Ok _ _ s s key) by (unfold of_result; by rewrite Hkey).
  assert (Hw : ∃ s1, (if is_public (Download.source j) then write (secret_reply e) (with_secret key) else mret ()) s
    = (s1, Ok ()) ∧ saved s1 = saved s).
  { destruct (is_public _); [|by exists s]. unfold write. rewrite Hsec. by eexists. }
  destruct Hw as (s1 & Hw & Hs1). rewrite (bind_Ok _ _ _ _ _ Hw).
  rewrite (bind_Ok _ _ s1 s1 t) by (unfold of_result; by rewrite Hmeta).
  rewrite (bind_Ok _ _ s1 s1 ()) by (unfold of_result; by rewrite Hval).
  rewrite (bind_Ok _ _ s1 s1 ()) by (unfold of_result; by rewrite Hlive).
  assert (Hid : identity_changed t j = false).
  { unfold identity_changed. rewrite Hturbo, Hchunk, Hdriver, Henv, Z.eqb_refl, String.eqb_refl.
    by rewrite bool_decide_true. }
  rewrite Hid, Hturbo. rewrite bool_decide_false by by intros [].
  rewrite (bind_Ok _ _ s1 s1 master) by (unfold of_result; by rewrite Hun). cbn [open_any].
  rewrite (bind_Ok _ _ s1 s1 m) by (unfold of_result; by rewrite Hman).
  rewrite (bind_Ok _ _ s1 s1 token) by (unfold of_result; by rewrite Htok).
  rewrite (bind_Ok _ _ s1 (with_note (Manifest.attached_note m) s1) ()) by done.
  rewrite (Forall2_length _ _ _ Hlay), Nat.eqb_refl. cbn [negb orb].
  replace (forallb _ _) with true; [by eexists|]. symmetry. clear - Hlay.
  induction Hlay as [|x y l k Hxy _ IH]; [done|]. cbn. by rewrite Hxy.
Qed.

(** ** The end of a Turbo transfer *)

Definition binds (s : Download.SavedItem) (i : Manifest.ManifestItem) : bool :=
  (Download.id s =? Manifest.id i)%string && (Download.name s =? Manifest.name i)%string
  && (Download.size s =? Manifest.size i)
  && (Download.nonce_prefix s =? Manifest.nonce_prefix i)%string
  && (Download.chunk_count s =? Manifest.item_chunk_count i).

Definition set_digest (s : Download.SavedItem) (i : Manifest.ManifestItem) : Download.SavedItem :=
  {| Download.id := Download.id s; Download.name := Download.name s; Download.size := Download.size s;
     Download.nonce_prefix := Download.nonce_prefix s; Download.chunk_count := Download.chunk_count s;
     Download.digest := Manifest.value (Manifest.digest i); Download.target := Download.target s;
     Download.verified := Download.verified s; Download.published := Download.published s |}.

Definition set_envelope (envelope : string) (items : list Download.SavedItem)
    (j : Download.DownloadJob) : Download.DownloadJob :=
  {| Download.version := Download.version j; Download.job_id := Download.job_id j;
     Download.direction := Download.direction j; Download.state := Download.state j;
     Download.instance := Download.instance j; Download.done_bytes := Download.done_bytes j;
     Download.total := Download.total j; Download.transfer_id := Download.transfer_id j;
     Download.chunk_bytes := Download.chunk_bytes j;
     Download.server_concurrency := Download.server_concurrency j;
     Download.ranges := Download.ranges j; Download.driver := Download.driver j;
     Download.envelope := envelope; Download.source := Download.source j;
     Download.turbo := Download.turbo j; Download.output := Download.output j;
     Download.items := items; Download.selected_item_ids := Download.selected_item_ids j;
     Download.selection_frozen := Download.selection_frozen j |}.

(** One turn of [finalize_turbo_manifest]'s loop; [None] waits. *)
Definition finalize_turn (key : list Z) (t : Transfer) (j : Download.DownloadJob)
    : result string (option Download.DownloadJob) :=
  match encrypted_manifest t with
  | None => Ok None
  | Some envelope =>
      m ← manifest_for key (Download.transfer_id j) envelope t;
      turbo ← ok_or (Download.turbo j) "missing Turbo descriptor";
      d ← turbo_descriptor_for key (Download.transfer_id j) (Download.descriptor turbo) t;
      reject negb (bool_decide (Manifest.attached_note m = Manifest.attached_note d))
        with "final manifest does not bind Turbo attached note";
      reject negb (Nat.eqb (length (Manifest.items m)) (length (Download.items j)))
             || negb (forallb (λ p, binds (fst p) (snd p))
                        (zip (Download.items j) (Manifest.items m)))
        with "final manifest does not bind Turbo descriptor";
      Ok (Some (set_envelope envelope
                  (zip_with set_digest (Download.items j) (Manifest.items m)) j))
  end.

(** [polls] are the metadata requests of the turns; [waits], the phase and the
    second between them. *)
Fixpoint finalize_from (turns : nat) (polls : nat → result string Transfer)
    (waits : nat → result string ()) (n : nat) (key : list Z) (j : Download.DownloadJob)
    : option (result string Download.DownloadJob) :=
  match turns with
  | O => None
  | S turns =>
      match t ← polls n; finalize_turn key t j with
      | Ok (Some j) => Some (Ok j)
      | Ok None =>
          match waits n with
          | Ok _ => finalize_from turns polls waits (S n) key j
          | Err e => Some (Err e)
          end
      | Err e => Some (Err e)
      end
  end.

(** ** A completed job *)

(** [files] are the regular files of the output directory. *)
Definition completed_paths (files : gmap Fs.path (list Z)) (j : Download.DownloadJob)
    : result string (list Fs.path) :=
  _ ← Download.checked j;
  reject existsb (λ i, negb (Download.published i)) (Download.selected_items j)
    with "completed download checkpoint has unpublished items";
  try_fold (λ paths i,
    reject negb (match files !! Download.target i with
                 | Some c => (sha256_hex c =? Download.digest i)%string
                 | None => false
                 end)
      with "published download target is missing or corrupted";
    Ok (paths ++ [Download.target i])) [] (Download.selected_items j).

End opening.

(** ** What base64 and the cipher do to bytes

    [URL_SAFE_NO_PAD] decodes what it encodes, to at most two characters a
    byte, and a ciphertext is bytes. *)
Class WireLaws `{Aead, Codec, Encode} : Prop := {
  decode_encode l : Forall is_u8 l → decode (encode l) = Ok l;
  encode_len l : len (encode l) ≤ 2 * zlen l;
  aead_u8 key nonce msg aad c :
    Forall is_u8 msg → aead_encrypt key nonce msg aad = Some c → Forall is_u8 c }.

(** ** JSON round trips *)

Lemma mapM_fmap_Some {A B C} (f : B → option C) (g : A → B) (h : A → C) l :
  Forall (λ a, f (g a) = Some (h a)) l → mapM f (g <$> l) = Some (h <$> l).
Proof. induction 1 as [|a l Ha _ IH]; [done|]. cbn. rewrite Ha. cbn. unfold mbind in IH. by rewrite IH. Qed.

Lemma note_json_reads (n : Manifest.AttachedNote) : note_of (note_json n) = Some n.
Proof. by destruct n as [x [t|] l]. Qed.

Definition sent_item (i : Upload.Item) : Manifest.ManifestItem :=
  {| Manifest.id := Upload.item_id i; Manifest.name := Upload.item_name i;
     Manifest.mime := "application/octet-stream"; Manifest.size := Upload.item_bytes i;
     Manifest.nonce_prefix := Upload.nonce_prefix i;
     Manifest.item_chunk_count := Upload.item_chunk_count i;
     Manifest.digest := {| Manifest.algorithm := "sha256"; Manifest.value := Upload.item_digest i |} |}.

(** The manifest a job describes. *)
Definition sent_manifest (note : option Manifest.AttachedNote) (token : option string)
    (items : list Upload.Item) : Manifest.Manifest :=
  {| Manifest.attached_note := note; Manifest.join_token := token; Manifest.version := 1;
     Manifest.items := sent_item <$> items |}.

Definition sized (i : Upload.Item) : Prop :=
  is_u64 (Upload.item_bytes i) ∧ is_u64 (Upload.item_chunk_count i).

Lemma item_json_reads i : sized i → manifest_item_of (item_json i) = Some (sent_item i).
Proof.
  intros [Hb Hc]. unfold manifest_item_of, item_json, u64_field, str_field, field.
  cbn [lookup_field String.eqb Ascii.eqb Bool.eqb mbind option_bind as_str].
  by rewrite !as_u64_JNum.
Qed.

Lemma item_json_printable i : sized i → printable (item_json i) = true.
Proof. intros [Hb Hc]. unfold item_json. printable_object. Qed.

Lemma note_json_printable n : printable (note_json n) = true.
Proof. destruct n as [x [t|] l]; unfold note_json; cbn [app Manifest.title]; printable_object. Qed.

Lemma items_json_printable (f : Upload.Item → json) l :
  (∀ i, sized i → printable (f i) = true) → Forall sized l → printable (JArr (f <$> l)) = true.
Proof. intros Hf Hl. apply printable_JArr, Forall_fmap, Forall_impl with (1 := Hl). apply Hf. Qed.

#[export] Hint Resolve item_json_printable note_json_printable items_json_printable : json.

Lemma manifest_json_printable note token items :
  Forall sized items → printable (manifest_json note token items) = true.
Proof.
  intros Hi. unfold manifest_json.
  destruct note, token; cbn [app]; printable_object.
Qed.

Lemma manifest_json_reads note token items :
  Forall sized items →
  manifest_of (manifest_json note token items) = Some (sent_manifest note token items).
Proof.
  intros Hi.
  assert (Hm : mapM manifest_item_of (item_json <$> items) = Some (sent_item <$> items)).
  { apply mapM_fmap_Some, Forall_impl with (1 := Hi). apply item_json_reads. }
  unfold manifest_of, manifest_json, opt_field, vec_field, u8_field, field.
  destruct note as [n|], token as [t|];
    cbn [lookup_field app String.eqb Ascii.eqb Bool.eqb mbind option_bind as_str as_array fmap option_fmap option_map];
    rewrite ?note_json_reads, Hm; try done; destruct n as [x [t'|] l]; done.
Qed.

(** What a descriptor says of an item: all but its digest. *)
Definition early_item (i : Upload.Item) : Manifest.ManifestItem :=
  {| Manifest.id := Upload.item_id i; Manifest.name := Upload.item_name i;
     Manifest.mime := "application/octet-stream"; Manifest.size := Upload.item_bytes i;
     Manifest.nonce_prefix := Upload.nonce_prefix i;
     Manifest.item_chunk_count := Upload.item_chunk_count i;
     Manifest.digest := {| Manifest.algorithm := "sha256"; Manifest.value := "" |} |}.

Lemma descriptor_item_json_reads i :
  sized i → descriptor_item_of (descriptor_item_json i) = Some (early_item i).
Proof.
  intros [Hb Hc]. unfold descriptor_item_of, descriptor_item_json, u64_field, str_field, field.
  cbn [lookup_field String.eqb Ascii.eqb Bool.eqb mbind option_bind as_str].
  by rewrite !as_u64_JNum.
Qed.

Lemma descriptor_item_json_printable i : sized i → printable (descriptor_item_json i) = true.
Proof. intros [Hb Hc]. unfold descriptor_item_json. printable_object. Qed.
#[export] Hint Resolve descriptor_item_json_printable : json.

Lemma descriptor_json_printable note chunk items :
  is_u64 chunk → Forall sized items → printable (descriptor_json note chunk items) = true.
Proof. intros Hc Hi. unfold descriptor_json. destruct note; cbn [app]; printable_object. Qed.

Lemma descriptor_json_reads note chunk items :
  is_u64 chunk → Forall sized items →
  descriptor_of (descriptor_json note chunk items)
    = Some {| d_note := note; d_version := 1; d_purpose := "turbo-descriptor";
              d_chunk_bytes := chunk; d_items := early_item <$> items |}.
Proof.
  intros Hc Hi.
  assert (Hm : mapM descriptor_item_of (descriptor_item_json <$> items) = Some (early_item <$> items)).
  { apply mapM_fmap_Some, Forall_impl with (1 := Hi). apply descriptor_item_json_reads. }
  unfold descriptor_of, descriptor_json, opt_field, vec_field, u8_field, u64_field, str_field, field.
  destruct note as [n|];
    cbn [lookup_field app String.eqb Ascii.eqb Bool.eqb mbind option_bind as_str as_array fmap option_fmap option_map];
    rewrite ?note_json_reads, as_u64_JNum, Hm by done; try done; destruct n as [x [t'|] l]; done.
Qed.

Lemma envelope_reads prefix c salt :
  envelope_of (envelope_json prefix c salt)
    = Some {| v := 1; env_prefix := prefix; salt := salt; env_ciphertext := c |}.
Proof. by destruct salt. Qed.

Lemma envelope_printable prefix c salt : printable (envelope_json prefix c salt) = true.
Proof. destruct salt; unfold envelope_json; cbn [app]; printable_object. Qed.

(** ** What is sealed opens *)

(** The working memory a pool must hold: for an envelope, four times its
    ciphertext; for a key under a password, that of one derivation. *)
Definition holds_envelope `{JsonText} (Me : Memory) (envelope : string) : Prop :=
  ∀ e, read_envelope envelope = Ok e → 4 * len (env_ciphertext e) ≤ memory_limit.
Definition holds_key (Me : Memory) (salt : option string) : Prop :=
  is_Some salt → PASSWORD_KDF_BYTES ≤ memory_limit.

Lemma holds_envelope_check `{JsonText} (Me : Memory) envelope :
  match read_envelope envelope with
  | Ok e => 4 * len (env_ciphertext e) <=? memory_limit
  | Err _ => true
  end = true → holds_envelope Me envelope.
Proof. intros Hc e He. rewrite He in Hc. lia. Qed.

(** Both ends have the same primitives, each its own memory. *)
Section roundtrip.
Context `{Ae : Aead, Kd : Kdf, Co : Codec, En : Encode, Js : JsonText, !JsonTextLaws, !WireLaws}.
Context (Sender Receiver : Memory) (waits : waits_end Receiver).

Notation rd k e a := (open_envelope (Me := Receiver) k e a).

Lemma seal_Ok master salt plain aad fresh envelope :
  seal (Me := Sender) master salt plain aad fresh = Ok envelope →
  ∃ prefix c, fresh = Ok prefix ∧ encrypt_manifest master prefix plain (bytes aad) = Ok c ∧
    envelope = to_string (envelope_json (encode prefix) (encode c) salt) ∧
    len envelope ≤ MAX_ENVELOPE_BYTES.
Proof.
  unfold seal, bounded_envelope, mbind, result_bind.
  destruct (manifest_crypto_bytes _) as [n|]; [|done].
  destruct (reserve_memory n) as [[]|]; [|done]. destruct fresh as [prefix|]; [|done].
  destruct (encrypt_manifest _ _ _ _) as [c|] eqn:Ec; [|done].
  intros Hg. guards Hg. simplify_eq. bool_prop. by exists prefix, c.
Qed.

Lemma read_sealed prefix c salt :
  read_envelope (to_string (envelope_json prefix c salt))
    = Ok {| v := 1; env_prefix := prefix; salt := salt; env_ciphertext := c |}.
Proof.
  unfold read_envelope. rewrite from_str_to_string by apply envelope_printable.
  cbn [mbind option_bind]. by rewrite envelope_reads.
Qed.

Lemma open_sealed master salt plain aad fresh envelope :
  seal (Me := Sender) master salt plain aad fresh = Ok envelope → holds_envelope Receiver envelope →
  Forall is_u8 plain → (∀ prefix, fresh = Ok prefix → Forall is_u8 prefix) →
  rd master envelope aad = Ok plain ∧
  ∃ e, read_envelope envelope = Ok e ∧ v e = 1 ∧ Sealing.salt e = salt.
Proof.
  intros (prefix & c & Hf & He & -> & _)%seal_Ok Hfit Hp Hfresh. apply Hfresh in Hf.
  specialize (Hfit _ (read_sealed _ _ _)). cbn in Hfit. rewrite read_sealed. split; [|by eexists].
  unfold open_envelope. rewrite read_sealed. cbn [mbind result_bind env_ciphertext env_prefix].
  pose proof (proj1 (encrypt_decrypt_at_index _ _ _ _ _ _ _) He) as Hd.
  apply encrypt_at_index_Ok in He as (Hmax & _ & _ & _ & Ha).
  pose proof (aead_length _ _ _ _ _ Ha) as Hc. pose proof (encode_len c).
  unfold manifest_crypto_bytes.
  destruct (checked_mul _ 4) as [n|] eqn:En'; cbn [ok_or].
  2: { apply checked_mul_None in En'. unfold u64_max, MAX_MANIFEST_PLAINTEXT_BYTES in *. lia. }
  apply checked_mul_Some in En' as [-> _].
  cbn [mbind result_bind]. rewrite reserve_fits by (done || lia). cbn [mbind result_bind].
  rewrite !decode_encode by (assumption || (eapply aead_u8; eassumption)). exact Hd.
Qed.

(** A job ready to be sent: what [validate_job] checks of its items and what
    file selection and preparation make true of them. *)
Record sendable (j : Upload.UploadJob) : Prop := {
  s_driver : Upload.driver j ∈ ["http"; "webrtc"];
  s_chunk : 0 < Upload.chunk_bytes j ≤ Upload.MAX_CHUNK_BYTES;
  s_items : Upload.items j ≠ [];
  s_ids : NoDup (Upload.item_id <$> Upload.items j);
  s_names : NoDup (Manifest.portable_filename ∘ Upload.item_name <$> Upload.items j);
  s_positions : Upload.item_position <$> Upload.items j = seqZ 0 (zlen (Upload.items j));
  s_each : Forall (λ i,
    Upload.item_id i ≠ "" ∧ Upload.item_name i ≠ "" ∧ 0 ≤ Upload.item_bytes i ∧
    Upload.item_bytes i + Upload.chunk_bytes j - 1 ≤ u64_max ∧
    Upload.item_chunk_count i = Z.max 1 (div_ceil (Upload.item_bytes i) (Upload.chunk_bytes j)) ∧
    Upload.item_chunk_count i ≤ MAX_CHUNKS ∧ Manifest.valid_digest (Upload.item_digest i) = true ∧
    Manifest.valid_nonce_prefix (Upload.nonce_prefix i) = true) (Upload.items j);
  s_token : Upload.driver j = "webrtc" →
    ∃ token, Upload.join_token j = Some token ∧ Manifest.valid_capability token = true }.

Definition described (i : Upload.Item) : MetadataItem :=
  {| m_id := Upload.item_id i; m_position := Upload.item_position i;
     m_chunk_count := Upload.item_chunk_count i |}.

(** The metadata of the transfer a job was reserved as: its items in any order. *)
Record describes (t : Transfer) (j : Upload.UploadJob) (id : string) : Prop := {
  t_same_id : t_id t = id;
  t_protocol : protocol_version t = 1;
  t_driver : driver t = Upload.driver j;
  t_chunk : chunk_bytes t = Upload.chunk_bytes j;
  t_same_items : t_items t ≡ₚ described <$> Upload.items j }.

Definition token_of (j : Upload.UploadJob) : option string :=
  if (Upload.driver j =? "webrtc")%string then Upload.join_token j else None.

Lemma sendable_sized j : sendable j → Forall sized (Upload.items j).
Proof.
  intros Hj. eapply Forall_impl; [apply (s_each _ Hj)|].
  intros i (_ & _ & ? & ? & Hc & Hm & _). unfold sized, is_u64, MAX_CHUNKS, u64_max in *.
  pose proof (s_chunk _ Hj). lia.
Qed.

Lemma sent_item_ok t j id i :
  sendable j → describes t j id → i ∈ Upload.items j →
  Manifest.item_ok (chunk_bytes t) (server_item <$> t_items t) (sent_item i).
Proof.
  intros Hj Ht Hi. pose proof (s_each _ Hj) as He. rewrite Forall_forall in He.
  destruct (He i Hi) as (_ & Hn & _ & _ & Hc & Hm & Hd & Hp).
  exists (server_item (described i)). rewrite (t_chunk _ _ _ Ht). split_and!; try done.
  apply list_elem_of_fmap_2. rewrite (t_same_items _ _ _ Ht). by apply list_elem_of_fmap_2.
Qed.

(** The receiver's checks accept the manifest of a sendable job. *)
Lemma sent_manifest_valid t j id note :
  sendable j → describes t j id →
  (∀ n, note = Some n → Manifest.note_validate n = Ok ()) →
  validate_transfer t id = Ok () ∧ reject_live_note t = Ok () ∧
  validate_manifest (sent_manifest note (token_of j) (Upload.items j)) t = Ok () ∧
  live_join_token t (sent_manifest note (token_of j) (Upload.items j)) = Ok (token_of j).
Proof.
  intros Hj Ht Hnote. pose proof (s_chunk _ Hj) as Hc. unfold Upload.MAX_CHUNK_BYTES in Hc.
  pose proof (t_same_items _ _ _ Ht) as Hitems. split_and!.
  - unfold validate_transfer. rewrite (t_protocol _ _ _ Ht), (t_same_id _ _ _ Ht), (t_chunk _ _ _ Ht).
    rewrite String.eqb_refl, (proj2 (Z.eqb_neq _ 0)), (proj2 (Z.ltb_ge _ _)) by lia.
    by rewrite (t_driver _ _ _ Ht), bool_decide_true by apply (s_driver _ Hj).
  - unfold reject_live_note. rewrite bool_decide_false, andb_false_r; [done|]. intros He.
    rewrite He in Hitems. apply Permutation_nil in Hitems. apply fmap_nil_inv in Hitems. by apply (s_items _ Hj).
  - assert (Hids : Manifest.server_id <$> (server_item <$> t_items t) ≡ₚ Upload.item_id <$> Upload.items j).
    { rewrite Hitems, <- !list_fmap_compose. done. }
    assert (Hpos : Manifest.position <$> (server_item <$> t_items t) ≡ₚ seqZ 0 (zlen (Upload.items j))).
    { rewrite Hitems, <- !list_fmap_compose, <- (s_positions _ Hj). done. }
    assert (Hlen : length (t_items t) = length (Upload.items j)) by by rewrite Hitems, length_fmap.
    apply Manifest.manifest_complete; cbn [sent_manifest Manifest.items Manifest.version
      Manifest.attached_note Manifest.join_token].
    + rewrite (t_chunk _ _ _ Ht). unfold MAX_CIPHERTEXT_BYTES, Transport.AEAD_TAG_BYTES. lia.
    + done.
    + intros He%fmap_nil_inv. by apply (s_items _ Hj).
    + by rewrite !length_fmap.
    + done.
    + rewrite (t_driver _ _ _ Ht). intros Hd. unfold token_of. rewrite Hd. by apply (s_token _ Hj).
    + rewrite Hids. apply (s_ids _ Hj).
    + rewrite Hpos. apply NoDup_seqZ.
    + rewrite Forall_forall. intros s Hs. pose proof Hs as Hs'.
      apply (list_elem_of_fmap_2 Manifest.position) in Hs'. rewrite Hpos in Hs'.
      apply elem_of_seqZ in Hs'. rewrite Hitems, <- list_fmap_compose in Hs.
      apply list_elem_of_fmap in Hs as (i & -> & Hi). rewrite !length_fmap, Hlen.
      pose proof (s_each _ Hj) as He. rewrite Forall_forall in He.
      destruct (He i Hi) as (? & _ & _ & _ & Hk & ? & _). cbn in *. unfold zlen in *. split_and!; try done; lia.
    + rewrite <- list_fmap_compose. apply (s_ids _ Hj).
    + rewrite <- list_fmap_compose. apply (s_names _ Hj).
    + apply Forall_fmap, Forall_forall. intros i Hi. cbn [compose].
      pose proof (s_each _ Hj) as He. rewrite Forall_forall in He. destruct (He i Hi) as (? & ? & ? & ? & _).
      rewrite (t_chunk _ _ _ Ht) at 1. split_and!; try done. by apply (sent_item_ok t j id).
  - unfold live_join_token. rewrite (t_driver _ _ _ Ht). pose proof (s_driver _ Hj) as Hd.
    unfold token_of. set_unfold in Hd. destruct Hd as [Hd|[Hd|[]]]; rewrite Hd; [done|].
    destruct (s_token _ Hj Hd) as (token & Htok & Hv). cbn. rewrite Htok. cbn.
    unfold Manifest.valid_capability in Hv. apply andb_true_iff in Hv as [-> ->]. done.
Qed.

(** The note kept with a job opens to what was sealed. *)
Lemma attached_note_opens note fresh j j' :
  (∀ prefix, fresh = Ok prefix → Forall is_u8 prefix) →
  seal_attached_note note fresh j = Ok j' → open_attached_note j' = Ok (Some note).
Proof.
  unfold seal_attached_note, mbind, result_bind. intros Hf.
  destruct (Manifest.note_validate note) as [[]|] eqn:Ev; [|done].
  destruct fresh as [prefix|]; [|done]. specialize (Hf prefix eq_refl).
  destruct (encrypt_manifest _ _ _ _) as [c|] eqn:Ec; [|done]. intros [= <-].
  pose proof (proj1 (encrypt_decrypt_at_index _ _ _ _ _ _ _) Ec) as Hd.
  apply encrypt_at_index_Ok in Ec as (_ & _ & _ & _ & Ha).
  unfold open_attached_note. cbn [Upload.sealed_attached_note set_keys Upload.master_key Upload.id].
  rewrite from_str_to_string by apply envelope_printable. cbn [mbind option_bind].
  rewrite envelope_reads. cbn [ok_or mbind result_bind env_prefix env_ciphertext].
  assert (Forall is_u8 c) by (eapply aead_u8; [apply to_vec_u8|exact Ha]).
  rewrite !decode_encode by done. cbn [mbind result_bind]. unfold decrypt_manifest. rewrite Hd.
  cbn [mbind result_bind]. rewrite from_slice_to_vec by apply note_json_printable.
  cbn [mbind option_bind]. rewrite note_json_reads. cbn [ok_or mbind result_bind]. by rewrite Ev.
Qed.

Lemma unlock_job_key password j0 j :
  unlock_job (Me := Sender) (Ok password) j0 = Ok j → Upload.master_key j0 = [] →
  holds_key Receiver (Upload.password_salt j) →
  envelope_key (Me := Receiver) (Upload.share_key j) (Upload.password_salt j) (Ok password)
    = Ok (Upload.master_key j).
Proof.
  unfold unlock_job, password_master, mbind, result_bind. intros Hu Hm Hkey. rewrite Hm in Hu. cbn in Hu.
  destruct (zlen (Upload.share_key j0) =? 32); [cbn in Hu|done].
  destruct (Upload.password_salt j0) as [salt|] eqn:Es.
  - destruct (_ <? 8); [done|]. destruct (reserve_memory _) as [[]|]; [|done].
    destruct (decode salt) as [s|] eqn:Ed; [|done].
    destruct (derive_password_key _ _ _ _ _) as [p|] eqn:Ep; [|done].
    destruct (derive_password_protected_key _ _) as [k|] eqn:Ek; [|done].
    injection Hu as <-. cbn [set_keys Upload.share_key Upload.password_salt Upload.master_key] in *.
    rewrite Es in *. unfold envelope_key, password_master. cbn [mbind result_bind].
    rewrite reserve_fits by (done || by apply Hkey). cbn [mbind result_bind]. rewrite Ed. cbn [mbind result_bind].
    rewrite Ep. cbn [mbind result_bind]. exact Ek.
  - injection Hu as <-. cbn [set_keys Upload.share_key Upload.password_salt Upload.master_key].
    by rewrite Es.
Qed.

Lemma open_attached_note_valid j note n :
  open_attached_note j = Ok note → note = Some n → Manifest.note_validate n = Ok ().
Proof.
  unfold open_attached_note, mbind, result_bind. intros Ho ->.
  destruct (Upload.sealed_attached_note j); [|done].
  repeat (case_match; [|done]); simplify_eq. by match goal with u : () |- _ => destruct u end.
Qed.

(** The sender's side of both: the sealed value is the job's, under its key. *)
Lemma encrypted_manifest_Ok fresh j envelope :
  Sealing.encrypted_manifest (Me := Sender) fresh j = Ok envelope → sendable j →
  ∃ transfer note, Upload.transfer_id j = Some transfer ∧ open_attached_note j = Ok note ∧
    seal (Me := Sender) (Upload.master_key j) (Upload.password_salt j)
      (to_vec (manifest_json note (token_of j) (Upload.items j))) (manifest_aad transfer) fresh
      = Ok envelope.
Proof.
  unfold Sealing.encrypted_manifest, mbind, result_bind, token_of. intros He Hj.
  destruct (Upload.transfer_id j) as [transfer|]; [cbn in He|done].
  destruct (open_attached_note j) as [note|]; [|done]. exists transfer, note. split_and!; try done.
  destruct (Upload.driver j =? "webrtc")%string; [|done].
  destruct (Upload.join_token j); [exact He|done].
Qed.

(** C4: what one end seals, the other opens. Take a job whose key was derived
    from the link's key and, if the transfer is protected, a password, and whose
    items have the sizes, positions and portable names preparation gives them,
    and the envelope [encrypted_manifest] makes of it. A receiver with the
    link's key and that password derives the sender's key, on the first visit
    and on every resume; the envelope opens to exactly the job's items, attached
    note and join capability; and every check the receiver makes against the
    server's description of that transfer, whatever the order of its items,
    accepts. The receiver's memory pool must hold four times the envelope's
    ciphertext and, under a password, the 64 MiB of one key derivation, and its
    waits for that memory must end. *)
Theorem manifest_opens password j0 j fresh envelope transfer t share_key_prompt :
  Upload.master_key j0 = [] → unlock_job (Me := Sender) (Ok password) j0 = Ok j →
  (∀ prefix, fresh = Ok prefix → Forall is_u8 prefix) →
  Sealing.encrypted_manifest (Me := Sender) fresh j = Ok envelope →
  Upload.transfer_id j = Some transfer → sendable j → describes t j transfer →
  holds_key Receiver (Upload.password_salt j) → holds_envelope Receiver envelope →
  unlock (Me := Receiver) (Some (Upload.share_key j)) share_key_prompt (Ok password) envelope
    = Ok {| master := Upload.master_key j; share_key := Upload.share_key j |} ∧
  unlock_saved (Me := Receiver) (Upload.share_key j) (Ok password) envelope
    = Ok (Upload.master_key j) ∧
  ∃ note, open_attached_note j = Ok note ∧
    let m := sent_manifest note (token_of j) (Upload.items j) in
    manifest_for (Me := Receiver) (Upload.master_key j) transfer envelope t = Ok m ∧
    validate_transfer t transfer = Ok () ∧ reject_live_note t = Ok () ∧
    live_join_token t m = Ok (token_of j).
Proof.
  intros Hm Hu Hfresh He Htr Hj Ht Hkey Hfit. pose proof (unlock_job_key _ _ _ Hu Hm Hkey) as Hk.
  destruct (encrypted_manifest_Ok _ _ _ He Hj) as (tr & note & Htr' & Hnote & Hs). simplify_eq.
  destruct (open_sealed _ _ _ _ _ _ Hs Hfit (to_vec_u8 _) Hfresh) as (Ho & e & Hr & Hv & Hsalt).
  destruct (sent_manifest_valid t j transfer note Hj Ht) as (H1 & H2 & H3 & H4).
  { intros n. by apply (open_attached_note_valid j). }
  split_and!.
  - unfold unlock. cbn [mbind result_bind]. rewrite Hr. cbn [mbind result_bind].
    rewrite Hv, Hsalt. cbn [Z.eqb Pos.eqb negb]. by rewrite Hk.
  - unfold unlock_saved. rewrite Hr. cbn [mbind result_bind]. by rewrite Hsalt.
  - exists note. split_and!; try done. unfold manifest_for. rewrite Ho. cbn [mbind result_bind].
    pose proof (sendable_sized _ Hj) as Hz. rewrite from_slice_to_vec by by apply manifest_json_printable.
    cbn [mbind option_bind]. rewrite manifest_json_reads by done.
    cbn [ok_or mbind result_bind]. by rewrite H3.
Qed.

End roundtrip.

(** ** Targets *)

Lemma free_from_unique n i name present :
  free_from n i name present = fst <$> Selection.unique_from n i name "" present.
Proof.
  revert i. induction n as [|n IH]; intros i; [done|]. cbn [free_from Selection.unique_from].
  unfold Selection.candidate_name. rewrite append_nil_r. case_match; [apply IH|done].
Qed.

(** The search for a free target ends. *)
Lemma collision_free_total present directory name :
  Z.of_nat (size present) < 2147483646 → is_Some (collision_free present directory name).
Proof.
  intros Hs. unfold collision_free. case_match; [|by eexists].
  destruct (Selection.unique_from_total 1 name "" present) as [x Hx]; [lia..|].
  rewrite free_from_unique, Hx. by eexists.
Qed.

(** The target is a fresh name of the directory, and a portable one. *)
Definition fresh_target (present : gset string) (directory : Fs.path) (target : Fs.path) : Prop :=
  ∃ name, target = Fs.join directory name ∧ name ∉ present ∧ utf8 name ∧ Manifest.portable name.

Lemma collision_free_fresh present directory name target :
  utf8 name → Manifest.portable name → collision_free present directory name = Some target →
  fresh_target present directory target.
Proof.
  intros Hu Hp. unfold collision_free. case_match eqn:Hb; bool_prop.
  - rewrite free_from_unique. destruct (Selection.unique_from _ _ _ _ _) as [[c u]|] eqn:Hc; [|done].
    intros [= <-]. apply Selection.unique_from_Some in Hc as (Hc & _ & j & Hj & ->).
    destruct Hp as (Hne & _ & _ & Hd & Hf & _).
    destruct (Selection.candidate_safe name None j) as [H1 H2]; try done.
    + lia.
    + cbn. by rewrite append_nil_r.
    + by exists (Selection.candidate_name name "" j).
  - intros [= <-]. by exists name.
Qed.

(** A saved item as the manifest's item requires it. *)
Record item_from (descriptor : bool) (present : gset string) (output : Fs.path)
    (s : Download.SavedItem) (i : Manifest.ManifestItem) : Prop := {
  f_id : Download.id s = Manifest.id i;
  f_name : Download.name s = Manifest.name i;
  f_size : Download.size s = Manifest.size i;
  f_prefix : Download.nonce_prefix s = Manifest.nonce_prefix i;
  f_count : Download.chunk_count s = Manifest.item_chunk_count i;
  f_digest : Download.digest s = if descriptor then "" else Manifest.value (Manifest.digest i);
  f_target : utf8 (Manifest.name i) → fresh_target present output (Download.target s);
  f_verified : Download.verified s = replicate (Z.to_nat (Manifest.item_chunk_count i)) false;
  f_published : Download.published s = false }.

Lemma new_items_Ok descriptor present output names l items :
  new_items descriptor present output names l = Ok items →
  Forall2 (item_from descriptor present output) items l ∧
  NoDup (Manifest.name <$> l) ∧ Forall (λ i, Manifest.name i ∉ names) l.
Proof.
  revert names items. induction l as [|i l IH]; intros names items; cbn [new_items].
  { intros [= <-]. split_and!; constructor. }
  case_bool_decide as Hn; [done|]. unfold new_item, mbind, result_bind.
  destruct (collision_free _ _ _) as [target|] eqn:Ht; [cbn|done].
  destruct (new_items _ _ _ _ l) as [rest|] eqn:Hr; [|done]. intros [= <-].
  apply IH in Hr as (H1 & H2 & H3). cbn [fmap list_fmap]. split_and!.
  - constructor; [|done]. split; try done. intros Hu. cbn.
    destruct (Selection.safe_filename_safe (Manifest.name i) Hu). by eapply collision_free_fresh.
  - constructor; [|done]. intros Hin. apply list_elem_of_fmap in Hin as (k & He & Hk).
    rewrite Forall_forall in H3. specialize (H3 k Hk). set_solver.
  - constructor; [done|]. eapply Forall_impl; [exact H3|]. set_solver.
Qed.

Lemma total_of_Ok l n :
  total_of l = Ok n → n = sum_Z (Manifest.size <$> l) ∧ (n ≤ u64_max ∨ l = []).
Proof.
  unfold total_of. intros H.
  apply (try_fold_ind (λ l n, n = sum_Z (Manifest.size <$> l) ∧ (n ≤ u64_max ∨ l = []))) in H; [done|..].
  - split; [done|by right].
  - intros l' i n1 n2 _ [-> _] Hn. unfold ok_or in Hn.
    destruct (checked_add _ _) as [x|] eqn:Ex; [|done]. simplify_eq.
    apply checked_add_Some in Ex as [-> Hx]. rewrite fmap_app, sum_Z_app. cbn.
    split; [lia|left; lia].
Qed.

Section running.
Context `{Ae : Aead, Kd : Kdf, Co : Codec, Js : JsonText, Me : Memory}.

(** A step that only computes: it fails without a trace, or goes on. *)
Ltac pure_step H E :=
  let a := fresh "a" in let s1 := fresh "s" in let e1 := fresh "e" in
  apply bind_run in H as [(e1 & H & ->)|(s1 & a & E & H)];
  [apply of_result_run in H as [-> _]; match goal with F : ∀ (Q : Prop) _, _ |- _ => eapply F; [|reflexivity|reflexivity]; done end|apply of_result_run in E as [-> E]; cbn in E].

Lemma write_run io f s s' r :
  write io f s = (s', r) →
  (s' = s ∨ s' = f s) ∧ (r = Ok () → s' = f s) ∧ (r ≠ Ok () → s' = f s → s' = s ∨ io = FailedAfter).
Proof. unfold write. destruct io; cbn; intros [= <- <-]; split_and!; auto; done. Qed.

Lemma validate_transfer_Ok t id :
  validate_transfer t id = Ok () →
  t_id t = id ∧ 0 ≠ chunk_bytes t ∧ chunk_bytes t ≤ 24999984 ∧ driver t ∈ ["http"; "webrtc"].
Proof. unfold validate_transfer. intros Hg. guards Hg. bool_prop. split_and!; try done; lia. Qed.

Lemma check_descriptor_items_count t l ids ids' :
  try_fold (check_descriptor_item t) ids l = Ok ids' →
  Forall (λ i, 0 ≤ Manifest.item_chunk_count i) l.
Proof.
  revert ids. induction l as [|i l IH]; intros ids; cbn [try_fold]; [constructor|].
  destruct (check_descriptor_item t ids i) as [ids1|] eqn:Ei; [|done]. intros Hl.
  constructor; [|by apply IH in Hl]. revert Ei. unfold check_descriptor_item.
  destruct (ok_or _ _) as [server|]; [|done]. cbn [mbind result_bind].
  intros Hg. case_match eqn:Hc; [done|]. bool_prop. lia.
Qed.

Lemma open_any_counts turbo key id envelope t m :
  0 ≤ chunk_bytes t → open_any turbo key id envelope t = Ok m →
  Forall (λ i, 0 ≤ Manifest.item_chunk_count i) (Manifest.items m).
Proof.
  intros Hc. unfold open_any, manifest_for, turbo_descriptor_for, mbind, result_bind.
  destruct turbo.
  - destruct (driver t =? "http")%string; [cbn [negb]|done].
    destruct (open_envelope _ _ _); [|done]. destruct (ok_or _ _) as [d|]; [|done].
    case_match; [done|]. destruct (match d_note d with Some _ => _ | None => _ end); [|done].
    destruct (try_fold _ _ _) eqn:Ef; [|done]. intros [= <-]. by eapply check_descriptor_items_count.
  - destruct (open_envelope _ _ _); [|done]. destruct (ok_or _ _) as [m'|]; [|done].
    destruct (validate_manifest m' t) as [[]|] eqn:Ev; [|done]. intros [= <-].
    apply Manifest.validate_manifest_Ok in Ev as (_ & _ & _ & _ & _ & _ & _ & Hi); [|done].
    eapply Forall_impl; [exact Hi|]. intros i (x & _ & _ & _ & -> & _). lia.
Qed.

(** The name of a fresh target is that of a file in the directory. *)
Lemma fresh_target_good present output target :
  Download.is_absolute output = true → fresh_target present output target →
  Fs.parent target = Some output ∧ Download.has_file_name target = true.
Proof.
  intros Ha (name & -> & _ & _ & (_ & _ & H3 & _ & Hf & _)). split.
  - by destruct output.
  - cbn. rewrite (proj2 (String.eqb_neq name "..")) by done. rewrite (proj2 (String.eqb_neq name "/")); [done|].
    intros ->. vm_compute in Hf. inversion_clear Hf as [|x l Hx _]. done.
Qed.

Lemma new_job_checked e link source background c t id envelope turbo output total items l :
  validate_transfer t id = Ok () → Download.is_absolute output = true → folder e ≠ "" →
  Forall2 (item_from (bool_decide (is_Some (descriptor_used t))) (present e) output) items l →
  Forall (λ i, 0 ≤ Manifest.item_chunk_count i) l → Forall (λ i, utf8 (Manifest.name i)) l →
  Download.checked (new_job e link source background c t envelope turbo output total items) = Ok ().
Proof.
  intros (_ & Hc & _ & Hd)%validate_transfer_Ok Ho Hf Hi Hn Hu. unfold Download.checked, new_job; cbn.
  unfold is_empty. rewrite bool_decide_false by done. cbn.
  rewrite (proj2 (Z.eqb_neq _ 0)) by done. rewrite bool_decide_true, Ho by done. cbn.
  replace (existsb _ items) with false; [done|]. symmetry. apply not_true_iff_false.
  intros (i & Hin & Hbad)%existsb_exists. apply list_elem_of_In, list_elem_of_lookup in Hin as [k Hk].
  destruct (Forall2_lookup_l _ _ _ _ _ Hi Hk) as (x & Hx & Hix).
  rewrite Forall_lookup in Hn, Hu. specialize (Hn k x Hx). specialize (Hu k x Hx).
  destruct (fresh_target_good _ _ _ Ho (f_target _ _ _ _ _ Hix Hu)) as [Hp Hname].
  revert Hbad. unfold Download.bad_item. rewrite Hp, Hname, (f_verified _ _ _ _ _ Hix), (f_count _ _ _ _ _ Hix).
  rewrite length_replicate, Z2Nat.id, Z.eqb_refl, bool_decide_true by done. done.
Qed.

(** C5: a download is saved only once its manifest has been opened. Whatever the
    disk does, the checkpoint after a run is either the one before it or a job made
    from the metadata the server gave for the link's transfer, a key derived from
    the link, and a manifest (or Turbo descriptor) that decrypts under that key and
    passes every check; a run that fails leaves the one before, unless what failed
    was the end of saving the new one. The job is the manifest's: the same items in
    the same order, each with its size, nonce prefix and chunk count, nothing yet
    verified or published, no name twice, and a target that is a portable name the
    output directory did not hold; the total is the sum of the sizes; and the saved
    checkpoint passes the checks a resume begins with. The share key is stored for
    a public link only. *)
Theorem run_saves e link source background s s' r :
  run e link source background s = (s', r) →
  (is_ok r = false → saved s' = saved s ∨ save_reply e = FailedAfter) ∧
  (is_ok r = true ∨ saved s' ≠ saved s → ∃ t keys m token job,
      let turbo := bool_decide (is_Some (descriptor_used t)) in
      metadata (metadata_reply e) (retry_wait e) = Ok t ∧
      (∀ started, r = Ok started →
        started = (if background then Background (Download.job_id job)
                   else Running job (master keys) token)) ∧
      saved s' = Some job ∧ validate_transfer t (l_id link) = Ok () ∧
      unlock (l_key link) (share_key_prompt e) (password_prompt e) (Download.envelope job) = Ok keys ∧
      open_any turbo (master keys) (l_id link) (Download.envelope job) t = Ok m ∧
      live_join_token t m = Ok token ∧ note s' = Manifest.attached_note m ∧
      secret s' = (if is_public source then Some (share_key keys) else secret s) ∧
      Forall2 (item_from turbo (present e) (Download.output job)) (Download.items job) (Manifest.items m) ∧
      NoDup (Manifest.name <$> Manifest.items m) ∧
      Download.total job = sum_Z (Manifest.size <$> Manifest.items m) ∧
      (0 ≤ chunk_bytes t → Download.is_absolute (Download.output job) = true → folder e ≠ "" →
       Forall (λ i, utf8 (Manifest.name i)) (Manifest.items m) → Download.checked job = Ok ())).
Proof.
  unfold run. intros Hr.
  assert (Hnone : ∀ s1 err, saved s1 = saved s → r = Err err → s' = s1 →
    (is_ok r = false → saved s' = saved s ∨ save_reply e = FailedAfter) ∧
    ¬ (is_ok r = true ∨ saved s' ≠ saved s)).
  { intros s1 err Hs -> ->. split; [auto|]. intros [?|?]; [discriminate|congruence]. }
  assert (Hfail : ∀ (Q : Prop) s1 err, saved s1 = saved s → r = Err err → s' = s1 →
    (is_ok r = false → saved s' = saved s ∨ save_reply e = FailedAfter) ∧
    (is_ok r = true ∨ saved s' ≠ saved s → Q)).
  { intros Q s1 err H1 H2 H3. destruct (Hnone _ _ H1 H2 H3). tauto. }
  clear Hnone.
  pure_step Hr E1. pure_step Hr E2. pure_step Hr E3. pure_step Hr E4. pure_step Hr E5.
  pure_step Hr E6. pure_step Hr E7.
  destruct a2, a3. rename a1 into t, a5 into keys, a4 into envelope.
  set (f := with_secret (share_key keys)) in Hr.
  apply bind_run in Hr as [(e1 & Hr & ->)|(s1 & u & Es & Hr)].
  { assert (saved s' = saved s); [|by eapply Hfail].
    destruct (is_public source); [apply write_run in Hr as ([->| ->] & _)|injection Hr as <-]; done. }
  assert (Hs1 : s1 = if is_public source then f s else s).
  { destruct u. destruct (is_public source); [|by injection Es]. apply write_run in Es as (_ & Hw & _). by apply Hw. }
  assert (Hsaved : saved s1 = saved s) by (rewrite Hs1; by destruct (is_public source)).
  assert (Hsecret : secret s1 = if is_public source then Some (share_key keys) else secret s)
    by (rewrite Hs1; by destruct (is_public source)).
  clear Es Hs1. assert (Hfail1 : ∀ (Q : Prop) s2 err, saved s2 = saved s1 → r = Err err → s' = s2 →
    (is_ok r = false → saved s' = saved s ∨ save_reply e = FailedAfter) ∧
    (is_ok r = true ∨ saved s' ≠ saved s → Q)).
  { intros Q s2 err H1. apply Hfail. congruence. }
  clear Hfail. rename Hfail1 into Hfail.
  pure_step Hr E8. pure_step Hr E9. pure_step Hr E10. rename a1 into output, a2 into m, a3 into token.
  apply bind_run in Hr as [(e1 & [=] & ->)|(s2 & ? & [= <- <-] & Hr)].
  pure_step Hr E11. pure_step Hr E12. pure_step Hr E13.
  rename a0 into c, a1 into total, a2 into items, a3 into turbo. clear Hfail.
  apply new_items_Ok in E12 as (Hi & Hnames & _). apply total_of_Ok in E11 as [-> _].
  set (job := new_job _ _ _ _ _ _ _ _ _ _ _) in *. set (s2 := with_note _ s1) in *.
  assert (Hjob : ∀ s3, saved s3 = Some job → note s3 = note s2 → secret s3 = secret s2 → s' = s3 →
    (∀ started, r = Ok started → started = (if background then Background (Download.job_id job)
                   else Running job (master keys) token)) →
    is_ok r = true ∨ saved s' ≠ saved s → ∃ t keys m token job,
      let turbo := bool_decide (is_Some (descriptor_used t)) in
      metadata (metadata_reply e) (retry_wait e) = Ok t ∧
      (∀ started, r = Ok started →
        started = (if background then Background (Download.job_id job)
                   else Running job (master keys) token)) ∧
      saved s' = Some job ∧ validate_transfer t (l_id link) = Ok () ∧
      unlock (l_key link) (share_key_prompt e) (password_prompt e) (Download.envelope job) = Ok keys ∧
      open_any turbo (master keys) (l_id link) (Download.envelope job) t = Ok m ∧
      live_join_token t m = Ok token ∧ note s' = Manifest.attached_note m ∧
      secret s' = (if is_public source then Some (share_key keys) else secret s) ∧
      Forall2 (item_from turbo (present e) (Download.output job)) (Download.items job) (Manifest.items m) ∧
      NoDup (Manifest.name <$> Manifest.items m) ∧
      Download.total job = sum_Z (Manifest.size <$> Manifest.items m) ∧
      (0 ≤ chunk_bytes t → Download.is_absolute (Download.output job) = true → folder e ≠ "" →
       Forall (λ i, utf8 (Manifest.name i)) (Manifest.items m) → Download.checked job = Ok ())).
  { intros s3 H1 H2 H3 -> Hst _. exists t, keys, m, token, job. cbn zeta. rewrite H2, H3.
    split_and!; try done. intros Hc Ho Hf Hu. eapply new_job_checked; try done. by eapply open_any_counts. }
  apply bind_run in Hr as [(e1 & Hr & ->)|(s3 & u' & Hw & Hr)].
  - apply write_run in Hr as (Hs & _ & Hw). destruct Hs as [->| ->].
    + split; [by left|]. intros [?|Hne]; [discriminate|by destruct (Hne Hsaved)].
    + destruct (Hw ltac:(done) eq_refl) as [He| ->].
      * rewrite He. split; [by left|]. intros [?|Hne]; [discriminate|by destruct (Hne Hsaved)].
      * split; [by right|]. eapply Hjob; [| | |reflexivity|]; done.
  - destruct u'. apply write_run in Hw as (_ & Hw & _). rewrite Hw in Hr by done. clear Hw s3.
    apply bind_run in Hr as [(e1 & [=] & ->)|(s4 & ? & [= <- <-] & Hr)].
    assert (Hd : r = Ok (if background then Background (Download.job_id job)
                         else Running job (master keys) token) ∧
                 s' = with_checkpoint_id (Download.job_id job) (with_saved job s2))
      by (by destruct background; injection Hr as <- <-).
    destruct Hd as [-> Hs']. split; [done|]. eapply Hjob; [| | |exact Hs'|]; try done. by intros ? [= <-].
Qed.
End running.

(** ** Turbo *)

Section turbo.
Context `{Ae : Aead, Kd : Kdf, Co : Codec, En : Encode, Js : JsonText, !JsonTextLaws, !WireLaws}.
Context (Sender Receiver : Memory) (waits : waits_end Receiver).

(** The descriptor is sealed before the files have been read to their end: the
    later job has the digests, and the rest as it was. *)
Record same_early (j1 j2 : Upload.UploadJob) : Prop := {
  e_key : Upload.master_key j1 = Upload.master_key j2;
  e_chunk : Upload.chunk_bytes j1 = Upload.chunk_bytes j2;
  e_id : Upload.id j1 = Upload.id j2;
  e_note : Upload.sealed_attached_note j1 = Upload.sealed_attached_note j2;
  e_items : early_item <$> Upload.items j1 = early_item <$> Upload.items j2 }.

Definition early_ok (t : Transfer) (i : Manifest.ManifestItem) : Prop :=
  ∃ server prefix, server ∈ t_items t ∧ m_id server = Manifest.id i ∧
    m_chunk_count server = Manifest.item_chunk_count i ∧ Manifest.id i ≠ "" ∧ Manifest.name i ≠ "" ∧
    len (Manifest.mime i) ≤ 255 ∧
    Manifest.item_chunk_count i = Z.max (div_ceil (Manifest.size i) (chunk_bytes t)) 1 ∧
    decode (Manifest.nonce_prefix i) = Ok prefix ∧ zlen prefix = 16.

Lemma check_descriptor_items_complete t l ids :
  NoDup (m_id <$> t_items t) → NoDup (Manifest.id <$> l) → Forall (λ i, Manifest.id i ∉ ids) l →
  Forall (early_ok t) l → is_ok (try_fold (check_descriptor_item t) ids l) = true.
Proof.
  intros Hs. revert ids. induction l as [|i l IH]; intros ids Hi Hf Ho; [done|].
  apply NoDup_cons in Hi as [Hx Hi]. apply Forall_cons in Hf as [H1 Hf].
  apply Forall_cons in Ho as [(v & p & Hv & Hid & Hn & H2 & H3 & H4 & H5 & Hd & Hp) Ho].
  cbn [try_fold]. unfold check_descriptor_item at 1.
  rewrite (Manifest.list_find_key m_id _ _ _ Hs Hv Hid). cbn [ok_or mbind result_bind].
  unfold is_empty. rewrite !bool_decide_false by done. rewrite <- H5, Hn, !Z.eqb_refl.
  rewrite (proj2 (Z.eqb_neq _ 0)), (proj2 (Z.ltb_ge _ _)) by lia. cbn [orb negb].
  rewrite Hd. cbn [mbind result_bind]. rewrite Hp. cbn [Z.eqb Pos.eqb negb].
  apply IH; try done. rewrite Forall_forall in Hf |- *. intros y Hy.
  apply not_elem_of_union. split; [|by apply Hf]. intros E%elem_of_singleton.
  apply Hx. rewrite <- E. by apply list_elem_of_fmap_2.
Qed.

Lemma turbo_descriptor_Ok transfer fresh j envelope :
  turbo_descriptor (Me := Sender) transfer fresh j = Ok envelope →
  Upload.driver j = "http" ∧ ∃ note, open_attached_note j = Ok note ∧
  seal (Me := Sender) (Upload.master_key j) (Upload.password_salt j)
    (to_vec (descriptor_json note (Upload.chunk_bytes j) (Upload.items j))) (descriptor_aad transfer)
    fresh = Ok envelope.
Proof.
  unfold turbo_descriptor, mbind, result_bind. intros Hg. case_match eqn:Hb; [done|]. bool_prop.
  split; [done|]. destruct (open_attached_note j) as [note|]; [|done]. by exists note.
Qed.

Lemma early_items_ok t j transfer :
  sendable j → describes t j transfer →
  Forall (λ i, Upload.bad_prefix (Upload.nonce_prefix i) = false) (Upload.items j) →
  Forall (early_ok t) (early_item <$> Upload.items j).
Proof.
  intros Hj Ht Hp. apply Forall_fmap, Forall_forall. intros i Hi. cbn [compose].
  pose proof (s_each _ Hj) as He. rewrite Forall_forall in He, Hp.
  destruct (He i Hi) as (H1 & H2 & _ & _ & Hc & _). specialize (Hp i Hi).
  unfold Upload.bad_prefix in Hp. destruct (decode _) as [p|] eqn:Ed; [|done]. bool_prop.
  exists (described i), p. rewrite (t_chunk _ _ _ Ht). split_and!; try done.
  - rewrite (t_same_items _ _ _ Ht). by apply list_elem_of_fmap_2.
  - cbn. by rewrite Z.max_comm.
Qed.

(** The descriptor of a job opens, for the metadata of the finished one. *)
Lemma descriptor_opens j1 j2 fresh envelope transfer t note :
  (∀ prefix, fresh = Ok prefix → Forall is_u8 prefix) →
  turbo_descriptor (Me := Sender) transfer fresh j1 = Ok envelope → same_early j1 j2 →
  sendable j2 → describes t j2 transfer → driver t = "http" →
  Forall (λ i, Upload.bad_prefix (Upload.nonce_prefix i) = false) (Upload.items j2) →
  open_attached_note j2 = Ok note → holds_envelope Receiver envelope →
  turbo_descriptor_for (Me := Receiver) (Upload.master_key j2) transfer envelope t
    = Ok {| Manifest.attached_note := note; Manifest.join_token := None; Manifest.version := 1;
            Manifest.items := early_item <$> Upload.items j2 |}.
Proof.
  intros Hfresh Hd He Hj Ht Hdr Hp Hnote Hfit.
  apply turbo_descriptor_Ok in Hd as (_ & n1 & Hn1 & Hs).
  assert (n1 = note) as ->.
  { unfold open_attached_note in Hn1, Hnote. rewrite (e_note _ _ He), (e_key _ _ He), (e_id _ _ He) in Hn1.
    congruence. }
  destruct (open_sealed Sender Receiver waits _ _ _ _ _ _ Hs Hfit (to_vec_u8 _) Hfresh) as (Ho & _).
  rewrite (e_key _ _ He), (e_chunk _ _ He) in Ho.
  pose proof (s_chunk _ Hj) as Hc. unfold Upload.MAX_CHUNK_BYTES in Hc.
  pose proof (sendable_sized _ Hj) as Hz.
  assert (Hz1 : Forall sized (Upload.items j1)).
  { rewrite Forall_lookup in Hz |- *. intros k i Hk. pose proof (e_items _ _ He) as Hl.
    apply (f_equal (lookup k)) in Hl. rewrite !list_lookup_fmap, Hk in Hl.
    destruct (Upload.items j2 !! k) as [i2|] eqn:E2; [|done]. specialize (Hz k i2 E2).
    cbn in Hl. injection Hl as _ _ Hb _ Hn. unfold sized in *. by rewrite Hb, Hn. }
  unfold turbo_descriptor_for. rewrite Hdr, Ho. cbn [negb String.eqb Ascii.eqb Bool.eqb mbind result_bind].
  rewrite from_slice_to_vec by (apply descriptor_json_printable; [unfold is_u64, u64_max; lia|done]).
  cbn [mbind option_bind]. rewrite descriptor_json_reads by (unfold is_u64, u64_max; lia || done).
  cbn [ok_or mbind result_bind d_version d_purpose d_chunk_bytes d_items d_note].
  rewrite (e_items _ _ He), length_fmap, (t_chunk _ _ _ Ht), Z.eqb_refl.
  rewrite (t_same_items _ _ _ Ht), length_fmap, Nat.eqb_refl.
  rewrite Z.eqb_refl. change (("turbo-descriptor" =? "turbo-descriptor")%string) with true. cbn [negb orb].
  replace (match note with Some note => Manifest.note_validate note | None => Ok () end)
    with (Ok () : result string ())
    by (destruct note as [n|]; [by rewrite (open_attached_note_valid _ _ n Hnote eq_refl)|done]).
  cbn [mbind result_bind].
  pose proof (check_descriptor_items_complete t (early_item <$> Upload.items j2) ∅) as Hok.
  destruct (try_fold _ _ _); [done|]. discriminate Hok.
  - rewrite (t_same_items _ _ _ Ht), <- list_fmap_compose. apply (s_ids _ Hj).
  - rewrite <- list_fmap_compose. apply (s_ids _ Hj).
  - by apply Forall_true.
  - by eapply early_items_ok.
Qed.

Lemma early_binds present output l k :
  Forall2 (item_from true present output) l (early_item <$> k) →
  forallb (λ p, binds (fst p) (snd p)) (zip l (sent_item <$> k)) = true ∧
  Download.digest <$> zip_with set_digest l (sent_item <$> k) = Upload.item_digest <$> k.
Proof.
  revert l. induction k as [|i k IH]; intros l Hl.
  { by apply Forall2_nil_inv_r in Hl as ->. }
  apply Forall2_cons_inv_r in Hl as (s & l' & Hs & Hl & ->). apply IH in Hl as [H1 H2].
  cbn. rewrite H1. split; [|by f_equal]. rewrite andb_true_r. unfold binds.
  rewrite (f_id _ _ _ _ _ Hs), (f_name _ _ _ _ _ Hs), (f_size _ _ _ _ _ Hs),
    (f_prefix _ _ _ _ _ Hs), (f_count _ _ _ _ _ Hs). cbn.
  by rewrite !String.eqb_refl, !Z.eqb_refl.
Qed.

(** C6: a Turbo download is bound to the final manifest. A receiver that started
    from the early descriptor of a job, and has the items it describes, accepts
    the manifest the sender seals when the files have been read: the descriptor
    still opens, both name the same note and the same items in the same order,
    and the turn ends the wait with every item's final digest and nothing else
    of the items changed. The receiver's memory pool must hold four times the
    ciphertext of either envelope, and its waits for that memory must end. *)
Theorem turbo_completes j1 j2 f1 f2 descriptor envelope transfer t job turbo present output :
  (∀ prefix, f1 = Ok prefix → Forall is_u8 prefix) →
  (∀ prefix, f2 = Ok prefix → Forall is_u8 prefix) →
  turbo_descriptor (Me := Sender) transfer f1 j1 = Ok descriptor → same_early j1 j2 →
  Sealing.encrypted_manifest (Me := Sender) f2 j2 = Ok envelope →
  Upload.transfer_id j2 = Some transfer → sendable j2 → describes t j2 transfer →
  driver t = "http" → encrypted_manifest t = Some envelope →
  Forall (λ i, Upload.bad_prefix (Upload.nonce_prefix i) = false) (Upload.items j2) →
  Download.turbo job = Some turbo → Download.descriptor turbo = descriptor →
  Download.transfer_id job = transfer →
  Forall2 (item_from true present output) (Download.items job) (early_item <$> Upload.items j2) →
  holds_envelope Receiver descriptor → holds_envelope Receiver envelope →
  finalize_turn (Me := Receiver) (Upload.master_key j2) t job
    = Ok (Some (set_envelope envelope
        (zip_with set_digest (Download.items job) (sent_item <$> Upload.items j2)) job)) ∧
  Download.digest <$> zip_with set_digest (Download.items job) (sent_item <$> Upload.items j2)
    = Upload.item_digest <$> Upload.items j2.
Proof.
  intros Hf1 Hf2 Hd He Hm Htr Hj Ht Hdr Hmf Hp Htu Hde Hid Hitems Hfit1 Hfit2.
  destruct (encrypted_manifest_Ok Sender _ _ _ Hm Hj) as (tr & note & Htr' & Hnote & Hs). simplify_eq.
  destruct (open_sealed Sender Receiver waits _ _ _ _ _ _ Hs Hfit2 (to_vec_u8 _) Hf2) as (Ho & _).
  destruct (sent_manifest_valid t j2 _ note Hj Ht) as (_ & _ & Hv & _).
  { intros n. by apply (open_attached_note_valid j2). }
  pose proof (sendable_sized _ Hj) as Hz.
  pose proof (Forall2_length _ _ _ Hitems) as Hl. rewrite length_fmap in Hl.
  split.
  - unfold finalize_turn. rewrite Hmf. unfold manifest_for. rewrite Ho. cbn [mbind result_bind].
    rewrite from_slice_to_vec by by apply manifest_json_printable.
    cbn [mbind option_bind]. rewrite manifest_json_reads by done.
    cbn [ok_or mbind result_bind]. rewrite Hv, Htu. cbn [ok_or mbind result_bind].
    rewrite (descriptor_opens j1 j2 f1 _ _ t note) by done. cbn [mbind result_bind sent_manifest
      Manifest.attached_note Manifest.items]. rewrite bool_decide_true, length_fmap, Hl, Nat.eqb_refl by done.
    rewrite (proj1 (early_binds _ _ _ _ Hitems)). done.
  - by apply (early_binds _ _ _ _ Hitems).
Qed.
End turbo.

(** ** Concrete transfers *)

Module Example_opening.
Import Example_crypto Example_json.

(** A codec that keeps the bytes, but for one prefix of 16 bytes that is written
    as 22 letters and one key of 32 bytes that is written as 43, and a pool of 64 MiB of which others hold everything at first. *)
Definition letters22 : list Z := replicate 22 65.
Definition letters43 : list Z := replicate 43 65.
Definition swap (l : list Z) : list Z :=
  if bool_decide (l = prefix16) then letters22
  else if bool_decide (l = letters22) then prefix16
  else if bool_decide (l = key32) then letters43
  else if bool_decide (l = letters43) then key32 else l.

#[export] Instance codec : Codec :=
  {| decode := λ s, Ok (swap (bytes s)); sha256_hex := sha256_hex (Codec := Example_codec.codec) |}.
#[export] Instance enc : Encode := λ l, of_bytes (swap l).
#[export] Instance memory : Memory :=
  {| memory_limit := 64 * 1024 * 1024; turns := λ held _, [(false, 64 * 1024 * 1024); (false, held)] |}.
Lemma memory_waits : waits_end memory.
Proof.
  intros held n Hn. exists [(false, 64 * 1024 * 1024)], held, []. cbn in *. split_and!; [done|lia|by repeat constructor].
Qed.

Lemma swap_swap l : swap (swap l) = l.
Proof.
  unfold swap at 2. case_bool_decide as H1; [by subst; vm_compute|].
  case_bool_decide as H2; [by subst; vm_compute|].
  case_bool_decide as H3; [by subst; vm_compute|].
  case_bool_decide as H4; [by subst; vm_compute|].
  unfold swap. by rewrite !bool_decide_false.
Qed.

Lemma swap_u8 l : Forall is_u8 l → Forall is_u8 (swap l).
Proof. intros Hl. unfold swap. repeat case_match; [by repeat constructor..|done]. Qed.

Lemma length_of_bytes l : length (bytes (of_bytes l)) = length l.
Proof. induction l as [|b l IH]; [done|]. cbn. by f_equal. Qed.

#[export] Instance wire_laws : WireLaws.
Proof.
  split.
  - intros l Hl. change (decode (encode l)) with (Ok (E := string) (swap (bytes (of_bytes (swap l))))).
    by rewrite bytes_of_bytes, swap_swap by by apply swap_u8.
  - intros l. change (encode l) with (of_bytes (swap l)). unfold zlen.
    rewrite <- length_bytes, length_of_bytes. unfold swap.
    repeat case_bool_decide; subst; [by vm_compute..|lia].
  - intros key nonce msg aad c Hm. cbn. intros [= <-]. apply Forall_app. split; [done|].
    by repeat constructor.
Qed.

Definition zeros (n : nat) : string := of_bytes (replicate n 48).
Definition digest64 : string := zeros 64.
Definition prefix22 : string := of_bytes letters22.
Definition password : string := zeros 32.

Definition src : Upload.Src :=
  {| Upload.spec := Source.Path "/a" 0 5; Upload.source_bytes := 5; Upload.source_modified_ns := 0;
     Upload.source_digest := digest64; Upload.chunk_digests := [digest64; digest64] |}.
Definition item (id name : string) (position : Z) : Upload.Item :=
  {| Upload.item_id := id; Upload.item_position := position; Upload.item_name := name;
     Upload.source := src; Upload.nonce_prefix := prefix22; Upload.item_digest := digest64;
     Upload.item_bytes := 5; Upload.item_chunk_count := 2 |}.

(** A protected transfer of two files, with its key still to be derived. *)
Definition job0 : Upload.UploadJob :=
  {| Upload.sealed_attached_note := None; Upload.version := 1; Upload.id := "job";
     Upload.direction := "upload"; Upload.state := "sending"; Upload.instance := "https://x";
     Upload.done_bytes := 0; Upload.total := 10; Upload.transfer_id := Some "t";
     Upload.upload_token := Some "u"; Upload.monitor_token := None; Upload.share_url := None;
     Upload.delete_token := None; Upload.share_key := key32;
     Upload.password_salt := Some (zeros 16); Upload.master_key := []; Upload.chunk_bytes := 3;
     Upload.server_concurrency := 1; Upload.upload_status := false; Upload.turbo := false;
     Upload.descriptor_published := false; Upload.encrypted_descriptor := None;
     Upload.transport := None; Upload.driver := "http"; Upload.join_token := None;
     Upload.exact_manifest := None; Upload.receipt_url := None; Upload.recipient := None;
     Upload.items := [item "a" "a.txt" 0; item "b" "b.txt" 1]; Upload.chunks := [] |}.

Definition the_job : Upload.UploadJob := set_keys (bytes password) None job0.

Definition transfer (descriptor manifest : option string) : Transfer :=
  {| driver := "http"; t_id := "t"; protocol_version := 1; chunk_bytes := 3;
     encrypted_manifest := manifest; encrypted_descriptor := descriptor;
     t_items := [{| m_id := "b"; m_position := 1; m_chunk_count := 2 |};
                 {| m_id := "a"; m_position := 0; m_chunk_count := 2 |}];
     download_concurrency := Some 4; download_ranges := true |}.

Definition sealed : result string string := Sealing.encrypted_manifest (Ok prefix16) the_job.
Definition sealed_text : string := match sealed with Ok e => e | Err _ => "" end.

Example sealed_opens :
  is_ok sealed = true ∧
  Manifest.items <$> manifest_for (bytes password) "t" sealed_text (transfer None None)
    = Ok (sent_item <$> Upload.items job0).
Proof. vm_compute. split; reflexivity. Qed.

Lemma the_job_sendable : sendable the_job.
Proof.
  split; try done.
  - set_solver.
  - by apply (bool_decide_unpack _).
  - by apply (bool_decide_unpack _); vm_compute.
  - repeat constructor; vm_compute; done.
Qed.

Lemma sealed_fits : holds_envelope memory sealed_text.
Proof. apply holds_envelope_check. vm_compute. reflexivity. Qed.

Lemma manifest_opens_witness :
  unlock (Some key32) (Err "") (Ok password) sealed_text
    = Ok {| master := bytes password; share_key := key32 |} ∧
  unlock_saved key32 (Ok password) sealed_text = Ok (bytes password) ∧
  ∃ note, open_attached_note the_job = Ok note ∧
    let m := sent_manifest note (token_of the_job) (Upload.items the_job) in
    manifest_for (bytes password) "t" sealed_text (transfer None None) = Ok m ∧
    validate_transfer (transfer None None) "t" = Ok () ∧
    reject_live_note (transfer None None) = Ok () ∧
    live_join_token (transfer None None) m = Ok (token_of the_job).
Proof.
  apply (manifest_opens memory memory memory_waits password job0 the_job (Ok prefix16)); try exact sealed_fits; try done.
  - intros prefix [= <-]. by repeat constructor.
  - apply the_job_sendable.
  - split; try done. apply Permutation_swap.
Defined.

(** Resuming an upload asks for the password again and takes any: a mistyped one
    gives another key, under which the remaining chunks and the manifest would be
    sealed. *)
Example any_password_unlocks :
  Upload.master_key <$> unlock_job (Ok password) job0 = Ok (bytes password) ∧
  Upload.master_key <$> unlock_job (Ok (of_bytes (replicate 32 49))) job0 = Ok (replicate 32 49).
Proof. vm_compute. split; reflexivity. Qed.

(** The same transfer sent with Turbo: its descriptor, and the job that a
    receiver saved from it. *)
Definition early : result string string := turbo_descriptor "t" (Ok prefix16) the_job.
Definition early_text : string := match early with Ok e => e | Err _ => "" end.

Definition saved_items : list Download.SavedItem :=
  match new_items true ∅ ["out"; "/"] ∅ (early_item <$> Upload.items the_job) with
  | Ok l => l
  | Err _ => []
  end.

Definition turbo_state : Download.TurboJob :=
  {| Download.descriptor := early_text; Download.session_id := "s"; Download.session_token := "k";
     Download.sequence := 0 |}.

Definition turbo_job : Download.DownloadJob :=
  {| Download.version := 1; Download.job_id := "job"; Download.direction := "download";
     Download.state := "running"; Download.instance := "https://x"; Download.done_bytes := 0;
     Download.total := 10; Download.transfer_id := "t"; Download.chunk_bytes := 3;
     Download.server_concurrency := 1; Download.ranges := true; Download.driver := "http";
     Download.envelope := early_text; Download.source := Download.Public;
     Download.turbo := Some turbo_state; Download.output := ["out"; "/"];
     Download.items := saved_items; Download.selected_item_ids := None;
     Download.selection_frozen := false |}.

Lemma early_fits : holds_envelope memory early_text.
Proof. apply holds_envelope_check. vm_compute. reflexivity. Qed.

Lemma turbo_completes_witness :
  finalize_turn (bytes password) (transfer (Some early_text) (Some sealed_text)) turbo_job
    = Ok (Some (set_envelope sealed_text
        (zip_with set_digest saved_items (sent_item <$> Upload.items the_job)) turbo_job)) ∧
  Download.digest <$> zip_with set_digest saved_items (sent_item <$> Upload.items the_job)
    = Upload.item_digest <$> Upload.items the_job.
Proof.
  apply (turbo_completes memory memory memory_waits the_job the_job (Ok prefix16) (Ok prefix16)
    early_text sealed_text "t" (transfer (Some early_text) (Some sealed_text)) turbo_job turbo_state
    ∅ ["out"; "/"]); try exact early_fits; try exact sealed_fits; try done.
  - intros prefix [= <-]. by repeat constructor.
  - intros prefix [= <-]. by repeat constructor.
  - apply the_job_sendable.
  - split; try done. apply Permutation_swap.
  - by repeat constructor.
  - assert (Hn : new_items true ∅ ["out"; "/"] ∅ (early_item <$> Upload.items the_job) = Ok saved_items)
      by by vm_compute.
    by apply new_items_Ok in Hn as [Hn _].
Defined.

(** A receiver of that transfer, whose directory already holds an [a.txt]. *)
Definition reply (j : json) : result string Reply :=
  Ok {| status := 200; body := Ok (to_vec (JObj [("data", j)])) |}.

Definition transfer_json : json :=
  JObj [("driver", JStr "http"); ("id", JStr "t"); ("protocol_version", JNum 1);
        ("chunk_bytes", JNum 3); ("encrypted_manifest", JStr sealed_text);
        ("items", JArr [JObj [("id", JStr "a"); ("position", JNum 0); ("chunk_count", JNum 2)];
                        JObj [("id", JStr "b"); ("position", JNum 1); ("chunk_count", JNum 2)]])].

Definition env : Env :=
  {| phase_reply := Ok (); info_reply := reply (JObj [("download_concurrency", JNum 4)]);
     metadata_reply := λ n, if n =? 0 then Ok {| status := 202; body := Ok [] |} else reply transfer_json;
     retry_wait := λ _, Ok (); share_key_prompt := Err ""; password_prompt := Ok password;
     secret_reply := Done; output_reply := Ok ["out"; "/"]; present := {["a.txt"]};
     session_reply := Err ""; save_reply := Done; folder := "job" |}.

Definition link : Link := {| l_id := "t"; l_key := Some key32; l_instance := "https://x" |}.
Definition setup : Setup := {| secret := None; saved := None; note := None; checkpoint_id := None |}.

(** Once the final manifest is adopted the saved envelope is the manifest's,
    but a resume still opens it as a descriptor: a Turbo download interrupted
    between the first publication and the end cannot be resumed.  (These
    primitives do not bind the associated data; with ones that do, the envelope
    does not even authenticate.) *)
Definition turbo_json : json :=
  JObj [("id", JStr "t"); ("protocol_version", JNum 1); ("chunk_bytes", JNum 3);
        ("encrypted_manifest", JStr sealed_text); ("encrypted_descriptor", JStr early_text);
        ("items", JArr [JObj [("id", JStr "a"); ("position", JNum 0); ("chunk_count", JNum 2)];
                        JObj [("id", JStr "b"); ("position", JNum 1); ("chunk_count", JNum 2)]])].

Definition turbo_env : Env :=
  {| phase_reply := Ok (); info_reply := reply (JObj []); metadata_reply := λ _, reply turbo_json;
     retry_wait := λ _, Ok (); share_key_prompt := Err ""; password_prompt := Ok password;
     secret_reply := Done; output_reply := Ok ["out"; "/"]; present := ∅;
     session_reply := Err ""; save_reply := Done; folder := "job" |}.

Definition finalized_job : Download.DownloadJob :=
  set_envelope sealed_text (zip_with set_digest saved_items (sent_item <$> Upload.items the_job)) turbo_job.

Example finalized_turbo_refused :
  is_ok (snd (reopen turbo_env None (Ok (Some key32)) turbo_job setup)) = true ∧
  snd (reopen turbo_env None (Ok (Some key32)) finalized_job setup) = Err "invalid Turbo descriptor".
Proof. vm_compute. split; reflexivity. Qed.

Notation outcome := (run env link Download.Public true setup).

Lemma run_saves_witness :
  ∃ t keys m token job,
      let turbo := bool_decide (is_Some (descriptor_used t)) in
      metadata (metadata_reply env) (retry_wait env) = Ok t ∧
      (∀ started, snd outcome = Ok started → started = Background (Download.job_id job)) ∧
      saved (fst outcome) = Some job ∧ validate_transfer t "t" = Ok () ∧
      unlock (Some key32) (Err "") (Ok password) (Download.envelope job) = Ok keys ∧
      open_any turbo (master keys) "t" (Download.envelope job) t = Ok m ∧
      live_join_token t m = Ok token ∧ note (fst outcome) = Manifest.attached_note m ∧
      secret (fst outcome) = Some (share_key keys) ∧
      Forall2 (item_from turbo (present env) (Download.output job)) (Download.items job) (Manifest.items m) ∧
      NoDup (Manifest.name <$> Manifest.items m) ∧
      Download.total job = sum_Z (Manifest.size <$> Manifest.items m) ∧
      (0 ≤ chunk_bytes t → Download.is_absolute (Download.output job) = true → "job" ≠ "" →
       Forall (λ i, utf8 (Manifest.name i)) (Manifest.items m) → Download.checked job = Ok ()).
Proof.
  apply (run_saves env link Download.Public true setup (fst outcome) (snd outcome)
    (surjective_pairing outcome)). left. vm_compute. reflexivity.
Defined.

Example run_targets :
  Download.target <$> default [] (Download.items <$> saved (fst outcome))
    = [["a.txt (1)"; "out"; "/"]; ["b.txt"; "out"; "/"]].
Proof. vm_compute. reflexivity. Qed.

(** The free name of one item can be the name of the next: with [a.txt] in the
    directory, both items of this manifest get the target [a.txt (1)], *)
Definition item2 (id name : string) : Manifest.ManifestItem := sent_item (item id name 0).

Example targets_collide :
  option_map (λ l, Download.target <$> l)
    (res_opt (new_items false {["a.txt"]} ["out"; "/"] ∅ [item2 "a" "a.txt"; item2 "b" "a.txt (1)"]))
    = Some [["a.txt (1)"; "out"; "/"]; ["a.txt (1)"; "out"; "/"]].
Proof. vm_compute. reflexivity. Qed.

(** and once the first is published the other never is, unless it is the same
    file. *)
Lemma publish_refused `{Codec, Download.World} i n s c :
  Download.outputs s !! Download.target i = Some c → sha256_hex c ≠ Download.digest i →
  is_ok (snd (Download.publish_item i n s)) = false.
Proof.
  intros Hc Hd. unfold Download.publish_item, fail, get, of_result, mbind, SE_bind.
  destruct (existsb negb _); [done|]. unfold Download.disk at 1.
  destruct (Download.io_fault _); [done|]. cbn.
  destruct (Download.plains s !! n) as [content|]; [cbn|done].
  destruct (_ || _); [done|]. cbn. rewrite Hc. by rewrite (proj2 (String.eqb_neq _ _)).
Qed.
End Example_opening.
