(* ===== verification/Address.v ===== *)
(** * From a pasted text to a transfer, and back to a link or a command
      (crates/transfer-native/src/protocol/mod.rs, crates/client-core/src/link_presentation.rs)

    [Link] reads an identifier and a key; here the text around them decides
    which server they belong to: a full link names its own origin, a bare
    identifier is the configured instance's.  In the other direction a share is
    presented as a link, with its key or beside it, or as a command line for
    another machine, which a POSIX shell must read as exactly three words.

    The url crate is a parameter. *)

From Stdlib Require Import Ascii String.
From S2P Require Import Prelude Str Frame Codec Json Http.
From S2P Require Link Opening.
Open Scope Z_scope.

(** A parsed URL; [text] is its serialization, [origin] that of its origin. *)
Class Web := {
  Url : Type;
  parse : string → option Url;
  scheme : Url → string;
  host : Url → option string;
  port : Url → option Z;
  username : Url → string;
  password : Url → option string;
  query : Url → option string;
  fragment : Url → option string;
  path : Url → string;
  segments : Url → option (list string);
  origin : Url → string;
  text : Url → string;
  join : Url → string → option Url;
  with_fragment : option string → Url → Url }.

(** ** Text *)

Definition is_some {A} (o : option A) : bool := match o with Some _ => true | None => false end.

(** [value.get(..n)]: no prefix that ends inside a character. *)
Definition get_to (n : nat) (s : string) : option string :=
  let l := bytes s in
  let boundary := match l !! n with Some b => negb ((128 <=? b) && (b <? 192)) | None => (n =? length l)%nat end in
  if boundary then Some (of_bytes (take n l)) else None.

Definition eq_ignore_ascii_case (a b : string) : bool := (to_ascii_lowercase a =? to_ascii_lowercase b)%string.

(** [value.replace(c, t)] for one character. *)
Fixpoint replace_char (c : ascii) (t : string) (s : string) : string :=
  match s with
  | EmptyString => ""
  | String a s => if Ascii.eqb a c then t +:+ replace_char c t s else String a (replace_char c t s)
  end.

(** ** Reading a link *)

(** The quotes, brackets and markdown around a link are dropped. *)
Definition unwrap (input : string) : string :=
  let value := trim_matches (Link.one_of Link.link_quotes) (trim input) in
  let value :=
    match rsplit_once "](" value with
    | Some (_, markdown) => trim (trim_end_matches (Z.eqb (ch ")")) (trim markdown))
    | None => value
    end in
  trim_matches (Link.one_of Link.value_quotes) value.

Definition is_full (value : string) : bool := starts_with "http://" value || starts_with "https://" value.

Section address.
Context `{Web}.

Definition is_http (u : Url) : bool := bool_decide (scheme u ∈ ["http"; "https"]).

(** What a configured instance may not have. *)
Definition not_http_origin (u : Url) : bool :=
  negb (is_http u) || negb (is_some (host u)) || negb (is_empty (username u)) || is_some (password u)
  || is_some (query u) || is_some (fragment u) || negb (path u =? "/")%string.

Definition authority (u : Url) : string :=
  default "" (host u) +:+ match port u with Some n => ":" +:+ decimal n | None => "" end.

(** Whether a text without a scheme starts with the instance's authority. *)
Definition at_authority (a value : string) : bool :=
  match get_to (String.length a) value with
  | Some prefix => eq_ignore_ascii_case prefix a && bool_decide (bytes value !! String.length a = Some (ch "/"))
  | None => false
  end.

(** The identifier and the fragment of a link. *)
Definition parts_of_url (u : Url) : result string (string * option string) :=
  reject negb (is_empty (username u)) || is_some (password u) || is_some (query u)
    with "transfer links must not contain URL credentials or a query";
  l ← ok_or (segments u) "transfer link has an invalid path";
  match filter (λ s, is_empty s = false) l with
  | [id] => Ok (id, fragment u)
  | _ => Err "transfer link has an invalid path"
  end.

Definition parts_of_text (value : string) : result string (string * option string) :=
  let '(id, fragment) :=
    match split_once "#" value with
    | Some (id, fragment) => (id, Some fragment)
    | None => (value, None)
    end in
  reject contains "/" id || contains "?" id || is_empty id with "transfer link has an invalid path";
  Ok (id, fragment).

Definition parse_link_for_instance `{Codec} (input instance : string) : result string Opening.Link :=
  let value := unwrap input in
  explicit_url ← (if is_full value then u ← ok_or (parse value) "transfer link is invalid"; Ok (Some u)
                  else Ok None);
  configured ← match explicit_url with
               | Some u => ok_or (parse (origin u)) "invalid URL"
               | None => ok_or (parse instance) "configured Filebeam instance is invalid"
               end;
  reject not_http_origin configured with "configured Filebeam instance must be an HTTP origin";
  candidate_url ←
    match explicit_url with
    | Some u => Ok (Some u)
    | None =>
        if at_authority (authority configured) value
        then u ← ok_or (parse (scheme configured +:+ "://" +:+ value)) "transfer link is invalid"; Ok (Some u)
        else Ok None
    end;
  parts ← match candidate_url with Some u => parts_of_url u | None => parts_of_text value end;
  portable ← Link.parse_share_link
               (fst parts +:+ match snd parts with Some f => "#" +:+ f | None => "" end);
  key ← match Link.link_key portable with Some k => k ← decode k; Ok (Some k) | None => Ok None end;
  Ok {| Opening.l_id := Link.link_id portable; Opening.l_key := key;
        Opening.l_instance := origin configured |}.

(** ** Looking at a link before it is opened *)

Record LinkInspection := {
  i_instance : string; i_id : string; kind : string; i_driver : string; status : string;
  password_required : bool }.

Record PublicTransfer := {
  p_id : string; p_kind : string; p_driver : string; p_status : string;
  encrypted_manifest : option string; encrypted_descriptor : option string }.

Definition public_transfer_of (v : json) : option PublicTransfer :=
  id ← str_field "id" v; kind ← str_field "kind" v; driver ← default_field as_str "http" "driver" v;
  status ← str_field "status" v; m ← opt_field as_str "encrypted_manifest" v;
  d ← opt_field as_str "encrypted_descriptor" v;
  Some {| p_id := id; p_kind := kind; p_driver := driver; p_status := status; encrypted_manifest := m;
          encrypted_descriptor := d |}.

(** Whether a link's envelope needs a password, as the preview decides. *)
Definition preview_password_required `{JsonText} (envelope : option string) : bool :=
  match envelope with
  | Some text =>
      match from_str text with
      | Some v => bool_decide (is_Some (field "salt" v))
      | None => false
      end
  | None => false
  end.

(** [inspect_link_for_instance]; [server] answers a GET with a status and a body. *)
Definition inspect_link_for_instance `{Codec, JsonText} (built : result string ())
    (server : string → result string (Z * result string (list Z))) (input instance : string)
    : result string LinkInspection :=
  link ← parse_link_for_instance input instance;
  _ ← built;
  response ← server (Opening.l_instance link +:+ "/api/v1/transfers/" +:+ Opening.l_id link);
  reject negb ((200 <=? fst response) && (fst response <=? 299)) with "transfer metadata is unavailable";
  body ← snd response;
  transfer ← ok_or (v ← from_slice body; data ← field "data" v; public_transfer_of data)
                     "error decoding response body";
  reject negb (p_id transfer =? Opening.l_id link)%string
         || negb (bool_decide (p_kind transfer ∈ ["files"; "note"]))
         || negb (bool_decide (p_driver transfer ∈ ["http"; "webrtc"])) with "unsupported transfer metadata";
  Ok {| i_instance := Opening.l_instance link; i_id := Opening.l_id link; kind := p_kind transfer;
        i_driver := p_driver transfer; status := p_status transfer;
        password_required := preview_password_required
          (match encrypted_manifest transfer with Some e => Some e | None => encrypted_descriptor transfer end) |}.

(** ** Presenting a share *)

Record ShareLinkPresentation := { link : string; separate_key : string }.

Definition raw_key (share_key : string) : string :=
  default (trim share_key) (strip_prefix "v1." (trim share_key)).

Definition split_share_link `{Codec, Encode} (instance link : string) : result string ShareLinkPresentation :=
  parsed ← parse_link_for_instance link instance;
  key ← ok_or (Opening.l_key parsed) "share link has no included key";
  Ok {| link := Opening.l_instance parsed +:+ "/" +:+ Opening.l_id parsed;
        separate_key := "v1." +:+ encode key |}.

Definition present_share_link `{Codec, Encode} (instance share_url share_key : string) (include_key : bool)
    : result string ShareLinkPresentation :=
  let raw := raw_key share_key in
  key ← (match decode raw with Ok key => Ok key | Err _ => Err "share key is not base64url" end);
  reject negb (zlen key =? 32) || negb (encode key =? raw)%string
    with "share key must be canonical and 32 bytes";
  base ← ok_or (parse instance) "configured Filebeam instance is invalid";
  u ← ok_or (join base share_url) "server returned an invalid share URL";
  let u := with_fragment None u in
  let separate := "v1." +:+ raw in
  let u := if include_key then with_fragment (Some ("k=" +:+ separate)) u else u in
  Ok {| link := text u; separate_key := separate |}.

(** ** The command line *)

Definition quote : string := "'".
Definition quoted_quote : string := quote +:+ Link.dquote +:+ quote +:+ Link.dquote +:+ quote.
Definition quote_shell_argument (value : string) : string :=
  quote +:+ replace_char "'" quoted_quote value +:+ quote.

Definition transfer_id_byte (index : nat) (b : Z) : bool :=
  Link.in_range "0" "7" b
  || (0 <? index)%nat
     && (Link.in_range "0" "9" b || Link.in_range "A" "H" b || Link.in_range "J" "K" b
         || Link.in_range "M" "N" b || Link.in_range "P" "T" b || Link.in_range "V" "Z" b
         || Link.in_range "a" "h" b || Link.in_range "j" "k" b || Link.in_range "m" "n" b
         || Link.in_range "p" "t" b || Link.in_range "v" "z" b).
Definition is_transfer_id (value : string) : bool :=
  (len value =? 26) && forallb id (imap transfer_id_byte (bytes value)).

Definition format_download_with_cli `{Codec} (target : string) : result string string :=
  reject is_empty target || existsb is_control (chars target)
    with "CLI target must be nonempty and contain no control characters";
  if is_transfer_id target then Ok ("beam down " +:+ quote_shell_argument target) else
  url ← ok_or (parse target) "CLI target must be a full HTTP transfer URL";
  reject negb (is_http url) || negb (is_some (host url)) || negb (is_empty (username url))
         || is_some (password url) || is_some (query url)
    with "CLI target must be a full HTTP transfer URL without credentials or a query";
  parsed ← parse_link_for_instance target target;
  reject negb (path url =? "/" +:+ Opening.l_id parsed)%string || negb (is_transfer_id (Opening.l_id parsed))
    with "CLI target is not a supported transfer link";
  Ok ("beam down " +:+ quote_shell_argument target).
End address.

(** ** How a POSIX shell splits a line

    The part of the shell's grammar a quoted argument meets: blanks between
    words, single and double quotes, and ordinary characters.  Anything with a
    meaning beyond that, and an open quote, is refused. *)
Inductive Quoting := Bare | Single | Double.

Definition ordinary (b : Z) : bool := is_ascii_alphanumeric b || Link.one_of "-._/:@%+=," b.

Definition add (a : ascii) (word : option string) : option string := Some (default "" word +:+ String a "").

Fixpoint shell (q : Quoting) (word : option string) (s : string) : option (list string) :=
  match s with
  | EmptyString => match q with Bare => Some (option_list word) | _ => None end
  | String a s =>
      match q with
      | Single => if Ascii.eqb a "'" then shell Bare word s else shell Single (add a word) s
      | Double =>
          if ch a =? 34 then shell Bare word s
          else if bool_decide (a ∈ ["$"; "`"; "\"; "!"]%char) then None
          else shell Double (add a word) s
      | Bare =>
          if Ascii.eqb a "'" then shell Single (Some (default "" word)) s
          else if ch a =? 34 then shell Double (Some (default "" word)) s
          else if Ascii.eqb a " " then l ← shell Bare None s; Some (option_list word ++ l)
          else if ordinary (ch a) then shell Bare (add a word) s
          else None
      end
  end.
Definition shell_words (s : string) : option (list string) := shell Bare None s.

(** ** What the url crate and base64 do

    A URL is serialized without whitespace or control characters and reads back;
    an http URL is its origin, its path and its fragment; an origin holds no
    closing bracket before a parenthesis (only an IPv6 address has brackets).
    32 bytes are 43 characters whose last two bits are zero. *)
Record http_page `{Web} (u : Url) (id : string) : Prop := {
  page_scheme : is_http u = true;
  page_host : is_some (host u) = true;
  page_username : username u = "";
  page_password : password u = None;
  page_query : query u = None;
  page_path : path u = "/" +:+ id }.

Class WebLaws `{Web} : Prop := {
  url_reads u id : http_page u id → parse (text u) = Some u;
  url_text u id : http_page u id → fragment u = None → text u = origin u +:+ "/" +:+ id;
  url_segments u id : http_page u id → no_char "/" id → segments u = Some [id];
  fragment_text u id f : http_page u id → Link.plain_str id → Forall (λ b, Link.value_byte b = true) (bytes f) →
    text (with_fragment (Some f) u) = text (with_fragment None u) +:+ "#" +:+ f;
  fragment_reads u f : from_option (λ f, Forall (λ b, Link.value_byte b = true) (bytes f)) True f →
    fragment (with_fragment f u) = f;
  fragment_page u id f : http_page u id → http_page (with_fragment f u) id;
  fragment_origin u f : origin (with_fragment f u) = origin u;
  origin_reads u id : http_page u id → ∃ o, parse (origin u) = Some o ∧ not_http_origin o = false ∧
    origin o = origin u;
  origin_full u id : http_page u id → is_full (origin u) = true;
  origin_bytes u id : http_page u id → Forall (λ b, 33 ≤ b < 127) (bytes (origin u));
  origin_brackets u id : http_page u id → rsplit_once "](" (origin u) = None;
  url_letter s u : parse s = Some u → starts_with "-" s = false }.

Class KeyText `{Codec, Encode} : Prop :=
  key_text raw key : decode raw = Ok key → zlen key = 32 → encode key = raw →
    Link.valid_base64url raw 43 3 = true.
Class KeyBytes `{Codec} : Prop :=
  key_bytes raw key : Link.valid_base64url raw 43 3 = true → decode raw = Ok key → zlen key = 32.

(** ** Quoting *)

Lemma append_assoc (a b c : string) : (a +:+ b) +:+ c = a +:+ b +:+ c.
Proof. apply bytes_inj. by rewrite !bytes_app, app_assoc. Qed.

Lemma add_app a w s : default "" (add a w) +:+ s = default "" w +:+ String a s.
Proof. destruct w; [|done]. apply append_assoc. Qed.

(** A quoted text is the text, whatever it contains. *)
Lemma shell_quoted v w s :
  shell Single (Some w) (replace_char "'" quoted_quote v +:+ quote +:+ s) = shell Bare (Some (w +:+ v)) s.
Proof.
  revert w. induction v as [|a v IH]; intros w; [by rewrite append_nil_r|]. cbn [replace_char].
  destruct (Ascii.eqb_spec a "'") as [->|Ha].
  - rewrite append_assoc. set (rest := replace_char "'" quoted_quote v +:+ quote +:+ s) in *.
    change (shell Single (Some w) (quoted_quote +:+ rest)) with (shell Single (Some (w +:+ "'")) rest).
    rewrite IH. f_equal. f_equal. apply (add_app "'" (Some w)).
  - apply Ascii.eqb_neq in Ha. change (String a ?x +:+ ?y) with (String a (x +:+ y)). cbn [shell]. rewrite Ha.
    change (add a (Some w)) with (Some (w +:+ String a "")). rewrite IH. f_equal. f_equal. apply (add_app a (Some w)).
Qed.

Lemma command_words v : shell_words ("beam down " +:+ quote_shell_argument v) = Some ["beam"; "down"; v].
Proof.
  change (shell_words ("beam down " +:+ quote_shell_argument v))
    with (l ← (l ← shell Single (Some "") (replace_char "'" quoted_quote v +:+ quote +:+ "");
               Some (["down"] ++ l)); Some (["beam"] ++ l)).
  by rewrite shell_quoted.
Qed.

(** ** Unwrapping *)

Lemma unwrap_id t a m z :
  ascii_str t → bytes t = a :: m ++ [z] → Link.value_byte a = true → Link.value_byte z = true →
  rsplit_once "](" t = None → unwrap t = t.
Proof.
  intros Ht Hb Ha Hz Hr.
  assert (Hu : ∀ p, forallb (λ b, implb (Link.value_byte b) (negb (p b))) (seqZ 0 256) = true → untrimmed p t).
  { intros p Hp. pose proof (bytes_u8 t) as H8. rewrite Hb in H8. split; [done|]. exists a, (a :: m), z.
    rewrite Hb. inversion_clear H8 as [|? ? Ha8 H8']. apply Forall_app in H8' as [_ Hz8]. inversion_clear Hz8.
    split_and!; [done|..|done|]; apply negb_true_iff; (eapply (byte_implies Link.value_byte (λ b, negb (p b)));
      [exact Hp|done|done]). }
  unfold unwrap, trim. rewrite !(trim_matches_id is_whitespace), !(trim_matches_id (Link.one_of Link.link_quotes))
    by (apply Hu; by vm_compute).
  rewrite Hr. apply trim_matches_id, Hu. by vm_compute.
Qed.

Lemma starts_with_app p s t : starts_with p s = true → starts_with p (s +:+ t) = true.
Proof.
  unfold starts_with. revert s. induction p as [|a p IH]; intros s Hs; [by destruct s, t|].
  destruct s as [|b s]; [done|].
  change (String b s +:+ t) with (String b (s +:+ t)). cbn [String.prefix] in *.
  destruct (ascii_dec a b); [by apply IH|done].
Qed.

Lemma is_full_head s : is_full s = true → ∃ t, s = String "h" t.
Proof.
  unfold is_full, starts_with. destruct s as [|a s]; [done|]. intros Hs. exists s.
  cbn [String.prefix] in Hs. by destruct (ascii_dec "h" a) as [->|].
Qed.

Lemma rsplit_once_found sep l r : sep ≠ "" → rsplit_once sep (l +:+ sep +:+ r) ≠ None.
Proof.
  intros Hne. induction l as [|c l IH].
  - change ("" +:+ sep +:+ r) with (sep +:+ r). destruct (sep +:+ r) as [|c s] eqn:E; [by destruct sep|].
    cbn [rsplit_once]. destruct (rsplit_once sep s) as [[]|]; [done|]. by rewrite <- E, strip_prefix_app.
  - change (String c l +:+ sep +:+ r) with (String c (l +:+ sep +:+ r)). cbn [rsplit_once].
    by destruct (rsplit_once sep (l +:+ sep +:+ r)) as [[]|].
Qed.

Lemma key_fragment_bytes k :
  Link.valid_base64url k 43 3 = true → Forall (λ b, Link.value_byte b = true) (bytes ("k=v1." +:+ k)).
Proof.
  intros Hk. pose proof (Link.fragment_bytes true (Some k) Hk) as Hb. cbn [Link.fragment] in Hb.
  rewrite bytes_app in Hb. by apply Forall_app in Hb as [_ Hb].
Qed.

(** ** Reading a presented link *)

Section reading.
Context `{WL : WebLaws}.

(** The link of a page with a key, or none, in its fragment. *)
Definition keyed (key : option string) (u : Url) : Url := with_fragment ((λ k, "k=v1." +:+ k) <$> key) u.

Lemma keyed_fragment key u :
  from_option (λ k, Link.valid_base64url k 43 3 = true) True key →
  fragment (keyed key u) = (λ k, "k=v1." +:+ k) <$> key.
Proof.
  intros Hk. apply fragment_reads. destruct key as [k|]; [|done]. cbn in *.
  by apply key_fragment_bytes.
Qed.

Lemma keyed_text u id key :
  http_page u id → Link.is_ulid id = true →
  from_option (λ k, Link.valid_base64url k 43 3 = true) True key →
  text (keyed key u) = origin u +:+ "/" +:+ id +:+ Link.fragment true key.
Proof.
  intros Hu Hid Hk.
  assert (Hn : text (with_fragment None u) = origin u +:+ "/" +:+ id).
  { rewrite <- (fragment_origin u None). apply url_text; [by apply fragment_page|]. by apply fragment_reads. }
  unfold keyed. destruct key as [k|]; cbn [fmap option_fmap option_map].
  - rewrite (fragment_text u id), Hn; [|done|..].
    + by rewrite !append_assoc.
    + by apply Link.ulid_plain; rewrite Link.ulid_upper.
    + by apply key_fragment_bytes.
  - by rewrite Hn, append_nil_r.
Qed.

Lemma keyed_page key u id : http_page u id → http_page (keyed key u) id.
Proof. apply fragment_page. Qed.

Lemma keyed_unwrap u id key :
  http_page u id → Link.is_ulid id = true →
  from_option (λ k, Link.valid_base64url k 43 3 = true) True key →
  unwrap (text (keyed key u)) = text (keyed key u) ∧ is_full (text (keyed key u)) = true.
Proof.
  intros Hu Hid Hk. rewrite (keyed_text u id) by done. set (rest := id +:+ Link.fragment true key).
  destruct (Link.link_parts id true key) as [Hne Hv]; [by rewrite Link.ulid_upper|done|]. fold rest in Hne, Hv.
  pose proof (origin_full _ _ Hu) as Hf. pose proof (origin_bytes _ _ Hu) as Hb.
  split; [|unfold is_full in *; apply orb_true_iff in Hf as [Hf|Hf]; rewrite (starts_with_app _ _ _ Hf); by rewrite ?orb_true_r].
  apply is_full_head in Hf as [s Hs].
  destruct (exists_last (l := bytes rest)) as (m & z & Em); [by destruct rest|].
  assert (Hz : Link.value_byte z = true).
  { rewrite Em in Hv. apply Forall_app in Hv as [_ Hv]. by inversion_clear Hv. }
  eapply (unwrap_id _ (ch "h") (bytes s ++ bytes "/" ++ m) z); [| |done..|].
  - unfold ascii_str. rewrite !bytes_app. repeat (apply Forall_app; split).
    + eapply Forall_impl; [exact Hb|]. cbv beta. lia.
    + by repeat constructor.
    + pose proof (bytes_u8 rest) as H8. rewrite Forall_forall in Hv, H8 |- *. intros b Hin.
      specialize (Hv b Hin). specialize (H8 b Hin). pose proof (byte_implies Link.value_byte (λ b, b <? 128)) as Hi.
      destruct H8. split; [done|]. apply Z.ltb_lt. apply Hi; [by vm_compute|done|done].
  - rewrite Hs. change (bytes (String "h" s +:+ "/" +:+ rest)) with (ch "h" :: bytes (s +:+ "/" +:+ rest)).
    by rewrite !bytes_app, Em, !app_assoc.
  - destruct (rsplit_once "](" _) as [[l r]|] eqn:E; [|done].
    exfalso. apply rsplit_once_tail in E as (s' & Ho & _); [|done|].
    + pose proof (origin_brackets _ _ Hu) as Hn. rewrite Ho in Hn. by apply rsplit_once_found in Hn.
    + intros c. destruct (decide (c = "]"%char ∨ c = "("%char)) as [Hc|Hc]; [right|left].
      * change ("/" +:+ rest) with (String "/" rest). apply no_char_String. split; [by destruct Hc as [-> | ->]|].
        destruct Hc as [-> | ->]; by eapply no_char_bytes.
      * rewrite !no_char_String. split_and!; [naive_solver..|]. unfold no_char. set_solver.
Qed.

(** A presented link reads back whatever instance is configured. *)
Lemma parse_keyed `{Codec} u id key configured :
  http_page u id → Link.is_ulid id = true →
  from_option (λ k, Link.valid_base64url k 43 3 = true) True key →
  parse_link_for_instance (text (keyed key u)) configured =
    k ← match key with Some k => k ← decode k; Ok (Some k) | None => Ok None end;
    Ok {| Opening.l_id := id; Opening.l_key := k; Opening.l_instance := origin u |}.
Proof.
  intros Hu Hid Hk. destruct (keyed_unwrap u id key) as [Hw Hf]; [done..|].
  pose proof (keyed_page key _ _ Hu) as Hp. destruct (origin_reads _ _ Hu) as (o & Ho & Hoo & Hoe).
  unfold parse_link_for_instance. rewrite Hw, Hf, (url_reads _ _ Hp). cbn [ok_or mbind result_bind].
  change (origin (keyed key u)) with (origin (with_fragment ((λ k, "k=v1." +:+ k) <$> key) u)).
  rewrite fragment_origin, Ho. cbn [ok_or mbind result_bind]. rewrite Hoo.
  cbn [mbind result_bind]. unfold parts_of_url.
  assert (Hn : no_char "/" id).
  { destruct (Link.ulid_plain id) as [_ Hpl]; [by rewrite Link.ulid_upper|]. by eapply no_char_bytes. }
  rewrite (page_username _ _ Hp), (page_password _ _ Hp), (page_query _ _ Hp), (url_segments _ _ Hp Hn).
  cbn [is_some is_empty bool_decide orb negb ok_or mbind result_bind].
  assert (Hne : is_empty id = false).
  { apply is_empty_len. unfold Link.is_ulid in Hid. bool_prop. lia. }
  rewrite filter_cons_True, filter_nil by done. rewrite keyed_fragment by done. change (is_empty "") with true.
  cbn [negb orb fst snd mbind result_bind].
  assert (Hpl : Link.parse_share_link (id +:+ match (λ k, "k=v1." +:+ k) <$> key with Some f => "#" +:+ f | None => "" end)
    = Ok {| Link.link_id := id; Link.link_key := key |}).
  { rewrite <- (Link.ulid_upper id Hid) at 2. destruct (Link.link_parts id true key) as [H1 H2];
      [by rewrite Link.ulid_upper|done|].
    apply (Link.parse_link_value _ id true); [|by rewrite Link.ulid_upper|done].
    destruct key; by apply Link.link_value_bare. }
  rewrite Hpl. cbn [mbind result_bind Link.link_key Link.link_id]. rewrite Hoe. done.
Qed.
End reading.

(** ** What they promise *)

Lemma later_bytes l : forallb id (imap (transfer_id_byte ∘ S) l) = forallb (transfer_id_byte 1) l.
Proof.
  change (transfer_id_byte ∘ S) with (λ k : nat, transfer_id_byte 1).
  induction l as [|b l IH]; [done|]. cbn [imap forallb]. f_equal. exact IH.
Qed.

(** The command formatter and the link parser agree on identifiers: the formatter
    passes on exactly the texts that are a canonical identifier in upper or lower
    case. *)
Theorem is_transfer_id_ulid v : is_transfer_id v = Link.is_ulid (to_ascii_uppercase v).
Proof.
  unfold is_transfer_id, Link.is_ulid. rewrite len_to_ascii_uppercase, bytes_to_ascii_uppercase.
  destruct (len v =? 26) eqn:El; [|done]. cbn [andb]. pose proof (bytes_u8 v) as H8.
  destruct (bytes v) as [|b l] eqn:Eb.
  { apply Z.eqb_eq in El. rewrite <- length_bytes, Eb in El. done. }
  inversion_clear H8 as [|? ? Hb Hl]. clear Eb El. cbn [imap forallb fmap list_fmap tail]. f_equal.
  - apply eqb_prop. revert b Hb. apply (byte_forall (λ b, Bool.eqb _ _)). by vm_compute.
  - rewrite later_bytes. induction Hl as [|c l Hc Hl IH]; [done|]. cbn [forallb fmap list_fmap]. rewrite IH. f_equal.
    apply eqb_prop. revert c Hc. apply (byte_forall (λ b, Bool.eqb _ _)). by vm_compute.
Qed.

Lemma ulid_no_dash v : Link.is_ulid (to_ascii_uppercase v) = true → starts_with "-" v = false.
Proof.
  intros H. apply Link.is_ulid_inv in H as (_ & b & l & Hb & Hr & _). rewrite bytes_to_ascii_uppercase in Hb.
  destruct v as [|a v]; [done|]. unfold starts_with. cbn [String.prefix].
  destruct (ascii_dec "-" a) as [<-|]; [|done]. by injection Hb as <- _.
Qed.

(** An identifier alone is the configured instance's. *)
Lemma parse_bare `{Web, Codec} id configured c :
  Link.is_ulid (to_ascii_uppercase id) = true → parse configured = Some c → not_http_origin c = false →
  parse_link_for_instance id configured =
    Ok {| Opening.l_id := to_ascii_uppercase id; Opening.l_key := None; Opening.l_instance := origin c |}.
Proof.
  intros Hid Hc Ho. destruct (Link.ulid_plain _ Hid) as [Hlen Hpl].
  assert (Hv : Forall (λ b, Link.value_byte b = true) (bytes id)).
  { eapply Forall_impl; [exact Hpl|]. intros b Hb. unfold Link.value_byte. by rewrite Hb. }
  assert (Hn : ∀ c, Link.is_base64url (byte_of c) = false → no_char c id) by (intros x; by apply no_char_bytes).
  assert (Hne : id ≠ "") by by intros ->.
  assert (Hw : unwrap id = id).
  { assert (Hu : ∀ q, forallb (λ b, implb (Link.value_byte b) ((b <? 128) && negb (q b))) (seqZ 0 256) = true →
      untrimmed q id) by (intros q Hq; by apply (Link.untrimmed_bytes Link.value_byte)).
    unfold unwrap, trim.
    rewrite (trim_matches_id is_whitespace id), (trim_matches_id (Link.one_of Link.link_quotes) id)
      by (apply Hu; by vm_compute).
    rewrite (rsplit_once_no_char "]") by by apply Hn. apply trim_matches_id, Hu. by vm_compute. }
  assert (Hf : is_full id = false).
  { apply not_true_is_false. intros [t ->]%is_full_head. apply Link.is_ulid_inv in Hid as (_ & b & l & Hb & Hr & _).
    rewrite bytes_to_ascii_uppercase in Hb. by injection Hb as <- _. }
  assert (Ha : at_authority (authority c) id = false).
  { unfold at_authority. destruct (get_to _ _); [|done]. rewrite bool_decide_false; [by rewrite andb_false_r|].
    intros Hs%list_elem_of_lookup_2. unfold Link.plain_str in Hpl. rewrite Forall_forall in Hpl. by apply Hpl in Hs. }
  unfold parse_link_for_instance. rewrite Hw, Hf, Hc. cbn [ok_or mbind result_bind]. rewrite Ho, Ha.
  cbn [mbind result_bind]. unfold parts_of_text. rewrite split_once_no_char by by apply Hn.
  rewrite !contains_no_char by by apply Hn. rewrite (proj2 (is_empty_len id)) by lia. cbn [orb mbind result_bind fst snd].
  rewrite append_nil_r. rewrite (Link.parse_link_value id id true None); [done|..|done|done].
  cbn [Link.fragment]. rewrite append_nil_r. by apply Link.link_value_bare.
Qed.

Lemma parse_full `{Web, Codec} input a b :
  is_full (unwrap input) = true → parse_link_for_instance input a = parse_link_for_instance input b.
Proof. unfold parse_link_for_instance. intros ->. by destruct (parse (unwrap input)). Qed.

(** What is left once the server and the parts of the link are known. *)
Lemma finish_inv `{Codec} parts name l :
  (portable ← Link.parse_share_link parts;
   key ← match Link.link_key portable with Some k => k ← decode k; Ok (Some k) | None => Ok None end;
   Ok {| Opening.l_id := Link.link_id portable; Opening.l_key := key; Opening.l_instance := name |}) = Ok l →
  ∃ portable, Opening.l_instance l = name ∧ Link.parse_share_link parts = Ok portable ∧
    Opening.l_id l = Link.link_id portable ∧
    match Link.link_key portable with
    | Some k => ∃ key, decode k = Ok key ∧ Opening.l_key l = Some key
    | None => Opening.l_key l = None
    end.
Proof.
  destruct (Link.parse_share_link parts) as [portable|]; [|done]. cbn [mbind result_bind]. intros Hl. exists portable.
  destruct (Link.link_key portable) as [k|]; [destruct (decode k) as [key|] eqn:Ed; [|done]|];
    injection Hl as <-; cbn; [by split_and!; [..|exists key]|done].
Qed.

Lemma parse_inv `{Web, Codec} input instance l :
  parse_link_for_instance input instance = Ok l →
  ∃ c parts portable, not_http_origin c = false ∧ Opening.l_instance l = origin c ∧
    (if is_full (unwrap input)
     then ∃ u, parse (unwrap input) = Some u ∧ parse (origin u) = Some c ∧
       username u = "" ∧ password u = None ∧ query u = None
     else parse instance = Some c) ∧
    Link.parse_share_link parts = Ok portable ∧ Opening.l_id l = Link.link_id portable ∧
    match Link.link_key portable with
    | Some k => ∃ key, decode k = Ok key ∧ Opening.l_key l = Some key
    | None => Opening.l_key l = None
    end.
Proof.
  unfold parse_link_for_instance. intros Hl. destruct (is_full (unwrap input)).
  - destruct (parse (unwrap input)) as [u|]; [|done]. cbn [ok_or mbind result_bind] in Hl.
    destruct (parse (origin u)) as [c|] eqn:Ec; [|done]. cbn [ok_or mbind result_bind] in Hl.
    destruct (not_http_origin c) eqn:Hc; [done|]. cbn [mbind result_bind] in Hl.
    destruct (parts_of_url u) as [parts|] eqn:Hp; [|done]. cbn [mbind result_bind] in Hl.
    apply finish_inv in Hl as (portable & Hi & Hs & Hid & Hk).
    unfold parts_of_url in Hp. guards Hp. bool_prop. eexists c, _, portable. split_and!; try done. exists u.
    unfold is_empty in *. split_and!; [done|done|by eapply bool_decide_eq_true|by destruct (password u)|by destruct (query u)].
  - destruct (parse instance) as [c|]; [|done]. cbn [ok_or mbind result_bind] in Hl.
    destruct (not_http_origin c) eqn:Hc; [done|].
    destruct (if at_authority (authority c) (unwrap input) then _ else _) as [u|]; [|done]. cbn [mbind result_bind] in Hl.
    destruct (match u with Some u => parts_of_url u | None => parts_of_text (unwrap input) end) as [parts|]; [|done].
    cbn [mbind result_bind] in Hl. apply finish_inv in Hl as (portable & Hi & Hs & Hid & Hk).
    by eexists c, _, portable.
Qed.

(** The server of a link is never a matter of chance: a text with a scheme names it,
    any other text is the configured instance's. It is an HTTP origin, without
    credentials, query or fragment; the identifier is canonical and a key has 32
    bytes. *)
Theorem link_names_server `{Web, Codec, !KeyBytes} input instance l :
  parse_link_for_instance input instance = Ok l →
  Link.is_ulid (Opening.l_id l) = true ∧
  from_option (λ k, zlen k = 32) True (Opening.l_key l) ∧
  (∃ c, not_http_origin c = false ∧ Opening.l_instance l = origin c ∧
    if is_full (unwrap input)
    then ∃ u, parse (unwrap input) = Some u ∧ parse (origin u) = Some c ∧
      username u = "" ∧ password u = None ∧ query u = None
    else parse instance = Some c) ∧
  (is_full (unwrap input) = true → ∀ other, parse_link_for_instance input other = Ok l).
Proof.
  intros Hl. destruct (parse_inv _ _ _ Hl) as (c & parts & portable & Hc & Hi & Hs & Hp & Hid & Hk).
  apply Link.parsed_canonical in Hp as [Hu Hv]. rewrite Hid. split_and!; [done|..].
  - destruct (Link.link_key portable) as [k|]; [|by rewrite Hk]. destruct Hk as (key & Hd & ->). by eapply key_bytes.
  - exists c. exact (conj Hc (conj Hi Hs)).
  - intros Hf other. by rewrite (parse_full _ _ instance).
Qed.

(** A download command. Whatever the target holds (quotes, dollars, backquotes,
    spaces), a shell splits the command into exactly [beam], [down] and the target,
    which is no option; and on another machine, whatever instance that one is
    configured with, the target opens the transfer it names here: a full link the
    transfer of its own server, an identifier that of the configured server. *)
Theorem command_opens `{WebLaws, Codec} target cmd :
  format_download_with_cli target = Ok cmd →
  shell_words cmd = Some ["beam"; "down"; target] ∧ starts_with "-" target = false ∧
  if is_transfer_id target
  then ∀ configured c, parse configured = Some c → not_http_origin c = false →
    parse_link_for_instance target configured =
      Ok {| Opening.l_id := to_ascii_uppercase target; Opening.l_key := None; Opening.l_instance := origin c |}
  else ∃ l, Link.is_ulid (Opening.l_id l) = true ∧ ∀ configured, parse_link_for_instance target configured = Ok l.
Proof.
  unfold format_download_with_cli. intros Hf. guards Hf.
  destruct (is_transfer_id target) eqn:Eid.
  - injection Hf as <-. split; [apply command_words|].
    rewrite is_transfer_id_ulid in Eid. split; [by apply ulid_no_dash|]. intros. by apply parse_bare.
  - destruct (parse target) as [u|] eqn:Eu; [|done]. cbn [ok_or mbind result_bind] in Hf. guards Hf.
    destruct (parse_link_for_instance target target) as [l|] eqn:El; [|done]. cbn [mbind result_bind] in Hf. guards Hf.
    injection Hf as <-. split; [apply command_words|]. split; [by eapply url_letter|]. exists l. bool_prop.
    pose proof (parse_inv _ _ _ El) as (c & parts & portable & Hc & _ & Hs & [Hu _]%Link.parsed_canonical & Hid & _).
    rewrite <- Hid in Hu. split; [done|]. intros configured.
    destruct (is_full (unwrap target)) eqn:Ef; [by rewrite (parse_full _ _ target)|].
    exfalso. assert (c = u) as -> by congruence.
    unfold not_http_origin in Hc. bool_prop.
    match goal with He : path u = "/" |- _ => rewrite He in * end.
    match goal with He : "/" = "/" +:+ _ |- _ => rename He into Hpath end.
    apply (append_inj_r "/" "") in Hpath. by rewrite <- Hpath in Hu.
Qed.

(** C34: A presented share opens. Whatever key text the host holds, a presentation has
    the canonical text of 32 key bytes, and if the server's share URL is the page of
    a transfer, then on any machine, whatever instance it is configured with, the
    link names that transfer at that server, with the key if it was included and
    without it otherwise; splitting the full link gives the presentation that keeps
    the key apart. *)
Theorem presented_link_opens `{WebLaws, Codec, Encode, !KeyText} instance share_url share_key p base u id :
  present_share_link instance share_url share_key true = Ok p →
  parse instance = Some base → join base share_url = Some u → http_page u id → Link.is_ulid id = true →
  ∃ key q, decode (raw_key share_key) = Ok key ∧ zlen key = 32 ∧ encode key = raw_key share_key ∧
    present_share_link instance share_url share_key false = Ok q ∧
    separate_key p = "v1." +:+ encode key ∧
    ∀ configured,
      parse_link_for_instance (link p) configured
        = Ok {| Opening.l_id := id; Opening.l_key := Some key; Opening.l_instance := origin u |} ∧
      parse_link_for_instance (link q) configured
        = Ok {| Opening.l_id := id; Opening.l_key := None; Opening.l_instance := origin u |} ∧
      split_share_link configured (link p) = Ok q.
Proof.
  unfold present_share_link. intros Hp Hb Hj Hu Hid.
  destruct (decode (raw_key share_key)) as [key|] eqn:Ed; [|done]. cbn [mbind result_bind] in *. guards Hp. bool_prop.
  rewrite Hb in Hp |- *. cbn [ok_or mbind result_bind] in Hp |- *.
  rewrite Hj in Hp |- *. cbn [ok_or mbind result_bind] in Hp |- *. injection Hp as <-.
  match goal with He : encode key = _ |- _ => rename He into Hen end.
  match goal with He : zlen key = 32 |- _ => rename He into H32 end.
  assert (Hk : Link.valid_base64url (raw_key share_key) 43 3 = true) by by eapply key_text.
  set (bare := {| link := text (keyed None u); separate_key := "v1." +:+ raw_key share_key |}).
  exists key, bare. rewrite H32, Hen.
  split_and!; [done|done|done|done|done|]. intros configured.
  pose proof (parse_keyed (with_fragment None u) id (Some (raw_key share_key)) configured) as Hfull.
  cbv iota beta in Hfull. rewrite Ed, fragment_origin in Hfull. specialize (Hfull (fragment_page _ _ _ Hu) Hid Hk).
  change (text (keyed (Some (raw_key share_key)) (with_fragment None u)))
    with (text (with_fragment (Some ("k=" +:+ "v1." +:+ raw_key share_key)) (with_fragment None u))) in Hfull.
  cbn [link]. split_and!; [exact Hfull|by rewrite (parse_keyed u id None)|].
  unfold split_share_link. rewrite Hfull. cbn [mbind result_bind ok_or Opening.l_key Opening.l_instance Opening.l_id].
  unfold bare. rewrite Hen, (keyed_text u id None) by done. cbn [Link.fragment]. by rewrite append_nil_r.
Qed.

(** A preview is about the link it was asked for. The one request it makes is for
    the transfer at the link's own server, and it reports that transfer, of a kind
    and driver the client can open, or nothing. *)
Theorem preview_of_link `{Web, Codec, JsonText} built server input instance i :
  inspect_link_for_instance built server input instance = Ok i →
  ∃ l code body, parse_link_for_instance input instance = Ok l ∧
    server (Opening.l_instance l +:+ "/api/v1/transfers/" +:+ Opening.l_id l) = Ok (code, Ok body) ∧
    200 ≤ code ≤ 299 ∧ i_instance i = Opening.l_instance l ∧ i_id i = Opening.l_id l ∧
    kind i ∈ ["files"; "note"] ∧ i_driver i ∈ ["http"; "webrtc"].
Proof.
  unfold inspect_link_for_instance. intros Hi.
  destruct (parse_link_for_instance input instance) as [l|]; [|done]. cbn [mbind result_bind] in Hi.
  destruct built; [|done]. cbn [mbind result_bind] in Hi.
  destruct (server _) as [[code body]|] eqn:Es; [|done]. cbn [mbind result_bind fst snd] in Hi. guards Hi.
  destruct body as [body|]; [|done]. cbn [mbind result_bind] in Hi.
  destruct (ok_or _ _) as [t|]; [|done]. cbn [mbind result_bind] in Hi. guards Hi. injection Hi as <-. bool_prop.
  exists l, code, body. cbn. split_and!; try done; lia.
Qed.

(** ** Examples *)

Module Example_address.
#[export] Existing Instance Example_json.text.

Definition ulid : string := "01ARZ3NDEKTSV4RRFFQ69G5FAV".
Definition key_string : string := "AQEBAQEBAQEBAQEBAQEBAQEBAQEBAQEBAQEBAQEBAQE".

(** A web of one origin, with its front page and the page of one transfer. *)
Record Place := { on_page : bool; mark : option string }.
Definition front : string := "https://a.io/".
Definition place_path (p : Place) : string := if on_page p then ulid else "".
Definition place_text (p : Place) : string :=
  front +:+ place_path p +:+ match mark p with Some f => "#" +:+ f | None => "" end.
Definition read_mark (page : bool) (rest : string) : option Place :=
  match rest with
  | EmptyString => Some {| on_page := page; mark := None |}
  | String "#" f => Some {| on_page := page; mark := Some f |}
  | _ => None
  end.
Definition read_place (s : string) : option Place :=
  if (s =? "https://a.io")%string then Some {| on_page := false; mark := None |}
  else rest ← strip_prefix front s;
    match strip_prefix ulid rest with Some r => read_mark true r | None => read_mark false rest end.

#[export] Instance web : Web :=
  {| Url := Place; parse := read_place; scheme := λ _, "https"; host := λ _, Some "a.io"; port := λ _, None;
     username := λ _, ""; password := λ _, None; query := λ _, None; fragment := mark;
     path := λ p, "/" +:+ place_path p; segments := λ p, Some [place_path p]; origin := λ _, "https://a.io";
     text := place_text; join := λ _ s, read_place (front +:+ default s (strip_prefix "/" s));
     with_fragment := λ f p, {| on_page := on_page p; mark := f |} |}.

Lemma page_id u id : http_page u id → place_path u = id.
Proof. intros Hu. pose proof (page_path _ _ Hu) as Hp. by apply (append_inj_r "/") in Hp. Qed.

#[export] Instance web_laws : WebLaws.
Proof.
  split.
  - intros [page f] id _. unfold parse, text. cbn [web]. unfold read_place, place_text. cbn [on_page mark place_path].
    by destruct page, f as [f|].
  - intros [page f] id <-%page_id. cbn. intros ->. by destruct page.
  - intros u id <-%page_id. done.
  - intros u id f _ _ _. cbn. unfold place_text. cbn [on_page mark place_path]. by destruct (on_page u).
  - done.
  - intros [page g] id f [? ? ? ? ? Hp]. by split.
  - done.
  - intros u id _. by exists {| on_page := false; mark := None |}.
  - done.
  - intros u id _. by repeat constructor.
  - done.
  - intros s u. unfold parse. cbn [web]. unfold read_place. destruct s as [|a s]; [done|].
    intros Hs. unfold starts_with. cbn [String.prefix]. destruct (ascii_dec "-" a) as [<-|]; [|done]. done.
Qed.

#[export] Instance key_codec : Codec :=
  {| decode := λ s, if (s =? key_string)%string then Ok (replicate 32 1) else Err "invalid base64url data";
     sha256_hex := λ _, "" |}.
#[export] Instance key_encode : Encode := λ l, if bool_decide (l = replicate 32 1) then key_string else "".

#[export] Instance example_key_text : KeyText.
Proof. intros raw key. cbn. destruct (String.eqb_spec raw key_string) as [->|]; [by vm_compute|done]. Qed.
#[export] Instance example_key_bytes : KeyBytes.
Proof. intros raw key _. cbn. destruct (String.eqb_spec raw key_string); [by intros [= <-]|done]. Qed.

Definition full : string := front +:+ ulid +:+ "#k=v1." +:+ key_string.
Definition opened (key : option (list Z)) : Opening.Link :=
  {| Opening.l_id := ulid; Opening.l_key := key; Opening.l_instance := "https://a.io" |}.

(** Markdown, a bare identifier in lower case, an identifier after the server's name,
    a foreign path, a key that is no key. *)
Example links :
  parse_link_for_instance (" [see](" +:+ full +:+ ") ") "" = Ok (opened (Some (replicate 32 1))) ∧
  parse_link_for_instance "01arz3ndektsv4rrffq69g5fav" front = Ok (opened None) ∧
  parse_link_for_instance ("a.io/" +:+ ulid) front = parse_link_for_instance (front +:+ ulid) front ∧
  is_ok (parse_link_for_instance ("f/" +:+ ulid) front) = false ∧
  is_ok (parse_link_for_instance (ulid +:+ "#k=nope") front) = false.
Proof. vm_compute. repeat split. Qed.

(** Nothing in a target is expanded. *)
Example quoting :
  shell_words ("beam down " +:+ quote_shell_argument "$(not-run) it's `a` literal\")
    = Some ["beam"; "down"; "$(not-run) it's `a` literal\"] ∧
  shell_words "beam $x" = None ∧ shell_words "beam 'x" = None ∧
  shell_words "beam  a'b c'd" = Some ["beam"; "ab cd"].
Proof. vm_compute. repeat split. Qed.

Lemma command_opens_witness :
  shell_words ("beam down " +:+ quote_shell_argument full) = Some ["beam"; "down"; full] ∧
  starts_with "-" full = false ∧
  ∃ l, Link.is_ulid (Opening.l_id l) = true ∧ ∀ configured, parse_link_for_instance full configured = Ok l.
Proof.
  apply (command_opens full ("beam down " +:+ quote_shell_argument full)). vm_compute. reflexivity.
Defined.

Lemma link_names_server_witness :
  is_full (unwrap full) = true ∧ ∀ other, parse_link_for_instance full other = Ok (opened (Some (replicate 32 1))).
Proof.
  split; [by vm_compute|]. apply (link_names_server full "" (opened (Some (replicate 32 1)))); vm_compute; reflexivity.
Defined.

Lemma presented_link_opens_witness :
  ∃ key q, decode (raw_key (" v1." +:+ key_string)) = Ok key ∧ zlen key = 32 ∧
    encode key = raw_key (" v1." +:+ key_string) ∧
    present_share_link front ("/" +:+ ulid) (" v1." +:+ key_string) false = Ok q ∧
    "v1." +:+ key_string = "v1." +:+ encode key ∧
    ∀ configured,
      parse_link_for_instance full configured
        = Ok {| Opening.l_id := ulid; Opening.l_key := Some key; Opening.l_instance := "https://a.io" |} ∧
      parse_link_for_instance (link q) configured
        = Ok {| Opening.l_id := ulid; Opening.l_key := None; Opening.l_instance := "https://a.io" |} ∧
      split_share_link configured full = Ok q.
Proof.
  apply (@presented_link_opens web _ key_codec _ _ front ("/" +:+ ulid) (" v1." +:+ key_string)
    {| link := full; separate_key := "v1." +:+ key_string |}
    {| on_page := false; mark := None |} {| on_page := true; mark := None |} ulid);
    [vm_compute; reflexivity..| |vm_compute; reflexivity].
  split; vm_compute; reflexivity.
Defined.

Definition reply : json :=
  JObj [("data", JObj [("id", JStr ulid); ("kind", JStr "files"); ("status", JStr "ready")])].

Lemma preview_of_link_witness :
  let server : string → result string (Z * result string (list Z)) := λ p,
    if (p =? "https://a.io/api/v1/transfers/" +:+ ulid)%string then Ok (200, Ok (to_vec reply)) else Err "gone" in
  ∃ l code body, parse_link_for_instance ulid front = Ok l ∧
    server (Opening.l_instance l +:+ "/api/v1/transfers/" +:+ Opening.l_id l) = Ok (code, Ok body) ∧
    200 ≤ code ≤ 299 ∧ "https://a.io" = Opening.l_instance l ∧ ulid = Opening.l_id l ∧
    "files" ∈ ["files"; "note"] ∧ "http" ∈ ["http"; "webrtc"].
Proof.
  intros server.
  apply (preview_of_link (Ok ()) server ulid front
    {| i_instance := "https://a.io"; i_id := ulid; kind := "files"; i_driver := "http"; status := "ready";
       password_required := false |}). vm_compute. reflexivity.
Defined.
End Example_address.
