(* ===== verification/Notes.v ===== *)
(** * Notes (crates/client-core/src/services/notes.rs)

    A note is a transfer of one text: it is created over HTTP or served live,
    opened with its link and perhaps a password, and a burn-on-read note is
    removed from the server once its text has been verified.  What the server
    and the peer reply are arguments; what a call did is recorded as events. *)

From Stdlib Require Import Ascii String.
From S2P Require Import Prelude Str Frame Codec Json Encryption Http Monad.
From S2P Require Link Channel Sealing Opening Address.
Open Scope Z_scope.

Definition TAG_BYTES : Z := 16.
Definition MAX_CONTROL_BODY_BYTES : Z := 1024 * 1024.
Definition MAX_PROTOCOL_CHUNK_BYTES : Z := 24999984.
Definition MAX_CHUNKS : Z := 65535.

Inductive NoteTransport := HttpNote | WebRtcNote.

(** ** What the server says *)

Record NoteItem := { n_id : string; n_position : Z; n_chunk_count : Z }.

Record NoteMetadata := {
  m_id : string; m_status : string; burn_on_read : bool; encrypted_manifest : option string;
  protocol_version : Z; chunk_bytes : Z; driver : string; m_items : list NoteItem }.

(** [Info], with the nested optional limits flattened. *)
Record Info := {
  i_chunk_bytes : Z; http_limit : option Z; webrtc_limit : option Z; maximum_note_bytes : option Z }.

Record ReservedItem := { r_item : string; r_position : Z }.

Record Reservation := {
  r_id : string; share_url : string; upload_token : string; delete_token : string;
  r_read_token : option string; r_join_token : option string; r_chunk_bytes : Z; r_driver : string;
  r_items : list ReservedItem }.

Definition note_item_of (j : json) : option NoteItem :=
  i ← str_field "id" j; p ← u64_field "position" j; n ← u64_field "chunk_count" j;
  Some {| n_id := i; n_position := p; n_chunk_count := n |}.

Definition metadata_of (j : json) : option NoteMetadata :=
  id ← str_field "id" j;
  status ← str_field "status" j;
  burn ← bool_field "burn_on_read" j;
  manifest ← opt_field as_str "encrypted_manifest" j;
  protocol ← u8_field "protocol_version" j;
  chunk ← u64_field "chunk_bytes" j;
  driver ← str_field "driver" j;
  items ← vec_field note_item_of "items" j;
  Some {| m_id := id; m_status := status; burn_on_read := burn; encrypted_manifest := manifest;
          protocol_version := protocol; chunk_bytes := chunk; driver := driver; m_items := items |}.

Definition driver_limit_of (j : json) : option (option Z) :=
  if is_object j then opt_field as_u64 "maximum_note_bytes" j else None.

Definition limits_of (j : json) : option (option Z * option Z) :=
  if is_object j then
    http ← opt_field driver_limit_of "http" j;
    webrtc ← opt_field driver_limit_of "webrtc" j;
    Some (default None http, default None webrtc)
  else None.

Definition info_of (j : json) : option Info :=
  chunk ← u64_field "chunk_bytes" j;
  limits ← opt_field limits_of "transport_limits" j;
  maximum ← opt_field as_u64 "maximum_note_bytes" j;
  Some {| i_chunk_bytes := chunk; http_limit := limits ≫= fst; webrtc_limit := limits ≫= snd;
          maximum_note_bytes := maximum |}.

Definition reserved_item_of (j : json) : option ReservedItem :=
  i ← str_field "id" j; p ← u64_field "position" j;
  Some {| r_item := i; r_position := p |}.

Definition reservation_of (j : json) : option Reservation :=
  id ← str_field "id" j;
  url ← str_field "share_url" j;
  upload ← str_field "upload_token" j;
  delete ← str_field "delete_token" j;
  read ← opt_field as_str "read_token" j;
  join ← opt_field as_str "join_token" j;
  chunk ← u64_field "chunk_bytes" j;
  driver ← str_field "driver" j;
  items ← vec_field reserved_item_of "items" j;
  Some {| r_id := id; share_url := url; upload_token := upload; delete_token := delete;
          r_read_token := read; r_join_token := join; r_chunk_bytes := chunk; r_driver := driver;
          r_items := items |}.

(** ** The sealed manifest *)

Record DigestValue := { algorithm : string; value : string }.

Record ManifestItem := {
  id : string; name : string; mime : string; size : Z; nonce_prefix : string;
  item_chunk_count : Z; digest : DigestValue }.

Record Manifest := {
  version : Z; items : list ManifestItem; title : option string; language : option string;
  read_token : option string }.

Definition digest_of (j : json) : option DigestValue :=
  a ← str_field "algorithm" j; v ← str_field "value" j; Some {| algorithm := a; value := v |}.

Definition manifest_item_of (j : json) : option ManifestItem :=
  i ← str_field "id" j;
  name ← str_field "name" j;
  mime ← str_field "type" j;
  size ← u64_field "size" j;
  prefix ← str_field "nonce_prefix" j;
  count ← u64_field "chunk_count" j;
  digest ← field "digest" j ≫= digest_of;
  Some {| id := i; name := name; mime := mime; size := size; nonce_prefix := prefix;
          item_chunk_count := count; digest := digest |}.

Definition manifest_of (j : json) : option Manifest :=
  version ← u8_field "version" j;
  items ← vec_field manifest_item_of "items" j;
  title ← opt_field as_str "title" j;
  language ← opt_field as_str "language" j;
  token ← opt_field as_str "read_token" j;
  Some {| version := version; items := items; title := title; language := language;
          read_token := token |}.

Definition manifest_item_json (i : ManifestItem) : json :=
  JObj [("id", JStr (id i)); ("name", JStr (name i)); ("type", JStr (mime i));
        ("size", JNum (size i)); ("nonce_prefix", JStr (nonce_prefix i));
        ("chunk_count", JNum (item_chunk_count i));
        ("digest", JObj [("algorithm", JStr (algorithm (digest i)));
                         ("value", JStr (value (digest i)))])].

Definition opt_json (key : string) (v : option string) : list (string * json) :=
  match v with Some v => [(key, JStr v)] | None => [] end.

(** A live note's manifest also has its join token. *)
Definition manifest_json (m : Manifest) (join_token : option string) : json :=
  JObj ([("version", JNum (version m)); ("items", JArr (manifest_item_json <$> items m))]
        ++ opt_json "title" (title m) ++ opt_json "language" (language m)
        ++ opt_json "read_token" (read_token m) ++ opt_json "join_token" join_token).

(** The envelope of a note has all its keys: without a password the salt and the
    parameters are null. *)
Definition or_null (v : option json) : json := default JNull v.
Definition kdf_json : json :=
  JObj [("name", JStr "argon2id"); ("memory_kib", JNum 65536); ("iterations", JNum 3);
        ("parallelism", JNum 1)].
Definition envelope_json (prefix : string) (salt : option string) (ciphertext : string) : json :=
  JObj [("v", JNum 1); ("nonce_prefix", JStr prefix); ("salt", or_null (JStr <$> salt));
        ("kdf", or_null (const kdf_json <$> salt)); ("ciphertext", JStr ciphertext)].

(** ** Sizes *)

Definition note_limit (i : Info) (t : NoteTransport) : option Z :=
  match match t with HttpNote => http_limit i | WebRtcNote => webrtc_limit i end with
  | Some limit => Some limit
  | None => maximum_note_bytes i
  end.

Definition bad_chunk_bytes (chunk_bytes : Z) : bool :=
  negb ((0 <? chunk_bytes) && (chunk_bytes <=? MAX_PROTOCOL_CHUNK_BYTES)).

Definition chunk_count (size chunk_bytes : Z) : result string Z :=
  reject bad_chunk_bytes chunk_bytes with "invalid note chunk policy";
  let chunks := Z.max (div_ceil size chunk_bytes) 1 in
  reject MAX_CHUNKS <? chunks with "note exceeds the protocol chunk limit";
  Ok chunks.

Definition expected_chunk_bytes (size chunk_bytes index : Z) : result string Z :=
  count ← chunk_count size chunk_bytes;
  reject count <=? index with "note chunk index is invalid";
  plaintext ← (if index + 1 =? count then
                 before ← ok_or (checked_mul index chunk_bytes) "note is too large";
                 ok_or (checked_sub size before) "note chunk is invalid"
               else Ok chunk_bytes);
  ok_or (checked_add plaintext TAG_BYTES) "note chunk is too large".

(** ** Responses *)

(** A response: status, declared length, and what reading all of it gives. *)
Record Response := { status : Z; content_length : option Z; content : result string (list Z) }.

Definition is_success (r : Response) : bool := (200 <=? status r) && (status r <=? 299).

Section responses.
Context `{Js : JsonText}.

(** [decode_control::<Api<T>>] and its [data]. *)
Definition decode_control {A} (rd : json → option A) (label : string) (r : Response)
    : result string A :=
  reject from_option (λ n, MAX_CONTROL_BODY_BYTES <? n) false (content_length r)
    with "control response exceeds its limit";
  body ← context (content r) label;
  reject MAX_CONTROL_BODY_BYTES <? zlen body with "control response exceeds its limit";
  ok_or (from_slice body ≫= λ j, field "data" j ≫= rd) label.

Definition read_chunk (r : Response) (expected : Z) : result string (list Z) :=
  reject from_option (λ n, negb (n =? expected)) false (content_length r)
    with "note chunk length is invalid";
  body ← context (content r) "read encrypted note chunk";
  reject negb (zlen body =? expected) with "note chunk length is invalid";
  Ok body.

Definition read_policy (reply : result string Response) : result string Info :=
  r ← reply;
  reject negb (is_success r) with "note policy failed";
  policy ← decode_control info_of "decode note policy" r;
  reject bad_chunk_bytes (i_chunk_bytes policy) with "invalid note chunk policy";
  Ok policy.

(** [NotesService::read] *)
Definition read (reply : result string Response) : result string NoteMetadata :=
  r ← reply;
  reject negb (is_success r) with "note read failed";
  note ← decode_control metadata_of "decode note metadata" r;
  reject bool_decide (encrypted_manifest note = None) with "note has no encrypted envelope";
  reject negb (protocol_version note =? 1) || negb (bool_decide (driver note ∈ ["http"; "webrtc"]))
         || negb (Nat.eqb (length (m_items note)) 1)
    with "unsupported note transfer";
  Ok note.
End responses.

(** ** Keys *)

Section notes.
Context `{Ae : Aead, Kd : Kdf, Co : Codec, En : Encode, Js : JsonText, We : Address.Web}.

Definition password_key (share_key : list Z) (password : option string) (salt : option (list Z))
    : result string (list Z) :=
  match password, salt with
  | None, None => Ok share_key
  | Some password, Some salt =>
      p ← derive_password_key (bytes password) salt 65536 3 1;
      derive_password_protected_key share_key p
  | None, Some _ => Err "this note requires its password"
  | Some _, None => Err "this note does not use a password"
  end.

Definition aad (transfer item position : string) : list Z :=
  bytes ("filebeam:v1:" +:+ transfer +:+ ":" +:+ item +:+ ":" +:+ position).

(** ** Creating a note *)

Record NoteCreate := {
  c_text : string; c_title : option string; c_language : string; c_password : option string;
  c_burn : bool; retention_hours : option Z }.

Record CreatedNote := { created_id : string; link : string; created_delete_token : string }.

Definition languages : list string :=
  ["plain"; "php"; "dotenv"; "javascript"; "typescript"; "json"; "markdown"; "css"; "html"].

Definition validate_create (r : NoteCreate) : result string () :=
  reject is_empty (c_text r) with "note cannot be empty";
  reject from_option (λ t, 160 <? Z.of_nat (length (chars t))) false (c_title r)
    with "note title is too long";
  reject negb (bool_decide (c_language r ∈ languages)) with "unsupported note language";
  reject from_option is_empty false (c_password r) with "password cannot be empty";
  Ok ().

(** What the session check, the server and the random source give a creation. *)
Record CreateEnv := {
  session_reply : result string ();
  consent_reply : result string ();             (** only asked for a live note off the relay *)
  policy_reply : result string Response;
  reserve_reply : result string Response;
  fresh_key : result string (list Z);
  fresh_salt : result string (list Z);
  fresh_prefix : result string (list Z);
  fresh_manifest_prefix : result string (list Z);
  put_status : Z → result string Z;
  complete_status : result string Z }.          (** of [complete], or of [publish] *)

(** What has left the process: the chunks put, and the manifest. *)
Record Sent := { puts : list (Z * list Z); published : option string }.

Notation C := (SE Sent string).

Definition note_size (text : string) (chunk_bytes : Z) : result string (Z * Z) :=
  chunks ← chunk_count (len text) chunk_bytes;
  tags ← ok_or (checked_mul chunks TAG_BYTES) "note is too large";
  total ← ok_or (checked_add (len text) tags) "note is too large";
  Ok (chunks, total).

Definition transport_name (t : NoteTransport) : string :=
  match t with HttpNote => "http" | WebRtcNote => "webrtc" end.

(** The reservation and its only item. *)
Definition reserve (e : CreateEnv) (t : NoteTransport) (policy : Info)
    : result string (Reservation * ReservedItem) :=
  r ← reserve_reply e;
  reject negb (is_success r) with "note reservation failed";
  r ← decode_control reservation_of "decode note reservation" r;
  reject negb (r_driver r =? transport_name t)%string
         || negb (r_chunk_bytes r =? i_chunk_bytes policy)
         || negb (Nat.eqb (length (r_items r)) 1)
    with "invalid note reservation";
  item ← ok_or (head (r_items r)) "index out of bounds";
  Ok (r, item).

Definition seal_chunk (key prefix : list Z) (transfer item : string) (index : nat) (plain : list Z)
    : result string (list Z) :=
  reject u32_max <? Z.of_nat index with "note chunk index is too large";
  encrypt_chunk key prefix (Z.of_nat index) plain (aad transfer item (decimal (Z.of_nat index))).

(** The loop that encrypts and puts; an empty note is one empty chunk. *)
Definition plain_chunks (text : string) (chunk_bytes : Z) : list (list Z) :=
  match Channel.slice_chunks (Z.to_nat chunk_bytes) (bytes text) with
  | [] => [[]]
  | l => l
  end.

Fixpoint put_chunks (e : CreateEnv) (key prefix : list Z) (transfer item : string) (index : nat)
    (l : list (list Z)) : C () :=
  match l with
  | [] => mret ()
  | plain :: l =>
      c ← of_result (seal_chunk key prefix transfer item index plain);
      status ← of_result (put_status e (Z.of_nat index));
      if negb ((200 <=? status) && (status <=? 299)) then fail "note chunk upload failed" else
      _ ← modify (λ s, {| puts := puts s ++ [(Z.of_nat index, c)]; published := published s |});
      put_chunks e key prefix transfer item (S index) l
  end.

(** A live note's ciphertext stays in memory, to be served by [Channel]. *)
Fixpoint seal_chunks (key prefix : list Z) (transfer item : string) (index : nat)
    (l : list (list Z)) : result string (list (Z * list Z)) :=
  match l with
  | [] => Ok []
  | plain :: l =>
      c ← seal_chunk key prefix transfer item index plain;
      rest ← seal_chunks key prefix transfer item (S index) l;
      Ok ((Z.of_nat index, c) :: rest)
  end.

(** [filter(|title| !title.is_empty())] *)
Definition nonempty (t : option string) : option string :=
  match t with Some t => if is_empty t then None else Some t | None => None end.

Definition note_item (r : NoteCreate) (item : ReservedItem) (prefix : list Z) (chunks : Z)
    : ManifestItem :=
  {| id := r_item item; name := "note.txt"; mime := "text/plain"; size := len (c_text r);
     nonce_prefix := encode prefix; item_chunk_count := chunks;
     digest := {| algorithm := "sha256"; value := sha256_hex (bytes (c_text r)) |} |}.

Definition note_manifest (r : NoteCreate) (reservation : Reservation) (item : ReservedItem)
    (prefix : list Z) (chunks : Z) : Manifest :=
  {| version := 1; title := nonempty (c_title r); language := Some (c_language r);
     read_token := r_read_token reservation; items := [note_item r item prefix chunks] |}.

Definition seal_manifest (master prefix : list Z) (transfer : string) (salt : option (list Z))
    (m : Manifest) (join_token : option string) : result string string :=
  c ← encrypt_manifest master prefix (to_vec (manifest_json m join_token))
        (aad transfer "manifest" "manifest");
  Ok (to_string (envelope_json (encode prefix) (encode <$> salt) (encode c))).

(** The share path the server gave, on the instance. *)
Definition share_page (instance : Address.Url) (reservation : Reservation) : option Address.Url :=
  Address.join instance (trim_start_matches (Z.eqb (ch "/")) (share_url reservation)).

Definition note_link (instance : Address.Url) (reservation : Reservation) (share_key : list Z)
    : result string string :=
  url ← ok_or (share_page instance reservation) "invalid URL";
  Ok (Address.text url +:+ "#k=v1." +:+ encode share_key).

(** The keys of a new note: the share key, the salt and the master key. *)
Definition new_keys (e : CreateEnv) (password : option string)
    : result string (list Z * option (list Z) * list Z) :=
  share_key ← fresh_key e;
  salt ← match password with
         | Some _ => s ← fresh_salt e; Ok (Some (take 16 s))
         | None => Ok None
         end;
  master ← password_key share_key password salt;
  Ok (share_key, salt, master).

(** [NotesService::create] *)
Definition create (instance : Address.Url) (e : CreateEnv) (r : NoteCreate) : C CreatedNote :=
  _ ← of_result (session_reply e);
  _ ← of_result (validate_create r);
  policy ← of_result (read_policy (policy_reply e));
  if from_option (λ limit, limit <? len (c_text r)) false (note_limit policy HttpNote)
  then fail "note exceeds the HTTP note limit" else
  '(chunks, _) ← of_result (note_size (c_text r) (i_chunk_bytes policy));
  '(reservation, item) ← of_result (reserve e HttpNote policy);
  if negb (r_position item =? 0) then fail "invalid note item position" else
  '(share_key, salt, master) ← of_result (new_keys e (c_password r));
  prefix ← of_result (fresh_prefix e);
  key ← of_result (derive_item_key master (r_id reservation) (r_item item));
  _ ← put_chunks e key prefix (r_id reservation) (r_item item) 0
        (plain_chunks (c_text r) (i_chunk_bytes policy));
  manifest_prefix ← of_result (fresh_manifest_prefix e);
  envelope ← of_result (seal_manifest master manifest_prefix (r_id reservation) salt
                          (note_manifest r reservation item prefix chunks) None);
  status ← of_result (complete_status e);
  if negb ((200 <=? status) && (status <=? 299)) then fail "note completion failed" else
  _ ← modify (λ s, {| puts := puts s; published := Some envelope |});
  link ← of_result (note_link instance reservation share_key);
  mret {| created_id := r_id reservation; link := link;
          created_delete_token := delete_token reservation |}.

(** [create_live] up to the serving loop; [puts] is the map of ciphertext it
    serves. [relay] is [control.webrtc_relay_only()]. *)
Definition create_live (instance : Address.Url) (e : CreateEnv) (relay : bool) (r : NoteCreate) : C CreatedNote :=
  _ ← of_result (session_reply e);
  _ ← of_result (validate_create r);
  _ ← (if relay then mret () else of_result (consent_reply e));
  policy ← of_result (read_policy (policy_reply e));
  if from_option (λ limit, limit <? len (c_text r)) false (note_limit policy WebRtcNote)
  then fail "note exceeds the WebRTC note limit" else
  '(chunks, _) ← of_result (note_size (c_text r) (i_chunk_bytes policy));
  '(reservation, item) ← of_result (reserve e WebRtcNote policy);
  token ← of_result (ok_or (r_join_token reservation) "live note join capability is unavailable");
  '(share_key, salt, master) ← of_result (new_keys e (c_password r));
  prefix ← of_result (fresh_prefix e);
  key ← of_result (derive_item_key master (r_id reservation) (r_item item));
  sealed ← of_result (seal_chunks key prefix (r_id reservation) (r_item item) 0
                        (Channel.slice_chunks (Z.to_nat (i_chunk_bytes policy)) (bytes (c_text r))));
  manifest_prefix ← of_result (fresh_manifest_prefix e);
  envelope ← of_result (seal_manifest master manifest_prefix (r_id reservation) salt
                          (note_manifest r reservation item prefix chunks) (Some token));
  status ← of_result (complete_status e);
  if negb ((200 <=? status) && (status <=? 299)) then fail "live note publication failed" else
  _ ← modify (λ s, {| puts := sealed; published := Some envelope |});
  link ← of_result (note_link instance reservation share_key);
  mret {| created_id := r_id reservation; link := link;
          created_delete_token := delete_token reservation |}.

(** ** Inspecting and opening a note *)

Record OpenedNote := {
  o_id : string; o_text : string; o_title : option string; o_language : string; consumed : bool }.

Record PendingBurn := { b_transfer : string; b_read_token : string; b_session : option string }.

Record ReceivedNote := { note : OpenedNote; pending_burn : option PendingBurn }.

Inductive BurnResult := Consumed | AlreadyConsumed.

Record NoteInspection := {
  p_id : string; p_status : string; p_burn : bool; p_transport : NoteTransport;
  password_required : bool }.

Record Envelope := { e_prefix : string; e_salt : option string; e_ciphertext : string }.

(** The parsed envelope, once its version and nonce have been checked. *)
Definition read_envelope (text : string) : result string Envelope :=
  e ← ok_or (from_str text ≫= Sealing.envelope_of) "invalid note envelope";
  reject negb (Sealing.v e =? 1) with "unsupported note envelope";
  prefix ← decode (Sealing.env_prefix e);
  reject negb (zlen prefix =? 16) with "invalid note manifest nonce";
  Ok {| e_prefix := Sealing.env_prefix e; e_salt := Sealing.salt e;
        e_ciphertext := Sealing.env_ciphertext e |}.

(** [parse_link]: a link of another server is not followed. *)
Definition parse_link (instance : Address.Url) (link : string) : result string Opening.Link :=
  parsed ← Address.parse_link_for_instance link (Address.text instance);
  reject negb (Opening.l_instance parsed =? Address.origin instance)%string
    with "note link belongs to a different instance";
  Ok parsed.

(** [NotesService::inspect]; [reply] answers the GET of a transfer. *)
Definition inspect (instance : Address.Url) (reply : string → result string Response) (link : string)
    : result string NoteInspection :=
  parsed ← parse_link instance link;
  m ← read (reply (Opening.l_id parsed));
  text ← ok_or (encrypted_manifest m) "note has no encrypted envelope";
  e ← read_envelope text;
  transport ← (if (driver m =? "http")%string then Ok HttpNote
               else if (driver m =? "webrtc")%string then Ok WebRtcNote
               else Err "unsupported note transfer");
  Ok {| p_id := m_id m; p_status := m_status m; p_burn := burn_on_read m; p_transport := transport;
        password_required := bool_decide (is_Some (e_salt e)) |}.

(** The job a note is opened under. *)
Record Ctl := {
  check_reply : result string ();               (** [control.check()] *)
  memory_budget : Z;
  relay_only : bool;
  peer_consent : result string () }.

Record ReadEnv := {
  read_reply : string → result string Response; (** the GET of a transfer *)
  control : option Ctl;
  burn_acknowledged : bool;
  chunk_reply : Z → result string Response;     (** an HTTP chunk *)
  session : result string string;               (** joining a live note: the session's token *)
  live_chunk : Z → Z → result string (list Z);  (** [request_chunk], see [Channel] *)
  report_reply : result string ();
  header_value : string → bool;                 (** [HeaderValue::from_str(..).is_ok()] *)
  consume_status : result string Z }.

(** What a call has done, and the notes this process has removed. *)
Inductive Event := AskedConsent | Joined | Fetched (index : Z) | Reported | Burned.
Record Reader := { events : list Event; burned : gset string }.

Notation R := (SE Reader string).

Definition log (ev : Event) : R () :=
  modify (λ s, {| events := events s ++ [ev]; burned := burned s |}).

Definition check (c : option Ctl) : result string () :=
  match c with Some c => check_reply c | None => Ok () end.

(** The manifest of an envelope, and the join token it may have. *)
Definition open_manifest (master : list Z) (transfer : string) (e : Envelope)
    : result string (Manifest * option string) :=
  prefix ← decode (e_prefix e);
  ciphertext ← decode (e_ciphertext e);
  plain ← context (decrypt_manifest master prefix ciphertext (aad transfer "manifest" "manifest"))
            "could not decrypt note manifest";
  m ← ok_or (from_slice plain ≫= manifest_of) "invalid decrypted note manifest";
  Ok (m, from_slice plain ≫= str_field "join_token").

Definition lower_hex (s : string) : bool :=
  forallb (λ b, is_ascii_hexdigit b && negb (is_ascii_uppercase b)) (bytes s).

(** The checks on the manifest against the server's description. *)
Definition check_manifest (note : NoteMetadata) (m : Manifest) : result string ManifestItem :=
  reject negb (version m =? 1) || negb (Nat.eqb (length (items m)) 1) with "invalid note manifest";
  item ← ok_or (head (items m)) "index out of bounds";
  server ← ok_or (head (m_items note)) "index out of bounds";
  reject bad_chunk_bytes (chunk_bytes note) with "invalid note chunk size";
  reject negb (id item =? n_id server)%string || negb (item_chunk_count item =? n_chunk_count server)
    with "note manifest does not match transfer";
  count ← chunk_count (size item) (chunk_bytes note);
  reject negb (item_chunk_count item =? count) with "note manifest does not match transfer";
  room ← ok_or (checked_mul (item_chunk_count item) (chunk_bytes note)) "note is too large";
  reject room <? size item with "note manifest does not match transfer";
  prefix ← decode (nonce_prefix item);
  reject negb (zlen prefix =? 16) with "invalid note item nonce";
  reject negb (algorithm (digest item) =? "sha256")%string || negb (len (value (digest item)) =? 64)
         || negb (lower_hex (value (digest item)))
    with "invalid note digest";
  Ok item.

(** One chunk, from the server or from the peer. *)
Definition fetch_chunk (e : ReadEnv) (live : bool) (note : NoteMetadata) (item : ManifestItem)
    (index : Z) : R (list Z) :=
  expected ← of_result (expected_chunk_bytes (size item) (chunk_bytes note) index);
  _ ← log (Fetched index);
  c ← (if live then of_result (live_chunk e index expected)
       else r ← of_result (chunk_reply e index);
            if negb (is_success r) then fail "note chunk download failed"
            else of_result (read_chunk r expected));
  if negb (zlen c =? expected) then fail "note chunk length is invalid" else mret c.

Fixpoint fetch_text (e : ReadEnv) (live : bool) (note : NoteMetadata) (item : ManifestItem)
    (key prefix : list Z) (indices : list Z) (text : list Z) : R (list Z) :=
  match indices with
  | [] => mret text
  | index :: indices =>
      _ ← of_result (check (control e));
      c ← fetch_chunk e live note item index;
      plain ← of_result (decrypt_chunk key prefix (Prelude.as_u32 index) c
                           (aad (m_id note) (id item) (decimal index)));
      fetch_text e live note item key prefix indices (text ++ plain)
  end.

(** Joining a live note: consent comes before the session is registered. *)
Definition join_live (e : ReadEnv) (join_token : option string) : R (option string) :=
  _ ← of_result (ok_or join_token "live note manifest has no join capability");
  c ← of_result (ok_or (control e) "opening a live note requires a controlled receive");
  _ ← (if relay_only c then mret ()
       else _ ← log AskedConsent; of_result (peer_consent c));
  _ ← log Joined;
  token ← of_result (session e);
  mret (Some token).

(** [consume_request] and [consume_live]: one removal, with its tokens as headers. *)
Definition consume_request (e : ReadEnv) (tokens : list string) : R BurnResult :=
  if negb (forallb (header_value e) tokens) then fail "token contains invalid characters" else
  _ ← log Burned;
  status ← of_result (consume_status e);
  if status =? 202 then mret Consumed
  else if status =? 404 then mret AlreadyConsumed
  else fail "burn note consumption failed".

Definition consume_once (e : ReadEnv) (transfer token : string) : R BurnResult :=
  already ← get (λ s, bool_decide (transfer ∈ burned s));
  if (already : bool) then mret AlreadyConsumed else
  r ← consume_request e [token];
  _ ← (match r with
       | Consumed => modify (λ s, {| events := events s; burned := {[transfer]} ∪ burned s |})
       | AlreadyConsumed => mret ()
       end);
  mret r.

Definition burn (e : ReadEnv) (p : PendingBurn) : R BurnResult :=
  match b_session p with
  | Some session_token => consume_request e [b_read_token p; session_token]
  | None => consume_once e (b_transfer p) (b_read_token p)
  end.

(** [retry_burn] *)
Definition retry_burn (e : ReadEnv) (p : PendingBurn) : R BurnResult := burn e p.

(** The removal after a verified read; a failure keeps the capability. *)
Definition burn_after_read (e : ReadEnv) (note : NoteMetadata) (m : Manifest)
    (session_token : option string) : R (option PendingBurn) :=
  if burn_on_read note then
    token ← of_result (ok_or (read_token m) "burn note has no read token");
    let p := {| b_transfer := m_id note; b_read_token := token; b_session := session_token |} in
    r ← attempt (burn e p);
    match r with Ok _ => mret None | Err _ => mret (Some p) end
  else mret None.

(** [NotesService::receive] *)
Definition receive (instance : Address.Url) (e : ReadEnv) (link : string) (password : option string)
    : R ReceivedNote :=
  _ ← of_result (check (control e));
  parsed ← of_result (parse_link instance link);
  share_key ← of_result (ok_or (Opening.l_key parsed) "note link has no decryption key");
  note ← of_result (read (read_reply e (Opening.l_id parsed)));
  text ← of_result (ok_or (encrypted_manifest note) "note has no encrypted envelope");
  envelope ← of_result (read_envelope text);
  salt ← of_result (match e_salt envelope with
                    | Some salt => s ← decode salt; Ok (Some s)
                    | None => Ok None
                    end);
  master ← of_result (password_key share_key password salt);
  '(m, join_token) ← of_result (open_manifest master (m_id note) envelope);
  item ← of_result (check_manifest note m);
  if from_option memory_budget u64_max (control e) <? size item
  then fail "note exceeds the receive resource budget" else
  if burn_on_read note && negb (burn_acknowledged e) then fail "burn-on-read was not acknowledged" else
  key ← of_result (derive_item_key master (m_id note) (id item));
  prefix ← of_result (decode (nonce_prefix item));
  let live := (driver note =? "webrtc")%string in
  session_token ← (if live then join_live e join_token else mret None);
  text ← fetch_text e live note item key prefix (seqZ 0 (item_chunk_count item)) [];
  if negb (zlen text =? size item) || negb (sha256_hex text =? value (digest item))%string
  then fail "note integrity check failed" else
  text ← of_result (ok_or (from_utf8 text) "note is not valid UTF-8");
  _ ← (if live then _ ← log Reported; of_result (report_reply e) else mret ());
  pending ← burn_after_read e note m session_token;
  mret {| note := {| o_id := m_id note; o_text := text; o_title := title m;
                     o_language := default "plain" (language m);
                     consumed := burn_on_read note && bool_decide (pending = None) |};
          pending_burn := pending |}.
End notes.

(** ** Pieces of a text *)

Lemma slice_chunks_lookup n l i p :
  (0 < n)%nat →
  Channel.slice_chunks n l !! i = Some p ↔ (i * n < length l)%nat ∧ p = take n (drop (i * n) l).
Proof.
  intros Hn. revert l. induction i as [|i IH]; intros l; destruct l as [|z l].
  - split; [done|]. cbn. intros []. lia.
  - rewrite Channel.slice_chunks_step by done. cbn. split; [intros [= <-]; split; [lia|done]|by intros [_ ->]].
  - split; [done|]. cbn. intros []. lia.
  - rewrite Channel.slice_chunks_step by done. cbn [lookup list_lookup]. rewrite IH, drop_drop, length_drop.
    cbn [length Nat.mul]. split; intros [H1 H2]; (split; [lia|done]).
Qed.

Lemma plain_chunks_lookup text cb i p :
  0 < cb → plain_chunks text cb !! i = Some p →
  (i = 0%nat ∨ Z.of_nat i * cb < len text) ∧
  zlen p = Z.min cb (len text - Z.of_nat i * cb) ∧ 0 ≤ zlen p.
Proof.
  intros Hc. unfold plain_chunks, zlen. rewrite <- length_bytes.
  destruct (bytes text) as [|z l].
  { cbn. destruct i as [|i]; [|done]. intros [= <-]. cbn. split_and!; [by left|lia|lia]. }
  destruct (Channel.slice_chunks (Z.to_nat cb) (z :: l)) as [|q L] eqn:Es.
  { rewrite Channel.slice_chunks_step in Es by (done || lia). done. }
  rewrite <- Es. intros [H1 ->]%slice_chunks_lookup; [|lia].
  rewrite length_take, length_drop. split_and!; [right|..]; lia.
Qed.

Lemma length_plain_chunks text cb :
  0 < cb → Z.of_nat (length (plain_chunks text cb)) = Z.max (div_ceil (len text) cb) 1.
Proof.
  intros Hc. assert (Hl : ∀ i, (i < length (plain_chunks text cb))%nat ↔
    i = 0%nat ∨ Z.of_nat i * cb < len text).
  { intros i. unfold plain_chunks. rewrite <- length_bytes. destruct (bytes text) as [|z l].
    { cbn. lia. }
    destruct (Channel.slice_chunks (Z.to_nat cb) (z :: l)) as [|q L] eqn:Es.
    { rewrite Channel.slice_chunks_step in Es by (done || lia). done. }
    rewrite <- Es. rewrite <- lookup_lt_is_Some. split.
    - intros [p Hp]. apply slice_chunks_lookup in Hp as [Hp _]; [|lia]. right. lia.
    - intros Hi. eexists. apply slice_chunks_lookup; [lia|]. split; [|done]. cbn [length] in *. lia. }
  pose proof (Hl 0%nat) as H0. pose proof (Hl (length (plain_chunks text cb) - 1)%nat) as H1.
  pose proof (Hl (length (plain_chunks text cb))) as H2.
  pose proof (div_ceil_lower (len text) cb Hc). pose proof (div_ceil_upper (len text) cb Hc).
  pose proof (len_nonneg text). nia.
Qed.

Lemma concat_plain_chunks text cb : 0 < cb → concat (plain_chunks text cb) = bytes text.
Proof.
  intros Hc. pose proof (Channel.concat_slice_chunks (Z.to_nat cb) (bytes text) ltac:(lia)) as H.
  unfold plain_chunks. by destruct (Channel.slice_chunks _ _).
Qed.

(** The length a chunk is expected to have is that of its sealed piece. *)
Lemma expected_chunk_spec text cb i p count :
  chunk_count (len text) cb = Ok count → plain_chunks text cb !! i = Some p →
  expected_chunk_bytes (len text) cb (Z.of_nat i) = Ok (zlen p + TAG_BYTES).
Proof.
  intros Hcount Hp. unfold expected_chunk_bytes. rewrite Hcount. cbn [mbind result_bind].
  unfold chunk_count in Hcount. guards Hcount. injection Hcount as <-. bool_prop.
  unfold bad_chunk_bytes in *. bool_prop. bool_cases.
  all: unfold MAX_PROTOCOL_CHUNK_BYTES, MAX_CHUNKS in *.
  pose proof (plain_chunks_lookup _ _ _ _ ltac:(done) Hp) as (H1 & H2 & H3).
  pose proof (lookup_lt_Some _ _ _ Hp) as Hl.
  pose proof (length_plain_chunks text cb ltac:(done)) as Hn. rewrite <- Hn in *.
  pose proof (div_ceil_upper (len text) cb ltac:(done)).
  pose proof (div_ceil_lower (len text) cb ltac:(done)).
  rewrite (proj2 (Z.leb_gt _ _)) by lia.
  set (n := Z.of_nat (length (plain_chunks text cb))) in *.
  assert (Hb : Z.of_nat i * cb ≤ 65535 * 24999984) by nia.
  destruct (Z.of_nat i + 1 =? n) eqn:E; bool_prop.
  - replace (checked_mul (Z.of_nat i) cb) with (Some (Z.of_nat i * cb)).
    2: { symmetry. apply checked_mul_Some. unfold u64_max. lia. }
    cbn [ok_or mbind result_bind].
    assert (Hz : zlen p = len text - Z.of_nat i * cb) by nia.
    unfold checked_sub. rewrite (proj2 (Z.leb_le _ _)) by lia. cbn [ok_or mbind result_bind].
    replace (checked_add _ _) with (Some (zlen p + TAG_BYTES)); [done|].
    symmetry. apply checked_add_Some. unfold TAG_BYTES, u64_max. lia.
  - assert (Hz : zlen p = cb) by nia. cbn [mbind result_bind].
    replace (checked_add _ _) with (Some (zlen p + TAG_BYTES)); [done|].
    symmetry. apply checked_add_Some. unfold TAG_BYTES, u64_max. lia.
Qed.

(** ** JSON *)

Definition fits (i : ManifestItem) : Prop := is_u64 (size i) ∧ is_u64 (item_chunk_count i).

Lemma manifest_item_json_reads i : fits i → manifest_item_of (manifest_item_json i) = Some i.
Proof.
  intros [Hs Hc]. destruct i as [i n m s p c [a v]].
  unfold manifest_item_of, manifest_item_json, u64_field, str_field, field.
  cbn [lookup_field String.eqb Ascii.eqb Bool.eqb mbind option_bind as_str id name mime size
    nonce_prefix item_chunk_count digest algorithm value] in *.
  by rewrite !as_u64_JNum.
Qed.

Lemma manifest_item_json_printable i : fits i → printable (manifest_item_json i) = true.
Proof. intros [Hs Hc]. unfold manifest_item_json. printable_object. Qed.
#[export] Hint Resolve manifest_item_json_printable : json.

Lemma note_manifest_json_printable m join :
  version m = 1 → Forall fits (items m) → printable (manifest_json m join) = true.
Proof.
  intros Hv Hi. unfold manifest_json, opt_json. rewrite Hv.
  assert (Hp : printable (JArr (manifest_item_json <$> items m)) = true).
  { apply printable_JArr, Forall_fmap, Forall_impl with (1 := Hi). apply manifest_item_json_printable. }
  destruct (title m), (language m), (read_token m), join; cbn [app]; printable_object.
Qed.

Lemma note_manifest_json_reads m join :
  version m = 1 → Forall fits (items m) →
  manifest_of (manifest_json m join) = Some m ∧ str_field "join_token" (manifest_json m join) = join.
Proof.
  intros Hv Hi. destruct m as [v its t l r]. cbn in Hv, Hi. subst v.
  assert (Hm : mapM manifest_item_of (manifest_item_json <$> its) = Some its).
  { rewrite <- (list_fmap_id its) at 2. apply Opening.mapM_fmap_Some, Forall_impl with (1 := Hi).
    apply manifest_item_json_reads. }
  unfold manifest_of, manifest_json, opt_json, opt_field, vec_field, u8_field, str_field, field.
  destruct t, l, r, join;
    cbn [version items title language read_token lookup_field app String.eqb Ascii.eqb Bool.eqb mbind
      option_bind as_str as_array fmap option_fmap option_map];
    rewrite Hm; done.
Qed.

(** The envelope of a note, as the readers see it; the null salt of an open note
    is none to them. *)
Lemma note_envelope_reads prefix salt c :
  Sealing.envelope_of (envelope_json prefix salt c)
    = Some {| Sealing.v := 1; Sealing.env_prefix := prefix; Sealing.salt := salt;
              Sealing.env_ciphertext := c |}.
Proof. by destruct salt. Qed.

Lemma note_envelope_printable prefix salt c : printable (envelope_json prefix salt c) = true.
Proof. by destruct salt; vm_compute. Qed.

(** ** What is sealed opens *)

(** *** Removals *)

(** The removal request can be sent, and the server removes the note or has. *)
Definition accepted (re : ReadEnv) (tokens : list string) : Prop :=
  forallb (header_value re) tokens = true ∧ (consume_status re = Ok 202 ∨ consume_status re = Ok 404).

(** A removal goes through: this process has already made it, or the server accepts it. *)
Definition removed (re : ReadEnv) (p : PendingBurn) (s : Reader) : Prop :=
  match b_session p with
  | Some session_token => accepted re [b_read_token p; session_token]
  | None => b_transfer p ∈ burned s ∨ accepted re [b_read_token p]
  end.

Lemma consume_request_iff re tokens s :
  is_ok (snd (consume_request re tokens s)) = true ↔ accepted re tokens.
Proof.
  unfold consume_request, accepted. destruct (forallb _ tokens); cbn [negb]; [|naive_solver].
  unfold log, modify, of_result, fail, mbind, SE_bind, mret, SE_ret. cbn.
  destruct (consume_status re) as [st|]; cbn; [|naive_solver].
  destruct (Z.eqb_spec st 202) as [->|H2]; [naive_solver|].
  destruct (Z.eqb_spec st 404) as [->|H4]; [naive_solver|]. cbn. naive_solver.
Qed.

Lemma burn_iff re p s : is_ok (snd (burn re p s)) = true ↔ removed re p s.
Proof.
  unfold burn, removed. destruct (b_session p); [apply consume_request_iff|].
  unfold consume_once, get, mbind, SE_bind. cbv beta iota. case_bool_decide as Hb; [by split; [left|]|].
  rewrite <- (consume_request_iff _ _ s).
  destruct (consume_request re [b_read_token p] s) as [s1 [[]|]]; cbn; naive_solver.
Qed.

Lemma burn_after_read_cases re md m session s token :
  burn_on_read md = true → read_token m = Some token →
  let p := {| b_transfer := m_id md; b_read_token := token; b_session := session |} in
  ∃ s' q, burn_after_read re md m session s = (s', Ok q) ∧
    (removed re p s ∧ q = None ∨ ¬ removed re p s ∧ q = Some p).
Proof.
  intros Hb Ht p. unfold burn_after_read. rewrite Hb, Ht. pose proof (burn_iff re p s) as Hi. fold p.
  unfold mbind, SE_bind. cbn. unfold attempt. fold p.
  destruct (burn re p s) as [s1 [x|x]]; cbn in *; eexists _, _; (split; [reflexivity|]).
  - left. split; [by apply Hi|done].
  - right. split; [|done]. intros Hr. by apply Hi in Hr.
Qed.

(** Nothing before it touches the record of what was removed. *)
Notation keeps_burned := (preserves (λ s s' : Reader, burned s' = burned s)).
#[local] Instance keeps_trans : Transitive (λ s s' : Reader, burned s' = burned s).
Proof. intros ? ? ? H1 H2. by rewrite H2. Qed.

Lemma log_keeps ev : keeps_burned (log ev).
Proof. by intros s s' r [= <- <-]. Qed.
Lemma of_result_keeps {A} (x : result string A) : keeps_burned (of_result x).
Proof. by intros s s' r [= <- <-]. Qed.
Lemma fail_keeps {A} x : keeps_burned (fail x : SE Reader string A).
Proof. by intros s s' r [= <- <-]. Qed.
Lemma ret_keeps {A} (x : A) : keeps_burned (mret x : SE Reader string A).
Proof. by intros s s' r [= <- <-]. Qed.
Create HintDb keeps.
#[local] Hint Resolve log_keeps of_result_keeps fail_keeps ret_keeps : keeps.
Ltac keeps := repeat first [ apply preserves_bind; [apply keeps_trans| |intros ?]
                           | progress case_match | solve [eauto with keeps] ].

Section roundtrip.
Context `{Ae : Aead, Kd : Kdf, Co : Codec, En : Encode, Js : JsonText, We : Address.Web}.
Context {Jl : JsonTextLaws} {Wl : Opening.WireLaws} {Cl : CodecLaws} {Ul : Address.WebLaws}.
Context (sha256_lower : ∀ l, lower_hex (sha256_hex l) = true).

Lemma open_sealed_manifest master prefix transfer salt m join envelope :
  seal_manifest master prefix transfer salt m join = Ok envelope →
  Forall is_u8 prefix → version m = 1 → Forall fits (items m) →
  ∃ e, read_envelope envelope = Ok e ∧ e_salt e = encode <$> salt ∧
    open_manifest master transfer e = Ok (m, join).
Proof.
  unfold seal_manifest, mbind, result_bind. intros Hs Hp Hv Hi.
  destruct (encrypt_manifest _ _ _ _) as [c|] eqn:Ec; [|done]. injection Hs as <-.
  pose proof (proj1 (encrypt_decrypt_at_index _ _ _ _ _ _ _) Ec) as Hd.
  apply encrypt_at_index_Ok in Ec as (_ & _ & _ & Hlen & Ha).
  assert (Hc : Forall is_u8 c) by (eapply Opening.aead_u8; [apply to_vec_u8|exact Ha]).
  unfold read_envelope. rewrite from_str_to_string by apply note_envelope_printable.
  cbn [mbind option_bind]. rewrite note_envelope_reads.
  cbn [ok_or mbind result_bind Sealing.v Sealing.env_prefix Sealing.salt Sealing.env_ciphertext].
  cbn [Z.eqb Pos.eqb negb]. rewrite Opening.decode_encode by done. cbn [mbind result_bind].
  unfold NONCE_PREFIX_BYTES in Hlen. rewrite Hlen. cbn [Z.eqb Pos.eqb negb].
  eexists. split_and!; [done|done|]. unfold open_manifest. cbn [e_prefix e_ciphertext].
  rewrite !Opening.decode_encode by done. cbn [mbind result_bind].
  unfold decrypt_manifest. rewrite Hd. cbn [context mbind result_bind].
  destruct (note_manifest_json_reads m join Hv Hi) as [H1 H2].
  rewrite from_slice_to_vec by by apply note_manifest_json_printable.
  cbn [mbind option_bind]. rewrite H1. cbn [ok_or mbind result_bind]. by rewrite H2.
Qed.

(** A sealed piece, chunk by chunk. *)
Lemma seal_chunks_lookup key prefix transfer item k l cs i p :
  seal_chunks key prefix transfer item k l = Ok cs → l !! i = Some p →
  ∃ c, cs !! i = Some (Z.of_nat (k + i), c) ∧
    decrypt_chunk key prefix (Prelude.as_u32 (Z.of_nat (k + i))) c
      (aad transfer item (decimal (Z.of_nat (k + i)))) = Ok p ∧ zlen c = zlen p + TAG_BYTES.
Proof.
  revert k cs i. induction l as [|q l IH]; intros k cs i; [by rewrite lookup_nil|].
  cbn [seal_chunks]. unfold seal_chunk at 1, mbind, result_bind.
  destruct (u32_max <? Z.of_nat k) eqn:Ek; [done|].
  destruct (encrypt_chunk _ _ _ _ _) as [c|] eqn:Ec; [|done].
  destruct (seal_chunks _ _ _ _ _ _) as [rest|] eqn:Er; [|done]. intros [= <-].
  destruct i as [|i]; cbn [lookup list_lookup].
  - intros [= <-]. exists c. rewrite Nat.add_0_r. bool_prop. split; [done|].
    replace (Prelude.as_u32 (Z.of_nat k)) with (Z.of_nat k).
    2: { unfold Prelude.as_u32. rewrite Z.mod_small; [done|]. unfold u32_max in *. lia. }
    split; [by apply encrypt_decrypt_at_index|]. apply encrypt_at_index_Ok in Ec as (_ & _ & _ & _ & Ha).
    by apply aead_length in Ha.
  - intros Hp. destruct (IH _ _ _ Er Hp) as (c' & H1 & H2 & H3).
    exists c'. by rewrite Nat.add_succ_r.
Qed.

(** [create]'s loop puts what a live note would serve. *)
Lemma put_chunks_Ok e key prefix transfer item k l s s' :
  put_chunks e key prefix transfer item k l s = (s', Ok ()) →
  ∃ cs, seal_chunks key prefix transfer item k l = Ok cs ∧ puts s' = puts s ++ cs.
Proof.
  revert k s. induction l as [|p l IH]; intros k s; cbn [put_chunks seal_chunks].
  { intros [= <-]. exists []. by rewrite app_nil_r. }
  intros [(? & _ & [=])|(s1 & c & Hc & H)]%bind_run. injection Hc as <- Hc.
  apply bind_run in H as [(? & _ & [=])|(s1 & st & [= <- Hst] & H)].
  destruct (negb _); [done|].
  apply bind_run in H as [(? & _ & [=])|(s2 & u & [= <- <-] & H)].
  apply IH in H as (cs & Hs & Hp). cbn in Hp. rewrite Hc. cbn [mbind result_bind].
  rewrite Hs. cbn [mbind result_bind]. eexists. split; [done|].
  by rewrite Hp, <- app_assoc.
Qed.

(** A server that stored the chunks, or a peer that holds them. *)
Definition serves (e : ReadEnv) (live : bool) (cs : list (Z * list Z)) : Prop :=
  ∀ i c, (i, c) ∈ cs →
    if live then live_chunk e i (zlen c) = Ok c
    else ∃ r, chunk_reply e i = Ok r ∧ is_success r = true ∧ content r = Ok c ∧
      (content_length r = None ∨ content_length r = Some (zlen c)).

Lemma fetch_chunk_honest e live note item text cs i p c count s :
  serves e live cs → size item = len text →
  chunk_count (len text) (chunk_bytes note) = Ok count →
  plain_chunks text (chunk_bytes note) !! i = Some p →
  (Z.of_nat i, c) ∈ cs → zlen c = zlen p + TAG_BYTES →
  ∃ s', fetch_chunk e live note item (Z.of_nat i) s = (s', Ok c).
Proof.
  intros Hs Hsize Hcount Hp Hc Hl. unfold fetch_chunk.
  rewrite Hsize, (expected_chunk_spec _ _ _ _ _ Hcount Hp), <- Hl.
  specialize (Hs _ _ Hc). eexists. unfold of_result, log, modify, mbind, SE_bind. cbn.
  destruct live.
  - rewrite Hs, Z.eqb_refl. done.
  - destruct Hs as (r & Hr & Hok & Hcontent & Hlen). rewrite Hr, Hok. cbn.
    unfold read_chunk. rewrite Hcontent.
    replace (from_option _ false (content_length r)) with false
      by (destruct Hlen as [->| ->]; cbn; by rewrite ?Z.eqb_refl).
    cbn. rewrite Z.eqb_refl. cbn. by rewrite Z.eqb_refl.
Qed.

Lemma fetch_text_honest e live note item text key prefix cs count :
  serves e live cs → check (control e) = Ok () → size item = len text →
  chunk_count (len text) (chunk_bytes note) = Ok count →
  seal_chunks key prefix (m_id note) (id item) 0 (plain_chunks text (chunk_bytes note)) = Ok cs →
  ∀ rest k acc s, drop k (plain_chunks text (chunk_bytes note)) = rest →
  ∃ s', fetch_text e live note item key prefix (seqZ (Z.of_nat k) (Z.of_nat (length rest))) acc s
    = (s', Ok (acc ++ concat rest)).
Proof.
  intros Hs Hck Hsize Hcount Hseal. induction rest as [|p rest IH]; intros k acc s Hd.
  { exists s. cbn. by rewrite app_nil_r. }
  assert (Hp : plain_chunks text (chunk_bytes note) !! k = Some p).
  { rewrite <- (Nat.add_0_r k), <- lookup_drop, Hd. done. }
  destruct (seal_chunks_lookup _ _ _ _ _ _ _ _ _ Hseal Hp) as (c & Hc & Hdec & Hl).
  apply list_elem_of_lookup_2 in Hc. cbn [Nat.add] in *.
  rewrite seqZ_cons by (cbn [length]; lia).
  replace (Z.pred (Z.of_nat (length (p :: rest)))) with (Z.of_nat (length rest)) by (cbn [length]; lia).
  replace (Z.succ (Z.of_nat k)) with (Z.of_nat (S k)) by lia.
  cbn [fetch_text]. rewrite Hck.
  destruct (fetch_chunk_honest e live note item text cs k p c count s Hs Hsize Hcount Hp Hc Hl) as [s1 Hf].
  erewrite bind_Ok by reflexivity. erewrite bind_Ok by exact Hf. erewrite bind_Ok by by rewrite Hdec.
  destruct (IH (S k) (acc ++ p) s1) as [s' Hs'].
  { rewrite <- (Nat.add_1_r k), <- drop_drop, Hd. done. }
  exists s'. rewrite Hs'. cbn [concat]. by rewrite <- app_assoc.
Qed.

Definition is_live (t : NoteTransport) : bool := match t with HttpNote => false | WebRtcNote => true end.

Definition sixteen (p : list Z) : Prop := zlen p = 16 ∧ Forall is_u8 p.

(** A share key: 32 bytes, whose base64url text is 43 canonical characters. *)
Definition good_key (k : list Z) : Prop :=
  Forall is_u8 k ∧ Link.valid_base64url (encode k) 43 3 = true.

(** The share path is the page of the note on the reader's instance [there]; the
    server describes the reserved note and has its envelope; the reader has
    what the note needs: chunks, room, the acknowledgement of a burn, and for a
    live note a control, consent unless relayed, and a session. *)
Record ready (instance there : Address.Url) (re : ReadEnv) (t : NoteTransport) (r : NoteCreate) (reservation : Reservation)
    (item : ReservedItem) (count : Z) (envelope : string) (cs : list (Z * list Z))
    (md : NoteMetadata) : Prop := {
  y_page : ∃ u, share_page instance reservation = Some u ∧ Address.http_page u (r_id reservation) ∧
    Address.fragment u = None ∧ Address.origin u = Address.origin there;
  y_ulid : Link.is_ulid (r_id reservation) = true;
  y_read : read (read_reply re (r_id reservation)) = Ok md;
  y_id : m_id md = r_id reservation;
  y_manifest : encrypted_manifest md = Some envelope;
  y_chunk : chunk_bytes md = r_chunk_bytes reservation;
  y_driver : driver md = transport_name t;
  y_items : n_id <$> m_items md = [r_item item] ∧ n_chunk_count <$> m_items md = [count];
  y_serves : serves re (is_live t) cs;
  y_check : check (control re) = Ok ();
  y_room : len (c_text r) ≤ from_option memory_budget u64_max (control re);
  y_burn : burn_on_read md = true →
    burn_acknowledged re = true ∧ is_Some (r_read_token reservation);
  y_live : t = WebRtcNote → ∃ c token, control re = Some c ∧ session re = Ok token ∧
    report_reply re = Ok () ∧ (relay_only c = false → peer_consent c = Ok ()) }.

Lemma note_manifest_fits r reservation item prefix count total :
  note_size (c_text r) (r_chunk_bytes reservation) = Ok (count, total) →
  Forall fits (items (note_manifest r reservation item prefix count)) ∧
  chunk_count (len (c_text r)) (r_chunk_bytes reservation) = Ok count ∧ is_u64 (len (c_text r)).
Proof.
  unfold note_size, mbind, result_bind.
  destruct (chunk_count _ _) as [n|] eqn:Ec; [|done].
  destruct (checked_mul n TAG_BYTES) as [tags|] eqn:Et; cbn [ok_or]; [|done].
  destruct (checked_add _ tags) as [tot|] eqn:Ea; cbn [ok_or]; [|done]. intros [= <- <-].
  apply checked_mul_Some in Et as [-> _]. apply checked_add_Some in Ea as [_ Ha].
  pose proof Ec as Ec'. unfold chunk_count in Ec'. guards Ec'. bool_prop.
  pose proof (len_nonneg (c_text r)). unfold MAX_CHUNKS, TAG_BYTES, u64_max in *.
  injection Ec' as Ec'. assert (1 ≤ n) by lia.
  assert (Hl : is_u64 (len (c_text r))) by (unfold is_u64, u64_max; lia).
  split_and!; [|done|done]. repeat constructor; cbn; unfold is_u64, u64_max; lia.
Qed.

Lemma check_note_manifest instance there md r reservation item prefix count total t re envelope cs :
  ready instance there re t r reservation item count envelope cs md → sixteen prefix →
  note_size (c_text r) (r_chunk_bytes reservation) = Ok (count, total) →
  let m := note_manifest r reservation item prefix count in
  check_manifest md m = Ok (note_item r item prefix count).
Proof.
  intros Hy [Hp16 Hp8] Hn. pose proof (note_manifest_fits r reservation item prefix count total Hn)
    as (_ & Hcount & _).
  unfold check_manifest. cbn [note_manifest version items length Nat.eqb negb orb head ok_or mbind result_bind
    Z.eqb Pos.eqb].
  destruct (y_items _ _ _ _ _ _ _ _ _ _ _ Hy) as [Hi Hc].
  destruct (m_items md) as [|server [|? ?]]; try done. cbn in Hi, Hc.
  injection Hi as Hi. injection Hc as Hc. cbn [head ok_or mbind result_bind id item_chunk_count size
    nonce_prefix digest algorithm value note_item].
  rewrite (y_chunk _ _ _ _ _ _ _ _ _ _ _ Hy), Hi, Hc, String.eqb_refl, Z.eqb_refl, Hcount.
  pose proof Hcount as Hcount'. unfold chunk_count in Hcount'. guards Hcount'. injection Hcount' as Hk.
  cbn [negb orb mbind result_bind].
  rewrite Z.eqb_refl. cbn [negb].
  unfold bad_chunk_bytes, MAX_PROTOCOL_CHUNK_BYTES in Heqb. apply negb_false_iff in Heqb.
  unfold MAX_CHUNKS in *. bool_prop.
  pose proof (div_ceil_upper (len (c_text r)) (r_chunk_bytes reservation) ltac:(done)).
  replace (checked_mul _ _) with (Some (count * r_chunk_bytes reservation)).
  2: { symmetry. apply checked_mul_Some. split; [done|]. unfold u64_max. nia. }
  cbn [ok_or mbind result_bind]. rewrite (proj2 (Z.ltb_ge _ _)) by nia.
  rewrite Opening.decode_encode by done. cbn [mbind result_bind]. rewrite Hp16. cbn [Z.eqb Pos.eqb negb].
  pose proof (sha256_digest (bytes (c_text r))) as Hd. unfold is_digest in Hd.
  apply andb_true_iff in Hd as [Hd _]. by rewrite Hd, sha256_lower.
Qed.

(** What a note was sealed with. *)
Record sealed_as (t : NoteTransport) (r : NoteCreate) (reservation : Reservation)
    (item : ReservedItem) (count : Z) (share_key : list Z) (envelope : string)
    (cs : list (Z * list Z)) : Prop := {
  w_sealed : ∃ total salt master prefix manifest_prefix key join,
    note_size (c_text r) (r_chunk_bytes reservation) = Ok (count, total) ∧
    password_key share_key (c_password r) salt = Ok master ∧
    (∀ s, salt = Some s → Forall is_u8 s) ∧ sixteen prefix ∧ sixteen manifest_prefix ∧
    derive_item_key master (r_id reservation) (r_item item) = Ok key ∧
    seal_chunks key prefix (r_id reservation) (r_item item) 0
      (plain_chunks (c_text r) (r_chunk_bytes reservation)) = Ok cs ∧
    seal_manifest master manifest_prefix (r_id reservation) salt
      (note_manifest r reservation item prefix count) join = Ok envelope ∧
    (t = WebRtcNote → is_Some join) }.

Lemma read_driver re md t : read re = Ok md → driver md = transport_name t →
  (driver md =? "webrtc")%string = is_live t.
Proof. intros _ ->. by destruct t. Qed.

Lemma join_live_ready instance there re t r reservation item count envelope cs md join s :
  ready instance there re t r reservation item count envelope cs md → t = WebRtcNote → is_Some join →
  ∃ s', join_live re join s = (s', Ok (res_opt (session re))).
Proof.
  intros Hy Ht [tok ->]. destruct (y_live _ _ _ _ _ _ _ _ _ _ _ Hy Ht) as (c & token & Hc & Hses & _ & Hcons).
  unfold join_live. rewrite Hc, Hses. unfold mbind, SE_bind. cbn.
  destruct (relay_only c) eqn:Er; cbn.
  - by eexists.
  - rewrite Hcons by done. cbn. by eexists.
Qed.

Lemma fetch_chunk_keeps re live md item i : keeps_burned (fetch_chunk re live md item i).
Proof. unfold fetch_chunk. keeps. Qed.
#[local] Hint Resolve fetch_chunk_keeps : keeps.

Lemma fetch_text_keeps re live md item key prefix l text :
  keeps_burned (fetch_text re live md item key prefix l text).
Proof. revert text. induction l as [|i l IH]; intros text; cbn [fetch_text]; keeps. Qed.

Lemma join_live_keeps re join : keeps_burned (join_live re join).
Proof. unfold join_live. keeps. Qed.

(** What a removal of the note is made with. *)
Definition capability (re : ReadEnv) (t : NoteTransport) (reservation : Reservation) (token : string)
    : PendingBurn :=
  {| b_transfer := r_id reservation; b_read_token := token;
     b_session := if is_live t then res_opt (session re) else None |}.

(** What a reader has of a note that is removed once read. *)
Definition burn_outcome (re : ReadEnv) (t : NoteTransport) (reservation : Reservation) (burns : bool)
    (st : Reader) (received : ReceivedNote) : Prop :=
  if burns then
    ∃ token, r_read_token reservation = Some token ∧
      let p := capability re t reservation token in
      (removed re p st ∧ consumed (note received) = true ∧ pending_burn received = None ∨
       ¬ removed re p st ∧ consumed (note received) = false ∧ pending_burn received = Some p)
  else consumed (note received) = false ∧ pending_burn received = None.

(** The link of a note names it and holds its key. *)
Lemma parse_note_link there reservation share_key u :
  Address.http_page u (r_id reservation) → Address.fragment u = None → Address.origin u = Address.origin there →
  Link.is_ulid (r_id reservation) = true → good_key share_key →
  parse_link there (Address.text u +:+ "#k=v1." +:+ encode share_key)
    = Ok {| Opening.l_id := r_id reservation; Opening.l_key := Some share_key;
            Opening.l_instance := Address.origin there |}.
Proof.
  intros Hu Hf Ho Hid [H8 Hv]. unfold parse_link.
  assert (Hl : Address.text u +:+ "#k=v1." +:+ encode share_key
               = Address.text (Address.keyed (Some (encode share_key)) u)).
  { rewrite (Address.keyed_text u _ _ Hu Hid), (Address.url_text u _ Hu Hf) by done.
    by rewrite !Address.append_assoc. }
  rewrite Hl, (Address.parse_keyed u (r_id reservation)) by done.
  rewrite Opening.decode_encode by done. cbn [mbind result_bind]. cbn [Opening.l_instance].
  by rewrite Ho, String.eqb_refl.
Qed.

Lemma receive_sealed instance there link re t r reservation item count share_key envelope cs md s :
  ready instance there re t r reservation item count envelope cs md →
  sealed_as t r reservation item count share_key envelope cs → utf8 (c_text r) → good_key share_key →
  note_link instance reservation share_key = Ok link →
  ∃ s' received, receive there re link (c_password r) s = (s', Ok received) ∧
    o_id (note received) = r_id reservation ∧ o_text (note received) = c_text r ∧
    o_title (note received) = nonempty (c_title r) ∧ o_language (note received) = c_language r ∧
    burn_outcome re t reservation (burn_on_read md) s received.
Proof.
  intros Hy [(total & salt & master & prefix & mp & key & join & Hn & Hk & Hsalt & Hp & Hmp & Hkey & Hcs & Hm & Hj)] Hu Hgood Hlink.
  destruct (note_manifest_fits r reservation item prefix count total Hn) as (Hfits & Hcount & _).
  destruct (open_sealed_manifest _ _ _ _ _ _ _ Hm (proj2 Hmp) eq_refl Hfits) as (e & He & Hes & Hopen).
  pose proof (check_note_manifest _ _ _ _ _ _ _ _ _ _ _ _ _ Hy Hp Hn) as Hcheck. cbv zeta in Hcheck.
  unfold receive. rewrite (y_check _ _ _ _ _ _ _ _ _ _ _ Hy).
  destruct (y_page _ _ _ _ _ _ _ _ _ _ _ Hy) as (u & Hu1 & Hu2 & Hu3 & Hu4).
  assert (Hlk : parse_link there link = Ok {| Opening.l_id := r_id reservation;
    Opening.l_key := Some share_key; Opening.l_instance := Address.origin there |}).
  { unfold note_link in Hlink. rewrite Hu1 in Hlink. injection Hlink as <-.
    apply parse_note_link; try done. apply (y_ulid _ _ _ _ _ _ _ _ _ _ _ Hy). }
  erewrite bind_Ok by reflexivity. erewrite bind_Ok by by rewrite Hlk. erewrite bind_Ok by reflexivity.
  cbn [Opening.l_id Opening.l_key].
  erewrite bind_Ok by by rewrite (y_read _ _ _ _ _ _ _ _ _ _ _ Hy).
  erewrite bind_Ok by by rewrite (y_manifest _ _ _ _ _ _ _ _ _ _ _ Hy).
  erewrite bind_Ok by by rewrite He.
  assert (Hds : match e_salt e with Some salt => s ← decode salt; Ok (Some s) | None => Ok None end
    = (Ok salt : result string (option (list Z)))).
  { rewrite Hes. destruct salt as [x|]; [|done]. cbn. by rewrite Opening.decode_encode by by apply Hsalt. }
  erewrite bind_Ok by by rewrite Hds. erewrite bind_Ok by by rewrite Hk.
  erewrite bind_Ok by by rewrite (y_id _ _ _ _ _ _ _ _ _ _ _ Hy), Hopen.
  cbv beta iota. erewrite bind_Ok by by rewrite Hcheck.
  change (size (note_item r item prefix count)) with (len (c_text r)).
  rewrite (proj2 (Z.ltb_ge _ _) (y_room _ _ _ _ _ _ _ _ _ _ _ Hy)).
  replace (burn_on_read md && negb (burn_acknowledged re)) with false.
  2: { destruct (burn_on_read md) eqn:Eb; [|done].
       by destruct (y_burn _ _ _ _ _ _ _ _ _ _ _ Hy Eb) as [-> _]. }
  change (id (note_item r item prefix count)) with (r_item item).
  change (nonce_prefix (note_item r item prefix count)) with (encode prefix).
  erewrite bind_Ok by by rewrite (y_id _ _ _ _ _ _ _ _ _ _ _ Hy), Hkey.
  erewrite bind_Ok by by rewrite Opening.decode_encode by apply Hp.
  cbv zeta. rewrite (read_driver _ _ _ (y_read _ _ _ _ _ _ _ _ _ _ _ Hy) (y_driver _ _ _ _ _ _ _ _ _ _ _ Hy)).
  assert (Hjoin : ∃ s1 st, (if is_live t then join_live re join else mret None) s = (s1, Ok st) ∧
    st = (if is_live t then res_opt (session re) else None) ∧ burned s1 = burned s).
  { destruct t; cbn; [by eexists _, _|].
    destruct (join_live_ready _ _ _ _ _ _ _ _ _ _ _ _ s Hy eq_refl (Hj eq_refl)) as (s1 & Hjl).
    exists s1, (res_opt (session re)). split_and!; [done|done|]. by apply join_live_keeps in Hjl. }
  destruct Hjoin as (s1 & st & Hjoin & Hst & Hb1). erewrite bind_Ok by exact Hjoin.
  pose proof (y_chunk _ _ _ _ _ _ _ _ _ _ _ Hy) as Hchunk.
  assert (Hbounds : 0 < r_chunk_bytes reservation ∧
    count = Z.of_nat (length (plain_chunks (c_text r) (r_chunk_bytes reservation)))).
  { pose proof Hcount as Hc. unfold chunk_count in Hc. guards Hc. injection Hc as <-.
    unfold bad_chunk_bytes in Heqb. apply negb_false_iff in Heqb. bool_prop.
    split; [done|]. by rewrite length_plain_chunks. }
  destruct Hbounds as [Hpos Hlen].
  destruct (fetch_text_honest re (is_live t) md (note_item r item prefix count) (c_text r) key prefix cs
    count (y_serves _ _ _ _ _ _ _ _ _ _ _ Hy) (y_check _ _ _ _ _ _ _ _ _ _ _ Hy) eq_refl)
    with (rest := plain_chunks (c_text r) (chunk_bytes md)) (k := 0%nat) (acc := @nil Z) (s := s1)
    as [s2 Hf]; [by rewrite Hchunk|by rewrite (y_id _ _ _ _ _ _ _ _ _ _ _ Hy), Hchunk|done|].
  change (Z.of_nat 0) with 0 in Hf.
  change (item_chunk_count (note_item r item prefix count)) with count.
  rewrite Hchunk, <- Hlen, concat_plain_chunks, app_nil_l in Hf by done.
  erewrite bind_Ok by exact Hf. apply fetch_text_keeps in Hf as Hb2.
  unfold zlen. rewrite length_bytes, Z.eqb_refl. cbn [note_item digest value]. rewrite String.eqb_refl. cbn [negb orb].
  erewrite bind_Ok by by rewrite from_utf8_bytes.
  assert (Hrep : ∃ s3, (if is_live t then log Reported ≫= λ _ : (), of_result (report_reply re)
                        else mret ()) s2 = (s3, Ok ()) ∧ burned s3 = burned s2).
  { destruct t; cbn; [by eexists|].
    destruct (y_live _ _ _ _ _ _ _ _ _ _ _ Hy eq_refl) as (c & token & _ & _ & Hr & _).
    unfold mbind, SE_bind. cbn. rewrite Hr. by eexists. }
  destruct Hrep as (s3 & Hrep & Hb3). erewrite bind_Ok by exact Hrep.
  assert (Hs3 : burned s3 = burned s) by congruence.
  assert (Hfin : ∃ s4 q, burn_after_read re md (note_manifest r reservation item prefix count) st s3 = (s4, Ok q) ∧
    ∀ x y z, burn_outcome re t reservation (burn_on_read md) s
      {| note := Build_OpenedNote (m_id md) x y z (burn_on_read md && bool_decide (q = None)); pending_burn := q |}).
  { unfold burn_outcome. destruct (burn_on_read md) eqn:Eb.
    - destruct (y_burn _ _ _ _ _ _ _ _ _ _ _ Hy Eb) as [_ [token Htok]].
      destruct (burn_after_read_cases re md (note_manifest r reservation item prefix count) st s3 token Eb Htok)
        as (s4 & q & Hq & Hcases). exists s4, q. split; [done|]. intros x y z. exists token. split; [done|].
      rewrite Hst, (y_id _ _ _ _ _ _ _ _ _ _ _ Hy) in Hcases. fold (capability re t reservation token) in Hcases.
      unfold removed in Hcases |- *. rewrite Hs3 in Hcases.
      destruct Hcases as [[? ->]|[? ->]]; [by left|by right].
    - exists s3, None. unfold burn_after_read. by rewrite Eb. }
  destruct Hfin as (s4 & q & Hb & Hout). erewrite bind_Ok by exact Hb.
  eexists s4, _. split; [reflexivity|]. cbn.
  split_and!; try done. apply (y_id _ _ _ _ _ _ _ _ _ _ _ Hy).
Qed.

(** The next step of a call that succeeded: a computation, or any other. *)
Ltac pure_ok H x E :=
  let s1 := fresh "s" in apply bind_run_Ok in H as (s1 & x & E & H);
  injection E as <- E.
Ltac step_ok H s1 x E := apply bind_run_Ok in H as (s1 & x & E & H).

(** What the random source gives a creation. *)
Record fresh_ok (e : CreateEnv) : Prop := {
  k_key : ∀ k, fresh_key e = Ok k → good_key k;
  k_salt : ∀ p, fresh_salt e = Ok p → Forall is_u8 p;
  k_prefix : ∀ p, fresh_prefix e = Ok p → sixteen p;
  k_manifest : ∀ p, fresh_manifest_prefix e = Ok p → sixteen p }.

Definition created_by (instance : Address.Url) (t : NoteTransport) (e : CreateEnv) (relay : bool)
    (r : NoteCreate) : SE Sent string CreatedNote :=
  match t with HttpNote => create instance e r | WebRtcNote => create_live instance e relay r end.

Lemma reserve_Ok e t policy reservation item :
  reserve e t policy = Ok (reservation, item) → r_chunk_bytes reservation = i_chunk_bytes policy.
Proof.
  unfold reserve, mbind, result_bind. destruct (reserve_reply e) as [x|]; [|done].
  destruct (negb (is_success x)); [done|]. destruct (decode_control _ _ x) as [y|]; [|done].
  case_match eqn:Eb; [done|]. destruct (head (r_items y)); [|done]. cbn. intros [= <- _]. by bool_prop.
Qed.

Lemma new_keys_Ok e password share_key salt master :
  new_keys e password = Ok (share_key, salt, master) → fresh_ok e →
  fresh_key e = Ok share_key ∧ password_key share_key password salt = Ok master ∧
  (∀ s, salt = Some s → Forall is_u8 s).
Proof.
  unfold new_keys, mbind, result_bind. intros Hk Hf. destruct (fresh_key e) as [k|]; [|done].
  destruct password as [pw|].
  - destruct (fresh_salt e) as [sl|] eqn:Es; [|done].
    destruct (password_key k _ _) as [m|] eqn:Ep; [|done]. injection Hk as <- <- <-.
    split_and!; try done. intros s' [= <-]. by apply Forall_take, (k_salt _ Hf).
  - destruct (password_key k _ _) as [m|] eqn:Ep; [|done]. injection Hk as <- <- <-.
    by split_and!.
Qed.

Lemma live_chunks text cb :
  text ≠ "" → Channel.slice_chunks (Z.to_nat cb) (bytes text) = plain_chunks text cb ∨ cb ≤ 0.
Proof.
  intros Ht. destruct (decide (cb ≤ 0)) as [|Hc]; [by right|left]. unfold plain_chunks.
  destruct (bytes text) as [|z l] eqn:Eb.
  { exfalso. apply Ht, bytes_inj. by rewrite Eb. }
  rewrite Channel.slice_chunks_step by (done || lia). done.
Qed.

(** What the server reserved for a note, and the number of its chunks. *)
Definition reserved_for (e : CreateEnv) (t : NoteTransport) (r : NoteCreate)
    (reservation : Reservation) (item : ReservedItem) (count : Z) : Prop :=
  chunk_count (len (c_text r)) (r_chunk_bytes reservation) = Ok count ∧
  ∃ policy, read_policy (policy_reply e) = Ok policy ∧ reserve e t policy = Ok (reservation, item).

Lemma reserved_intro e t r policy reservation item count total :
  read_policy (policy_reply e) = Ok policy → reserve e t policy = Ok (reservation, item) →
  note_size (c_text r) (i_chunk_bytes policy) = Ok (count, total) →
  reserved_for e t r reservation item count.
Proof.
  intros Hp Hr Hn. pose proof (reserve_Ok _ _ _ _ _ Hr) as Hc. rewrite <- Hc in Hn.
  split; [|by eauto]. by destruct (note_manifest_fits r reservation item [] count total Hn) as (_ & ? & _).
Qed.

Lemma created_seals instance t e relay r s s' created :
  created_by instance t e relay r s = (s', Ok created) → puts s = [] → fresh_ok e →
  ∃ reservation item count share_key envelope,
    published s' = Some envelope ∧ fresh_key e = Ok share_key ∧
    created_id created = r_id reservation ∧ reserved_for e t r reservation item count ∧
    note_link instance reservation share_key = Ok (link created) ∧
    sealed_as t r reservation item count share_key envelope (puts s').
Proof.
  intros Hr Hs Hf. destruct t; cbn [created_by] in Hr; unfold create, create_live in Hr.
  - pure_ok Hr u1 E1. pure_ok Hr u2 E2. pure_ok Hr policy E3.
    destruct (from_option _ _ _); [done|]. pure_ok Hr x E4. destruct x as [count total].
    pure_ok Hr x E5. destruct x as [reservation item]. destruct (negb _); [done|].
    pure_ok Hr x E6. destruct x as [[share_key salt] master].
    pure_ok Hr pfx E7. pure_ok Hr key E8. step_ok Hr s1 u3 E9. destruct u3.
    pure_ok Hr mp E10. pure_ok Hr envelope E11. pure_ok Hr st E12. destruct (negb _); [done|].
    step_ok Hr s2 u3 E13. injection E13 as <- <-. pure_ok Hr l E14. injection Hr as <- <-.
    apply put_chunks_Ok in E9 as (cs & Hcs & Hp). apply reserve_Ok in E5 as Hrc.
    pose proof (reserved_intro _ _ _ _ _ _ _ _ E3 E5 E4) as Hres.
    rewrite Hs, app_nil_l in Hp. rewrite <- Hrc in *.
    apply new_keys_Ok in E6 as (Hk & Hm & Hsalt); [|done].
    exists reservation, item, count, share_key, envelope. split_and!; try done.
    cbn [puts]. rewrite Hp. split. exists total, salt, master, pfx, mp, key, None.
    split_and!; try done; [by apply (k_prefix _ Hf)|by apply (k_manifest _ Hf)].
  - pure_ok Hr u1 E1. pure_ok Hr u2 E2. step_ok Hr s1 u3 E0.
    assert (s1 = s) as -> by (destruct relay; injection E0; done). clear E0.
    pure_ok Hr policy E3.
    destruct (from_option _ _ _); [done|]. pure_ok Hr x E4. destruct x as [count total].
    pure_ok Hr x E5. destruct x as [reservation item]. pure_ok Hr token Et.
    pure_ok Hr x E6. destruct x as [[share_key salt] master].
    pure_ok Hr pfx E7. pure_ok Hr key E8. pure_ok Hr cs E9.
    pure_ok Hr mp E10. pure_ok Hr envelope E11. pure_ok Hr st E12. destruct (negb _); [done|].
    step_ok Hr s2 u3' E13. injection E13 as <- <-. pure_ok Hr l E14. injection Hr as <- <-.
    pose proof (reserved_intro _ _ _ _ _ _ _ _ E3 E5 E4) as Hres.
    apply reserve_Ok in E5 as Hrc. rewrite <- Hrc in *.
    apply new_keys_Ok in E6 as (Hk & Hm & Hsalt); [|done].
    exists reservation, item, count, share_key, envelope. split_and!; try done.
    cbn [puts]. split. exists total, salt, master, pfx, mp, key, (Some token).
    split_and!; try done; [by apply (k_prefix _ Hf)|by apply (k_manifest _ Hf)|].
    destruct (live_chunks (c_text r) (r_chunk_bytes reservation)) as [<-|Hneg].
    + intros He. unfold validate_create in E2. by rewrite He in E2.
    + done.
    + exfalso. clear -E4 Hneg. unfold note_size, chunk_count, mbind, result_bind in E4.
      unfold bad_chunk_bytes in E4. rewrite (proj2 (Z.ltb_ge _ _)) in E4 by done. done.
Qed.

(** C37: a note reads back. When a note was created over HTTP, or published to be
    served live, anyone who has its link and its password, from a server that
    describes the reserved note and holds what was put there (or from a peer
    that holds the live note's chunks), receives exactly its text, title and
    language; the share path the server gave must be the note's page on the
    server the reader is configured for. A burn-on-read note is reported as
    consumed exactly when its removal goes through: the server accepts it (202),
    says the note is gone (404), or, for a stored note, this process has removed
    it before. Otherwise the text comes with the capability that repeats the very
    same removal. A note that is not burn-on-read is never reported as consumed. *)
Theorem note_opens instance t e relay r s s' created :
  created_by instance t e relay r s = (s', Ok created) → puts s = [] → fresh_ok e → utf8 (c_text r) →
  ∃ reservation item count envelope,
    reserved_for e t r reservation item count ∧ published s' = Some envelope ∧
    ∀ there re md st, ready instance there re t r reservation item count envelope (puts s') md →
    ∃ st' received, receive there re (link created) (c_password r) st = (st', Ok received) ∧
      o_id (note received) = created_id created ∧ o_text (note received) = c_text r ∧
      o_title (note received) = nonempty (c_title r) ∧ o_language (note received) = c_language r ∧
      burn_outcome re t reservation (burn_on_read md) st received.
Proof.
  intros Hr Hs Hf Hu. destruct (created_seals _ _ _ _ _ _ _ _ Hr Hs Hf)
    as (reservation & item & count & share_key & envelope & Hp & Hk & Hid & Hres & Hl & Hw).
  exists reservation, item, count, envelope. split_and!; try done.
  intros there re md st Hy. rewrite Hid. eapply receive_sealed; try done. by apply (k_key _ Hf).
Qed.
End roundtrip.

(** ** What a receive does *)

Section safety.
Context `{Ae : Aead, Kd : Kdf, Co : Codec, En : Encode, Js : JsonText, We : Address.Web}.
Context (instance : Address.Url).

(** The events a call adds. *)
Definition adds (P : list Event → Prop) {A} (m : SE Reader string A) : Prop :=
  ∀ s s' r, m s = (s', r) → ∃ ev, events s' = events s ++ ev ∧ P ev.

Definition is_fetch (ev : Event) : Prop := ∃ i, ev = Fetched i.

Lemma fetch_chunk_adds e live md item index :
  adds (Forall is_fetch) (fetch_chunk e live md item index).
Proof.
  intros s s' r. unfold fetch_chunk. destruct (expected_chunk_bytes _ _ _) as [n|] eqn:Ee.
  2: { intros [= <- <-]. exists []. by rewrite app_nil_r. }
  intros Hr. exists [Fetched index].
  assert (events s' = events s ++ [Fetched index]); [|split; [done|by repeat econstructor]].
  unfold of_result, log, modify, fail, mbind, SE_bind, mret, SE_ret in Hr. cbn in Hr.
  repeat (case_match; simplify_eq/=; try done).
Qed.

Lemma fetch_text_adds e live md item key prefix indices text :
  adds (Forall is_fetch) (fetch_text e live md item key prefix indices text).
Proof.
  revert text. induction indices as [|i l IH]; intros text s s' r; cbn [fetch_text].
  { intros [= <- <-]. exists []. by rewrite app_nil_r. }
  intros [(x & H & _)|(s1 & u & H & Hr)]%bind_run; injection H as <- _.
  { exists []. by rewrite app_nil_r. }
  apply bind_run in Hr as [(x & H & _)|(s1' & c & H & Hr)].
  { by apply fetch_chunk_adds in H. }
  apply fetch_chunk_adds in H as (ev1 & H1 & Hf1).
  apply bind_run in Hr as [(x & H & _)|(s2 & p & H & Hr)]; injection H as <- _.
  { by exists ev1. }
  apply IH in Hr as (ev2 & H2 & Hf2). exists (ev1 ++ ev2).
  rewrite H2, H1, app_assoc. split; [done|by apply Forall_app].
Qed.

(** Joining a live note: nothing but consent before it. *)
Definition joined_ok (e : ReadEnv) (ev : list Event) : Prop :=
  Burned ∉ ev ∧ (Joined ∈ ev → ∃ c, control e = Some c ∧
    ((relay_only c = true ∧ ev = [Joined]) ∨
     (peer_consent c = Ok () ∧ ev = [AskedConsent; Joined]))).

Lemma join_live_adds e join : adds (joined_ok e) (join_live e join).
Proof.
  intros s s' r. unfold join_live, log, modify, of_result, mbind, SE_bind, mret, SE_ret. cbn.
  assert (Hnil : joined_ok e []) by (split; [set_solver|intros []%elem_of_nil]).
  assert (Hask : joined_ok e [AskedConsent]) by (split; [set_solver|intros [=]%list_elem_of_singleton]).
  destruct join as [t|]; cbn; [|intros [= <- <-]; exists []; by rewrite app_nil_r].
  destruct (control e) as [c|] eqn:Ec; cbn; [|intros [= <- <-]; exists []; by rewrite app_nil_r].
  destruct (relay_only c) eqn:Er; cbn.
  - intros Hr. exists [Joined]. split; [by destruct (session e); simplify_eq/=|].
    split; [set_solver|]. intros _. exists c. split; [done|by left].
  - destruct (peer_consent c) as [[]|] eqn:Ep; cbn.
    + intros Hr. exists [AskedConsent; Joined].
      split; [destruct (session e); simplify_eq/=; by rewrite <- app_assoc|].
      split; [set_solver|]. intros _. exists c. split; [done|by right].
    + intros [= <- <-]. by exists [AskedConsent].
Qed.

Definition at_most_burn (ev : list Event) : Prop := ev = [] ∨ ev = [Burned].

Lemma consume_request_adds e tokens : adds at_most_burn (consume_request e tokens).
Proof.
  intros s s' r. unfold consume_request. destruct (negb _).
  { intros [= <- _]. exists []. rewrite app_nil_r. split; [done|by left]. }
  unfold log, modify, of_result, fail, mbind, SE_bind, mret, SE_ret. cbn.
  intros Hr. exists [Burned]. split; [|by right]. repeat (case_match; simplify_eq/=; try done).
Qed.

Lemma burn_adds e p : adds at_most_burn (burn e p).
Proof.
  intros s s' r. unfold burn. destruct (b_session p); [by apply consume_request_adds|].
  unfold consume_once. intros [(x & [=] & _)|(s1 & a & [= <- <-] & Hr)]%bind_run.
  case_bool_decide.
  { injection Hr as <- <-. exists []. rewrite app_nil_r. split; [done|by left]. }
  apply bind_run in Hr as [(x & H' & _)|(s1 & b & H' & Hr)];
    apply consume_request_adds in H' as (ev & H' & Hev); exists ev; (split; [|done]); [done|].
  destruct b; cbn in Hr; injection Hr as <- _; done.
Qed.

(** A removal is asked for at most once, and only of a burn-on-read note. *)
Definition only_burns (md : NoteMetadata) (ev : list Event) : Prop :=
  at_most_burn ev ∧ (Burned ∈ ev → burn_on_read md = true).

Lemma burn_after_read_adds e md m st : adds (only_burns md) (burn_after_read e md m st).
Proof.
  assert (Hnil : only_burns md []) by (split; [by left|by intros []%elem_of_nil]).
  intros s s' r. unfold burn_after_read. destruct (burn_on_read md) eqn:Eb.
  2: { intros [= <- <-]. exists []. by rewrite app_nil_r. }
  intros [(x & H & _)|(s1 & token & H & Hr)]%bind_run; injection H as <- _.
  { exists []. by rewrite app_nil_r. }
  apply bind_run in Hr as [(x & H & _)|(s1' & y & H & Hr)]; apply attempt_run in H as (z & H & Hz);
    [done|]. apply burn_adds in H as (ev & H & Hev). exists ev.
  destruct y; injection Hr as <- _; by rewrite H.
Qed.

(** A missing read token is the only failure there, and nothing was sent. *)
Lemma burn_after_read_Err e md m st s s' x :
  burn_after_read e md m st s = (s', Err x) → s' = s.
Proof.
  unfold burn_after_read. destruct (burn_on_read md); [|done].
  intros [(y & H & _)|(s1 & token & H & Hr)]%bind_run; [by injection H as <- _|].
  apply bind_run in Hr as [(y & H' & _)|(s1' & y & H' & Hr)]; [|by destruct y].
  apply attempt_run in H' as (z & _ & [=]).
Qed.

(** The note that a link names, as the server describes it. *)
Definition described_by (e : ReadEnv) (link : string) (md : NoteMetadata) : Prop :=
  ∃ parsed, parse_link instance link = Ok parsed ∧ read (read_reply e (Opening.l_id parsed)) = Ok md.

(** What a received note vouches for. *)
Definition vouched (e : ReadEnv) (link : string) (received : ReceivedNote) : Prop :=
  ∃ md envelope master m join item,
    described_by e link md ∧ encrypted_manifest md ≫= (res_opt ∘ read_envelope) = Some envelope ∧
    open_manifest master (m_id md) envelope = Ok (m, join) ∧ check_manifest md m = Ok item ∧
    (∃ data, from_utf8 data = Some (o_text (note received)) ∧ zlen data = size item ∧
       sha256_hex data = value (digest item)) ∧
    o_id (note received) = m_id md ∧ o_title (note received) = title m.

(** The events of a call: joining, fetching and reporting, then at most one
    removal: of a burn-on-read note whose burn the user had acknowledged, and only
    after a text that was verified. *)
Definition trace_ok (e : ReadEnv) (link : string) (s s' : Reader) (r : result string ReceivedNote) : Prop :=
  ∃ ev1 ev2, events s' = events s ++ ev1 ++ ev2 ∧ Burned ∉ ev1 ∧ at_most_burn ev2 ∧
    (Burned ∈ ev2 → burn_acknowledged e = true ∧ ∃ md, described_by e link md ∧ burn_on_read md = true) ∧
    (Joined ∈ ev1 → ∃ c, control e = Some c ∧
      ((relay_only c = true ∧ head ev1 = Some Joined) ∨
       (peer_consent c = Ok () ∧ take 2 ev1 = [AskedConsent; Joined]))) ∧
    match r with Ok received => vouched e link received | Err _ => ev2 = [] end ∧
    (∀ md, described_by e link md → burn_on_read md = true → burn_acknowledged e = false →
      ev1 = [] ∧ ev2 = [] ∧ is_ok r = false) ∧
    (is_ok (parse_link instance link) = false → ev1 = [] ∧ ev2 = [] ∧ is_ok r = false).

Lemma trace_none e link s x : trace_ok e link s s (Err x).
Proof.
  exists [], []. rewrite !app_nil_r. split_and!; try done; [set_solver|by left|by intros []%elem_of_nil..].
Qed.

(** The events before a removal. *)
Definition calm (ev : list Event) : Prop := Burned ∉ ev ∧ Joined ∉ ev.

Lemma fetches_calm ev : Forall is_fetch ev → calm ev.
Proof. intros Hf. rewrite Forall_forall in Hf. split; intros [i [=]]%Hf. Qed.

Lemma calm_app ev1 ev2 : calm ev1 → calm ev2 → calm (ev1 ++ ev2).
Proof. unfold calm. set_solver. Qed.

Lemma trace_joined e link s s' r ev1 ev2 ev3 md :
  joined_ok e ev1 → calm ev2 → events s' = events s ++ ev1 ++ ev2 ++ ev3 → only_burns md ev3 →
  described_by e link md → (burn_on_read md = true → burn_acknowledged e = true) →
  match r with Ok received => vouched e link received | Err _ => ev3 = [] end →
  trace_ok e link s s' r.
Proof.
  intros [Hb1 Hj1] [Hb2 Hj2] He [H3 Hb3] Hr Hack Hv. exists (ev1 ++ ev2), ev3. rewrite <- app_assoc.
  split_and!; try done.
  - set_solver.
  - intros Hin. specialize (Hb3 Hin). split; [by apply Hack|by exists md].
  - intros [Hin|Hin]%elem_of_app; [|done]. destruct (Hj1 Hin) as (c & Hc & H). exists c. split; [done|].
    destruct H as [(Hre & ->)|(Hp & ->)]; [left|right]; done.
  - intros md' (p' & Hp' & Hr') Hb Ha. destruct Hr as (p & Hp & Hr). rewrite Hp in Hp'. injection Hp' as <-.
    rewrite Hr in Hr'. injection Hr' as <-. rewrite Hack in Ha by done. done.
  - destruct Hr as (p & Hp & _). by rewrite Hp.
Qed.

(** A computation that fails here has left no trace. *)
Ltac quiet H x E :=
  let s1 := fresh "s" in
  apply bind_run in H as [(? & E & ->)|(s1 & x & E & H)]; injection E as <- E;
  [by apply trace_none|].

(** C38: reading a note is safe. Whatever the server and the peer reply, a
    call joins a live note only over a relay or after the user consented to the
    peer; it asks for at most one removal, after everything else, and only for a
    note that its description marks as burn-on-read and whose burn the user had
    acknowledged; and only a call that returns a text of the size and digest of
    the authenticated manifest has asked for one. A burn-on-read note that
    was not acknowledged is refused before anything of it is fetched, a link that
    cannot be read or belongs to another server is refused outright, and a call
    that fails has removed nothing. *)
Theorem receive_safe e link password s s' r :
  receive instance e link password s = (s', r) → trace_ok e link s s' r.
Proof.
  unfold receive. intros Hr.
  quiet Hr u E1. quiet Hr parsed E2'. quiet Hr sk E2. quiet Hr md E3. quiet Hr text E4. quiet Hr env E5.
  quiet Hr salt E6. quiet Hr master E7. quiet Hr x E8. destruct x as [m join]. quiet Hr item E9.
  destruct (_ <? size item); [injection Hr as <- <-; by apply trace_none|].
  destruct (burn_on_read md && _) eqn:Eb; [injection Hr as <- <-; by apply trace_none|].
  quiet Hr k E10. quiet Hr pfx E11.
  assert (Hack : burn_on_read md = true → burn_acknowledged e = true)
    by (intros Hb; rewrite Hb in Eb; by apply negb_false_iff in Eb).
  assert (Hd : described_by e link md) by by exists parsed.
  assert (Hnil : only_burns md []) by (split; [by left|by intros []%elem_of_nil]).
  set (live := (driver md =? "webrtc")%string) in *.
  assert (Hjoin : ∀ s1 st, (if live then join_live e join else mret None) s = (s1, st) →
    ∃ ev, events s1 = events s ++ ev ∧ joined_ok e ev).
  { intros s1 st. destruct live; [by apply join_live_adds|]. intros [= <- <-]. exists [].
    rewrite app_nil_r. split; [done|]. split; [set_solver|by intros []%elem_of_nil]. }
  apply bind_run in Hr as [(y & Hj & ->)|(s1 & st & Hj & Hr)]; apply Hjoin in Hj as (ev1 & H1 & Hj1).
  { apply (trace_joined _ _ _ _ _ ev1 [] [] md); try done;
      [by split; intros []%elem_of_nil|by rewrite H1, !app_nil_r]. }
  apply bind_run in Hr as [(y & Hf & ->)|(s2 & data & Hf & Hr)];
    apply fetch_text_adds in Hf as (ev2 & H2 & Hf2).
  { apply (trace_joined _ _ _ _ _ ev1 ev2 [] md); try done;
      [by apply fetches_calm|by rewrite H2, H1, app_nil_r, app_assoc]. }
  destruct (negb _ || negb _) eqn:Ei.
  { injection Hr as <- <-.
    apply (trace_joined _ _ _ _ _ ev1 ev2 [] md); try done;
      [by apply fetches_calm|by rewrite H2, H1, app_nil_r, app_assoc]. }
  apply bind_run in Hr as [(y & Hu & ->)|(s3 & out & Hu & Hr)]; injection Hu as <- Hu.
  { apply (trace_joined _ _ _ _ _ ev1 ev2 [] md); try done;
      [by apply fetches_calm|by rewrite H2, H1, app_nil_r, app_assoc]. }
  assert (Hrep : ∀ s4 z, (if live then log Reported ≫= λ _ : (), of_result (report_reply e) else mret ())
      s2 = (s4, z) → ∃ ev, events s4 = events s2 ++ ev ∧ calm ev).
  { intros s4 z. destruct live.
    - intros [= <- <-]. exists [Reported]. split; [done|]. split; set_solver.
    - intros [= <- <-]. exists []. rewrite app_nil_r. split; [done|by split; intros []%elem_of_nil]. }
  apply bind_run in Hr as [(y & Hp & ->)|(s4 & w & Hp & Hr)]; apply Hrep in Hp as (ev3 & H3 & Hc3).
  { apply (trace_joined _ _ _ _ _ ev1 (ev2 ++ ev3) [] md); try done;
      [by apply calm_app; [apply fetches_calm|]|by rewrite H3, H2, H1, app_nil_r, !app_assoc]. }
  apply bind_run in Hr as [(y & Hb & ->)|(s5 & pending & Hb & Hr)].
  { apply burn_after_read_Err in Hb as ->.
    apply (trace_joined _ _ _ _ _ ev1 (ev2 ++ ev3) [] md); try done;
      [by apply calm_app; [apply fetches_calm|]|by rewrite H3, H2, H1, app_nil_r, !app_assoc]. }
  apply burn_after_read_adds in Hb as (ev4 & H4 & Hm4). injection Hr as <- <-.
  apply (trace_joined _ _ _ _ _ ev1 (ev2 ++ ev3) ev4 md); try done;
    [by apply calm_app; [apply fetches_calm|]|by rewrite H4, H3, H2, H1, !app_assoc|].
  apply orb_false_iff in Ei as [Ei1 Ei2]. apply negb_false_iff in Ei1, Ei2. bool_prop.
  exists md, env, master, m, join, item. split_and!; try done.
  - destruct (encrypted_manifest md) as [t|]; [|done]. cbn in E4. injection E4 as ->. cbn. by rewrite E5.
  - exists data. destruct (from_utf8 data); [|done]. cbn in Hu. injection Hu as ->. done.
Qed.
End safety.

(** ** Concrete notes *)

Module Example_notes.
Notation link_of := link.
Import Example_crypto Example_json Opening.Example_opening.

#[export] Instance codec_laws : @CodecLaws codec := Example_codec.codec_laws.
#[export] Existing Instance Address.Example_address.web.
#[export] Existing Instance Address.Example_address.web_laws.

(** The instance, and the transfer whose page it has. *)
Definition here : Address.Url := {| Address.Example_address.on_page := false; Address.Example_address.mark := None |}.
Notation ulid := Address.Example_address.ulid.

Lemma sha256_lower l : lower_hex (sha256_hex l) = true.
Proof.
  change (sha256_hex l) with (of_bytes (replicate 63 48 ++ [48 + (zlen l mod 10)])).
  unfold lower_hex. pose proof (Z.mod_pos_bound (zlen l) 10). set (d := zlen l mod 10) in *.
  rewrite bytes_of_bytes.
  2: { apply Forall_app. split; [by repeat constructor|]. repeat constructor; unfold u8_max; lia. }
  apply forallb_forall. intros b [Hb|[<-|[]]]%in_app_or.
  - apply list_elem_of_In, elem_of_replicate in Hb as [-> _]. done.
  - unfold is_ascii_hexdigit, is_ascii_digit, is_ascii_uppercase.
    rewrite (proj2 (Z.leb_le 48 _)), (proj2 (Z.leb_le _ 57)), (proj2 (Z.leb_gt 65 _)) by lia. done.
Qed.

Definition body_of (j : json) : result string Response :=
  Ok {| status := 200; content_length := None; content := Ok (to_vec (JObj [("data", j)])) |}.

Definition creation (driver : string) : CreateEnv :=
  {| session_reply := Ok (); consent_reply := Ok ();
     policy_reply := body_of (JObj [("chunk_bytes", JNum 4)]);
     reserve_reply := body_of (JObj [("id", JStr ulid); ("share_url", JStr ("/" +:+ ulid)); ("upload_token", JStr "u");
       ("delete_token", JStr "d"); ("read_token", JStr "r"); ("join_token", JStr "j");
       ("chunk_bytes", JNum 4); ("driver", JStr driver);
       ("items", JArr [JObj [("id", JStr ulid2); ("position", JNum 0)]])]);
     fresh_key := Ok key32; fresh_salt := Ok prefix16; fresh_prefix := Ok prefix16;
     fresh_manifest_prefix := Ok prefix16; put_status := λ _, Ok 201; complete_status := Ok 200 |}.

Definition request : NoteCreate :=
  {| c_text := "hello world"; c_title := Some "greeting"; c_language := "plain"; c_password := None;
     c_burn := true; retention_hours := None |}.

Definition nothing : Sent := {| puts := []; published := None |}.
Notation made := (create here (creation "http") request nothing).

Definition envelope : string := default "" (published (fst made)).
Definition chunks : list (Z * list Z) := puts (fst made).

Definition metadata_json : json :=
  JObj [("id", JStr ulid); ("status", JStr "ready"); ("burn_on_read", JBool true);
        ("encrypted_manifest", JStr envelope); ("protocol_version", JNum 1); ("chunk_bytes", JNum 4);
        ("driver", JStr "http");
        ("items", JArr [JObj [("id", JStr ulid2); ("position", JNum 0); ("chunk_count", JNum 3)]])].

Definition reader (acknowledged : bool) (removal : result string Z) : ReadEnv :=
  {| read_reply := λ id, if (id =? ulid)%string then body_of metadata_json else Err "not found"; control := None; burn_acknowledged := acknowledged;
     chunk_reply := λ i, match snd <$> list_find (λ c, fst c = i) chunks with
                         | Some (_, c) => Ok {| status := 200; content_length := Some (zlen c); content := Ok c |}
                         | None => Err "not found"
                         end;
     session := Err ""; live_chunk := λ _ _, Err ""; report_reply := Ok (); header_value := λ _, true;
     consume_status := removal |}.

Definition fresh_reader : Reader := {| events := []; burned := ∅ |}.

Definition shared : string := Address.Example_address.front +:+ ulid +:+ "#k=v1." +:+ encode key32.

(** Reading the note removes it; a removal that fails leaves the text and the
    capability; without the acknowledgement nothing is fetched. *)
Example read_and_burned :
  (let '(s, r) := receive here (reader true (Ok 202)) shared None fresh_reader in
   (events s, (λ x, (o_text (note x), consumed (note x))) <$> r))
    = ([Fetched 0; Fetched 1; Fetched 2; Burned], Ok ("hello world", true)) ∧
  (let '(s, r) := receive here (reader true (Ok 500)) shared None fresh_reader in
   (events s, (λ x, (o_text (note x), b_read_token <$> pending_burn x)) <$> r))
    = ([Fetched 0; Fetched 1; Fetched 2; Burned], Ok ("hello world", Some "r")) ∧
  (let '(s, r) := receive here (reader false (Ok 202)) shared None fresh_reader in (events s, is_ok r))
    = ([], false) ∧
  link_of <$> snd made = Ok shared.
Proof. vm_compute. split_and!; reflexivity. Qed.

(** The envelope of an unprotected note has a null salt.  The note's own
    inspection reads no salt, but the link preview asks for a password. *)
Example preview_misreads_open_notes :
  password_required <$> inspect here (read_reply (reader true (Ok 202))) shared = Ok false ∧
  Address.preview_password_required (Some envelope) = true.
Proof. vm_compute. split; reflexivity. Qed.

Notation outcome := (receive here (reader true (Ok 202)) shared None fresh_reader).

Lemma receive_safe_witness :
  trace_ok here (reader true (Ok 202)) shared fresh_reader (fst outcome) (snd outcome).
Proof. exact (receive_safe _ _ _ _ _ _ _ (surjective_pairing outcome)). Defined.

Definition created : CreatedNote :=
  match snd made with Ok c => c | Err _ => Build_CreatedNote "" "" "" end.
Definition described : NoteMetadata := match read (body_of metadata_json) with
  | Ok m => m
  | Err _ => {| m_id := ""; m_status := ""; burn_on_read := false; encrypted_manifest := None;
                protocol_version := 0; chunk_bytes := 0; driver := ""; m_items := [] |}
  end.

Lemma made_ok : created_by here HttpNote (creation "http") false request nothing = (fst made, Ok created).
Proof. rewrite (surjective_pairing (created_by _ _ _ _ _ _)). cbn [created_by]. apply f_equal. vm_compute. reflexivity. Qed.

Lemma creation_fresh : fresh_ok (creation "http").
Proof.
  assert (H : sixteen prefix16) by (split; [reflexivity|by repeat constructor]).
  split; [|intros p [= <-]; try exact H..].
  - intros k [= <-]. split; [by repeat constructor|by vm_compute].
  - apply H.
Qed.

Lemma request_utf8 : utf8 (c_text request).
Proof.
  exists [104; 101; 108; 108; 111; 32; 119; 111; 114; 108; 100].
  split; [unfold is_scalar; repeat (constructor; [lia|]); constructor|reflexivity].
Qed.

(** The reader is served what was put. *)
Lemma reader_serves : serves (reader true (Ok 202)) false chunks.
Proof.
  intros i c Hin. cbn. assert (H : snd <$> list_find (λ x, fst x = i) chunks = Some (i, c)).
  { revert Hin. generalize (eq_refl : fmap (M:=list) fst chunks = [0; 1; 2]). generalize chunks. intros l.
    destruct l as [|[i0 c0] [|[i1 c1] [|[i2 c2] [|]]]]; try done. intros [= -> -> ->].
    rewrite !elem_of_cons. intros [[= -> ->]|[[= -> ->]|[[= -> ->]|[]%elem_of_nil]]]; done. }
  rewrite H. eexists. split_and!; [reflexivity|done|done|by right].
Qed.

Definition reserved : Reservation :=
  Build_Reservation ulid ("/" +:+ ulid) "u" "d" (Some "r") (Some "j") 4 "http" [Build_ReservedItem ulid2 0].

Lemma described_ok : read (body_of metadata_json) = Ok described.
Proof. vm_compute. reflexivity. Qed.

Lemma reader_ready env : published (fst made) = Some env →
  ready here here (reader true (Ok 202)) HttpNote request reserved (Build_ReservedItem ulid2 0) 3 env chunks described.
Proof.
  intros He. assert (Hd : encrypted_manifest described = published (fst made)) by (vm_compute; reflexivity).
  split.
  - exists {| Address.Example_address.on_page := true; Address.Example_address.mark := None |}.
    split_and!; [vm_compute; reflexivity|split; vm_compute; reflexivity|vm_compute; reflexivity..].
  - by vm_compute.
  - exact described_ok.
  - vm_compute. reflexivity.
  - rewrite Hd. exact He.
  - vm_compute. reflexivity.
  - vm_compute. reflexivity.
  - split; vm_compute; reflexivity.
  - exact reader_serves.
  - reflexivity.
  - vm_compute. discriminate.
  - intros _. split; [reflexivity|by exists "r"].
  - discriminate.
Qed.

Lemma note_opens_witness :
  ∃ st received, receive here (reader true (Ok 202)) (link_of created) None fresh_reader = (st, Ok received) ∧
    o_text (note received) = "hello world" ∧
    burn_outcome (reader true (Ok 202)) HttpNote reserved true fresh_reader received.
Proof.
  destruct (note_opens (Jl := text_laws) sha256_lower here HttpNote (creation "http") false request nothing (fst made) created
    made_ok eq_refl creation_fresh request_utf8)
    as (reservation & item & count & envelope & (Hc & policy & Hp & Hr) & He & Ho).
  vm_compute in Hp. injection Hp as <-. vm_compute in Hr. injection Hr as <- <-.
  vm_compute in Hc. injection Hc as <-.
  destruct (Ho here _ _ fresh_reader (reader_ready _ He)) as (st & received & H & _ & Ht & _ & _ & Hb).
  assert (E : burn_on_read described = true) by (vm_compute; reflexivity). rewrite E in Hb.
  exists st, received. exact (conj H (conj Ht Hb)).
Defined.
End Example_notes.
