(* ===== verification/Config.v ===== *)
(** * Configuration (crates/client-config/src/lib.rs)

    The clients share one document, [config.toml], in their home directory.
    They load it (creating it, or migrating its flat keys, the first time), save
    the settings they changed since they loaded it, and update it in place; each
    of the three holds the document's lock.  TOML's text and URLs are
    parameters. *)

From Stdlib Require Import Ascii String.
From S2P Require Import Prelude Str Monad.
From S2P Require Ice Json.
Open Scope Z_scope.

Definition DEFAULT_MEMORY_LIMIT_MIB : Z := 512.
Definition MIN_MEMORY_LIMIT_MIB : Z := 64.
Definition MAX_MEMORY_LIMIT_MIB : Z := 4096.
Definition MAX_CONCURRENCY : Z := 64.
Definition SCHEMA_VERSION : Z := 1.

(** ** The settings *)

Inductive IceSource := FromServer | FromMerge | FromReplace.
Inductive Theme := System | Light | Dark.

Record Server := { server_url : string }.
Record Updates := { auto_update : bool; channel : string }.
Record Transfers := { memory_limit_mib : Z; max_concurrency : option Z }.
Record IceServer := { ice_url : string; ice_credential_ref : option string }.
Record WebRtc := { relay_only : bool; ice_source : IceSource; ice_servers : list IceServer }.
Record Appearance := { theme : Theme; reduced_motion : bool }.
Record Cli := { no_color : bool }.
Record Desktop := { notifications : bool; background_transfers : bool }.

Record Settings := {
  server : Server; updates : Updates; transfers : Transfers; webrtc : WebRtc;
  appearance : Appearance; cli : Cli; desktop : Desktop }.

(** The settings of a [Config] are its fields; [baseline] is what it was read as. *)
Record Config := { home : string; settings : Settings; baseline : option Settings }.

#[export] Instance IceSource_eq_dec : EqDecision IceSource.
Proof. solve_decision. Defined.
#[export] Instance Theme_eq_dec : EqDecision Theme.
Proof. solve_decision. Defined.
#[export] Instance Server_eq_dec : EqDecision Server.
Proof. solve_decision. Defined.
#[export] Instance Updates_eq_dec : EqDecision Updates.
Proof. solve_decision. Defined.
#[export] Instance IceServer_eq_dec : EqDecision IceServer.
Proof. solve_decision. Defined.
#[export] Instance WebRtc_eq_dec : EqDecision WebRtc.
Proof. solve_decision. Defined.
#[export] Instance Appearance_eq_dec : EqDecision Appearance.
Proof. solve_decision. Defined.
#[export] Instance Cli_eq_dec : EqDecision Cli.
Proof. solve_decision. Defined.
#[export] Instance Desktop_eq_dec : EqDecision Desktop.
Proof. solve_decision. Defined.

Definition default_settings : Settings :=
  {| server := {| server_url := "https://filebeam.io" |};
     updates := {| auto_update := true; channel := "stable" |};
     transfers := {| memory_limit_mib := DEFAULT_MEMORY_LIMIT_MIB; max_concurrency := None |};
     webrtc := {| relay_only := false; ice_source := FromServer; ice_servers := [] |};
     appearance := {| theme := System; reduced_motion := false |};
     cli := {| no_color := false |};
     desktop := {| notifications := false; background_transfers := true |} |}.

(** ** Documents

    A parsed document as far as the configuration looks into it: what is deeper
    is opaque, and kept.  Comments and the order of the keys are the printer's. *)

Inductive value := VBool (b : bool) | VInt (n : Z) | VStr (s : string) | VOther (raw : string).
(** An item of a table of [webrtc.ice_servers], of a top-level table, of the document. *)
Inductive leaf := LValue (v : value) | LOther (raw : string).
Inductive field := FValue (v : value) | FTables (l : list (gmap string leaf)) | FOther (raw : string).
Inductive entry := EValue (v : value) | ETable (t : gmap string field) | EOther (raw : string).
Notation document := (gmap string entry).

(** toml_edit's parser and printer, and the url crate. *)
Class Toml := { toml_parse : string → option document; toml_print : document → string }.

(** The parts of a URL the configuration reads; [url_text] is its [to_string()]
    once the path is set to "". *)
Class Urls := {
  Url : Type;
  url_parse : string → option Url;
  url_scheme : Url → string;
  url_host : Url → option string;
  url_username : Url → string;
  url_password : Url → option string;
  url_query : Url → option string;
  url_fragment : Url → option string;
  url_text : Url → string }.

Definition as_bool (v : value) : option bool := match v with VBool b => Some b | _ => None end.
Definition as_integer (v : value) : option Z := match v with VInt n => Some n | _ => None end.
Definition as_string (v : value) : option string := match v with VStr s => Some s | _ => None end.

(** [Item::as_value] *)
Definition leaf_value (l : leaf) : option value := match l with LValue v => Some v | _ => None end.
Definition field_value (f : field) : option value := match f with FValue v => Some v | _ => None end.
Definition entry_value (e : entry) : option value := match e with EValue v => Some v | _ => None end.

Definition table_at (d : document) (name : string) : result string (option (gmap string field)) :=
  match d !! name with
  | None => Ok None
  | Some (ETable t) => Ok (Some t)
  | Some _ => Err (name +:+ " must be a table")
  end.

(** [string_at], [bool_at] and [integer_at] *)
Definition value_at {A} (as_type : value → option A) (d : document) (table key : string)
    : result string (option A) :=
  t ← table_at d table;
  match t ≫= lookup key with
  | None => Ok None
  | Some i => a ← ok_or (field_value i ≫= as_type) ("invalid " +:+ table +:+ "." +:+ key); Ok (Some a)
  end.
Definition string_at := value_at as_string.
Definition bool_at := value_at as_bool.
Definition integer_at := value_at as_integer.

Definition parse_ice_source (v : string) : result string IceSource :=
  if (v =? "server")%string then Ok FromServer
  else if (v =? "merge")%string then Ok FromMerge
  else if (v =? "replace")%string then Ok FromReplace
  else Err "webrtc.ice_source must be server, merge, or replace".
Definition ice_source_name (v : IceSource) : string :=
  match v with FromServer => "server" | FromMerge => "merge" | FromReplace => "replace" end.
Definition parse_theme (v : string) : result string Theme :=
  if (v =? "system")%string then Ok System
  else if (v =? "light")%string then Ok Light
  else if (v =? "dark")%string then Ok Dark
  else Err "appearance.theme must be system, light, or dark".
Definition theme_name (v : Theme) : string :=
  match v with System => "system" | Light => "light" | Dark => "dark" end.

(** [u64::try_from] and [u32::try_from] of an [i64]. *)
Definition to_u64 (n : Z) : option Z := if 0 <=? n then Some n else None.
Definition to_u32 (n : Z) : option Z := if (0 <=? n) && (n <=? u32_max) then Some n else None.
(** [x as i64] *)
Definition as_i64 (x : Z) : Z := if x <=? 9223372036854775807 then x else x - 18446744073709551616.

(** The text of [config.toml] in each home directory. *)
Notation Files := (gmap string string).

Section config.
Context `{Toml, Urls}.

(** ** Checking *)

Definition not_an_origin (url : Url) : bool :=
  negb (bool_decide (url_scheme url ∈ ["http"; "https"])) || bool_decide (url_host url = None)
  || negb (is_empty (url_username url)) || bool_decide (is_Some (url_password url))
  || bool_decide (is_Some (url_query url)) || bool_decide (is_Some (url_fragment url)).

Definition normalize_server_url (text : string) : result string string :=
  url ← ok_or (url_parse text) "server.url is invalid";
  reject not_an_origin url
    with "server.url must be an HTTP(S) origin without credentials, query, or fragment";
  Ok (trim_end_matches (Z.eqb (ch "/")) (url_text url)).

Definition validate_server_url (text : string) : result string () :=
  _ ← normalize_server_url text; Ok ().

(** [IceServer::validate] *)
Definition validate_ice (s : IceServer) : result string () :=
  '(scheme, authority) ← ok_or (split_once ":" (ice_url s)) "webrtc ICE server URL is invalid";
  reject negb (bool_decide (scheme ∈ Ice.ice_schemes)) || bool_decide (Ice.host_of authority = [])
    with "webrtc ICE server URL must use stun, stuns, turn, or turns with a host";
  reject match ice_credential_ref s with
         | Some reference => is_empty (trim reference) || negb (bool_decide (no_char "013" reference))
                             || negb (bool_decide (no_char "010" reference))
         | None => false
         end
    with "webrtc ICE credential_ref must not be empty";
  reject bool_decide (scheme ∈ Ice.turn_schemes) && bool_decide (ice_credential_ref s = None)
    with "TURN ICE servers require credential_ref";
  Ok ().

(** [Config::validate] *)
Definition validate (s : Settings) : result string () :=
  _ ← validate_server_url (server_url (server s));
  reject negb (channel (updates s) =? "stable")%string with "updates.channel must be stable";
  reject from_option (λ n, (n =? 0) || (MAX_CONCURRENCY <? n)) false (max_concurrency (transfers s))
    with "transfers.max_concurrency must be between 1 and 64";
  reject negb ((MIN_MEMORY_LIMIT_MIB <=? memory_limit_mib (transfers s))
               && (memory_limit_mib (transfers s) <=? MAX_MEMORY_LIMIT_MIB))
    with "transfers.memory_limit_mib must be between 64 and 4096";
  try_fold (λ _ i, validate_ice i) () (ice_servers (webrtc s)).

(** ** Reading a document *)

Definition schema_of (d : document) : result string (option Z) :=
  match d !! "schema_version" with
  | Some item => n ← ok_or (entry_value item ≫= as_integer) "schema_version must be an integer"; Ok (Some n)
  | None => Ok None
  end.

(** A flat key of the first documents, and the value it replaces. *)
Definition legacy {A} (as_type : value → option A) (d : document) (name : string) (old : A)
    : result string A :=
  match d !! name with
  | Some item => ok_or (entry_value item ≫= as_type) ("invalid " +:+ name)
  | None => Ok old
  end.

Definition legacy_integer (conv : Z → option Z) (d : document) (name : string) : result string (option Z) :=
  match d !! name with
  | Some item =>
      n ← ok_or (entry_value item ≫= as_integer) ("invalid " +:+ name);
      n ← ok_or (conv n) (name +:+ " is out of range");
      Ok (Some n)
  | None => Ok None
  end.

(** The flat keys, read only from a document without a schema version. *)
Definition legacy_settings (d : document) (s : Settings) : result string Settings :=
  no_color ← legacy as_bool d "no_color" (no_color (cli s));
  reduced ← legacy as_bool d "reduced_motion" (reduced_motion (appearance s));
  relay ← legacy as_bool d "webrtc_relay_only" (relay_only (webrtc s));
  auto ← legacy as_bool d "check_updates" (auto_update (updates s));
  max ← legacy_integer to_u32 d "max_concurrency";
  memory ← legacy_integer to_u64 d "memory_limit_mib";
  Ok {| server := server s;
        updates := {| auto_update := auto; channel := channel (updates s) |};
        transfers := {| memory_limit_mib := default (memory_limit_mib (transfers s)) memory;
                        max_concurrency := match max with Some n => Some n
                                           | None => max_concurrency (transfers s) end |};
        webrtc := {| relay_only := relay; ice_source := ice_source (webrtc s);
                     ice_servers := ice_servers (webrtc s) |};
        appearance := {| theme := theme (appearance s); reduced_motion := reduced |};
        cli := {| no_color := no_color |};
        desktop := desktop s |}.

(** A nested value that is present, parsed. *)
Definition parsed {A B} (read : result string (option A)) (parse : A → result string B) (old : B)
    : result string B :=
  v ← read;
  match v with Some v => parse v | None => Ok old end.

Definition ranged (conv : Z → option Z) (message : string) (n : Z) : result string Z :=
  ok_or (conv n) message.

Definition leaf_string (t : gmap string leaf) (key : string) : option string :=
  l ← t !! key; v ← leaf_value l; as_string v.

(** One table of [webrtc.ice_servers]. *)
Definition ice_server_of (t : gmap string leaf) : result string IceServer :=
  reject bool_decide (is_Some (t !! "username")) || bool_decide (is_Some (t !! "credential"))
         || bool_decide (is_Some (t !! "urls"))
    with "webrtc ICE credentials must use credential_ref only";
  url ← ok_or (leaf_string t "url") "webrtc.ice_servers.url is required";
  reference ← match t !! "credential_ref" with
              | None => Ok None
              | Some _ =>
                  r ← ok_or (leaf_string t "credential_ref")
                        "webrtc.ice_servers.credential_ref must be a string";
                  Ok (Some r)
              end;
  Ok {| ice_url := url; ice_credential_ref := reference |}.

Definition ice_servers_at (d : document) (old : list IceServer) : result string (list IceServer) :=
  t ← table_at d "webrtc";
  match t ≫= lookup "ice_servers" with
  | None => Ok old
  | Some (FTables l) => try_fold (λ acc t, s ← ice_server_of t; Ok (acc ++ [s])) [] l
  | Some _ => Err "webrtc.ice_servers must be an array of tables"
  end.

(** The nested tables; a value that is present wins. *)
Definition nested_settings (d : document) (s : Settings) : result string Settings :=
  url ← parsed (string_at d "server" "url") normalize_server_url (server_url (server s));
  auto ← parsed (bool_at d "updates" "auto_update") Ok (auto_update (updates s));
  channel ← parsed (string_at d "updates" "channel") Ok (channel (updates s));
  memory ← parsed (integer_at d "transfers" "memory_limit_mib")
             (ranged to_u64 "transfers.memory_limit_mib is out of range") (memory_limit_mib (transfers s));
  max ← parsed (integer_at d "transfers" "max_concurrency")
          (λ n, Some <$> ranged to_u32 "transfers.max_concurrency is out of range" n)
          (max_concurrency (transfers s));
  relay ← parsed (bool_at d "webrtc" "relay_only") Ok (relay_only (webrtc s));
  source ← parsed (string_at d "webrtc" "ice_source") parse_ice_source (ice_source (webrtc s));
  reduced ← parsed (bool_at d "appearance" "reduced_motion") Ok (reduced_motion (appearance s));
  theme ← parsed (string_at d "appearance" "theme") parse_theme (theme (appearance s));
  no_color ← parsed (bool_at d "cli" "no_color") Ok (no_color (cli s));
  notify ← parsed (bool_at d "desktop" "notifications") Ok (notifications (desktop s));
  background ← parsed (bool_at d "desktop" "background_transfers") Ok (background_transfers (desktop s));
  servers ← ice_servers_at d (ice_servers (webrtc s));
  Ok {| server := {| server_url := url |};
        updates := {| auto_update := auto; channel := channel |};
        transfers := {| memory_limit_mib := memory; max_concurrency := max |};
        webrtc := {| relay_only := relay; ice_source := source; ice_servers := servers |};
        appearance := {| theme := theme; reduced_motion := reduced |};
        cli := {| no_color := no_color |};
        desktop := {| notifications := notify; background_transfers := background |} |}.

(** The configuration of a document, and whether it has to be migrated. *)
Definition from_document (d : document) (home : string) : result string (Config * bool) :=
  schema ← schema_of d;
  reject from_option (λ v, negb (v =? SCHEMA_VERSION)) false schema
    with "unsupported config schema_version";
  let flat := bool_decide (schema = None) in
  s ← (if flat then legacy_settings d default_settings else Ok default_settings);
  s ← nested_settings d s;
  Ok ({| home := home; settings := s; baseline := Some s |}, flat).

(** ** Writing a document

    Indexing an entry that is not a table is a panic, [None] here; a document
    [from_document] accepts has none. *)

Definition edit_table (d : document) (name : string)
    (f : gmap string field → gmap string field) : option document :=
  match d !! name with
  | None => Some (<[name := ETable (f ∅)]> d)
  | Some (ETable t) => Some (<[name := ETable (f t)]> d)
  | Some _ => None
  end.

Definition ice_table (s : IceServer) : gmap string leaf :=
  let t := <["url" := LValue (VStr (ice_url s))]> ∅ in
  match ice_credential_ref s with
  | Some r => <["credential_ref" := LValue (VStr r)]> t
  | None => t
  end.

Definition apply_config (d : document) (s : Settings) : option document :=
  let d := <["schema_version" := EValue (VInt SCHEMA_VERSION)]> d in
  d ← edit_table d "server" (λ t, <["url" := FValue (VStr (server_url (server s)))]> t);
  d ← edit_table d "updates" (λ t,
        <["channel" := FValue (VStr (channel (updates s)))]>
        (<["auto_update" := FValue (VBool (auto_update (updates s)))]> t));
  d ← edit_table d "transfers" (λ t,
        let t := <["memory_limit_mib" := FValue (VInt (as_i64 (memory_limit_mib (transfers s))))]> t in
        match max_concurrency (transfers s) with
        | Some max => <["max_concurrency" := FValue (VInt max)]> t
        | None => delete "max_concurrency" t
        end);
  d ← edit_table d "webrtc" (λ t,
        <["ice_servers" := FTables (ice_table <$> ice_servers (webrtc s))]>
        (<["ice_source" := FValue (VStr (ice_source_name (ice_source (webrtc s))))]>
        (<["relay_only" := FValue (VBool (relay_only (webrtc s)))]> t)));
  d ← edit_table d "appearance" (λ t,
        <["reduced_motion" := FValue (VBool (reduced_motion (appearance s)))]>
        (<["theme" := FValue (VStr (theme_name (theme (appearance s))))]> t));
  d ← edit_table d "cli" (λ t, <["no_color" := FValue (VBool (no_color (cli s)))]> t);
  edit_table d "desktop" (λ t,
    <["background_transfers" := FValue (VBool (background_transfers (desktop s)))]>
    (<["notifications" := FValue (VBool (notifications (desktop s)))]> t)).

(** [apply_changes_from]: the settings that [changed] changed from [baseline]. *)
Definition newer {A} `{EqDecision A} (current changed baseline : A) : A :=
  if bool_decide (changed = baseline) then current else changed.

Definition apply_changes_from (current changed baseline : Settings) : Settings :=
  {| server := newer (server current) (server changed) (server baseline);
     updates := newer (updates current) (updates changed) (updates baseline);
     transfers :=
       {| memory_limit_mib := newer (memory_limit_mib (transfers current))
            (memory_limit_mib (transfers changed)) (memory_limit_mib (transfers baseline));
          max_concurrency := newer (max_concurrency (transfers current))
            (max_concurrency (transfers changed)) (max_concurrency (transfers baseline)) |};
     webrtc := newer (webrtc current) (webrtc changed) (webrtc baseline);
     appearance := newer (appearance current) (appearance changed) (appearance baseline);
     cli := newer (cli current) (cli changed) (cli baseline);
     desktop := newer (desktop current) (desktop changed) (desktop baseline) |}.

(** [Config::native_ice_override]; the host attaches its [resolver]. *)
Definition native_ice_override (s : Settings) (resolver : option Ice.Resolver) : Ice.IceOverride :=
  {| Ice.source := match ice_source (webrtc s) with
                   | FromServer => Ice.Server
                   | FromMerge => Ice.Merge
                   | FromReplace => Ice.Replace
                   end;
     Ice.servers := (λ i, {| Ice.url := ice_url i; Ice.credential_ref := ice_credential_ref i |})
                      <$> ice_servers (webrtc s);
     Ice.resolver := resolver |}.

(** ** Files *)

(** What the environment gives a call: the home directory and the lock, whether
    the text can be read, and how the atomic replacement of it ends. *)
Record Env := { ready : result string (); readable : result string (); replaced : Io }.

Record Vars := {
  FILEBEAM_HOME : option string; FILEBEAM_INSTANCE : option string; home_dir : option string }.

(** [Path::join] of a relative name. *)
Definition path_join (p name : string) : string :=
  if is_empty p || ends_with "/" p then p +:+ name else p +:+ "/" +:+ name.

Definition nonempty (v : option string) : option string :=
  match v with Some v => if is_empty v then None else Some v | None => None end.

Definition default_home (v : Vars) : string :=
  match (match nonempty (FILEBEAM_HOME v) with Some p => Some p | None => home_dir v end) with
  | Some p => path_join p ".filebeam"
  | None => ".filebeam"
  end.

Definition with_server_url (s : Settings) (url : string) : Settings :=
  {| server := {| server_url := url |}; updates := updates s; transfers := transfers s;
     webrtc := webrtc s; appearance := appearance s; cli := cli s; desktop := desktop s |}.

(** [import_legacy_instance] *)
Definition import_legacy_instance (c : Config) (d : document) (instance : option string)
    : result string Config :=
  if bool_decide (d !! "schema_version" = None) then
    url ← string_at d "server" "url";
    match url, nonempty instance with
    | None, Some instance =>
        url ← normalize_server_url instance;
        let s := with_server_url (settings c) url in
        Ok {| home := home c; settings := s; baseline := Some s |}
    | _, _ => Ok c
    end
  else Ok c.

Notation F := (SE Files string).

(** [atomic_write] *)
Definition atomic_write (e : Env) (home text : string) : F () :=
  λ fs, let '(r, fs') := io_write (replaced e) <[home := text]> fs in (fs', r).

Definition write_config (e : Env) (home : string) (d : document) (s : Settings) : F () :=
  d ← of_result (ok_or (apply_config d s) "panicked");
  atomic_write e home (toml_print d).

(** The document at [home], a new one when there is none. *)
Definition read_config (e : Env) (home : string) : F document :=
  content ← get (λ fs, fs !! home);
  match content with
  | Some source => _ ← of_result (readable e); of_result (ok_or (toml_parse source) "parse config.toml")
  | None => mret ∅
  end.

(** The home of a load: the given one, else the legacy one, else the default. *)
Definition load_home (v : Vars) (home0 legacy_home : option string) : string :=
  match home0, legacy_home with
  | Some h, _ => h
  | None, Some p => path_join p ".filebeam"
  | None, None => default_home v
  end.

(** [load_with_legacy_settings] *)
Definition load_with_legacy_settings (v : Vars) (e : Env) (home0 legacy_instance legacy_home : option string)
    : F Config :=
  let home := load_home v home0 legacy_home in
  _ ← of_result (ready e);
  exists_ ← get (λ fs, bool_decide (is_Some (fs !! home)));
  if negb (exists_ : bool) then
    s ← of_result (match nonempty legacy_instance with
                   | Some url => u ← normalize_server_url url; Ok (with_server_url default_settings u)
                   | None => Ok default_settings
                   end);
    _ ← of_result (validate s);
    _ ← write_config e home ∅ s;
    mret {| home := home; settings := s; baseline := None |}
  else
    d ← read_config e home;
    '(c, migrated) ← of_result (from_document d home);
    c ← of_result (import_legacy_instance c d legacy_instance);
    _ ← of_result (validate (settings c));
    _ ← (if migrated : bool then write_config e home d (settings c) else mret ());
    mret c.

(** [Config::load] *)
Definition load (v : Vars) (e : Env) (home : option string) : F Config :=
  let legacy_home := match home with None => FILEBEAM_HOME v | Some _ => None end in
  load_with_legacy_settings v e home (FILEBEAM_INSTANCE v) legacy_home.

(** What a save writes over the current settings. *)
Definition to_save (current : Settings) (c : Config) : Settings :=
  match baseline c with
  | Some b => apply_changes_from current (settings c) b
  | None => settings c
  end.

(** [Config::save] *)
Definition save (e : Env) (c : Config) : F () :=
  _ ← of_result (validate (settings c));
  _ ← of_result (ready e);
  d ← read_config e (home c);
  '(current, _) ← of_result (from_document d (home c));
  write_config e (home c) d (to_save (settings current) c).

(** [Config::update]; [change] is the caller's. *)
Definition update (v : Vars) (e : Env) (home0 : option string) (change : Settings → Settings)
    : F Config :=
  let home := default (default_home v) home0 in
  _ ← of_result (ready e);
  d ← read_config e home;
  '(c, _) ← of_result (from_document d home);
  let s := change (settings c) in
  _ ← of_result (validate s);
  _ ← write_config e home d s;
  mret {| home := home; settings := s; baseline := baseline c |}.
End config.

(** ** What is written reads back *)

(** What is printed parses to the same document; the default server is an origin;
    and an origin's text, without its final slash, is the URL of that origin. *)
Class TomlLaws `{Toml} := { parse_print d : toml_parse (toml_print d) = Some d }.
Class UrlLaws `{Urls} := {
  default_url : normalize_server_url "https://filebeam.io" = Ok "https://filebeam.io";
  origin_reparses u : not_an_origin u = false →
    ∃ u', url_parse (trim_end_matches (Z.eqb (ch "/")) (url_text u)) = Some u' ∧
      not_an_origin u' = false ∧ url_text u' = url_text u }.

(** Values that their Rust types can have. *)
Definition typed (s : Settings) : Prop :=
  0 ≤ memory_limit_mib (transfers s) ∧
  from_option is_u32 True (max_concurrency (transfers s)).

(** The next computation of a successful read. *)
Ltac next_ok Hr :=
  match type of Hr with
  | (?m ≫= ?f) = Ok _ =>
      let x := fresh "x" in let E := fresh "E" in
      destruct m as [x|] eqn:E; [cbn [mbind result_bind] in Hr|discriminate Hr]
  end.

Section reading.
Context `{Toml, Urls}.

Lemma edit_table_Some d name f d' :
  edit_table d name f = Some d' →
  ∃ t, d' = <[name := ETable (f t)]> d ∧ (d !! name = None ∧ t = ∅ ∨ d !! name = Some (ETable t)).
Proof.
  unfold edit_table. destruct (d !! name) as [[| |]|] eqn:E; intros [= <-]; eauto 6.
Qed.

Lemma value_at_insert {A} (as_type : value → option A) d name key t :
  value_at as_type (<[name := ETable t]> d) name key
  = match t !! key with
    | None => Ok None
    | Some i => a ← ok_or (field_value i ≫= as_type) ("invalid " +:+ name +:+ "." +:+ key); Ok (Some a)
    end.
Proof. unfold value_at, table_at. by rewrite lookup_insert_eq. Qed.

Lemma value_at_insert_ne {A} (as_type : value → option A) d name name' key x :
  name' ≠ name → value_at as_type (<[name' := x]> d) name key = value_at as_type d name key.
Proof. intros Hn. unfold value_at, table_at. by rewrite lookup_insert_ne. Qed.

Lemma ice_servers_at_insert d t old : ice_servers_at (<["webrtc" := ETable t]> d) old
  = match t !! "ice_servers" with
    | None => Ok old
    | Some (FTables l) => try_fold (λ acc t, s ← ice_server_of t; Ok (acc ++ [s])) [] l
    | Some _ => Err "webrtc.ice_servers must be an array of tables"
    end.
Proof. unfold ice_servers_at, table_at. by rewrite lookup_insert_eq. Qed.

Lemma ice_servers_at_insert_ne d name x old :
  name ≠ "webrtc" → ice_servers_at (<[name := x]> d) old = ice_servers_at d old.
Proof. intros Hn. unfold ice_servers_at, table_at. by rewrite lookup_insert_ne. Qed.

Lemma ice_server_of_table s : ice_server_of (ice_table s) = Ok s.
Proof. destruct s as [u [r|]]; reflexivity. Qed.

Lemma ice_tables_read l acc :
  try_fold (λ acc t, s ← ice_server_of t; Ok (acc ++ [s])) acc (ice_table <$> l)
    = (Ok (acc ++ l) : result string (list IceServer)).
Proof.
  revert acc. induction l as [|s l IH]; intros acc; cbn [fmap list_fmap try_fold].
  { by rewrite app_nil_r. }
  rewrite ice_server_of_table. cbn [mbind result_bind]. by rewrite IH, <- app_assoc.
Qed.

Lemma parse_ice_source_name v : parse_ice_source (ice_source_name v) = Ok v.
Proof. by destruct v. Qed.
Lemma parse_theme_name v : parse_theme (theme_name v) = Ok v.
Proof. by destruct v. Qed.

(** The settings a document written with [s] reads as: the URL is normalized. *)
Definition normalized (s : Settings) : Settings :=
  with_server_url s (default (server_url (server s)) (res_opt (normalize_server_url (server_url (server s))))).

(** The fields of a validated configuration are in range. *)
Lemma config_validate_Ok s :
  validate s = Ok () ↔
  is_ok (normalize_server_url (server_url (server s))) = true ∧ channel (updates s) = "stable" ∧
  from_option (λ n, n ≠ 0 ∧ n ≤ MAX_CONCURRENCY) True (max_concurrency (transfers s)) ∧
  MIN_MEMORY_LIMIT_MIB ≤ memory_limit_mib (transfers s) ≤ MAX_MEMORY_LIMIT_MIB ∧
  Forall (λ i, validate_ice i = Ok ()) (ice_servers (webrtc s)).
Proof.
  unfold validate, validate_server_url, mbind, result_bind.
  destruct (normalize_server_url _) as [u|] eqn:Eu; [|by split; [|intros ([=] & _)]].
  destruct (negb _) eqn:Ec; bool_prop.
  { split; [done|]. by intros (_ & ? & _). }
  assert (Hice : try_fold (λ _ i, validate_ice i) () (ice_servers (webrtc s)) = Ok () ↔
    Forall (λ i, validate_ice i = Ok ()) (ice_servers (webrtc s))).
  { induction (ice_servers (webrtc s)) as [|i l IH]; cbn; [by split|].
    rewrite Forall_cons, <- IH. destruct (validate_ice i) as [[]|]; naive_solver. }
  rewrite <- Hice. clear Hice. destruct (max_concurrency (transfers s)) as [n|]; cbn [from_option].
  - destruct ((n =? 0) || _) eqn:En; [split; [done|]; intros (_ & _ & ? & _); bool_cases; lia|].
    bool_prop. destruct (negb _) eqn:Em; bool_prop.
    + split; [done|]. intros (_ & _ & _ & ? & _). bool_cases; lia.
    + split; [intros ->|by intros (_ & _ & _ & _ & ->)]. bool_prop. by split_and!.
  - destruct (negb _) eqn:Em; bool_prop.
    + split; [done|]. intros (_ & _ & _ & ? & _). bool_cases; lia.
    + split; [intros ->|by intros (_ & _ & _ & _ & ->)]. bool_prop. by split_and!.
Qed.

(** The tables of a document, before and after it was written. *)
Lemma apply_config_Some d s d' :
  apply_config d s = Some d' → ∃ t1 t2 t3 t4 t5 t6 t7 : gmap string field, d' =
  <["desktop" := ETable (<["background_transfers" := FValue (VBool (background_transfers (desktop s)))]>
                        (<["notifications" := FValue (VBool (notifications (desktop s)))]> t7))]>
  (<["cli" := ETable (<["no_color" := FValue (VBool (no_color (cli s)))]> t6)]>
  (<["appearance" := ETable (<["reduced_motion" := FValue (VBool (reduced_motion (appearance s)))]>
                            (<["theme" := FValue (VStr (theme_name (theme (appearance s))))]> t5))]>
  (<["webrtc" := ETable (<["ice_servers" := FTables (ice_table <$> ice_servers (webrtc s))]>
                        (<["ice_source" := FValue (VStr (ice_source_name (ice_source (webrtc s))))]>
                        (<["relay_only" := FValue (VBool (relay_only (webrtc s)))]> t4)))]>
  (<["transfers" := ETable (
        let t := <["memory_limit_mib" := FValue (VInt (as_i64 (memory_limit_mib (transfers s))))]> t3 in
        match max_concurrency (transfers s) with
        | Some max => <["max_concurrency" := FValue (VInt max)]> t
        | None => delete "max_concurrency" t
        end)]>
  (<["updates" := ETable (<["channel" := FValue (VStr (channel (updates s)))]>
                         (<["auto_update" := FValue (VBool (auto_update (updates s)))]> t2))]>
  (<["server" := ETable (<["url" := FValue (VStr (server_url (server s)))]> t1)]>
  (<["schema_version" := EValue (VInt SCHEMA_VERSION)]> d))))))).
Proof.
  unfold apply_config. cbv zeta. intros Ha.
  repeat match type of Ha with
  | edit_table _ _ _ = Some _ => apply edit_table_Some in Ha as (t7 & -> & _)
  | (edit_table ?d ?n ?f ≫= _) = Some _ =>
      let E := fresh in let t := fresh "t" in
      destruct (edit_table d n f) eqn:E; [|discriminate Ha]; cbn [mbind option_bind] in Ha;
      apply edit_table_Some in E as (t & -> & _)
  end.
  by eexists _, _, _, _, _, _, _.
Qed.

(** The keys a configuration is written to. *)
Definition written : list (string * string) :=
  [("server", "url"); ("updates", "auto_update"); ("updates", "channel");
   ("transfers", "memory_limit_mib"); ("transfers", "max_concurrency");
   ("webrtc", "relay_only"); ("webrtc", "ice_source"); ("webrtc", "ice_servers");
   ("appearance", "theme"); ("appearance", "reduced_motion"); ("cli", "no_color");
   ("desktop", "notifications"); ("desktop", "background_transfers")].

(** Everything else in a document is kept. *)
Definition kept (d d' : document) : Prop :=
  (∀ name, name ≠ "schema_version" → name ∉ fst <$> written → d' !! name = d !! name) ∧
  ∀ name t key, d !! name = Some (ETable t) → (name, key) ∉ written → name ≠ "schema_version" →
    ∃ t', d' !! name = Some (ETable t') ∧ t' !! key = t !! key.

#[export] Instance kept_trans : Transitive kept.
Proof.
  intros d1 d2 d3 [H1 H2] [H3 H4]. split.
  - intros name Hn Hw. rewrite H3 by done. by apply H1.
  - intros name t key Ht Hw Hn. destruct (H2 _ _ _ Ht Hw Hn) as (t' & Ht' & <-). by apply H4.
Qed.

Lemma edit_table_kept d name f d' :
  edit_table d name f = Some d' → name ∈ fst <$> written →
  (∀ t key, (name, key) ∉ written → f t !! key = t !! key) → kept d d'.
Proof.
  intros (t & -> & Ht)%edit_table_Some Hn Hf. split.
  - intros m _ Hm. rewrite lookup_insert_ne; [done|]. by intros ->.
  - intros m u key Hu Hw Hs. destruct (decide (m = name)) as [->|Hne].
    + rewrite lookup_insert_eq. eexists. split; [done|]. rewrite Hf by done.
      destruct Ht as [[Ht _]|Ht]; rewrite Ht in Hu; [done|]. by injection Hu as ->.
    + rewrite lookup_insert_ne by done. eauto.
Qed.

(** A concrete key is one of them. *)
Ltac is_written := apply (bool_decide_eq_true_1 _); vm_compute; reflexivity.

Lemma apply_config_kept d s d' : apply_config d s = Some d' → kept d d'.
Proof.
  unfold apply_config. cbv zeta. intros Ha. transitivity (<["schema_version" := EValue (VInt SCHEMA_VERSION)]> d).
  { split; [intros name Hn _; by rewrite lookup_insert_ne|].
    intros name t key Ht _ Hn. rewrite lookup_insert_ne by done. eauto. }
  repeat match type of Ha with
  | edit_table _ _ _ = Some _ => apply edit_table_kept in Ha; [exact Ha|is_written|]
  | (edit_table ?d ?n ?f ≫= _) = Some _ =>
      let E := fresh "E" in
      destruct (edit_table d n f) eqn:E; [|discriminate Ha]; cbn [mbind option_bind] in Ha;
      apply edit_table_kept in E; [etransitivity; [exact E|clear E]|is_written|]
  end.
  all: intros t key Hw; try destruct (max_concurrency (transfers s)).
  all: repeat first
    [rewrite lookup_insert_ne by (intros <-; apply Hw; is_written)
    |rewrite lookup_delete_ne by (intros <-; apply Hw; is_written)]; done.
Qed.

(** Look a key up in the document above. *)
Ltac read_at :=
  unfold string_at, bool_at, integer_at;
  repeat (rewrite value_at_insert_ne by done); rewrite value_at_insert;
  repeat (rewrite lookup_insert_ne by done); rewrite lookup_insert_eq; reflexivity.

(** Rewrite the next read of a goal. *)
Ltac next_read :=
  match goal with
  | |- context [parsed (?read ?d ?t ?k) _ _] =>
      let E := fresh in eassert (E : read d t k = Ok (Some _)) by read_at; rewrite E; clear E;
      cbn [parsed mbind result_bind]
  end.

Lemma to_u64_of message n : 0 ≤ n → ranged to_u64 message n = Ok n.
Proof. intros Hn. unfold ranged, to_u64. by rewrite (proj2 (Z.leb_le 0 n)). Qed.

Lemma max_reads message (max : option Z) :
  from_option is_u32 True max →
  match max with
  | Some n => Some <$> ranged to_u32 message n
  | None => Ok (max_concurrency (transfers default_settings))
  end = Ok max.
Proof.
  destruct max as [n|]; [|done]. intros [Hl Hu]. unfold ranged, to_u32.
  by rewrite (proj2 (Z.leb_le 0 n)), (proj2 (Z.leb_le n _)).
Qed.

Lemma from_written d s d' home :
  apply_config d s = Some d' → validate s = Ok () → typed s →
  from_document d' home
    = Ok ({| home := home; settings := normalized s; baseline := Some (normalized s) |}, false).
Proof.
  intros (t1 & t2 & t3 & t4 & t5 & t6 & t7 & ->)%apply_config_Some Hv [Hm Hc].
  apply config_validate_Ok in Hv as (Hu & _ & Hmax & Hmem & _).
  unfold from_document, schema_of.
  rewrite !(lookup_insert_ne _ _ "schema_version"), lookup_insert_eq by done.
  cbn [entry_value mbind option_bind as_integer ok_or result_bind from_option].
  rewrite Z.eqb_refl. cbn [negb]. rewrite bool_decide_eq_false_2 by done.
  set (t := match max_concurrency (transfers s) with Some _ => _ | None => _ end).
  assert (Hmem' : t !! "memory_limit_mib" = Some (FValue (VInt (memory_limit_mib (transfers s))))).
  { assert (He : as_i64 (memory_limit_mib (transfers s)) = memory_limit_mib (transfers s)).
    { unfold as_i64, MAX_MEMORY_LIMIT_MIB in *. by rewrite (proj2 (Z.leb_le _ _)) by lia. }
    subst t. rewrite He. by destruct (max_concurrency (transfers s)); simplify_map_eq. }
  assert (Hmax' : t !! "max_concurrency" = (λ n, FValue (VInt n)) <$> max_concurrency (transfers s)).
  { subst t. by destruct (max_concurrency (transfers s)); simplify_map_eq. }
  clearbody t.
  match goal with |- context [nested_settings ?x _] =>
    assert (E1 : integer_at x "transfers" "memory_limit_mib" = Ok (Some (memory_limit_mib (transfers s)))
      ∧ integer_at x "transfers" "max_concurrency" = Ok (max_concurrency (transfers s)))
  end.
  { unfold integer_at. split; rewrite !value_at_insert_ne, value_at_insert by done;
      [by rewrite Hmem'|]. rewrite Hmax'. by destruct (max_concurrency (transfers s)). }
  destruct E1 as [E1 E2]. unfold nested_settings. cbn [mbind result_bind]. rewrite E1, E2. clear E1 E2.
  repeat next_read.
  destruct (normalize_server_url _) as [u|] eqn:Eu; [|done]. cbn [mbind result_bind parsed].
  rewrite to_u64_of, max_reads by done. cbn [mbind result_bind].
  rewrite parse_ice_source_name. cbn [mbind result_bind].
  rewrite parse_theme_name. cbn [mbind result_bind].
  rewrite !ice_servers_at_insert_ne, ice_servers_at_insert, lookup_insert_eq by done.
  rewrite ice_tables_read. cbn [mbind result_bind app]. unfold normalized, with_server_url.
  rewrite Eu. destruct s as [[] [] [m []] [] [] [] []]; reflexivity.
Qed.

(** A table a successful read saw is one that can be written. *)
Lemma table_at_Ok d name o : table_at d name = Ok o → d !! name = None ∨ ∃ t, d !! name = Some (ETable t).
Proof. unfold table_at. destruct (d !! name) as [[| |]|]; intros [=]; eauto. Qed.

Lemma value_at_Ok {A} (as_type : value → option A) d name key o :
  value_at as_type d name key = Ok o → d !! name = None ∨ ∃ t, d !! name = Some (ETable t).
Proof.
  unfold value_at. destruct (table_at d name) as [t|] eqn:E; [|done]. intros _. by eapply table_at_Ok.
Qed.

Lemma edit_table_ok d name f :
  (d !! name = None ∨ ∃ t, d !! name = Some (ETable t)) → ∃ t, edit_table d name f = Some (<[name := ETable t]> d).
Proof. unfold edit_table. intros [->|[t ->]]; eauto. Qed.

Lemma parsed_Ok {A B} (read : result string (option A)) (parse : A → result string B) old b :
  parsed read parse old = Ok b →
  ∃ o, read = Ok o ∧ match o with Some a => parse a = Ok b | None => b = old end.
Proof.
  unfold parsed. destruct read as [[a|]|]; cbn; intros Hp; [by exists (Some a)| |done].
  exists None. by injection Hp.
Qed.

Lemma to_u64_Ok n m : to_u64 n = Some m → 0 ≤ m.
Proof. unfold to_u64. destruct (0 <=? n) eqn:E; intros [= <-]. by bool_prop. Qed.
Lemma to_u32_Ok n m : to_u32 n = Some m → is_u32 m.
Proof. unfold to_u32. destruct (_ && _) eqn:E; intros [= <-]. by bool_prop. Qed.

Lemma legacy_integer_Ok conv d name o :
  legacy_integer conv d name = Ok o → ∀ m, o = Some m → ∃ n, conv n = Some m.
Proof.
  unfold legacy_integer. destruct (d !! name) as [i|]; [|by intros [= <-]].
  intros Hr. next_ok Hr. next_ok Hr. injection Hr as <-. intros m [= ->].
  exists x. destruct (conv x); [by injection E0 as ->|done].
Qed.

Lemma legacy_typed d s s' : legacy_settings d s = Ok s' → typed s → typed s'.
Proof.
  unfold legacy_settings. intros Hr [Hm Hc]. repeat next_ok Hr. injection Hr as <-. split; cbn.
  - destruct x4 as [m|]; [|done]. by destruct (legacy_integer_Ok _ _ _ _ E4 m eq_refl) as [n Hn%to_u64_Ok].
  - destruct x3 as [m|]; [|done]. by destruct (legacy_integer_Ok _ _ _ _ E3 m eq_refl) as [n Hn%to_u32_Ok].
Qed.

Lemma nested_typed d s s' : nested_settings d s = Ok s' → typed s → typed s'.
Proof.
  unfold nested_settings. intros Hr [Hm Hc]. repeat next_ok Hr. injection Hr as <-. split; cbn.
  - apply parsed_Ok in E2 as (o & _ & Ho). destruct o as [n|]; [|by rewrite Ho].
    unfold ranged, ok_or in Ho. destruct (to_u64 n) eqn:En; [|done]. injection Ho as <-.
    by apply to_u64_Ok in En.
  - apply parsed_Ok in E3 as (o & _ & Ho). destruct o as [n|]; [|by rewrite Ho].
    unfold ranged, ok_or in Ho. destruct (to_u32 n) eqn:En; [|done]. injection Ho as <-.
    by apply to_u32_Ok in En.
Qed.

Lemma nested_tables d s s' name :
  nested_settings d s = Ok s' →
  name ∈ ["server"; "updates"; "transfers"; "webrtc"; "appearance"; "cli"; "desktop"] →
  d !! name = None ∨ ∃ t, d !! name = Some (ETable t).
Proof.
  unfold nested_settings. intros Hr Hn. repeat next_ok Hr. clear Hr.
  repeat match goal with
  | E : parsed _ _ _ = Ok _ |- _ => apply parsed_Ok in E as (? & E & _); apply value_at_Ok in E
  end.
  repeat (apply elem_of_cons in Hn as [->|Hn]; [done|]). by apply elem_of_nil in Hn.
Qed.

Lemma from_document_Ok d home c b :
  from_document d home = Ok (c, b) →
  c = {| home := home; settings := settings c; baseline := Some (settings c) |} ∧
  b = bool_decide (d !! "schema_version" = None) ∧ typed (settings c) ∧
  ∀ s, is_Some (apply_config d s).
Proof.
  unfold from_document. intros Hr. next_ok Hr. rename x into schema. destruct (from_option _ _ _); [done|].
  assert (Hs : bool_decide (schema = None) = bool_decide (d !! "schema_version" = None)).
  { unfold schema_of in E. destruct (d !! "schema_version") as [i|]; [|by injection E as <-].
    destruct (entry_value i ≫= as_integer); [|done]. cbn in E. by injection E as <-. }
  rewrite <- Hs. next_ok Hr. rename x into s0. assert (Ht0 : typed s0).
  { assert (typed default_settings) by (split; [by unfold default_settings|done]).
    destruct (bool_decide (schema = None)); [by eapply legacy_typed|by injection E0 as <-]. }
  next_ok Hr. rename x into s1. injection Hr as <- <-. cbn [settings].
  split; [done|]. split; [done|]. split; [by eapply nested_typed|]. intros s.
  pose proof (λ name, nested_tables _ _ _ name E1) as Ht. unfold apply_config. cbv zeta.
  repeat match goal with
  | |- is_Some (edit_table ?d ?n ?f ≫= _) =>
      let t := fresh "t" in let E := fresh "E" in
      destruct (edit_table_ok d n f) as [t E];
        [rewrite !lookup_insert_ne by done; apply Ht; set_solver|rewrite E; cbn [mbind option_bind]]
  end.
  match goal with |- is_Some (edit_table ?d ?n ?f) => destruct (edit_table_ok d n f) as [t5 ->] end;
    [rewrite !lookup_insert_ne by done; apply Ht; set_solver|done].
Qed.
End reading.

(** ** The file over its operations *)

Section files.
Context `{Toml, Urls}.
Context {Tl : TomlLaws} {Ul : UrlLaws}.

(** A read document with these settings. *)
Definition read_as (home : string) (s : Settings) : Config :=
  {| home := home; settings := s; baseline := Some s |}.

(** The file at [home] has these settings, in the current schema. *)
Definition reads (fs : Files) (home : string) (s : Settings) : Prop :=
  ∃ text d, fs !! home = Some text ∧ toml_parse text = Some d ∧
    from_document d home = Ok (read_as home s, false).

(** Every file is a document with a valid configuration. *)
Definition sound (fs : Files) : Prop :=
  ∀ home text, fs !! home = Some text →
    ∃ d c b, toml_parse text = Some d ∧ from_document d home = Ok (c, b) ∧ validate (settings c) = Ok ().

(** The document an operation starts from. *)
Definition doc_at (fs : Files) (home : string) (d : document) : Prop :=
  match fs !! home with Some text => toml_parse text = Some d | None => d = ∅ end.

(** An operation leaves the files alone, or replaces one by a valid configuration
    in which everything that is not a setting is kept. *)
Definition replaced_by (fs fs' : Files) (home : string) (s : Settings) : Prop :=
  validate s = Ok () ∧ typed s ∧ reads fs' home (normalized s) ∧
  (∀ other, other ≠ home → fs' !! other = fs !! other) ∧
  ∃ d d' text, doc_at fs home d ∧ fs' !! home = Some text ∧ toml_parse text = Some d' ∧ kept d d'.

Definition step_ok (fs fs' : Files) (home : string) : Prop :=
  fs' = fs ∨ ∃ s, replaced_by fs fs' home s.

Lemma normalize_idem text v : normalize_server_url text = Ok v → normalize_server_url v = Ok v.
Proof.
  unfold normalize_server_url, mbind, result_bind. destruct (url_parse text) as [u|]; [|done]. cbn [ok_or].
  destruct (not_an_origin u) eqn:Eu; [done|]. intros [= <-].
  destruct (origin_reparses u Eu) as (u' & -> & Eu' & Ht). cbn [ok_or]. by rewrite Eu', Ht.
Qed.

Lemma normalized_id s v : normalize_server_url v = Ok (server_url (server s)) → normalized s = s.
Proof.
  intros Hv%normalize_idem. unfold normalized. rewrite Hv. by destruct s as [[] ? ? ? ? ? ?].
Qed.

Lemma normalized_idem s : validate s = Ok () → normalized (normalized s) = normalized s.
Proof.
  intros (Hu & _)%config_validate_Ok. unfold normalized at 2 3.
  destruct (normalize_server_url (server_url (server s))) as [u|] eqn:Eu; [|done]. cbn [res_opt default].
  by apply normalized_id with (v := server_url (server s)).
Qed.

Lemma validate_normalized s : validate s = Ok () → validate (normalized s) = Ok ().
Proof.
  rewrite !config_validate_Ok. intros (Hu & Hrest). split; [|exact Hrest]. unfold normalized.
  destruct (normalize_server_url (server_url (server s))) as [u|] eqn:Eu; [|done].
  cbn. by rewrite (normalize_idem _ _ Eu).
Qed.

Lemma typed_normalized s : typed s → typed (normalized s).
Proof. done. Qed.

(** The URL of a read document is normalized. *)
Lemma from_document_normalized d home c b : from_document d home = Ok (c, b) → normalized (settings c) = settings c.
Proof.
  unfold from_document. intros Hr. next_ok Hr. destruct (from_option _ _ _); [done|].
  next_ok Hr. rename x0 into s0. next_ok Hr. rename x0 into s1. injection Hr as <- <-. cbn [settings].
  assert (Hs0 : server_url (server s0) = "https://filebeam.io").
  { destruct (bool_decide _); [|by injection E0 as <-].
    unfold legacy_settings in E0. repeat next_ok E0. by injection E0 as <-. }
  unfold nested_settings in E1. repeat next_ok E1. injection E1 as <-.
  apply parsed_Ok in E2 as (o & _ & Ho). destruct o as [text|].
  - by apply normalized_id with (v := text).
  - apply normalized_id with (v := "https://filebeam.io"). cbn. rewrite Ho, Hs0. apply default_url.
Qed.

Lemma from_empty home : from_document ∅ home = Ok (read_as home default_settings, true).
Proof. reflexivity. Qed.

Lemma validate_default : validate default_settings = Ok ().
Proof. apply config_validate_Ok. cbn. rewrite default_url. by split_and!. Qed.

Lemma read_config_run e home fs fs' r :
  read_config e home fs = (fs', r) → fs' = fs ∧ ∀ d, r = Ok d → doc_at fs home d.
Proof.
  unfold read_config, get, mbind, SE_bind, doc_at. destruct (fs !! home) as [text|].
  - unfold of_result. destruct (readable e); cbn; [|intros [= <- <-]; done].
    intros [= <- <-]. split; [done|]. intros d. by destruct (toml_parse text) as [x|]; intros [= ->].
  - intros [= <- <-]. split; [done|]. by intros d [= <-].
Qed.

(** The document of a sound file reads as a valid configuration. *)
Lemma sound_doc fs home d :
  sound fs → doc_at fs home d →
  ∃ s b, from_document d home = Ok (read_as home s, b) ∧ validate s = Ok () ∧ typed s ∧ normalized s = s.
Proof.
  intros Hs. unfold doc_at. destruct (fs !! home) as [text|] eqn:E.
  - intros Hp. destruct (Hs _ _ E) as (d' & c & b & Hp' & Hd & Hv). rewrite Hp in Hp'. injection Hp' as <-.
    destruct (from_document_Ok _ _ _ _ Hd) as (Hc & _ & Ht & _). exists (settings c), b.
    rewrite Hd. split_and!; try done; [by rewrite Hc|by eapply from_document_normalized].
  - intros ->. exists default_settings, true. split_and!; [apply from_empty|apply validate_default|..].
    + by split.
    + exact (from_document_normalized _ _ _ _ (from_empty home)).
Qed.

Lemma write_config_run e home d s fs fs' r c b :
  write_config e home d s fs = (fs', r) → from_document d home = Ok (c, b) → doc_at fs home d →
  validate s = Ok () → typed s →
  (fs' = fs ∧ r ≠ Ok ()) ∨ replaced_by fs fs' home s.
Proof.
  intros Hr Hd Hat Hv Ht. destruct (from_document_Ok _ _ _ _ Hd) as (_ & _ & _ & Ha).
  destruct (Ha s) as [d' Hd']. unfold write_config in Hr. rewrite Hd' in Hr.
  unfold atomic_write, mbind, SE_bind in Hr. cbn in Hr.
  assert (Hnew : replaced_by fs (<[home := toml_print d']> fs) home s).
  { split_and!; try done.
    - exists (toml_print d'), d'. rewrite lookup_insert_eq, parse_print. split_and!; [done|done|].
      by eapply from_written.
    - intros other Hn. by rewrite lookup_insert_ne.
    - exists d, d', (toml_print d'). rewrite lookup_insert_eq, parse_print.
      split_and!; try done. by eapply apply_config_kept. }
  destruct (replaced e); cbn in Hr; injection Hr as <- <-; [by right|by left|by right].
Qed.

Lemma step_sound fs fs' home : sound fs → step_ok fs fs' home → sound fs'.
Proof.
  intros Hs [->|(s & Hv & _ & Hr & Ho & _)]; [done|]. intros h text Ht.
  destruct (decide (h = home)) as [->|Hn]; [|rewrite Ho in Ht by done; by apply Hs].
  destruct Hr as (text' & d & Ht' & Hp & Hd). rewrite Ht in Ht'. injection Ht' as <-.
  exists d, (read_as home (normalized s)), false. split_and!; [done|done|]. by apply validate_normalized.
Qed.

(** The settings an operation finds at [home]. *)
Definition current (fs : Files) (home : string) (s : Settings) : Prop :=
  ∃ d b, doc_at fs home d ∧ from_document d home = Ok (read_as home s, b).

Lemma import_legacy_Ok d home s b instance c :
  from_document d home = Ok (read_as home s, b) → import_legacy_instance (read_as home s) d instance = Ok c →
  typed s → normalized s = s →
  ∃ s', c = read_as home s' ∧ typed s' ∧ normalized s' = s' ∧ (b = false → s' = s).
Proof.
  unfold import_legacy_instance. intros Hd Hi Ht Hn.
  destruct (from_document_Ok _ _ _ _ Hd) as (_ & Hb & _ & _). case_bool_decide as Hv.
  2: { injection Hi as <-. by exists s. }
  next_ok Hi. destruct x as [url|]; [injection Hi as <-; by exists s|].
  destruct (nonempty instance) as [i|]; [|injection Hi as <-; by exists s].
  next_ok Hi. injection Hi as <-. eexists. split; [done|]. split; [done|].
  split; [by eapply normalized_id|]. intros ->. done.
Qed.

(** A step of a call that failed there has left the files alone. *)
Ltac pure Hr x E :=
  apply bind_run in Hr as [(? & E & ->)|(? & x & E & Hr)]; injection E as <- E;
  [split; [by left|done]|].

Lemma load_run v e home0 instance legacy fs fs' r :
  sound fs → load_with_legacy_settings v e home0 instance legacy fs = (fs', r) →
  step_ok fs fs' (load_home v home0 legacy) ∧
  ∀ c, r = Ok c → home c = load_home v home0 legacy ∧ reads fs' (load_home v home0 legacy) (normalized (settings c)) ∧
    (baseline c ≠ None → normalized (settings c) = settings c).
Proof.
  intros Hs. unfold load_with_legacy_settings. set (h := load_home v home0 legacy). intros Hr.
  pure Hr u E1. apply bind_run in Hr as [(? & E & ->)|(? & ex & E & Hr)]; injection E as <- E; [done|].
  subst ex. case_bool_decide as Hex; cbn [negb] in Hr.
  - apply bind_run in Hr as [(? & E & ->)|(? & d & E & Hr)]; apply read_config_run in E as [-> Hd];
      [split; [by left|done]|]. specialize (Hd d eq_refl).
    destruct (sound_doc _ _ _ Hs Hd) as (s & b & Hf & Hv & Ht & Hn).
    apply bind_run in Hr as [(? & E2 & ->)|(? & x & E2 & Hr)]; injection E2 as <- E2; [by rewrite Hf in E2|].
    rewrite Hf in E2. injection E2 as <-. pure Hr c E3. pure Hr u' E4. destruct u'.
    destruct (import_legacy_Ok _ _ _ _ _ _ Hf E3 Ht Hn) as (s' & -> & Ht' & Hn' & Hb). cbn [settings] in E4.
    assert (Hfs : b = false → reads fs h (normalized s')).
    { intros ->. rewrite (Hb eq_refl), Hn. destruct Hex as [text Htext]. unfold doc_at in Hd.
      rewrite Htext in Hd. by exists text, d. }
    destruct b.
    + apply bind_run in Hr as [(? & Hw & ->)|(? & u' & Hw & Hr)];
        (eapply write_config_run in Hw as [[-> Hne]|Hw]; [| |exact Hf|exact Hd|exact E4|exact Ht']).
      * split; [by left|done].
      * split; [right; by exists s'|done].
      * by destruct u'.
      * injection Hr as <- <-. split; [right; by exists s'|]. intros c [= <-]. cbn.
        split_and!; [done|by apply Hw|done].
    + injection Hr as <- <-. split; [by left|]. intros c [= <-]. cbn. split_and!; auto.
  - assert (Hat : doc_at fs h ∅) by (unfold doc_at; destruct (fs !! h); [destruct Hex; eauto|done]).
    pure Hr s E2. pure Hr u' E3. destruct u'.
    assert (Ht : typed s).
    { destruct (nonempty instance); [next_ok E2|]; injection E2 as <-; by split. }
    apply bind_run in Hr as [(? & Hw & ->)|(? & u' & Hw & Hr)];
      (eapply write_config_run in Hw as [[-> Hne]|Hw]; [| |apply from_empty|exact Hat|exact E3|exact Ht]).
    + split; [by left|done].
    + split; [right; by exists s|done].
    + by destruct u'.
    + injection Hr as <- <-. split; [right; by exists s|]. intros c [= <-]. cbn.
      split_and!; [done|by apply Hw|done].
Qed.

(** Settings that are valid, taken one by one, are valid together. *)
Lemma merge_valid cur mine base :
  validate cur = Ok () → validate mine = Ok () → validate (apply_changes_from cur mine base) = Ok ().
Proof.
  rewrite !config_validate_Ok. unfold apply_changes_from, newer. cbn.
  intros (Hu & Hc & Hx & Hm & Hi) (Hu' & Hc' & Hx' & Hm' & Hi'). split_and!; try (by case_bool_decide); cbn;
    case_bool_decide; try done; try apply Hm; try apply Hm'.
Qed.

Lemma merge_typed cur mine base : typed cur → typed mine → typed (apply_changes_from cur mine base).
Proof.
  unfold typed, apply_changes_from, newer. cbn. intros [Hm Hc] [Hm' Hc'].
  split; by case_bool_decide.
Qed.

Lemma doc_at_fun fs h d d' : doc_at fs h d → doc_at fs h d' → d = d'.
Proof. unfold doc_at. destruct (fs !! h); [|by intros -> ->]. intros -> Hd. by injection Hd. Qed.

Lemma sound_current fs h : sound fs → ∃ s, current fs h s ∧ validate s = Ok () ∧ typed s ∧ normalized s = s.
Proof.
  intros Hs. assert (∃ d, doc_at fs h d) as [d Hd].
  { unfold doc_at. destruct (fs !! h) as [text|] eqn:E; [|by exists ∅].
    destruct (Hs _ _ E) as (d & _ & _ & Hp & _). by exists d. }
  destruct (sound_doc _ _ _ Hs Hd) as (s & b & Hf & Hrest). exists s. split; [by exists d, b|done].
Qed.

Lemma current_fun fs h s s' : current fs h s → current fs h s' → s = s'.
Proof.
  intros (d & b & Hd & Hf) (d' & b' & Hd' & Hf'). rewrite (doc_at_fun _ _ _ _ Hd Hd'), Hf' in Hf.
  by injection Hf.
Qed.

(** What is read is what there is. *)
Lemma reads_current fs h s : reads fs h s → current fs h s.
Proof. intros (text & d & Ht & Hp & Hf). exists d, false. unfold doc_at. by rewrite Ht. Qed.

(** A step of a call that failed there has left the files alone. *)
Ltac stop Hr x E :=
  apply bind_run in Hr as [(? & E & ->)|(? & x & E & Hr)]; injection E as <- E; [by left|].

Lemma config_save_run e c fs fs' r s :
  sound fs → typed (settings c) → current fs (home c) s → save e c fs = (fs', r) →
  (fs' = fs ∧ r ≠ Ok ()) ∨ replaced_by fs fs' (home c) (to_save s c).
Proof.
  intros Hs Ht Hc. unfold save. intros Hr. stop Hr u E1. destruct u. stop Hr u E2.
  apply bind_run in Hr as [(? & E & ->)|(? & d & E & Hr)]; apply read_config_run in E as [-> Hd]; [by left|].
  specialize (Hd d eq_refl). destruct (sound_doc _ _ _ Hs Hd) as (s' & b & Hf & Hv & Ht' & _).
  assert (s' = s) as -> by (apply (current_fun fs (home c)); [by exists d, b|done]).
  stop Hr x E3. rewrite Hf in E3. injection E3 as <-. cbn [settings read_as] in Hr.
  eapply write_config_run; [exact Hr|exact Hf|exact Hd|..]; unfold to_save.
  - destruct (baseline c); [by apply merge_valid|done].
  - destruct (baseline c); [by apply merge_typed|done].
Qed.

Lemma update_run v e home0 change fs fs' r s :
  sound fs → (∀ s, typed s → typed (change s)) → current fs (default (default_home v) home0) s →
  update v e home0 change fs = (fs', r) →
  (fs' = fs ∧ is_ok r = false) ∨
  (replaced_by fs fs' (default (default_home v) home0) (change s) ∧
   ∀ c, r = Ok c → home c = default (default_home v) home0 ∧ settings c = change s).
Proof.
  intros Hs Hchange Hc. unfold update. set (h := default (default_home v) home0) in *. intros Hr. stop Hr u E1.
  apply bind_run in Hr as [(? & E & ->)|(? & d & E & Hr)]; apply read_config_run in E as [-> Hd]; [by left|].
  specialize (Hd d eq_refl). destruct (sound_doc _ _ _ Hs Hd) as (s' & b & Hf & _ & Ht' & _).
  assert (s' = s) as -> by (apply (current_fun fs h); [by exists d, b|done]).
  stop Hr x E3. rewrite Hf in E3. injection E3 as <-. cbn [settings read_as baseline] in Hr.
  stop Hr u' E4. destruct u'.
  apply bind_run in Hr as [(? & Hw & ->)|(? & u' & Hw & Hr)];
    (eapply write_config_run in Hw as [[-> Hne]|Hw]; [| |exact Hf|exact Hd|exact E4|by apply Hchange]).
  - by left.
  - right. split; [exact Hw|done].
  - by destruct u'.
  - injection Hr as <- <-. right. split; [exact Hw|]. by intros c' [= <-].
Qed.

(** Where there is a configuration, a load that can read it finds it. *)
Lemma load_reads v e h instance legacy fs s :
  reads fs h s → validate s = Ok () → ready e = Ok () → readable e = Ok () →
  load_with_legacy_settings v e (Some h) instance legacy fs = (fs, Ok (read_as h s)).
Proof.
  intros (text & d & Ht & Hp & Hf) Hv Hre Hrd. unfold load_with_legacy_settings. cbn [load_home].
  erewrite bind_Ok by by rewrite Hre. erewrite bind_Ok by reflexivity.
  rewrite bool_decide_eq_true_2 by by rewrite Ht. cbn [negb].
  erewrite bind_Ok. 2: { unfold read_config, get, mbind, SE_bind. rewrite Ht. cbn. rewrite Hrd. cbn. by rewrite Hp. }
  erewrite bind_Ok by by rewrite Hf. cbv beta iota.
  assert (Hi : import_legacy_instance (read_as h s) d instance = Ok (read_as h s)).
  { unfold import_legacy_instance. destruct (from_document_Ok _ _ _ _ Hf) as (_ & <- & _). done. }
  erewrite bind_Ok by by rewrite Hi. erewrite bind_Ok by by (cbn [settings read_as]; rewrite Hv).
  by erewrite bind_Ok by reflexivity.
Qed.

(** ** Properties *)

(** The operations of the clients, one at a time under the lock. *)
Inductive Op :=
| OLoad (v : Vars) (home instance legacy : option string)
| OSave (c : Config)
| OUpdate (v : Vars) (home : option string) (change : Settings → Settings).

Definition op_home (o : Op) : string :=
  match o with
  | OLoad v home _ legacy => load_home v home legacy
  | OSave c => home c
  | OUpdate v home _ => default (default_home v) home
  end.

Definition perform (e : Env) (o : Op) (fs : Files) : Files * result string () :=
  match o with
  | OLoad v home instance legacy =>
      let '(fs, r) := load_with_legacy_settings v e home instance legacy fs in (fs, _ ← r; Ok ())
  | OSave c => save e c fs
  | OUpdate v home change => let '(fs, r) := update v e home change fs in (fs, _ ← r; Ok ())
  end.

(** Settings handed in have the values of their types. *)
Definition typed_op (o : Op) : Prop :=
  match o with
  | OLoad _ _ _ _ => True
  | OSave c => typed (settings c)
  | OUpdate _ _ change => ∀ s, typed s → typed (change s)
  end.

Lemma perform_step e o fs fs' r :
  sound fs → typed_op o → perform e o fs = (fs', r) → step_ok fs fs' (op_home o).
Proof.
  intros Hs Ht. destruct (sound_current fs (op_home o) Hs) as (s & Hc & _). destruct o; cbn.
  - destruct (load_with_legacy_settings _ _ _ _ _ _) as [fs1 r1] eqn:E. intros [= <- <-].
    by eapply load_run.
  - intros [[-> _]|Hw]%(config_save_run _ _ _ _ _ s); try done; [by left|right; by eexists].
  - destruct (update _ _ _ _ _) as [fs1 r1] eqn:E. intros [= <- <-].
    eapply update_run in E as [[-> _]|[Hw _]]; try done; [by left|right; by eexists].
Qed.

Definition run (l : list (Env * Op)) (fs : Files) : Files :=
  foldl (λ fs x, fst (perform (fst x) (snd x) fs)) fs l.

Lemma run_sound l fs : sound fs → Forall (λ x, typed_op (snd x)) l → sound (run l fs).
Proof.
  unfold run. revert fs. induction l as [|[e o] l IH]; intros fs Hs Ht; [done|].
  apply Forall_cons in Ht as [Ht Hl]. apply IH; [|done]. cbn.
  destruct (perform e o fs) as [fs' r] eqn:E. by eapply step_sound, perform_step.
Qed.

Lemma from_document_url d home c b : from_document d home = Ok (c, b) → ∃ o, string_at d "server" "url" = Ok o.
Proof.
  unfold from_document. intros Hr. next_ok Hr. destruct (from_option _ _ _); [done|]. next_ok Hr. next_ok Hr.
  unfold nested_settings in E1. next_ok E1. apply parsed_Ok in E2 as (o & Ho & _). by exists o.
Qed.

Lemma write_works e h d s fs c b :
  replaced e = Done → from_document d h = Ok (c, b) → ∃ fs', write_config e h d s fs = (fs', Ok ()).
Proof.
  intros He Hd. destruct (from_document_Ok _ _ _ _ Hd) as (_ & _ & _ & Ha). destruct (Ha s) as [d' Hd'].
  unfold write_config. rewrite Hd'. unfold atomic_write, mbind, SE_bind. cbn. rewrite He. cbn. by eexists.
Qed.

Lemma load_works v e h fs :
  sound fs → ready e = Ok () → readable e = Ok () → replaced e = Done →
  ∃ fs' c, load_with_legacy_settings v e (Some h) None None fs = (fs', Ok c) ∧ validate (settings c) = Ok ().
Proof.
  intros Hs Hre Hrd Hw. unfold load_with_legacy_settings. cbn [load_home].
  erewrite bind_Ok by by rewrite Hre. erewrite bind_Ok by reflexivity.
  destruct (fs !! h) as [text|] eqn:Et.
  - rewrite bool_decide_eq_true_2 by done. cbn [negb].
    destruct (Hs _ _ Et) as (d & c & b & Hp & Hf & Hv).
    erewrite bind_Ok. 2: { unfold read_config, get, mbind, SE_bind. rewrite Et. cbn. rewrite Hrd. cbn. by rewrite Hp. }
    erewrite bind_Ok by by rewrite Hf. cbv beta iota.
    assert (Hi : import_legacy_instance c d None = Ok c).
    { unfold import_legacy_instance. case_bool_decide; [|done].
      destruct (from_document_url _ _ _ _ Hf) as [o ->]. by destruct o. }
    erewrite bind_Ok by by rewrite Hi. erewrite bind_Ok by by rewrite Hv.
    destruct b.
    + destruct (write_works e h d (settings c) fs c true Hw Hf) as [fs' Hwr].
      erewrite bind_Ok by exact Hwr. by exists fs', c.
    + erewrite bind_Ok by reflexivity. by exists fs, c.
  - rewrite bool_decide_eq_false_2 by by intros []. cbn [negb nonempty].
    erewrite bind_Ok by reflexivity. erewrite bind_Ok by by rewrite validate_default.
    destruct (write_works e h ∅ default_settings fs _ _ Hw (from_empty h)) as [fs' Hwr].
    erewrite bind_Ok by exact Hwr. eexists fs', _. split; [reflexivity|]. apply validate_default.
Qed.

(** The configuration survives its writers. Whatever the clients load,
    save and update, in any order, and however each call fails (an interrupted
    replacement of the file included), every configuration file they leave is
    one that parses to valid settings, and a client that can read and write it
    gets a configuration from it. *)
Theorem config_survives l v e h :
  Forall (λ x, typed_op (snd x)) l → ready e = Ok () → readable e = Ok () → replaced e = Done →
  sound (run l ∅) ∧
  ∃ fs c, load_with_legacy_settings v e (Some h) None None (run l ∅) = (fs, Ok c) ∧
    validate (settings c) = Ok () ∧ reads fs h (normalized (settings c)).
Proof.
  intros Ht Hr1 Hr2 Hr3. assert (Hs : sound (run l ∅)) by (apply run_sound; [by intros ?? ?%lookup_empty_Some|done]).
  split; [done|]. generalize dependent (run l ∅). intros fs Hs.
  destruct (load_works v e h fs Hs Hr1 Hr2 Hr3) as (fs' & c & E & Hv). exists fs', c.
  split_and!; [done|done|]. by eapply load_run in E as [_ E]; [apply E|].
Qed.

#[local] Instance kept_refl : Reflexive kept.
Proof. intros d. split; eauto. Qed.

(** What a call that succeeded leaves at a home: settings that read as these,
    beside everything else it found in the document. *)
Definition leaves (fs fs' : Files) (h : string) (s : Settings) : Prop :=
  validate s = Ok () ∧ reads fs' h s ∧ (∀ other, other ≠ h → fs' !! other = fs !! other) ∧
  ∃ d d' text, doc_at fs h d ∧ fs' !! h = Some text ∧ toml_parse text = Some d' ∧ kept d d'.

Lemma replaced_leaves fs fs' h s : replaced_by fs fs' h s → leaves fs fs' h (normalized s).
Proof. intros (Hv & _ & Hr & Ho & Hd). split_and!; try done. by apply validate_normalized. Qed.

Lemma reads_leaves fs h s : sound fs → reads fs h s → leaves fs fs h s.
Proof.
  intros Hs (text & d & Ht & Hp & Hf). destruct (Hs _ _ Ht) as (d' & c & b & Hp' & Hf' & Hv).
  rewrite Hp in Hp'. injection Hp' as <-. rewrite Hf in Hf'. injection Hf' as <- _.
  split_and!; [exact Hv|by exists text, d|done|].
  exists d, d, text. unfold doc_at. by rewrite Ht.
Qed.

(** C40: what is written reads back. Take files that read as valid settings, as
    these operations leave them ([config_survives]; a save does not validate what
    it merges with, see [hand_edit_spoils_a_save]). After a save, an update or a
    load that succeeded, every later load of that home, whatever the environment
    says, returns exactly the settings that were written and changes nothing: for
    a save by a client that loaded an existing file, the current settings with
    those the client changed since; for one whose load created the file, all of
    the client's settings; for an update the current settings as changed; for a
    load those it returned (the server's URL without its final slash). No other
    home is touched, and everything in the document that is not a setting is kept. *)
Theorem written_reads_back e o fs fs' s :
  sound fs → typed_op o → current fs (op_home o) s → perform e o fs = (fs', Ok ()) →
  ∃ s', match o with
        | OSave c => s' = normalized (to_save s c)
        | OUpdate _ _ change => s' = normalized (change s)
        | OLoad v home instance legacy =>
            ∃ c, load_with_legacy_settings v e home instance legacy fs = (fs', Ok c) ∧
              s' = normalized (settings c)
        end ∧ leaves fs fs' (op_home o) s' ∧
    ∀ v e' instance legacy, ready e' = Ok () → readable e' = Ok () →
      load_with_legacy_settings v e' (Some (op_home o)) instance legacy fs'
        = (fs', Ok (read_as (op_home o) s')).
Proof.
  intros Hs Ht Hc Hp. cut (∃ s', match o with
        | OSave c => s' = normalized (to_save s c)
        | OUpdate _ _ change => s' = normalized (change s)
        | OLoad v home instance legacy =>
            ∃ c, load_with_legacy_settings v e home instance legacy fs = (fs', Ok c) ∧
              s' = normalized (settings c)
        end ∧ leaves fs fs' (op_home o) s').
  { intros (s' & Ho & Hl). exists s'. split; [done|]. split; [done|]. intros v e' i l.
    apply load_reads; apply Hl. }
  destruct o as [v home instance legacy|c|v home change]; cbn [perform op_home] in *.
  - destruct (load_with_legacy_settings _ _ _ _ _ _) as [fs1 r1] eqn:E. injection Hp as <- Hr.
    destruct r1 as [c|]; [|done]. pose proof (load_run _ _ _ _ _ _ _ _ Hs E) as [Hstep Hc'].
    destruct (Hc' c eq_refl) as (_ & Hrd & _). exists (normalized (settings c)).
    split; [by exists c|]. destruct Hstep as [->|[s1 Hw]]; [by apply reads_leaves|].
    apply replaced_leaves in Hw as Hl.
    replace (normalized (settings c)) with (normalized s1); [done|].
    eapply current_fun; apply reads_current; [apply Hl|done].
  - apply (config_save_run _ _ _ _ _ s) in Hp as [[_ []]|Hw]; try done.
    eexists. split; [reflexivity|by apply replaced_leaves].
  - destruct (update _ _ _ _ _) as [fs1 r1] eqn:E. injection Hp as <- Hr.
    eapply update_run in E as [[_ Hf]|[Hw _]]; try done; [by destruct r1|].
    eexists. split; [reflexivity|by apply replaced_leaves].
Qed.

(** The settings a configuration changed since it was read, as they will read. *)
Definition keeps (s : Settings) (c : Config) (b : Settings) : Prop :=
  (server (settings c) ≠ server b → server s = server (normalized (settings c))) ∧
  (updates (settings c) ≠ updates b → updates s = updates (settings c)) ∧
  (memory_limit_mib (transfers (settings c)) ≠ memory_limit_mib (transfers b) →
     memory_limit_mib (transfers s) = memory_limit_mib (transfers (settings c))) ∧
  (max_concurrency (transfers (settings c)) ≠ max_concurrency (transfers b) →
     max_concurrency (transfers s) = max_concurrency (transfers (settings c))) ∧
  (webrtc (settings c) ≠ webrtc b → webrtc s = webrtc (settings c)) ∧
  (appearance (settings c) ≠ appearance b → appearance s = appearance (settings c)) ∧
  (cli (settings c) ≠ cli b → cli s = cli (settings c)) ∧
  (desktop (settings c) ≠ desktop b → desktop s = desktop (settings c)).

(** No setting was changed by both. *)
Definition apart (c1 : Config) (b1 : Settings) (c2 : Config) (b2 : Settings) : Prop :=
  (server (settings c1) = server b1 ∨ server (settings c2) = server b2) ∧
  (updates (settings c1) = updates b1 ∨ updates (settings c2) = updates b2) ∧
  (memory_limit_mib (transfers (settings c1)) = memory_limit_mib (transfers b1) ∨
     memory_limit_mib (transfers (settings c2)) = memory_limit_mib (transfers b2)) ∧
  (max_concurrency (transfers (settings c1)) = max_concurrency (transfers b1) ∨
     max_concurrency (transfers (settings c2)) = max_concurrency (transfers b2)) ∧
  (webrtc (settings c1) = webrtc b1 ∨ webrtc (settings c2) = webrtc b2) ∧
  (appearance (settings c1) = appearance b1 ∨ appearance (settings c2) = appearance b2) ∧
  (cli (settings c1) = cli b1 ∨ cli (settings c2) = cli b2) ∧
  (desktop (settings c1) = desktop b1 ∨ desktop (settings c2) = desktop b2).

Lemma newer_comm {A} `{EqDecision A} (s x1 b1 x2 b2 : A) :
  x1 = b1 ∨ x2 = b2 → newer (newer s x1 b1) x2 b2 = newer (newer s x2 b2) x1 b1.
Proof.
  unfold newer. intros [->| ->]; [rewrite !(bool_decide_eq_true_2 (b1 = b1)) by done
    |rewrite !(bool_decide_eq_true_2 (b2 = b2)) by done]; done.
Qed.

Lemma newer_changed {A} `{EqDecision A} (s x b : A) : x ≠ b → newer s x b = x.
Proof. intros Hn. unfold newer. by rewrite bool_decide_eq_false_2. Qed.

Lemma merge_comm s c1 b1 c2 b2 :
  apart c1 b1 c2 b2 →
  apply_changes_from (apply_changes_from s (settings c1) b1) (settings c2) b2
    = apply_changes_from (apply_changes_from s (settings c2) b2) (settings c1) b1.
Proof.
  intros (H1 & H2 & H3 & H4 & H5 & H6 & H7 & H8). unfold apply_changes_from. cbn.
  by rewrite (newer_comm (server s)), (newer_comm (updates s)), (newer_comm (memory_limit_mib (transfers s))),
    (newer_comm (max_concurrency (transfers s))), (newer_comm (webrtc s)), (newer_comm (appearance s)),
    (newer_comm (cli s)), (newer_comm (desktop s)).
Qed.

Lemma merge_keeps s c b : keeps (normalized (apply_changes_from s (settings c) b)) c b.
Proof.
  unfold keeps, normalized, apply_changes_from, with_server_url. cbn.
  split_and!; intros Hn; rewrite ?newer_changed by done; done.
Qed.

(** Normalizing what is already on disk changes nothing. *)
Lemma normalized_merge s x b :
  validate s = Ok () → normalized (apply_changes_from (normalized s) x b) = normalized (apply_changes_from s x b).
Proof.
  intros (Hu & _)%config_validate_Ok. unfold apply_changes_from. unfold normalized at 2.
  destruct (normalize_server_url (server_url (server s))) as [u|] eqn:Eu; [|done]. cbn.
  unfold normalized. cbn. f_equal. unfold newer. case_bool_decide; [|done]. cbn.
  rewrite Eu, (normalize_idem _ _ Eu). done.
Qed.

Lemma two_saves e1 e2 c1 b1 c2 b2 fs fs1 fs2 s :
  sound fs → current fs (home c1) s → home c2 = home c1 → baseline c1 = Some b1 → baseline c2 = Some b2 →
  typed (settings c1) → typed (settings c2) →
  save e1 c1 fs = (fs1, Ok ()) → save e2 c2 fs1 = (fs2, Ok ()) →
  reads fs2 (home c1)
    (normalized (apply_changes_from (apply_changes_from s (settings c1) b1) (settings c2) b2)).
Proof.
  intros Hs Hc Hh Hb1 Hb2 Ht1 Ht2 H1 H2.
  pose proof (config_save_run _ _ _ _ _ _ Hs Ht1 Hc H1) as [[_ []]|Hw]; [done|].
  unfold to_save in Hw. rewrite Hb1 in Hw. destruct Hw as (Hv & Ht & Hr & Ho & Hd).
  assert (Hs1 : sound fs1) by (eapply (step_sound fs fs1 (home c1)); [done|right; by eexists]).
  pose proof (reads_current _ _ _ Hr) as Hc1. rewrite <- Hh in Hc1.
  pose proof (config_save_run _ _ _ _ _ _ Hs1 Ht2 Hc1 H2) as [[_ []]|Hw]; [done|].
  unfold to_save in Hw. rewrite Hb2, Hh in Hw. destruct Hw as (_ & _ & Hr2 & _).
  by rewrite normalized_merge in Hr2.
Qed.

(** C39: concurrent saves do not lose each other's changes. Take a configuration
    directory whose files read as valid settings, and two clients that each loaded
    an existing configuration there, at whatever times (a load that creates the
    file keeps nothing to compare with, see [created_configuration_overwrites]).
    What a save compares is the server, the updates, the memory limit, the
    concurrency, and each of the WebRTC, appearance, command-line and desktop
    sections as a whole. When no one of these was changed by both clients, and
    both save, in either order and successfully, the file reads the same: with
    every one of them that the one changed and every one that the other changed. *)
Theorem saves_merge e1 e2 c1 b1 c2 b2 fs fs1 fs12 fs2 fs21 s :
  sound fs → current fs (home c1) s → home c2 = home c1 → baseline c1 = Some b1 → baseline c2 = Some b2 →
  typed (settings c1) → typed (settings c2) → apart c1 b1 c2 b2 →
  save e1 c1 fs = (fs1, Ok ()) → save e2 c2 fs1 = (fs12, Ok ()) →
  save e2 c2 fs = (fs2, Ok ()) → save e1 c1 fs2 = (fs21, Ok ()) →
  ∃ s', reads fs12 (home c1) s' ∧ reads fs21 (home c1) s' ∧ keeps s' c1 b1 ∧ keeps s' c2 b2.
Proof.
  intros Hs Hc Hh Hb1 Hb2 Ht1 Ht2 Ha H1 H12 H2 H21.
  pose proof (two_saves _ _ _ _ _ _ _ _ _ _ Hs Hc Hh Hb1 Hb2 Ht1 Ht2 H1 H12) as Hr.
  eexists. split; [exact Hr|]. split; [|split; [|apply merge_keeps]].
  - rewrite merge_comm by done. rewrite <- Hh. rewrite <- Hh in Hc.
    by apply (two_saves e2 e1 c2 b2 c1 b1 fs fs2).
  - rewrite merge_comm by done. apply merge_keeps.
Qed.

(** ** ICE servers *)

(** A validated server resolves whenever the host knows the credential it names. *)
Lemma ice_server_resolves s resolver :
  validate_ice s = Ok () →
  (∀ reference, ice_credential_ref s = Some reference →
     ∃ resolve cred, resolver = Some resolve ∧ resolve reference = Ok cred) →
  is_ok (Ice.resolve_one resolver {| Ice.url := ice_url s; Ice.credential_ref := ice_credential_ref s |}) = true.
Proof.
  unfold validate_ice, Ice.resolve_one. cbn [Ice.url Ice.credential_ref].
  destruct (split_once ":" (ice_url s)) as [[scheme authority]|]; [|done]. cbn [ok_or mbind result_bind].
  intros Hv Href. destruct (negb _ || _) eqn:E1; [done|]. bool_prop.
  assert (Hlow : to_ascii_lowercase scheme = scheme).
  { unfold Ice.ice_schemes in *. repeat (apply elem_of_cons in H1 as [->|H1]; [reflexivity|]).
    by apply elem_of_nil in H1. }
  rewrite Hlow, (bool_decide_eq_true_2 (scheme ∈ _)), (bool_decide_eq_false_2 (Ice.host_of _ = _)) by done.
  cbn [negb orb]. destruct (ice_credential_ref s) as [reference|].
  - destruct (_ || _ || _) eqn:Er; [done|]. bool_prop.
    destruct (Href reference eq_refl) as (resolve & cred & -> & Hcred).
    destruct (is_empty (trim reference)); [by bool_cases|]. cbn [ok_or mbind result_bind]. by rewrite Hcred.
  - rewrite (bool_decide_eq_true_2 (None = None)), andb_true_r in Hv by done. by destruct (bool_decide _).
Qed.

Lemma ice_servers_resolve l resolver acc :
  Forall (λ i, validate_ice i = Ok ()) l →
  (∀ i reference, i ∈ l → ice_credential_ref i = Some reference →
     ∃ resolve cred, resolver = Some resolve ∧ resolve reference = Ok cred) →
  is_ok (try_fold (λ acc configured, s ← Ice.resolve_one resolver configured; Ok (acc ++ [s])) acc
    ((λ i, {| Ice.url := ice_url i; Ice.credential_ref := ice_credential_ref i |}) <$> l)) = true.
Proof.
  revert acc. induction l as [|i l IH]; intros acc Hi Href; [done|]. apply Forall_cons in Hi as [Hi Hl].
  pose proof (ice_server_resolves i resolver Hi (λ r, Href i r (list_elem_of_here i l))) as H1.
  cbn [fmap list_fmap try_fold]. destruct (Ice.resolve_one _ _) as [x|]; [|done]. cbn [mbind result_bind].
  apply IH; [done|]. intros j r Hj. by apply Href, list_elem_of_further.
Qed.

(** A configuration that was accepted is one transfers can use. With a host
    that knows the credentials the configuration names, resolving the configured
    ICE servers never fails, whatever servers the service offers. *)
Theorem config_ice_resolves s resolver offered :
  validate s = Ok () →
  (∀ i reference, i ∈ ice_servers (webrtc s) → ice_credential_ref i = Some reference →
     ∃ resolve cred, resolver = Some resolve ∧ resolve reference = Ok cred) →
  is_ok (Ice.resolve (native_ice_override s resolver) offered) = true.
Proof.
  intros (_ & _ & _ & _ & Hi)%config_validate_Ok Href. unfold native_ice_override, Ice.resolve.
  cbn [Ice.source Ice.servers Ice.resolver].
  destruct (ice_source (webrtc s)); [done|by apply ice_servers_resolve..].
Qed.
End files.

(** ** A concrete home *)

Module Example_config.

#[export] Instance value_eq_dec : EqDecision value.
Proof. solve_decision. Defined.
#[export] Instance leaf_eq_dec : EqDecision leaf.
Proof. solve_decision. Defined.
#[export] Instance field_eq_dec : EqDecision field.
Proof. solve_decision. Defined.
#[export] Instance entry_eq_dec : EqDecision entry.
Proof. solve_decision. Defined.

#[export] Instance value_countable : Countable value.
Proof.
  refine (inj_countable' (λ v, match v with
    | VBool b => inl (inl b) | VInt n => inl (inr n) | VStr s => inr (inl s) | VOther s => inr (inr s) end)
    (λ x, match x with
    | inl (inl b) => VBool b | inl (inr n) => VInt n | inr (inl s) => VStr s | inr (inr s) => VOther s end) _).
  by intros [].
Defined.
#[export] Instance leaf_countable : Countable leaf.
Proof.
  refine (inj_countable' (λ v, match v with LValue v => inl v | LOther s => inr s end)
    (λ x, match x with inl v => LValue v | inr s => LOther s end) _).
  by intros [].
Defined.
#[export] Instance field_countable : Countable field.
Proof.
  refine (inj_countable' (λ v, match v with FValue v => inl v | FTables l => inr (inl l) | FOther s => inr (inr s) end)
    (λ x, match x with inl v => FValue v | inr (inl l) => FTables l | inr (inr s) => FOther s end) _).
  by intros [].
Defined.
#[export] Instance entry_countable : Countable entry.
Proof.
  refine (inj_countable' (λ v, match v with EValue v => inl v | ETable t => inr (inl t) | EOther s => inr (inr s) end)
    (λ x, match x with inl v => EValue v | inr (inl t) => ETable t | inr (inr s) => EOther s end) _).
  by intros [].
Defined.

(** A printer that writes a document's code. *)
#[export] Instance toml : Toml :=
  {| toml_print d := of_bytes (Json.Example_json.to_bits (countable.encode d));
     toml_parse s := countable.decode (Json.Example_json.of_bits (bytes s)) |}.

#[export] Instance toml_laws : TomlLaws.
Proof.
  split. intros d. unfold toml_parse, toml_print, toml. rewrite bytes_of_bytes.
  - by rewrite Json.Example_json.of_to_bits, countable.decode_encode.
  - eapply Forall_impl; [apply Json.Example_json.to_bits_bit|]. unfold u8_max. by intros b [->| ->].
Qed.

(** Two servers, with or without a slash, and a page of one. *)
Inductive Site := Main | Own | Page.

#[export] Instance urls : Urls :=
  {| Url := Site;
     url_parse s :=
       if bool_decide (s ∈ ["https://filebeam.io"; "https://filebeam.io/"]) then Some Main
       else if bool_decide (s ∈ ["https://own.example"; "https://own.example/"]) then Some Own
       else if (s =? "https://own.example/?q=1")%string then Some Page else None;
     url_scheme _ := "https"; url_host _ := Some "host"; url_username _ := ""; url_password _ := None;
     url_query u := match u with Page => Some "q=1" | _ => None end; url_fragment _ := None;
     url_text u := match u with Main => "https://filebeam.io/" | _ => "https://own.example/" end |}.

#[export] Instance url_laws : UrlLaws.
Proof. split; [by vm_compute|]. intros [| |]; [exists Main|exists Own|]; vm_compute; done. Qed.

Definition good : Env := {| ready := Ok (); readable := Ok (); replaced := Done |}.
Definition broken : Env := {| ready := Ok (); readable := Ok (); replaced := FailedAfter |}.
Definition vars : Vars := {| FILEBEAM_HOME := None; FILEBEAM_INSTANCE := None; home_dir := Some "/home/u" |}.
Definition h : string := "/home/u/.filebeam".

Definition quiet (s : Settings) : Settings :=
  {| server := server s; updates := updates s; transfers := transfers s; webrtc := webrtc s;
     appearance := appearance s; cli := {| no_color := true |}; desktop := desktop s |}.
Definition notify (s : Settings) : Settings :=
  {| server := server s; updates := updates s; transfers := transfers s; webrtc := webrtc s;
     appearance := appearance s; cli := cli s;
     desktop := {| notifications := true; background_transfers := background_transfers (desktop s) |} |}.

Definition change (f : Settings → Settings) (c : Config) : Config :=
  {| home := home c; settings := f (settings c); baseline := baseline c |}.

(** The settings a load finds. *)
Definition found (fs : Files) : result string Settings :=
  settings <$> snd (load vars good None fs).

(** A document with flat keys is migrated once; nested values win, the rest of
    the document stays. *)
Definition flat : document :=
  {["check_updates" := EValue (VBool true); "memory_limit_mib" := EValue (VInt 768);
    "custom" := EValue (VInt 4);
    "updates" := ETable {["auto_update" := FValue (VBool false); "mine" := FValue (VStr "x")]}]}.

Definition seen (r : result string Config) : option (bool * Z) :=
  c ← res_opt r; Some (auto_update (updates (settings c)), memory_limit_mib (transfers (settings c))).
Definition entry_at (fs : Files) (key : string) : option entry :=
  text ← fs !! h; d ← toml_parse text; d !! key.

Example migrated_once :
  (let '(fs, r) := load vars good None {[h := toml_print flat]} in
   (seen r, entry_at fs "custom", bool_decide (fst (load vars good None fs) = fs)))
  = (Some (false, 768), Some (EValue (VInt 4)), true).
Proof. vm_compute. reflexivity. Qed.

(** A configuration that its own load created has no baseline: its save
    replaces what another client saved since. *)
Example created_configuration_overwrites :
  (let '(fs, r) := load vars good None ∅ in
   let '(fs, other) := load vars good None fs in
   match r, other with
   | Ok first, Ok second =>
       let '(fs, _) := save good (change notify second) fs in
       let '(fs, _) := save good (change quiet first) fs in
       (λ s, (no_color (cli s), notifications (desktop s))) <$> res_opt (found fs)
   | _, _ => None
   end) = Some (true, false).
Proof. vm_compute. reflexivity. Qed.

(** A setting that is changed, saved, changed back and saved stays changed: the
    baseline is still what was loaded. *)
Example changed_back_is_not_saved :
  (let '(fs, _) := load vars good None ∅ in
   match snd (load vars good None fs) with
   | Ok c =>
       let '(fs, _) := save good (change quiet c) fs in
       let '(fs, _) := save good c fs in
       (λ s, no_color (cli s)) <$> res_opt (found fs)
   | Err _ => None
   end) = Some true.
Proof. vm_compute. reflexivity. Qed.

(** A save checks the client's settings, not those it merges them with: over a
    file in which someone wrote a concurrency of 1000 it succeeds, and no later
    load accepts what it wrote. *)
Definition edited : Files :=
  {[h := toml_print {["schema_version" := EValue (VInt 1);
                      "transfers" := ETable {["max_concurrency" := FValue (VInt 1000)]}]}]}.

Example hand_edit_spoils_a_save :
  let '(fs, r) := save good {| home := h; settings := notify default_settings; baseline := Some default_settings |} edited in
  (r, is_ok (found fs), bool_decide (fs = edited)) = (Ok (), false, false).
Proof. vm_compute. reflexivity. Qed.

(** With an empty FILEBEAM_HOME, loading and updating mean different files. *)
Example empty_home_diverges :
  let v := {| FILEBEAM_HOME := Some ""; FILEBEAM_INSTANCE := None; home_dir := Some "/home/u" |} in
  load_home v None (FILEBEAM_HOME v) = ".filebeam" ∧ default_home v = "/home/u/.filebeam".
Proof. split; reflexivity. Qed.

(** ** Witnesses *)

Lemma sound_empty : sound ∅.
Proof. by intros ?? ?%lookup_empty_Some. Qed.

Definition history : list (Env * Op) :=
  [(broken, OLoad vars None (Some "https://own.example/") None); (good, OUpdate vars None quiet);
   (good, OSave {| home := h; settings := notify default_settings; baseline := Some default_settings |})].

Lemma history_typed : Forall (λ x, typed_op (snd x)) history.
Proof.
  unfold history. rewrite !Forall_cons. split_and!; cbn; [done|by intros s Hs|by split|done].
Qed.

Lemma config_survives_witness :
  sound (run history ∅) ∧
  ∃ fs c, load_with_legacy_settings vars good (Some h) None None (run history ∅) = (fs, Ok c) ∧
    validate (settings c) = Ok () ∧ reads fs h (normalized (settings c)).
Proof. exact (config_survives history vars good h history_typed eq_refl eq_refl eq_refl). Defined.

(** The settings that history leaves: the instance was imported once. *)
Example history_found :
  (λ s, (server_url (server s), no_color (cli s), notifications (desktop s))) <$> res_opt (found (run history ∅))
    = Some ("https://own.example", true, true).
Proof. vm_compute. reflexivity. Qed.

Definition updated : Files := fst (perform good (OUpdate vars None quiet) ∅).

Lemma updated_ok : perform good (OUpdate vars None quiet) ∅ = (updated, Ok ()).
Proof. rewrite (surjective_pairing (perform _ _ _)). apply f_equal. vm_compute. reflexivity. Qed.

Lemma written_reads_back_witness :
  ∃ s', s' = normalized (quiet default_settings) ∧ leaves ∅ updated h s' ∧
    ∀ v e' instance legacy, ready e' = Ok () → readable e' = Ok () →
      load_with_legacy_settings v e' (Some h) instance legacy updated = (updated, Ok (read_as h s')).
Proof.
  apply (written_reads_back good (OUpdate vars None quiet) ∅ updated default_settings).
  - apply sound_empty.
  - intros s Hs. exact Hs.
  - exists ∅, true. split; [reflexivity|apply from_empty].
  - apply updated_ok.
Defined.

(** A first load made the file; two clients loaded it and changed one setting each. *)
Definition made : Files := fst (load vars good None ∅).
Definition client (f : Settings → Settings) : Config :=
  {| home := h; settings := f default_settings; baseline := Some default_settings |}.
Notation saved f fs := (fst (save good (client f) fs)).

Lemma config_save_ok f fs : snd (save good (client f) fs) = Ok () → save good (client f) fs = (saved f fs, Ok ()).
Proof. intros Hs. rewrite (surjective_pairing (save _ _ _)), Hs. done. Qed.

Lemma config_made_ok : sound made ∧ current made h default_settings.
Proof.
  assert (E : load vars good None ∅ = (made, Ok {| home := h; settings := default_settings; baseline := None |})).
  { rewrite (surjective_pairing (load _ _ _ _)). apply f_equal. vm_compute. reflexivity. }
  pose proof (load_run _ _ _ _ _ _ _ _ sound_empty E) as [Hstep Hc]. split.
  - by eapply step_sound, Hstep; apply sound_empty.
  - destruct (Hc _ eq_refl) as (_ & Hr & _). exact (reads_current _ _ _ Hr).
Qed.

Lemma saves_merge_witness :
  ∃ s', reads (saved notify (saved quiet made)) h s' ∧ reads (saved quiet (saved notify made)) h s' ∧
    keeps s' (client quiet) default_settings ∧ keeps s' (client notify) default_settings.
Proof.
  apply (saves_merge good good (client quiet) default_settings (client notify) default_settings
    made (saved quiet made) _ (saved notify made) _ default_settings).
  - apply config_made_ok.
  - apply config_made_ok.
  - reflexivity.
  - reflexivity.
  - reflexivity.
  - split; [by unfold default_settings|done].
  - split; [by unfold default_settings|done].
  - repeat split; try (by left); by right.
  - apply config_save_ok. vm_compute. reflexivity.
  - apply config_save_ok. vm_compute. reflexivity.
  - apply config_save_ok. vm_compute. reflexivity.
  - apply config_save_ok. vm_compute. reflexivity.
Defined.

(** A TURN server whose credential the host knows. *)
Definition relayed : Settings :=
  {| server := server default_settings; updates := updates default_settings;
     transfers := transfers default_settings;
     webrtc := {| relay_only := true; ice_source := FromMerge;
                  ice_servers := [{| ice_url := "turn:turn.example:3478"; ice_credential_ref := Some "keyring:turn" |}] |};
     appearance := appearance default_settings; cli := cli default_settings; desktop := desktop default_settings |}.
Definition keyring : Ice.Resolver := λ _, Ok {| Ice.cred_username := "u"; Ice.cred_password := "p" |}.

Lemma config_ice_resolves_witness :
  is_ok (Ice.resolve (native_ice_override relayed (Some keyring)) []) = true.
Proof.
  apply config_ice_resolves; [vm_compute; reflexivity|].
  intros i r _ _. exists keyring, {| Ice.cred_username := "u"; Ice.cred_password := "p" |}. by split.
Defined.
End Example_config.
