(* ===== verification/Background.v ===== *)
(** * Background downloads (crates/transfer-native/src/protocol/{download,background}.rs)

    A prepared download is fetched by the operating system: the client lists the
    requests of the chunks it still needs, takes each completed response as a
    retained ciphertext, and once none is needed resumes in the foreground: the
    transfer is asked for and unlocked again ([Opening.reopen]) and the ciphertexts
    are authenticated ([Download.consume_background_ciphertext]).
    The operations work on the saved job; several processes may call them, one
    after the other. *)

From Stdlib Require Import Ascii String.
From S2P Require Import Prelude Str Codec Frame Encryption Control Http Monad Fetch Download Receive.
From S2P Require Fs Upload Checkpoint Json Manifest Sealing Opening.
Open Scope Z_scope.

Notation BackgroundWork := Upload.BackgroundWork.

Record DownloadItem := { d_id : string; d_name : string; d_size : Z }.

(** A response header: its name and its value. *)
Definition BackgroundHeader : Type := string * string.

(** What is at the response's path. *)
Inductive Node := Regular (content : list Z) | Irregular.

Section background.
Context `{World}.

Notation D := (SE State string).

(** [store.save(&job)] of a job that is not the one in memory. *)
Definition save_checkpoint (j : DownloadJob) : D () :=
  _ ← disk; _ ← modify (with_checkpoint j); disk.

(** [awaiting-execution] over HTTP, with nothing Turbo. *)
Definition awaiting_http (j : DownloadJob) : bool :=
  (state j =? "awaiting-execution")%string && (driver j =? "http")%string
  && match turbo j with None => true | Some _ => false end.

(** The saved job, if it is eligible. *)
Definition load_awaiting : D DownloadJob :=
  j ← get checkpoint;
  _ ← of_result (checked j);
  if negb (awaiting_http j) then fail "saved download is not eligible for external HTTP execution"
  else mret j.

(** The selection is frozen before the first request is given out; a caller that
    selected nothing gets everything. *)
Definition frozen (j : DownloadJob) : result string DownloadJob :=
  let ids := match selected_item_ids j with None => id <$> items j | Some ids => ids end in
  let j := set_selection (Some ids) (total j) (selection_frozen j) j in
  total ← selected_total j;
  Ok (set_selection (Some ids) total true j).

Definition freeze (j : DownloadJob) : D DownloadJob :=
  if selection_frozen j then mret j else
  j ← of_result (frozen j);
  _ ← save_checkpoint j;
  mret j.

Definition chunk_url (instance transfer item : string) (position : Z) (source : DownloadSource) : string :=
  match source with
  | Public =>
      instance +:+ "/api/v1/transfers/" +:+ transfer +:+ "/items/" +:+ item +:+ "/chunks/" +:+ decimal position
  | Inbox =>
      instance +:+ "/api/native/v1/inbox/" +:+ transfer +:+ "/items/" +:+ item +:+ "/chunks/"
      +:+ decimal position
  end.

Definition op_id (j : DownloadJob) (item : SavedItem) (index : Z) : string :=
  job_id j +:+ ":" +:+ id item +:+ ":" +:+ decimal index.

Definition has_line_break (s : string) : bool :=
  negb (bool_decide (no_char "013" s)) || negb (bool_decide (no_char "010" s)).

(** The headers of one request. *)
Definition work_headers (cookie : option string) : result string (list BackgroundHeader) :=
  match cookie with
  | Some cookie =>
      reject has_line_break cookie || is_empty cookie
        with "invalid authenticated inbox download credentials";
      Ok [("Cookie", cookie)]
  | None => Ok []
  end.

Definition work_of (j : DownloadJob) (headers : list BackgroundHeader) (item : SavedItem) (index : Z)
    : BackgroundWork :=
  {| Upload.operation_id := op_id j item index; Upload.work_transfer_id := job_id j; Upload.method := "GET";
     Upload.url := chunk_url (instance j) (transfer_id j) (id item) index (source j);
     Upload.headers := headers; Upload.body_path := "";
     Upload.expected_response_bytes := plaintext_len (size item) (chunk_bytes j) index + TAG_BYTES |}.

(** The chunks that are still needed, item by item. *)
Definition needed (j : DownloadJob) (retained : gmap (nat * Z) (list Z)) : list (nat * SavedItem * Z) :=
  e ← imap pair (items j);
  if selected j (snd e) then
    (λ index, (e, index)) <$>
      filter (λ index, is_verified (snd e) index = false ∧ retained !! (fst e, index) = None)
        (seqZ 0 (chunk_count (snd e)))
  else [].

Definition cookie_of (source : DownloadSource) (cookie : option string) : result string (option string) :=
  match source with
  | Public => Ok None
  | Inbox => c ← ok_or cookie "inbox background download requires a renewed cookie"; Ok (Some c)
  end.

(** [background_work] *)
Definition background_work (cookie : option string) : D (list BackgroundWork) :=
  j ← load_awaiting;
  j ← freeze j;
  cookie ← of_result (cookie_of (source j) cookie);
  retained ← get background;
  of_result (try_fold (λ work '(_, item, index),
      headers ← work_headers cookie;
      Ok (work ++ [work_of j headers item index]))
    [] (needed j retained)).

(** [validate_artifact_name] holds of these names; the temporary file is not
    modelled: the artifact appears whole, or not at all. *)
Definition persist_immutable (item_index : nat) (index : Z) (ciphertext : list Z) : D () :=
  if Checkpoint.MAX_IMMUTABLE_BYTES <? zlen ciphertext
  then fail "immutable ciphertext exceeds 25000000 byte limit" else
  present ← get (λ s, bool_decide (is_Some (background s !! (item_index, index))));
  if (present : bool) then fail "immutable ciphertext already exists" else
  _ ← disk;
  _ ← modify (λ s, with_ciphers (ciphers s) (<[(item_index, index) := ciphertext]> (background s)) s);
  disk.

(** The chunk of an item an operation names. *)
Definition item_chunk (j : DownloadJob) (operation_id : string) (e : nat * SavedItem) : option (nat * Z) :=
  match list_find (λ index, operation_id = op_id j (snd e) index) (seqZ 0 (chunk_count (snd e))) with
  | Some (_, index) => Some (fst e, index)
  | None => None
  end.

(** The chunk an operation names; the last item that has it. *)
Definition operation_chunk (j : DownloadJob) (operation_id : string) : option (nat * Z) :=
  foldl (λ found e, match item_chunk j operation_id e with Some c => Some c | None => found end)
    None (imap pair (items j)).

(** The first header of this name, in any case. *)
Definition find_header (name : string) (headers : list BackgroundHeader) : option string :=
  snd ∘ snd <$> list_find (λ h, to_ascii_lowercase (fst h) = name) headers.

Definition strong_etag (headers : list BackgroundHeader) : result string string :=
  etag ← ok_or (find_header "etag" headers) "background download response lacks strong ETag";
  reject is_empty etag || starts_with "W/" etag || has_line_break etag
    with "background download ETag must be strong";
  Ok etag.

(** [ingest_background_completion] *)
Definition ingest_background_completion (operation_id : string) (status : Z)
    (response_headers : list BackgroundHeader) (response : option Node) : D () :=
  j ← load_awaiting;
  if negb (status =? 200) then fail "background download did not receive HTTP 200" else
  '(item_index, index) ← of_result (ok_or (operation_chunk j operation_id)
      "background completion does not match a pending download operation");
  item ← of_result (ok_or (items j !! item_index) "index out of bounds");
  if negb (selection_frozen j) || negb (selected j item)
  then fail "background completion is not for a selected download item" else
  if is_verified item index then mret () else
  let expected := plaintext_len (size item) (chunk_bytes j) index + TAG_BYTES in
  _ ← of_result (validate_content_length (find_header "content-length" response_headers) expected);
  _ ← of_result (strong_etag response_headers);
  response ← of_result (ok_or response "inspect background download file");
  match response with
  | Irregular => fail "background download response file length mismatch"
  | Regular ciphertext =>
      if negb (zlen ciphertext =? expected)
      then fail "background download response file length mismatch" else
      _ ← disk;
      retained ← get (λ s, background s !! (item_index, index));
      match retained with
      | Some old =>
          _ ← disk;
          if bool_decide (old = ciphertext) then mret ()
          else fail "background download completion conflicts with retained ciphertext"
      | None => persist_immutable item_index index ciphertext
      end
  end.

(** [background_items] *)
Definition background_items (j : DownloadJob) : result string (list DownloadItem) :=
  _ ← checked j;
  reject negb (eligible j) with "saved download is not eligible for item selection";
  Ok ((λ i, {| d_id := id i; d_name := name i; d_size := size i |}) <$> items j).

(** A process that resumes has, beside the job and its files, the saved share key
    and the note it shows. *)
Notation F := (SE (Opening.Setup * State) string).
Definition on_job {A} (m : D A) : F A := λ '(u, s), let '(s', r) := m s in ((u, s'), r).
Definition on_setup {A} (m : SE Opening.Setup string A) : F A :=
  λ '(u, s), let '(u', r) := m u in ((u', s), r).

(** The account whose inbox a transfer is in: its instance, its working key and
    its renewed cookie. *)
Record Session := { s_instance : string; s_working_key : list Z; s_cookie : string }.

(** How a resume goes on: it returns the paths of a complete job, or calls
    [download] with the key and the join token. *)
Inductive Resumed := Paths (paths : list Fs.path) | Running (master : list Z) (join_token : option string).

Section finalize.
Context `{Ae : Aead, Kd : Kdf, Co : Codec, Js : Json.JsonText, Me : Sealing.Memory}.
Context (e : Opening.Env) (stored : result string (option (list Z))).

(** [async_resume] up to the call of [download]; [stored] is the saved share key,
    [e] what the user and the server do. *)
Definition async_resume (inbox_key : option (list Z)) (j : DownloadJob) : F Resumed :=
  if (state j =? "complete")%string then
    files ← on_job (get outputs);
    paths ← of_result (Opening.completed_paths files j);
    mret (Paths paths)
  else
    '(j, master, token) ← on_setup (Opening.reopen e inbox_key stored j);
    _ ← on_job (_ ← modify (with_job j); rebuild master);
    mret (Running master token).

Definition load_checked : D DownloadJob :=
  j ← get checkpoint;
  _ ← of_result (checked j);
  mret j.

(** [download::resume] and [download::resume_inbox] *)
Definition resume_public : F Resumed :=
  j ← on_job load_checked;
  match source j with
  | Inbox => fail "inbox download resume requires reauthentication"
  | Public => async_resume None j
  end.

Definition resume_inbox (session : Session) : F Resumed :=
  if negb (zlen (s_working_key session) =? 32) || is_empty (s_cookie session)
     || has_line_break (s_cookie session)
  then fail "invalid authenticated inbox download credentials" else
  j ← on_job load_checked;
  match source j with
  | Public => fail "saved transfer is not an inbox download"
  | Inbox =>
      if negb (instance j =? s_instance session)%string
      then fail "inbox session origin does not match the saved download"
      else async_resume (Some (s_working_key session)) j
  end.

(** [finalize_download], and [finalize_inbox_download] of a session, up to the
    foreground download that publishes. *)
Definition finalize (session : option Session) : F Resumed :=
  pending ← on_job (background_work (s_cookie <$> session));
  if negb (bool_decide (pending = [])) then
    fail (match session with
          | None => "background download still has unreceived operations"
          | Some _ => "background inbox download still has unreceived operations"
          end)
  else match session with None => resume_public | Some session => resume_inbox session end.
End finalize.
End background.

(** ** Operations and chunks *)

(** Items as manifest validation leaves them: ids of their own, counts that fit. *)
Definition listed (j : DownloadJob) : Prop :=
  NoDup (id <$> items j) ∧ ∀ i, i ∈ items j → is_u64 (chunk_count i).

Lemma op_id_inj j i i' k k' :
  is_u64 k → is_u64 k' → op_id j i k = op_id j i' k' → id i = id i' ∧ k = k'.
Proof.
  intros Hk Hk' H. unfold op_id in H. apply append_inj_r, append_inj_r in H.
  assert (Hr : ∀ i k, is_u64 k → rsplit_once ":" (id i +:+ ":" +:+ decimal k) = Some (id i, decimal k)).
  { intros x y Hy. apply rsplit_once_char, decimal_no_char; done. }
  pose proof (Hr i k Hk) as H1. rewrite H, (Hr i' k' Hk') in H1. injection H1 as -> Hd. split; [done|].
  pose proof (parse_decimal k Hk) as P1. rewrite <- Hd, (parse_decimal k' Hk') in P1. by injection P1.
Qed.

Lemma listed_id j n m i i' :
  listed j → items j !! n = Some i → items j !! m = Some i' → id i = id i' → n = m ∧ i = i'.
Proof.
  intros [Hn _] Hi Hi' He. assert (n = m) as ->; [|rewrite Hi in Hi'; by injection Hi'].
  eapply NoDup_lookup; [exact Hn|by rewrite list_lookup_fmap, Hi|by rewrite list_lookup_fmap, Hi', He].
Qed.

(** A fold that keeps the last thing found. *)
Lemma foldl_last {A B} (f : A → option B) (l : list A) b :
  (∀ x y c d, x ∈ l → y ∈ l → f x = Some c → f y = Some d → c = d) →
  foldl (λ found x, match f x with Some c => Some c | None => found end) None l = Some b ↔
  ∃ x, x ∈ l ∧ f x = Some b.
Proof.
  induction l as [|a l IH] using rev_ind; intros Hu; cbn.
  { split; [done|]. by intros (x & []%elem_of_nil & _). }
  rewrite foldl_app. cbn. destruct (f a) as [c|] eqn:Ea.
  - split.
    + intros [= ->]. exists a. split; [set_solver|done].
    + intros (x & Hx & Hf). f_equal. apply (Hu a x); [set_solver..|done|done].
  - rewrite IH by (intros x y c d Hx Hy; apply Hu; set_solver). split.
    + intros (x & Hx & Hf). exists x. split; [set_solver|done].
    + intros (x & [Hx| ->%list_elem_of_singleton]%elem_of_app & Hf); [by exists x|congruence].
Qed.

Lemma chunk_found j i op k :
  (∀ k', 0 ≤ k' < chunk_count i → is_u64 k') →
  (∃ m, list_find (λ index, op = op_id j i index) (seqZ 0 (chunk_count i)) = Some (m, k)) ↔
  0 ≤ k < chunk_count i ∧ op = op_id j i k.
Proof.
  intros Hu. split.
  - intros (m & Hf). apply list_find_Some in Hf as (Hm & Hop & _).
    apply lookup_seqZ in Hm as [-> Hm]. split; [lia|done].
  - intros [Hk Hop]. exists (Z.to_nat k). apply list_find_Some. split_and!.
    + apply lookup_seqZ. lia.
    + done.
    + intros m k' Hm' Hlt Hop'. apply lookup_seqZ in Hm' as [-> Hb]. rewrite Hop in Hop'.
      apply op_id_inj in Hop' as [_ He]; [lia|apply Hu; lia|apply Hu; lia].
Qed.

(** The chunk an operation names is the one whose operation it is. *)
Lemma operation_chunk_spec j op n k :
  listed j →
  operation_chunk j op = Some (n, k) ↔
  ∃ i, items j !! n = Some i ∧ 0 ≤ k < chunk_count i ∧ op = op_id j i k.
Proof.
  intros Hl. assert (Hu : ∀ m i k', items j !! m = Some i → 0 ≤ k' < chunk_count i → is_u64 k').
  { intros m i k' Hi Hk. apply list_elem_of_lookup_2, (proj2 Hl) in Hi. unfold is_u64 in *. lia. }
  assert (Hf : ∀ m i b, items j !! m = Some i → item_chunk j op (m, i) = Some b ↔
    ∃ k', b = (m, k') ∧ 0 ≤ k' < chunk_count i ∧ op = op_id j i k').
  { intros m i [m' k'] Hi. unfold item_chunk. cbn. pose proof (chunk_found j i op) as Hc. split.
    - destruct (list_find _ _) as [[x y]|] eqn:E; [|done]. intros [= <- <-]. exists y. split; [done|].
      apply Hc; [by eauto|]. by exists x.
    - intros (y & [= -> ->] & Hy). apply Hc in Hy as [x ->]; [done|by eauto]. }
  assert (Hin : ∀ m i, (m, i) ∈ imap pair (items j) ↔ items j !! m = Some i).
  { intros m i. rewrite elem_of_lookup_imap. split; [by intros (? & ? & [= -> ->] & ?)|eauto]. }
  unfold operation_chunk. rewrite foldl_last.
  2: { intros [m i] [m' i'] c d H1%Hin H2%Hin Hc%(Hf _ _ _ H1) Hd%(Hf _ _ _ H2).
    destruct Hc as (x & -> & Hx & ->), Hd as (y & -> & Hy & Hop).
    apply op_id_inj in Hop as [He ->]; [|by eauto..].
    by destruct (listed_id _ _ _ _ _ Hl H1 H2 He) as [-> _]. }
  split.
  - intros ([m i] & Hi%Hin & Hc%(Hf _ _ _ Hi)). destruct Hc as (x & [= <- <-] & Hx). by exists i.
  - intros (i & Hi & Hk). exists (n, i). split; [by apply Hin|]. apply Hf; [done|]. by exists k.
Qed.

Lemma elem_of_needed j retained n i k :
  (n, i, k) ∈ needed j retained ↔
  items j !! n = Some i ∧ selected j i = true ∧ 0 ≤ k < chunk_count i ∧ is_verified i k = false ∧
  retained !! (n, k) = None.
Proof.
  unfold needed. rewrite list_elem_of_bind. split.
  - intros ([m i'] & Hx & (m' & i'' & [= -> ->] & Hi)%elem_of_lookup_imap). cbn in Hx.
    destruct (selected j i'') eqn:Es; [|by apply elem_of_nil in Hx].
    apply list_elem_of_fmap in Hx as (k' & [= -> -> ->] & [[Hv Hr] Hk%elem_of_seqZ]%list_elem_of_filter).
    split_and!; try done; lia.
  - intros (Hi & Hs & Hk & Hv & Hr). exists (n, i). split; [|apply elem_of_lookup_imap; eauto]. cbn. rewrite Hs.
    apply list_elem_of_fmap. exists k. split; [done|]. apply list_elem_of_filter. split; [done|].
    apply elem_of_seqZ. lia.
Qed.

(** What freezing the selection keeps. *)
Record refrozen (j j' : DownloadJob) : Prop := {
  rf_frozen : selection_frozen j' = true;
  rf_same : (job_id j', state j', driver j', turbo j', transfer_id j', chunk_bytes j', instance j', source j', items j')
    = (job_id j, state j, driver j, turbo j, transfer_id j, chunk_bytes j, instance j, source j, items j);
  rf_selected : ∀ i, i ∈ items j → selected j' i = selected j i;
  rf_checked : checked j' = Ok () }.

Lemma bad_selection_all j : NoDup (id <$> items j) → items j ≠ [] → bad_selection j (id <$> items j) = false.
Proof.
  intros Hn Hne. unfold bad_selection. rewrite bool_decide_eq_false_2; [|by destruct (items j)].
  rewrite (bool_decide_eq_true_2 (NoDup _)) by done. cbn. apply not_true_is_false.
  intros (x & Hx%list_elem_of_In & Hf)%existsb_exists. apply negb_true_iff in Hf.
  apply list_elem_of_fmap in Hx as (i & -> & Hi). assert (has_item j (id i) = true); [|congruence].
  apply existsb_exists. exists i. rewrite String.eqb_refl. split; [by apply list_elem_of_In|done].
Qed.

Lemma frozen_Ok j j' :
  checked j = Ok () → NoDup (id <$> items j) → items j ≠ [] → frozen j = Ok j' → refrozen j j'.
Proof.
  unfold frozen, mbind, result_bind. intros Hc Hn Hne. set (ids := match selected_item_ids j with None => _ | Some _ => _ end).
  destruct (selected_total _) as [t|]; [|done]. intros [= <-]. split; [done|done| |].
  - intros i Hi. unfold selected. cbn. subst ids. destruct (selected_item_ids j); [done|].
    apply existsb_exists. exists (id i). rewrite String.eqb_refl. split; [|done].
    by apply list_elem_of_In, list_elem_of_fmap_2.
  - unfold checked in Hc |- *. guards Hc. cbv zeta.
    match goal with |- (if ?c then _ else _) = _ => replace c with false by (symmetry; exact Heqb) end.
    change (selected_item_ids (set_selection (Some ids) t true _)) with (Some ids). cbv beta iota.
    change (bad_selection _ ids) with (bad_selection j ids).
    assert (Hb : bad_selection j ids = false).
    { subst ids. destruct (selected_item_ids j); [done|by apply bad_selection_all]. }
    by rewrite Hb, bool_decide_false, andb_false_r.
Qed.

Section properties.
Context `{Wo : World}.

(** What background operations leave alone. *)
Definition beside (s s' : State) : Prop :=
  (job s', ciphers s', plains s', outputs s', receiving s', progress s')
    = (job s, ciphers s, plains s, outputs s, receiving s, progress s).

Lemma disk_run s s' r : disk s = (s', r) → s' = tick s.
Proof. unfold disk. by intros [= <- _]. Qed.

Lemma save_checkpoint_run j s s' r :
  save_checkpoint j s = (s', r) → s' = tick s ∧ r ≠ Ok () ∨ s' = tick (with_checkpoint j (tick s)).
Proof.
  unfold save_checkpoint. intros [(e & Hd%disk_run & ->)|(s1 & [] & Hd%disk_run & Hr)]%bind_run; subst.
  - by left.
  - apply bind_run in Hr as [(e & [=] & _)|(s2 & [] & [= <-] & Hr%disk_run)]. by right.
Qed.

Lemma load_awaiting_run s s' r :
  load_awaiting s = (s', r) →
  s' = s ∧ ∀ j, r = Ok j → j = checkpoint s ∧ checked j = Ok () ∧ awaiting_http j = true.
Proof.
  unfold load_awaiting. intros [(e & [=] & _)|(s1 & j & [= <- <-] & Hr)]%bind_run.
  apply bind_run in Hr as [(e & [= <- _] & ->)|(s1 & [] & [= <- Hc] & Hr)]; [done|].
  destruct (awaiting_http (checkpoint s)) eqn:Ea; injection Hr as <- <-; [|done].
  split; [done|]. by intros j [= <-].
Qed.

Lemma refrozen_refl j : selection_frozen j = true → checked j = Ok () → refrozen j j.
Proof. by split. Qed.

Lemma freeze_run s s' r :
  listed (checkpoint s) → items (checkpoint s) ≠ [] → checked (checkpoint s) = Ok () →
  freeze (checkpoint s) s = (s', r) →
  background s' = background s ∧ beside s s' ∧
  (checkpoint s' = checkpoint s ∨ refrozen (checkpoint s) (checkpoint s')) ∧
  ∀ j, r = Ok j → checkpoint s' = j ∧ refrozen (checkpoint s) j.
Proof.
  intros [Hl _] Hne Hc. unfold freeze. destruct (selection_frozen (checkpoint s)) eqn:Ef.
  { intros [= <- <-]. split_and!; [done|done|by left|]. intros j [= <-]. split; [done|by apply refrozen_refl]. }
  intros [(e & [= <- _] & ->)|(s1 & j & [= <- Hj] & Hr)]%bind_run; [split_and!; try done; by left|].
  apply frozen_Ok in Hj as Hf; [|done..].
  apply bind_run in Hr as [(e & Hs & ->)|(s2 & [] & Hs & Hr)];
    apply save_checkpoint_run in Hs as [[-> He]| ->]; try done.
  { split_and!; try done. by left. }
  { split_and!; try done. by right. }
  injection Hr as <- <-.
  split_and!; [done|done|by right|]. by intros j' [= <-].
Qed.

Lemma work_fold cookie j l acc work :
  try_fold (λ work (e : nat * SavedItem * Z), let '(_, item, index) := e in
    headers ← work_headers cookie; Ok (work ++ [work_of j headers item index])) acc l = Ok work →
  ∃ headers, work = acc ++ ((λ '(_, item, index), work_of j headers item index) <$> l) ∧
    (l ≠ [] → work_headers cookie = Ok headers).
Proof.
  revert acc. induction l as [|[[n i] k] l IH]; intros acc; cbn [try_fold].
  - intros [= <-]. exists []. by rewrite app_nil_r.
  - destruct (work_headers cookie) as [h|] eqn:Eh; [|done]. cbn [mbind result_bind].
    intros (h' & -> & Hh)%IH. destruct l as [|e l].
    + exists h. by rewrite app_nil_r.
    + specialize (Hh ltac:(done)). injection Hh as <-. exists h. by rewrite <- app_assoc.
Qed.

(** The requests of a job: one for every chunk that is still needed. *)
Definition requests (j : DownloadJob) (headers : list BackgroundHeader) (retained : gmap (nat * Z) (list Z))
    : list BackgroundWork :=
  (λ '(_, item, index), work_of j headers item index) <$> needed j retained.

Lemma background_work_run cookie s s' r :
  listed (checkpoint s) → items (checkpoint s) ≠ [] →
  background_work cookie s = (s', r) →
  background s' = background s ∧ beside s s' ∧
  (checkpoint s' = checkpoint s ∨ refrozen (checkpoint s) (checkpoint s')) ∧
  ∀ work, r = Ok work →
    refrozen (checkpoint s) (checkpoint s') ∧ awaiting_http (checkpoint s) = true ∧
    is_ok (cookie_of (source (checkpoint s')) cookie) = true ∧
    ∃ headers, work = requests (checkpoint s') headers (background s').
Proof.
  intros Hl Hne. unfold background_work.
  intros [(e & Hm & ->)|(s1 & j & Hm & Hr)]%bind_run; apply load_awaiting_run in Hm as [-> Hj].
  { split_and!; try done. by left. }
  destruct (Hj j eq_refl) as (-> & Hc & Ha).
  apply bind_run in Hr as [(e & Hm & ->)|(s2 & j & Hm & Hr)];
    apply freeze_run in Hm as (Hb & Hk & Hck & Hok); try done.
  destruct (Hok j eq_refl) as [Hcj Hf].
  apply bind_run in Hr as [(e & [= <- _] & ->)|(s3 & c & [= <- Hco] & Hr)]; [by split_and!|].
  apply bind_run in Hr as [(e & [=] & _)|(s4 & b & [= <- <-] & Hr)]. injection Hr as <- <-.
  split_and!; try done. intros work (h & -> & _)%work_fold.
  split_and!; [by rewrite Hcj|done|by rewrite Hcj, Hco|].
  exists h. by rewrite Hcj.
Qed.

Lemma needed_NoDup j retained : NoDup (needed j retained).
Proof.
  unfold needed. apply NoDup_bind.
  - intros [n i] [n' i'] [[m x] k] _ _ H1 H2. cbn in H1, H2.
    destruct (selected j i); [|by apply elem_of_nil in H1]. destruct (selected j i'); [|by apply elem_of_nil in H2].
    apply list_elem_of_fmap in H1 as (? & [= -> -> ->] & _). by apply list_elem_of_fmap in H2 as (? & [= -> -> ->] & _).
  - intros [n i] _. cbn. destruct (selected j i); [|constructor].
    apply NoDup_fmap_2; [by intros ?? [=]|]. apply NoDup_filter, NoDup_seqZ.
  - apply NoDup_alt. intros a b [n i] Ha Hb. apply list_lookup_imap_Some in Ha as (? & _ & [= -> ->]).
    apply list_lookup_imap_Some in Hb as (? & _ & [= -> ->]). done.
Qed.

(** A response that completes a request: the right status and headers, and a
    file of the expected length. *)
Definition completes (j : DownloadJob) (i : SavedItem) (k : Z) (status : Z)
    (headers : list BackgroundHeader) (response : option Node) (c : list Z) : Prop :=
  status = 200 ∧ response = Some (Regular c) ∧
  zlen c = plaintext_len (size i) (chunk_bytes j) k + TAG_BYTES ∧
  validate_content_length (find_header "content-length" headers) (zlen c) = Ok () ∧
  is_ok (strong_etag headers) = true.

(** One chunk's ciphertext is retained. *)
Definition retains (op : string) (status : Z) (headers : list BackgroundHeader) (response : option Node)
    (s s' : State) : Prop :=
  ∃ n i k c, (n, i, k) ∈ needed (checkpoint s) (background s) ∧ op = op_id (checkpoint s) i k ∧
    selection_frozen (checkpoint s) = true ∧
    completes (checkpoint s) i k status headers response c ∧
    background s' = <[(n, k) := c]> (background s).

Lemma persist_immutable_run n k c s s' r :
  persist_immutable n k c s = (s', r) →
  checkpoint s' = checkpoint s ∧ beside s s' ∧
  (background s' = background s ∧ r ≠ Ok () ∨
   background s !! (n, k) = None ∧ background s' = <[(n, k) := c]> (background s)).
Proof.
  unfold persist_immutable. destruct (_ <? _); [intros [= <- <-]; split_and!; [done|done|by left]|].
  intros [(e & [=] & _)|(s1 & b & [= <- <-] & Hr)]%bind_run. case_bool_decide as Hb.
  { injection Hr as <- <-. split_and!; [done|done|by left]. }
  assert (Hn : background s !! (n, k) = None) by (by destruct (background s !! (n, k)); [destruct Hb|]).
  apply bind_run in Hr as [(e & Hd%disk_run & ->)|(s2 & [] & Hd%disk_run & Hr)]; subst.
  { split_and!; [done|done|by left]. }
  apply bind_run in Hr as [(e & [=] & _)|(s3 & [] & [= <-] & Hr)]. apply disk_run in Hr as ->.
  split_and!; [done|done|by right].
Qed.

Lemma completion_run op status headers response s s' r :
  listed (checkpoint s) →
  ingest_background_completion op status headers response s = (s', r) →
  checkpoint s' = checkpoint s ∧ beside s s' ∧
  (background s' = background s ∨ retains op status headers response s s') ∧
  (r = Ok () → ∃ n i k, items (checkpoint s) !! n = Some i ∧ 0 ≤ k < chunk_count i ∧
     op = op_id (checkpoint s) i k ∧ selected (checkpoint s) i = true ∧
     (n, i, k) ∉ needed (checkpoint s) (background s')).
Proof.
  intros Hl. unfold ingest_background_completion.
  assert (Hstop : ∀ x e, x = s ∨ x = tick s ∨ x = tick (tick s) → (x, Err e) = (s', r) →
    checkpoint s' = checkpoint s ∧ beside s s' ∧
    (background s' = background s ∨ retains op status headers response s s') ∧
    (r = Ok () → ∃ n i k, items (checkpoint s) !! n = Some i ∧ 0 ≤ k < chunk_count i ∧
     op = op_id (checkpoint s) i k ∧ selected (checkpoint s) i = true ∧
     (n, i, k) ∉ needed (checkpoint s) (background s'))).
  { intros x e Hx [= <- <-]. destruct Hx as [->|[->| ->]]; split_and!; try done; by left. }
  intros [(e & Hm & ->)|(s1 & j & Hm & Hr)]%bind_run; apply load_awaiting_run in Hm as [-> Hj].
  { by apply (Hstop s e); [left|]. }
  destruct (Hj j eq_refl) as (-> & Hc & Ha).
  destruct (negb (status =? 200)) eqn:Es; [by eapply Hstop, Hr; left|]. bool_prop.
  apply bind_run in Hr as [(e & [= <- _] & ->)|(s2 & [n k] & [= <- Ho] & Hr)]; [by eapply Hstop; [left|]|].
  destruct (operation_chunk _ op) as [nk|] eqn:Eo; [|done]. injection Ho as ->.
  apply operation_chunk_spec in Eo as (i & Hi & Hk & Hop); [|done].
  apply bind_run in Hr as [(e & [= <- _] & ->)|(s2 & item & [= <- Ho] & Hr)]; [by eapply Hstop; [left|]|].
  rewrite Hi in Ho. injection Ho as <-.
  destruct (negb _ || negb _) eqn:Ef; [by eapply Hstop, Hr; left|]. bool_prop.
  destruct (is_verified i k) eqn:Ev.
  { injection Hr as <- <-. split_and!; try done; [by left|]. intros _. exists n, i, k. split_and!; try done; try lia.
    intros Hin%elem_of_needed. destruct Hin as (_ & _ & _ & Hv & _). congruence. }
  apply bind_run in Hr as [(e & [= <- _] & ->)|(s2 & [] & [= <- Hlen] & Hr)]; [by eapply Hstop; [left|]|].
  apply bind_run in Hr as [(e & [= <- _] & ->)|(s2 & etag & [= <- Het] & Hr)]; [by eapply Hstop; [left|]|].
  apply bind_run in Hr as [(e & [= <- _] & ->)|(s2 & node & [= <- Hn] & Hr)]; [by eapply Hstop; [left|]|].
  destruct response as [node'|]; [|done]. injection Hn as ->.
  destruct node as [c|]; [|by eapply Hstop, Hr; left].
  destruct (negb (zlen c =? _)) eqn:Ec; [by eapply Hstop, Hr; left|]. bool_prop.
  apply bind_run in Hr as [(e & Hd%disk_run & ->)|(s2 & [] & Hd%disk_run & Hr)]; subst s2 || subst.
  { eapply (Hstop (tick s)); [by right; left|done]. }
  apply bind_run in Hr as [(e & [=] & _)|(s2 & old & [= <- <-] & Hr)]. cbn [background tick] in Hr.
  destruct (background s !! (n, k)) as [old|] eqn:Eb.
  - apply bind_run in Hr as [(e & Hd%disk_run & ->)|(s2 & [] & Hd%disk_run & Hr)].
    { subst. eapply (Hstop (tick (tick s))); [by right; right|done]. }
    subst. case_bool_decide; injection Hr as <- <-.
    + split_and!; try done; [by left|]. intros _. exists n, i, k. split_and!; try done; try lia.
      intros Hin%elem_of_needed. destruct Hin as (_ & _ & _ & _ & Hb). cbn in Hb. congruence.
    + eapply (Hstop (tick (tick s))); [by right; right|done].
  - apply persist_immutable_run in Hr as (Hck & Hbe & Hb). cbn [background tick] in Hb.
    assert (Hin : (n, i, k) ∈ needed (checkpoint s) (background s)) by (by apply elem_of_needed; split_and!; try lia).
    assert (Hcomp : completes (checkpoint s) i k status headers (Some (Regular c)) c).
    { split_and!; try done; [by rewrite Ec|by rewrite Het]. }
    split_and!; [done|done|destruct Hb as [[-> _]|[_ Hb]]; [by left|right]|].
    + by exists n, i, k, c.
    + intros ->. destruct Hb as [[_ []]|[_ Hb]]; [done|]. exists n, i, k. split_and!; try done; try lia.
      intros Hx%elem_of_needed. destruct Hx as (_ & _ & _ & _ & Hx). rewrite Hb, lookup_insert_eq in Hx. done.
Qed.

(** A completion adds one ciphertext, or nothing. Whatever the operating
    system hands over, and whatever I/O fails, ingesting it changes nothing of
    the saved job, the plaintext or the published files, and of the retained
    ciphertexts at most this: the chunk that the operation names, of a selected
    item, still needed and never before retained, gets the content of a regular
    file of exactly its length, received with status 200 and a strong validator.
    What was retained stays as it was; and a completion that was accepted names a
    chunk of a selected item that is not needed any more. *)
Theorem completion_safe op status headers response s s' r :
  listed (checkpoint s) →
  ingest_background_completion op status headers response s = (s', r) →
  checkpoint s' = checkpoint s ∧ beside s s' ∧
  (background s' = background s ∨ retains op status headers response s s') ∧
  (∀ n k c, background s !! (n, k) = Some c → background s' !! (n, k) = Some c) ∧
  (r = Ok () → ∃ n i k, items (checkpoint s) !! n = Some i ∧ 0 ≤ k < chunk_count i ∧
     op = op_id (checkpoint s) i k ∧ selected (checkpoint s) i = true ∧
     (n, i, k) ∉ needed (checkpoint s) (background s')).
Proof.
  intros Hl Hr. destruct (completion_run _ _ _ _ _ _ _ Hl Hr) as (Hc & Hb & Hor & Hok). split_and!; try done.
  intros n k c Hn. destruct Hor as [->|(m & i & k' & c' & Hin & _ & _ & _ & ->)]; [done|].
  apply elem_of_needed in Hin as (_ & _ & _ & _ & Hx). rewrite lookup_insert_ne; [done|]. intros [= -> ->]. congruence.
Qed.

(** What the operating system hands over, one after the other. *)
Record Completion := {
  c_operation : string; c_status : Z; c_headers : list BackgroundHeader; c_response : option Node }.

Definition ingest (x : Completion) (s : State) : State :=
  fst (ingest_background_completion (c_operation x) (c_status x) (c_headers x) (c_response x) s).

Definition ingest_all (l : list Completion) (s : State) : State := foldl (λ s x, ingest x s) s l.

Lemma ingest_keeps x s :
  listed (checkpoint s) →
  checkpoint (ingest x s) = checkpoint s ∧ beside s (ingest x s) ∧
  ∀ e, e ∈ needed (checkpoint s) (background (ingest x s)) → e ∈ needed (checkpoint s) (background s).
Proof.
  intros Hl. unfold ingest. destruct (ingest_background_completion _ _ _ _ s) as [s' r] eqn:E. cbn.
  destruct (completion_run _ _ _ _ _ _ _ Hl E) as (Hc & Hb & Hor & _). split_and!; [done|done|].
  intros [[n i] k] Hin%elem_of_needed. apply elem_of_needed. destruct Hin as (Hi & Hs & Hk & Hv & Hn).
  split_and!; try done; try lia. destruct Hor as [<-|(m & i' & k' & c' & _ & _ & _ & _ & Hx)]; [done|].
  rewrite Hx in Hn. by apply lookup_insert_None in Hn as [].
Qed.

Lemma disk_ok s : (∀ t, io_fault t = None) → disk s = (tick s, Ok ()).
Proof. intros Hio. unfold disk. by rewrite Hio. Qed.

(** Without I/O errors a proper completion is kept. *)
Lemma ingest_completes n i k c x s :
  (∀ t, io_fault t = None) → listed (checkpoint s) → checked (checkpoint s) = Ok () →
  awaiting_http (checkpoint s) = true → selection_frozen (checkpoint s) = true →
  items (checkpoint s) !! n = Some i → selected (checkpoint s) i = true → 0 ≤ k < chunk_count i →
  c_operation x = op_id (checkpoint s) i k →
  completes (checkpoint s) i k (c_status x) (c_headers x) (c_response x) c →
  zlen c ≤ Checkpoint.MAX_IMMUTABLE_BYTES →
  (n, i, k) ∉ needed (checkpoint s) (background (ingest x s)).
Proof.
  intros Hio Hl Hc Ha Hf Hi Hs Hk Hop (Hst & Hres & Hlen & Hcl & Het) Hmax Hin%elem_of_needed.
  destruct Hin as (_ & _ & _ & Hv & Hn). unfold ingest in Hn.
  destruct (ingest_background_completion _ _ _ _ s) as [s' r] eqn:E. cbn in Hn.
  unfold ingest_background_completion in E.
  erewrite bind_Ok in E. 2: { unfold load_awaiting, get, of_result, mbind, SE_bind. by rewrite Hc, Ha. }
  rewrite Hst in E. cbn [Z.eqb Pos.eqb negb] in E.
  assert (Ho : operation_chunk (checkpoint s) (c_operation x) = Some (n, k)).
  { apply operation_chunk_spec; [done|]. by exists i. }
  erewrite bind_Ok in E by by rewrite Ho. cbv beta iota in E.
  erewrite bind_Ok in E by by rewrite Hi. rewrite Hf, Hs, Hv in E. cbn [negb orb] in E. cbv zeta in E.
  rewrite Hlen in Hcl. erewrite bind_Ok in E by by rewrite Hcl.
  destruct (strong_etag (c_headers x)) as [etag|]; [|done]. erewrite bind_Ok in E by reflexivity.
  erewrite bind_Ok in E by by rewrite Hres. cbv beta iota in E. rewrite Hlen, Z.eqb_refl in E. cbn [negb] in E.
  erewrite bind_Ok in E by by apply disk_ok. erewrite bind_Ok in E by reflexivity. cbn [background tick] in E.
  destruct (background s !! (n, k)) as [old|] eqn:Eb.
  - erewrite bind_Ok in E by by apply disk_ok. case_bool_decide; injection E as <- _; cbn in Hn; congruence.
  - unfold persist_immutable in E. rewrite (proj2 (Z.ltb_ge _ _)) in E by lia.
    erewrite bind_Ok in E by reflexivity. cbn [background tick] in E. rewrite Eb in E.
    rewrite bool_decide_eq_false_2 in E by by intros [].
    erewrite bind_Ok in E by by apply disk_ok. erewrite bind_Ok in E by reflexivity.
    rewrite disk_ok in E by done. injection E as <- _. cbn in Hn. by rewrite lookup_insert_eq in Hn.
Qed.

Lemma ingest_all_keeps l s :
  listed (checkpoint s) →
  checkpoint (ingest_all l s) = checkpoint s ∧ beside s (ingest_all l s) ∧
  ∀ e, e ∈ needed (checkpoint s) (background (ingest_all l s)) → e ∈ needed (checkpoint s) (background s).
Proof.
  unfold ingest_all. revert s. induction l as [|x l IH]; intros s Hl; [by split_and!|]. cbn [foldl].
  destruct (ingest_keeps x s Hl) as (Hc & Hb & Hn). rewrite <- Hc in Hl.
  destruct (IH _ Hl) as (Hc' & Hb' & Hn'). rewrite Hc in Hc', Hn'. split_and!; [done|by unfold beside in *; congruence|auto].
Qed.

(** Once nothing is needed, nothing changes any more. *)
Lemma background_work_idle cookie s :
  checked (checkpoint s) = Ok () → awaiting_http (checkpoint s) = true →
  selection_frozen (checkpoint s) = true → is_ok (cookie_of (source (checkpoint s)) cookie) = true →
  needed (checkpoint s) (background s) = [] → background_work cookie s = (s, Ok []).
Proof.
  intros Hc Ha Hf Hco Hn. unfold background_work.
  erewrite bind_Ok.
  2: { unfold load_awaiting, get, of_result, mbind, SE_bind. by rewrite Hc, Ha. }
  erewrite bind_Ok by by unfold freeze; rewrite Hf.
  destruct (cookie_of (source (checkpoint s)) cookie); [|done].
  erewrite bind_Ok by reflexivity. erewrite bind_Ok by reflexivity.
  by rewrite Hn.
Qed.

(** C15: a background download gets everything it asked for. Once the client has
    listed its requests, none of them for more than the 25,000,000 bytes a retained
    file may have, and every one of them was completed with the expected length and
    a strong validator (in any order, any number of times, between completions that
    fail, are refused or belong to nothing), without I/O errors the requests have
    operations of their own and none is left: the client then lists none. What was
    handed over is authenticated only when the download is finalized. *)
Theorem background_fetch_completes cookie s s1 work l :
  (∀ t, io_fault t = None) → listed (checkpoint s) → items (checkpoint s) ≠ [] →
  background_work cookie s = (s1, Ok work) →
  (∀ w, w ∈ work → Upload.expected_response_bytes w ≤ Checkpoint.MAX_IMMUTABLE_BYTES ∧
     ∃ x c, x ∈ l ∧ c_operation x = Upload.operation_id w ∧ c_status x = 200 ∧ c_response x = Some (Regular c) ∧
       zlen c = Upload.expected_response_bytes w ∧
       validate_content_length (find_header "content-length" (c_headers x)) (zlen c) = Ok () ∧
       is_ok (strong_etag (c_headers x)) = true) →
  NoDup (Upload.operation_id <$> work) ∧
  background_work cookie (ingest_all l s1) = (ingest_all l s1, Ok []).
Proof.
  intros Hio Hl Hne Hw Hall. pose proof Hw as Hw0.
  apply background_work_run in Hw as (Hb & _ & _ & Hok); [|done..].
  destruct (Hok work eq_refl) as (Hrf & Ha & Hco & headers & Hreq). set (j := checkpoint s1) in *.
  assert (Hitems : items j = items (checkpoint s)).
  { pose proof (rf_same _ _ Hrf) as Hs. by injection Hs. }
  assert (Hl1 : listed j) by (unfold listed; by rewrite Hitems).
  assert (Ha1 : awaiting_http j = true).
  { pose proof (rf_same _ _ Hrf) as Hs. injection Hs as _ Hs1 Hs2 Hs3 _ _ _ _ _.
    fold j in Hs1, Hs2, Hs3. unfold awaiting_http in *. by rewrite Hs1, Hs2, Hs3. }
  destruct (ingest_all_keeps l s1 Hl1) as (Hc & _ & Hmono). fold j in Hc, Hmono.
  assert (Hnone : needed j (background (ingest_all l s1)) = []).
  { apply elem_of_nil_inv. intros [[n i] k] Hin. pose proof (Hmono _ Hin) as Hin0.
    assert (Hwk : work_of j headers i k ∈ work).
    { rewrite Hreq. apply list_elem_of_fmap. by exists (n, i, k). }
    destruct (Hall _ Hwk) as (Hmax & x & c & Hx & Hop & Hst & Hres & Hlen & Hcl & Het).
    apply elem_of_needed in Hin0 as (Hi & Hs & Hk & _). clear Hreq Hok Hwk.
    apply list_elem_of_split in Hx as (l1 & l2 & ->). unfold ingest_all in Hin, Hmono.
    rewrite foldl_app in Hin. cbn [foldl] in Hin.
    destruct (ingest_all_keeps l1 s1 Hl1) as (Hc1 & _ & _). fold j in Hc1. fold (ingest_all l1 s1) in Hin.
    assert (Hlm : listed (checkpoint (ingest x (ingest_all l1 s1)))).
    { destruct (ingest_keeps x (ingest_all l1 s1)) as (-> & _); by rewrite Hc1. }
    destruct (ingest_all_keeps l2 _ Hlm) as (_ & _ & Hn2).
    destruct (ingest_keeps x (ingest_all l1 s1)) as (Hcx & _ & _); [by rewrite Hc1|].
    rewrite Hcx, Hc1 in Hn2. apply Hn2 in Hin. revert Hin. rewrite <- Hc1.
    apply (ingest_completes n i k c); rewrite ?Hc1; try done.
    - apply (rf_checked _ _ Hrf).
    - apply (rf_frozen _ _ Hrf).
    - by rewrite Hlen. }
  split.
  - rewrite Hreq. unfold requests. rewrite <- list_fmap_compose.
    apply NoDup_fmap_2_strong; [|apply needed_NoDup].
    intros [[n i] k] [[n' i'] k'] (Hi & _ & Hk & _)%elem_of_needed (Hi' & _ & Hk' & _)%elem_of_needed He.
    cbn in He. assert (Hu : ∀ m x y, items j !! m = Some x → 0 ≤ y < chunk_count x → is_u64 y).
    { intros m x y Hm Hy. apply list_elem_of_lookup_2, (proj2 Hl1) in Hm. unfold is_u64 in *. lia. }
    apply op_id_inj in He as [He ->]; [|by eauto..].
    by destruct (listed_id _ _ _ _ _ Hl1 Hi Hi' He) as [-> ->].
  - fold j in Hco. apply background_work_idle; rewrite Hc; try done; [apply (rf_checked _ _ Hrf)|apply (rf_frozen _ _ Hrf)].
Qed.
End properties.

(** ** Finalizing *)

Section finalizing.
Context `{Ae : Aead, Kd : Kdf, Co : Codec, Js : Json.JsonText, Me : Sealing.Memory, Wo : World} (master : list Z).



















End finalizing.

(** ** Example: two items, three chunks *)

Module Example_background.
Import Encryption.Example_crypto Receive.Example_receive.

Definition waiting : State :=
  {| job := job0 "awaiting-execution"; checkpoint := job0 "awaiting-execution"; ciphers := ∅; background := ∅;
     plains := ∅; outputs := ∅; receiving := progress_new 0 [0; 0]; progress := Control.progress_default; clock := 0 |}.

Definition headers_of (c : list Z) : list BackgroundHeader :=
  [("Content-Length", decimal (zlen c)); ("ETag", "strong")].

(** The completion of chunk [k] of an item. *)
Definition completion (i : SavedItem) (k : Z) (c : list Z) : Completion :=
  {| c_operation := op_id (job0 "awaiting-execution") i k; c_status := 200;
     c_headers := headers_of c; c_response := Some (Regular c) |}.

Definition late : Completion :=
  {| c_operation := op_id (job0 "awaiting-execution") item1 0; c_status := 404; c_headers := []; c_response := None |}.

(** Out of order, one of them twice, one first refused. *)
Definition handed : list Completion :=
  [completion item2 0 tag; late; completion item1 1 ([4; 5] ++ tag); completion item1 1 ([4; 5] ++ tag);
   completion item1 0 ([1; 2; 3] ++ tag)].

Lemma waiting_listed : listed (job0 "awaiting-execution").
Proof.
  split; [by apply (bool_decide_unpack _); vm_compute|].
  intros i [->|[->|[]%elem_of_nil]%elem_of_cons]%elem_of_cons; vm_compute; split; congruence.
Qed.

Lemma completion_safe_witness :
  background (ingest (completion item1 1 ([4; 5] ++ tag)) (fst (background_work None waiting)))
    = {[ (0%nat, 1) := [4; 5] ++ tag ]} ∧
  checkpoint (ingest (completion item1 1 ([4; 5] ++ tag)) (fst (background_work None waiting)))
    = checkpoint (fst (background_work None waiting)).
Proof.
  split; [vm_compute; reflexivity|].
  apply (completion_safe (op_id (job0 "awaiting-execution") item1 1) 200 (headers_of ([4; 5] ++ tag))
    (Some (Regular ([4; 5] ++ tag))) (fst (background_work None waiting)) _
    (snd (ingest_background_completion (op_id (job0 "awaiting-execution") item1 1) 200 (headers_of ([4; 5] ++ tag))
      (Some (Regular ([4; 5] ++ tag))) (fst (background_work None waiting))))).
  - apply waiting_listed.
  - apply surjective_pairing.
Defined.

Definition work0 : list BackgroundWork :=
  match snd (background_work None waiting) with Ok work => work | Err _ => [] end.

Lemma background_fetch_completes_witness :
  length work0 = 3%nat ∧
  snd (background_work None (ingest_all handed (fst (background_work None waiting)))) = Ok [].
Proof.
  split; [vm_compute; reflexivity|].
  assert (H : background_work None (ingest_all handed (fst (background_work None waiting)))
    = (ingest_all handed (fst (background_work None waiting)), Ok [])); [|by rewrite H].
  apply (background_fetch_completes None waiting (fst (background_work None waiting)) work0 handed).
  - done.
  - apply waiting_listed.
  - done.
  - vm_compute. reflexivity.
  - intros w Hw. change (w ∈ [work_of (job0 "awaiting-execution") [] item1 0;
      work_of (job0 "awaiting-execution") [] item1 1; work_of (job0 "awaiting-execution") [] item2 0]) in Hw.
    apply elem_of_cons in Hw as [->|[->|[->|[]%elem_of_nil]%elem_of_cons]%elem_of_cons];
      (split; [vm_compute; congruence|]).
    + exists (completion item1 0 ([1; 2; 3] ++ tag)), ([1; 2; 3] ++ tag). split; [set_solver|].
      split_and!; vm_compute; reflexivity.
    + exists (completion item1 1 ([4; 5] ++ tag)), ([4; 5] ++ tag). split; [set_solver|].
      split_and!; vm_compute; reflexivity.
    + exists (completion item2 0 tag), tag. split; [set_solver|].
      split_and!; vm_compute; reflexivity.
Defined.

Definition retained_all : State := ingest_all handed (fst (background_work None waiting)).

Example finalized :
  let s := fst (publish_complete (fst (resume key32 retained_all))) in
  outputs s !! ("a" :: out) = Some [1; 2; 3; 4; 5] ∧ outputs s !! ("b" :: out) = Some [].
Proof. split; vm_compute; reflexivity. Qed.
End Example_background.

(** ** Example: a protected transfer, prepared for the background *)

Module Example_finalize.
Import Encryption.Example_crypto Json.Example_json Opening.Example_opening.

#[export] Instance calm : World :=
  {| io_fault _ := None; cancel_flag _ := false; report_status _ := None; raced _ := None |}.

(** Two files of five bytes, sealed under a password. *)
Definition files : list Upload.Item := [item ulid1 "a.txt" 0; item ulid2 "b.txt" 1].
Definition sealed_files : string := Eval vm_compute in
  match Sealing.seal (bytes password) (Some (zeros 16)) (Json.to_vec (Sealing.manifest_json None None files))
    (Sealing.manifest_aad ulid1) (Ok prefix16) with Ok e => e | Err _ => "" end.

Definition served_json (envelope : string) : Json.json :=
  let item_json id position := Json.JObj [("id", Json.JStr id); ("position", Json.JNum position); ("chunk_count", Json.JNum 2)] in
  Json.JObj [("id", Json.JStr ulid1); ("protocol_version", Json.JNum 1); ("chunk_bytes", Json.JNum 3);
             ("encrypted_manifest", Json.JStr envelope); ("items", Json.JArr [item_json ulid1 0; item_json ulid2 1])].
Definition with_replies (metadata : Z → result string Opening.Reply) (password : string) : Opening.Env :=
  {| Opening.phase_reply := Ok (); Opening.info_reply := Opening.info_reply env;
     Opening.metadata_reply := metadata; Opening.retry_wait := λ _, Ok (); Opening.share_key_prompt := Err "";
     Opening.password_prompt := Ok password; Opening.secret_reply := Done; Opening.output_reply := Ok ["out"; "/"];
     Opening.present := ∅; Opening.session_reply := Err ""; Opening.save_reply := Done; Opening.folder := "job" |}.
Definition there : Opening.Env := with_replies (λ _, reply (served_json sealed_files)) password.

(** The job that [Opening.run] saves, its selection frozen, with ciphertexts for the
    chunks of both files. *)
Definition prepared_job : DownloadJob := Eval vm_compute in
  default turbo_job (Opening.saved (fst (Opening.run there
    {| Opening.l_id := ulid1; Opening.l_key := Some key32; Opening.l_instance := "https://x" |} Public true setup))).
Definition prepared : State := Eval vm_compute in
  fst (background_work None
    {| job := prepared_job; checkpoint := prepared_job; ciphers := ∅; background := ∅; plains := ∅; outputs := ∅;
       receiving := progress_new 0 []; progress := Control.progress_default; clock := 0 |}).
Definition good : list Z := [4; 5] ++ tag.
Definition holding (last : list Z) : State :=
  with_ciphers ∅ {[ (0%nat, 0) := [1; 2; 3] ++ tag; (0%nat, 1) := last;
                    (1%nat, 0) := [6; 7; 8] ++ tag; (1%nat, 1) := [9; 0] ++ tag ]} prepared.

Definition stored : result string (option (list Z)) := Ok (Some key32).




(** The server and the saved key matter. *)
Definition expired : Opening.Env :=
  with_replies (λ _, Ok {| Opening.status := 410; Opening.body := Ok [] |}) password.
Example finalize_refused :
  snd (finalize expired stored None (setup, holding good)) = Err "transfer is unavailable, expired, or has been revoked" ∧
  snd (finalize (with_replies (Opening.metadata_reply there) password) (Ok None) None (setup, holding good))
    = Err "saved download key is unavailable; restart with the original link" ∧
  snd (finalize (with_replies (λ _, reply (served_json "{}")) password) stored None (setup, holding good))
    = Err "transfer identity changed; refusing saved ciphertext".
Proof. split_and!; vm_compute; reflexivity. Qed.

(** A ciphertext of the right length that does not authenticate blocks the
    download for good: no request asks for its chunk again, every attempt to
    finalize fails and keeps it, and the right ciphertext is refused as a conflict. *)
Definition forged : list Z := [4; 5] ++ replicate 16 1.
Example forged_blocks :
  let s := holding forged in
  let s' := snd (fst (finalize there stored None (setup, s))) in
  snd (background_work None s) = Ok [] ∧
  snd (finalize there stored None (setup, s)) = Err "could not authenticate downloaded chunk" ∧
  background s' !! (0%nat, 1) = Some forged ∧
  snd (ingest_background_completion (default "" ((λ i, op_id (checkpoint s) i 1) <$> items (checkpoint s) !! 0%nat)) 200
    [("Content-Length", decimal 18); ("ETag", "strong")] (Some (Regular good)) s')
    = Err "background download completion conflicts with retained ciphertext".
Proof. split_and!; vm_compute; reflexivity. Qed.
End Example_finalize.
