(* ===== verification/Receiver.v ===== *)
(** * Automatic receiving (crates/client-core/src/services/{inbox_receiver,contacts}.rs)

    The receiver of one account at one instance: its saved list of deliveries,
    and the staging directory of each ([Inbox.Store]) under one root.  A sweep
    asks the server, page by page, what arrived, and stages the ciphertext of what
    the user lets arrive by itself.  The server, the disk, the memory and the
    user's session answer by the clock; a process can stop at any such point. *)

From Stdlib Require Import Ascii String.
From S2P Require Import Prelude Str Codec Monad.
From S2P Require Inbox.
Open Scope Z_scope.

(** ** Data *)

Record StagedInbox := { id : string; bytes : Z; state : string; key_bundle_id : Z }.
Record ReceiverState := { enabled : bool; entries : list StagedInbox }.

(** [ReceiverState::default()] *)
Definition receiver_default : ReceiverState := {| enabled := false; entries := [] |}.

Record InboxSyncItem := {
  sync_id : string; ciphertext_bytes : Z; item_count : Z; expires_at : string; auto_download : bool }.
Record InboxSync := { revision : Z; next : option string; transfers : list InboxSyncItem }.

#[export] Instance StagedInbox_eq_dec : EqDecision StagedInbox.
Proof. solve_decision. Defined.

(** The receiver's record, and the directories of the deliveries by name. *)
Record State := { record : option ReceiverState; staged : gmap string Inbox.Store; clock : nat }.

Definition with_record (l : ReceiverState) (s : State) : State :=
  {| record := Some l; staged := staged s; clock := clock s |}.
Definition with_staged (m : gmap string Inbox.Store) (s : State) : State :=
  {| record := record s; staged := m; clock := clock s |}.
Definition tick (s : State) : State :=
  {| record := record s; staged := staged s; clock := S (clock s) |}.

(** What the outside answers at a tick. *)
Class World := {
  io : nat → Io;                                         (** a durable write or removal *)
  disk : nat → bool;                                     (** opening, creating or reading a store *)
  session : nat → result string Z;                       (** the account signed in *)
  cookie_context : nat → result string string;
  inbox_sync : nat → option string → result string InboxSync;
  staging : nat → string → result string Inbox.Metadata; (** [GET inbox/{id}/staging] *)
  turns : nat → list Inbox.Turn;                         (** what a fetch meets *)
  cancelled : nat → bool }.

Definition set_state (st : string) (e : StagedInbox) : StagedInbox :=
  {| id := id e; bytes := bytes e; state := st; key_bundle_id := key_bundle_id e |}.

(** [matches!(state, "staged-locked" | "dismissed")] *)
Definition settled (e : StagedInbox) : bool :=
  (state e =? "staged-locked")%string || (state e =? "dismissed")%string.

Definition QUOTA : Z := 2 * 1024 * 1024 * 1024.

(** The first entry that [p] holds of, changed. *)
Definition alter_first (p : StagedInbox → bool) (f : StagedInbox → StagedInbox) (l : list StagedInbox)
    : list StagedInbox :=
  match list_find (λ e, p e = true) l with
  | Some (n, _) => alter f n l
  | None => l
  end.

Definition pause_policy (name : string) (l : ReceiverState) : ReceiverState :=
  {| enabled := enabled l;
     entries := alter_first (λ e, (id e =? name)%string && negb (settled e)) (set_state "paused-policy") (entries l) |}.

(** The bytes of the entries that still take room. *)
Definition used_bytes (l : ReceiverState) : result string Z :=
  try_fold (λ total e, ok_or (checked_add total (bytes e)) "inbox cache size overflow") 0
    (filter (λ e, (state e =? "dismissed")%string = false) (entries l)).

Definition mark_unavailable (available : list string) (l : ReceiverState) : ReceiverState :=
  {| enabled := enabled l;
     entries := (λ e, if bool_decide (id e ∈ available) || settled e then e else set_state "unavailable" e)
                <$> entries l |}.

Section receiver.
Context `{Codec, World} (instance : string) (account_id : Z).

Notation D := (SE State string).

(** [inbox_staging::identity] of a delivery *)
Definition folder_of (name : string) : string := Inbox.identity instance account_id name.

(** A question to the outside. *)
Definition ask {A} (answer : nat → A) : D A := λ s, (tick s, Ok (answer (clock s))).

(** [self.store.save(&state)] *)
Definition save (l : ReceiverState) : D () := λ s,
  let '(r, s') := io_write (io (clock s)) (with_record l) (tick s) in (s', r).

(** [state] *)
Definition load : D ReceiverState :=
  readable ← ask disk;
  if negb readable then fail "input/output error" else
  saved ← get record;
  mret (default receiver_default saved).

Definition pause_local (e : StagedInbox) : StagedInbox :=
  if (state e =? "downloading")%string then set_state "paused-local" e else e.

Definition set_enabled (on : bool) : D ReceiverState :=
  l ← load;
  let l := {| enabled := on; entries := if on then entries l else pause_local <$> entries l |} in
  _ ← save l;
  mret l.

(** [inbox_staging::open]: an existing directory, or a new one. *)
Definition open (name : string) : D () :=
  usable ← ask disk;
  if negb usable then fail "input/output error" else
  modify (λ s,
    match staged s !! folder_of name with
    | Some _ => s
    | None => with_staged (<[folder_of name :=
                {| Inbox.folder := folder_of name; Inbox.record := None; Inbox.nodes := ∅ |}]> (staged s)) s
    end).

(** A call on an open staging store. *)
Definition on_store {A} (name : string) (f : nat → Inbox.Store → result string A * Inbox.Store) : D A := λ s,
  match staged s !! folder_of name with
  | None => (tick s, Err "input/output error")
  | Some st =>
      let '(r, st') := f (clock s) st in (tick (with_staged (<[folder_of name := st']> (staged s)) s), r)
  end.

Definition prepare (name : string) (m : Inbox.Metadata) : D Inbox.Staging :=
  on_store name (λ t st, Inbox.prepare (io t) instance account_id m st).

(** [inbox_staging::fetch]; a process that stops within it stops the sweep. *)
Definition fetch (name cookie : string) : D () :=
  on_store name (λ t st,
    let '(r, st) := Inbox.fetch cookie (turns t) st in (default (Err "stopped") r, st)).

Definition load_staging (name : string) : D Inbox.Staging :=
  on_store name (λ t st,
    (if disk t then ok_or (Inbox.record st) "missing inbox staging checkpoint" else Err "input/output error", st)).

(** The entry of a delivery, added as the last one if there is none. *)
Definition enter (item : InboxSyncItem) (key_bundle : Z) (existing : option nat) (l : ReceiverState)
    : nat * ReceiverState :=
  match existing with
  | Some index => (index, l)
  | None =>
      (length (entries l),
       {| enabled := enabled l;
          entries := entries l ++ [{| id := sync_id item; bytes := ciphertext_bytes item; state := "downloading";
                                      key_bundle_id := key_bundle |}] |})
  end.

Definition at_state (index : nat) (st : string) (l : ReceiverState) : ReceiverState :=
  {| enabled := enabled l; entries := alter (set_state st) index (entries l) |}.

(** The second half of the loop body of [sweep]: the delivery is prepared, entered
    in the list before anything is fetched, fetched, and its state taken over;
    a failed fetch ends the sweep after that. *)
Definition stage (cookie : string) (item : InboxSyncItem) (existing : option nat) (l : ReceiverState)
    : D ReceiverState :=
  _ ← open (sync_id item);
  answer ← ask (λ t, staging t (sync_id item));
  metadata ← of_result answer;
  prepared ← prepare (sync_id item) metadata;
  let '(index, l) := enter item (Inbox.bundle_id (Inbox.bundle (Inbox.recipient_key (Inbox.metadata prepared))))
                       existing l in
  _ ← save l;
  fetched ← attempt (fetch (sync_id item) cookie);
  saved ← load_staging (sync_id item);
  let l := at_state index (Inbox.state saved) l in
  _ ← save l;
  _ ← of_result (fetched : result string ());
  mret l.

(** The loop body of [sweep]; [l] is the sweep's own copy of the state. *)
Definition sweep_item (cookie : string) (item : InboxSyncItem) (l : ReceiverState) : D ReceiverState :=
  if negb (auto_download item) then mret (pause_policy (sync_id item) l) else
  let existing := list_find (λ e, id e = sync_id item) (entries l) in
  if match existing with Some (_, e) => settled e | None => false end then mret l else
  used ← of_result (used_bytes l);
  if bool_decide (existing = None) && (QUOTA <? saturating_add used (ciphertext_bytes item)) then mret l
  else stage cookie item (fst <$> existing) l.

(** [for item in page.transfers] *)
Fixpoint sweep_items (cookie : string) (page : list InboxSyncItem) (l : ReceiverState) : D ReceiverState :=
  match page with
  | [] => mret l
  | item :: page => l ← sweep_item cookie item l; sweep_items cookie page l
  end.

(** The loop over the pages; the fuel is the number of pages until the process
    stops.  The source asks for as many as the server names. *)
Fixpoint sweep_pages (pages : nat) (cookie : string) (after : option string) (available : list string)
    (l : ReceiverState) : D (list string * ReceiverState) :=
  match pages with
  | O => fail "stopped"
  | S pages =>
      stop ← ask cancelled;
      if (stop : bool) then fail "Transfer cancelled" else
      answer ← ask (λ t, inbox_sync t after);
      page ← of_result answer;
      let available := available ++ (sync_id <$> transfers page) in
      l ← sweep_items cookie (transfers page) l;
      match next page with
      | None => mret (available, l)
      | Some after => sweep_pages pages cookie (Some after) available l
      end
  end.

(** [sweep], with a client of [client_instance] *)
Definition sweep (pages : nat) (client_instance : string) : D ReceiverState :=
  l ← load;
  if negb (enabled l) then mret l else
  answer ← ask session;
  account ← of_result answer;
  if negb (account =? account_id) then fail "inbox receiver account changed" else
  if negb (client_instance =? instance)%string then fail "inbox receiver instance changed" else
  answer ← ask cookie_context;
  cookie ← of_result answer;
  '(available, l) ← sweep_pages pages cookie None [] l;
  let l := mark_unavailable available l in
  _ ← save l;
  mret l.

(** [export], up to [inbox_staging::export]. *)
Definition exportable (name : string) : D () :=
  l ← load;
  if negb (existsb (λ e, (id e =? name)%string && (state e =? "staged-locked")%string) (entries l))
  then fail "delivery is not staged locally"
  else open name.

(** [Store::discard]; a removal that fails has removed the directory or not. *)
Definition discard (name : string) : D () := λ s,
  let '(r, s') := io_write (io (clock s)) (λ s, with_staged (delete (folder_of name) (staged s)) s) (tick s) in
  (s', r).

Definition dismiss (name : string) : D () :=
  l ← load;
  '(index, _) ← of_result (ok_or (list_find (λ e, id e = name) (entries l)) "delivery is not staged locally");
  _ ← save (at_state index "dismissed" l);
  present ← get (λ s, bool_decide (is_Some (staged s !! folder_of name)));
  if (present : bool) then discard name else mret ().
End receiver.

(** ** Lists of entries *)

Definition ids (l : ReceiverState) : list string := id <$> entries l.

(** What a change of one entry keeps. *)
Definition keeps_entry (e e' : StagedInbox) : Prop :=
  id e' = id e ∧ bytes e' = bytes e ∧ key_bundle_id e' = key_bundle_id e.

(** An entry after an operation: a settled one stays so, a dismissed one for ever. *)
Definition follows (e e' : StagedInbox) : Prop :=
  keeps_entry e e' ∧ (state e = "dismissed" → state e' = "dismissed") ∧
  (state e = "staged-locked" → state e' = "staged-locked" ∨ state e' = "dismissed").

(** What a sweep may do to one: it never marks or unmarks a settled entry. *)
Definition swept (e e' : StagedInbox) : Prop :=
  keeps_entry e e' ∧ (settled e = true → e' = e) ∧ (state e' = "dismissed" → state e = "dismissed").

#[export] Instance follows_refl : Reflexive follows.
Proof. intros e. split; [done|]. split; [done|]. by left. Qed.
#[export] Instance follows_trans : Transitive follows.
Proof.
  intros e1 e2 e3 ((I1 & B1 & K1) & D1 & L1) ((I2 & B2 & K2) & D2 & L2).
  split; [unfold keeps_entry; split_and!; congruence|]. split; [auto|].
  intros Hl. destruct (L1 Hl) as [|]; auto.
Qed.
#[export] Instance swept_refl : Reflexive swept.
Proof. by intros e. Qed.
#[export] Instance swept_trans : Transitive swept.
Proof.
  intros e1 e2 e3 ((I1 & B1 & K1) & S1 & D1) ((I2 & B2 & K2) & S2 & D2).
  split; [unfold keeps_entry; split_and!; congruence|]. split; [|auto].
  intros Hs. pose proof (S1 Hs) as E. rewrite <- E. apply S2. by rewrite E.
Qed.

Lemma swept_follows e e' : swept e e' → follows e e'.
Proof.
  intros (K & S & D). split; [done|]. unfold settled in S. split.
  - intros E. rewrite S; [done|]. by rewrite E, orb_true_r.
  - intros E. left. rewrite S; [done|]. by rewrite E.
Qed.

Lemma set_state_swept st e : settled e = false → st ≠ "dismissed"%string → swept e (set_state st e).
Proof. intros Hs Hd. split; [done|]. split; [by rewrite Hs|done]. Qed.

(** Entry by entry, with new ones at the end. *)
Definition extends (R : StagedInbox → StagedInbox → Prop) (l l' : ReceiverState) : Prop :=
  ∃ old new, entries l' = old ++ new ∧ Forall2 R (entries l) old.

Lemma extends_refl R l : Reflexive R → extends R l l.
Proof. intros HR. exists (entries l), []. rewrite app_nil_r. split; [done|]. reflexivity. Qed.
Lemma extends_trans R l1 l2 l3 : Transitive R → extends R l1 l2 → extends R l2 l3 → extends R l1 l3.
Proof.
  intros HR (o2 & n2 & E2 & F2) (o3 & n3 & E3 & F3). rewrite E2 in F3.
  apply Forall2_app_inv_l in F3 as (a & b & Fa & Fb & ->). exists a, (b ++ n3). rewrite E3, (assoc_L (++)).
  split; [done|]. (etransitivity; [exact F2|exact Fa]).
Qed.
Lemma extends_weaken (R Q : StagedInbox → StagedInbox → Prop) l l' :
  (∀ e e', R e e' → Q e e') → extends R l l' → extends Q l l'.
Proof. intros HR (o & n & E & F). exists o, n. split; [done|]. by eapply Forall2_impl. Qed.

Lemma Forall2_alter {A} (R : A → A → Prop) (f : A → A) (n : nat) (l : list A) :
  Reflexive R → (∀ a, l !! n = Some a → R a (f a)) → Forall2 R l (alter f n l).
Proof.
  intros HR Hf. apply Forall2_same_length_lookup_2; [by rewrite length_alter|].
  intros m a b Ha Hb. destruct (decide (m = n)) as [->|Hm].
  - rewrite list_lookup_alter_eq, Ha in Hb. injection Hb as <-. by apply Hf.
  - rewrite list_lookup_alter_ne, Ha in Hb by done. by injection Hb as <-.
Qed.

Lemma alter_extends R f n l :
  Reflexive R → (∀ e, entries l !! n = Some e → R e (f e)) →
  extends R l {| enabled := enabled l; entries := alter f n (entries l) |}.
Proof. intros HR Hf. exists (alter f n (entries l)), []. rewrite app_nil_r. split; [done|]. by apply Forall2_alter. Qed.

Lemma alter_first_swept p f l :
  (∀ e, p e = true → swept e (f e)) → Forall2 swept l (alter_first p f l).
Proof.
  intros Hf. unfold alter_first. destruct (list_find _ l) as [[n e]|] eqn:E; [|reflexivity].
  apply list_find_Some in E as (Hn & Hp & _). apply Forall2_alter; [apply _|].
  intros a Ha. assert (a = e) as -> by congruence. by apply Hf.
Qed.

Lemma pause_policy_extends name l : extends swept l (pause_policy name l).
Proof.
  exists (entries (pause_policy name l)), []. rewrite app_nil_r. split; [done|]. apply alter_first_swept.
  intros e [_ Hs%negb_true_iff]%andb_true_iff. by apply set_state_swept.
Qed.

Lemma mark_unavailable_extends available l : extends swept l (mark_unavailable available l).
Proof.
  exists (entries (mark_unavailable available l)), []. rewrite app_nil_r. split; [done|].
  cbn [entries mark_unavailable]. induction (entries l) as [|e es IH]; [constructor|].
  rewrite fmap_cons. constructor; [|exact IH]. destruct (bool_decide _ || settled e) eqn:E; [done|]. apply orb_false_iff in E as [_ E]. by apply set_state_swept.
Qed.

(** *** The room entries take *)

Definition room (e : StagedInbox) : Z := if (state e =? "dismissed")%string then 0 else bytes e.
Definition claimed (l : ReceiverState) : Z := sum_Z (room <$> entries l).

Lemma quota_fits a b : (QUOTA <? saturating_add a b) = false → a + b ≤ QUOTA.
Proof. unfold QUOTA, saturating_add, u64_max. intros H%Z.ltb_ge. lia. Qed.

Lemma used_bytes_claimed l u : used_bytes l = Ok u → u = claimed l.
Proof.
  unfold used_bytes, claimed.
  assert (Hg : ∀ es a, try_fold (λ total e, ok_or (checked_add total (bytes e)) "inbox cache size overflow"%string) a
     (filter (λ e, (state e =? "dismissed")%string = false) es) = Ok u → u = a + sum_Z (room <$> es)).
  { induction es as [|e es IH]; intros a; [cbn; intros [= ->]; lia|].
    rewrite filter_cons, fmap_cons. unfold room at 1. destruct (decide _) as [E|E].
    - rewrite E. cbn [try_fold]. unfold checked_add. destruct (_ <=? _); [|done]. cbn [ok_or].
      intros ->%IH. cbn [sum_Z foldr]. fold (sum_Z (room <$> es)). lia.
    - apply not_false_iff_true in E. rewrite E. intros ->%IH. cbn [sum_Z foldr]. fold (sum_Z (room <$> es)). lia. }
  intros ->%Hg. lia.
Qed.

Lemma swept_room e e' : swept e e' → room e' = room e.
Proof.
  intros ((_ & Hb & _) & Hs & Hd). unfold room. destruct (state e =? "dismissed")%string eqn:E.
  - rewrite Hs; [by rewrite E|]. unfold settled. by rewrite E, orb_true_r.
  - rewrite Hb. destruct (state e' =? "dismissed")%string eqn:E'; [|done]. apply String.eqb_eq in E'.
    apply Hd in E'. by rewrite E', String.eqb_refl in E.
Qed.

Lemma swept_claimed es es' : Forall2 swept es es' → sum_Z (room <$> es') = sum_Z (room <$> es).
Proof. induction 1 as [|e e' es es' He _ IH]; [done|]. rewrite !fmap_cons. cbn [sum_Z foldr]. rewrite (swept_room _ _ He). unfold sum_Z in IH. lia. Qed.

Lemma swept_ids es es' : Forall2 swept es es' → id <$> es' = id <$> es.
Proof. induction 1 as [|e e' es es' ((Hi & _) & _) _ IH]; [done|]. rewrite !fmap_cons. by rewrite IH, Hi. Qed.

(** ** The invariant *)

Section laws.
Context `{Hcodec : Codec, !CodecLaws, Hworld : World} (instance : string) (account_id : Z).

Notation folder_of := (folder_of instance account_id).

(** The server announced this delivery. *)
Definition offered (name : string) : Prop :=
  ∃ t after page item, inbox_sync t after = Ok page ∧ item ∈ transfers page ∧ sync_id item = name.

(** Sizes are unsigned, as their type says. *)
Definition sized : Prop :=
  ∀ t after page item, inbox_sync t after = Ok page → item ∈ transfers page → is_u64 (ciphertext_bytes item).

(** All the ciphertext of a delivery is in its directory. *)
Definition complete (s : State) (name : string) : Prop :=
  ∃ st r, staged s !! folder_of name = Some st ∧ Inbox.record st = Some r ∧ Inbox.state r = "staged-locked"%string.

Definition stores_ok (s : State) : Prop :=
  map_Forall (λ k st, Inbox.folder st = k ∧ Inbox.ok_store st) (staged s).

Record good (s : State) (l : ReceiverState) : Prop := {
  g_ids : NoDup (ids l);
  g_quota : claimed l ≤ QUOTA;
  g_sized : ∀ e, e ∈ entries l → 0 ≤ bytes e;
  g_offered : ∀ e, e ∈ entries l → offered (id e);
  g_locked : ∀ e, e ∈ entries l → state e = "staged-locked"%string → complete s (id e) }.

Definition inv (s : State) : Prop :=
  stores_ok s ∧ ∀ l, record s = Some l → good s l.

(** What an operation on other directories, or on a finished one, keeps. *)
Definition keeps (s s' : State) : Prop := ∀ name, complete s name → complete s' name.

Lemma good_keeps s s' l : keeps s s' → good s l → good s' l.
Proof. intros K [Hi Hq Hz Ho Hl]. split; try done. intros e He Hs. by apply K, Hl. Qed.

Lemma good_swept s l l' :
  Forall2 swept (entries l) (entries l') →
  (∀ e, e ∈ entries l' → state e = "staged-locked"%string → e ∈ entries l ∨ complete s (id e)) →
  good s l → good s l'.
Proof.
  intros F Hnew [Hi Hq Hz Ho Hl].
  assert (Hin : ∀ e', e' ∈ entries l' → ∃ e, e ∈ entries l ∧ keeps_entry e e').
  { intros e' [n Hn]%list_elem_of_lookup. destruct (Forall2_lookup_r _ _ _ _ _ F Hn) as (e & He & (K & _)).
    exists e. split; [by eapply list_elem_of_lookup_2|done]. }
  split.
  - unfold ids. by rewrite (swept_ids _ _ F).
  - unfold claimed. by rewrite (swept_claimed _ _ F).
  - intros e' (e & He & (_ & Hb & _))%Hin. rewrite Hb. by apply Hz.
  - intros e' (e & He & (Hid & _))%Hin. rewrite Hid. by apply Ho.
  - intros e He Hs. destruct (Hnew e He Hs) as [He'|]; [by apply Hl|done].
Qed.

Lemma elem_of_alter {A} (f : A → A) n (l : list A) x :
  x ∈ alter f n l → x ∈ l ∨ ∃ a, l !! n = Some a ∧ x = f a.
Proof.
  intros [m Hm]%list_elem_of_lookup. destruct (decide (m = n)) as [->|Hne].
  - rewrite list_lookup_alter_eq in Hm. destruct (l !! n) as [a|]; [|done]. injection Hm as <-. right. by exists a.
  - rewrite list_lookup_alter_ne in Hm by done. left. by eapply list_elem_of_lookup_2.
Qed.

Lemma good_pause s name l : good s l → good s (pause_policy name l).
Proof.
  intros Hg. apply (good_swept s l); [|intros e He Hs|done].
  { apply alter_first_swept. intros e [_ Hs%negb_true_iff]%andb_true_iff. by apply set_state_swept. }
  left. revert He. cbn [entries pause_policy]. unfold alter_first.
  destruct (list_find _ _) as [[n a]|]; [|done]. intros [?|(x & _ & ->)]%elem_of_alter; done.
Qed.

Lemma good_unavailable s available l : good s l → good s (mark_unavailable available l).
Proof.
  intros Hg. apply (good_swept s l); [|intros e He Hs|done].
  { destruct (mark_unavailable_extends available l) as (o & n & E & F). cbn [entries mark_unavailable] in *.
    assert (n = []) as ->; [|by rewrite E, app_nil_r].
    apply (f_equal length) in E. rewrite length_fmap, length_app, <- (Forall2_length _ _ _ F) in E.
    destruct n; [done|cbn in E; lia]. }
  left. cbn [entries mark_unavailable] in He. apply list_elem_of_fmap in He as (a & -> & Ha).
  by destruct (_ || _).
Qed.

(** A state read off the delivery's own directory. *)
Lemma good_at_state s index st e l :
  entries l !! index = Some e → settled e = false → st ≠ "dismissed"%string →
  (st = "staged-locked"%string → complete s (id e)) → good s l →
  good s (at_state index st l) ∧ extends swept l (at_state index st l).
Proof.
  intros He Hs Hd Hc Hg. assert (Hsw : ∀ a, entries l !! index = Some a → swept a (set_state st a)).
  { intros a Ha. assert (a = e) as -> by congruence. by apply set_state_swept. }
  split; [|by apply alter_extends; [apply _|]].
  apply (good_swept s l); [apply Forall2_alter; [apply _|done]| |done].
  intros x [Hx|(a & Ha & ->)]%elem_of_alter Hl; [by left|right]. assert (a = e) as -> by congruence.
  by apply Hc.
Qed.

Lemma good_enter s item key existing l :
  good s l → offered (sync_id item) → is_u64 (ciphertext_bytes item) →
  match existing with
  | Some n => True
  | None => sync_id item ∉ ids l ∧ claimed l + ciphertext_bytes item ≤ QUOTA
  end →
  good s (snd (enter item key existing l)) ∧ extends swept l (snd (enter item key existing l)).
Proof.
  intros [Hi Hq Hz Ho Hl] Hoff Hu Hex. unfold enter. destruct existing as [n|]; cbn [snd].
  { split; [by split|apply extends_refl, _]. }
  destruct Hex as [Hnew Hroom]. split.
  - split; cbn [entries].
    + unfold ids in *. cbn [entries]. rewrite fmap_app. apply NoDup_app. split; [done|]. split; [|by apply NoDup_singleton].
      intros x Hx ->%list_elem_of_singleton. done.
    + unfold claimed in *. cbn [entries]. rewrite fmap_app, sum_Z_app. cbn. lia.
    + intros e [He| ->%list_elem_of_singleton]%elem_of_app; [by apply Hz|apply Hu].
    + intros e [He| ->%list_elem_of_singleton]%elem_of_app; [by apply Ho|done].
    + intros e [He| ->%list_elem_of_singleton]%elem_of_app Hs; [by apply Hl|done].
  - eexists (entries l), _. split; [done|reflexivity].
Qed.

Lemma good_default s : good s receiver_default.
Proof. split; cbn; [constructor|done|set_solver..]. Qed.

(** ** The calls of a sweep *)

(** What happens in the directory of one delivery only. *)
Record confined (name : string) (s s' : State) : Prop := {
  cf_record : record s' = record s;
  cf_stores : stores_ok s → stores_ok s';
  cf_keeps : keeps s s';
  cf_others : ∀ k, k ≠ folder_of name → staged s' !! k = staged s !! k }.

Lemma confined_tick name s : confined name s (tick s).
Proof. split; [done|done|by intros n Hn|done]. Qed.

Lemma confined_trans name s1 s2 s3 : confined name s1 s2 → confined name s2 s3 → confined name s1 s3.
Proof.
  intros [R1 S1 K1 O1] [R2 S2 K2 O2]. split; [congruence|auto|intros n ?; by apply K2, K1|].
  intros k Hk. by rewrite O2, O1.
Qed.

Definition locked (st : Inbox.Store) : Prop :=
  ∃ r, Inbox.record st = Some r ∧ Inbox.state r = "staged-locked"%string.

(** An operation on a store that breaks nothing, and leaves a finished one alone. *)
Definition gentle {A} (f : nat → Inbox.Store → result string A * Inbox.Store) : Prop :=
  ∀ t st, (Inbox.ok_store st → Inbox.ok_store (f t st).2 ∧ Inbox.folder (f t st).2 = Inbox.folder st) ∧
    (locked st → (f t st).2 = st).

Lemma on_store_confined {A} name (f : nat → Inbox.Store → result string A * Inbox.Store) s s' r :
  gentle f → on_store instance account_id name f s = (s', r) → confined name s s'.
Proof.
  intros Hf. unfold on_store. destruct (staged s !! folder_of name) as [st|] eqn:E.
  2: { intros [= <- <-]. apply confined_tick. }
  destruct (f (clock s) st) as [r' st'] eqn:Ef. intros [= <- <-].
  pose proof (Hf (clock s) st) as [Hok Hl]. rewrite Ef in Hok, Hl. cbn in Hok, Hl. split.
  - done.
  - intros Hs k st0. cbn. destruct (decide (k = folder_of name)) as [->|Hk].
    + rewrite lookup_insert_eq. intros [= <-]. destruct (Hs _ _ E) as [Hfo Ho].
      destruct (Hok Ho) as [Ho' Hfo']. split; [congruence|done].
    + rewrite lookup_insert_ne by done. apply Hs.
  - intros n (st0 & r0 & H0 & H1 & H2). unfold complete. cbn.
    destruct (decide (folder_of n = folder_of name)) as [En|En].
    + rewrite En in H0 |- *. rewrite lookup_insert_eq. assert (st0 = st) as -> by congruence.
      exists st', r0. rewrite Hl; [done|]. by exists r0.
    + rewrite lookup_insert_ne by done. by exists st0, r0.
  - intros k Hk. cbn. by rewrite lookup_insert_ne.
Qed.

Lemma open_confined name s s' r : open instance account_id name s = (s', r) → confined name s s'.
Proof.
  unfold open. intros [(e & [=] & _)|(s1 & b & [= <- <-] & Hr)]%bind_run.
  destruct (negb _); [injection Hr as <- _; apply confined_tick|]. injection Hr as <- _. cbn [staged tick].
  destruct (staged s !! folder_of name) as [st|] eqn:E; [apply confined_tick|]. split.
  - done.
  - intros Hs k st0. cbn. destruct (decide (k = folder_of name)) as [->|Hk].
    + rewrite lookup_insert_eq. intros [= <-]. split; [done|]. by intros x [=].
    + rewrite lookup_insert_ne by done. apply Hs.
  - intros n (st0 & r0 & H0 & H1 & H2). exists st0, r0. cbn. split; [|done].
    rewrite lookup_insert_ne; [done|]. congruence.
  - intros k Hk. cbn. by rewrite lookup_insert_ne.
Qed.

Lemma prepare_gentle m :
  gentle (λ t st, Inbox.prepare (io t) instance account_id m st).
Proof.
  intros t st. split.
  - intros Ho. destruct (Inbox.prepare_step (io t) instance account_id m st Ho) as [? [? _]]. done.
  - intros (r & Hr & _). unfold Inbox.prepare. destruct (Inbox.validate m account_id); [|done].
    case_match; [done|]. rewrite Hr. by case_match.
Qed.

Lemma pending_locked io cookie limit st :
  locked st → ∃ w, Inbox.pending io cookie limit st = (w, st) ∧ (w = Ok [] ∨ is_ok w = false).
Proof.
  intros (r & Hr & Hl). unfold Inbox.pending. rewrite Hr, Hl. case_match; [eauto|].
  destruct (Inbox.validate _ _); cbn; eauto.
Qed.

Lemma fetch_turn_step cookie t st :
  (Inbox.ok_store st → Inbox.ok_store (Inbox.fetch_turn cookie t st).2 ∧
     Inbox.folder (Inbox.fetch_turn cookie t st).2 = Inbox.folder st) ∧
  (locked st → (Inbox.fetch_turn cookie t st).2 = st ∧ (Inbox.fetch_turn cookie t st).1 ≠ Ok true).
Proof.
  unfold Inbox.fetch_turn. split.
  - intros Ho. pose proof (Inbox.pending_step (Inbox.io_pending t) cookie 1 st Ho) as Hp. cbv zeta in Hp.
    destruct (Inbox.pending _ _ _ st) as [w st1]. cbn in Hp. destruct Hp as [Ho1 [Hf1 _]].
    destruct w as [[|w ws]|]; [done| |done].
    destruct (Inbox.cancelled t); [done|]. destruct (negb (Inbox.granted t)); [done|].
    destruct (Inbox.space t); [|done]. case_match; [done|]. destruct (Inbox.response t w) as [[status body]|]; [|done].
    case_match; [done|]. destruct (Inbox.cancelled_after t); [done|].
    pose proof (Inbox.ingest_step (Inbox.io_artifact t) (Inbox.io_record t) (Inbox.operation_id w)
      (take (Z.to_nat (Inbox.expected_response_bytes w + 1)) body) st1 Ho1) as Hi. cbv zeta in Hi.
    destruct (Inbox.ingest _ _ _ _ st1) as [r2 st2]. cbn in Hi. destruct Hi as [Ho2 [Hf2 _]].
    cbn. split; [done|congruence].
  - intros Hl. destruct (pending_locked (Inbox.io_pending t) cookie 1 st Hl) as (w & -> & [-> | Hno]); [done|].
    by destruct w as [w|e].
Qed.

Lemma fetch_gentle cookie :
  gentle (λ t st, let '(r, st) := Inbox.fetch cookie (turns t) st in (default (Err "stopped"%string) r, st)).
Proof.
  intros t st. generalize (turns t). intros l. split.
  - revert st. induction l as [|x l IH]; intros st Ho; [done|]. cbn [Inbox.fetch].
    destruct (fetch_turn_step cookie x st) as [Hs _]. specialize (Hs Ho).
    destruct (Inbox.fetch_turn cookie x st) as [[[]|e] st1]; cbn in Hs; destruct Hs as [Ho1 Hf1]; [|done..].
    destruct (IH st1 Ho1) as [Ho2 Hf2]. split; [done|congruence].
  - intros Hl. destruct l as [|x l]; [done|]. cbn [Inbox.fetch].
    destruct (fetch_turn_step cookie x st) as [_ Hs]. destruct (Hs Hl) as [E1 E2].
    destruct (Inbox.fetch_turn cookie x st) as [[[]|e] st1]; cbn in *; done.
Qed.

Lemma load_staging_gentle :
  gentle (λ t st, (if disk t then ok_or (Inbox.record st) "missing inbox staging checkpoint"
                   else Err "input/output error", st))%string.
Proof. by intros t st. Qed.

Lemma save_list_run l s s' r :
  save l s = (s', r) → staged s' = staged s ∧ (record s' = record s ∨ record s' = Some l).
Proof. unfold save. destruct (io (clock s)); intros [= <- <-]; (split; [done|]); [by right|by left|by right]. Qed.

(** ** Sweeps *)

(** What a part of a sweep that holds the list [l] does to the state; [allowed]
    names the directories it may touch. *)
Record sweeps (allowed : string → Prop) (l : ReceiverState) (s s' : State) : Prop := {
  sw_stores : stores_ok s';
  sw_keeps : keeps s s';
  sw_record : record s' = record s ∨ ∃ l', record s' = Some l' ∧ good s' l' ∧ extends swept l l';
  sw_staged : ∀ k, (∀ name, allowed name → k ≠ folder_of name) → staged s' !! k = staged s !! k }.

Lemma sweeps_same allowed l s s' :
  stores_ok s → record s' = record s → staged s' = staged s → sweeps allowed l s s'.
Proof.
  intros Hs Hr Hst. split; [|intros n; unfold complete; by rewrite Hst|by left|intros k _; by rewrite Hst].
  unfold stores_ok. by rewrite Hst.
Qed.

Lemma sweeps_trans allowed l l' s1 s2 s3 :
  extends swept l l' → sweeps allowed l s1 s2 → sweeps allowed l' s2 s3 → sweeps allowed l s1 s3.
Proof.
  intros E [S1 K1 R1 T1] [S2 K2 R2 T2]. split; [done|intros n ?; by apply K2, K1| |].
  - destruct R2 as [->|(l2 & Hl2 & G2 & E2)].
    + destruct R1 as [?|(l1 & Hl1 & G1 & E1)]; [by left|right]. exists l1.
      split; [done|]. split; [by eapply good_keeps|done].
    + right. exists l2. split; [done|]. split; [done|]. eapply extends_trans; [apply _|exact E|exact E2].
  - intros k Hk. by rewrite T2, T1.
Qed.

Lemma sweeps_confined (allowed : string → Prop) name l s s' :
  allowed name → stores_ok s → confined name s s' → sweeps allowed l s s'.
Proof.
  intros Ha Hs [R S K O]. split; [by apply S|done|by left|]. intros k Hk. by apply O, Hk.
Qed.

Lemma sweeps_save allowed l l' s s' r :
  stores_ok s → good s l' → extends swept l l' → save l' s = (s', r) → sweeps allowed l s s'.
Proof.
  intros Hs Hg E Hr. apply save_list_run in Hr as [Hst Hrec].
  assert (K : keeps s s') by (intros n; unfold complete; by rewrite Hst). split.
  - unfold stores_ok. by rewrite Hst.
  - done.
  - destruct Hrec as [->| ->]; [by left|right]. exists l'. split; [done|]. split; [by eapply good_keeps|done].
  - intros k _. by rewrite Hst.
Qed.

Lemma load_staging_run name s s' r :
  load_staging instance account_id name s = (s', r) →
  confined name s s' ∧ ∀ saved, r = Ok saved →
    ∃ st, staged s' !! folder_of name = Some st ∧ Inbox.record st = Some saved.
Proof.
  intros Hr. split; [eapply on_store_confined; [apply load_staging_gentle|exact Hr]|].
  revert Hr. unfold load_staging, on_store. destruct (staged s !! _) as [st|] eqn:E; [|by intros [= <- <-]].
  destruct (disk (clock s)); [|by intros [= <- <-]]. intros [= <- <-] saved.
  destruct (Inbox.record st) as [x|] eqn:Ex; [|done]. intros [= ->]. exists st. cbn.
  rewrite lookup_insert_eq. done.
Qed.

Lemma staging_states s name st r :
  stores_ok s → staged s !! folder_of name = Some st → Inbox.record st = Some r →
  Inbox.state r ≠ "dismissed"%string ∧ (Inbox.state r = "staged-locked"%string → complete s name).
Proof.
  intros Hs Hst Hr. split; [|intros Hl; by exists st, r].
  destruct (Hs _ _ Hst) as [_ Ho]. destruct (Inbox.ok_state _ _ (Ho _ Hr)) as [->|[-> _]]; done.
Qed.

Lemma find_entry name l n e :
  list_find (λ e, id e = name) (entries l) = Some (n, e) → entries l !! n = Some e ∧ id e = name.
Proof. intros (He & Hid & _)%list_find_Some. done. Qed.

(** The directory a sweep may touch for an item: its own, if the user lets it
    arrive by itself. *)
Definition permitted (item : InboxSyncItem) (name : string) : Prop :=
  name = sync_id item ∧ auto_download item = true.

(** Where the entry of the delivery is. *)
Definition entered (item : InboxSyncItem) (existing : option nat) (l : ReceiverState) : Prop :=
  match existing with
  | Some n => ∃ e, entries l !! n = Some e ∧ settled e = false ∧ id e = sync_id item
  | None => sync_id item ∉ ids l ∧ claimed l + ciphertext_bytes item ≤ QUOTA
  end.

Lemma enter_run s item key existing l index l1 :
  good s l → offered (sync_id item) → is_u64 (ciphertext_bytes item) → entered item existing l →
  enter item key existing l = (index, l1) →
  good s l1 ∧ extends swept l l1 ∧
  ∃ e, entries l1 !! index = Some e ∧ settled e = false ∧ id e = sync_id item.
Proof.
  intros Hg Hoff Hu Hex Hen. pose proof (good_enter s item key existing l Hg Hoff Hu) as H1. rewrite Hen in H1.
  destruct H1 as [Hg1 Hext]; [by destruct existing|]. split; [done|]. split; [done|].
  unfold enter in Hen. destruct existing as [n|]; injection Hen as <- <-; [done|].
  eexists. split; [cbn; by rewrite lookup_app_r, Nat.sub_diag|]. done.
Qed.

Section stage.
Context (cookie : string) (item : InboxSyncItem).

Notation allowed := (permitted item).
Context (Hauto : auto_download item = true) (Hoff : offered (sync_id item))
  (Hu : is_u64 (ciphertext_bytes item)).

Lemma step_confined l s1 s2 s3 :
  sweeps allowed l s1 s2 → confined (sync_id item) s2 s3 → sweeps allowed l s1 s3.
Proof.
  intros W C. eapply sweeps_trans; [apply extends_refl, _|exact W|].
  eapply sweeps_confined; [|apply (sw_stores _ _ _ _ W)|exact C]. done.
Qed.

Lemma step_save l l' s1 s2 s3 r :
  sweeps allowed l s1 s2 → good s2 l' → extends swept l l' → save l' s2 = (s3, r) →
  sweeps allowed l s1 s3 ∧ good s3 l'.
Proof.
  intros W Hg E Hr. split.
  - eapply sweeps_trans; [apply extends_refl, _|exact W|].
    by eapply sweeps_save; [apply (sw_stores _ _ _ _ W)|..].
  - eapply good_keeps; [|exact Hg]. apply save_list_run in Hr as [Es _]. intros n. unfold complete. by rewrite Es.
Qed.

(** From the fetch on, with the entry at [index] of [l1]. *)
Lemma fetched_run l l1 index e s1 s2 s' r :
  sweeps allowed l s1 s2 → good s2 l1 → extends swept l l1 →
  entries l1 !! index = Some e → settled e = false → id e = sync_id item →
  (fetched ← attempt (fetch instance account_id (sync_id item) cookie);
   saved ← load_staging instance account_id (sync_id item);
   let l := at_state index (Inbox.state saved) l1 in
   _ ← save l;
   _ ← of_result (fetched : result string ());
   mret l) s2 = (s', r) →
  sweeps allowed l s1 s' ∧ ∀ l', r = Ok l' → good s' l' ∧ extends swept l l'.
Proof.
  intros W Hg Hext He Hse Hid.
  intros [(x & Hf & _)|(s3 & fetched & Hf & Hr)]%bind_run; apply attempt_run in Hf as (x' & Hf & Ex); [done|].
  apply (on_store_confined _ _ _ _ _ (fetch_gentle cookie)) in Hf as C3.
  pose proof (step_confined _ _ _ _ W C3) as W3.
  apply bind_run in Hr as [(x & Hl & ->)|(s4 & saved & Hl & Hr)]; apply load_staging_run in Hl as [C4 Hsaved];
    pose proof (step_confined _ _ _ _ W3 C4) as W4; [done|].
  destruct (Hsaved saved eq_refl) as (st & Hst & Hrec).
  destruct (staging_states s4 (sync_id item) st saved (sw_stores _ _ _ _ W4) Hst Hrec) as [Hnd Hlk].
  assert (Hg4 : good s4 l1).
  { eapply good_keeps; [|exact Hg]. intros n Hn. by apply (cf_keeps _ _ _ C4), (cf_keeps _ _ _ C3). }
  destruct (good_at_state s4 index (Inbox.state saved) e l1) as [Hg5 Hext5]; try done; [by rewrite Hid|].
  assert (Hext6 : extends swept l (at_state index (Inbox.state saved) l1))
    by (eapply extends_trans; [apply _|exact Hext|exact Hext5]).
  apply bind_run in Hr as [(x & Hsv & ->)|(s5 & [] & Hsv & Hr)];
    destruct (step_save _ _ _ _ _ _ W4 Hg5 Hext6 Hsv) as [W5 Hg6]; [done|].
  apply bind_run in Hr as [(x & [= <- _] & ->)|(s6 & [] & [= <- _] & Hr)]; [done|].
  injection Hr as <- <-. split; [done|]. by intros l' [= <-].
Qed.

Lemma stage_run existing l s s' r :
  stores_ok s → good s l → entered item existing l →
  stage instance account_id cookie item existing l s = (s', r) →
  sweeps allowed l s s' ∧ ∀ l', r = Ok l' → good s' l' ∧ extends swept l l'.
Proof.
  intros Hs Hg Hex. pose proof (sweeps_same allowed l s s Hs eq_refl eq_refl) as W0. unfold stage.
  intros [(e & Ho & ->)|(s1 & [] & Ho & Hr)]%bind_run; apply open_confined in Ho as C1;
    pose proof (step_confined _ _ _ _ W0 C1) as W1; [done|].
  apply bind_run in Hr as [(e & [=] & _)|(s2 & answer & [= <- <-] & Hr)].
  pose proof (step_confined _ _ _ _ W1 (confined_tick _ s1)) as W2.
  apply bind_run in Hr as [(e & [= <- _] & ->)|(s2 & m & [= <- _] & Hr)]; [done|].
  apply bind_run in Hr as [(e & Hp & ->)|(s2 & prepared & Hp & Hr)];
    apply (on_store_confined _ _ _ _ _ (prepare_gentle m)) in Hp as C2;
    pose proof (step_confined _ _ _ _ W2 C2) as W3; [done|].
  pose proof (good_keeps _ _ _ (sw_keeps _ _ _ _ W3) Hg) as Hg2.
  destruct (enter item _ existing l) as [index l1] eqn:Een.
  destruct (enter_run _ _ _ _ _ _ _ Hg2 Hoff Hu Hex Een) as (Hg1 & Hext & e1 & He1 & Hse1 & Hid1).
  apply bind_run in Hr as [(e & Hsv & ->)|(s3 & [] & Hsv & Hr)];
    destruct (step_save _ _ _ _ _ _ W3 Hg1 Hext Hsv) as [W4 Hg4]; [done|].
  by eapply fetched_run.
Qed.
End stage.

Lemma sweep_item_run cookie item l s s' r :
  stores_ok s → good s l → offered (sync_id item) → is_u64 (ciphertext_bytes item) →
  sweep_item instance account_id cookie item l s = (s', r) →
  sweeps (permitted item) l s s' ∧
  ∀ l', r = Ok l' → good s' l' ∧ extends swept l l'.
Proof.
  intros Hs Hg Hoff Hu. unfold sweep_item. destruct (auto_download item) eqn:Ea; cbn [negb].
  2: { intros [= <- <-]. split; [by apply sweeps_same|]. intros l' [= <-].
       split; [by apply good_pause|apply pause_policy_extends]. }
  destruct (match list_find _ _ with Some (_, e) => settled e | None => false end) eqn:Eset.
  { intros [= <- <-]. split; [by apply sweeps_same|]. intros l' [= <-]. split; [done|apply extends_refl, _]. }
  intros [(e & [= <- He] & ->)|(s1 & used & [= <- Hused] & Hr)]%bind_run.
  { split; [by apply sweeps_same|done]. }
  apply used_bytes_claimed in Hused as ->.
  destruct (bool_decide _ && _) eqn:Eq.
  { injection Hr as <- <-. split; [by apply sweeps_same|]. intros l' [= <-]. split; [done|apply extends_refl, _]. }
  eapply stage_run; [done|done|done|done|done| |exact Hr].
  destruct (list_find _ (entries l)) as [[n e]|] eqn:Eex; cbn [fst fmap option_fmap option_map entered].
  - apply find_entry in Eex as [He Hid]. by exists e.
  - rewrite bool_decide_eq_true_2 in Eq by done. cbn [andb] in Eq. apply quota_fits in Eq. split; [|done].
    rewrite list_find_None in Eex. unfold ids. intros (e & He & Hin)%list_elem_of_fmap.
    rewrite Forall_forall in Eex. by apply (Eex e Hin).
Qed.

Lemma sweeps_weaken (allowed allowed' : string → Prop) l s s' :
  (∀ name, allowed name → allowed' name) → sweeps allowed l s s' → sweeps allowed' l s s'.
Proof. intros Ha [S K R T]. split; try done. intros k Hk. apply T. intros name Hn. by apply Hk, Ha. Qed.

(** Deliveries the server announced that the user lets arrive by themselves. *)
Definition automatic (name : string) : Prop :=
  ∃ t after page item, inbox_sync t after = Ok page ∧ item ∈ transfers page ∧ permitted item name.

Lemma sweep_items_run cookie t after page items l s s' r :
  sized → inbox_sync t after = Ok page → (∀ item, item ∈ items → item ∈ transfers page) →
  stores_ok s → good s l →
  sweep_items instance account_id cookie items l s = (s', r) →
  sweeps automatic l s s' ∧ ∀ l', r = Ok l' → good s' l' ∧ extends swept l l'.
Proof.
  intros Hz Hp. revert l s. induction items as [|item items IH]; intros l s Hin Hs Hg; cbn [sweep_items].
  { intros [= <- <-]. split; [by apply sweeps_same|]. intros l' [= <-]. split; [done|apply extends_refl, _]. }
  assert (Hit : item ∈ transfers page) by set_solver.
  assert (Ha : ∀ name, permitted item name → automatic name) by (intros name Hn; by exists t, after, page, item).
  intros [(e & Hi & ->)|(s1 & l1 & Hi & Hr)]%bind_run; apply sweep_item_run in Hi as [W Hok]; try done;
    try (by exists t, after, page, item); try (by eapply Hz); apply (sweeps_weaken _ _ _ _ _ Ha) in W; [done|].
  destruct (Hok l1 eq_refl) as [Hg1 E1].
  apply IH in Hr as [W2 Hok2]; [|set_solver|apply W|done]. split; [by eapply sweeps_trans|].
  intros l' Hl'. destruct (Hok2 l' Hl') as [Hg2 E2]. split; [done|]. by eapply extends_trans; [apply _|..].
Qed.

Lemma sweep_pages_run pages cookie after available l s s' r :
  sized → stores_ok s → good s l →
  sweep_pages instance account_id pages cookie after available l s = (s', r) →
  sweeps automatic l s s' ∧ ∀ a l', r = Ok (a, l') → good s' l' ∧ extends swept l l'.
Proof.
  intros Hz. revert after available l s. induction pages as [|pages IH]; intros after available l s Hs Hg;
    cbn [sweep_pages]; [intros [= <- <-]; split; [by apply sweeps_same|done]|].
  intros [(e & [=] & _)|(s1 & stop & [= <- <-] & Hr)]%bind_run.
  destruct (cancelled (clock s)); [injection Hr as <- <-; split; [by apply sweeps_same|done]|].
  apply bind_run in Hr as [(e & [=] & _)|(s2 & answer & [= <- <-] & Hr)]. cbn [clock tick] in Hr.
  apply bind_run in Hr as [(e & [= <- _] & ->)|(s2 & page & [= <- Hp] & Hr)]; [split; [by apply sweeps_same|done]|].
  assert (W0 : sweeps automatic l s (tick (tick s))) by by apply sweeps_same.
  assert (Hrefl : extends swept l l) by apply extends_refl, _.
  apply bind_run in Hr as [(e & Hi & ->)|(s2 & l1 & Hi & Hr)];
    apply (sweep_items_run _ _ _ _ _ _ _ _ _ Hz Hp) in Hi as [W Hok];
    try done; try (by eapply good_keeps; [apply (sw_keeps _ _ _ _ W0)|]);
    pose proof (sweeps_trans _ _ _ _ _ _ Hrefl W0 W) as W1; [done|].
  destruct (Hok l1 eq_refl) as [Hg1 E1].
  destruct (next page) as [after'|].
  - apply IH in Hr as [W2 Hok2]; [|apply W1|done]. split; [by eapply sweeps_trans|].
    intros a l' Hl'. destruct (Hok2 a l' Hl') as [Hg2 E2]. split; [done|]. by eapply extends_trans; [apply _|..].
  - injection Hr as <- <-. split; [done|]. by intros a l' [= <- <-].
Qed.

Lemma load_list_run s s' r :
  load s = (s', r) → s' = tick s ∧ ∀ l, r = Ok l → l = default receiver_default (record s).
Proof.
  unfold load. intros [(e & [=] & _)|(s1 & b & [= <- <-] & Hr)]%bind_run.
  destruct (negb _); [by injection Hr as <- <-|]. injection Hr as <- <-. split; [done|]. by intros l [= <-].
Qed.

(** The list a call finds. *)
Definition listed (s : State) : ReceiverState := default receiver_default (record s).

Lemma inv_listed s : inv s → good s (listed s).
Proof. intros [_ Hr]. unfold listed. destruct (record s) as [l|]; [by apply Hr|apply good_default]. Qed.

Lemma good_same s s' l : staged s' = staged s → good s l → good s' l.
Proof. intros E. apply good_keeps. intros n. unfold complete. by rewrite E. Qed.

Lemma inv_tick s : inv s → inv (tick s).
Proof. intros [Hs Hl]. split; [exact Hs|]. intros l Hr. by eapply good_same, Hl. Qed.

Lemma sweeps_inv allowed s s' : inv s → sweeps allowed (listed s) s s' → inv s'.
Proof.
  intros [Hs Hr] [S K R T]. split; [done|]. intros l Hl.
  destruct R as [E|(l' & E & Hg & _)]; [|congruence]. rewrite E in Hl. by eapply good_keeps, Hr.
Qed.

Lemma sweeps_extends allowed s s' : sweeps allowed (listed s) s s' → extends swept (listed s) (listed s').
Proof.
  intros [_ _ R _]. unfold listed at 2. destruct R as [->|(l' & -> & _ & E)]; [apply extends_refl, _|done].
Qed.

Lemma sweep_run pages client s s' r :
  sized → inv s → sweep instance account_id pages client s = (s', r) →
  sweeps (λ name, automatic name ∧ enabled (listed s) = true) (listed s) s s'.
Proof.
  intros Hz Hinv. pose proof (inv_listed s Hinv) as Hg. pose proof (proj1 Hinv) as Hs. unfold sweep.
  assert (Hstop : ∀ allowed x e, x = tick s ∨ x = tick (tick s) ∨ x = tick (tick (tick s)) →
    (x, Err e) = (s', r) → sweeps allowed (listed s) s s').
  { intros allowed x e Hx [= <- _]. destruct Hx as [->|[->| ->]]; by apply sweeps_same. }
  intros [(e & Hm & ->)|(s1 & l & Hm & Hr)]%bind_run; apply load_list_run in Hm as [-> Hl].
  { by eapply Hstop; [left|]. }
  rewrite (Hl l eq_refl) in Hr. fold (listed s) in Hr. clear Hl.
  destruct (enabled (listed s)) eqn:En; cbn [negb] in Hr; [|injection Hr as <- _; by apply sweeps_same].
  apply (sweeps_weaken automatic); [done|].
  apply bind_run in Hr as [(e & [=] & _)|(s2 & answer & [= <- <-] & Hr)].
  apply bind_run in Hr as [(e & [= <- _] & ->)|(s2 & account & [= <- _] & Hr)]; [by eapply Hstop; [right; left|]|].
  destruct (negb _); [by eapply Hstop, Hr; right; left|]. destruct (negb _); [by eapply Hstop, Hr; right; left|].
  apply bind_run in Hr as [(e & [=] & _)|(s2 & answer & [= <- <-] & Hr)].
  apply bind_run in Hr as [(e & [= <- _] & ->)|(s2 & cookie & [= <- _] & Hr)]; [by eapply Hstop; [right; right|]|].
  set (s3 := tick (tick (tick s))) in *.
  assert (W0 : sweeps automatic (listed s) s s3) by by apply sweeps_same.
  assert (Hrefl : extends swept (listed s) (listed s)) by apply extends_refl, _.
  apply bind_run in Hr as [(e & Hp & ->)|(s4 & [available l1] & Hp & Hr)];
    apply sweep_pages_run in Hp as [W Hok]; try done; try (by eapply good_keeps; [apply (sw_keeps _ _ _ _ W0)|]);
    pose proof (sweeps_trans _ _ _ _ _ _ Hrefl W0 W) as W1; [done|].
  destruct (Hok available l1 eq_refl) as [Hg1 E1].
  assert (Hsave : ∀ x, save (mark_unavailable available l1) s4 = (s', x) → sweeps automatic (listed s) s s').
  { intros x Hx. eapply (sweeps_trans _ _ l1); [exact E1|exact W1|].
    eapply sweeps_save; [apply (sw_stores _ _ _ _ W1)|by apply good_unavailable|apply mark_unavailable_extends|exact Hx]. }
  apply bind_run in Hr as [(e & Hm & ->)|(s5 & [] & Hm & Hr)]; [by eapply Hsave|].
  injection Hr as <- _. by eapply Hsave.
Qed.

(** ** All the operations *)

Inductive Op :=
| SetEnabled (on : bool)
| Sweep (pages : nat) (client : string)
| Export (name : string)
| Dismiss (name : string).

Definition run_op (op : Op) (s : State) : State :=
  match op with
  | SetEnabled on => fst (set_enabled on s)
  | Sweep pages client => fst (sweep instance account_id pages client s)
  | Export name => fst (exportable instance account_id name s)
  | Dismiss name => fst (dismiss instance account_id name s)
  end.

(** Digests tell the announced deliveries apart. *)
Definition distinct : Prop :=
  ∀ a b, offered a → offered b → folder_of a = folder_of b → a = b.

Definition follows_all (s s' : State) : Prop := extends follows (listed s) (listed s').

Lemma swept_follows_all s s' : extends swept (listed s) (listed s') → follows_all s s'.
Proof. apply extends_weaken, swept_follows. Qed.

Lemma good_enabled s on l :
  good s l →
  let l' := {| enabled := on; entries := if on then entries l else pause_local <$> entries l |} in
  good s l' ∧ extends swept l l'.
Proof.
  intros Hg l'. assert (F : Forall2 swept (entries l) (entries l')).
  { subst l'. cbn. destruct on; [reflexivity|]. induction (entries l) as [|e es IH]; [constructor|].
    rewrite fmap_cons. constructor; [|exact IH]. unfold pause_local.
    destruct (state e =? "downloading")%string eqn:E; [|done]. apply String.eqb_eq in E.
    apply set_state_swept; [|done]. unfold settled. by rewrite E. }
  split; [|exists (entries l'), []; by rewrite app_nil_r].
  apply (good_swept s l); [done| |done]. intros e He Hs. left. subst l'. cbn in He. destruct on; [done|].
  apply list_elem_of_fmap in He as (a & -> & Ha). unfold pause_local in *. by destruct (_ =? _)%string.
Qed.

Lemma set_enabled_run on s s' r :
  inv s → set_enabled on s = (s', r) → sweeps (λ _, False) (listed s) s s'.
Proof.
  intros Hinv. pose proof (proj1 Hinv) as Hs. unfold set_enabled.
  intros [(e & Hm & ->)|(s1 & l & Hm & Hr)]%bind_run; apply load_list_run in Hm as [-> Hl]; [by apply sweeps_same|].
  rewrite (Hl l eq_refl) in Hr. fold (listed s) in Hr. clear Hl.
  destruct (good_enabled s on (listed s) (inv_listed s Hinv)) as [Hg E].
  assert (W0 : sweeps (λ _, False) (listed s) s (tick s)) by by apply sweeps_same.
  assert (Hrefl : extends swept (listed s) (listed s)) by apply extends_refl, _.
  apply bind_run in Hr as [(e & Hm & _)|(s2 & [] & Hm & Hr)]; [|injection Hr as <- _];
    (eapply sweeps_trans; [exact Hrefl|exact W0|];
     eapply sweeps_save; [exact Hs|exact (good_keeps _ _ _ (sw_keeps _ _ _ _ W0) Hg)|exact E|exact Hm]).
Qed.

Lemma exportable_run name s s' r :
  inv s → exportable instance account_id name s = (s', r) → inv s' ∧ record s' = record s.
Proof.
  intros Hinv. assert (Ht : inv (tick s)) by by apply inv_tick. unfold exportable.
  intros [(e & Hm & _)|(s1 & l & Hm & Hr)]%bind_run; apply load_list_run in Hm as [-> _]; [done|].
  destruct (negb _); [by injection Hr as <- _|]. apply open_confined in Hr as [R S K _].
  split; [|done]. destruct Ht as [Hs Hl]. split; [by apply S|]. intros l' Hl'. rewrite R in Hl'.
  eapply good_keeps; [exact K|]. by apply Hl.
Qed.

(** Dismissing the entry at [n] gives its room back. *)
Lemma good_dismissed s n e l :
  good s l → entries l !! n = Some e → good s (at_state n "dismissed" l).
Proof.
  intros [Hi Hq Hz Ho Hl] He.
  assert (Hin : ∀ x, x ∈ entries (at_state n "dismissed" l) → x ∈ entries l ∨ x = set_state "dismissed" e).
  { intros x [?|(a & Ha & ->)]%elem_of_alter; [by left|right]. congruence. }
  assert (Hee : e ∈ entries l) by by eapply list_elem_of_lookup_2. split.
  - unfold ids, at_state. cbn [entries].
    replace (id <$> alter (set_state "dismissed") n (entries l)) with (id <$> entries l); [done|].
    apply list_eq. intros m. rewrite !list_lookup_fmap. destruct (decide (m = n)) as [->|Hm].
    + rewrite list_lookup_alter_eq. by rewrite He.
    + by rewrite list_lookup_alter_ne.
  - unfold claimed, at_state in *. cbn [entries]. rewrite (sum_Z_alter _ _ _ _ e) by done.
    change (room (set_state "dismissed" e)) with 0. specialize (Hz e Hee). unfold room in *. destruct (_ =? _)%string; lia.
  - intros x [Hx| ->]%Hin; [by apply Hz|by apply (Hz e)].
  - intros x [Hx| ->]%Hin; [by apply Ho|by apply (Ho e)].
  - intros x [Hx| ->]%Hin; [by apply Hl|done].
Qed.

Lemma dismissed_follows n l : extends follows l (at_state n "dismissed" l).
Proof. apply alter_extends; [apply _|]. intros e _. split; [done|]. split; [done|by right]. Qed.

Lemma good_discard s name l :
  distinct → offered name → (∀ e, e ∈ entries l → id e = name → state e ≠ "staged-locked"%string) →
  good s l → good (with_staged (delete (folder_of name) (staged s)) s) l.
Proof.
  intros Hd Hn Hno [Hi Hq Hz Ho Hl]. split; try done. intros e He Hs.
  destruct (Hl e He Hs) as (st & r & Hst & Hr). exists st, r. split; [|done]. cbn.
  rewrite lookup_delete_ne; [done|]. intros Hf. apply Hd in Hf; [|done|by apply Ho]. by apply (Hno e He).
Qed.

(** The list just saved, or the one before. *)
Lemma save_inv l s s' r :
  stores_ok s → good s (listed s) → good s l → save l s = (s', r) →
  inv s' ∧ staged s' = staged s ∧ (record s' = record s ∨ record s' = Some l).
Proof.
  intros Hs Hg Hl Hr. apply save_list_run in Hr as [E R]. split; [|done].
  assert (K : keeps s s') by (intros n; unfold complete; by rewrite E).
  split; [unfold stores_ok; by rewrite E|]. intros l' Hl'. eapply good_keeps; [exact K|].
  destruct R as [R|R]; [|congruence]. rewrite R in Hl'. unfold listed in Hg. by rewrite Hl' in Hg.
Qed.

Lemma dismissed_unlocked s n e name l x :
  good s l → entries l !! n = Some e → id e = name →
  x ∈ entries (at_state n "dismissed" l) → id x = name → state x ≠ "staged-locked"%string.
Proof.
  intros Hg He Hid Hx Hxid. destruct (list_elem_of_lookup_1 _ _ Hx) as [m Hm]. cbn [entries at_state] in Hm.
  destruct (decide (m = n)) as [->|Hne].
  - rewrite list_lookup_alter_eq, He in Hm. by injection Hm as <-.
  - rewrite list_lookup_alter_ne in Hm by done. destruct Hne.
    eapply NoDup_lookup; [apply (g_ids _ _ Hg)| |]; unfold ids; rewrite list_lookup_fmap.
    + rewrite Hm. reflexivity.
    + rewrite He. cbn. congruence.
Qed.

Lemma dismiss_run name s s' r :
  distinct → inv s → dismiss instance account_id name s = (s', r) → inv s' ∧ follows_all s s'.
Proof.
  intros Hd Hinv. pose proof (inv_listed s Hinv) as Hg. pose proof (proj1 Hinv) as Hs. unfold dismiss.
  assert (Ht : inv (tick s)) by by apply inv_tick.
  assert (Hsame : ∀ l, listed l = listed s → follows_all s l).
  { intros x E. unfold follows_all. rewrite E. apply extends_refl, _. }
  intros [(e & Hm & ->)|(s1 & l & Hm & Hr)]%bind_run; apply load_list_run in Hm as [-> Hl]; [by split; [|apply Hsame]|].
  rewrite (Hl l eq_refl) in Hr. fold (listed s) in Hr. clear Hl.
  apply bind_run in Hr as [(e & [= <- _] & ->)|(s1 & [n e] & [= <- Hf] & Hr)]; [by split; [|apply Hsame]|].
  destruct (list_find _ _) as [[n' e']|] eqn:Ef; [|done]. injection Hf as -> ->. apply find_entry in Ef as [He Hid].
  pose proof (good_same s (tick s) _ eq_refl (good_dismissed s n e _ Hg He)) as Hg1.
  pose proof (good_same s (tick s) _ eq_refl Hg) as Hgt. set (l1 := at_state n "dismissed" (listed s)) in *.
  assert (Hsaved : ∀ s2 x, save l1 (tick s) = (s2, x) → inv s2 ∧ follows_all s s2 ∧ staged s2 = staged s ∧
    (x = Ok () → record s2 = Some l1)).
  { intros s2 x Hx. pose proof (save_inv l1 (tick s) s2 x Hs Hgt Hg1 Hx) as (I2 & E2 & R2). split; [done|].
    split; [|split; [done|]].
    - destruct R2 as [R2|R2]; [apply Hsame; unfold listed; by rewrite R2|].
      unfold follows_all. unfold listed at 2. rewrite R2. apply dismissed_follows.
    - revert Hx. unfold save. destruct (io _); by intros [= <- <-]. }
  apply bind_run in Hr as [(x & Hm & ->)|(s2 & [] & Hm & Hr)]; destruct (Hsaved _ _ Hm) as (I2 & F2 & E2 & R2).
  { by split. }
  specialize (R2 eq_refl).
  apply bind_run in Hr as [(x & [=] & _)|(s3 & present & [= <- _] & Hr)].
  destruct present; [|by injection Hr as <- _].
  assert (Hgd : inv (with_staged (delete (folder_of name) (staged s2)) (tick s2))).
  { destruct I2 as [Hs2 Hl2]. split.
    - intros k st. cbn. rewrite lookup_delete_Some. intros [_ Hk]. by apply Hs2.
    - intros l' Hl'. cbn in Hl'. assert (l' = l1) as -> by congruence.
      apply (good_discard (tick s2) name l1); [done|rewrite <- Hid; apply (g_offered _ _ Hg)| |].
      + by eapply list_elem_of_lookup_2.
      + intros x Hx Hxid. by eapply dismissed_unlocked.
      + by eapply good_same, Hl2. }
  revert Hr. unfold discard. destruct (io (clock s2)); intros [= <- <-];
    (split; [first [exact Hgd|by apply inv_tick]|exact F2]).
Qed.

Lemma op_run op s :
  sized → distinct → inv s → inv (run_op op s) ∧ follows_all s (run_op op s).
Proof.
  intros Hz Hd Hinv. destruct op as [on|pages client|name|name]; cbn [run_op].
  - destruct (set_enabled on s) as [s' r] eqn:E. apply set_enabled_run in E; [|done]. cbn.
    split; [by eapply sweeps_inv|]. by eapply swept_follows_all, sweeps_extends.
  - destruct (sweep _ _ pages client s) as [s' r] eqn:E. apply sweep_run in E; [|done..]. cbn.
    split; [by eapply sweeps_inv|]. by eapply swept_follows_all, sweeps_extends.
  - destruct (exportable _ _ name s) as [s' r] eqn:E. apply exportable_run in E as [I R]; [|done]. cbn.
    split; [done|]. unfold follows_all, listed. rewrite R. apply extends_refl, _.
  - destruct (dismiss _ _ name s) as [s' r] eqn:E. by apply dismiss_run in E.
Qed.

Lemma ops_run ops s :
  sized → distinct → inv s → inv (foldl (λ s op, run_op op s) s ops) ∧
    follows_all s (foldl (λ s op, run_op op s) s ops).
Proof.
  intros Hz Hd. revert s. induction ops as [|op ops IH]; intros s Hs; [split; [done|apply extends_refl, _]|].
  cbn [foldl]. destruct (op_run op s Hz Hd Hs) as [H1 F1]. destruct (IH _ H1) as [H2 F2].
  split; [done|]. by eapply extends_trans; [apply _|..].
Qed.

Definition fresh (s : State) : Prop := record s = None ∧ staged s = ∅.

Lemma fresh_inv s : fresh s → inv s.
Proof. intros [Hr Hs]. split; [unfold stores_ok; rewrite Hs; apply map_Forall_empty|]. intros l. by rewrite Hr. Qed.

(** C32: What automatic receiving keeps. After any sequence of switching it on or
    off, sweeps, exports and dismissals, whatever the server, the disk and the
    network did and wherever a process stopped: no delivery is listed twice, what
    the server announced of those not dismissed is within the cache limit of
    2 GiB, and a delivery listed as staged has every chunk of its announced
    ciphertext in its own directory, each of exactly its length. *)
Theorem receiver_invariant s ops l :
  sized → distinct → fresh s → record (foldl (λ s op, run_op op s) s ops) = Some l →
  let s' := foldl (λ s op, run_op op s) s ops in
  NoDup (ids l) ∧ claimed l ≤ QUOTA ∧
  ∀ e, e ∈ entries l → state e = "staged-locked"%string →
    ∃ st r, staged s' !! folder_of (id e) = Some st ∧ Inbox.record st = Some r ∧
      sum_Z (Inbox.size_of r <$> Inbox.all_chunks r) = Inbox.ciphertext_bytes (Inbox.metadata r) ∧
      ∀ n item k, Inbox.items (Inbox.metadata r) !! n = Some item → 0 ≤ k < Inbox.chunk_count item →
        Inbox.is_file_of st (Inbox.artifact_name n k)
          (Inbox.expected item k (Inbox.chunk_bytes (Inbox.metadata r))) = true.
Proof.
  intros Hz Hd Hf Hl s'. destruct (ops_run ops s Hz Hd (fresh_inv s Hf)) as [[Hs Hg] _].
  destruct (Hg l Hl) as [Hi Hq _ _ Hlk]. split; [done|]. split; [done|]. intros e He Hst.
  destruct (Hlk e He Hst) as (st & r & H1 & H2 & H3). exists st, r. split; [done|]. split; [done|].
  destruct (Hs _ _ H1) as [_ Ho]. destruct (Inbox.locked_complete st r (Ho r H2) H3) as [Hall Hsum].
  by split.
Qed.

(** Deliveries are neither lost nor brought back. Whatever is done, the
    entries there before are there after, in the same order, for the same
    delivery and with the same announced size and key; one dismissed stays
    dismissed, so no sweep fetches it again, and one staged stays so until it is
    dismissed. *)
Theorem deliveries_kept s ops more :
  sized → distinct → fresh s →
  let s1 := foldl (λ s op, run_op op s) s ops in
  let s2 := foldl (λ s op, run_op op s) s1 more in
  ∀ n e, entries (listed s1) !! n = Some e → ∃ e', entries (listed s2) !! n = Some e' ∧ follows e e'.
Proof.
  intros Hz Hd Hf s1 s2 n e He. destruct (ops_run ops s Hz Hd (fresh_inv s Hf)) as [Hinv _].
  destruct (ops_run more s1 Hz Hd Hinv) as [_ (old & new & E & F)].
  destruct (Forall2_lookup_l _ _ _ _ _ F He) as (e' & He' & Hfo). exists e'. split; [|done].
  fold s2 in E. rewrite E. by apply lookup_app_l_Some.
Qed.

(** C33: A sweep stages only what the user lets arrive by itself. Whatever a
    sweep changes under the staging root belongs to a delivery that the server
    listed with automatic download, and nothing changes there, nor in the list,
    when automatic receiving is off. *)
Theorem sweep_obeys_policy pages client s s' r k :
  sized → inv s → sweep instance account_id pages client s = (s', r) →
  ((∀ t after page item, inbox_sync t after = Ok page → item ∈ transfers page → auto_download item = true →
      k ≠ folder_of (sync_id item)) → staged s' !! k = staged s !! k) ∧
  (enabled (listed s) = false → staged s' = staged s ∧ record s' = record s).
Proof.
  intros Hz Hinv Hr. split.
  - intros Hk. apply (sw_staged _ _ _ _ (sweep_run _ _ _ _ _ Hz Hinv Hr)).
    intros name [(t & after & page & item & Hp & Hin & -> & Ha) _]. by eapply Hk.
  - intros Hoff. revert Hr. unfold sweep. intros [(e & Hm & _)|(s1 & l & Hm & Hr)]%bind_run;
      apply load_list_run in Hm as [-> Hl]; [done|].
    rewrite (Hl l eq_refl) in Hr. fold (listed s) in Hr. rewrite Hoff in Hr. by injection Hr as <- _.
Qed.
End laws.

(** ** Example: two deliveries, one of them not let in *)

Module Example_receiver.
Import Example_codec.

Definition NAME : string := "01ARZ3NDEKTSV4RRFFQ69G5FAV".
Definition listing : InboxSync :=
  {| revision := 1; next := None;
     transfers :=
       [{| sync_id := NAME; ciphertext_bytes := 44; item_count := 1; expires_at := ""; auto_download := true |};
        {| sync_id := "02"; ciphertext_bytes := 44; item_count := 1; expires_at := ""; auto_download := false |}] |}.

#[export] Instance world : World :=
  {| io := λ _, Done; disk := λ _, true; session := λ _, Ok 23; cookie_context := λ _, Ok "s=1"%string;
     inbox_sync := λ _ _, Ok listing; staging := λ _ _, Ok Inbox.Example_inbox.two_chunks;
     turns := λ _, replicate 4 (Inbox.honest Inbox.Example_inbox.serve); cancelled := λ _, false |}.

Definition site : string := "https://files.example".
Definition nothing : State := {| record := None; staged := ∅; clock := 0 |}.
Definition received (ops : list Op) : State := foldl (λ s op, run_op site 23 op s) nothing ops.

Lemma listing_sized : sized.
Proof.
  intros t after page item [= <-] [->|[->|[]%elem_of_nil]%elem_of_cons]%elem_of_cons; vm_compute; split; congruence.
Qed.

Lemma listing_distinct : distinct site 23.
Proof.
  intros a b (t & af & pg & i & [= <-] & Hi & <-) (t' & af' & pg' & j & [= <-] & Hj & <-).
  apply elem_of_cons in Hi as [->|[->|[]%elem_of_nil]%elem_of_cons];
    apply elem_of_cons in Hj as [->|[->|[]%elem_of_nil]%elem_of_cons]; try done; intros H; exfalso;
    revert H; vm_compute; congruence.
Qed.

Example swept_states :
  (λ e, (id e, state e)) <$> entries (listed (received [SetEnabled true; Sweep 2 site]))
    = [(NAME, "staged-locked")]%string.
Proof. vm_compute. reflexivity. Qed.

Lemma receiver_invariant_witness :
  ∃ st r, staged (received [SetEnabled true; Sweep 2 site]) !! folder_of site 23 NAME = Some st ∧
    Inbox.record st = Some r ∧ sum_Z (Inbox.size_of r <$> Inbox.all_chunks r) = 44.
Proof.
  assert (Hrec : record (received [SetEnabled true; Sweep 2 site]) =
    Some {| enabled := true; entries := [{| id := NAME; bytes := 44; state := "staged-locked"; key_bundle_id := 42 |}] |})
    by (vm_compute; reflexivity).
  destruct (receiver_invariant site 23 nothing [SetEnabled true; Sweep 2 site] _ listing_sized listing_distinct
    (conj eq_refl eq_refl) Hrec) as (_ & _ & Hall).
  destruct (Hall _ (list_elem_of_here _ _) eq_refl) as (st & r & Hst & Hr & Hsum & _). exists st, r.
  split; [exact Hst|]. split; [exact Hr|]. rewrite Hsum.
  assert (E : (Inbox.record <$> staged (received [SetEnabled true; Sweep 2 site]) !! folder_of site 23 NAME) ≫= Datatypes.id
    = Some r) by (cbn [id] in Hst; unfold received; rewrite Hst; exact Hr).
  assert (E2 : ((λ r, Inbox.ciphertext_bytes (Inbox.metadata r)) <$>
    ((Inbox.record <$> staged (received [SetEnabled true; Sweep 2 site]) !! folder_of site 23 NAME) ≫= Datatypes.id))
    = Some 44) by (vm_compute; reflexivity).
  rewrite E in E2. by injection E2.
Defined.

Lemma deliveries_kept_witness :
  ∃ e', entries (listed (received ([SetEnabled true; Sweep 2 site] ++ [Dismiss NAME; Sweep 2 site]))) !! 0%nat = Some e' ∧
    id e' = NAME ∧ state e' = "dismissed"%string.
Proof.
  destruct (deliveries_kept site 23 nothing [SetEnabled true; Sweep 2 site] [Dismiss NAME; Sweep 2 site]
    listing_sized listing_distinct (conj eq_refl eq_refl) 0%nat
    {| id := NAME; bytes := 44; state := "staged-locked"; key_bundle_id := 42 |}) as (e' & He' & (Hid & _) & _).
  { vm_compute. reflexivity. }
  exists e'. unfold received. rewrite foldl_app. split; [exact He'|]. split; [exact Hid|].
  assert (E : (state <$> entries (listed (received ([SetEnabled true; Sweep 2 site] ++ [Dismiss NAME; Sweep 2 site]))) !! 0%nat)
    = Some "dismissed"%string) by (vm_compute; reflexivity).
  unfold received in E. rewrite foldl_app in E. rewrite He' in E. by injection E.
Defined.

Lemma sweep_obeys_policy_witness :
  staged (fst (sweep site 23 2 site (received [SetEnabled true]))) !! folder_of site 23 "02" =
  staged (received [SetEnabled true]) !! folder_of site 23 "02".
Proof.
  apply (sweep_obeys_policy site 23 2 site (received [SetEnabled true])
    (fst (sweep site 23 2 site (received [SetEnabled true]))) (snd (sweep site 23 2 site (received [SetEnabled true])))).
  - apply listing_sized.
  - apply (ops_run site 23 [SetEnabled true] nothing listing_sized listing_distinct). by apply fresh_inv.
  - apply surjective_pairing.
  - intros t after page item [= <-] [->|[->|[]%elem_of_nil]%elem_of_cons]%elem_of_cons Ha; [|done].
    vm_compute. congruence.
Defined.

(** The list a server sends, and what it answers about each delivery. *)
Definition serving (items : list InboxSyncItem) (about : string → result string Inbox.Metadata) : World :=
  {| io := λ _, Done; disk := λ _, true; session := λ _, Ok 23; cookie_context := λ _, Ok "s=1"%string;
     inbox_sync := λ _ _, Ok {| revision := 1; next := None; transfers := items |}; staging := λ _, about;
     turns := λ _, replicate 4 (Inbox.honest Inbox.Example_inbox.serve); cancelled := λ _, false |}.

Definition swept_once (w : World) : State :=
  fst (sweep (H0 := w) site 23 2 site (fst (set_enabled (H0 := w) true nothing))).

(** The cache limit counts what the list announces, which nothing compares with
    what is then staged: an announced size of 0 stages 44 bytes. *)
Example announced_size_unchecked :
  let s := swept_once (serving
    [{| sync_id := NAME; ciphertext_bytes := 0; item_count := 1; expires_at := ""; auto_download := true |}]
    (λ _, Ok Inbox.Example_inbox.two_chunks)) in
  (claimed (listed s), (λ e, state e) <$> entries (listed s)) = (0, ["staged-locked"%string]).
Proof. vm_compute. reflexivity. Qed.

(** One delivery that cannot be prepared ends the sweep before the others. *)
Example one_failure_ends_the_sweep :
  entries (listed (swept_once (serving
    [{| sync_id := "02"; ciphertext_bytes := 44; item_count := 1; expires_at := ""; auto_download := true |};
     {| sync_id := NAME; ciphertext_bytes := 44; item_count := 1; expires_at := ""; auto_download := true |}]
    (λ name, if (name =? NAME)%string then Ok Inbox.Example_inbox.two_chunks else Err "gone"%string)))) = [].
Proof. vm_compute. reflexivity. Qed.
End Example_receiver.
