(* ===== verification/Account.v ===== *)
(** * Accounts (crates/client-core/src/services/{account,client,contacts,history}.rs)

    A service client of one instance: whether it acts for an account, the
    requests it has made and what they come to; the account's key, which is
    exported, wrapped under a password and used to open an inbox delivery.  The
    server, the cookie jar and the url crate are parameters: what the server
    replies to a request depends on the requests before it. *)

From Stdlib Require Import Ascii String.
From S2P Require Import Prelude Str Frame Codec Json Encryption Http Monad.
From S2P Require Manifest Config Upload Sealing Opening.
Open Scope Z_scope.

(** ** Data *)

Record AccountSession := {
  s_id : Z; s_name : string; s_username : option string; s_email : string;
  email_verified_at : option string; profile_url : option string; inbox_enabled : bool;
  username_routing_enabled : bool; notification_channel : string }.

Record AccountKeyBundle := {
  bundle_id : Z; user_id : Z; version : Z; public_key : string; fingerprint : string;
  custody_mode : string; encrypted_private_key : option string; is_active : bool }.

Record AccountKeySituation := { active : option AccountKeyBundle; historical_bundle_ids : list Z }.

Record InboxTransfer := {
  in_id : string; in_ciphertext_bytes : Z; in_item_count : Z; completed_at : string; expires_at : string }.

Record InboxServerItem := { item_id : string; position : Z; chunk_count : Z }.
Record RecipientKey := { bundle : AccountKeyBundle; encrypted_key : string }.
Record InboxMetadata := {
  m_id : string; encrypted_manifest : option string; recipient_key : RecipientKey; driver : string;
  protocol_version : Z; chunk_bytes : Z; items : list InboxServerItem }.

Record OpenedInbox := { transfer_id : string; key_bundle_id : Z; filenames : list string }.

Record AccountKeyUpload := {
  up_public_key : string; up_fingerprint : string; up_custody_mode : string;
  up_encrypted_private_key : option string; current_password : option string; replace : bool }.

Record AccountKeyMaterial := { private_key : list Z; m_public_key : string; m_fingerprint : string }.

Record Recipient := {
  r_id : Z; r_username : string; r_public_key : string; account_key_bundle_id : Z; r_version : Z;
  r_fingerprint : string }.

Record Invitation := { i_email : option string; i_expires_at : option string }.

Record ManifestEnvelope := { nonce_prefix : string; ciphertext : string }.

Record ReceivingDefaults := {
  receiving_policy : string; auto_download_friends : bool; revision : Z }.
Record ContactIdentity := { c_id : Z; c_username : string; c_name : string }.
Record Contact := {
  contact : ContactIdentity; c_status : string; can_send : option bool; auto_download : option bool;
  effective_can_send : bool; effective_auto_download : bool }.
Record Contacts := {
  settings : ReceivingDefaults; contact_list : list Contact; blocked : list ContactIdentity }.

Record HistoryFilter := {
  by_status : option string; by_kind : option string; by_driver : option string }.
Record RetentionUpdate := { u_id : string; retention_hours : Z; u_expires_at : string }.

(** The derived [Deserialize]s. *)
Definition session_of (j : json) : option AccountSession :=
  i ← u64_field "id" j;
  name ← str_field "name" j;
  username ← opt_field as_str "username" j;
  email ← str_field "email" j;
  verified ← opt_field as_str "emailVerifiedAt" j;
  profile ← opt_field as_str "profileUrl" j;
  inbox ← bool_field "inboxEnabled" j;
  routing ← bool_field "usernameRoutingEnabled" j;
  channel ← str_field "notificationChannel" j;
  Some {| s_id := i; s_name := name; s_username := username; s_email := email;
          email_verified_at := verified; profile_url := profile; inbox_enabled := inbox;
          username_routing_enabled := routing; notification_channel := channel |}.

Definition bundle_of (j : json) : option AccountKeyBundle :=
  i ← u64_field "id" j;
  user ← u64_field "user_id" j;
  version ← field "version" j ≫= as_u32;
  public ← str_field "public_key" j;
  fingerprint ← str_field "fingerprint" j;
  custody ← str_field "custody_mode" j;
  encrypted ← opt_field as_str "encrypted_private_key" j;
  active ← bool_field "is_active" j;
  Some {| bundle_id := i; user_id := user; version := version; public_key := public;
          fingerprint := fingerprint; custody_mode := custody; encrypted_private_key := encrypted;
          is_active := active |}.

Definition inbox_transfer_of (j : json) : option InboxTransfer :=
  i ← str_field "id" j;
  size ← u64_field "ciphertext_bytes" j;
  count ← u64_field "item_count" j;
  completed ← str_field "completed_at" j;
  expires ← str_field "expires_at" j;
  Some {| in_id := i; in_ciphertext_bytes := size; in_item_count := count;
          completed_at := completed; expires_at := expires |}.

Definition inbox_item_of (j : json) : option InboxServerItem :=
  i ← str_field "id" j; p ← u64_field "position" j; n ← u64_field "chunk_count" j;
  Some {| item_id := i; position := p; chunk_count := n |}.

Definition recipient_key_of (j : json) : option RecipientKey :=
  b ← field "bundle" j ≫= bundle_of; k ← str_field "encrypted_key" j;
  Some {| bundle := b; encrypted_key := k |}.

Definition inbox_metadata_of (j : json) : option InboxMetadata :=
  i ← str_field "id" j;
  manifest ← opt_field as_str "encrypted_manifest" j;
  key ← field "recipient_key" j ≫= recipient_key_of;
  driver ← str_field "driver" j;
  protocol ← u8_field "protocol_version" j;
  chunk ← u64_field "chunk_bytes" j;
  items ← vec_field inbox_item_of "items" j;
  Some {| m_id := i; encrypted_manifest := manifest; recipient_key := key; driver := driver;
          protocol_version := protocol; chunk_bytes := chunk; items := items |}.

Definition recipient_of (j : json) : option Recipient :=
  i ← u64_field "id" j;
  username ← str_field "username" j;
  public ← str_field "public_key" j;
  bundle ← u64_field "account_key_bundle_id" j;
  version ← field "version" j ≫= as_u32;
  fingerprint ← str_field "fingerprint" j;
  Some {| r_id := i; r_username := username; r_public_key := public;
          account_key_bundle_id := bundle; r_version := version; r_fingerprint := fingerprint |}.

Definition invitation_of (j : json) : option Invitation :=
  email ← opt_field as_str "email" j; expires ← opt_field as_str "expiresAt" j;
  if is_object j then Some {| i_email := email; i_expires_at := expires |} else None.

Definition manifest_envelope_of (j : json) : option ManifestEnvelope :=
  prefix ← str_field "nonce_prefix" j; c ← str_field "ciphertext" j;
  Some {| nonce_prefix := prefix; ciphertext := c |}.

Definition receiving_of (j : json) : option ReceivingDefaults :=
  policy ← str_field "receivingPolicy" j;
  auto ← bool_field "autoDownloadFriends" j;
  revision ← u64_field "revision" j;
  Some {| receiving_policy := policy; auto_download_friends := auto; revision := revision |}.

Definition identity_of (j : json) : option ContactIdentity :=
  i ← u64_field "id" j; username ← str_field "username" j; name ← str_field "name" j;
  Some {| c_id := i; c_username := username; c_name := name |}.

Definition effective_of (j : json) : option (bool * bool) :=
  send ← bool_field "canSend" j; auto ← bool_field "autoDownload" j; Some (send, auto).

Definition contact_of (j : json) : option Contact :=
  who ← identity_of j;
  status ← str_field "status" j;
  send ← opt_field as_bool "canSend" j;
  auto ← opt_field as_bool "autoDownload" j;
  '(effective_send, effective_auto) ← field "effective" j ≫= effective_of;
  Some {| contact := who; c_status := status; can_send := send; auto_download := auto;
          effective_can_send := effective_send; effective_auto_download := effective_auto |}.

Definition contacts_of (j : json) : option Contacts :=
  settings ← field "settings" j ≫= receiving_of;
  contacts ← vec_field contact_of "contacts" j;
  blocked ← vec_field identity_of "blocked" j;
  Some {| settings := settings; contact_list := contacts; blocked := blocked |}.

Definition retention_of (j : json) : option RetentionUpdate :=
  i ← str_field "id" j; hours ← u64_field "retention_hours" j; expires ← str_field "expires_at" j;
  Some {| u_id := i; retention_hours := hours; u_expires_at := expires |}.

Record HistoryEntry := {
  h_id : string; h_kind : string; h_driver : string; delivery : string; h_status : string;
  h_item_count : Z; h_ciphertext_bytes : Z; declared_ciphertext_bytes : Z; created_at : string;
  h_completed_at : option string; published_at : option string; h_expires_at : string;
  removed_at : option string; h_retention_hours : Z; maximum_retention_hours : Z;
  maximum_expires_at : option string; burn_on_read : bool; can_delete : bool; can_extend : bool }.
Record HistoryPage := { entries : list HistoryEntry; next_cursor : option string }.

Definition history_entry_of (j : json) : option HistoryEntry :=
  i ← str_field "id" j;
  kind ← str_field "kind" j;
  driver ← str_field "driver" j;
  delivery ← str_field "delivery" j;
  status ← str_field "status" j;
  count ← u64_field "item_count" j;
  size ← u64_field "ciphertext_bytes" j;
  declared ← u64_field "declared_ciphertext_bytes" j;
  created ← str_field "created_at" j;
  completed ← opt_field as_str "completed_at" j;
  published ← opt_field as_str "published_at" j;
  expires ← str_field "expires_at" j;
  removed ← opt_field as_str "removed_at" j;
  hours ← u64_field "retention_hours" j;
  maximum ← u64_field "maximum_retention_hours" j;
  latest ← opt_field as_str "maximum_expires_at" j;
  burn ← bool_field "burn_on_read" j;
  delete ← bool_field "can_delete" j;
  extend ← bool_field "can_extend" j;
  Some {| h_id := i; h_kind := kind; h_driver := driver; delivery := delivery; h_status := status;
          h_item_count := count; h_ciphertext_bytes := size; declared_ciphertext_bytes := declared;
          created_at := created; h_completed_at := completed; published_at := published;
          h_expires_at := expires; removed_at := removed; h_retention_hours := hours;
          maximum_retention_hours := maximum; maximum_expires_at := latest; burn_on_read := burn;
          can_delete := delete; can_extend := extend |}.

Definition history_page_of (j : json) : option HistoryPage :=
  l ← vec_field history_entry_of "data" j;
  next ← opt_field as_str "next_cursor" j;
  Some {| entries := l; next_cursor := next |}.

(** ** Requests *)

Inductive Method := GET | POST | PATCH | DELETE.

(** [path] is the relative reference as it is written, [url] what it is resolved to
    when the request is made; [same_origin] is the header [Sec-Fetch-Site], [accept]
    the one that asks for JSON. *)
Record Request := {
  method : Method; path : string; url : string; query : list (string * string);
  same_origin : bool; accept : bool; payload : option json }.
Definition with_url (u : string) (r : Request) : Request :=
  {| method := method r; path := path r; url := u; query := query r; same_origin := same_origin r;
     accept := accept r; payload := payload r |}.

(** A reply, with its whole body. *)
Record Response := { status : Z; content : result string (list Z) }.

Definition is_success (r : Response) : bool := (200 <=? status r) && (status r <=? 299).

Record Client := {
  restored : list string;          (** the cookies of the saved session *)
  account_intent : bool;
  requested : list Request }.      (** in the order made *)

Definition log (r : Request) (c : Client) : Client :=
  {| restored := restored c; account_intent := account_intent c; requested := requested c ++ [r] |}.
Definition set_intent (b : bool) (c : Client) : Client :=
  {| restored := restored c; account_intent := b; requested := requested c |}.

(** [Url::join] of the instance with a relative reference; what a request comes to
    after earlier ones, by a client that restored some cookies; and the header of
    the cookies held then. *)
Class Server := {
  join : string → result string string;
  exchange : list string → list Request → Request → result string Response;
  cookie_header : list string → list Request → result string string;
  status_text : Z → string }.      (** a status as it is printed *)

Inductive UploadAuthentication := Anonymous | SessionCookie (header : string).

Definition opt_str (s : option string) : json := match s with Some s => JStr s | None => JNull end.
Definition opt_bool (b : option bool) : json := match b with Some b => JBool b | None => JNull end.

(** A username as it is put in a path (contacts.rs). *)
Definition username_byte (b : Z) : bool := is_ascii_lowercase b || is_ascii_digit b || (b =? ch "_").
Definition contact_username (value : string) : result string string :=
  let value := default value (strip_prefix "@" value) in
  reject (len value <? 3) || (24 <? len value) || negb (forallb username_byte (bytes value))
    with "use an exact local-instance username, such as @alice";
  Ok value.

(** [validate_id] (history.rs) *)
Definition validate_history_id (id : string) : result string () :=
  reject negb (len id =? 26) || negb (forallb is_ascii_alphanumeric (bytes id))
    with "provide a server transfer ID from beam history list";
  Ok ().

Section client.
Context `{Js : JsonText, Sv : Server}.

Notation R := (SE Client string).

(** [send()], and its context. *)
Definition send (r : Request) (label : string) : R Response := λ c,
  (log r c, context (exchange (restored c) (requested c) r) label).

(** The reference is first resolved against the instance ([url]), which removes dot
    segments of what was put in it. *)
Definition ask (r : Request) (label : string) : R Response :=
  u ← of_result (context (join (path r)) "build service URL");
  send (with_url u r) label.

Definition expect (ok : bool) (message : string) : R () := of_result (if ok then Ok () else Err message).

(** [response.json::<Api<T>>()] and its [data]. *)
Definition decode_json {A} (rd : json → option A) (label : string) (b : list Z) : result string A :=
  ok_or (from_slice b ≫= λ j, field "data" j ≫= rd) label.
Definition data {A} (rd : json → option A) (label : string) (r : Response) : R A :=
  of_result (b ← context (content r) label; decode_json rd label b).

Definition RESPONSE_LIMIT : Z := 2 * 1024 * 1024.

Definition read (accept : bool) (p : string) : Request :=
  {| method := GET; path := p; url := ""; query := []; same_origin := false; accept := accept; payload := None |}.
Definition change (m : Method) (accept : bool) (p : string) (body : option json) : Request :=
  {| method := m; path := p; url := ""; query := []; same_origin := true; accept := accept; payload := body |}.

(** [get] *)
Definition get_data {A} (rd : json → option A) (p : string) : R A :=
  r ← ask (read true p) "native account request";
  _ ← expect (is_success r) "native account request failed";
  of_result (
    b ← context (content r) "read native account response";
    reject RESPONSE_LIMIT <? zlen b with "native account response exceeds the control-plane limit";
    decode_json rd "decode native account response" b).

(** [post], [post_no_content], [no_content] and [delete_no_content] *)
Definition post {A} (rd : json → option A) (p : string) (body : json) (expected : Z) : R A :=
  r ← ask (change POST false p (Some body)) "native account update";
  _ ← expect (status r =? expected) "native account update failed";
  data rd "decode native account response" r.
Definition post_no_content (p : string) (body : json) : R () :=
  r ← ask (change POST false p (Some body)) "native account update";
  expect (status r =? 204) "native account update failed".
Definition no_content (p : string) : R () := post_no_content p (JObj []).
Definition delete_no_content (p : string) (expected : Z) : R () :=
  r ← ask (change DELETE false p None) "native account update";
  expect (status r =? expected) "native account update failed".

(** ** The account (account.rs) *)

Definition session : R AccountSession :=
  s ← get_data session_of "api/native/v1/session";
  _ ← modify (set_intent true);
  mret s.

Definition login (email password : string) (remember : bool) : R AccountSession :=
  r ← ask (change POST true "api/native/v1/session"
             (Some (JObj [("email", JStr email); ("password", JStr password);
                          ("remember", JBool remember)]))) "native login";
  _ ← expect (is_success r) "native login failed";
  session.

Definition registration (username : string) (name : option string) (email password : string) : json :=
  JObj [("username", JStr username); ("name", opt_str name); ("email", JStr email);
        ("password", JStr password); ("password_confirmation", JStr password)].

Definition register (username : string) (name : option string) (email password : string)
    : R AccountSession :=
  r ← ask (change POST true "api/native/v1/register" (Some (registration username name email password)))
        "native registration";
  _ ← expect (status r =? 201) "native registration failed";
  s ← data session_of "decode native registration" r;
  _ ← modify (set_intent true);
  mret s.

Definition logout : R () :=
  r ← ask (change DELETE true "api/native/v1/session" None) "native logout";
  _ ← expect (status r =? 204) "native logout failed";
  modify (set_intent false).

Definition invitation (token : string) : R Invitation :=
  get_data invitation_of ("api/native/v1/invitations/" +:+ token).

Definition accept_invitation (token username : string) (name : option string) (email password : string)
    : R AccountSession :=
  s ← post session_of ("api/native/v1/invitations/" +:+ token)
        (registration username name email password) 201;
  _ ← modify (set_intent true);
  mret s.

Definition deletion_of (j : json) : option string := str_field "status" j.

Definition delete_account (current confirmation : string) : R string :=
  r ← ask (change DELETE false "api/native/v1/account"
             (Some (JObj [("current_password", JStr current); ("confirmation", JStr confirmation)])))
        "delete native account";
  _ ← expect (status r =? 202) "native account deletion failed";
  _ ← modify (set_intent false);
  data deletion_of "decode native account deletion" r.

Definition inbox : R (list InboxTransfer) :=
  get_data (λ j, l ← as_array j; mapM inbox_transfer_of l) "api/native/v1/inbox".
Definition inbox_unread_count : R Z := get_data (u64_field "unreadCount") "api/native/v1/inbox/unread-count".
Definition delete_inbox_item (id : string) : R () :=
  delete_no_content ("api/native/v1/inbox/" +:+ id) 202.
Definition inbox_metadata (id : string) : R InboxMetadata :=
  get_data inbox_metadata_of ("api/native/v1/inbox/" +:+ id +:+ "/metadata").
Definition account_keys : R (list AccountKeyBundle) :=
  get_data (λ j, l ← as_array j; mapM bundle_of l) "api/native/v1/account/keys".
Definition recipient (username : string) : R Recipient :=
  get_data recipient_of ("api/native/v1/recipients/" +:+ username).
Definition policy : R json := get_data Some "api/native/v1/policy".

Definition key_situation : R AccountKeySituation :=
  keys ← account_keys;
  mret {| active := snd <$> list_find (λ k, is_active k = true) keys;
          historical_bundle_ids := bundle_id <$> filter (λ k, is_active k = false) keys |}.

Definition report (transfer category description : string) (email : option string) : R () :=
  r ← ask (change POST false "api/native/v1/reports"
             (Some (JObj [("transfer_id", JStr transfer); ("category", JStr category);
                          ("description", JStr description); ("email", opt_str email)])))
        "submit native report";
  expect (status r =? 202) "native report failed".

Definition upload_json (k : AccountKeyUpload) : json :=
  JObj [("public_key", JStr (up_public_key k)); ("fingerprint", JStr (up_fingerprint k));
        ("custody_mode", JStr (up_custody_mode k));
        ("encrypted_private_key", opt_str (up_encrypted_private_key k));
        ("current_password", opt_str (current_password k)); ("replace", JBool (replace k))].
Definition upload_key (k : AccountKeyUpload) : R AccountKeyBundle :=
  r ← ask (change POST false "api/native/v1/account/keys" (Some (upload_json k))) "upload native account key";
  _ ← expect (status r =? 201) "native account key upload failed";
  data bundle_of "decode native account key" r.

Definition set_inbox_enabled (enabled : bool) : R () :=
  r ← ask (change PATCH false "api/native/v1/inbox" (Some (JObj [("enabled", JBool enabled)])))
        "update native inbox";
  expect (is_success r) "native inbox update failed".
Definition mark_inbox_notifications_read : R () := no_content "api/native/v1/inbox/notifications/read".
Definition set_notification_channel (channel : string) : R () :=
  _ ← expect (bool_decide (channel ∈ ["mail"; "database"])) "notification channel must be mail or database";
  r ← ask (change PATCH false "api/native/v1/account/notifications" (Some (JObj [("channel", JStr channel)])))
        "update native notification preference";
  expect (is_success r) "native notification preference failed".
Definition resend_verification : R () :=
  no_content "api/native/v1/account/email/verification-notification".
Definition verify_email_link (link : string) : R () :=
  post_no_content "api/native/v1/account/email/verify" (JObj [("link", JStr link)]).
Definition request_password_reset (email : string) : R () :=
  post_no_content "api/native/v1/password/recovery" (JObj [("email", JStr email)]).
Definition reset_password (email token password : string) : R () :=
  post_no_content "api/native/v1/password/reset"
    (JObj [("email", JStr email); ("token", JStr token); ("password", JStr password);
           ("password_confirmation", JStr password)]).

(** ** Contacts (contacts.rs) *)

Definition contacts : R Contacts := get_data contacts_of "api/native/v1/contacts".

Definition contact_lookup (username : string) : R ContactIdentity :=
  name ← of_result (contact_username username);
  get_data identity_of ("api/native/v1/contacts/" +:+ name).

Definition ACTIONS : list string :=
  ["request"; "accept"; "decline"; "cancel"; "remove"; "block"; "unblock"; "preferences"].

Definition contact_action (username action : string) (can_send auto_download : option bool) : R Contacts :=
  _ ← expect (bool_decide (action ∈ ACTIONS)) "invalid contact action";
  name ← of_result (contact_username username);
  post contacts_of ("api/native/v1/contacts/" +:+ name)
    (JObj [("action", JStr action); ("canSend", opt_bool can_send);
           ("autoDownload", opt_bool auto_download)]) 200.

Definition set_receiving_defaults (receiving_policy : string) (auto_download : bool)
    : R ReceivingDefaults :=
  _ ← expect (bool_decide (receiving_policy ∈ ["anyone"; "authenticated"; "friends"; "nobody"]))
        "receiving policy must be anyone, authenticated, friends, or nobody";
  r ← ask (change PATCH true "api/native/v1/account/receiving"
             (Some (JObj [("receivingPolicy", JStr receiving_policy);
                          ("autoDownloadFriends", JBool auto_download)]))) "receiving settings";
  _ ← expect (is_success r) "receiving settings failed";
  data receiving_of "receiving settings" r.

(** ** The history (history.rs) *)

Definition message_of (j : json) : option string := str_field "message" j.

Definition checked (r : Response) : R Response :=
  if is_success r then mret r
  else if status r =? 401 then fail "sign in again to manage your account history"
  else
    let message := match content r with Ok b => from_slice b ≫= message_of | Err _ => None end in
    fail (default "history operation failed" message +:+ " (" +:+ status_text (status r) +:+ ")").

Definition named (name : string) (value : option string) : list (string * string) :=
  match value with Some v => [(name, v)] | None => [] end.

Definition history_list (filter : HistoryFilter) (cursor : option string) (limit : Z) : R HistoryPage :=
  r ← ask {| method := GET; path := "api/native/v1/history"; url := "";
             query := [("limit", decimal limit)] ++ named "status" (by_status filter)
                      ++ named "kind" (by_kind filter) ++ named "driver" (by_driver filter)
                      ++ named "cursor" cursor;
             same_origin := false; accept := true; payload := None |} "load account history";
  r ← checked r;
  of_result (b ← context (content r) "decode account history";
             ok_or (from_slice b ≫= history_page_of) "decode account history").

Definition history_delete (id : string) : R () :=
  _ ← (of_result (validate_history_id id) : R ());
  r ← ask (change DELETE true ("api/native/v1/history/" +:+ id) None) "delete history transfer";
  _ ← checked r;
  mret ().

Definition history_extend (id : string) (hours : Z) : R RetentionUpdate :=
  _ ← (of_result (validate_history_id id) : R ());
  r ← ask (change PATCH true ("api/native/v1/history/" +:+ id +:+ "/retention")
             (Some (JObj [("retention_hours", JNum hours)]))) "extend history transfer";
  r ← checked r;
  data retention_of "decode updated retention" r.

(** ** The client (client.rs) *)

Definition cookie_context : R string := λ c, (c, cookie_header (restored c) (requested c)).

Definition upload_authentication : R UploadAuthentication :=
  intent ← get account_intent;
  if (intent : bool) then
    _ ← map_err (λ _, "sign in again before sharing") session;
    h ← cookie_context;
    mret (SessionCookie h)
  else mret Anonymous.
End client.

(** [Url::parse], and the URL with an empty path. *)
Class Origins := { urls :: Config.Urls; without_path : Config.Url → Config.Url }.

(** How both the client and the local state read the instance. *)
Definition service_origin `{Origins} (text : string) : result string Config.Url :=
  u ← ok_or (Config.url_parse text) "instance URL is invalid";
  reject negb (bool_decide (Config.url_scheme u ∈ ["http"; "https"]))
         || bool_decide (Config.url_host u = None) || bool_decide (is_Some (Config.url_query u))
         || bool_decide (is_Some (Config.url_fragment u))
    with "instance must be an HTTP origin";
  Ok (without_path u).

(** The cookies of a saved session, as they are given to the jar. *)
Definition cookie_pair (l : list string) (pair : string) : result string (list string) :=
  reject negb (contains "=" pair) with "invalid persisted session cookie context";
  Ok (l ++ [pair +:+ "; Path=/"]).
Definition cookie_pairs (context : string) : result string (list string) :=
  reject (16 * 1024 <? len context) || negb (bool_decide (no_char "013" context))
         || negb (bool_decide (no_char "010" context))
    with "invalid persisted session cookie context";
  try_fold cookie_pair [] (filter (λ p, is_empty p = false) (trim <$> split_char ";" context)).

(** [new_with_cookie_context]; [built] is the HTTP client's. *)
Definition new_client `{Origins} (instance : string) (context : option string) (built : result string ())
    : result string Client :=
  _ ← service_origin instance;
  cookies ← match context with Some context => cookie_pairs context | None => Ok [] end;
  _ ← built;
  Ok {| restored := cookies; account_intent := bool_decide (is_Some context); requested := [] |}.

(** ** Keys (account.rs)

    Randomness is an argument: [fresh] draws a nonce prefix, and the sealing of
    a key for a recipient takes the fresh key of its encapsulation. *)

Definition SELF_KEY_PREFIX : string := "fbsk1.".
Definition ACCOUNT_KEY_LABEL : string := "filebeam:account-key:v1:".
Definition CHALLENGE : list Z := replicate 32 66.

Definition recipient_aad (transfer : string) (user bundle : Z) : string :=
  "filebeam:recipient:v1:" +:+ transfer +:+ ":" +:+ decimal user +:+ ":" +:+ decimal bundle.
Definition validation_aad : string := ACCOUNT_KEY_LABEL +:+ "validation".
Definition password_aad (user : Z) (public : string) : string :=
  ACCOUNT_KEY_LABEL +:+ decimal user +:+ ":" +:+ public.

Record KeyEnvelope := { e_v : Z; e_salt : string; e_prefix : string; e_ciphertext : string }.
Definition key_envelope_of (j : json) : option KeyEnvelope :=
  v ← u8_field "v" j; salt ← str_field "salt" j; prefix ← str_field "nonce_prefix" j;
  c ← str_field "ciphertext" j;
  Some {| e_v := v; e_salt := salt; e_prefix := prefix; e_ciphertext := c |}.
Definition key_envelope_json (salt prefix ciphertext : string) : json :=
  JObj [("v", JNum 1);
        ("kdf", JObj [("name", JStr "argon2id"); ("memory_kib", JNum 65536); ("iterations", JNum 3);
                      ("parallelism", JNum 1)]);
        ("salt", JStr salt); ("nonce_prefix", JStr prefix); ("ciphertext", JStr ciphertext)].

Section keys.
Context `{Ae : Aead, Kd : Kdf, Hp : Hpke, Xc : X25519, Co : Codec, En : Encode, Js : JsonText}.

Definition export_self_key (key : list Z) : result string string :=
  reject negb (zlen key =? 32) with "account private key must be 32 bytes";
  Ok (SELF_KEY_PREFIX +:+ encode key).

(** 32 bytes, written as [encode] writes them: what [import_self_key] and
    [decode_key] accept. *)
Definition canonical_key (value : string) : result string (list Z) :=
  key ← decode value;
  reject negb (zlen key =? 32) || negb (encode key =? value)%string
    with "key must be canonical and 32 bytes";
  Ok key.

Definition import_self_key (value : string) : result string (list Z) :=
  value ← ok_or (strip_prefix SELF_KEY_PREFIX value) "a self-custody key must begin with fbsk1.";
  canonical_key value.

Definition decode_key (value : string) : result string (list Z) := canonical_key value.

Definition generate_self_keypair : result string AccountKeyMaterial :=
  pair ← generate_account_keypair;
  let public := drop 32 pair in
  Ok {| private_key := take 32 pair; m_public_key := encode public; m_fingerprint := sha256_hex public |}.

Definition validate_self_key (fresh private : list Z) (public : string) : result string () :=
  public ← decode_key public;
  envelope ← seal_key_for_recipient fresh public CHALLENGE (bytes validation_aad);
  opened ← open_recipient_envelope private envelope (bytes validation_aad);
  reject negb (bool_decide (opened = CHALLENGE)) with "the private key does not match this account key";
  Ok ().

Definition seal_recipient_key (fresh master : list Z) (r : Recipient) (transfer : string)
    : result string string :=
  public ← decode_key (r_public_key r);
  envelope ← seal_key_for_recipient fresh public master
               (bytes (recipient_aad transfer (r_id r) (account_key_bundle_id r)));
  Ok (encode envelope).

Definition open_recipient_key (private : list Z) (k : RecipientKey) (transfer : string)
    : result string (list Z) :=
  envelope ← decode (encrypted_key k);
  open_recipient_envelope private envelope
    (bytes (recipient_aad transfer (user_id (bundle k)) (bundle_id (bundle k)))).

(** The key that wraps an account key under a password. *)
Definition wrapping_key (password salt : list Z) (public : string) : result string (list Z) :=
  p ← derive_password_key password salt 65536 3 1;
  derive_account_wrapping_key p public.

Definition wrap_password_key (fresh_salt fresh_prefix : result string (list Z)) (private : list Z)
    (password : list Z) (user : Z) (public : string) : result string string :=
  salt ← fresh_salt;
  let salt := take 16 salt in
  prefix ← fresh_prefix;
  wrapping ← wrapping_key password salt public;
  c ← encrypt_manifest wrapping prefix private (bytes (password_aad user public));
  Ok (to_string (key_envelope_json (encode salt) (encode prefix) (encode c))).

Definition unwrap_password_key (envelope : string) (password : list Z) (user : Z) (public : string)
    : result string (list Z) :=
  e ← ok_or (from_str envelope ≫= key_envelope_of) "invalid account key envelope";
  reject negb (e_v e =? 1) with "unsupported account key envelope";
  salt ← decode (e_salt e);
  prefix ← decode (e_prefix e);
  c ← decode (e_ciphertext e);
  wrapping ← wrapping_key password salt public;
  key ← decrypt_manifest wrapping prefix c (bytes (password_aad user public));
  reject negb (zlen key =? 32) with "invalid account private key";
  Ok key.

(** ** Opening an inbox delivery *)

Definition server_item (i : InboxServerItem) : Manifest.ManifestServerItem :=
  {| Manifest.server_id := item_id i; Manifest.position := position i;
     Manifest.server_chunk_count := chunk_count i |}.

(** [open_inbox] after its request. *)
Definition open_delivery (id : string) (fresh private : list Z) (m : InboxMetadata)
    : result string OpenedInbox :=
  reject negb (m_id m =? id)%string || negb (protocol_version m =? 1) || negb (driver m =? "http")%string
    with "inbox transfer metadata is not a supported HTTP v1 transfer";
  _ ← validate_self_key fresh private (public_key (bundle (recipient_key m)));
  key ← open_recipient_key private (recipient_key m) (m_id m);
  text ← ok_or (encrypted_manifest m) "inbox transfer has no encrypted manifest";
  envelope ← ok_or (from_str text ≫= manifest_envelope_of) "invalid encrypted inbox manifest";
  prefix ← decode (nonce_prefix envelope);
  c ← decode (ciphertext envelope);
  plain ← decrypt_manifest key prefix c (bytes (Sealing.manifest_aad (m_id m)));
  manifest ← ok_or (from_slice plain ≫= Opening.manifest_of) "invalid decrypted inbox manifest";
  _ ← Manifest.validate_manifest manifest (driver m) (chunk_bytes m) (server_item <$> items m);
  Ok {| transfer_id := m_id m; key_bundle_id := bundle_id (bundle (recipient_key m));
        filenames := Manifest.name <$> Manifest.items manifest |}.

Definition open_inbox `{Sv : Server} (id : string) (fresh private : list Z)
    : SE Client string OpenedInbox :=
  m ← inbox_metadata id;
  of_result (open_delivery id fresh private m).
End keys.

(** ** The operations of a client *)

Inductive Op :=
| Login (email password : string) (remember : bool)
| Register (username : string) (name : option string) (email password : string)
| Logout
| Session
| Inbox
| InboxUnreadCount
| DeleteInboxItem (id : string)
| GetInboxMetadata (id : string)
| OpenInbox (id : string) (fresh private : list Z)
| AccountKeys
| KeySituation
| FindRecipient (username : string)
| Policy
| GetInvitation (token : string)
| AcceptInvitation (token username : string) (name : option string) (email password : string)
| Report (transfer category description : string) (email : option string)
| DeleteAccount (current confirmation : string)
| UploadKey (key : AccountKeyUpload)
| SetInboxEnabled (enabled : bool)
| MarkRead
| SetNotificationChannel (channel : string)
| ResendVerification
| VerifyEmailLink (link : string)
| RequestPasswordReset (email : string)
| ResetPassword (email token password : string)
| GetContacts
| ContactLookup (username : string)
| ContactAction (username action : string) (can_send auto_download : option bool)
| SetReceivingDefaults (policy : string) (auto_download : bool)
| HistoryList (filter : HistoryFilter) (cursor : option string) (limit : Z)
| HistoryDelete (id : string)
| HistoryExtend (id : string) (hours : Z)
| Authenticate.

Section operations.
Context `{Ae : Aead, Kd : Kdf, Hp : Hpke, Xc : X25519, Co : Codec, En : Encode, Js : JsonText, Sv : Server}.

Definition run_op (op : Op) (c : Client) : Client :=
  match op with
  | Login e p r => (login e p r c).1
  | Register u n e p => (register u n e p c).1
  | Logout => (logout c).1
  | Session => (session c).1
  | Inbox => (inbox c).1
  | InboxUnreadCount => (inbox_unread_count c).1
  | DeleteInboxItem i => (delete_inbox_item i c).1
  | GetInboxMetadata i => (inbox_metadata i c).1
  | OpenInbox i f k => (open_inbox i f k c).1
  | AccountKeys => (account_keys c).1
  | KeySituation => (key_situation c).1
  | FindRecipient u => (recipient u c).1
  | Policy => (policy c).1
  | GetInvitation t => (invitation t c).1
  | AcceptInvitation t u n e p => (accept_invitation t u n e p c).1
  | Report t k d e => (report t k d e c).1
  | DeleteAccount p k => (delete_account p k c).1
  | UploadKey k => (upload_key k c).1
  | SetInboxEnabled b => (set_inbox_enabled b c).1
  | MarkRead => (mark_inbox_notifications_read c).1
  | SetNotificationChannel k => (set_notification_channel k c).1
  | ResendVerification => (resend_verification c).1
  | VerifyEmailLink l => (verify_email_link l c).1
  | RequestPasswordReset e => (request_password_reset e c).1
  | ResetPassword e t p => (reset_password e t p c).1
  | GetContacts => (contacts c).1
  | ContactLookup u => (contact_lookup u c).1
  | ContactAction u a s d => (contact_action u a s d c).1
  | SetReceivingDefaults p d => (set_receiving_defaults p d c).1
  | HistoryList f k l => (history_list f k l c).1
  | HistoryDelete i => (history_delete i c).1
  | HistoryExtend i h => (history_extend i h c).1
  | Authenticate => (upload_authentication c).1
  end.
End operations.

(** ** What a client's operations do to it *)

Section intent.
Context `{Ae : Aead, Kd : Kdf, Hp : Hpke, Xc : X25519, Co : Codec, En : Encode, Js : JsonText, Sv : Server}.

Notation R := (SE Client string).

(** A request as it is made up: for the native interface, and one that changes
    something says it comes from the instance itself. *)
Definition made_up (r : Request) : Prop :=
  starts_with "api/native/v1/" (path r) = true ∧ (method r = GET ∨ same_origin r = true).

(** A request as it is made: where the reference resolves to. *)
Definition guarded (r : Request) : Prop := made_up r ∧ join (path r) = Ok (url r).

(** The server confirmed the end of the session, or of the account. *)
Definition signs_out (c : Client) (before : list Request) (q : Request) : Prop :=
  ∃ reply, exchange (restored c) before q = Ok reply ∧ method q = DELETE ∧
    (path q = "api/native/v1/session" ∧ status reply = 204 ∨
     path q = "api/native/v1/account" ∧ status reply = 202).

Record acts (c c' : Client) : Prop := {
  a_restored : restored c' = restored c;
  a_requested : ∃ l, requested c' = requested c ++ l ∧ Forall guarded l ∧
    (account_intent c = true → account_intent c' = false →
     ∃ pre q post, l = pre ++ q :: post ∧ signs_out c (requested c ++ pre) q) }.

#[export] Instance acts_refl : Reflexive acts.
Proof.
  intros c. split; [done|]. exists []. split_and!; [by rewrite app_nil_r|done|congruence].
Qed.

#[export] Instance acts_trans : Transitive acts.
Proof.
  intros c1 c2 c3 [H1 (l1 & L1 & G1 & I1)] [H2 (l2 & L2 & G2 & I2)]. split; [congruence|].
  exists (l1 ++ l2). split_and!; [by rewrite L2, L1, app_assoc|by apply Forall_app|]. intros Ht Hf.
  destruct (account_intent c2) eqn:E2.
  - destruct (I2 eq_refl Hf) as (pre & q & post & -> & Hq). exists (l1 ++ pre), q, post.
    split; [by rewrite app_assoc|]. unfold signs_out in *. by rewrite H1, L1, <- app_assoc in Hq.
  - destruct (I1 Ht eq_refl) as (pre & q & post & -> & Hq). exists pre, q, (post ++ l2).
    split; [by rewrite <- app_assoc|done].
Qed.

Notation acting m := (preserves acts m).

Lemma acting_result {A} (r : result string A) : acting (of_result (S := Client) r).
Proof. by intros c c' x [= <- <-]. Qed.
Lemma acting_ret {A} (a : A) : acting (mret a : R A).
Proof. by intros c c' x [= <- <-]. Qed.
Lemma acting_fail {A} (e : string) : acting (fail e : R A).
Proof. by intros c c' x [= <- <-]. Qed.
Lemma acting_get {A} (f : Client → A) : acting (get f : R A).
Proof. by intros c c' x [= <- <-]. Qed.
Lemma acting_cookies : acting cookie_context.
Proof. by intros c c' x [= <- <-]. Qed.
Lemma acting_intent : acting (modify (set_intent true) : R ()).
Proof.
  intros c c' x [= <- <-]. split; [done|]. exists []. cbn. rewrite app_nil_r. by split_and!.
Qed.
Lemma acts_log r c : guarded r → acts c (log r c).
Proof.
  intros Hr. split; [done|]. exists [r]. split_and!; [done|by apply Forall_singleton|].
  cbn. congruence.
Qed.
Lemma ask_run r label c c' x :
  ask r label c = (c', x) →
  c' = c ∧ is_ok x = false ∨
  ∃ u, join (path r) = Ok u ∧ c' = log (with_url u r) c ∧
    x = context (exchange (restored c) (requested c) (with_url u r)) label.
Proof.
  unfold ask. intros [(e & [-> He]%of_result_run & ->)|(c1 & u & [-> Hu]%of_result_run & [= <- <-])]%bind_run.
  - by left.
  - right. exists u. destruct (join (path r)); [|done]. by injection Hu as ->.
Qed.
Lemma acting_ask r label : made_up r → acting (ask r label).
Proof. intros Hr c c' x [[-> _]|(u & Hu & -> & _)]%ask_run; [done|]. by apply acts_log. Qed.
Lemma acting_map_err {A} (f : string → string) (m : R A) : acting m → acting (map_err f m).
Proof.
  intros Hm c c' r Hr. apply map_err_run in Hr as [(a & Hr & _)|(e & Hr & _)]; by apply Hm in Hr.
Qed.
Lemma acting_checked r : acting (checked r).
Proof. unfold checked. repeat case_match; first [apply acting_ret|apply acting_fail]. Qed.

(** Call by call. *)
Ltac acting_step :=
  match goal with
  | |- preserves acts (mbind _ _) => apply (preserves_bind acts); [|intros ?]
  | |- preserves acts (ask _ _) =>
      apply acting_ask; split; [reflexivity|first [by left|by right]]
  | |- preserves acts (if ?b then _ else _) => destruct b
  | |- preserves acts (map_err _ _) => apply acting_map_err
  | _ => first [apply acting_result|apply acting_ret|apply acting_fail|apply acting_get
               |apply acting_cookies|apply acting_intent|apply acting_checked]
  end.

Lemma acting_get_data {A} (rd : json → option A) p :
  starts_with "api/native/v1/" p = true → acting (get_data rd p).
Proof.
  intros Hp'. unfold get_data, expect. apply (preserves_bind acts); [|intros r; repeat acting_step].
  apply acting_ask. split; [done|by left].
Qed.

Lemma acting_session : acting session.
Proof. unfold session. repeat (acting_step || by apply acting_get_data). Qed.

Lemma acting_post {A} (rd : json → option A) p b n :
  starts_with "api/native/v1/" p = true → acting (post rd p b n).
Proof.
  intros Hp'. unfold post, expect, data. apply (preserves_bind acts); [|intros r; repeat acting_step].
  apply acting_ask. split; [done|by right].
Qed.

(** The two that give up the account do so only after the server's reply. *)
Lemma acts_signed_out c q reply :
  guarded q → exchange (restored c) (requested c) q = Ok reply → method q = DELETE →
  (path q = "api/native/v1/session" ∧ status reply = 204 ∨
   path q = "api/native/v1/account" ∧ status reply = 202) →
  acts c (set_intent false (log q c)).
Proof.
  intros Hq He Hm Hs. split; [done|]. exists [q]. split_and!; [done|by apply Forall_singleton|].
  intros _ _. exists [], q, []. split; [done|]. rewrite app_nil_r. by exists reply.
Qed.

Lemma acting_sign_out {A} (r : Request) (label message : string) (n : Z) (rest : Response → R A) :
  made_up r → method r = DELETE →
  path r = "api/native/v1/session" ∧ n = 204 ∨ path r = "api/native/v1/account" ∧ n = 202 →
  (∀ reply, acting (rest reply)) →
  acting (q ← ask r label; _ ← expect (status q =? n) message; _ ← modify (set_intent false); rest q).
Proof.
  intros Hr Hm Hp' Hrest c c' x Hrun.
  apply bind_run in Hrun as [(e & Ha & _)|(c1 & reply & Ha & Hrun)].
  { by eapply acting_ask in Ha. }
  pose proof Ha as Hask. apply acting_ask in Hask; [|done].
  apply bind_run in Hrun as [(e & [-> _]%of_result_run & _)|(c2 & [] & [-> Hs]%of_result_run & Hrun)]; [done|].
  apply ask_run in Ha as [[_ [=]]|(u & Hu & -> & Hx)].
  apply bind_run in Hrun as [(e & [=] & _)|(c3 & [] & [= <-] & Hrun)].
  etrans; [|by eapply Hrest].
  destruct (exchange _ _ _) as [reply'|] eqn:Ee; [|done]. injection Hx as ->.
  destruct (Z.eqb_spec (status reply') n); [|done].
  eapply acts_signed_out; [by split|exact Ee|done|]. destruct Hp' as [[? ->]|[? ->]]; [left|right]; done.
Qed.

Lemma acting_logout : acting logout.
Proof.
  intros c c' r Hr. eapply (acting_sign_out (change DELETE true "api/native/v1/session" None) "native logout"
    "native logout failed" 204 (λ _, mret ())); [by split; [|right]|done|by left|intros _; by apply acting_ret|].
  rewrite <- Hr. unfold logout, modify, mbind, SE_bind. destruct (ask _ _ c) as [c1 [q|e]]; [|done].
  by destruct (expect _ _ c1) as [c2 [[]|e]].
Qed.

Lemma acting_delete_account p k : acting (delete_account p k).
Proof.
  apply acting_sign_out; [by split; [|right]|done|by right|].
  intros reply. apply acting_result.
Qed.

Lemma acting_fst {A} (m : R A) c : acting m → acts c (m c).1.
Proof. intros Hm. destruct (m c) as [c' r] eqn:E1. by apply Hm in E1. Qed.

Ltac acting_calls :=
  repeat first [acting_step|apply acting_session|by apply acting_get_data|by apply acting_post].

Lemma op_acts op c : acts c (run_op op c).
Proof.
  destruct op; cbn [run_op]; apply acting_fst;
    first [apply acting_logout|apply acting_delete_account|apply acting_session|idtac].
  all: try (by apply acting_get_data).
  all: unfold login, register, inbox, delete_inbox_item, open_inbox, inbox_metadata, account_keys,
    key_situation, invitation, accept_invitation, report, upload_key, set_inbox_enabled,
    mark_inbox_notifications_read, set_notification_channel, resend_verification, verify_email_link,
    request_password_reset, reset_password, contact_lookup, contact_action, set_receiving_defaults,
    history_list, history_delete, history_extend, upload_authentication, delete_no_content, no_content,
    post_no_content, data, expect; acting_calls.
Qed.

Lemma ops_act ops c : acts c (foldl (λ c op, run_op op c) c ops).
Proof.
  revert c. induction ops as [|op ops IH]; intros c; [done|]. cbn [foldl].
  etransitivity; [apply op_acts|apply IH].
Qed.

(** The request of [get_data] and its reply. *)
Definition answered (p : string) (c : Client) (u : string) (reply : Response) : Prop :=
  join p = Ok u ∧ exchange (restored c) (requested c) (with_url u (read true p)) = Ok reply ∧
  is_success reply = true.

Lemma get_data_Ok {A} (rd : json → option A) p c c' a :
  get_data rd p c = (c', Ok a) → ∃ u reply, answered p c u reply ∧ c' = log (with_url u (read true p)) c.
Proof.
  unfold get_data. intros (c1 & reply & [[_ [=]]|(u & Hu & -> & He)]%ask_run & Hr)%bind_run_Ok.
  apply bind_run_Ok in Hr as (c2 & [] & [-> Hs]%of_result_run & [-> _]%of_result_run).
  destruct (exchange _ _ _) as [reply'|] eqn:Ee; [|done]. injection He as ->.
  destruct (is_success reply') eqn:Es; [|done]. by exists u, reply'.
Qed.

Lemma session_Ok c c' s :
  session c = (c', Ok s) →
  ∃ u reply, answered "api/native/v1/session" c u reply ∧
    c' = set_intent true (log (with_url u (read true "api/native/v1/session")) c).
Proof.
  unfold session. intros (c1 & a & H1 & Hr)%bind_run_Ok.
  apply get_data_Ok in H1 as (u & reply & Ha & ->). injection Hr as <- _. by exists u, reply.
Qed.
End intent.

(** ** What a client promises *)

Section promises.
Context `{Ae : Aead, Kd : Kdf, Hp : Hpke, Xc : X25519, Co : Codec, En : Encode, Js : JsonText, Sv : Server}.

Definition run_ops (ops : list Op) (c : Client) : Client := foldl (λ c op, run_op op c) c ops.

(** C9: an account's upload is never made anonymous. Whatever operations a
    client runs, each with whatever reply: it shares anonymously exactly when it
    acts for no account, and a client that acted for one (it restored a saved
    session, or a sign-in, a registration or an accepted invitation returned a
    session) stops doing so only by a sign-out the server answered with 204 or an
    account deletion it answered with 202. A session cookie is given to an upload
    only right after the server confirmed the session, and it is the cookie held
    then. Every request is for a reference that begins with the native interface's
    path, and goes where the url crate resolves it; one that changes anything
    carries the same-origin header. *)
Theorem never_anonymous ops c :
  let c1 := run_ops ops c in
  (∃ l, requested c1 = requested c ++ l ∧ Forall guarded l ∧
    (account_intent c = true → account_intent c1 = false →
     ∃ pre q post, l = pre ++ q :: post ∧ signs_out c (requested c ++ pre) q)) ∧
  (∀ e p b u n t c2 s, login e p b c1 = (c2, Ok s) ∨ register u n e p c1 = (c2, Ok s) ∨
     session c1 = (c2, Ok s) ∨ accept_invitation t u n e p c1 = (c2, Ok s) → account_intent c2 = true) ∧
  ∀ c2 r, upload_authentication c1 = (c2, r) →
    (r = Ok Anonymous ↔ account_intent c1 = false) ∧
    ∀ h, r = Ok (SessionCookie h) →
      (∃ u reply, answered "api/native/v1/session" c1 u reply ∧
         requested c2 = requested c1 ++ [with_url u (read true "api/native/v1/session")]) ∧
      cookie_header (restored c2) (requested c2) = Ok h.
Proof.
  intros c1. split_and!.
  - apply (a_requested _ _ (ops_act ops c)).
  - intros e p b u n t c2 s [H1|[H1|[H1|H1]]].
    + unfold login in H1. do 2 apply bind_run_Ok in H1 as (? & ? & _ & H1).
      by apply session_Ok in H1 as (? & ? & _ & ->).
    + unfold register in H1. do 3 apply bind_run_Ok in H1 as (? & ? & _ & H1).
      apply bind_run_Ok in H1 as (? & ? & [= <- _] & H1). by injection H1 as <- _.
    + by apply session_Ok in H1 as (? & ? & _ & ->).
    + unfold accept_invitation in H1. apply bind_run_Ok in H1 as (? & ? & _ & H1).
      apply bind_run_Ok in H1 as (? & ? & [= <- _] & H1). by injection H1 as <- _.
  - intros c2 r Hr. unfold upload_authentication in Hr.
    rewrite (bind_Ok _ _ _ c1 (account_intent c1)) in Hr by done.
    destruct (account_intent c1); [|by injection Hr as <- <-; split; [|done]].
    apply bind_run in Hr as [(e & Hr & ->)|(c3 & s & Hs & Hr)]; [done|].
    apply map_err_run in Hs as [(s' & Hs & _)|(e & _ & [=])].
    apply session_Ok in Hs as (u & reply & Hs & ->).
    apply bind_run in Hr as [(e & Hr & ->)|(c4 & h & Hh & Hr)]; [done|].
    injection Hh as <- Hh. injection Hr as <- <-. split; [done|]. intros h' [= <-].
    split; [by exists u, reply|]. exact Hh.
Qed.
End promises.

(** ** What the operating system and HPKE do

    Random bytes are bytes, as many as asked for; a 32-byte secret and its X25519
    public key are a key pair, for which sealing succeeds: 32 bytes of
    encapsulated key, and the ciphertext with its tag. *)
Class KeyLaws `{Kdf, Hpke, X25519} : Prop := {
  random_u8 n l : 0 ≤ n → getrandom n = Some l → zlen l = n ∧ Forall is_u8 l;
  key_pair secret : zlen secret = 32 → Forall is_u8 secret →
    ∃ private, hpke_private_key secret = Some private ∧
      hpke_public_key (x25519_public secret) = Some (hpke_public_of private);
  seals secret private fresh info msg aad : zlen secret = 32 → Forall is_u8 secret →
    hpke_private_key secret = Some private → Forall is_u8 msg →
    ∃ enc c, hpke_seal fresh (hpke_public_of private) info msg aad = Some (enc, c) ∧
      zlen enc = 32 ∧ zlen c = zlen msg + 16 ∧ Forall is_u8 enc ∧ Forall is_u8 c }.

Section key_laws.
Context `{Ae : Aead, Kd : Kdf, Hp : Hpke, Xc : X25519, Co : Codec, En : Encode, Js : JsonText}.
Context `{KL : !KeyLaws, JL : !JsonTextLaws, WL : !Opening.WireLaws}.

Lemma canonical_key_Ok value k :
  canonical_key value = Ok k ↔ decode value = Ok k ∧ zlen k = 32 ∧ encode k = value.
Proof.
  unfold canonical_key, mbind, result_bind. destruct (decode value) as [k'|]; [|naive_solver].
  destruct (Z.eqb_spec (zlen k') 32), (String.eqb_spec (encode k') value); cbn; naive_solver.
Qed.

Lemma canonical_encode k : zlen k = 32 → Forall is_u8 k → canonical_key (encode k) = Ok k.
Proof. intros Hl Hu. apply canonical_key_Ok. by rewrite Opening.decode_encode. Qed.

Lemma import_export key text :
  import_self_key text = Ok key ↔ export_self_key key = Ok text ∧ decode (encode key) = Ok key.
Proof.
  unfold import_self_key, export_self_key, mbind, result_bind. split.
  - destruct (strip_prefix SELF_KEY_PREFIX text) as [rest|] eqn:Es; [cbn [ok_or]|done].
    intros (Hd & Hl & He)%canonical_key_Ok. rewrite Hl, He. split; [|done].
    by rewrite (strip_prefix_Some _ _ _ Es).
  - intros [He Hd]. destruct (Z.eqb_spec (zlen key) 32); [|done]. injection He as <-.
    rewrite strip_prefix_app. cbn [ok_or]. by apply canonical_key_Ok.
Qed.

(** A secret and what it seals. *)
Section secret.
Context (secret : list Z) (Hlen : zlen secret = 32) (Hbytes : Forall is_u8 secret).

Lemma sealed_key fresh msg aad : Forall is_u8 msg → zlen msg = 32 → zlen aad ≤ MAX_ASSOCIATED_DATA_BYTES →
  ∃ env, seal_key_for_recipient fresh (x25519_public secret) msg aad = Ok env.
Proof.
  intros Hm Hl Ha. destruct (key_pair secret Hlen Hbytes) as (private & Hk & Hp').
  destruct (seals secret private fresh HPKE_INFO msg aad Hlen Hbytes Hk Hm) as (enc & c & Hs & H1 & H2 & _ & _).
  unfold seal_key_for_recipient. rewrite !(proj2 (validate_key_Ok _ _)) by (done || apply x25519_length).
  rewrite (proj2 (validate_associated_data_Ok _)) by done. cbn [mbind result_bind].
  rewrite Hp'. cbn [ok_or mbind result_bind]. rewrite Hs. cbn [ok_or mbind result_bind].
  rewrite H2, Hl, H1. by eexists.
Qed.

Lemma sealed_key_opens fresh msg aad env :
  Forall is_u8 msg → seal_key_for_recipient fresh (x25519_public secret) msg aad = Ok env →
  Forall is_u8 env ∧ open_recipient_envelope secret env aad = Ok msg.
Proof.
  intros Hm Hs. destruct (key_pair secret Hlen Hbytes) as (private & Hk & Hp').
  destruct (seals secret private fresh HPKE_INFO msg aad Hlen Hbytes Hk Hm) as (enc & c & Hc & _ & _ & H1 & H2).
  split; [|by eapply recipient_envelope_roundtrip].
  revert Hs. unfold seal_key_for_recipient, mbind, result_bind. rewrite Hp'. cbn [ok_or].
  rewrite Hc. cbn [ok_or]. intros Hs. repeat case_match; simplify_eq. by apply Forall_app.
Qed.

Lemma public_canonical : decode_key (encode (x25519_public secret)) = Ok (x25519_public secret).
Proof. apply canonical_encode; [apply x25519_length|apply x25519_u8]. Qed.

Lemma validates fresh : validate_self_key fresh secret (encode (x25519_public secret)) = Ok ().
Proof.
  assert (Hc : Forall is_u8 CHALLENGE) by by apply (bool_decide_unpack _); vm_compute.
  unfold validate_self_key. rewrite public_canonical. cbn [mbind result_bind].
  destruct (sealed_key fresh CHALLENGE (bytes validation_aad)) as (env & He); [done|done|by vm_compute|].
  rewrite He. cbn [mbind result_bind]. destruct (sealed_key_opens _ _ _ _ Hc He) as [_ ->].
  cbn [mbind result_bind]. by rewrite bool_decide_true.
Qed.

Lemma recipient_key_opens fresh master r transfer sealed b :
  Forall is_u8 master → r_public_key r = encode (x25519_public secret) →
  user_id b = r_id r → bundle_id b = account_key_bundle_id r →
  seal_recipient_key fresh master r transfer = Ok sealed →
  open_recipient_key secret {| bundle := b; encrypted_key := sealed |} transfer = Ok master.
Proof.
  intros Hm Hp' Hu Hb. unfold seal_recipient_key. rewrite Hp', public_canonical. cbn [mbind result_bind].
  destruct (seal_key_for_recipient _ _ _ _) as [env|] eqn:He; [cbn [mbind result_bind]|done].
  intros [= <-]. destruct (sealed_key_opens _ _ _ _ Hm He) as [H1 H2].
  unfold open_recipient_key. cbn [encrypted_key bundle]. rewrite Opening.decode_encode by done.
  cbn [mbind result_bind]. by rewrite Hu, Hb.
Qed.
End secret.

Lemma key_envelope_printable salt prefix c : printable (key_envelope_json salt prefix c) = true.
Proof. unfold key_envelope_json. printable_object. Qed.

Lemma key_envelope_reads salt prefix c :
  from_str (to_string (key_envelope_json salt prefix c)) ≫= key_envelope_of
    = Some {| e_v := 1; e_salt := salt; e_prefix := prefix; e_ciphertext := c |}.
Proof. by rewrite from_str_to_string by apply key_envelope_printable. Qed.

Lemma password_key_unwraps fresh_salt fresh_prefix private password user public envelope :
  zlen private = 32 → Forall is_u8 private →
  (∀ l, fresh_salt = Ok l → Forall is_u8 l) → (∀ l, fresh_prefix = Ok l → Forall is_u8 l) →
  wrap_password_key fresh_salt fresh_prefix private password user public = Ok envelope →
  unwrap_password_key envelope password user public = Ok private.
Proof.
  intros Hl Hu Hs Hp'. unfold wrap_password_key.
  destruct fresh_salt as [salt|]; [specialize (Hs _ eq_refl); cbn [mbind result_bind]|done].
  destruct fresh_prefix as [prefix|]; [specialize (Hp' _ eq_refl); cbn [mbind result_bind]|done].
  destruct (wrapping_key _ _ _) as [w|] eqn:Hw; [cbn [mbind result_bind]|done].
  destruct (encrypt_manifest _ _ _ _) as [c|] eqn:Hc; [cbn [mbind result_bind]|done]. intros [= <-].
  pose proof (proj1 (encrypt_decrypt_at_index _ _ _ _ _ _ _) Hc) as Hd.
  apply encrypt_at_index_Ok in Hc as (_ & _ & _ & _ & Ha).
  pose proof (Opening.aead_u8 _ _ _ _ _ Hu Ha) as Huc.
  unfold unwrap_password_key. rewrite key_envelope_reads.
  cbn [ok_or mbind result_bind e_v e_salt e_prefix e_ciphertext Z.eqb Pos.eqb negb].
  rewrite !Opening.decode_encode by (try apply Forall_take; done). cbn [mbind result_bind].
  rewrite Hw. cbn [mbind result_bind]. unfold decrypt_manifest. rewrite Hd. cbn [mbind result_bind].
  by rewrite Hl.
Qed.

Lemma generated_Ok m :
  generate_self_keypair = Ok m →
  zlen (private_key m) = 32 ∧ Forall is_u8 (private_key m) ∧
  m_public_key m = encode (x25519_public (private_key m)) ∧
  m_fingerprint m = sha256_hex (x25519_public (private_key m)).
Proof.
  unfold generate_self_keypair, generate_account_keypair, random_bytes, mbind, result_bind.
  destruct (getrandom KEY_BYTES) as [l|] eqn:El; [cbn [ok_or]|done].
  apply random_u8 in El as [Hl Hu]; [|done]. unfold KEY_BYTES in Hl. intros [= <-].
  cbn [private_key m_public_key m_fingerprint].
  rewrite take_app_length', drop_app_length' by (unfold zlen in Hl; lia). done.
Qed.

(** A generated account key does all that is asked of it. Its private half
    is 32 bytes; its export is read back, and no other text reads as the same
    key, so a key has one written form; it validates against its own public key
    whatever the randomness of the challenge; a transfer key sealed for a
    recipient with that public key opens, for the same transfer, user and key
    bundle, to the same transfer key; and what is wrapped under a password for a
    user is unwrapped by that password. *)
Theorem account_key_works m :
  generate_self_keypair = Ok m →
  zlen (private_key m) = 32 ∧ m_fingerprint m = sha256_hex (x25519_public (private_key m)) ∧
  (∀ text, import_self_key text = Ok (private_key m) ↔ export_self_key (private_key m) = Ok text) ∧
  is_ok (export_self_key (private_key m)) = true ∧
  (∀ fresh, validate_self_key fresh (private_key m) (m_public_key m) = Ok ()) ∧
  (∀ fresh master r transfer sealed b,
     Forall is_u8 master → r_public_key r = m_public_key m →
     user_id b = r_id r → bundle_id b = account_key_bundle_id r →
     seal_recipient_key fresh master r transfer = Ok sealed →
     open_recipient_key (private_key m) {| bundle := b; encrypted_key := sealed |} transfer = Ok master) ∧
  ∀ password user envelope,
    wrap_password_key generate_nonce_prefix generate_nonce_prefix (private_key m) password user (m_public_key m)
      = Ok envelope →
    unwrap_password_key envelope password user (m_public_key m) = Ok (private_key m).
Proof.
  intros (Hl & Hu & Hpk & Hf)%generated_Ok. rewrite Hpk. split_and!; try done.
  - intros text. rewrite import_export, Opening.decode_encode by done. naive_solver.
  - unfold export_self_key. by rewrite Hl.
  - intros fresh. by apply validates.
  - intros fresh master r transfer sealed b. by apply recipient_key_opens.
  - intros password user envelope.
    assert (Hr : ∀ l, generate_nonce_prefix = Ok l → Forall is_u8 l).
    { intros l. unfold generate_nonce_prefix, random_bytes.
      destruct (getrandom _) as [x|] eqn:Ex; [|done]. intros [= <-]. by apply random_u8 in Ex as [_ ?]. }
    by apply password_key_unwraps.
Qed.

(** The same description, as an inbox gives it and as a link's metadata do. *)
Definition delivery_transfer (m : InboxMetadata) : Opening.Transfer :=
  {| Opening.driver := driver m; Opening.t_id := m_id m; Opening.protocol_version := protocol_version m;
     Opening.chunk_bytes := chunk_bytes m; Opening.encrypted_manifest := encrypted_manifest m;
     Opening.encrypted_descriptor := None;
     Opening.t_items := (λ i, {| Opening.m_id := item_id i; Opening.m_position := position i;
                                 Opening.m_chunk_count := chunk_count i |}) <$> items m;
     Opening.download_concurrency := None; Opening.download_ranges := false |}.

Lemma sealed_manifest_reads prefix c salt :
  from_str (to_string (Sealing.envelope_json prefix c salt)) ≫= manifest_envelope_of
    = Some {| nonce_prefix := prefix; ciphertext := c |}.
Proof. rewrite from_str_to_string by apply Opening.envelope_printable. by destruct salt. Qed.

(** What is sent to a username opens in that user's inbox. Take a job whose
    manifest was sealed and whose key was sealed for a recipient whose public key
    belongs to an account key. When the inbox of that account describes the
    transfer the job was reserved as (its items in any order) with this manifest,
    this sealed key and the recipient's bundle, [open_inbox] with the account's
    private key succeeds, whatever its challenge draws, and names exactly the
    job's files, in their order. *)
Theorem inbox_opens `{Sv : Server} (Sender : Sealing.Memory) secret j fresh envelope fresh_key r transfer
    sealed m fresh_challenge c c' :
  zlen secret = 32 → Forall is_u8 secret → r_public_key r = encode (x25519_public secret) →
  (∀ prefix, fresh = Ok prefix → Forall is_u8 prefix) → Forall is_u8 (Upload.master_key j) →
  Opening.sendable j → Upload.transfer_id j = Some transfer →
  Sealing.encrypted_manifest (Me := Sender) fresh j = Ok envelope →
  seal_recipient_key fresh_key (Upload.master_key j) r transfer = Ok sealed →
  driver m = "http" → Opening.describes (delivery_transfer m) j transfer →
  encrypted_manifest m = Some envelope → encrypted_key (recipient_key m) = sealed →
  public_key (bundle (recipient_key m)) = r_public_key r → user_id (bundle (recipient_key m)) = r_id r →
  bundle_id (bundle (recipient_key m)) = account_key_bundle_id r →
  inbox_metadata transfer c = (c', Ok m) →
  open_inbox transfer fresh_challenge secret c
    = (c', Ok {| transfer_id := transfer; key_bundle_id := account_key_bundle_id r;
                 filenames := Upload.item_name <$> Upload.items j |}).
Proof.
  intros Hl Hu Hpk Hfresh Hmk Hj Ht He Hs Hd Hm Henv Hk Hpub Huser Hb Hget.
  unfold open_inbox. rewrite (bind_Ok _ _ _ _ _ Hget). unfold of_result. f_equal.
  pose proof (Opening.t_same_id _ _ _ Hm) as Hid. pose proof (Opening.t_protocol _ _ _ Hm) as Hproto.
  cbn in Hid, Hproto. unfold open_delivery. rewrite Hid, Hproto, Hd, !String.eqb_refl. cbn [Z.eqb Pos.eqb negb orb].
  rewrite Hpub, Hpk, validates by done. cbn [mbind result_bind].
  assert (Hopen : open_recipient_key secret (recipient_key m) transfer = Ok (Upload.master_key j)).
  { destruct (recipient_key m) as [b k]. cbn in *. subst k. by eapply recipient_key_opens. }
  rewrite Hopen, Henv. cbn [ok_or mbind result_bind].
  destruct (Opening.encrypted_manifest_Ok Sender _ _ _ He Hj) as (tr & note & Htr & Hnote & Hsealed).
  rewrite Ht in Htr. injection Htr as <-.
  apply (Opening.seal_Ok Sender) in Hsealed as (prefix & ct & Hf & Hc & -> & _). specialize (Hfresh _ Hf).
  rewrite sealed_manifest_reads. cbn [ok_or mbind result_bind nonce_prefix ciphertext].
  pose proof (proj1 (encrypt_decrypt_at_index _ _ _ _ _ _ _) Hc) as Hdec.
  apply encrypt_at_index_Ok in Hc as (_ & _ & _ & _ & Ha).
  pose proof (Opening.aead_u8 _ _ _ _ _ (to_vec_u8 _) Ha) as Huc.
  rewrite !Opening.decode_encode by done. cbn [mbind result_bind]. unfold decrypt_manifest. rewrite Hdec.
  cbn [mbind result_bind]. pose proof (Opening.sendable_sized _ Hj) as Hz.
  rewrite from_slice_to_vec by by apply Opening.manifest_json_printable. cbn [mbind option_bind].
  rewrite Opening.manifest_json_reads by done. cbn [ok_or mbind result_bind].
  destruct (Opening.sent_manifest_valid _ j transfer note Hj Hm) as (_ & _ & Hv & _).
  { intros n. by apply (Opening.open_attached_note_valid j). }
  unfold Opening.validate_manifest in Hv. cbn [delivery_transfer Opening.driver Opening.chunk_bytes
    Opening.t_items] in Hv. rewrite <- list_fmap_compose, Hd in Hv.
  change (Opening.server_item ∘ _) with server_item in Hv. rewrite Hv. cbn [mbind result_bind].
  rewrite Hb. cbn [Opening.sent_manifest Manifest.items]. by rewrite <- list_fmap_compose.
Qed.
End key_laws.

Module Example_account.
Import Example_crypto Example_json Opening.Example_opening.

#[export] Instance key_laws : KeyLaws.
Proof.
  split.
  - intros n l Hn. cbn. intros [= <-]. unfold zlen. rewrite length_replicate, Z2Nat.id by done.
    split; [done|]. by apply Forall_replicate.
  - intros secret Hl Hu. exists secret. split; [done|]. cbn. by rewrite bool_decide_true.
  - intros secret private fresh info msg aad Hl Hu [= <-] Hm. exists secret, (msg ++ tag).
    split_and!; try done.
    + unfold zlen. rewrite length_app. change (length tag) with 16%nat. lia.
    + apply Forall_app. split; [done|]. by apply Forall_replicate.
Qed.

(** The server of a client: what it holds of the deliveries, and whether the
    session still stands. *)
Definition owner : AccountKeyBundle :=
  {| bundle_id := 5; user_id := 23; version := 1; public_key := encode key32; fingerprint := "f";
     custody_mode := "self"; encrypted_private_key := None; is_active := true |}.
Definition alice : Recipient :=
  {| r_id := 23; r_username := "alice"; r_public_key := encode key32; account_key_bundle_id := 5;
     r_version := 1; r_fingerprint := "f" |}.
Definition sealed_key_text : string :=
  match seal_recipient_key [] (Upload.master_key the_job) alice "t" with Ok s => s | Err _ => "" end.

Definition delivery : InboxMetadata :=
  {| m_id := "t"; encrypted_manifest := Some sealed_text;
     recipient_key := {| bundle := owner; encrypted_key := sealed_key_text |}; driver := "http";
     protocol_version := 1; chunk_bytes := 3;
     items := [{| item_id := "b"; position := 1; chunk_count := 2 |};
               {| item_id := "a"; position := 0; chunk_count := 2 |}] |}.

Definition bundle_json (b : AccountKeyBundle) : json :=
  JObj [("id", JNum (bundle_id b)); ("user_id", JNum (user_id b)); ("version", JNum (version b));
        ("public_key", JStr (public_key b)); ("fingerprint", JStr (fingerprint b));
        ("custody_mode", JStr (custody_mode b)); ("is_active", JBool (is_active b))].
Definition delivery_json : json :=
  JObj [("id", JStr "t"); ("encrypted_manifest", JStr sealed_text);
        ("recipient_key", JObj [("bundle", bundle_json owner); ("encrypted_key", JStr sealed_key_text)]);
        ("driver", JStr "http"); ("protocol_version", JNum 1); ("chunk_bytes", JNum 3);
        ("items", JArr [JObj [("id", JStr "b"); ("position", JNum 1); ("chunk_count", JNum 2)];
                        JObj [("id", JStr "a"); ("position", JNum 0); ("chunk_count", JNum 2)]])].

(** Resolving removes dot segments. *)
Definition segment (l : list string) (s : string) : list string :=
  if (s =? "..")%string then tail l else if (s =? ".")%string then l else s :: l.
Definition resolve (p : string) : string :=
  foldr (λ s l, "/" +:+ s +:+ l) "" (rev (foldl segment [] (split_char "/" p))).

(** A session is gone once it was ended; a stranger is refused from the start. *)
Definition ends (q : Request) : bool :=
  match method q with DELETE => (url q =? "/api/native/v1/session")%string | _ => false end.
Definition session_json : json :=
  JObj [("id", JNum 23); ("name", JStr "Alice"); ("username", JStr "alice"); ("email", JStr "a@x");
        ("inboxEnabled", JBool true); ("usernameRoutingEnabled", JBool true);
        ("notificationChannel", JStr "mail")].
Definition reply (n : Z) (j : json) : result string Response :=
  Ok {| status := n; content := Ok (to_vec (JObj [("data", j)])) |}.

#[export] Instance server : Server :=
  {| join p := Ok (resolve p);
     exchange cookies before q :=
       if bool_decide (cookies = []) || existsb ends before then reply 401 JNull
       else if ends q then reply 204 JNull
       else if (url q =? "/api/native/v1/session")%string then reply 200 session_json
       else if (url q =? "/api/native/v1/inbox/t/metadata")%string then reply 200 delivery_json
       else reply 404 JNull;
     cookie_header cookies _ := Ok (foldr String.append "" cookies);
     status_text := decimal |}.

Definition visitor : Client := {| restored := []; account_intent := false; requested := [] |}.
Definition saved : Client := {| restored := ["s=1; Path=/"]; account_intent := true; requested := [] |}.

Example sharing :
  (upload_authentication visitor).2 = Ok Anonymous ∧
  (upload_authentication saved).2 = Ok (SessionCookie "s=1; Path=/") ∧
  (upload_authentication (run_ops [Logout] saved)).2 = Ok Anonymous ∧
  (upload_authentication {| restored := []; account_intent := true; requested := [] |}).2
    = Err "sign in again before sharing".
Proof. vm_compute. repeat split. Qed.

(** An id from an inbox is put in a path unchecked: one with dot segments sends the
    request elsewhere, here to end the session. *)
Example id_escapes :
  url <$> requested (run_ops [DeleteInboxItem "../session"] saved) = ["/api/native/v1/session"] ∧
  (upload_authentication (run_ops [DeleteInboxItem "../session"] saved)).2 = Err "sign in again before sharing" ∧
  requested (run_ops [HistoryDelete "../session"] saved) = [].
Proof. vm_compute. split_and!; reflexivity. Qed.

Lemma never_anonymous_witness :
  account_intent (run_ops [Logout] saved) = false ∧
  ∃ pre q post, requested (run_ops [Logout] saved) = pre ++ q :: post ∧ signs_out saved pre q.
Proof.
  destruct (never_anonymous [Logout] saved) as ((l & Hl & _ & Hout) & _ & Ha).
  assert (Hi : account_intent (run_ops [Logout] saved) = false).
  { apply (proj1 (Ha _ _ (surjective_pairing (upload_authentication (run_ops [Logout] saved))))).
    by vm_compute. }
  split; [exact Hi|]. destruct (Hout eq_refl Hi) as (pre & q & post & -> & Hq).
  exists pre, q, post. split; [exact Hl|exact Hq].
Defined.

Definition material : AccountKeyMaterial :=
  {| private_key := replicate 32 7; m_public_key := encode (replicate 32 7);
     m_fingerprint := sha256_hex (replicate 32 7) |}.

Lemma account_key_works_witness :
  generate_self_keypair = Ok material ∧
  import_self_key ("fbsk1." +:+ of_bytes (replicate 32 7)) = Ok (private_key material) ∧
  validate_self_key [] (private_key material) (m_public_key material) = Ok ().
Proof.
  assert (Hg : generate_self_keypair = Ok material) by by vm_compute.
  destruct (account_key_works material Hg) as (_ & _ & Hi & _ & Hv & _).
  split_and!; [exact Hg|by apply Hi; vm_compute|apply Hv].
Defined.

Lemma inbox_opens_witness :
  open_inbox "t" [] key32 saved
    = (log (with_url "/api/native/v1/inbox/t/metadata" (read true "api/native/v1/inbox/t/metadata")) saved,
       Ok {| transfer_id := "t"; key_bundle_id := 5; filenames := ["a.txt"; "b.txt"] |}).
Proof.
  apply (inbox_opens memory key32 the_job (Ok prefix16) sealed_text [] alice "t" sealed_key_text delivery);
    try done; try by vm_compute.
  - by apply (bool_decide_unpack _); vm_compute.
  - intros prefix [= <-]. by repeat constructor.
  - by apply (bool_decide_unpack _); vm_compute.
  - apply the_job_sendable.
  - split; try done. apply Permutation_swap.
Defined.
End Example_account.
