(* ===== verification/Local.v ===== *)
(** * The account's local state (crates/client-core/src/services/local_state.rs)

    What a command-line host keeps between two runs for each instance: the
    session, the private key and a receiving key still to be activated, as three
    records of an encrypted store whose name is a digest of the instance.  The
    store itself is Checkpoint's; here it is its named records, and the disk and a
    lock held by another process answer by the clock. *)

From Stdlib Require Import Ascii String.
From S2P Require Import Prelude Str Frame Codec Json Encryption Monad.
From S2P Require Account Config Opening.
Open Scope Z_scope.

Record Session := { session_origin : string; cookies : string; account_id : Z }.

Record PendingReceivingKey := {
  p_id : string; p_private : string; p_public : string; p_fingerprint : string;
  p_exported : bool; p_replace : bool }.

Record PendingKey := {
  id : string; private_key : list Z; public_key : string; fingerprint : string;
  backup_exported : bool; replace : bool }.

(** The named records of one store: ["session"], ["private-key"] (the exported
    key) and ["pending-receiving-key"]. *)
Record Records := {
  session : option Session; private : option string; pending : option PendingReceivingKey }.

Definition no_records : Records := {| session := None; private := None; pending := None |}.

Definition with_session (x : option Session) (r : Records) : Records :=
  {| session := x; private := private r; pending := pending r |}.
Definition with_private (x : option string) (r : Records) : Records :=
  {| session := session r; private := x; pending := pending r |}.
Definition with_pending (x : option PendingReceivingKey) (r : Records) : Records :=
  {| session := session r; private := private r; pending := x |}.

(** The directories below [accounts]. *)
Record Home := { accounts : gmap string Records; clock : nat }.

Definition tick (h : Home) : Home := {| accounts := accounts h; clock := S (clock h) |}.
Definition with_records (name : string) (r : Records) (h : Home) : Home :=
  {| accounts := <[name := r]> (accounts h); clock := clock h |}.

(** Opening or creating a store and reading a record; a durable write. *)
Class Disk := { usable : nat → bool; io : nat → Io }.

Section local.
Context `{Ae : Aead, Kd : Kdf, Hp : Hpke, Xc : X25519, Co : Codec, En : Encode, Js : JsonText, Dk : Disk}.

Notation D := (SE Home string).

(** [new]: the origin a state is bound to. *)
Definition new `{Account.Origins} (origin : string) : result string string :=
  u ← Account.service_origin origin; Ok (Config.url_text u).

Section instance.
Context (origin : string).

(** [id]: the directory of the origin. *)
Definition store_name : string := "account-" +:+ of_bytes (take 24 (bytes (sha256_hex (bytes origin)))).

Definition ask {A} (answer : nat → A) : D A := λ h, (tick h, Ok (answer (clock h))).

(** [open]: an existing store, or a new one. *)
Definition open (create : bool) : D (option Records) :=
  existing ← get (λ h, accounts h !! store_name);
  match existing with
  | None =>
      if create then
        ok ← ask usable;
        if (ok : bool) then _ ← modify (with_records store_name no_records); mret (Some no_records)
        else fail "input/output error"
      else mret None
  | Some r =>
      ok ← ask usable;
      if (ok : bool) then mret (Some r) else fail "input/output error"
  end.

Definition store : D Records :=
  existing ← open false;
  match existing with
  | Some r => mret r
  | None => created ← open true; of_result (ok_or created "create local account state")
  end.

(** [load_named] of an opened store. *)
Definition load {A} (f : Records → option A) (r : Records) : D (option A) :=
  ok ← ask usable;
  if (ok : bool) then mret (f r) else fail "input/output error".

(** [save_named] and [remove_named] *)
Definition write (f : Records → Records) (r : Records) : D () := λ h,
  let '(x, h') := io_write (io (clock h)) (with_records store_name (f r)) (tick h) in (h', x).

(** A record of an existing store. *)
Definition find {A} (f : Records → option A) : D (option A) :=
  existing ← open false;
  match existing with None => mret None | Some r => load f r end.

Definition remove (f : Records → Records) : D () :=
  existing ← open false;
  match existing with None => mret () | Some r => write f r end.

(** The session of this very origin. *)
Definition of_origin (s : Session) : bool := (session_origin s =? origin)%string.

Definition load_client `{Account.Origins} (built : result string ()) : D Account.Client :=
  s ← find session;
  let s := s ≫= λ s, if of_origin s then Some (cookies s) else None in
  of_result (Account.new_client origin s built).

(** [save_session], after the client's session request and its cookies. *)
Definition save_session (account : result string Z) (context : result string string) : D () :=
  account ← of_result account;
  context ← of_result context;
  r ← store;
  write (with_session (Some {| session_origin := origin; cookies := context; account_id := account |})) r.

Definition clear_session : D () := remove (with_session None).

Definition cached_account_id : D (option Z) :=
  s ← find session;
  mret (s ≫= λ s, if of_origin s && negb (account_id s =? 0) then Some (account_id s) else None).

Definition load_private_key : D (list Z) :=
  existing ← open false;
  r ← of_result (ok_or existing "no locally stored receiving key");
  key ← load private r;
  key ← of_result (ok_or key "no locally stored receiving key");
  of_result (Account.import_self_key key).

(** The store is opened before the key is written in its exported form. *)
Definition save_private_key (key : list Z) : D () :=
  r ← store;
  text ← of_result (Account.export_self_key key);
  write (with_private (Some text)) r.

Definition clear_private_key : D () := remove (with_private None).

Definition load_pending_key : D (option PendingKey) :=
  p ← find pending;
  match p with
  | None => mret None
  | Some p =>
      key ← of_result (Account.import_self_key (p_private p));
      mret (Some {| id := p_id p; private_key := key; public_key := p_public p;
                    fingerprint := p_fingerprint p; backup_exported := p_exported p;
                    replace := p_replace p |})
  end.

Definition save_pending_key (k : PendingKey) : D () :=
  r ← store;
  text ← of_result (Account.export_self_key (private_key k));
  write (with_pending (Some {| p_id := id k; p_private := text; p_public := public_key k;
                               p_fingerprint := fingerprint k; p_exported := backup_exported k;
                               p_replace := replace k |})) r.

Definition exported (k : PendingKey) : PendingKey :=
  {| id := id k; private_key := private_key k; public_key := public_key k;
     fingerprint := fingerprint k; backup_exported := true; replace := replace k |}.

Definition mark_pending_key_exported (name : string) : D () :=
  k ← load_pending_key;
  k ← of_result (ok_or k "no pending receiving key");
  if negb (id k =? name)%string then fail "pending receiving key does not match export"
  else save_pending_key (exported k).

Definition clear_pending_key : D () := remove (with_pending None).
End instance.
End local.

(** ** A host's operations *)

Inductive Op :=
| SaveSession (account : result string Z) (context : result string string)
| ClearSession
| CachedAccountId
| LoadPrivateKey
| SavePrivateKey (key : list Z)
| ClearPrivateKey
| LoadPendingKey
| SavePendingKey (key : PendingKey)
| MarkExported (name : string)
| ClearPendingKey.

Section operations.
Context `{Ae : Aead, Kd : Kdf, Hp : Hpke, Xc : X25519, Co : Codec, En : Encode, Js : JsonText, Dk : Disk}.

Definition run_op (origin : string) (op : Op) (h : Home) : Home :=
  match op with
  | SaveSession a c => (save_session origin a c h).1
  | ClearSession => (clear_session origin h).1
  | CachedAccountId => (cached_account_id origin h).1
  | LoadPrivateKey => (load_private_key origin h).1
  | SavePrivateKey k => (save_private_key origin k h).1
  | ClearPrivateKey => (clear_private_key origin h).1
  | LoadPendingKey => (load_pending_key origin h).1
  | SavePendingKey k => (save_pending_key origin k h).1
  | MarkExported n => (mark_pending_key_exported origin n h).1
  | ClearPendingKey => (clear_pending_key origin h).1
  end.

(** The operations of hosts at several instances, in order. *)
Definition run_ops (ops : list (string * Op)) (h : Home) : Home :=
  foldl (λ h '(o, op), run_op o op h) h ops.

Notation D := (SE Home string).

(** ** What an operation changes

    Nothing outside the store of its origin; and the session there only by saving
    or clearing it. *)

Definition may_save (origin : string) (op : Op) (s : option Session) : Prop :=
  s = None ∨ ∃ a c, op = SaveSession (Ok a) (Ok c) ∧
    s = Some {| session_origin := origin; cookies := c; account_id := a |}.

Definition records_at (name : string) (h : Home) : Records := default no_records (accounts h !! name).

Record within (origin : string) (may : option Session → Prop) (h h' : Home) : Prop := {
  w_other name : name ≠ store_name origin → accounts h' !! name = accounts h !! name;
  w_session : session (records_at (store_name origin) h') = session (records_at (store_name origin) h)
              ∨ may (session (records_at (store_name origin) h')) }.

#[export] Instance within_refl o may : Reflexive (within o may).
Proof. intros h. split; [done|by left]. Qed.
#[export] Instance within_trans o may : Transitive (within o may).
Proof.
  intros h1 h2 h3 [O1 S1] [O2 S2]. split.
  - intros n Hn. by rewrite O2, O1.
  - destruct S2 as [S2|]; [|by right]. rewrite S2. done.
Qed.

Section stores.
Context (origin : string) (may : option Session → Prop).
Notation inside m := (preserves (within origin may) m).

Lemma inside_same {A} (m : D A) : (∀ h h' x, m h = (h', x) → accounts h' = accounts h) → inside m.
Proof.
  intros Hm h h' x Hx. apply Hm in Hx. split; [by rewrite Hx|]. left. unfold records_at. by rewrite Hx.
Qed.

Lemma inside_ask {A} (f : nat → A) : inside (ask f : D A).
Proof. apply inside_same. by intros h h' x [= <- _]. Qed.
Lemma inside_ret {A} (a : A) : inside (mret a : D A).
Proof. apply inside_same. by intros h h' x [= <- _]. Qed.
Lemma inside_fail {A} e : inside (fail e : D A).
Proof. apply inside_same. by intros h h' x [= <- _]. Qed.
Lemma inside_result {A} (r : result string A) : inside (of_result r : D A).
Proof. apply inside_same. by intros h h' x [= <- _]. Qed.
Lemma inside_get {A} (f : Home → A) : inside (get f : D A).
Proof. apply inside_same. by intros h h' x [= <- _]. Qed.

Lemma inside_step : ∀ {A B} (m : D A) (f : A → D B), inside m → (∀ a, inside (f a)) → inside (m ≫= f).
Proof. intros. by apply (preserves_bind _). Qed.

(** What [open] returns is what the store holds then. *)
Lemma open_run create h h' x :
  open origin create h = (h', x) →
  within origin may h h' ∧ ∀ r, x = Ok (Some r) → accounts h' !! store_name origin = Some r.
Proof.
  unfold open, mbind, SE_bind, get, ask. destruct (accounts h !! store_name origin) as [r|] eqn:Er.
  - destruct (usable (clock h)); intros [= <- <-].
    + split; [|by intros r' [= <-]]. split; [done|by left].
    + split; [|done]. split; [done|by left].
  - destruct create; [|by intros [= <- <-]]. destruct (usable (clock h)); intros [= <- <-].
    + split; [|intros r' [= <-]; cbn; by rewrite lookup_insert_eq].
      split; [intros n Hn; cbn; by rewrite lookup_insert_ne|]. left. unfold records_at. cbn.
      by rewrite lookup_insert_eq, Er.
    + split; [|done]. split; [done|by left].
Qed.

Lemma store_run h h' x :
  store origin h = (h', x) →
  within origin may h h' ∧ ∀ r, x = Ok r → accounts h' !! store_name origin = Some r.
Proof.
  unfold store. intros Hr. apply bind_run in Hr as [(e & Hr & ->)|(h1 & [r|] & Ho & Hr)].
  - by apply open_run in Hr as [? _].
  - injection Hr as <- <-. apply open_run in Ho as [Hw Hr]. split; [done|]. intros r' [= <-]. by apply Hr.
  - apply open_run in Ho as [Hw _].
    apply bind_run in Hr as [(e & Hr & ->)|(h2 & c & Hc & Hr)].
    + apply open_run in Hr as [Hw' _]. split; [by etransitivity|done].
    + apply open_run in Hc as [Hw' Hr']. injection Hr as <- <-.
      split; [by etransitivity|]. intros r Hr. destruct c as [c|]; [|done]. injection Hr as <-. by apply Hr'.
Qed.

Lemma write_record_run f r h h' x :
  accounts h !! store_name origin = Some r → (session (f r) = session r ∨ may (session (f r))) →
  write origin f r h = (h', x) →
  within origin may h h' ∧ (x = Ok () → accounts h' !! store_name origin = Some (f r)).
Proof.
  intros Hr Hs. unfold write.
  assert (Hin : within origin may h (with_records (store_name origin) (f r) (tick h))).
  { split; [intros n Hn; cbn; by rewrite lookup_insert_ne|]. unfold records_at. cbn.
    rewrite lookup_insert_eq, Hr. cbn. destruct Hs; auto. }
  destruct (io (clock h)); intros [= <- <-]; split; try done.
  - intros _. cbn. by rewrite lookup_insert_eq.
  - split; [done|by left].
Qed.

Lemma inside_open create : inside (open origin create).
Proof. by intros h h' x [? _]%open_run. Qed.

Lemma inside_load {A} (f : Records → option A) r : inside (load f r).
Proof. unfold load. apply inside_step; [apply inside_ask|intros []; [apply inside_ret|apply inside_fail]]. Qed.

Lemma inside_find {A} (f : Records → option A) : inside (find origin f).
Proof.
  unfold find. apply inside_step; [apply inside_open|]. intros [r|]; [apply inside_load|apply inside_ret].
Qed.

Lemma inside_remove f : (∀ r, session (f r) = session r ∨ may (session (f r))) → inside (remove origin f).
Proof.
  intros Hf h h' x Hx. unfold remove in Hx. apply bind_run in Hx as [(e & Hx & ->)|(h1 & [r|] & Ho & Hx)].
  - by apply open_run in Hx as [? _].
  - apply open_run in Ho as [Hw Hr]. eapply write_record_run in Hx as [Hw' _]; [|by apply Hr|apply Hf].
    by etransitivity.
  - injection Hx as <- <-. by apply open_run in Ho as [? _].
Qed.

(** A save: the store, a value that may not exist, and the write. *)
Lemma save_record_run {A} (v : result string A) (f : A → Records → Records) h h' x :
  (∀ a r, v = Ok a → session (f a r) = session r ∨ may (session (f a r))) →
  (r ← store origin; a ← of_result v; write origin (f a) r) h = (h', x) →
  within origin may h h' ∧
  (x = Ok () → ∃ a r, v = Ok a ∧ accounts h' !! store_name origin = Some (f a r)).
Proof.
  intros Hf Hx. apply bind_run in Hx as [(e & Hx & ->)|(h1 & r & Hs & Hx)].
  { by apply store_run in Hx as [? _]. }
  apply store_run in Hs as [Hw Hr]. specialize (Hr r eq_refl).
  apply bind_run in Hx as [(e & Hx & ->)|(h2 & a & Ha & Hx)]; [by injection Hx as <- _|].
  injection Ha as <- Ha. eapply write_record_run in Hx as [Hw' Hx]; [|done|by apply Hf].
  split; [by etransitivity|]. intros ->. exists a, r. split; [done|by apply Hx].
Qed.
End stores.

Ltac inside_calls :=
  repeat first
    [apply inside_ret|apply inside_fail|apply inside_result|apply inside_get|apply inside_ask
    |apply inside_open|apply inside_find|apply inside_load
    |apply inside_remove; intros ?; first [by left|by right; left]
    |apply inside_step; [|intros ?]
    |match goal with
     | |- preserves _ (match ?x with Some _ => _ | None => _ end) => destruct x
     | |- preserves _ (if ?b then _ else _) => destruct b
     end].

Lemma inside_load_pending origin may : preserves (within origin may) (load_pending_key origin).
Proof. unfold load_pending_key. inside_calls. Qed.

(** [save_pending_key] with the record it writes. *)
Definition pending_record (k : PendingKey) (text : string) : PendingReceivingKey :=
  {| p_id := id k; p_private := text; p_public := public_key k; p_fingerprint := fingerprint k;
     p_exported := backup_exported k; p_replace := replace k |}.

Lemma save_pending_run origin may k h h' x :
  save_pending_key origin k h = (h', x) →
  within origin may h h' ∧
  (x = Ok () → ∃ text r, Account.export_self_key (private_key k) = Ok text ∧
     accounts h' !! store_name origin = Some (with_pending (Some (pending_record k text)) r)).
Proof. apply save_record_run. by left. Qed.

Lemma save_private_run origin may k h h' x :
  save_private_key origin k h = (h', x) →
  within origin may h h' ∧
  (x = Ok () → ∃ text r, Account.export_self_key k = Ok text ∧
     accounts h' !! store_name origin = Some (with_private (Some text) r)).
Proof. apply save_record_run. by left. Qed.

Lemma save_session_run origin a c h h' x :
  save_session origin a c h = (h', x) →
  within origin (may_save origin (SaveSession a c)) h h'.
Proof.
  unfold save_session. intros Hx.
  apply bind_run in Hx as [(e & [= <- _] & _)|(h1 & a' & Ha & Hx)]; [done|]. injection Ha as <- ->.
  apply bind_run in Hx as [(e & [= <- _] & _)|(h1 & c' & Hc & Hx)]; [done|]. injection Hc as <- ->.
  apply (save_record_run _ _ (Ok ()) (λ _, with_session (Some {| session_origin := origin; cookies := c'; account_id := a' |}))
           h h' x); [|exact Hx].
  intros _ r _. right. right. by exists a', c'.
Qed.

Lemma op_within origin op h : within origin (may_save origin op) h (run_op origin op h).
Proof.
  assert (Hin : ∀ {A} (m : D A), preserves (within origin (may_save origin op)) m →
                 within origin (may_save origin op) h (m h).1).
  { intros A m Hm. destruct (m h) as [h' x] eqn:Ex. by apply Hm in Ex. }
  destruct op as [a c| | | |k| | |k|n|]; cbn [run_op]; apply Hin.
  - intros h1 h2 x. apply save_session_run.
  - unfold clear_session. inside_calls.
  - unfold cached_account_id. inside_calls.
  - unfold load_private_key. inside_calls.
  - intros h1 h2 x Hx. by apply save_private_run with (may := may_save origin (SavePrivateKey k)) in Hx as [? _].
  - unfold clear_private_key. inside_calls.
  - apply inside_load_pending.
  - intros h1 h2 x Hx. by apply save_pending_run with (may := may_save origin (SavePendingKey k)) in Hx as [? _].
  - unfold mark_pending_key_exported. apply inside_step; [apply inside_load_pending|intros k].
    apply inside_step; [apply inside_result|intros k']. destruct (negb _); [apply inside_fail|].
    intros h1 h2 x Hx. by eapply save_pending_run in Hx as [? _].
  - unfold clear_pending_key. inside_calls.
Qed.

Definition elsewhere (origin : string) (ops : list (string * Op)) : Prop :=
  Forall (λ p, store_name (fst p) ≠ store_name origin) ops.

Lemma ops_elsewhere origin ops h :
  elsewhere origin ops → accounts (run_ops ops h) !! store_name origin = accounts h !! store_name origin.
Proof.
  intros He. revert h. induction He as [|[o op] ops Ho _ IH]; intros h; [done|]. cbn.
  unfold run_ops in IH. rewrite IH. by apply (w_other _ _ _ _ (op_within o op h)).
Qed.

(** Every session on disk was saved for the origin it names. *)
Definition saved_sessions (ops : list (string * Op)) (h : Home) : Prop :=
  ∀ name s, session (records_at name h) = Some s →
    (session_origin s, SaveSession (Ok (account_id s)) (Ok (cookies s))) ∈ ops.

Lemma ops_sessions ops h before :
  saved_sessions before h → saved_sessions (before ++ ops) (run_ops ops h).
Proof.
  revert h before. induction ops as [|[o op] ops IH]; intros h before Hh; [by rewrite app_nil_r|]. cbn.
  replace (before ++ (o, op) :: ops) with ((before ++ [(o, op)]) ++ ops) by by rewrite <- app_assoc.
  apply IH. intros name s Hs. destruct (op_within o op h) as [Hother Hsess].
  destruct (decide (name = store_name o)) as [->|Hn].
  - destruct Hsess as [Hsess|[Hn|(a & c & -> & Hn)]].
    + apply elem_of_app. left. apply (Hh (store_name o)). by rewrite <- Hsess.
    + congruence.
    + rewrite Hn in Hs. injection Hs as <-. set_solver.
  - apply elem_of_app. left. apply (Hh name). unfold records_at in *. by rewrite <- Hother.
Qed.

Lemma find_Ok {A} origin (f : Records → option A) h h' a :
  find origin f h = (h', Ok (Some a)) → f (records_at (store_name origin) h) = Some a.
Proof.
  unfold find, open, load, mbind, SE_bind, get, ask. unfold records_at.
  destruct (accounts h !! store_name origin) as [r|]; [|done].
  destruct (usable (clock h)); [|done]. cbn. destruct (usable (S (clock h))); [|done]. by intros [= _ ->].
Qed.

(** The outcome of reading a record that is there: the record, or an I/O error. *)
Lemma find_present {A} origin (f : Records → option A) r h h' x :
  accounts h !! store_name origin = Some r → find origin f h = (h', x) →
  (x = Ok (f r) ∨ x = Err "input/output error") ∧ accounts h' = accounts h.
Proof.
  intros Hr. unfold find, open, load, mbind, SE_bind, get, ask. rewrite Hr.
  destruct (usable (clock h)); [|intros [= <- <-]; by split; [right|]]. cbn.
  destruct (usable (S (clock h))); intros [= <- <-]; split; auto.
Qed.
End operations.

(** ** What a host can rely on *)

Section promises.
Context `{Ae : Aead, Kd : Kdf, Hp : Hpke, Xc : X25519, Co : Codec, En : Encode, Js : JsonText, Dk : Disk}.
Context (origin : string).

(** A session is used only where it was saved. After any operations of hosts
    at any instances, from an empty home, whatever the disk does: the account that
    is cached for an instance, and the cookies its client starts with, are those
    of a session that was saved for that very instance, even should the digests
    of two instances coincide; and while they do not, what hosts at other
    instances do changes nothing in this one's store. *)
Theorem session_scoped `{Account.Origins} ops h :
  accounts h = ∅ →
  (∀ h' a, cached_account_id origin (run_ops ops h) = (h', Ok (Some a)) →
     a ≠ 0 ∧ ∃ c, (origin, SaveSession (Ok a) (Ok c)) ∈ ops) ∧
  (∀ built h' client, load_client origin built (run_ops ops h) = (h', Ok client) →
     Account.account_intent client = true →
     ∃ a c, (origin, SaveSession (Ok a) (Ok c)) ∈ ops ∧
       Account.cookie_pairs c = Ok (Account.restored client)) ∧
  ∀ others, elsewhere origin others →
    accounts (run_ops (ops ++ others) h) !! store_name origin
      = accounts (run_ops ops h) !! store_name origin.
Proof.
  intros Hh.
  assert (Hs : saved_sessions ops (run_ops ops h)).
  { apply (ops_sessions ops h []). intros name s. unfold records_at. by rewrite Hh, lookup_empty. }
  assert (Hfound : ∀ h' s, find origin session (run_ops ops h) = (h', Ok (Some s)) → of_origin origin s = true →
            (origin, SaveSession (Ok (account_id s)) (Ok (cookies s))) ∈ ops).
  { intros h' s Hf%find_Ok Ho. apply String.eqb_eq in Ho. rewrite <- Ho. by apply (Hs (store_name origin)). }
  split_and!.
  - intros h' a Hr. unfold cached_account_id in Hr. apply bind_run_Ok in Hr as (h1 & [s|] & Hf & Hr); [|done].
    injection Hr as <- Hr. cbn in Hr. destruct (of_origin origin s) eqn:Eo; [|done].
    destruct (Z.eqb_spec (account_id s) 0); [done|]. injection Hr as <-.
    split; [done|]. exists (cookies s). by eapply Hfound.
  - intros built h' client Hr Hi. unfold load_client in Hr. apply bind_run_Ok in Hr as (h1 & s & Hf & Hr).
    injection Hr as <- Hr. unfold Account.new_client in Hr.
    destruct (Account.service_origin origin) as [u|]; [cbn [mbind result_bind] in Hr|done].
    destruct s as [s|]; [cbn [mbind option_bind] in Hr; destruct (of_origin origin s) eqn:Eo|].
    2, 3: cbn in Hr; destruct built; [|done]; injection Hr as <-; discriminate Hi.
    exists (account_id s), (cookies s). split; [by eapply Hfound|].
    destruct (Account.cookie_pairs (cookies s)) as [l|]; [cbn [mbind result_bind] in Hr|done].
    destruct built; [|done]. by injection Hr as <-.
  - intros others He. unfold run_ops. rewrite foldl_app. by apply ops_elsewhere.
Qed.

Section keys.
Context `{WL : !Opening.WireLaws}.

Lemma exported_reads k text :
  Forall is_u8 k → Account.export_self_key k = Ok text → Account.import_self_key text = Ok k.
Proof. intros Hu He. apply Account.import_export. by rewrite Opening.decode_encode. Qed.

Lemma load_private_present k text r h h' x :
  Forall is_u8 k → Account.export_self_key k = Ok text →
  accounts h !! store_name origin = Some (with_private (Some text) r) →
  load_private_key origin h = (h', x) → x = Ok k ∨ x = Err "input/output error".
Proof.
  intros Hu He Hr. unfold load_private_key, open, load, mbind, SE_bind, get, ask, of_result. rewrite Hr.
  destruct (usable (clock h)); [cbn|intros [= _ <-]; by right].
  destruct (usable (S (clock h))); [cbn|intros [= _ <-]; by right].
  rewrite (exported_reads _ _ Hu He). intros [= _ <-]. by left.
Qed.

Lemma load_pending_present k text r h h' x :
  Forall is_u8 (private_key k) → Account.export_self_key (private_key k) = Ok text →
  accounts h !! store_name origin = Some (with_pending (Some (pending_record k text)) r) →
  load_pending_key origin h = (h', x) →
  (x = Ok (Some k) ∨ x = Err "input/output error") ∧ accounts h' = accounts h.
Proof.
  intros Hu He Hr Hx. unfold load_pending_key in Hx.
  apply bind_run in Hx as [(e & Hx & ->)|(h1 & p & Hf & Hx)].
  { destruct (find_present _ _ _ _ _ _ Hr Hx) as [[Hp'|[= ->]] ->]; [done|by split; [right|]]. }
  destruct (find_present _ _ _ _ _ _ Hr Hf) as [[[= ->]|[=]] Ha].
  apply bind_run in Hx as [(e & Hx & ->)|(h2 & key & Hk & Hx)].
  { injection Hx as _ Hx. cbn in Hx. by rewrite (exported_reads _ _ Hu He) in Hx. }
  injection Hk as <- Hk. cbn in Hk. rewrite (exported_reads _ _ Hu He) in Hk. injection Hk as <-.
  injection Hx as <- <-. split; [left|done]. by destruct k.
Qed.
End keys.

(** A key that was saved is the key that is loaded. Once saving a private key
    or a pending receiving key has succeeded, hosts at instances with other stores
    may do anything; loading it then returns the same key, with its public key,
    its fingerprint and its marks, or an input/output error. Marking a pending key
    as exported needs its own id; when it has succeeded, the same key is loaded,
    marked. *)
Theorem keys_survive `{!Opening.WireLaws} ops :
  elsewhere origin ops →
  (∀ k h h1, Forall is_u8 k → save_private_key origin k h = (h1, Ok ()) →
     ∀ h2 r, load_private_key origin (run_ops ops h1) = (h2, r) → r = Ok k ∨ r = Err "input/output error") ∧
  (∀ k h h1, Forall is_u8 (private_key k) → save_pending_key origin k h = (h1, Ok ()) →
     (∀ h2 r, load_pending_key origin (run_ops ops h1) = (h2, r) →
        r = Ok (Some k) ∨ r = Err "input/output error") ∧
     ∀ name h2, mark_pending_key_exported origin name h1 = (h2, Ok ()) →
       name = id k ∧ ∀ h3 r, load_pending_key origin (run_ops ops h2) = (h3, r) →
         r = Ok (Some (exported k)) ∨ r = Err "input/output error").
Proof.
  intros He. split.
  - intros k h h1 Hu Hs h2 r Hr.
    apply (save_private_run _ (λ _, True)) in Hs as [_ Hs].
    destruct (Hs eq_refl) as (text & rec & Ht & Ha).
    eapply load_private_present; [done..| |done]. by rewrite ops_elsewhere.
  - intros k h h1 Hu Hs.
    apply (save_pending_run _ (λ _, True)) in Hs as [_ Hs].
    destruct (Hs eq_refl) as (text & rec & Ht & Ha). split.
    + intros h2 r Hr. eapply load_pending_present; [done..| |done]. by rewrite ops_elsewhere.
    + intros name h2 Hm. unfold mark_pending_key_exported in Hm.
      apply bind_run_Ok in Hm as (h3 & x & Hl & Hm).
      destruct (load_pending_present _ _ _ _ _ _ Hu Ht Ha Hl) as [[[= ->]|[=]] _].
      apply bind_run_Ok in Hm as (h4 & k' & [= <- <-] & Hm).
      destruct (String.eqb_spec (id k) name) as [<-|]; [cbn [negb] in Hm|done].
      apply (save_pending_run _ (λ _, True)) in Hm as [_ Hm].
      destruct (Hm eq_refl) as (text' & rec' & Ht' & Ha').
      split; [done|]. intros h5 r Hr. eapply load_pending_present; [exact Hu|exact Ht'| |done].
      by rewrite ops_elsewhere.
Qed.
End promises.

Module Example_local.
Import Example_crypto Example_json Opening.Example_opening.

#[export] Instance disk : Disk := {| usable := λ _, true; io := λ _, Done |}.

(** A digest that begins with the last digit of the length. *)
#[export] Instance digest : Codec :=
  {| decode := decode (Codec := Opening.Example_opening.codec);
     sha256_hex l := of_bytes ([48 + zlen l mod 10] ++ replicate 63 48) |}.

#[export] Instance digest_wire : Opening.WireLaws (H0 := digest).
Proof. destruct wire_laws. by split. Qed.

(** Every URL is the origin it says. *)
#[export] Instance urls : Account.Origins :=
  {| Account.urls := {| Config.Url := string; Config.url_parse := Some; Config.url_scheme _ := "https";
                        Config.url_host := Some; Config.url_username _ := ""; Config.url_password _ := None;
                        Config.url_query _ := None; Config.url_fragment _ := None; Config.url_text u := u |};
     Account.without_path := λ u, u |}.

Definition empty : Home := {| accounts := ∅; clock := 0 |}.
Definition one : string := "https://one.example".
Definition two : string := "https://two.example".
Definition other : string := "https://another.example".

Definition signed_in : list (string * Op) :=
  [(one, SaveSession (Ok 23) (Ok "s=1")); (other, SaveSession (Ok 24) (Ok "s=2")); (other, ClearSession)].

Example restored_session :
  (cached_account_id one (run_ops signed_in empty)).2 = Ok (Some 23) ∧
  (load_client one (Ok ()) (run_ops signed_in empty)).2
    = Ok {| Account.restored := ["s=1; Path=/"]; Account.account_intent := true; Account.requested := [] |} ∧
  (cached_account_id other (run_ops signed_in empty)).2 = Ok None.
Proof. vm_compute. repeat split. Qed.

Lemma session_scoped_witness :
  ∃ c, (one, SaveSession (Ok 23) (Ok c)) ∈ signed_in.
Proof.
  destruct (session_scoped one signed_in empty eq_refl) as (Hc & _).
  destruct (Hc (cached_account_id one (run_ops signed_in empty)).1 23) as [_ Hs]; [by vm_compute|exact Hs].
Defined.

Lemma keys_survive_witness :
  (load_private_key one (save_private_key one key32 empty).1).2 = Ok key32.
Proof.
  destruct (keys_survive one []) as [Hk _]; [apply Forall_nil_2|].
  destruct (Hk key32 empty (save_private_key one key32 empty).1) with
    (h2 := (load_private_key one (save_private_key one key32 empty).1).1)
    (r := (load_private_key one (save_private_key one key32 empty).1).2) as [H1|H1].
  - by apply (bool_decide_unpack _); vm_compute.
  - by vm_compute.
  - by vm_compute.
  - exact H1.
  - by vm_compute in H1.
Defined.

(** A session names its origin and is checked; the private key does not and is not:
    should two origins share a digest, one is given the other's key. *)
Example key_not_bound_to_origin :
  store_name one = store_name two ∧
  (cached_account_id two (run_ops signed_in empty)).2 = Ok None ∧
  (load_private_key two (save_private_key one key32 empty).1).2 = Ok key32.
Proof. vm_compute. repeat split. Qed.
End Example_local.
