(* ===== verification/Reserve.v ===== *)
(** * Starting an upload (crates/transfer-native/src/protocol/upload.rs)

    [run_new]: from what the user selected to a reserved, durable job.  The
    instance's limits are read and checked, the selection is prepared and
    fingerprinted, the job is saved, the transfer is reserved, and the job is saved
    again with everything the reservation gave before anything is encrypted.
    [Sending] continues from that job; [Selection], [Prepare] and [Sealing] are the
    steps it is made of. *)

From Stdlib Require Import Ascii String.
From S2P Require Import Prelude Str Frame Codec Json Transport Http Encryption Monad Source Upload Prepare.
From S2P Require Link Manifest Selection Sealing Opening Sending Sent Account.
Open Scope Z_scope.

(** ** What an upload is started with *)

Record UploadRecipient := {
  to_username : string; to_user : Z; to_bundle : Z; to_public_key : string }.

Record UploadOptions := {
  attached_note : option Manifest.AttachedNote;
  snapshot_paths : result string (gset string);   (** canonicalized *)
  with_turbo : bool;
  with_password : bool;
  retention : option Z;
  anonymous : bool;
  to : option UploadRecipient }.

Inductive Inputs :=
| Paths (l : list (result string Selection.Root))
| Sources (l : list (string * SourceSpec)).

(** How the upload is executed: in the foreground over a driver, or left to the
    operating system. *)
Inductive UploadExecution := Foreground (driver : string) | BackgroundHttp.

(** What the instance says of itself. *)
Record Info := {
  anonymous_uploads_enabled : bool;
  enabled_drivers : list string;
  info_chunk_bytes : Z;
  file_retention_hours : Z;
  file_retention_options : list Z;
  legacy_transfer_bytes : option Z;
  legacy_file_count : option Z;
  transport_limits : gmap string Link.DriverLimits;
  upload_concurrency : option Z;
  info_upload_status : bool }.

Record CreateItem := { create_ciphertext_bytes : Z; create_chunk_count : Z }.

(** The body of the reservation; its kind is ["files"], its protocol 1. *)
Record Create := {
  create_driver : string;
  create_chunk_bytes : Z;
  create_retention_hours : Z;
  recipient_username : option string;
  recipient_bundle : option Z;
  create_items : list CreateItem }.

Record CreatedItem := { created_id : string; created_position : Z }.

Record Created := {
  created_transfer : string;
  created_share_url : string;
  created_chunk_bytes : Z;
  created_transport : option UploadTransport;
  created_items : list CreatedItem;
  created_upload_token : string;
  created_monitor_token : option string;
  created_delete_token : string;
  created_driver : string;
  created_join_token : option string }.

(** A file of the selection (uploads.rs, [UploadFile]). *)
Record PreparedFile := { p_path : string; p_name : string; p_spec : SourceSpec }.

(** What the outside answers; the nonce prefixes are drawn one by one. *)
Record Env := {
  peer_consent : result string ();              (** or the relay alone is used *)
  ready : result string ();                     (** [control.phase], building the client *)
  info_reply : result string Info;
  directory_answer : result string string;
  archive_length : result string Z;             (** writing the archive, and keeping it *)
  snapshot : nat → result string Z;             (** copying the n-th file, its length *)
  metadata_host : Host;
  reading_host : nat → Host;                    (** while the n-th source is fingerprinted *)
  reads : nat → nat → result string Z;
  cancels : nat → nat → bool;
  folder : string;                              (** the store's directory, and its name *)
  job_name : string;
  new_share_key : result string (list Z);
  new_salt : result string (list Z);
  password_reply : result string string;
  note_prefix : result string (list Z);
  saves : nat → Io;
  created_reply : result string Created;
  encapsulation : list Z;
  item_prefix : nat → result string (list Z);
  manifest_prefix : result string (list Z) }.

(** What is durable, and whether the reservation was asked for. *)
Record State := { saved : option UploadJob; posted : option Create }.

Section reserve.
Context `{Ae : Aead, Kd : Kdf, Hp : Hpke, Co : Codec, En : Encode, Js : JsonText, Me : Sealing.Memory}.
Context `{Ca : Selection.Cancellation}.

Notation R := (SE State string).

(** Over a list, with the index. *)
Fixpoint traverse {A B} (f : nat → A → result string B) (k : nat) (l : list A) : result string (list B) :=
  match l with
  | [] => Ok []
  | a :: l => b ← f k a; rest ← traverse f (S k) l; Ok (b :: rest)
  end.

(** ** The selection *)

Definition file_of (f : Selection.UploadFile) : PreparedFile :=
  {| p_path := Selection.file_path f; p_name := Selection.file_name f;
     p_spec := Path (Selection.file_path f) 0 (Selection.file_bytes f) |}.

Definition source_of (f : Selection.UploadFile) (s : string * SourceSpec) : PreparedFile :=
  {| p_path := ""; p_name := Selection.file_name f; p_spec := snd s |}.

(** [uploads::prepare] or [from_sources], and [retain_archive]. *)
Definition select (e : Env) (inputs : Inputs) (mode : Selection.DirectoryMode) (maximum : option Z)
    : result string (list PreparedFile) :=
  prepared ←
    match inputs with
    | Paths l => (Selection.prepare l mode maximum (directory_answer e) 0%nat).2
    | Sources l =>
        (Selection.from_sources ((λ s, (fst s, snd (bounds (snd s)))) <$> l) mode maximum 0%nat).2
    end;
  match prepared, inputs with
  | Selection.Archive name _, _ =>
      n ← archive_length e;
      let path := folder e +:+ "/source.zip" in
      Ok [{| p_path := path; p_name := name; p_spec := Path path 0 n |}]
  | Selection.Files l, Paths _ => Ok (file_of <$> l)
  | Selection.Files l, Sources s => Ok (zip_with source_of l s)
  end.

(** [retain_sources] *)
Definition retain (e : Env) (paths : gset string) (index : nat) (f : PreparedFile)
    : result string PreparedFile :=
  if bool_decide (p_path f ∈ paths) then
    n ← snapshot e index;
    let path := folder e +:+ "/source-" +:+ decimal (Z.of_nat index) in
    Ok {| p_path := path; p_name := p_name f; p_spec := Path path 0 n |}
  else Ok f.

(** ** The job *)

Definition zeros (n : nat) : string := of_bytes (replicate n 48).

(** What a note's envelope is estimated from: the manifest with blank ids. *)
Definition blank_item (chunk : Z) (s : string * Src) : Item :=
  {| item_id := zeros 26; item_position := 0; item_name := fst s; source := snd s;
     nonce_prefix := zeros 22; item_digest := zeros 64; item_bytes := source_bytes (snd s);
     item_chunk_count := Z.max (div_ceil (source_bytes (snd s)) chunk) 1 |}.
Definition check_note (note : Manifest.AttachedNote) (chunk : Z) (sources : list (string * Src))
    : result string () :=
  _ ← Manifest.note_validate note;
  let plain := zlen (to_vec (Sealing.manifest_json (Some note) None (blank_item chunk <$> sources))) in
  reject 524288 <? div_ceil ((plain + 16) * 4) 3 + 512
    with "encrypted transfer metadata exceeds 512 KiB; shorten the note or filenames";
  Ok ().

Definition saved_recipient (r : UploadRecipient) : Recipient :=
  {| username := to_username r; user_id := to_user r; account_key_bundle_id := to_bundle r;
     public_key := to_public_key r; encrypted_key := None |}.

Definition fresh_job (e : Env) (instance : string) (o : UploadOptions) (driver : string) (info : Info)
    (total : Z) (share_key : list Z) (salt : option string) : UploadJob :=
  {| sealed_attached_note := None; version := 1; id := job_name e; direction := "upload";
     state := "reserving"; instance := trim_end_matches (Z.eqb (ch "/")) instance; done_bytes := 0;
     total := total; transfer_id := None; upload_token := None; monitor_token := None;
     share_url := None; delete_token := None; share_key := share_key; password_salt := salt;
     master_key := []; chunk_bytes := info_chunk_bytes info;
     server_concurrency := clamp (default 8 (upload_concurrency info)) 1 8;
     upload_status := info_upload_status info; turbo := with_turbo o; descriptor_published := false;
     encrypted_descriptor := None; transport := None; driver := driver; join_token := None;
     exact_manifest := None; receipt_url := None; recipient := saved_recipient <$> to o;
     items := []; chunks := [] |}.

(** The checkpoint of a job: its master key is never written. *)
Definition durable (j : UploadJob) : UploadJob := Sealing.set_keys [] (sealed_attached_note j) j.

Definition save (io : Io) (j : UploadJob) : R () := λ s,
  let '(r, s') := io_write io (λ s, {| saved := Some (durable j); posted := posted s |}) s in (s', r).

Definition post (create : Create) (reply : result string Created) : R Created := λ s,
  ({| saved := saved s; posted := Some create |}, reply).

(** [estimate_ciphertext_bytes] of one of several sources. *)
Definition add_declared (chunk n bytes : Z) : result string Z :=
  c ← estimate_ciphertext_bytes bytes chunk;
  ok_or (checked_add n c) "selected files are too large".

Definition create_item (chunk : Z) (bytes : Z) : result string CreateItem :=
  c ← estimate_ciphertext_bytes bytes chunk;
  n ← chunk_count bytes chunk;
  Ok {| create_ciphertext_bytes := c; create_chunk_count := n |}.

Definition invalid_reservation (driver : string) (j : UploadJob) (sources : nat) (c : Created) : bool :=
  negb (created_driver c =? driver)%string || negb (created_chunk_bytes c =? chunk_bytes j)
  || negb (Nat.eqb (length (created_items c)) sources)
  || negb (bool_decide (created_position <$> created_items c = seqZ 0 (zlen (created_items c)))).

(** The key of the transfer, sealed for the recipient. *)
Definition seal_for (e : Env) (transfer : string) (share_key : list Z) (r : Recipient)
    : result string Recipient :=
  public ← context (decode (public_key r)) "recipient public key is invalid";
  envelope ← seal_key_for_recipient (encapsulation e) public share_key
               (bytes (Account.recipient_aad transfer (user_id r) (account_key_bundle_id r)));
  Ok {| username := username r; user_id := user_id r; account_key_bundle_id := account_key_bundle_id r;
        public_key := public_key r; encrypted_key := Some (encode envelope) |}.

Definition with_reservation (c : Created) (r : option Recipient) (its : list Item) (j : UploadJob)
    : UploadJob :=
  {| sealed_attached_note := sealed_attached_note j; version := version j; id := id j;
     direction := direction j; state := state j; instance := instance j; done_bytes := done_bytes j;
     total := total j; transfer_id := Some (created_transfer c);
     upload_token := Some (created_upload_token c); monitor_token := created_monitor_token c;
     share_url := Some (created_share_url c); delete_token := Some (created_delete_token c);
     share_key := share_key j; password_salt := password_salt j; master_key := master_key j;
     chunk_bytes := chunk_bytes j; server_concurrency := server_concurrency j;
     upload_status := upload_status j; turbo := turbo j;
     descriptor_published := descriptor_published j; encrypted_descriptor := encrypted_descriptor j;
     transport := created_transport c; driver := driver j; join_token := created_join_token c;
     exact_manifest := exact_manifest j; receipt_url := receipt_url j; recipient := r;
     items := its; chunks := chunks j |}.

Definition reserved_item (e : Env) (chunk : Z) (index : nat) (p : (string * Src) * CreatedItem)
    : result string Item :=
  let '((name, s), server) := p in
  prefix ← item_prefix e index;
  n ← chunk_count (source_bytes s) chunk;
  Ok {| item_id := created_id server; item_position := created_position server; item_name := name;
        source := s; nonce_prefix := encode prefix; item_digest := source_digest s;
        item_bytes := source_bytes s; item_chunk_count := n |}.

(** ** [run_new] *)

Definition driver_of (x : UploadExecution) : string :=
  match x with Foreground driver => driver | BackgroundHttp => "http" end.

(** The instance's limits, and the retention chosen. *)
Definition limits (driver : string) (o : UploadOptions) (info : Info)
    : result string (Z * Link.DriverLimits) :=
  reject (negb (anonymous_uploads_enabled info) && anonymous o)
         || negb (bool_decide (driver ∈ enabled_drivers info))
    with "this instance does not allow uploads with this authentication";
  reject (info_chunk_bytes info =? 0) || (24999984 <? info_chunk_bytes info)
    with "server supplied an invalid chunk size";
  hours ← select_retention (file_retention_hours info) (file_retention_options info) (retention o);
  Ok (hours, Link.select_driver_limits driver (transport_limits info) (legacy_transfer_bytes info)
               (legacy_file_count info)).

(** The sources that are sent, with their names: sized, limited and fingerprinted. *)
Definition sources_of (e : Env) (inputs : Inputs) (mode : Selection.DirectoryMode) (o : UploadOptions)
    (chunk : Z) (l : Link.DriverLimits) : result string (Z * list (string * Src)) :=
  files ← select e inputs mode (Link.maximum_file_count l);
  snapshots ← snapshot_paths o;
  files ← traverse (retain e snapshots) 0 files;
  metadata ← traverse (λ _ f, s ← source_metadata (metadata_host e) (p_spec f); Ok (p_name f, s)) 0 files;
  total ← try_fold (λ n f, ok_or (checked_add n (source_bytes (snd f))) "selected files are too large")
            0 metadata;
  declared ← try_fold (λ n f, add_declared chunk n (source_bytes (snd f))) 0 metadata;
  reject match Link.maximum_transfer_bytes l with Some limit => limit <? declared | None => false end
    with "the encrypted transfer exceeds this instance's size limit";
  sources ← traverse (λ k f, s ← fingerprint (reading_host e k) (p_spec f) chunk (cancels e k) (reads e k);
                             Ok (p_name f, s)) 0 files;
  Ok (total, sources).

Definition salt_of (e : Env) (o : UploadOptions) : result string (option string) :=
  if with_password o then salt ← new_salt e; Ok (Some (encode salt)) else Ok None.

(** The job before its reservation, with the note sealed under its key. *)
Definition initial_job (e : Env) (instance : string) (o : UploadOptions) (driver : string) (info : Info)
    (total : Z) (sources : list (string * Src)) : result string UploadJob :=
  _ ← match attached_note o with Some note => check_note note (info_chunk_bytes info) sources | None => Ok () end;
  key ← new_share_key e;
  salt ← salt_of e o;
  let job := fresh_job e instance o driver info total key salt in
  match attached_note o with
  | Some note =>
      job ← Sealing.unlock_job (password_reply e) job;
      Sealing.seal_attached_note note (note_prefix e) job
  | None => Ok job
  end.

(** What the reservation makes of the job. *)
Definition reserved_job (e : Env) (driver : string) (sources : list (string * Src)) (c : Created)
    (j : UploadJob) : result string UploadJob :=
  reject invalid_reservation driver j (length sources) c with "server transfer reservation is invalid";
  _ ← match created_transport c with Some t => Transport.validate t | None => Ok () end;
  r ← match recipient j with
      | Some r => r ← seal_for e (created_transfer c) (share_key j) r; Ok (Some r)
      | None => Ok None
      end;
  reject (Upload.driver j =? "webrtc")%string && missing (created_join_token c)
    with "server did not provide a live transfer join token";
  its ← traverse (reserved_item e (chunk_bytes j)) 0 (zip sources (created_items c));
  Ok (with_reservation c r its j).

Definition run_new (e : Env) (instance : string) (inputs : Inputs) (mode : Selection.DirectoryMode)
    (o : UploadOptions) (x : UploadExecution) : R UploadJob :=
  let driver := driver_of x in
  _ ← of_result (ready e);
  if bool_decide (is_Some (to o)) && (negb (driver =? "http")%string || with_password o)
  then fail "inbox delivery requires HTTP without password protection" else
  info ← of_result (info_reply e);
  '(hours, l) ← of_result (limits driver o info);
  '(total, sources) ← of_result (sources_of e inputs mode o (info_chunk_bytes info) l);
  job ← of_result (initial_job e instance o driver info total sources);
  _ ← save (saves e 0) job;
  created_list ← of_result (traverse (λ _ s, create_item (info_chunk_bytes info) (source_bytes (snd s))) 0 sources);
  c ← post {| create_driver := driver; create_chunk_bytes := info_chunk_bytes info;
              create_retention_hours := hours; recipient_username := username <$> recipient job;
              recipient_bundle := account_key_bundle_id <$> recipient job; create_items := created_list |}
        (created_reply e);
  job ← of_result (reserved_job e driver sources c job);
  _ ← save (saves e 1) job;
  _ ← (if bool_decide (is_Some (sealed_attached_note job))
       then _ ← of_result (Sealing.encrypted_manifest (manifest_prefix e) job); mret ()
       else mret ());
  let job := set_state "preparing" job in
  _ ← save (saves e 2) job;
  mret job.

(** [upload] and [upload_sources] (protocol/mod.rs), with [run_sources] *)
Definition upload (e : Env) (instance : string) (inputs : Inputs) (mode : Selection.DirectoryMode)
    (o : UploadOptions) (driver : string) : R UploadJob :=
  _ ← of_result (match attached_note o with Some note => Manifest.note_validate note | None => Ok () end);
  if with_turbo o && (negb (driver =? "http")%string || bool_decide (is_Some (to o)))
  then fail "Turbo requires HTTP file uploads without an inbox recipient" else
  _ ← of_result (if (driver =? "webrtc")%string then peer_consent e else Ok ());
  _ ← of_result
        (match inputs with
         | Sources l =>
             reject bool_decide (l = []) with "Select at least one source";
             ensure_unique_source_names (fst <$> l)
         | Paths _ => Ok ()
         end);
  run_new e instance inputs mode o (Foreground driver).
End reserve.

(** ** Traversals *)

Lemma traverse_Ok {A B} (f : nat → A → result string B) k l l' :
  traverse f k l = Ok l' →
  length l' = length l ∧
  ∀ i b, l' !! i = Some b → ∃ a, l !! i = Some a ∧ f (k + i)%nat a = Ok b.
Proof.
  revert k l'. induction l as [|a l IH]; intros k l'; cbn [traverse].
  { intros [= <-]. done. }
  unfold mbind, result_bind. destruct (f k a) as [b|] eqn:Eb; [|done].
  destruct (traverse f (S k) l) as [rest|] eqn:Er; [|done]. intros [= <-].
  destruct (IH _ _ Er) as [Hl Hi]. split; [cbn; by rewrite Hl|]. intros [|i] x; cbn.
  - intros [= <-]. exists a. by rewrite Nat.add_0_r.
  - intros Hx. destruct (Hi i x Hx) as (y & Hy & Hf). exists y. split; [done|].
    by replace (k + S i)%nat with (S k + i)%nat by lia.
Qed.

(** What a traversal keeps of every element. *)
Lemma traverse_fmap {A B C} (f : nat → A → result string B) (g : A → C) (h : B → C) k l l' :
  (∀ i a b, f i a = Ok b → h b = g a) → traverse f k l = Ok l' → h <$> l' = g <$> l.
Proof.
  intros Hf Ht. apply traverse_Ok in Ht as [Hl Hi]. apply list_eq. intros i. rewrite !list_lookup_fmap.
  destruct (l' !! i) as [b|] eqn:Eb.
  - destruct (Hi i b Eb) as (a & -> & Ha). cbn. by rewrite (Hf _ _ _ Ha).
  - apply lookup_ge_None in Eb. rewrite Hl in Eb. by rewrite (lookup_ge_None_2 l) by done.
Qed.

Lemma traverse_Forall {A B} (f : nat → A → result string B) (P : B → Prop) k l l' :
  (∀ i a b, f i a = Ok b → P b) → traverse f k l = Ok l' → Forall P l'.
Proof.
  intros Hf Ht. apply traverse_Ok in Ht as [_ Hi]. apply Forall_lookup. intros i b Hb.
  destruct (Hi i b Hb) as (a & _ & Ha). by eapply Hf.
Qed.

(** ** What is fingerprinted *)

Section sources.
Context `{Ae : Aead, Kd : Kdf, Hp : Hpke, Co : Codec, En : Encode, Js : JsonText, Me : Sealing.Memory}.
Context `{Ca : Selection.Cancellation, !CodecLaws}.

Definition digested (h : Hashing) : Prop := Forall (λ d, is_digest d = true) (digests h).

Lemma absorb_step_digested cb piece h : digested h → digested (absorb_step cb piece h).1.
Proof.
  intros Hh. unfold absorb_step. case_match; cbn; [|done]. unfold digested. cbn.
  apply Forall_app. split; [done|]. apply Forall_singleton, sha256_digest.
Qed.

Lemma absorb_digested fuel cb piece h : digested h → digested (absorb fuel cb piece h).
Proof.
  revert piece h. induction fuel as [|fuel IH]; intros piece h Hh; [done|]. cbn [absorb].
  destruct piece as [|b piece]; [done|].
  pose proof (absorb_step_digested cb (b :: piece) h Hh) as Hs.
  destruct (absorb_step cb (b :: piece) h) as [h' rest]. by apply IH.
Qed.

Lemma read_source_digested fuel cancelled sizes k cb rest n h h' :
  digested h → read_source fuel cancelled sizes k cb rest n h = Ok h' → digested h'.
Proof.
  revert k rest n h. induction fuel as [|fuel IH]; intros k rest n h Hh; cbn [read_source].
  { case_match; [by intros [= <-]|done]. }
  case_match; [by intros [= <-]|]. case_match; [done|].
  destruct (sizes k) as [size|]; [cbn [mbind result_bind]|done]. case_match; [done|].
  apply IH. unfold feed. by apply absorb_digested.
Qed.

(** A source as the job keeps it. *)
Record fingerprinted (cb : Z) (spec : SourceSpec) (s : Src) : Prop := {
  f_spec : Upload.spec s = spec;
  f_bytes : source_bytes s = snd (bounds spec);
  f_digest : is_digest (source_digest s) = true;
  f_chunks : Forall (λ d, is_digest d = true) (chunk_digests s);
  f_count : chunk_count (source_bytes s) cb = Ok (zlen (chunk_digests s)) }.

Lemma source_metadata_Ok host spec s :
  source_metadata host spec = Ok s → source_bytes s = snd (bounds spec).
Proof.
  unfold source_metadata, mbind, result_bind. destruct (checked_end spec) as [n|]; [|done].
  destruct (match spec with Path _ _ _ => _ | Provider _ _ _ _ => _ end); [|done]. by intros [= <-].
Qed.

Lemma fingerprint_Ok host spec cb cancelled sizes s :
  fingerprint host spec cb cancelled sizes = Ok s → fingerprinted cb spec s.
Proof.
  unfold fingerprint, mbind, result_bind.
  destruct (source_metadata host spec) as [m|] eqn:Em; [|done].
  destruct (open_source host spec) as [file|]; [|done].
  destruct (chunk_count (source_bytes m) cb) as [n|] eqn:Hcount; [|done].
  destruct (read_source _ _ _ _ _ _ _ _) as [h|] eqn:Er; [|done].
  apply source_metadata_Ok in Em. apply read_source_digested in Er; [|apply Forall_nil_2].
  intros Hs. case_match eqn:Hc; [done|]. injection Hs as <-. bool_prop.
  split; cbn; try done.
  - case_match; [|done]. apply Forall_app. split; [done|]. apply Forall_singleton, sha256_digest.
  - by rewrite Hcount, Hc.
Qed.
End sources.

(** ** The selection's files, with their names *)

Section starting.
Context `{Ae : Aead, Kd : Kdf, Hp : Hpke, Co : Codec, En : Encode, Js : JsonText, Me : Sealing.Memory}.
Context `{Ca : Selection.Cancellation, CL : !CodecLaws}.

Definition source_len (p : string * Src) : Z := source_bytes (snd p).

Lemma total_Ok (l : list (string * Src)) n :
  try_fold (λ n f, ok_or (checked_add n (source_bytes (snd f))) "selected files are too large") 0 l = Ok n →
  n = sum_Z (source_len <$> l) ∧ (n ≤ u64_max ∨ l = []).
Proof.
  intros Hn. apply (try_fold_ind (λ l n, n = sum_Z (source_len <$> l) ∧ (n ≤ u64_max ∨ l = []))) in Hn; [done|..].
  - split; [done|by right].
  - intros l' i n1 n2 _ [-> _] Ha. unfold ok_or in Ha.
    destruct (checked_add _ _) as [x|] eqn:Ex; [|done]. simplify_eq.
    apply checked_add_Some in Ex as [-> Hx]. rewrite fmap_app, sum_Z_app. cbn.
    change (source_bytes (snd i)) with (source_len i) in *. split; [lia|left; lia].
Qed.

Lemma declared_ext chunk n (l l' : list (string * Src)) :
  source_len <$> l = source_len <$> l' →
  try_fold (λ n p, add_declared chunk n (source_len p)) n l
    = try_fold (λ n p, add_declared chunk n (source_len p)) n l'.
Proof.
  revert l' n. induction l as [|p l IH]; intros [|p' l'] n; [done..|]. cbn. intros [= Hp' Hl].
  rewrite Hp'. destruct (add_declared _ _ _) as [x|]; [|done]. by apply IH.
Qed.

Lemma retain_Ok e paths k f f' : retain e paths k f = Ok f' → p_name f' = p_name f.
Proof.
  unfold retain, mbind, result_bind. case_match; [|by intros [= <-]].
  destruct (snapshot e k); [|done]. by intros [= <-].
Qed.

(** The names of a selection are those its files are sent under. *)
Lemma sources_of_Ok e inputs mode o chunk l total sources :
  sources_of e inputs mode o chunk l = Ok (total, sources) →
  ∃ files, select e inputs mode (Link.maximum_file_count l) = Ok files ∧
    fst <$> sources = p_name <$> files ∧
    Forall (λ p, fingerprinted chunk (Upload.spec (snd p)) (snd p)) sources ∧
    total = sum_Z (source_len <$> sources) ∧ (total ≤ u64_max ∨ sources = []) ∧
    ∀ limit, Link.maximum_transfer_bytes l = Some limit →
      ∃ declared, try_fold (λ n p, add_declared chunk n (source_len p)) 0 sources = Ok declared ∧
        declared ≤ limit.
Proof.
  unfold sources_of, mbind, result_bind.
  destruct (select _ _ _ _) as [files|] eqn:Es; [|done]. destruct (snapshot_paths o) as [paths|]; [|done].
  destruct (traverse (retain e paths) 0 files) as [kept|] eqn:Er; [|done].
  destruct (traverse _ 0 kept) as [metadata|] eqn:Em; [|done].
  destruct (try_fold _ 0 metadata) as [n|] eqn:Et; [|done].
  destruct (try_fold (λ n f, add_declared _ _ _) 0 metadata) as [d|] eqn:Ed; [|done].
  case_match eqn:Hlim; [done|].
  destruct (traverse _ 0 kept) as [out|] eqn:Ef in |- *; [|done]. intros [= <- <-].
  exists files. split; [done|].
  assert (Hn1 : p_name <$> kept = p_name <$> files).
  { eapply traverse_fmap; [|exact Er]. intros i a b. apply retain_Ok. }
  assert (Hn2 : (λ p : string * Src, (fst p, source_len p)) <$> out = (λ f, (p_name f, snd (bounds (p_spec f)))) <$> kept).
  { eapply traverse_fmap; [|exact Ef]. intros i a b. cbn.
    destruct (fingerprint _ _ _ _ _) as [s|] eqn:Hs; [|done]. intros [= <-].
    unfold source_len. cbn. by rewrite (f_bytes _ _ _ (fingerprint_Ok _ _ _ _ _ _ Hs)). }
  assert (Hn3 : source_len <$> metadata = (λ f, snd (bounds (p_spec f))) <$> kept).
  { eapply traverse_fmap; [|exact Em]. intros i a b. cbn.
    destruct (source_metadata _ _) as [s|] eqn:Hs; [|done]. intros [= <-].
    unfold source_len. cbn. by apply source_metadata_Ok in Hs. }
  assert (Hlen : source_len <$> out = source_len <$> metadata).
  { rewrite Hn3. apply (f_equal (fmap snd)) in Hn2. by rewrite <- !list_fmap_compose in Hn2. }
  split_and!.
  - rewrite <- Hn1. apply (f_equal (fmap fst)) in Hn2. by rewrite <- !list_fmap_compose in Hn2.
  - eapply traverse_Forall; [|exact Ef]. intros i a b. cbn.
    destruct (fingerprint _ _ _ _ _) as [s|] eqn:Hs; [|done]. intros [= <-].
    pose proof (fingerprint_Ok _ _ _ _ _ _ Hs) as Hf. cbn. by rewrite (f_spec _ _ _ Hf).
  - apply total_Ok in Et as [-> _]. by rewrite Hlen.
  - apply total_Ok in Et as [_ [|Hm]]; [by left|right]. subst metadata. by apply fmap_nil_inv in Hlen.
  - intros limit Hl. rewrite Hl in Hlim. apply Z.ltb_ge in Hlim. exists d. split; [|done].
    by rewrite (declared_ext _ _ out metadata).
Qed.

(** *** Names

    Whatever is selected, no two files have names that the receiver would store
    under one. *)

Definition good_names (names : list string) : Prop :=
  NoDup (Manifest.portable_filename <$> names) ∧ Forall (λ n, n ≠ "") names.

Definition inputs_utf8 (inputs : Inputs) : Prop :=
  match inputs with
  | Paths l => Forall Selection.root_utf8 l ∧ Selection.consistent l
  | Sources l => Forall (λ s, utf8 (fst s)) l
  end.

Lemma portable_names names :
  NoDup names → Forall (λ n, utf8 n ∧ Manifest.portable n) names → good_names names.
Proof.
  intros Hn Hp'. split.
  - replace (Manifest.portable_filename <$> names) with names; [done|].
    induction Hp' as [|n l [Hu Hq] _ IH]; [done|]. cbn. rewrite Manifest.portable_id by done. f_equal.
    apply IH. by apply NoDup_cons in Hn as [_ ?].
  - eapply Forall_impl; [exact Hp'|]. intros n [_ Hq]. apply Hq.
Qed.

Lemma one_name n : n ≠ "" → good_names [n].
Proof. intros Hn. split; [apply NoDup_singleton|by apply Forall_singleton]. Qed.

Lemma archive_name_ne paths name : Selection.archive_name paths = Ok name → name ≠ "".
Proof.
  unfold Selection.archive_name. destruct paths as [|[r|] []]; try done; [by intros [= <-]|..|by intros [= <-]].
  - intros [= <-] He. by destruct (Selection.safe_filename (Selection.root_name r)).
  - by intros [= <-].
Qed.

Lemma utf8_concat sep ps : utf8 sep → Forall utf8 ps → utf8 (String.concat sep ps).
Proof.
  intros Hs. induction 1 as [|p ps Hp' Hps IH]; [by exists []|]. cbn.
  destruct ps as [|q ps]; [done|]. by apply Selection.utf8_app, Selection.utf8_app.
Qed.

Lemma replace_slashes_utf8 s : utf8 s → utf8 (Selection.replace_slashes s).
Proof.
  intros Hs. apply utf8_concat; [|by apply Selection.utf8_split_char].
  exists [95; 95]. split; [|done]. repeat constructor; unfold is_scalar; lia.
Qed.

Lemma name_sources_Some used l files :
  Forall (λ s, utf8 (fst s)) l → Selection.name_sources used l = Some files →
  length files = length l ∧ NoDup (Selection.file_name <$> files) ∧
  Forall (λ f, Selection.file_name f ∉ used ∧ utf8 (Selection.file_name f) ∧
               Manifest.portable (Selection.file_name f)) files.
Proof.
  revert used files. induction l as [|[s n] l IH]; intros used files Hu Hf; cbn [Selection.name_sources] in Hf.
  { injection Hf as <-. split_and!; [done|constructor..]. }
  apply Forall_cons in Hu as [Hs Hu].
  destruct (Selection.unique_name _ used) as [[name used1]|] eqn:Hun; [|done]. cbn in Hf.
  destruct (Selection.name_sources used1 l) as [fs|] eqn:Hfs; [|done]. cbn in Hf. injection Hf as <-.
  assert (Hsafe : utf8 (Selection.safe_filename (Selection.replace_slashes s)) ∧
                  Manifest.portable (Selection.safe_filename (Selection.replace_slashes s))).
  { by apply Selection.safe_filename_safe, replace_slashes_utf8. }
  destruct Hsafe as [Hsu Hsp].
  destruct (Selection.unique_name_Some _ _ _ _ Hsu Hsp Hun) as (Hnew & -> & Hnu & Hnp).
  destruct (IH _ _ Hu Hfs) as (H1 & H2 & H3). rewrite Forall_forall in H3. split_and!.
  - cbn. by rewrite H1.
  - cbn. constructor; [|done]. intros (f & He & Hf)%list_elem_of_fmap.
    destruct (H3 f Hf) as [Hx _]. set_solver.
  - constructor; [done|]. apply Forall_forall. intros f Hf. destruct (H3 f Hf) as (Hx & ? & ?). split; [set_solver|done].
Qed.

Lemma select_names e inputs mode maximum files :
  inputs_utf8 inputs → select e inputs mode maximum = Ok files → good_names (p_name <$> files).
Proof.
  intros Hu Hs. unfold select in Hs. destruct inputs as [l|l].
  - destruct (Selection.prepare l mode maximum (directory_answer e) 0%nat) as [n [out|]] eqn:Ep; [|done].
    destruct Hu as [Hu Hc]. destruct (Selection.prepare_Ok _ _ _ _ _ _ _ Hu Hc Ep) as (names & sources & Hg & _ & Ho).
    cbn in Hs. destruct out as [fs|name entries].
    + injection Hs as <-. destruct Ho as [Hn _]. rewrite <- list_fmap_compose.
      destruct (Selection.name_files_Some ∅ (Selection.regular ∅ sources) fs) as (_ & Hd & Hf); [|done|].
      { destruct Hg as (_ & Hall & _). rewrite Forall_forall in Hall. apply Forall_forall. intros s Hin.
        destruct (Selection.regular_spec ∅ sources) as (_ & Hr & _).
        destruct (Hr s Hin) as (Hs & _). by destruct (Hall s Hs) as (_ & ? & _). }
      apply portable_names; [done|]. apply Forall_fmap. eapply Forall_impl; [exact Hf|].
      intros f (_ & ? & ?). done.
    + destruct (archive_length e); [|done]. injection Hs as <-. destruct Ho as [_ Hn].
      by eapply one_name, archive_name_ne.
  - destruct (Selection.from_sources _ mode maximum 0%nat) as [n [out|]] eqn:Ep; [|done]. cbn in Hs.
    unfold Selection.from_sources in Ep.
    destruct (match maximum with Some _ => _ | None => _ end); [discriminate Ep|].
    destruct (bool_decide (mode = Selection.Zip)).
    + destruct out as [fs|name entries].
      * do 3 apply bind_run_Ok in Ep as (? & ? & _ & Ep). discriminate Ep.
      * destruct (archive_length e); [|done]. injection Hs as <-.
        do 3 apply bind_run_Ok in Ep as (? & ? & _ & Ep). injection Ep as _ <- _. by apply one_name.
    + apply bind_run_Ok in Ep as (? & fs & Hn & Ep). injection Ep as _ <-. injection Hs as <-.
      injection Hn as _ Hn. destruct (Selection.name_sources ∅ _) as [fs'|] eqn:Hns; [|done].
      injection Hn as ->. apply name_sources_Some in Hns as (Hl & Hd & Hf); [|by apply Forall_fmap].
      rewrite length_fmap in Hl.
      replace (p_name <$> zip_with source_of fs l) with (Selection.file_name <$> fs).
      * apply portable_names; [done|]. apply Forall_fmap. eapply Forall_impl; [exact Hf|]. by intros f (_ & ? & ?).
      * clear -Hl. revert l Hl. induction fs as [|f fs IH]; intros [|x l] Hl; cbn in *; [done..|].
        f_equal. apply IH. lia.
Qed.
End starting.

(** ** The reserved job *)

Section reserved.
Context `{Ae : Aead, Kd : Kdf, Hp : Hpke, Co : Codec, En : Encode, Js : JsonText, Me : Sealing.Memory}.
Context `{Ca : Selection.Cancellation, CL : !CodecLaws, WL : !Opening.WireLaws}.

(** What the random source and the server's reservation are relied on for: keys,
    salts and nonce prefixes are bytes of the length asked for, a prefix is written
    with the characters of base64url, and the server's ids and tokens are not
    empty, its item ids distinct, its live token a capability. *)
Record dependable (e : Env) (driver : string) : Prop := {
  d_key k : new_share_key e = Ok k → zlen k = 32;
  d_salt l : new_salt e = Ok l → zlen l = 16 ∧ Forall is_u8 l;
  d_prefix k l : item_prefix e k = Ok l →
    zlen l = 16 ∧ Forall is_u8 l ∧ Manifest.valid_nonce_prefix (encode l) = true;
  d_created c : created_reply e = Ok c →
    created_transfer c ≠ "" ∧ created_upload_token c ≠ "" ∧
    NoDup (created_id <$> created_items c) ∧ Forall (λ i, created_id i ≠ "") (created_items c) ∧
    (driver = "webrtc" → ∃ token, created_join_token c = Some token ∧ Manifest.valid_capability token = true) }.

Lemma digest_good d : is_digest d = true → bad_digest d = false ∧ Manifest.valid_digest d = true.
Proof.
  unfold is_digest, bad_digest, Manifest.valid_digest, is_hex. intros Hd. apply andb_true_iff in Hd as [-> ->].
  done.
Qed.

Lemma no_bad_digests l : Forall (λ d, is_digest d = true) l → existsb bad_digest l = false.
Proof. induction 1 as [|d l Hd _ IH]; [done|]. cbn. by rewrite (proj1 (digest_good _ Hd)). Qed.

Lemma good_prefix l : zlen l = 16 → Forall is_u8 l → bad_prefix (encode l) = false.
Proof. intros Hl Hu. unfold bad_prefix. by rewrite Opening.decode_encode, Hl. Qed.

(** An item of the reservation. *)
Record good_item (cb : Z) (i : Item) : Prop := {
  g_id : item_id i ≠ "";
  g_ok : item_ok cb i;
  g_digest : is_digest (item_digest i) = true;
  g_digests : Forall (λ d, is_digest d = true) (chunk_digests (source i));
  g_bytes : item_bytes i = source_bytes (source i);
  g_count : chunk_count (item_bytes i) cb = Ok (item_chunk_count i);
  g_prefix : Manifest.valid_nonce_prefix (nonce_prefix i) = true }.

Lemma saved_items_complete cb index seen l :
  item_position <$> l = seqZ index (zlen l) → NoDup (item_id <$> l) →
  Forall (λ i, item_id i ∉ seen) l → Forall (good_item cb) l → check_items cb index seen l = Ok ().
Proof.
  revert index seen. induction l as [|i l IH]; intros index seen Hpos Hn Hs Hg; [done|].
  unfold zlen in Hpos. cbn [length] in Hpos. rewrite Nat2Z.inj_succ, seqZ_cons in Hpos by lia.
  rewrite !fmap_cons in *. injection Hpos as Hi Hpos.
  apply NoDup_cons in Hn as [Hi' Hn]. apply Forall_cons in Hs as [Hs1 Hs]. apply Forall_cons in Hg as [Hg1 Hg].
  destruct (g_ok _ _ Hg1) as (Hp1 & Hd1 & n & Hc & Hl). cbn [check_items].
  unfold is_empty. rewrite !bool_decide_false by (done || apply Hg1).
  rewrite Hi, Z.eqb_refl, Hp1, Hd1, (proj1 (digest_good _ (g_digest _ _ Hg1))), Hc. cbn [negb orb mbind result_bind].
  rewrite Hl, Z.eqb_refl, no_bad_digests by apply Hg1. cbn [negb orb]. apply IH; [|done| |done].
  - rewrite Hpos. f_equal. unfold zlen. lia.
  - rewrite Forall_forall in Hs |- *. intros x Hx. apply not_elem_of_cons. split; [|by apply Hs].
    intros He. apply Hi'. rewrite <- He. by apply list_elem_of_fmap_2.
Qed.

(** What the note's sealing leaves of the job. *)
Lemma initial_job_Ok e instance o driver info total sources j :
  initial_job e instance o driver info total sources = Ok j →
  ∃ key salt mk note, new_share_key e = Ok key ∧ salt_of e o = Ok salt ∧
    j = Sealing.set_keys mk note (fresh_job e instance o driver info total key salt).
Proof.
  unfold initial_job, mbind, result_bind.
  destruct (match attached_note o with Some _ => _ | None => Ok () end); [|done].
  destruct (new_share_key e) as [key|]; [|done]. destruct (salt_of e o) as [salt|]; [|done].
  set (j0 := fresh_job _ _ _ _ _ _ _ _). intros Hj. exists key, salt.
  destruct (attached_note o) as [note|].
  - destruct (Sealing.unlock_job _ j0) as [j1|] eqn:Eu; [|done].
    assert (Hu : ∃ mk, j1 = Sealing.set_keys mk None j0).
    { revert Eu. unfold Sealing.unlock_job, mbind, result_bind. cbn [j0 fresh_job master_key].
      cbn. change (zlen [] =? 32) with false. cbn. case_match; [done|].
      destruct salt as [salt|]; [|intros [= <-]; by eexists].
      destruct (password_reply e); [|done]. case_match; [done|].
      destruct (Sealing.password_master _ _ _); [|done]. intros [= <-]. by eexists. }
    destruct Hu as [mk ->]. revert Hj. unfold Sealing.seal_attached_note, mbind, result_bind.
    destruct (Manifest.note_validate note); [|done]. destruct (note_prefix e); [|done].
    destruct (encrypt_manifest _ _ _ _); [|done]. intros [= <-]. by do 2 eexists.
  - injection Hj as <-. by exists [], None.
Qed.

Lemma salt_good e o driver salt : dependable e driver → salt_of e o = Ok salt → bad_salt salt = false.
Proof.
  intros He. unfold salt_of. destruct (with_password o); [|by intros [= <-]].
  destruct (new_salt e) as [l|] eqn:El; [|done]. intros [= <-]. cbn.
  destruct (d_salt _ _ He _ El) as [Hl Hu]. by rewrite Opening.decode_encode, Hl.
Qed.

(** The parts of a job's reservation. *)
Lemma reserved_job_shape e driver sources c j j' :
  reserved_job e driver sources c j = Ok j' →
  ∃ r its, j' = with_reservation c r its j ∧ invalid_reservation driver j (length sources) c = false ∧
    traverse (reserved_item e (chunk_bytes j)) 0 (zip sources (created_items c)) = Ok its ∧
    (Upload.driver j = "webrtc" → missing (created_join_token c) = false) ∧
    (∀ rec, recipient j = Some rec → ∃ rec', seal_for e (created_transfer c) (share_key j) rec = Ok rec' ∧ r = Some rec') ∧
    (recipient j = None → r = None).
Proof.
  unfold reserved_job. intros Hr.
  destruct (invalid_reservation driver j (length sources) c) eqn:Hi; [done|].
  destruct (match created_transport c with Some _ => _ | None => Ok () end); [cbn [mbind result_bind] in Hr|done].
  destruct (match recipient j with Some _ => _ | None => Ok None end) as [r|] eqn:Erec; [cbn [mbind result_bind] in Hr|done].
  case_match eqn:Hw; [done|]. destruct (traverse _ 0 _) as [its|] eqn:Et; [cbn [mbind result_bind] in Hr|done].
  injection Hr as <-. exists r, its. split_and!; try done.
  - intros Hd'. rewrite Hd' in Hw. by cbn in Hw.
  - intros rec Hrec. rewrite Hrec in Erec. destruct (seal_for _ _ _ _) as [rec'|]; [|done].
    injection Erec as <-. by exists rec'.
  - intros Hn. rewrite Hn in Erec. by injection Erec as <-.
Qed.

Lemma reserved_job_Ok e driver sources c j j' cb :
  dependable e driver → created_reply e = Ok c → chunk_bytes j = cb →
  Forall (λ p, fingerprinted cb (Upload.spec (snd p)) (snd p)) sources →
  reserved_job e driver sources c j = Ok j' →
  ∃ r its, j' = with_reservation c r its j ∧ created_driver c = driver ∧
    (Upload.driver j = "webrtc" → missing (created_join_token c) = false) ∧
    item_name <$> its = fst <$> sources ∧ Upload.source <$> its = snd <$> sources ∧
    item_id <$> its = created_id <$> created_items c ∧
    item_position <$> its = seqZ 0 (zlen its) ∧ Forall (good_item cb) its ∧
    (∀ rec, recipient j = Some rec → ∃ rec', seal_for e (created_transfer c) (share_key j) rec = Ok rec' ∧ r = Some rec') ∧
    (recipient j = None → r = None).
Proof.
  intros He Hc <- Hf Hr. apply reserved_job_shape in Hr as (r & its & -> & Hi & Et & Htok & Hrec & Hnone).
  exists r, its. unfold invalid_reservation in Hi. rewrite !orb_false_iff in Hi.
  destruct Hi as [[[Hd _] Hlen] Hpos]. bool_prop.
  destruct (d_created _ _ He _ Hc) as (_ & _ & Hids & Hne & _).
  apply Nat.eqb_eq in Hlen.
  pose proof (traverse_Ok _ _ _ _ Et) as [Hl _]. rewrite length_zip_with, Hlen, Nat.min_id in Hl.
  assert (Hparts : ∀ A (h : Item → A) (g : (string * Src) * CreatedItem → A),
    (∀ i p it, reserved_item e (chunk_bytes j) i p = Ok it → h it = g p) →
    h <$> its = g <$> zip sources (created_items c)).
  { intros A h g Hg. eapply traverse_fmap; [exact Hg|exact Et]. }
  assert (Hfields : ∀ i p it, reserved_item e (chunk_bytes j) i p = Ok it →
    item_name it = fst (fst p) ∧ Upload.source it = snd (fst p) ∧ item_id it = created_id (snd p) ∧
    item_position it = created_position (snd p) ∧ item_digest it = source_digest (snd (fst p)) ∧
    item_bytes it = source_bytes (snd (fst p)) ∧
    chunk_count (item_bytes it) (chunk_bytes j) = Ok (item_chunk_count it) ∧
    bad_prefix (nonce_prefix it) = false ∧ Manifest.valid_nonce_prefix (nonce_prefix it) = true).
  { intros i [[name s] server] it. unfold reserved_item, mbind, result_bind.
    destruct (item_prefix e i) as [prefix|] eqn:Ep; [|done]. destruct (chunk_count _ _) as [n|] eqn:Ec; [|done].
    intros [= <-]. destruct (d_prefix _ _ He _ _ Ep) as (H16 & Hu & Hv). cbn. split_and!; try done.
    by apply good_prefix. }
  split_and!; try done.
  - rewrite (Hparts _ _ (fst ∘ fst)) by (intros i p it Hit; apply Hfields in Hit; by destruct_and!).
    rewrite list_fmap_compose. by rewrite fst_zip by lia.
  - rewrite (Hparts _ _ (snd ∘ fst)) by (intros i p it Hit; apply Hfields in Hit; by destruct_and!).
    rewrite list_fmap_compose. by rewrite fst_zip by lia.
  - rewrite (Hparts _ _ (created_id ∘ snd)) by (intros i p it Hit; apply Hfields in Hit; by destruct_and!).
    rewrite list_fmap_compose. by rewrite snd_zip by lia.
  - rewrite (Hparts _ _ (created_position ∘ snd)) by (intros i p it Hit; apply Hfields in Hit; by destruct_and!).
    rewrite list_fmap_compose, snd_zip, Hpos by lia. unfold zlen. f_equal. lia.
  - apply Forall_lookup. intros i it Hit. apply traverse_Ok in Et as [_ Hi'].
    destruct (Hi' i it Hit) as ([[name s] server] & Hz & Hr).
    apply lookup_zip_with_Some in Hz as (x & y & [= <- <-] & Hx & Hy).
    destruct (Hfields _ _ _ Hr) as (_ & Hs & Hid & _ & Hdig & Hb & Hn & Hp1 & Hp2). cbn in *.
    pose proof (Forall_lookup_1 _ _ _ _ Hf Hx) as Hf1. pose proof (Forall_lookup_1 _ _ _ _ Hne Hy) as Hne1.
    cbn in Hf1, Hne1.
    split; rewrite ?Hid, ?Hs, ?Hdig, ?Hb; try done; try apply Hf1.
    + split_and!; [done|rewrite Hs; by apply digest_good, Hf1|]. eexists. rewrite Hs. split; [apply Hf1|done].
    + by rewrite <- Hb.
Qed.

(** A reserved job is one that a resume accepts, and one that can be sent. *)
Section accepted.
Context (e : Env) (instance : string) (o : UploadOptions) (driver : string) (info : Info).
Context (sources : list (string * Src)) (key : list Z) (salt : option string) (mk : list Z) (note : option string).
Context (c : Created) (r : option Recipient) (its : list Item).
Context (Hdep : dependable e driver) (Hdriver : driver ∈ ["http"; "webrtc"]).
Context (Hturbo : with_turbo o = true → driver = "http" ∧ to o = None) (Hr : to o = None → r = None).
Context (Hchunk : info_chunk_bytes info ≠ 0 ∧ info_chunk_bytes info ≤ MAX_CHUNK_BYTES).
Context (Hkey : new_share_key e = Ok key) (Hsalt : salt_of e o = Ok salt) (Hcreated : created_reply e = Ok c).
Context (Hsources : Upload.source <$> its = snd <$> sources) (Hids : item_id <$> its = created_id <$> created_items c).
Context (Hpos : item_position <$> its = seqZ 0 (zlen its)).
Context (Hgood : Forall (good_item (info_chunk_bytes info)) its).
Context (Htoken : driver = "webrtc" → missing (created_join_token c) = false).

Let total := sum_Z (source_len <$> sources).
Let job := set_state "preparing" (with_reservation c r its
             (Sealing.set_keys mk note (fresh_job e instance o driver info total key salt))).

Lemma accepted_valid :
  Sent.sized job → (total ≤ u64_max ∨ sources = []) → validate_job job = Ok ().
Proof.
  intros (Hlen & Hu & Hc0) Hmax. destruct Hchunk as [Hc1 Hc2].
  destruct (d_created _ _ Hdep _ Hcreated) as (Hne1 & Hne2 & Hnd & Hne & _).
  assert (Htotal : wrapping_sum ((λ i, source_bytes (Upload.source i)) <$> its) = total).
  { assert (Heq : (λ i, source_bytes (Upload.source i)) <$> its = source_len <$> sources).
    { apply (f_equal (fmap source_bytes)) in Hsources. by rewrite <- !list_fmap_compose in Hsources. }
    unfold wrapping_sum. rewrite Heq. apply Z.mod_small. fold total. split.
    - unfold total. rewrite <- Heq. apply sum_Z_nonneg, Forall_fmap. eapply Forall_impl; [exact Hu|].
      intros i Hi. apply Hi.
    - destruct Hmax as [|Hs]; [lia|]. unfold total. by rewrite Hs. }
  unfold validate_job.
  assert (Hturbo' : with_turbo o = true → driver = "http" ∧ r = None).
  { intros Ht. destruct (Hturbo Ht). auto. }
  assert (Hh : bad_header job = false).
  { unfold bad_header, job. cbn -[wrapping_sum missing total]. rewrite Htotal, Z.eqb_refl.
    rewrite (proj2 (Z.eqb_neq _ 0)), (proj2 (Z.ltb_ge _ _)) by done. rewrite !(bool_decide_true (driver ∈ _)) by done.
    rewrite !orb_false_iff. split_and!; try done.
    - destruct (String.eqb_spec driver "webrtc"); [|done]. cbn -[missing]. by rewrite Htoken.
    - destruct (with_turbo o); [|done]. by destruct Hturbo' as [-> ->]. }
  assert (Hs : bad_secrets job = false).
  { unfold bad_secrets, job. cbn -[bad_salt]. rewrite (d_key _ _ Hdep _ Hkey), (salt_good _ _ _ _ Hdep Hsalt).
    unfold missing, is_empty. cbn. by rewrite !bool_decide_false. }
  rewrite Hh, Hs. change (items job) with its. change (chunks job) with (@nil Chunk).
  change (chunk_bytes job) with (info_chunk_bytes info). rewrite saved_items_complete; [done|done|..|done].
  - by rewrite Hids.
  - apply Forall_forall. intros i _. apply not_elem_of_nil.
Qed.
End accepted.
End reserved.

(** ** The runs of [run_new] *)

Section runs.
Context `{Ae : Aead, Kd : Kdf, Hp : Hpke, Co : Codec, En : Encode, Js : JsonText, Me : Sealing.Memory}.
Context `{Ca : Selection.Cancellation}.
Context (e : Env) (instance : string) (inputs : Inputs) (mode : Selection.DirectoryMode).
Context (o : UploadOptions) (driver : string).

(** What was settled before anything was saved. *)
Record Plan := {
  plan_info : Info; plan_hours : Z; plan_limits : Link.DriverLimits;
  plan_total : Z; plan_sources : list (string * Src); plan_job : UploadJob }.

Record planned (p : Plan) : Prop := {
  pl_recipient : is_Some (to o) → driver = "http" ∧ with_password o = false;
  pl_info : info_reply e = Ok (plan_info p);
  pl_limits : limits driver o (plan_info p) = Ok (plan_hours p, plan_limits p);
  pl_sources : sources_of e inputs mode o (info_chunk_bytes (plan_info p)) (plan_limits p)
                 = Ok (plan_total p, plan_sources p);
  pl_job : initial_job e instance o driver (plan_info p) (plan_total p) (plan_sources p)
             = Ok (plan_job p) }.

(** The reservation that is asked for. *)
Definition asked (p : Plan) (create : Create) : Prop :=
  create_driver create = driver ∧ create_chunk_bytes create = info_chunk_bytes (plan_info p) ∧
  create_retention_hours create = plan_hours p ∧
  recipient_username create = username <$> recipient (plan_job p) ∧
  recipient_bundle create = account_key_bundle_id <$> recipient (plan_job p) ∧
  traverse (λ _ s, create_item (info_chunk_bytes (plan_info p)) (source_bytes (snd s))) 0 (plan_sources p)
    = Ok (create_items create).

(** The client does not take the reservation [c]. *)
Definition turned_down (p : Plan) (c : Created) : Prop :=
  ∃ err, reserved_job e driver (plan_sources p) c (plan_job p) = Err err.

(** Why a reservation that was asked for is not in the saved job: there was no
    reply that could be read, it was turned down, or the save that follows it
    failed and left the earlier job. *)
Definition unrecorded (p : Plan) : Prop :=
  (∃ err, created_reply e = Err err) ∨ (∃ c, created_reply e = Ok c ∧ turned_down p c) ∨
  saves e 1 = FailedBefore.

(** Where a run ends. *)
Inductive outcome (s : State) : State → result string UploadJob → Prop :=
| refused err : outcome s s (Err err)
| stopped_saved p err : planned p →
    outcome s {| saved := Some (durable (plan_job p)); posted := posted s |} (Err err)
| stopped_asked p create err : planned p → asked p create → unrecorded p →
    outcome s {| saved := Some (durable (plan_job p)); posted := Some create |} (Err err)
| stopped_reserved p create c j err : planned p → asked p create → created_reply e = Ok c →
    reserved_job e driver (plan_sources p) c (plan_job p) = Ok j →
    outcome s {| saved := Some (durable j); posted := Some create |} (Err err)
| stopped_preparing p create c j err : planned p → asked p create → created_reply e = Ok c →
    reserved_job e driver (plan_sources p) c (plan_job p) = Ok j →
    outcome s {| saved := Some (durable (set_state "preparing" j)); posted := Some create |} (Err err)
| prepared p create c j : planned p → asked p create → created_reply e = Ok c →
    reserved_job e driver (plan_sources p) c (plan_job p) = Ok j →
    outcome s {| saved := Some (durable (set_state "preparing" j)); posted := Some create |}
      (Ok (set_state "preparing" j)).

Lemma save_cases io j s s' r :
  save io j s = (s', r) →
  (s' = s ∧ (∃ err, r = Err err) ∧ io = FailedBefore) ∨
  s' = {| saved := Some (durable j); posted := posted s |} ∧ (r = Ok () ∨ ∃ err, r = Err err).
Proof. unfold save. destruct io; cbn; intros [= <- <-]; eauto. Qed.

Lemma run_new_run x s s' r :
  driver_of x = driver → run_new e instance inputs mode o x s = (s', r) → outcome s s' r.
Proof.
  intros Hx. unfold run_new. rewrite Hx. intros Hr.
  apply bind_run in Hr as [(? & [-> _]%of_result_run & ->)|(? & ? & [-> _]%of_result_run & Hr)]; [constructor|].
  case_match eqn:Hrec; [injection Hr as <- <-; constructor|].
  assert (Hto : is_Some (to o) → driver = "http" ∧ with_password o = false).
  { intros Ht. rewrite bool_decide_true in Hrec by done. cbn in Hrec. apply orb_false_iff in Hrec as [Hd ?].
    apply negb_false_iff, String.eqb_eq in Hd. done. }
  apply bind_run in Hr as [(? & [-> _]%of_result_run & ->)|(? & info & [-> Hinfo]%of_result_run & Hr)]; [constructor|].
  apply bind_run in Hr as [(? & [-> _]%of_result_run & ->)|(? & [hours l] & [-> Hl]%of_result_run & Hr)]; [constructor|].
  apply bind_run in Hr as [(? & [-> _]%of_result_run & ->)|(? & [total sources] & [-> Hso]%of_result_run & Hr)]; [constructor|].
  apply bind_run in Hr as [(? & [-> _]%of_result_run & ->)|(? & job & [-> Hj]%of_result_run & Hr)]; [constructor|].
  set (p := {| plan_info := info; plan_hours := hours; plan_limits := l; plan_total := total;
               plan_sources := sources; plan_job := job |}).
  assert (Hp1 : planned p) by done.
  apply bind_run in Hr as [(err & Hs & ->)|(s1 & [] & Hs & Hr)].
  { apply save_cases in Hs as [[-> _]|[-> _]]; [constructor|by apply (stopped_saved _ p)]. }
  apply save_cases in Hs as [[-> ((? & ?) & _)]|[-> _]]; [done|].
  apply bind_run in Hr as [(? & [-> _]%of_result_run & ->)|(? & its & [-> Hits]%of_result_run & Hr)];
    [by apply (stopped_saved _ p)|].
  match type of Hr with context [post ?create _] => set (cr := create) in Hr end.
  assert (Hcr : asked p cr) by done.
  apply bind_run in Hr as [(err & Hs & ->)|(s1 & c & Hs & Hr)].
  { injection Hs as <- He. apply (stopped_asked _ p); [done|done|]. left. by exists err. }
  injection Hs as <- Hc. cbn [saved posted] in Hr.
  apply bind_run in Hr as [(err & [-> He]%of_result_run & ->)|(? & j & [-> Hres]%of_result_run & Hr)].
  { apply (stopped_asked _ p); [done|done|]. right; left. exists c. split; [done|by exists err]. }
  apply bind_run in Hr as [(err & Hs & ->)|(s1 & [] & Hs & Hr)].
  { apply save_cases in Hs as [[-> [_ Hio]]|[-> _]]; [|by apply (stopped_reserved _ p _ c)].
    apply (stopped_asked _ p); [done|done|]. by right; right. }
  apply save_cases in Hs as [[-> ((? & ?) & _)]|[-> _]]; [done|]. cbn [saved posted] in Hr.
  apply bind_run in Hr as [(err & Hs & ->)|(s1 & [] & Hs & Hr)].
  { destruct (bool_decide (is_Some (sealed_attached_note j))); [|discriminate Hs].
    apply bind_run in Hs as [(? & [-> _]%of_result_run & _)|(? & ? & [-> _]%of_result_run & Hs)]; [|discriminate Hs].
    by apply (stopped_reserved _ p _ c). }
  assert (s1 = {| saved := Some (durable j); posted := Some cr |}) as ->.
  { destruct (bool_decide (is_Some (sealed_attached_note j))); [|by injection Hs as <-].
    apply bind_run in Hs as [(? & [-> _]%of_result_run & [=])|(? & ? & [-> _]%of_result_run & Hs)]. by injection Hs as <-. }
  apply bind_run in Hr as [(err & Hs' & ->)|(s2 & [] & Hs' & Hr)].
  { apply save_cases in Hs' as [[-> _]|[-> _]]; [by apply (stopped_reserved _ p _ c)|by apply (stopped_preparing _ p _ c)]. }
  apply save_cases in Hs' as [[-> ((? & ?) & _)]|[-> _]]; [done|]. injection Hr as <- <-. by apply (prepared _ p _ c).
Qed.

(** [upload] is [run_new] after its guards. *)
Lemma upload_run s s' r :
  upload e instance inputs mode o driver s = (s', r) →
  outcome s s' r ∧
  ∀ j, r = Ok j → (with_turbo o = true → driver = "http" ∧ to o = None) ∧
    match inputs with Sources l => l ≠ [] | Paths _ => True end.
Proof.
  unfold upload. intros Hr.
  apply bind_run in Hr as [(? & [-> _]%of_result_run & ->)|(? & ? & [-> _]%of_result_run & Hr)]; [by split; [constructor|]|].
  case_match eqn:Ht; [injection Hr as <- <-; by split; [constructor|]|].
  apply bind_run in Hr as [(? & [-> _]%of_result_run & ->)|(? & ? & [-> _]%of_result_run & Hr)]; [by split; [constructor|]|].
  apply bind_run in Hr as [(? & [-> _]%of_result_run & ->)|(? & ? & [-> Hi]%of_result_run & Hr)]; [by split; [constructor|]|].
  split; [by apply (run_new_run (Foreground driver))|]. intros j _. split.
  - intros Hw. rewrite Hw in Ht. cbn in Ht. apply orb_false_iff in Ht as [Hd Hto].
    apply negb_false_iff, String.eqb_eq in Hd. apply bool_decide_eq_false in Hto. split; [done|]. by apply eq_None_not_Some.
  - destruct inputs as [|l]; [done|]. intros ->. by rewrite bool_decide_true in Hi.
Qed.
End runs.

(** ** What starting an upload promises *)

Section promises.
Context `{Ae : Aead, Kd : Kdf, Hp : Hpke, Co : Codec, En : Encode, Js : JsonText, Me : Sealing.Memory}.
Context `{Ca : Selection.Cancellation}.

Definition fresh_state : State := {| saved := None; posted := None |}.

(** What a later start needs of a reservation to go on with it, or to revoke it. *)
Definition credentials (c : Created) (j : UploadJob) : Prop :=
  transfer_id j = Some (created_transfer c) ∧ upload_token j = Some (created_upload_token c) ∧
  delete_token j = Some (created_delete_token c) ∧ join_token j = created_join_token c ∧
  item_id <$> items j = created_id <$> created_items c ∧
  (∀ r, recipient j = Some r → is_Some (encrypted_key r)).

Lemma reserved_credentials e driver sources c j j' :
  reserved_job e driver sources c j = Ok j' → credentials c j'.
Proof.
  intros (r & its & -> & Hi & Et & _ & Hrec & Hnone)%reserved_job_shape.
  unfold invalid_reservation in Hi. rewrite !orb_false_iff in Hi. destruct Hi as [[_ Hlen] _].
  apply negb_false_iff, Nat.eqb_eq in Hlen. split_and!; try done.
  - cbn [items with_reservation]. transitivity (created_id ∘ snd <$> zip sources (created_items c)).
    + eapply traverse_fmap; [|exact Et]. intros i [[name s] server] it. unfold reserved_item, mbind, result_bind.
      destruct (item_prefix e i); [|done]. destruct (chunk_count _ _); [|done]. by intros [= <-].
    + rewrite list_fmap_compose. by rewrite snd_zip by lia.
  - cbn [recipient with_reservation]. intros x ->. destruct (recipient j) as [rec|]; [|by specialize (Hnone eq_refl)].
    destruct (Hrec rec eq_refl) as (rec' & Hs & [= ->]). revert Hs. unfold seal_for, mbind, result_bind, context, map_err.
    destruct (decode _); [|done]. destruct (seal_key_for_recipient _ _ _ _); [|done]. by intros [= <-].
Qed.

(** C19: an accepted reservation is on the disk before anything is made of it.
    However starting an upload ends, once the transfer was asked for there is a
    saved job, and it holds the transfer's key, no master key and no chunk. When
    the server's reply arrived and the client takes the reservation, a save right
    after it that takes effect is enough: whatever fails later (the note's size
    check, the save of the next state), and even if that save itself reports a
    failure, the saved job holds all of the reservation (the transfer, its tokens,
    an id for every item and, for a recipient, the sealed key). The saved job can
    lack a reservation that was asked for only when the reply was lost or could
    not be read, the reservation was turned down, or that save did not take
    effect; it then still says "reserving". A job that is returned is the one that
    is saved, ready to be prepared. *)
Theorem reservation_durable e instance inputs mode o driver s' r :
  upload e instance inputs mode o driver fresh_state = (s', r) →
  (is_Some (posted s') → is_Some (saved s')) ∧
  (∀ j, saved s' = Some j → new_share_key e = Ok (share_key j) ∧ master_key j = [] ∧ chunks j = []) ∧
  (∀ j, saved s' = Some j → is_Some (posted s') →
     (∃ c, created_reply e = Ok c ∧ credentials c j) ∨
     state j = "reserving"%string ∧ transfer_id j = None ∧ upload_token j = None ∧ items j = [] ∧
     ∃ p, planned e instance inputs mode o driver p ∧ j = durable (plan_job p) ∧ unrecorded e driver p) ∧
  (∀ c, created_reply e = Ok c → saves e 1 ≠ FailedBefore → is_Some (posted s') →
     (∀ p, planned e instance inputs mode o driver p → ¬ turned_down e driver p c) →
     ∃ j, saved s' = Some j ∧ credentials c j) ∧
  (∀ j, r = Ok j → saved s' = Some (durable j) ∧ is_Some (posted s') ∧ state j = "preparing"%string).
Proof.
  intros Hr. apply upload_run in Hr as [Ho _].
  assert (Hplan : ∀ p, planned e instance inputs mode o driver p →
    ∃ key salt mk note, new_share_key e = Ok key ∧
      plan_job p = Sealing.set_keys mk note (fresh_job e instance o driver (plan_info p) (plan_total p) key salt)).
  { intros p Hp'. destruct (initial_job_Ok _ _ _ _ _ _ _ _ (pl_job _ _ _ _ _ _ _ Hp')) as (key & salt & mk & note & ? & ? & ?). eauto 10. }
  assert (Hfirst : ∀ p j, planned e instance inputs mode o driver p → Some (durable (plan_job p)) = Some j →
     new_share_key e = Ok (share_key j) ∧ master_key j = [] ∧ chunks j = [] ∧
     state j = "reserving"%string ∧ transfer_id j = None ∧ upload_token j = None ∧ items j = []).
  { intros p j Hp' [= <-]. destruct (Hplan p Hp') as (key & salt & mk & note & Hk & ->). done. }
  assert (Hthen : ∀ p c j1 j st, planned e instance inputs mode o driver p →
     reserved_job e driver (plan_sources p) c (plan_job p) = Ok j1 → 
     Some (durable (set_state st j1)) = Some j →
     new_share_key e = Ok (share_key j) ∧ master_key j = [] ∧ chunks j = [] ∧ credentials c j).
  { intros p c j1 j st Hp' Hj [= <-]. pose proof (reserved_credentials _ _ _ _ _ _ Hj) as Hc.
    apply reserved_job_shape in Hj as (rec & its & -> & _).
    destruct (Hplan p Hp') as (key & salt & mk & note & Hk & Heq). rewrite Heq in *. done. }
  destruct Ho as [err|p err Hp'|p create err Hp' _ Hu|p create c j err Hp' _ Hc Hj|p create c j err Hp' _ Hc Hj|p create c j Hp' _ Hc Hj];
    cbn [saved posted fresh_state]; (split_and!; [eauto| | | |]); try done; try by intros ? ? ? [].
  - intros j Hs. destruct (Hfirst p j Hp' Hs) as (? & ? & ? & ?). auto.
  - intros j Hs. destruct (Hfirst p j Hp' Hs) as (? & ? & ? & ?). auto.
  - intros j Hs _. right. destruct (Hfirst p j Hp' Hs) as (_ & _ & _ & ? & ? & ? & ?). injection Hs as <-. eauto 10.
  - intros c Hc Hio _ Hno. destruct Hu as [[? Hu]|[(c' & Hu & Ht)|Hu]]; [congruence| |done].
    rewrite Hu in Hc. injection Hc as ->. by destruct (Hno p Hp').
  - intros j' Hs. by destruct (Hthen p c j j' (state j) Hp' Hj) as (? & ? & ? & ?); [destruct j|].
  - intros j' Hs _. left. exists c. split; [done|]. by destruct (Hthen p c j j' (state j) Hp' Hj) as (? & ? & ? & ?); [destruct j|].
  - intros c' Hc' _ _ _. rewrite Hc in Hc'. injection Hc' as <-. eexists. split; [done|].
    assert (Hs : Some (durable (set_state (state j) j)) = Some (durable j)) by by destruct j.
    by destruct (Hthen p c j _ _ Hp' Hj Hs) as (? & ? & ? & ?).
  - intros j' Hs. by destruct (Hthen p c j j' "preparing"%string Hp' Hj Hs) as (? & ? & ? & ?).
  - intros j' Hs _. left. exists c. split; [done|]. by destruct (Hthen p c j j' "preparing"%string Hp' Hj Hs) as (? & ? & ? & ?).
  - intros c' Hc' _ _ _. rewrite Hc in Hc'. injection Hc' as <-. eexists. split; [done|]. by destruct (Hthen p c j _ "preparing"%string Hp' Hj eq_refl) as (? & ? & ? & ?).
  - intros j' Hs. by destruct (Hthen p c j j' "preparing"%string Hp' Hj Hs) as (? & ? & ? & ?).
  - intros j' Hs _. left. exists c. split; [done|]. by destruct (Hthen p c j j' "preparing"%string Hp' Hj Hs) as (? & ? & ? & ?).
  - intros c' Hc' _ _ _. rewrite Hc in Hc'. injection Hc' as <-. eexists. split; [done|]. by destruct (Hthen p c j _ "preparing"%string Hp' Hj eq_refl) as (? & ? & ? & ?).
  - intros j' [= <-]. done.
Qed.
End promises.
(** *** From a selection to an upload that can be sent *)

Section starts.
Context `{Ae : Aead, Kd : Kdf, Hp : Hpke, Co : Codec, En : Encode, Js : JsonText, Me : Sealing.Memory}.
Context `{Ca : Selection.Cancellation, CL : !CodecLaws, WL : !Opening.WireLaws}.

Lemma name_files_length used l files : Selection.name_files used l = Some files → length files = length l.
Proof.
  revert used files. induction l as [|x l IH]; intros used files; cbn; [by intros [= <-]|].
  destruct (Selection.unique_name _ _) as [[name used']|]; [|done]. cbn.
  destruct (Selection.name_files used' l) as [fs|] eqn:Ef; [|done]. intros [= <-]. cbn. by rewrite (IH _ _ Ef).
Qed.

Lemma prepare_nonempty paths mode maximum answer n n' files :
  Selection.prepare paths mode maximum answer n = (n', Ok (Selection.Files files)) → files ≠ [].
Proof.
  unfold Selection.prepare. intros Hr.
  apply bind_run_Ok in Hr as (n1 & [] & _ & Hr). apply bind_run_Ok in Hr as (n2 & [found hd] & _ & Hr).
  apply bind_run_Ok in Hr as (n3 & sum & _ & Hr). apply bind_run_Ok in Hr as (n4 & m & _ & Hr).
  case_match.
  - do 4 apply bind_run_Ok in Hr as (? & ? & _ & Hr). discriminate Hr.
  - case_match eqn:Hne; [discriminate Hr|]. case_match; [discriminate Hr|].
    apply bind_run_Ok in Hr as (n5 & fs & Hn & Hr). injection Hr as _ <-. apply bool_decide_eq_false in Hne.
    unfold Selection.must in Hn. injection Hn as _ Hn.
    destruct (Selection.name_files ∅ _) as [l|] eqn:Ef; [|done]. injection Hn as ->.
    apply name_files_length in Ef. intros ->. symmetry in Ef. by apply nil_length_inv in Ef.
Qed.

Lemma select_nonempty e inputs mode maximum files :
  select e inputs mode maximum = Ok files →
  match inputs with Sources l => l ≠ [] ∧ Forall (λ s, utf8 (fst s)) l | Paths _ => True end → files ≠ [].
Proof.
  unfold select. intros Hs Hi. destruct inputs as [l|l].
  - destruct (Selection.prepare l mode maximum (directory_answer e) 0%nat) as [n [[fs|name entries]|]] eqn:Ep; cbn in Hs; [| |done].
    + injection Hs as <-. apply prepare_nonempty in Ep. by destruct fs.
    + destruct (archive_length e); [|done]. by injection Hs as <-.
  - destruct Hi as [Hi Hu]. destruct (Selection.from_sources _ mode maximum 0%nat) as [n [[fs|name entries]|]] eqn:Ep; cbn in Hs; [| |done].
    + injection Hs as <-. unfold Selection.from_sources in Ep.
      destruct (match maximum with Some _ => _ | None => _ end); [discriminate Ep|].
      destruct (bool_decide (mode = Selection.Zip)); [do 3 apply bind_run_Ok in Ep as (? & ? & _ & Ep); discriminate Ep|].
      apply bind_run_Ok in Ep as (? & fs' & Hn & Ep). injection Ep as _ ->. injection Hn as _ Hn.
      destruct (Selection.name_sources ∅ _) as [fs'|] eqn:Hns; [|done]. injection Hn as ->.
      apply name_sources_Some in Hns as (Hl & _); [|by apply Forall_fmap].
      rewrite length_fmap in Hl. destruct l; [done|]. by destruct fs.
    + destruct (archive_length e); [|done]. by injection Hs as <-.
Qed.

Lemma limits_Ok driver o info hours l :
  limits driver o info = Ok (hours, l) →
  info_chunk_bytes info ≠ 0 ∧ info_chunk_bytes info ≤ MAX_CHUNK_BYTES ∧ driver ∈ enabled_drivers info ∧
  l = Link.select_driver_limits driver (transport_limits info) (legacy_transfer_bytes info) (legacy_file_count info).
Proof.
  unfold limits, mbind, result_bind. case_match eqn:Hd; [done|]. case_match eqn:Hc; [done|].
  destruct (select_retention _ _ _); [|done]. intros [= _ <-].
  apply orb_false_iff in Hc as [Hc1 Hc2]. apply orb_false_iff in Hd as [_ Hd]. bool_prop.
  split_and!; [done| |done|done]. exact Hc2.
Qed.

(** What the note and the reservation leave as it was prepared. *)
Record started (e : Env) (o : UploadOptions) (driver : string) (info : Info) (sources : list (string * Src))
    (j : UploadJob) : Prop := {
  st_driver : Upload.driver j = driver;
  st_chunk : chunk_bytes j = info_chunk_bytes info;
  st_names : item_name <$> items j = fst <$> sources;
  st_sources : Upload.source <$> items j = snd <$> sources;
  st_positions : item_position <$> items j = seqZ 0 (zlen (items j));
  st_ids : NoDup (item_id <$> items j);
  st_items : Forall (good_item (info_chunk_bytes info)) (items j);
  st_token : driver = "webrtc" → ∃ token, join_token j = Some token ∧ Manifest.valid_capability token = true }.

Lemma start_sendable e o driver info sources j :
  started e o driver info sources j → driver ∈ ["http"; "webrtc"] →
  0 < info_chunk_bytes info ≤ MAX_CHUNK_BYTES → good_names (fst <$> sources) → sources ≠ [] →
  Forall (λ i, is_u64 (source_bytes (Upload.source i))) (items j) →
  Forall (λ i, item_bytes i + chunk_bytes j - 1 ≤ u64_max ∧ item_chunk_count i ≤ MAX_CHUNKS) (items j) →
  Opening.sendable j.
Proof.
  intros S Hd Hc [Hn1 Hn2] Hne Hu Hb. pose proof (st_chunk _ _ _ _ _ _ S) as Hcb.
  assert (Hnames : item_name <$> items j = fst <$> sources) by apply S.
  split; rewrite ?Hcb; try apply S; try done.
  - by rewrite (st_driver _ _ _ _ _ _ S).
  - intros Hi. apply (f_equal length) in Hnames. rewrite Hi, length_fmap in Hnames. by destruct sources.
  - by rewrite list_fmap_compose, Hnames.
  - pose proof (st_items _ _ _ _ _ _ S) as Hg. rewrite Forall_forall in *. intros i Hi.
    destruct (Hb i Hi) as [Hb1 Hb2]. specialize (Hu i Hi). specialize (Hg i Hi).
    pose proof (g_count _ _ Hg) as Hn. pose proof (g_bytes _ _ Hg) as Hbytes. rewrite Hcb in Hb1.
    unfold chunk_count in Hn. case_match; [done|]. injection Hn as Hn.
    split_and!; try apply Hg; try done.
    + assert (Hin : item_name i ∈ item_name <$> items j) by by apply list_elem_of_fmap_2.
      rewrite Hnames, list_elem_of_fmap in Hin. destruct Hin as (p & Hp' & Hin). rewrite Hp'.
      rewrite Forall_forall in Hn2. apply Hn2. by apply list_elem_of_fmap_2.
    + rewrite Hbytes. apply Hu.
    + lia.
  - rewrite (st_driver _ _ _ _ _ _ S). apply S.
Qed.

Lemma start_of e instance inputs mode o driver p c j :
  dependable e driver → planned e instance inputs mode o driver p → created_reply e = Ok c →
  reserved_job e driver (plan_sources p) c (plan_job p) = Ok j →
  started e o driver (plan_info p) (plan_sources p) (set_state "preparing" j) ∧
  ∃ key salt mk note r its, new_share_key e = Ok key ∧ salt_of e o = Ok salt ∧
    j = with_reservation c r its
          (Sealing.set_keys mk note
             (fresh_job e instance o driver (plan_info p) (sum_Z (source_len <$> plan_sources p)) key salt)) ∧
    item_id <$> its = created_id <$> created_items c ∧
    (driver = "webrtc" → missing (created_join_token c) = false) ∧
    (to o = None → r = None) ∧
    (∀ u, to o = Some u → ∃ rec, seal_for e (created_transfer c) key (saved_recipient u) = Ok rec ∧ r = Some rec).
Proof.
  intros He [Hto Hinfo Hl Hs Hj] Hc Hr.
  destruct (initial_job_Ok _ _ _ _ _ _ _ _ Hj) as (key & salt & mk & note & Hk & Hsalt & Heq).
  destruct (sources_of_Ok _ _ _ _ _ _ _ _ Hs) as (files & _ & _ & Hf & Ht & _).
  assert (Hcb : chunk_bytes (plan_job p) = info_chunk_bytes (plan_info p)) by by rewrite Heq.
  destruct (reserved_job_Ok _ _ _ _ _ _ _ He Hc Hcb Hf Hr)
    as (r & its & -> & _ & Hmiss & Hn & Hsrc & Hids & Hpos & Hg & Hrec & Hnone).
  destruct (d_created _ _ He _ Hc) as (_ & _ & Hnd & _ & Htok). rewrite Heq in *. rewrite Ht in *. split.
  - split; try done. change (NoDup (item_id <$> its)). by rewrite Hids.
  - exists key, salt, mk, note, r, its. split_and!; try done.
    + intros Hn'. apply Hnone. cbn. by rewrite Hn'.
    + intros u Hu. destruct (Hrec (saved_recipient u)) as (rec & Hseal & ->); [cbn; by rewrite Hu|]. eauto.
Qed.

(** C18: an upload that starts can be sent, and received. When what was selected
    is named in Unicode and the random source and the server's reservation keep
    what is relied on them for, the job that starting an upload saves is one that
    any later start accepts and that the sending loop runs from: valid, nothing
    encrypted, nothing done. Unless a file's size is out of the protocol's range,
    its manifest is one the receiver accepts: no two files have names that would be
    stored as one, and every item has its id, its place, its digest and its nonce
    prefix. *)
Theorem upload_starts base e instance inputs mode o driver s' j fs side t :
  inputs_utf8 inputs → dependable e driver → driver ∈ ["http"; "webrtc"] →
  upload e instance inputs mode o driver fresh_state = (s', Ok j) → Sent.sized j →
  (∀ k, Sent.in_range k → fs !! Sending.artifact_path base (fst k) (snd k) = None) →
  saved s' = Some (durable j) ∧
  Sent.reserved base {| Upload.saved := durable j; files := fs; sidecars := side; clock := t |} ∧
  (Forall (λ i, item_bytes i + chunk_bytes j - 1 ≤ u64_max ∧ item_chunk_count i ≤ MAX_CHUNKS) (items j) →
     Opening.sendable j).
Proof.
  intros Hi He Hd Hr Hz Hfs. apply upload_run in Hr as [Ho Hg]. destruct (Hg j eq_refl) as [Hturbo Hne].
  inversion Ho as [| | | | |p create c j1 Hp1 _ Hc Hj]; subst.
  destruct (start_of _ _ _ _ _ _ _ _ _ He Hp1 Hc Hj)
    as (S & key & salt & mk & note & r & its & Hk & Hsalt & -> & Hids & Hmiss & Hr' & _).
  destruct (limits_Ok _ _ _ _ _ (pl_limits _ _ _ _ _ _ _ Hp1)) as (Hc1 & Hc2 & _).
  destruct (sources_of_Ok _ _ _ _ _ _ _ _ (pl_sources _ _ _ _ _ _ _ Hp1)) as (files & Hsel & Hn & Hf & Ht & Hm & _).
  rewrite Ht in Hm. split_and!; [done| |].
  - split; try done. apply (accepted_valid e instance o driver (plan_info p) (plan_sources p)); done || apply S.
  - intros Hb. eapply start_sendable; try done.
    + destruct Hz as (_ & _ & Hcb). cbn in Hcb. lia.
    + rewrite Hn. by eapply select_names.
    + intros Hso. rewrite Hso in Hn. apply select_nonempty in Hsel; [by destruct files|].
      by destruct inputs.
    + apply Hz.
Qed.
End starts.

(** *** For a recipient *)

Section for_recipient.
Context `{Ae : Aead, Kd : Kdf, Hp : Hpke, Xc : X25519, Co : Codec, En : Encode, Js : JsonText, Me : Sealing.Memory}.
Context `{Ca : Selection.Cancellation, CL : !CodecLaws, WL : !Opening.WireLaws, KL : !Account.KeyLaws}.

(** C20: what is sent to a username is sealed for that user. When an upload for a recipient starts, its key is wrapped by no password,
    so its items are encrypted under the transfer's key, and the saved job has that
    key sealed for the recipient's bundle: the holder of the account key opens it,
    for this transfer, user and bundle. *)
Theorem recipient_can_open e instance inputs mode o driver s' j u secret b :
  dependable e driver → to o = Some u → (∀ k, new_share_key e = Ok k → Forall is_u8 k) →
  zlen secret = 32 → Forall is_u8 secret → to_public_key u = encode (x25519_public secret) →
  Account.user_id b = to_user u → Account.bundle_id b = to_bundle u →
  upload e instance inputs mode o driver fresh_state = (s', Ok j) →
  password_salt j = None ∧
  ∃ rec sealed transfer, recipient j = Some rec ∧ username rec = to_username u ∧
    encrypted_key rec = Some sealed ∧ transfer_id j = Some transfer ∧
    Account.open_recipient_key secret {| Account.bundle := b; Account.encrypted_key := sealed |} transfer
      = Ok (share_key j) ∧
    ∀ password, Sealing.unlock_job password (durable j)
                  = Ok (Sealing.set_keys (share_key j) (sealed_attached_note j) (durable j)).
Proof.
  intros He Ht Hku Hl Hu Hpk Huser Hb Hr. apply upload_run in Hr as [Ho _].
  inversion Ho as [| | | | |p create c j1 Hp1 _ Hc Hj]; subst.
  destruct (start_of _ _ _ _ _ _ _ _ _ He Hp1 Hc Hj)
    as (_ & key & salt & mk & note & r & its & Hk & Hsalt & -> & _ & _ & _ & Hrec).
  destruct (Hrec u Ht) as (rec & Hseal & ->). destruct (pl_recipient _ _ _ _ _ _ _ Hp1) as [_ Hpw]; [by eexists|].
  unfold salt_of in Hsalt. rewrite Hpw in Hsalt. injection Hsalt as <-. split; [done|].
  revert Hseal. unfold seal_for. cbn [saved_recipient public_key user_id account_key_bundle_id username].
  rewrite Hpk, Opening.decode_encode by apply x25519_u8. cbn [context map_err mbind result_bind].
  destruct (seal_key_for_recipient _ _ _ _) as [env|] eqn:Hs; [|done]. intros [= <-].
  apply Account.sealed_key_opens in Hs as [He1 He2]; [|done..|by apply Hku].
  do 3 eexists. split_and!; [done..| |].
  - unfold Account.open_recipient_key. cbn [Account.encrypted_key Account.bundle].
    rewrite Opening.decode_encode by done. cbn [mbind result_bind]. by rewrite Huser, Hb.
  - intros password. unfold Sealing.unlock_job. cbn. by rewrite (d_key _ _ He _ Hk).
Qed.
End for_recipient.

(** ** A reservation at a concrete input *)

Module Example_reserve.
Import Example_crypto Example_json Selection.Example_selection Opening.Example_opening Account.Example_account.

#[export] Instance codec_laws : CodecLaws.
Proof. intros l. exact (Example_codec.codec_laws l). Qed.

Definition info : Info :=
  {| anonymous_uploads_enabled := false; enabled_drivers := ["http"]; info_chunk_bytes := 2;
     file_retention_hours := 24; file_retention_options := [24; 48]; legacy_transfer_bytes := Some 100;
     legacy_file_count := None; transport_limits := ∅; upload_concurrency := Some 12;
     info_upload_status := true |}.
Definition created : Created :=
  {| created_transfer := "t"; created_share_url := "/d/t"; created_chunk_bytes := 2;
     created_transport := None;
     created_items := [{| created_id := "i0"; created_position := 0 |};
                       {| created_id := "i1"; created_position := 1 |}];
     created_upload_token := "up"; created_monitor_token := None; created_delete_token := "del";
     created_driver := "http"; created_join_token := None |}.
Definition env (second : Io) (reply : result string Created) : Env :=
  {| peer_consent := Err "no consent"; ready := Ok (); info_reply := Ok info;
     directory_answer := Err "no prompt"; archive_length := Err "no archive";
     snapshot := λ _, Err "no snapshot"; metadata_host := Example_prepare.host0;
     reading_host := λ _, Example_prepare.host0; reads := λ _, Example_prepare.whole_reads;
     cancels := λ _ _, false; folder := "/jobs/j1"; job_name := "j1"; new_share_key := Ok key32;
     new_salt := Err "no salt"; password_reply := Err "no password"; note_prefix := Err "no note";
     saves := λ k, if Nat.eqb k 1 then second else Done; created_reply := reply; encapsulation := [];
     item_prefix := λ _, Ok prefix16; manifest_prefix := Err "no manifest" |}.

(** Two sources of a host, sent to Alice; their names differ only in a character
    that no name is stored with. *)
Definition inputs : Inputs := Sources [("a/b", Path "/f" 0 3); ("a__b", Path "/f" 0 3)].
Definition alices : UploadRecipient :=
  {| to_username := "alice"; to_user := 23; to_bundle := 5; to_public_key := encode key32 |}.
Definition options : UploadOptions :=
  {| attached_note := None; snapshot_paths := Ok ∅; with_turbo := false; with_password := false;
     retention := Some 48; anonymous := false; to := Some alices |}.
Definition run (second : Io) (reply : result string Created) : State * result string UploadJob :=
  upload (env second reply) "https://x/" inputs Selection.Individual options "http" fresh_state.
Definition j : UploadJob :=
  match snd (run Done (Ok created)) with Ok j => j | Err _ => the_job end.

Example reserved_files :
  (item_name <$> items j) = ["a__b"; "a__b (2)"] ∧ (item_id <$> items j) = ["i0"; "i1"] ∧
  total j = 6 ∧ server_concurrency j = 8 ∧ instance j = "https://x".
Proof. vm_compute. repeat split. Qed.

(** What is on the disk when the save after the reservation is cut short after its
    rename, when it is not made at all, and when the reservation is not the one that
    was asked for. *)
Definition left_behind (r : State * result string UploadJob) : option (string * option string * nat) :=
  (λ j, (state j, transfer_id j, length (items j))) <$> Reserve.saved (fst r).

Example interruptions :
  left_behind (run Done (Ok created)) = Some ("preparing", Some "t", 2%nat) ∧
  left_behind (run FailedAfter (Ok created)) = Some ("reserving", Some "t", 2%nat) ∧
  left_behind (run FailedBefore (Ok created)) = Some ("reserving", None, 0%nat) ∧
  left_behind (run Done (Err "offline")) = Some ("reserving", None, 0%nat) ∧
  left_behind (upload (env Done (Ok created)) "https://x" inputs Selection.Individual options "webrtc" fresh_state)
    = None.
Proof. vm_compute. repeat split. Qed.

(** The checkpoint that has the reservation's credentials is not one that a later
    start accepts while it still says "reserving". *)
Example reserving_is_refused :
  (validate_job <$> Reserve.saved (fst (run FailedAfter (Ok created)))) = Some (Err "invalid saved upload checkpoint") ∧
  validate_job j = Ok ().
Proof. vm_compute. by split. Qed.

Lemma dependable_env : dependable (env Done (Ok created)) "http".
Proof.
  split.
  - by intros k [= <-].
  - done.
  - intros k l [= <-]. split; [done|]. split; [by repeat constructor|by vm_compute].
  - intros c [= <-]. split_and!; try done.
    + by apply (bool_decide_unpack _); vm_compute.
    + by repeat constructor.
Qed.

Lemma ran :
  upload (env Done (Ok created)) "https://x/" inputs Selection.Individual options "http" fresh_state = ({| Reserve.saved := Reserve.saved (fst (run Done (Ok created)));
                                        posted := posted (fst (run Done (Ok created))) |}, Ok j).
Proof. by vm_compute. Qed.

Lemma utf8_names : inputs_utf8 inputs.
Proof. apply Forall_cons. split; [|apply Forall_singleton]; by eapply utf8_check; vm_compute. Qed.

Lemma reservation_durable_witness :
  is_Some (Reserve.saved (fst (run Done (Ok created)))) ∧ state j = "preparing"%string.
Proof.
  destruct (reservation_durable _ _ _ _ _ _ _ _ ran) as (_ & _ & _ & _ & Hj).
  destruct (Hj j eq_refl) as (Hs & _ & Hst).
  change (Reserve.saved (fst (run Done (Ok created))) = Some (durable j)) in Hs.
  split; [by rewrite Hs|exact Hst].
Defined.

Lemma upload_starts_witness :
  validate_job (durable j) = Ok () ∧ Opening.sendable j.
Proof.
  destruct (upload_starts "/w" _ _ _ _ _ _ _ _ ∅ ∅ 0 utf8_names dependable_env
              ltac:(apply (bool_decide_unpack _); vm_compute; reflexivity) ran) as (_ & Hres & Hs).
  - split_and!; [by vm_compute|by repeat constructor|by vm_compute].
  - intros k _. apply lookup_empty.
  - split; [apply Hres|]. apply Hs. repeat constructor; by vm_compute.
Defined.

Lemma recipient_can_open_witness :
  ∃ sealed, Account.open_recipient_key key32
    {| Account.bundle := owner; Account.encrypted_key := sealed |} "t" = Ok key32.
Proof.
  assert (Hk : ∀ k, new_share_key (env Done (Ok created)) = Ok k → Forall is_u8 k).
  { intros k [= <-]. by repeat constructor. }
  assert (Hu : Forall is_u8 key32) by by repeat constructor.
  destruct (recipient_can_open _ _ _ _ options _ _ _ alices key32 owner dependable_env eq_refl Hk eq_refl Hu
              ltac:(by vm_compute) eq_refl eq_refl ran) as (_ & rec & sealed & transfer & _ & _ & _ & Ht & Hopen & _).
  exists sealed. injection Ht as <-. exact Hopen.
Defined.
End Example_reserve.
