(* ===== verification/Export.v ===== *)
(** * Saving a staged delivery (crates/transfer-native/src/protocol/inbox_staging.rs, download.rs)

    [export] opens the key of a delivery whose ciphertext [Inbox] has staged, and
    [export_staged] its manifest; every file is rebuilt from the staged chunks and
    verified as a whole before the first is published.  The operations on chunks
    and files are those of [Download]; its state holds the local variables of the
    source in its job. *)

From Stdlib Require Import Ascii String.
From S2P Require Import Prelude Str Codec Frame Json Http Encryption Monad Fetch Download.
From S2P Require Fs Manifest Selection Prepare Upload Sealing Opening Inbox Account.
Open Scope Z_scope.

(** [serde_json::from_value(serde_json::to_value(metadata)?)] *)
Definition transfer_of (m : Inbox.Metadata) : Opening.Transfer :=
  {| Opening.driver := Inbox.driver m; Opening.t_id := Inbox.id m;
     Opening.protocol_version := Inbox.protocol_version m; Opening.chunk_bytes := Inbox.chunk_bytes m;
     Opening.encrypted_manifest := Some (Inbox.encrypted_manifest m);
     Opening.encrypted_descriptor := None;
     Opening.t_items := (λ i, {| Opening.m_id := Inbox.item_id i; Opening.m_position := Inbox.position i;
                                 Opening.m_chunk_count := Inbox.chunk_count i |}) <$> Inbox.items m;
     Opening.download_concurrency := None; Opening.download_ranges := false |}.

(** The variables of [export_staged] before its loop. *)
Definition export_job (m : Inbox.Metadata) (output : Fs.path) : DownloadJob :=
  {| version := VERSION; job_id := ""; direction := "download"; state := ""; instance := "";
     done_bytes := 0; total := 0; transfer_id := Inbox.id m; chunk_bytes := Inbox.chunk_bytes m;
     server_concurrency := 1; ranges := false; driver := Inbox.driver m;
     envelope := Inbox.encrypted_manifest m; source := Inbox; turbo := None; output := output;
     items := []; selected_item_ids := None; selection_frozen := false |}.

(** The names in the output directory. *)
Definition name_in (output : Fs.path) (p : Fs.path) : option string :=
  match p with n :: d => if bool_decide (d = output) then Some n else None | [] => None end.
Definition names_in (output : Fs.path) (s : State) : gset string :=
  list_to_set (omap (name_in output ∘ fst) (map_to_list (outputs s))).

Section export.
Context `{Ae : Aead, Kd : Kdf, Hp : Hpke, Co : Codec, Js : JsonText, Me : Sealing.Memory, Wd : World}.

Notation D := (SE State string).

(** [control.check()] *)
Definition check : D () := λ s,
  (tick s, if cancel_flag (clock s) then Err "Transfer cancelled" else Ok ()).

Definition manifest_of_delivery (master : list Z) (m : Inbox.Metadata) : result string Manifest.Manifest :=
  envelope ← Opening.read_envelope (Inbox.encrypted_manifest m);
  reject negb (Sealing.v envelope =? 1) || bool_decide (is_Some (Sealing.salt envelope))
    with "unsupported inbox manifest envelope";
  Opening.manifest_for master (Inbox.id m) (Inbox.encrypted_manifest m) (transfer_of m).

(** [fs::read] of an artifact; it follows links. *)
Definition read_artifact (st : Inbox.Store) (n : nat) (k : Z) : D (list Z) :=
  _ ← disk;
  of_result (match Inbox.nodes st !! Inbox.artifact_name n k with
             | Some (Inbox.Regular c) | Some (Inbox.SymlinkTo (Some c)) => Ok c
             | _ => Err "No such file or directory"
             end).

Section with_key.
Context (master : list Z) (st : Inbox.Store).

(** The manifest's permit is held while its files are rebuilt. *)
Section with_permit.
Context (held : Z).

(** One turn of the loop over an item's chunks. *)
Definition export_chunk (n : nat) (k : Z) : D () :=
  _ ← check;
  j ← get job;
  _ ← of_result (Sealing.reserve_holding held (saturating_mul (chunk_bytes j) 2 + 16));
  c ← read_artifact st n k;
  _ ← authenticate_and_write master n k c false;
  update_item (set_bit true k) n.

Definition saved_item (i : Manifest.ManifestItem) (target : Fs.path) : SavedItem :=
  {| id := Manifest.id i; name := Manifest.name i; size := Manifest.size i;
     nonce_prefix := Manifest.nonce_prefix i; chunk_count := Manifest.item_chunk_count i;
     digest := Manifest.value (Manifest.digest i); target := target;
     verified := replicate (Z.to_nat (Manifest.item_chunk_count i)) false; published := false |}.

(** A name of the selection, made different from those before it. *)
Definition export_name (names : gset string) (n : nat) (i : Manifest.ManifestItem) : string :=
  let name := Selection.safe_filename (Manifest.name i) in
  if bool_decide (name ∈ names) then decimal (Z.of_nat n) +:+ "-" +:+ name else name.

(** The plaintext of earlier saves is removed first. *)
Definition remove_plain (n : nat) : D () :=
  there ← get (λ s, bool_decide (is_Some (plains s !! n)));
  if (there : bool) then
    _ ← disk; modify (λ s, with_plains (delete n (plains s)) s)
  else mret ().

(** The whole file against the manifest. *)
Definition verify_plain (n : nat) (i : Manifest.ManifestItem) : D () :=
  _ ← disk;
  content ← get (λ s, plains s !! n);
  content ← of_result (ok_or content "No such file or directory");
  if negb (zlen content =? Manifest.size i)
     || negb (sha256_hex content =? Manifest.value (Manifest.digest i))%string
  then fail "staged file failed whole-file verification" else mret ().

(** One turn of the loop over the manifest's items. *)
Definition export_item (names : gset string) (n : nat) (i : Manifest.ManifestItem) : D () :=
  present ← get (λ s, names_in (output (job s)) s);
  j ← get job;
  target ← of_result (ok_or (Opening.collision_free present (output j) (export_name names n i)) "unreachable");
  _ ← modify (λ s, with_job (set_items (items (job s) ++ [saved_item i target]) (job s)) s);
  _ ← remove_plain n;
  _ ← for_each (export_chunk n) (seqZ 0 (Manifest.item_chunk_count i));
  verify_plain n i.

Fixpoint export_items (names : gset string) (n : nat) (l : list Manifest.ManifestItem) : D () :=
  match l with
  | [] => mret ()
  | i :: l =>
      _ ← export_item names n i;
      export_items ({[Selection.safe_filename (Manifest.name i)]} ∪ names) (S n) l
  end.

End with_permit.

Definition publish_all : D () :=
  j ← get job;
  for_each (λ e : nat * SavedItem, _ ← check; publish_item (snd e) (fst e)) (imap pair (items j)).

(** What the permit of [manifest_of_delivery] holds. *)
Definition manifest_permit (m : Inbox.Metadata) : result string Z :=
  envelope ← Opening.read_envelope (Inbox.encrypted_manifest m);
  Sealing.manifest_crypto_bytes (len (Sealing.env_ciphertext envelope)).

Definition export_staged (m : Inbox.Metadata) (output : Fs.path) : D (list Fs.path) :=
  manifest ← of_result (manifest_of_delivery master m);
  held ← of_result (manifest_permit m);
  _ ← disk;
  _ ← modify (with_job (export_job m output));
  _ ← export_items held ∅ 0 (Manifest.items manifest);
  _ ← publish_all;
  get (λ s, target <$> items (job s)).
End with_key.

(** [inbox_staging::export] *)
Definition delivery_key (private : list Z) (m : Inbox.Metadata) : result string (list Z) :=
  let bundle := Inbox.bundle (Inbox.recipient_key m) in
  envelope ← decode (Inbox.encrypted_key (Inbox.recipient_key m));
  open_recipient_envelope private envelope
    (bytes (Account.recipient_aad (Inbox.id m) (Inbox.user_id bundle) (Inbox.bundle_id bundle))).

Definition export (st : Inbox.Store) (private : list Z) (output : Fs.path) : D (list Fs.path) :=
  _ ← disk;
  saved ← of_result (ok_or (Inbox.record st) "inbox staging record is empty");
  if negb (Inbox.state saved =? "staged-locked")%string
  then fail "inbox ciphertext has not finished staging" else
  master ← of_result (delivery_key private (Inbox.metadata saved));
  export_staged master st (Inbox.metadata saved) output.
End export.

(** ** What a run changes *)

(** Rebuilding file [n]: the other files, the output directory and all of the items
    but the bits of the [n]-th stay. *)
Record rebuilds (n : nat) (s s' : State) : Prop := {
  r_outputs : outputs s' = outputs s;
  r_plains : ∀ m, m ≠ n → plains s' !! m = plains s !! m;
  r_items : set_verified [] <$> items (job s') = set_verified [] <$> items (job s);
  r_output : output (job s') = output (job s) }.

#[export] Instance rebuilds_refl n : Reflexive (rebuilds n).
Proof. by split. Qed.
#[export] Instance rebuilds_trans n : Transitive (rebuilds n).
Proof. intros s1 s2 s3 [? H1 ? ?] [? H2 ? ?]. split; [congruence| |congruence|congruence]. intros m Hm. by rewrite H2, H1. Qed.

(** File [m] is as the manifest says. *)
Definition whole `{Codec} (s : State) (m : nat) (i : Manifest.ManifestItem) : Prop :=
  ∃ it name content, items (job s) !! m = Some it ∧ target it = Fs.join (output (job s)) name ∧
    digest it = Manifest.value (Manifest.digest i) ∧ plains s !! m = Some content ∧
    zlen content = Manifest.size i ∧ sha256_hex content = Manifest.value (Manifest.digest i).

Definition all_whole `{Codec} (s : State) (l : list Manifest.ManifestItem) : Prop :=
  length (items (job s)) = length l ∧ ∀ m i, l !! m = Some i → whole s m i.

Section runs.
Context `{Ae : Aead, Kd : Kdf, Hp : Hpke, Co : Codec, Js : JsonText, Me : Sealing.Memory, Wd : World}.
Context (master : list Z) (st : Inbox.Store).

Section rebuilt.
Context (held : Z).

Lemma rebuilds_quiet n s s' : quiet s s' → output (job s') = output (job s) → rebuilds n s s'.
Proof. intros Hq Ho. split; [apply Hq| |by rewrite (quiet_items _ _ Hq)|done]. intros m _. by rewrite (quiet_plains _ _ Hq). Qed.

Lemma set_verified_alter (f : SavedItem → SavedItem) (n : nat) (l : list SavedItem) :
  (∀ i, set_verified [] (f i) = set_verified [] i) → set_verified [] <$> alter f n l = set_verified [] <$> l.
Proof.
  intros Hf. apply list_eq. intros m. rewrite !list_lookup_fmap. destruct (decide (m = n)) as [->|Hne].
  - rewrite list_lookup_alter_eq. destruct (l !! n); [|done]. cbn. by rewrite Hf.
  - by rewrite list_lookup_alter_ne.
Qed.

Lemma export_chunk_run n k s s' r : export_chunk master st held n k s = (s', r) → rebuilds n s s'.
Proof.
  unfold export_chunk. intros Hr.
  assert (Htick : ∀ s, rebuilds n s (tick s)) by (intros; by apply rebuilds_quiet).
  apply bind_run in Hr as [(e & Hc & _)|(s1 & [] & Hc & Hr)]; injection Hc as <- _; [done|].
  apply bind_run in Hr as [(e & [=] & _)|(s1 & j & [= <- <-] & Hr)].
  apply bind_run in Hr as [(e & [-> _]%of_result_run & _)|(s1 & [] & [-> _]%of_result_run & Hr)]; [done|].
  apply bind_run in Hr as [(e & Ha & _)|(s1 & c & Ha & Hr)].
  { apply bind_run in Ha as [(e' & [= <- _] & _)|(s2 & [] & [= <- _] & Ha)]; [by etrans; apply Htick|].
    apply of_result_run in Ha as [-> _]. by etrans; apply Htick. }
  apply bind_run in Ha as [(e' & _ & [=])|(s2 & [] & [= <- _] & Ha)]. apply of_result_run in Ha as [-> _].
  transitivity (tick (tick s)); [by etrans; apply Htick|]. generalize dependent (tick (tick s)). clear s. intros s Hr.
  assert (Hw : ∀ s' x, authenticate_and_write master n k c false s = (s', x) → rebuilds n s s').
  { intros s2 x [W _]%authenticate_run. split; [apply W|apply W|by rewrite (writes_job _ _ _ _ _ W)|by rewrite (writes_job _ _ _ _ _ W)]. }
  apply bind_run in Hr as [(e & Ha & _)|(s1 & x & Ha & Hr)]; [by eapply Hw|].
  etrans; [by eapply Hw|]. injection Hr as <- _. split; try done. by apply set_verified_alter.
Qed.

Lemma export_chunks_run n l s s' r :
  for_each (export_chunk master st held n) l s = (s', r) → rebuilds n s s'.
Proof.
  revert s. induction l as [|k l IH]; intros s Hr; [by injection Hr as <- _|].
  apply bind_run in Hr as [(e & Hk & _)|(s1 & [] & Hk & Hr)]; apply export_chunk_run in Hk; [done|].
  etrans; [done|]. by apply IH.
Qed.

Lemma remove_plain_run n s s' r : remove_plain n s = (s', r) → rebuilds n s s'.
Proof.
  unfold remove_plain. intros Hr. apply bind_run in Hr as [(e & [=] & _)|(s1 & b & [= <- _] & Hr)].
  destruct b; [|by injection Hr as <- _].
  apply bind_run in Hr as [(e & [= <- _] & _)|(s1 & [] & [= <- _] & Hr)]; [by apply rebuilds_quiet|].
  injection Hr as <- _. split; try done. intros m Hm. cbn. by rewrite lookup_delete_ne.
Qed.

Lemma verify_plain_run n i s s' r :
  verify_plain n i s = (s', r) →
  rebuilds n s s' ∧ (r = Ok () → ∃ content, plains s' !! n = Some content ∧
    zlen content = Manifest.size i ∧ sha256_hex content = Manifest.value (Manifest.digest i)).
Proof.
  unfold verify_plain. intros Hr. assert (Ht : rebuilds n s (tick s)) by by apply rebuilds_quiet.
  apply bind_run in Hr as [(e & [= <- _] & ->)|(s1 & [] & [= <- _] & Hr)]; [done|].
  apply bind_run in Hr as [(e & [=] & _)|(s1 & o & [= <- <-] & Hr)].
  apply bind_run in Hr as [(e & [-> _]%of_result_run & ->)|(s1 & c & [-> Hc]%of_result_run & Hr)]; [done|].
  case_match eqn:Hv; injection Hr as <- <-; [done|]. split; [done|]. intros _. exists c.
  cbn [plains tick] in *. destruct (plains s !! n); [|done]. injection Hc as ->. bool_prop. done.
Qed.

(** What an item's turn does to the files that are already whole. *)
Lemma rebuilds_whole n s s' m i : rebuilds n s s' → m ≠ n → whole s m i → whole s' m i.
Proof.
  intros Hr Hne (it & name & c & Hi & Ht & Hd & Hp' & Hrest).
  pose proof (f_equal (lookup m) (r_items _ _ _ Hr)) as Hl. rewrite !list_lookup_fmap, Hi in Hl.
  destruct (items (job s') !! m) as [it'|] eqn:E; [|done]. injection Hl as _ _ _ _ _ Hd' Ht' _.
  exists it', name, c. rewrite Ht', Hd', (r_output _ _ _ Hr), (r_plains _ _ _ Hr) by done. done.
Qed.

Lemma rebuilds_length n s s' : rebuilds n s s' → length (items (job s')) = length (items (job s)).
Proof. intros Hr. pose proof (f_equal length (r_items _ _ _ Hr)) as Hl. by rewrite !length_fmap in Hl. Qed.

Lemma export_item_run names n i s s' r :
  export_item master st held names n i s = (s', r) → length (items (job s)) = n →
  outputs s' = outputs s ∧ output (job s') = output (job s) ∧
  (r = Ok () → length (items (job s')) = S n ∧ whole s' n i ∧ ∀ m i', m ≠ n → whole s m i' → whole s' m i').
Proof.
  intros Hr Hn. unfold export_item in Hr.
  apply bind_run in Hr as [(e & [=] & _)|(s1 & present & [= <- _] & Hr)].
  apply bind_run in Hr as [(e & [=] & _)|(s1 & j & [= <- <-] & Hr)].
  apply bind_run in Hr as [(e & [-> _]%of_result_run & ->)|(s1 & t & [-> Ht]%of_result_run & Hr)]; [done|].
  assert (Hname : ∃ name, t = Fs.join (output (job s)) name).
  { unfold Opening.collision_free in Ht. destruct (if bool_decide _ then _ else _); [|done].
    injection Ht as <-. by eexists. }
  destruct Hname as [name ->]. clear Ht.
  apply bind_run in Hr as [(e & [=] & _)|(s1 & [] & [= <-] & Hr)].
  set (it := saved_item i _) in Hr. set (s1 := with_job _ s) in Hr.
  assert (Hlook : items (job s1) !! n = Some it) by (cbn; rewrite lookup_app_r, Hn, Nat.sub_diag by lia; done).
  assert (Hold : ∀ m i', m ≠ n → whole s m i' → whole s1 m i').
  { intros m i' _ (it' & nm & c & Hi & Hrest). exists it', nm, c. split; [|done]. cbn. by apply lookup_app_l_Some. }
  change (outputs s) with (outputs s1). change (output (job s)) with (output (job s1)).
  assert (Hlen : length (items (job s1)) = S n) by (cbn; rewrite length_app; cbn; lia).
  assert (Hos : output (job s1) = output (job s)) by done. clearbody s1.
  assert (Hdone : ∀ s2, rebuilds n s1 s2 → outputs s2 = outputs s1 ∧ output (job s2) = output (job s1)) by (intros s2 []; done).
  apply bind_run in Hr as [(e & Ha & ->)|(s2 & [] & Ha & Hr)]; apply remove_plain_run in Ha; [by destruct (Hdone _ Ha)|].
  apply bind_run in Hr as [(e & Hb & ->)|(s3 & [] & Hb & Hr)]; apply export_chunks_run in Hb.
  { destruct (Hdone s') as [-> ->]; [by etrans|done]. }
  apply verify_plain_run in Hr as [Hc Hv].
  assert (Hall : rebuilds n s1 s') by (by etrans; [|etrans]).
  destruct (Hdone _ Hall) as [-> Hout]. split; [done|]. split; [done|]. intros Hok.
  destruct (Hv Hok) as (c & Hp' & Hz & Hsha). split; [by rewrite (rebuilds_length _ _ _ Hall)|]. split.
  - pose proof (f_equal (lookup n) (r_items _ _ _ Hall)) as Hl. rewrite !list_lookup_fmap, Hlook in Hl.
    destruct (items (job s') !! n) as [it'|] eqn:E; [|done]. injection Hl as _ _ _ _ _ Hd' Ht' _.
    exists it', name, c. by rewrite Hout, Hd', Ht', Hos.
  - intros m i' Hm Hw. eapply rebuilds_whole; [exact Hall|done|by apply Hold].
Qed.

Lemma export_items_run names l s s' r done_ :
  export_items master st held names (length done_) l s = (s', r) → all_whole s done_ →
  outputs s' = outputs s ∧ output (job s') = output (job s) ∧ (r = Ok () → all_whole s' (done_ ++ l)).
Proof.
  revert names done_ s. induction l as [|i l IH]; intros names done_ s Hr [Hlen Hw]; cbn [export_items] in Hr.
  { injection Hr as <- _. rewrite app_nil_r. done. }
  apply bind_run in Hr as [(e & Hi & ->)|(s1 & [] & Hi & Hr)];
    apply export_item_run in Hi as (Ho & Hout & Hok); try done.
  destruct (Hok eq_refl) as (Hl1 & Hwi & Hkeep).
  replace (S (length done_)) with (length (done_ ++ [i])) in Hr by (rewrite length_app; cbn; lia).
  apply IH in Hr as (Ho' & Hout' & Hok').
  - split; [congruence|]. split; [congruence|]. intros He. specialize (Hok' He). by rewrite <- app_assoc in Hok'.
  - split; [by rewrite Hl1, length_app, Nat.add_comm|]. intros m x Hm.
    apply lookup_snoc_Some in Hm as [[Hm Hx]|[-> ->]]; [|done]. apply Hkeep; [lia|by apply Hw].
Qed.

End rebuilt.

(** Publishing touches the output directory only. *)
Lemma publish_each_run l s s' r :
  for_each (λ e : nat * SavedItem, _ ← check; publish_item (snd e) (fst e)) l s = (s', r) →
  job s' = job s ∧ plains s' = plains s ∧ keeps_outputs s s' ∧
  (r = Ok () → ∀ e, e ∈ l → ∃ c, outputs s' !! target (snd e) = Some c ∧ sha256_hex c = digest (snd e)).
Proof.
  revert s. induction l as [|x l IH]; intros s Hr.
  { injection Hr as <- _. split_and!; [done..|]. intros _ e He. by apply not_elem_of_nil in He. }
  apply bind_run in Hr as [(e & Hx & ->)|(s1 & [] & Hx & Hr)];
    (apply bind_run in Hx as [(e' & Hc & Hx')|(s0 & [] & Hc & Hx)]; injection Hc as <- _; [try discriminate Hx'|]);
    try (apply publish_run in Hx as (Hj & Hp' & Hk & Hok); change (job (tick s)) with (job s) in Hj;
         change (plains (tick s)) with (plains s) in Hp').
  - by split_and!; [| |intros t c|].
  - by split_and!.
  - destruct (IH _ Hr) as (Hj' & Hp2 & Hk' & Hok'). split_and!; [congruence|congruence|by etrans; [exact Hk|]|].
    intros He e [->|Hin]%elem_of_cons; [|by apply Hok'].
    destruct (Hok eq_refl) as (c & Hc & Hd). exists c. split; [by apply Hk'|done].
Qed.

Lemma export_staged_run m out s s' r :
  export_staged master st m out s = (s', r) →
  keeps_outputs s s' ∧
  (outputs s' ≠ outputs s ∨ is_ok r = true → ∃ manifest, manifest_of_delivery master m = Ok manifest ∧
    all_whole s' (Manifest.items manifest) ∧ output (job s') = out ∧
    ∀ targets, r = Ok targets → targets = target <$> items (job s') ∧
      ∀ it, it ∈ items (job s') → ∃ c, outputs s' !! target it = Some c ∧ sha256_hex c = digest it).
Proof.
  unfold export_staged. intros Hr.
  assert (Hnone : outputs s' = outputs s → is_ok r = false → keeps_outputs s s' ∧
    (outputs s' ≠ outputs s ∨ is_ok r = true → ∃ manifest, manifest_of_delivery master m = Ok manifest ∧
      all_whole s' (Manifest.items manifest) ∧ output (job s') = out ∧
      ∀ targets, r = Ok targets → targets = target <$> items (job s') ∧
        ∀ it, it ∈ items (job s') → ∃ c, outputs s' !! target it = Some c ∧ sha256_hex c = digest it)).
  { intros Ho He. split; [intros t c; by rewrite Ho|]. rewrite He. by intros [|]. }
  apply bind_run in Hr as [(e & [-> _]%of_result_run & ->)|(s1 & manifest & [-> Hm]%of_result_run & Hr)]; [by apply Hnone|].
  apply bind_run in Hr as [(e & [-> _]%of_result_run & ->)|(s1 & held & [-> _]%of_result_run & Hr)]; [by apply Hnone|].
  apply bind_run in Hr as [(e & Hd & ->)|(s1 & [] & Hd & Hr)]; injection Hd as <- _; [by apply Hnone|].
  apply bind_run in Hr as [(e & [=] & _)|(s1 & [] & [= <-] & Hr)].
  assert (Hstart : all_whole (with_job (export_job m out) (tick s)) []) by by split.
  apply bind_run in Hr as [(e & Hi & ->)|(s1 & [] & Hi & Hr)];
    apply (export_items_run _ _ _ _ _ _ []) in Hi as (Ho & Hout & Hok); try done; [by apply Hnone|].
  specialize (Hok eq_refl). rewrite app_nil_l in Hok. change (outputs s1 = outputs s) in Ho.
  assert (Hwhole : ∀ s2, job s2 = job s1 → plains s2 = plains s1 → all_whole s2 (Manifest.items manifest)).
  { intros s2 Hj Hp'. unfold all_whole, whole. by rewrite Hj, Hp'. }
  assert (Hkeep : ∀ s2, keeps_outputs s1 s2 → keeps_outputs s s2) by (intros s2 Hk t c; rewrite <- Ho; apply Hk).
  apply bind_run in Hr as [(e & Hp' & ->)|(s2 & [] & Hp' & Hr)]; unfold publish_all in Hp';
    apply bind_run in Hp' as [(e' & [=] & _)|(s3 & j & [= <- <-] & Hp')];
    apply publish_each_run in Hp' as (Hj & Hpl & Hk & Hpub).
  - split; [by apply Hkeep|]. intros _. exists manifest. split_and!; [done|by apply Hwhole|by rewrite Hj|done].
  - injection Hr as <- <-. split; [by apply Hkeep|]. intros _. exists manifest.
    split_and!; [done|by apply Hwhole|by rewrite Hj|]. intros targets [= <-]. split; [done|].
    intros it Hit. rewrite Hj in Hit. apply list_elem_of_lookup in Hit as [n Hn].
    destruct (Hpub eq_refl (n, it)) as (c & Hc & Hd); [|by exists c].
    apply list_elem_of_lookup. exists n. by rewrite list_lookup_imap, Hn.
Qed.
End runs.

(** ** What saving a delivery promises *)

Section promises.
Context `{Ae : Aead, Kd : Kdf, Hp : Hpke, Co : Codec, Js : JsonText, Me : Sealing.Memory, Wd : World}.

(** C8: a staged delivery is saved whole or the error says it is not, and never
    over another file. Whatever the disk, other processes and the user do: no file
    of the output directory is replaced or removed; nothing appears there before
    the delivery is completely staged, its key and its manifest have authenticated
    and every one of its files has been rebuilt with the length and the digest the
    manifest gives it; and when saving returns, the files it names are in the
    output directory, one for each file of the manifest, in order, each with that
    file's digest. *)
Theorem export_verifies_first st private out s s' r :
  export st private out s = (s', r) →
  keeps_outputs s s' ∧
  (outputs s' ≠ outputs s ∨ is_ok r = true →
   ∃ saved key manifest, Inbox.record st = Some saved ∧ Inbox.state saved = "staged-locked"%string ∧
     delivery_key private (Inbox.metadata saved) = Ok key ∧
     manifest_of_delivery key (Inbox.metadata saved) = Ok manifest ∧
     (∀ n i, Manifest.items manifest !! n = Some i → ∃ content, plains s' !! n = Some content ∧
        zlen content = Manifest.size i ∧ sha256_hex content = Manifest.value (Manifest.digest i)) ∧
     ∀ targets, r = Ok targets → length targets = length (Manifest.items manifest) ∧
       ∀ n i, Manifest.items manifest !! n = Some i → ∃ name c, targets !! n = Some (Fs.join out name) ∧
         outputs s' !! Fs.join out name = Some c ∧ sha256_hex c = Manifest.value (Manifest.digest i)).
Proof.
  unfold export. intros Hr.
  apply bind_run in Hr as [(e & [= <- _] & ->)|(s1 & [] & [= <- _] & Hr)]; [split; [by intros t c|by intros [|]]|].
  apply bind_run in Hr as [(e & [-> _]%of_result_run & ->)|(s1 & saved & [-> Hs]%of_result_run & Hr)];
    [split; [by intros t c|by intros [|]]|].
  case_match eqn:Hst; [injection Hr as <- <-; split; [by intros t c|by intros [|]]|].
  apply bind_run in Hr as [(e & [-> _]%of_result_run & ->)|(s1 & key & [-> Hk]%of_result_run & Hr)];
    [split; [by intros t c|by intros [|]]|].
  destruct (export_staged_run _ _ _ _ _ _ _ Hr) as [Hkeep Hrun].
  change (outputs (tick s)) with (outputs s) in Hrun. split; [exact Hkeep|]. intros Hch.
  destruct (Hrun Hch) as (manifest & Hm & [Hlen Hw] & Hout & Hok).
  destruct (Inbox.record st) as [saved'|]; [injection Hs as ->|done].
  apply negb_false_iff, String.eqb_eq in Hst. exists saved, key, manifest. split_and!; try done.
  - intros n i Hi. destruct (Hw n i Hi) as (it & name & c & _ & _ & _ & Hc). by exists c.
  - intros targets Ht. destruct (Hok targets Ht) as [-> Hpub]. split; [by rewrite length_fmap|].
    intros n i Hi. destruct (Hw n i Hi) as (it & name & c & Hit & Htar & Hd & _).
    destruct (Hpub it) as (c' & Hc' & Hd'); [by eapply list_elem_of_lookup_2|].
    exists name, c'. rewrite list_lookup_fmap, Hit, <- Hout, <- Htar. cbn. rewrite <- Hd. done.
Qed.
End promises.

(** ** Saving from a disk and a user that let it *)

Lemma write_at_next (f : list Z) (a b : nat) :
  (a ≤ length f)%nat → write_at (take a f) a (take b (drop a f)) = take (a + b) f.
Proof.
  intros Ha. unfold write_at. assert (Hl : length (take a f) = a) by (rewrite length_take; lia).
  rewrite Hl, Nat.sub_diag, app_nil_r, (take_ge (take a f)), (drop_ge (take a f)), app_nil_r by lia.
  by rewrite take_take_drop.
Qed.

Lemma elem_of_names_in out s n : n ∈ names_in out s ↔ is_Some (outputs s !! Fs.join out n).
Proof.
  unfold names_in. rewrite elem_of_list_to_set, list_elem_of_omap. split.
  - intros ([p c] & Hin & Hn). apply elem_of_map_to_list in Hin. unfold compose, name_in in Hn. cbn in Hn.
    destruct p as [|n' d]; [done|]. case_bool_decide; [|done]. simplify_eq. by exists c.
  - intros [c Hc]. exists (Fs.join out n, c). split; [by apply elem_of_map_to_list|].
    unfold compose, name_in. cbn. by rewrite bool_decide_true.
Qed.

Section working.
Context `{Ae : Aead, Kd : Kdf, Hp : Hpke, Co : Codec, Js : JsonText, Me : Sealing.Memory, Wd : World}.
Context (no_fault : ∀ t, io_fault t = None) (no_cancel : ∀ t, cancel_flag t = false).
Context (alone : ∀ t, raced t = None) (waits : Sealing.waits_end Me).
Context (master : list Z) (st : Inbox.Store) (t : string) (cb : Z) (out : Fs.path) (positive : 0 < cb).
Context (held : Z) (held_pos : 0 ≤ held) (room : held + (2 * cb + 16) ≤ Sealing.memory_limit).

(** The staged chunks of an item are those its sender made of a file. *)
Record staged_file (n : nat) (i : Manifest.ManifestItem) (f : list Z) : Prop := {
  sf_size : Manifest.size i = zlen f;
  sf_fits : zlen f ≤ u64_max;
  sf_digest : Manifest.value (Manifest.digest i) = sha256_hex f;
  sf_count : Manifest.item_chunk_count i = Z.max 1 (div_ceil (zlen f) cb);
  sf_chunks k : 0 ≤ k < Manifest.item_chunk_count i →
    ∃ c key prefix, Inbox.nodes st !! Inbox.artifact_name n k = Some (Inbox.Regular c) ∧
      derive_item_key master t (Manifest.id i) = Ok key ∧ decode (Manifest.nonce_prefix i) = Ok prefix ∧
      encrypt_chunk key prefix (Prelude.as_u32 k) (Prepare.slice cb f k) (aad t (Manifest.id i) (decimal k)) = Ok c }.

(** The variables of the loop while the chunks before the [k]-th of the item after
    [pre] are written. *)
Definition bits (i : Manifest.ManifestItem) (k : Z) : list bool :=
  replicate (Z.to_nat k) true ++ replicate (Z.to_nat (Manifest.item_chunk_count i - k)) false.
Record building (pre : list SavedItem) (i : Manifest.ManifestItem) (target : Fs.path) (k : Z) (s : State)
    : Prop := {
  b_items : items (job s) = pre ++ [set_verified (bits i k) (saved_item i target)];
  b_transfer : transfer_id (job s) = t;
  b_chunk : chunk_bytes (job s) = cb;
  b_output : output (job s) = out }.

(** Nothing else changes but the file that is rebuilt. *)
Definition only_file (n : nat) (s s' : State) : Prop :=
  outputs s' = outputs s ∧ ∀ m, m ≠ n → plains s' !! m = plains s !! m.

#[export] Instance only_file_trans n : Transitive (only_file n).
Proof. intros s1 s2 s3 [? H1] [? H2]. split; [congruence|]. intros m Hm. by rewrite H2, H1. Qed.

Lemma slice_len f k i n : staged_file n i f → 0 ≤ k < Manifest.item_chunk_count i →
  k * cb ≤ zlen f ∧ zlen (Prepare.slice cb f k) = plaintext_len (zlen f) cb k.
Proof.
  intros Hf Hk. rewrite (sf_count _ _ _ Hf) in Hk.
  assert (Hle : k * cb ≤ zlen f).
  { pose proof (div_ceil_lower (zlen f) cb positive). unfold zlen in *. nia. }
  pose proof (sf_fits _ _ _ Hf). assert (0 ≤ k * cb) by nia.
  split; [done|]. unfold Prepare.slice, plaintext_len, saturating_sub, saturating_mul, zlen in *.
  rewrite length_take, length_drop. lia.
Qed.

Lemma authenticate_works n k c i plain s :
  items (job s) !! n = Some i → open_chunk master (job s) i k c = Ok plain →
  zlen plain = plaintext_len (size i) (chunk_bytes (job s)) k →
  ∃ x, authenticate_and_write master n k c false s
    = (tick (with_plains (<[n := write_at (default [] (plains s !! n)) (Z.to_nat (k * chunk_bytes (job s))) plain]>
               (plains s)) s), Ok x).
Proof.
  intros Hi Ho Hl. eexists. unfold authenticate_and_write.
  rewrite (bind_Ok _ _ _ s i) by (unfold get_item; by rewrite Hi).
  rewrite (bind_Ok _ _ _ s (job s)) by done.
  rewrite (bind_Ok _ _ _ s plain) by (unfold of_result; by rewrite Ho).
  rewrite (proj2 (Z.eqb_eq _ _) Hl). cbn [negb].
  rewrite (bind_Ok _ _ _ s ()) by done.
  erewrite bind_Ok by (unfold write_plain; rewrite no_fault; reflexivity). reflexivity.
Qed.

Lemma bits_next i k :
  0 ≤ k < Manifest.item_chunk_count i → <[Z.to_nat k := true]> (bits i k) = bits i (k + 1).
Proof.
  intros Hk. unfold bits. rewrite insert_app_r_alt by (rewrite length_replicate; lia).
  rewrite length_replicate, Nat.sub_diag.
  replace (Z.to_nat (Manifest.item_chunk_count i - k)) with (S (Z.to_nat (Manifest.item_chunk_count i - (k + 1)))) by lia.
  rewrite replicate_S. cbn [list_insert insert]. rewrite Z.add_1_r, Z2Nat.inj_succ, replicate_S_end by lia.
  by rewrite <- app_assoc.
Qed.

Lemma export_chunk_works pre i target k f s :
  staged_file (length pre) i f → 0 ≤ k < Manifest.item_chunk_count i →
  building pre i target k s → default [] (plains s !! length pre) = take (Z.to_nat (k * cb)) f →
  ∃ s', export_chunk master st held (length pre) k s = (s', Ok ()) ∧ building pre i target (k + 1) s' ∧
    only_file (length pre) s s' ∧ plains s' !! length pre = Some (take (Z.to_nat ((k + 1) * cb)) f).
Proof.
  intros Hf Hk [Hi Ht Hc Ho] Hp'. destruct (sf_chunks _ _ _ Hf k Hk) as (c & key & prefix & Hn & Hkey & Hpre & He).
  destruct (slice_len _ _ _ _ Hf Hk) as [Hle Hlen].
  set (it := set_verified (bits i k) (saved_item i target)) in *.
  assert (Hlook : items (job s) !! length pre = Some it) by by rewrite Hi, lookup_app_r, Nat.sub_diag by lia.
  assert (Hopen : open_chunk master (job s) it k c = Ok (Prepare.slice cb f k)).
  { unfold open_chunk. cbn [it id nonce_prefix set_verified saved_item]. rewrite Ht, Hkey. cbn [mbind result_bind].
    rewrite Hpre. cbn [mbind result_bind]. apply encrypt_decrypt_at_index in He. unfold decrypt_chunk. by rewrite He. }
  destruct (authenticate_works (length pre) k c it (Prepare.slice cb f k) (tick (tick s))) as [x Ha]; [done|done| |].
  { change (job (tick (tick s))) with (job s). rewrite Hc, Hlen. cbn. by rewrite (sf_size _ _ _ Hf). }
  unfold export_chunk. rewrite (bind_Ok _ _ _ (tick s) ()) by (unfold check; by rewrite no_cancel).
  rewrite (bind_Ok _ _ _ (tick s) (job s)) by done.
  rewrite (bind_Ok _ _ _ (tick s) ()).
  2:{ unfold of_result. rewrite Sealing.reserve_holding_fits; [done|done|done|].
      rewrite Hc. unfold saturating_mul. lia. }
  rewrite (bind_Ok _ _ _ (tick (tick s)) c).
  2:{ unfold read_artifact. rewrite (bind_Ok _ _ _ (tick (tick s)) ()) by (unfold disk; by rewrite no_fault).
      unfold of_result. by rewrite Hn. }
  rewrite (bind_Ok _ _ _ _ _ Ha). eexists. split; [reflexivity|]. split_and!.
  - split; cbn; try done. rewrite Hi, alter_app_r_alt, Nat.sub_diag by lia. cbn. do 3 f_equal.
    unfold set_bit, it. cbn. by rewrite bits_next.
  - split; [done|]. intros m Hm. cbn. by rewrite lookup_insert_ne.
  - cbn. rewrite lookup_insert_eq, Hc. f_equal.
    change (plains (tick (tick s))) with (plains s). rewrite Hp'. unfold Prepare.slice.
    rewrite write_at_next by (unfold zlen in *; lia). f_equal. rewrite Z.mul_add_distr_r. lia.
Qed.

(** From the [k]-th chunk on. *)
Lemma export_chunks_work pre i target f m k s :
  staged_file (length pre) i f → 0 ≤ k → k + Z.of_nat m = Manifest.item_chunk_count i →
  building pre i target k s → default [] (plains s !! length pre) = take (Z.to_nat (k * cb)) f →
  ∃ s', for_each (export_chunk master st held (length pre)) (seqZ k (Z.of_nat m)) s = (s', Ok ()) ∧
    building pre i target (Manifest.item_chunk_count i) s' ∧ only_file (length pre) s s' ∧
    default [] (plains s' !! length pre) = take (Z.to_nat (Manifest.item_chunk_count i * cb)) f ∧
    (m ≠ 0%nat → is_Some (plains s' !! length pre)).
Proof.
  intros Hf. revert k s. induction m as [|m IH]; intros k s Hk Hm Hb Hp'.
  { rewrite Z.add_0_r in Hm. subst k. exists s. split_and!; try done. }
  rewrite Nat2Z.inj_succ, seqZ_cons by lia.
  destruct (export_chunk_works pre i target k f s) as (s1 & Hr & Hb1 & Ho1 & Hp1); [done|lia|done..|].
  destruct (IH (k + 1) s1) as (s2 & Hr2 & Hb2 & Ho2 & Hp2 & Hs2); [lia|lia|done|by rewrite Hp1|].
  exists s2. cbn [for_each]. rewrite (bind_Ok _ _ _ _ _ Hr). rewrite Z.pred_succ. split_and!; try done.
  - by transitivity s1.
  - intros _. destruct m; [|by apply Hs2]. cbn in Hr2. injection Hr2 as <-. by rewrite Hp1.
Qed.

Lemma staged_whole n i f : staged_file n i f → take (Z.to_nat (Manifest.item_chunk_count i * cb)) f = f.
Proof.
  intros Hf. rewrite (sf_count _ _ _ Hf). apply take_ge. pose proof (div_ceil_upper (zlen f) cb positive).
  unfold zlen in *. nia.
Qed.

(** The item after [pre], under a name that is free. *)
Lemma export_item_works names pre i f s :
  let name := Selection.safe_filename (Manifest.name i) in
  staged_file (length pre) i f → name ∉ names → outputs s !! Fs.join out name = None →
  items (job s) = pre → transfer_id (job s) = t → chunk_bytes (job s) = cb → output (job s) = out →
  ∃ s', export_item master st held names (length pre) i s = (s', Ok ()) ∧
    building pre i (Fs.join out name) (Manifest.item_chunk_count i) s' ∧ only_file (length pre) s s' ∧
    plains s' !! length pre = Some f.
Proof.
  intros name Hf Hfresh Hnone Hi Ht Hc Ho. unfold export_item, export_name. fold name.
  assert (Htarget : Opening.collision_free (names_in (output (job s)) s) (output (job s)) name = Some (Fs.join out name)).
  { unfold Opening.collision_free. rewrite Ho, bool_decide_false; [done|]. rewrite elem_of_names_in, Hnone. by intros []. }
  rewrite bool_decide_false by done.
  rewrite (bind_Ok _ _ _ s (names_in (output (job s)) s)) by done. rewrite (bind_Ok _ _ _ s (job s)) by done.
  rewrite (bind_Ok _ _ _ s (Fs.join out name)) by (unfold of_result; by rewrite Htarget).
  set (s1 := with_job (set_items (items (job s) ++ [saved_item i (Fs.join out name)]) (job s)) s).
  rewrite (bind_Ok _ _ _ s1 ()) by done.
  assert (Hb1 : building pre i (Fs.join out name) 0 s1).
  { split; try done. cbn. rewrite Hi. do 2 f_equal. unfold bits. rewrite Z.sub_0_r. done. }
  destruct (remove_plain (length pre) s1) as [s2 r2] eqn:E2.
  assert (H2 : r2 = Ok () ∧ job s2 = job s1 ∧ only_file (length pre) s1 s2 ∧ plains s2 !! length pre = None).
  { revert E2. unfold remove_plain, get, mbind, SE_bind. destruct (plains s1 !! length pre) eqn:Ep.
    - rewrite bool_decide_true by done. unfold disk. rewrite no_fault. intros [= <- <-]. split_and!; try done.
      + split; [done|]. intros m Hm. cbn. by rewrite lookup_delete_ne.
      + cbn. by rewrite lookup_delete_eq.
    - rewrite bool_decide_false by by intros []. by intros [= <- <-]. }
  destruct H2 as (-> & Hj2 & Ho2 & Hp2). rewrite (bind_Ok _ _ _ _ _ E2).
  assert (Hb2 : building pre i (Fs.join out name) 0 s2).
  { destruct Hb1. by split; rewrite Hj2. }
  pose proof (sf_count _ _ _ Hf) as Hcount.
  destruct (export_chunks_work pre i (Fs.join out name) f (Z.to_nat (Manifest.item_chunk_count i)) 0 s2)
    as (s3 & Hr3 & Hb3 & Ho3 & Hp3 & Hs3); [done|lia|lia|done|by rewrite Hp2|].
  rewrite Z2Nat.id in Hr3 by lia. rewrite (bind_Ok _ _ _ _ _ Hr3).
  rewrite (staged_whole _ _ _ Hf) in Hp3.
  assert (Hplain : plains s3 !! length pre = Some f).
  { destruct Hs3 as [f' Hf']; [lia|]. rewrite Hf' in Hp3 |- *. by rewrite <- Hp3. }
  exists (tick s3). split_and!; [|destruct Hb3; by split| |done].
  - unfold verify_plain. rewrite (bind_Ok _ _ _ (tick s3) ()) by (unfold disk; by rewrite no_fault).
    rewrite (bind_Ok _ _ _ (tick s3) (Some f)) by (unfold get; cbn; by rewrite Hplain).
    rewrite (bind_Ok _ _ _ (tick s3) f) by done.
    rewrite (sf_size _ _ _ Hf), (sf_digest _ _ _ Hf), Z.eqb_refl, String.eqb_refl. done.
  - destruct Ho2 as [Ho2 Hq2], Ho3 as [Ho3 Hq3]. split; [cbn; by rewrite Ho3, Ho2|].
    intros m Hm. cbn. by rewrite Hq3, Hq2.
Qed.

Definition safe_name (i : Manifest.ManifestItem) : string := Selection.safe_filename (Manifest.name i).
Definition finished (i : Manifest.ManifestItem) : SavedItem :=
  set_verified (bits i (Manifest.item_chunk_count i)) (saved_item i (Fs.join out (safe_name i))).

Lemma export_items_work (file : nat → list Z) names before l s :
  (∀ n i, l !! n = Some i → staged_file (length before + n) i (file (length before + n)%nat)) →
  NoDup (safe_name <$> l) → (∀ i, i ∈ l → safe_name i ∉ names) →
  (∀ i, i ∈ l → outputs s !! Fs.join out (safe_name i) = None) →
  items (job s) = finished <$> before → transfer_id (job s) = t → chunk_bytes (job s) = cb →
  output (job s) = out →
  ∃ s', export_items master st held names (length before) l s = (s', Ok ()) ∧
    items (job s') = finished <$> (before ++ l) ∧ outputs s' = outputs s ∧
    (∀ n, (n < length before)%nat → plains s' !! n = plains s !! n) ∧
    ∀ n i, l !! n = Some i → plains s' !! (length before + n)%nat = Some (file (length before + n)%nat).
Proof.
  revert names before s. induction l as [|i l IH]; intros names before s Hf Hnd Hnew Hfree Hi Ht Hc Ho.
  { exists s. rewrite app_nil_r. done. }
  cbn in Hnd. apply NoDup_cons in Hnd as [Hi' Hnd]. cbn [export_items].
  pose proof (Hf 0%nat i eq_refl) as Hf0. rewrite Nat.add_0_r in Hf0.
  replace (length before) with (length (items (job s))) in Hf0 |- * by by rewrite Hi, length_fmap.
  destruct (export_item_works names (items (job s)) i _ s Hf0) as (s1 & Hr & [Hb1 Hb2 Hb3 Hb4] & [Ho1 Hp1] & Hp2);
    try done; [apply Hnew; set_solver|apply Hfree; set_solver|].
  rewrite (bind_Ok _ _ _ _ _ Hr).
  destruct (IH ({[safe_name i]} ∪ names) (before ++ [i]) s1) as (s2 & Hr2 & Hi2 & Ho2 & Hq1 & Hq2); try done.
  - intros n x Hx. rewrite length_app, <- Nat.add_assoc. by apply (Hf (S n)).
  - intros x Hx. rewrite not_elem_of_union, not_elem_of_singleton. split; [|apply Hnew; set_solver].
    intros He. apply Hi'. rewrite <- He. by apply list_elem_of_fmap_2.
  - intros x Hx. rewrite Ho1. apply Hfree. set_solver.
  - by rewrite Hb1, Hi, fmap_app.
  - rewrite length_app, Nat.add_1_r in *. rewrite <- app_assoc in Hi2. cbn [app] in Hi2.
    rewrite Hi, length_fmap in *. exists s2. split_and!; [done|done|congruence| |].
    + intros n Hn. rewrite Hq1, Hp1 by lia. done.
    + intros [|n] x Hx.
      * rewrite Nat.add_0_r. rewrite Hq1 by lia. done.
      * rewrite <- Nat.add_succ_comm. by apply (Hq2 n x).
Qed.

Lemma publish_works n it f s :
  existsb negb (verified it) = false → plains s !! n = Some f → size it = zlen f → digest it = sha256_hex f →
  outputs s !! target it = None →
  ∃ s', publish_item it n s = (s', Ok ()) ∧ job s' = job s ∧ plains s' = plains s ∧
    outputs s' = <[target it := f]> (outputs s).
Proof.
  intros Hv Hp' Hz Hd Ho. unfold publish_item. rewrite Hv.
  rewrite (bind_Ok _ _ _ (tick s) ()) by (unfold disk; by rewrite no_fault).
  rewrite (bind_Ok _ _ _ (tick s) (Some f)) by (unfold get; cbn; by rewrite Hp').
  rewrite (bind_Ok _ _ _ (tick s) f) by done. rewrite Hz, Hd, Z.eqb_refl, String.eqb_refl. cbn [negb orb].
  rewrite (bind_Ok _ _ _ (tick s) None) by (unfold get; cbn; by rewrite Ho).
  rewrite (bind_Ok _ _ _ (tick (tick s)) ()) by (unfold disk; by rewrite no_fault).
  rewrite (bind_Ok _ _ _ (tick (tick s)) ()) by (unfold modify; by rewrite alone).
  rewrite (bind_Ok _ _ _ (tick (tick s)) None) by (unfold get; cbn; by rewrite Ho).
  erewrite bind_Ok by reflexivity. unfold disk. rewrite no_fault. eexists. split; [reflexivity|]. done.
Qed.

Lemma publish_each_works (file : nat → list Z) l s :
  NoDup (target ∘ snd <$> l) →
  (∀ e, e ∈ l → existsb negb (verified (snd e)) = false ∧ plains s !! fst e = Some (file (fst e)) ∧
     size (snd e) = zlen (file (fst e)) ∧ digest (snd e) = sha256_hex (file (fst e)) ∧
     outputs s !! target (snd e) = None) →
  ∃ s', for_each (λ e : nat * SavedItem, _ ← check; publish_item (snd e) (fst e)) l s = (s', Ok ()) ∧
    job s' = job s ∧ (∀ e, e ∈ l → outputs s' !! target (snd e) = Some (file (fst e))) ∧
    ∀ p, (∀ e, e ∈ l → target (snd e) ≠ p) → outputs s' !! p = outputs s !! p.
Proof.
  revert s. induction l as [|e l IH]; intros s Hnd Hall.
  { exists s. split_and!; [done|done| |done]. intros e He. by apply not_elem_of_nil in He. }
  cbn in Hnd. apply NoDup_cons in Hnd as [He Hnd].
  assert (Hne : ∀ x, x ∈ l → target (snd x) ≠ target (snd e)).
  { intros x Hx Heq. apply He. apply list_elem_of_fmap. by exists x. }
  destruct (Hall e) as (Hv & Hp' & Hz & Hd & Ho); [set_solver|].
  destruct (publish_works (fst e) (snd e) (file (fst e)) (tick s)) as (s1 & Hr & Hj & Hpl & Hout); try done.
  destruct (IH s1 Hnd) as (s2 & Hr2 & Hj2 & Hin2 & Hother).
  - intros x Hx. destruct (Hall x) as (? & Hpx & ? & ? & ?); [set_solver|]. split_and!; try done.
    + by rewrite Hpl.
    + rewrite Hout, lookup_insert_ne by (apply not_eq_sym, Hne, Hx). done.
  - exists s2. cbn [for_each]. rewrite (bind_Ok _ _ _ s1 ()).
    2:{ by rewrite (bind_Ok _ _ _ (tick s) ()) by (unfold check; by rewrite no_cancel). }
    split_and!; [done|by rewrite Hj2, Hj| |].
    + intros x [->|Hx]%elem_of_cons; [|by apply Hin2]. rewrite Hother by done. by rewrite Hout, lookup_insert_eq.
    + intros p Hp2. rewrite Hother by set_solver. rewrite Hout, lookup_insert_ne by (apply Hp2; set_solver). done.
Qed.

Lemma bits_done i : existsb negb (bits i (Manifest.item_chunk_count i)) = false.
Proof.
  unfold bits. rewrite Z.sub_diag. cbn [Z.to_nat replicate]. rewrite app_nil_r.
  induction (Z.to_nat _) as [|n IH]; [done|exact IH].
Qed.

Lemma export_staged_works (file : nat → list Z) m manifest s :
  manifest_of_delivery master m = Ok manifest → manifest_permit m = Ok held →
  Inbox.id m = t → Inbox.chunk_bytes m = cb →
  (∀ n i, Manifest.items manifest !! n = Some i → staged_file n i (file n)) →
  NoDup (safe_name <$> Manifest.items manifest) →
  (∀ i, i ∈ Manifest.items manifest → outputs s !! Fs.join out (safe_name i) = None) →
  ∃ s', export_staged master st m out s
          = (s', Ok ((λ i, Fs.join out (safe_name i)) <$> Manifest.items manifest)) ∧
    (∀ n i, Manifest.items manifest !! n = Some i →
       outputs s' !! Fs.join out (safe_name i) = Some (file n)) ∧
    ∀ p, (∀ i, i ∈ Manifest.items manifest → Fs.join out (safe_name i) ≠ p) → outputs s' !! p = outputs s !! p.
Proof.
  intros Hm Hheld Ht Hc Hf Hnd Hfree. unfold export_staged.
  rewrite (bind_Ok _ _ _ s manifest) by (unfold of_result; by rewrite Hm).
  rewrite (bind_Ok _ _ _ s held) by (unfold of_result; by rewrite Hheld).
  rewrite (bind_Ok _ _ _ (tick s) ()) by (unfold disk; by rewrite no_fault).
  set (s1 := with_job (export_job m out) (tick s)). rewrite (bind_Ok _ _ _ s1 ()) by done.
  set (l := Manifest.items manifest) in *.
  destruct (export_items_work file ∅ [] l s1) as (s2 & Hr2 & Hi2 & Ho2 & _ & Hp2); try done.
  rewrite (bind_Ok _ _ _ _ _ Hr2).
  assert (Hent : ∀ e, e ∈ imap pair (finished <$> l) → ∃ i, l !! fst e = Some i ∧ snd e = finished i).
  { intros e (n & He)%list_elem_of_lookup. rewrite list_lookup_imap, list_lookup_fmap in He.
    destruct (l !! n) as [i|] eqn:El; [|done]. injection He as <-. by exists i. }
  destruct (publish_each_works file (imap pair (finished <$> l)) s2) as (s3 & Hr3 & Hj3 & Hin3 & Hother3).
  - replace (target ∘ snd <$> imap pair (finished <$> l)) with (Fs.join out <$> (safe_name <$> l)).
    + apply NoDup_fmap_2; [|done]. by intros x y [=].
    + apply list_eq. intros n. rewrite !list_lookup_fmap, list_lookup_imap, list_lookup_fmap. by destruct (l !! n).
  - intros e He. destruct (Hent e He) as (i & Hi & ->). pose proof (Hf _ _ Hi) as Hfi. split_and!.
    + apply bits_done.
    + apply (Hp2 _ _ Hi).
    + apply Hfi.
    + apply Hfi.
    + change (outputs s2 !! Fs.join out (safe_name i) = None). rewrite Ho2. apply Hfree.
      by eapply list_elem_of_lookup_2.
  - unfold publish_all. rewrite (bind_Ok _ _ _ s3 ()).
    2:{ rewrite (bind_Ok _ _ _ s2 (job s2)) by done. by rewrite Hi2. }
    exists s3. unfold get. rewrite Hj3, Hi2, <- list_fmap_compose. split_and!; [done| |].
    + intros n i Hi. apply (Hin3 (n, finished i)). apply list_elem_of_lookup. exists n.
      by rewrite list_lookup_imap, list_lookup_fmap, Hi.
    + intros p Hp'. rewrite Hother3, Ho2; [done|]. intros e He. destruct (Hent e He) as (i & Hi & ->).
      apply Hp'. by eapply list_elem_of_lookup_2.
Qed.
End working.

(** ** What was sent to a username is what is saved *)

Section delivered.
Context `{Ae : Aead, Kd : Kdf, Hp : Hpke, Xc : X25519, Co : Codec, En : Encode, Js : JsonText, Wd : World}.
Context `{KL : !Account.KeyLaws, JL : !JsonTextLaws, WL : !Opening.WireLaws}.
Context (Sender Receiver : Sealing.Memory).

(** The chunk at position [k] of the [n]-th item of a job, as its sender encrypts it. *)
Definition sent_chunk (j : Upload.UploadJob) (transfer : string) (i : Upload.Item) (f : list Z) (k : Z)
    (c : list Z) : Prop :=
  ∃ key prefix, derive_item_key (Upload.master_key j) transfer (Upload.item_id i) = Ok key ∧
    decode (Upload.nonce_prefix i) = Ok prefix ∧
    encrypt_chunk key prefix (Prelude.as_u32 k) (Prepare.slice (Upload.chunk_bytes j) f k)
      (Prepare.aad transfer (Upload.item_id i) k) = Ok c.

(** The memory that saving a delivery takes at once: the manifest's four times the
    ciphertext of its envelope, held while every chunk takes twice its length and
    the tag. *)
Definition holds_delivery (Me : Sealing.Memory) (envelope : string) (chunk_bytes : Z) : Prop :=
  ∀ e, Opening.read_envelope envelope = Ok e →
    4 * len (Sealing.env_ciphertext e) + (2 * chunk_bytes + 16) ≤ Sealing.memory_limit.

Lemma holds_delivery_envelope Me envelope cb :
  0 < cb ≤ Upload.MAX_CHUNK_BYTES → holds_delivery Me envelope cb → Opening.holds_envelope Me envelope.
Proof. intros Hcb Hd e He. specialize (Hd e He). lia. Qed.

Lemma holds_delivery_check (Me : Sealing.Memory) envelope cb :
  match Opening.read_envelope envelope with
  | Ok e => 4 * len (Sealing.env_ciphertext e) + (2 * cb + 16) <=? Sealing.memory_limit
  | Err _ => true
  end = true → holds_delivery Me envelope cb.
Proof. intros Hc e He. rewrite He in Hc. lia. Qed.

(** C7: a delivery arrives. Take a job that can be sent, whose manifest and key were
    sealed for a recipient without a password. When a staged and complete record
    describes that transfer with this manifest and key, and its artifacts are the
    chunks the sender makes of files with the lengths and digests of the items,
    then on a disk that works, undisturbed, with no file in the way, and with a
    memory budget that holds the manifest's working memory and a chunk's at once
    and whose other users release theirs in the end, [export] with the recipient's account key returns a path for every item, in order, and
    at each path is the item's file, byte for byte; nothing else changed in the
    output directory. *)
Theorem delivery_saves secret j fresh envelope fresh_key r transfer sealed st saved out s (file : nat → list Z) :
  (∀ t, io_fault t = None) → (∀ t, cancel_flag t = false) → (∀ t, raced t = None) →
  Sealing.waits_end Receiver → holds_delivery Receiver envelope (Upload.chunk_bytes j) →
  zlen secret = 32 → Forall is_u8 secret → Account.r_public_key r = encode (x25519_public secret) →
  (∀ prefix, fresh = Ok prefix → Forall is_u8 prefix) → Forall is_u8 (Upload.master_key j) →
  Opening.sendable j → Upload.password_salt j = None → Upload.transfer_id j = Some transfer →
  Sealing.encrypted_manifest (Me := Sender) fresh j = Ok envelope →
  Account.seal_recipient_key fresh_key (Upload.master_key j) r transfer = Ok sealed →
  Inbox.record st = Some saved → Inbox.state saved = "staged-locked"%string →
  let m := Inbox.metadata saved in
  Opening.describes (transfer_of m) j transfer → Inbox.encrypted_manifest m = envelope →
  Inbox.encrypted_key (Inbox.recipient_key m) = sealed →
  Inbox.user_id (Inbox.bundle (Inbox.recipient_key m)) = Account.r_id r →
  Inbox.bundle_id (Inbox.bundle (Inbox.recipient_key m)) = Account.account_key_bundle_id r →
  (∀ n i, Upload.items j !! n = Some i → zlen (file n) = Upload.item_bytes i ∧
     sha256_hex (file n) = Upload.item_digest i ∧
     ∀ k, 0 ≤ k < Upload.item_chunk_count i →
       ∃ c, Inbox.nodes st !! Inbox.artifact_name n k = Some (Inbox.Regular c) ∧ sent_chunk j transfer i (file n) k c) →
  (∀ i, i ∈ Upload.items j → outputs s !! Fs.join out (Selection.safe_filename (Upload.item_name i)) = None) →
  ∃ s', export (Me := Receiver) st secret out s
          = (s', Ok ((λ i, Fs.join out (Selection.safe_filename (Upload.item_name i))) <$> Upload.items j)) ∧
    (∀ n i, Upload.items j !! n = Some i →
       outputs s' !! Fs.join out (Selection.safe_filename (Upload.item_name i)) = Some (file n)) ∧
    ∀ p, (∀ i, i ∈ Upload.items j → Fs.join out (Selection.safe_filename (Upload.item_name i)) ≠ p) →
      outputs s' !! p = outputs s !! p.
Proof.
  intros Hio Hcan Hrace Hwaits Hroom Hl Hu Hpk Hfresh Hmk Hj Hsalt Ht He Hs Hst Hlocked m Hdesc Henv Hkey Huser Hb Hfiles Hfree.
  assert (Hopen : delivery_key secret m = Ok (Upload.master_key j)).
  { pose (b := {| Account.bundle_id := Inbox.bundle_id (Inbox.bundle (Inbox.recipient_key m));
                  Account.user_id := Inbox.user_id (Inbox.bundle (Inbox.recipient_key m));
                  Account.version := 1; Account.public_key := ""; Account.fingerprint := "";
                  Account.custody_mode := ""; Account.encrypted_private_key := None; Account.is_active := true |}).
    pose proof (Account.recipient_key_opens secret Hl Hu fresh_key _ r transfer sealed b Hmk Hpk Huser Hb Hs) as Ho.
    unfold delivery_key. rewrite Hkey. replace (Inbox.id m) with transfer by (symmetry; apply (Opening.t_same_id _ _ _ Hdesc)).
    exact Ho. }
  pose proof (Opening.s_chunk _ Hj) as Hchunk.
  destruct (Opening.encrypted_manifest_Ok Sender _ _ _ He Hj) as (tr & note & Htr & Hnote & Hseal).
  rewrite Ht in Htr. injection Htr as <-.
  destruct (Opening.open_sealed Sender Receiver Hwaits _ _ _ _ _ _ Hseal (holds_delivery_envelope _ _ _ Hchunk Hroom)
              (to_vec_u8 _) Hfresh) as (Hplain & env & Hread & Hv & Hns).
  pose proof (Opening.sendable_sized _ Hj) as Hz.
  set (manifest := Opening.sent_manifest note (Opening.token_of j) (Upload.items j)).
  assert (Hman : manifest_of_delivery (Me := Receiver) (Upload.master_key j) m = Ok manifest).
  { unfold manifest_of_delivery. rewrite Henv, Hread. cbn [mbind result_bind]. rewrite Hv, Hns, Hsalt. cbn.
    unfold Opening.manifest_for. replace (Inbox.id m) with transfer by (symmetry; apply (Opening.t_same_id _ _ _ Hdesc)).
    rewrite Hplain. cbn [mbind result_bind].
    rewrite from_slice_to_vec by by apply Opening.manifest_json_printable. cbn [mbind option_bind].
    rewrite Opening.manifest_json_reads by done. cbn [ok_or mbind result_bind].
    destruct (Opening.sent_manifest_valid _ j transfer note Hj Hdesc) as (_ & _ & Hval & _).
    { intros n. by apply (Opening.open_attached_note_valid j). }
    by rewrite Hval. }
  assert (Hpermit : manifest_permit m = Ok (4 * len (Sealing.env_ciphertext env))).
  { unfold manifest_permit. rewrite Henv, Hread. cbn [mbind result_bind].
    unfold Opening.open_envelope in Hplain. rewrite Hread in Hplain. cbn [mbind result_bind] in Hplain.
    destruct (Sealing.manifest_crypto_bytes _) as [b|] eqn:Eb; [|done]. unfold Sealing.manifest_crypto_bytes in Eb.
    destruct (checked_mul _ _) as [b'|] eqn:Em; [|done]. injection Eb as ->. apply checked_mul_Some in Em as [-> _]. f_equal. lia. }
  assert (Hcb : Inbox.chunk_bytes m = Upload.chunk_bytes j) by apply (Opening.t_chunk _ _ _ Hdesc).
  destruct (export_staged_works (Me := Receiver) Hio Hcan Hrace Hwaits (Upload.master_key j) st transfer
              (Upload.chunk_bytes j) out ltac:(lia) (4 * len (Sealing.env_ciphertext env)) ltac:(unfold len; lia)
              ltac:(by apply Hroom) file m manifest (tick s)) as (s' & Hr & Hin & Hother);
    [done|done|apply (Opening.t_same_id _ _ _ Hdesc)|done| | | |].
  - intros n i Hi. cbn in Hi. rewrite list_lookup_fmap in Hi. destruct (Upload.items j !! n) as [u|] eqn:Eu; [|done].
    injection Hi as <-. destruct (Hfiles n u Eu) as (Hlen & Hsha & Hchunks).
    pose proof (Opening.s_each _ Hj) as Heach. rewrite Forall_forall in Heach.
    destruct (Heach u) as (_ & _ & _ & Hmax & Hcount & _); [by eapply list_elem_of_lookup_2|].
    split; [done|cbn in *; lia|done|cbn; by rewrite Hlen|]. intros k Hk.
    destruct (Hchunks k Hk) as (c & Hc & key & prefix & H1 & H2 & H3). by exists c, key, prefix.
  - cbn. rewrite <- list_fmap_compose. apply (Opening.s_names _ Hj).
  - intros i Hi. cbn in Hi. apply list_elem_of_fmap in Hi as (u & -> & Hu'). by apply Hfree.
  - exists s'. unfold export. rewrite (bind_Ok _ _ _ (tick s) ()) by (unfold disk; by rewrite Hio).
    rewrite (bind_Ok _ _ _ (tick s) saved) by (unfold of_result; by rewrite Hst).
    rewrite Hlocked, String.eqb_refl. cbn [negb]. fold m.
    rewrite (bind_Ok _ _ _ (tick s) (Upload.master_key j)) by (unfold of_result; by rewrite Hopen).
    rewrite Hr. cbn [manifest Opening.sent_manifest Manifest.items]. rewrite <- list_fmap_compose. split_and!; [done| |].
    + intros n u Hu'. apply (Hin n (Opening.sent_item u)). cbn. by rewrite list_lookup_fmap, Hu'.
    + intros p Hp'. rewrite Hother; [done|]. intros i Hi. cbn in Hi. apply list_elem_of_fmap in Hi as (u & -> & Hu').
      by apply Hp'.
Qed.
End delivered.

(** ** A delivery of two files *)

Module Example_export.
Import Example_crypto Example_json Opening.Example_opening Account.Example_account.

#[export] Instance calm : World :=
  {| io_fault _ := None; cancel_flag _ := false; report_status _ := None; raced _ := None |}.

Definition file (n : nat) : list Z := if Nat.eqb n 0 then [1; 2; 3; 4; 5] else [6; 7].
Definition upload_item (names : nat → string) (n : nat) : Upload.Item :=
  {| Upload.item_id := if Nat.eqb n 0 then ulid1 else ulid2; Upload.item_position := Z.of_nat n;
     Upload.item_name := names n; Upload.source := src; Upload.nonce_prefix := prefix22;
     Upload.item_digest := sha256_hex (file n); Upload.item_bytes := zlen (file n);
     Upload.item_chunk_count := Z.max 1 (div_ceil (zlen (file n)) 3) |}.
Definition sending (names : nat → string) : Upload.UploadJob :=
  {| Upload.sealed_attached_note := None; Upload.version := 1; Upload.id := "job";
     Upload.direction := "upload"; Upload.state := "sending"; Upload.instance := "https://x";
     Upload.done_bytes := 0; Upload.total := 7; Upload.transfer_id := Some ulid1;
     Upload.upload_token := Some "u"; Upload.monitor_token := None; Upload.share_url := None;
     Upload.delete_token := None; Upload.share_key := key32; Upload.password_salt := None;
     Upload.master_key := key32; Upload.chunk_bytes := 3;
     Upload.server_concurrency := 1; Upload.upload_status := false; Upload.turbo := false;
     Upload.descriptor_published := false; Upload.encrypted_descriptor := None;
     Upload.transport := None; Upload.driver := "http"; Upload.join_token := None;
     Upload.exact_manifest := None; Upload.receipt_url := None; Upload.recipient := None;
     Upload.items := [upload_item names 0; upload_item names 1]; Upload.chunks := [] |}.

Definition text_of (r : result string string) : string := match r with Ok t => t | Err _ => "" end.
Definition envelope_of (names : nat → string) : string :=
  text_of (Sealing.encrypted_manifest (Ok prefix16) (sending names)).
Definition sealed_key : string := text_of (Account.seal_recipient_key [] key32 alice ulid1).

Definition delivery_of (names : nat → string) : Inbox.Metadata :=
  {| Inbox.id := ulid1; Inbox.driver := "http"; Inbox.protocol_version := 1; Inbox.chunk_bytes := 3;
     Inbox.ciphertext_bytes := 55; Inbox.expires_at := "2030-01-01T00:00:00Z";
     Inbox.encrypted_manifest := envelope_of names;
     Inbox.recipient_key := {| Inbox.bundle := {| Inbox.bundle_id := 5; Inbox.user_id := 23;
                                                  Inbox.public_key := encode key32 |};
                               Inbox.encrypted_key := sealed_key |};
     Inbox.items := [{| Inbox.item_id := ulid1; Inbox.position := 0; Inbox.chunk_count := 2;
                        Inbox.item_ciphertext_bytes := 37 |};
                     {| Inbox.item_id := ulid2; Inbox.position := 1; Inbox.chunk_count := 1;
                        Inbox.item_ciphertext_bytes := 18 |}] |}.
Definition record_of (names : nat → string) (state : string) : Inbox.Staging :=
  {| Inbox.version := 1; Inbox.instance := "https://x"; Inbox.account_id := 23;
     Inbox.metadata := delivery_of names; Inbox.state := state; Inbox.next_item := 2; Inbox.next_chunk := 0 |}.
Definition staged_store (names : nat → string) (spoil : bool) : Inbox.Store :=
  {| Inbox.folder := "/inbox"; Inbox.record := Some (record_of names "staged-locked");
     Inbox.nodes := {[ "inbox-cipher-0-0" := Inbox.Regular ([1; 2; 3] ++ tag);
                       "inbox-cipher-0-1" := Inbox.Regular ([4; 5] ++ tag);
                       "inbox-cipher-1-0" := Inbox.Regular ([if spoil then 8 else 6; 7] ++ (if spoil then [] else tag)) ]} |}.

Definition names (n : nat) : string := if Nat.eqb n 0 then "a.txt" else "b.txt".
Definition out : Fs.path := ["saved"; "/"].
Definition before (present : gmap Fs.path (list Z)) : State :=
  {| job := export_job (delivery_of names) out; checkpoint := export_job (delivery_of names) out;
     ciphers := ∅; background := ∅; plains := {[ 0%nat := [9; 9] ]}; outputs := present;
     receiving := progress_new 0 [];
     progress := Control.progress_default; clock := 0 |}.
Definition at_names (l : list string) (r : State * result string (list Fs.path))
    : list (option (list Z)) * result string (list Fs.path) :=
  ((λ n, outputs (fst r) !! Fs.join out n) <$> l, snd r).

(** Saved twice: the second time beside the first. *)
Example saves_files :
  at_names ["a.txt"; "b.txt"] (export (staged_store names false) key32 out (before ∅))
    = ([Some (file 0); Some (file 1)], Ok [Fs.join out "a.txt"; Fs.join out "b.txt"]) ∧
  at_names ["a.txt"; "a.txt (1)"]
      (export (staged_store names false) key32 out (before {[ Fs.join out "a.txt" := [0] ]}))
    = ([Some [0]; Some (file 0)], Ok [Fs.join out "a.txt (1)"; Fs.join out "b.txt"]).
Proof. vm_compute. split; reflexivity. Qed.

(** A chunk that is not the sender's keeps every file of the delivery back, those
    rebuilt before it too. *)
Example spoiled_publishes_nothing :
  at_names ["a.txt"; "b.txt"] (export (staged_store names true) key32 out (before ∅))
    = ([None; None], Err "could not authenticate downloaded chunk").
Proof. vm_compute. reflexivity. Qed.

(** Free targets are looked for before any file is published, each without regard
    to the others: with a.txt there, the files a.txt and a.txt (1) of a delivery get
    the same target, and the second is refused after the first was published. *)
Definition clashing (n : nat) : string := if Nat.eqb n 0 then "a.txt" else "a.txt (1)".
Example clash_saves_a_part :
  at_names ["a.txt (1)"; "a.txt (1) (1)"]
      (export (staged_store clashing false) key32 out (before {[ Fs.join out "a.txt" := [0] ]}))
    = ([Some (file 0); None], Err "download target already exists").
Proof. vm_compute. reflexivity. Qed.

Lemma export_verifies_first_witness :
  let s' := fst (export (staged_store names false) key32 out (before ∅)) in
  ∃ content, plains s' !! 0%nat = Some content ∧ zlen content = 5.
Proof.
  destruct (export_verifies_first (staged_store names false) key32 out (before ∅) _ _ (surjective_pairing _))
    as [_ Hv].
  destruct Hv as (saved & key & manifest & Hs & _ & Hk & Hm & Hw & _); [right; vm_compute; reflexivity|].
  injection Hs as <-. vm_compute in Hk. injection Hk as <-.
  assert (Hi : (λ m, Manifest.size <$> Manifest.items m !! 0%nat) <$> manifest_of_delivery key32 (delivery_of names)
                 = Ok (Some 5)) by by vm_compute.
  change (manifest_of_delivery key32 (delivery_of names) = Ok manifest) in Hm. rewrite Hm in Hi. cbn [fmap result_map] in Hi.
  destruct (Manifest.items manifest !! 0%nat) as [i|] eqn:Ei; [|discriminate Hi].
  destruct (Hw _ _ Ei) as (content & Hp' & Hz & _). exists content. split; [exact Hp'|]. rewrite Hz. by injection Hi.
Defined.

Lemma sending_sendable : Opening.sendable (sending names).
Proof.
  split; try by (apply (bool_decide_unpack _); vm_compute).
  - done.
Qed.

Lemma delivery_saves_witness :
  ∃ s', export (staged_store names false) key32 out (before ∅) = (s', Ok [Fs.join out "a.txt"; Fs.join out "b.txt"]) ∧
    outputs s' !! Fs.join out "a.txt" = Some [1; 2; 3; 4; 5].
Proof.
  destruct (delivery_saves memory memory key32 (sending names) (Ok prefix16) (envelope_of names) [] alice ulid1
    sealed_key (staged_store names false) (record_of names "staged-locked") out (before ∅) file)
    as (s' & Hr & Hin & _);
    try lazymatch goal with |- @eq _ _ _ => vm_compute; reflexivity end.
  - reflexivity.
  - reflexivity.
  - reflexivity.
  - exact memory_waits.
  - apply holds_delivery_check. vm_compute. reflexivity.
  - by repeat constructor.
  - intros prefix [= <-]. by repeat constructor.
  - by repeat constructor.
  - apply sending_sendable.
  - by split.
  - intros [|[|n]] i Hi; [| |discriminate Hi]; injection Hi as <-;
      (split; [by vm_compute|]); (split; [by vm_compute|]); intros k Hk.
    + change (0 ≤ k < 2) in Hk. assert (k = 0 ∨ k = 1) as [->| ->] by lia; eexists; (split; [reflexivity|]); do 2 eexists; by vm_compute.
    + change (0 ≤ k < 1) in Hk. assert (k = 0) as -> by lia. eexists; (split; [reflexivity|]); do 2 eexists; by vm_compute.
  - intros i _. apply lookup_empty.
  - exists s'. split; [exact Hr|]. exact (Hin 0%nat _ eq_refl).
Defined.
End Example_export.
