(* ===== verification/Shares.v ===== *)
(** * A transfer that was sent (crates/transfer-native/src/protocol/upload.rs, activity.rs, revocation.rs, live.rs)

    What a sender does with a reserved transfer after its chunks: completing it
    with the sealed manifest, watching its receivers, ending a live share, and
    revoking it.  The saved job is [Upload]'s. *)

From Stdlib Require Import Ascii String.
From S2P Require Import Prelude Str Codec Frame Json F64 Transport Monad Upload.
Open Scope Z_scope.

(** The job's directory: listed under the job's name, renamed to a hidden name
    that is not listed, or gone. *)
Inductive Place := Listed | Discarded | Gone.

Inductive Request :=
| Delete (transfer token : string)
| End (transfer token : string).

Record Share := { record : option UploadJob; place : Place; asked : list Request }.

Definition with_record (j : UploadJob) (s : Share) : Share :=
  {| record := Some j; place := place s; asked := asked s |}.
Definition with_place (p : Place) (s : Share) : Share :=
  {| record := record s; place := p; asked := asked s |}.
Definition ask (q : Request) (s : Share) : Share :=
  {| record := record s; place := place s; asked := asked s ++ [q] |}.

(** ** Revoking and ending *)

Record Outside := {
  opened : result string ();              (** opening the store and reading its record *)
  built : result string ();               (** building the HTTP client *)
  answer : result string Z;               (** the status of the server's answer *)
  renaming : Io;
  removing : Io;
  saving : Io }.

Section shares.
Context `{Codec}.

Notation S := (SE Share string).

Definition load (e : Outside) : S UploadJob :=
  _ ← of_result (opened e);
  j ← get record;
  of_result (ok_or j "saved upload checkpoint is empty").

Definition write (io : Io) (f : Share → Share) : S () := λ s,
  let '(r, s') := io_write io f s in (s', r).

Definition send (e : Outside) (q : Request) : S Z :=
  _ ← of_result (built e);
  _ ← modify (ask q);
  of_result (answer e).

(** [revocation::run] and [upload::revoke] *)
Definition revoke (e : Outside) : S () :=
  j ← load e;
  _ ← of_result (validate_job j);
  transfer ← of_result (ok_or (transfer_id j) "upload was not reserved yet");
  token ← of_result (ok_or (delete_token j) "delete token is unavailable");
  status ← send e (Delete transfer token);
  if negb (status =? 202) then fail "could not revoke transfer" else
  _ ← write (renaming e) (with_place Discarded);
  write (removing e) (with_place Gone).

(** [live::run] and [upload::end_live] *)
Definition end_live (e : Outside) : S () :=
  j ← load e;
  _ ← of_result (validate_job j);
  if negb (driver j =? "webrtc")%string then fail "saved transfer is not a live share" else
  transfer ← of_result (ok_or (transfer_id j) "upload was not reserved yet");
  token ← of_result (ok_or (upload_token j) "upload token is unavailable");
  _ ← of_result (built e);
  if is_empty (instance j) || is_empty transfer then fail "invalid WebRTC signaling target" else
  status ← send e (End transfer token);
  if negb (status =? 204) then fail "could not end live transfer" else
  write (saving e) (with_record (set_state "ended" j)).
End shares.

(** ** Completing a transfer *)

(** What the [k]-th request is answered, and whether the wait after it goes on. *)
Record Reply := { status : Z; retry_after : option Z }.
Record Turns := { replies : nat → result string Reply; waits : nat → result string () }.

(** Requests sent, and the delays waited for. *)
Record Sent := { requests : Z; delays : list Z }.

Notation C := (SE Sent string).

Definition count_request (s : Sent) : Sent := {| requests := requests s + 1; delays := delays s |}.
Definition wait (t : Turns) (k : nat) (delay : Z) : C () := λ s,
  ({| requests := requests s; delays := delays s ++ [delay] |}, waits t k).

(** [complete_transfer]; [fuel] is what is left of its five attempts. *)
Fixpoint complete_from (t : Turns) (fuel attempt : nat) : C () :=
  match fuel with
  | O => fail "could not complete transfer"
  | S fuel =>
      _ ← modify count_request;
      match replies t attempt with
      | Ok r =>
          if (200 <=? status r) && (status r <=? 299) then mret ()
          else if retryable_status (status r) false then
            _ ← wait t attempt (retry_delay_ms (Z.of_nat attempt) (retry_after r) (Z.of_nat attempt * 41));
            complete_from t fuel (S attempt)
          else fail "could not complete transfer"
      | Err _ =>
          if (Z.of_nat attempt <? 4) then
            _ ← wait t attempt (retry_delay_ms (Z.of_nat attempt) None (Z.of_nat attempt * 41));
            complete_from t fuel (S attempt)
          else fail "could not complete transfer"
      end
  end.
Definition complete_transfer (t : Turns) : C () := complete_from t 5 0.

(** ** Activity *)

Record UploadActivity := {
  a_instance : string; a_transfer_id : string; a_upload_token : string;
  a_monitor_token : option string; a_driver : string; a_turbo : bool }.

Record SenderActivityRecord := {
  rec_id : string;
  number : option Z;
  progress : option f64;
  rec_state : string;
  selection_count : option Z;
  all_files : option bool }.

Record SenderActivity := { records : list SenderActivityRecord; unavailable : bool; retry : bool }.

Record MonitorSession := {
  m_id : string; m_number : Z; m_progress : f64; m_status : string; m_selection_count : Z; m_all_files : bool }.
(** A session the signaling service lists; its offer is not read here. *)
Record SenderSession := { s_id : string; s_status : string; s_progress : Z }.

(** The text of a number that is no integer. *)
Class Floats := read_float : string → option f64.

Section activity.
Context `{JsonText, Floats}.

Definition SESSION_LIMIT : Z := 64.

(** [upload::activity] *)
Definition activity (j : UploadJob) : result string (option UploadActivity) :=
  reject negb (direction j =? "upload")%string with "saved transfer is not an upload";
  match transfer_id j, upload_token j with
  | Some transfer, Some token =>
      Ok (Some {| a_instance := instance j; a_transfer_id := transfer; a_upload_token := token;
                  a_monitor_token := monitor_token j; a_driver := driver j; a_turbo := turbo j |})
  | _, _ => Ok None
  end.

Definition empty_activity : SenderActivity := {| records := []; unavailable := false; retry := false |}.
Definition retry_later : SenderActivity := {| records := []; unavailable := true; retry := true |}.
Definition gone : SenderActivity := {| records := []; unavailable := true; retry := false |}.
Definition shown (l : list SenderActivityRecord) : SenderActivity :=
  {| records := l; unavailable := false; retry := false |}.

Definition live_states : list string := ["active"; "completed"; "cancelled"; "failed"].
Definition turbo_states : list string :=
  ["downloading"; "waiting"; "verifying"; "completed"; "cancelled"; "error"; "stale"].

Definition live_record (s : SenderSession) : SenderActivityRecord :=
  {| rec_id := s_id s; number := None; progress := Some (f64_of_Z (s_progress s)); rec_state := s_status s;
     selection_count := None; all_files := None |}.

(** [webrtc]: the sessions the signaling service lists. *)
Definition webrtc (a : UploadActivity) (sessions : result string (list SenderSession))
    : result string SenderActivity :=
  reject is_empty (a_instance a) || is_empty (a_transfer_id a) with "invalid WebRTC signaling target";
  match sessions with
  | Ok l =>
      if SESSION_LIMIT <? zlen l then Ok retry_later
      else if existsb (λ s, negb (bool_decide (s_status s ∈ live_states))) l then Ok retry_later
      else Ok (shown (live_record <$> l))
  | Err _ => Ok retry_later
  end.

Definition as_f64 (v : json) : option f64 :=
  match v with JNum n => Some (f64_of_Z n) | JFloat t => read_float t | _ => None end.
Definition monitor_session_of (v : json) : option MonitorSession :=
  id ← str_field "id" v; n ← u64_field "number" v; p ← field "progress" v ≫= as_f64;
  st ← str_field "status" v; c ← u64_field "selection_count" v; al ← bool_field "all_files" v;
  Some {| m_id := id; m_number := n; m_progress := p; m_status := st; m_selection_count := c;
          m_all_files := al |}.
Definition monitor_page_of (v : json) : option (list MonitorSession) :=
  data ← field "data" v; vec_field monitor_session_of "sessions" data.

Definition bad_session (s : MonitorSession) : bool :=
  negb (f64_is_finite (m_progress s))
  || negb (f64_le (f64_of_Z 0) (m_progress s) && f64_le (m_progress s) (f64_of_Z 100))
  || negb (bool_decide (m_status s ∈ turbo_states)).

Definition turbo_record (s : MonitorSession) : SenderActivityRecord :=
  {| rec_id := m_id s; number := Some (m_number s); progress := Some (m_progress s); rec_state := m_status s;
     selection_count := Some (m_selection_count s); all_files := Some (m_all_files s) |}.

(** [turbo]: the monitor's status and the body read within its limit. *)
Definition turbo_activity (a : UploadActivity) (response : result string (Z * result string (list Z)))
    : SenderActivity :=
  match a_monitor_token a with
  | None => gone
  | Some _ =>
      match response with
      | Err _ => retry_later
      | Ok (code, body) =>
          if (code =? 403) || (code =? 404) then gone
          else if negb ((200 <=? code) && (code <=? 299)) then retry_later
          else
            match body with
            | Err _ => retry_later
            | Ok body =>
                match from_slice body ≫= monitor_page_of with
                | None => retry_later
                | Some l =>
                    if (SESSION_LIMIT <? zlen l) || existsb bad_session l then retry_later
                    else shown (turbo_record <$> l)
                end
            end
      end
  end.

(** [sender_activity_with_secret_store], the record having been read; building a
    client is the only other call that can fail. *)
Definition sender_activity (job : option UploadJob) (client : result string ())
    (sessions : result string (list SenderSession)) (response : result string (Z * result string (list Z)))
    : result string SenderActivity :=
  a ← match job with Some j => activity j | None => Ok None end;
  match a with
  | None => Ok empty_activity
  | Some a =>
      if (a_driver a =? "webrtc")%string then _ ← client; webrtc a sessions
      else if (a_driver a =? "http")%string && a_turbo a then
        match a_monitor_token a with
        | None => Ok gone
        | Some _ => _ ← client; Ok (turbo_activity a response)
        end
      else Ok empty_activity
  end.
End activity.

(** ** What they promise *)

Section promises.
Context `{Codec}.

(** A revocation removes what it revoked. Whatever fails, the saved job leaves the
    list only after the server accepted, with 202, the deletion of the job's own
    transfer under its own delete token; until then the job is as it was and can be
    revoked again; and once the call returns, its directory is gone. *)
Theorem revoke_removes_revoked e s s' r :
  revoke e s = (s', r) → place s = Listed →
  record s' = record s ∧
  (place s' ≠ Listed → ∃ j transfer token, record s = Some j ∧ validate_job j = Ok () ∧
     transfer_id j = Some transfer ∧ delete_token j = Some token ∧
     asked s' = asked s ++ [Delete transfer token] ∧ answer e = Ok 202) ∧
  (r = Ok () → place s' = Gone).
Proof.
  unfold revoke, load. intros Hr Hp.
  apply bind_run in Hr as [(x & Hl & ->)|(s1 & j & Hl & Hr)];
    apply bind_run in Hl as [(x' & [-> _]%of_result_run & Hx)|(s2 & [] & [-> _]%of_result_run & Hl)];
    try discriminate Hx; [done| |].
  { apply bind_run in Hl as [(x' & [=] & _)|(s2 & o & [= <- <-] & [-> _]%of_result_run)]. done. }
  apply bind_run in Hl as [(x' & [=] & _)|(s2 & o & [= <- <-] & [-> Hj]%of_result_run)].
  apply bind_run in Hr as [(x & [-> _]%of_result_run & ->)|(s1 & [] & [-> Hv]%of_result_run & Hr)]; [done|].
  apply bind_run in Hr as [(x & [-> _]%of_result_run & ->)|(s1 & t & [-> Ht]%of_result_run & Hr)]; [done|].
  apply bind_run in Hr as [(x & [-> _]%of_result_run & ->)|(s1 & tok & [-> Htok]%of_result_run & Hr)]; [done|].
  apply ok_or_Ok in Hj, Ht, Htok.
  apply bind_run in Hr as [(x & Hs & ->)|(s1 & status & Hs & Hr)]; unfold send in Hs;
    apply bind_run in Hs as [(x' & [-> _]%of_result_run & Hx)|(s2 & [] & [-> _]%of_result_run & Hs)];
    try discriminate Hx; [done| |];
    apply bind_run in Hs as [(x' & [=] & _)|(s2 & [] & [= <-] & [-> Ha]%of_result_run)]; [done|].
  case_match eqn:E202; [injection Hr as <- <-; done|]. apply negb_false_iff, Z.eqb_eq in E202. subst status.
  assert (Hdone : ∃ j transfer token, record s = Some j ∧ validate_job j = Ok () ∧ transfer_id j = Some transfer ∧
            delete_token j = Some token ∧ asked (ask (Delete t tok) s) = asked s ++ [Delete transfer token] ∧
            answer e = Ok 202) by by exists j, t, tok.
  assert (Hw : ∀ io q s1 s2 x, write io (with_place q) s1 = (s2, x) →
    record s2 = record s1 ∧ asked s2 = asked s1 ∧ (place s2 = place s1 ∨ place s2 = q) ∧ (x = Ok () → place s2 = q)).
  { intros io q s1 s2 x. unfold write. destruct io; cbn; intros [= <- <-]; cbn; naive_solver. }
  apply bind_run in Hr as [(x & H1 & ->)|(s1 & [] & H1 & Hr)]; apply Hw in H1 as (R1 & A1 & P1 & Q1).
  - rewrite R1, A1. done.
  - apply Hw in Hr as (R2 & A2 & P2 & Q2). rewrite R2, A2, R1, A1. done.
Qed.

Lemma ended_valid j :
  validate_job j = Ok () → state j ≠ "complete"%string → validate_job (set_state "ended" j) = Ok ().
Proof.
  unfold validate_job. intros Hv Hc.
  destruct (bad_header j) eqn:Hh; [done|]. destruct (bad_secrets j) eqn:Hs; [done|].
  assert (Hh' : bad_header (set_state "ended" j) = false).
  { unfold bad_header in *. cbn -[wrapping_sum]. rewrite !orb_false_iff in *. destruct_and!. split_and!; try done. }
  assert (Hs' : bad_secrets (set_state "ended" j) = false).
  { unfold bad_secrets in *. apply orb_false_iff in Hs as [Hs1 Hs]. apply orb_false_iff. split; [exact Hs1|].
    destruct (String.eqb_spec (state j) "complete"); [done|exact Hs]. }
  by rewrite Hh', Hs'.
Qed.

(** Ending a live share keeps it recoverable. The saved job changes only after the
    server confirmed, with 204, the end of this transfer, and then only into one
    that is ended and that a later start still accepts. *)
Theorem end_live_recoverable e s s' r :
  end_live e s = (s', r) →
  place s' = place s ∧
  (record s' ≠ record s ∨ r = Ok () → ∃ j transfer token, record s = Some j ∧ driver j = "webrtc"%string ∧
     transfer_id j = Some transfer ∧ upload_token j = Some token ∧
     asked s' = asked s ++ [End transfer token] ∧ answer e = Ok 204 ∧
     record s' = Some (set_state "ended" j) ∧
     (state j ≠ "complete"%string → validate_job (set_state "ended" j) = Ok ())).
Proof.
  unfold end_live, load. intros Hr.
  assert (Hsame : ∀ s1 err, record s1 = record s → place s1 = place s → place s1 = place s ∧
    (record s1 ≠ record s ∨ (Err err : result string ()) = Ok () → ∃ j transfer token, record s = Some j ∧
       driver j = "webrtc"%string ∧ transfer_id j = Some transfer ∧ upload_token j = Some token ∧
       asked s1 = asked s ++ [End transfer token] ∧ answer e = Ok 204 ∧ record s1 = Some (set_state "ended" j) ∧
       (state j ≠ "complete"%string → validate_job (set_state "ended" j) = Ok ()))).
  { intros s1 err H1 H2. split; [done|]. by intros [|]. }
  apply bind_run in Hr as [(x & Hl & ->)|(s1 & j & Hl & Hr)];
    apply bind_run in Hl as [(x' & [-> _]%of_result_run & Hx)|(s2 & [] & [-> _]%of_result_run & Hl)];
    try discriminate Hx; [by apply Hsame| |].
  { apply bind_run in Hl as [(x' & [=] & _)|(s2 & o & [= <- <-] & [-> _]%of_result_run)]. by apply Hsame. }
  apply bind_run in Hl as [(x' & [=] & _)|(s2 & o & [= <- <-] & [-> Hj]%of_result_run)].
  apply bind_run in Hr as [(x & [-> _]%of_result_run & ->)|(s1 & [] & [-> Hv]%of_result_run & Hr)]; [by apply Hsame|].
  case_match eqn:Hd; [injection Hr as <- <-; by apply Hsame|]. apply negb_false_iff, String.eqb_eq in Hd.
  apply bind_run in Hr as [(x & [-> _]%of_result_run & ->)|(s1 & t & [-> Ht]%of_result_run & Hr)]; [by apply Hsame|].
  apply bind_run in Hr as [(x & [-> _]%of_result_run & ->)|(s1 & tok & [-> Htok]%of_result_run & Hr)]; [by apply Hsame|].
  apply bind_run in Hr as [(x & [-> _]%of_result_run & ->)|(s1 & [] & [-> _]%of_result_run & Hr)]; [by apply Hsame|].
  apply ok_or_Ok in Hj, Ht, Htok. case_match; [injection Hr as <- <-; by apply Hsame|].
  apply bind_run in Hr as [(x & Hs & ->)|(s1 & status & Hs & Hr)]; unfold send in Hs;
    apply bind_run in Hs as [(x' & [-> _]%of_result_run & Hx)|(s2 & [] & [-> _]%of_result_run & Hs)];
    try discriminate Hx; [by apply Hsame| |];
    apply bind_run in Hs as [(x' & [=] & _)|(s2 & [] & [= <-] & [-> Ha]%of_result_run)]; [by apply Hsame|].
  case_match eqn:E204; [injection Hr as <- <-; by apply Hsame|]. apply negb_false_iff, Z.eqb_eq in E204. subst status.
  pose proof (ended_valid j Hv) as Hend. unfold write in Hr.
  destruct (saving e); cbn in Hr; injection Hr as <- <-; cbn.
  - split; [done|]. intros _. by exists j, t, tok.
  - by apply (Hsame (ask (End t tok) s)).
  - split; [done|]. intros _. by exists j, t, tok.
Qed.
End promises.

(** Whether the loop asks again after the [k]-th answer. *)
Definition goes_on (t : Turns) (k : nat) : Prop :=
  waits t k = Ok () ∧
  match replies t k with
  | Ok r => (200 <=? status r) && (status r <=? 299) = false ∧ retryable_status (status r) false = true
  | Err _ => Z.of_nat k < 4
  end.
Definition succeeds (t : Turns) (k : nat) : Prop :=
  ∃ r, replies t k = Ok r ∧ (200 <=? status r) && (status r <=? 299) = true.

Lemma retry_delay_bound a o j : retry_delay_ms a o j ≤ MAX_RETRY_DELAY_MS.
Proof. unfold retry_delay_ms. destruct o; lia. Qed.

Lemma wait_run t k d s s' r : wait t k d s = (s', r) → requests s' = requests s ∧ delays s' = delays s ++ [d] ∧ r = waits t k.
Proof. by intros [= <- <-]. Qed.

Lemma first_success t fuel attempt (P : Prop) :
  (P ↔ succeeds t attempt ∨ (goes_on t attempt ∧ ¬ succeeds t attempt ∧
         ∃ n, (n < fuel)%nat ∧ succeeds t (S attempt + n) ∧ ∀ m, (m < n)%nat → goes_on t (S attempt + m))) →
  (P ↔ ∃ n, (n < S fuel)%nat ∧ succeeds t (attempt + n) ∧ ∀ m, (m < n)%nat → goes_on t (attempt + m)).
Proof.
  intros ->. split.
  - intros [Hs|(Hg & _ & n & Hn & Hs & Hm)].
    + exists 0%nat. rewrite Nat.add_0_r. split_and!; [lia|done|lia].
    + exists (S n). rewrite <- Nat.add_succ_comm. split_and!; [lia|done|]. intros [|m] Hlt.
      * by rewrite Nat.add_0_r.
      * rewrite <- Nat.add_succ_comm. apply Hm. lia.
  - intros ([|n] & Hn & Hs & Hm); [left; by rewrite Nat.add_0_r in Hs|]. right.
    assert (Hg : goes_on t attempt) by (rewrite <- (Nat.add_0_r attempt); apply Hm; lia).
    split; [done|]. split.
    + intros (r & Hr & Ho). destruct Hg as [_ Hg]. rewrite Hr in Hg. destruct Hg as [Hg _]. congruence.
    + exists n. split_and!; [lia|by rewrite Nat.add_succ_comm|]. intros m Hlt. rewrite Nat.add_succ_comm. apply Hm. lia.
Qed.

Lemma complete_from_run t fuel attempt s s' r :
  complete_from t fuel attempt s = (s', r) →
  requests s ≤ requests s' ≤ requests s + Z.of_nat fuel ∧
  (∃ l, delays s' = delays s ++ l ∧ Forall (λ d, d ≤ MAX_RETRY_DELAY_MS) l) ∧
  (r = Ok () ↔ ∃ n, (n < fuel)%nat ∧ succeeds t (attempt + n) ∧ ∀ m, (m < n)%nat → goes_on t (attempt + m)).
Proof.
  revert attempt s. induction fuel as [|fuel IH]; intros attempt s Hr; cbn [complete_from] in Hr.
  { injection Hr as <- <-. split; [lia|]. split; [exists []; by rewrite app_nil_r|].
    split; [done|]. intros (n & Hn & _). lia. }
  apply bind_run in Hr as [(x & [=] & _)|(s1 & [] & [= <-] & Hr)].
  assert (Hnone : ∃ l, delays s = delays s ++ l ∧ Forall (λ d, d ≤ MAX_RETRY_DELAY_MS) l) by (exists []; by rewrite app_nil_r).
  assert (Hagain : ∀ d, d ≤ MAX_RETRY_DELAY_MS → (waits t attempt = Ok () → goes_on t attempt) → ¬ succeeds t attempt →
    (_ ← wait t attempt d; complete_from t fuel (S attempt)) (count_request s) = (s', r) →
    requests s ≤ requests s' ≤ requests s + Z.of_nat (S fuel) ∧
    (∃ l, delays s' = delays s ++ l ∧ Forall (λ d, d ≤ MAX_RETRY_DELAY_MS) l) ∧
    (r = Ok () ↔ ∃ n, (n < S fuel)%nat ∧ succeeds t (attempt + n) ∧ ∀ m, (m < n)%nat → goes_on t (attempt + m))).
  { intros d Hd Hg Hns Hrun. apply bind_run in Hrun as [(x & Hw & ->)|(s1 & [] & Hw & Hrun)];
      apply wait_run in Hw as (Hq & Hl & Hx); cbn in Hq, Hl.
    - split; [lia|]. split; [exists [d]; by rewrite Hl, Forall_singleton|]. apply first_success. split; [done|].
      intros [?|([Hw _] & _)]; [done|congruence].
    - destruct (IH _ _ Hrun) as (Hb & (l & Hl' & Hf) & Hok). split; [lia|]. split.
      + exists (d :: l). rewrite Hl', Hl, <- app_assoc. by split; [|apply Forall_cons].
      + apply first_success. rewrite Hok. naive_solver. }
  destruct (replies t attempt) as [a|x] eqn:Ea.
  - destruct ((200 <=? status a) && _) eqn:Es.
    { injection Hr as <- <-. split; [cbn; lia|]. split; [done|]. apply first_success. split; [|done].
      intros _. left. by exists a. }
    assert (Hns : ¬ succeeds t attempt) by (intros (a' & Ha' & Ho); congruence).
    destruct (retryable_status (status a) false) eqn:Er.
    + apply Hagain in Hr; [done|apply retry_delay_bound| |done]. intros Hw. split; [done|]. by rewrite Ea.
    + injection Hr as <- <-. split; [cbn; lia|]. split; [done|]. apply first_success. split; [done|].
      intros [?|([_ Hg] & _)]; [done|]. rewrite Ea in Hg. destruct Hg. congruence.
  - assert (Hns : ¬ succeeds t attempt) by (intros (a' & Ha' & Ho); congruence).
    destruct (Z.of_nat attempt <? 4) eqn:E4.
    + apply Hagain in Hr; [done|apply retry_delay_bound| |done]. intros Hw. split; [done|]. rewrite Ea. lia.
    + injection Hr as <- <-. split; [cbn; lia|]. split; [done|]. apply first_success. split; [done|].
      intros [?|([_ Hg] & _)]; [done|]. rewrite Ea in Hg. lia.
Qed.

(** Completing a transfer asks at most five times, waits at most the retry limit
    between two requests, and succeeds exactly when an answer is a success and every
    one before it was lost or one to retry, with a wait that was not cancelled. *)
Theorem complete_transfer_exact t s s' r :
  complete_transfer t s = (s', r) →
  requests s' ≤ requests s + 5 ∧
  (∃ l, delays s' = delays s ++ l ∧ Forall (λ d, d ≤ MAX_RETRY_DELAY_MS) l) ∧
  (r = Ok () ↔ ∃ n, (n < 5)%nat ∧ succeeds t n ∧ ∀ m, (m < n)%nat → goes_on t m).
Proof. intros Hr. apply complete_from_run in Hr as (? & ? & ?). by split; [lia|]. Qed.

(** Receiver activity is presentable: whatever the services answer, no more than 64
    receivers are shown, each in a state the client knows, and those of a Turbo
    transfer with a finite percentage; and once the saved record is an upload with its
    credentials, only building a client or an empty instance or transfer id is an
    error: an answer that is lost or unusable is a retry. *)
Theorem activity_presentable `{JsonText, Floats} job client sessions response :
  (∀ a, sender_activity job client sessions response = Ok a →
     zlen (records a) ≤ SESSION_LIMIT ∧
     ∀ x, x ∈ records a → (rec_state x ∈ live_states ∨ rec_state x ∈ turbo_states) ∧
       (number x ≠ None → ∃ p, progress x = Some p ∧ f64_is_finite p = true ∧
          f64_le (f64_of_Z 0) p = true ∧ f64_le p (f64_of_Z 100) = true)) ∧
  (∀ j, job = Some j → direction j = "upload"%string → client = Ok () → instance j ≠ "" → transfer_id j ≠ Some "" →
     is_ok (sender_activity job client sessions response) = true).
Proof.
  assert (Hempty : ∀ a, records a = [] → zlen (records a) ≤ SESSION_LIMIT ∧
     ∀ x, x ∈ records a → (rec_state x ∈ live_states ∨ rec_state x ∈ turbo_states) ∧
       (number x ≠ None → ∃ p, progress x = Some p ∧ f64_is_finite p = true ∧
          f64_le (f64_of_Z 0) p = true ∧ f64_le p (f64_of_Z 100) = true)).
  { intros a ->. split; [done|]. intros x Hx. by apply not_elem_of_nil in Hx. }
  split.
  - unfold sender_activity. intros a Ha.
    destruct (match job with Some j => activity j | None => Ok None end) as [[u|]|]; cbn [mbind result_bind] in Ha;
      [|injection Ha as <-; by apply Hempty|done].
    destruct (a_driver u =? "webrtc")%string.
    + destruct client; cbn [mbind result_bind] in Ha; [|done]. unfold webrtc in Ha. case_match; [done|].
      destruct sessions as [l|]; [|injection Ha as <-; by apply Hempty].
      case_match eqn:El; [injection Ha as <-; by apply Hempty|].
      case_match eqn:Eb; [injection Ha as <-; by apply Hempty|]. injection Ha as <-. cbn [records shown].
      split; [unfold zlen in *; rewrite length_fmap; lia|]. intros x (y & -> & Hy)%list_elem_of_fmap.
      split; [left|done]. destruct (decide (s_status y ∈ live_states)) as [|Hn]; [done|].
      assert (existsb (λ s, negb (bool_decide (s_status s ∈ live_states))) l = true); [|congruence].
      apply existsb_exists. exists y. rewrite bool_decide_false by done. by rewrite <- list_elem_of_In.
    + destruct (_ && _); [|injection Ha as <-; by apply Hempty].
      destruct (a_monitor_token u) eqn:Em; [|injection Ha as <-; by apply Hempty].
      destruct client; cbn [mbind result_bind] in Ha; [|done]. injection Ha as <-. unfold turbo_activity. rewrite Em.
      destruct response as [[code body]|]; [|by apply Hempty].
      case_match; [by apply Hempty|]. case_match; [by apply Hempty|]. destruct body as [body|]; [|by apply Hempty].
      destruct (from_slice body ≫= monitor_page_of) as [l|]; [|by apply Hempty].
      case_match eqn:Eb; [by apply Hempty|]. apply orb_false_iff in Eb as [El Eb]. cbn [records shown].
      split; [unfold zlen in *; rewrite length_fmap; lia|]. intros x (y & -> & Hy)%list_elem_of_fmap.
      assert (Hgood : bad_session y = false).
      { apply not_true_is_false. intros Hbad. assert (existsb bad_session l = true); [|congruence].
        apply existsb_exists. exists y. by rewrite <- list_elem_of_In. }
      unfold bad_session in Hgood. rewrite !orb_false_iff, !negb_false_iff, andb_true_iff in Hgood.
      destruct Hgood as [[Hfin [H0' H100]] Hst]. apply bool_decide_eq_true in Hst. split; [by right|].
      intros _. by exists (m_progress y).
  - intros j -> Hd -> Hi Ht. unfold sender_activity, activity. rewrite Hd, String.eqb_refl. cbn [negb mbind result_bind].
    destruct (transfer_id j) as [t|], (upload_token j) as [tok|]; cbn [mbind result_bind]; try done.
    repeat case_match; try done. cbn [mbind result_bind]. unfold webrtc. cbn [a_instance a_transfer_id].
    unfold is_empty. rewrite !bool_decide_false by congruence. cbn [orb]. by repeat case_match.
Qed.

(** ** Examples *)

Module Example_shares.
Import Example_codec Example_upload.

Definition owned (st : string) : Share :=
  {| record := Some {| sealed_attached_note := None; version := 1; id := "u"; direction := "upload"; state := st;
       instance := "https://a"; done_bytes := 0; total := 3; transfer_id := Some ulid1;
       upload_token := Some "t"; monitor_token := None; share_url := Some "/d/x"; delete_token := Some "d";
       share_key := replicate 32 1; password_salt := None; master_key := []; chunk_bytes := 2;
       server_concurrency := 4; upload_status := true; turbo := false; descriptor_published := false;
       encrypted_descriptor := None; transport := None; driver := "http"; join_token := None;
       exact_manifest := None; receipt_url := None; recipient := None; items := [item0]; chunks := [] |};
     place := Listed; asked := [] |}.
Definition working (status : Z) (remove : Io) : Outside :=
  {| opened := Ok (); built := Ok (); answer := Ok status; renaming := Done; removing := remove; saving := Done |}.

(** A revocation, one whose directory could not be removed, one that was refused, and
    one of an upload that was stopped while it was reserved. *)
Example revocations :
  (place (fst (revoke (working 202 Done) (owned "sending"))),
   place (fst (revoke (working 202 FailedBefore) (owned "sending"))),
   place (fst (revoke (working 404 Done) (owned "sending"))),
   snd (revoke (working 202 Done) (owned "reserving")))
  = (Gone, Discarded, Listed, Err "invalid saved upload checkpoint").
Proof. vm_compute. reflexivity. Qed.

Definition turns (l : list (result string Reply)) : Turns :=
  {| replies := λ k, default (Err "offline") (l !! k); waits := λ _, Ok () |}.
Definition code (n : Z) : result string Reply := Ok {| status := n; retry_after := None |}.
Definition none_sent : Sent := {| requests := 0; delays := [] |}.
Definition told (r : Sent * result string ()) : Z * bool := (requests (fst r), is_ok (snd r)).

Example completions :
  told (complete_transfer (turns [code 503; Err "reset"; code 200]) none_sent) = (3, true) ∧
  told (complete_transfer (turns [code 422; code 200]) none_sent) = (1, false) ∧
  told (complete_transfer (turns []) none_sent) = (5, false).
Proof. vm_compute. repeat split. Qed.
End Example_shares.
